(* ===== verification/_CoqProject ===== *)
-Q . S2P
Prelude.v
Utf8.v
Utf8Scalar.v
Substring.v
GgufTypes.v
GgufParser.v
GgufAccess.v
DFlashCache.v
Schedule.v
Stream.v
Timefmt.v
Session.v
CacheSnapshot.v
Radix.v
Resident.v
EngineSession.v
SlotPool.v
DecodeBatch.v
Reuse.v
SpecSession.v
Speculative.v
SpecProofs.v
Tokenizer.v
TokenizerTables.v
TokenizerCodec.v
Detokenizer.v
StopFilter.v
ChatText.v
Grammar.v
GrammarParser.v
GrammarText.v
GrammarClosure.v
GrammarParserProofs.v
GrammarLanguage.v
GrammarMatcher.v
GrammarRepeat.v
GrammarQuote.v
Schema.v
SchemaDecimal.v
GbnfSyntax.v
GbnfReading.v
GbnfRules.v
JsonRules.v
SchemaText.v
SchemaRanges.v
SchemaShape.v
SchemaDocs.v
SchemaPhrases.v
SchemaCompiler.v
SchemaLimits.v
AtemStream.v
AtemProofs.v
AtemAnswers.v
AtemText.v
AtemStreaming.v
ToolGrammar.v
TextLang.v
ToolSyntax.v
ToolAnswers.v
ToolLanguage.v
ToolReading.v
ToolCalls.v
ToolLimits.v
Sampling.v
Float64.v
Verifier.v
VerifierProofs.v
VerifierJournal.v
VerifierDisk.v
VerifierChain.v
VerifierSafety.v
VerifierRuns.v
VerifierRecovery.v
SessionStore.v
SessionRuns.v
Transfer.v
StorageTier.v
TransferSafety.v
