(* ===== verification/Prelude.v ===== *)
(** * Verification of Muser

    Muser is a Rust inference engine: it loads a GGUF model, tokenizes text, decodes on a
    Metal, ANE or CPU backend with a DFlash speculative drafter, reuses key/value caches
    between requests, hands prefills over between machines, and serves an HTTP API with
    resumable streams.  This library models the parts of it whose correctness is logic
    rather than floating point, each from its source file under crates/, and proves what the
    rest of the program relies on.

    ** The parts and where they are modelled

    - Machine integers, bytes, results, and the lemmas every file shares: this file.
      [std]'s UTF-8 (validation, error position, lossy decoding, characters): [Utf8]; which
      scalars have an encoding that starts with given bytes: [Utf8Scalar]; searching strings
      ([find], [starts_with], character boundaries): [Substring].
    - Model files, crates/muser-engine/src/gguf/: the readers and types are [GgufTypes],
      [GgufFile::parse] is [GgufParser.parse] over a cursor on the file's bytes, the typed
      lookups and the byte string hashed as tokenizer identity are [GgufAccess].
    - Tokenizer, crates/muser-engine/src/tokenizer/: [Tokenizer] has every table of
      [BpeTokenizer::new], encoding, merging, special-token splitting and decoding;
      [TokenizerTables] shows that the tables of a well-formed vocabulary spell what they
      should; [TokenizerCodec] has the theorems; [Detokenizer] is streaming.rs.
    - DFlash context cache, crates/muser-engine/src/dflash/{cache,config}.rs: [DFlashCache],
      the record [DFlashContextKvCache] with its methods, a checkpoint and a snapshot.
    - Cache snapshots and plane codecs, crates/muser-engine/src/cache.rs (and the layer
      geometry of config.rs): [CacheSnapshot].
    - Resident prefix cache, crates/muser-kvpack/src/resident.rs: [Radix] is the tree,
      [Resident] the cache with its chunk pool, eviction and statistics.
    - Sessions, crates/muser-engine/src/api.rs (cache side) and the exact install of
      crates/muser-kvpack/src/session.rs: [EngineSession], over the interface [Backend].
    - Prefix-reuse ladder, crates/muser-kvpack/src/reuse.rs: [Reuse], over the interfaces
      [DurableTier] and [RemoteTier], [Resident] and [EngineSession].
    - Speculative decoding: [SpecSession] is the compute side of a session of api.rs (decode,
      forward, the transactional greedy verifier) over the interface [Target]; [Speculative]
      is crates/muser-engine/src/dflash/{hidden,spec}.rs (captured hidden states, statistics,
      acceptance gate, stop set, the greedy generation loop); [SpecProofs] has the theorems.
    - Grammar-constrained decoding, crates/muser-server/src/grammar.rs: [Grammar] is the
      matcher (Earley charts, closure, characters, tokens, bytes), [GrammarParser] the GBNF
      parser and the writer of literals.  The proofs are split by what they are about:
      character sets and UTF-8 ranges ([GrammarText]), the closure loop ([GrammarClosure]),
      the parser ([GrammarParserProofs]), the language and the charts ([GrammarLanguage]),
      the matcher over bytes ([GrammarMatcher]), repetition ([GrammarRepeat]) and literals
      ([GrammarQuote]).
    - JSON schemas, the compiler in the same file: [Schema] has every rule of [SchemaGrammar],
      over serde's values and the class [JsonText].  Its specification is in two layers.
      [GbnfSyntax] is the grammar notation as syntax with the language it denotes;
      [GbnfReading] and [GbnfRules] show that the parser reads well-written text as that
      language.  [SchemaShape] is the reference for schemas: their shapes, documents and words.
      In between, [SchemaText] relates texts to languages, [JsonRules] has the fixed rules,
      [SchemaRanges] (on the numerals of [SchemaDecimal]) the integer ranges, [SchemaDocs] the
      dispatch on keywords, [SchemaPhrases] the texts the compiler builds; [SchemaCompiler] puts
      them together, with the invariant of the builder.  [SchemaLimits] has what it does not serve.
    - Transfer schedule, crates/muser-cluster/src/schedule.rs: [Schedule], which uses the
      retention rule of [DFlashCache].
    - The random engine of the sampler, crates/muser-engine/src/sampling.rs: [Sampling]; its
      floating-point draws, the samplers of a given distribution and sparse rows: [Float64].
    - Remote verifier, crates/muser-cluster/src/verifier_v2.rs: [Verifier] has the records, what
      makes each valid, signing, and the fragment assembler, over the class [VerifierCode];
      [VerifierJournal] is [DurableVerifierJournalV2], the files of the journal and every
      operation.  The proofs: what verifying a result fixes ([VerifierProofs], with the laws
      [VerifierLaws]), slots ([VerifierDisk]), the chain of decisions and opening
      ([VerifierChain]), what one operation leaves behind ([VerifierSafety], [VerifierRuns]) and
      runs with crashes ([VerifierRecovery]).
    - Server, crates/muser-server/src/: resumable streams (resumable_stream.rs) are [Stream];
      the session table and event log (session.rs) are [Session]; timestamps (timefmt.rs) are
      [Timefmt].  Admission to the resident slots and the batching of concurrent decodes
      (state.rs) are [SlotPool], whose slots hold the sessions of [EngineSession], and
      [DecodeBatch].  From sampled tokens to text (openai.rs): the stop filter is [StopFilter],
      the token loop over the [Detokenizer] is [ChatText]; the assistant's wire format is
      [AtemStream] (the stream parser, the call parser, the parser of whole answers), with the
      proofs on growing texts in [AtemProofs], on loops and whole texts in [AtemAnswers], on
      character boundaries in [AtemText], and the theorem in [AtemStreaming].  The grammars chat
      requests are decoded under and the checks of tools and calls (openai.rs) are [ToolGrammar];
      [TextLang] has the texts of a grammar's language, [ToolSyntax] the tool grammar as syntax,
      [ToolAnswers] the answers it is to admit, [ToolLanguage] that it does, [ToolReading] how they
      are read back, [ToolCalls] the theorem, [ToolLimits] what is not guaranteed.  Logical sessions
      that outlive a request (session_store.rs): [SessionStore] has the registry, bundle validation and
      encrypted files; [SessionRuns] the interleavings of requests, and the theorems.  Moving
      them (session_store.rs and the drivers in axum_httpd.rs): [Transfer] has the journals,
      exports and imports of a node, [TransferSafety] the protocol between two nodes,
      [StorageTier] the host that only keeps payloads.

    ** How code is modelled

    A struct is a [Record], an enum an [Inductive], a method a function from the old state to
    the new state and its [result]; [let?] is the question mark. A [usize] or [u64] is a [Z] in
    range, with [checked_], [saturating_] and wrapping operations written out; plain [+] and
    [-] wrap in the release profile, and where that matters the model or a theorem's hypothesis
    says so. Sizes that only count rows are [nat]. Floats that are only carried are their bit
    patterns; where they are computed with they are [SpecFloat]s, rounded to nearest. A panic
    is a value of its own ([Err Panic], [None]). A [HashMap] is a [gmap]; where the code
    iterates one, the order is shown not to matter or is sorted first. SHA-256, MACs and
    signatures, canonical JSON, the regular-expression matcher, the compute backend, the
    drafting assistant and the durable and remote stores are parameters; what is assumed of
    them is a class or a named hypothesis ([BackendLaws], [TargetLaws], [DurableLaws],
    [RemoteLaws], [SealingLaws], [VerifierLaws], [cooperative], [contiguous]) with a concrete
    instance.

    ** What is proved

    - GGUF (C1-C3): an accepted file satisfies every limit and all its tensors lie inside it,
      without overflow; every file written in the format is read back exactly; the tokenizer
      digest input is canonical.
    - Answer text (C4, C36): an answer is the decoded text of its tokens up to the first stop
      string, complete at the limit, and short by at most the held bytes at an
      end-of-generation token; a streamed answer does not depend on how it is cut into pieces,
      never splits a character, and says what the parser of whole answers says.
    - DFlash cache (C5, C6, C8): committed rounds refine the abstract history (sink and window
      rows), rollback restores exactly, snapshots round-trip.
    - Logical sessions (C7, C9, C20, C26): under every interleaving no committed turn is lost,
      a repeated request takes effect at most once, a saved session is restored as it was, and
      a move deletes a session only after the destination has installed an export of it.
    - Schedule (C10, C12): the segments tile exactly what is missing, and refusals are
      characterised.
    - Remote verifier (C11, C19, C31, C39): from any journal, after any operations and crashes,
      opening gives back every published result and committed token; no two results decide the
      same position; a result's core verifies exactly when the target's builder makes it; the
      fragments of a result may arrive in any order.  Premises: the identifiers in use have
      distinct slot file names, a commit is for the request that was reserved, closures come from
      an assembler, and no crash leaves part of a slot file (what the code does then is
      [VerifierRecovery.torn_slot_stays_shut]).
    - Streams (C13): resumed reads are exact under every interleaving.
    - Tool calls (C14): a request that requires a tool is decoded under a grammar that admits
      exactly the written answers with calls of eligible tools, and those that are read back
      pass the final check when their arguments fit the compiled schemas.  The premises of
      reading back (proper names, no markers in reasoning, a matching recipient) are not
      enforced by the grammar: [ToolLimits].
    - Slots and batches (C15, C17, C33): a slot has one owner under every interleaving, panics
      included; a queued decode is served within a bounded number of batches; no job is lost
      or run twice.
    - Random engine (C16): it is the Mersenne-Twister recurrence, and resumes from snapshots.
    - Acceptance gate (C18): a closed gate reopens after at most 512 further tokens.
    - Resident cache (C21, C22): lookups serve the deepest matching cut, byte for byte, in
      every reachable cache; insertion evicts least-recently-used entries within capacity.
    - Sessions and reuse (C23-C25, C27): exact installs are atomic; the ladder never serves
      beyond what the durable tier authenticates; a prepared session holds the matched prefix;
      publish then prepare restores the generation.
    - Tokenizer (C28-C30, C32, C34): the merge loop is byte-pair encoding; encoding round-trips
      through decoding, is total and cannot be made to emit control tokens by untrusted text;
      streaming reads every byte of any stream.
    - Grammars (C35, C37, C38): the matcher admits exactly the token sequences whose bytes have
      a viable reading, and accepts exactly the sentences; the parser ends and returns well-formed
      grammars.  A schema of the shapes
      of [SchemaShape] compiles to a text the parser accepts, whose language is the set of texts
      the schema describes: [true] and [false], [const], [enum], [oneOf] and [anyOf], types and
      lists of types, bounded integers, bounded strings, tuples, lists, objects without
      undeclared keys, references to definitions, recursive ones too, and annotations.
    - Speculative decoding (C40): whatever the assistant drafts, the generated tokens are
      those of plain greedy decoding up to the stop token or the limit.
    - Beside the list, theorems of their components: descriptors found are in the file
      ([GgufAccess.tensor_lookup_in_file]), plane codecs round-trip
      ([CacheSnapshot.plane_codecs_roundtrip]), DFlash segments are what the receiver's cache
      retains ([Schedule.dflash_ranges_are_retained]), special tokens are split greedily
      ([TokenizerCodec.split_special_tokens_greedy]), the range of an incomplete UTF-8 prefix is
      exact ([GrammarText.incomplete_range_exact]), written literals are read back
      ([GrammarQuote.quoted_literal_reads_back]), repetitions generate the languages they denote
      ([GrammarRepeat.repeat_rule_language]), the unfinished round of a journal is unique
      and known ([VerifierRecovery.pending_round_known]), the ordered sampler chooses a candidate
      ([Float64.sample_distribution_mt_ordered_chooses]), tile writes place exactly their rows
      ([CacheSnapshot.write_f16_tile_places_rows]), retained rows are addressable and reachable caches
      well formed ([DFlashCache]), stream lookup is exact ([Stream.lookup_exact]), replacement
      isolates conversations ([Stream.create_or_replace_isolates]), the calendar
      is the Gregorian one ([Timefmt.civil_from_days_is_gregorian]), registry calls are per
      session ([Session.registry_calls_are_per_session]), remote offers are usable
      ([Reuse.prepare_remote_offers_usable_cuts]), and streaming equals batch decoding on
      valid text ([Detokenizer.streaming_is_batch_decoding]).

    Each theorem with hypotheses has a witness beside it on a concrete input.  Examples that
    are not theorems of the list record where the code departs from its comments
    ([DFlashCache.prompt_gap_before_sink], [DFlashCache.geometry_validate_wraps],
    [Schedule.schedule_sends_swa_first], [TokenizerCodec.spm_fallback_prefers_letter],
    [TokenizerCodec.empty_special_never_ends], [ChatText.eos_loses_held_text],
    [SlotPool.waiter_admitted_when_unhealthy], [SessionRuns.restore_breaks_a_lease],
    [StorageTier.storage_move_is_not_restored], [VerifierRecovery.commit_keeps_a_wrong_mac],
    [SchemaLimits.self_all_of_exhausts], [SchemaLimits.exclusive_minimum_ignored],
    [ToolLimits.comment_hides_root], [ToolLimits.added_rule_collides]).

    ** Fuel

    Loops that are not structural carry fuel that bounds their iterations: the length of the
    input (UTF-8 chunks, merging, encoding, splitting, draining, grammar text, wire format), the number of
    tiles, the number of entries (eviction), the nesting limit (GGUF metadata), the number of
    possible Earley items (closure), the tokens still wanted (generation), the commits still to
    be replayed (opening a journal), the depth of a schema and its definitions (the schema
    compiler, whose code has only its stack: [SchemaCompiler.compile_shape] says how much is
    enough, [SchemaLimits.self_all_of_exhausts] when none is).  Lemmas show that
    this is enough ([Utf8.chunks_fuel_enough], [TokenizerCodec.merge_loop_spec],
    [encode_loop_spec], [split_loop_spec], [Detokenizer.drain_fuel_enough],
    [GrammarClosure.close_loop_spec], [GrammarParserProofs.wp_descent],
    [SpecProofs.gen_loop_post], [AtemAnswers.loop_ends], [AtemAnswers.parse_atem_calls_ends],
    and the schedule's and eviction's own),
    so no theorem holds because a loop gave up.

    ** What is not modelled

    Kernels and devices (Metal, ANE, CoreML, the CPU reference), HTTP and sockets, TLS, the
    JSON and template crates, the durable and remote stores behind the reuse ladder's
    interfaces, the sampled and mirrored speculative routes, the truncation chain that makes a
    distribution out of logits, the lock, file modes and directory set-up of the verifier's journal, and the Python tooling.
    Patterns, formats, [allOf] and objects with undeclared keys are modelled and outside the
    theorem on schemas.  Threads interleave at critical sections; a poisoned mutex is modelled in
    [SlotPool] only.  Not yet modelled, though it is logic: the codec and round driver of the
    verifier gateway, context compaction, safetensors, and the kvpack layout. *)
From stdpp Require Export base option list gmap strings numbers sorting.
From Stdlib Require Export ZArith Lia.
From Stdlib Require Import Strings.Byte Strings.Ascii.

Abbreviation byte := Corelib.Init.Byte.byte.

(** ** Results: Rust's [Result<A, E>], and [?] as [let?]. *)
Inductive result (E A : Type) : Type :=
| Ok (a : A)
| Err (e : E).
Arguments Ok {E A} a.
Arguments Err {E A} e.

Declare Scope result_scope.
Delimit Scope result_scope with result.
Notation "'let?' x := m 'in' k" :=
  (match m with Ok x => k | Err err => Err err end)
  (at level 10, x pattern, m at level 100, k at level 200)
  : result_scope.
Open Scope result_scope.

(** [Option::ok_or]. *)
Definition ok_or {E A} (o : option A) (e : E) : result E A :=
  match o with Some a => Ok a | None => Err e end.

Definition result_map_err {E F A} (f : E -> F) (r : result E A) : result F A :=
  match r with Ok a => Ok a | Err e => Err (f e) end.

Definition is_ok {E A} (r : result E A) : bool :=
  match r with Ok _ => true | Err _ => false end.

#[global] Instance result_eq_dec {E A} `{EqDecision E, EqDecision A} :
  EqDecision (result E A).
Proof. solve_decision. Defined.

(** [iter().map(f).collect::<Result<Vec<_>, _>>()]. *)
Fixpoint traverse {E A B} (f : A -> result E B) (l : list A) : result E (list B) :=
  match l with
  | [] => Ok []
  | x :: l =>
      let? y := f x in
      let? ys := traverse f l in
      Ok (y :: ys)
  end.

(** ** Tactics shared by the components. *)

(** Split the matches of a hypothesis until it is a plain equation, and use it. *)
Ltac split_match_in H :=
  match type of H with
  | context [match ?x with _ => _ end] =>
      let E := fresh "Hm" in destruct x eqn:E; try discriminate H
  end.
Ltac inv_ok H := repeat (split_match_in H; simplify_eq/=); simplify_eq/=.

(** One step of a [let?], [match] or [if] at the head of a hypothesis. *)
Tactic Notation "ok_step" hyp(H) "as" simple_intropattern(p) ident(E) :=
  match type of H with
  | match ?m with _ => _ end = _ =>
      destruct m as p eqn:E; try discriminate H; cbn beta iota in H
  end.

Ltac bool_prop :=
  repeat match goal with
  | H : (_ && _)%bool = true |- _ => apply andb_true_iff in H as [? ?]
  | H : (_ || _)%bool = false |- _ => apply orb_false_iff in H as [? ?]
  | H : negb _ = true |- _ => apply negb_true_iff in H
  | H : negb _ = false |- _ => apply negb_false_iff in H
  | H : (_ <=? _)%Z = true |- _ => apply Z.leb_le in H
  | H : (_ <=? _)%Z = false |- _ => apply Z.leb_gt in H
  | H : (_ <? _)%Z = true |- _ => apply Z.ltb_lt in H
  | H : (_ <? _)%Z = false |- _ => apply Z.ltb_ge in H
  | H : (_ =? _)%Z = true |- _ => apply Z.eqb_eq in H
  | H : (_ =? _)%Z = false |- _ => apply Z.eqb_neq in H
  | H : (_ <=? _)%nat = true |- _ => apply Nat.leb_le in H
  | H : (_ <=? _)%nat = false |- _ => apply Nat.leb_gt in H
  | H : (_ <? _)%nat = true |- _ => apply Nat.ltb_lt in H
  | H : (_ <? _)%nat = false |- _ => apply Nat.ltb_ge in H
  | H : (_ =? _)%nat = true |- _ => apply Nat.eqb_eq in H
  | H : (_ =? _)%nat = false |- _ => apply Nat.eqb_neq in H
  | H : bool_decide _ = true |- _ => apply bool_decide_eq_true in H
  | H : bool_decide _ = false |- _ => apply bool_decide_eq_false in H
  end.

(** The databases of the development: [muser] for resolution, [muser_len] for
    length rewriting. *)
Create HintDb muser.
Create Rewrite HintDb muser_len.

(** ** Machine integers.

    An unsigned w-bit integer is a [Z] in [0, 2^w); the target platforms are
    64-bit, so [usize] is [u64]. *)
Open Scope Z_scope.

Definition U8_MAX : Z := 2 ^ 8 - 1.
Definition U16_MAX : Z := 2 ^ 16 - 1.
Definition U32_MAX : Z := 2 ^ 32 - 1.
Definition U64_MAX : Z := 2 ^ 64 - 1.
Definition USIZE_MAX : Z := U64_MAX.

Definition is_uint (w z : Z) : Prop := 0 <= z < 2 ^ w.
Definition is_sint (w z : Z) : Prop := - 2 ^ (w - 1) <= z < 2 ^ (w - 1).

#[global] Instance is_uint_dec w z : Decision (is_uint w z).
Proof. unfold is_uint. apply _. Defined.
#[global] Instance is_sint_dec w z : Decision (is_sint w z).
Proof. unfold is_sint. apply _. Defined.

Definition checked_add (w a b : Z) : option Z :=
  if a + b <? 2 ^ w then Some (a + b) else None.
Definition checked_mul (w a b : Z) : option Z :=
  if a * b <? 2 ^ w then Some (a * b) else None.
Definition saturating_add (w a b : Z) : Z := Z.min (a + b) (2 ^ w - 1).
Definition saturating_mul (w a b : Z) : Z := Z.min (a * b) (2 ^ w - 1).
Definition saturating_sub (a b : Z) : Z := Z.max (a - b) 0.
Definition wrapping_add (w a b : Z) : Z := (a + b) mod 2 ^ w.
Definition wrapping_mul (w a b : Z) : Z := (a * b) mod 2 ^ w.
(** [a << b] for a shift below the width: the high bits are lost. *)
Definition wrapping_shl (w a b : Z) : Z := Z.shiftl a b mod 2 ^ w.

(** [value as iN] of an unsigned value, and back ([value as uN]). *)
Definition as_signed (w z : Z) : Z := if z <? 2 ^ (w - 1) then z else z - 2 ^ w.
Definition as_unsigned (w z : Z) : Z := z mod 2 ^ w.

(** [usize::try_from(n).ok()] for an unsigned [n]. *)
Definition usize_try_from (n : Z) : option Z := if n <? 2 ^ 64 then Some n else None.

Definition div_ceil (a b : Z) : Z := (a + b - 1) / b.
Definition is_multiple_of (a b : Z) : bool :=
  if b =? 0 then a =? 0 else a mod b =? 0.
Definition is_power_of_two (z : Z) : bool := (0 <? z) && (z =? 2 ^ Z.log2 z).

Definition zlen {A} (l : list A) : Z := Z.of_nat (length l).

Lemma checked_add_Some w a b c :
  checked_add w a b = Some c <-> c = a + b /\ a + b < 2 ^ w.
Proof. unfold checked_add. case_match; bool_prop; naive_solver lia. Qed.

Lemma checked_mul_Some w a b c :
  checked_mul w a b = Some c <-> c = a * b /\ a * b < 2 ^ w.
Proof. unfold checked_mul. case_match; bool_prop; naive_solver lia. Qed.

Lemma usize_try_from_u64 n : is_uint 64 n -> usize_try_from n = Some n.
Proof. unfold is_uint, usize_try_from. intros. case_match; bool_prop; [done | lia]. Qed.

Lemma as_signed_range w z : 1 <= w -> is_uint w z -> is_sint w (as_signed w z).
Proof.
  unfold is_uint, is_sint, as_signed. intros Hw Hz.
  assert (2 ^ w = 2 * 2 ^ (w - 1)) by (rewrite <- Z.pow_succ_r by lia; f_equal; lia).
  case_match; bool_prop; lia.
Qed.

Lemma as_signed_unsigned w z : 1 <= w -> is_sint w z -> as_signed w (as_unsigned w z) = z.
Proof.
  unfold is_sint, as_signed, as_unsigned. intros Hw Hz.
  assert (2 ^ w = 2 * 2 ^ (w - 1)) by (rewrite <- Z.pow_succ_r by lia; f_equal; lia).
  destruct (decide (0 <= z)).
  - rewrite Z.mod_small by lia. case_match; bool_prop; lia.
  - replace (z mod 2 ^ w) with (z + 2 ^ w); [case_match; bool_prop; lia|].
    apply Z.mod_unique with (-1); lia.
Qed.

Lemma as_unsigned_range w z : 0 <= w -> is_uint w (as_unsigned w z).
Proof. intros. unfold is_uint, as_unsigned. apply Z.mod_pos_bound. lia. Qed.

Lemma as_unsigned_signed w z : 1 <= w -> is_uint w z -> as_unsigned w (as_signed w z) = z.
Proof.
  unfold is_uint, as_signed, as_unsigned. intros Hw Hz. case_match; bool_prop.
  - apply Z.mod_small. lia.
  - symmetry. apply Z.mod_unique with (-1); lia.
Qed.

Lemma zlen_nonneg {A} (l : list A) : 0 <= zlen l.
Proof. unfold zlen. lia. Qed.
Lemma zlen_app {A} (l k : list A) : zlen (l ++ k) = zlen l + zlen k.
Proof. unfold zlen. rewrite length_app. lia. Qed.
Lemma zlen_cons {A} (x : A) l : zlen (x :: l) = 1 + zlen l.
Proof. unfold zlen. simpl. lia. Qed.
Lemma zlen_nil {A} : zlen (@nil A) = 0.
Proof. done. Qed.
Lemma to_nat_zlen {A} (l : list A) : Z.to_nat (zlen l) = length l.
Proof. unfold zlen. apply Nat2Z.id. Qed.
#[export] Hint Rewrite @zlen_app @zlen_cons @zlen_nil : muser_len.

Lemma is_power_of_two_spec z : is_power_of_two z = true -> exists k, 0 <= k /\ z = 2 ^ k.
Proof.
  unfold is_power_of_two. intros. bool_prop. exists (Z.log2 z).
  split; [apply Z.log2_nonneg | done].
Qed.

(** Rounding up to a multiple, as the loaders align offsets. *)
Lemma round_up_bounds p a : 0 < a -> p <= (p + (a - 1)) / a * a < p + a.
Proof.
  intros. pose proof (Z.div_mod (p + (a - 1)) a ltac:(lia)).
  pose proof (Z.mod_pos_bound (p + (a - 1)) a ltac:(lia)). nia.
Qed.

(** ** Bytes and little-endian integers. *)
#[global] Instance byte_eq_dec : EqDecision byte := Byte.byte_eq_dec.
#[global] Program Instance byte_countable : Countable byte :=
  inj_countable Byte.to_N Byte.of_N _.
Next Obligation. apply Byte.of_to_N. Qed.

Definition Z_of_byte (b : byte) : Z := Z.of_N (Byte.to_N b).
Definition byte_of_Z (z : Z) : byte :=
  match Byte.of_N (Z.to_N (z mod 256)) with Some b => b | None => x00 end.

Fixpoint from_le_bytes (bs : list byte) : Z :=
  match bs with
  | [] => 0
  | b :: bs => Z_of_byte b + 256 * from_le_bytes bs
  end.

Fixpoint to_le_bytes (n : nat) (z : Z) : list byte :=
  match n with
  | O => []
  | S n => byte_of_Z z :: to_le_bytes n (z / 256)
  end.

Lemma Z_of_byte_range b : 0 <= Z_of_byte b < 256.
Proof. unfold Z_of_byte. pose proof (Byte.to_N_bounded b). lia. Qed.

Lemma byte_of_Z_of_byte b : byte_of_Z (Z_of_byte b) = b.
Proof.
  unfold byte_of_Z. rewrite Z.mod_small by apply Z_of_byte_range.
  unfold Z_of_byte. rewrite N2Z.id. by rewrite Byte.of_to_N.
Qed.

Lemma Z_of_byte_of_Z z : Z_of_byte (byte_of_Z z) = z mod 256.
Proof.
  unfold byte_of_Z, Z_of_byte. pose proof (Z.mod_pos_bound z 256 ltac:(lia)).
  destruct (Byte.of_N (Z.to_N (z mod 256))) as [b|] eqn:E.
  - apply Byte.to_of_N in E. rewrite E. lia.
  - pose proof (Byte.to_of_N_option_map (Z.to_N (z mod 256))) as Ho.
    rewrite E in Ho. simpl in Ho. case_match eqn:Hle; [done|].
    apply N.leb_gt in Hle. lia.
Qed.

Lemma length_to_le_bytes n z : length (to_le_bytes n z) = n.
Proof. revert z. induction n; intros; simpl; auto. Qed.
#[export] Hint Rewrite length_to_le_bytes : muser_len.

Lemma from_to_le_bytes n z :
  0 <= z < 256 ^ Z.of_nat n -> from_le_bytes (to_le_bytes n z) = z.
Proof.
  revert z. induction n as [|n IH]; intros z Hz; simpl; [simpl in Hz; lia|].
  rewrite Nat2Z.inj_succ, Z.pow_succ_r in Hz by lia.
  rewrite Z_of_byte_of_Z, IH.
  - pose proof (Z.div_mod z 256 ltac:(lia)). lia.
  - split; [apply Z.div_pos; lia | apply Z.div_lt_upper_bound; lia].
Qed.

Lemma to_from_le_bytes bs : to_le_bytes (length bs) (from_le_bytes bs) = bs.
Proof.
  induction bs as [|b bs IH]; simpl; [done|].
  pose proof (Z_of_byte_range b) as Hb. f_equal.
  - rewrite <- (byte_of_Z_of_byte b) at 2. unfold byte_of_Z.
    rewrite (Z.mul_comm 256), Z.mod_add, !(Z.mod_small (Z_of_byte b)) by lia. done.
  - rewrite (Z.mul_comm 256), Z.div_add, (Z.div_small (Z_of_byte b)) by lia. done.
Qed.

Lemma from_le_bytes_range bs : 0 <= from_le_bytes bs < 256 ^ zlen bs.
Proof.
  induction bs as [|b bs IH]; [done|].
  rewrite zlen_cons, Z.pow_add_r by (pose proof (zlen_nonneg bs); lia).
  pose proof (Z_of_byte_range b). simpl. lia.
Qed.

Lemma to_le_bytes_inj n z z' :
  0 <= z < 256 ^ Z.of_nat n -> 0 <= z' < 256 ^ Z.of_nat n ->
  to_le_bytes n z = to_le_bytes n z' -> z = z'.
Proof. intros ?? E%(f_equal from_le_bytes). by rewrite !from_to_le_bytes in E. Qed.

#[global] Arguments to_le_bytes : simpl never.
#[global] Arguments from_le_bytes : simpl never.

(** ** Rust strings: the UTF-8 bytes, as a [string]. *)
Definition string_bytes (s : string) : list byte := String.list_byte_of_string s.
Definition bytes_string (bs : list byte) : string := String.string_of_list_byte bs.

Lemma bytes_string_bytes s : bytes_string (string_bytes s) = s.
Proof. apply String.string_of_list_byte_of_string. Qed.
Lemma string_bytes_string bs : string_bytes (bytes_string bs) = bs.
Proof. apply String.list_byte_of_string_of_list_byte. Qed.
#[global] Instance string_bytes_inj : Inj (=) (=) string_bytes.
Proof. intros s s' E%(f_equal bytes_string). by rewrite !bytes_string_bytes in E. Qed.

Lemma mjoin_cons {A} (x : list A) xs : mjoin (x :: xs) = x ++ mjoin xs.
Proof. done. Qed.
Lemma mjoin_nil {A} : mjoin (@nil (list A)) = [].
Proof. done. Qed.

Lemma existsb_false_Forall {A} (f : A -> bool) l :
  existsb f l = false -> Forall (fun x => f x = false) l.
Proof.
  induction l as [|x l IH]; simpl; intros H; [constructor|].
  apply orb_false_iff in H as [H1 H2]. auto.
Qed.

(** Rust's order on strings: lexicographic on the bytes. *)
Definition string_le (a b : string) : Prop := String.leb a b = true.
#[global] Instance string_le_dec a b : Decision (string_le a b).
Proof. unfold string_le. apply _. Defined.

(** It is a total order. *)
Lemma string_le_cons a s b t :
  string_le (String a s) (String b t) <->
  (N_of_ascii a < N_of_ascii b)%N \/ (a = b /\ string_le s t).
Proof.
  unfold string_le, String.leb. simpl. unfold Ascii.compare.
  destruct (N.compare_spec (N_of_ascii a) (N_of_ascii b)) as [E|E|E].
  - apply (f_equal ascii_of_N) in E. rewrite !ascii_N_embedding in E. subst.
    split; [by right|]. intros [?|[_ ?]]; [lia | done].
  - naive_solver.
  - split; [done|]. intros [?|[-> _]]; lia.
Qed.

#[global] Instance string_le_trans : Transitive string_le.
Proof.
  intros s. induction s as [|a s IH]; intros [|b t] [|c u] Hst Htu; try done.
  rewrite !string_le_cons in *. destruct Hst as [?|[-> ?]], Htu as [?|[-> ?]];
    [left; lia | by left | by left |]. right. split; [done | by eapply IH].
Qed.
#[global] Instance string_le_total : Total string_le.
Proof. intros a b. apply String.leb_total. Qed.
#[global] Instance string_le_antisymm : AntiSymm (=) string_le.
Proof. intros a b. apply String.leb_antisym. Qed.

(** [slice.chunks(n)]. *)
Fixpoint chunks_fuel {A} (fuel n : nat) (l : list A) : list (list A) :=
  match fuel, l with
  | S fuel, _ :: _ => take n l :: chunks_fuel fuel n (drop n l)
  | _, _ => []
  end.
Definition chunks {A} (n : nat) (l : list A) : list (list A) := chunks_fuel (length l) n l.

Lemma chunks_fuel_concat {A} fuel n (l : list A) :
  (0 < n)%nat -> (length l <= fuel)%nat -> mjoin (chunks_fuel fuel n l) = l.
Proof.
  intros Hn. revert l. induction fuel as [|fuel IH]; intros [|x l] Hf; try done.
  - simpl in Hf. lia.
  - cbn [chunks_fuel]. rewrite mjoin_cons, IH, take_drop; [done|].
    rewrite length_drop. simpl in *. lia.
Qed.
Lemma chunks_concat {A} n (l : list A) : (0 < n)%nat -> mjoin (chunks n l) = l.
Proof. intros. by apply chunks_fuel_concat. Qed.
Lemma chunks_fuel_lengths {A} fuel n k (l : list A) :
  (0 < n)%nat -> length l = (k * n)%nat -> Forall (fun c => length c = n) (chunks_fuel fuel n l).
Proof.
  intros Hn. revert k l. induction fuel as [|fuel IH]; intros k [|x l] Hl; try constructor.
  - destruct k as [|k]; [done|]. rewrite length_take, Hl. simpl. lia.
  - destruct k as [|k]; [done|]. apply (IH k). rewrite length_drop, Hl. simpl. lia.
Qed.
