(* ===== verification/Utf8.v ===== *)
(** * UTF-8 as the Rust standard library validates it.

    [std::str::from_utf8], [String::from_utf8] and [String::from_utf8_lossy],
    which the GGUF reader and the detokenizer call: the well-formed byte
    sequences of the Unicode standard's table 3-7, the position and length of
    the first error, and the lossy decoding that puts one U+FFFD for each
    maximal ill-formed part. *)
From Stdlib Require Import Strings.Byte.
From S2P Require Import Prelude.

Abbreviation str := (list byte).

(** What a byte string starts with: a scalar value of [n] bytes, an ill-formed
    part of [n] bytes, or a sequence cut off by the end of the input. *)
Inductive utf8_head : Type :=
| HChar (n : nat)
| HBad (n : nat)
| HTruncated.

(** Width announced by a lead byte, and the range its second byte must be in. *)
Definition lead_class (b : Z) : option (nat * Z * Z) :=
  if b <=? 0x7F then Some (1%nat, 0, 0)
  else if (0xC2 <=? b) && (b <=? 0xDF) then Some (2%nat, 0x80, 0xBF)
  else if b =? 0xE0 then Some (3%nat, 0xA0, 0xBF)
  else if (0xE1 <=? b) && (b <=? 0xEC) then Some (3%nat, 0x80, 0xBF)
  else if b =? 0xED then Some (3%nat, 0x80, 0x9F)
  else if (0xEE <=? b) && (b <=? 0xEF) then Some (3%nat, 0x80, 0xBF)
  else if b =? 0xF0 then Some (4%nat, 0x90, 0xBF)
  else if (0xF1 <=? b) && (b <=? 0xF3) then Some (4%nat, 0x80, 0xBF)
  else if b =? 0xF4 then Some (4%nat, 0x80, 0x8F)
  else None.

Definition in_range (lo hi : Z) (b : byte) : bool :=
  (lo <=? Z_of_byte b) && (Z_of_byte b <=? hi).
Definition is_continuation : byte -> bool := in_range 0x80 0xBF.

Definition classify (b0 : byte) (rest : list byte) : utf8_head :=
  match lead_class (Z_of_byte b0) with
  | None => HBad 1
  | Some (1%nat, _, _) => HChar 1
  | Some (w, lo, hi) =>
      match rest with
      | [] => HTruncated
      | b1 :: r1 =>
          if negb (in_range lo hi b1) then HBad 1
          else if (w =? 2)%nat then HChar 2
          else match r1 with
               | [] => HTruncated
               | b2 :: r2 =>
                   if negb (is_continuation b2) then HBad 2
                   else if (w =? 3)%nat then HChar 3
                   else match r2 with
                        | [] => HTruncated
                        | b3 :: _ => if is_continuation b3 then HChar 4 else HBad 3
                        end
               end
      end
  end.

(** The whole input as a sequence of scalar values and ill-formed parts. *)
Inductive utf8_chunk : Type :=
| UChar (bs : list byte)
| UBad (bs : list byte)
| UTail (bs : list byte).

Fixpoint chunks_fuel (fuel : nat) (bs : list byte) : list utf8_chunk :=
  match fuel, bs with
  | S fuel, b :: r =>
      match classify b r with
      | HChar n => UChar (take n bs) :: chunks_fuel fuel (drop n bs)
      | HBad n => UBad (take n bs) :: chunks_fuel fuel (drop n bs)
      | HTruncated => [UTail bs]
      end
  | _, _ => []
  end.
Definition utf8_chunks (bs : list byte) : list utf8_chunk := chunks_fuel (length bs) bs.

Definition chunk_bytes (c : utf8_chunk) : list byte :=
  match c with UChar bs | UBad bs | UTail bs => bs end.
Definition chunk_is_char (c : utf8_chunk) : bool :=
  match c with UChar _ => true | _ => false end.

(** [Utf8Error::valid_up_to]: bytes before the first ill-formed part. *)
Fixpoint valid_prefix (cs : list utf8_chunk) : nat :=
  match cs with
  | UChar bs :: cs => (length bs + valid_prefix cs)%nat
  | _ => 0%nat
  end.
Definition valid_up_to (bs : list byte) : nat := valid_prefix (utf8_chunks bs).

Definition utf8_valid (bs : list byte) : bool := forallb chunk_is_char (utf8_chunks bs).

(** [str::from_utf8]: the error carries [valid_up_to]. *)
Definition from_utf8 (bs : list byte) : result nat string :=
  if utf8_valid bs then Ok (bytes_string bs) else Err (valid_up_to bs).

Definition REPLACEMENT : list byte := [xef; xbf; xbd].
Definition lossy_chunk (c : utf8_chunk) : list byte :=
  match c with UChar bs => bs | UBad _ | UTail _ => REPLACEMENT end.
(** [String::from_utf8_lossy]. *)
Definition from_utf8_lossy (bs : list byte) : string :=
  bytes_string (utf8_chunks bs ≫= lossy_chunk).

Lemma classify_width b r :
  match classify b r with
  | HChar n | HBad n => (1 <= n)%nat /\ (n <= S (length r))%nat
  | HTruncated => True
  end.
Proof. unfold classify. repeat case_match; simplify_eq/=; lia. Qed.

Lemma chunks_fuel_enough fuel bs :
  (length bs <= fuel)%nat -> chunks_fuel fuel bs = utf8_chunks bs.
Proof.
  unfold utf8_chunks. remember (length bs) as n eqn:Hn.
  assert (length bs <= n)%nat as Hle by lia. clear Hn. intros Hf.
  revert fuel bs Hf Hle. induction n as [|n IH]; intros fuel bs Hf Hle.
  - destruct bs; simpl in *; [by destruct fuel | lia].
  - destruct fuel as [|fuel]; [lia|]. destruct bs as [|b r]; [done|]. simpl in *.
    pose proof (classify_width b r) as Hw. destruct (classify b r) as [m|m|]; try done;
      f_equal; apply IH; rewrite ?length_drop; simpl; lia.
Qed.

Lemma utf8_chunks_cons b r :
  utf8_chunks (b :: r) =
  match classify b r with
  | HChar n => UChar (take n (b :: r)) :: utf8_chunks (drop n (b :: r))
  | HBad n => UBad (take n (b :: r)) :: utf8_chunks (drop n (b :: r))
  | HTruncated => [UTail (b :: r)]
  end.
Proof.
  unfold utf8_chunks at 1. simpl. pose proof (classify_width b r) as Hw.
  destruct (classify b r); try done; f_equal; apply chunks_fuel_enough;
    rewrite length_drop; simpl; lia.
Qed.

(** Induction following the chunks of the input. *)
Lemma utf8_ind (P : list byte -> Prop) :
  P [] ->
  (forall b r, (forall n, (1 <= n)%nat -> P (drop n (b :: r))) -> P (b :: r)) ->
  forall bs, P bs.
Proof.
  intros H0 HS bs. remember (length bs) as n eqn:Hn.
  assert (length bs <= n)%nat as Hle by lia. clear Hn. revert bs Hle.
  induction n as [|n IH]; intros [|b r] Hle; simpl in *; try done; [lia|].
  apply HS. intros m Hm. apply IH. rewrite length_drop. simpl. lia.
Qed.

(** No byte is lost or reordered by the chunking. *)
Lemma utf8_chunks_concat bs : utf8_chunks bs ≫= chunk_bytes = bs.
Proof.
  induction bs as [|b r IH] using utf8_ind; [done|].
  rewrite utf8_chunks_cons. pose proof (classify_width b r) as Hw.
  destruct (classify b r); rewrite ?bind_cons; cbn [chunk_bytes].
  - rewrite IH by lia. apply take_drop.
  - rewrite IH by lia. apply take_drop.
  - rewrite app_nil_r. done.
Qed.

Lemma classify_ascii b r : Z_of_byte b <= 0x7F -> classify b r = HChar 1.
Proof.
  intros H. unfold classify, lead_class. apply Z.leb_le in H. by rewrite H.
Qed.

Lemma utf8_valid_nil : utf8_valid [] = true.
Proof. done. Qed.

Lemma classify_app b r k n : classify b r = HChar n -> classify b (r ++ k) = HChar n.
Proof.
  unfold classify. destruct (lead_class _) as [[[w lo] hi]|]; [|done].
  destruct w as [|[|w]]; try done;
  (destruct r as [|b1 [|b2 [|b3 r]]]; simpl; repeat case_match; naive_solver).
Qed.

Lemma classify_take b r n : classify b r = HChar (S n) -> classify b (take n r) = HChar (S n).
Proof.
  unfold classify. destruct (lead_class _) as [[[w lo] hi]|]; [|done].
  destruct w as [|[|[|[|w]]]]; [|intros [= <-]; done|..];
    destruct r as [|b1 [|b2 [|b3 r]]]; try done;
    destruct (in_range lo hi b1) eqn:E1; simpl; try done;
    try (destruct (is_continuation b2) eqn:E2; simpl; try done);
    try (destruct (is_continuation b3) eqn:E3; simpl; try done);
    intros [= <-]; simpl; rewrite ?E1; simpl; rewrite ?E2; simpl; rewrite ?E3; done.
Qed.

Lemma utf8_chunks_app bs k :
  utf8_valid bs = true -> utf8_chunks (bs ++ k) = utf8_chunks bs ++ utf8_chunks k.
Proof.
  induction bs as [|b r IH] using utf8_ind; [done|].
  unfold utf8_valid. rewrite <- app_comm_cons, !utf8_chunks_cons.
  pose proof (classify_width b r) as Hw.
  destruct (classify b r) as [n|n|] eqn:Hc; simpl; intros Hv; try done.
  rewrite (classify_app _ _ _ _ Hc). cbn. rewrite !app_comm_cons.
  rewrite take_app_le, drop_app_le by (simpl; lia). rewrite IH by (lia || done). done.
Qed.

Lemma utf8_valid_app bs k :
  utf8_valid bs = true -> utf8_valid (bs ++ k) = utf8_valid k.
Proof.
  intros H. unfold utf8_valid in *. rewrite utf8_chunks_app by done.
  by rewrite forallb_app, H.
Qed.

Lemma lossy_valid bs : utf8_valid bs = true -> from_utf8_lossy bs = bytes_string bs.
Proof.
  unfold utf8_valid, from_utf8_lossy. intros Hv. f_equal.
  rewrite <- (utf8_chunks_concat bs) at 2. induction (utf8_chunks bs) as [|c cs IH]; [done|].
  rewrite !bind_cons. simpl in Hv. apply andb_true_iff in Hv as [Hc Hv].
  rewrite IH by done. by destruct c.
Qed.

Lemma valid_up_to_all bs : utf8_valid bs = true -> valid_up_to bs = length bs.
Proof.
  unfold utf8_valid, valid_up_to. intros Hv.
  rewrite <- (utf8_chunks_concat bs) at 2. induction (utf8_chunks bs) as [|c cs IH]; [done|].
  simpl in Hv. apply andb_true_iff in Hv as [Hc Hv].
  rewrite bind_cons, length_app. destruct c; try done. cbn. rewrite IH; done.
Qed.

Lemma valid_up_to_le bs : (valid_up_to bs <= length bs)%nat.
Proof.
  unfold valid_up_to. rewrite <- (utf8_chunks_concat bs) at 2. induction (utf8_chunks bs) as [|c cs IH]; [done|].
  rewrite bind_cons, length_app. destruct c; cbn; lia.
Qed.

(** The prefix reported by [valid_up_to] is valid. *)
Lemma take_valid_up_to bs : utf8_valid (take (valid_up_to bs) bs) = true.
Proof.
  unfold valid_up_to. induction bs as [|b r IH] using utf8_ind; [done|].
  rewrite utf8_chunks_cons. pose proof (classify_width b r) as Hw.
  destruct (classify b r) as [n|n|] eqn:Hc; try done. cbn [valid_prefix].
  rewrite length_take_le by (simpl; lia). rewrite <- take_take_drop.
  rewrite utf8_valid_app; [apply IH; lia|].
  unfold utf8_valid. destruct n as [|n]; [lia|]. cbn [take].
  rewrite utf8_chunks_cons.
  assert (classify b (take n r) = HChar (S n)) as ->.
  { by apply classify_take. }
  simpl. rewrite drop_ge; [done|]. rewrite length_take. lia.
Qed.

(** ** Character boundaries. *)

(** Inside a character every byte is a continuation byte. *)
Lemma classify_inside b r n i y : classify b r = HChar n -> (i < n - 1)%nat -> r !! i = Some y -> is_continuation y = true.
Proof.
  unfold classify. destruct (lead_class (Z_of_byte b)) as [[[w lo] hi]|] eqn:El; [|done].
  assert (w = 1%nat \/ (0x80 <= lo /\ hi <= 0xBF)) as Hlo by (unfold lead_class in El; repeat case_match; simplify_eq; lia).
  destruct w as [|[|w]]; [|intros [= <-]; lia|];
    (destruct Hlo as [?|Hlo]; [done|]; destruct r as [|b1 [|b2 [|b3 r]]]; try done;
     unfold is_continuation, in_range in *; repeat case_match; intros [= <-] Hi; bool_prop; try lia;
     destruct i as [|[|[|i]]]; try lia; cbn; intros [= <-]; apply andb_true_iff; split; apply Z.leb_le; lia).
Qed.
(** A valid string can be cut before any byte that is not a continuation byte. *)
Lemma utf8_split a x b :
  utf8_valid (a ++ x :: b) = true -> is_continuation x = false -> utf8_valid a = true /\ utf8_valid (x :: b) = true.
Proof.
  intros Hv Hx. revert Hv. induction a as [|c a IH] using utf8_ind; [done|].
  unfold utf8_valid. rewrite <- app_comm_cons, !utf8_chunks_cons. intros Hv.
  pose proof (classify_width c (a ++ x :: b)) as Hw. rewrite length_app in Hw. simpl in Hw.
  destruct (classify c (a ++ x :: b)) as [n|n|] eqn:Hc; try done. simpl in Hv.
  assert (n <= S (length a))%nat as Hn.
  { destruct (decide (n <= S (length a))%nat) as [|Hn]; [done|].
    assert (is_continuation x = true) by (eapply (classify_inside _ _ _ (length a)); [done | lia | by apply list_lookup_middle]). congruence. }
  assert (classify c a = HChar n) as ->.
  { destruct n as [|n]; [lia|]. apply classify_take in Hc. rewrite take_app_le in Hc by lia.
    rewrite <- (take_drop n a). by apply classify_app. }
  rewrite app_comm_cons, drop_app_le in Hv by (simpl; lia). apply IH in Hv as [H1 H2]; [|lia].
  split; [cbn; exact H1 | unfold utf8_valid in H2; by rewrite utf8_chunks_cons in H2].
Qed.
Lemma utf8_split_ascii a x b :
  utf8_valid (a ++ x :: b) = true -> Z_of_byte x < 128 -> utf8_valid a = true /\ utf8_valid (x :: b) = true.
Proof.
  intros Hv Hx. apply utf8_split; [done|]. unfold is_continuation, in_range. apply andb_false_iff. left. apply Z.leb_gt. lia.
Qed.

(** The characters of a valid string are valid strings of one character. *)
Lemma valid_char_chunk a c : utf8_valid a = true -> c ∈ utf8_chunks a -> utf8_chunks (chunk_bytes c) = [c] /\ chunk_is_char c = true.
Proof.
  unfold utf8_valid. induction a as [|b r IH] using utf8_ind; [intros _ ?%elem_of_nil; done|].
  rewrite utf8_chunks_cons. pose proof (classify_width b r) as Hw.
  destruct (classify b r) as [n|n|] eqn:Hc; try done. simpl. intros Hv Hin.
  apply elem_of_cons in Hin as [->|Hin]; [|apply (IH n); [lia | done | done]].
  destruct n as [|n]; [lia|]. cbn [take chunk_bytes chunk_is_char].
  rewrite utf8_chunks_cons, (classify_take _ _ _ Hc). cbn [take drop].
  rewrite take_take, Nat.min_id, drop_ge by (rewrite length_take; lia). done.
Qed.

Lemma classify_bad_app b r k n : classify b r = HBad n -> classify b (r ++ k) = HBad n.
Proof.
  unfold classify. destruct (lead_class _) as [[[w lo] hi]|]; [|done].
  destruct w as [|[|w]]; try done;
  (destruct r as [|b1 [|b2 [|b3 r]]]; simpl; repeat case_match; naive_solver).
Qed.
Lemma classify_truncated_length b r : classify b r = HTruncated -> (length (b :: r) <= 3)%nat.
Proof. unfold classify. destruct r as [|b1 [|b2 [|b3 r]]]; simpl; try lia; repeat case_match; done. Qed.

(** The bytes of an ill-formed part are not ASCII. *)
Lemma lead_class_high b w lo hi : lead_class b = Some (w, lo, hi) -> w <> 1%nat -> 0x80 <= b /\ 0x80 <= lo.
Proof. unfold lead_class. intros Hl Hw. repeat case_match; simplify_eq; bool_prop; lia. Qed.
Lemma classify_bad_high b r :
  match classify b r with
  | HBad n => Forall (fun c => 0x80 <= Z_of_byte c) (take n (b :: r))
  | HTruncated => Forall (fun c => 0x80 <= Z_of_byte c) (b :: r)
  | HChar _ => True
  end.
Proof.
  unfold classify. destruct (lead_class (Z_of_byte b)) as [[[w lo] hi]|] eqn:El.
  2:{ assert (0x80 <= Z_of_byte b) by (unfold lead_class in El; case_match; [done | bool_prop; lia]). by repeat constructor. }
  pose proof (lead_class_high _ _ _ _ El) as Hh.
  destruct w as [|[|w]]; [|done|]; (destruct Hh as [Hb Hlo]; [done|];
    destruct r as [|b1 [|b2 [|b3 r]]]; unfold is_continuation, in_range; repeat case_match; try done;
    simplify_eq; bool_prop; cbn [take]; repeat (apply Forall_cons_2; [lia|]); by apply Forall_nil_2).
Qed.

(** A prefix of a valid string ends, after its whole characters, in at most three bytes. *)
Lemma valid_tail_short k p : utf8_valid (p ++ k) = true -> (length (drop (valid_up_to p) p) <= 3)%nat.
Proof.
  unfold valid_up_to, utf8_valid. induction p as [|b r IH] using utf8_ind; [simpl; lia|].
  rewrite <- app_comm_cons, !utf8_chunks_cons. pose proof (classify_width b r) as Hw.
  destruct (classify b r) as [n|n|] eqn:Hc.
  - rewrite (classify_app _ _ _ _ Hc). cbn [valid_prefix forallb chunk_is_char andb].
    rewrite length_take_le, <- drop_drop by (simpl; lia). rewrite app_comm_cons, drop_app_le by (simpl; lia).
    intros Hv. apply IH; [lia | done].
  - rewrite (classify_bad_app _ _ _ _ Hc). done.
  - intros _. cbn [valid_prefix]. rewrite drop_0. by apply classify_truncated_length in Hc.
Qed.

(** ** Characters: [str::chars] as the bytes of each, and their code points. *)
Definition chars (s : str) : list str := chunk_bytes <$> utf8_chunks s.

Definition low6 (b : byte) : Z := Z_of_byte b mod 64.
Definition code_point (ch : str) : Z :=
  match ch with
  | [b0] => Z_of_byte b0
  | [b0; b1] => Z_of_byte b0 mod 32 * 64 + low6 b1
  | [b0; b1; b2] => (Z_of_byte b0 mod 16 * 64 + low6 b1) * 64 + low6 b2
  | [b0; b1; b2; b3] => ((Z_of_byte b0 mod 8 * 64 + low6 b1) * 64 + low6 b2) * 64 + low6 b3
  | _ => 0
  end.
Definition encode_utf8 (c : Z) : str :=
  byte_of_Z <$>
  (if c <? 0x80 then [c]
   else if c <? 0x800 then [0xC0 + c / 64; 0x80 + c mod 64]
   else if c <? 0x10000 then [0xE0 + c / 4096; 0x80 + c / 64 mod 64; 0x80 + c mod 64]
   else [0xF0 + c / 262144; 0x80 + c / 4096 mod 64; 0x80 + c / 64 mod 64; 0x80 + c mod 64]).

Lemma chars_app a b : utf8_valid a = true -> chars (a ++ b) = chars a ++ chars b.
Proof. intros Ha. unfold chars. by rewrite utf8_chunks_app, fmap_app. Qed.
Lemma chars_concat a : mjoin (chars a) = a.
Proof.
  unfold chars. transitivity (utf8_chunks a ≫= chunk_bytes); [|apply utf8_chunks_concat].
  induction (utf8_chunks a) as [|c cs IH]; [done|]. rewrite bind_cons. cbn. rewrite <- IH. done.
Qed.
Lemma chars_nonempty a ch : ch ∈ chars a -> (1 <= length ch)%nat.
Proof.
  induction a as [|b r IH] using utf8_ind; unfold chars in *; [by intros ?%elem_of_nil|].
  rewrite utf8_chunks_cons. pose proof (classify_width b r) as Hw.
  destruct (classify b r) as [n|n|]; cbn; rewrite elem_of_cons.
  - intros [->|Hin]; [rewrite length_take; simpl; lia | by apply (IH n); [lia|]].
  - intros [->|Hin]; [rewrite length_take; simpl; lia | by apply (IH n); [lia|]].
  - intros [->|Hin%elem_of_nil]; [simpl; lia | done].
Qed.
Lemma length_chars a : (length (chars a) <= length a)%nat.
Proof.
  rewrite <- (chars_concat a) at 2. pose proof (chars_nonempty a) as Hne.
  induction (chars a) as [|c cs IH]; [done|]. rewrite mjoin_cons, length_app. cbn.
  specialize (Hne c ltac:(apply elem_of_cons; by left)) as Hc.
  assert (forall ch, ch ∈ cs -> (1 <= length ch)%nat) as Hcs by (intros ch Hch; apply Hne, elem_of_cons; by right).
  specialize (IH Hcs). lia.
Qed.
Lemma chars_ascii s : Forall (fun b => Z_of_byte b < 128) s -> chars s = (fun b => [b]) <$> s.
Proof.
  induction 1 as [|b s Hb Hs IH]; [done|]. unfold chars. rewrite utf8_chunks_cons, classify_ascii by lia.
  cbn. f_equal. apply IH.
Qed.
Lemma ascii_valid s : Forall (fun b => Z_of_byte b < 128) s -> utf8_valid s = true.
Proof.
  induction 1 as [|b s Hb Hs IH]; [done|]. unfold utf8_valid. rewrite utf8_chunks_cons, classify_ascii by lia.
  cbn. apply IH.
Qed.

Lemma chars_valid a ch : utf8_valid a = true -> ch ∈ chars a -> utf8_valid ch = true /\ chars ch = [ch].
Proof.
  intros Ha (c & -> & Hc)%list_elem_of_fmap. destruct (valid_char_chunk a c Ha Hc) as [H1 H2].
  unfold utf8_valid, chars. rewrite H1. cbn. by rewrite H2.
Qed.
