(* ===== verification/Utf8Scalar.v ===== *)
(** * UTF-8 and Unicode scalar values.

    Encoding a scalar value and decoding a character are inverse to each other, and every
    cut sequence is a proper prefix of the encodings of a range of scalar values. *)
From Stdlib Require Import Strings.Byte.
From S2P Require Import Prelude Utf8.

(** [char::from_u32(value).is_some()]. *)
Definition is_scalar (c : Z) : bool :=
  ((0 <=? c) && (c <=? 0xD7FF)) || ((0xE000 <=? c) && (c <=? 0x10FFFF)).
Lemma is_scalar_spec c : is_scalar c = true <-> 0 <= c <= 0xD7FF \/ 0xE000 <= c <= 0x10FFFF.
Proof. unfold is_scalar. rewrite orb_true_iff, !andb_true_iff, !Z.leb_le. done. Qed.

Ltac euclid := Z.to_euclidean_division_equations; lia.

Lemma byte_of_Z_eq z b : z = Z_of_byte b -> byte_of_Z z = b.
Proof. intros ->. apply byte_of_Z_of_byte. Qed.
Lemma Z_of_byte_small z : 0 <= z < 256 -> Z_of_byte (byte_of_Z z) = z.
Proof. intros Hz. rewrite Z_of_byte_of_Z. by apply Z.mod_small. Qed.

(** ** One character. *)
(** The lead byte and what may follow it, by width. *)
Lemma lead_class_2 b : 0xC2 <= b <= 0xDF -> lead_class b = Some (2%nat, 0x80, 0xBF).
Proof. intros Hb. unfold lead_class. repeat case_match; bool_prop; try done; lia. Qed.
Lemma lead_class_3 b : 0xE0 <= b <= 0xEF ->
  lead_class b = Some (3%nat, if b =? 0xE0 then 0xA0 else 0x80, if b =? 0xED then 0x9F else 0xBF).
Proof. intros Hb. unfold lead_class. repeat case_match; bool_prop; subst; try done; lia. Qed.
Lemma lead_class_4 b : 0xF0 <= b <= 0xF4 ->
  lead_class b = Some (4%nat, if b =? 0xF0 then 0x90 else 0x80, if b =? 0xF4 then 0x8F else 0xBF).
Proof. intros Hb. unfold lead_class. repeat case_match; bool_prop; subst; try done; lia. Qed.
Lemma lead_class_inv b w lo hi : lead_class b = Some (w, lo, hi) ->
  (w = 1%nat /\ b <= 0x7F) \/
  (w = 2%nat /\ 0xC2 <= b <= 0xDF /\ lo = 0x80 /\ hi = 0xBF) \/
  (w = 3%nat /\ 0xE0 <= b <= 0xEF /\ lo = (if b =? 0xE0 then 0xA0 else 0x80) /\ hi = (if b =? 0xED then 0x9F else 0xBF)) \/
  (w = 4%nat /\ 0xF0 <= b <= 0xF4 /\ lo = (if b =? 0xF0 then 0x90 else 0x80) /\ hi = (if b =? 0xF4 then 0x8F else 0xBF)).
Proof.
  intros Hl. unfold lead_class in Hl. repeat case_match; simplify_eq; bool_prop; subst; try lia; auto 10.
Qed.

Lemma in_range_spec lo hi b : in_range lo hi b = true <-> lo <= Z_of_byte b <= hi.
Proof. unfold in_range. rewrite andb_true_iff, !Z.leb_le. done. Qed.
Lemma is_continuation_spec b : is_continuation b = true <-> 0x80 <= Z_of_byte b <= 0xBF.
Proof. apply in_range_spec. Qed.

Lemma classify_encode c : is_scalar c = true -> exists b r,
  encode_utf8 c = b :: r /\ classify b r = HChar (length (encode_utf8 c)).
Proof.
  intros Hc%is_scalar_spec. unfold encode_utf8.
  destruct (Z.ltb_spec c 0x80); [|destruct (Z.ltb_spec c 0x800); [|destruct (Z.ltb_spec c 0x10000)]];
    cbn [fmap list_fmap]; do 2 eexists; (split; [reflexivity|]); unfold classify;
    rewrite !Z_of_byte_small by euclid.
  - unfold lead_class. rewrite (proj2 (Z.leb_le c 0x7F)) by lia. done.
  - rewrite lead_class_2 by euclid. rewrite (proj2 (in_range_spec _ _ _)) by (rewrite Z_of_byte_small by euclid; euclid). done.
  - rewrite lead_class_3 by euclid. cbn [negb].
    rewrite (proj2 (in_range_spec _ _ _)) by (rewrite Z_of_byte_small by euclid; destruct (Z.eqb_spec (224 + c / 4096) 224), (Z.eqb_spec (224 + c / 4096) 237); euclid).
    rewrite (proj2 (is_continuation_spec _)) by (rewrite Z_of_byte_small by euclid; euclid). done.
  - rewrite lead_class_4 by euclid. cbn [negb].
    rewrite (proj2 (in_range_spec _ _ _)) by (rewrite Z_of_byte_small by euclid; destruct (Z.eqb_spec (240 + c / 262144) 240), (Z.eqb_spec (240 + c / 262144) 244); euclid).
    rewrite !(proj2 (is_continuation_spec _)) by (rewrite Z_of_byte_small by euclid; euclid). done.
Qed.

Lemma code_point_encode c : is_scalar c = true -> code_point (encode_utf8 c) = c.
Proof.
  intros Hc%is_scalar_spec. unfold encode_utf8.
  destruct (Z.ltb_spec c 0x80); [|destruct (Z.ltb_spec c 0x800); [|destruct (Z.ltb_spec c 0x10000)]];
    cbn [fmap list_fmap code_point]; unfold low6; rewrite !Z_of_byte_small by euclid; euclid.
Qed.
(** A decoded character is a scalar value and encodes back. *)
Lemma encode_code_point b r n : classify b r = HChar n ->
  is_scalar (code_point (take n (b :: r))) = true /\ encode_utf8 (code_point (take n (b :: r))) = take n (b :: r).
Proof.
  unfold classify. destruct (lead_class (Z_of_byte b)) as [[[w lo] hi]|] eqn:El; [|done].
  pose proof (Z_of_byte_range b) as Hb.
  destruct (lead_class_inv _ _ _ _ El) as [[-> H]|[(-> & H & -> & ->)|[(-> & H & -> & ->)|(-> & H & -> & ->)]]].
  - intros [= <-]. rewrite !firstn_cons, take_0. cbn [code_point]. rewrite is_scalar_spec. split; [lia|]. unfold encode_utf8.
    destruct (Z.ltb_spec (Z_of_byte b) 0x80); [|lia]. cbn. by rewrite byte_of_Z_of_byte.
  - destruct r as [|b1 r]; [done|]. destruct (in_range _ _ b1) eqn:E1; [|done]. apply in_range_spec in E1.
    intros [= <-]. rewrite !firstn_cons, take_0. cbn [code_point]. unfold low6. rewrite is_scalar_spec. split; [euclid|].
    unfold encode_utf8. destruct (Z.ltb_spec (Z_of_byte b mod 32 * 64 + Z_of_byte b1 mod 64) 0x80); [euclid|].
    destruct (Z.ltb_spec (Z_of_byte b mod 32 * 64 + Z_of_byte b1 mod 64) 0x800); [|euclid].
    cbn [fmap list_fmap]. repeat (apply f_equal2; [apply byte_of_Z_eq; euclid|]). done.
  - destruct r as [|b1 [|b2 r]]; [done|by destruct (in_range _ _ b1)|]. destruct (in_range _ _ b1) eqn:E1; [|done].
    apply in_range_spec in E1. destruct (is_continuation b2) eqn:E2; [|done]. apply is_continuation_spec in E2.
    intros [= <-]. rewrite !firstn_cons, take_0. cbn [code_point]. unfold low6. rewrite is_scalar_spec.
    set (v := (Z_of_byte b mod 16 * 64 + Z_of_byte b1 mod 64) * 64 + Z_of_byte b2 mod 64).
    assert (v = (Z_of_byte b - 0xE0) * 4096 + (Z_of_byte b1 - 0x80) * 64 + (Z_of_byte b2 - 0x80)) as Ev.
    { unfold v. destruct (Z.eqb_spec (Z_of_byte b) 224), (Z.eqb_spec (Z_of_byte b) 237); euclid. }
    assert (0x800 <= v < 0x10000 /\ (v <= 0xD7FF \/ 0xE000 <= v)) as Hv.
    { destruct (Z.eqb_spec (Z_of_byte b) 224), (Z.eqb_spec (Z_of_byte b) 237); lia. }
    split; [lia|]. assert (0x80 <= Z_of_byte b1 <= 0xBF) by (clear -E1; repeat case_match; lia). clearbody v. clear E1.
    unfold encode_utf8. destruct (Z.ltb_spec v 0x80); [lia|]. destruct (Z.ltb_spec v 0x800); [lia|].
    destruct (Z.ltb_spec v 0x10000); [|lia].
    cbn [fmap list_fmap]. repeat (apply f_equal2; [apply byte_of_Z_eq; euclid|]). done.
  - destruct r as [|b1 [|b2 [|b3 r]]]; [done|by destruct (in_range _ _ b1)|by destruct (in_range _ _ b1), (is_continuation b2)|].
    destruct (in_range _ _ b1) eqn:E1; [|done].
    apply in_range_spec in E1. destruct (is_continuation b2) eqn:E2; [|done]. apply is_continuation_spec in E2.
    destruct (is_continuation b3) eqn:E3; [|done]. apply is_continuation_spec in E3.
    intros [= <-]. rewrite !firstn_cons, take_0. cbn [code_point]. unfold low6. rewrite is_scalar_spec.
    set (v := ((Z_of_byte b mod 8 * 64 + Z_of_byte b1 mod 64) * 64 + Z_of_byte b2 mod 64) * 64 + Z_of_byte b3 mod 64).
    assert (v = (Z_of_byte b - 0xF0) * 262144 + (Z_of_byte b1 - 0x80) * 4096 + (Z_of_byte b2 - 0x80) * 64 + (Z_of_byte b3 - 0x80)) as Ev.
    { unfold v. destruct (Z.eqb_spec (Z_of_byte b) 240), (Z.eqb_spec (Z_of_byte b) 244); euclid. }
    assert (0x10000 <= v <= 0x10FFFF) as Hv.
    { destruct (Z.eqb_spec (Z_of_byte b) 240), (Z.eqb_spec (Z_of_byte b) 244); lia. }
    split; [lia|]. assert (0x80 <= Z_of_byte b1 <= 0xBF) by (clear -E1; repeat case_match; lia). clearbody v. clear E1.
    unfold encode_utf8. destruct (Z.ltb_spec v 0x80); [lia|]. destruct (Z.ltb_spec v 0x800); [lia|].
    destruct (Z.ltb_spec v 0x10000); [lia|].
    cbn [fmap list_fmap]. repeat (apply f_equal2; [apply byte_of_Z_eq; euclid|]). done.
Qed.

(** ** Bits and digits. *)
Lemma lor_shiftl v k x : 0 <= k -> 0 <= x < 2 ^ k -> Z.lor (Z.shiftl v k) x = v * 2 ^ k + x.
Proof.
  intros Hk Hx. rewrite Z.shiftl_mul_pow2 by done. symmetry. rewrite <- Z.lxor_lor; [apply Z.add_nocarry_lxor|].
  all: apply Z.bits_inj'; intros n Hn; rewrite Z.bits_0, Z.land_spec, <- Z.shiftl_mul_pow2, Z.shiftl_spec by done;
    destruct (Z.ltb_spec n k); [rewrite (Z.testbit_neg_r _ (n - k)) by lia; done|];
    rewrite <- (Z.mod_small x (2 ^ k)), Z.mod_pow2_bits_high by lia; apply andb_false_r.
Qed.
Lemma land_low b k m : 0 <= k -> m = 2 ^ k - 1 -> Z.land b m = b mod 2 ^ k.
Proof. intros Hk ->. rewrite <- Z.land_ones by done. f_equal. rewrite Z.ones_equiv. lia. Qed.
Lemma push_low6 v b : Z.lor (Z.shiftl v 6) (Z.land (Z_of_byte b) 0x3F) = v * 64 + low6 b.
Proof.
  rewrite (land_low _ 6) by done. rewrite lor_shiftl; [done | done|]. apply Z.mod_pos_bound. lia.
Qed.

(** ** Encodings as numbers. *)
Definition encoded (c : Z) : list Z :=
  if c <? 0x80 then [c]
  else if c <? 0x800 then [0xC0 + c / 64; 0x80 + c mod 64]
  else if c <? 0x10000 then [0xE0 + c / 4096; 0x80 + c / 64 mod 64; 0x80 + c mod 64]
  else [0xF0 + c / 262144; 0x80 + c / 4096 mod 64; 0x80 + c / 64 mod 64; 0x80 + c mod 64].
Lemma encoded_bytes c : is_scalar c = true -> Z_of_byte <$> encode_utf8 c = encoded c.
Proof.
  intros Hc%is_scalar_spec. unfold encode_utf8, encoded.
  destruct (Z.ltb_spec c 0x80); [|destruct (Z.ltb_spec c 0x800); [|destruct (Z.ltb_spec c 0x10000)]];
    cbn [fmap list_fmap]; by rewrite !Z_of_byte_small by euclid.
Qed.
#[global] Instance Z_of_byte_inj : Inj (=) (=) Z_of_byte.
Proof. intros a b E. by rewrite <- (byte_of_Z_of_byte a), E, byte_of_Z_of_byte. Qed.
Lemma encode_prefix c p : is_scalar c = true ->
  (exists k, k <> [] /\ encode_utf8 c = p ++ k) <-> (exists k, k <> [] /\ encoded c = (Z_of_byte <$> p) ++ k).
Proof.
  intros Hc. rewrite <- (encoded_bytes c Hc). split.
  - intros (k & Hk & ->). exists (Z_of_byte <$> k). rewrite fmap_app. split; [by intros ?%fmap_nil_inv | done].
  - intros (k & Hk & (k1 & k2 & E1 & -> & E2)%fmap_app_inv). apply list_fmap_eq_inj in E1 as <-; [|apply _].
    exists k2. split; [by intros -> | done].
Qed.

(** The scalar values whose encoding starts with a given cut sequence. *)
Definition starts_with (c : Z) (p : list Z) : Prop := exists k, k <> [] /\ encoded c = p ++ k.
Ltac cut_solve c :=
  unfold starts_with, encoded; destruct (Z.ltb_spec c 0x80); [|destruct (Z.ltb_spec c 0x800); [|destruct (Z.ltb_spec c 0x10000)]];
  (split; [intros (k & Hk & E); cbn in E; simplify_eq; euclid|]); intros; try euclid;
  eexists; (split; [|cbn; repeat (apply f_equal2; [euclid|]); reflexivity]); done.
Section Cut.
Context (c d e f : Z) (Hc : is_scalar c = true).
Lemma cut_2_1 : 0xC2 <= d <= 0xDF ->
  starts_with c [d] <-> (d - 0xC0) * 64 <= c <= (d - 0xC0) * 64 + 63.
Proof using Hc. intros Hd. apply is_scalar_spec in Hc. cut_solve c. Qed.
Lemma cut_3_1 : 0xE0 <= d <= 0xEF ->
  starts_with c [d] <-> (d - 0xE0) * 4096 <= c <= (d - 0xE0) * 4096 + 4095 /\ 0x800 <= c.
Proof using Hc. intros Hd. apply is_scalar_spec in Hc. cut_solve c. Qed.
Lemma cut_3_2 : 0xE0 <= d <= 0xEF -> 0x80 <= e <= 0xBF ->
  starts_with c [d; e] <->
  ((d - 0xE0) * 64 + (e - 0x80)) * 64 <= c <= ((d - 0xE0) * 64 + (e - 0x80)) * 64 + 63 /\ 0x800 <= c.
Proof using Hc. intros Hd He. apply is_scalar_spec in Hc. cut_solve c. Qed.
Lemma cut_4_1 : 0xF0 <= d <= 0xF4 ->
  starts_with c [d] <-> (d - 0xF0) * 262144 <= c <= (d - 0xF0) * 262144 + 262143 /\ 0x10000 <= c.
Proof using Hc. intros Hd. apply is_scalar_spec in Hc. cut_solve c. Qed.
Lemma cut_4_2 : 0xF0 <= d <= 0xF4 -> 0x80 <= e <= 0xBF ->
  starts_with c [d; e] <->
  ((d - 0xF0) * 64 + (e - 0x80)) * 4096 <= c <= ((d - 0xF0) * 64 + (e - 0x80)) * 4096 + 4095 /\ 0x10000 <= c.
Proof using Hc. intros Hd He. apply is_scalar_spec in Hc. cut_solve c. Qed.
Lemma cut_4_3 : 0xF0 <= d <= 0xF4 -> 0x80 <= e <= 0xBF -> 0x80 <= f <= 0xBF ->
  starts_with c [d; e; f] <->
  (((d - 0xF0) * 64 + (e - 0x80)) * 64 + (f - 0x80)) * 64 <= c <=
  (((d - 0xF0) * 64 + (e - 0x80)) * 64 + (f - 0x80)) * 64 + 63 /\ 0x10000 <= c.
Proof using Hc. intros Hd He Hf. apply is_scalar_spec in Hc. cut_solve c. Qed.
End Cut.

(** ** Strings of characters, and what is left of a cut one. *)
Definition encode_all (cs : list Z) : str := mjoin (encode_utf8 <$> cs).
Abbreviation scalars cs := (Forall (fun c => is_scalar c = true) cs).
(** Nothing, or a sequence the end of the input cuts off. *)
Definition incomplete (rest : str) : Prop :=
  match rest with [] => True | b :: r => classify b r = HTruncated end.

Lemma encode_all_cons c cs : encode_all (c :: cs) = encode_utf8 c ++ encode_all cs.
Proof. done. Qed.

Lemma chunks_encode c : is_scalar c = true -> utf8_chunks (encode_utf8 c) = [UChar (encode_utf8 c)].
Proof.
  intros (b & r & -> & Hcl)%classify_encode. by rewrite utf8_chunks_cons, Hcl, firstn_all, drop_all.
Qed.
Lemma chunks_encode_all cs rest : scalars cs ->
  utf8_chunks (encode_all cs ++ rest) = (UChar <$> (encode_utf8 <$> cs)) ++ utf8_chunks rest.
Proof.
  induction 1 as [|c cs Hc Hcs IH]; [done|]. rewrite encode_all_cons, <- app_assoc.
  pose proof (chunks_encode c Hc) as E. rewrite utf8_chunks_app by (unfold utf8_valid; by rewrite E).
  rewrite E. cbn. f_equal. apply IH.
Qed.
Lemma chars_encode_all cs : scalars cs -> code_point <$> chars (encode_all cs) = cs.
Proof.
  intros Hcs. unfold chars. rewrite <- (app_nil_r (encode_all cs)), (chunks_encode_all cs [] Hcs). cbn. rewrite app_nil_r.
  induction Hcs as [|c cs Hc Hcs IH]; [done|]. cbn. rewrite code_point_encode by done. by f_equal.
Qed.
(** Every valid string is the encoding of scalar values. *)
Lemma valid_encode_all a : utf8_valid a = true -> exists cs, scalars cs /\ a = encode_all cs.
Proof.
  unfold utf8_valid. induction a as [|b r IH] using utf8_ind; [by exists []|].
  rewrite utf8_chunks_cons. pose proof (classify_width b r) as Hw. destruct (classify b r) as [n|n|] eqn:Hc; try done.
  cbn. intros (cs & Hcs & E)%IH; [|lia]. destruct (encode_code_point _ _ _ Hc) as [H1 H2].
  exists (code_point (take n (b :: r)) :: cs). split; [by constructor|]. 
  by rewrite encode_all_cons, H2, <- E, take_drop.
Qed.
Lemma incomplete_chunks rest : rest <> [] -> incomplete rest <-> utf8_chunks rest = [UTail rest].
Proof.
  intros Hr. destruct rest as [|b r]; [done|]. cbn [incomplete]. rewrite utf8_chunks_cons.
  by destruct (classify b r).
Qed.
Lemma valid_prefix_encode cs rest : valid_prefix ((UChar <$> (encode_utf8 <$> cs)) ++ rest) = (length (encode_all cs) + valid_prefix rest)%nat.
Proof.
  induction cs as [|c cs IH]; [done|].
  rewrite encode_all_cons, !fmap_cons, <- app_comm_cons, length_app. cbn [valid_prefix]. rewrite IH. lia.
Qed.
Lemma valid_up_to_encode cs rest : scalars cs -> valid_up_to (encode_all cs ++ rest) = (length (encode_all cs) + valid_up_to rest)%nat.
Proof. intros Hcs. unfold valid_up_to. rewrite chunks_encode_all by done. apply valid_prefix_encode. Qed.
Lemma utf8_valid_encode cs : scalars cs -> utf8_valid (encode_all cs) = true.
Proof.
  intros Hcs. unfold utf8_valid. rewrite <- (app_nil_r (encode_all cs)), chunks_encode_all by done. rewrite app_nil_r.
  clear Hcs. by induction cs.
Qed.
Lemma valid_up_to_incomplete rest : incomplete rest -> valid_up_to rest = 0%nat.
Proof.
  intros Hr. destruct (decide (rest = [])) as [->|Hne]; [done|]. unfold valid_up_to. by rewrite (proj1 (incomplete_chunks _ Hne) Hr).
Qed.
(** A string is cut into whole characters and a rest in one way. *)
Lemma encode_split_unique cs1 r1 cs2 r2 : scalars cs1 -> scalars cs2 -> incomplete r1 -> incomplete r2 ->
  encode_all cs1 ++ r1 = encode_all cs2 ++ r2 -> cs1 = cs2 /\ r1 = r2.
Proof.
  intros H1 H2 Hr1 Hr2 E. assert (encode_all cs1 = encode_all cs2 /\ r1 = r2) as [E1 ->].
  { pose proof (f_equal valid_up_to E) as El. rewrite !valid_up_to_encode, !valid_up_to_incomplete in El by done.
    apply app_inj_1; [lia | done]. }
  split; [|done]. by rewrite <- (chars_encode_all cs1 H1), <- (chars_encode_all cs2 H2), E1.
Qed.
(** What is left after the valid prefix starts with no character. *)
Lemma drop_valid_up_to bs : valid_up_to (drop (valid_up_to bs) bs) = 0%nat.
Proof.
  destruct (valid_encode_all _ (take_valid_up_to bs)) as (cs & Hcs & E).
  pose proof (valid_up_to_encode cs (drop (valid_up_to bs) bs) Hcs) as H. rewrite <- E, take_drop in H.
  rewrite length_take_le in H by apply valid_up_to_le. lia.
Qed.
