(* ===== verification/Substring.v ===== *)
(** * Substrings and character boundaries of byte strings.

    [str::starts_with], [str::ends_with], [str::find] and [str::is_char_boundary] of the
    standard library, on the bytes of the strings, and where a valid string may be cut. *)
From Stdlib Require Import Strings.Byte.
From S2P Require Import Prelude Utf8.

Fixpoint starts_with (p s : str) : bool :=
  match p, s with
  | [], _ => true
  | x :: p, y :: s => bool_decide (x = y) && starts_with p s
  | _, _ => false
  end.
Definition ends_with (p s : str) : bool := starts_with (reverse p) (reverse s).
Fixpoint find (needle hay : str) : option nat :=
  if starts_with needle hay then Some 0%nat
  else match hay with [] => None | _ :: hay => S <$> find needle hay end.

(** [str::is_char_boundary]. *)
Definition is_char_boundary (s : str) (i : nat) : bool :=
  match s !! i with
  | Some b => (i =? 0)%nat || negb (is_continuation b)
  | None => (i =? length s)%nat
  end.

Lemma starts_with_spec p s : starts_with p s = true <-> exists k, s = p ++ k.
Proof.
  revert s. induction p as [|x p IH]; intros s; cbn; [split; [by exists s | done]|].
  destruct s as [|y s]; [split; [done|]; by intros [k ?]|].
  rewrite andb_true_iff, bool_decide_eq_true, IH. split.
  - intros [-> [k ->]]. by exists k.
  - intros [k E]. injection E as -> ->. split; [done | by exists k].
Qed.

Lemma find_spec n h :
  match find n h with
  | Some p => (p <= length h)%nat /\ starts_with n (drop p h) = true /\
      forall q, (q < p)%nat -> starts_with n (drop q h) = false
  | None => forall q, (q <= length h)%nat -> starts_with n (drop q h) = false
  end.
Proof.
  induction h as [|x h IH].
  - cbn. destruct (starts_with n []) eqn:E; [split; [lia|]; split; [done | intros; lia]|].
    intros [|q] Hq; [done | simpl in Hq; lia].
  - cbn [find]. destruct (starts_with n (x :: h)) eqn:E; [split; [lia|]; split; [done | intros; lia]|].
    destruct (find n h) as [p|]; cbn.
    + destruct IH as (H1 & H2 & H3). split; [lia|]. split; [done|]. intros [|q] Hq; [done | apply H3; lia].
    + intros [|q] Hq; [done | apply IH; simpl in Hq; lia].
Qed.

Lemma starts_with_app p s k : starts_with p s = true -> starts_with p (s ++ k) = true.
Proof. rewrite !starts_with_spec. intros [m ->]. exists (m ++ k). by rewrite app_assoc. Qed.

Lemma find_Some n h p : find n h = Some p -> exists k, h = take p h ++ n ++ k /\ (p <= length h)%nat.
Proof.
  intros E. pose proof (find_spec n h) as Hs. rewrite E in Hs. destruct Hs as (Hp & [k Hk]%starts_with_spec & _).
  exists k. split; [|done]. by rewrite <- Hk, take_drop.
Qed.

Lemma boundary_split s i : utf8_valid s = true -> is_char_boundary s i = true ->
  utf8_valid (take i s) = true /\ utf8_valid (drop i s) = true.
Proof.
  unfold is_char_boundary. intros Hv. destruct (s !! i) as [b|] eqn:E; intros Hb.
  - destruct i as [|i]; [done|]. cbn in Hb. apply negb_true_iff in Hb.
    rewrite (drop_S _ _ _ E). apply utf8_split; [|done]. by rewrite <- (drop_S _ _ _ E), take_drop.
  - apply Nat.eqb_eq in Hb as ->. by rewrite take_ge, drop_ge by lia.
Qed.
(** The first byte of a valid string starts a character. *)
Lemma valid_first b r : utf8_valid (b :: r) = true -> is_continuation b = false.
Proof.
  unfold utf8_valid. rewrite utf8_chunks_cons. destruct (classify b r) eqn:E; try done. intros _.
  destruct (is_continuation b) eqn:Eb; [|done]. exfalso. apply andb_true_iff in Eb as [H1%Z.leb_le H2%Z.leb_le].
  unfold classify, lead_class in E. repeat case_match; simplify_eq; bool_prop; lia.
Qed.
(** Where a valid string occurs in a valid string is a character boundary. *)
Lemma find_boundary n h p : utf8_valid n = true -> n <> [] -> find n h = Some p -> is_char_boundary h p = true.
Proof.
  intros Hn Hne (k & Hk & Hp)%find_Some. destruct n as [|b n]; [done|]. apply valid_first in Hn.
  assert (h !! p = Some b) as Hl by (rewrite Hk; apply list_lookup_middle; rewrite length_take; lia).
  unfold is_char_boundary. rewrite Hl, Hn. apply orb_true_r.
Qed.
