(* ===== verification/GgufTypes.v ===== *)
(** * GGUF data types and primitive readers.

    Models [crates/muser-engine/src/gguf/{types,reader,metadata}.rs]: the tensor
    element types and their block geometry, tensor descriptors, metadata values,
    the parser's errors, the little-endian readers over a seekable file, and the
    recursive metadata-value reader with its nesting and length limits.

    A reader is a [cursor]: the stream position and the bytes from there to the
    end of the file. Reads of a file that is there only fail at its end; other
    device errors are not modelled. *)
From Stdlib Require Import Strings.Byte.
From S2P Require Import Prelude Utf8.

(** ** types.rs: element types. *)
Module Ggml.

Inductive GgmlType : Type :=
| F32 | F16 | Q4_0 | Q4_1 | Q5_0 | Q5_1 | Q8_0
| Q2_K | Q3_K | Q4_K | Q5_K | Q6_K
| IQ2_XXS | IQ2_XS | IQ3_XXS | IQ1_S | IQ4_NL | IQ3_S | IQ2_S | IQ4_XS | IQ1_M
| BF16 | IQ3_K | NVFP4_E2M1 | F8_E4M3FN.

#[global] Instance GgmlType_eq_dec : EqDecision GgmlType.
Proof. solve_decision. Defined.

(** The discriminants of [#[repr(u32)] enum GgmlType]. *)
Definition discriminant (t : GgmlType) : Z :=
  match t with
  | F32 => 0 | F16 => 1 | Q4_0 => 2 | Q4_1 => 3 | Q5_0 => 6 | Q5_1 => 7 | Q8_0 => 8
  | Q2_K => 10 | Q3_K => 11 | Q4_K => 12 | Q5_K => 13 | Q6_K => 14
  | IQ2_XXS => 16 | IQ2_XS => 17 | IQ3_XXS => 18 | IQ1_S => 19 | IQ4_NL => 20
  | IQ3_S => 21 | IQ2_S => 22 | IQ4_XS => 23 | IQ1_M => 29
  | BF16 => 30 | IQ3_K => 138 | NVFP4_E2M1 => 1000 | F8_E4M3FN => 1001
  end.

Definition block_size (t : GgmlType) : Z :=
  match t with
  | F32 => 4
  | F16 => 2
  | Q4_0 => 2 + 16
  | Q4_1 => 4 + 16
  | Q5_0 => 22
  | Q5_1 => 24
  | Q8_0 => 2 + 32
  | Q2_K => 84
  | Q3_K => 110
  | Q4_K => 144
  | Q5_K => 176
  | Q6_K => 210
  | IQ2_XXS => 66
  | IQ2_XS => 74
  | IQ3_XXS => 98
  | IQ3_S => 110
  | IQ2_S => 82
  | IQ4_NL => 18
  | IQ4_XS => 136
  | IQ1_S => 50
  | IQ1_M => 56
  | BF16 => 2
  | IQ3_K => 110
  | NVFP4_E2M1 => 1
  | F8_E4M3FN => 1
  end.

Definition block_elements (t : GgmlType) : Z :=
  match t with
  | F32 | F16 | BF16 => 1
  | F8_E4M3FN => 1
  | NVFP4_E2M1 => 2
  | Q4_0 | Q4_1 | Q5_0 | Q5_1 | Q8_0 | IQ4_NL => 32
  | Q2_K | Q3_K | Q4_K | Q5_K | Q6_K | IQ2_XXS | IQ2_XS | IQ3_XXS | IQ3_S | IQ2_S
  | IQ4_XS | IQ1_S | IQ1_M | IQ3_K => 256
  end.

End Ggml.

(** ** types.rs: errors. [io::Error] is the end of the file, or the
    [InvalidData] the readers make. *)
Inductive io_error : Type :=
| UnexpectedEof
| InvalidData (what : string)
| InvalidUtf8 (valid_up_to : nat).

Inductive GgufError : Type :=
| BadMagic (got : Z)
| UnsupportedVersion (v : Z)
| UnsupportedType (v : Z)
| UnsupportedMetadataType (tag : Z)
| LimitExceeded (what : string) (value limit : Z)
| InvalidAlignment (a : Z)
| TensorSizeOverflow (tensor : string)
| TensorOutOfBounds (tensor : string)
| DuplicateMetadataKey (key : string)
| DuplicateTensorName (name : string)
| Io (e : io_error).

Definition GgmlType_from_u32 (v : Z) : result GgufError Ggml.GgmlType :=
  if v =? 0 then Ok Ggml.F32
  else if v =? 1 then Ok Ggml.F16
  else if v =? 2 then Ok Ggml.Q4_0
  else if v =? 3 then Ok Ggml.Q4_1
  else if v =? 6 then Ok Ggml.Q5_0
  else if v =? 7 then Ok Ggml.Q5_1
  else if v =? 8 then Ok Ggml.Q8_0
  else if v =? 10 then Ok Ggml.Q2_K
  else if v =? 11 then Ok Ggml.Q3_K
  else if v =? 12 then Ok Ggml.Q4_K
  else if v =? 13 then Ok Ggml.Q5_K
  else if v =? 14 then Ok Ggml.Q6_K
  else if v =? 16 then Ok Ggml.IQ2_XXS
  else if v =? 17 then Ok Ggml.IQ2_XS
  else if v =? 18 then Ok Ggml.IQ3_XXS
  else if v =? 19 then Ok Ggml.IQ1_S
  else if v =? 20 then Ok Ggml.IQ4_NL
  else if v =? 21 then Ok Ggml.IQ3_S
  else if v =? 22 then Ok Ggml.IQ2_S
  else if v =? 23 then Ok Ggml.IQ4_XS
  else if v =? 29 then Ok Ggml.IQ1_M
  else if v =? 30 then Ok Ggml.BF16
  else if v =? 138 then Ok Ggml.IQ3_K
  else if v =? 1000 then Ok Ggml.NVFP4_E2M1
  else if v =? 1001 then Ok Ggml.F8_E4M3FN
  else Err (UnsupportedType v).

(** ** types.rs: tensor descriptors. *)
Module Tensor.

Record TensorInfo : Type := mkTensorInfo {
  name : string;
  shape : list Z;
  dtype : Ggml.GgmlType;
  offset : Z;
}.

(** [shape.iter().try_fold(1u64, |product, d| product.checked_mul(d))]. *)
Fixpoint checked_product (w acc : Z) (dims : list Z) : option Z :=
  match dims with
  | [] => Some acc
  | d :: dims =>
      match checked_mul w acc d with
      | Some acc => checked_product w acc dims
      | None => None
      end
  end.

Definition n_elements (t : TensorInfo) : Z :=
  Z.max (default U64_MAX (checked_product 64 1 (shape t))) 1.

Definition data_size (t : TensorInfo) : Z :=
  let n := default USIZE_MAX (usize_try_from (n_elements t)) in
  let bs := Ggml.block_elements (dtype t) in
  let n_blocks := div_ceil n bs in
  saturating_mul 64 n_blocks (Ggml.block_size (dtype t)).

End Tensor.

(** ** types.rs: metadata values. Floats are kept as their bit patterns. *)
Module Meta.

Inductive MetadataValue : Type :=
| U8 (v : Z)
| I8 (v : Z)
| U16 (v : Z)
| I16 (v : Z)
| U32 (v : Z)
| I32 (v : Z)
| U64 (v : Z)
| I64 (v : Z)
| F32 (bits : Z)
| F64 (bits : Z)
| Bool (b : bool)
| Str (s : string)
| Array (vs : list MetadataValue).

(** Induction with the hypothesis for every element of an array. *)
Fixpoint MetadataValue_rect' (P : MetadataValue -> Prop)
    (fU8 : forall v, P (U8 v)) (fI8 : forall v, P (I8 v))
    (fU16 : forall v, P (U16 v)) (fI16 : forall v, P (I16 v))
    (fU32 : forall v, P (U32 v)) (fI32 : forall v, P (I32 v))
    (fU64 : forall v, P (U64 v)) (fI64 : forall v, P (I64 v))
    (fF32 : forall v, P (F32 v)) (fF64 : forall v, P (F64 v))
    (fB : forall b, P (Bool b)) (fS : forall s, P (Str s))
    (fA : forall vs, Forall P vs -> P (Array vs)) (v : MetadataValue) : P v :=
  match v with
  | U8 v => fU8 v | I8 v => fI8 v | U16 v => fU16 v | I16 v => fI16 v
  | U32 v => fU32 v | I32 v => fI32 v | U64 v => fU64 v | I64 v => fI64 v
  | F32 v => fF32 v | F64 v => fF64 v | Bool b => fB b | Str s => fS s
  | Array vs =>
      fA vs
        ((fix go (vs : list MetadataValue) : Forall P vs :=
            match vs with
            | [] => List.Forall_nil P
            | v :: vs => List.Forall_cons P v vs
                (MetadataValue_rect' P fU8 fI8 fU16 fI16 fU32 fI32 fU64 fI64
                   fF32 fF64 fB fS fA v) (go vs)
            end) vs)
  end.

(** Nesting depth of arrays. *)
Fixpoint array_depth (v : MetadataValue) : nat :=
  match v with
  | Array vs => S (list_max (map array_depth vs))
  | _ => 0
  end.

End Meta.

(** ** types.rs: the parsed header. *)
Record GgufFile : Type := mkGgufFile {
  version : Z;
  metadata : gmap string Meta.MetadataValue;
  tensors : list Tensor.TensorInfo;
  data_offset : Z;
}.

(** ** reader.rs *)
Definition MAX_GGUF_STRING_BYTES : Z := 16 * 1024 * 1024.

Record cursor : Type := mkCursor { pos : Z; rest : list byte }.

(** [Read::read_exact] into a buffer of [n] bytes. *)
Definition read_exact (r : cursor) (n : Z) : result io_error (list byte * cursor) :=
  if zlen (rest r) <? n then Err UnexpectedEof
  else Ok (take (Z.to_nat n) (rest r),
           mkCursor (pos r + n) (drop (Z.to_nat n) (rest r))).

Definition read_u8 (r : cursor) : result io_error (Z * cursor) :=
  let? (buf, r) := read_exact r 1 in Ok (from_le_bytes buf, r).
Definition read_u16 (r : cursor) : result io_error (Z * cursor) :=
  let? (buf, r) := read_exact r 2 in Ok (from_le_bytes buf, r).
Definition read_u32 (r : cursor) : result io_error (Z * cursor) :=
  let? (buf, r) := read_exact r 4 in Ok (from_le_bytes buf, r).
Definition read_u64 (r : cursor) : result io_error (Z * cursor) :=
  let? (buf, r) := read_exact r 8 in Ok (from_le_bytes buf, r).
Definition read_i8 (r : cursor) : result io_error (Z * cursor) :=
  let? (v, r) := read_u8 r in Ok (as_signed 8 v, r).
Definition read_i16 (r : cursor) : result io_error (Z * cursor) :=
  let? (v, r) := read_u16 r in Ok (as_signed 16 v, r).
Definition read_i32 (r : cursor) : result io_error (Z * cursor) :=
  let? (v, r) := read_u32 r in Ok (as_signed 32 v, r).
Definition read_i64 (r : cursor) : result io_error (Z * cursor) :=
  let? (v, r) := read_u64 r in Ok (as_signed 64 v, r).
(** [f32::from_le_bytes], [f64::from_le_bytes]: the bit patterns. *)
Definition read_f32 (r : cursor) : result io_error (Z * cursor) :=
  let? (buf, r) := read_exact r 4 in Ok (from_le_bytes buf, r).
Definition read_f64 (r : cursor) : result io_error (Z * cursor) :=
  let? (buf, r) := read_exact r 8 in Ok (from_le_bytes buf, r).

Definition read_string (r : cursor) : result io_error (string * cursor) :=
  let? (raw_len, r) := read_u64 r in
  if MAX_GGUF_STRING_BYTES <? raw_len then
    Err (InvalidData "GGUF string exceeds the bounded parser limit")
  else
    let? len := ok_or (usize_try_from raw_len)
                  (InvalidData "GGUF string length does not fit this platform") in
    let? (buf, r) := read_exact r len in
    let? s := result_map_err InvalidUtf8 (from_utf8 buf) in
    Ok (s, r).

Definition read_bool (r : cursor) : result io_error (bool * cursor) :=
  let? (v, r) := read_u8 r in Ok (negb (v =? 0), r).

(** [?] on an [io::Result] in a function returning [GgufError]. *)
Definition io {A} (m : result io_error A) : result GgufError A := result_map_err Io m.

(** ** metadata.rs *)
Definition MAX_METADATA_ARRAY_ITEMS : Z := 1000000.
Definition MAX_METADATA_NESTING : nat := 32.

Definition GGUF_TYPE_UINT8 : Z := 0.
Definition GGUF_TYPE_INT8 : Z := 1.
Definition GGUF_TYPE_UINT16 : Z := 2.
Definition GGUF_TYPE_INT16 : Z := 3.
Definition GGUF_TYPE_UINT32 : Z := 4.
Definition GGUF_TYPE_INT32 : Z := 5.
Definition GGUF_TYPE_FLOAT32 : Z := 6.
Definition GGUF_TYPE_BOOL : Z := 7.
Definition GGUF_TYPE_STRING : Z := 8.
Definition GGUF_TYPE_ARRAY : Z := 9.
Definition GGUF_TYPE_UINT64 : Z := 10.
Definition GGUF_TYPE_INT64 : Z := 11.
Definition GGUF_TYPE_FLOAT64 : Z := 12.

(** [for _ in 0..n { elems.push(f(r)?) }]. *)
Fixpoint read_n {E A} (f : cursor -> result E (A * cursor)) (n : nat) (r : cursor)
    : result E (list A * cursor) :=
  match n with
  | O => Ok ([], r)
  | S n =>
      let? (x, r) := f r in
      let? (xs, r) := read_n f n r in
      Ok (x :: xs, r)
  end.

(** A value built from what a primitive reader returns. *)
Definition read_as {A} (c : A -> Meta.MetadataValue) (m : result io_error (A * cursor))
    : result GgufError (Meta.MetadataValue * cursor) :=
  let? (v, r) := io m in Ok (c v, r).

(** [room] is [MAX_METADATA_NESTING - depth]: the test [depth >= MAX] is
    [room = 0], and the recursive call at [depth + 1] is the one at [room - 1]. *)
Fixpoint read_metadata_value_at_depth (room : nat) (r : cursor) (type_tag : Z)
    : result GgufError (Meta.MetadataValue * cursor) :=
  if type_tag =? GGUF_TYPE_UINT8 then read_as Meta.U8 (read_u8 r)
  else if type_tag =? GGUF_TYPE_INT8 then read_as Meta.I8 (read_i8 r)
  else if type_tag =? GGUF_TYPE_UINT16 then read_as Meta.U16 (read_u16 r)
  else if type_tag =? GGUF_TYPE_INT16 then read_as Meta.I16 (read_i16 r)
  else if type_tag =? GGUF_TYPE_UINT32 then read_as Meta.U32 (read_u32 r)
  else if type_tag =? GGUF_TYPE_INT32 then read_as Meta.I32 (read_i32 r)
  else if type_tag =? GGUF_TYPE_FLOAT32 then read_as Meta.F32 (read_f32 r)
  else if type_tag =? GGUF_TYPE_BOOL then read_as Meta.Bool (read_bool r)
  else if type_tag =? GGUF_TYPE_STRING then read_as Meta.Str (read_string r)
  else if type_tag =? GGUF_TYPE_UINT64 then read_as Meta.U64 (read_u64 r)
  else if type_tag =? GGUF_TYPE_INT64 then read_as Meta.I64 (read_i64 r)
  else if type_tag =? GGUF_TYPE_FLOAT64 then read_as Meta.F64 (read_f64 r)
  else if type_tag =? GGUF_TYPE_ARRAY then
    match room with
    | O =>
        Err (LimitExceeded "metadata nesting"
               (Z.of_nat MAX_METADATA_NESTING + 1) (Z.of_nat MAX_METADATA_NESTING))
    | S room' =>
        let? (elem_type, r) := io (read_u32 r) in
        let? (raw_len, r) := io (read_u64 r) in
        if MAX_METADATA_ARRAY_ITEMS <? raw_len then
          Err (LimitExceeded "metadata array items" raw_len MAX_METADATA_ARRAY_ITEMS)
        else
          let? len := ok_or (usize_try_from raw_len)
                        (LimitExceeded "metadata array items" raw_len USIZE_MAX) in
          let? (elems, r) :=
            read_n (fun r => read_metadata_value_at_depth room' r elem_type)
              (Z.to_nat len) r in
          Ok (Meta.Array elems, r)
    end
  else Err (UnsupportedMetadataType type_tag).

Definition read_metadata_value (r : cursor) (type_tag : Z)
    : result GgufError (Meta.MetadataValue * cursor) :=
  read_metadata_value_at_depth MAX_METADATA_NESTING r type_tag.

(** ** The wire format, as the header comment of gguf.rs gives it: little-endian
    integers, length-prefixed strings, arrays as element tag, count, elements. *)
Module Wire.

Definition string (s : Strings.String.string) : list byte :=
  to_le_bytes 8 (zlen (string_bytes s)) ++ string_bytes s.

Definition tag (v : Meta.MetadataValue) : Z :=
  match v with
  | Meta.U8 _ => GGUF_TYPE_UINT8
  | Meta.I8 _ => GGUF_TYPE_INT8
  | Meta.U16 _ => GGUF_TYPE_UINT16
  | Meta.I16 _ => GGUF_TYPE_INT16
  | Meta.U32 _ => GGUF_TYPE_UINT32
  | Meta.I32 _ => GGUF_TYPE_INT32
  | Meta.F32 _ => GGUF_TYPE_FLOAT32
  | Meta.Bool _ => GGUF_TYPE_BOOL
  | Meta.Str _ => GGUF_TYPE_STRING
  | Meta.Array _ => GGUF_TYPE_ARRAY
  | Meta.U64 _ => GGUF_TYPE_UINT64
  | Meta.I64 _ => GGUF_TYPE_INT64
  | Meta.F64 _ => GGUF_TYPE_FLOAT64
  end.

(** The element tag an array is written with. *)
Definition elem_tag (vs : list Meta.MetadataValue) : Z :=
  match vs with [] => GGUF_TYPE_UINT8 | v :: _ => tag v end.

Fixpoint value (v : Meta.MetadataValue) : list byte :=
  match v with
  | Meta.U8 v => to_le_bytes 1 v
  | Meta.I8 v => to_le_bytes 1 (as_unsigned 8 v)
  | Meta.U16 v => to_le_bytes 2 v
  | Meta.I16 v => to_le_bytes 2 (as_unsigned 16 v)
  | Meta.U32 v => to_le_bytes 4 v
  | Meta.I32 v => to_le_bytes 4 (as_unsigned 32 v)
  | Meta.U64 v => to_le_bytes 8 v
  | Meta.I64 v => to_le_bytes 8 (as_unsigned 64 v)
  | Meta.F32 v => to_le_bytes 4 v
  | Meta.F64 v => to_le_bytes 8 v
  | Meta.Bool b => to_le_bytes 1 (if b then 1 else 0)
  | Meta.Str s => string s
  | Meta.Array vs =>
      to_le_bytes 4 (elem_tag vs) ++ to_le_bytes 8 (zlen vs) ++ mjoin (map value vs)
  end.

(** What the readers can return: ranges, string and array limits, one element
    tag per array, nesting at most [room]. *)
Definition string_ok (s : Strings.String.string) : Prop :=
  utf8_valid (string_bytes s) = true /\ zlen (string_bytes s) <= MAX_GGUF_STRING_BYTES.

Fixpoint value_ok (room : nat) (v : Meta.MetadataValue) : Prop :=
  match v with
  | Meta.U8 v => is_uint 8 v
  | Meta.I8 v => is_sint 8 v
  | Meta.U16 v => is_uint 16 v
  | Meta.I16 v => is_sint 16 v
  | Meta.U32 v | Meta.F32 v => is_uint 32 v
  | Meta.I32 v => is_sint 32 v
  | Meta.U64 v | Meta.F64 v => is_uint 64 v
  | Meta.I64 v => is_sint 64 v
  | Meta.Bool _ => True
  | Meta.Str s => string_ok s
  | Meta.Array vs =>
      match room with
      | O => False
      | S room =>
          zlen vs <= MAX_METADATA_ARRAY_ITEMS /\
          Forall (fun v => tag v = elem_tag vs) vs /\ Forall (value_ok room) vs
      end
  end.

End Wire.

(** ** Reader lemmas. *)

(** A read moves the cursor forward inside the same file. *)
Definition advances (r r' : cursor) : Prop :=
  exists pre, rest r = pre ++ rest r' /\ pos r' = pos r + zlen pre.

#[global] Instance advances_preorder : PreOrder advances.
Proof.
  split.
  - intros r. exists []. split; [done|]. rewrite zlen_nil. lia.
  - intros r1 r2 r3 (p1 & H1 & P1) (p2 & H2 & P2). exists (p1 ++ p2).
    rewrite H1, H2, app_assoc, zlen_app. split; [done | lia].
Qed.

Lemma advances_end r r' : advances r r' -> pos r' + zlen (rest r') = pos r + zlen (rest r).
Proof. intros (pre & Hr & Hp). rewrite Hr, zlen_app. lia. Qed.

Lemma advances_pos r r' : advances r r' -> pos r <= pos r'.
Proof. intros (pre & _ & ->). pose proof (zlen_nonneg pre). lia. Qed.

Lemma read_exact_Ok r n bs r' :
  0 <= n -> read_exact r n = Ok (bs, r') ->
  zlen bs = n /\ rest r = bs ++ rest r' /\ pos r' = pos r + n.
Proof.
  unfold read_exact. intros Hn H. inv_ok H. bool_prop. unfold zlen in *.
  rewrite length_take_le by lia. rewrite take_drop. split_and!; [lia | done..].
Qed.

Lemma read_exact_advances r n bs r' :
  0 <= n -> read_exact r n = Ok (bs, r') -> advances r r'.
Proof.
  intros Hn H. apply read_exact_Ok in H as (Hl & Hr & Hp); [|done].
  exists bs. split; [done | lia].
Qed.

Lemma read_exact_app p bs k n :
  zlen bs = n -> read_exact (mkCursor p (bs ++ k)) n = Ok (bs, mkCursor (p + n) k).
Proof.
  intros <-. unfold read_exact; simpl. rewrite zlen_app.
  pose proof (zlen_nonneg k). case_match; bool_prop; [lia|].
  unfold zlen. rewrite Nat2Z.id, take_app_length, drop_app_length. done.
Qed.

(** Unsigned little-endian fields of [n] bytes. *)
Definition read_le (n : nat) (r : cursor) : result io_error (Z * cursor) :=
  let? (buf, r) := read_exact r (Z.of_nat n) in Ok (from_le_bytes buf, r).

Lemma pow256 n : 256 ^ Z.of_nat n = 2 ^ (8 * Z.of_nat n).
Proof. rewrite Z.pow_mul_r by lia. done. Qed.

Lemma read_le_Ok n r v r' :
  read_le n r = Ok (v, r') -> is_uint (8 * Z.of_nat n) v /\ advances r r'.
Proof.
  unfold read_le. intros H. inv_ok H. split; [|by eapply read_exact_advances; [|done]; lia].
  apply read_exact_Ok in Hm as (Hl & _ & _); [|lia].
  unfold is_uint. rewrite <- pow256. rewrite <- Hl. apply from_le_bytes_range.
Qed.

Lemma read_le_app n p v k :
  is_uint (8 * Z.of_nat n) v ->
  read_le n (mkCursor p (to_le_bytes n v ++ k)) = Ok (v, mkCursor (p + Z.of_nat n) k).
Proof.
  unfold read_le. intros Hv. rewrite read_exact_app.
  - rewrite from_to_le_bytes; [done|]. rewrite pow256. apply Hv.
  - unfold zlen. by rewrite length_to_le_bytes.
Qed.

Lemma read_u8_le r : read_u8 r = read_le 1 r. Proof. done. Qed.
Lemma read_u16_le r : read_u16 r = read_le 2 r. Proof. done. Qed.
Lemma read_u32_le r : read_u32 r = read_le 4 r. Proof. done. Qed.
Lemma read_u64_le r : read_u64 r = read_le 8 r. Proof. done. Qed.
Lemma read_f32_le r : read_f32 r = read_le 4 r. Proof. done. Qed.
Lemma read_f64_le r : read_f64 r = read_le 8 r. Proof. done. Qed.

Lemma read_bool_le r :
  read_bool r = (let? (v, r) := read_le 1 r in Ok (negb (v =? 0), r)).
Proof. done. Qed.

Lemma from_utf8_Ok bs s : from_utf8 bs = Ok s -> utf8_valid bs = true /\ bs = string_bytes s.
Proof. unfold from_utf8. intros H. inv_ok H. by rewrite string_bytes_string. Qed.

Lemma read_string_Ok r s r' :
  read_string r = Ok (s, r') -> Wire.string_ok s /\ advances r r'.
Proof.
  unfold read_string. rewrite read_u64_le. intros H.
  ok_step H as [[len r1]|] Hlen. ok_step H as [] Hmax. bool_prop.
  apply read_le_Ok in Hlen as [Hu Ha]. rewrite usize_try_from_u64 in H by done. cbn in H.
  ok_step H as [[buf r2]|] Hbuf. ok_step H as [s'|] Hs. simplify_eq.
  unfold result_map_err in Hs. ok_step Hs as [s''|] Hv. simplify_eq.
  apply from_utf8_Ok in Hv as [Hv ->].
  pose proof (read_exact_Ok _ _ _ _ (proj1 Hu) Hbuf) as (Hl & _ & _).
  split; [split; [done | lia]|]. etrans; [done|]. eapply read_exact_advances; [|done]. apply Hu.
Qed.

Lemma read_string_app p s k :
  Wire.string_ok s ->
  read_string (mkCursor p (Wire.string s ++ k)) =
  Ok (s, mkCursor (p + zlen (Wire.string s)) k).
Proof.
  intros [Hv Hl]. unfold MAX_GGUF_STRING_BYTES in Hl.
  unfold read_string, Wire.string. rewrite read_u64_le, <- app_assoc.
  pose proof (zlen_nonneg (string_bytes s)).
  rewrite read_le_app by (unfold is_uint; lia).
  case_match eqn:Hc; bool_prop; [unfold MAX_GGUF_STRING_BYTES in *; lia|].
  rewrite usize_try_from_u64 by (unfold is_uint; lia). cbn [ok_or].
  rewrite read_exact_app by done. unfold from_utf8. rewrite Hv. cbn [result_map_err].
  rewrite bytes_string_bytes. do 3 f_equal. rewrite zlen_app.
  unfold zlen at 2. rewrite length_to_le_bytes. lia.
Qed.

Lemma read_n_Ok {E A} (f : cursor -> result E (A * cursor)) (P : A -> Prop) n r xs r' :
  (forall r x r', f r = Ok (x, r') -> P x /\ advances r r') ->
  read_n f n r = Ok (xs, r') ->
  length xs = n /\ Forall P xs /\ advances r r'.
Proof.
  intros Hf. revert r xs r'. induction n as [|n IH]; intros r xs r' H; simpl in H.
  - simplify_eq. split_and!; [done | constructor | done].
  - ok_step H as [[x r1]|] Hx. ok_step H as [[xs1 r2]|] Hxs. simplify_eq.
    apply Hf in Hx as [Hx Ha]. apply IH in Hxs as (Hl & HP & Ha').
    split_and!; [simpl; lia | by constructor | by etrans].
Qed.

Lemma read_n_app {E A} (f : cursor -> result E (A * cursor)) (enc : A -> list byte) xs p k :
  Forall (fun x => forall p k, f (mkCursor p (enc x ++ k)) = Ok (x, mkCursor (p + zlen (enc x)) k)) xs ->
  read_n f (length xs) (mkCursor p (mjoin (map enc xs) ++ k)) =
  Ok (xs, mkCursor (p + zlen (mjoin (map enc xs))) k).
Proof.
  intros Hf. revert p. induction Hf as [|x xs Hx Hf IH]; intros p; simpl.
  - by rewrite zlen_nil, Z.add_0_r.
  - rewrite <- app_assoc, Hx, IH, zlen_app, Z.add_assoc. done.
Qed.

Lemma io_Ok {A} (m : result io_error A) a : io m = Ok a <-> m = Ok a.
Proof. destruct m; simpl; naive_solver. Qed.

Lemma read_as_Ok {A} (c : A -> Meta.MetadataValue) m v r :
  read_as c m = Ok (v, r) <-> exists x, m = Ok (x, r) /\ v = c x.
Proof. unfold read_as, io. destruct m as [[]|]; simpl; naive_solver. Qed.

(** Every value the reader returns carries the tag it was read with, respects
    the ranges and limits, and was read by moving forward. *)
Lemma read_value_Ok room r t v r' :
  read_metadata_value_at_depth room r t = Ok (v, r') ->
  Wire.tag v = t /\ Wire.value_ok room v /\ advances r r'.
Proof.
  revert r t v r'. induction room as [|room IH]; intros r t v r' H; simpl in H;
  repeat match type of H with
  | (if ?t =? ?k then _ else _) = _ =>
      destruct (Z.eqb_spec t k) as [->|];
      [try (apply read_as_Ok in H as (x & H & ->); simpl;
            rewrite ?read_u8_le, ?read_u16_le, ?read_u32_le, ?read_u64_le, ?read_f32_le,
              ?read_f64_le, ?read_bool_le in H;
            unfold read_i8, read_i16, read_i32, read_i64 in H;
            rewrite ?read_u8_le, ?read_u16_le, ?read_u32_le, ?read_u64_le in H;
            first [ apply read_string_Ok in H as []; done
                  | apply read_le_Ok in H as []; done
                  | inv_ok H; apply read_le_Ok in Hm as [Hu Ha];
                    try apply as_signed_range in Hu; done ])|]
  end; try done.
  ok_step H as [[et r1]|] Ht. ok_step H as [[len r2]|] Hl. ok_step H as [] Hmax.
  apply io_Ok in Ht, Hl. rewrite read_u32_le in Ht. rewrite read_u64_le in Hl. bool_prop.
  apply read_le_Ok in Ht as [Ht Ha1]. apply read_le_Ok in Hl as [Hl Ha2].
  rewrite usize_try_from_u64 in H by done. cbn in H. ok_step H as [[vs r3]|] Hvs. simplify_eq.
  apply (read_n_Ok _ (fun v => Wire.tag v = et /\ Wire.value_ok room v)) in Hvs
    as (Hlen & HP & Ha3).
  2: { intros ra x rb Hx. apply IH in Hx as (? & ? & ?). done. }
  apply Forall_and in HP as [HP1 HP2].
  cbn [Wire.value_ok]. split_and!; [done| | | done | by do 2 (etrans; [done|])].
  - unfold zlen. rewrite Hlen, Z2Nat.id by apply Hl. done.
  - destruct HP1 as [|x xs <- HP1]; constructor; done.
Qed.

(** Reading back what was written in the wire format. *)
Lemma read_signed_app w n p v k :
  w = 8 * Z.of_nat n -> 1 <= w -> is_sint w v ->
  (let? (x, r) := read_le n (mkCursor p (to_le_bytes n (as_unsigned w v) ++ k)) in
   Ok (as_signed w x, r)) = Ok (v, mkCursor (p + Z.of_nat n) k).
Proof.
  intros -> Hw Hv. rewrite read_le_app by (apply as_unsigned_range; lia).
  by rewrite as_signed_unsigned.
Qed.

Lemma zlen_to_le_bytes n z : zlen (to_le_bytes n z) = Z.of_nat n.
Proof. unfold zlen. by rewrite length_to_le_bytes. Qed.

Lemma read_value_app room v p k :
  Wire.value_ok room v ->
  read_metadata_value_at_depth room (mkCursor p (Wire.value v ++ k)) (Wire.tag v) =
  Ok (v, mkCursor (p + zlen (Wire.value v)) k).
Proof.
  revert v p k. induction room as [|room IH]; intros v p k Hv;
  destruct v as [v|v|v|v|v|v|v|v|v|v|b|s|vs]; try done;
  try (cbn [Wire.value]; rewrite ?zlen_to_le_bytes;
       apply read_as_Ok; eexists; split; [|done];
       rewrite ?read_u8_le, ?read_u16_le, ?read_u32_le, ?read_u64_le, ?read_f32_le,
         ?read_f64_le;
       first [ by apply read_string_app | by apply read_le_app
             | unfold read_i8, read_i16, read_i32, read_i64;
               rewrite ?read_u8_le, ?read_u16_le, ?read_u32_le, ?read_u64_le;
               by apply read_signed_app
             | rewrite read_bool_le, read_le_app by (by destruct b); by destruct b ]).
  destruct Hv as (Hlen & Htag & Hvs). unfold MAX_METADATA_ARRAY_ITEMS in Hlen.
  cbn [Wire.value]. rewrite <- !app_assoc.
  change (Wire.tag (Meta.Array vs)) with GGUF_TYPE_ARRAY.
  cbn [read_metadata_value_at_depth]. cbn -[read_u32 read_u64 read_n Z.ltb to_le_bytes].
  rewrite read_u32_le, read_le_app.
  2: { destruct vs as [|v ?]; [done|]. by destruct v. }
  cbn -[read_u32 read_u64 read_n Z.ltb to_le_bytes].
  rewrite read_u64_le, read_le_app by (pose proof (zlen_nonneg vs); unfold is_uint; lia).
  cbn -[read_u32 read_u64 read_n Z.ltb to_le_bytes].
  case_match eqn:Hc; bool_prop; [unfold MAX_METADATA_ARRAY_ITEMS in *; lia|].
  rewrite usize_try_from_u64 by (pose proof (zlen_nonneg vs); unfold is_uint; lia).
  cbn -[read_u32 read_u64 read_n Z.ltb to_le_bytes].
  rewrite to_nat_zlen, (read_n_app _ Wire.value).
  - rewrite !zlen_app, !zlen_to_le_bytes. do 3 f_equal. lia.
  - rewrite Forall_forall in Htag, Hvs |- *. intros v Hv p' k'.
    rewrite <- (Htag v Hv). by apply IH, Hvs.
Qed.
