(* ===== verification/GgufParser.v ===== *)
(** * The GGUF header parser.

    Models [crates/muser-engine/src/gguf/parser.rs]: [GgufFile::parse] with its
    limits, duplicate checks, alignment and tensor-range validation, over the
    readers of [GgufTypes].  The theorems: whatever the parser accepts satisfies
    every bound the loaders rely on ([parse_sound]); every file written in the
    format is accepted and read back exactly ([parse_encoded]); and the parser
    only accepts files whose tensors lie inside the file, with no arithmetic
    wrap-around or saturation. *)
From Stdlib Require Import Strings.Byte.
From S2P Require Import Prelude Utf8 GgufTypes.

Definition GGUF_MAGIC : Z := 0x46554747.
Definition MAX_METADATA_ITEMS : Z := 100000.
Definition MAX_TENSORS : Z := 1000000.
Definition MAX_TENSOR_DIMS : Z := 32.

Definition bounded_count (raw limit : Z) (what : string) : result GgufError Z :=
  if limit <? raw then Err (LimitExceeded what raw limit)
  else ok_or (usize_try_from raw) (LimitExceeded what raw USIZE_MAX).

Definition ensure_minimum_bytes (r : cursor) (file_end count bytes_per_item : Z)
    (what : string) : result GgufError unit :=
  let remaining := saturating_sub file_end (pos r) in
  if remaining / bytes_per_item <? count then
    Err (LimitExceeded what count (remaining / bytes_per_item))
  else Ok tt.

Definition checked_tensor_size (t : Tensor.TensorInfo) : result GgufError Z :=
  let overflow := TensorSizeOverflow (Tensor.name t) in
  let? product := ok_or (Tensor.checked_product 64 1 (Tensor.shape t)) overflow in
  let elements := Z.max product 1 in
  let block_elements := Ggml.block_elements (Tensor.dtype t) in
  let? sum := ok_or (checked_add 64 elements (block_elements - 1)) overflow in
  let blocks := sum / block_elements in
  ok_or (checked_mul 64 blocks (Ggml.block_size (Tensor.dtype t))) overflow.

(** The metadata loop of [parse]. *)
Fixpoint read_metadata_entries (n : nat) (r : cursor) (md : gmap string Meta.MetadataValue)
    : result GgufError (gmap string Meta.MetadataValue * cursor) :=
  match n with
  | O => Ok (md, r)
  | S n =>
      let? (key, r) := io (read_string r) in
      let? (type_tag, r) := io (read_u32 r) in
      let? (value, r) := read_metadata_value r type_tag in
      match md !! key with
      | Some _ => Err (DuplicateMetadataKey key)
      | None => read_metadata_entries n r (<[key := value]> md)
      end
  end.

(** The tensor loop of [parse]; [tensor_names] is its [HashSet]. *)
Fixpoint read_tensor_entries (n : nat) (r : cursor) (tensor_names : gset string)
    : result GgufError (list Tensor.TensorInfo * cursor) :=
  match n with
  | O => Ok ([], r)
  | S n =>
      let? (name, r) := io (read_string r) in
      if decide (name ∈ tensor_names) then Err (DuplicateTensorName name)
      else
        let? (raw_dims, r) := io (read_u32 r) in
        let? n_dims := bounded_count raw_dims MAX_TENSOR_DIMS "tensor dimensions" in
        let? (shape, r) := read_n (fun r => io (read_u64 r)) (Z.to_nat n_dims) r in
        let? (raw_type, r) := io (read_u32 r) in
        let? dtype := GgmlType_from_u32 raw_type in
        let? (offset, r) := io (read_u64 r) in
        let? (tensors, r) := read_tensor_entries n r ({[name]} ∪ tensor_names) in
        Ok (Tensor.mkTensorInfo name shape dtype offset :: tensors, r)
  end.

(** The final range check over every tensor. *)
Fixpoint check_tensors (data_offset file_end : Z) (ts : list Tensor.TensorInfo)
    : result GgufError unit :=
  match ts with
  | [] => Ok tt
  | t :: ts =>
      let? byte_size := checked_tensor_size t in
      let? end_ :=
        ok_or (match checked_add 64 data_offset (Tensor.offset t) with
               | Some offset => checked_add 64 offset byte_size
               | None => None
               end) (TensorSizeOverflow (Tensor.name t)) in
      if file_end <? end_ then Err (TensorOutOfBounds (Tensor.name t))
      else check_tensors data_offset file_end ts
  end.

Definition alignment_of (md : gmap string Meta.MetadataValue) : Z :=
  match md !! "general.alignment" with
  | Some (Meta.U32 a) => a
  | _ => 32
  end.

(** [GgufFile::parse]: [r] is the reader at the start of the file. *)
Definition parse (r : cursor) : result GgufError GgufFile :=
  let file_end := pos r + zlen (rest r) in
  let? (magic, r) := io (read_u32 r) in
  if negb (magic =? GGUF_MAGIC) then Err (BadMagic magic) else
  let? (version, r) := io (read_u32 r) in
  if negb ((2 <=? version) && (version <=? 3)) then Err (UnsupportedVersion version) else
  let? (raw_tensors, r) := io (read_u64 r) in
  let? (raw_metadata, r) := io (read_u64 r) in
  let? n_tensors := bounded_count raw_tensors MAX_TENSORS "tensor entries" in
  let? n_kv := bounded_count raw_metadata MAX_METADATA_ITEMS "metadata entries" in
  let? _ := ensure_minimum_bytes r file_end raw_metadata 12 "metadata entries" in
  let? (metadata, r) := read_metadata_entries (Z.to_nat n_kv) r ∅ in
  let? _ := ensure_minimum_bytes r file_end raw_tensors 24 "tensor entries" in
  let? (tensors, r) := read_tensor_entries (Z.to_nat n_tensors) r ∅ in
  let alignment := alignment_of metadata in
  if (alignment =? 0) || negb (is_power_of_two alignment) then
    Err (InvalidAlignment alignment)
  else
    let? data_offset :=
      ok_or (match checked_add 64 (pos r) (alignment - 1) with
             | Some value => Some (value / alignment * alignment)
             | None => None
             end)
        (LimitExceeded "aligned header offset" (pos r) (U64_MAX - alignment + 1)) in
    let? _ := check_tensors data_offset file_end tensors in
    Ok (mkGgufFile version metadata tensors data_offset).

(** [GgufFile::parse_path] on a file with the given contents. *)
Definition parse_path (contents : list byte) : result GgufError GgufFile :=
  parse (mkCursor 0 contents).

(** ** Specification. *)

(** Exact byte size of a tensor: whole blocks for the product of its dimensions,
    a scalar counting as one element. *)
Definition shape_product (dims : list Z) : Z := foldr Z.mul 1 dims.
Definition tensor_bytes (t : Tensor.TensorInfo) : Z :=
  div_ceil (Z.max (shape_product (Tensor.shape t)) 1) (Ggml.block_elements (Tensor.dtype t))
  * Ggml.block_size (Tensor.dtype t).

Definition tensor_header_ok (t : Tensor.TensorInfo) : Prop :=
  Wire.string_ok (Tensor.name t) /\ zlen (Tensor.shape t) <= MAX_TENSOR_DIMS /\
  Forall (is_uint 64) (Tensor.shape t) /\ is_uint 64 (Tensor.offset t).

(** A tensor whose range [data_offset + offset, + size) lies in the file, and
    whose size the code computes without saturating. *)
Definition tensor_range_ok (data_offset file_end : Z) (t : Tensor.TensorInfo) : Prop :=
  Tensor.data_size t = tensor_bytes t /\
  data_offset + Tensor.offset t + tensor_bytes t <= file_end /\
  data_offset + Tensor.offset t + tensor_bytes t < 2 ^ 64.

Record gguf_ok (start file_end : Z) (g : GgufFile) : Prop := {
  ok_version : 2 <= version g <= 3;
  ok_metadata : map_Forall (fun k v => Wire.string_ok k /\
                  Wire.value_ok MAX_METADATA_NESTING v) (metadata g);
  ok_metadata_count : Z.of_nat (size (metadata g)) <= MAX_METADATA_ITEMS;
  ok_tensor_count : zlen (tensors g) <= MAX_TENSORS;
  ok_tensor_names : NoDup (Tensor.name <$> tensors g);
  ok_tensor_headers : Forall tensor_header_ok (tensors g);
  ok_alignment : exists k, 0 <= k /\ alignment_of (metadata g) = 2 ^ k /\
                   (2 ^ k | data_offset g);
  ok_data_offset : start + 24 <= data_offset g;
  ok_ranges : Forall (tensor_range_ok (data_offset g) file_end) (tensors g);
}.

(** The file format, per the header comment of gguf.rs. *)
Definition encode_kv (kv : string * Meta.MetadataValue) : list byte :=
  Wire.string kv.1 ++ to_le_bytes 4 (Wire.tag kv.2) ++ Wire.value kv.2.
Definition encode_tensor (t : Tensor.TensorInfo) : list byte :=
  Wire.string (Tensor.name t) ++ to_le_bytes 4 (zlen (Tensor.shape t)) ++
  mjoin (map (to_le_bytes 8) (Tensor.shape t)) ++
  to_le_bytes 4 (Ggml.discriminant (Tensor.dtype t)) ++ to_le_bytes 8 (Tensor.offset t).
Definition encode_header (version : Z) (kvs : list (string * Meta.MetadataValue))
    (ts : list Tensor.TensorInfo) : list byte :=
  to_le_bytes 4 GGUF_MAGIC ++ to_le_bytes 4 version ++ to_le_bytes 8 (zlen ts) ++
  to_le_bytes 8 (zlen kvs) ++ mjoin (map encode_kv kvs) ++ mjoin (map encode_tensor ts).

(** ** Sizes. *)
Lemma block_elements_pos t : 1 <= Ggml.block_elements t.
Proof. by destruct t. Qed.
Lemma block_size_pos t : 1 <= Ggml.block_size t.
Proof. by destruct t. Qed.

Lemma checked_product_Some acc dims p :
  0 <= acc < 2 ^ 64 -> Forall (is_uint 64) dims ->
  Tensor.checked_product 64 acc dims = Some p ->
  p = acc * shape_product dims /\ 0 <= p < 2 ^ 64.
Proof.
  intros Ha Hd. revert acc Ha. induction Hd as [|d dims [Hd _] _ IH]; intros acc Ha H; simpl in *.
  - simplify_eq. lia.
  - destruct (checked_mul 64 acc d) as [acc'|] eqn:E; [|done].
    apply checked_mul_Some in E as [-> E]. apply IH in H as [-> H]; [|lia].
    split; [lia | done].
Qed.

Lemma shape_product_nonneg dims : Forall (is_uint 64) dims -> 0 <= shape_product dims.
Proof. induction 1 as [|d dims [Hd _] _ IH]; simpl; [lia|]. apply Z.mul_nonneg_nonneg; done. Qed.

Lemma checked_tensor_size_Ok t n :
  Forall (is_uint 64) (Tensor.shape t) -> checked_tensor_size t = Ok n ->
  n = tensor_bytes t /\ Tensor.data_size t = tensor_bytes t /\ 0 <= n < 2 ^ 64.
Proof.
  intros Hs. unfold checked_tensor_size, tensor_bytes, Tensor.data_size, Tensor.n_elements.
  pose proof (block_elements_pos (Tensor.dtype t)) as Hbe.
  pose proof (block_size_pos (Tensor.dtype t)) as Hbs.
  destruct (Tensor.checked_product 64 1 (Tensor.shape t)) as [p|] eqn:Hp; [|done].
  apply checked_product_Some in Hp as [-> Hp]; [|lia|done]. rewrite Z.mul_1_l in *.
  cbn [ok_or default]. set (e := Z.max _ 1).
  destruct (checked_add 64 e _) as [s|] eqn:Hadd; [|done].
  apply checked_add_Some in Hadd as [-> Hadd]. cbn [ok_or].
  destruct (checked_mul _ _ _) as [m|] eqn:Hmul; [|done].
  apply checked_mul_Some in Hmul as [-> Hmul]. intros [= <-].
  rewrite usize_try_from_u64 by (unfold is_uint; lia). cbn [default id].
  unfold div_ceil, saturating_mul. replace (e + (Ggml.block_elements (Tensor.dtype t) - 1))
    with (e + Ggml.block_elements (Tensor.dtype t) - 1) in * by lia.
  split_and!; [done | lia | | done].
  apply Z.mul_nonneg_nonneg; [|lia]. apply Z.div_pos; lia.
Qed.

Lemma bounded_count_Ok raw limit what n :
  bounded_count raw limit what = Ok n -> n = raw /\ raw <= limit.
Proof.
  unfold bounded_count, usize_try_from. intros H. ok_step H as [] Hl. bool_prop.
  destruct (raw <? 2 ^ 64); simplify_eq/=; lia.
Qed.

(** ** The loops. *)
Definition metadata_ok : gmap string Meta.MetadataValue -> Prop :=
  map_Forall (fun k v => Wire.string_ok k /\ Wire.value_ok MAX_METADATA_NESTING v).

Lemma read_metadata_entries_Ok n r md md' r' :
  metadata_ok md -> read_metadata_entries n r md = Ok (md', r') ->
  metadata_ok md' /\ size md' = (n + size md)%nat /\ advances r r'.
Proof.
  revert r md. induction n as [|n IH]; intros r md Hmd H; simpl in H.
  - simplify_eq. done.
  - ok_step H as [[key r1]|] Hkey. ok_step H as [[tag r2]|] Htag.
    ok_step H as [[v r3]|] Hv. ok_step H as [|] Hdup.
    apply io_Ok in Hkey, Htag. rewrite read_u32_le in Htag.
    apply read_string_Ok in Hkey as [Hk Ha1]. apply read_le_Ok in Htag as [_ Ha2].
    apply read_value_Ok in Hv as (_ & Hv & Ha3).
    apply IH in H as (Hok & Hsz & Ha4).
    + rewrite map_size_insert_None in Hsz by done.
      split_and!; [done | lia | by do 3 (etrans; [done|])].
    + by apply map_Forall_insert_2.
Qed.

Lemma read_tensor_entries_Ok n r names ts r' :
  read_tensor_entries n r names = Ok (ts, r') ->
  length ts = n /\ NoDup (Tensor.name <$> ts) /\
  Forall (fun t => Tensor.name t ∉ names) ts /\ Forall tensor_header_ok ts /\ advances r r'.
Proof.
  revert r names ts. induction n as [|n IH]; intros r names ts H; simpl in H.
  - simplify_eq. split_and!; try constructor. reflexivity.
  - ok_step H as [[nm r1]|] Hnm. ok_step H as [Hin|Hin] Hdec. ok_step H as [[rd r2]|] Hrd.
    ok_step H as [nd|] Hnd. ok_step H as [[sh r3]|] Hsh. ok_step H as [[rt r4]|] Hrt.
    ok_step H as [dt|] Hdt. ok_step H as [[off r5]|] Hoff. ok_step H as [[ts' r6]|] Hts.
    simplify_eq. apply io_Ok in Hnm, Hrd, Hrt, Hoff.
    rewrite read_u32_le in Hrd, Hrt. rewrite read_u64_le in Hoff.
    apply read_string_Ok in Hnm as [Hnm Ha1]. apply read_le_Ok in Hrd as [Hrd Ha2].
    apply read_le_Ok in Hrt as [_ Ha4]. apply read_le_Ok in Hoff as [Hoff Ha5].
    apply bounded_count_Ok in Hnd as [-> Hnd].
    apply (read_n_Ok _ (is_uint 64)) in Hsh as (Hlen & Hdims & Ha3).
    2: { intros ra x rb Hx. apply io_Ok in Hx. rewrite read_u64_le in Hx.
         by apply read_le_Ok in Hx. }
    apply IH in Hts as (Hl & Hnd' & Hfresh & Hok & Ha6). simpl.
    split_and!.
    + lia.
    + constructor; [|done]. intros Hc. apply list_elem_of_fmap in Hc as (t & Heq & Ht).
      rewrite Forall_forall in Hfresh. apply (Hfresh t Ht).
      apply elem_of_union_l, elem_of_singleton. done.
    + constructor; [done|]. eapply Forall_impl; [exact Hfresh|]. intros t Ht Hc.
      apply Ht. by apply elem_of_union_r.
    + constructor; [|done]. refine (conj Hnm (conj _ (conj Hdims Hoff))).
      unfold zlen; simpl. rewrite Hlen, Z2Nat.id by apply Hrd. done.
    + by do 5 (etrans; [done|]).
Qed.

Lemma check_tensors_Ok data_offset file_end ts :
  Forall tensor_header_ok ts -> check_tensors data_offset file_end ts = Ok tt ->
  Forall (tensor_range_ok data_offset file_end) ts.
Proof.
  induction 1 as [|t ts (_ & _ & Hs & _) Hts IH]; intros H; simpl in H; constructor.
  - ok_step H as [sz|] Hsz. ok_step H as [e|] He. ok_step H as [] Hle. bool_prop.
    apply checked_tensor_size_Ok in Hsz as (-> & Hds & Hb); [|done].
    destruct (checked_add 64 data_offset _) as [o|] eqn:Ho; [|done].
    apply checked_add_Some in Ho as [-> Ho].
    destruct (checked_add _ _ (tensor_bytes t)) as [e'|] eqn:He'; [|done]. simplify_eq/=.
    apply checked_add_Some in He' as [-> He']. split_and!; done.
  - apply IH. by repeat case_match.
Qed.

Lemma read_le_pos n r v r' : read_le n r = Ok (v, r') -> pos r' = pos r + Z.of_nat n.
Proof.
  unfold read_le. intros H. ok_step H as [[buf r1]|] Hbuf. simplify_eq.
  by apply read_exact_Ok in Hbuf as (_ & _ & ?); [|lia].
Qed.

(** What an accepted file satisfies, field by field. *)
Lemma parse_Ok r g :
  0 <= pos r -> parse r = Ok g -> gguf_ok (pos r) (pos r + zlen (rest r)) g.
Proof.
  intros Hpos. unfold parse. intros H.
  ok_step H as [[mg r1]|] Hmg. ok_step H as [] Hmagic. ok_step H as [[v r2]|] Hv.
  ok_step H as [] Hver. ok_step H as [[nt r3]|] Hnt. ok_step H as [[nk r4]|] Hnk.
  ok_step H as [nt'|] Hnt'. ok_step H as [nk'|] Hnk'. ok_step H as [[]|] Hmin1.
  ok_step H as [[md r5]|] Hmd. ok_step H as [[]|] Hmin2. ok_step H as [[ts r6]|] Hts.
  ok_step H as [] Hal. ok_step H as [off|] Hoff. ok_step H as [[]|] Hck. simplify_eq.
  apply io_Ok in Hmg, Hv, Hnt, Hnk. rewrite read_u32_le in Hmg, Hv.
  rewrite read_u64_le in Hnt, Hnk.
  apply read_le_pos in Hmg, Hv. pose proof (read_le_pos _ _ _ _ Hnt) as Hp3.
  pose proof (read_le_pos _ _ _ _ Hnk) as Hp4.
  apply read_le_Ok in Hnt as [Hnt _]. apply read_le_Ok in Hnk as [Hnk _].
  apply bounded_count_Ok in Hnt' as [-> Hnt'], Hnk' as [-> Hnk'].
  apply read_metadata_entries_Ok in Hmd as (Hmdok & Hmdsz & Ha5); [|apply map_Forall_empty].
  apply read_tensor_entries_Ok in Hts as (Hlen & Hnodup & _ & Hheads & Ha6).
  pose proof (check_tensors_Ok _ _ _ Hheads Hck) as Hranges.
  apply advances_pos in Ha5, Ha6. rewrite map_size_empty in Hmdsz.
  apply orb_false_iff in Hal as [_ Hal%negb_false_iff].
  apply is_power_of_two_spec in Hal as (k & Hk & Hak). bool_prop.
  unfold ok_or in Hoff. destruct (checked_add _ _ _) as [s|] eqn:Hs; simplify_eq/=.
  apply checked_add_Some in Hs as [-> _].
  pose proof (round_up_bounds (pos r6) (alignment_of md) ltac:(rewrite Hak; lia)).
  constructor; simpl; try done.
  - rewrite Hmdsz, Nat.add_0_r, Z2Nat.id by apply Hnk. done.
  - unfold zlen. rewrite Hlen, Z2Nat.id by apply Hnt. done.
  - exists k. split_and!; [done..|]. rewrite Hak. apply Z.divide_factor_r.
  - lia.
Qed.

(** ** Properties. *)

(** C1. Whatever [GgufFile::parse] accepts is safe for the loaders: a supported
    version, every metadata value inside its type's range with nesting and array
    lengths inside the limits, at most 100,000 metadata entries and 1,000,000
    tensors with pairwise different names and at most 32 dimensions each, a data
    offset past the fixed header that is a multiple of the file's power-of-two
    alignment, and for every tensor a byte range
    [data_offset + offset, data_offset + offset + size) inside the file, where
    [size] is the exact block-rounded size, equals [TensorInfo::data_size], and
    no sum wraps in 64 bits. *)
Theorem parse_sound r g :
  0 <= pos r -> parse r = Ok g -> gguf_ok (pos r) (pos r + zlen (rest r)) g.
Proof. apply parse_Ok. Qed.

(** ** Reading back an encoded file. *)
Lemma shape_product_pos dims : Forall (fun d => 1 <= d) dims -> 1 <= shape_product dims.
Proof. induction 1; simpl; [lia | nia]. Qed.

Lemma checked_product_complete acc dims :
  1 <= acc -> Forall (fun d => 1 <= d) dims -> acc * shape_product dims < 2 ^ 64 ->
  Tensor.checked_product 64 acc dims = Some (acc * shape_product dims).
Proof.
  intros Ha Hd. revert acc Ha. induction Hd as [|d dims Hd Hds IH]; intros acc Ha Hlt; simpl in *.
  - by rewrite Z.mul_1_r.
  - pose proof (shape_product_pos _ Hds).
    assert (acc * d <= acc * d * shape_product dims) by nia.
    assert (checked_mul 64 acc d = Some (acc * d)) as -> by (apply checked_mul_Some; lia).
    rewrite IH by nia. f_equal. lia.
Qed.

(** What a writer must respect for a tensor to be readable. *)
Definition tensor_encodable (off file_end : Z) (t : Tensor.TensorInfo) : Prop :=
  tensor_header_ok t /\ Forall (fun d => 1 <= d) (Tensor.shape t) /\
  shape_product (Tensor.shape t) < 2 ^ 63 /\
  off + Tensor.offset t + tensor_bytes t <= file_end.

Lemma tensor_bytes_nonneg t : 0 <= tensor_bytes t.
Proof.
  unfold tensor_bytes, div_ceil. pose proof (block_elements_pos (Tensor.dtype t)).
  pose proof (block_size_pos (Tensor.dtype t)).
  apply Z.mul_nonneg_nonneg; [apply Z.div_pos|]; lia.
Qed.

Lemma checked_tensor_size_complete t :
  Forall (fun d => 1 <= d) (Tensor.shape t) -> shape_product (Tensor.shape t) < 2 ^ 63 ->
  tensor_bytes t < 2 ^ 64 -> checked_tensor_size t = Ok (tensor_bytes t).
Proof.
  intros Hd Hp Hb. unfold checked_tensor_size. pose proof (shape_product_pos _ Hd).
  rewrite checked_product_complete by (done || lia). cbn [ok_or]. rewrite Z.mul_1_l.
  assert (Ggml.block_elements (Tensor.dtype t) <= 256) by (by destruct (Tensor.dtype t)).
  rewrite (proj2 (checked_add_Some 64 _ _ _)) by (split; [done | lia]). cbn [ok_or].
  unfold tensor_bytes, div_ceil in *. rewrite Z.add_sub_assoc.
  rewrite (proj2 (checked_mul_Some 64 _ _ _)) by (split; done). done.
Qed.

Lemma check_tensors_complete off file_end ts :
  0 <= off -> file_end < 2 ^ 63 -> Forall (tensor_encodable off file_end) ts ->
  check_tensors off file_end ts = Ok tt.
Proof.
  intros Hoff Hend. induction 1 as [|t ts ((_ & _ & _ & Ho & _) & Hd & Hp & Hr) _ IH]; [done|].
  simpl. pose proof (tensor_bytes_nonneg t).
  rewrite checked_tensor_size_complete by (done || lia).
  rewrite (proj2 (checked_add_Some 64 off _ _)) by (split; [done | lia]).
  rewrite (proj2 (checked_add_Some 64 _ _ _)) by (split; [done | lia]). cbn [ok_or].
  by rewrite (proj2 (Z.ltb_ge _ _)).
Qed.

Definition kv_ok (kv : string * Meta.MetadataValue) : Prop :=
  Wire.string_ok kv.1 /\ Wire.value_ok MAX_METADATA_NESTING kv.2.

Lemma zlen_wire_string s : 8 <= zlen (Wire.string s).
Proof.
  unfold Wire.string. rewrite zlen_app, zlen_to_le_bytes.
  pose proof (zlen_nonneg (string_bytes s)). lia.
Qed.

Lemma zlen_mjoin_ge {A} (enc : A -> list byte) xs c :
  (forall x, c <= zlen (enc x)) -> c * zlen xs <= zlen (mjoin (map enc xs)).
Proof.
  intros Hc. induction xs as [|x xs IH]; simpl; [unfold zlen; simpl; lia|].
  rewrite zlen_app, zlen_cons. specialize (Hc x). lia.
Qed.

Lemma zlen_encode_kv_eq key v :
  zlen (encode_kv (key, v)) = zlen (Wire.string key) + 4 + zlen (Wire.value v).
Proof. unfold encode_kv; cbn [fst snd]. rewrite !zlen_app, zlen_to_le_bytes. lia. Qed.

Lemma zlen_encode_kv kv : 12 <= zlen (encode_kv kv).
Proof.
  unfold encode_kv. rewrite !zlen_app, zlen_to_le_bytes.
  pose proof (zlen_wire_string kv.1). pose proof (zlen_nonneg (Wire.value kv.2)). lia.
Qed.

Lemma zlen_encode_tensor t : 24 <= zlen (encode_tensor t).
Proof.
  unfold encode_tensor. rewrite !zlen_app, !zlen_to_le_bytes.
  pose proof (zlen_wire_string (Tensor.name t)).
  pose proof (zlen_nonneg (mjoin (map (to_le_bytes 8) (Tensor.shape t)))). lia.
Qed.

Lemma Wire_tag_u32 v : is_uint 32 (Wire.tag v).
Proof. by destruct v. Qed.

Lemma read_metadata_entries_app kvs p k md :
  NoDup kvs.*1 -> Forall kv_ok kvs -> Forall (fun kv => md !! kv.1 = None) kvs ->
  read_metadata_entries (length kvs) (mkCursor p (mjoin (map encode_kv kvs) ++ k)) md =
  Ok (list_to_map kvs ∪ md, mkCursor (p + zlen (mjoin (map encode_kv kvs))) k).
Proof.
  revert p md. induction kvs as [|[key v] kvs IH]; intros p md Hnd Hok Hfresh.
  - cbn. by rewrite (left_id_L ∅ (∪)), zlen_nil, Z.add_0_r.
  - apply NoDup_cons in Hnd as [Hnin Hnd].
    apply Forall_cons in Hok as [[Hk Hv] Hok], Hfresh as [Hf Hfresh]. cbn [fst snd] in *.
    cbn [map length read_metadata_entries]. rewrite mjoin_cons.
    unfold encode_kv at 1. cbn [fst snd]. rewrite <- !app_assoc.
    rewrite read_string_app by done. cbn [io result_map_err].
    rewrite read_u32_le, read_le_app by apply Wire_tag_u32. cbn [io result_map_err].
    unfold read_metadata_value. rewrite read_value_app by done. rewrite Hf, IH; [|done..|].
    + rewrite <- insert_union_r, insert_union_l, <- list_to_map_cons
        by (by apply not_elem_of_list_to_map_1).
      do 3 f_equal. rewrite zlen_app, zlen_encode_kv_eq. lia.
    + rewrite Forall_forall in Hfresh |- *. intros kv Hkv. rewrite lookup_insert_ne; [by apply Hfresh|].
      intros ->. apply Hnin. apply list_elem_of_fmap. by exists kv.
Qed.

Lemma GgmlType_from_discriminant t : GgmlType_from_u32 (Ggml.discriminant t) = Ok t.
Proof. by destruct t. Qed.
Lemma discriminant_u32 t : is_uint 32 (Ggml.discriminant t).
Proof. by destruct t. Qed.

Lemma bounded_count_complete raw limit what :
  raw <= limit -> is_uint 64 raw -> bounded_count raw limit what = Ok raw.
Proof.
  intros Hl Hr. unfold bounded_count. rewrite (proj2 (Z.ltb_ge _ _)) by done.
  by rewrite usize_try_from_u64.
Qed.

Lemma ensure_minimum_complete p k file_end count c what :
  0 < c -> file_end = p + zlen k -> c * count <= zlen k ->
  ensure_minimum_bytes (mkCursor p k) file_end count c what = Ok tt.
Proof.
  intros Hc -> Hle. unfold ensure_minimum_bytes, saturating_sub; simpl.
  replace (Z.max (p + zlen k - p) 0) with (zlen k) by (pose proof (zlen_nonneg k); lia).
  rewrite (proj2 (Z.ltb_ge _ _)); [done|]. by apply Z.div_le_lower_bound.
Qed.

Lemma read_tensor_entries_app ts p k names :
  NoDup (Tensor.name <$> ts) -> Forall tensor_header_ok ts ->
  Forall (fun t => Tensor.name t ∉ names) ts ->
  read_tensor_entries (length ts) (mkCursor p (mjoin (map encode_tensor ts) ++ k)) names =
  Ok (ts, mkCursor (p + zlen (mjoin (map encode_tensor ts))) k).
Proof.
  revert p names. induction ts as [|t ts IH]; intros p names Hnd Hok Hfresh.
  - cbn. by rewrite zlen_nil, Z.add_0_r.
  - apply NoDup_cons in Hnd as [Hnin Hnd].
    apply Forall_cons in Hok as [(Hn & Hrank & Hdims & Ho) Hok], Hfresh as [Hf Hfresh].
    cbn [map length read_tensor_entries]. rewrite mjoin_cons, zlen_app.
    assert (zlen (encode_tensor t) = zlen (Wire.string (Tensor.name t)) + 16 +
      zlen (mjoin (map (to_le_bytes 8) (Tensor.shape t)))) as ->.
    { unfold encode_tensor. rewrite !zlen_app, !zlen_to_le_bytes. lia. }
    unfold encode_tensor at 1. rewrite <- !app_assoc.
    rewrite read_string_app by done. cbn [io result_map_err].
    rewrite decide_False by done. pose proof (zlen_nonneg (Tensor.shape t)).
    unfold MAX_TENSOR_DIMS in Hrank.
    rewrite read_u32_le, read_le_app by (unfold is_uint; lia). cbn [io result_map_err].
    rewrite bounded_count_complete by (unfold is_uint, MAX_TENSOR_DIMS; lia).
    rewrite to_nat_zlen, (read_n_app _ (to_le_bytes 8)).
    2: { eapply Forall_impl; [exact Hdims|]. intros d Hd p' k'.
         rewrite read_u64_le, read_le_app, zlen_to_le_bytes by done. done. }
    rewrite read_u32_le, read_le_app by apply discriminant_u32. cbn [io result_map_err].
    rewrite GgmlType_from_discriminant.
    rewrite read_u64_le, read_le_app by done. cbn [io result_map_err].
    rewrite IH; [|done..|].
    + destruct t. do 3 f_equal. lia.
    + rewrite Forall_forall in Hfresh |- *. intros t' Ht' [Hin|Hin]%elem_of_union;
        [|by eapply Hfresh]. apply elem_of_singleton in Hin.
      apply Hnin. rewrite <- Hin. apply list_elem_of_fmap. by exists t'.
Qed.

Lemma encode_header_split version kvs ts data :
  encode_header version kvs ts ++ data =
  to_le_bytes 4 GGUF_MAGIC ++ to_le_bytes 4 version ++ to_le_bytes 8 (zlen ts) ++
  to_le_bytes 8 (zlen kvs) ++ mjoin (map encode_kv kvs) ++ mjoin (map encode_tensor ts) ++ data.
Proof. unfold encode_header. by rewrite <- !app_assoc. Qed.

Lemma zlen_encode_header version kvs ts :
  zlen (encode_header version kvs ts) =
  24 + zlen (mjoin (map encode_kv kvs)) + zlen (mjoin (map encode_tensor ts)).
Proof. unfold encode_header. rewrite !zlen_app, !zlen_to_le_bytes. lia. Qed.

Definition aligned_data_offset (version : Z) (kvs : list (string * Meta.MetadataValue))
    (ts : list Tensor.TensorInfo) : Z :=
  let a := alignment_of (list_to_map kvs) in
  (zlen (encode_header version kvs ts) + (a - 1)) / a * a.

(** C2. Every file written in the format of gguf.rs's header comment parses, and
    to exactly what was written: for a supported version, distinct well-formed
    metadata entries and distinct tensor descriptors inside the limits, a
    power-of-two alignment and tensors that fit the file, the parser returns the
    version, the metadata map, the descriptors in order, and the data offset
    rounded up from the end of the header. *)
Theorem parse_encoded version kvs ts data :
  2 <= version <= 3 ->
  NoDup kvs.*1 -> Forall kv_ok kvs -> zlen kvs <= MAX_METADATA_ITEMS ->
  NoDup (Tensor.name <$> ts) -> zlen ts <= MAX_TENSORS ->
  is_power_of_two (alignment_of (list_to_map kvs)) = true ->
  alignment_of (list_to_map kvs) < 2 ^ 32 ->
  zlen (encode_header version kvs ts ++ data) < 2 ^ 63 ->
  Forall (tensor_encodable (aligned_data_offset version kvs ts)
            (zlen (encode_header version kvs ts ++ data))) ts ->
  parse_path (encode_header version kvs ts ++ data) =
  Ok (mkGgufFile version (list_to_map kvs) ts (aligned_data_offset version kvs ts)).
Proof.
  intros Hver Hnd Hkv Hnk Hnames Hnt Hal Halt Hlen Hts.
  unfold parse_path, parse. cbn [pos rest]. rewrite Z.add_0_l.
  set (file_end := zlen (encode_header version kvs ts ++ data)) in *. set (off := aligned_data_offset _ _ _) in *.
  pose proof (zlen_nonneg kvs). pose proof (zlen_nonneg ts). pose proof (zlen_nonneg data).
  pose proof (zlen_mjoin_ge encode_kv kvs 12 zlen_encode_kv) as Hkvlen.
  pose proof (zlen_mjoin_ge encode_tensor ts 24 zlen_encode_tensor) as Htslen.
  assert (file_end = 24 + zlen (mjoin (map encode_kv kvs)) +
    zlen (mjoin (map encode_tensor ts)) + zlen data) as Hend.
  { unfold file_end. rewrite zlen_app, zlen_encode_header. lia. }
  rewrite encode_header_split. unfold MAX_METADATA_ITEMS, MAX_TENSORS in *.
  rewrite read_u32_le, read_le_app by done. cbn [io result_map_err].
  rewrite Z.eqb_refl. cbn [negb].
  rewrite read_u32_le, read_le_app by (unfold is_uint; lia). cbn [io result_map_err].
  rewrite (proj2 (Z.leb_le _ _)), (proj2 (Z.leb_le _ _)) by lia. cbn [negb andb].
  rewrite read_u64_le, read_le_app by (unfold is_uint; lia). cbn [io result_map_err].
  rewrite read_u64_le, read_le_app by (unfold is_uint; lia). cbn [io result_map_err].
  rewrite !bounded_count_complete by (unfold is_uint, MAX_TENSORS, MAX_METADATA_ITEMS; lia).
  rewrite ensure_minimum_complete; [|lia|rewrite !zlen_app; lia..].
  rewrite to_nat_zlen, read_metadata_entries_app; [|done..|].
  2: { apply Forall_forall. intros. apply lookup_empty. }
  rewrite (right_id_L ∅ (∪)).
  rewrite ensure_minimum_complete; [|lia|rewrite !zlen_app; lia..].
  rewrite to_nat_zlen, read_tensor_entries_app; [|done| |].
  2: { eapply Forall_impl; [exact Hts|]. by intros t []. }
  2: { apply Forall_forall. intros. apply not_elem_of_empty. }
  destruct (is_power_of_two_spec _ Hal) as (e & He & Hae).
  assert (1 <= alignment_of (list_to_map kvs)) by lia.
  rewrite (proj2 (Z.eqb_neq _ 0)), Hal by lia. cbn [negb orb pos].
  rewrite (proj2 (checked_add_Some 64 _ _ _)) by (split; [done | lia]). cbn [ok_or].
  replace (_ / _ * _) with off.
  2: { unfold off, aligned_data_offset. rewrite zlen_encode_header. repeat f_equal; lia. }
  rewrite check_tensors_complete; [done| |done|done].
  unfold off, aligned_data_offset.
  edestruct round_up_bounds as [Hlo _]; [|etrans; [|exact Hlo]]; [lia|].
  pose proof (zlen_nonneg (encode_header version kvs ts)). lia.
Qed.

(** ** A concrete file: two metadata entries, one f32 tensor of two elements. *)
Definition example_kvs : list (string * Meta.MetadataValue) :=
  [("general.alignment", Meta.U32 16);
   ("a", Meta.Array [Meta.Str "x"; Meta.Str "yz"])].
Definition example_tensors : list Tensor.TensorInfo :=
  [Tensor.mkTensorInfo "w" [2] Ggml.F32 16].
Definition example_data : list byte := replicate 64 x07.
Definition example_file : list byte := encode_header 3 example_kvs example_tensors ++ example_data.
Definition example_gguf : GgufFile :=
  mkGgufFile 3 (list_to_map example_kvs) example_tensors
    144.

Lemma example_kvs_ok : Forall kv_ok example_kvs.
Proof. repeat (constructor; simpl); done. Qed.

Lemma parse_sound_witness :
  gguf_ok 0 (0 + zlen example_file) example_gguf.
Proof.
  apply (parse_sound (mkCursor 0 example_file) example_gguf); [done|].
  vm_compute. reflexivity.
Defined.

Lemma parse_encoded_witness :
  parse_path (encode_header 3 example_kvs example_tensors ++ example_data) =
  Ok (mkGgufFile 3 (list_to_map example_kvs) example_tensors
        (aligned_data_offset 3 example_kvs example_tensors)).
Proof.
  apply parse_encoded.
  - done.
  - apply (bool_decide_unpack _). by vm_compute.
  - apply example_kvs_ok.
  - by vm_compute.
  - apply (bool_decide_unpack _). by vm_compute.
  - by vm_compute.
  - by vm_compute.
  - by vm_compute.
  - by vm_compute.
  - repeat constructor; by vm_compute.
Defined.
