(* ===== verification/GgufAccess.v ===== *)
(** * GGUF accessors and the tokenizer identity.

    Models [crates/muser-engine/src/gguf/accessors.rs]: typed metadata lookups,
    tensor lookup and file offsets, and the canonical byte string whose SHA-256
    identifies the tokenizer metadata of a checkpoint.  SHA-256 (the [sha2]
    crate) is a parameter; what is proved is that the byte string fed to it
    determines the tokenizer metadata. *)
From Stdlib Require Import Strings.Byte Strings.Ascii.
From S2P Require Import Prelude Utf8 GgufTypes GgufParser.

Definition meta_str (g : GgufFile) (key : string) : option string :=
  match metadata g !! key with Some (Meta.Str s) => Some s | _ => None end.
Definition meta_u32 (g : GgufFile) (key : string) : option Z :=
  match metadata g !! key with Some (Meta.U32 v) => Some v | _ => None end.
Definition meta_u64 (g : GgufFile) (key : string) : option Z :=
  match metadata g !! key with Some (Meta.U64 v) => Some v | _ => None end.
Definition meta_bool (g : GgufFile) (key : string) : option bool :=
  match metadata g !! key with Some (Meta.Bool b) => Some b | _ => None end.
Definition meta_f32 (g : GgufFile) (key : string) : option Z :=
  match metadata g !! key with Some (Meta.F32 v) => Some v | _ => None end.

(** [(!vals.is_empty()).then_some(vals)]. *)
Definition then_some_nonempty {A} (l : list A) : option (list A) :=
  match l with [] => None | _ => Some l end.

Definition meta_u32_array (g : GgufFile) (key : string) : option (list Z) :=
  match metadata g !! key with
  | Some (Meta.Array arr) =>
      then_some_nonempty
        (omap (fun v => match v with
                        | Meta.U32 n => Some n
                        | Meta.I32 n => Some (as_unsigned 32 n)
                        | _ => None
                        end) arr)
  | _ => None
  end.

Definition meta_array_len (g : GgufFile) (key : string) : option Z :=
  match metadata g !! key with Some (Meta.Array vs) => Some (zlen vs) | _ => None end.

Definition meta_bool_array (g : GgufFile) (key : string) : option (list bool) :=
  match metadata g !! key with
  | Some (Meta.Array arr) =>
      then_some_nonempty
        (omap (fun v => match v with
                        | Meta.Bool b => Some b
                        | Meta.U8 n => Some (negb (n =? 0))
                        | Meta.U32 n => Some (negb (n =? 0))
                        | Meta.I32 n => Some (negb (n =? 0))
                        | _ => None
                        end) arr)
  | _ => None
  end.

Definition meta_f32_array (g : GgufFile) (key : string) : option (list Z) :=
  match metadata g !! key with
  | Some (Meta.Array values) =>
      then_some_nonempty
        (omap (fun v => match v with Meta.F32 v => Some v | _ => None end) values)
  | _ => None
  end.

Definition token_types (g : GgufFile) : list Z :=
  match metadata g !! "tokenizer.ggml.token_type" with
  | Some (Meta.Array arr) =>
      omap (fun v => match v with
                     | Meta.I32 n => Some n
                     | Meta.U32 n => Some (as_signed 32 n)
                     | _ => None
                     end) arr
  | _ => []
  end.

Definition vocab (g : GgufFile) : list string :=
  match metadata g !! "tokenizer.ggml.tokens" with
  | Some (Meta.Array arr) =>
      omap (fun v => match v with Meta.Str s => Some s | _ => None end) arr
  | _ => []
  end.

(** [s.splitn(2, ' ')] when both parts exist. *)
Fixpoint split_first_space (s : string) : option (string * string) :=
  match s with
  | EmptyString => None
  | String c s' =>
      if Ascii.eqb c " "%char then Some (EmptyString, s')
      else match split_first_space s' with
           | Some (a, b) => Some (String c a, b)
           | None => None
           end
  end.

Definition merges (g : GgufFile) : list (string * string) :=
  match metadata g !! "tokenizer.ggml.merges" with
  | Some (Meta.Array arr) =>
      omap (fun v => match v with Meta.Str s => split_first_space s | _ => None end) arr
  | _ => []
  end.

Definition chat_template (g : GgufFile) : option string := meta_str g "tokenizer.chat_template".

Definition tensor (g : GgufFile) (name : string) : option Tensor.TensorInfo :=
  List.find (fun t => bool_decide (Tensor.name t = name)) (tensors g).

Definition tensor_file_offset (g : GgufFile) (info : Tensor.TensorInfo) : Z :=
  data_offset g + Tensor.offset info.

(** ** The canonical byte string. *)
Definition hash_len_bytes (bs : list byte) : list byte := to_le_bytes 8 (zlen bs) ++ bs.

Fixpoint hash_metadata_value (v : Meta.MetadataValue) : list byte :=
  match v with
  | Meta.U8 v => x00 :: to_le_bytes 1 v
  | Meta.I8 v => x01 :: to_le_bytes 1 (as_unsigned 8 v)
  | Meta.U16 v => x02 :: to_le_bytes 2 v
  | Meta.I16 v => x03 :: to_le_bytes 2 (as_unsigned 16 v)
  | Meta.U32 v => x04 :: to_le_bytes 4 v
  | Meta.I32 v => x05 :: to_le_bytes 4 (as_unsigned 32 v)
  | Meta.U64 v => x06 :: to_le_bytes 8 v
  | Meta.I64 v => x07 :: to_le_bytes 8 (as_unsigned 64 v)
  | Meta.F32 v => x08 :: to_le_bytes 4 v
  | Meta.F64 v => x09 :: to_le_bytes 8 v
  | Meta.Bool b => [x0a; if b then x01 else x00]
  | Meta.Str s => x0b :: hash_len_bytes (string_bytes s)
  | Meta.Array vs => x0c :: to_le_bytes 8 (zlen vs) ++ mjoin (map hash_metadata_value vs)
  end.

Definition is_tokenizer_key (key : string) : bool :=
  String.prefix "tokenizer." key && negb (bool_decide (key = "tokenizer.chat_template")).

Definition tokenizer_keys (g : GgufFile) : list string :=
  merge_sort string_le
    (List.filter is_tokenizer_key (map_to_list (metadata g)).*1).

Definition hash_entry (g : GgufFile) (key : string) : list byte :=
  hash_len_bytes (string_bytes key) ++
  match metadata g !! key with Some v => hash_metadata_value v | None => [] end.

Definition tokenizer_preimage (g : GgufFile) : list byte :=
  string_bytes "muser.gguf-tokenizer-metadata.v1" ++ [x00] ++
  mjoin (map (hash_entry g) (tokenizer_keys g)).

Section Digests.
Context (sha256 : list byte -> list byte).

Definition tokenizer_metadata_sha256 (g : GgufFile) : list byte :=
  sha256 (tokenizer_preimage g).
Definition chat_template_sha256 (g : GgufFile) : option (list byte) :=
  (fun template => sha256 (string_bytes template)) <$> chat_template g.

End Digests.

(** ** The canonical byte string is self-delimiting. *)
Lemma to_le_bytes_app_inj n z z' r r' :
  is_uint (8 * Z.of_nat n) z -> is_uint (8 * Z.of_nat n) z' ->
  to_le_bytes n z ++ r = to_le_bytes n z' ++ r' -> z = z' /\ r = r'.
Proof.
  unfold is_uint. rewrite <- pow256. intros Hz Hz' E.
  apply app_inj_1 in E as [E ->]; [|by rewrite !length_to_le_bytes].
  split; [|done]. by eapply to_le_bytes_inj.
Qed.

Lemma hash_len_bytes_app_inj bs bs' r r' :
  zlen bs < 2 ^ 64 -> zlen bs' < 2 ^ 64 ->
  hash_len_bytes bs ++ r = hash_len_bytes bs' ++ r' -> bs = bs' /\ r = r'.
Proof.
  unfold hash_len_bytes. rewrite <- !app_assoc. intros Hl Hl' E.
  pose proof (zlen_nonneg bs). pose proof (zlen_nonneg bs').
  apply to_le_bytes_app_inj in E as [Hlen E]; [|done..].
  apply app_inj_1 in E as [-> ->]; [done|]. unfold zlen in Hlen. lia.
Qed.

Lemma signed_app_inj w n v v' r r' :
  w = 8 * Z.of_nat n -> 1 <= w -> is_sint w v -> is_sint w v' ->
  to_le_bytes n (as_unsigned w v) ++ r = to_le_bytes n (as_unsigned w v') ++ r' ->
  v = v' /\ r = r'.
Proof.
  intros -> Hw Hv Hv' E. apply to_le_bytes_app_inj in E as [E ->];
    [|apply as_unsigned_range; lia..].
  split; [|done]. apply (f_equal (as_signed (8 * Z.of_nat n))) in E.
  by rewrite !as_signed_unsigned in E.
Qed.

Lemma cons_eq_tail {A} (x y : A) l k : x :: l = y :: k -> l = k.
Proof. congruence. Qed.

(** Two values whose encodings agree up to a rest are equal, and so are the rests. *)
Lemma hash_value_app_inj v room v' room' r r' :
  Wire.value_ok room v -> Wire.value_ok room' v' ->
  hash_metadata_value v ++ r = hash_metadata_value v' ++ r' -> v = v' /\ r = r'.
Proof.
  revert v' room room' r r'.
  induction v as [v|v|v|v|v|v|v|v|v|v|b|s|vs IH] using Meta.MetadataValue_rect';
    intros v' room room' r r' Hv Hv' E;
    destruct v' as [v'|v'|v'|v'|v'|v'|v'|v'|v'|v'|b'|s'|vs']; try discriminate E;
    cbn [hash_metadata_value] in E; rewrite <- ?app_comm_cons in E; apply cons_eq_tail in E;
    try (destruct room, room'; cbn [Wire.value_ok] in Hv, Hv';
         first [ apply to_le_bytes_app_inj in E as [-> ->]; done
               | apply signed_app_inj in E as [-> ->]; done ]).
  - destruct b, b'; simplify_eq; done.
  - assert (forall s, Wire.string_ok s -> zlen (string_bytes s) < 2 ^ 64) as Hlt.
    { intros x [_ Hx]. unfold MAX_GGUF_STRING_BYTES in Hx. lia. }
    apply hash_len_bytes_app_inj in E as [E ->];
      [|apply Hlt; by destruct room, room'..].
    apply (inj string_bytes) in E as ->. done.
  - destruct room as [|room], room' as [|room']; try done.
    destruct Hv as (Hl & _ & Hvs), Hv' as (Hl' & _ & Hvs').
    unfold MAX_METADATA_ARRAY_ITEMS in *. rewrite <- !app_assoc in E.
    apply to_le_bytes_app_inj in E as [Hlen E]; [|unfold is_uint, zlen in *; lia..].
    assert (length vs = length vs') as Hlen' by (unfold zlen in Hlen; lia). clear Hlen Hl Hl'.
    assert (vs = vs' /\ r = r') as [-> ->]; [|done]. revert vs' Hlen' Hvs Hvs' E.
    induction IH as [|v vs IHv _ IHvs]; intros [|v' vs'] Hlen Hvs Hvs' E; try done.
    apply Forall_cons in Hvs as [Hv Hvs], Hvs' as [Hv' Hvs']. cbn [map] in E.
    rewrite !mjoin_cons, <- !app_assoc in E.
    apply (IHv _ room room') in E as [-> E]; [|done..].
    apply IHvs in E as [-> ->]; [done | simpl in Hlen; lia | done..].
Qed.

(** ** Tokenizer identity. *)
Lemma elem_of_tokenizer_keys g k :
  k ∈ tokenizer_keys g <-> is_tokenizer_key k = true /\ is_Some (metadata g !! k).
Proof.
  unfold tokenizer_keys. rewrite merge_sort_Permutation, list_elem_of_In, List.filter_In,
    <- list_elem_of_In, list_elem_of_fmap.
  split.
  - intros [([k' v] & -> & Hin) Hk]. split; [done|]. apply elem_of_map_to_list in Hin. by exists v.
  - intros [Hk [v Hv]]. split; [|done]. exists (k, v). split; [done|]. by apply elem_of_map_to_list.
Qed.

Lemma NoDup_tokenizer_keys g : NoDup (tokenizer_keys g).
Proof.
  unfold tokenizer_keys. rewrite merge_sort_Permutation. apply NoDup_ListNoDup.
  apply List.NoDup_filter, NoDup_ListNoDup, NoDup_fst_map_to_list.
Qed.

Lemma hash_entries_inj g1 g2 ks1 ks2 :
  metadata_ok (metadata g1) -> metadata_ok (metadata g2) ->
  Forall (fun k => is_Some (metadata g1 !! k)) ks1 ->
  Forall (fun k => is_Some (metadata g2 !! k)) ks2 ->
  mjoin (map (hash_entry g1) ks1) = mjoin (map (hash_entry g2) ks2) ->
  ks1 = ks2 /\ Forall (fun k => metadata g1 !! k = metadata g2 !! k) ks1.
Proof.
  intros Hg1 Hg2 Hks1. revert ks2.
  induction Hks1 as [|k ks1 [v Hv] Hks1 IH]; intros ks2 Hks2 E; destruct Hks2 as [|k' ks2 [v' Hv'] Hks2].
  - done.
  - cbn [map] in E. rewrite mjoin_cons in E. unfold hash_entry, hash_len_bytes in E. discriminate E.
  - cbn [map] in E. rewrite mjoin_cons in E. unfold hash_entry, hash_len_bytes in E. discriminate E.
  - cbn [map] in E. rewrite !mjoin_cons in E. unfold hash_entry at 1 3 in E.
    rewrite Hv, Hv', <- !app_assoc in E.
    destruct (Hg1 _ _ Hv) as [[_ Hk] Hok], (Hg2 _ _ Hv') as [[_ Hk'] Hok'].
    unfold MAX_GGUF_STRING_BYTES in *.
    apply hash_len_bytes_app_inj in E as [Hkk E]; [|lia..]. apply (inj string_bytes) in Hkk as <-.
    eapply hash_value_app_inj in E as [<- E]; [|done..].
    apply IH in E as [-> Hks]; [|done]. split; [done|]. constructor; [congruence | done].
Qed.

Lemma tokenizer_keys_ext g1 g2 :
  (forall k, is_tokenizer_key k = true -> metadata g1 !! k = metadata g2 !! k) ->
  tokenizer_keys g1 = tokenizer_keys g2.
Proof.
  intros H. apply (StronglySorted_unique string_le _);
    [apply (StronglySorted_merge_sort string_le); apply _..|].
  apply NoDup_Permutation; [apply NoDup_tokenizer_keys..|].
  intros k. rewrite !elem_of_tokenizer_keys. split; intros [Hk ?]; (split; [done|]);
    [rewrite <- H | rewrite H]; done.
Qed.

(** C3. The tokenizer identity is canonical: for two files the parser can
    return, the byte strings hashed by [tokenizer_metadata_sha256] are equal
    exactly when the files agree on every tokenizer metadata entry other than the
    chat template.  Equal tokenizers always get the same digest, whatever the
    order of the entries in the file, and a digest can only be shared by
    different tokenizers through a SHA-256 collision. *)
Theorem tokenizer_preimage_canonical g1 g2 :
  metadata_ok (metadata g1) -> metadata_ok (metadata g2) ->
  tokenizer_preimage g1 = tokenizer_preimage g2 <->
  (forall k, is_tokenizer_key k = true -> metadata g1 !! k = metadata g2 !! k).
Proof.
  intros Hg1 Hg2. unfold tokenizer_preimage. split.
  - intros E. do 2 apply app_inv_head in E.
    assert (forall g, Forall (fun k => is_Some (metadata g !! k)) (tokenizer_keys g)) as Hin.
    { intros g. apply Forall_forall. intros k Hk.
      apply elem_of_tokenizer_keys in Hk. apply Hk. }
    apply hash_entries_inj in E as [Hkeys Hsame]; [|done|done|apply Hin|apply Hin].
    rewrite Forall_forall in Hsame. intros k Hk.
    destruct (metadata g1 !! k) eqn:H1; [|destruct (metadata g2 !! k) eqn:H2; [|done]];
      rewrite <- ?H1, <- ?H2.
    + apply Hsame, elem_of_tokenizer_keys. by rewrite H1.
    + apply Hsame. rewrite Hkeys. apply elem_of_tokenizer_keys. by rewrite H2.
  - intros H. rewrite (tokenizer_keys_ext _ _ H). do 3 f_equal. apply map_ext_in.
    intros k Hk. unfold hash_entry. rewrite H; [done|].
    apply list_elem_of_In, elem_of_tokenizer_keys in Hk. apply Hk.
Qed.

(** On a parsed file, finding a tensor by name gives the unique descriptor of
    that name, and its byte range computed with [tensor_file_offset] and
    [TensorInfo::data_size] lies inside the file without 64-bit overflow; a name
    that is not found belongs to no descriptor. *)
Theorem tensor_lookup_in_file r g name :
  0 <= pos r -> parse r = Ok g ->
  match tensor g name with
  | Some t =>
      Tensor.name t = name /\ t ∈ tensors g /\
      (forall t', t' ∈ tensors g -> Tensor.name t' = name -> t' = t) /\
      tensor_file_offset g t + Tensor.data_size t <= pos r + zlen (rest r) /\
      is_uint 64 (tensor_file_offset g t + Tensor.data_size t)
  | None => forall t, t ∈ tensors g -> Tensor.name t <> name
  end.
Proof.
  intros Hpos Hp. apply parse_Ok in Hp as [_ _ _ _ Hnames Hheads _ Hoff Hranges]; [|done].
  unfold tensor. destruct (List.find _ _) as [t|] eqn:Hf.
  - apply List.find_some in Hf as [Hin Hn]. bool_prop. apply list_elem_of_In in Hin.
    rewrite Forall_forall in Hranges, Hheads.
    destruct (Hranges t Hin) as (Hsz & Hle & Hlt), (Hheads t Hin) as (_ & _ & _ & Ho & _).
    pose proof (tensor_bytes_nonneg t). unfold tensor_file_offset, is_uint. rewrite Hsz.
    split_and!; [done | done | | lia..].
    intros t' Ht' Hn'. apply list_elem_of_lookup in Hin as [i Hi], Ht' as [j Hj].
    assert (i = j) as ->; [|congruence].
    apply (NoDup_lookup (Tensor.name <$> tensors g) i j name); [done|..];
      rewrite list_lookup_fmap, ?Hi, ?Hj; simpl; congruence.
  - intros t Hin Hn. apply list_elem_of_In in Hin.
    pose proof (List.find_none _ _ Hf t Hin) as Hc. cbn beta in Hc. bool_prop. done.
Qed.

(** ** Witnesses. *)
Definition example_gguf_renamed : GgufFile :=
  mkGgufFile 3 (<["tokenizer.ggml.pre" := Meta.Str "llama4"]> (metadata example_gguf)) [] 0.

Lemma example_metadata_ok : metadata_ok (metadata example_gguf).
Proof.
  unfold metadata_ok. intros k v Hv. apply elem_of_list_to_map_2 in Hv.
  pose proof example_kvs_ok as Hok. rewrite Forall_forall in Hok.
  exact (Hok _ Hv).
Qed.

Lemma example_renamed_ok : metadata_ok (metadata example_gguf_renamed).
Proof. apply map_Forall_insert_2; [done | apply example_metadata_ok]. Qed.

Lemma tokenizer_preimage_canonical_witness :
  tokenizer_preimage example_gguf <> tokenizer_preimage example_gguf_renamed.
Proof.
  rewrite (tokenizer_preimage_canonical _ _ example_metadata_ok example_renamed_ok).
  intros H. discriminate (H "tokenizer.ggml.pre" eq_refl).
Defined.

Lemma tensor_lookup_in_file_witness :
  match tensor example_gguf "w" with
  | Some t => tensor_file_offset example_gguf t + Tensor.data_size t <= zlen example_file
  | None => False
  end.
Proof.
  pose proof (tensor_lookup_in_file (mkCursor 0 example_file) example_gguf "w" ltac:(done)
    ltac:(vm_compute; reflexivity)) as H.
  vm_compute in H |- *. apply H.
Defined.
