(* ===== verification/DFlashCache.v ===== *)
(** * The DFlash context cache: sink + sliding window, checkpoint and rollback.

    Models [crates/muser-engine/src/dflash/cache.rs] and the context geometry of
    [dflash/config.rs].  The cache keeps, per layer, a K and a V plane: the rows
    of the first [sink_size] tokens followed by the rows of the last
    [window_size] tokens.  Speculative rounds append rows provisionally and are
    rolled back from a checkpoint that only holds the rows an append can evict.

    Elements (f32 in the code) are an arbitrary type: nothing computes on them.
    Sizes are [nat]; revisions and identities are 64-bit with their wrap-around.
    A Rust panic (assertion, index or slice out of range) is [Err Panic], an
    [Err(String)] is [Err (Rejected _)]. *)
From S2P Require Import Prelude.

Inductive dflash_error : Type :=
| Panic
| Rejected (why : string).

(** ** config.rs: the geometry. *)
Record DFlashContextGeometry : Type := mkGeometry {
  g_layers : Z;
  g_elements_per_token : Z;
  g_sink_size : Z;
  g_window_size : Z;
}.

Definition DFLASH_CONTEXT_SINK_SIZE : Z := 64.

(** The sum [sink_size + window_size] is plain [usize] arithmetic, which wraps in the
    release profile. *)
Definition buffered_byte_limit (g : DFlashContextGeometry) : result string Z :=
  ok_or (v ← checked_mul 64 (g_layers g) 2;
         v ← checked_mul 64 v (wrapping_add 64 (g_sink_size g) (g_window_size g));
         v ← checked_mul 64 v (g_elements_per_token g);
         checked_mul 64 v 4)
    "DFlash context geometry buffered byte limit overflow".

Definition geometry_validate (g : DFlashContextGeometry) : result string unit :=
  if g_layers g =? 0 then Err "DFlash context geometry layers must be positive"
  else if g_elements_per_token g =? 0 then
    Err "DFlash context geometry elements_per_token must be positive"
  else if g_sink_size g =? 0 then
    Err "DFlash context geometry sink_size must be positive"
  else if g_window_size g =? 0 then
    Err "DFlash context geometry window_size must be positive"
  else let? _ := buffered_byte_limit g in Ok tt.

(** [usize::checked_mul] and [usize::checked_add] on sizes. *)
Definition checked_mul_nat (a b : nat) : option nat :=
  if Z.of_nat a * Z.of_nat b <? 2 ^ 64 then Some (a * b)%nat else None.
Definition checked_add_nat (a b : nat) : option nat :=
  if Z.of_nat a + Z.of_nat b <? 2 ^ 64 then Some (a + b)%nat else None.

(** ** cache.rs *)

(** [NEXT_CONTEXT_CACHE_IDENTITY.fetch_add(1)]: the identity and the next counter. *)
Definition next_context_cache_identity (counter : Z) : result dflash_error (Z * Z) :=
  if counter =? 0 then Err Panic else Ok (counter, wrapping_add 64 counter 1).

(** [TokenLayout]: the row width, asserted positive. *)
Definition TokenLayout_new (width : nat) : result dflash_error nat :=
  if (0 <? width)%nat then Ok width else Err Panic.

Section Planes.
Context {A : Type}.

(** [&l[a..b]] and [drain(a..b)]. *)
Definition slice (l : list A) (a b : nat) : result dflash_error (list A) :=
  if (a <=? b)%nat && (b <=? length l)%nat then Ok (take (b - a) (drop a l)) else Err Panic.
Definition drain (l : list A) (a b : nat) : result dflash_error (list A) :=
  if (a <=? b)%nat && (b <=? length l)%nat then Ok (take a l ++ drop b l) else Err Panic.
(** [l.splice(at..at, items)]. *)
Definition splice_at (l : list A) (at_ : nat) (items : list A) : result dflash_error (list A) :=
  if (at_ <=? length l)%nat then Ok (take at_ l ++ items ++ drop at_ l) else Err Panic.

(** The token-major draft cache. *)
Record DFlashKvCache : Type := mkKvCache {
  kv_k : list (list A);
  kv_v : list (list A);
  kv_len : nat;
  kv_width : nat;
}.

Definition DFlashKvCache_new (layers width : nat) : DFlashKvCache :=
  mkKvCache (replicate layers []) (replicate layers []) 0 width.

Definition crop (c : DFlashKvCache) (n : nat) : DFlashKvCache :=
  let keep := (n `min` kv_len c)%nat in
  mkKvCache (map (take (keep * kv_width c)) (kv_k c))
            (map (take (keep * kv_width c)) (kv_v c)) keep (kv_width c).

Record DFlashContextKvCache : Type := mkCache {
  ctx_k : list (list A);
  ctx_v : list (list A);
  ctx_len : nat;
  ctx_offset : nat;
  sink_size : nat;
  window_size : nat;
  layout : nat;
  identity : Z;
  revision : Z;
  layer_revisions : list Z;
}.

Record DFlashContextCheckpoint : Type := mkCheckpoint {
  ck_identity : Z;
  ck_ctx_len : nat;
  ck_ctx_offset : nat;
  ck_revision : Z;
  ck_sink_size : nat;
  ck_window_size : nat;
  ck_layout_width : nat;
  ck_append_tokens : nat;
  ck_removed_rows : nat;
  ck_removed : list (list A * list A);
  ck_layer_revisions : list Z;
}.

Record DFlashContextSnapshot : Type := mkSnapshot {
  s_position : nat;
  s_sink_size : nat;
  s_window_size : nat;
  s_elements_per_token : nat;
  s_layers : list (list A * list A);
}.

Definition snapshot_validate (s : DFlashContextSnapshot) : result string unit :=
  if (s_position s =? 0)%nat || (s_elements_per_token s =? 0)%nat ||
     (length (s_layers s) =? 0)%nat || (s_sink_size s =? 0)%nat || (s_window_size s =? 0)%nat
  then Err "invalid DFlash context snapshot geometry"
  else
    let rows := (s_position s `min` (s_sink_size s + s_window_size s))%nat in
    let? elements := ok_or (checked_mul_nat rows (s_elements_per_token s))
                       "DFlash context snapshot size overflow" in
    if existsb (fun kv => negb (length kv.1 =? elements)%nat || negb (length kv.2 =? elements)%nat)
         (s_layers s)
    then Err "DFlash context snapshot plane length mismatch"
    else Ok tt.

(** [DFlashContextKvCache::new], drawing an identity from the process counter. *)
Definition DFlashContextKvCache_new (counter : Z) (layers width sink window : nat)
    : result dflash_error (DFlashContextKvCache * Z) :=
  let? layout := TokenLayout_new width in
  let? (identity, counter) := next_context_cache_identity counter in
  Ok (mkCache (replicate layers []) (replicate layers []) 0 0 sink window layout
        identity 0 (replicate layers 0), counter).

Definition elements (c : DFlashContextKvCache) (rows : nat) : nat := (rows * layout c)%nat.
Definition physical_capacity (c : DFlashContextKvCache) : nat := (sink_size c + window_size c)%nat.

Definition geometry (c : DFlashContextKvCache) : DFlashContextGeometry :=
  mkGeometry (zlen (ctx_k c)) (Z.of_nat (layout c)) (Z.of_nat (sink_size c)) (Z.of_nat (window_size c)).

Definition checkpoint_append (c : DFlashContextKvCache) (tokens : nat)
    : result dflash_error DFlashContextCheckpoint :=
  let maximum := (sink_size c + window_size c)%nat in
  let removed_rows := (ctx_len c + tokens - maximum)%nat in
  let? removed :=
    if (removed_rows =? 0)%nat then Ok (replicate (length (ctx_k c)) ([], []))
    else
      traverse (fun kv =>
        let? key := slice kv.1 (elements c (sink_size c)) (elements c (sink_size c + removed_rows)) in
        let? value := slice kv.2 (elements c (sink_size c)) (elements c (sink_size c + removed_rows)) in
        Ok (key, value)) (zip (ctx_k c) (ctx_v c)) in
  Ok (mkCheckpoint (identity c) (ctx_len c) (ctx_offset c) (revision c) (sink_size c)
        (window_size c) (layout c) tokens removed_rows removed (layer_revisions c)).

(** The per-layer scan of [validate_rollback_target]: the number of layers that
    hold the append. *)
Fixpoint changed_layers (before after : nat) (ks vs : list (list A)) (revs ck_revs : list Z)
    : result dflash_error nat :=
  match ks, vs, ck_revs with
  | k :: ks, v :: vs, before_revision :: ck_revs =>
      match revs with
      | [] => Err Panic
      | current_revision :: revs =>
          let? (expected, changed) :=
            if current_revision =? before_revision then Ok (before, 0%nat)
            else if current_revision =? wrapping_add 64 before_revision 1 then Ok (after, 1%nat)
            else Err (Rejected "DFlash rollback layer revision is not the checkpoint append") in
          if negb (length k =? expected)%nat || negb (length v =? expected)%nat then
            Err (Rejected "DFlash rollback layer plane length is not the checkpoint append")
          else
            let? n := changed_layers before after ks vs revs ck_revs in
            Ok (changed + n)%nat
      end
  | _, _, _ => Ok 0%nat
  end.

Definition validate_rollback_target (c : DFlashContextKvCache) (ck : DFlashContextCheckpoint)
    : result dflash_error unit :=
  let n := length (ck_layer_revisions ck) in
  if negb (identity c =? ck_identity ck) || negb (sink_size c =? ck_sink_size ck)%nat ||
     negb (window_size c =? ck_window_size ck)%nat || negb (layout c =? ck_layout_width ck)%nat ||
     negb (length (ctx_k c) =? n)%nat || negb (length (ctx_v c) =? n)%nat ||
     negb (length (layer_revisions c) =? n)%nat || negb (length (ck_removed ck) =? n)%nat
  then Err (Rejected "DFlash rollback checkpoint identity or geometry differs")
  else if (ck_append_tokens ck =? 0)%nat || (window_size c <? ck_append_tokens ck)%nat then
    Err (Rejected "DFlash rollback checkpoint append count is invalid")
  else
    let capacity := physical_capacity c in
    let? appended_rows := ok_or (checked_add_nat (ck_ctx_len ck) (ck_append_tokens ck))
                            (Rejected "DFlash rollback checkpoint row count overflow") in
    let expected_removed := (appended_rows - capacity)%nat in
    if (capacity <? ck_ctx_len ck)%nat || negb (ck_removed_rows ck =? expected_removed)%nat ||
       (ck_ctx_len ck <? ck_removed_rows ck)%nat
    then Err (Rejected "DFlash rollback checkpoint retention geometry differs")
    else
      let removed_elements := elements c (ck_removed_rows ck) in
      if existsb (fun kv => negb (length kv.1 =? removed_elements)%nat ||
                            negb (length kv.2 =? removed_elements)%nat) (ck_removed ck)
      then Err (Rejected "DFlash rollback checkpoint tail planes differ")
      else
        let before_elements := elements c (ck_ctx_len ck) in
        let after_rows := (appended_rows `min` capacity)%nat in
        let after_elements := elements c after_rows in
        let next_revision := wrapping_add 64 (ck_revision ck) 1 in
        let scalar_before :=
          (revision c =? ck_revision ck) && (ctx_len c =? ck_ctx_len ck)%nat &&
          (ctx_offset c =? ck_ctx_offset ck)%nat in
        let? scalar_after :=
          if (revision c =? next_revision) && (ctx_len c =? after_rows)%nat then
            let? next_offset := ok_or (checked_add_nat (ck_ctx_offset ck) (ck_append_tokens ck))
                                  (Rejected "DFlash rollback checkpoint offset overflow") in
            Ok (ctx_offset c =? next_offset)%nat
          else Ok false in
        if negb scalar_before && negb scalar_after then
          Err (Rejected "DFlash rollback target is not the checkpoint append")
        else
          let? changed := changed_layers before_elements after_elements (ctx_k c) (ctx_v c)
                            (layer_revisions c) (ck_layer_revisions ck) in
          if scalar_after && negb (changed =? n)%nat then
            Err (Rejected "DFlash rollback advanced before every layer append completed")
          else Ok tt.

(** One plane of the rollback: drop the appended rows, put the evicted ones back. *)
Definition rollback_plane (plane removed : list A) (appended insertion removed_rows : nat)
    : result dflash_error (list A) :=
  let plane := take (length plane - appended) plane in
  if (removed_rows =? 0)%nat then Ok plane else splice_at plane insertion removed.

(** The layer loop of [rollback_append], over the zipped planes. *)
Fixpoint rollback_planes (appended insertion removed_rows : nat)
    (ks vs : list (list A)) (removed : list (list A * list A)) (revs ck_revs : list Z)
    : result dflash_error (list (list A) * list (list A)) :=
  match ks, vs, removed with
  | k :: ks, v :: vs, (rk, rv) :: removed =>
      match revs, ck_revs with
      | r :: revs, r0 :: ck_revs =>
          let? (k, v) :=
            if r =? r0 then Ok (k, v)
            else
              let? k := rollback_plane k rk appended insertion removed_rows in
              let? v := rollback_plane v rv appended insertion removed_rows in
              Ok (k, v) in
          let? (ks, vs) := rollback_planes appended insertion removed_rows ks vs removed revs ck_revs in
          Ok (k :: ks, v :: vs)
      | _, _ => Err Panic
      end
  | _, _, _ => Ok (ks, vs)
  end.

(** [rollback_append]: the cache after the call, and what it returned. *)
Definition rollback_append (c : DFlashContextKvCache) (ck : DFlashContextCheckpoint)
    : DFlashContextKvCache * result dflash_error unit :=
  match validate_rollback_target c ck with
  | Err e => (c, Err e)
  | Ok _ =>
      match rollback_planes (elements c (ck_append_tokens ck)) (elements c (sink_size c))
              (ck_removed_rows ck) (ctx_k c) (ctx_v c) (ck_removed ck)
              (layer_revisions c) (ck_layer_revisions ck) with
      | Err e => (c, Err e)
      | Ok (ks, vs) =>
          let c' := mkCache ks vs (ck_ctx_len ck) (ck_ctx_offset ck) (sink_size c) (window_size c)
                      (layout c) (identity c) (ck_revision ck) (ck_layer_revisions ck) in
          if forallb (fun kv => (length kv.1 =? elements c' (ctx_len c'))%nat &&
                                (length kv.2 =? elements c' (ctx_len c'))%nat)
               (zip (ctx_k c') (ctx_v c'))
          then (c', Ok tt)
          else (c', Err (Rejected "DFlash rollback produced inconsistent cache planes"))
      end
  end.

Definition validate_completed_append (c : DFlashContextKvCache) (ck : DFlashContextCheckpoint)
    : result dflash_error unit :=
  let? _ := validate_rollback_target c ck in
  let after_rows := ((ck_ctx_len ck + ck_append_tokens ck) `min`
                     (ck_sink_size ck + ck_window_size ck))%nat in
  let incomplete := Err (Rejected "DFlash provisional cache is not the complete checkpoint append") in
  if negb (revision c =? wrapping_add 64 (ck_revision ck) 1) || negb (ctx_len c =? after_rows)%nat
  then incomplete
  else
    let? next_offset := ok_or (checked_add_nat (ck_ctx_offset ck) (ck_append_tokens ck))
                          (Rejected "DFlash completed-append offset overflow") in
    if negb (ctx_offset c =? next_offset)%nat ||
       existsb (fun ab => negb (ab.1 =? wrapping_add 64 ab.2 1))
         (zip (layer_revisions c) (ck_layer_revisions ck))
    then incomplete
    else Ok tt.

Definition physical_slot (c : DFlashContextKvCache) (absolute_position : nat) : nat :=
  if (absolute_position <? sink_size c)%nat then absolute_position
  else (sink_size c + (absolute_position - sink_size c) mod window_size c)%nat.

Definition retained_absolute_position (c : DFlashContextKvCache) (logical_row : nat)
    : result dflash_error nat :=
  if negb (logical_row <? ctx_len c)%nat then Err Panic
  else
    let sink_rows := (ctx_len c `min` sink_size c)%nat in
    if (logical_row <? sink_rows)%nat then Ok logical_row
    else
      let tail_rows := (ctx_len c - sink_rows)%nat in
      Ok (ctx_offset c - tail_rows + (logical_row - sink_rows))%nat.

(** The [retain] closure of [append_layer]. *)
Definition retain (c : DFlashContextKvCache) (current fresh : list A) (tokens : nat)
    : result dflash_error (list A) :=
  let current_rows := (length current / layout c)%nat in
  let sink_from_current := (current_rows `min` sink_size c)%nat in
  let sink_from_fresh := (sink_size c - sink_from_current)%nat in
  let? a := slice current 0 (elements c sink_from_current) in
  let? b := slice fresh 0 (elements c sink_from_fresh) in
  let? d := slice fresh (elements c (tokens - window_size c))
              (elements c (tokens - window_size c + window_size c)) in
  Ok (a ++ b ++ d).

Definition append_layer (c : DFlashContextKvCache) (layer : nat) (k v : list A) (tokens : nat)
    : result dflash_error DFlashContextKvCache :=
  let needed := elements c tokens in
  if negb ((needed <=? length k)%nat && (needed <=? length v)%nat) then Err Panic
  else
    let maximum := (sink_size c + window_size c)%nat in
    match ctx_k c !! layer, ctx_v c !! layer, layer_revisions c !! layer with
    | Some pk, Some pv, Some rev =>
        let? (pk, pv) :=
          if (maximum <? tokens)%nat then
            let? pk := retain c pk k tokens in
            let? pv := retain c pv v tokens in
            Ok (pk, pv)
          else
            let pk := pk ++ take needed k in
            let pv := pv ++ take needed v in
            let total := (length pk / layout c)%nat in
            if (maximum <? total)%nat then
              let from := elements c (sink_size c) in
              let to := elements c (sink_size c + (total - maximum)) in
              let? pk := drain pk from to in
              let? pv := drain pv from to in
              Ok (pk, pv)
            else Ok (pk, pv) in
        Ok (mkCache (<[layer := pk]> (ctx_k c)) (<[layer := pv]> (ctx_v c))
              (ctx_len c) (ctx_offset c) (sink_size c) (window_size c) (layout c)
              (identity c) (revision c)
              (<[layer := wrapping_add 64 rev 1]> (layer_revisions c)))
    | _, _, _ => Err Panic
    end.

Definition advance_round (c : DFlashContextKvCache) (tokens : nat)
    : result dflash_error DFlashContextKvCache :=
  let len := match ctx_k c with [] => 0%nat | k :: _ => (length k / layout c)%nat end in
  let expected := elements c len in
  if forallb (fun kv => (length kv.1 =? expected)%nat && (length kv.2 =? expected)%nat)
       (zip (ctx_k c) (ctx_v c))
  then Ok (mkCache (ctx_k c) (ctx_v c) len (ctx_offset c + tokens) (sink_size c)
             (window_size c) (layout c) (identity c) (wrapping_add 64 (revision c) 1)
             (layer_revisions c))
  else Err Panic.

Definition advance_prompt_gap (c : DFlashContextKvCache) (next_offset : nat)
    : result dflash_error DFlashContextKvCache :=
  let expected_sink := (sink_size c `min` ctx_offset c)%nat in
  if (next_offset <=? ctx_offset c)%nat || negb (ctx_len c =? expected_sink)%nat ||
     negb (ctx_offset c =? expected_sink)%nat
  then Err (Rejected "DFlash prompt gap is not immediately after the retained sink")
  else Ok (mkCache (ctx_k c) (ctx_v c) (ctx_len c) next_offset (sink_size c) (window_size c)
             (layout c) (identity c) (wrapping_add 64 (revision c) 1) (layer_revisions c)).

Definition layer_k (c : DFlashContextKvCache) (layer : nat) : option (list A) := ctx_k c !! layer.
Definition layer_v (c : DFlashContextKvCache) (layer : nat) : option (list A) := ctx_v c !! layer.

Definition snapshot (c : DFlashContextKvCache) : DFlashContextSnapshot :=
  mkSnapshot (ctx_offset c) (sink_size c) (window_size c) (layout c) (zip (ctx_k c) (ctx_v c)).

Definition validate_snapshot_identity (c : DFlashContextKvCache) (s : DFlashContextSnapshot)
    : result dflash_error unit :=
  let? _ := result_map_err Rejected (snapshot_validate s) in
  let g := geometry c in
  if negb (zlen (s_layers s) =? g_layers g) then
    Err (Rejected "DFlash context snapshot geometry mismatch: layers")
  else if negb (Z.of_nat (s_elements_per_token s) =? g_elements_per_token g) then
    Err (Rejected "DFlash context snapshot geometry mismatch: elements_per_token")
  else if negb (Z.of_nat (s_sink_size s) =? g_sink_size g) then
    Err (Rejected "DFlash context snapshot geometry mismatch: sink_size")
  else if negb (Z.of_nat (s_window_size s) =? g_window_size g) then
    Err (Rejected "DFlash context snapshot geometry mismatch: window_size")
  else Ok tt.

Definition install_snapshot (c : DFlashContextKvCache) (s : DFlashContextSnapshot)
    : result dflash_error DFlashContextKvCache :=
  let? _ := validate_snapshot_identity c s in
  Ok (mkCache (s_layers s).*1 (s_layers s).*2
        (s_position s `min` (s_sink_size s + s_window_size s))%nat (s_position s)
        (sink_size c) (window_size c) (layout c) (identity c) (wrapping_add 64 (revision c) 1)
        (map (fun r => wrapping_add 64 r 1) (layer_revisions c))).

Definition prepare_snapshot (counter : Z) (c : DFlashContextKvCache) (s : DFlashContextSnapshot)
    : result dflash_error (DFlashContextKvCache * Z) :=
  let? _ := validate_snapshot_identity c s in
  let? (prepared, counter) :=
    DFlashContextKvCache_new counter (length (ctx_k c)) (layout c) (sink_size c) (window_size c) in
  let? prepared := install_snapshot prepared s in
  Ok (prepared, counter).

(** The cache side of a committed round ([metal/dflash.rs], [commit_round]):
    every layer in turn, then the scalar state. *)
Fixpoint append_layers (c : DFlashContextKvCache) (layer : nat) (round : list (list A * list A))
    (tokens : nat) : result dflash_error DFlashContextKvCache :=
  match round with
  | [] => Ok c
  | (k, v) :: round =>
      let? c := append_layer c layer k v tokens in
      append_layers c (S layer) round tokens
  end.

Definition commit_round (c : DFlashContextKvCache) (round : list (list A * list A)) (tokens : nat)
    : result dflash_error DFlashContextKvCache :=
  let? c := append_layers c 0 round tokens in
  advance_round c tokens.

End Planes.
Arguments DFlashKvCache : clear implicits.
Arguments DFlashContextKvCache : clear implicits.
Arguments DFlashContextCheckpoint : clear implicits.
Arguments DFlashContextSnapshot : clear implicits.

(** ** Specification: what a plane must hold after a history of rows. *)
Section Retention.
Context {A : Type}.
Implicit Types (h p fresh k v : list A) (c : DFlashContextKvCache A).

(** First [sink] rows and last [window] rows of a history, each row [w] elements;
    the whole history while it fits. *)
Definition retained (w sink window : nat) (h : list A) : list A :=
  let n := (length h / w)%nat in
  if (n <=? sink + window)%nat then h
  else take (sink * w) h ++ drop ((n - window) * w) h.

(** The cache holds exactly what [n] rows of history leave in it. *)
Record represents (c : DFlashContextKvCache A) (hk hv : list (list A)) (n : nat) : Prop := {
  r_width : (0 < layout c)%nat;
  r_k : ctx_k c = map (retained (layout c) (sink_size c) (window_size c)) hk;
  r_v : ctx_v c = map (retained (layout c) (sink_size c) (window_size c)) hv;
  r_hk : Forall (fun h => length h = (n * layout c)%nat) hk;
  r_hv : Forall (fun h => length h = (n * layout c)%nat) hv;
  r_layers : length hv = length hk;
  r_revs : length (layer_revisions c) = length hk;
  r_len : ctx_len c = (n `min` (sink_size c + window_size c))%nat;
  r_offset : ctx_offset c = n;
}.

(** History of every layer after a round of [t] tokens. *)
Definition extend (w t : nat) (hs fresh : list (list A)) : list (list A) :=
  zip_with (fun h k => h ++ take (t * w) k) hs fresh.

Lemma retained_length w sink window h n :
  (0 < w)%nat -> length h = (n * w)%nat ->
  length (retained w sink window h) = ((n `min` (sink + window)) * w)%nat.
Proof.
  intros Hw Hh. unfold retained. rewrite Hh, Nat.div_mul by lia.
  case_match; bool_prop.
  - rewrite Hh. f_equal. lia.
  - rewrite length_app, length_take, length_drop, Hh. nia.
Qed.

Lemma retained_fits w sink window h n :
  (0 < w)%nat -> length h = (n * w)%nat -> (n <= sink + window)%nat ->
  retained w sink window h = h.
Proof.
  intros Hw Hh Hn. unfold retained. rewrite Hh, Nat.div_mul by lia.
  by rewrite (proj2 (Nat.leb_le _ _)).
Qed.
Lemma retained_over w sink window h n :
  (0 < w)%nat -> length h = (n * w)%nat -> (sink + window < n)%nat ->
  retained w sink window h = take (sink * w) h ++ drop ((n - window) * w) h.
Proof.
  intros Hw Hh Hn. unfold retained. rewrite Hh, Nat.div_mul by lia.
  by rewrite (proj2 (Nat.leb_gt _ _)).
Qed.

Lemma slice_Ok (l : list A) a b :
  (a <= b)%nat -> (b <= length l)%nat -> slice l a b = Ok (take (b - a) (drop a l)).
Proof. intros. unfold slice. by rewrite !(proj2 (Nat.leb_le _ _)). Qed.
Lemma drain_Ok (l : list A) a b :
  (a <= b)%nat -> (b <= length l)%nat -> drain l a b = Ok (take a l ++ drop b l).
Proof. intros. unfold drain. by rewrite !(proj2 (Nat.leb_le _ _)). Qed.
Lemma splice_at_Ok (l items : list A) a :
  (a <= length l)%nat -> splice_at l a items = Ok (take a l ++ items ++ drop a l).
Proof. intros. unfold splice_at. by rewrite !(proj2 (Nat.leb_le _ _)). Qed.

Lemma slice_prefix (l : list A) n : (n <= length l)%nat -> slice l 0 n = Ok (take n l).
Proof. intros Hn. rewrite slice_Ok by lia. by rewrite Nat.sub_0_r, drop_0. Qed.

Lemma take_retained w sink window h n m :
  (0 < w)%nat -> length h = (n * w)%nat -> (m <= n)%nat -> (m <= sink)%nat ->
  take (m * w) (retained w sink window h) = take (m * w) h.
Proof.
  intros Hw Hh Hn Hm. unfold retained. rewrite Hh, Nat.div_mul by lia.
  case_match; bool_prop; [done|].
  rewrite take_app_le by (rewrite length_take, Hh; nia). rewrite take_take. f_equal. nia.
Qed.

(** The branch for batches longer than the capacity. *)
Lemma retain_spec c h fresh n t :
  (0 < layout c)%nat -> length h = (n * layout c)%nat ->
  (t * layout c <= length fresh)%nat -> (sink_size c + window_size c < t)%nat ->
  retain c (retained (layout c) (sink_size c) (window_size c) h) fresh t =
  Ok (retained (layout c) (sink_size c) (window_size c) (h ++ take (t * layout c) fresh)).
Proof.
  intros Hw Hh Hf Ht. unfold retain, elements.
  rewrite (retained_length _ _ _ _ n), Nat.div_mul by (done || lia).
  set (w := layout c) in *. set (sink := sink_size c) in *. set (win := window_size c) in *.
  replace ((n `min` (sink + win)) `min` sink)%nat with (n `min` sink)%nat by lia.
  rewrite slice_prefix by (rewrite (retained_length _ _ _ _ n) by done; nia).
  rewrite slice_prefix by nia.
  rewrite (take_retained _ _ _ _ n) by (done || lia).
  rewrite slice_Ok by nia. f_equal. unfold retained at 1.
  rewrite length_app, length_take, Hh.
  rewrite (Nat.min_l (t * w)) by done.
  rewrite <- Nat.mul_add_distr_r, Nat.div_mul by lia.
  rewrite (proj2 (Nat.leb_gt _ _)) by lia.
  rewrite take_app, drop_app, Hh, take_take, (drop_ge h) by nia. rewrite app_nil_l, app_assoc.
  f_equal.
  - destruct (decide (n <= sink)%nat).
    + replace (n `min` sink)%nat with n by lia.
      rewrite !(take_ge h) by nia. f_equal. f_equal. nia.
    + replace (n `min` sink)%nat with sink by lia. f_equal. f_equal. nia.
  - rewrite skipn_firstn_comm. f_equal; [nia | f_equal; nia].
Qed.

(** The branch that appends and evicts the rows after the sink. *)
Lemma append_evict_spec c h fresh n t :
  (0 < layout c)%nat -> length h = (n * layout c)%nat ->
  (t * layout c <= length fresh)%nat -> (t <= sink_size c + window_size c)%nat ->
  let p := retained (layout c) (sink_size c) (window_size c) h ++ take (t * layout c) fresh in
  let total := (length p / layout c)%nat in
  length p = ((n `min` (sink_size c + window_size c) + t) * layout c)%nat /\
  (if (sink_size c + window_size c <? total)%nat
   then drain p (sink_size c * layout c)
          ((sink_size c + (total - (sink_size c + window_size c))) * layout c)
   else Ok p) =
  Ok (retained (layout c) (sink_size c) (window_size c) (h ++ take (t * layout c) fresh)).
Proof.
  intros Hw Hh Hf Ht. set (w := layout c) in *. set (sink := sink_size c) in *.
  set (win := window_size c) in *. cbn zeta.
  assert (length (take (t * w) fresh) = t * w)%nat as Hlf by (rewrite length_take; lia).
  set (fr := take (t * w) fresh) in *. clearbody fr.
  assert (length (retained w sink win h ++ fr) = (n `min` (sink + win) + t) * w)%nat as Hlp.
  { rewrite length_app, (retained_length _ _ _ _ n), Hlf by done. nia. }
  split; [done|]. rewrite Hlp, Nat.div_mul by lia.
  assert (length (h ++ fr) = (n + t) * w)%nat as Hl by (rewrite length_app, Hh, Hlf; lia).
  destruct (decide (n <= sink + win)%nat) as [Hn|Hn].
  - rewrite (Nat.min_l n) in * by done. rewrite (retained_fits _ _ _ h n) in * by done.
    destruct (decide (n + t <= sink + win)%nat).
    + rewrite (proj2 (Nat.ltb_ge _ _)) by lia. by rewrite (retained_fits _ _ _ (h ++ fr) (n + t)).
    + rewrite (proj2 (Nat.ltb_lt _ _)) by lia.
      rewrite drain_Ok by (rewrite ?Hl; nia).
      rewrite (retained_over _ _ _ (h ++ fr) (n + t)) by (done || lia).
      do 3 f_equal. lia.
  - rewrite (Nat.min_r n) in * by lia.
    rewrite (retained_over _ _ _ (h ++ fr) (n + t)) by (done || lia).
    rewrite (retained_over _ _ _ h n) in * by (done || lia).
    assert (length (take (sink * w) h) = sink * w)%nat as Hs by (rewrite length_take, Hh; nia).
    replace (take (sink * w) (h ++ fr)) with (take (sink * w) h)
      by (rewrite take_app_le; [done | rewrite Hh; nia]).
    assert (drop ((sink + t) * w) ((take (sink * w) h ++ drop ((n - win) * w) h) ++ fr) =
            drop ((n + t - win) * w) (h ++ fr)) as Hd.
    { rewrite <- app_assoc, drop_app, Hs, (drop_ge (take _ _)) by (rewrite ?Hs; nia).
      rewrite app_nil_l, !drop_app, length_drop, Hh, drop_drop. f_equal; f_equal; nia. }
    case_match; bool_prop.
    + rewrite drain_Ok by (rewrite ?Hlp; nia).
      replace (sink + (sink + win + t - (sink + win)))%nat with (sink + t)%nat by lia.
      rewrite Hd. do 2 f_equal. rewrite <- app_assoc, take_app_le by lia.
      by rewrite take_ge by lia.
    + assert (t = 0)%nat as -> by lia. f_equal.
      rewrite <- Hd, Nat.add_0_r, <- app_assoc, drop_app, Hs, (drop_ge (take _ _)) by (rewrite ?Hs; lia).
      rewrite Nat.sub_diag, drop_0, app_nil_l, app_assoc. done.
Qed.

(** ** One layer, then a run of layers. *)

(** The cache with other planes and layer revisions. *)
Definition with_planes c (ks vs : list (list A)) (rs : list Z) : DFlashContextKvCache A :=
  mkCache ks vs (ctx_len c) (ctx_offset c) (sink_size c) (window_size c) (layout c)
    (identity c) (revision c) rs.

Abbreviation keep c := (retained (layout c) (sink_size c) (window_size c)).
Abbreviation bump := (fun r : Z => wrapping_add 64 r 1).

Lemma append_layer_spec c layer h h' k v n t rev :
  (0 < layout c)%nat -> length h = (n * layout c)%nat -> length h' = (n * layout c)%nat ->
  (t * layout c <= length k)%nat -> (t * layout c <= length v)%nat ->
  ctx_k c !! layer = Some (keep c h) -> ctx_v c !! layer = Some (keep c h') ->
  layer_revisions c !! layer = Some rev ->
  append_layer c layer k v t =
  Ok (with_planes c (<[layer := keep c (h ++ take (t * layout c) k)]> (ctx_k c))
        (<[layer := keep c (h' ++ take (t * layout c) v)]> (ctx_v c))
        (<[layer := bump rev]> (layer_revisions c))).
Proof.
  intros Hw Hh Hh' Hk Hv Ek Ev Er. unfold append_layer. change (elements c t) with (t * layout c)%nat.
  rewrite (proj2 (Nat.leb_le _ (length k))), (proj2 (Nat.leb_le _ (length v))) by done. cbn [negb andb].
  rewrite Ek, Ev, Er. destruct (_ <? t)%nat eqn:Ht; bool_prop.
  - by rewrite (retain_spec c h k n), (retain_spec c h' v n).
  - destruct (append_evict_spec c h k n t) as [Lk Ak]; [done..|].
    destruct (append_evict_spec c h' v n t) as [Lv Av]; [done..|].
    unfold elements. rewrite Lv in Av. rewrite Lk in *. rewrite Nat.div_mul in * by lia.
    case_match; [by rewrite Ak, Av | by injection Ak as ->; injection Av as ->].
Qed.

(** The first layers of a round, starting after the [prek] layers already done. *)
Lemma append_layers_spec c round prek prev prer hk hv rs restk restv restr n t :
  (0 < layout c)%nat -> length prev = length prek -> length prer = length prek ->
  length hk = length round -> length hv = length round -> length rs = length round ->
  Forall (fun h => length h = (n * layout c)%nat) hk ->
  Forall (fun h => length h = (n * layout c)%nat) hv ->
  Forall (fun kv => (t * layout c <= length kv.1)%nat /\ (t * layout c <= length kv.2)%nat) round ->
  append_layers (with_planes c (prek ++ map (keep c) hk ++ restk)
                   (prev ++ map (keep c) hv ++ restv) (prer ++ rs ++ restr))
    (length prek) round t =
  Ok (with_planes c (prek ++ map (keep c) (extend (layout c) t hk round.*1) ++ restk)
        (prev ++ map (keep c) (extend (layout c) t hv round.*2) ++ restv)
        (prer ++ map bump rs ++ restr)).
Proof.
  intros Hw. revert prek prev prer hk hv rs.
  induction round as [|[k v] round IH]; intros prek prev prer hk hv rs Lv Lr Lk Lv' Lrs Fk Fv Fr.
  { by destruct hk, hv, rs. }
  destruct hk as [|h hk], hv as [|h' hv], rs as [|r rs]; try done.
  apply Forall_cons in Fk as [Hh Fk]. apply Forall_cons in Fv as [Hh' Fv].
  apply Forall_cons in Fr as [[Hk Hv] Fr]. cbn [append_layers].
  rewrite (append_layer_spec _ _ h h' k v n t r); try done.
  - cbn [layout sink_size window_size with_planes ctx_k ctx_v layer_revisions].
    assert (forall {B} (a : list B) x y l, length a = length prek ->
              <[length prek := y]> (a ++ x :: l) = (a ++ [y]) ++ l) as Hins.
    { intros B a x y l <-. rewrite <- app_assoc. by rewrite insert_app_r_alt, Nat.sub_diag by done. }
    cbn [map app]. rewrite !Hins by done.
    replace (S (length prek)) with (length (prek ++ [keep c (h ++ take (t * layout c) k)]))
      by (rewrite length_app; simpl; lia).
    specialize (IH (prek ++ [keep c (h ++ take (t * layout c) k)])
                   (prev ++ [keep c (h' ++ take (t * layout c) v)]) (prer ++ [bump r]) hk hv rs).
    unfold with_planes in *. cbn [layout sink_size window_size ctx_len ctx_offset identity revision] in *.
    rewrite IH by (rewrite ?length_app; simpl in *; lia || done).
    cbn. by rewrite <- !app_assoc.
  - cbn. rewrite lookup_app_r, Nat.sub_diag by done. done.
  - cbn. rewrite lookup_app_r by lia. by rewrite Lv, Nat.sub_diag.
  - cbn. rewrite lookup_app_r by lia. by rewrite Lr, Nat.sub_diag.
Qed.

(** ** The cache invariant and a whole round. *)
Record cache_wf c : Prop := {
  wf_width : (0 < layout c)%nat;
  wf_k : Forall (fun p => length p = (ctx_len c * layout c)%nat) (ctx_k c);
  wf_v : Forall (fun p => length p = (ctx_len c * layout c)%nat) (ctx_v c);
  wf_layers : length (ctx_v c) = length (ctx_k c);
  wf_revs : length (layer_revisions c) = length (ctx_k c);
  wf_len : (ctx_len c <= sink_size c + window_size c)%nat;
}.

(** A round supplies [t] rows of K and V to every layer. *)
Definition round_ok c (round : list (list A * list A)) (t : nat) : Prop :=
  length round = length (ctx_k c) /\ (0 < length round)%nat /\
  Forall (fun kv => (t * layout c <= length kv.1)%nat /\ (t * layout c <= length kv.2)%nat) round.

Lemma extend_length w t (hs fresh : list (list A)) n :
  Forall (fun h => length h = (n * w)%nat) hs -> length fresh = length hs ->
  Forall (fun k => (t * w <= length k)%nat) fresh ->
  length (extend w t hs fresh) = length hs /\
  Forall (fun h => length h = ((n + t) * w)%nat) (extend w t hs fresh).
Proof.
  unfold extend. revert fresh. induction hs as [|h hs IH]; intros [|k fresh] Fh L Ff; try done.
  apply Forall_cons in Fh as [Hh Fh]. apply Forall_cons in Ff as [Hk Ff].
  destruct (IH fresh Fh ltac:(simpl in *; lia) Ff) as [IL IF]. simpl. split; [lia|].
  constructor; [|done]. rewrite length_app, length_take, Hh. lia.
Qed.

Lemma extend_round w t (hk hv : list (list A)) (round : list (list A * list A)) n :
  Forall (fun h => length h = (n * w)%nat) hk -> Forall (fun h => length h = (n * w)%nat) hv ->
  length round = length hk -> length hv = length hk ->
  Forall (fun kv => (t * w <= length kv.1)%nat /\ (t * w <= length kv.2)%nat) round ->
  length (extend w t hk round.*1) = length hk /\
  Forall (fun h => length h = ((n + t) * w)%nat) (extend w t hk round.*1) /\
  length (extend w t hv round.*2) = length hv /\
  Forall (fun h => length h = ((n + t) * w)%nat) (extend w t hv round.*2).
Proof.
  intros Fk Fv L1 L2 Fr.
  assert (Forall (fun k => (t * w <= length k)%nat) round.*1 /\
          Forall (fun k => (t * w <= length k)%nat) round.*2) as [F1 F2].
  { rewrite !Forall_fmap. split; (eapply Forall_impl; [exact Fr|]); by intros ? [? ?]. }
  destruct (extend_length w t hk round.*1 n) as [? ?]; [done | by rewrite length_fmap | done |].
  destruct (extend_length w t hv round.*2 n) as [? ?]; [done | rewrite length_fmap; lia | done |].
  done.
Qed.

Lemma Forall_keep_length c (hs : list (list A)) n :
  (0 < layout c)%nat -> Forall (fun h => length h = (n * layout c)%nat) hs ->
  Forall (fun p => length p = ((n `min` (sink_size c + window_size c)) * layout c)%nat)
    (map (keep c) hs).
Proof. intros Hw F. apply Forall_map. eapply Forall_impl; [done|]. intros. by apply retained_length. Qed.

Lemma forallb_plane_lengths (ks vs : list (list A)) m :
  Forall (fun p => length p = m) ks -> Forall (fun p => length p = m) vs ->
  forallb (fun kv => (length kv.1 =? m)%nat && (length kv.2 =? m)%nat) (zip ks vs) = true.
Proof.
  intros Fk. revert vs. induction Fk as [|k ks Hk Fk IH]; intros [|v vs] Fv; try done.
  apply Forall_cons in Fv as [Hv Fv]. simpl. by rewrite Hk, Hv, !Nat.eqb_refl, IH.
Qed.

(** What a round computes on planes that hold [hk], [hv]; [n] rows each. *)
Lemma commit_round_Ok c round hk hv n t :
  (0 < layout c)%nat -> ctx_k c = map (keep c) hk -> ctx_v c = map (keep c) hv ->
  Forall (fun h => length h = (n * layout c)%nat) hk ->
  Forall (fun h => length h = (n * layout c)%nat) hv ->
  length hv = length hk -> length (layer_revisions c) = length hk -> round_ok c round t ->
  commit_round c round t =
  Ok (mkCache (map (keep c) (extend (layout c) t hk round.*1))
        (map (keep c) (extend (layout c) t hv round.*2))
        ((n + t) `min` (sink_size c + window_size c))%nat (ctx_offset c + t)
        (sink_size c) (window_size c) (layout c) (identity c) (bump (revision c))
        (map bump (layer_revisions c))).
Proof.
  intros Hw Ek Ev Fk Fv Lv Lr (Lround & Hpos & Fr). rewrite Ek, length_map in Lround.
  unfold commit_round.
  pose proof (append_layers_spec c round [] [] [] hk hv (layer_revisions c) [] [] [] n t) as Happ.
  rewrite !app_nil_l, !app_nil_r, <- Ek, <- Ev in Happ.
  replace (with_planes c (ctx_k c) (ctx_v c) (layer_revisions c)) with c in Happ by by destruct c.
  cbn [length] in Happ. rewrite Happ by (done || lia). clear Happ.
  destruct (extend_round (layout c) t hk hv round n) as (L1 & F1 & L2 & F2); [done || lia..|].
  apply Forall_keep_length in F1, F2; try done.
  unfold advance_round, elements.
  cbn [with_planes ctx_k ctx_v layout ctx_offset sink_size window_size identity revision layer_revisions].
  destruct (map (keep c) (extend (layout c) t hk round.*1)) as [|p ps] eqn:E.
  { apply (f_equal length) in E. rewrite length_map in E. simpl in E. lia. }
  pose proof F1 as Fp. apply Forall_cons in Fp as [-> _]. rewrite Nat.div_mul by lia.
  by rewrite forallb_plane_lengths.
Qed.

(** C5. A committed round refines the abstract cache: if the cache holds, per layer and
    plane, the first [sink_size] and the last [window_size] rows of an [n]-row history,
    then appending a round of any [t] tokens (both branches of [append_layer]: evicting
    and longer than the whole capacity) succeeds, and the cache then holds exactly the
    sink and window of the history extended by the round's [t] rows. *)
Theorem commit_round_refines c hk hv n round t :
  represents c hk hv n -> round_ok c round t ->
  exists c', commit_round c round t = Ok c' /\
    represents c' (extend (layout c) t hk round.*1) (extend (layout c) t hv round.*2) (n + t).
Proof.
  intros [Hw Ek Ev Fk Fv Lv Lr Hlen Hoff] Hround. pose proof Hround as (Lround & Hpos & Fr).
  eexists. split; [by eapply commit_round_Ok|]. rewrite Ek, length_map in Lround.
  destruct (extend_round (layout c) t hk hv round n) as (L1 & F1 & L2 & F2); [done || lia..|].
  split; cbn; try done; rewrite ?length_map; lia.
Qed.

(** ** Checkpoint and rollback. *)

(** The rows an append of [removed] rows over capacity evicts from a plane. *)
Definition evicted c (removed : nat) p : list A :=
  take (removed * layout c) (drop (sink_size c * layout c) p).
Definition evicted_pair c (removed : nat) (kv : list A * list A) : list A * list A :=
  (evicted c removed kv.1, evicted c removed kv.2).

Lemma bump_neq r : is_uint 64 r -> (bump r =? r) = false.
Proof.
  unfold is_uint, wrapping_add. intros Hr. apply Z.eqb_neq. intros E.
  destruct (decide (r + 1 < 2 ^ 64)); [rewrite Z.mod_small in E by lia; lia|].
  replace (r + 1) with (2 ^ 64) in E by lia. rewrite Z.mod_same in E by lia. lia.
Qed.

Lemma checkpoint_append_Ok c t :
  cache_wf c -> (t <= window_size c)%nat ->
  let removed := (ctx_len c + t - (sink_size c + window_size c))%nat in
  checkpoint_append c t =
  Ok (mkCheckpoint (identity c) (ctx_len c) (ctx_offset c) (revision c) (sink_size c)
        (window_size c) (layout c) t removed
        (map (evicted_pair c removed) (zip (ctx_k c) (ctx_v c))) (layer_revisions c)).
Proof.
  intros [Hw Fk Fv Lv Lr Hlen] Ht removed. unfold checkpoint_append, elements. fold removed.
  destruct (removed =? 0)%nat eqn:E; bool_prop.
  - rewrite E. do 2 f_equal. clear Fk Fv Lr. revert Lv. generalize (ctx_v c).
    induction (ctx_k c) as [|k ks IH]; intros [|v vs] Lv; try done.
    simpl. f_equal. apply IH. by injection Lv.
  - assert (forall p, length p = (ctx_len c * layout c)%nat ->
      slice p (sink_size c * layout c) ((sink_size c + removed) * layout c)
      = Ok (evicted c removed p)) as Hs.
    { intros p Hp. rewrite slice_Ok by (rewrite ?Hp; subst removed; nia).
      unfold evicted. do 2 f_equal. nia. }
    enough (forall ks vs, Forall (fun p => length p = (ctx_len c * layout c)%nat) ks ->
      Forall (fun p => length p = (ctx_len c * layout c)%nat) vs ->
      traverse (fun kv =>
        let? key := slice kv.1 (sink_size c * layout c) ((sink_size c + removed) * layout c) in
        let? value := slice kv.2 (sink_size c * layout c) ((sink_size c + removed) * layout c) in
        Ok (key, value)) (zip ks vs) = Ok (map (evicted_pair c removed) (zip ks vs))) as ->; [done..|].
    intros ks vs Gk. revert vs. induction Gk as [|k ks Hk Gk IH]; intros [|v vs] Gv; try done.
    apply Forall_cons in Gv as [Hv Gv]. cbn [zip_with traverse map fst snd]. rewrite !Hs by done.
    by rewrite IH.
Qed.

(** Rolling one plane back restores it. *)
Lemma rollback_plane_spec c p fresh m t :
  (0 < layout c)%nat -> length p = (m * layout c)%nat ->
  (m <= sink_size c + window_size c)%nat -> (t <= window_size c)%nat ->
  (t * layout c <= length fresh)%nat ->
  let removed := (m + t - (sink_size c + window_size c))%nat in
  rollback_plane (keep c (p ++ take (t * layout c) fresh)) (evicted c removed p)
    (t * layout c) (sink_size c * layout c) removed = Ok p.
Proof.
  intros Hw Hp Hm Ht Hf removed. unfold rollback_plane, evicted. subst removed.
  set (w := layout c) in *. set (sink := sink_size c) in *. set (win := window_size c) in *.
  assert (length (take (t * w) fresh) = t * w)%nat as Hlf by (rewrite length_take; lia).
  set (fr := take (t * w) fresh) in *. clearbody fr.
  assert (length (p ++ fr) = (m + t) * w)%nat as Hl by (rewrite length_app; lia).
  rewrite (retained_length _ _ _ _ (m + t)) by done.
  destruct (decide (m + t <= sink + win)%nat) as [H|H].
  - rewrite (retained_fits _ _ _ _ (m + t)), Nat.min_l by done.
    replace (m + t - (sink + win))%nat with 0%nat by lia. cbn [Nat.eqb]. f_equal.
    rewrite take_app_le by nia. apply take_ge. nia.
  - rewrite (proj2 (Nat.eqb_neq _ _)) by lia.
    rewrite (retained_over _ _ _ _ (m + t)), Nat.min_r by (done || lia).
    rewrite (take_app_le p) by nia. rewrite (drop_app_le p) by nia.
    assert (length (take (sink * w) p) = sink * w)%nat as Hs by (rewrite length_take; nia).
    rewrite app_assoc, take_app_le by (rewrite length_app, Hs, length_drop; nia).
    rewrite take_ge by (rewrite length_app, Hs, length_drop; nia).
    rewrite splice_at_Ok by (rewrite length_app; lia). f_equal.
    rewrite take_app_le, drop_app, Hs, Nat.sub_diag, drop_0, (drop_ge (take _ _)) by lia.
    rewrite take_take, Nat.min_id, app_nil_l.
    rewrite <- (take_drop (sink * w) p) at 4. f_equal.
    rewrite <- (take_drop ((m + t - (sink + win)) * w) (drop (sink * w) p)) at 2. f_equal.
    rewrite drop_drop. f_equal. nia.
Qed.

(** The scan over a cache whose first layers hold the append. *)
Lemma changed_layers_spec before after (k1 v1 k2 v2 : list (list A)) (r1 r2 : list Z) :
  length v1 = length k1 -> length r1 = length k1 -> length v2 = length k2 -> length r2 = length k2 ->
  Forall (is_uint 64) r1 ->
  Forall (fun p => length p = after) k1 -> Forall (fun p => length p = after) v1 ->
  Forall (fun p => length p = before) k2 -> Forall (fun p => length p = before) v2 ->
  changed_layers before after (k1 ++ k2) (v1 ++ v2) (map bump r1 ++ r2) (r1 ++ r2) = Ok (length k1).
Proof.
  revert v1 r1. induction k1 as [|k k1 IH]; intros [|v v1] [|r r1] L1 L2 L3 L4 Fr F1 F2 F3 F4; try done.
  - clear -L3 L4 F3 F4. cbn [app map length]. revert v2 r2 L3 L4 F3 F4.
    induction k2 as [|k k2 IH]; intros [|v v2] [|r r2] L3 L4 F3 F4; try done.
    apply Forall_cons in F3 as [Hk F3]. apply Forall_cons in F4 as [Hv F4].
    cbn [changed_layers]. rewrite Z.eqb_refl, Hk, Hv, Nat.eqb_refl. cbn [negb orb].
    by rewrite IH by (simpl in *; lia || done).
  - apply Forall_cons in Fr as [Hr Fr]. apply Forall_cons in F1 as [Hk F1].
    apply Forall_cons in F2 as [Hv F2]. cbn [app map changed_layers length].
    rewrite bump_neq, Z.eqb_refl, Hk, Hv, Nat.eqb_refl by done. cbn [negb orb].
    by rewrite IH by (simpl in *; lia || done).
Qed.

(** The rollback loop over the same cache. *)
Lemma rollback_planes_spec c t m (k1 v1 k2 v2 : list (list A)) (round : list (list A * list A)) (r1 r2 : list Z) :
  let removed := (m + t - (sink_size c + window_size c))%nat in
  (0 < layout c)%nat -> (m <= sink_size c + window_size c)%nat -> (t <= window_size c)%nat ->
  length v1 = length k1 -> length r1 = length k1 -> length round = length k1 ->
  length v2 = length k2 -> length r2 = length k2 -> Forall (is_uint 64) r1 ->
  Forall (fun p => length p = (m * layout c)%nat) k1 ->
  Forall (fun p => length p = (m * layout c)%nat) v1 ->
  Forall (fun kv => (t * layout c <= length kv.1)%nat /\ (t * layout c <= length kv.2)%nat) round ->
  rollback_planes (t * layout c) (sink_size c * layout c) removed
    (map (keep c) (extend (layout c) t k1 round.*1) ++ k2)
    (map (keep c) (extend (layout c) t v1 round.*2) ++ v2)
    (map (evicted_pair c removed) (zip (k1 ++ k2) (v1 ++ v2)))
    (map bump r1 ++ r2) (r1 ++ r2) = Ok (k1 ++ k2, v1 ++ v2).
Proof.
  intros removed Hw Hm Ht. revert v1 r1 round.
  induction k1 as [|k k1 IH]; intros [|v v1] [|r r1] [|[fk fv] round] L1 L2 L3 L4 L5 Fr F1 F2 F3; try done.
  - cbn. clear -L4 L5. revert v2 r2 L4 L5.
    induction k2 as [|k k2 IH]; intros [|v v2] [|r r2] L4 L5; try done.
    cbn [rollback_planes zip_with map evicted_pair]. rewrite Z.eqb_refl.
    by rewrite IH by (simpl in *; lia).
  - apply Forall_cons in Fr as [Hr Fr]. apply Forall_cons in F1 as [Hk F1].
    apply Forall_cons in F2 as [Hv F2]. apply Forall_cons in F3 as [[Hfk Hfv] F3].
    cbn [app map rollback_planes zip_with evicted_pair extend fmap list_fmap fst snd].
    rewrite bump_neq by done. unfold removed.
    rewrite (rollback_plane_spec c k fk m t), (rollback_plane_spec c v fv m t) by done.
    fold removed. specialize (IH v1 r1 round). unfold extend in IH.
    by rewrite IH by (simpl in *; lia || done).
Qed.

(** The cache once the first layers of a round are appended. *)
Definition partial c (round : list (list A * list A)) (t j : nat) : DFlashContextKvCache A :=
  with_planes c
    (map (keep c) (extend (layout c) t (take j (ctx_k c)) (take j round).*1) ++ drop j (ctx_k c))
    (map (keep c) (extend (layout c) t (take j (ctx_v c)) (take j round).*2) ++ drop j (ctx_v c))
    (map bump (take j (layer_revisions c)) ++ drop j (layer_revisions c)).

Lemma map_keep_fits c (ks : list (list A)) :
  (0 < layout c)%nat -> Forall (fun p => length p = (ctx_len c * layout c)%nat) ks ->
  (ctx_len c <= sink_size c + window_size c)%nat -> map (keep c) ks = ks.
Proof.
  intros Hw F Hl. induction F as [|k ks Hk F IH]; [done|]. simpl.
  by rewrite (retained_fits _ _ _ k (ctx_len c)), IH.
Qed.

Lemma append_layers_partial c round t j :
  cache_wf c -> round_ok c round t -> append_layers c 0 (take j round) t = Ok (partial c round t j).
Proof.
  intros [Hw Fk Fv Lv Lr Hlen] (L & _ & Fr).
  pose proof (append_layers_spec c (take j round) [] [] [] (take j (ctx_k c)) (take j (ctx_v c))
    (take j (layer_revisions c)) (drop j (ctx_k c)) (drop j (ctx_v c))
    (drop j (layer_revisions c)) (ctx_len c) t) as Happ.
  rewrite !app_nil_l, !map_keep_fits, !take_drop in Happ by (done || by apply Forall_take).
  replace (with_planes c (ctx_k c) (ctx_v c) (layer_revisions c)) with c in Happ by by destruct c.
  apply Happ; try done; rewrite ?length_take; lia || by apply Forall_take.
Qed.

(** A partially appended cache, or ([adv]) a fully appended one with its scalars advanced. *)
Definition settled c (round : list (list A * list A)) (t j : nat) (adv : bool) : DFlashContextKvCache A :=
  let p := partial c round t j in
  mkCache (ctx_k p) (ctx_v p)
    (if adv then (ctx_len c + t) `min` (sink_size c + window_size c) else ctx_len c)%nat
    (if adv then ctx_offset c + t else ctx_offset c)%nat
    (sink_size c) (window_size c) (layout c) (identity c)
    (if adv then bump (revision c) else revision c) (layer_revisions p).

Lemma checked_add_nat_Some a b :
  Z.of_nat a + Z.of_nat b < 2 ^ 64 -> checked_add_nat a b = Some (a + b)%nat.
Proof. intros. unfold checked_add_nat. by rewrite (proj2 (Z.ltb_lt _ _)). Qed.

Lemma partial_planes c round t j :
  cache_wf c -> round_ok c round t -> (j <= length round)%nat ->
  let after := (((ctx_len c + t) `min` (sink_size c + window_size c)) * layout c)%nat in
  let pk := map (keep c) (extend (layout c) t (take j (ctx_k c)) (take j round).*1) in
  let pv := map (keep c) (extend (layout c) t (take j (ctx_v c)) (take j round).*2) in
  length pk = j /\ length pv = j /\
  Forall (fun p => length p = after) pk /\ Forall (fun p => length p = after) pv.
Proof.
  intros [Hw Fk Fv Lv Lr Hlen] (L & _ & Fr) Hj. cbn zeta.
  destruct (extend_round (layout c) t (take j (ctx_k c)) (take j (ctx_v c)) (take j round) (ctx_len c))
    as (L1 & F1 & L2 & F2); try (by apply Forall_take); rewrite ?length_take in *; try lia.
  rewrite !length_map, L1, L2. repeat split; try lia; by apply Forall_keep_length.
Qed.

Section RollbackTarget.
Context c (round : list (list A * list A)) (t j : nat) (adv : bool).
Context (Hwf : cache_wf c) (Hround : round_ok c round t) (Hj : (j <= length round)%nat).
Context (Hadv : adv = true -> j = length round).
Context (Ht : (1 <= t <= window_size c)%nat).
Context (Hrev : is_uint 64 (revision c)) (Hrevs : Forall (is_uint 64) (layer_revisions c)).
Context (Hlen64 : Z.of_nat (ctx_len c) + Z.of_nat t < 2 ^ 64).
Context (Hoff64 : Z.of_nat (ctx_offset c) + Z.of_nat t < 2 ^ 64).

Definition append_checkpoint : DFlashContextCheckpoint A :=
  let removed := (ctx_len c + t - (sink_size c + window_size c))%nat in
  mkCheckpoint (identity c) (ctx_len c) (ctx_offset c) (revision c) (sink_size c)
    (window_size c) (layout c) t removed
    (map (evicted_pair c removed) (zip (ctx_k c) (ctx_v c))) (layer_revisions c).

Lemma evicted_lengths :
  existsb (fun kv => negb (length kv.1 =? ck_removed_rows append_checkpoint * layout c)%nat ||
                     negb (length kv.2 =? ck_removed_rows append_checkpoint * layout c)%nat)
    (ck_removed append_checkpoint) = false.
Proof.
  destruct Hwf as [Hw Fk Fv Lv Lr Hlen]. cbn [append_checkpoint ck_removed_rows ck_removed].
  set (removed := (ctx_len c + t - (sink_size c + window_size c))%nat).
  assert (forall p, length p = (ctx_len c * layout c)%nat ->
            length (evicted c removed p) = (removed * layout c)%nat) as He.
  { intros p Hp. unfold evicted. rewrite length_take, length_drop, Hp. subst removed. nia. }
  clear Lv Lr Hround Hadv. revert Fv. generalize (ctx_v c).
  induction Fk as [|k ks Hk Fk IH]; intros [|v vs] Fv; try done.
  apply Forall_cons in Fv as [Hv Fv]. cbn. by rewrite !He, Nat.eqb_refl, IH.
Qed.

Lemma validate_settled : validate_rollback_target (settled c round t j adv) append_checkpoint = Ok tt.
Proof.
  destruct (partial_planes c round t j) as (Lk & Lvv & Gk & Gv); [done..|].
  pose proof evicted_lengths as Hev. destruct Hwf as [Hw Fk Fv Lv Lr Hlen]. destruct Hround as (L & _ & _).
  unfold validate_rollback_target.
  cbn [settled append_checkpoint identity ck_identity sink_size ck_sink_size window_size ck_window_size
       layout ck_layout_width ctx_k ctx_v layer_revisions ck_layer_revisions ck_removed
       ck_append_tokens ck_ctx_len ck_removed_rows revision ck_revision ctx_len ctx_offset
       ck_ctx_offset partial with_planes] in *.
  rewrite !length_app, Lk, Lvv, !length_map, length_zip_with, !length_drop, length_take.
  rewrite Z.eqb_refl, !Nat.eqb_refl.
  rewrite !(proj2 (Nat.eqb_eq _ _)) by lia. cbn [negb orb].
  rewrite (proj2 (Nat.eqb_neq t 0)), (proj2 (Nat.ltb_ge _ t)) by lia. cbn [orb].
  rewrite checked_add_nat_Some by done. cbn [ok_or]. unfold physical_capacity.
  cbn [settled sink_size window_size]. rewrite (proj2 (Nat.ltb_ge (sink_size c + window_size c) (ctx_len c))) by done. rewrite Nat.eqb_refl.
  rewrite (proj2 (Nat.ltb_ge (ctx_len c) (ctx_len c + t - (sink_size c + window_size c)))) by lia. cbn [negb orb].
  unfold elements. cbn [settled layout]. rewrite Hev.
  pose proof (changed_layers_spec (ctx_len c * layout c)
    (((ctx_len c + t) `min` (sink_size c + window_size c)) * layout c) _ _ (drop j (ctx_k c))
    (drop j (ctx_v c)) (take j (layer_revisions c)) (drop j (layer_revisions c))
    ltac:(rewrite Lvv; symmetry; exact Lk)) as Hch.
  rewrite take_drop in Hch. rewrite Hch; try done; clear Hch;
    rewrite ?length_drop, ?length_take, ?Lk, ?Lvv; try lia; try by (apply Forall_take || apply Forall_drop).
  destruct adv.
  - rewrite Z.eqb_refl, Nat.eqb_refl, checked_add_nat_Some by done. cbn [andb ok_or].
    rewrite Nat.eqb_refl, andb_false_r. by rewrite Hadv, L, Lr, Nat.eqb_refl.
  - rewrite Z.eqb_sym, bump_neq, !Z.eqb_refl, !Nat.eqb_refl by done. done.
Qed.

Lemma rollback_settled : rollback_append (settled c round t j adv) append_checkpoint = (c, Ok tt).
Proof.
  unfold rollback_append. rewrite validate_settled. destruct Hwf as [Hw Fk Fv Lv Lr Hlen].
  destruct Hround as (L & _ & Fr).
  pose proof (rollback_planes_spec c t (ctx_len c) (take j (ctx_k c)) (take j (ctx_v c))
    (drop j (ctx_k c)) (drop j (ctx_v c)) (take j round)
    (take j (layer_revisions c)) (drop j (layer_revisions c))) as Hp.
  rewrite !take_drop in Hp.
  unfold elements. cbn [settled append_checkpoint partial with_planes layout ck_append_tokens sink_size
    ck_removed_rows ctx_k ctx_v ck_removed layer_revisions ck_layer_revisions].
  rewrite Hp by (rewrite ?length_take, ?length_drop; lia || done || by apply Forall_take). cbn.
  rewrite forallb_plane_lengths by done. by destruct c.
Qed.
End RollbackTarget.

(** C6. Speculation leaves no trace: a checkpoint of a well-formed cache taken before a
    round of at most [window_size] tokens can always be taken, and rolling back restores
    the cache exactly -- every plane, scalar and revision -- whether the round stopped
    after any number [j] of layers or was committed (in which case
    [validate_completed_append] accepts it first). *)
Theorem rollback_restores c round t :
  cache_wf c -> round_ok c round t -> (1 <= t <= window_size c)%nat ->
  is_uint 64 (revision c) -> Forall (is_uint 64) (layer_revisions c) ->
  Z.of_nat (ctx_len c) + Z.of_nat t < 2 ^ 64 -> Z.of_nat (ctx_offset c) + Z.of_nat t < 2 ^ 64 ->
  exists ck, checkpoint_append c t = Ok ck /\
    (forall j, (j <= length round)%nat ->
       exists c1, append_layers c 0 (take j round) t = Ok c1 /\ rollback_append c1 ck = (c, Ok tt)) /\
    (exists c2, commit_round c round t = Ok c2 /\ validate_completed_append c2 ck = Ok tt /\
       rollback_append c2 ck = (c, Ok tt)).
Proof.
  intros Hwf Hround Ht Hrev Hrevs Hlen Hoff. exists (append_checkpoint c t).
  split; [by apply checkpoint_append_Ok; [|lia]|]. split.
  - intros j Hj. exists (partial c round t j). split; [by apply append_layers_partial|].
    by apply (rollback_settled c round t j false).
  - exists (settled c round t (length round) true). split; [|split].
    + pose proof Hwf as [Hw Fk Fv Lv Lr Hcap]. pose proof Hround as (L & _ & _).
      rewrite (commit_round_Ok c round (ctx_k c) (ctx_v c) (ctx_len c) t); try done;
        [|by rewrite map_keep_fits..].
      unfold settled, partial, with_planes. cbn.
      rewrite !take_ge, !drop_ge, !app_nil_r by lia. done.
    + unfold validate_completed_append. rewrite validate_settled by done. cbn.
      rewrite Z.eqb_refl, Nat.eqb_refl, checked_add_nat_Some by done. cbn.
      rewrite Nat.eqb_refl. cbn. pose proof Hwf as [_ _ _ _ Lr _]. pose proof Hround as (L & _ & _).
      rewrite take_ge, drop_ge, app_nil_r by lia.
      enough (forall rs, existsb (fun ab : Z * Z => negb (ab.1 =? bump ab.2)) (zip (map bump rs) rs) = false)
        as -> by done.
      induction rs as [|r rs IH]; [done|]. cbn. by rewrite Z.eqb_refl.
    + by apply (rollback_settled c round t (length round) true).
Qed.

(** ** Row addressing. *)

(** Row [i] of a plane. *)
Definition row (w : nat) p (i : nat) : list A := take w (drop (i * w) p).

Lemma row_retained w sink window h n i :
  (0 < w)%nat -> length h = (n * w)%nat -> (i < n `min` (sink + window))%nat ->
  row w (retained w sink window h) i =
  row w h (if (i <? sink)%nat then i else i + (n - (sink + window))).
Proof.
  intros Hw Hh Hi. unfold row. destruct (decide (n <= sink + window)%nat).
  - rewrite (retained_fits _ _ _ _ n) by done. case_match; f_equal; f_equal; nia.
  - rewrite (retained_over _ _ _ _ n) by (done || lia).
    assert (length (take (sink * w) h) = sink * w)%nat as Hs by (rewrite length_take; nia).
    rewrite drop_app, Hs. case_match; bool_prop.
    + rewrite take_app_le by (rewrite length_drop, Hs; nia).
      rewrite skipn_firstn_comm, take_take. f_equal. nia.
    + rewrite (drop_ge (take _ _)), app_nil_l, drop_drop by (rewrite Hs; nia). f_equal. f_equal. nia.
Qed.

Lemma mod_window_inj a b m : (a < b + m)%nat -> (b < a + m)%nat -> (a mod m = b mod m)%nat -> a = b.
Proof.
  intros Ha Hb E. pose proof (Nat.div_mod_eq a m) as Ea. pose proof (Nat.div_mod_eq b m) as Eb.
  rewrite E in Ea. assert (a / m = b / m)%nat as Eq; [|rewrite Eq in Ea; lia].
  assert (a / m < b / m + 1)%nat by nia. assert (b / m < a / m + 1)%nat by nia. lia.
Qed.

(** Logical rows, absolute positions and ring slots agree: on a represented cache every
    row [i < ctx_len] of every K plane is the history row at
    [retained_absolute_position i], its [physical_slot] lies inside the
    [sink_size + window_size] physical rows, and two different retained rows never share a
    slot. *)
Theorem retained_rows_addressable c hk hv n :
  represents c hk hv n -> (0 < window_size c)%nat ->
  exists abs : nat -> nat,
    (forall i, (i < ctx_len c)%nat ->
       retained_absolute_position c i = Ok (abs i) /\ (abs i < n)%nat /\
       (physical_slot c (abs i) < physical_capacity c)%nat /\
       forall l h, hk !! l = Some h ->
         exists p, layer_k c l = Some p /\ row (layout c) p i = row (layout c) h (abs i)) /\
    (forall i j, (i < ctx_len c)%nat -> (j < ctx_len c)%nat ->
       physical_slot c (abs i) = physical_slot c (abs j) -> i = j).
Proof.
  intros [Hw Ek Ev Fk Fv Lv Lr Hlen Hoff] Hwin.
  exists (fun i => if (i <? sink_size c)%nat then i else i + (n - (sink_size c + window_size c)))%nat.
  split.
  - intros i Hi. split; [|split; [|split]].
    + unfold retained_absolute_position. rewrite (proj2 (Nat.ltb_lt i _)), Hoff by done. cbn [negb].
      repeat case_match; bool_prop; f_equal; lia.
    + case_match; bool_prop; lia.
    + unfold physical_slot, physical_capacity. repeat case_match; bool_prop; try lia;
        match goal with |- context [(?a mod ?b)%nat] => pose proof (Nat.mod_upper_bound a b ltac:(lia)) end; lia.
    + intros l h Hl. exists (keep c h). unfold layer_k.
      rewrite Ek, list_lookup_fmap, Hl. split; [done|].
      apply row_retained; [done | by eapply Forall_lookup_1 in Fk | lia].
  - intros i j Hi Hj. unfold physical_slot. repeat case_match; bool_prop; try lia; intros E;
      try (match goal with E : context [(?a mod ?b)%nat] |- _ =>
             pose proof (Nat.mod_upper_bound a b ltac:(lia)) end; lia).
    apply Nat.add_cancel_l in E. apply mod_window_inj in E; lia.
Qed.

(** ** Snapshots. *)
Lemma snapshot_validates c hk hv n :
  represents c hk hv n -> (0 < n)%nat -> hk <> [] -> (0 < sink_size c)%nat -> (0 < window_size c)%nat ->
  Z.of_nat (ctx_len c) * Z.of_nat (layout c) < 2 ^ 64 ->
  snapshot_validate (snapshot c) = Ok tt.
Proof.
  intros [Hw Ek Ev Fk Fv Lv Lr Hlen Hoff] Hn Hl Hs Hwin H64. unfold snapshot_validate, snapshot.
  cbn [s_position s_elements_per_token s_layers s_sink_size s_window_size].
  assert (length hk <> 0)%nat by by destruct hk.
  rewrite length_zip_with, Hoff, Ek, Ev, !length_map, Lv, Nat.min_id, <- Hlen.
  rewrite !(proj2 (Nat.eqb_neq _ 0)) by lia. cbn [orb].
  unfold checked_mul_nat. rewrite (proj2 (Z.ltb_lt _ _)) by done. cbn [ok_or].
  apply Forall_keep_length in Fk, Fv; try done. rewrite <- Hlen in Fk, Fv.
  pose proof (forallb_plane_lengths _ _ _ Fk Fv) as Hall.
  case_match eqn:Hex; [|done]. apply existsb_exists in Hex as (kv & Hin & Hbad).
  apply forallb_forall with (x := kv) in Hall; [|done].
  apply andb_true_iff in Hall as [H1 H2]. by rewrite H1, H2 in Hbad.
Qed.

(** Two caches of one configuration. *)
Definition same_geometry c (d : DFlashContextKvCache A) : Prop :=
  geometry d = geometry c /\ length (layer_revisions d) = length (ctx_k d).

(** C8. Snapshot round trip: the snapshot of a cache that represents an [n]-row history
    validates, installs into any cache of the same geometry whatever that cache held, and
    the target then represents the same history under its own identity, with its revision
    moved so that device copies keyed by it are refreshed. *)
Theorem snapshot_install_roundtrip c (d : DFlashContextKvCache A) hk hv n :
  represents c hk hv n -> (0 < n)%nat -> hk <> [] -> (0 < sink_size c)%nat -> (0 < window_size c)%nat ->
  Z.of_nat (ctx_len c) * Z.of_nat (layout c) < 2 ^ 64 -> same_geometry c d ->
  is_uint 64 (revision d) ->
  exists d', install_snapshot d (snapshot c) = Ok d' /\ represents d' hk hv n /\
    ctx_k d' = ctx_k c /\ ctx_v d' = ctx_v c /\ identity d' = identity d /\
    revision d' <> revision d.
Proof.
  intros Hr Hn Hl Hs Hwin H64 [Hg Hlr] Hrev.
  pose proof (snapshot_validates c hk hv n Hr Hn Hl Hs Hwin H64) as Hval.
  destruct Hr as [Hw Ek Ev Fk Fv Lv Lr Hlen Hoff]. injection Hg as Gk Gw Gs Gwin.
  assert (zip_fst : (zip (ctx_k c) (ctx_v c)).*1 = ctx_k c)
    by (apply fst_zip; rewrite Ek, Ev, !length_map; lia).
  assert (zip_snd : (zip (ctx_k c) (ctx_v c)).*2 = ctx_v c)
    by (apply snd_zip; rewrite Ek, Ev, !length_map; lia).
  unfold install_snapshot, validate_snapshot_identity. rewrite Hval. cbn [result_map_err].
  unfold geometry. cbn [g_layers g_elements_per_token g_sink_size g_window_size].
  cbn [snapshot s_layers s_elements_per_token s_sink_size s_window_size s_position].
  assert (zlen (zip (ctx_k c) (ctx_v c)) = zlen (ctx_k c)) as ->
    by (unfold zlen; rewrite length_zip_with, Ek, Ev, !length_map; lia).
  rewrite Gk, Gw, Gs, Gwin, !Z.eqb_refl. cbn [negb].
  unfold zlen in Gk. apply Nat2Z.inj in Gk, Gw, Gs, Gwin. rewrite Ek, length_map in Gk.
  eexists. split; [reflexivity|]. rewrite zip_fst, zip_snd. cbn.
  split; [|split; [done|split; [done|split; [done|]]]].
  - split; cbn; rewrite ?length_map; try (done || congruence || lia); rewrite ?Gw, ?Gs, ?Gwin; done.
  - apply bump_neq in Hrev. by apply Z.eqb_neq in Hrev.
Qed.

(** ** Reachable caches. *)
Inductive cache_step : DFlashContextKvCache A -> DFlashContextKvCache A -> Prop :=
| step_round c c' round t :
    round_ok c round t -> commit_round c round t = Ok c' -> cache_step c c'
| step_rollback c c' ck : rollback_append c ck = (c', Ok tt) -> cache_step c c'
| step_gap c c' next : advance_prompt_gap c next = Ok c' -> cache_step c c'
| step_install c c' s : install_snapshot c s = Ok c' -> cache_step c c'.

Lemma plane_lengths_forallb (ks vs : list (list A)) m :
  length vs = length ks ->
  forallb (fun kv => (length kv.1 =? m)%nat && (length kv.2 =? m)%nat) (zip ks vs) = true ->
  Forall (fun p => length p = m) ks /\ Forall (fun p => length p = m) vs.
Proof.
  revert vs. induction ks as [|k ks IH]; intros [|v vs] L H; try done.
  simpl in H. apply andb_true_iff in H as [Hkv H]. bool_prop.
  destruct (IH vs) as [? ?]; [by injection L | done |]. split; constructor; done.
Qed.

Lemma rollback_planes_length appended insertion rows (ks vs ks' vs' : list (list A)) removed revs ck_revs :
  rollback_planes appended insertion rows ks vs removed revs ck_revs = Ok (ks', vs') ->
  length ks' = length ks /\ length vs' = length vs.
Proof.
  revert vs removed revs ck_revs ks' vs'.
  induction ks as [|k ks IH]; intros [|v vs] [|[rk rv] removed] revs ck_revs ks' vs' H;
    cbn in H; simplify_eq; try done.
  destruct revs as [|r revs], ck_revs as [|r0 ck_revs]; try done.
  ok_step H as [[k1 v1]|] E1. ok_step H as [[ks1 vs1]|] E2. simplify_eq.
  apply IH in E2 as [? ?]. simpl. lia.
Qed.

(** Any checkpoint a rollback accepts leaves a well-formed cache. *)
Lemma rollback_wf c c' ck : cache_wf c -> rollback_append c ck = (c', Ok tt) -> cache_wf c'.
Proof.
  intros [Hw Fk Fv Lv Lr Hlen] H. unfold rollback_append in H.
  destruct (validate_rollback_target c ck) as [[]|] eqn:Hval; [|done].
  destruct (rollback_planes _ _ _ _ _ _ _ _) as [[ks vs]|] eqn:Hp; [|done].
  apply rollback_planes_length in Hp as [L1 L2]. cbn in H.
  destruct (forallb _ _) eqn:Hall; [|done]. injection H as <-.
  apply plane_lengths_forallb in Hall as [F1 F2]; [|lia].
  unfold validate_rollback_target in Hval. do 2 (let E := fresh in ok_step Hval as [|] E).
  destruct (checked_add_nat _ _) as [rows|]; [|done]. cbn [ok_or] in Hval.
  ok_step Hval as [|] E. bool_prop. unfold physical_capacity in *.
  split; cbn; try done; lia.
Qed.

Lemma install_wf c c' s : cache_wf c -> install_snapshot c s = Ok c' -> cache_wf c'.
Proof.
  intros [Hw Fk Fv Lv Lr Hlen] H. unfold install_snapshot, validate_snapshot_identity in H.
  destruct (snapshot_validate s) as [[]|] eqn:Hval; [|done]. cbn [result_map_err geometry
    g_layers g_elements_per_token g_sink_size g_window_size] in H.
  ok_step H as [[]|] Hg. injection H as <-. inv_ok Hg. bool_prop. unfold zlen in *.
  repeat match goal with H : Z.of_nat _ = Z.of_nat _ |- _ => apply Nat2Z.inj in H end.
  unfold snapshot_validate in Hval. ok_step Hval as [|] E. unfold checked_mul_nat in Hval.
  destruct (_ <? 2 ^ 64); [|done]. cbn [ok_or] in Hval. ok_step Hval as [|] Ex.
  apply existsb_false_Forall in Ex.
  split; cbn; rewrite ?length_fmap, ?length_map; try (done || lia).
  all: apply Forall_fmap; (eapply Forall_impl; [exact Ex|]); intros kv Hkv; cbn in *; bool_prop;
    congruence.
Qed.

(** Every cache reachable from a new one by committed rounds, accepted rollbacks (of any
    checkpoint), prompt gaps and snapshot installs is well-formed: each plane of each layer
    holds exactly [ctx_len] rows and never more than [sink_size + window_size]. *)
Theorem reachable_cache_wf counter layers width sink window c0 counter' c :
  DFlashContextKvCache_new counter layers width sink window = Ok (c0, counter') ->
  rtc cache_step c0 c -> cache_wf c.
Proof.
  intros Hnew Hsteps. assert (cache_wf c0) as H0.
  { unfold DFlashContextKvCache_new, TokenLayout_new, next_context_cache_identity in Hnew.
    destruct (0 <? width)%nat eqn:?; [|done]. destruct (counter =? 0); [done|]. bool_prop.
    injection Hnew as <- _.
    split; cbn; rewrite ?length_replicate; try (done || lia); by apply Forall_replicate. }
  clear Hnew. induction Hsteps as [|c1 c2 c3 Hstep _ IH]; [done|]. apply IH.
  destruct Hstep as [c c' round t Hround H | c c' ck H | c c' next H | c c' s H].
  - pose proof H0 as [Hw Fk Fv Lv Lr Hlen]. pose proof Hround as (L & _ & Fr).
    rewrite (commit_round_Ok c round (ctx_k c) (ctx_v c) (ctx_len c) t) in H; try done;
      [|by rewrite map_keep_fits..].
    injection H as <-.
    destruct (extend_round (layout c) t (ctx_k c) (ctx_v c) round (ctx_len c)) as (L1 & F1 & L2 & F2);
      [done..|].
    apply Forall_keep_length in F1, F2; try done. split; cbn; rewrite ?length_map; try done; lia.
  - by eapply rollback_wf.
  - unfold advance_prompt_gap in H. case_match; [done|]. injection H as <-. by destruct H0.
  - by eapply install_wf.
Qed.
End Retention.

(** ** Concrete caches: one layer, rows of one element, sink 1, window 2. *)
Definition history_k : list (list Z) := [[10; 11; 12; 13; 14]].
Definition history_v : list (list Z) := [[20; 21; 22; 23; 24]].
Definition example_cache : DFlashContextKvCache Z :=
  mkCache [[10; 13; 14]] [[20; 23; 24]] 3 5 1 2 1 7 9 [4].
Definition example_round : list (list Z * list Z) := [([15; 16], [25; 26])].

Lemma example_represents : represents example_cache history_k history_v 5.
Proof. by repeat constructor. Qed.
Lemma example_wf : cache_wf example_cache.
Proof. by repeat constructor. Qed.
Lemma example_round_ok : round_ok example_cache example_round 2.
Proof. split; [done|split; [simpl; lia | by repeat constructor]]. Qed.

Lemma commit_round_refines_witness :
  exists c', commit_round example_cache example_round 2 = Ok c' /\
    represents c' (extend 1 2 history_k [[15; 16]]) (extend 1 2 history_v [[25; 26]]) 7.
Proof.
  exact (commit_round_refines example_cache history_k history_v 5 example_round 2
           example_represents example_round_ok).
Defined.

Lemma rollback_restores_witness :
  exists ck, checkpoint_append example_cache 2 = Ok ck /\
    (forall j, (j <= 1)%nat ->
       exists c1, append_layers example_cache 0 (take j example_round) 2 = Ok c1 /\
         rollback_append c1 ck = (example_cache, Ok tt)) /\
    (exists c2, commit_round example_cache example_round 2 = Ok c2 /\
       validate_completed_append c2 ck = Ok tt /\ rollback_append c2 ck = (example_cache, Ok tt)).
Proof.
  apply (rollback_restores example_cache example_round 2 example_wf example_round_ok);
    repeat constructor; done.
Defined.

Lemma retained_rows_addressable_witness :
  exists abs : nat -> nat,
    (forall i, (i < ctx_len example_cache)%nat ->
       retained_absolute_position example_cache i = Ok (abs i) /\ (abs i < 5)%nat /\
       (physical_slot example_cache (abs i) < physical_capacity example_cache)%nat /\
       forall l h, history_k !! l = Some h ->
         exists p, layer_k example_cache l = Some p /\ row 1 p i = row 1 h (abs i)) /\
    (forall i j, (i < ctx_len example_cache)%nat -> (j < ctx_len example_cache)%nat ->
       physical_slot example_cache (abs i) = physical_slot example_cache (abs j) -> i = j).
Proof.
  apply (retained_rows_addressable example_cache history_k history_v 5 example_represents).
  simpl; lia.
Defined.

Lemma snapshot_install_roundtrip_witness :
  let d := mkCache [[1]] [[2]] 1 1 1 2 1 8 0 [0] in
  exists d', install_snapshot d (snapshot example_cache) = Ok d' /\
    represents d' history_k history_v 5 /\
    ctx_k d' = ctx_k example_cache /\ ctx_v d' = ctx_v example_cache /\ identity d' = identity d /\
    revision d' <> revision d.
Proof.
  intros d. apply (snapshot_install_roundtrip example_cache d history_k history_v 5 example_represents);
    try (simpl; lia || done); by split.
Defined.

Lemma reachable_cache_wf_witness :
  exists c0 c : DFlashContextKvCache Z, DFlashContextKvCache_new 7 1 1 1 2 = Ok (c0, 8) /\
    ctx_len c = 3%nat /\ cache_wf c.
Proof.
  eexists _, _. split; [reflexivity|].
  assert (rtc cache_step (mkCache [[]] [[]] 0 0 1 2 1 7 0 [0] : DFlashContextKvCache Z)
            (mkCache [[10; 13; 14]] [[20; 23; 24]] 3 5 1 2 1 7 1 [1])) as Hsteps.
  { apply rtc_once, (step_round _ _ [([10; 11; 12; 13; 14], [20; 21; 22; 23; 24])] 5); [|reflexivity].
    split; [done|split; [simpl; lia | by repeat constructor]]. }
  split; [|by apply (reachable_cache_wf 7 1 1 1 2 _ 8 _ eq_refl Hsteps)]. done.
Defined.

(** [advance_prompt_gap] accepts a gap while the sink is still empty; the rows appended after
    it are then reported at the wrong absolute positions (row 0, written at position 10, as
    position 0), although the function is documented as valid only once the sink is filled. *)
Example prompt_gap_before_sink :
  let c := mkCache [[]] [[]] 0 0 1 2 1 7 0 [0] : DFlashContextKvCache Z in
  (c ← match advance_prompt_gap c 10 with Ok c => Some c | Err _ => None end;
   c ← match commit_round c [([15; 16], [25; 26])] 2 with Ok c => Some c | Err _ => None end;
   Some (ctx_offset c, layer_k c 0, retained_absolute_position c 0)) =
  Some (12%nat, Some [15; 16], Ok 0%nat).
Proof. reflexivity. Qed.

(** [DFlashContextGeometry::validate] adds the two spans unchecked: a geometry whose spans
    sum to 2^64 is accepted with a buffered limit of zero bytes. *)
Example geometry_validate_wraps :
  let g := mkGeometry 5 1024 64 (2 ^ 64 - 64) in
  geometry_validate g = Ok tt /\ buffered_byte_limit g = Ok 0.
Proof. by vm_compute. Qed.
