(* ===== verification/Schedule.v ===== *)
(** * The transfer schedule of a prefill handoff.

    Models [crates/muser-cluster/src/schedule.rs]: the ordered list of segments a
    producer sends for positions [prefix_cut, position) -- three SWA layer groups,
    the NoPE tiles, then the DFlash planes.  [None] is a refused request; the
    [expect]s of the source are [Err Panic].  The receiver side (HMAC, TLS, Metal
    install) is not modelled; [SegmentRoleV2] is the enum of the wire crate. *)
From S2P Require Import Prelude DFlashCache.

Inductive SegmentRoleV2 : Type :=
| NopeKey | NopeValue | SwaKey | SwaValue | NopeTile | SwaTile | DflashKey | DflashValue | Auxiliary.
#[global] Instance SegmentRoleV2_eq_dec : EqDecision SegmentRoleV2.
Proof. solve_decision. Defined.

Definition NOPE_LAYERS : list Z := [3; 7; 11; 15; 19; 23; 27; 31; 35; 39; 43; 47; 51].
Definition N_LAYERS : Z := 52.
Definition SWA_WINDOW : Z := 2048.
Definition NOPE_TILE : Z := 512.
Definition SWA_GROUP : nat := 13.
Definition PACKED_PLANES : Z := 26.
Definition PREFIX_CUT_ALIGN : Z := 256.

(** [a..b] over integers. *)
Definition range (a b : Z) : list Z := map (fun i => a + Z.of_nat i) (seq 0 (Z.to_nat (b - a))).

Definition swa_layers : list Z :=
  filter (fun layer => layer ∉ NOPE_LAYERS) (range 0 N_LAYERS).

Record SegmentIntent : Type := mkIntent {
  sequence : Z;
  component_id : string;
  role : SegmentRoleV2;
  layer : option Z;
  logical_start : Z;
  logical_count : Z;
  element_type : string;
  elements_per_token : Z;
}.

Record TransferSchedule : Type := mkSchedule {
  segments : list SegmentIntent;
  first_tile_complete_after_tokens : Z;
}.

(** [segments.push(..)] with [sequence: segments.len() as u32]. *)
Definition push (segs : list SegmentIntent) (component : string) (role : SegmentRoleV2)
    (layer : option Z) (start count : Z) (element_type : string) (elems : Z) : list SegmentIntent :=
  segs ++ [mkIntent (as_unsigned 32 (zlen segs)) component role layer start count element_type elems].

(** [(start..position).step_by(NOPE_TILE)] with the tile's length; one unit of fuel per tile. *)
Fixpoint tiles_from (fuel : nat) (start position : Z) : list (Z * Z) :=
  match fuel with
  | O => []
  | S fuel =>
      if start <? position
      then (start, Z.min (position - start) NOPE_TILE) :: tiles_from fuel (start + NOPE_TILE) position
      else []
  end.
Definition tiles (prefix_cut position : Z) : list (Z * Z) :=
  tiles_from (Z.to_nat (div_ceil (position - prefix_cut) NOPE_TILE)) prefix_cut position.

Section Span.
Context (position prefix_cut : Z) (ety : string).

Definition swa_start : Z := Z.max (saturating_sub position SWA_WINDOW) prefix_cut.

(** The loop over the tiles of one SWA group; [head] is [group[0]]. *)
Definition push_swa_tile (packed_elements head : Z) (segs : list SegmentIntent) (tile : Z * Z)
    : list SegmentIntent :=
  let (tile_start, count) := tile in
  let tile_end := tile_start + count in
  if tile_end <=? swa_start then segs
  else
    let chunk_start := Z.max tile_start swa_start in
    let chunk_count := tile_end - chunk_start in
    push segs "target" SwaTile (Some head) chunk_start chunk_count ety packed_elements.
Definition push_swa_group (packed_elements : Z) (ts : list (Z * Z)) (segs : list SegmentIntent)
    (group : list Z) : list SegmentIntent :=
  match group with
  | [] => segs
  | head :: _ => foldl (push_swa_tile packed_elements head) segs ts
  end.
Definition push_nope_tile (packed_elements : Z) (segs : list SegmentIntent) (tile : Z * Z)
    : list SegmentIntent :=
  push segs "target" NopeTile None tile.1 tile.2 ety packed_elements.

(** The DFlash planes of one layer and role. *)
Definition push_dflash_role (sink window elems layer : Z) (segs : list SegmentIntent)
    (role : SegmentRoleV2) : list SegmentIntent :=
  if position <=? wrapping_add 64 sink window
  then push segs "dflash" role (Some layer) 0 position "f32_le" elems
  else
    foldl (fun segs (sc : Z * Z) => push segs "dflash" role (Some layer) sc.1 sc.2 "f32_le" elems)
      segs [(0, sink); (position - window, window)].
Definition push_dflash (sink window elems : Z) (segs : list SegmentIntent) (layer : Z)
    : list SegmentIntent :=
  foldl (push_dflash_role sink window elems layer) segs [DflashKey; DflashValue].

(** [u32::try_from] and [u64::try_from] of a size. *)
Definition uint_try_from (w z : Z) : option Z := if z <? 2 ^ w then Some z else None.

Definition dflash_segments (g : DFlashContextGeometry) (segs : list SegmentIntent)
    : option (list SegmentIntent) :=
  match geometry_validate g with
  | Err _ => None
  | Ok _ =>
      layers ← uint_try_from 32 (g_layers g);
      sink ← uint_try_from 64 (g_sink_size g);
      window ← uint_try_from 64 (g_window_size g);
      elems ← uint_try_from 32 (g_elements_per_token g);
      Some (foldl (push_dflash sink window elems) segs (range 0 layers))
  end.

Definition muse_schedule_span_for (dflash_geometry : option DFlashContextGeometry) (ept : Z)
    : result dflash_error (option TransferSchedule) :=
  if (position =? 0) || (position <=? prefix_cut) || negb (is_multiple_of prefix_cut PREFIX_CUT_ALIGN)
  then Ok None
  else
    match checked_mul 32 ept PACKED_PLANES with
    | None => Err Panic
    | Some packed_elements =>
        let ts := tiles prefix_cut position in
        let segs := foldl (push_swa_group packed_elements ts) [] (chunks SWA_GROUP swa_layers) in
        let segs := foldl (push_nope_tile packed_elements) segs ts in
        let finish segs :=
          Some (mkSchedule segs (Z.min (saturating_add 64 prefix_cut NOPE_TILE) position)) in
        Ok (match dflash_geometry with
            | None => finish segs
            | Some g => segs ← dflash_segments g segs; finish segs
            end)
    end.
End Span.

Definition muse_schedule_span (position prefix_cut : Z) (g : option DFlashContextGeometry)
    : result dflash_error (option TransferSchedule) :=
  muse_schedule_span_for position prefix_cut "f16_le" g 256.

Definition muse_schedule_for (position : Z) (g : option DFlashContextGeometry)
    (element_type : string) (ept : Z) : result dflash_error TransferSchedule :=
  let? s := muse_schedule_span_for position 0 element_type g ept in
  ok_or s Panic.

Definition muse_schedule (position : Z) (g : option DFlashContextGeometry)
    : result dflash_error TransferSchedule :=
  muse_schedule_for position g "f16_le" 256.

(** ** Reading a schedule: the ranges it sends for one role and layer. *)
Definition same_plane (r r' : SegmentRoleV2) (l l' : option Z) : bool :=
  bool_decide (r = r') && bool_decide (l = l').
Definition sends (r : SegmentRoleV2) (l : option Z) (s : SegmentIntent) : bool :=
  same_plane (role s) r (layer s) l.
Definition ranges (r : SegmentRoleV2) (l : option Z) (segs : list SegmentIntent) : list (Z * Z) :=
  map (fun s => (logical_start s, logical_count s)) (List.filter (sends r l) segs).

(** Consecutive nonempty ranges of at most a tile from [a] to [b]. *)
Fixpoint chain (a b : Z) (l : list (Z * Z)) : Prop :=
  match l with
  | [] => a = b
  | (s, c) :: l => s = a /\ 0 < c <= NOPE_TILE /\ chain (a + c) b l
  end.

Definition numbered (segs : list SegmentIntent) : Prop :=
  map sequence segs = map (fun i => as_unsigned 32 (Z.of_nat i)) (seq 0 (length segs)).

Lemma ranges_app r l a b : ranges r l (a ++ b) = ranges r l a ++ ranges r l b.
Proof. unfold ranges. by rewrite List.filter_app, map_app. Qed.

Lemma ranges_push r l segs comp role layer start count e n :
  ranges r l (push segs comp role layer start count e n) =
  ranges r l segs ++ (if same_plane role r layer l then [(start, count)] else []).
Proof. unfold push. rewrite ranges_app. f_equal. unfold ranges, sends. cbn. by case_match. Qed.

Lemma numbered_push segs comp role layer start count e n :
  numbered segs -> numbered (push segs comp role layer start count e n).
Proof.
  unfold numbered, push. intros H.
  rewrite map_app, H, length_app, seq_app, map_app. cbn. done.
Qed.

(** A loop whose body appends the ranges of its element, or keeps an invariant. *)
Lemma foldl_ranges {X} r l (f : list SegmentIntent -> X -> list SegmentIntent) (g : X -> list (Z * Z)) xs segs :
  (forall segs x, ranges r l (f segs x) = ranges r l segs ++ g x) ->
  ranges r l (foldl f segs xs) = ranges r l segs ++ mjoin (map g xs).
Proof.
  intros Hf. revert segs. induction xs as [|x xs IH]; intros segs; cbn [foldl map].
  - by rewrite mjoin_nil, app_nil_r.
  - by rewrite IH, Hf, mjoin_cons, app_assoc.
Qed.

Lemma foldl_invariant {S X} (P : S -> Prop) (f : S -> X -> S) xs s :
  (forall s x, P s -> P (f s x)) -> P s -> P (foldl f s xs).
Proof. intros Hf. revert s. induction xs as [|x xs IH]; simpl; auto. Qed.

(** ** The loops. *)
Definition clip (start : Z) (tile : Z * Z) : list (Z * Z) :=
  if tile.1 + tile.2 <=? start then []
  else [(Z.max tile.1 start, tile.1 + tile.2 - Z.max tile.1 start)].

Lemma tiles_chain start position fuel :
  start <= position -> div_ceil (position - start) NOPE_TILE <= Z.of_nat fuel ->
  chain start position (tiles_from fuel start position).
Proof.
  unfold div_ceil, NOPE_TILE. revert start.
  induction fuel as [|fuel IH]; intros start Hle Hfuel; cbn [tiles_from chain].
  - pose proof (Z.div_mod (position - start + 512 - 1) 512 ltac:(lia)).
    pose proof (Z.mod_pos_bound (position - start + 512 - 1) 512 ltac:(lia)). lia.
  - unfold NOPE_TILE. destruct (start <? position) eqn:E; bool_prop; [|cbn; lia].
    cbn [chain]. split; [done|]. split; [unfold NOPE_TILE; lia|].
    destruct (decide (position - start <= 512)).
    + rewrite Z.min_l by lia. replace (start + (position - start)) with position by lia.
      destruct fuel; cbn; [done|]. by rewrite (proj2 (Z.ltb_ge _ _)) by lia.
    + rewrite Z.min_r by lia. apply IH; [lia|].
      replace (position - start + 512 - 1) with ((position - (start + 512) + 512 - 1) + 1 * 512) in Hfuel by lia.
      rewrite Z.div_add in Hfuel by lia. lia.
Qed.

Lemma clip_past a b s l : chain a b l -> s <= a -> mjoin (map (clip s) l) = l.
Proof.
  revert a. induction l as [|[x c] l IH]; intros a; cbn [chain map]; [done|].
  intros (-> & Hc & Hl) Ha. rewrite mjoin_cons. unfold clip at 1. cbn [fst snd].
  rewrite (proj2 (Z.leb_gt _ _)), Z.max_l by lia. cbn [app]. f_equal; [f_equal; lia|].
  apply (IH (a + c)); [done | lia].
Qed.

Lemma chain_clip a b s l :
  chain a b l -> a <= s -> s < b -> chain s b (mjoin (map (clip s) l)).
Proof.
  revert a. induction l as [|[x c] l IH]; intros a; cbn [chain map]; [lia|].
  intros (-> & Hc & Hl) Ha Hb. rewrite mjoin_cons. unfold clip at 1. cbn [fst snd].
  destruct (_ <=? _) eqn:E; bool_prop.
  - rewrite app_nil_l. by apply (IH (a + c)).
  - cbn [app chain]. rewrite Z.max_r by lia. split; [done|]. split; [lia|].
    replace (s + (a + c - s)) with (a + c) by lia. by rewrite (clip_past (a + c) b) by (done || lia).
Qed.

Section SpanSpec.
Context (position prefix_cut : Z) (ety : string) (pe : Z).
Implicit Types (segs : list SegmentIntent).

Lemma push_swa_tile_ranges r l head segs tile :
  ranges r l (push_swa_tile position prefix_cut ety pe head segs tile) =
  ranges r l segs ++ (if same_plane SwaTile r (Some head) l
                      then clip (swa_start position prefix_cut) tile else []).
Proof.
  destruct tile as [x c]. unfold push_swa_tile, clip. cbn [fst snd].
  case_match; [by case_match; rewrite app_nil_r|]. by rewrite ranges_push.
Qed.

Lemma mjoin_map_if {X Y} (b : bool) (f : X -> list Y) xs :
  mjoin (map (fun x => if b then f x else []) xs) = if b then mjoin (map f xs) else [].
Proof.
  destruct b; [done|]. induction xs as [|x xs IH]; [done|]. cbn [map]. by rewrite mjoin_cons, IH.
Qed.

(** The three groups: layers 0.., 17.. and 34... *)
Lemma swa_groups_ranges r l ts segs :
  ranges r l (foldl (push_swa_group position prefix_cut ety pe ts) segs (chunks SWA_GROUP swa_layers)) =
  ranges r l segs ++
  mjoin (map (fun head => if same_plane SwaTile r (Some head) l
                          then mjoin (map (clip (swa_start position prefix_cut)) ts) else [])
           [0; 17; 34]).
Proof.
  rewrite (foldl_ranges r l _ (fun group => match group with [] => [] | head :: _ =>
    if same_plane SwaTile r (Some head) l
    then mjoin (map (clip (swa_start position prefix_cut)) ts) else [] end)).
  - f_equal.
  - intros segs' [|head group]; cbn [push_swa_group]; [by rewrite app_nil_r|].
    rewrite (foldl_ranges r l _ (fun tile => if same_plane SwaTile r (Some head) l
      then clip (swa_start position prefix_cut) tile else [])).
    + by rewrite mjoin_map_if.
    + intros. apply push_swa_tile_ranges.
Qed.

Lemma nope_ranges r l ts segs :
  ranges r l (foldl (push_nope_tile ety pe) segs ts) =
  ranges r l segs ++ (if same_plane NopeTile r None l then ts else []).
Proof.
  rewrite (foldl_ranges r l _ (fun tile => if same_plane NopeTile r None l
             then [tile] else [])).
  - rewrite mjoin_map_if. f_equal. destruct (same_plane _ _ _ _); [|done].
    induction ts as [|t ts IH]; [done|]. cbn [map]. by rewrite mjoin_cons, IH.
  - intros segs' [x c]. unfold push_nope_tile. by rewrite ranges_push.
Qed.

(** The ranges of the two DFlash planes of a layer: the retained rows of [position]. *)
Definition dflash_ranges (sink window : Z) : list (Z * Z) :=
  if position <=? sink + window then [(0, position)] else [(0, sink); (position - window, window)].

Definition is_dflash (r : SegmentRoleV2) : bool :=
  match r with DflashKey | DflashValue => true | _ => false end.

Lemma push_dflash_ranges r l sink window elems segs layer :
  0 <= sink -> 0 <= window -> sink + window < 2 ^ 64 ->
  ranges r l (push_dflash position sink window elems segs layer) =
  ranges r l segs ++ (if is_dflash r && bool_decide (Some layer = l)
                      then dflash_ranges sink window else []).
Proof.
  intros Hs Hw H64. unfold push_dflash, push_dflash_role, dflash_ranges, wrapping_add. cbn [foldl].
  rewrite Z.mod_small by lia. destruct (position <=? sink + window); cbn [fst snd];
    rewrite ?ranges_push, <- ?app_assoc; f_equal; unfold same_plane;
    destruct (bool_decide (Some layer = l)); rewrite ?andb_false_r, ?andb_true_r; try done;
    destruct r; done.
Qed.
End SpanSpec.

Lemma in_range a b x : x ∈ range a b <-> a <= x < b.
Proof.
  unfold range. rewrite list_elem_of_fmap. split.
  - intros (i & -> & Hi%elem_of_seq). lia.
  - intros H. exists (Z.to_nat (x - a)). rewrite elem_of_seq. lia.
Qed.
Lemma NoDup_range a b : NoDup (range a b).
Proof. unfold range. apply NoDup_fmap_2_strong; [intros; lia | apply NoDup_seq]. Qed.

Lemma mjoin_select {Y} (x : Z) (v : list Y) xs :
  NoDup xs ->
  mjoin (map (fun y => if bool_decide (Some y = Some x) then v else []) xs) =
  if bool_decide (x ∈ xs) then v else [].
Proof.
  induction 1 as [|y xs Hy Hnd IH]; [done|]. cbn [map]. rewrite mjoin_cons, IH.
  destruct (decide (y = x)) as [->|Hne].
  - rewrite bool_decide_true, (bool_decide_false (x ∈ xs)), bool_decide_true by (done || set_solver).
    by rewrite app_nil_r.
  - rewrite bool_decide_false by congruence. rewrite app_nil_l.
    rewrite (bool_decide_ext (x ∈ y :: xs) (x ∈ xs)); [done|]. rewrite elem_of_cons. naive_solver.
Qed.

(** A loop only appends, and what it appends satisfies [P]. *)
Definition appends (P : SegmentIntent -> Prop) (segs segs' : list SegmentIntent) : Prop :=
  exists new, segs' = segs ++ new /\ Forall P new.
#[global] Instance appends_preorder P : PreOrder (appends P).
Proof.
  split.
  - intros segs. exists []. by rewrite app_nil_r.
  - intros a b c (n1 & -> & F1) (n2 & -> & F2). exists (n1 ++ n2). rewrite app_assoc.
    split; [done | by apply Forall_app].
Qed.
Lemma appends_push (P : SegmentIntent -> Prop) segs comp role layer start count e n :
  (forall q, P (mkIntent q comp role layer start count e n)) ->
  appends P segs (push segs comp role layer start count e n).
Proof. intros HP. eexists. split; [done|]. by constructor. Qed.
Lemma foldl_appends {X} P (f : list SegmentIntent -> X -> list SegmentIntent) xs segs :
  (forall segs x, appends P segs (f segs x)) -> appends P segs (foldl f segs xs).
Proof.
  intros Hf. apply (foldl_invariant (appends P segs)); [|done]. intros. by etrans.
Qed.

Section Schedule.
Context (position prefix_cut : Z) (ety : string) (ept : Z).
Context (Hspan : 0 <= prefix_cut < position) (Halign : prefix_cut mod 256 = 0).
Context (Hept : ept * 26 < 2 ^ 32).

(** What a geometry must satisfy to be scheduled, as the function checks it. *)
Definition geometry_ok (g : option DFlashContextGeometry) : Prop :=
  match g with
  | None => True
  | Some g => geometry_validate g = Ok tt /\ is_uint 32 (g_layers g) /\
      is_uint 32 (g_elements_per_token g) /\ 0 <= g_sink_size g /\ 0 <= g_window_size g /\
      g_sink_size g + g_window_size g < 2 ^ 64
  end.

Definition swa_segments : list SegmentIntent :=
  foldl (push_swa_group position prefix_cut ety (ept * 26) (tiles prefix_cut position)) []
    (chunks SWA_GROUP swa_layers).
Definition target_segments : list SegmentIntent :=
  foldl (push_nope_tile ety (ept * 26)) swa_segments (tiles prefix_cut position).
Definition all_segments (g : option DFlashContextGeometry) : list SegmentIntent :=
  match g with
  | None => target_segments
  | Some g =>
      foldl (push_dflash position (g_sink_size g) (g_window_size g) (g_elements_per_token g))
        target_segments (range 0 (g_layers g))
  end.

Lemma schedule_Ok g :
  geometry_ok g ->
  muse_schedule_span_for position prefix_cut ety g ept =
  Ok (Some (mkSchedule (all_segments g) (Z.min (saturating_add 64 prefix_cut 512) position))).
Proof using Hspan Halign Hept.
  intros Hg. unfold muse_schedule_span_for.
  rewrite (proj2 (Z.eqb_neq _ _)), (proj2 (Z.leb_gt _ _)) by lia.
  unfold is_multiple_of, PREFIX_CUT_ALIGN, checked_mul, PACKED_PLANES. cbn [Z.eqb].
  rewrite Halign, (proj2 (Z.ltb_lt _ _)) by done. cbn [orb negb].
  destruct g as [g|]; [|done]. destruct Hg as (Hv & Hl & He & Hs & Hw & Hsum).
  unfold dflash_segments, uint_try_from. rewrite Hv. unfold is_uint in *.
  by rewrite !(proj2 (Z.ltb_lt _ _)) by lia.
Qed.

Lemma target_ranges r l :
  ranges r l target_segments =
  mjoin (map (fun head => if same_plane SwaTile r (Some head) l
                then mjoin (map (clip (swa_start position prefix_cut)) (tiles prefix_cut position))
                else []) [0; 17; 34]) ++
  (if same_plane NopeTile r None l then tiles prefix_cut position else []).
Proof. unfold target_segments, swa_segments. by rewrite nope_ranges, swa_groups_ranges. Qed.

Lemma all_ranges g r l :
  geometry_ok g ->
  ranges r l (all_segments g) =
  ranges r l target_segments ++
  match g, l with
  | Some g, Some layer => if is_dflash r && bool_decide (layer ∈ range 0 (g_layers g))
                          then dflash_ranges position (g_sink_size g) (g_window_size g) else []
  | _, _ => []
  end.
Proof.
  destruct g as [g|]; intros Hg; cbn [all_segments]; [|by rewrite app_nil_r].
  destruct Hg as (Hv & Hl & He & Hs & Hw & Hsum).
  erewrite foldl_ranges; [|intros; by apply push_dflash_ranges]. f_equal.
  destruct l as [l|], (is_dflash r); cbn [andb]; try by rewrite (mjoin_map_if false (fun _ => [])).
  - apply (mjoin_select l), NoDup_range.
  - induction (range 0 (g_layers g)) as [|x xs IH]; [done|]. cbn [map]. by rewrite mjoin_cons, IH.
Qed.

Lemma numbered_schedule g : numbered (all_segments g).
Proof.
  assert (numbered target_segments) as Ht.
  { unfold target_segments, swa_segments. apply (foldl_invariant numbered);
      [intros; by apply numbered_push|]. apply (foldl_invariant numbered); [|done].
    intros segs [|head group] Hn; [done|]. apply (foldl_invariant numbered); [|done].
    intros segs' [x c] Hn'. unfold push_swa_tile. case_match; [done | by apply numbered_push]. }
  destruct g as [g|]; [|done]. apply (foldl_invariant numbered); [|done].
  intros segs layer Hn. unfold push_dflash. apply (foldl_invariant numbered); [|done].
  intros segs' role Hn'. unfold push_dflash_role.
  case_match; [by apply numbered_push|].
  apply (foldl_invariant numbered); [|done]. intros; by apply numbered_push.
Qed.

Lemma schedule_order g :
  exists swa nope dflash, all_segments g = swa ++ nope ++ dflash /\
    Forall (fun s => role s = SwaTile) swa /\ Forall (fun s => role s = NopeTile) nope /\
    Forall (fun s => is_dflash (role s) = true) dflash.
Proof.
  assert (appends (fun s => role s = SwaTile) [] swa_segments) as (swa & Eswa & Fswa).
  { apply foldl_appends. intros segs [|head group]; [done|]. apply foldl_appends.
    intros segs' [x c]. unfold push_swa_tile. case_match; [done | by apply appends_push]. }
  assert (appends (fun s => role s = NopeTile) swa_segments target_segments) as (nope & Enope & Fnope).
  { apply foldl_appends. intros. by apply appends_push. }
  assert (appends (fun s => is_dflash (role s) = true) target_segments (all_segments g))
    as (df & Edf & Fdf).
  { destruct g as [g|]; [|done]. apply foldl_appends. intros segs layer. unfold push_dflash.
    assert (forall segs r, is_dflash r = true -> appends (fun s => is_dflash (role s) = true) segs
      (push_dflash_role position (g_sink_size g) (g_window_size g) (g_elements_per_token g) layer segs r))
      as Hrole.
    { intros segs' r Hr. unfold push_dflash_role. case_match; [by apply appends_push|].
      apply foldl_appends. intros. by apply appends_push. }
    cbn [foldl]. etrans; by apply Hrole. }
  exists swa, nope, df. by rewrite Edf, Enope, Eswa, <- app_assoc.
Qed.
End Schedule.

(** C10. Delta-handoff coverage: for every aligned cut below the position (and no DFlash or an
    admissible geometry) the schedule exists, and a receiver that holds [0, prefix_cut) gets
    exactly the rest: the NoPE tiles are consecutive, nonempty, at most 512 tokens long and
    run from the cut to the position; each of the three SWA groups is tiled the same way over
    the part of the last 2048 tokens that follows the cut; segments are numbered
    0, 1, 2, ... (as u32) in send order, SWA groups first, then NoPE, then DFlash. *)
Theorem schedule_covers_suffix position prefix_cut ety ept g :
  0 <= prefix_cut < position -> prefix_cut mod 256 = 0 -> ept * 26 < 2 ^ 32 -> geometry_ok g ->
  exists s, muse_schedule_span_for position prefix_cut ety g ept = Ok (Some s) /\
    chain prefix_cut position (ranges NopeTile None (segments s)) /\
    (forall head, head ∈ [0; 17; 34] ->
       chain (Z.max prefix_cut (position - 2048)) position (ranges SwaTile (Some head) (segments s))) /\
    numbered (segments s) /\
    exists swa nope dflash, segments s = swa ++ nope ++ dflash /\
      Forall (fun s => role s = SwaTile) swa /\ Forall (fun s => role s = NopeTile) nope /\
      Forall (fun s => is_dflash (role s) = true) dflash.
Proof.
  intros Hspan Halign Hept Hg. eexists. split; [by apply schedule_Ok|]. cbn [segments].
  assert (chain prefix_cut position (tiles prefix_cut position)) as Htiles.
  { apply tiles_chain; [lia|]. unfold div_ceil, NOPE_TILE.
    pose proof (Z.div_pos (position - prefix_cut + 512 - 1) 512 ltac:(lia) ltac:(lia)). lia. }
  split; [|split; [|split; [apply numbered_schedule | apply schedule_order]]].
  - rewrite all_ranges, target_ranges by done. cbn. by destruct g; rewrite app_nil_r.
  - intros head Hhead. rewrite all_ranges, target_ranges by done. cbn [is_dflash andb].
    replace (match g with Some _ => _ | None => [] end) with (@nil (Z * Z)) by by destruct g.
    rewrite app_nil_r. replace (Z.max prefix_cut (position - 2048)) with (swa_start position prefix_cut)
      by (unfold swa_start, saturating_sub, SWA_WINDOW; lia).
    assert (chain (swa_start position prefix_cut) position
      (mjoin (map (clip (swa_start position prefix_cut)) (tiles prefix_cut position)))) as Hchain.
    { apply (chain_clip prefix_cut); [done|..]; unfold swa_start, saturating_sub, SWA_WINDOW; lia. }
    apply list_elem_of_In in Hhead. cbn in Hhead.
    destruct Hhead as [<-|[<-|[<-|[]]]]; cbn [map]; unfold same_plane; cbn; by rewrite !app_nil_r.
Qed.

(** The DFlash planes are sent exactly where the context cache retains them: for every
    DFlash layer and each of K and V, a position is inside a sent range iff it is one of the
    first [sink_size] or of the last [window_size] positions, and the ranges hold
    [min(position, sink_size + window_size)] rows in all, so none is sent twice. *)
Theorem dflash_ranges_are_retained position prefix_cut ety ept g layer r :
  0 <= prefix_cut < position -> prefix_cut mod 256 = 0 -> ept * 26 < 2 ^ 32 ->
  geometry_ok (Some g) -> 0 <= layer < g_layers g -> is_dflash r = true ->
  exists s, muse_schedule_span_for position prefix_cut ety (Some g) ept = Ok (Some s) /\
    (forall x, 0 <= x < position ->
       ((exists sc, sc ∈ ranges r (Some layer) (segments s) /\ sc.1 <= x < sc.1 + sc.2) <->
        x < g_sink_size g \/ position - g_window_size g <= x)) /\
    foldr (fun sc n => sc.2 + n) 0 (ranges r (Some layer) (segments s)) =
      Z.min position (g_sink_size g + g_window_size g).
Proof.
  intros Hspan Halign Hept Hg Hlayer Hr. pose proof Hg as (_ & _ & _ & Hs & Hw & _).
  eexists. split; [by apply schedule_Ok|]. cbn [segments].
  assert (ranges r (Some layer) (all_segments position prefix_cut ety ept (Some g)) =
          dflash_ranges position (g_sink_size g) (g_window_size g)) as ->.
  { rewrite all_ranges, target_ranges, Hr by done. rewrite bool_decide_true by by apply in_range.
    by destruct r. }
  unfold dflash_ranges. destruct (_ <=? _) eqn:E; bool_prop.
  - split; [|cbn; lia]. intros x Hx. split; [lia|]. intros _. exists (0, position).
    split; [by apply list_elem_of_singleton | cbn; lia].
  - split; [|cbn; lia]. intros x Hx. split.
    + intros (sc & Hin & Hsc). apply list_elem_of_In in Hin. cbn in Hin.
      destruct Hin as [<-|[<-|[]]]; cbn in Hsc; lia.
    + intros [H|H]; [exists (0, g_sink_size g) | exists (position - g_window_size g, g_window_size g)];
        (split; [apply list_elem_of_In; cbn; tauto | cbn; lia]).
Qed.


(** ** Concrete schedules. *)
Definition example_geometry : DFlashContextGeometry := mkGeometry 5 1024 64 2048.
Lemma example_geometry_ok : geometry_ok (Some example_geometry).
Proof. by vm_compute. Qed.

Lemma schedule_covers_suffix_witness :
  exists s, muse_schedule_span_for 2561 256 "f16_le" (Some example_geometry) 256 = Ok (Some s) /\
    chain 256 2561 (ranges NopeTile None (segments s)) /\
    (forall head, head ∈ [0; 17; 34] -> chain 513 2561 (ranges SwaTile (Some head) (segments s))) /\
    numbered (segments s) /\
    exists swa nope dflash, segments s = swa ++ nope ++ dflash /\
      Forall (fun s => role s = SwaTile) swa /\ Forall (fun s => role s = NopeTile) nope /\
      Forall (fun s => is_dflash (role s) = true) dflash.
Proof.
  apply (schedule_covers_suffix 2561 256 "f16_le" 256 (Some example_geometry));
    [lia | done | lia | exact example_geometry_ok].
Defined.

Lemma dflash_ranges_are_retained_witness :
  exists s, muse_schedule_span_for 2561 256 "f16_le" (Some example_geometry) 256 = Ok (Some s) /\
    (forall x, 0 <= x < 2561 ->
       ((exists sc, sc ∈ ranges DflashKey (Some 4) (segments s) /\ sc.1 <= x < sc.1 + sc.2) <->
        x < 64 \/ 2561 - 2048 <= x)) /\
    foldr (fun sc n => sc.2 + n) 0 (ranges DflashKey (Some 4) (segments s)) = Z.min 2561 (64 + 2048).
Proof.
  apply (dflash_ranges_are_retained 2561 256 "f16_le" 256 example_geometry 4 DflashKey);
    try exact example_geometry_ok; try done; simpl; lia.
Defined.


(** The send order the module implements: no NoPE tile precedes the first SWA tile, although
    [muse_schedule] is documented as sending the complete NoPE tiles first. *)
Example schedule_sends_swa_first :
  match muse_schedule 2561 None with
  | Ok s => map role (take 1 (segments s)) = [SwaTile] /\
            map role (drop 15 (segments s)) = replicate 6 NopeTile
  | Err _ => False
  end.
Proof. by vm_compute. Qed.
