(* ===== verification/Stream.v ===== *)
(** * Bounded resumable streams.

    Models [crates/muser-server/src/resumable_stream.rs].  A session keeps the last
    [MAX_STREAM_BYTES] bytes of a stream and the number of bytes dropped before them;
    readers resume from a byte offset.  Sessions are shared ([Arc]): the manager maps
    conversation ids to addresses in a heap, so a writer that still holds a replaced
    session sees its cancellation.  Every method runs under a mutex and is one step;
    wall-clock readings are arguments, in the order the code takes them. *)
From S2P Require Import Prelude.

Definition MAX_STREAM_BYTES : Z := 4 * 1024 * 1024.
Definition COMPLETED_TTL : Z := 300.

Record Inner : Type := mkInner {
  bytes : list byte;
  dropped : Z;
  total : Z;
  done_ : bool;
  cancelled : bool;
  completed_at : Z;
}.

Record StreamSession : Type := mkSession {
  id : string;
  started_at : Z;
  inner : Inner;
}.

Record StreamView : Type := mkView {
  conversation_id : string;
  is_done : bool;
  total_bytes : Z;
  view_started_at : Z;
  view_completed_at : Z;
}.

Inductive ReadSnapshot : Type :=
| Lost
| Data (bs : list byte)
| Pending
| Done.

(** ** One session. *)
Definition append (i : Inner) (bs : list byte) : bool * Inner :=
  match bs with
  | [] => (true, i)
  | _ =>
      if done_ i || cancelled i then (false, i)
      else
        let total := saturating_add 64 (total i) (zlen bs) in
        if MAX_STREAM_BYTES <=? zlen bs then
          (true, mkInner (drop (Z.to_nat (zlen bs - MAX_STREAM_BYTES)) bs) (total - MAX_STREAM_BYTES)
                   total (done_ i) (cancelled i) (completed_at i))
        else
          let excess := saturating_sub (saturating_add 64 (zlen (bytes i)) (zlen bs)) MAX_STREAM_BYTES in
          (true, mkInner (drop (Z.to_nat excess) (bytes i) ++ bs) (saturating_add 64 (dropped i) excess)
                   total (done_ i) (cancelled i) (completed_at i))
  end.

Definition finish (now : Z) (i : Inner) : Inner :=
  if done_ i then i else mkInner (bytes i) (dropped i) (total i) true (cancelled i) now.

Definition cancel (now : Z) (i : Inner) : Inner :=
  mkInner (bytes i) (dropped i) (total i) true true now.

Definition is_cancelled (i : Inner) : bool := cancelled i.

Definition snapshot (i : Inner) (offset : Z) : ReadSnapshot :=
  if offset <? dropped i then Lost
  else if offset <? dropped i + zlen (bytes i) then Data (drop (Z.to_nat (offset - dropped i)) (bytes i))
  else if done_ i then Done
  else Pending.

Definition view (s : StreamSession) : StreamView :=
  mkView (id s) (done_ (inner s)) (total (inner s)) (started_at s) (completed_at (inner s)).

Definition set_inner (s : StreamSession) (i : Inner) : StreamSession :=
  mkSession (id s) (started_at s) i.

(** ** The manager: ids to shared sessions. *)
Record StreamManager : Type := mkManager {
  heap : gmap nat StreamSession;
  next_address : nat;
  sessions : gmap string nat;
}.

Definition empty_manager : StreamManager := mkManager ∅ 0 ∅.

(** A method called on the session at an address. *)
Definition on_session (f : Inner -> Inner) (a : nat) (m : StreamManager) : StreamManager :=
  mkManager (alter (fun s => set_inner s (f (inner s))) a (heap m)) (next_address m) (sessions m).

Definition session_append (m : StreamManager) (a : nat) (bs : list byte) : bool * StreamManager :=
  match heap m !! a with
  | None => (false, m)
  | Some s => ((append (inner s) bs).1, on_session (fun i => (append i bs).2) a m)
  end.

Definition kept (m : StreamManager) (cutoff : Z) (a : nat) : bool :=
  match heap m !! a with
  | None => true
  | Some s => (completed_at (inner s) =? 0) || (cutoff <? completed_at (inner s))
  end.

Definition gc (now : Z) (m : StreamManager) : StreamManager :=
  let cutoff := saturating_sub now COMPLETED_TTL in
  mkManager (heap m) (next_address m)
    (filter (fun entry : string * nat => kept m cutoff entry.2 = true) (sessions m)).

Definition create_or_replace (t_gc t_start t_cancel : Z) (id : string) (m : StreamManager)
    : nat * StreamManager :=
  let m := gc t_gc m in
  let a := next_address m in
  let fresh := mkSession id t_start (mkInner [] 0 0 false false 0) in
  let previous := sessions m !! id in
  let m := mkManager (<[a := fresh]> (heap m)) (S a) (<[id := a]> (sessions m)) in
  (a, match previous with Some p => on_session (cancel t_cancel) p m | None => m end).

Definition get (now : Z) (id : string) (m : StreamManager) : option nat * StreamManager :=
  let m := gc now m in (sessions m !! id, m).

(** [session.id == *requested || session.id.starts_with(&format!("{requested}::"))]. *)
Definition answers (requested : string) (s : StreamSession) : bool :=
  String.eqb (id s) requested || String.prefix (requested +:+ "::") (id s).

Definition push_view (views : list StreamView) (v : StreamView) : list StreamView :=
  if existsb (fun existing => String.eqb (conversation_id existing) (conversation_id v)) views
  then views else views ++ [v].

(** The inner loop of [lookup] over [sessions.values()], in some order. *)
Definition collect_views (values : list StreamSession) (views : list StreamView) (requested : string)
    : list StreamView :=
  foldl (fun views s => if answers requested s then push_view views (view s) else views) views values.

Definition view_le (a b : StreamView) : Prop := string_le (conversation_id a) (conversation_id b).
#[global] Instance view_le_dec a b : Decision (view_le a b).
Proof. unfold view_le. apply _. Defined.

(** [values] is the order in which the hash map yields its sessions. *)
Definition lookup_views (values : list StreamSession) (requested : list string) : list StreamView :=
  merge_sort view_le (foldl (collect_views values) [] requested).

Definition session_values (m : StreamManager) : list StreamSession :=
  omap (fun entry : string * nat => heap m !! entry.2) (map_to_list (sessions m)).

Definition lookup (now : Z) (requested : list string) (m : StreamManager)
    : list StreamView * StreamManager :=
  let m := gc now m in (lookup_views (session_values m) requested, m).

Definition evict_and_cancel (now : Z) (id : string) (m : StreamManager) : StreamManager :=
  match sessions m !! id with
  | None => m
  | Some a => on_session (cancel now) a (mkManager (heap m) (next_address m) (delete id (sessions m)))
  end.

(** Dropping a [StreamFinishGuard]. *)
Definition finish_guard_drop (now : Z) (a : nat) (m : StreamManager) : StreamManager :=
  on_session (finish now) a m.

(** ** A session against the log of the bytes it accepted. *)
Inductive session_op : Type :=
| OpAppend (bs : list byte)
| OpFinish (now : Z)
| OpCancel (now : Z).

Definition fresh_inner : Inner := mkInner [] 0 0 false false 0.

Definition run_op (st : Inner * list byte) (op : session_op) : Inner * list byte :=
  let (i, log) := st in
  match op with
  | OpAppend bs => let (ok, i) := append i bs in (i, if ok then log ++ bs else log)
  | OpFinish now => (finish now i, log)
  | OpCancel now => (cancel now i, log)
  end.

(** The ring holds the last [MAX_STREAM_BYTES] bytes of the log. *)
Record holds (i : Inner) (log : list byte) : Prop := {
  h_dropped : dropped i = Z.max 0 (zlen log - MAX_STREAM_BYTES);
  h_bytes : bytes i = drop (Z.to_nat (dropped i)) log;
  h_total : total i = zlen log;
}.

Lemma holds_bytes_len i log : holds i log -> zlen (bytes i) = Z.min (zlen log) MAX_STREAM_BYTES.
Proof.
  intros [Hd Hb Ht]. rewrite Hb, Hd. unfold zlen, MAX_STREAM_BYTES. rewrite length_drop. lia.
Qed.

Lemma append_nonempty i bs :
  bs <> [] ->
  append i bs =
  if done_ i || cancelled i then (false, i)
  else
    let total := saturating_add 64 (total i) (zlen bs) in
    if MAX_STREAM_BYTES <=? zlen bs then
      (true, mkInner (drop (Z.to_nat (zlen bs - MAX_STREAM_BYTES)) bs) (total - MAX_STREAM_BYTES)
               total (done_ i) (cancelled i) (completed_at i))
    else
      let excess := saturating_sub (saturating_add 64 (zlen (bytes i)) (zlen bs)) MAX_STREAM_BYTES in
      (true, mkInner (drop (Z.to_nat excess) (bytes i) ++ bs) (saturating_add 64 (dropped i) excess)
               total (done_ i) (cancelled i) (completed_at i)).
Proof. by destruct bs. Qed.

Lemma append_holds i log bs :
  holds i log -> zlen (log ++ bs) < 2 ^ 64 -> done_ i || cancelled i = false ->
  (append i bs).1 = true /\ holds (append i bs).2 (log ++ bs).
Proof.
  intros H H64 Hlive. pose proof (holds_bytes_len _ _ H) as Hlen. destruct H as [Hd Hb Ht].
  destruct (decide (bs = [])) as [->|Hne]; [by rewrite app_nil_r|].
  rewrite append_nonempty, Hlive by done.
  autorewrite with muser_len in *. pose proof (zlen_nonneg log). pose proof (zlen_nonneg bs).
  unfold MAX_STREAM_BYTES in *. split; [by case_match|].
  case_match; bool_prop.
  - split; cbn; unfold saturating_add, MAX_STREAM_BYTES in *.
    + rewrite Ht, zlen_app. lia.
    + rewrite drop_app, (drop_ge log) by (unfold zlen in *; lia). rewrite app_nil_l.
      f_equal. unfold zlen in *. lia.
    + rewrite Ht, zlen_app. lia.
  - split; cbn; unfold saturating_add, saturating_sub, MAX_STREAM_BYTES in *.
    + rewrite Hlen, Hd, zlen_app. lia.
    + rewrite Hlen, Hb, Hd, drop_drop, drop_app_le by (unfold zlen in *; lia).
      f_equal. f_equal. unfold zlen in *. lia.
    + rewrite Ht, zlen_app. lia.
Qed.

Definition log_of (st : Inner * list byte) : list byte := st.2.

Lemma run_op_log_prefix st op : log_of st `prefix_of` log_of (run_op st op).
Proof.
  destruct st as [i log], op as [bs|now|now]; cbn; try done.
  destruct (append i bs) as [[] ?]; cbn; [by apply prefix_app_r | done].
Qed.

Lemma zlen_prefix {A} (l k : list A) : l `prefix_of` k -> zlen l <= zlen k.
Proof. intros ?%prefix_length. unfold zlen. lia. Qed.

Lemma run_op_holds st op :
  holds st.1 st.2 -> zlen (log_of (run_op st op)) < 2 ^ 64 ->
  holds (run_op st op).1 (run_op st op).2.
Proof.
  destruct st as [i log]; cbn [fst snd]; intros H H64. destruct op as [bs|now|now].
  - unfold run_op in *. destruct (done_ i || cancelled i) eqn:Hlive.
    + destruct (decide (bs = [])) as [->|Hne]; [cbn; by rewrite app_nil_r|].
      by rewrite append_nonempty, Hlive in * by done.
    + destruct (append i bs) as [ok i'] eqn:E. pose proof (append_holds i log bs H) as Ha.
      rewrite E in Ha. cbn in *. destruct ok; [apply Ha; done|].
      destruct (decide (zlen (log ++ bs) < 2 ^ 64)) as [Hlt|Hge]; [by destruct Ha|].
      exfalso. clear Ha. unfold append in E. rewrite Hlive in E. repeat case_match; done.
  - unfold run_op, finish. case_match; [done|]. by destruct H.
  - by destruct H.
Qed.

Lemma snapshot_spec i log offset :
  holds i log -> 0 <= offset ->
  snapshot i offset =
  if offset <? zlen log - MAX_STREAM_BYTES then Lost
  else if offset <? zlen log then Data (drop (Z.to_nat offset) log)
  else if done_ i then Done else Pending.
Proof.
  intros H Ho. pose proof (holds_bytes_len _ _ H) as Hlen. destruct H as [Hd Hb Ht].
  pose proof (zlen_nonneg log). unfold snapshot. rewrite Hlen, Hd.
  assert (0 < MAX_STREAM_BYTES) by done.
  destruct (offset <? zlen log - MAX_STREAM_BYTES) eqn:E1; bool_prop.
  - by rewrite (proj2 (Z.ltb_lt _ _)) by lia.
  - rewrite (proj2 (Z.ltb_ge _ (Z.max _ _))) by lia.
    replace (Z.max 0 (zlen log - MAX_STREAM_BYTES) + Z.min (zlen log) MAX_STREAM_BYTES)
      with (zlen log) by lia.
    case_match; bool_prop; [|done]. f_equal. rewrite Hb, Hd, drop_drop. f_equal. lia.
Qed.

(** ** A reader that resumes by offset, interleaved with the writer. *)
Inductive stream_event : Type :=
| Write (op : session_op)
| Read.

Record stream_run : Type := mkRun {
  session : Inner * list byte;
  offset : Z;
  received : list byte;
}.

(** On [Data] the reader keeps the bytes and advances; on anything else it waits. *)
Definition run_event (r : stream_run) (e : stream_event) : stream_run :=
  match e with
  | Write op => mkRun (run_op (session r) op) (offset r) (received r)
  | Read =>
      match snapshot (session r).1 (offset r) with
      | Data bs => mkRun (session r) (offset r + zlen bs) (received r ++ bs)
      | _ => r
      end
  end.

Definition start_run : stream_run := mkRun (fresh_inner, []) 0 [].

Record run_wf (r : stream_run) : Prop := {
  rw_holds : holds (session r).1 (session r).2;
  rw_received : received r = take (Z.to_nat (offset r)) (session r).2;
  rw_offset : 0 <= offset r <= zlen (session r).2;
}.

Lemma run_event_wf r e :
  run_wf r -> zlen (log_of (session (run_event r e))) < 2 ^ 64 -> run_wf (run_event r e).
Proof.
  intros [Hh Hr Ho] H64. destruct e as [op|].
  - cbn [run_event session] in *. pose proof (run_op_log_prefix (session r) op) as Hp.
    unfold log_of in *. split; cbn.
    + by apply run_op_holds.
    + rewrite Hr. destruct Hp as [k Hk]. rewrite Hk, take_app_le; [done|]. unfold zlen in *. lia.
    + apply zlen_prefix in Hp. lia.
  - cbn [run_event] in *. rewrite (snapshot_spec _ (session r).2) in * by (done || lia).
    assert (0 < MAX_STREAM_BYTES) by done. pose proof (zlen_nonneg (session r).2).
    repeat case_match; simplify_eq; bool_prop; try (by split).
    split; cbn; [done|..].
    + rewrite Hr, take_drop, take_ge; [done|]. unfold zlen in *. rewrite length_drop. lia.
    + unfold zlen in *. rewrite length_drop. lia.
Qed.

Lemma run_log_prefix es r : log_of (session r) `prefix_of` log_of (session (foldl run_event r es)).
Proof.
  revert r. induction es as [|e es IH]; intros r; cbn [foldl]; [done|].
  etrans; [|apply IH]. destruct e as [op|]; cbn; [apply run_op_log_prefix | by case_match].
Qed.

Lemma run_events_wf es r :
  run_wf r -> zlen (log_of (session (foldl run_event r es))) < 2 ^ 64 -> run_wf (foldl run_event r es).
Proof.
  revert r. induction es as [|e es IH]; intros r Hr H64; cbn [foldl] in *; [done|].
  apply IH; [|done]. apply run_event_wf; [done|].
  pose proof (zlen_prefix _ _ (run_log_prefix es (run_event r e))). lia.
Qed.

Lemma start_run_wf : run_wf start_run.
Proof. by split. Qed.

(** C13. Resuming is exact: under any interleaving of a writer (appends, finish, cancel) with a
    reader that resumes from its offset, the ring never holds more than 4 MiB, the reader's
    bytes are always the first [offset] bytes of everything the session accepted, no offset is
    reported [Lost] unless more than 4 MiB was accepted after it, a readable offset yields the
    whole rest of the log, and when the reader is told [Done] it has received everything. *)
Theorem resumed_reads_are_exact (es : list stream_event) :
  let r := foldl run_event start_run es in
  let log := log_of (session r) in
  zlen log < 2 ^ 64 ->
  zlen (bytes (session r).1) <= MAX_STREAM_BYTES /\
  received r = take (Z.to_nat (offset r)) log /\
  (forall o, 0 <= o -> snapshot (session r).1 o =
     if o <? zlen log - MAX_STREAM_BYTES then Lost
     else if o <? zlen log then Data (drop (Z.to_nat o) log)
     else if done_ (session r).1 then Done else Pending) /\
  (snapshot (session r).1 (offset r) = Done -> received r = log).
Proof.
  intros r log H64. pose proof (run_events_wf es start_run start_run_wf H64) as [Hh Hr Ho]. fold r in Hh, Hr, Ho.
  split; [rewrite (holds_bytes_len _ _ Hh); lia|]. split; [done|].
  split; [intros; by apply snapshot_spec|].
  rewrite (snapshot_spec _ log) by (done || lia). repeat case_match; try done. intros _.
  rewrite Hr. bool_prop. apply take_ge. subst log. unfold zlen, log_of in *. lia.
Qed.

Lemma resumed_reads_are_exact_witness :
  let es := [Write (OpAppend (to_le_bytes 4 7)); Read; Write (OpAppend (to_le_bytes 2 9));
             Write (OpFinish 100); Write (OpAppend (to_le_bytes 2 1)); Read] in
  let r := foldl run_event start_run es in
  snapshot (session r).1 (offset r) = Done /\ received r = to_le_bytes 4 7 ++ to_le_bytes 2 9.
Proof.
  intros es r. split; [by vm_compute|].
  apply (resumed_reads_are_exact es); by vm_compute.
Defined.

(** ** The manager. *)
Record manager_wf (m : StreamManager) : Prop := {
  mw_sessions : forall i a, sessions m !! i = Some a -> exists s, heap m !! a = Some s /\ id s = i;
  mw_heap : forall a s, heap m !! a = Some s -> (a < next_address m)%nat;
}.

Lemma on_session_lookup f a m b :
  heap (on_session f a m) !! b =
  if decide (a = b) then (fun s => set_inner s (f (inner s))) <$> heap m !! b else heap m !! b.
Proof.
  unfold on_session. cbn. case_decide as E; [subst; apply lookup_alter_eq | by apply lookup_alter_ne].
Qed.

Lemma on_session_wf f a m : manager_wf m -> manager_wf (on_session f a m).
Proof.
  intros [Hs Hh]. split.
  - intros i b Hb. destruct (Hs i b Hb) as (s & E & Ei). rewrite on_session_lookup, E.
    case_decide; cbn; eauto.
  - intros b s. rewrite on_session_lookup. case_decide; [|apply Hh].
    intros (s' & E & _)%fmap_Some. by apply (Hh b s').
Qed.

Lemma sub_sessions_wf m ss :
  manager_wf m -> ss ⊆ sessions m -> manager_wf (mkManager (heap m) (next_address m) ss).
Proof.
  intros [Hs Hh] Hsub. split; cbn; [|done]. intros i a Ha. apply Hs. by eapply lookup_weaken.
Qed.

Lemma gc_wf now m : manager_wf m -> manager_wf (gc now m).
Proof. intros H. apply sub_sessions_wf; [done | apply map_filter_subseteq]. Qed.

Lemma gc_lookup now m i a s :
  sessions m !! i = Some a -> heap m !! a = Some s ->
  completed_at (inner s) = 0 \/ saturating_sub now COMPLETED_TTL < completed_at (inner s) ->
  sessions (gc now m) !! i = Some a.
Proof.
  intros Hi Ha Hc. apply map_lookup_filter_Some_2; [done|]. cbn. unfold kept. rewrite Ha.
  apply orb_true_iff. rewrite Z.eqb_eq, Z.ltb_lt. done.
Qed.

Lemma gc_lookup_inv now m i a s :
  sessions (gc now m) !! i = Some a -> heap m !! a = Some s ->
  sessions m !! i = Some a /\
  (completed_at (inner s) = 0 \/ saturating_sub now COMPLETED_TTL < completed_at (inner s)).
Proof.
  intros [Hi Hk]%map_lookup_filter_Some Ha. split; [done|]. cbn in Hk. unfold kept in Hk.
  rewrite Ha in Hk. by rewrite orb_true_iff, Z.eqb_eq, Z.ltb_lt in Hk.
Qed.

Definition add_session (m : StreamManager) (s : StreamSession) : StreamManager :=
  mkManager (<[next_address m := s]> (heap m)) (S (next_address m))
    (<[id s := next_address m]> (sessions m)).

Lemma add_session_wf m s : manager_wf m -> manager_wf (add_session m s).
Proof.
  intros [Hs Hh]. split; cbn.
  - intros i a. destruct (decide (i = id s)) as [->|Hne].
    + rewrite lookup_insert_eq. intros [= <-]. exists s. by rewrite lookup_insert_eq.
    + rewrite lookup_insert_ne by done. intros Hi. destruct (Hs i a Hi) as (s' & E & ?).
      exists s'. rewrite lookup_insert_ne; [done|]. apply Hh in E. lia.
  - intros a s'. destruct (decide (a = next_address m)) as [->|]; [lia|].
    rewrite lookup_insert_ne by done. intros ?%Hh. lia.
Qed.

Inductive manager_step : StreamManager -> StreamManager -> Prop :=
| ms_create t1 t2 t3 i m : manager_step m (create_or_replace t1 t2 t3 i m).2
| ms_get t i m : manager_step m (get t i m).2
| ms_lookup t req m : manager_step m (lookup t req m).2
| ms_evict t i m : manager_step m (evict_and_cancel t i m)
| ms_append a bs m : manager_step m (session_append m a bs).2
| ms_finish t a m : manager_step m (finish_guard_drop t a m).

Lemma manager_step_wf m m' : manager_wf m -> manager_step m m' -> manager_wf m'.
Proof.
  intros H Hstep. destruct Hstep; cbn; try by apply gc_wf.
  - apply (gc_wf t1) in H.
    apply (add_session_wf _ (mkSession i t2 (mkInner [] 0 0 false false 0))) in H.
    unfold add_session in H. cbn in H. case_match; [by apply on_session_wf | done].
  - unfold evict_and_cancel. case_match; [|done]. apply on_session_wf.
    apply sub_sessions_wf; [done | apply delete_subseteq].
  - unfold session_append. case_match; [by apply on_session_wf | done].
  - by apply on_session_wf.
Qed.

Lemma empty_manager_wf : manager_wf empty_manager.
Proof. by split. Qed.

Lemma reachable_manager_wf m : rtc manager_step empty_manager m -> manager_wf m.
Proof.
  intros H. assert (manager_wf empty_manager) as H0 by apply empty_manager_wf. revert H0.
  induction H as [|m1 m2 m3 Hstep _ IH]; [done|]. intros ?. by eapply IH, manager_step_wf.
Qed.

(** Replacing a conversation: in every reachable manager, [create_or_replace] hands out a
    session nobody holds yet, empty and live, which [get] finds at any later time; whatever
    session the id had before (and that was not expired) is cancelled, so its writer's next
    nonempty append is refused; every other conversation that is still generating keeps its
    session, untouched. *)
Lemma create_or_replace_isolates m i t1 t2 t3 t4 :
  rtc manager_step empty_manager m ->
  let (a, m') := create_or_replace t1 t2 t3 i m in
  heap m !! a = None /\
  heap m' !! a = Some (mkSession i t2 fresh_inner) /\
  (get t4 i m').1 = Some a /\
  (forall p, sessions (gc t1 m) !! i = Some p ->
     exists s, heap m' !! p = Some s /\ is_cancelled (inner s) = true /\
       forall bs, bs <> [] -> (session_append m' p bs).1 = false) /\
  (forall j b s, j <> i -> sessions m !! j = Some b -> heap m !! b = Some s ->
     completed_at (inner s) = 0 -> sessions m' !! j = Some b /\ heap m' !! b = Some s).
Proof.
  intros Hreach%reachable_manager_wf. pose proof (gc_wf t1 m Hreach) as Hg.
  destruct Hreach as [Hs Hh], Hg as [Hs' Hh']. unfold create_or_replace. cbn zeta.
  set (a := next_address (gc t1 m)). change (heap (gc t1 m)) with (heap m) in *.
  set (m0 := mkManager (<[a := _]> (heap m)) _ _).
  set (m' := match sessions (gc t1 m) !! i with Some p => _ | None => m0 end).
  assert (heap m !! a = None) as Hfree.
  { destruct (heap m !! a) eqn:E; [|done]. apply Hh in E. subst a. cbn in E. lia. }
  assert (forall p, sessions (gc t1 m) !! i = Some p -> a <> p /\ is_Some (heap m !! p)) as Hprev.
  { intros p Hp. destruct (Hs' i p Hp) as (s & E & _). split; [congruence | eauto]. }
  assert (forall b, b <> a -> sessions (gc t1 m) !! i <> Some b -> heap m' !! b = heap m !! b) as Hother.
  { intros b Hb Hne. subst m'. case_match eqn:Hp; [rewrite on_session_lookup|]; cbn;
      [rewrite decide_False by congruence|]; by rewrite lookup_insert_ne. }
  assert (sessions m' = <[i := a]> (sessions (gc t1 m))) as Hsess by (subst m'; by case_match).
  assert (heap m' !! a = Some (mkSession i t2 fresh_inner)) as Ha.
  { subst m'. case_match eqn:Hp; [rewrite on_session_lookup|]; cbn;
      [rewrite decide_False by (intros ->; by destruct (Hprev a eq_refl))|]; by rewrite lookup_insert_eq. }
  split; [done|]. split; [done|]. split; [|split].
  - cbn. eapply gc_lookup; [by rewrite Hsess, lookup_insert_eq | done | by left].
  - intros p Hp. destruct (Hprev p Hp) as [Hne [s E]].
    exists (set_inner s (cancel t3 (inner s))).
    assert (heap m' !! p = Some (set_inner s (cancel t3 (inner s)))) as Hm'.
    { subst m'. rewrite Hp, on_session_lookup, decide_True by done. cbn.
      by rewrite lookup_insert_ne, E. }
    split; [done|]. split; [done|]. intros bs Hbs. unfold session_append. rewrite Hm'. cbn.
    by rewrite append_nonempty.
  - intros j b s Hj Hb Es Hc.
    assert (sessions (gc t1 m) !! j = Some b) as Hgb by (eapply gc_lookup; eauto).
    split; [by rewrite Hsess, lookup_insert_ne|]. rewrite Hother; [done | congruence |].
    intros Hi. destruct (Hs' _ _ Hi) as (s1 & E1 & ?), (Hs' _ _ Hgb) as (s2 & E2 & ?). congruence.
Qed.

(** ** Lookup. *)
Lemma session_values_ids m : manager_wf m -> map id (session_values m) = (map_to_list (sessions m)).*1.
Proof.
  intros [Hs _]. unfold session_values.
  assert (forall e, e ∈ map_to_list (sessions m) -> sessions m !! e.1 = Some e.2) as Hin.
  { intros [i a] ?%elem_of_map_to_list. done. }
  induction (map_to_list (sessions m)) as [|[i a] l IH]; [done|]. cbn.
  destruct (Hs i a) as (s & E & Ei); [apply (Hin (i, a)); constructor|]. rewrite E. cbn.
  rewrite Ei. f_equal. apply IH. intros e He. apply Hin. by constructor.
Qed.

Lemma elem_of_session_values m s :
  s ∈ session_values m <-> exists i a, sessions m !! i = Some a /\ heap m !! a = Some s.
Proof.
  unfold session_values. rewrite list_elem_of_omap. split.
  - intros ([i a] & Hin%elem_of_map_to_list & E). eauto.
  - intros (i & a & Hi & E). exists (i, a). by rewrite elem_of_map_to_list.
Qed.

Section Lookup.
Context (values : list StreamSession) (Hids : NoDup (map id values)).

Lemma same_id_same_session s s' : s ∈ values -> s' ∈ values -> id s = id s' -> s = s'.
Proof using Hids.
  intros [i Hi]%list_elem_of_lookup [j Hj]%list_elem_of_lookup E.
  assert (i = j) as ->; [|congruence].
  eapply (NoDup_lookup (id <$> values)); [exact Hids|..]; rewrite list_lookup_fmap; [by rewrite Hi|].
  rewrite Hj. cbn. by rewrite E.
Qed.

(** The views collected so far: of known sessions, one per id. *)
Record views_wf (views : list StreamView) : Prop := {
  vw_known : forall v, v ∈ views -> exists s, s ∈ values /\ v = view s;
  vw_nodup : NoDup (map conversation_id views);
}.

Lemma push_view_spec views s :
  views_wf views -> s ∈ values ->
  views_wf (push_view views (view s)) /\
  forall v, v ∈ push_view views (view s) <-> v ∈ views \/ v = view s.
Proof using Hids.
  intros [Hk Hn] Hs. unfold push_view. destruct (existsb _ _) eqn:E.
  - split; [done|]. intros v. split; [by left|]. intros [Hv| ->]; [done|].
    apply existsb_exists in E as (v & Hv & Ev). apply list_elem_of_In in Hv.
    apply String.eqb_eq in Ev. destruct (Hk v Hv) as (s' & Hs' & ->). cbn in Ev.
    by rewrite <- (same_id_same_session s' s).
  - assert (forall v, v ∈ views ++ [view s] <-> v ∈ views \/ v = view s) as Hiff.
    { intros v. by rewrite elem_of_app, list_elem_of_singleton. }
    split; [|done]. split.
    + intros v [?| ->]%Hiff; eauto.
    + rewrite map_app. apply NoDup_app. split; [done|]. split; [|apply NoDup_singleton].
      intros x Hx ->%list_elem_of_singleton. apply list_elem_of_fmap in Hx as (v & Ev & Hv).
      apply existsb_false_Forall in E. rewrite Forall_forall in E. specialize (E v Hv).
      apply String.eqb_neq in E. congruence.
Qed.

Lemma collect_views_spec vs views requested :
  (forall s, s ∈ vs -> s ∈ values) -> views_wf views ->
  views_wf (collect_views vs views requested) /\
  forall v, v ∈ collect_views vs views requested <->
    v ∈ views \/ exists s, s ∈ vs /\ answers requested s = true /\ v = view s.
Proof using Hids.
  unfold collect_views. revert views.
  induction vs as [|s vs IH]; intros views Hsub Hw; cbn [foldl].
  { split; [done|]. intros v. split; [by left|]. intros [?|(s & ?%not_elem_of_nil & _)]; done. }
  assert (s ∈ values) as Hs by (apply Hsub; constructor).
  assert (forall s', s' ∈ vs -> s' ∈ values) as Hsub' by (intros; apply Hsub; by constructor).
  destruct (answers requested s) eqn:Ea.
  - destruct (push_view_spec views s Hw Hs) as [Hw' Hiff].
    destruct (IH _ Hsub' Hw') as [Hw'' Hiff']. split; [done|]. intros v. rewrite Hiff', Hiff. split.
    + intros [[?| ->]|(s' & ? & ? & ->)];
        [by left | right; exists s; by rewrite elem_of_cons; auto | right; exists s'; by rewrite elem_of_cons; auto].
    + intros [?|(s' & [->|?]%elem_of_cons & ? & ->)]; eauto 8.
  - destruct (IH _ Hsub' Hw) as [Hw' Hiff]. split; [done|]. intros v. rewrite Hiff. split.
    + intros [?|(s' & ? & ? & ->)]; [by left | right; exists s'; by rewrite elem_of_cons; auto].
    + intros [?|(s' & [->|?]%elem_of_cons & ? & ->)]; [by left | congruence | eauto 8].
Qed.

Lemma collect_all_spec requests views :
  views_wf views ->
  views_wf (foldl (collect_views values) views requests) /\
  forall v, v ∈ foldl (collect_views values) views requests <->
    v ∈ views \/ exists r s, r ∈ requests /\ s ∈ values /\ answers r s = true /\ v = view s.
Proof using Hids.
  revert views. induction requests as [|r rs IH]; intros views Hw; cbn [foldl].
  { split; [done|]. intros v. split; [by left|]. intros [?|(r & s & ?%not_elem_of_nil & _)]; done. }
  destruct (collect_views_spec values views r ltac:(done) Hw) as [Hw' Hiff].
  destruct (IH _ Hw') as [Hw'' Hiff']. split; [done|]. intros v. rewrite Hiff', Hiff. split.
  - intros [[?|(s & ? & ? & ->)]|(r' & s & ? & ? & ? & ->)];
      [by left | right; exists r, s; by rewrite elem_of_cons; auto
       | right; exists r', s; by rewrite elem_of_cons; auto].
  - intros [?|(r' & s & [->|?]%elem_of_cons & ? & ? & ->)]; eauto 10.
Qed.
End Lookup.

#[global] Instance view_le_trans : Transitive view_le.
Proof. intros a b c. unfold view_le. apply transitivity. Qed.
#[global] Instance view_le_total : Total view_le.
Proof. intros a b. apply (base.total string_le). Qed.

(** Lookup never enumerates: in every reachable manager, [lookup] returns -- sorted by
    conversation id, each id once -- exactly the views of the unexpired sessions whose id is
    a requested id or has a requested id followed by two colons as a prefix. *)
Theorem lookup_exact m now requested :
  rtc manager_step empty_manager m ->
  let views := (lookup now requested m).1 in
  StronglySorted view_le views /\ NoDup (map conversation_id views) /\
  forall v, v ∈ views <->
    exists r i a s, r ∈ requested /\ sessions m !! i = Some a /\ heap m !! a = Some s /\
      (completed_at (inner s) = 0 \/ saturating_sub now COMPLETED_TTL < completed_at (inner s)) /\
      answers r s = true /\ v = view s.
Proof.
  intros Hreach%reachable_manager_wf. pose proof (gc_wf now m Hreach) as Hg. cbn.
  assert (NoDup (map id (session_values (gc now m)))) as Hids.
  { rewrite session_values_ids by done. apply NoDup_fst_map_to_list. }
  destruct (collect_all_spec _ Hids requested []) as [Hw Hiff].
  { split; [by intros v ?%not_elem_of_nil | constructor]. }
  unfold lookup_views. split; [apply (StronglySorted_merge_sort view_le); apply _|]. split.
  - rewrite (Permutation_map conversation_id (merge_sort_Permutation view_le _)). apply Hw.
  - intros v. rewrite (merge_sort_Permutation view_le), Hiff. split.
    + intros [?%not_elem_of_nil|(r & s & Hr & Hs & Ha & ->)]; [done|].
      apply elem_of_session_values in Hs as (i & a & Hi & E).
      destruct (gc_lookup_inv now m i a s Hi E) as [Hi' Hc]. by exists r, i, a, s.
    + intros (r & i & a & s & Hr & Hi & E & Hc & Ha & ->). right. exists r, s.
      split; [done|]. split; [|done]. apply elem_of_session_values. exists i, a.
      split; [by eapply gc_lookup | done].
Qed.

(** Two conversations: the first replaced, the second finished long ago. *)
Definition example_manager : StreamManager :=
  let m := (create_or_replace 1000 1000 1000 "chat" empty_manager).2 in
  let m := (create_or_replace 1000 1000 1000 "other" m).2 in
  finish_guard_drop 1001 1 m.

Lemma example_reachable : rtc manager_step empty_manager example_manager.
Proof.
  eapply rtc_l; [apply (ms_create 1000 1000 1000 "chat")|].
  eapply rtc_l; [apply (ms_create 1000 1000 1000 "other")|].
  apply rtc_once, (ms_finish 1001 1).
Qed.

Lemma create_or_replace_isolates_witness :
  exists a m', create_or_replace 2000 2000 2000 "chat" example_manager = (a, m') /\
    (get 9000 "chat" m').1 = Some a /\ (session_append m' 0 [byte_of_Z 1]).1 = false.
Proof.
  pose proof (create_or_replace_isolates example_manager "chat" 2000 2000 2000 9000 example_reachable) as H.
  destruct (create_or_replace 2000 2000 2000 "chat" example_manager) as [a m'].
  destruct H as (_ & _ & Hget & Hprev & _). exists a, m'. split; [done|]. split; [done|].
  destruct (Hprev 0%nat ltac:(by vm_compute)) as (s & _ & _ & Happ). by apply Happ.
Defined.

Lemma lookup_exact_witness :
  let views := (lookup 2000 ["chat"; "oth"; "chat"] example_manager).1 in
  views = [mkView "chat" false 0 1000 0] /\ NoDup (map conversation_id views).
Proof.
  intros views. split; [by vm_compute|].
  apply (lookup_exact example_manager 2000 ["chat"; "oth"; "chat"] example_reachable).
Defined.
