(* ===== verification/Timefmt.v ===== *)
(** * UTC timestamps.

    Models [crates/muser-server/src/timefmt.rs].  [civil_from_days] is compared with the
    proleptic Gregorian calendar given by its rules (month lengths, leap years, the day
    after a day).  Integers are the code's [i64]/[u64]; division truncates. *)
From Stdlib Require Import Strings.Ascii.
From S2P Require Import Prelude.

Definition civil_from_days (days : Z) : Z * Z * Z :=
  let z := days + 719468 in
  let era := Z.quot (if 0 <=? z then z else z - 146096) 146097 in
  let doe := z - era * 146097 in
  let yoe := (doe - doe / 1460 + doe / 36524 - doe / 146096) / 365 in
  let y := yoe + era * 400 in
  let doy := doe - (365 * yoe + yoe / 4 - yoe / 100) in
  let mp := (5 * doy + 2) / 153 in
  let d := doy - (153 * mp + 2) / 5 + 1 in
  let m := if mp <? 10 then mp + 3 else mp - 9 in
  let y := if m <=? 2 then y + 1 else y in
  (y, m, d).

(** Decimal digits, least significant last; [fuel] bounds their number. *)
Fixpoint decimal (fuel : nat) (n : Z) : list ascii :=
  match fuel with
  | O => []
  | S fuel =>
      (if n <? 10 then [] else decimal fuel (n / 10)) ++
      [ascii_of_nat (48 + Z.to_nat (n mod 10))]
  end.
(** [format!("{z:0w$}")] for an [i64]: zero padding after the sign, 19 digits are enough. *)
Definition zero_padded (w : nat) (z : Z) : string :=
  let digits := decimal 19 (Z.abs z) in
  let sign := if z <? 0 then ["-"%char] else [] in
  String.string_of_list_ascii
    (sign ++ replicate (w - length sign - length digits) "0"%char ++ digits).

Definition unix_to_rfc3339 (unix_secs : Z) : string :=
  let days := unix_secs / 86400 in
  let secs_of_day := unix_secs mod 86400 in
  let '(y, m, d) := civil_from_days days in
  let hh := secs_of_day / 3600 in
  let mm := (secs_of_day mod 3600) / 60 in
  let ss := secs_of_day mod 60 in
  zero_padded 4 y +:+ "-" +:+ zero_padded 2 m +:+ "-" +:+ zero_padded 2 d +:+ "T" +:+
  zero_padded 2 hh +:+ ":" +:+ zero_padded 2 mm +:+ ":" +:+ zero_padded 2 ss +:+ "Z".

(** The clock reads [None] before 1970. *)
Definition now_rfc3339 (since_epoch : option Z) : string :=
  unix_to_rfc3339 (match since_epoch with Some secs => as_signed 64 secs | None => 0 end).

(** ** The Gregorian calendar by its rules. *)
Definition leap (y : Z) : bool :=
  (y mod 4 =? 0) && (negb (y mod 100 =? 0) || (y mod 400 =? 0)).
Definition days_in_month (y m : Z) : Z :=
  if m =? 2 then (if leap y then 29 else 28)
  else if (m =? 4) || (m =? 6) || (m =? 9) || (m =? 11) then 30 else 31.
Definition next_day (date : Z * Z * Z) : Z * Z * Z :=
  let '(y, m, d) := date in
  if d <? days_in_month y m then (y, m, d + 1)
  else if m <? 12 then (y, m + 1, 1)
  else (y + 1, 1, 1).
Definition valid_date (date : Z * Z * Z) : Prop :=
  let '(y, m, d) := date in 1 <= m <= 12 /\ 1 <= d <= days_in_month y m.

(** ** March-based years. *)

(** First day (in the 400-year era) of the [y]-th year that starts on 1 March. *)
Definition year_start (y : Z) : Z := 365 * y + y / 4 - y / 100.
Definition year_length (y : Z) : Z := if leap (y + 1) then 366 else 365.
(** The date of day [doy] of March-based year [y]. *)
Definition date_of (y doy : Z) : Z * Z * Z :=
  let mp := (5 * doy + 2) / 153 in
  let m := if mp <? 10 then mp + 3 else mp - 9 in
  (if m <=? 2 then y + 1 else y, m, doy - (153 * mp + 2) / 5 + 1).
Definition year_of_era (doe : Z) : Z := (doe - doe / 1460 + doe / 36524 - doe / 146096) / 365.

(** [a], [a + 1], ..., [n] of them. *)
Fixpoint count_up (n : nat) (a : Z) : list Z :=
  match n with O => [] | S n => a :: count_up n (a + 1) end.
Lemma in_count_up n a x : a <= x < a + Z.of_nat n -> In x (count_up n a).
Proof.
  revert a. induction n as [|n IH]; intros a Hx; simpl; [lia|].
  destruct (decide (a = x)); [by left|]. right. apply IH. lia.
Qed.
Lemma check_up (P : Z -> bool) n a x :
  forallb P (count_up n a) = true -> a <= x < a + Z.of_nat n -> P x = true.
Proof. intros H Hx. eapply forallb_forall in H; [done|]. by apply in_count_up. Qed.

Lemma year_of_era_mono x y : x <= y -> year_of_era x <= year_of_era y.
Proof.
  intros Hxy. apply Z.div_le_mono; [lia|].
  replace y with (x + Z.of_nat (Z.to_nat (y - x))) by lia.
  induction (Z.to_nat (y - x)) as [|n IH]; [rewrite Z.add_0_r; lia|].
  etrans; [exact IH|]. rewrite Nat2Z.inj_succ.
  replace (x + Z.succ (Z.of_nat n)) with (x + Z.of_nat n + 1) by lia.
  generalize (x + Z.of_nat n) as u. intros u. clear.
  assert ((u + 1) / 1460 <= u / 1460 + 1 /\ u / 36524 <= (u + 1) / 36524 /\
    (u + 1) / 146096 - u / 146096 <= (u + 1) / 36524 - u / 36524); [|lia].
  Z.to_euclidean_division_equations. lia.
Qed.

(** Every year of the era starts and ends where the formula says, checked one by one. *)
Lemma year_of_era_ends y :
  0 <= y < 400 ->
  year_of_era (year_start y) = y /\ year_of_era (year_start y + year_length y - 1) = y /\
  (y = 399 \/ year_start (y + 1) = year_start y + year_length y).
Proof.
  intros Hy.
  pose proof (check_up (fun y => (year_of_era (year_start y) =? y) &&
    (year_of_era (year_start y + year_length y - 1) =? y) &&
    ((y =? 399) || (year_start (y + 1) =? year_start y + year_length y))) 400 0 y
    ltac:(by vm_compute) ltac:(lia)) as H.
  apply andb_true_iff in H as [H H3]. bool_prop. apply orb_true_iff in H3.
  split; [done|]. split; [done|]. destruct H3; bool_prop; auto.
Qed.

Lemma year_of_era_spec doe :
  0 <= doe < 146097 ->
  let y := year_of_era doe in
  0 <= y < 400 /\ year_start y <= doe < year_start y + year_length y.
Proof.
  intros Hd y.
  assert (0 <= y < 400) as Hy.
  { pose proof (year_of_era_mono 0 doe ltac:(lia)) as H1.
    pose proof (year_of_era_mono doe 146096 ltac:(lia)) as H2.
    change (year_of_era 0) with 0 in H1. change (year_of_era 146096) with 399 in H2. subst y. lia. }
  split; [done|]. split.
  - destruct (decide (year_start y <= doe)) as [|Hlt]; [done|]. exfalso.
    destruct (decide (y = 0)) as [Hy0|].
    { rewrite Hy0 in Hlt. change (year_start 0) with 0 in Hlt. lia. }
    destruct (year_of_era_ends (y - 1) ltac:(lia)) as (_ & He & [?|Hs]); [lia|].
    replace (y - 1 + 1) with y in Hs by lia.
    pose proof (year_of_era_mono doe (year_start (y - 1) + year_length (y - 1) - 1) ltac:(lia)).
    subst y. lia.
  - destruct (decide (doe < year_start y + year_length y)) as [|Hge]; [done|]. exfalso.
    destruct (year_of_era_ends y Hy) as (_ & _ & [Hy9|Hs]).
    { rewrite Hy9 in Hge. change (year_start 399 + year_length 399) with 146097 in Hge. lia. }
    assert (y <> 399).
    { intros E. rewrite E in Hge. change (year_start 399 + year_length 399) with 146097 in Hge. lia. }
    destruct (year_of_era_ends (y + 1) ltac:(lia)) as (He & _ & _).
    pose proof (year_of_era_mono (year_start (y + 1)) doe ltac:(lia)). subst y. lia.
Qed.

(** Day [doy] of March-based year [Y] is day [n] since the epoch. *)
Definition day_at (n Y doy : Z) : Prop :=
  exists era yoe, Y = 400 * era + yoe /\ 0 <= yoe < 400 /\ 0 <= doy < year_length yoe /\
    n + 719468 = 146097 * era + year_start yoe + doy.

Lemma day_at_exists n : exists Y doy, day_at n Y doy.
Proof.
  pose proof (Z.div_mod (n + 719468) 146097 ltac:(lia)).
  pose proof (Z.mod_pos_bound (n + 719468) 146097 ltac:(lia)) as Hm.
  set (doe := (n + 719468) mod 146097) in *. destruct (year_of_era_spec doe Hm) as [Hy Hd].
  exists (400 * ((n + 719468) / 146097) + year_of_era doe), (doe - year_start (year_of_era doe)).
  eexists _, _. split; [reflexivity|]. lia.
Qed.

Lemma year_end yoe : 0 <= yoe < 400 -> 0 <= year_start yoe /\ year_start yoe + year_length yoe <= 146097.
Proof.
  intros Hy. pose proof (check_up (fun y => (0 <=? year_start y) && (year_start y + year_length y <=? 146097)) 400 0 yoe
    ltac:(by vm_compute) ltac:(lia)). cbn beta in *. bool_prop. lia.
Qed.

Lemma civil_from_days_day_at n Y doy : day_at n Y doy -> civil_from_days n = date_of Y doy.
Proof.
  intros (era & yoe & -> & Hy & Hd & Hn). pose proof (year_end yoe Hy) as Hend.
  unfold civil_from_days, date_of. cbn zeta. rewrite Hn.
  set (doe := year_start yoe + doy).
  replace (146097 * era + year_start yoe + doy) with (146097 * era + doe) by (subst doe; lia).
  assert (Z.quot (if 0 <=? 146097 * era + doe then 146097 * era + doe
                  else 146097 * era + doe - 146096) 146097 = era) as ->.
  { assert (0 <= doe < 146097) by lia. case_match; bool_prop.
    - symmetry. apply Z.quot_unique with doe; lia.
    - replace (146097 * era + doe - 146096) with (- (146097 * (- era) + (146096 - doe))) by lia.
      rewrite Z.quot_opp_l by lia.
      rewrite <- (Z.quot_unique _ 146097 (- era) (146096 - doe)) by lia. lia. }
  replace (146097 * era + doe - era * 146097) with doe by lia.
  change ((doe - doe / 1460 + doe / 36524 - doe / 146096) / 365) with (year_of_era doe).
  assert (year_of_era doe = yoe) as ->.
  { destruct (year_of_era_ends yoe Hy) as (H1 & H2 & _).
    pose proof (year_of_era_mono (year_start yoe) doe ltac:(lia)).
    pose proof (year_of_era_mono doe (year_start yoe + year_length yoe - 1) ltac:(lia)). lia. }
  replace (doe - (365 * yoe + yoe / 4 - yoe / 100)) with doy by (subst doe; unfold year_start; lia).
  replace (yoe + era * 400) with (400 * era + yoe) by lia. done.
Qed.

(** ** The day after. *)
Definition shift (Y : Z) (date : Z * Z * Z) : Z * Z * Z :=
  let '(y, m, d) := date in (Y + y, m, d).
(** [next_day] inside a March-based year whose February has a leap day iff [b]. *)
Definition next_in_year (b : bool) (date : Z * Z * Z) : Z * Z * Z :=
  let '(y, m, d) := date in
  let length := if m =? 2 then (if b then 29 else 28)
                else if (m =? 4) || (m =? 6) || (m =? 9) || (m =? 11) then 30 else 31 in
  if d <? length then (y, m, d + 1)
  else if m <? 12 then (y, m + 1, 1)
  else (y + 1, 1, 1).

Lemma date_of_shift Y doy : date_of Y doy = shift Y (date_of 0 doy).
Proof. unfold date_of, shift. cbn. repeat case_match; f_equal; f_equal; lia. Qed.

Lemma next_day_shift Y y m d :
  (m = 2 -> y = 1) ->
  next_day (shift Y (y, m, d)) = shift Y (next_in_year (leap (Y + 1)) (y, m, d)).
Proof.
  intros Hy. unfold next_day, shift, next_in_year, days_in_month.
  destruct (m =? 2) eqn:E; bool_prop; [rewrite (Hy E)|];
    repeat case_match; try done; by rewrite <- Z.add_assoc.
Qed.

Lemma leap_period era y : leap (400 * era + y) = leap y.
Proof.
  unfold leap. rewrite (Z.add_comm _ y).
  replace (400 * era) with (100 * era * 4) by lia. rewrite Z.mod_add by lia.
  replace (100 * era * 4) with (4 * era * 100) by lia. rewrite Z.mod_add by lia.
  replace (4 * era * 100) with (era * 400) by lia. rewrite Z.mod_add by lia. done.
Qed.

(** The days of one March-based year follow each other, whether its February is long or not. *)
Lemma year_days (b : bool) doy :
  0 <= doy < (if b then 366 else 365) ->
  let date := date_of 0 doy in
  (date.1.2 = 2 -> date.1.1 = 1) /\ 1 <= date.1.2 <= 12 /\ 1 <= date.2 /\
  next_in_year b date = (if doy + 1 =? (if b then 366 else 365) then (1, 3, 1) else date_of 0 (doy + 1)).
Proof.
  intros Hd.
  pose proof (check_up (fun doy =>
    let date := date_of 0 doy in
    (negb (date.1.2 =? 2) || (date.1.1 =? 1)) && (1 <=? date.1.2) && (date.1.2 <=? 12) && (1 <=? date.2) &&
    bool_decide (next_in_year b date =
      (if doy + 1 =? (if b then 366 else 365) then (1, 3, 1) else date_of 0 (doy + 1))))
    (if b then 366 else 365)%nat 0 doy ltac:(by destruct b; vm_compute) ltac:(destruct b; lia)) as H.
  cbn zeta in *. repeat (apply andb_true_iff in H as [H ?]). apply orb_true_iff in H. bool_prop.
  split; [|done]. intros E. destruct H; bool_prop; [done|lia].
Qed.

Lemma year_days_bounded (b : bool) doy :
  0 <= doy < (if b then 366 else 365) ->
  let '(y, m, d) := date_of 0 doy in
  d <= (if m =? 2 then (if b then 29 else 28)
        else if (m =? 4) || (m =? 6) || (m =? 9) || (m =? 11) then 30 else 31).
Proof.
  intros Hd.
  pose proof (check_up (fun doy => let '(y, m, d) := date_of 0 doy in
    d <=? (if m =? 2 then (if b then 29 else 28)
           else if (m =? 4) || (m =? 6) || (m =? 9) || (m =? 11) then 30 else 31))
    (if b then 366 else 365)%nat 0 doy ltac:(by destruct b; vm_compute) ltac:(destruct b; lia)) as H.
  cbn beta in H. destruct (date_of 0 doy) as [[y m] d]. by apply Z.leb_le in H.
Qed.

(** [civil_from_days] is the proleptic Gregorian calendar, for every day before and after
    1970: day 0 is 1970-01-01, every result is a valid date, and the date of the next day is
    the next date by the month lengths and the 4/100/400 leap rule. *)
Theorem civil_from_days_is_gregorian :
  civil_from_days 0 = (1970, 1, 1) /\
  forall n, valid_date (civil_from_days n) /\ civil_from_days (n + 1) = next_day (civil_from_days n).
Proof.
  split; [done|]. intros n. destruct (day_at_exists n) as (Y & doy & Hat).
  rewrite (civil_from_days_day_at n Y doy) by done.
  destruct Hat as (era & yoe & HY & Hy & Hd & Hn).
  assert (leap (Y + 1) = leap (yoe + 1)) as Hleap.
  { rewrite HY, <- Z.add_assoc. apply leap_period. }
  unfold year_length in Hd. rewrite <- Hleap in Hd.
  destruct (year_days (leap (Y + 1)) doy Hd) as (Hfeb & Hm & Hd1 & Hnext).
  rewrite date_of_shift. destruct (date_of 0 doy) as [[y m] d] eqn:Ed. cbn in Hfeb, Hm, Hd1.
  rewrite next_day_shift by done. split.
  - split; [done|]. split; [done|].
    destruct (decide (d <= days_in_month (Y + y) m)) as [|Hgt]; [done|]. exfalso.
    pose proof (year_days_bounded (leap (Y + 1)) doy Hd) as Hb. rewrite Ed in Hb.
    unfold days_in_month in Hgt. destruct (m =? 2) eqn:E; bool_prop; [rewrite (Hfeb E) in Hgt|];
      cbn in Hb; rewrite ?E in Hb; lia.
  - rewrite Hnext. destruct (doy + 1 =? _) eqn:E; bool_prop.
    + rewrite (civil_from_days_day_at (n + 1) (Y + 1) 0); [by rewrite date_of_shift; change (date_of 0 0) with (0, 3, 1); cbn; rewrite Z.add_0_r|].
      destruct (decide (yoe = 399)) as [->|].
      * exists (era + 1), 0. change (year_start 399) with 145731 in Hn.
        split; [lia|]. split; [lia|]. split; [by vm_compute|].
        change (leap (399 + 1)) with true in Hleap. rewrite Hleap in E.
        change (year_start 0) with 0. lia.
      * destruct (year_of_era_ends yoe Hy) as (_ & _ & [?|Hs]); [lia|].
        exists era, (yoe + 1). split; [lia|]. split; [lia|].
        split; [clear; unfold year_length; destruct (leap (yoe + 1 + 1)); lia|].
        rewrite Hs. unfold year_length. rewrite <- Hleap. lia.
    + rewrite (civil_from_days_day_at (n + 1) Y (doy + 1)); [by rewrite date_of_shift|].
      exists era, yoe. unfold year_length. rewrite <- Hleap. repeat split; try lia; destruct (leap _); lia.
Qed.

Example epoch_rfc3339 : unix_to_rfc3339 0 = "1970-01-01T00:00:00Z".
Proof. by vm_compute. Qed.
Example midday_rfc3339 : unix_to_rfc3339 (1704067200 + 12 * 3600 + 34 * 60 + 56) = "2024-01-01T12:34:56Z".
Proof. by vm_compute. Qed.
