(* ===== verification/Session.v ===== *)
(** * The live session table and the lifecycle event log.

    Models [crates/muser-server/src/session.rs].  Each method runs under the structure's
    mutex and is one step on its contents; clock readings are arguments (an [Instant] and
    an elapsed time are nanoseconds).  A poisoned mutex is used as it is, so a panic in a
    holder changes nothing. *)
From S2P Require Import Prelude Timefmt.

Definition EVENT_LOG_CAP : nat := 60.

Inductive Origin : Type := OriginCreated | OriginResumed | OriginMigrated.

Record SessionRecord : Type := mkRecord {
  rec_id : string;
  rec_tokens : Z;
  rec_node : string;
  rec_origin : Origin;
  rec_started : Z;
}.

Record SessionView : Type := mkSessionView {
  sv_id : string;
  sv_tokens : Z;
  sv_node : string;
  sv_age : Z;
  sv_origin : Origin;
}.

Definition SessionRegistry : Type := list SessionRecord.

Definition create (now : Z) (id : string) (tokens : Z) (node : string) (origin : Origin)
    (r : SessionRegistry) : SessionRegistry :=
  r ++ [mkRecord id tokens node origin now].

Definition remove (id : string) (r : SessionRegistry) : bool * SessionRegistry :=
  let before := length r in
  let r := List.filter (fun s => negb (String.eqb (rec_id s) id)) r in
  (negb (length r =? before)%nat, r).

(** [iter_mut().find(..)]: the first record with the id. *)
Fixpoint set_tokens (id : string) (tokens : Z) (r : SessionRegistry) : SessionRegistry :=
  match r with
  | [] => []
  | s :: r =>
      if String.eqb (rec_id s) id
      then mkRecord (rec_id s) tokens (rec_node s) (rec_origin s) (rec_started s) :: r
      else s :: set_tokens id tokens r
  end.

Definition len (r : SessionRegistry) : nat := length r.
Definition is_empty (r : SessionRegistry) : bool := (len r =? 0)%nat.

Definition list_sessions (now : Z) (r : SessionRegistry) : list SessionView :=
  map (fun s => mkSessionView (rec_id s) (rec_tokens s) (rec_node s)
                  (saturating_sub now (rec_started s)) (rec_origin s)) r.

Inductive EventKind : Type := EvCreated | EvSaved | EvResumed | EvMigrated | EvEvicted.
Inductive DetailTier : Type := TierResident | TierSsd | TierRdmaPool.

(** [seconds_saved] is an [f64], kept as its bits. *)
Record EventDetail : Type := mkDetail {
  from_node : option string;
  to_node : option string;
  ev_tokens : option Z;
  ev_bytes : option Z;
  tier : option DetailTier;
  seconds_saved : option Z;
}.

Record SessionEvent : Type := mkEvent {
  ts : string;
  kind : EventKind;
  ev_session : string;
  detail : option EventDetail;
}.

Definition EventLog : Type := list SessionEvent.

(** [while log.len() > EVENT_LOG_CAP { log.pop_back(); }], one unit of fuel per event. *)
Fixpoint pop_to_cap (fuel : nat) (log : EventLog) : EventLog :=
  match fuel with
  | O => log
  | S fuel =>
      if (EVENT_LOG_CAP <? length log)%nat then pop_to_cap fuel (take (length log - 1) log) else log
  end.

Definition push (now : option Z) (kind : EventKind) (session : string) (detail : option EventDetail)
    (log : EventLog) : EventLog :=
  let log := mkEvent (now_rfc3339 now) kind session detail :: log in
  pop_to_cap (length log) log.

(** ** The registry against the calls made on it. *)
Inductive registry_call : Type :=
| Create (now : Z) (id : string) (tokens : Z) (node : string) (origin : Origin)
| Remove (id : string)
| SetTokens (id : string) (tokens : Z).

Definition run_call (r : SessionRegistry) (c : registry_call) : SessionRegistry :=
  match c with
  | Create now id tokens node origin => create now id tokens node origin r
  | Remove id => (remove id r).2
  | SetTokens id tokens => set_tokens id tokens r
  end.

(** The calls that concern one id. *)
Definition concerns (id : string) (c : registry_call) : bool :=
  match c with
  | Create _ i _ _ _ => String.eqb i id
  | Remove i => String.eqb i id
  | SetTokens i _ => String.eqb i id
  end.

(** The rows of one id. *)
Definition rows (id : string) (r : SessionRegistry) : SessionRegistry :=
  List.filter (fun s => String.eqb (rec_id s) id) r.

Lemma rows_other id c r : concerns id c = false -> rows id (run_call r c) = rows id r.
Proof.
  unfold rows. destruct c as [now i tokens node origin|i|i tokens]; cbn; intros Hc.
  - unfold create. rewrite List.filter_app. cbn. by rewrite Hc, app_nil_r.
  - induction r as [|s r IH]; [done|]. cbn. destruct (String.eqb (rec_id s) i) eqn:E; cbn.
    + apply String.eqb_eq in E. subst. by rewrite Hc.
    + by rewrite IH.
  - induction r as [|s r IH]; [done|]. cbn. destruct (String.eqb (rec_id s) i) eqn:E; cbn; [|by rewrite IH].
    apply String.eqb_eq in E. subst i. by rewrite Hc.
Qed.

Lemma rows_same id c r : concerns id c = true -> rows id (run_call r c) = run_call (rows id r) c.
Proof.
  unfold rows. destruct c as [now i tokens node origin|i|i tokens]; cbn; intros Hc;
    apply String.eqb_eq in Hc; subst i.
  - unfold create. rewrite List.filter_app. cbn. by rewrite String.eqb_refl.
  - induction r as [|s r IH]; [done|]. cbn. destruct (String.eqb (rec_id s) id) eqn:E; cbn; rewrite ?E; cbn; done.
  - induction r as [|s r IH]; [done|]. cbn. destruct (String.eqb (rec_id s) id) eqn:E; cbn; rewrite ?E; cbn;
      [done | exact IH].
Qed.

(** Sessions do not interfere: after any sequence of create, remove and set-token calls,
    the rows of an id are those the calls naming that id alone would produce; and [remove]
    reports true exactly when the id was listed, after which it is not. *)
Theorem registry_calls_are_per_session (calls : list registry_call) (id : string) :
  let r := foldl run_call [] calls in
  rows id r = foldl run_call [] (List.filter (concerns id) calls) /\
  ((remove id r).1 = true <-> rows id r <> []) /\ rows id (remove id r).2 = [].
Proof.
  intros r. split; [|split].
  - subst r. change (@nil SessionRecord) with (rows id []) at 2. generalize (@nil SessionRecord) as r.
    induction calls as [|c calls IH]; intros r; cbn [foldl List.filter]; [done|].
    rewrite IH. destruct (concerns id c) eqn:E; cbn [foldl]; [by rewrite rows_same | by rewrite rows_other].
  - clearbody r. unfold remove, rows. cbn. induction r as [|s r IH]; [done|]. cbn.
    destruct (String.eqb (rec_id s) id) eqn:E; cbn; [|exact IH].
    split; [done|]. intros _. apply negb_true_iff, Nat.eqb_neq.
    pose proof (List.filter_length_le (fun s => negb (String.eqb (rec_id s) id)) r). lia.
  - clearbody r. unfold remove, rows. cbn. induction r as [|s r IH]; [done|]. cbn.
    destruct (String.eqb (rec_id s) id) eqn:E; cbn; [done | by rewrite E].
Qed.

Lemma pop_to_cap_spec fuel log :
  (length log <= EVENT_LOG_CAP + fuel)%nat -> pop_to_cap fuel log = take EVENT_LOG_CAP log.
Proof.
  revert log. induction fuel as [|fuel IH]; intros log Hl; cbn [pop_to_cap].
  - by rewrite take_ge by lia.
  - destruct (EVENT_LOG_CAP <? length log)%nat eqn:E; bool_prop; [|by rewrite take_ge].
    rewrite IH by (rewrite length_take; lia). rewrite take_take. f_equal. lia.
Qed.

(** One pushed event, with the clock reading of the push. *)
Definition pushed (e : option Z * EventKind * string * option EventDetail) : SessionEvent :=
  let '(now, kind, session, detail) := e in mkEvent (now_rfc3339 now) kind session detail.

(** The event log is the last 60 events, newest first: whatever is pushed, the log is the
    reversed history cut at [EVENT_LOG_CAP]. *)
Theorem event_log_is_recent_history events :
  foldl (fun log e => let '(now, kind, session, detail) := e in push now kind session detail log) [] events =
  take EVENT_LOG_CAP (reverse (map pushed events)).
Proof.
  induction events as [|e events IH] using rev_ind; [done|].
  rewrite foldl_app, IH, map_app, reverse_app. cbn [foldl map].
  destruct e as [[[now k] session] d]. unfold push. rewrite pop_to_cap_spec by lia.
  change (reverse [pushed (now, k, session, d)]) with [pushed (now, k, session, d)].
  change ([pushed (now, k, session, d)] ++ ?l) with (pushed (now, k, session, d) :: l).
  unfold EVENT_LOG_CAP. rewrite (firstn_cons 59), (firstn_cons 59). f_equal.
  rewrite take_take. f_equal.
Qed.
