(* ===== verification/CacheSnapshot.v ===== *)
(** * Restorable cuts of the target KV cache and their wire codecs.

    Models [crates/muser-engine/src/cache.rs] and the layer geometry of [config.rs]: the
    snapshot and its validation, the plane codecs and [write_f16_tile], which writes one
    token-major tile into a token-major or head-major plane.  An f32 is its bits; a
    [&mut [u16]] viewed as bytes is its little-endian encoding, as on the supported hosts. *)
From S2P Require Import Prelude.

Definition MUSE_LAYER_COUNT : Z := 52.
Definition MUSE_SWA_WINDOW : Z := 2048.

Inductive MuseLayerKind : Type := SlidingRope | FullNoPe.
Definition is_swa (k : MuseLayerKind) : bool := match k with SlidingRope => true | FullNoPe => false end.

(** [Err] carries the index, as [LayerIndexError] does. *)
Definition layer_kind (layer : Z) : result Z MuseLayerKind :=
  if MUSE_LAYER_COUNT <=? layer then Err layer
  else if layer mod 4 =? 3 then Ok FullNoPe
  else Ok SlidingRope.

Inductive PlaneEncoding : Type := F16Le | F32Le.
#[global] Instance PlaneEncoding_eq_dec : EqDecision PlaneEncoding.
Proof. solve_decision. Defined.
Definition width_bytes (e : PlaneEncoding) : Z := match e with F16Le => 2 | F32Le => 4 end.

Record CachePlaneSnapshot : Type := mkPlane {
  p_layer : Z;
  p_logical_start : Z;
  p_logical_count : Z;
  p_encoding : PlaneEncoding;
  p_key : list byte;
  p_value : list byte;
}.

Record SessionCacheSnapshot : Type := mkSnapshot {
  position : Z;
  tokens : list Z;
  elements_per_token : Z;
  layers : list CachePlaneSnapshot;
}.

Inductive SnapshotError : Type :=
| ZeroPosition
| TokenCount (tokens position : Z)
| ZeroRowWidth
| LayerCount (layers : Z)
| LayerOrder (layer ordinal : Z)
| LayerRange (ordinal : Z)
| LayerSizeOverflow (ordinal : Z)
| LayerBytes (ordinal key value expected : Z).

(** The row count layer [ordinal] must hold. *)
Definition expected_count (position swa_window ordinal : Z) : Z :=
  match layer_kind ordinal with
  | Ok k => if is_swa k then Z.min position swa_window else position
  | Err _ => position
  end.

(** The per-layer checks, in ordinal order. *)
Fixpoint validate_layers (position ept swa_window ordinal : Z) (planes : list CachePlaneSnapshot)
    : result SnapshotError unit :=
  match planes with
  | [] => Ok tt
  | plane :: planes =>
      if negb (p_layer plane =? ordinal) then Err (LayerOrder (p_layer plane) ordinal)
      else
        let count := expected_count position swa_window ordinal in
        let start := position - count in
        if negb (p_logical_start plane =? start) || negb (p_logical_count plane =? count)
        then Err (LayerRange ordinal)
        else
          let? expected_bytes :=
            ok_or (rows ← usize_try_from count;
                   elements ← checked_mul 64 rows ept;
                   checked_mul 64 elements (width_bytes (p_encoding plane)))
              (LayerSizeOverflow ordinal) in
          if negb (zlen (p_key plane) =? expected_bytes) || negb (zlen (p_value plane) =? expected_bytes)
          then Err (LayerBytes ordinal (zlen (p_key plane)) (zlen (p_value plane)) expected_bytes)
          else validate_layers position ept swa_window (ordinal + 1) planes
  end.

Definition validate_for_window (s : SessionCacheSnapshot) (swa_window : Z) : result SnapshotError unit :=
  if position s =? 0 then Err ZeroPosition
  else if negb (zlen (tokens s) =? position s) then Err (TokenCount (zlen (tokens s)) (position s))
  else if elements_per_token s =? 0 then Err ZeroRowWidth
  else if negb (zlen (layers s) =? MUSE_LAYER_COUNT) then Err (LayerCount (zlen (layers s)))
  else validate_layers (position s) (elements_per_token s) swa_window 0 (layers s).

Definition validate (s : SessionCacheSnapshot) : result SnapshotError unit :=
  validate_for_window s MUSE_SWA_WINDOW.

Definition encoding (s : SessionCacheSnapshot) : option PlaneEncoding :=
  match layers s with
  | [] => None
  | p :: _ =>
      if forallb (fun plane => bool_decide (p_encoding plane = p_encoding p)) (layers s)
      then Some (p_encoding p) else None
  end.

(** ** Codecs: [w]-byte little-endian elements. *)
Definition encode (w : nat) (values : list Z) : list byte := mjoin (map (to_le_bytes w) values).
(** [chunks_exact(w)], one unit of fuel per chunk. *)
Fixpoint chunks_exact (fuel w : nat) (bs : list byte) : list (list byte) :=
  match fuel with
  | O => []
  | S fuel =>
      if (w <=? length bs)%nat then take w bs :: chunks_exact fuel w (drop w bs) else []
  end.
Definition decode (w : nat) (bs : list byte) : list Z :=
  map from_le_bytes (chunks_exact (length bs) w bs).

Definition u16s_to_le_bytes (values : list Z) : list byte := encode 2 values.
Definition f32s_to_le_bytes (values : list Z) : list byte := encode 4 values.
Definition le_bytes_to_u16s (bs : list byte) : result string (list Z) :=
  if negb (is_multiple_of (zlen bs) 2) then Err "F16 plane byte length is not divisible by two"
  else Ok (decode 2 bs).
Definition le_bytes_to_f32s (bs : list byte) : result string (list Z) :=
  if negb (is_multiple_of (zlen bs) 4) then Err "F32 plane byte length is not divisible by four"
  else Ok (decode 4 bs).

Inductive TileError : Type :=
| TileSizeOverflow
| TileGeometry
| TileOffsetOverflow
| TilePanic.

(** [dest[at..at + src.len()].copy_from_slice(src)]. *)
Definition copy_at {A} (dest : list A) (at_ : nat) (src : list A) : result TileError (list A) :=
  if (at_ + length src <=? length dest)%nat
  then Ok (take at_ dest ++ src ++ drop (at_ + length src) dest)
  else Err TilePanic.
(** [&src[a..a + n]]. *)
Definition slice_at {A} (src : list A) (a n : nat) : result TileError (list A) :=
  if (a + n <=? length src)%nat then Ok (take n (drop a src)) else Err TilePanic.

Section Tile.
Context (capacity kv_dim head_dim physical_start count : nat).

(** The body of the head-major loop. *)
Definition copy_head_row (bytes : list byte) (dest : list byte) (head token : nat)
    : result TileError (list byte) :=
  let row_bytes := (head_dim * 2)%nat in
  let source := ((token * kv_dim + head * head_dim) * 2)%nat in
  let destination := ((head * capacity + physical_start + token) * row_bytes)%nat in
  let? src := slice_at bytes source row_bytes in
  copy_at dest destination src.

(** [for head in 0..heads { for token in 0..count { .. } }] over the listed pairs. *)
Fixpoint copy_head_rows (bytes dest : list byte) (pairs : list (nat * nat))
    : result TileError (list byte) :=
  match pairs with
  | [] => Ok dest
  | (head, token) :: pairs =>
      let? dest := copy_head_row bytes dest head token in
      copy_head_rows bytes dest pairs
  end.
Definition head_token_pairs : list (nat * nat) :=
  h ← seq 0 (kv_dim / head_dim); t ← seq 0 count; [(h, t)].

Definition usize (n : nat) : Z := Z.of_nat n.

Definition write_f16_tile (dest : list Z) (head_major : bool) (bytes : list byte)
    : result TileError (list Z) :=
  let? expected := ok_or (elements ← checked_mul 64 (usize count) (usize kv_dim);
                          checked_mul 64 elements 2) TileSizeOverflow in
  if negb (zlen dest =? saturating_mul 64 (usize capacity) (usize kv_dim)) || (kv_dim =? 0)%nat ||
     (head_dim =? 0)%nat || negb (is_multiple_of (usize kv_dim) (usize head_dim)) ||
     negb (zlen bytes =? expected) ||
     match checked_add 64 (usize physical_start) (usize count) with
     | None => true
     | Some end_ => usize capacity <? end_
     end
  then Err TileGeometry
  else
    let dest_bytes := u16s_to_le_bytes dest in
    let? dest_bytes :=
      if negb head_major then
        let? offset := ok_or (elements ← checked_mul 64 (usize physical_start) (usize kv_dim);
                              checked_mul 64 elements 2) TileOffsetOverflow in
        copy_at dest_bytes (Z.to_nat offset) bytes
      else copy_head_rows bytes dest_bytes head_token_pairs in
    Ok (decode 2 dest_bytes).
End Tile.

(** ** Codec lemmas. *)
Lemma chunks_exact_mjoin w (cs : list (list byte)) fuel :
  (0 < w)%nat -> Forall (fun c => length c = w) cs -> (length cs <= fuel)%nat ->
  chunks_exact fuel w (mjoin cs) = cs.
Proof.
  intros Hw. revert fuel. induction cs as [|c cs IH]; intros fuel F Hf.
  - rewrite mjoin_nil. destruct fuel; cbn; [done|]. destruct w; [lia | done].
  - apply Forall_cons in F as [Hc F]. destruct fuel as [|fuel]; [simpl in Hf; lia|].
    rewrite mjoin_cons. cbn [chunks_exact]. rewrite length_app, Hc.
    rewrite (proj2 (Nat.leb_le _ _)), take_app_length', drop_app_length' by (done || lia).
    f_equal. apply IH; [done | simpl in Hf; lia].
Qed.

Lemma length_encode w values : length (encode w values) = (length values * w)%nat.
Proof.
  unfold encode. induction values as [|v values IH]; [done|]. cbn [map].
  rewrite mjoin_cons, length_app, length_to_le_bytes, IH. simpl. lia.
Qed.

Lemma decode_encode w values :
  (0 < w)%nat -> Forall (fun v => 0 <= v < 256 ^ Z.of_nat w) values ->
  decode w (encode w values) = values.
Proof.
  intros Hw F. unfold decode. rewrite length_encode. unfold encode at 1.
  rewrite chunks_exact_mjoin; [|done|..].
  - rewrite map_map. induction F as [|v values Hv F IH]; [done|]. cbn. by rewrite IH, from_to_le_bytes.
  - apply Forall_map, Forall_true. intros v. apply length_to_le_bytes.
  - rewrite length_map. nia.
Qed.

Lemma bytes_are_chunks w n (bs : list byte) :
  length bs = (n * w)%nat -> exists cs, bs = mjoin cs /\ length cs = n /\ Forall (fun c => length c = w) cs.
Proof.
  revert bs. induction n as [|n IH]; intros bs Hl.
  - destruct bs; [|done]. by exists [].
  - destruct (IH (drop w bs)) as (cs & E & L & F); [rewrite length_drop; lia|].
    exists (take w bs :: cs). rewrite mjoin_cons, <- E, take_drop. split; [done|].
    split; [simpl; lia|]. constructor; [rewrite length_take; lia | done].
Qed.

Lemma encode_decode w n (bs : list byte) :
  (0 < w)%nat -> length bs = (n * w)%nat ->
  encode w (decode w bs) = bs /\ length (decode w bs) = n /\
  Forall (fun v => 0 <= v < 256 ^ Z.of_nat w) (decode w bs).
Proof.
  intros Hw Hl. destruct (bytes_are_chunks w n bs Hl) as (cs & -> & L & F).
  unfold decode. rewrite chunks_exact_mjoin by (done || rewrite Hl; nia).
  unfold encode. rewrite map_map, length_map. split; [|split; [done|]].
  - f_equal. clear -F. induction F as [|c cs Hc F IH]; [done|]. cbn. rewrite IH, <- Hc.
    by rewrite to_from_le_bytes.
  - apply Forall_map. eapply Forall_impl; [exact F|]. intros c Hc.
    pose proof (from_le_bytes_range c). unfold zlen in *. by rewrite Hc in *.
Qed.

Lemma encode_app w a b : encode w (a ++ b) = encode w a ++ encode w b.
Proof.
  unfold encode. induction a as [|v a IH]; [done|]. cbn [map app]. by rewrite !mjoin_cons, IH, app_assoc.
Qed.
Lemma take_encode w n v : take (n * w) (encode w v) = encode w (take n v).
Proof.
  rewrite <- (take_drop n v) at 1. rewrite encode_app.
  destruct (decide (n <= length v)%nat).
  - rewrite take_app_length'; [done|]. rewrite length_encode, length_take. nia.
  - rewrite (drop_ge v), (take_ge v) by lia. rewrite app_nil_r, take_ge; [done|].
    rewrite length_encode. nia.
Qed.
Lemma drop_encode w n v : drop (n * w) (encode w v) = encode w (drop n v).
Proof.
  rewrite <- (take_drop n v) at 1. rewrite encode_app.
  destruct (decide (n <= length v)%nat).
  - rewrite drop_app_length'; [done|]. rewrite length_encode, length_take. nia.
  - rewrite (drop_ge v), (take_ge v) by lia. rewrite app_nil_r, drop_ge; [done|].
    rewrite length_encode. nia.
Qed.

(** The plane codecs are inverse: any run of 16-bit values (and of f32 bit patterns) decodes
    back from its wire bytes, a byte string decodes exactly when its length is a multiple of the
    element width, and re-encoding the decoded elements gives the same bytes. *)
Theorem plane_codecs_roundtrip (values : list Z) (bs : list byte) :
  (Forall (is_uint 16) values -> le_bytes_to_u16s (u16s_to_le_bytes values) = Ok values) /\
  (Forall (is_uint 32) values -> le_bytes_to_f32s (f32s_to_le_bytes values) = Ok values) /\
  (match le_bytes_to_u16s bs with
   | Ok v => zlen bs mod 2 = 0 /\ u16s_to_le_bytes v = bs
   | Err _ => zlen bs mod 2 <> 0
   end) /\
  (match le_bytes_to_f32s bs with
   | Ok v => zlen bs mod 4 = 0 /\ f32s_to_le_bytes v = bs
   | Err _ => zlen bs mod 4 <> 0
   end).
Proof.
  assert (forall w, (0 < w)%nat -> zlen bs mod Z.of_nat w = 0 -> encode w (decode w bs) = bs) as Hed.
  { intros w Hw Hm. apply Z.div_exact in Hm; [|lia].
    apply (encode_decode w (Z.to_nat (zlen bs / Z.of_nat w))); [done|]. unfold zlen in *.
    pose proof (Z.div_pos (Z.of_nat (length bs)) (Z.of_nat w) ltac:(lia) ltac:(lia)). nia. }
  unfold le_bytes_to_u16s, le_bytes_to_f32s, u16s_to_le_bytes, f32s_to_le_bytes, is_multiple_of, zlen.
  rewrite !length_encode. cbn [Z.eqb]. rewrite !Nat2Z.inj_mul, !Z.mod_mul by done. cbn [Z.eqb negb].
  split; [|split; [|split]].
  - intros F. by rewrite decode_encode; [|lia|].
  - intros F. by rewrite decode_encode; [|lia|].
  - destruct (_ mod 2 =? 0) eqn:E; cbn; bool_prop; [|done]. split; [done|]. by apply (Hed 2%nat); [lia|].
  - destruct (_ mod 4 =? 0) eqn:E; cbn; bool_prop; [|done]. split; [done|]. by apply (Hed 4%nat); [lia|].
Qed.

(** ** Tiles, element by element. *)
Lemma copy_at_encode w d a s :
  (a + length s <= length d)%nat ->
  copy_at (encode w d) (a * w) (encode w s) = Ok (encode w (take a d ++ s ++ drop (a + length s) d)).
Proof.
  intros H. unfold copy_at. rewrite !length_encode.
  rewrite (proj2 (Nat.leb_le _ _)) by nia.
  by rewrite take_encode, <- Nat.mul_add_distr_r, drop_encode, !encode_app.
Qed.
Lemma slice_at_encode w s a n :
  (a + n <= length s)%nat -> slice_at (encode w s) (a * w) (n * w) = Ok (encode w (take n (drop a s))).
Proof.
  intros H. unfold slice_at. rewrite length_encode, (proj2 (Nat.leb_le _ _)) by nia.
  by rewrite drop_encode, take_encode.
Qed.

Lemma lookup_overwrite {A} (d s : list A) a i :
  (a + length s <= length d)%nat ->
  (take a d ++ s ++ drop (a + length s) d) !! i =
  if decide (a <= i < a + length s)%nat then s !! (i - a)%nat else d !! i.
Proof.
  intros H. assert (length (take a d) = a) as Ha by (rewrite length_take; lia). case_decide.
  - rewrite lookup_app_r, Ha, lookup_app_l by lia. done.
  - destruct (decide (i < a)%nat).
    + rewrite lookup_app_l by lia. apply lookup_take_lt. lia.
    + rewrite !lookup_app_r, Ha by lia. rewrite lookup_drop. f_equal. lia.
Qed.

Definition u16_value (v : Z) : Prop := 0 <= v < 256 ^ Z.of_nat 2.

Section TileSpec.
Context (capacity kv_dim head_dim physical_start count heads : nat).
Context (Hkv : kv_dim = (heads * head_dim)%nat) (Hhd : (0 < head_dim)%nat).
Context (Hfit : (physical_start + count <= capacity)%nat).
Implicit Types (d tile : list Z).

Abbreviation dst h t := ((h * capacity + physical_start + t) * head_dim)%nat.
Abbreviation src h t := (t * kv_dim + h * head_dim)%nat.

Lemma copy_head_row_spec d tile h t :
  length d = (capacity * kv_dim)%nat -> length tile = (count * kv_dim)%nat ->
  (h < heads)%nat -> (t < count)%nat ->
  exists d', copy_head_row capacity kv_dim head_dim physical_start (encode 2 tile) (encode 2 d) h t =
      Ok (encode 2 d') /\ length d' = length d /\
    (Forall u16_value d -> Forall u16_value tile -> Forall u16_value d') /\
    forall i, d' !! i = if decide (dst h t <= i < dst h t + head_dim)%nat
                        then tile !! (src h t + (i - dst h t))%nat else d !! i.
Proof using Hkv Hhd Hfit.
  intros Hd Ht Hh Htc. unfold copy_head_row.
  assert (src h t + head_dim <= length tile)%nat as Hs.
  { rewrite Ht. subst kv_dim. assert (h * head_dim + head_dim <= heads * head_dim)%nat by nia. nia. }
  assert (dst h t + head_dim <= length d)%nat as Hdst.
  { rewrite Hd. subst kv_dim. assert ((h * capacity + physical_start + t) + 1 <= heads * capacity)%nat by nia. nia. }
  rewrite slice_at_encode by done.
  assert (length (take head_dim (drop (src h t) tile)) = head_dim) as Hl
    by (rewrite length_take, length_drop; lia).
  replace ((h * capacity + physical_start + t) * (head_dim * 2))%nat with (dst h t * 2)%nat by lia.
  rewrite copy_at_encode by lia. eexists. split; [reflexivity|]. split.
  { rewrite !length_app, length_take, length_drop, Hl. lia. }
  split.
  - intros F1 F2. apply Forall_app. split; [by apply Forall_take|]. apply Forall_app.
    split; [by apply Forall_take, Forall_drop | by apply Forall_drop].
  - intros i. rewrite lookup_overwrite by lia. rewrite Hl. case_decide; [|done].
    rewrite lookup_take_lt, lookup_drop by lia. done.
Qed.

Lemma dst_disjoint h t h' t' i :
  (t < count)%nat -> (t' < count)%nat ->
  (dst h t <= i < dst h t + head_dim)%nat -> (dst h' t' <= i < dst h' t' + head_dim)%nat ->
  h = h' /\ t = t'.
Proof using Hhd Hfit Hkv.
  intros Ht Ht' Hi Hi'.
  assert (h * capacity + physical_start + t = h' * capacity + physical_start + t')%nat as E by nia.
  assert (h = h')%nat as -> by nia. lia.
Qed.

Lemma copy_head_rows_spec pairs d tile :
  length d = (capacity * kv_dim)%nat -> length tile = (count * kv_dim)%nat -> NoDup pairs ->
  Forall (fun ht => (ht.1 < heads)%nat /\ (ht.2 < count)%nat) pairs ->
  exists d', copy_head_rows capacity kv_dim head_dim physical_start (encode 2 tile) (encode 2 d) pairs =
      Ok (encode 2 d') /\ length d' = length d /\
    (Forall u16_value d -> Forall u16_value tile -> Forall u16_value d') /\
    (forall h t e, (h, t) ∈ pairs -> (e < head_dim)%nat ->
       d' !! (dst h t + e)%nat = tile !! (src h t + e)%nat) /\
    (forall i, (forall h t, (h, t) ∈ pairs -> ~ (dst h t <= i < dst h t + head_dim)%nat) -> d' !! i = d !! i).
Proof using All.
  intros Hd Ht Hnd F. revert d Hd. induction Hnd as [|[h t] pairs Hnin Hnd IH]; intros d Hd.
  { exists d. split; [done|]. split; [done|]. split; [done|]. split; [by intros ? ? ? ?%not_elem_of_nil | done]. }
  apply Forall_cons in F as [[Hh Htc] F]. cbn [fst snd] in *.
  destruct (copy_head_row_spec d tile h t Hd Ht Hh Htc) as (d1 & E1 & L1 & R1 & S1).
  destruct (IH F d1 ltac:(lia)) as (d2 & E2 & L2 & R2 & S2 & U2).
  exists d2. cbn [copy_head_rows]. rewrite E1. split; [done|]. split; [lia|]. split; [auto|].
  rewrite Forall_forall in F. split.
  - intros h' t' e [[= -> ->]|Hin]%elem_of_cons He; [|by apply S2].
    rewrite U2.
    + rewrite S1, decide_True by lia. f_equal. lia.
    + intros h' t' Hin Hr. destruct (F _ Hin) as [_ ?]. cbn in *.
      destruct (dst_disjoint h t h' t' (dst h t + e)) as [-> ->]; [lia..|]. done.
  - intros i Hi. rewrite U2 by (intros h' t' Hin; apply Hi; by constructor).
    rewrite S1, decide_False; [done|]. apply Hi. constructor.
Qed.
End TileSpec.

(** Where row [p], element [e] of a plane is stored. *)
Definition plane_index (capacity kv_dim head_dim : nat) (head_major : bool) (p e : nat) : nat :=
  if head_major then ((e / head_dim) * capacity + p) * head_dim + e mod head_dim
  else p * kv_dim + e.

Lemma head_token_pairs_spec kv_dim head_dim count heads h t :
  (0 < head_dim)%nat -> kv_dim = (heads * head_dim)%nat ->
  (h, t) ∈ head_token_pairs kv_dim head_dim count <-> (h < heads)%nat /\ (t < count)%nat.
Proof.
  intros Hhd ->. unfold head_token_pairs. rewrite Nat.div_mul by lia.
  rewrite list_elem_of_bind. setoid_rewrite list_elem_of_bind. setoid_rewrite list_elem_of_singleton.
  setoid_rewrite elem_of_seq. split.
  - intros (h' & (t' & [= -> ->] & ?) & ?). lia.
  - intros [? ?]. exists h. split; [|lia]. exists t. split; [done | lia].
Qed.
Lemma head_token_pairs_NoDup kv_dim head_dim count : NoDup (head_token_pairs kv_dim head_dim count).
Proof.
  unfold head_token_pairs. apply NoDup_bind.
  - intros h h' [x y] _ _ (t & [= -> ->]%list_elem_of_singleton & _)%list_elem_of_bind
      (t' & [= -> ->]%list_elem_of_singleton & _)%list_elem_of_bind. done.
  - intros h _. apply NoDup_bind.
    + intros t t' [x y] _ _ [= -> ->]%list_elem_of_singleton [= ->]%list_elem_of_singleton. done.
    + intros. apply NoDup_singleton.
    + apply NoDup_seq.
  - apply NoDup_seq.
Qed.

Section WriteTile.
Context (capacity kv_dim head_dim physical_start count heads : nat) (dest : list Z) (bytes : list byte).
Context (Hkv : kv_dim = (heads * head_dim)%nat) (Hheads : (0 < heads)%nat) (Hhd : (0 < head_dim)%nat).
Context (Hfit : (physical_start + count <= capacity)%nat) (Hcap : Z.of_nat capacity < 2 ^ 64).
Context (Hdest : length dest = (capacity * kv_dim)%nat) (Hu16 : Forall u16_value dest).
Context (Hbytes : length bytes = (count * kv_dim * 2)%nat).
Context (Hmem : Z.of_nat (capacity * kv_dim * 2) < 2 ^ 64).

(** Past the guard: the copy into the byte view of the plane. *)
Lemma write_f16_tile_guard head_major :
  write_f16_tile capacity kv_dim head_dim physical_start count dest head_major bytes =
  let? dest_bytes :=
    if negb head_major then copy_at (encode 2 dest) (physical_start * kv_dim * 2) bytes
    else copy_head_rows capacity kv_dim head_dim physical_start bytes (encode 2 dest)
           (head_token_pairs kv_dim head_dim count) in
  Ok (decode 2 dest_bytes).
Proof using All.
  unfold write_f16_tile, checked_mul, checked_add, saturating_mul, usize, zlen, is_multiple_of.
  assert (count * kv_dim <= capacity * kv_dim)%nat by nia.
  assert (physical_start * kv_dim <= capacity * kv_dim)%nat by nia.
  rewrite (proj2 (Z.ltb_lt (Z.of_nat count * Z.of_nat kv_dim) _)) by lia. cbn [mbind option_bind].
  rewrite (proj2 (Z.ltb_lt (Z.of_nat count * Z.of_nat kv_dim * 2) _)) by lia. cbn [ok_or].
  rewrite Hdest, Hbytes, Z.min_l by lia.
  rewrite (proj2 (Z.eqb_eq (Z.of_nat (capacity * kv_dim)) _)) by lia.
  rewrite (proj2 (Nat.eqb_neq kv_dim 0)), (proj2 (Nat.eqb_neq head_dim 0)) by nia.
  rewrite (proj2 (Z.eqb_neq (Z.of_nat head_dim) 0)) by lia.
  rewrite Hkv at 1. rewrite Nat2Z.inj_mul, Z.mod_mul by lia. cbn [Z.eqb negb orb].
  rewrite (proj2 (Z.eqb_eq (Z.of_nat (count * kv_dim * 2)) _)) by lia. cbn [negb orb].
  rewrite (proj2 (Z.ltb_lt (Z.of_nat physical_start + Z.of_nat count) _)) by lia.
  rewrite (proj2 (Z.ltb_ge (Z.of_nat capacity) _)) by lia.
  destruct head_major; cbn [negb]; [done|].
  rewrite (proj2 (Z.ltb_lt (Z.of_nat physical_start * Z.of_nat kv_dim) _)) by lia. cbn [mbind option_bind].
  rewrite (proj2 (Z.ltb_lt (Z.of_nat physical_start * Z.of_nat kv_dim * 2) _)) by lia. cbn [ok_or].
  replace (Z.to_nat (Z.of_nat physical_start * Z.of_nat kv_dim * 2)) with (physical_start * kv_dim * 2)%nat by lia.
  done.
Qed.

Lemma write_f16_tile_elements head_major :
  exists dest', write_f16_tile capacity kv_dim head_dim physical_start count dest head_major bytes = Ok dest' /\
    length dest' = length dest /\
    forall p e, (p < capacity)%nat -> (e < kv_dim)%nat ->
      dest' !! plane_index capacity kv_dim head_dim head_major p e =
      if decide (physical_start <= p < physical_start + count)%nat
      then decode 2 bytes !! ((p - physical_start) * kv_dim + e)%nat
      else dest !! plane_index capacity kv_dim head_dim head_major p e.
Proof using All.
  rewrite write_f16_tile_guard.
  destruct (encode_decode 2 (count * kv_dim) bytes ltac:(lia) Hbytes) as (Hed & Hlen & Hrange).
  set (tile := decode 2 bytes) in *. rewrite <- Hed. destruct head_major; cbn [negb plane_index].
  - destruct (copy_head_rows_spec capacity kv_dim head_dim physical_start count heads Hkv Hhd Hfit
      (head_token_pairs kv_dim head_dim count) dest tile Hdest Hlen) as (d' & E & L & R & S1 & U).
    + apply head_token_pairs_NoDup.
    + apply Forall_forall. intros [h t]. by apply head_token_pairs_spec.
    + rewrite E. rewrite decode_encode by (lia || by apply R). exists d'. split; [done|]. split; [done|].
      intros p e Hp He. pose proof (Nat.div_mod_eq e head_dim) as Hdm.
      pose proof (Nat.mod_upper_bound e head_dim ltac:(lia)) as Hmod.
      assert (e / head_dim < heads)%nat as Hhead by (apply Nat.Div0.div_lt_upper_bound; lia).
      set (h := (e / head_dim)%nat) in *. set (o := (e mod head_dim)%nat) in *. case_decide as Hr.
      * replace (h * capacity + p)%nat with (h * capacity + physical_start + (p - physical_start))%nat by lia.
        rewrite S1; [f_equal; lia | apply (head_token_pairs_spec _ _ _ heads); [done..|lia] | done].
      * apply U. intros h' t' [? ?]%(head_token_pairs_spec _ _ _ heads) Hin; try done.
        assert (h * capacity + p = h' * capacity + physical_start + t')%nat by nia.
        assert (h = h')%nat as <- by nia. lia.
  - rewrite copy_at_encode by nia. rewrite Hlen.
    set (d' := take _ dest ++ _). assert (Forall u16_value d') as Hd'.
    { apply Forall_app. split; [by apply Forall_take|]. apply Forall_app. split; [done | by apply Forall_drop]. }
    rewrite decode_encode by (lia || done). exists d'. split; [done|]. subst d'.
    split; [rewrite !length_app, length_take, length_drop; nia|].
    intros p e Hp He. rewrite <- Hlen. rewrite lookup_overwrite by nia. rewrite Hlen.
    destruct (decide (physical_start <= p < physical_start + count)%nat).
    + rewrite decide_True by nia. f_equal. nia.
    + rewrite decide_False by nia. done.
Qed.
End WriteTile.

(** Tile placement: for every plane geometry whose rows fit, [write_f16_tile] succeeds and
    the plane afterwards holds, for row [p] and element [e], the tile's element when
    [physical_start <= p < physical_start + count] and the old element otherwise -- in the
    token-major layout (one copy) and in the head-major layout (one copy per head and token)
    alike. *)
Theorem write_f16_tile_places_rows capacity kv_dim head_dim physical_start count heads dest bytes head_major :
  kv_dim = (heads * head_dim)%nat -> (0 < heads)%nat -> (0 < head_dim)%nat ->
  (physical_start + count <= capacity)%nat -> Z.of_nat capacity < 2 ^ 64 ->
  length dest = (capacity * kv_dim)%nat -> Forall u16_value dest ->
  length bytes = (count * kv_dim * 2)%nat -> Z.of_nat (capacity * kv_dim * 2) < 2 ^ 64 ->
  exists dest', write_f16_tile capacity kv_dim head_dim physical_start count dest head_major bytes = Ok dest' /\
    length dest' = length dest /\
    forall p e, (p < capacity)%nat -> (e < kv_dim)%nat ->
      dest' !! plane_index capacity kv_dim head_dim head_major p e =
      if decide (physical_start <= p < physical_start + count)%nat
      then decode 2 bytes !! ((p - physical_start) * kv_dim + e)%nat
      else dest !! plane_index capacity kv_dim head_dim head_major p e.
Proof. intros. by eapply write_f16_tile_elements. Qed.

Lemma write_f16_tile_places_rows_witness :
  exists dest', write_f16_tile 3 4 2 1 2 (replicate 12 0) true (encode 2 [1; 2; 3; 4; 5; 6; 7; 8]) = Ok dest' /\
    dest' = [0; 0; 1; 2; 5; 6; 0; 0; 3; 4; 7; 8] /\
    dest' !! plane_index 3 4 2 true 2 3 = Some 8.
Proof.
  destruct (write_f16_tile_places_rows 3 4 2 1 2 2 (replicate 12 0) (encode 2 [1; 2; 3; 4; 5; 6; 7; 8]) true)
    as (dest' & E & _ & H); [lia | lia | lia | lia | lia | done | by repeat constructor | done | lia |].
  exists dest'. split; [done|]. split; [by vm_compute in E; injection E as <-|].
  rewrite H by lia. by vm_compute.
Defined.

Lemma plane_codecs_roundtrip_witness :
  le_bytes_to_u16s (u16s_to_le_bytes [258; 65535]) = Ok [258; 65535].
Proof. apply (plane_codecs_roundtrip [258; 65535] []). by repeat constructor. Defined.
