(* ===== verification/Radix.v ===== *)
(** * The compressed token radix of the resident cache.

    Models the tree of [crates/muser-kvpack/src/resident.rs]: [RadixNode] and the functions
    over it.  A [HashMap] of children is an association list in the map's iteration order,
    which the code never relies on; keys are unique ([node_wf]).  The tree stores entries of
    any snapshot type: the functions only copy the [Arc]. *)
From S2P Require Import Prelude.

Definition IDENTITY_KEY_WORDS : Z := 9.

Section Radix.
Context {Snap : Type}.

Record ResidentEntry : Type := mkEntry {
  e_id : Z;
  e_snapshot : Snap;
  ancestor_reusable : bool;
  last_access : Z;
}.

Inductive RadixNode : Type :=
| Node (edge : list Z) (entry : option ResidentEntry) (children : list (Z * RadixNode)).

Definition edge (n : RadixNode) : list Z := let (e, _, _) := n in e.
Definition entry (n : RadixNode) : option ResidentEntry := let (_, e, _) := n in e.
Definition children (n : RadixNode) : list (Z * RadixNode) := let (_, _, c) := n in c.

Definition empty_root : RadixNode := Node [] None [].

Record ResidentHit : Type := mkHit {
  cut : Z;
  exact_hit : bool;
  hit_snapshot : Snap;
}.

Fixpoint shared_prefix_len (a b : list Z) : nat :=
  match a, b with
  | x :: a, y :: b => if x =? y then S (shared_prefix_len a b) else 0
  | _, _ => 0
  end.

(** The branch of [insert_recursive] that splits the edge of child [old]. *)
Definition split_child (old : RadixNode) (shared : nat) (tokens : list Z) (e : ResidentEntry) : RadixNode :=
  let old_suffix := drop shared (edge old) in
  let moved := (hd 0 old_suffix, Node old_suffix (entry old) (children old)) in
  match drop shared tokens with
  | [] => Node (take shared (edge old)) (Some e) [moved]
  | t :: new_suffix =>
      Node (take shared (edge old)) None [moved; (t, Node (t :: new_suffix) (Some e) [])]
  end.

Fixpoint insert_recursive (n : RadixNode) (tokens : list Z) (e : ResidentEntry) {struct n} : RadixNode :=
  match n with
  | Node edge0 entry0 children0 =>
      match tokens with
      | [] => Node edge0 (Some e) children0
      | first :: _ =>
          let fix update (cs : list (Z * RadixNode)) : list (Z * RadixNode) :=
            match cs with
            | [] => [(first, Node tokens (Some e) [])]
            | (k, child) :: cs =>
                if k =? first then
                  let shared := shared_prefix_len (edge child) tokens in
                  (k, if (shared =? length (edge child))%nat
                      then insert_recursive child (drop shared tokens) e
                      else split_child child shared tokens e) :: cs
                else (k, child) :: update cs
            end in
          Node edge0 entry0 (update children0)
      end
  end.

(** [longest_match_recursive]: the tree with touched entries, and [best]. *)
Definition touch (now : Z) (e : ResidentEntry) : ResidentEntry :=
  mkEntry (e_id e) (e_snapshot e) (ancestor_reusable e) now.

Fixpoint longest_match_recursive (n : RadixNode) (remaining : list Z) (depth now max_depth : Z)
    (best : option ResidentHit) {struct n} : RadixNode * option ResidentHit :=
  match n with
  | Node edge0 entry0 children0 =>
      let exact := match remaining with [] => true | _ => false end in
      let '(entry1, best) :=
        match entry0 with
        | Some e =>
            if (depth <=? max_depth) && (exact || ancestor_reusable e)
            then (Some (touch now e),
                  Some (mkHit (as_unsigned 64 (depth - IDENTITY_KEY_WORDS)) exact (e_snapshot e)))
            else (Some e, best)
        | None => (None, best)
        end in
      if max_depth <=? depth then (Node edge0 entry1 children0, best)
      else
        match remaining with
        | [] => (Node edge0 entry1 children0, best)
        | first :: _ =>
            let fix visit (cs : list (Z * RadixNode)) : list (Z * RadixNode) * option ResidentHit :=
              match cs with
              | [] => ([], best)
              | (k, child) :: cs =>
                  if k =? first then
                    let shared := shared_prefix_len (edge child) remaining in
                    if (shared =? length (edge child))%nat then
                      let (child, best) :=
                        longest_match_recursive child (drop shared remaining)
                          (depth + Z.of_nat shared) now max_depth best in
                      ((k, child) :: cs, best)
                    else ((k, child) :: cs, best)
                  else let (cs, best) := visit cs in ((k, child) :: cs, best)
              end in
            let (cs, best) := visit children0 in
            (Node edge0 entry1 cs, best)
        end
  end.

(** The traversal of [find_lru]. *)
Fixpoint lru_visit (n : RadixNode) (best : option (Z * Z)) {struct n} : option (Z * Z) :=
  match n with
  | Node _ entry0 children0 =>
      let best :=
        match entry0 with
        | Some e =>
            if match best with None => true | Some (_, age) => last_access e <? age end
            then Some (e_id e, last_access e) else best
        | None => best
        end in
      let fix visit (cs : list (Z * RadixNode)) (best : option (Z * Z)) : option (Z * Z) :=
        match cs with
        | [] => best
        | (_, child) :: cs => visit cs (lru_visit child best)
        end in
      visit children0 best
  end.
Definition find_lru (root : RadixNode) : option Z := fst <$> lru_visit root None.

(** [remove_entry]: the tree after the call and whether an entry was removed. *)
Fixpoint remove_entry (n : RadixNode) (id : Z) {struct n} : RadixNode * bool :=
  match n with
  | Node edge0 entry0 children0 =>
      if match entry0 with Some e => e_id e =? id | None => false end
      then (Node edge0 None children0, true)
      else
        let fix any (cs : list (Z * RadixNode)) : list (Z * RadixNode) * bool :=
          match cs with
          | [] => ([], false)
          | (k, child) :: cs =>
              let (child, removed) := remove_entry child id in
              if removed then ((k, child) :: cs, true)
              else let (cs, removed) := any cs in ((k, child) :: cs, removed)
          end in
        let (cs, removed) := any children0 in
        (Node edge0 entry0 cs, removed)
  end.

Fixpoint prune_empty (n : RadixNode) {struct n} : RadixNode :=
  match n with
  | Node edge0 entry0 children0 =>
      let fix retain (cs : list (Z * RadixNode)) : list (Z * RadixNode) :=
        match cs with
        | [] => []
        | (k, child) :: cs =>
            let child := prune_empty child in
            if match entry child with Some _ => true | None => false end ||
               match children child with [] => false | _ => true end
            then (k, child) :: retain cs
            else retain cs
        end in
      Node edge0 entry0 (retain children0)
  end.

Fixpoint find_id (n : RadixNode) (id : Z) {struct n} : bool :=
  match n with
  | Node _ entry0 children0 =>
      match entry0 with Some e => e_id e =? id | None => false end ||
      (fix any (cs : list (Z * RadixNode)) : bool :=
         match cs with
         | [] => false
         | (_, child) :: cs => find_id child id || any cs
         end) children0
  end.

(** [count_nodes], with the two counters as a pair. *)
Fixpoint count_nodes (n : RadixNode) (counts : Z * Z) {struct n} : Z * Z :=
  match n with
  | Node _ entry0 children0 =>
      let (entries, nodes) := counts in
      let counts := (match entry0 with Some _ => entries + 1 | None => entries end, nodes + 1) in
      (fix visit (cs : list (Z * RadixNode)) (counts : Z * Z) : Z * Z :=
         match cs with
         | [] => counts
         | (_, child) :: cs => visit cs (count_nodes child counts)
         end) children0 counts
  end.

(** [entry_logits_bytes], given how many logits a snapshot carries. *)
Fixpoint entry_logits_bytes (logits : Snap -> Z) (n : RadixNode) {struct n} : Z :=
  match n with
  | Node _ entry0 children0 =>
      let own := match entry0 with
                 | Some e => saturating_mul 64 (logits (e_snapshot e)) 4
                 | None => 0
                 end in
      (fix fold (cs : list (Z * RadixNode)) (total : Z) : Z :=
         match cs with
         | [] => total
         | (_, child) :: cs => fold cs (saturating_add 64 total (entry_logits_bytes logits child))
         end) children0 own
  end.
End Radix.
Arguments ResidentEntry : clear implicits.
Arguments RadixNode : clear implicits.
Arguments ResidentHit : clear implicits.

(** ** Induction over a tree and its children. *)
Section Induction.
Context {Snap : Type} (P : RadixNode Snap -> Prop).
Context (Hnode : forall edge entry children, Forall (fun kc => P kc.2) children -> P (Node edge entry children)).

Fixpoint RadixNode_induction (n : RadixNode Snap) : P n :=
  match n with
  | Node edge entry children =>
      Hnode edge entry children
        ((fix go (cs : list (Z * RadixNode Snap)) : Forall (fun kc => P kc.2) cs :=
            match cs with
            | [] => List.Forall_nil _
            | kc :: cs => @List.Forall_cons _ _ kc cs (RadixNode_induction kc.2) (go cs)
            end) children)
  end.
End Induction.

(** ** The entries of a tree, with their keys relative to the node, in traversal order. *)
Section Entries.
Context {Snap : Type}.
Implicit Types (n c : RadixNode Snap) (e x : ResidentEntry Snap) (cs : list (Z * RadixNode Snap)).

Fixpoint entries n : list (list Z * ResidentEntry Snap) :=
  match n with
  | Node _ entry0 children0 =>
      match entry0 with Some e => [([], e)] | None => [] end ++
      (fix go cs : list (list Z * ResidentEntry Snap) :=
         match cs with
         | [] => []
         | (_, c) :: cs => map (fun pe => (edge c ++ pe.1, pe.2)) (entries c) ++ go cs
         end) children0
  end.
Definition below c : list (list Z * ResidentEntry Snap) :=
  map (fun pe => (edge c ++ pe.1, pe.2)) (entries c).
Definition child_entries cs : list (list Z * ResidentEntry Snap) := mjoin (map (fun kc => below kc.2) cs).
Definition own_entry (entry0 : option (ResidentEntry Snap)) : list (list Z * ResidentEntry Snap) :=
  match entry0 with Some e => [([], e)] | None => [] end.

Lemma entries_Node edge0 entry0 cs : entries (Node edge0 entry0 cs) = own_entry entry0 ++ child_entries cs.
Proof.
  cbn. unfold own_entry. f_equal. unfold child_entries.
  induction cs as [|[k c] cs IH]; [done|]. cbn [map]. by rewrite mjoin_cons, <- IH.
Qed.
Lemma child_entries_cons k c cs : child_entries ((k, c) :: cs) = below c ++ child_entries cs.
Proof. unfold child_entries. cbn [map]. by rewrite mjoin_cons. Qed.
Lemma child_entries_nil : child_entries [] = [].
Proof. done. Qed.
Lemma child_entries_app cs cs' : child_entries (cs ++ cs') = child_entries cs ++ child_entries cs'.
Proof. unfold child_entries. by rewrite map_app, join_app. Qed.

Lemma elem_of_below p x c : (p, x) ∈ below c <-> exists q, p = edge c ++ q /\ (q, x) ∈ entries c.
Proof.
  unfold below. rewrite list_elem_of_fmap. split.
  - intros ([q y] & [= -> ->] & Hin). eauto.
  - intros (q & -> & Hin). by exists (q, x).
Qed.
Lemma elem_of_child_entries p x cs :
  (p, x) ∈ child_entries cs <-> exists k c, (k, c) ∈ cs /\ (p, x) ∈ below c.
Proof.
  unfold child_entries. rewrite list_elem_of_join. split.
  - intros (l & Hin & ([k c] & -> & Hkc)%list_elem_of_fmap). by exists k, c.
  - intros (k & c & Hkc & Hin). exists (below c). split; [done|].
    apply list_elem_of_fmap. by exists (k, c).
Qed.
Lemma elem_of_own p x entry0 : (p, x) ∈ own_entry entry0 <-> p = [] /\ entry0 = Some x.
Proof.
  destruct entry0; cbn; [rewrite list_elem_of_singleton; naive_solver|].
  split; [by intros ?%not_elem_of_nil | by intros [_ ?]].
Qed.

(** Well-formed: distinct child keys, and each child's edge starts with its key. *)
Inductive node_wf : RadixNode Snap -> Prop :=
| node_wf_intro edge0 entry0 cs :
    NoDup cs.*1 ->
    Forall (fun kc => exists suffix, edge kc.2 = kc.1 :: suffix) cs ->
    Forall (fun kc => node_wf kc.2) cs ->
    node_wf (Node edge0 entry0 cs).

Lemma node_wf_inv edge0 entry0 cs :
  node_wf (Node edge0 entry0 cs) ->
  NoDup cs.*1 /\ Forall (fun kc => exists suffix, edge kc.2 = kc.1 :: suffix) cs /\
  Forall (fun kc => node_wf kc.2) cs.
Proof. inversion 1; auto. Qed.

Lemma empty_root_wf : node_wf empty_root.
Proof. constructor; constructor. Qed.

(** A path below a child starts with the child's key. *)
Lemma below_head p x k c : (exists suffix, edge c = k :: suffix) -> (p, x) ∈ below c -> exists q, p = k :: q.
Proof. intros [suffix E] (q & -> & _)%elem_of_below. rewrite E. eexists. reflexivity. Qed.

Lemma child_entries_head p x cs :
  Forall (fun kc => exists suffix, edge kc.2 = kc.1 :: suffix) cs -> (p, x) ∈ child_entries cs ->
  exists k q, p = k :: q /\ k ∈ cs.*1.
Proof.
  intros F (k & c & Hkc & Hin)%elem_of_child_entries. rewrite Forall_forall in F.
  destruct (below_head p x k c (F _ Hkc) Hin) as [q ->]. exists k, q. split; [done|].
  apply list_elem_of_fmap. by exists (k, c).
Qed.

Lemma shared_prefix_spec a b :
  take (shared_prefix_len a b) a = take (shared_prefix_len a b) b /\
  (shared_prefix_len a b <= length a)%nat /\ (shared_prefix_len a b <= length b)%nat /\
  match drop (shared_prefix_len a b) a, drop (shared_prefix_len a b) b with
  | x :: _, y :: _ => x <> y
  | _, _ => True
  end.
Proof.
  revert b. induction a as [|x a IH]; intros [|y b]; cbn; try (repeat split; done || lia).
  destruct (x =? y) eqn:E; bool_prop; cbn; [|repeat split; done || lia].
  subst. destruct (IH b) as (H1 & H2 & H3 & H4). rewrite H1. repeat split; done || lia.
Qed.

(** The whole edge matched: the key continues below the child. *)
Lemma shared_prefix_full a b :
  shared_prefix_len a b = length a -> b = a ++ drop (shared_prefix_len a b) b.
Proof.
  intros E. destruct (shared_prefix_spec a b) as (H & _). rewrite <- (take_drop (shared_prefix_len a b) b) at 1.
  rewrite <- H, E, take_ge by done. done.
Qed.
Lemma shared_prefix_app a q : shared_prefix_len a (a ++ q) = length a.
Proof. induction a as [|x a IH]; cbn; [done|]. by rewrite Z.eqb_refl, IH. Qed.
End Entries.

(** Each child's edge starts with its key. *)
Abbreviation heads cs := (Forall (fun kc => exists suffix, edge kc.2 = kc.1 :: suffix) cs).

(** ** Insertion. *)
Section Insert.
Context {Snap : Type}.
Implicit Types (n c : RadixNode Snap) (e x : ResidentEntry Snap) (cs : list (Z * RadixNode Snap)).

Definition insert_child c (tokens : list Z) e : RadixNode Snap :=
  let shared := shared_prefix_len (edge c) tokens in
  if (shared =? length (edge c))%nat then insert_recursive c (drop shared tokens) e
  else split_child c shared tokens e.

Fixpoint update_children cs (first : Z) (tokens : list Z) e : list (Z * RadixNode Snap) :=
  match cs with
  | [] => [(first, Node tokens (Some e) [])]
  | (k, c) :: cs =>
      if k =? first then (k, insert_child c tokens e) :: cs
      else (k, c) :: update_children cs first tokens e
  end.

Lemma insert_recursive_Node edge0 entry0 cs t ts e :
  insert_recursive (Node edge0 entry0 cs) (t :: ts) e =
  Node edge0 entry0 (update_children cs t (t :: ts) e).
Proof.
  cbn [insert_recursive]. f_equal. induction cs as [|[k c] cs IH]; [done|].
  cbn [update_children]. destruct (k =? t); [done|]. by f_equal.
Qed.

Lemma insert_edge n tokens e : edge (insert_recursive n tokens e) = edge n.
Proof. destruct n, tokens; [done|]. by rewrite insert_recursive_Node. Qed.

(** What an insertion must do to a set of keyed entries. *)
Definition inserted (tokens : list Z) e (before after : list (list Z * ResidentEntry Snap)) : Prop :=
  forall p x, (p, x) ∈ after <-> (p = tokens /\ x = e) \/ (p <> tokens /\ (p, x) ∈ before).

Lemma inserted_below c c' rest e :
  edge c' = edge c -> inserted rest e (entries c) (entries c') ->
  inserted (edge c ++ rest) e (below c) (below c').
Proof.
  intros Hedge H p x. rewrite !elem_of_below, Hedge. split.
  - intros (q & -> & [[-> ->]|[Hne Hin]]%H); [by left|]. right. split; [by intros ?%app_inv_head|eauto].
  - intros [[-> ->]|[Hne (q & -> & Hin)]].
    + exists rest. split; [done|]. apply H. by left.
    + exists q. split; [done|]. apply H. right. split; [congruence | done].
Qed.

Lemma split_child_spec k suffix0 c tokens e :
  edge c = k :: suffix0 -> head tokens = Some k -> node_wf c ->
  shared_prefix_len (edge c) tokens <> length (edge c) ->
  let c' := split_child c (shared_prefix_len (edge c) tokens) tokens e in
  node_wf c' /\ (exists suffix, edge c' = k :: suffix) /\ inserted tokens e (below c) (below c').
Proof.
  intros Hedge Htok Hwf Hshared.
  destruct (shared_prefix_spec (edge c) tokens) as (Htake & Hle & Hle' & Hdiff).
  assert (shared_prefix_len (edge c) tokens <> 0)%nat as Hpos.
  { rewrite Hedge. destruct tokens as [|t ts]; [done|]. injection Htok as ->. cbn. by rewrite Z.eqb_refl. }
  set (shared := shared_prefix_len (edge c) tokens) in *. clearbody shared.
  set (pre := take shared (edge c)) in *.
  assert (exists suffix, pre = k :: suffix) as Hpre.
  { subst pre. rewrite Hedge. destruct shared; [done|]. eexists. reflexivity. }
  assert (edge c = pre ++ drop shared (edge c)) as Ec by (subst pre; by rewrite take_drop).
  assert (tokens = pre ++ drop shared tokens) as Et by (rewrite Htake; by rewrite take_drop).
  destruct (drop shared (edge c)) as [|s old] eqn:Eold.
  { apply (f_equal length) in Eold. rewrite length_drop in Eold. simpl in Eold. lia. }
  destruct c as [edge0 entry0 cs]. cbn [edge] in *. unfold split_child. cbn [edge entry children].
  fold pre. rewrite Eold. cbn [hd].
  assert (forall p x, (p, x) ∈ below (Node edge0 entry0 cs) <->
            exists q, p = pre ++ s :: old ++ q /\ (q, x) ∈ entries (Node edge0 entry0 cs)) as Hold.
  { intros p x. rewrite elem_of_below. cbn [edge]. rewrite Ec. by setoid_rewrite <- app_assoc. }
  assert (node_wf (Node (s :: old) entry0 cs)) as Hwf'.
  { apply node_wf_inv in Hwf as (?&?&?). by constructor. }
  destruct (drop shared tokens) as [|t new] eqn:Enew.
  - split; [|split; [done|]].
    + constructor; [apply NoDup_singleton | apply Forall_singleton; by exists old | by apply Forall_singleton].
    + intros p x. rewrite Hold, elem_of_below. cbn [edge]. rewrite entries_Node. cbn [own_entry].
      rewrite Et, app_nil_r. split.
      * intros (q & -> & [[-> ->]%list_elem_of_singleton%pair_equal_spec|Hin]%elem_of_app).
        { left. by rewrite app_nil_r. }
        rewrite child_entries_cons, child_entries_nil, app_nil_r in Hin.
        apply elem_of_below in Hin as (q' & -> & Hin). right. cbn [edge]. split.
        { intros E. rewrite <- (app_nil_r pre) in E at 2. by apply app_inv_head in E. }
        exists q'. split; [done|]. by rewrite entries_Node in *.
      * intros [[-> ->]|[Hne (q & -> & Hin)]].
        { exists []. rewrite app_nil_r. split; [done|]. apply elem_of_app. left. by apply list_elem_of_singleton. }
        exists (s :: old ++ q). split; [done|]. apply elem_of_app. right.
        rewrite child_entries_cons, child_entries_nil, app_nil_r. apply elem_of_below.
        exists q. split; [done|]. by rewrite entries_Node in *.
  - split; [|split; [done|]].
    + constructor.
      * cbn. apply NoDup_cons. split; [|apply NoDup_singleton]. by intros ?%list_elem_of_singleton.
      * apply Forall_cons. split; [by exists old|]. apply Forall_singleton. by exists new.
      * apply Forall_cons. split; [done|]. apply Forall_singleton. cbn.
        constructor; [apply NoDup_nil_2 | by apply Forall_nil..].
    + assert (forall q x, (q, x) ∈ entries (Node pre None
          [(s, Node (s :: old) entry0 cs); (t, Node (t :: new) (Some e) [])]) <->
        (q, x) ∈ below (Node (s :: old) entry0 cs) \/ (q = t :: new /\ x = e)) as Hnew.
      { intros q x. rewrite entries_Node. cbn [own_entry app].
        rewrite !child_entries_cons, child_entries_nil, app_nil_r, elem_of_app.
        unfold below at 2. rewrite entries_Node, child_entries_nil. cbn.
        rewrite list_elem_of_singleton, app_nil_r. naive_solver. }
      intros p x. rewrite Hold, elem_of_below. cbn [edge]. rewrite Et. split.
      * intros (q & -> & [(q' & -> & Hin)%elem_of_below|[-> ->]]%Hnew); [|by left].
        right. cbn [edge]. split; [intros E%app_inv_head; by injection E|].
        exists q'. split; [done|]. by rewrite entries_Node in *.
      * intros [[-> ->]|[Hne (q & -> & Hin)]].
        { exists (t :: new). split; [done|]. apply Hnew. by right. }
        exists (s :: old ++ q). split; [done|]. apply Hnew. left. apply elem_of_below.
        exists q. split; [done|]. by rewrite entries_Node in *.
Qed.

Definition insert_ok n : Prop :=
  forall tokens e, node_wf n ->
    node_wf (insert_recursive n tokens e) /\
    inserted tokens e (entries n) (entries (insert_recursive n tokens e)).

Lemma insert_child_spec k suffix0 c tokens e :
  edge c = k :: suffix0 -> head tokens = Some k -> node_wf c -> insert_ok c ->
  node_wf (insert_child c tokens e) /\ (exists suffix, edge (insert_child c tokens e) = k :: suffix) /\
  inserted tokens e (below c) (below (insert_child c tokens e)).
Proof.
  intros Hedge Htok Hwf IH. unfold insert_child.
  destruct (shared_prefix_len (edge c) tokens =? length (edge c))%nat eqn:E; bool_prop.
  - apply shared_prefix_full in E. set (rest := drop _ tokens) in *.
    destruct (IH rest e Hwf) as [Hwf' Hins]. split; [done|]. rewrite insert_edge.
    split; [eauto|]. rewrite E. apply inserted_below; [apply insert_edge | done].
  - by eapply split_child_spec.
Qed.

Lemma inserted_app_l tokens e a a' b :
  (forall p x, (p, x) ∈ b -> p <> tokens) -> inserted tokens e a a' -> inserted tokens e (a ++ b) (a' ++ b).
Proof.
  intros Hb H p x. rewrite !elem_of_app. rewrite (H p x). split.
  - intros [[?|[? ?]]|Hin]; [by left | right; auto | right; split; [by eapply Hb | auto]].
  - intros [?|[? [?|?]]]; auto.
Qed.
Lemma inserted_app_r tokens e a a' b :
  (forall p x, (p, x) ∈ b -> p <> tokens) -> inserted tokens e a a' -> inserted tokens e (b ++ a) (b ++ a').
Proof.
  intros Hb H p x. rewrite !elem_of_app. rewrite (H p x). split.
  - intros [Hin|[?|[? ?]]]; [right; split; [by eapply Hb | auto] | by left | right; auto].
  - intros [?|[? [?|?]]]; auto.
Qed.

Lemma update_children_spec cs t ts e :
  NoDup cs.*1 -> heads cs -> Forall (fun kc => node_wf kc.2) cs ->
  Forall (fun kc => insert_ok kc.2) cs ->
  let cs' := update_children cs t (t :: ts) e in
  NoDup cs'.*1 /\ heads cs' /\ Forall (fun kc => node_wf kc.2) cs' /\
  (forall k, k ∈ cs'.*1 -> k = t \/ k ∈ cs.*1) /\
  inserted (t :: ts) e (child_entries cs) (child_entries cs').
Proof.
  induction cs as [|[k c] cs IH]; intros Hnd Hh Hw Hi; cbn [update_children].
  - repeat split.
    + apply NoDup_singleton.
    + apply Forall_singleton. by exists ts.
    + apply Forall_singleton. cbn. constructor; [apply NoDup_nil_2 | by apply Forall_nil..].
    + intros k' ->%list_elem_of_singleton. by left.
    + rewrite child_entries_cons, !child_entries_nil, app_nil_r. intros Hin. left.
      unfold below in Hin. rewrite entries_Node, child_entries_nil in Hin. cbn in Hin.
      apply list_elem_of_singleton in Hin. injection Hin as -> ->. by rewrite app_nil_r.
    + rewrite child_entries_cons, !child_entries_nil, app_nil_r.
      intros [[-> ->]|[_ ?%not_elem_of_nil]]; [|done]. unfold below.
      rewrite entries_Node, child_entries_nil. cbn. rewrite app_nil_r. by apply list_elem_of_singleton.
  - cbn in Hnd. apply NoDup_cons in Hnd as [Hk Hnd]. apply Forall_cons in Hh as [[suffix Hhc] Hh].
    apply Forall_cons in Hw as [Hwc Hw]. apply Forall_cons in Hi as [Hic Hi]. cbn [fst snd] in *.
    destruct (k =? t) eqn:E; bool_prop.
    + subst k. destruct (insert_child_spec t suffix c (t :: ts) e Hhc eq_refl Hwc Hic) as (W & H & I).
      split; [by apply NoDup_cons|]. split; [by constructor|]. split; [by constructor|].
      split; [by intros; right|]. rewrite !child_entries_cons. apply inserted_app_l; [|done].
      intros p x Hin. destruct (child_entries_head p x cs Hh Hin) as (k & q & -> & Hkin).
      intros [= ->]. done.
    + destruct (IH Hnd Hh Hw Hi) as (W1 & W2 & W3 & W4 & W5). split; [|split; [|split; [|split]]].
      * cbn. apply NoDup_cons. split; [|done]. intros [?|?]%W4; done.
      * constructor; [by exists suffix | done].
      * by constructor.
      * intros k' [->|Hin]%elem_of_cons; [right; apply elem_of_cons; by left|].
        apply W4 in Hin as [?|?]; [by left | right; apply elem_of_cons; by right].
      * rewrite !child_entries_cons. apply inserted_app_r; [|done]. intros p x Hin.
        destruct (below_head p x k c ltac:(by exists suffix) Hin) as [q ->]. congruence.
Qed.

(** Insertion keeps the tree well-formed and is map insertion on its entries. *)
Lemma insert_recursive_spec n : insert_ok n.
Proof.
  induction n as [edge0 entry0 cs IH] using RadixNode_induction. intros tokens e Hwf.
  apply node_wf_inv in Hwf as (Hnd & Hh & Hw). destruct tokens as [|t ts].
  - split; [by constructor|]. cbn [insert_recursive]. rewrite !entries_Node. intros p x.
    rewrite !elem_of_app, !elem_of_own. split.
    + intros [[-> [= ->]]|Hin]; [by left|]. right.
      destruct (child_entries_head p x cs Hh Hin) as (k & q & -> & _). split; [done | by right].
    + intros [[-> ->]|[Hne [[? _]|Hin]]]; [by left | done | by right].
  - rewrite insert_recursive_Node.
    destruct (update_children_spec cs t ts e Hnd Hh Hw IH) as (W1 & W2 & W3 & _ & W5).
    split; [by constructor|]. rewrite !entries_Node. apply inserted_app_r; [|done].
    intros p x [-> _]%elem_of_own. done.
Qed.
End Insert.

(** ** Longest match. *)
Section LongestMatch.
Context {Snap : Type} (now max_depth : Z).
Implicit Types (n c : RadixNode Snap) (e x : ResidentEntry Snap) (cs : list (Z * RadixNode Snap)).
Implicit Types (best r : option (ResidentHit Snap)) (es : list (list Z * ResidentEntry Snap)).

(** An entry that may answer [remaining], [depth] keys below the root. *)
Definition eligible (remaining : list Z) (depth : Z) (p : list Z) x : Prop :=
  p `prefix_of` remaining /\ depth + zlen p <= max_depth /\ (p = remaining \/ ancestor_reusable x = true).
Definition hit_of (remaining : list Z) (depth : Z) (p : list Z) x : ResidentHit Snap :=
  mkHit (as_unsigned 64 (depth + zlen p - IDENTITY_KEY_WORDS)) (bool_decide (p = remaining)) (e_snapshot x).
(** [r] is the deepest eligible entry of [es], or [best] when there is none. *)
Definition best_match es (remaining : list Z) (depth : Z) best r : Prop :=
  (exists p x, (p, x) ∈ es /\ eligible remaining depth p x /\ r = Some (hit_of remaining depth p x) /\
     forall p' x', (p', x') ∈ es -> eligible remaining depth p' x' -> zlen p' <= zlen p) \/
  (r = best /\ forall p x, (p, x) ∈ es -> ~ eligible remaining depth p x).

(** Entries that differ at most in their access time. *)
Definition same_entry (a b : list Z * ResidentEntry Snap) : Prop :=
  a.1 = b.1 /\ e_id a.2 = e_id b.2 /\ e_snapshot a.2 = e_snapshot b.2 /\
  ancestor_reusable a.2 = ancestor_reusable b.2 /\
  (last_access b.2 = last_access a.2 \/ last_access b.2 = now).
Lemma same_entry_refl a : same_entry a a.
Proof. by repeat split; left. Qed.
Lemma same_entries_refl es : Forall2 same_entry es es.
Proof. apply Forall_Forall2_diag, Forall_true, same_entry_refl. Qed.

(** The loop over the children. *)
Fixpoint visit_children cs (remaining : list Z) (first depth : Z) best
    : list (Z * RadixNode Snap) * option (ResidentHit Snap) :=
  match cs with
  | [] => ([], best)
  | (k, c) :: cs =>
      if k =? first then
        let shared := shared_prefix_len (edge c) remaining in
        if (shared =? length (edge c))%nat then
          let (c, best) := longest_match_recursive c (drop shared remaining)
                             (depth + Z.of_nat shared) now max_depth best in
          ((k, c) :: cs, best)
        else ((k, c) :: cs, best)
      else let (cs, best) := visit_children cs remaining first depth best in ((k, c) :: cs, best)
  end.

(** The step on the node's own entry. *)
Definition visit_own (entry0 : option (ResidentEntry Snap)) (remaining : list Z) (depth : Z) best
    : option (ResidentEntry Snap) * option (ResidentHit Snap) :=
  let exact := match remaining with [] => true | _ => false end in
  match entry0 with
  | Some e =>
      if (depth <=? max_depth) && (exact || ancestor_reusable e)
      then (Some (touch now e),
            Some (mkHit (as_unsigned 64 (depth - IDENTITY_KEY_WORDS)) exact (e_snapshot e)))
      else (Some e, best)
  | None => (None, best)
  end.

Lemma longest_match_Node edge0 entry0 cs remaining depth best :
  longest_match_recursive (Node edge0 entry0 cs) remaining depth now max_depth best =
  let (entry1, best) := visit_own entry0 remaining depth best in
  if max_depth <=? depth then (Node edge0 entry1 cs, best)
  else
    match remaining with
    | [] => (Node edge0 entry1 cs, best)
    | first :: _ =>
        let (cs, best) := visit_children cs remaining first depth best in
        (Node edge0 entry1 cs, best)
    end.
Proof.
  cbn [longest_match_recursive]. fold (visit_own entry0 remaining depth best).
  destruct (visit_own entry0 remaining depth best) as [entry1 best1].
  destruct (max_depth <=? depth); [done|]. destruct remaining as [|first rest]; [done|].
  match goal with |- (let (_, _) := ?X in _) = _ =>
    replace X with (visit_children cs (first :: rest) first depth best1); [done|] end.
  induction cs as [|[k c] cs IH]; [done|]. cbn [visit_children].
  destruct (k =? first); [done|]. by rewrite IH.
Qed.

Lemma visit_own_spec entry0 remaining depth best :
  let (entry1, r) := visit_own entry0 remaining depth best in
  best_match (own_entry entry0) remaining depth best r /\
  Forall2 same_entry (own_entry entry0) (own_entry entry1).
Proof.
  unfold visit_own. destruct entry0 as [e|]; cbn [own_entry].
  2:{ split; [|constructor]. right. split; [done|]. by intros p x ?%not_elem_of_nil. }
  assert (forall p x, (p, x) ∈ [([] : list Z, e)] -> p = [] /\ x = e) as Hone.
  { intros p x H%list_elem_of_singleton. by injection H. }
  destruct ((depth <=? max_depth) && _) eqn:E.
  - apply andb_true_iff in E as [Hd Hex]. bool_prop. split.
    + left. exists [], e. split; [by apply list_elem_of_singleton|]. split; [|split].
      * split; [apply prefix_nil|]. rewrite zlen_nil. split; [lia|].
        destruct remaining; [by left|]. right. done.
      * unfold hit_of. rewrite zlen_nil, Z.add_0_r. do 2 f_equal. by destruct remaining.
      * intros p' x' [-> ->]%Hone _. done.
    + constructor; [|constructor]. repeat split; by right.
  - split; [|apply same_entries_refl]. right. split; [done|]. intros p x [-> ->]%Hone (_ & Hd & Hex).
    rewrite zlen_nil in Hd. apply andb_false_iff in E as [E|E]; bool_prop; [lia|].
    destruct Hex as [<-|Hex]; [done | congruence].
Qed.

Definition match_ok n : Prop :=
  forall remaining depth best, node_wf n ->
    let (n', r) := longest_match_recursive n remaining depth now max_depth best in
    best_match (entries n) remaining depth best r /\
    Forall2 same_entry (entries n) (entries n') /\ node_wf n' /\ edge n' = edge n.

(** Entries below a node whose edge the key follows. *)
Lemma best_match_below c rest depth best r :
  best_match (entries c) rest (depth + zlen (edge c)) best r ->
  best_match (below c) (edge c ++ rest) depth best r.
Proof.
  assert (forall q x, eligible rest (depth + zlen (edge c)) q x <->
                      eligible (edge c ++ rest) depth (edge c ++ q) x) as Hel.
  { intros q x. unfold eligible. rewrite zlen_app, Z.add_assoc.
    split; intros (Hp & Hd & Hx); (split; [by apply prefix_app_inv in Hp || by apply prefix_app|]);
      (split; [done|]); (destruct Hx as [Hx|Hx]; [left | by right]).
    - by rewrite Hx.
    - by apply app_inv_head in Hx. }
  intros [(p & x & Hin & He & -> & Hmax)|[-> Hno]].
  - left. exists (edge c ++ p), x. split; [apply elem_of_below; eauto|].
    split; [by apply Hel|]. split.
    + unfold hit_of. rewrite zlen_app, Z.add_assoc. do 2 f_equal.
      apply bool_decide_ext. split; [by intros ->|]. apply app_inv_head.
    + intros p' x' (q & -> & Hq)%elem_of_below He'. rewrite !zlen_app.
      apply Hel in He'. specialize (Hmax q x' Hq He'). lia.
  - right. split; [done|]. intros p x (q & -> & Hq)%elem_of_below He. apply Hel in He. by apply (Hno q x).
Qed.

Lemma best_match_none es remaining depth best :
  (forall p x, (p, x) ∈ es -> ~ p `prefix_of` remaining) -> best_match es remaining depth best best.
Proof. intros H. right. split; [done|]. intros p x Hin (Hp & _). by apply (H p x). Qed.

Lemma best_match_app_l es es' remaining depth best r :
  best_match es remaining depth best r -> (forall p x, (p, x) ∈ es' -> ~ p `prefix_of` remaining) ->
  best_match (es ++ es') remaining depth best r /\ best_match (es' ++ es) remaining depth best r.
Proof.
  intros H Hno. split.
  all: destruct H as [(p & x & Hin & He & -> & Hmax)|[-> Hn]];
    [left; exists p, x; rewrite elem_of_app; split; [auto|]; split; [done|]; split; [done|]
    | right; split; [done|]].
  all: intros p' x' [Hin'|Hin']%elem_of_app; try (by eapply Hmax); try (by eapply Hn);
    intros (Hp & _); exfalso; by apply (Hno p' x').
Qed.

Lemma below_same_entries c c' :
  edge c' = edge c -> Forall2 same_entry (entries c) (entries c') -> Forall2 same_entry (below c) (below c').
Proof.
  intros He F. unfold below. apply Forall2_fmap. eapply Forall2_impl; [exact F|].
  intros [p x] [p' x'] (H1 & H2). cbn in *. split; cbn; [congruence | done].
Qed.

Lemma visit_children_spec cs t ts depth best :
  NoDup cs.*1 -> heads cs -> Forall (fun kc => node_wf kc.2) cs -> Forall (fun kc => match_ok kc.2) cs ->
  let (cs', r) := visit_children cs (t :: ts) t depth best in
  best_match (child_entries cs) (t :: ts) depth best r /\
  Forall2 same_entry (child_entries cs) (child_entries cs') /\
  cs'.*1 = cs.*1 /\ heads cs' /\ Forall (fun kc => node_wf kc.2) cs'.
Proof.
  induction cs as [|[k c] cs IH]; intros Hnd Hh Hw Hm; cbn [visit_children].
  { split; [|done]. apply best_match_none. by intros p x ?%not_elem_of_nil. }
  pose proof Hh as Hh0. pose proof Hw as Hw0.
  cbn in Hnd. apply NoDup_cons in Hnd as [Hk Hnd]. apply Forall_cons in Hh as [[suffix Hhc] Hh].
  apply Forall_cons in Hw as [Hwc Hw]. apply Forall_cons in Hm as [Hmc Hm]. cbn [fst snd] in *.
  assert (forall p x, (p, x) ∈ child_entries cs -> k = t -> ~ p `prefix_of` t :: ts) as Hrest.
  { intros p x Hin -> Hp. destruct (child_entries_head p x cs Hh Hin) as (k' & q & -> & Hk').
    apply prefix_cons_inv_1 in Hp. congruence. }
  destruct (k =? t) eqn:E; bool_prop.
  - destruct (shared_prefix_len (edge c) (t :: ts) =? length (edge c))%nat eqn:Es; bool_prop.
    + pose proof (shared_prefix_full _ _ Es) as Efull. set (rest := drop _ (t :: ts)) in *.
      specialize (Hmc rest (depth + Z.of_nat (shared_prefix_len (edge c) (t :: ts))) best Hwc).
      destruct (longest_match_recursive _ _ _ _ _ _) as [c' r].
      destruct Hmc as (Hb & Hsame & Hwc' & Hec). rewrite Es in Hb.
      apply best_match_below in Hb. rewrite <- Efull in Hb. rewrite !child_entries_cons.
      split; [apply (best_match_app_l (below c) (child_entries cs)); [done | intros p x Hin; by apply (Hrest p x)]|].
      split; [apply Forall2_app; [by apply below_same_entries | apply same_entries_refl]|].
      split; [done|]. split; constructor; cbn; eauto. rewrite Hec. eauto.
    + rewrite child_entries_cons. split; [|split; [apply same_entries_refl|done]].
      apply best_match_none. intros p x [(q & -> & _)%elem_of_below|Hin]%elem_of_app.
      * intros [q' Hq]. rewrite <- app_assoc in Hq. rewrite Hq, shared_prefix_app in Es. done.
      * by eapply Hrest.
  - specialize (IH Hnd Hh Hw Hm). destruct (visit_children _ _ _ _ _) as [cs' r].
    destruct IH as (Hb & Hsame & Hkeys & Hh' & Hw'). rewrite !child_entries_cons.
    split; [|split; [apply Forall2_app; [apply same_entries_refl | done]|]].
    + apply (best_match_app_l (child_entries cs) (below c)); [done|]. intros p x Hin Hp.
      destruct (below_head p x k c ltac:(by exists suffix) Hin) as [q ->].
      apply prefix_cons_inv_1 in Hp. congruence.
    + cbn. rewrite Hkeys. split; [done|]. split; constructor; cbn; eauto.
Qed.

(** [longest_match_recursive] finds the deepest eligible entry and only moves access times. *)
Lemma longest_match_spec n : match_ok n.
Proof.
  induction n as [edge0 entry0 cs IH] using RadixNode_induction. intros remaining depth best Hwf.
  apply node_wf_inv in Hwf as (Hnd & Hh & Hw). rewrite longest_match_Node.
  pose proof (visit_own_spec entry0 remaining depth best) as Hown.
  destruct (visit_own entry0 remaining depth best) as [entry1 best1]. destruct Hown as [Hb1 Hs1].
  assert (Hcons : forall cs' r,
    best_match (child_entries cs) remaining depth best1 r ->
    best_match (entries (Node edge0 entry0 cs)) remaining depth best r).
  { intros _ r Hb. rewrite entries_Node. destruct Hb as [(p & x & Hin & He & -> & Hmax)|[-> Hno]].
    - left. exists p, x. rewrite elem_of_app. split; [by right|]. split; [done|]. split; [done|].
      intros p' x' [[-> _]%elem_of_own|Hin']%elem_of_app He'; [apply zlen_nonneg | by eapply Hmax].
    - destruct Hb1 as [(p & x & Hin & He & -> & Hmax)|[-> Hno']].
      + left. exists p, x. rewrite elem_of_app. split; [by left|]. split; [done|]. split; [done|].
        intros p' x' [Hin'|Hin']%elem_of_app He'; [by eapply Hmax|]. exfalso. by apply (Hno p' x').
      + right. split; [done|]. intros p x [?|?]%elem_of_app; eauto. }
  assert (Hchild : forall p x, (p, x) ∈ child_entries cs -> 1 <= zlen p).
  { intros p x Hin. destruct (child_entries_head p x cs Hh Hin) as (k & q & -> & _).
    rewrite zlen_cons. pose proof (zlen_nonneg q). lia. }
  destruct (max_depth <=? depth) eqn:E; bool_prop; [|destruct remaining as [|t ts]].
  - split; [|split; [|split; [by constructor | done]]].
    + apply (Hcons cs). right. split; [done|]. intros p x Hin (_ & Hd & _). specialize (Hchild p x Hin). lia.
    + rewrite !entries_Node. apply Forall2_app; [done | apply same_entries_refl].
  - split; [|split; [|split; [by constructor | done]]].
    + apply (Hcons cs). apply best_match_none. intros p x Hin Hp%prefix_nil_inv. subst p.
      specialize (Hchild [] x Hin). done.
    + rewrite !entries_Node. apply Forall2_app; [done | apply same_entries_refl].
  - pose proof (visit_children_spec cs t ts depth best1 Hnd Hh Hw IH) as Hv.
    destruct (visit_children _ _ _ _ _) as [cs' r]. destruct Hv as (Hb & Hsame & Hkeys & Hh' & Hw').
    split; [by apply (Hcons cs')|]. split; [|split; [|done]].
    + rewrite !entries_Node. by apply Forall2_app.
    + constructor; [by rewrite Hkeys | done | done].
Qed.
End LongestMatch.

(** ** Eviction: the remaining functions as functions of the entry list. *)
Section Evict.
Context {Snap : Type}.
Implicit Types (n c : RadixNode Snap) (e x : ResidentEntry Snap) (cs : list (Z * RadixNode Snap)).
Implicit Types (es : list (list Z * ResidentEntry Snap)).

Definition has_id (id : Z) es : bool := existsb (fun pe => e_id pe.2 =? id) es.
Fixpoint remove_first (id : Z) es : list (list Z * ResidentEntry Snap) :=
  match es with
  | [] => []
  | pe :: es => if e_id pe.2 =? id then es else pe :: remove_first id es
  end.

Lemma has_id_app id a b : has_id id (a ++ b) = has_id id a || has_id id b.
Proof. apply existsb_app. Qed.
Lemma has_id_below id c : has_id id (below c) = has_id id (entries c).
Proof. unfold below, has_id. induction (entries c) as [|pe es IH]; [done|]. cbn. by rewrite IH. Qed.
Lemma remove_first_app id a b :
  remove_first id (a ++ b) = if has_id id a then remove_first id a ++ b else a ++ remove_first id b.
Proof.
  induction a as [|pe a IH]; [done|]. cbn. fold (has_id id a).
  destruct (e_id pe.2 =? id); [done|]. cbn. rewrite IH. by destruct (has_id id a).
Qed.
Lemma remove_first_absent id es : has_id id es = false -> remove_first id es = es.
Proof.
  induction es as [|pe es IH]; [done|]. cbn. intros [E H]%orb_false_iff. by rewrite E, IH.
Qed.
Lemma remove_first_below id c c' :
  edge c' = edge c -> entries c' = remove_first id (entries c) -> below c' = remove_first id (below c).
Proof.
  intros He E. unfold below. rewrite He, E. clear E. induction (entries c) as [|pe es IH]; [done|]. cbn.
  destruct (e_id pe.2 =? id); [done|]. cbn. by rewrite IH.
Qed.
Lemma remove_first_length id es : has_id id es = true -> length es = S (length (remove_first id es)).
Proof.
  induction es as [|pe es IH]; [done|]. cbn. destruct (e_id pe.2 =? id); [done|]. cbn. intros H. by rewrite IH.
Qed.

(** The loop of [remove_entry] over the children. *)
Fixpoint remove_from_children cs (id : Z) : list (Z * RadixNode Snap) * bool :=
  match cs with
  | [] => ([], false)
  | (k, c) :: cs =>
      let (c, removed) := remove_entry c id in
      if removed then ((k, c) :: cs, true)
      else let (cs, removed) := remove_from_children cs id in ((k, c) :: cs, removed)
  end.
Lemma remove_entry_Node edge0 entry0 cs id :
  remove_entry (Node edge0 entry0 cs) id =
  if match entry0 with Some e => e_id e =? id | None => false end
  then (Node edge0 None cs, true)
  else let (cs, removed) := remove_from_children cs id in (Node edge0 entry0 cs, removed).
Proof.
  cbn [remove_entry]. destruct (match entry0 with Some e => _ | None => _ end); [done|].
  match goal with |- (let (_, _) := ?X in _) = _ =>
    replace X with (remove_from_children cs id); [done|] end.
  induction cs as [|[k c] cs IH]; [done|]. cbn [remove_from_children].
  destruct (remove_entry c id) as [c' []]; [done|]. by rewrite IH.
Qed.

Lemma remove_entry_spec id n :
  node_wf n ->
  let (n', removed) := remove_entry n id in
  entries n' = remove_first id (entries n) /\ removed = has_id id (entries n) /\
  node_wf n' /\ edge n' = edge n.
Proof.
  induction n as [edge0 entry0 cs IH] using RadixNode_induction.
  intros (Hnd & Hh & Hw)%node_wf_inv. rewrite remove_entry_Node.
  destruct (match entry0 with Some e => _ | None => _ end) eqn:E.
  { destruct entry0 as [e|]; [|done]. rewrite !entries_Node. cbn. rewrite E. cbn.
    split; [done|]. split; [done|]. split; [by constructor | done]. }
  assert (has_id id (own_entry entry0) = false) as Hown.
  { destruct entry0; [|done]. cbn. by rewrite E. }
  enough (let (cs', removed) := remove_from_children cs id in
    child_entries cs' = remove_first id (child_entries cs) /\ removed = has_id id (child_entries cs) /\
    cs'.*1 = cs.*1 /\ heads cs' /\ Forall (fun kc => node_wf kc.2) cs') as H.
  { destruct (remove_from_children cs id) as [cs' removed]. destruct H as (H1 & H2 & H3 & H4 & H5).
    rewrite !entries_Node, remove_first_app, has_id_app, Hown, H1, H2. split; [done|].
    split; [done|]. split; [constructor; [by rewrite H3 | done | done] | done]. }
  clear entry0 E Hown Hnd.
  induction cs as [|[k c] cs IHcs]; [done|]. cbn [remove_from_children].
  apply Forall_cons in IH as [IHc IH]. apply Forall_cons in Hh as [[suffix Hhc] Hh].
  apply Forall_cons in Hw as [Hwc Hw]. cbn [fst snd] in *. specialize (IHc Hwc).
  destruct (remove_entry c id) as [c' removed]. destruct IHc as (E1 & E2 & W & Ed).
  rewrite !child_entries_cons, remove_first_app, has_id_app, has_id_below, <- E2.
  pose proof (remove_first_below id c c' Ed E1) as Eb. destruct removed.
  - rewrite child_entries_cons, Eb. split; [done|]. split; [done|]. split; [done|].
    split; constructor; cbn; eauto. rewrite Ed. eauto.
  - specialize (IHcs IH Hh Hw). destruct (remove_from_children cs id) as [cs' removed].
    destruct IHcs as (H1 & H2 & H3 & H4 & H5). rewrite child_entries_cons, Eb, H1, H2.
    rewrite remove_first_absent by by rewrite has_id_below. split; [done|]. split; [done|]. cbn.
    rewrite H3. split; [done|]. split; constructor; cbn; eauto. rewrite Ed. eauto.
Qed.

(** The retain loop of [prune_empty]. *)
Definition occupied n : bool :=
  match entry n with Some _ => true | None => false end ||
  match children n with [] => false | _ => true end.
Fixpoint prune_children cs : list (Z * RadixNode Snap) :=
  match cs with
  | [] => []
  | (k, c) :: cs => if occupied (prune_empty c) then (k, prune_empty c) :: prune_children cs else prune_children cs
  end.
Lemma prune_empty_Node edge0 entry0 cs :
  prune_empty (Node edge0 entry0 cs) = Node edge0 entry0 (prune_children cs).
Proof.
  reflexivity.
Qed.
Lemma prune_edge n : edge (prune_empty n) = edge n.
Proof. by destruct n; rewrite prune_empty_Node. Qed.

Lemma vacant_entries n : occupied n = false -> entries n = [].
Proof. destruct n as [edge0 [e|] [|kc cs]]; done. Qed.

Lemma prune_empty_spec n :
  node_wf n -> entries (prune_empty n) = entries n /\ node_wf (prune_empty n).
Proof.
  induction n as [edge0 entry0 cs IH] using RadixNode_induction.
  intros (Hnd & Hh & Hw)%node_wf_inv. rewrite prune_empty_Node, !entries_Node.
  enough (child_entries (prune_children cs) = child_entries cs /\ NoDup (prune_children cs).*1 /\
    (forall k, k ∈ (prune_children cs).*1 -> k ∈ cs.*1) /\ heads (prune_children cs) /\
    Forall (fun kc => node_wf kc.2) (prune_children cs)) as (H1 & H2 & H3 & H4 & H5).
  { rewrite H1. split; [done | by constructor]. }
  induction cs as [|[k c] cs IHcs]; [done|]. cbn [prune_children].
  apply Forall_cons in IH as [IHc IH]. apply Forall_cons in Hh as [[suffix Hhc] Hh].
  apply Forall_cons in Hw as [Hwc Hw]. cbn in Hnd. apply NoDup_cons in Hnd as [Hk Hnd]. cbn [fst snd] in *.
  destruct (IHc Hwc) as [Ec Wc]. destruct (IHcs IH Hnd Hh Hw) as (H1 & H2 & H3 & H4 & H5).
  destruct (occupied (prune_empty c)) eqn:E.
  - rewrite !child_entries_cons, H1. split; [f_equal; unfold below; by rewrite Ec, prune_edge|].
    split; [cbn; apply NoDup_cons; split; [by intros ?%H3 | done]|].
    split; [intros k' [->|?]%elem_of_cons; apply elem_of_cons; [by left | right; by apply H3]|].
    split; constructor; cbn; eauto. rewrite prune_edge. eauto.
  - rewrite child_entries_cons, H1. apply vacant_entries in E. unfold below. rewrite <- Ec, E.
    split; [done|]. split; [done|]. split; [|done]. intros k' ?%H3. apply elem_of_cons. by right.
Qed.

Definition lru_step (best : option (Z * Z)) (pe : list Z * ResidentEntry Snap) : option (Z * Z) :=
  if match best with None => true | Some (_, age) => last_access pe.2 <? age end
  then Some (e_id pe.2, last_access pe.2) else best.

Lemma lru_visit_fold n best : lru_visit n best = foldl lru_step best (entries n).
Proof.
  revert best. induction n as [edge0 entry0 cs IH] using RadixNode_induction. intros best.
  rewrite entries_Node, foldl_app. cbn [lru_visit].
  replace (match entry0 with Some e => _ | None => best end) with (foldl lru_step best (own_entry entry0))
    by by destruct entry0.
  generalize (foldl lru_step best (own_entry entry0)) as b. clear best.
  induction IH as [|[k c] cs Hc IH IHcs]; intros b; [done|]. cbn [snd] in Hc.
  rewrite child_entries_cons, foldl_app, IHcs, Hc. f_equal. unfold below.
  generalize (entries c) as es. intros es. revert b. induction es as [|pe es IHes]; intros b; [done|]. cbn.
  by rewrite IHes.
Qed.

(** The running minimum of the access times. *)
Lemma lru_fold_spec es best :
  match foldl lru_step best es with
  | None => best = None /\ es = []
  | Some (id, age) =>
      (best = Some (id, age) \/ exists pe, pe ∈ es /\ e_id pe.2 = id /\ last_access pe.2 = age) /\
      (forall pe, pe ∈ es -> age <= last_access pe.2) /\
      match best with None => True | Some (_, a) => age <= a end
  end.
Proof.
  revert best. induction es as [|pe es IH]; intros best; cbn [foldl].
  { destruct best as [[id age]|]; [|done]. split; [by left|].
    split; [by intros pe ?%not_elem_of_nil | lia]. }
  specialize (IH (lru_step best pe)).
  destruct (foldl lru_step (lru_step best pe) es) as [[id age]|].
  - destruct IH as (H1 & H2 & H3). unfold lru_step in *.
    assert (age <= last_access pe.2 /\ match best with None => True | Some (_, a) => age <= a end) as [Hpe Hbest].
    { destruct best as [[i a]|]; [|done]. destruct (last_access pe.2 <? a) eqn:E; bool_prop; lia. }
    split; [|split; [|done]].
    + destruct H1 as [H1|(pe' & Hin & Hid)]; [|right; exists pe'; split; [by constructor | done]].
      destruct (match best with None => true | Some (_, a) => last_access pe.2 <? a end); [|by left].
      injection H1 as <- <-. right. exists pe. split; [constructor | done].
    + intros pe' [->|Hin]%elem_of_cons; [done | by apply H2].
  - destruct IH as [H _]. unfold lru_step in H. exfalso.
    destruct best as [[i a]|]; [destruct (_ <? _)|]; done.
Qed.

Lemma find_lru_spec n :
  match find_lru n with
  | None => entries n = []
  | Some id => exists pe, pe ∈ entries n /\ e_id pe.2 = id /\
      forall pe', pe' ∈ entries n -> last_access pe.2 <= last_access pe'.2
  end.
Proof.
  unfold find_lru. rewrite lru_visit_fold. pose proof (lru_fold_spec (entries n) None) as H.
  destruct (foldl lru_step None (entries n)) as [[id age]|]; cbn; [|apply H].
  destruct H as ([?|(pe & Hin & Hid & Hage)] & Hmin & _); [done|].
  exists pe. split; [done|]. split; [done|]. rewrite Hage. done.
Qed.

Lemma find_id_has_id n id : find_id n id = has_id id (entries n).
Proof.
  induction n as [edge0 entry0 cs IH] using RadixNode_induction.
  rewrite entries_Node, has_id_app. cbn [find_id].
  replace (has_id id (own_entry entry0)) with (match entry0 with Some e => e_id e =? id | None => false end)
    by (destruct entry0; [cbn; by rewrite orb_false_r | done]).
  f_equal. induction IH as [|[k c] cs Hc IH IHcs]; [done|]. cbn [snd] in Hc.
  by rewrite child_entries_cons, has_id_app, has_id_below, IHcs, Hc.
Qed.

Lemma has_id_spec id es : has_id id es = true <-> exists pe, pe ∈ es /\ e_id pe.2 = id.
Proof.
  unfold has_id. rewrite existsb_exists. split.
  - intros (pe & Hin%list_elem_of_In & E%Z.eqb_eq). eauto.
  - intros (pe & Hin & E). exists pe. rewrite Z.eqb_eq. by rewrite <- list_elem_of_In.
Qed.
Lemma remove_first_subset id es pe : pe ∈ remove_first id es -> pe ∈ es.
Proof.
  induction es as [|pe' es IH]; cbn; [done|]. destruct (e_id pe'.2 =? id); [by constructor|].
  intros [->|?]%elem_of_cons; constructor; auto.
Qed.
Lemma remove_first_keeps id es pe : pe ∈ es -> e_id pe.2 <> id -> pe ∈ remove_first id es.
Proof.
  induction es as [|pe' es IH]; cbn; [done|]. intros [->|Hin]%elem_of_cons Hne.
  - apply Z.eqb_neq in Hne. rewrite Hne. constructor.
  - destruct (e_id pe'.2 =? id); [done|]. constructor. auto.
Qed.

(** One eviction. *)
Definition evict n (id : Z) : RadixNode Snap := prune_empty (remove_entry n id).1.
Lemma evict_spec n id :
  node_wf n -> entries (evict n id) = remove_first id (entries n) /\ node_wf (evict n id).
Proof.
  intros Hwf. unfold evict. pose proof (remove_entry_spec id n Hwf) as H.
  destruct (remove_entry n id) as [n' removed]. destruct H as (E & _ & W & _). cbn.
  destruct (prune_empty_spec n' W) as [E' W']. split; [congruence | done].
Qed.

(** [count_nodes] counts the entries. *)
Lemma count_nodes_entries n counts : (count_nodes n counts).1 = counts.1 + zlen (entries n).
Proof.
  revert counts. induction n as [edge0 entry0 cs IH] using RadixNode_induction. intros [es ns].
  rewrite entries_Node, zlen_app. cbn [count_nodes].
  set (counts := (match entry0 with Some _ => es + 1 | None => es end, ns + 1)).
  assert (counts.1 = es + zlen (own_entry entry0)) as Hc by (subst counts; destruct entry0; unfold zlen; cbn; lia).
  cbn [fst]. rewrite Z.add_assoc, <- Hc. clear Hc.
  clearbody counts. revert counts. induction IH as [|[k c] cs Hc IH IHcs]; intros counts; [unfold zlen; cbn; lia|].
  cbn [snd] in Hc. rewrite child_entries_cons, zlen_app, IHcs, Hc.
  assert (zlen (below c) = zlen (entries c)) as ->; [|lia]. unfold below, zlen. by rewrite length_map.
Qed.
End Evict.
