(* ===== verification/Resident.v ===== *)
(** * The resident prefix cache.

    Models the rest of [crates/muser-kvpack/src/resident.rs]: identity-scoped keys, the
    content-interned chunk pool, snapshots chunked and materialized, insertion with LRU
    eviction to a byte capacity, and capped lookup, over the tree of [Radix.v].

    An [Arc<[u8]>] is an address with its (immutable) bytes; a [Weak] is alive while some
    entry of the tree, or a snapshot a caller still holds ([held]), refers to its address.
    SHA-256 is the parameter [sha256]: the code only uses it to bucket candidates, and
    compares bytes before sharing a chunk. *)
From S2P Require Import Prelude CacheSnapshot Radix.

Definition RESIDENT_CUT_TOKENS : Z := 256.

(** [digest.chunks_exact(4).map(u32::from_le_bytes)]: eight words of a 32-byte digest. *)
Definition digest_words (digest : list byte) : list Z := map from_le_bytes (chunks 4 digest).

Definition scoped_key (identity : option (list byte)) (tokens : list Z) : list Z :=
  match identity with
  | Some digest => 1 :: digest_words digest
  | None => replicate (Z.to_nat IDENTITY_KEY_WORDS) 0
  end ++ tokens.

Record chunk : Type := mkChunk { c_addr : nat; c_bytes : list byte }.

Record ChunkedPlane : Type := mkChunkedPlane {
  cp_layer : Z;
  cp_logical_start : Z;
  cp_logical_count : Z;
  cp_encoding : PlaneEncoding;
  cp_key : list chunk;
  cp_value : list chunk;
}.

Record ResidentSnapshot : Type := mkResident {
  rs_position : Z;
  rs_tokens : list Z;
  rs_elements_per_token : Z;
  rs_layers : list ChunkedPlane;
  rs_last_logits : option (list Z);
}.

Inductive ResidentError : Type :=
| InvalidSnapshot (e : SnapshotError)
| ZeroCapacity
| TokenMismatch
| SizeOverflow
| InvalidLogits.

Definition concatenate (chunks : list chunk) : list byte := mjoin (map c_bytes chunks).

Definition materialize (s : ResidentSnapshot) : result ResidentError SessionCacheSnapshot :=
  let layers := map (fun plane =>
    mkPlane (cp_layer plane) (cp_logical_start plane) (cp_logical_count plane) (cp_encoding plane)
      (concatenate (cp_key plane)) (concatenate (cp_value plane))) (rs_layers s) in
  let snapshot := mkSnapshot (rs_position s) (rs_tokens s) (rs_elements_per_token s) layers in
  let? _ := result_map_err InvalidSnapshot (validate snapshot) in
  Ok snapshot.

(** [f32::is_finite] on the bits. *)
Definition is_finite (bits : Z) : bool := negb (Z.land bits 0x7f800000 =? 0x7f800000).

Abbreviation tree := (RadixNode ResidentSnapshot).

(** The addresses a snapshot, a tree and the callers keep alive. *)
Definition plane_refs (p : ChunkedPlane) : list nat := map c_addr (cp_key p) ++ map c_addr (cp_value p).
Definition snapshot_refs (s : ResidentSnapshot) : list nat := mjoin (map plane_refs (rs_layers s)).
Definition tree_refs (root : tree) : list nat :=
  mjoin (map (fun pe => snapshot_refs (e_snapshot pe.2)) (entries root)).
Definition live_refs (root : tree) (held : list ResidentSnapshot) : list nat :=
  tree_refs root ++ mjoin (map snapshot_refs held).
Definition alive (refs : list nat) (c : chunk) : bool := bool_decide (c_addr c ∈ refs).

(** [ChunkPool::by_digest]: weak chunk references by digest. *)
Abbreviation ChunkPool := (gmap (list byte) (list chunk)).

Record ResidentRadix : Type := mkRadix {
  root : tree;
  pool : ChunkPool;
  next_chunk : nat;
  capacity_bytes : Z;
  clock : Z;
  next_id : Z;
  queries : Z;
  hits : Z;
  evictions : Z;
}.

Record ResidentStats : Type := mkStats {
  st_entries : Z;
  st_nodes : Z;
  st_unique_chunk_bytes : Z;
  st_queries : Z;
  st_hits : Z;
  st_evictions : Z;
}.

Section Resident.
Context (sha256 : list byte -> list byte).

(** [ChunkPool::intern], with the addresses alive at the call. *)
Definition intern (refs : list nat) (bytes : list byte) (st : ChunkPool * nat)
    : chunk * (ChunkPool * nat) :=
  let (p, next) := st in
  let digest := sha256 bytes in
  let candidates := List.filter (alive refs) (default [] (p !! digest)) in
  match List.find (fun c => bool_decide (c_bytes c = bytes)) candidates with
  | Some existing => (existing, (<[digest := candidates]> p, next))
  | None =>
      let fresh := mkChunk next bytes in
      (fresh, (<[digest := candidates ++ [fresh]]> p, S next))
  end.

(** Interning the chunks of one plane in turn; chunks made so far are alive. *)
Fixpoint intern_all (refs : list nat) (pieces : list (list byte)) (st : ChunkPool * nat)
    : list chunk * (ChunkPool * nat) :=
  match pieces with
  | [] => ([], st)
  | piece :: pieces =>
      let (c, st) := intern refs piece st in
      let (cs, st) := intern_all (c_addr c :: refs) pieces st in
      (c :: cs, st)
  end.

Definition live_bytes (refs : list nat) (p : ChunkPool) : Z * ChunkPool :=
  let p := filter (fun kc => kc.2 <> []) (fmap (List.filter (alive refs)) p) in
  (foldl (saturating_add 64) 0 (map (fun c => zlen (c_bytes c)) (mjoin (map_to_list p).*2)), p).

Definition new (capacity : Z) : result ResidentError ResidentRadix :=
  if capacity =? 0 then Err ZeroCapacity
  else Ok (mkRadix empty_root ∅ 0 capacity 0 1 0 0 0).

(** The layer loop of [chunk_snapshot]; [Err] keeps the chunks interned so far. *)
Fixpoint chunk_layers (refs : list nat) (ept : Z) (planes : list CachePlaneSnapshot) (st : ChunkPool * nat)
    : result ResidentError (list ChunkedPlane) * (ChunkPool * nat) :=
  match planes with
  | [] => (Ok [], st)
  | plane :: planes =>
      match row_bytes ← checked_mul 64 ept (width_bytes (p_encoding plane));
            checked_mul 64 row_bytes RESIDENT_CUT_TOKENS with
      | None => (Err SizeOverflow, st)
      | Some chunk_bytes =>
          let (key, st) := intern_all refs (chunks (Z.to_nat chunk_bytes) (p_key plane)) st in
          let refs := map c_addr key ++ refs in
          let (value, st) := intern_all refs (chunks (Z.to_nat chunk_bytes) (p_value plane)) st in
          let refs := map c_addr value ++ refs in
          let chunked := mkChunkedPlane (p_layer plane) (p_logical_start plane) (p_logical_count plane)
                           (p_encoding plane) key value in
          let (rest, st) := chunk_layers refs ept planes st in
          (let? rest := rest in Ok (chunked :: rest), st)
      end
  end.

Definition chunk_snapshot (refs : list nat) (s : SessionCacheSnapshot) (last_logits : option (list Z))
    (st : ChunkPool * nat) : result ResidentError ResidentSnapshot * (ChunkPool * nat) :=
  let (layers, st) := chunk_layers refs (elements_per_token s) (layers s) st in
  (let? layers := layers in
   Ok (mkResident (position s) (tokens s) (elements_per_token s) layers last_logits), st).

Definition logits_len (s : ResidentSnapshot) : Z :=
  match rs_last_logits s with Some l => zlen l | None => 0 end.

Definition resident_bytes (held : list ResidentSnapshot) (r : ResidentRadix) : Z * ResidentRadix :=
  let (bytes, p) := live_bytes (live_refs (root r) held) (pool r) in
  (saturating_add 64 bytes (entry_logits_bytes logits_len (root r)),
   mkRadix (root r) p (next_chunk r) (capacity_bytes r) (clock r) (next_id r) (queries r) (hits r)
     (evictions r)).

(** The eviction loop of [insert_with_logits]; every turn removes an entry. *)
Fixpoint evict_loop (fuel : nat) (held : list ResidentSnapshot) (r : ResidentRadix) : ResidentRadix :=
  match fuel with
  | O => r
  | S fuel =>
      let (bytes, r) := resident_bytes held r in
      if capacity_bytes r <? bytes then
        match find_lru (root r) with
        | None => r
        | Some evicted =>
            evict_loop fuel held
              (mkRadix (evict (root r) evicted) (pool r) (next_chunk r) (capacity_bytes r) (clock r)
                 (next_id r) (queries r) (hits r) (saturating_add 64 (evictions r) 1))
        end
      else r
  end.

Definition insert_with_logits (held : list ResidentSnapshot) (identity : option (list byte))
    (s : SessionCacheSnapshot) (last_logits : option (list Z)) (r : ResidentRadix)
    : result ResidentError bool * ResidentRadix :=
  match validate s with
  | Err e => (Err (InvalidSnapshot e), r)
  | Ok _ =>
      if negb (zlen (tokens s) =? position s) then (Err TokenMismatch, r)
      else if match last_logits with
              | Some values => match values with [] => true | _ => false end ||
                               existsb (fun v => negb (is_finite v)) values
              | None => false
              end then (Err InvalidLogits, r)
      else
        let (resident, pn) := chunk_snapshot (live_refs (root r) held) s last_logits (pool r, next_chunk r) in
        match resident with
        | Err e =>
            (Err e, mkRadix (root r) pn.1 pn.2 (capacity_bytes r) (clock r) (next_id r) (queries r) (hits r)
                      (evictions r))
        | Ok resident =>
            let clock := saturating_add 64 (clock r) 1 in
            let id := next_id r in
            let e := mkEntry id resident (is_multiple_of (position s) RESIDENT_CUT_TOKENS) clock in
            let root := insert_recursive (root r) (scoped_key identity (tokens s)) e in
            let r := mkRadix root pn.1 pn.2 (capacity_bytes r) clock (saturating_add 64 id 1) (queries r)
                       (hits r) (evictions r) in
            let r := evict_loop (S (length (entries root))) held r in
            (Ok (find_id (Resident.root r) id), r)
        end
  end.

Definition insert (held : list ResidentSnapshot) (identity : option (list byte))
    (s : SessionCacheSnapshot) (r : ResidentRadix) : result ResidentError bool * ResidentRadix :=
  insert_with_logits held identity s None r.

Definition lookup_capped (identity : option (list byte)) (tokens : list Z) (max_cut : Z) (r : ResidentRadix)
    : option (ResidentHit ResidentSnapshot) * ResidentRadix :=
  let clock := saturating_add 64 (clock r) 1 in
  let key := scoped_key identity tokens in
  let max_depth := saturating_add 64 IDENTITY_KEY_WORDS max_cut in
  let (root, best) := longest_match_recursive (root r) key 0 clock max_depth None in
  (best, mkRadix root (pool r) (next_chunk r) (capacity_bytes r) clock (next_id r)
           (saturating_add 64 (queries r) 1)
           (match best with Some _ => saturating_add 64 (hits r) 1 | None => hits r end) (evictions r)).

Definition lookup (identity : option (list byte)) (tokens : list Z) (r : ResidentRadix)
    : option (ResidentHit ResidentSnapshot) * ResidentRadix :=
  lookup_capped identity tokens USIZE_MAX r.

Definition stats (held : list ResidentSnapshot) (r : ResidentRadix) : ResidentStats * ResidentRadix :=
  let (entries, nodes) := count_nodes (root r) (0, 0) in
  let (bytes, p) := live_bytes (live_refs (root r) held) (pool r) in
  (mkStats entries nodes bytes (queries r) (hits r) (evictions r),
   mkRadix (root r) p (next_chunk r) (capacity_bytes r) (clock r) (next_id r) (queries r) (hits r)
     (evictions r)).
End Resident.

(** ** Identity-scoped keys. *)
Definition identity_wf (identity : option (list byte)) : Prop :=
  match identity with Some digest => length digest = 32%nat | None => True end.
Definition scope (identity : option (list byte)) : list Z := scoped_key identity [].

Lemma scoped_key_app identity t : scoped_key identity t = scope identity ++ t.
Proof. unfold scope, scoped_key. by rewrite app_nil_r. Qed.

Lemma digest_words_inv digest :
  length digest = 32%nat -> mjoin (map (to_le_bytes 4) (digest_words digest)) = digest.
Proof.
  intros Hl. unfold digest_words. rewrite map_map.
  pose proof (chunks_fuel_lengths (length digest) 4 8 digest ltac:(lia) ltac:(lia)) as F.
  fold (chunks 4 digest) in F. rewrite <- (chunks_concat 4 digest) at 2 by lia. f_equal.
  induction F as [|c cs Hc F IH]; [done|]. cbn. rewrite IH, <- Hc. by rewrite to_from_le_bytes.
Qed.
Lemma scope_length identity : identity_wf identity -> length (scope identity) = 9%nat.
Proof.
  unfold scope, scoped_key. rewrite app_nil_r. destruct identity as [digest|]; [|done]. cbn. intros Hl.
  unfold digest_words. rewrite length_map. do 33 (destruct digest as [|? digest]; try done).
Qed.
Lemma scope_inj i j : identity_wf i -> identity_wf j -> scope i = scope j -> i = j.
Proof.
  unfold scope, scoped_key. rewrite !app_nil_r. destruct i as [d|], j as [d'|]; cbn; try done.
  intros Hd Hd' [= E]. f_equal. rewrite <- (digest_words_inv d), <- (digest_words_inv d') by done. by rewrite E.
Qed.

(** Keys of different identities never meet, and within one identity the key order is the token order. *)
Lemma scoped_key_prefix i j t u :
  identity_wf i -> identity_wf j -> scoped_key i t `prefix_of` scoped_key j u -> i = j /\ t `prefix_of` u.
Proof.
  intros Hi Hj. rewrite !scoped_key_app. intros [k E].
  rewrite <- app_assoc in E. apply app_inj_1 in E as [E1 E2]; [|by rewrite !scope_length].
  split; [by apply scope_inj | by exists k].
Qed.
Lemma scoped_key_inj i j t u :
  identity_wf i -> identity_wf j -> scoped_key i t = scoped_key j u -> i = j /\ t = u.
Proof.
  intros Hi Hj. rewrite !scoped_key_app. intros E.
  apply app_inj_1 in E as [E1 E2]; [|by rewrite !scope_length]. split; [by apply scope_inj | done].
Qed.
Lemma zlen_scoped_key i t : identity_wf i -> zlen (scoped_key i t) = IDENTITY_KEY_WORDS + zlen t.
Proof. intros Hi. rewrite scoped_key_app, zlen_app. unfold zlen at 1. by rewrite scope_length. Qed.

(** ** Chunking is lossless. *)
Section Lossless.
Context (sha256 : list byte -> list byte).

Lemma intern_bytes refs bytes st : c_bytes (intern sha256 refs bytes st).1 = bytes.
Proof.
  destruct st as [p next]. unfold intern. case_match eqn:E; [|done]. cbn.
  apply find_some in E as [_ E]. by apply bool_decide_eq_true in E.
Qed.
Lemma intern_all_bytes refs pieces st : concatenate (intern_all sha256 refs pieces st).1 = mjoin pieces.
Proof.
  revert refs st. induction pieces as [|piece pieces IH]; intros refs st; [done|]. cbn [intern_all].
  pose proof (intern_bytes refs piece st) as Hb. destruct (intern sha256 refs piece st) as [c st'].
  specialize (IH (c_addr c :: refs) st'). destruct (intern_all _ _ _ _) as [cs st'']. cbn [fst] in *.
  unfold concatenate in *. cbn [map]. by rewrite !mjoin_cons, IH, Hb.
Qed.

(** The planes a chunked layer list stands for. *)
Definition planes_of (layers : list ChunkedPlane) : list CachePlaneSnapshot :=
  map (fun plane =>
    mkPlane (cp_layer plane) (cp_logical_start plane) (cp_logical_count plane) (cp_encoding plane)
      (concatenate (cp_key plane)) (concatenate (cp_value plane))) layers.

Lemma chunk_layers_planes refs ept planes st :
  is_uint 32 ept -> ept <> 0 ->
  exists layers st', chunk_layers sha256 refs ept planes st = (Ok layers, st') /\ planes_of layers = planes.
Proof.
  intros Hept Hnz. revert refs st. induction planes as [|plane planes IH]; intros refs st; [by eexists [], st|].
  cbn [chunk_layers]. unfold checked_mul. unfold is_uint in Hept.
  assert (1 <= width_bytes (p_encoding plane) <= 4) as Hwidth by (destruct (p_encoding plane); cbn; lia).
  rewrite (proj2 (Z.ltb_lt (ept * _) _)) by nia. cbn [mbind option_bind].
  unfold RESIDENT_CUT_TOKENS. rewrite (proj2 (Z.ltb_lt (ept * _ * _) _)) by nia.
  set (n := Z.to_nat (ept * width_bytes (p_encoding plane) * 256)). assert (0 < n)%nat by (subst n; nia).
  pose proof (intern_all_bytes refs (chunks n (p_key plane)) st) as Hk. rewrite chunks_concat in Hk by done.
  destruct (intern_all sha256 refs (chunks n (p_key plane)) st) as [key st1].
  set (refs1 := map c_addr key ++ refs).
  pose proof (intern_all_bytes refs1 (chunks n (p_value plane)) st1) as Hv. rewrite chunks_concat in Hv by done.
  destruct (intern_all sha256 refs1 (chunks n (p_value plane)) st1) as [value st2].
  destruct (IH (map c_addr value ++ refs1) st2) as (rest & st3 & -> & Hrest).
  eexists _, _. split; [reflexivity|]. unfold planes_of in *. cbn in *. rewrite Hrest, Hk, Hv. by destruct plane.
Qed.

(** A chunked valid snapshot materializes to itself. *)
Lemma chunk_snapshot_materialize refs s logits st :
  validate s = Ok tt -> is_uint 32 (elements_per_token s) ->
  exists rs st', chunk_snapshot sha256 refs s logits st = (Ok rs, st') /\ materialize rs = Ok s /\
    rs_last_logits rs = logits.
Proof.
  intros Hval Hept. assert (elements_per_token s <> 0) as Hnz.
  { intros E. unfold validate, validate_for_window in Hval. rewrite E in Hval. by repeat case_match. }
  unfold chunk_snapshot.
  destruct (chunk_layers_planes refs (elements_per_token s) (layers s) st Hept Hnz) as (ls & st' & -> & Hls).
  eexists _, _. split; [reflexivity|]. split; [|done]. unfold materialize.
  fold (planes_of ls). cbn [rs_layers rs_position rs_tokens rs_elements_per_token].
  change (map _ ls) with (planes_of ls). rewrite Hls. destruct s as [pos toks ept ls0]. cbn in *. by rewrite Hval.
Qed.
End Lossless.

(** ** Eviction. *)
Section Eviction.
Context (sha256 : list byte -> list byte).

Lemma filter_filter_alive refs cs : List.filter (alive refs) (List.filter (alive refs) cs) = List.filter (alive refs) cs.
Proof. induction cs as [|c cs IH]; [done|]. cbn. destruct (alive refs c) eqn:E; cbn; by rewrite ?E, IH. Qed.

Lemma pruned_pool_lookup refs p digest :
  (live_bytes refs p).2 !! digest =
  match List.filter (alive refs) (default [] (p !! digest)) with [] => None | cs => Some cs end.
Proof.
  unfold live_bytes. cbn. destruct (p !! digest) as [cs|] eqn:E; cbn.
  - destruct (List.filter (alive refs) cs) as [|c l] eqn:Ef.
    + apply map_lookup_filter_None. right. intros x (y & <- & Hy)%lookup_fmap_Some.
      rewrite E in Hy. injection Hy as <-. rewrite Ef. cbn. congruence.
    + apply map_lookup_filter_Some. split; [|done]. apply lookup_fmap_Some. eauto.
  - apply map_lookup_filter_None. left. by rewrite lookup_fmap, E.
Qed.

Lemma live_bytes_idem refs p : live_bytes refs (live_bytes refs p).2 = live_bytes refs p.
Proof.
  assert ((live_bytes refs (live_bytes refs p).2).2 = (live_bytes refs p).2) as E.
  { apply map_eq. intros digest. rewrite !pruned_pool_lookup.
    destruct (List.filter (alive refs) (default [] (p !! digest))) as [|c l] eqn:Ef; [done|].
    change (default [] (Some (c :: l))) with (c :: l). rewrite <- Ef, filter_filter_alive. by rewrite Ef. }
  unfold live_bytes in *. cbn in *. by rewrite E.
Qed.

Lemma resident_bytes_idem held r : resident_bytes held (resident_bytes held r).2 = resident_bytes held r.
Proof.
  unfold resident_bytes. pose proof (live_bytes_idem (live_refs (root r) held) (pool r)) as H.
  destruct (live_bytes (live_refs (root r) held) (pool r)) as [b p]. cbn [fst snd root pool] in *. by rewrite H.
Qed.
Lemma resident_bytes_state held r :
  let r' := (resident_bytes held r).2 in
  root r' = root r /\ capacity_bytes r' = capacity_bytes r /\ clock r' = clock r /\ next_id r' = next_id r /\
  next_chunk r' = next_chunk r /\ pool r' = (live_bytes (live_refs (root r) held) (pool r)).2.
Proof. unfold resident_bytes. by destruct (live_bytes _ _). Qed.

(** One turn of the loop evicts an entry no other was used before. *)
Definition lru_evict (n n' : tree) : Prop :=
  exists pe, pe ∈ entries n /\ (forall pe', pe' ∈ entries n -> last_access pe.2 <= last_access pe'.2) /\
    n' = evict n (e_id pe.2).

Lemma evict_loop_spec fuel held r :
  node_wf (root r) -> (length (entries (root r)) < fuel)%nat ->
  let r' := evict_loop fuel held r in
  node_wf (root r') /\ (forall pe, pe ∈ entries (root r') -> pe ∈ entries (root r)) /\
  rtc lru_evict (root r) (root r') /\
  ((resident_bytes held r').1 <= capacity_bytes r \/ entries (root r') = []) /\
  ((resident_bytes held r).1 <= capacity_bytes r -> root r' = root r) /\
  capacity_bytes r' = capacity_bytes r /\ clock r' = clock r /\ next_id r' = next_id r.
Proof.
  revert r. induction fuel as [|fuel IH]; intros r Hwf Hf; [lia|]. cbn [evict_loop].
  pose proof (resident_bytes_idem held r) as Hidem. pose proof (resident_bytes_state held r) as Hst.
  destruct (resident_bytes held r) as [bytes r1]. cbn [fst snd] in *. cbn zeta in Hst.
  destruct Hst as (Hroot & Hcap & Hclock & Hnext & _ & _).
  destruct (capacity_bytes r1 <? bytes) eqn:E; bool_prop.
  2:{ rewrite Hroot, Hidem. repeat split; try done. left. cbn. lia. }
  pose proof (find_lru_spec (root r1)) as Hlru. destruct (find_lru (root r1)) as [id|].
  2:{ rewrite Hroot in *. repeat split; try done. by right. }
  destruct Hlru as (pe & Hin & <- & Hmin). rewrite Hroot in *.
  destruct (evict_spec (root r) (e_id pe.2) Hwf) as [Hent Hwf'].
  assert (has_id (e_id pe.2) (entries (root r)) = true) as Hhas by (apply has_id_spec; eauto).
  apply remove_first_length in Hhas.
  set (r2 := mkRadix (evict (root r) (e_id pe.2)) _ _ _ _ _ _ _ _).
  destruct (IH r2) as (W & Hsub & Hrtc & Hfit & Hkeep & Hc & Hck & Hn);
    [done | cbn; rewrite Hent; lia|].
  split; [done|]. split.
  { intros pe' Hin'. apply Hsub in Hin'. cbn in Hin'. rewrite Hent in Hin'. by eapply remove_first_subset. }
  split; [eapply rtc_l; [|exact Hrtc]; exists pe; auto|].
  split; [cbn in Hfit; rewrite Hcap in Hfit; done|].
  split; [intros; lia|]. cbn in Hc, Hck, Hn. by rewrite Hc, Hck, Hn.
Qed.
End Eviction.

(** ** Reachable caches. *)
Section Reachable.
Context (sha256 : list byte -> list byte).
Implicit Types (r : ResidentRadix) (s : SessionCacheSnapshot) (identity : option (list byte)).

Definition history : Type := list (option (list byte) * SessionCacheSnapshot).

(** What an entry stands for: a snapshot inserted under the identity in its key. *)
Definition entry_of (h : history) (bound : Z) (pe : list Z * ResidentEntry ResidentSnapshot) : Prop :=
  exists identity s, (identity, s) ∈ h /\ identity_wf identity /\ validate s = Ok tt /\
    pe.1 = scoped_key identity (tokens s) /\ materialize (e_snapshot pe.2) = Ok s /\
    ancestor_reusable pe.2 = is_multiple_of (position s) RESIDENT_CUT_TOKENS /\ e_id pe.2 < bound.

Record radix_ok (h : history) r : Prop := {
  ro_wf : node_wf (root r);
  ro_entries : forall pe, pe ∈ entries (root r) -> entry_of h (next_id r) pe;
}.

(** Operations on a cache, with the snapshots inserted so far; [held] is whatever callers keep. *)
Inductive resident_step : ResidentRadix * history -> ResidentRadix * history -> Prop :=
| rs_insert held identity s logits r h b r' :
    identity_wf identity -> is_uint 32 (elements_per_token s) -> next_id r < 2 ^ 64 - 1 ->
    insert_with_logits sha256 held identity s logits r = (Ok b, r') ->
    resident_step (r, h) (r', (identity, s) :: h)
| rs_insert_refused held identity s logits r h e r' :
    insert_with_logits sha256 held identity s logits r = (Err e, r') -> resident_step (r, h) (r', h)
| rs_lookup identity toks max_cut r h :
    resident_step (r, h) ((lookup_capped identity toks max_cut r).2, h)
| rs_stats held r h : resident_step (r, h) ((stats held r).2, h).

(** A successful insertion: the tree is the old one with the entry added, then evicted from. *)
Lemma insert_Ok held identity s logits r b r' :
  is_uint 32 (elements_per_token s) -> node_wf (root r) -> next_id r < 2 ^ 64 - 1 ->
  insert_with_logits sha256 held identity s logits r = (Ok b, r') ->
  exists e, validate s = Ok tt /\ materialize (e_snapshot e) = Ok s /\ rs_last_logits (e_snapshot e) = logits /\
    ancestor_reusable e = is_multiple_of (position s) RESIDENT_CUT_TOKENS /\ e_id e = next_id r /\
    node_wf (root r') /\ next_id r' = next_id r + 1 /\ capacity_bytes r' = capacity_bytes r /\
    rtc lru_evict (insert_recursive (root r) (scoped_key identity (tokens s)) e) (root r') /\
    (forall pe, pe ∈ entries (root r') ->
       pe ∈ entries (insert_recursive (root r) (scoped_key identity (tokens s)) e)) /\
    ((resident_bytes held r').1 <= capacity_bytes r' \/ entries (root r') = []) /\
    b = has_id (next_id r) (entries (root r')).
Proof.
  intros Hept Hwf Hid H. unfold insert_with_logits in H.
  destruct (validate s) as [[]|] eqn:Hval; [|done].
  destruct (negb _); [done|]. destruct (match logits with Some _ => _ | None => _ end); [done|].
  destruct (chunk_snapshot_materialize sha256 (live_refs (root r) held) s logits (pool r, next_chunk r) Hval Hept)
    as (rs & st' & E & Hmat & Hlog).
  rewrite E in H. clear E. cbn zeta in H.
  set (e := mkEntry (next_id r) rs (is_multiple_of (position s) RESIDENT_CUT_TOKENS) (saturating_add 64 (clock r) 1)) in *.
  set (root1 := insert_recursive (root r) (scoped_key identity (tokens s)) e) in *.
  set (r1 := mkRadix root1 _ _ _ _ _ _ _ _) in H.
  destruct (insert_recursive_spec (root r) (scoped_key identity (tokens s)) e Hwf) as [Hwf1 _].
  destruct (evict_loop_spec (S (length (entries root1))) held r1) as (W & Hsub & Hrtc & Hfit & _ & Hc & _ & Hn);
    [done | cbn; lia|].
  pose proof (f_equal fst H) as Hb. pose proof (f_equal snd H) as Hr'. cbn [fst snd] in Hb, Hr'.
  subst r'. injection Hb as Hb. exists e. rewrite find_id_has_id in Hb.
  change (next_id r1) with (saturating_add 64 (next_id r) 1) in Hn.
  change (capacity_bytes r1) with (capacity_bytes r) in Hc, Hfit. unfold saturating_add in Hn.
  rewrite Hc. do 6 (split; [done|]). split; [lia|]. do 4 (split; [done|]). done.
Qed.

Lemma entry_of_mono h h' b b' pe : (forall x, x ∈ h -> x ∈ h') -> b <= b' -> entry_of h b pe -> entry_of h' b' pe.
Proof.
  intros Hh Hb (i & s & H1 & H2 & H3 & H4 & H5 & H6 & H7). exists i, s. repeat split; auto. lia.
Qed.

Lemma resident_step_ok r h r' h' : radix_ok h r -> resident_step (r, h) (r', h') -> radix_ok h' r'.
Proof.
  intros [Hwf Hent] Hstep. inversion Hstep as [held i s logits r0 h0 b r1 Hi Hept Hid Hins
    |held i s logits r0 h0 e r1 Hins|i toks cap r0 h0|held r0 h0]; subst; clear Hstep.
  - destruct (insert_Ok held i s logits r b r' Hept Hwf Hid Hins)
      as (e & Hval & Hmat & _ & Hanc & Hide & W & Hn & _ & _ & Hsub & _).
    split; [done|]. intros [p x] Hin%Hsub.
    destruct (insert_recursive_spec (root r) (scoped_key i (tokens s)) e Hwf) as [_ Hspec].
    apply Hspec in Hin as [[-> ->]|[_ Hin]].
    + exists i, s. cbn. rewrite Hide, Hn. repeat split; try done; [constructor | lia].
    + apply (entry_of_mono h _ (next_id r)); [by constructor | lia | by apply Hent].
  - unfold insert_with_logits in Hins. repeat (split_match_in Hins; simplify_eq/=); by split.
  - unfold lookup_capped. pose proof (longest_match_spec (saturating_add 64 (clock r) 1)
      (saturating_add 64 IDENTITY_KEY_WORDS cap) (root r) (scoped_key i toks) 0 None Hwf) as Hm.
    destruct (longest_match_recursive _ _ _ _ _ _) as [root' best]. destruct Hm as (_ & Hsame & W & _).
    split; cbn; [done|]. intros pe Hin.
    apply list_elem_of_lookup in Hin as [j Hj]. destruct (Forall2_lookup_r _ _ _ _ _ Hsame Hj) as (pe0 & Hj0 & Hs).
    destruct Hs as (E1 & E2 & E3 & E4 & _).
    destruct (Hent pe0) as (i0 & s0 & H1 & H2 & H3 & H4 & H5 & H6 & H7); [by eapply list_elem_of_lookup_2|].
    exists i0, s0. rewrite <- E1, <- E2, <- E3, <- E4. done.
  - unfold stats. destruct (count_nodes _ _), (live_bytes _ _). by split.
Qed.

Lemma new_ok capacity r : new capacity = Ok r -> radix_ok [] r.
Proof.
  unfold new. case_match; [done|]. intros [= <-]. split; [apply empty_root_wf|].
  intros pe Hin. cbn in Hin. by apply not_elem_of_nil in Hin.
Qed.

(** A cut the lookup may serve: resident under the identity, on the query's token chain, within
    the cap, and either the whole query or on the 256-token grid. *)
Definition servable (identity : option (list byte)) (toks : list Z) (max_cut : Z) r (p : list Z) : Prop :=
  (exists e, (scoped_key identity p, e) ∈ entries (root r)) /\ p `prefix_of` toks /\ zlen p <= max_cut /\
  (p = toks \/ zlen p mod 256 = 0).

Lemma servable_eligible h r identity toks max_cut q x :
  radix_ok h r -> identity_wf identity -> 0 <= max_cut -> zlen toks + 9 < 2 ^ 64 ->
  (q, x) ∈ entries (root r) ->
  eligible (saturating_add 64 IDENTITY_KEY_WORDS max_cut) (scoped_key identity toks) 0 q x <->
  exists p, q = scoped_key identity p /\ servable identity toks max_cut r p.
Proof.
  intros [Hwf Hent] Hi Hcap H64 Hin. unfold servable.
  destruct (Hent _ Hin) as (i & s & Hh & Hi' & Hval & Hq & Hmat & Hanc & Hid). cbn in Hq, Hanc.
  assert (zlen (tokens s) = position s) as Hpos.
  { unfold validate, validate_for_window in Hval. repeat (case_match; try done). bool_prop. done. }
  assert (forall p, p `prefix_of` toks -> zlen p + 9 < 2 ^ 64) as Hp64.
  { intros p Hp%prefix_length. unfold zlen in *. lia. }
  unfold eligible, saturating_add. rewrite Hq. split.
  - intros (Hp & Hd & Hx). apply scoped_key_prefix in Hp as [-> Hp]; [|done..].
    rewrite zlen_scoped_key in Hd by done. exists (tokens s). split; [done|].
    rewrite <- Hq. split; [by exists x|]. split; [done|]. split; [unfold IDENTITY_KEY_WORDS in *; lia|].
    destruct Hx as [Hx|Hx]; [left; by apply scoped_key_inj in Hx as [_ ?]|]. right.
    rewrite Hanc in Hx. unfold is_multiple_of, RESIDENT_CUT_TOKENS in Hx. cbn [Z.eqb] in Hx.
    bool_prop. by rewrite Hpos.
  - intros (p & Ep & _ & Hp & Hc & Hx). apply scoped_key_inj in Ep as [-> <-]; [|done..].
    split; [rewrite !scoped_key_app; by apply prefix_app|]. split.
    + rewrite zlen_scoped_key by done. specialize (Hp64 _ Hp). unfold IDENTITY_KEY_WORDS. lia.
    + destruct Hx as [->|Hx]; [by left|]. right. rewrite Hanc. unfold is_multiple_of, RESIDENT_CUT_TOKENS.
      cbn [Z.eqb]. apply Z.eqb_eq. by rewrite <- Hpos.
Qed.

(** What a lookup returns, on any cache that satisfies the invariant. *)
Lemma lookup_capped_spec h r identity toks max_cut :
  radix_ok h r -> identity_wf identity -> 0 <= max_cut -> zlen toks + 9 < 2 ^ 64 ->
  match (lookup_capped identity toks max_cut r).1 with
  | None => forall p, ~ servable identity toks max_cut r p
  | Some hit =>
      exists s e, (identity, s) ∈ h /\ (scoped_key identity (tokens s), e) ∈ entries (root r) /\
        hit_snapshot hit = e_snapshot e /\ materialize (hit_snapshot hit) = Ok s /\
        cut hit = position s /\ tokens s = take (Z.to_nat (cut hit)) toks /\
        servable identity toks max_cut r (tokens s) /\ exact_hit hit = bool_decide (tokens s = toks) /\
        forall p, servable identity toks max_cut r p -> zlen p <= cut hit
  end.
Proof.
  intros Hok Hi Hcap H64. pose proof Hok as [Hwf Hent]. unfold lookup_capped.
  pose proof (longest_match_spec (saturating_add 64 (clock r) 1)
    (saturating_add 64 IDENTITY_KEY_WORDS max_cut) (root r) (scoped_key identity toks) 0 None Hwf) as Hm.
  destruct (longest_match_recursive _ _ _ _ _ _) as [root' best]. destruct Hm as (Hb & _). cbn [fst].
  destruct Hb as [(q & x & Hin & Hel & -> & Hmax)|[-> Hno]].
  - destruct (proj1 (servable_eligible h r identity toks max_cut q x Hok Hi Hcap H64 Hin) Hel) as (p & -> & Hserv).
    destruct (Hent _ Hin) as (i & s & Hh & Hi' & Hval & Hq & Hmat & Hanc & Hid). cbn in Hq, Hmat.
    apply scoped_key_inj in Hq as [<- ->]; [|done..].
    assert (zlen (tokens s) = position s) as Hpos.
    { unfold validate, validate_for_window in Hval. repeat (case_match; try done). bool_prop. done. }
    destruct Hserv as (Hres & Hp & Hc & Hx). pose proof (zlen_nonneg (tokens s)).
    assert (zlen (tokens s) <= zlen toks) as Hle by (apply prefix_length in Hp; unfold zlen; lia).
    assert (as_unsigned 64 (0 + zlen (scoped_key identity (tokens s)) - IDENTITY_KEY_WORDS) = position s) as Hcut.
    { rewrite zlen_scoped_key by done. unfold as_unsigned. rewrite Z.mod_small by lia. lia. }
    exists s, x. cbn [hit_of hit_snapshot cut exact_hit]. rewrite Hcut.
    repeat split; try done.
    + destruct Hp as [k ->]. rewrite <- Hpos, to_nat_zlen. by rewrite take_app_length.
    + apply bool_decide_ext. split; [|by intros ->]. by intros [_ ?]%scoped_key_inj.
    + intros p' Hserv'. pose proof Hserv' as ([e' Hin'] & _).
      assert (zlen (scoped_key identity p') <= zlen (scoped_key identity (tokens s))) as Hz.
      { apply (Hmax _ e' Hin'), (proj2 (servable_eligible h r identity toks max_cut _ e' Hok Hi Hcap H64 Hin')). eauto. }
      rewrite !zlen_scoped_key in Hz by done. lia.
  - intros p Hserv. pose proof Hserv as ([e Hin] & _). apply (Hno _ e Hin).
    apply (proj2 (servable_eligible h r identity toks max_cut _ e Hok Hi Hcap H64 Hin)). eauto.
Qed.

(** ** Every chunk an entry refers to is accounted for in the pool. *)
Definition plane_chunks (p : ChunkedPlane) : list chunk := cp_key p ++ cp_value p.
Definition snapshot_chunks (rs : ResidentSnapshot) : list chunk := mjoin (map plane_chunks (rs_layers rs)).
Definition pooled (p : ChunkPool) (c : chunk) : Prop := c ∈ default [] (p !! sha256 (c_bytes c)).
Definition pool_ok r : Prop :=
  forall pe c, pe ∈ entries (root r) -> c ∈ snapshot_chunks (e_snapshot pe.2) -> pooled (pool r) c.

Lemma alive_spec refs c : alive refs c = true <-> c_addr c ∈ refs.
Proof. unfold alive. apply bool_decide_eq_true. Qed.

Lemma elem_filter_alive refs (c : chunk) cs : c ∈ List.filter (alive refs) cs <-> c ∈ cs /\ c_addr c ∈ refs.
Proof. by rewrite list_elem_of_In, filter_In, <- list_elem_of_In, alive_spec. Qed.

Lemma intern_pooled refs bytes st :
  let (c, st') := intern sha256 refs bytes st in
  pooled st'.1 c /\ forall c', pooled st.1 c' -> c_addr c' ∈ refs -> pooled st'.1 c'.
Proof.
  pose proof (intern_bytes sha256 refs bytes st) as Hb. destruct st as [p next]. unfold intern in *.
  set (cands := List.filter (alive refs) (default [] (p !! sha256 bytes))) in *.
  assert (forall c' cands', pooled p c' -> c_addr c' ∈ refs -> (forall x, x ∈ cands -> x ∈ cands') ->
            pooled (<[sha256 bytes := cands']> p) c') as Hkeep.
  { intros c' cands' Hc' Hrefs Hsub. unfold pooled in *.
    destruct (decide (sha256 (c_bytes c') = sha256 bytes)) as [E|Hne].
    - rewrite E, lookup_insert_eq. cbn. apply Hsub. rewrite E in Hc'. by apply elem_filter_alive.
    - by rewrite lookup_insert_ne by congruence. }
  destruct (List.find _ _) as [existing|] eqn:E; cbn [fst] in *.
  - split; [|intros; by apply Hkeep]. apply find_some in E as [E _]. unfold pooled. rewrite Hb, lookup_insert_eq.
    cbn. by apply list_elem_of_In.
  - split; [unfold pooled; cbn; rewrite lookup_insert_eq; cbn; apply elem_of_app; right; by apply list_elem_of_singleton|].
    intros c' ? ?. apply Hkeep; [done..|]. intros x Hx. apply elem_of_app. by left.
Qed.

Lemma intern_all_pooled refs pieces st :
  let (cs, st') := intern_all sha256 refs pieces st in
  (forall c, c ∈ cs -> pooled st'.1 c) /\ forall c', pooled st.1 c' -> c_addr c' ∈ refs -> pooled st'.1 c'.
Proof.
  revert refs st. induction pieces as [|piece pieces IH]; intros refs st; cbn [intern_all].
  { split; [by intros c ?%not_elem_of_nil | done]. }
  pose proof (intern_pooled refs piece st) as H. destruct (intern sha256 refs piece st) as [c st1].
  destruct H as [H1 H2]. specialize (IH (c_addr c :: refs) st1).
  destruct (intern_all sha256 (c_addr c :: refs) pieces st1) as [cs st2]. destruct IH as [H3 H4]. split.
  - intros c' [->|Hin]%elem_of_cons; [apply H4; [done | constructor] | by apply H3].
  - intros c' Hc' Hr. apply H4; [by apply H2 | by constructor].
Qed.

Lemma chunk_layers_pooled refs ept planes st :
  let (res, st') := chunk_layers sha256 refs ept planes st in
  (forall layers c, res = Ok layers -> c ∈ mjoin (map plane_chunks layers) -> pooled st'.1 c) /\
  forall c', pooled st.1 c' -> c_addr c' ∈ refs -> pooled st'.1 c'.
Proof.
  revert refs st. induction planes as [|plane planes IH]; intros refs st; cbn [chunk_layers].
  { split; [|done]. intros layers c [= <-] Hin. by apply not_elem_of_nil in Hin. }
  destruct (checked_mul 64 ept _ ≫= _) as [n|]; [|split; done].
  pose proof (intern_all_pooled refs (chunks (Z.to_nat n) (p_key plane)) st) as H1.
  destruct (intern_all sha256 refs _ st) as [key st1]. destruct H1 as [K1 K2].
  pose proof (intern_all_pooled (map c_addr key ++ refs) (chunks (Z.to_nat n) (p_value plane)) st1) as H2.
  destruct (intern_all sha256 (map c_addr key ++ refs) _ st1) as [value st2]. destruct H2 as [V1 V2].
  specialize (IH (map c_addr value ++ map c_addr key ++ refs) st2).
  destruct (chunk_layers sha256 _ ept planes st2) as [rest st3]. destruct IH as [R1 R2].
  assert (forall c cs refs', c ∈ cs -> c_addr c ∈ map c_addr cs ++ refs') as Haddr.
  { intros c cs refs' Hc. apply elem_of_app. left. by apply list_elem_of_fmap_2. }
  split.
  - intros layers c Hres Hin. destruct rest as [rest|]; [|done]. injection Hres as <-. cbn [map] in Hin.
    rewrite mjoin_cons in Hin. unfold plane_chunks at 1 in Hin. cbn [cp_key cp_value] in Hin.
    apply elem_of_app in Hin as [[Hk|Hv]%elem_of_app|Hin].
    + apply R2; [apply V2; [by apply K1 | by apply Haddr] | apply elem_of_app; right; by apply Haddr].
    + apply R2; [by apply V1 | by apply Haddr].
    + by eapply R1.
  - intros c' Hc' Hr. apply R2; [apply V2; [by apply K2 | apply elem_of_app; by right]|].
    rewrite !elem_of_app. by right; right.
Qed.

Lemma pruned_pooled refs p c : pooled p c -> c_addr c ∈ refs -> pooled (live_bytes refs p).2 c.
Proof.
  unfold pooled. intros Hp Hr. rewrite pruned_pool_lookup.
  assert (c ∈ List.filter (alive refs) (default [] (p !! sha256 (c_bytes c)))) as Hin by by apply elem_filter_alive.
  by destruct (List.filter _ _).
Qed.

(** The chunks of an entry are alive while the entry is in the tree. *)
Lemma entry_chunk_alive (n : tree) held pe c :
  pe ∈ entries n -> c ∈ snapshot_chunks (e_snapshot pe.2) -> c_addr c ∈ live_refs n held.
Proof.
  intros Hpe Hc. unfold live_refs, tree_refs. apply elem_of_app. left. apply list_elem_of_join.
  exists (snapshot_refs (e_snapshot pe.2)). split; [|apply list_elem_of_fmap; by exists pe].
  unfold snapshot_chunks in Hc. unfold snapshot_refs.
  apply list_elem_of_join in Hc as (l & Hcl & Hl). apply list_elem_of_fmap in Hl as (plane & -> & Hplane).
  apply list_elem_of_join. exists (plane_refs plane). split; [|apply list_elem_of_fmap; by exists plane].
  unfold plane_refs. rewrite <- map_app. by apply list_elem_of_fmap_2.
Qed.

Lemma pool_ok_sub r root' pool' nc cap ck ni q h ev :
  pool_ok r -> (forall pe, pe ∈ entries root' -> exists pe0, pe0 ∈ entries (root r) /\ e_snapshot pe0.2 = e_snapshot pe.2) ->
  (forall c, pooled (pool r) c -> (exists pe, pe ∈ entries (root r) /\ c ∈ snapshot_chunks (e_snapshot pe.2)) -> pooled pool' c) ->
  pool_ok (mkRadix root' pool' nc cap ck ni q h ev).
Proof.
  intros Hok Hsub Hkeep pe c Hpe Hc. cbn in *. destruct (Hsub pe Hpe) as (pe0 & Hpe0 & E).
  rewrite <- E in Hc. apply Hkeep; [by eapply Hok | eauto].
Qed.

Lemma resident_bytes_pool_ok held r : pool_ok r -> pool_ok (resident_bytes held r).2.
Proof.
  intros Hok. pose proof (resident_bytes_state held r) as (Hroot & _ & _ & _ & _ & Hpool).
  intros pe c Hpe Hc. rewrite Hroot in Hpe. rewrite Hpool.
  apply pruned_pooled; [by eapply Hok | by eapply entry_chunk_alive].
Qed.

Lemma evict_loop_pool_ok fuel held r :
  node_wf (root r) -> pool_ok r -> pool_ok (evict_loop fuel held r).
Proof.
  revert r. induction fuel as [|fuel IH]; intros r Hwf Hok; [done|]. cbn [evict_loop].
  pose proof (resident_bytes_pool_ok held r Hok) as Hok1.
  pose proof (resident_bytes_state held r) as (Hroot & _).
  destruct (resident_bytes held r) as [bytes r1]. cbn [snd] in *.
  destruct (capacity_bytes r1 <? bytes); [|done]. destruct (find_lru (root r1)) as [id|]; [|done].
  rewrite <- Hroot in Hwf. destruct (evict_spec (root r1) id Hwf) as [Hent Hwf']. apply IH; [done|].
  apply (pool_ok_sub r1); [done| |done]. intros pe Hpe. rewrite Hent in Hpe.
  exists pe. split; [by eapply remove_first_subset | done].
Qed.

Lemma insert_pool_ok held identity s logits r res r' :
  node_wf (root r) -> pool_ok r -> insert_with_logits sha256 held identity s logits r = (res, r') -> pool_ok r'.
Proof.
  intros Hwf Hok H. unfold insert_with_logits in H.
  destruct (validate s) as [[]|]; [|by injection H as _ <-].
  destruct (negb _); [by injection H as _ <-|].
  destruct (match logits with Some _ => _ | None => _ end); [by injection H as _ <-|].
  unfold chunk_snapshot in H.
  pose proof (chunk_layers_pooled (live_refs (root r) held) (elements_per_token s) (layers s) (pool r, next_chunk r)) as Hc.
  destruct (chunk_layers _ _ _ _ _) as [ls st']. destruct Hc as [Hnew Hold]. cbn [fst] in Hold.
  assert (forall pe c, pe ∈ entries (root r) -> c ∈ snapshot_chunks (e_snapshot pe.2) -> pooled st'.1 c) as Hkeep.
  { intros pe c Hpe Hc. apply Hold; [by eapply Hok | by eapply entry_chunk_alive]. }
  destruct ls as [ls|e]; cbn zeta in H; pose proof (f_equal snd H) as Hr'; cbn [snd] in Hr'; subst r'.
  2:{ intros pe c Hpe Hc. cbn in *. by eapply Hkeep. }
  match goal with |- pool_ok (evict_loop ?f held ?r1) => set (r1' := r1); assert (node_wf (root r1') /\ pool_ok r1') as [? ?] end.
  2:{ by apply evict_loop_pool_ok. }
  subst r1'. cbn [root]. match goal with |- node_wf (insert_recursive _ _ ?e) /\ _ =>
    destruct (insert_recursive_spec (root r) (scoped_key identity (tokens s)) e Hwf) as [Hwf1 Hspec] end.
  split; [done|]. intros [p x] c Hpe Hc. cbn [root pool snd] in *.
  apply Hspec in Hpe as [[-> ->]|[_ Hpe]]; [|by eapply (Hkeep (p, x))].
  cbn in Hc. by eapply Hnew.
Qed.

Lemma resident_step_pool_ok r h r' h' :
  node_wf (root r) -> pool_ok r -> resident_step (r, h) (r', h') -> pool_ok r'.
Proof.
  intros Hwf Hok Hstep. inversion Hstep as [held i s logits r0 h0 b r1 Hi Hept Hid Hins
    |held i s logits r0 h0 e r1 Hins|i toks cap r0 h0|held r0 h0]; subst; clear Hstep.
  - by eapply insert_pool_ok.
  - by eapply insert_pool_ok.
  - unfold lookup_capped. pose proof (longest_match_spec (saturating_add 64 (clock r) 1)
      (saturating_add 64 IDENTITY_KEY_WORDS cap) (root r) (scoped_key i toks) 0 None Hwf) as Hm.
    destruct (longest_match_recursive _ _ _ _ _ _) as [root' best]. destruct Hm as (_ & Hsame & _).
    apply (pool_ok_sub r); [done| |done]. intros pe [j Hj]%list_elem_of_lookup.
    destruct (Forall2_lookup_r _ _ _ _ _ Hsame Hj) as (pe0 & Hj0 & (_ & _ & E & _)).
    exists pe0. split; [by eapply list_elem_of_lookup_2 | done].
  - unfold stats. destruct (count_nodes _ _) as [es ns].
    pose proof (fun c => pruned_pooled (live_refs (root r) held) (pool r) c) as Hp.
    destruct (live_bytes _ _) as [b p]. apply (pool_ok_sub r); [done | eauto |].
    intros c Hc (pe & Hpe & Hcs). apply Hp; [done | by eapply entry_chunk_alive].
Qed.

Lemma reachable_invariants capacity r0 r h :
  new capacity = Ok r0 -> rtc resident_step (r0, []) (r, h) ->
  radix_ok h r /\ pool_ok r /\ capacity_bytes r = capacity.
Proof.
  intros Hnew Hsteps.
  enough (forall x y, rtc resident_step x y -> radix_ok x.2 x.1 /\ pool_ok x.1 /\ capacity_bytes x.1 = capacity ->
            radix_ok y.2 y.1 /\ pool_ok y.1 /\ capacity_bytes y.1 = capacity) as H.
  { apply (H _ _ Hsteps). split; [by eapply new_ok|]. unfold new in Hnew. case_match; [done|].
    injection Hnew as <-. split; [|done]. intros pe c Hpe. cbn in Hpe. by apply not_elem_of_nil in Hpe. }
  induction 1 as [|[r1 h1] [r2 h2] y Hstep _ IH]; [done|]. intros (Hok & Hp & Hc). apply IH.
  split; [by eapply resident_step_ok|].
  split; [eapply resident_step_pool_ok; [apply Hok | done | done]|]. cbn in *. subst.
  inversion Hstep as [held i s logits ? ? b ? Hi Hept Hid Hins
    |held i s logits ? ? e ? Hins|i toks cap ? ?|held ? ?]; subst; clear Hstep.
  - destruct (insert_Ok held i s logits r1 b r2 Hept (ro_wf _ _ Hok) Hid Hins) as (? & _ & _ & _ & _ & _ & _ & _ & E & _).
    done.
  - unfold insert_with_logits in Hins. repeat (split_match_in Hins; simplify_eq/=); done.
  - unfold lookup_capped. by destruct (longest_match_recursive _ _ _ _ _ _).
  - unfold stats. by destruct (count_nodes _ _), (live_bytes _ _).
Qed.

(** ** The byte account. *)
Definition total_bytes (cs : list chunk) : Z := foldr (fun c n => zlen (c_bytes c) + n) 0 cs.

Lemma total_bytes_nonneg cs : 0 <= total_bytes cs.
Proof.
  unfold total_bytes. induction cs as [|c cs IH]; cbn [foldr]; [lia|]. pose proof (zlen_nonneg (c_bytes c)). lia.
Qed.

Lemma saturating_sum (cs : list chunk) a :
  0 <= a < 2 ^ 64 ->
  foldl (saturating_add 64) a (map (fun c => zlen (c_bytes c)) cs) = Z.min (a + total_bytes cs) (2 ^ 64 - 1).
Proof.
  revert a. induction cs as [|c cs IH]; intros a Ha; cbn [map foldl total_bytes foldr]; [lia|].
  pose proof (zlen_nonneg (c_bytes c)). fold (total_bytes cs).
  pose proof (total_bytes_nonneg cs).
  rewrite IH by (unfold saturating_add; lia). unfold saturating_add. lia.
Qed.

Lemma total_bytes_sub cs cs' : NoDup cs -> (forall c, c ∈ cs -> c ∈ cs') -> total_bytes cs <= total_bytes cs'.
Proof.
  intros Hnd Hsub. apply NoDup_submseteq in Hsub; [|done]. clear Hnd.
  pose proof total_bytes_nonneg as Hpos.
  assert (forall l k, l ≡ₚ k -> total_bytes l = total_bytes k) as Hperm.
  { unfold total_bytes. clear. induction 1; cbn [foldr]; lia. }
  assert (forall l k, total_bytes (l ++ k) = total_bytes l + total_bytes k) as Happ.
  { unfold total_bytes. clear. intros l k. induction l as [|c l IH]; cbn [foldr app]; lia. }
  apply submseteq_Permutation in Hsub as [k Hk]. rewrite (Hperm _ _ Hk), Happ. specialize (Hpos k). lia.
Qed.

(** Distinct chunks referred to by entries, counted once each, fit the live bytes. *)
Lemma live_bytes_covers r held cs :
  pool_ok r -> NoDup cs ->
  (forall c, c ∈ cs -> exists pe, pe ∈ entries (root r) /\ c ∈ snapshot_chunks (e_snapshot pe.2)) ->
  Z.min (total_bytes cs) (2 ^ 64 - 1) <= (resident_bytes held r).1.
Proof.
  intros Hok Hnd Hcs. unfold resident_bytes.
  assert (forall c, c ∈ cs -> pooled (live_bytes (live_refs (root r) held) (pool r)).2 c) as Hpooled.
  { intros c Hc. destruct (Hcs c Hc) as (pe & Hpe & Hin).
    apply pruned_pooled; [by eapply Hok | by eapply entry_chunk_alive]. }
  unfold live_bytes in *. cbn [fst snd] in *. set (p := filter _ _) in *.
  rewrite saturating_sum by lia. rewrite Z.add_0_l.
  assert (0 <= entry_logits_bytes logits_len (root r)) as Hlog.
  { generalize (root r) as n. induction n as [edge0 entry0 kids IH] using RadixNode_induction. cbn [entry_logits_bytes].
    set (own := match entry0 with Some e => _ | None => 0 end).
    assert (0 <= own) as Hown.
    { subst own. destruct entry0 as [e|]; [|lia]. unfold saturating_mul, logits_len.
      destruct (rs_last_logits _); [|lia]. pose proof (zlen_nonneg l). lia. }
    clearbody own. revert own Hown. induction IH as [|[k c] kids Hc IH IHk]; intros own Hown; [done|].
    apply IHk. cbn [snd] in Hc. unfold saturating_add. lia. }
  assert (total_bytes cs <= total_bytes (mjoin (map_to_list p).*2)) as Hsum.
  { apply total_bytes_sub; [done|]. intros c Hc. specialize (Hpooled c Hc). unfold pooled in Hpooled.
    destruct (p !! sha256 (c_bytes c)) as [l|] eqn:E; [|by apply not_elem_of_nil in Hpooled].
    apply list_elem_of_join. exists l. split; [done|]. apply list_elem_of_fmap.
    exists (sha256 (c_bytes c), l). split; [done|]. by apply elem_of_map_to_list. }
  pose proof (total_bytes_nonneg cs).
  unfold saturating_add. lia.
Qed.

(** An insertion and the residency it reports; a resident cut is found by an exact lookup. *)
Lemma insert_reports_residency h r held identity s logits b r' :
  radix_ok h r -> identity_wf identity -> is_uint 32 (elements_per_token s) -> next_id r < 2 ^ 64 - 1 ->
  zlen (tokens s) + 9 < 2 ^ 64 ->
  insert_with_logits sha256 held identity s logits r = (Ok b, r') ->
  (b = true <-> exists e, (scoped_key identity (tokens s), e) ∈ entries (root r')) /\
  (b = true -> exists hit, (lookup identity (tokens s) r').1 = Some hit /\ exact_hit hit = true /\
     cut hit = position s /\ materialize (hit_snapshot hit) = Ok s /\
     rs_last_logits (hit_snapshot hit) = logits).
Proof.
  intros Hok Hi Hept Hid H64 Hins.
  destruct (insert_Ok held identity s logits r b r' Hept (ro_wf _ _ Hok) Hid Hins)
    as (e & Hval & Hmat & Hlog & Hanc & Hide & W & Hn & Hcap' & Hrtc & Hsub & Hfit & Hb).
  destruct (insert_recursive_spec (root r) (scoped_key identity (tokens s)) e (ro_wf _ _ Hok)) as [_ Hspec].
  assert (forall x, (scoped_key identity (tokens s), x) ∈ entries (root r') -> x = e) as Huniq.
  { intros x [[_ ->]|[? _]]%Hsub%Hspec; done. }
  assert (b = true <-> exists x, (scoped_key identity (tokens s), x) ∈ entries (root r')) as Hiff.
  { rewrite Hb, has_id_spec. split.
    - intros ([p x] & Hin & Hx). cbn in Hx. exists x. pose proof (Hsub _ Hin) as Hin'.
      apply Hspec in Hin' as [[-> _]|[_ Hin']]; [done|].
      destruct (ro_entries _ _ Hok _ Hin') as (? & ? & _ & _ & _ & _ & _ & _ & Hlt). cbn in Hlt. lia.
    - intros [x Hin]. exists (scoped_key identity (tokens s), x). split; [done|].
      by rewrite (Huniq x Hin). }
  split; [done|]. intros Ht. apply Hiff in Ht as [x Hin]. pose proof (Huniq x Hin) as ->.
  assert (radix_ok ((identity, s) :: h) r') as Hok'.
  { eapply (resident_step_ok r h); [done|]. by eapply rs_insert. }
  assert (zlen (tokens s) = position s) as Hpos.
  { unfold validate, validate_for_window in Hval. repeat (case_match; try done). bool_prop. done. }
  pose proof (lookup_capped_spec _ r' identity (tokens s) USIZE_MAX Hok' Hi ltac:(done) H64) as Hl.
  assert (servable identity (tokens s) USIZE_MAX r' (tokens s)) as Hserv.
  { split; [by exists e|]. split; [done|]. split; [unfold USIZE_MAX, U64_MAX; lia | by left]. }
  unfold lookup. destruct (lookup_capped identity (tokens s) USIZE_MAX r').1 as [hit|]; [|by destruct (Hl _ Hserv)].
  destruct Hl as (s' & x & _ & Hx & Ehit & Hm & Hcut & Htok & _ & Hex & Hmax).
  specialize (Hmax _ Hserv). exists hit. split; [done|].
  assert (tokens s' = tokens s) as Etok.
  { rewrite Htok. apply take_ge. unfold zlen in Hmax. lia. }
  rewrite Etok in Hx, Hex. rewrite (Huniq x Hx) in Ehit. rewrite Ehit in *. rewrite Hmat in Hm. injection Hm as <-.
  by rewrite Hex, bool_decide_true.
Qed.

(** C21. Lookup serves the deepest authorized cut: on every cache reached by any sequence of
    insertions, lookups and evictions, [lookup_capped] returns a hit iff some cut is resident
    under that very identity on the query's token chain, within the cap, and either the whole
    query or on the 256-token grid; the hit is then the longest such cut, its tokens are the
    first [cut] tokens of the query, and it materializes to a snapshot that was inserted under
    that identity, byte for byte. *)
Theorem lookup_serves_deepest_cut capacity r0 r h identity toks max_cut :
  new capacity = Ok r0 -> rtc resident_step (r0, []) (r, h) ->
  identity_wf identity -> 0 <= max_cut -> zlen toks + 9 < 2 ^ 64 ->
  match (lookup_capped identity toks max_cut r).1 with
  | None => forall p, ~ servable identity toks max_cut r p
  | Some hit =>
      exists s, (identity, s) ∈ h /\ materialize (hit_snapshot hit) = Ok s /\
        cut hit = position s /\ tokens s = take (Z.to_nat (cut hit)) toks /\
        servable identity toks max_cut r (tokens s) /\ exact_hit hit = bool_decide (tokens s = toks) /\
        forall p, servable identity toks max_cut r p -> zlen p <= cut hit
  end.
Proof.
  intros Hnew Hsteps Hi Hcap H64. destruct (reachable_invariants capacity r0 r h Hnew Hsteps) as [Hok _].
  pose proof (lookup_capped_spec h r identity toks max_cut Hok Hi Hcap H64) as H.
  destruct (lookup_capped identity toks max_cut r).1 as [hit|]; [|done].
  destruct H as (s & e & H1 & _ & _ & H2 & H3 & H4 & H5 & H6 & H7). by exists s.
Qed.

End Reachable.

(** ** A concrete cache: one cut of one token, with a toy digest. *)
Definition toy_digest (bs : list byte) : list byte := take 1 bs.
Definition toy_snapshot : SessionCacheSnapshot :=
  mkSnapshot 1 [5] 1
    (map (fun l => mkPlane (Z.of_nat l) 0 1 F16Le (to_le_bytes 2 7) (to_le_bytes 2 9)) (seq 0 52)).
Definition toy_empty : ResidentRadix := mkRadix empty_root ∅ 0 1000 0 1 0 0 0.
Definition toy_cache : ResidentRadix := (insert toy_digest [] None toy_snapshot toy_empty).2.

Lemma toy_insert : insert_with_logits toy_digest [] None toy_snapshot None toy_empty = (Ok true, toy_cache).
Proof. by vm_compute. Qed.
Lemma toy_reachable : rtc (resident_step toy_digest) (toy_empty, []) (toy_cache, [(None, toy_snapshot)]).
Proof. apply rtc_once. eapply (rs_insert _ [] None toy_snapshot None); [done | done | done | apply toy_insert]. Qed.

Lemma lookup_serves_deepest_cut_witness :
  exists hit, (lookup_capped None [5; 6] 100 toy_cache).1 = None /\
    (lookup_capped None [5] 100 toy_cache).1 = Some hit /\
    exists s, (None, s) ∈ ([(None, toy_snapshot)] : history) /\ materialize (hit_snapshot hit) = Ok s /\
      tokens s = take (Z.to_nat (cut hit)) [5].
Proof.
  pose proof (lookup_serves_deepest_cut toy_digest 1000 toy_empty toy_cache [(None, toy_snapshot)] None [5] 100
    eq_refl toy_reachable I ltac:(lia) ltac:(by vm_compute)) as H.
  destruct (lookup_capped None [5] 100 toy_cache).1 as [hit|] eqn:E; [|by vm_compute in E].
  exists hit. split; [by vm_compute|]. split; [done|].
  destruct H as (s & H1 & H2 & _ & H3 & _). exists s. exact (conj H1 (conj H2 H3)).
Defined.

