(* ===== verification/EngineSession.v ===== *)
(** * The engine session as the prefix cache sees it.

    Models the cache side of [Session] ([crates/muser-engine/src/api.rs]): token history,
    export and install of cache snapshots, restored logits, reset; and the all-or-nothing
    install of KV plus logits of [crates/muser-kvpack/src/session.rs].

    The compute backend (CPU or Metal) is a typeclass: [Backend] gives its operations and
    [BackendLaws] what they promise -- a failed install changes nothing, a successful one is
    what a later export returns, and an exported generation can be installed back. *)
From S2P Require Import Prelude CacheSnapshot Resident.

Inductive EngineError : Type :=
| InvalidCacheSnapshot (e : SnapshotError)
| InvalidCacheState (why : string)
| ContextOverflow (requested limit : Z)
| InvalidRestoredLogits (actual expected : Z)
| InvalidToken (token vocab_size : Z)
| NonfiniteLogits
| MissingVerificationState
| BackendFailure.

Class Backend (B : Type) := {
  b_position : B -> Z;
  b_export : B -> list Z -> result EngineError SessionCacheSnapshot;
  b_install : B -> SessionCacheSnapshot -> B * result EngineError unit;
  b_reset : B -> B;
}.

Class BackendLaws (B : Type) `{Backend B} := {
  b_install_atomic b s b' e : b_install b s = (b', Err e) -> b' = b;
  b_install_export b s b' : b_install b s = (b', Ok tt) ->
    b_export b' (tokens s) = Ok s /\ b_position b' = position s;
  b_reinstall b history s b1 : b_export b history = Ok s -> (b_install b1 s).2 = Ok tt;
  b_export_valid b history s : b_export b history = Ok s ->
    validate s = Ok tt /\ tokens s = history /\ b_position b = position s;
  b_reset_position b : b_position (b_reset b) = 0;
}.

Record Session (B : Type) : Type := mkSession {
  backend : B;
  token_history : list Z;
  last_logits : option (list Z);
  max_context : Z;
  vocab_size : Z;
}.
Arguments mkSession {B}.
Arguments backend {B}.
Arguments token_history {B}.
Arguments last_logits {B}.
Arguments max_context {B}.
Arguments vocab_size {B}.

Section Session.
Context {B : Type} `{Backend B}.
Implicit Types (ss : Session B) (s : SessionCacheSnapshot).

Definition cached_logits ss : option (list Z) := last_logits ss.
Definition session_position ss : Z := b_position (backend ss).

Definition reset ss : Session B :=
  mkSession (b_reset (backend ss)) [] None (max_context ss) (vocab_size ss).

Definition export_cache_snapshot ss : result EngineError SessionCacheSnapshot :=
  b_export (backend ss) (token_history ss).

Definition install_cache_snapshot ss s : Session B * result EngineError unit :=
  match validate s with
  | Err e => (ss, Err (InvalidCacheSnapshot e))
  | Ok _ =>
      if max_context ss <? position s then (ss, Err (ContextOverflow (position s) (max_context ss)))
      else
        let (b, res) := b_install (backend ss) s in
        match res with
        | Err e => (mkSession b (token_history ss) (last_logits ss) (max_context ss) (vocab_size ss), Err e)
        | Ok _ => (mkSession b (tokens s) None (max_context ss) (vocab_size ss), Ok tt)
        end
  end.

Definition install_restored_logits ss (logits : list Z) : Session B * result EngineError unit :=
  if negb (zlen logits =? vocab_size ss) || existsb (fun v => negb (is_finite v)) logits
  then (ss, Err (InvalidRestoredLogits (zlen logits) (vocab_size ss)))
  else (mkSession (backend ss) (token_history ss) (Some logits) (max_context ss) (vocab_size ss), Ok tt).

(** ** kvpack session.rs: exact-final state is KV plus its logits. *)
Inductive SessionCacheError : Type :=
| EngineFailed (e : EngineError)
| Rollback (install_error rollback_error : EngineError)
| StoreFailed.

Record SessionCheckpoint : Type := mkSessionCheckpoint {
  cp_snapshot : option SessionCacheSnapshot;
  cp_logits : option (list Z);
}.

Definition capture ss : result EngineError SessionCheckpoint :=
  let? snapshot :=
    if session_position ss =? 0 then Ok None
    else let? exported := export_cache_snapshot ss in Ok (Some exported) in
  Ok (mkSessionCheckpoint snapshot (cached_logits ss)).

Definition restore (c : SessionCheckpoint) ss : Session B * result EngineError unit :=
  let (ss, res) := match cp_snapshot c with
                   | Some s => install_cache_snapshot ss s
                   | None => (reset ss, Ok tt)
                   end in
  match res with
  | Err e => (ss, Err e)
  | Ok _ =>
      match cp_logits c with
      | Some logits => install_restored_logits ss logits
      | None => (ss, Ok tt)
      end
  end.

Definition install_exact_generation ss s (logits : list Z) : Session B * result SessionCacheError unit :=
  match capture ss with
  | Err e => (ss, Err (EngineFailed e))
  | Ok checkpoint =>
      let (ss, res) := install_cache_snapshot ss s in
      match res with
      | Err e => (ss, Err (EngineFailed e))
      | Ok _ =>
          let (ss, res) := install_restored_logits ss logits in
          match res with
          | Ok _ => (ss, Ok tt)
          | Err install_error =>
              let (ss, res) := restore checkpoint ss in
              match res with
              | Err rollback => (ss, Err (Rollback install_error rollback))
              | Ok _ => (ss, Err (EngineFailed install_error))
              end
          end
      end
  end.

(** ** What a session observably holds: its tokens, logits, position and exported cache. *)
Definition generation_of ss : list Z * option (list Z) * Z * option SessionCacheSnapshot :=
  (token_history ss, cached_logits ss, session_position ss,
   if session_position ss =? 0 then None
   else match export_cache_snapshot ss with Ok s => Some s | Err _ => None end).

(** A session between requests: an empty one has no history; a nonempty one can be exported,
    fits its own context limit, and its logits are finite and of vocabulary size. *)
Record session_ok ss : Prop := {
  so_empty : session_position ss = 0 -> token_history ss = [];
  so_full : session_position ss <> 0 -> exists s, export_cache_snapshot ss = Ok s /\ position s <= max_context ss;
  so_logits : match last_logits ss with
              | None => True
              | Some l => zlen l = vocab_size ss /\ existsb (fun v => negb (is_finite v)) l = false
              end;
}.

Section Laws.
Context `{!BackendLaws B}.

Lemma install_snapshot_spec ss s ss' res :
  install_cache_snapshot ss s = (ss', res) ->
  match res with
  | Err _ => ss' = ss
  | Ok _ => validate s = Ok tt /\ position s <= max_context ss /\ token_history ss' = tokens s /\
      last_logits ss' = None /\ session_position ss' = position s /\ export_cache_snapshot ss' = Ok s /\
      max_context ss' = max_context ss /\ vocab_size ss' = vocab_size ss
  end.
Proof using All.
  unfold install_cache_snapshot. destruct (validate s) as [[]|] eqn:Hval; [|by intros [= <- <-]].
  destruct (max_context ss <? position s) eqn:E; [by intros [= <- <-]|]. bool_prop.
  destruct (b_install (backend ss) s) as [b [[]|e]] eqn:Hb; intros [= <- <-].
  - destruct (b_install_export _ _ _ Hb) as [He Hp].
    unfold session_position, export_cache_snapshot. cbn. done.
  - apply b_install_atomic in Hb as ->. by destruct ss.
Qed.

Lemma valid_position_nonzero s : validate s = Ok tt -> position s <> 0.
Proof. unfold validate, validate_for_window. intros Hv. case_match eqn:E; [done|]. bool_prop. done. Qed.

(** Putting a captured generation back. *)
Lemma restore_captured ss c ss1 :
  session_ok ss -> capture ss = Ok c -> max_context ss1 = max_context ss -> vocab_size ss1 = vocab_size ss ->
  exists ss2, restore c ss1 = (ss2, Ok tt) /\ generation_of ss2 = generation_of ss.
Proof using All.
  intros [Hempty Hfull Hlog] Hcap Hmax Hvoc. unfold capture, cached_logits in Hcap.
  assert (forall sst, vocab_size sst = vocab_size ss -> last_logits sst = None ->
    exists ss2, (match last_logits ss with Some l => install_restored_logits sst l | None => (sst, Ok tt) end)
      = (ss2, Ok tt) /\ backend ss2 = backend sst /\ token_history ss2 = token_history sst /\
      last_logits ss2 = last_logits ss) as Hrest.
  { intros sst Hv Hn. destruct (last_logits ss) as [l|] eqn:El; [|by exists sst].
    destruct Hlog as [Hl Hf]. unfold install_restored_logits. rewrite Hv, Hl, Z.eqb_refl, Hf. cbn. eauto. }
  unfold generation_of, restore, cached_logits.
  destruct (session_position ss =? 0) eqn:E0; bool_prop.
  - injection Hcap as <-. cbn [cp_snapshot cp_logits].
    destruct (Hrest (reset ss1)) as (ss2 & -> & Hb & Ht & Hl); [done | done |].
    exists ss2. split; [done|]. unfold session_position. rewrite Hb, Ht, Hl. cbn.
    rewrite b_reset_position. cbn. unfold session_position in *. by rewrite Hempty, E0.
  - destruct (Hfull E0) as (s & Hs & Hle). rewrite Hs in Hcap. injection Hcap as <-. cbn [cp_snapshot cp_logits].
    unfold export_cache_snapshot in Hs. destruct (b_export_valid _ _ _ Hs) as (Hval & Htok & Hpos).
    pose proof (b_reinstall _ _ _ (backend ss1) Hs) as Hre.
    destruct (install_cache_snapshot ss1 s) as [ss2 res] eqn:Hins.
    assert (res = Ok tt) as ->.
    { unfold install_cache_snapshot in Hins. rewrite Hval, Hmax, (proj2 (Z.ltb_ge _ _)) in Hins by done.
      destruct (b_install (backend ss1) s) as [b r]. cbn in Hre. subst r. by injection Hins as _ <-. }
    pose proof (install_snapshot_spec _ _ _ _ Hins) as (_ & _ & Ht & Hn & Hp & He & _ & Hv).
    destruct (Hrest ss2) as (ss3 & -> & Hb3 & Ht3 & Hl3); [congruence | done |].
    exists ss3. split; [done|]. unfold session_position, export_cache_snapshot in *.
    rewrite Hb3, Ht3, Hl3, Ht, Hp. rewrite Ht in He. rewrite He, Hs, Htok, Hpos.
    rewrite Hpos in E0. by rewrite (proj2 (Z.eqb_neq _ _)) by done.
Qed.

Lemma install_exact_generation_spec ss s logits ss' res :
  session_ok ss -> install_exact_generation ss s logits = (ss', res) ->
  match res with
  | Ok _ => generation_of ss' = (tokens s, Some logits, position s, Some s)
  | Err e => generation_of ss' = generation_of ss /\ forall a b, e <> Rollback a b
  end.
Proof using All.
  intros Hok H1. unfold install_exact_generation in H1.
  destruct (capture ss) as [c|] eqn:Hcap; [|by injection H1 as <- <-].
  destruct (install_cache_snapshot ss s) as [ss1 res1] eqn:Hins.
  pose proof (install_snapshot_spec _ _ _ _ Hins) as Hspec.
  destruct res1 as [[]|e1]; [|by injection H1 as <- <-; subst].
  destruct Hspec as (Hval & _ & Ht & Hn & Hp & He & Hm & Hv).
  unfold install_restored_logits in H1. destruct (_ || _) eqn:E.
  - destruct (restore_captured ss c ss1 Hok Hcap Hm Hv) as (ss2 & Hr & Hgen). rewrite Hr in H1.
    by injection H1 as <- <-.
  - injection H1 as <- <-. unfold generation_of, session_position, export_cache_snapshot, cached_logits in *. cbn.
    rewrite Hp, Ht. rewrite Ht in He. rewrite He.
    by rewrite (proj2 (Z.eqb_neq _ _)) by by apply valid_position_nonzero.
Qed.

(** An exact install of an exportable generation that fits the session succeeds. *)
Lemma install_exact_generation_succeeds ss b history s logits :
  session_ok ss -> b_export b history = Ok s -> position s <= max_context ss ->
  zlen logits = vocab_size ss -> existsb (fun v => negb (is_finite v)) logits = false ->
  exists ss', install_exact_generation ss s logits = (ss', Ok tt).
Proof using All.
  intros Hok Hs Hle Hl Hf. destruct (b_export_valid _ _ _ Hs) as (Hval & _).
  pose proof (b_reinstall _ _ _ (backend ss) Hs) as Hre. unfold install_exact_generation.
  assert (exists c, capture ss = Ok c) as [c ->].
  { unfold capture. destruct (session_position ss =? 0) eqn:E; [by eexists|]. bool_prop.
    destruct (so_full _ Hok E) as (s0 & -> & _). by eexists. }
  unfold install_cache_snapshot. rewrite Hval, (proj2 (Z.ltb_ge _ _)) by done.
  destruct (b_install (backend ss) s) as [b1 r]. cbn in Hre. subst r.
  unfold install_restored_logits. cbn. rewrite Hl, Z.eqb_refl, Hf. by eexists.
Qed.

End Laws.
End Session.

(** ** A concrete backend: the last valid snapshot installed. *)
Definition slot_backend : Type := option SessionCacheSnapshot.
Definition valid_snapshot (s : SessionCacheSnapshot) : bool := is_ok (validate s).
#[global] Instance slot_backend_ops : Backend slot_backend := {
  b_position b := match b with Some s => position s | None => 0 end;
  b_export b history :=
    match b with
    | Some s => if valid_snapshot s && bool_decide (tokens s = history) then Ok s else Err BackendFailure
    | None => Err BackendFailure
    end;
  b_install b s := if valid_snapshot s then (Some s, Ok tt) else (b, Err BackendFailure);
  b_reset b := None;
}.
Lemma valid_snapshot_spec s : valid_snapshot s = true <-> validate s = Ok tt.
Proof. unfold valid_snapshot. destruct (validate s) as [[]|]; done. Qed.
#[global] Instance slot_backend_laws : BackendLaws slot_backend.
Proof.
  split; cbn.
  - intros b s b' e. by destruct (valid_snapshot s); intros [= <- <-].
  - intros b s b'. destruct (valid_snapshot s) eqn:E; intros [= <-]. rewrite E. cbn. by rewrite bool_decide_true.
  - intros b history s b1. destruct b as [s0|]; [|done]. destruct (valid_snapshot s0) eqn:E; cbn; [|done].
    case_bool_decide; [|done]. intros [= <-]. by rewrite E.
  - intros b history s. destruct b as [s0|]; [|done]. destruct (valid_snapshot s0) eqn:E; cbn; [|done].
    case_bool_decide; [|done]. intros [= <-]. split; [by apply valid_snapshot_spec | done].
  - done.
Qed.

Definition toy_session : Session slot_backend := mkSession None [] None 100 2.
Lemma toy_session_ok : session_ok toy_session.
Proof. by split. Qed.

