(* ===== verification/SlotPool.v ===== *)
(** * Admission to the resident inference slots.

    Models [SlotPool] and [SlotPermit] of [crates/muser-server/src/state.rs].  Every critical
    section under the pool's mutex is one function on the pool; a request that waits on the
    condition variable is between two of them, so any interleaving of threads is a sequence of
    steps.  Clock readings and the outcome of a wait are arguments: a wait may end for any
    reason.  Sessions are those of [EngineSession]. *)
From S2P Require Import Prelude CacheSnapshot Resident EngineSession.

Definition MAX_QUEUED_REQUESTS : nat := 64.

Inductive SlotAcquireError : Type := Overloaded | Unhealthy.
(** The refusals of [snapshot_idle] and [restore_idle], which are strings in the code. *)
Inductive SlotError : Type :=
| SchemaUnsupported | AcceleratorUnhealthy | RegistryPoisoned | NoSuchSlot | SlotBusy | NoResidentSession
| NoSaveableCache (e : EngineError) | NoDistribution | OwnershipChanged | Incompatible (e : EngineError).

(** [Vec::pop] and [Vec::swap_remove]. *)
Definition vec_pop {A} (l : list A) : option (A * list A) :=
  match last l with Some x => Some (x, take (length l - 1) l) | None => None end.
Definition swap_remove {A} (i : nat) (l : list A) : list A :=
  match last l with Some x => take (length l - 1) (<[i := x]> l) | None => [] end.
(** [iter().position(|candidate| *candidate == index)]. *)
Definition position_of (index : nat) (l : list nat) : option nat := fst <$> list_find (eq index) l.

Section Pool.
Context {B : Type} `{Backend B}.

Record SlotPoolState : Type := mkPoolState {
  sessions : list (option (Session B));
  available : list nat;
  waiting : nat;
}.
Record SlotPool : Type := mkPool {
  state : SlotPoolState;
  poisoned : bool;
  unhealthy : bool;
}.
Record SlotPermit : Type := mkPermit { pm_index : nat; pm_session : Session B }.
Record SlotSnapshot : Type := mkSlotSnapshot { schema_ok : bool; target : SessionCacheSnapshot; ss_logits : list Z }.

Implicit Types (pool : SlotPool) (st : SlotPoolState).

Definition SlotPool_new (ss : list (Session B)) : SlotPool :=
  mkPool (mkPoolState (Some <$> ss) (reverse (seq 0 (length ss))) 0) false false.

Definition with_state pool st : SlotPool := mkPool st (poisoned pool) (unhealthy pool).
Definition latch_unhealthy pool : SlotPool := mkPool (state pool) (poisoned pool) true.
(** A panic inside a critical section. *)
Definition poison pool : SlotPool := mkPool (state pool) true (unhealthy pool).
Definition is_healthy pool : bool := negb (unhealthy pool).
Definition with_waiting st (n : nat) : SlotPoolState := mkPoolState (sessions st) (available st) n.
Definition with_slot st (index : nat) (s : option (Session B)) : SlotPoolState :=
  mkPoolState (<[index := s]> (sessions st)) (available st) (waiting st).
Definition with_available st (l : list nat) : SlotPoolState := mkPoolState (sessions st) l (waiting st).

Definition pool_len pool : SlotPool * nat :=
  if poisoned pool then (latch_unhealthy pool, 0%nat) else (pool, length (sessions (state pool))).

(** ** Acquiring. *)
Inductive Acquired : Type :=
| Granted (p : SlotPermit)
| Refused (e : SlotAcquireError)
| MustWait
| Panicked.

(** A free slot: any one, or the one wanted. *)
Definition free_slot (want : option nat) st : option (nat * SlotPoolState) :=
  match want with
  | None => '(index, rest) ← vec_pop (available st); Some (index, with_available st rest)
  | Some index =>
      position ← position_of index (available st); Some (index, with_available st (swap_remove position (available st)))
  end.
(** [state.sessions[index].take()]. *)
Definition grant pool st (index : nat) : SlotPool * Acquired :=
  match sessions st !! index with
  | Some (Some s) => (with_state pool (with_slot st index None), Granted (mkPermit index s))
  | Some None => (latch_unhealthy (with_state pool st), Refused Unhealthy)
  | None => (poison (with_state pool st), Panicked)
  end.
(** The head of the waiting loop. *)
Definition wait_head pool (expired : bool) : SlotPool * Acquired :=
  let leave := with_state pool (with_waiting (state pool) (waiting (state pool) - 1)) in
  if negb (is_healthy pool) then (leave, Refused Unhealthy)
  else if expired then (leave, Refused Overloaded)
  else (pool, MustWait).
(** [acquire] and [acquire_specific] up to the first wait. *)
Definition acquire_start (requested : option nat) (expired : bool) pool : SlotPool * Acquired :=
  if negb (is_healthy pool) then (pool, Refused Unhealthy)
  else if poisoned pool then (latch_unhealthy pool, Refused Unhealthy)
  else
    let st := state pool in
    match requested, sessions st with
    | Some _, [] => (latch_unhealthy pool, Refused Unhealthy)
    | _, _ =>
        match free_slot ((fun r => r mod length (sessions st))%nat <$> requested) st with
        | Some (index, st) => grant pool st index
        | None =>
            if (MAX_QUEUED_REQUESTS <=? waiting st)%nat then (pool, Refused Overloaded)
            else wait_head (with_state pool (with_waiting st (S (waiting st)))) expired
        end
    end.
(** A wait has ended. *)
Definition acquire_wake (want : option nat) (timed_out expired : bool) pool : SlotPool * Acquired :=
  if poisoned pool then (latch_unhealthy pool, Refused Unhealthy)
  else
    match free_slot want (state pool) with
    | Some (index, st) => grant pool (with_waiting st (waiting st - 1)) index
    | None =>
        if timed_out then (with_state pool (with_waiting (state pool) (waiting (state pool) - 1)), Refused Overloaded)
        else wait_head pool expired
    end.

(** [state.sessions[index].replace(session)], then [available.push(index)]. *)
Definition put_back pool (index : nat) (s : Session B) : SlotPool * bool :=
  let st := with_slot (state pool) index (Some s) in
  match sessions (state pool) !! index with
  | Some None => (with_state pool (with_available st (available st ++ [index])), true)
  | Some (Some _) => (latch_unhealthy (with_state pool st), false)
  | None => (poison pool, false)
  end.
(** [SlotPermit::drop]. *)
Definition drop_permit (panicking : bool) (p : SlotPermit) pool : SlotPool :=
  if panicking then latch_unhealthy pool
  else if poisoned pool then latch_unhealthy pool
  else (put_back pool (pm_index p) (pm_session p)).1.

(** ** Operations on idle slots. *)
Record SlotStatus : Type := mkStatus { status_id : nat; is_processing : bool; n_ctx : Z }.
Definition slot_status (n : Z) pool : SlotPool * result SlotAcquireError (list SlotStatus) :=
  if poisoned pool then (latch_unhealthy pool, Err Unhealthy)
  else (pool, Ok ((fun id => mkStatus id (negb (bool_decide (id ∈ available (state pool)))) n) <$> seq 0 (length (sessions (state pool))))).

(** Take the session of an idle slot out of the pool. *)
Definition take_idle {E} (index : nat) (absent busy empty : E) pool : SlotPool * result E (Session B) :=
  let st := state pool in
  if (length (sessions st) <=? index)%nat then (pool, Err absent)
  else
    match position_of index (available st) with
    | None => (pool, Err busy)
    | Some position =>
        let st := with_available st (swap_remove position (available st)) in
        match sessions st !! index with
        | Some (Some s) => (with_state pool (with_slot st index None), Ok s)
        | _ => (with_state pool st, Err empty)
        end
    end.
Definition erase_begin (index : nat) pool : SlotPool * result SlotAcquireError (Session B) :=
  if poisoned pool then (latch_unhealthy pool, Err Unhealthy) else take_idle index Overloaded Overloaded Unhealthy pool.
(** [session.reset()] outside the lock, then the slot is given back. *)
Definition erase_end (index : nat) (s : Session B) pool : SlotPool * result SlotAcquireError unit :=
  if poisoned pool then (latch_unhealthy pool, Err Unhealthy)
  else
    let st := with_slot (state pool) index (Some (reset s)) in
    (with_state pool (with_available st (available st ++ [index])), Ok tt).

Definition snapshot_idle (index : nat) pool : SlotPool * result SlotError SlotSnapshot :=
  if negb (is_healthy pool) then (pool, Err AcceleratorUnhealthy)
  else if poisoned pool then (latch_unhealthy pool, Err RegistryPoisoned)
  else
    let st := state pool in
    if (length (sessions st) <=? index)%nat then (pool, Err NoSuchSlot)
    else if negb (bool_decide (index ∈ available st)) then (pool, Err SlotBusy)
    else
      (pool,
       let? s := match sessions st !! index with Some (Some s) => Ok s | _ => Err NoResidentSession end in
       let? target := result_map_err NoSaveableCache (export_cache_snapshot s) in
       let? logits := ok_or (cached_logits s) NoDistribution in
       Ok (mkSlotSnapshot true target logits)).

Definition restore_begin (index : nat) (snap : SlotSnapshot) pool : SlotPool * result SlotError (Session B) :=
  if negb (schema_ok snap) then (pool, Err SchemaUnsupported)
  else if negb (is_healthy pool) then (pool, Err AcceleratorUnhealthy)
  else if poisoned pool then (latch_unhealthy pool, Err RegistryPoisoned)
  else take_idle index NoSuchSlot SlotBusy NoResidentSession pool.
(** The session work of [restore_idle], outside the lock. *)
Definition restored_session (s : Session B) (snap : SlotSnapshot) : Session B * result EngineError unit :=
  let (s, res) := install_cache_snapshot s (target snap) in
  let (s, res) := match res with Ok _ => install_restored_logits s (ss_logits snap) | Err e => (s, Err e) end in
  match res with Ok _ => (s, res) | Err _ => (reset s, res) end.
Definition restore_end (index : nat) (s : Session B) (snap : SlotSnapshot) pool : SlotPool * result SlotError unit :=
  let (s, restored) := restored_session s snap in
  if poisoned pool then (latch_unhealthy pool, Err RegistryPoisoned)
  else
    match put_back pool index s with
    | (pool, true) => (pool, result_map_err Incompatible restored)
    | (pool, false) => (pool, Err OwnershipChanged)
    end.

(** ** Threads. *)
(** What a thread has between two critical sections. *)
Inductive Holder : Type :=
| HPermit (p : SlotPermit)
| HWaiter (want : option nat)
| HErase (index : nat) (s : Session B)
| HRestore (index : nat) (s : Session B) (snap : SlotSnapshot).

Definition after_acquire (want : option nat) (a : Acquired) : option Holder :=
  match a with
  | Granted p => Some (HPermit p)
  | MustWait => Some (HWaiter want)
  | Refused _ | Panicked => None
  end.
Definition wanted (requested : option nat) pool : option nat :=
  (fun r => r mod length (sessions (state pool)))%nat <$> requested.

(** A step of one thread: the pool and what the thread has, before and after. *)
Inductive thread_step : SlotPool -> option Holder -> SlotPool -> option Holder -> Prop :=
| step_start pool requested expired pool' a :
    acquire_start requested expired pool = (pool', a) ->
    thread_step pool None pool' (after_acquire (wanted requested pool) a)
| step_wake pool want timed_out expired pool' a :
    acquire_wake want timed_out expired pool = (pool', a) ->
    thread_step pool (Some (HWaiter want)) pool' (after_acquire want a)
| step_use pool index s s' :
    thread_step pool (Some (HPermit (mkPermit index s))) pool (Some (HPermit (mkPermit index s')))
| step_drop pool panicking p : thread_step pool (Some (HPermit p)) (drop_permit panicking p pool) None
| step_erase_begin pool index pool' s :
    erase_begin index pool = (pool', Ok s) -> thread_step pool None pool' (Some (HErase index s))
| step_erase_refused pool index pool' e : erase_begin index pool = (pool', Err e) -> thread_step pool None pool' None
| step_erase_end pool index s pool' r :
    erase_end index s pool = (pool', r) -> thread_step pool (Some (HErase index s)) pool' None
| step_snapshot pool index pool' r : snapshot_idle index pool = (pool', r) -> thread_step pool None pool' None
| step_restore_begin pool index snap pool' s :
    restore_begin index snap pool = (pool', Ok s) -> thread_step pool None pool' (Some (HRestore index s snap))
| step_restore_refused pool index snap pool' e :
    restore_begin index snap pool = (pool', Err e) -> thread_step pool None pool' None
| step_restore_end pool index s snap pool' r :
    restore_end index s snap pool = (pool', r) -> thread_step pool (Some (HRestore index s snap)) pool' None
| step_latch pool holder : thread_step pool holder (latch_unhealthy pool) holder.

(** The pool and every thread that has something. *)
Record System : Type := mkSystem { pool : SlotPool; holders : gmap nat Holder }.
Inductive system_step : System -> System -> Prop :=
| system_step_thread sys t pool' h' :
    thread_step (pool sys) (holders sys !! t) pool' h' ->
    system_step sys (mkSystem pool' (partial_alter (fun _ => h') t (holders sys))).
Definition system_new (ss : list (Session B)) : System := mkSystem (SlotPool_new ss) ∅.
Definition reachable (ss : list (Session B)) (sys : System) : Prop := rtc system_step (system_new ss) sys.
End Pool.
Arguments SlotPool B : clear implicits.
Arguments System B : clear implicits.
Arguments Holder B : clear implicits.

(** ** Vectors as multisets. *)
Lemma vec_pop_spec {A} (l : list A) x r : vec_pop l = Some (x, r) -> l = r ++ [x].
Proof.
  unfold vec_pop. destruct (last l) as [y|] eqn:E; [|done]. intros [= -> <-].
  apply last_Some in E as [l' ->]. rewrite length_app. cbn. by rewrite Nat.add_sub, take_app_length.
Qed.
Lemma swap_remove_perm {A} (l : list A) i x : l !! i = Some x -> l ≡ₚ x :: swap_remove i l.
Proof.
  intros Hx. unfold swap_remove. destruct (last l) as [y|] eqn:E; [|apply last_None in E; by subst l].
  apply last_Some in E as [l' ->]. rewrite length_app. cbn [length]. rewrite Nat.add_sub.
  destruct (decide (i < length l')%nat) as [Hi|Hi].
  - rewrite lookup_app_l in Hx by done. rewrite insert_app_l, take_app_length' by (rewrite ?length_insert; lia).
    rewrite insert_take_drop by done. rewrite <- (take_drop_middle _ _ _ Hx) at 1.
    solve_Permutation.
  - rewrite lookup_app_r in Hx by lia. assert (i = length l')%nat as ->.
    { apply lookup_lt_Some in Hx. cbn in Hx. lia. }
    rewrite Nat.sub_diag in Hx. injection Hx as ->. rewrite insert_app_r_alt, Nat.sub_diag, take_app_length by lia.
    by rewrite Permutation_app_comm.
Qed.
Lemma position_of_perm index l i : position_of index l = Some i -> l ≡ₚ index :: swap_remove i l.
Proof.
  unfold position_of. destruct (list_find _ l) as [[j y]|] eqn:E; [|done]. intros [= ->].
  apply list_find_Some in E as (Hl & -> & _). by apply swap_remove_perm.
Qed.

Section Invariant.
Context {B : Type} `{Backend B}.
Implicit Types (pool : SlotPool B) (h : option (Holder B)).

(** The slots and the places in the queue that a thread has. *)
Definition slots_of h : list nat :=
  match h with
  | Some (HPermit p) => [pm_index p]
  | Some (HErase index _) | Some (HRestore index _ _) => [index]
  | _ => []
  end.
Definition queued_of h : nat := match h with Some (HWaiter _) => 1%nat | _ => 0%nat end.

(** What holds of the pool with one thread that has [h], when the other threads have the
    slots [others] and [queue] places, and the slots [lost] went down with panics. *)
Record pool_inv (n : nat) pool h (others lost : list nat) (queue : nat) : Prop := {
  inv_lock : poisoned pool = false;
  inv_len : length (sessions (state pool)) = n;
  inv_slots : available (state pool) ++ slots_of h ++ others ++ lost ≡ₚ seq 0 n;
  inv_free i : (i < n)%nat -> i ∈ available (state pool) <-> exists s, sessions (state pool) !! i = Some (Some s);
  inv_waiting : waiting (state pool) = (queued_of h + queue)%nat;
  inv_queue : (waiting (state pool) <= MAX_QUEUED_REQUESTS)%nat;
  inv_lost : lost = [] \/ unhealthy pool = true;
}.

(** Taking a free slot out of the pool. *)
Lemma free_slot_perm want (st : SlotPoolState (B := B)) index st' : free_slot want st = Some (index, st') ->
  available st ≡ₚ index :: available st' /\ sessions st' = sessions st /\ waiting st' = waiting st.
Proof.
  unfold free_slot. destruct want as [w|].
  - destruct (position_of w _) as [i|] eqn:E; [|done]. intros [= <- <-]. split; [by apply position_of_perm | done].
  - destruct (vec_pop _) as [[i r]|] eqn:E; [|done]. intros [= <- <-]. apply vec_pop_spec in E. cbn. split; [|done].
    rewrite E. by rewrite Permutation_app_comm.
Qed.
Lemma seq_NoDup_elem n l a : a ++ l ≡ₚ seq 0 n -> forall i, i ∈ a -> (i < n)%nat /\ i ∉ l.
Proof.
  intros Hp i Hi. assert (NoDup (a ++ l)) as Hnd by (rewrite Hp; apply NoDup_seq).
  apply NoDup_app in Hnd as (_ & Hd & _). split; [|by apply Hd].
  assert (i ∈ seq 0 n) as Hin by (rewrite <- Hp; apply elem_of_app; by left). apply elem_of_seq in Hin. lia.
Qed.

(** A session moves from the pool to the thread. *)
Lemma inv_take n pool h others lost queue index rest s st h' w :
  pool_inv n pool h others lost queue -> slots_of h = [] -> slots_of h' = [index] -> available (state pool) ≡ₚ index :: rest ->
  sessions (state pool) !! index = Some (Some s) ->
  sessions st = <[index := None]> (sessions (state pool)) -> available st = rest -> waiting st = w ->
  w = (queued_of h' + queue)%nat -> (w <= MAX_QUEUED_REQUESTS)%nat ->
  pool_inv n (with_state pool st) h' others lost queue.
Proof.
  intros [H1 H2 H3 H4 H5 H6 H7] Hh Hh' Ha Hs Es Ea Ew Hw Hq. split; cbn; try done; rewrite ?Es, ?Ea, ?Ew, ?length_insert, ?Hh'; try done.
  - rewrite <- H3, Hh, Ha. cbn. by rewrite <- Permutation_middle.
  - intros i Hi. destruct (decide (i = index)) as [->|Hne].
    + rewrite list_lookup_insert_eq by (apply lookup_lt_Some in Hs; lia). split; [|by intros (s' & ?)].
      intros Hin. exfalso. assert (NoDup (index :: rest ++ others ++ lost)) as Hnd.
      { rewrite app_comm_cons, <- Ha. rewrite Hh in H3. cbn in H3. rewrite H3. apply NoDup_seq. }
      apply NoDup_cons in Hnd as [Hnd _]. apply Hnd, elem_of_app. by left.
    + rewrite list_lookup_insert_ne by done. rewrite <- H4 by done. rewrite Ha, elem_of_cons. naive_solver.
Qed.
(** A session moves back. *)
Lemma inv_put n pool h others lost queue index s st :
  pool_inv n pool h others lost queue -> slots_of h = [index] -> queued_of h = 0%nat ->
  sessions st = <[index := Some s]> (sessions (state pool)) -> available st = available (state pool) ++ [index] ->
  waiting st = waiting (state pool) -> pool_inv n (with_state pool st) None others lost queue.
Proof.
  intros [H1 H2 H3 H4 H5 H6 H7] Hh Hq Es Ea Ew. rewrite Hh in H3. rewrite Hq in H5.
  assert (index < n)%nat as Hi.
  { assert (index ∈ seq 0 n) as Hin by (rewrite <- H3; set_solver). apply elem_of_seq in Hin. lia. }
  split; cbn; try done; rewrite ?Es, ?Ea, ?Ew, ?length_insert; try done.
  - rewrite <- H3. by rewrite <- app_assoc.
  - intros i Hin. rewrite elem_of_app, list_elem_of_singleton. destruct (decide (i = index)) as [->|Hne].
    + rewrite list_lookup_insert_eq by lia. split; [by exists s | by right].
    + rewrite list_lookup_insert_ne by done. rewrite <- H4 by done. naive_solver.
Qed.
(** A slot that a thread has is empty in the pool. *)
Lemma inv_held n pool h others lost queue index : pool_inv n pool h others lost queue -> slots_of h = [index] ->
  sessions (state pool) !! index = Some None.
Proof.
  intros [H1 H2 H3 H4 _ _ _] Hh. rewrite Hh in H3.
  assert (index < n)%nat as Hi by (assert (index ∈ seq 0 n) as Hin by (rewrite <- H3; set_solver); apply elem_of_seq in Hin; lia).
  destruct (lookup_lt_is_Some_2 (sessions (state pool)) index) as [[s|] E]; [lia| |done].
  assert (index ∈ available (state pool)) as Hin by (apply H4; [done | by exists s]).
  destruct (seq_NoDup_elem n ([index] ++ others ++ lost) _ H3 _ Hin) as [_ Hno]. set_solver.
Qed.
Lemma inv_latch n pool h others lost queue : pool_inv n pool h others lost queue -> pool_inv n (latch_unhealthy pool) h others lost queue.
Proof. intros [H1 H2 H3 H4 H5 H6 H7]. split; try done. by right. Qed.
(** Leaving the queue. *)
Lemma inv_leave n pool h h' others lost queue w :
  pool_inv n pool h others lost queue -> slots_of h' = slots_of h -> w = (queued_of h' + queue)%nat -> (w <= MAX_QUEUED_REQUESTS)%nat ->
  pool_inv n (with_state pool (with_waiting (state pool) w)) h' others lost queue.
Proof. intros [H1 H2 H3 H4 H5 H6 H7] Hs Hw Hq. split; cbn; try done. by rewrite Hs. Qed.

(** The free slot found has a session, which the thread is granted. *)
Lemma inv_grant n pool h others lost queue want index st w :
  pool_inv n pool h others lost queue -> slots_of h = [] -> free_slot want (state pool) = Some (index, st) -> w = queue ->
  exists pool' p, grant pool (with_waiting st w) index = (pool', Granted p) /\ pool_inv n pool' (Some (HPermit p)) others lost queue.
Proof.
  intros Hinv Hh Ef ->. pose proof Hinv as [H1 H2 H3 H4 H5 H6 H7]. apply free_slot_perm in Ef as (Ha & Hs & Hw).
  assert (index ∈ available (state pool)) as Hin by (rewrite Ha; set_solver).
  destruct (seq_NoDup_elem n _ _ H3 _ Hin) as [Hi _]. apply H4 in Hin as [s Es]; [|done].
  unfold grant. cbn [sessions with_waiting]. rewrite Hs, Es. eexists _, _. split; [reflexivity|].
  eapply (inv_take n pool h others lost queue index (available st) s); try done; cbn; [by rewrite Hs|]. lia.
Qed.
Lemma inv_wait_head n pool others lost queue want expired pool' a :
  pool_inv n pool (Some (HWaiter want)) others lost queue -> wait_head pool expired = (pool', a) ->
  pool_inv n pool' (after_acquire want a) others lost queue.
Proof.
  intros Hinv. pose proof Hinv as [_ _ _ _ H5 H6 _]. cbn in H5. unfold wait_head.
  destruct (negb _); [|destruct expired]; intros [= <- <-]; [| |done]; (eapply inv_leave; [done|done|cbn; lia|cbn; lia]).
Qed.

Lemma inv_start n pool others lost queue requested expired pool' a :
  pool_inv n pool None others lost queue -> acquire_start requested expired pool = (pool', a) ->
  pool_inv n pool' (after_acquire (wanted requested pool) a) others lost queue.
Proof.
  intros Hinv. pose proof Hinv as [H1 _ _ _ H5 H6 _]. cbn in H5. unfold acquire_start. rewrite H1.
  destruct (negb _); [intros [= <- <-]; done|]. fold (wanted requested pool).
  assert (forall r, match free_slot (wanted requested pool) (state pool) with
    | Some (index, st) => grant pool st index
    | None => if (MAX_QUEUED_REQUESTS <=? waiting (state pool))%nat then (pool, Refused Overloaded)
              else wait_head (with_state pool (with_waiting (state pool) (S (waiting (state pool))))) expired
    end = r -> pool_inv n r.1 (after_acquire (wanted requested pool) r.2) others lost queue) as Hgo.
  { intros r. destruct (free_slot _ _) as [[index st]|] eqn:Ef.
    - destruct (inv_grant n pool None others lost queue _ index st queue Hinv eq_refl Ef eq_refl) as (p1 & p & Eg & Hg).
      assert (with_waiting st queue = st) as Ew.
      { apply free_slot_perm in Ef as (_ & _ & Hw). destruct st; cbn in *. unfold with_waiting. cbn. congruence. }
      rewrite Ew in Eg. rewrite Eg. intros <-. exact Hg.
    - destruct (_ <=? _)%nat eqn:Eq; [intros <-; done|]. bool_prop. intros <-. destruct (wait_head _ _) as [p1 a1] eqn:Ew.
      eapply inv_wait_head; [|exact Ew]. eapply inv_leave; [exact Hinv | done | cbn; lia | lia]. }
  destruct requested as [r|]; [destruct (sessions (state pool)) as [|? ?]|]; [intros [= <- <-]; by apply inv_latch| |];
    intros E; specialize (Hgo _ E); exact Hgo.
Qed.
Lemma inv_wake n pool others lost queue want timed_out expired pool' a :
  pool_inv n pool (Some (HWaiter want)) others lost queue -> acquire_wake want timed_out expired pool = (pool', a) ->
  pool_inv n pool' (after_acquire want a) others lost queue.
Proof.
  intros Hinv. pose proof Hinv as [H1 _ _ _ H5 H6 _]. cbn in H5. unfold acquire_wake. rewrite H1.
  destruct (free_slot _ _) as [[index st]|] eqn:Ef.
  - destruct (inv_grant n pool (Some (HWaiter want)) others lost queue _ index st (waiting st - 1) Hinv eq_refl Ef) as (p1 & p & Eg & Hg).
    { apply free_slot_perm in Ef as (_ & _ & Hw). lia. }
    rewrite Eg. intros [= <- <-]. exact Hg.
  - destruct timed_out; [|by apply inv_wait_head]. intros [= <- <-]. eapply inv_leave; [exact Hinv | done | cbn; lia | lia].
Qed.

Lemma inv_put_back n pool h others lost queue index s : pool_inv n pool h others lost queue -> slots_of h = [index] ->
  queued_of h = 0%nat -> exists pool', put_back pool index s = (pool', true) /\ pool_inv n pool' None others lost queue.
Proof.
  intros Hinv Hh Hq. unfold put_back. rewrite (inv_held _ _ _ _ _ _ _ Hinv Hh). eexists. split; [reflexivity|].
  by eapply inv_put.
Qed.
Lemma inv_take_idle {E} n pool others lost queue index (absent busy empty : E) pool' s h' :
  pool_inv n pool None others lost queue -> take_idle index absent busy empty pool = (pool', Ok s) -> slots_of h' = [index] ->
  queued_of h' = 0%nat -> pool_inv n pool' h' others lost queue.
Proof.
  intros Hinv. pose proof Hinv as [_ _ _ _ H5 H6 _]. unfold take_idle. destruct (_ <=? _)%nat; [done|].
  destruct (position_of _ _) as [p|] eqn:Ep; [|done]. cbn [sessions with_available].
  destruct (sessions (state pool) !! index) as [[s'|]|] eqn:Es; [|done|done]. intros [= <- <-] Hh Hq.
  eapply inv_take; [exact Hinv | done | done | by apply position_of_perm | done | done | done | reflexivity | cbn; rewrite Hq; exact H5 | exact H6].
Qed.
Lemma inv_take_idle_err {E} n pool others lost queue index (absent busy empty : E) pool' e :
  pool_inv n pool None others lost queue -> take_idle index absent busy empty pool = (pool', Err e) -> pool' = pool.
Proof.
  intros [_ Hlen Hp Hf _ _ _]. unfold take_idle. destruct (_ <=? _)%nat eqn:El; [by intros [= <- <-]|].
  destruct (position_of _ _) as [p|] eqn:Ep; [|by intros [= <- <-]]. cbn [sessions with_available]. bool_prop.
  assert (index ∈ available (state pool)) as Hin by (apply position_of_perm in Ep; rewrite Ep; set_solver).
  apply Hf in Hin as [s Es]; [|lia]. by rewrite Es.
Qed.

(** Every step of a thread keeps the invariant; a slot is lost only to a panic, which makes
    the pool unhealthy. *)
Lemma inv_thread_step n pool h pool' h' others lost queue :
  thread_step pool h pool' h' -> pool_inv n pool h others lost queue ->
  exists lost', pool_inv n pool' h' others lost' queue.
Proof.
  intros Hstep Hinv. pose proof (inv_lock _ _ _ _ _ _ Hinv) as Hlock. destruct Hstep as
    [pool requested expired pool' a E|pool want timed_out expired pool' a E|pool index s s'|pool panicking p
    |pool index pool' s E|pool index pool' e E|pool index s pool' r E|pool index pool' r E
    |pool index snap pool' s E|pool index snap pool' e E|pool index s snap pool' r E|pool h].
  - exists lost. by eapply inv_start.
  - exists lost. by eapply inv_wake.
  - exists lost. by destruct Hinv.
  - unfold drop_permit. rewrite Hlock. destruct panicking.
    + exists (pm_index p :: lost). destruct Hinv as [H1 H2 H3 H4 H5 H6 H7]. split; try done; [|by right].
      rewrite <- H3. cbn. solve_Permutation.
    + exists lost. destruct (inv_put_back _ _ _ _ _ _ (pm_index p) (pm_session p) Hinv eq_refl eq_refl) as (p' & Ep & Hp). by rewrite Ep.
  - exists lost. unfold erase_begin in E. rewrite Hlock in E. by eapply inv_take_idle.
  - exists lost. unfold erase_begin in E. rewrite Hlock in E. by rewrite (inv_take_idle_err _ _ _ _ _ _ _ _ _ _ _ Hinv E).
  - exists lost. unfold erase_end in E. rewrite Hlock in E. injection E as <- _. by eapply inv_put.
  - exists lost. unfold snapshot_idle in E. rewrite Hlock in E. repeat case_match; by injection E as <- _.
  - exists lost. unfold restore_begin in E. rewrite Hlock in E. destruct (negb _); [done|]. destruct (negb _); [done|]. by eapply inv_take_idle.
  - exists lost. unfold restore_begin in E. rewrite Hlock in E. destruct (negb _); [by injection E as <- _|]. destruct (negb _); [by injection E as <- _|].
    by rewrite (inv_take_idle_err _ _ _ _ _ _ _ _ _ _ _ Hinv E).
  - exists lost. unfold restore_end in E. destruct (restored_session s snap) as [s2 rs]. rewrite Hlock in E.
    destruct (inv_put_back _ _ _ _ _ _ index s2 Hinv eq_refl eq_refl) as (p' & Ep & Hp). rewrite Ep in E. by injection E as <- _.
  - exists lost. by apply inv_latch.
Qed.

(** ** All threads. *)
Definition slots_held (m : gmap nat (Holder B)) : list nat := map_to_list m ≫= (fun x => slots_of (Some x.2)).
Definition queued (m : gmap nat (Holder B)) : list nat := map_to_list m ≫= (fun x => replicate (queued_of (Some x.2)) x.1).

(** Splitting off what one thread has. *)
Lemma collect_split {A} (f : nat * Holder B -> list A) (m : gmap nat (Holder B)) t :
  map_to_list m ≫= f ≡ₚ from_option (fun x => f (t, x)) [] (m !! t) ++ (map_to_list (delete t m) ≫= f).
Proof.
  destruct (m !! t) as [h|] eqn:E; cbn [from_option].
  - rewrite <- (map_to_list_delete m t h E). done.
  - by rewrite delete_id.
Qed.
Lemma collect_alter {A} (f : nat * Holder B -> list A) (m : gmap nat (Holder B)) t (h : option (Holder B)) :
  map_to_list (partial_alter (fun _ => h) t m) ≫= f ≡ₚ from_option (fun x => f (t, x)) [] h ++ (map_to_list (delete t m) ≫= f).
Proof.
  rewrite (collect_split f _ t), lookup_partial_alter_eq. by rewrite delete_partial_alter_eq.
Qed.

(** Every slot is free, held by one thread, or lost to a panic. *)
Record system_inv (n : nat) (sys : System B) : Prop := {
  sys_lock : poisoned (pool sys) = false;
  sys_len : length (sessions (state (pool sys))) = n;
  sys_slots : exists lost, available (state (pool sys)) ++ slots_held (holders sys) ++ lost ≡ₚ seq 0 n /\
    (lost = [] \/ unhealthy (pool sys) = true);
  sys_free i : (i < n)%nat -> i ∈ available (state (pool sys)) <-> exists s, sessions (state (pool sys)) !! i = Some (Some s);
  sys_waiting : waiting (state (pool sys)) = length (queued (holders sys));
  sys_queue : (waiting (state (pool sys)) <= MAX_QUEUED_REQUESTS)%nat;
}.

Lemma queued_split m t : length (queued m) = (queued_of (m !! t) + length (queued (delete t m)))%nat.
Proof.
  unfold queued. rewrite (Permutation_length (collect_split _ m t)), length_app. f_equal.
  destruct (m !! t) as [h|]; [apply length_replicate | done].
Qed.
Lemma queued_alter m t h : length (queued (partial_alter (fun _ => h) t m)) = (queued_of h + length (queued (delete t m)))%nat.
Proof.
  unfold queued. rewrite (Permutation_length (collect_alter _ m t h)), length_app. f_equal.
  destruct h as [h|]; [apply length_replicate | done].
Qed.
Lemma held_split m t : slots_held m ≡ₚ slots_of (m !! t) ++ slots_held (delete t m).
Proof. unfold slots_held. rewrite (collect_split _ m t). by destruct (m !! t). Qed.
Lemma held_alter m t h : slots_held (partial_alter (fun _ => h) t m) ≡ₚ slots_of h ++ slots_held (delete t m).
Proof. unfold slots_held. rewrite (collect_alter _ m t h). by destruct h. Qed.

Lemma system_inv_step n sys sys' : system_inv n sys -> system_step sys sys' -> system_inv n sys'.
Proof.
  intros Hs Hstep. destruct Hstep as [s t pool' h' Hstep]. destruct Hs as [H1 H2 (lost & H3 & Hl) H4 H5 H6].
  destruct (inv_thread_step n _ _ _ _ (slots_held (delete t (holders s))) lost (length (queued (delete t (holders s)))) Hstep) as (lost' & Hinv).
  { split; try done; [by rewrite <- H3, (held_split (holders s) t), <- !app_assoc | by rewrite (queued_split _ t) in H5]. }
  destruct Hinv as [I1 I2 I3 I4 I5 I6 I7]. split; cbn; try done.
  - exists lost'. split; [|done]. by rewrite held_alter, <- I3, <- !app_assoc.
  - by rewrite queued_alter.
Qed.
Lemma system_inv_new ss : system_inv (length ss) (system_new ss).
Proof.
  split; cbn; [done | by rewrite length_fmap | | | done | unfold MAX_QUEUED_REQUESTS; lia].
  - exists []. split; [|by left]. unfold slots_held. rewrite map_to_list_empty. cbn. by rewrite app_nil_r, reverse_Permutation.
  - intros i Hi. rewrite elem_of_reverse, elem_of_seq, list_lookup_fmap. destruct (lookup_lt_is_Some_2 ss i Hi) as [s ->].
    split; [by exists s | lia].
Qed.
Lemma reachable_inv ss sys : reachable ss sys -> system_inv (length ss) sys.
Proof.
  unfold reachable. intros Hr. assert (system_inv (length ss) (system_new ss)) as Hi by apply system_inv_new.
  induction Hr as [|x y z Hxy _ IH]; [done|]. apply IH. by eapply system_inv_step.
Qed.

Lemma held_by m t (x : Holder B) i : m !! t = Some x -> i ∈ slots_of (Some x) -> i ∈ slots_held m.
Proof. intros Ht Hi. rewrite (held_split _ t), Ht. apply elem_of_app. by left. Qed.
Lemma held_inv m i : i ∈ slots_held m -> exists t x, m !! t = Some x /\ i ∈ slots_of (Some x).
Proof. intros ([t h] & Hi & Hin)%list_elem_of_bind. apply elem_of_map_to_list in Hin. by exists t, h. Qed.
Lemma held_once m t t' (x y : Holder B) i : NoDup (slots_held m) -> m !! t = Some x -> m !! t' = Some y ->
  i ∈ slots_of (Some x) -> i ∈ slots_of (Some y) -> t = t'.
Proof.
  intros Hnd Ht Ht' Hi Hi'. destruct (decide (t = t')) as [|Hne]; [done|]. exfalso.
  rewrite (held_split _ t), Ht in Hnd. apply NoDup_app in Hnd as (_ & Hd & _). apply (Hd i Hi).
  eapply (held_by _ t'); [|done]. by rewrite lookup_delete_ne.
Qed.

End Invariant.


(** Two slots, three requests: the third waits for slot 0. *)
Definition toy_pool : SlotPool slot_backend := SlotPool_new [toy_session; toy_session].
Definition busy_system : System slot_backend :=
  let (p1, a1) := acquire_start None false toy_pool in
  let (p2, a2) := acquire_start (Some 3%nat) false p1 in
  let (p3, a3) := acquire_start (Some 2%nat) false p2 in
  mkSystem p3 (partial_alter (fun _ => after_acquire (wanted (Some 2%nat) p2) a3) 2%nat
    (partial_alter (fun _ => after_acquire (wanted (Some 3%nat) p1) a2) 1%nat
      (partial_alter (fun _ => after_acquire (wanted None toy_pool) a1) 0%nat ∅))).
Lemma busy_reachable : reachable [toy_session; toy_session] busy_system.
Proof.
  eapply rtc_l; [eapply (system_step_thread _ 0), (step_start _ None false); reflexivity|].
  eapply rtc_l; [eapply (system_step_thread _ 1), (step_start _ (Some 3%nat) false); reflexivity|].
  eapply rtc_l; [eapply (system_step_thread _ 2), (step_start _ (Some 2%nat) false); reflexivity|].
  apply rtc_refl.
Qed.

(** A waiting request takes a slot before it looks at the latch: when the owner of the slot
    reports an accelerator failure and returns it before the waiter runs, the waiter is
    admitted to the pool that was latched unhealthy. *)
Example waiter_admitted_when_unhealthy :
  let p := mkPermit 0 toy_session in
  let (busy, _) := acquire_start None false (SlotPool_new [toy_session]) in
  let (waiting_, a) := acquire_start None false busy in
  a = MustWait /\
  let failed := drop_permit false p (latch_unhealthy waiting_) in
  is_healthy failed = false /\ (acquire_wake None false false failed).2 = Granted p /\
  (acquire_start None false failed).2 = Refused Unhealthy.
Proof. vm_compute. split_and!; reflexivity. Qed.

(** ** Slot snapshots. *)
(** What [snapshot_idle] wrote, [restore_idle] installs into any session with the same
    vocabulary and room for it, which then has the same generation and distribution. *)
Lemma restored_snapshot {B} `{BackendLaws B} (s s0 : Session B) snap :
  export_cache_snapshot s0 = Ok (target snap) -> position (target snap) <= max_context s ->
  zlen (ss_logits snap) = vocab_size s -> Forall (fun v => is_finite v = true) (ss_logits snap) ->
  exists s', restored_session s snap = (s', Ok tt) /\ export_cache_snapshot s' = Ok (target snap) /\
    cached_logits s' = Some (ss_logits snap).
Proof.
  intros He Hp Hl Hf. unfold restored_session, install_cache_snapshot, export_cache_snapshot in *.
  pose proof (b_export_valid _ _ _ He) as (-> & _ & _). replace (max_context s <? position (target snap)) with false by lia.
  pose proof (b_reinstall _ _ _ (backend s) He) as Hr. destruct (b_install (backend s) (target snap)) as [b r] eqn:Eb. cbn in Hr. subst r.
  destruct (b_install_export _ _ _ Eb) as [Hx _]. unfold install_restored_logits. cbn [vocab_size].
  rewrite (proj2 (Z.eqb_eq _ _) Hl).
  replace (existsb (fun v => negb (is_finite v)) (ss_logits snap)) with false; [by eexists|].
  symmetry. clear -Hf. induction Hf as [|v l Hv _ IH]; [done|]. cbn. by rewrite Hv, IH.
Qed.
