(* ===== verification/DecodeBatch.v ===== *)
(** * Packing concurrent decodes into batches.

    Models [DecodeBatcher] of [crates/muser-server/src/state.rs].  A request submits a job for
    its slot and blocks until the job has a result; whichever blocked thread finds no batch
    running runs the next one, of at most four jobs, in cyclic slot order after the last slot
    served.  Each critical section is a function.  The sessions the jobs point to are the
    [World]; decoding one job or a group is a parameter, as both run on the accelerator. *)
From S2P Require Import Prelude.

Record DecodeJob : Type := mkJob { job : nat; slot : nat; input : Z }.
#[global] Instance DecodeJob_eq_dec : EqDecision DecodeJob.
Proof. solve_decision. Defined.

Record DecodeBatchState : Type := mkBatch {
  running : bool;
  last_slot : option nat;
  queue : list DecodeJob;
}.

Definition decode_rotation_key (last_slot : option nat) (slot : nat) : nat * nat :=
  match last_slot with
  | Some last => if (last <? slot)%nat then (0, slot)%nat else (1, slot)%nat
  | None => (0, slot)%nat
  end.
Definition key_le (x y : nat * nat) : Prop := (x.1 < y.1 \/ (x.1 = y.1 /\ x.2 <= y.2))%nat.
#[global] Instance key_le_dec x y : Decision (key_le x y).
Proof. unfold key_le. apply _. Defined.
Definition served_before (last_slot : option nat) (x y : DecodeJob) : Prop :=
  key_le (decode_rotation_key last_slot (slot x)) (decode_rotation_key last_slot (slot y)).
#[global] Instance served_before_dec l x y : Decision (served_before l x y).
Proof. unfold served_before. apply _. Defined.

(** [DecodeBatcher::decode] up to the wait: [None] is the refusal of a second row of a slot. *)
Definition submit (j : DecodeJob) (st : DecodeBatchState) : option DecodeBatchState :=
  if existsb (fun queued => slot queued =? slot j)%nat (queue st) then None
  else Some (mkBatch (running st) (last_slot st) (queue st ++ [j])).
(** A blocked thread makes itself the runner. *)
Definition elect (st : DecodeBatchState) : bool * DecodeBatchState :=
  if running st then (false, st) else (true, mkBatch true (last_slot st) (queue st)).
(** The first critical section of [run_one_batch], after the coalescing wait. *)
Definition select_batch (st : DecodeBatchState) : list DecodeJob * DecodeBatchState :=
  let candidates := merge_sort (served_before (last_slot st)) (queue st) in
  let split := Nat.min (length candidates) 4 in
  let batch := take split candidates in
  (batch, mkBatch (running st) (match last batch with Some j => Some (slot j) | None => last_slot st end) (drop split candidates)).
(** Its last critical section. *)
Definition batch_done (st : DecodeBatchState) : DecodeBatchState := mkBatch false (last_slot st) (queue st).

Section Run.
Context {World R E : Type}.
Context (decode_one : World -> DecodeJob -> World * result E R).
Context (decode_group : World -> list DecodeJob -> World * result E (list R)).
Context (duplicate_slots : E).

Record DecodeBatcher : Type := mkBatcher {
  batch_state : DecodeBatchState;
  results : gmap nat (result E R);
  packed_batches : Z;
  packed_rows : Z;
  last_width : Z;
}.
Definition install (l : list (DecodeJob * result E R)) (results : gmap nat (result E R)) : gmap nat (result E R) :=
  foldl (fun results x => <[job x.1 := x.2]> results) results l.
Definition with_results (b : DecodeBatcher) (l : list (DecodeJob * result E R)) : DecodeBatcher :=
  mkBatcher (batch_state b) (install l (results b)) (packed_batches b) (packed_rows b) (last_width b).
(** [unique.len() != jobs.len()]. *)
Definition distinct_slots (jobs : list DecodeJob) : bool :=
  (size (list_to_set (slot <$> jobs) : gset nat) =? length jobs)%nat.

(** The middle of [run_one_batch]: decode and install the results. *)
Definition run_jobs (w : World) (jobs : list DecodeJob) (b : DecodeBatcher) : World * DecodeBatcher :=
  match jobs with
  | [] => (w, b)
  | [j] => let (w, r) := decode_one w j in (w, with_results b [(j, r)])
  | _ =>
      let (w, r) := if negb (distinct_slots jobs) then (w, Err duplicate_slots) else decode_group w jobs in
      match r with
      | Ok rows =>
          (w, mkBatcher (batch_state b) (install (zip jobs (Ok <$> rows)) (results b))
                (wrapping_add 64 (packed_batches b) 1) (wrapping_add 64 (packed_rows b) (zlen jobs)) (zlen jobs))
      | Err e => (w, with_results b ((fun j => (j, Err e)) <$> jobs))
      end
  end.

(** ** The threads. *)
(** The batcher, the world, and the runners with the batch they have selected. *)
Record System : Type := mkSystem {
  world : World;
  batcher : DecodeBatcher;
  runners : list (option (list DecodeJob));
}.
Definition with_state (b : DecodeBatcher) (st : DecodeBatchState) : DecodeBatcher :=
  mkBatcher st (results b) (packed_batches b) (packed_rows b) (last_width b).
End Run.
Arguments DecodeBatcher R E : clear implicits.
Arguments System World R E : clear implicits.

(** ** Selecting. *)
#[global] Instance key_le_trans : Transitive key_le.
Proof. intros x y z. unfold key_le. lia. Qed.
#[global] Instance key_le_total : Total key_le.
Proof. intros x y. unfold key_le. lia. Qed.
#[global] Instance served_before_trans l : Transitive (served_before l).
Proof. intros x y z. apply key_le_trans. Qed.
#[global] Instance served_before_total l : Total (served_before l).
Proof. intros x y. apply key_le_total. Qed.

Lemma select_batch_perm st batch st' : select_batch st = (batch, st') ->
  queue st ≡ₚ batch ++ queue st' /\ running st' = running st /\ (length batch <= 4)%nat /\
  (length batch = 4%nat \/ queue st' = []) /\
  (forall x y, x ∈ batch -> y ∈ queue st' -> served_before (last_slot st) x y).
Proof.
  unfold select_batch. set (c := merge_sort (served_before (last_slot st)) (queue st)). intros [= <- <-]. cbn.
  split; [by rewrite take_drop; unfold c; rewrite merge_sort_Permutation|]. split; [done|].
  rewrite length_take. split; [lia|]. split.
  - destruct (decide (length c <= 4)%nat); [right; apply drop_ge; lia | left; lia].
  - intros x y Hx Hy. assert (StronglySorted (served_before (last_slot st)) c) as Hs by (apply (StronglySorted_merge_sort _); apply _).
    rewrite <- (take_drop (Nat.min (length c) 4) c) in Hs. by eapply StronglySorted_app_1_elem_of.
Qed.

Definition slots_distinct (st : DecodeBatchState) : Prop := NoDup (slot <$> queue st).
Lemma submit_ok j st st' : submit j st = Some st' ->
  queue st' = queue st ++ [j] /\ last_slot st' = last_slot st /\ running st' = running st /\ slot j ∉ (slot <$> queue st).
Proof.
  unfold submit. destruct (existsb _ _) eqn:E; [done|]. intros [= <-]. split_and!; try done.
  intros (q & Hs & Hq)%list_elem_of_fmap. apply not_true_iff_false in E. apply E, existsb_exists.
  exists q. split; [by apply list_elem_of_In | by apply Nat.eqb_eq].
Qed.
Lemma submit_distinct j st st' : submit j st = Some st' -> slots_distinct st -> slots_distinct st'.
Proof.
  intros (E & _ & _ & Hn)%submit_ok Hd. unfold slots_distinct. rewrite E, fmap_app. apply NoDup_app. split; [done|].
  split; [|apply NoDup_singleton]. intros x Hx ->%list_elem_of_singleton. done.
Qed.
Lemma select_distinct st batch st' : select_batch st = (batch, st') -> slots_distinct st ->
  slots_distinct st' /\ NoDup (slot <$> batch).
Proof.
  intros (Hp & _)%select_batch_perm Hd. unfold slots_distinct in *. rewrite Hp, fmap_app in Hd. apply NoDup_app in Hd as (?&?&?). done.
Qed.

(** ** Fairness. *)
(** The slots below [n] that are served before [s]. *)
Definition ahead (n : nat) (l : option nat) (s : nat) : list nat :=
  List.filter (fun x => negb (bool_decide (key_le (decode_rotation_key l s) (decode_rotation_key l x)))) (seq 0 n).
Lemma elem_of_ahead n l s x : x ∈ ahead n l s <-> (x < n)%nat /\ ~ key_le (decode_rotation_key l s) (decode_rotation_key l x).
Proof.
  unfold ahead. rewrite list_elem_of_In, List.filter_In, <- list_elem_of_In, elem_of_seq, negb_true_iff, bool_decide_eq_false. naive_solver lia.
Qed.
Lemma NoDup_ahead n l s : NoDup (ahead n l s).
Proof. apply NoDup_ListNoDup, List.NoDup_filter, NoDup_ListNoDup, NoDup_seq. Qed.
Lemma ahead_bound n l s : (s < n)%nat -> (length (ahead n l s) < n)%nat.
Proof.
  intros Hs. rewrite <- (length_seq n 0) at 2.
  assert (length (s :: ahead n l s) <= length (seq 0 n))%nat; [|cbn in *; lia].
  apply submseteq_length, NoDup_submseteq.
  - constructor; [|apply NoDup_ahead]. rewrite elem_of_ahead. intros [_ Hn]. apply Hn. unfold key_le. lia.
  - intros x [->|[Hx _]%elem_of_ahead]%elem_of_cons; apply elem_of_seq; lia.
Qed.
Lemma rotation_key_inj l x y : decode_rotation_key l x = decode_rotation_key l y -> x = y.
Proof. unfold decode_rotation_key. repeat case_match; by intros [=]. Qed.

(** After serving up to [l'], only slots strictly between [l'] and [s] are ahead of [s]. *)
Lemma ahead_after l l' s x : ~ key_le (decode_rotation_key l s) (decode_rotation_key l l') ->
  ~ key_le (decode_rotation_key (Some l') s) (decode_rotation_key (Some l') x) ->
  ~ key_le (decode_rotation_key l s) (decode_rotation_key l x) /\ ~ key_le (decode_rotation_key l x) (decode_rotation_key l l').
Proof.
  unfold key_le, decode_rotation_key. destruct l as [l|]; repeat case_match; bool_prop; cbn; lia.
Qed.

(** A batch either serves a queued slot or puts four served slots behind it. *)
Lemma batch_progress n st batch st' j : slots_distinct st -> Forall (fun x => slot x < n)%nat (queue st) ->
  j ∈ queue st -> select_batch st = (batch, st') ->
  j ∈ batch \/ (j ∈ queue st' /\ (length (ahead n (last_slot st') (slot j)) + 4 <= length (ahead n (last_slot st) (slot j)))%nat).
Proof.
  intros Hd Hn Hj Hsel. pose proof (select_batch_perm _ _ _ Hsel) as (Hp & _ & Hle & H4 & Hord).
  rewrite Hp in Hj. apply elem_of_app in Hj as [?|Hj]; [by left|]. right. split; [done|].
  destruct H4 as [H4|H4]; [|by rewrite H4 in Hj; apply elem_of_nil in Hj].
  assert (Hback : forall x, x ∈ batch -> ~ key_le (decode_rotation_key (last_slot st) (slot j)) (decode_rotation_key (last_slot st) (slot x))).
  { intros x Hx Hk. specialize (Hord x j Hx Hj). unfold served_before in Hord.
    assert (decode_rotation_key (last_slot st) (slot x) = decode_rotation_key (last_slot st) (slot j)) as E%rotation_key_inj.
    { unfold key_le in *. destruct (decode_rotation_key _ (slot x)), (decode_rotation_key _ (slot j)). cbn in *. f_equal; lia. }
    unfold slots_distinct in Hd. rewrite Hp, fmap_app in Hd. apply NoDup_app in Hd as (_ & Hd & _).
    apply (Hd (slot x)); [by apply list_elem_of_fmap_2 | rewrite E; by apply list_elem_of_fmap_2]. }
  destruct (last batch) as [k|] eqn:Ek; [|apply last_None in Ek; by rewrite Ek in H4].
  assert (last_slot st' = Some (slot k)) as El.
  { revert Hsel. unfold select_batch. intros [= <- <-]. cbn. by rewrite Ek. }
  assert (k ∈ batch) as Hk by (apply last_Some in Ek as [r ->]; set_solver).
  assert (Hlast : forall x, x ∈ batch -> key_le (decode_rotation_key (last_slot st) (slot x)) (decode_rotation_key (last_slot st) (slot k))).
  { intros x Hx. apply last_Some in Ek as [r ->]. apply elem_of_app in Hx as [Hx|Hx%list_elem_of_singleton]; [|subst; unfold key_le; lia].
    revert Hsel. unfold select_batch. set (c := merge_sort _ _). intros [= Et _].
    assert (StronglySorted (served_before (last_slot st)) c) as Hs by (apply (StronglySorted_merge_sort _); apply _).
    rewrite <- (take_drop (Nat.min (length c) 4) c), Et, <- app_assoc in Hs.
    eapply (StronglySorted_app_1_elem_of _ _ _ _ k Hs Hx). set_solver. }
  rewrite El. rewrite Nat.add_comm, <- H4, <- (length_fmap slot batch), <- length_app.
  apply submseteq_length, NoDup_submseteq.
  - apply NoDup_app. split; [by eapply select_distinct|]. split; [|apply NoDup_ahead].
    intros x (y & -> & Hy)%list_elem_of_fmap [_ Hx]%elem_of_ahead.
    destruct (ahead_after _ _ _ _ (Hback k Hk) Hx) as [_ Hno]. by apply Hno, Hlast.
  - intros x [(y & -> & Hy)%list_elem_of_fmap|[Hxn Hx]%elem_of_ahead]%elem_of_app; apply elem_of_ahead.
    + split; [|by apply Hback]. eapply (Forall_forall (fun x => slot x < n)%nat); [exact Hn|]. rewrite Hp. set_solver.
    + split; [done|]. by apply (ahead_after _ (slot k)); [apply Hback|].
Qed.

(** What happens to the queue over time; only a selection serves jobs. *)
Inductive Event : Type := Submit (j : DecodeJob) | Elect | Select | Done.
Definition apply_event (st : DecodeBatchState) (e : Event) : DecodeBatchState * list DecodeJob :=
  match e with
  | Submit j => (default st (submit j st), [])
  | Elect => ((elect st).2, [])
  | Select => let (batch, st) := select_batch st in (st, batch)
  | Done => (batch_done st, [])
  end.
Fixpoint run_events (st : DecodeBatchState) (events : list Event) : DecodeBatchState * list DecodeJob :=
  match events with
  | [] => (st, [])
  | e :: events =>
      let (st, served) := apply_event st e in
      let (st, more) := run_events st events in
      (st, served ++ more)
  end.
Definition is_select (e : Event) : bool := match e with Select => true | _ => false end.
Definition selections (events : list Event) : nat := length (List.filter is_select events).
Definition event_below (n : nat) (e : Event) : Prop := match e with Submit j => (slot j < n)%nat | _ => True end.

(** A queued job stays queued until it is served, and every selection that passes it over
    brings it four slots nearer. *)
Lemma event_progress n st e st' served j : slots_distinct st -> Forall (fun x => slot x < n)%nat (queue st) -> event_below n e ->
  j ∈ queue st -> apply_event st e = (st', served) ->
  slots_distinct st' /\ Forall (fun x => slot x < n)%nat (queue st') /\
  (j ∈ served \/ (j ∈ queue st' /\
    (length (ahead n (last_slot st') (slot j)) + (if is_select e then 4 else 0) <= length (ahead n (last_slot st) (slot j)))%nat)).
Proof.
  intros Hd Hn He Hj. destruct e as [k| | |]; cbn [apply_event is_select].
  - intros [= <- <-]. destruct (submit k st) as [st2|] eqn:E; cbn [from_option id]; [|split_and!; auto; right; split; [done | lia]].
    pose proof (submit_ok _ _ _ E) as (Eq & El & _ & _). split; [by eapply submit_distinct|]. rewrite Eq, El. split.
    + apply Forall_app. split; [done|]. by constructor.
    + right. split; [set_solver | lia].
  - intros [= <- <-]. unfold elect. destruct (running st); cbn; (split_and!; [done | done | right; split; [done | lia]]).
  - destruct (select_batch st) as [batch st2] eqn:E. intros [= <- <-].
    pose proof (select_batch_perm _ _ _ E) as (Hp & _). split; [apply (select_distinct _ _ _ E Hd)|].
    split; [rewrite Hp in Hn; by apply Forall_app in Hn as [_ ?]|]. by apply (batch_progress n st).
  - intros [= <- <-]. split_and!; try done. right. split; [done | cbn; lia].
Qed.

(** C17. No decode starves: a job queued on one of [n] slots is in one of the next
    (n - 1) / 4 + 1 batches, whatever other jobs are submitted meanwhile. *)
Theorem decode_batches_fair n st events st' served j :
  slots_distinct st -> Forall (fun x => slot x < n)%nat (queue st) -> Forall (event_below n) events ->
  j ∈ queue st -> run_events st events = (st', served) -> ((n - 1) / 4 < selections events)%nat -> j ∈ served.
Proof.
  intros Hd Hn He Hj Hrun Hk.
  assert (slot j < n)%nat as Hs by by eapply (Forall_forall (fun x => slot x < n)%nat).
  assert (length (ahead n (last_slot st) (slot j)) < 4 * selections events)%nat as Hlt.
  { pose proof (ahead_bound n (last_slot st) (slot j) Hs). pose proof (Nat.div_mod_eq (n - 1) 4).
    pose proof (Nat.mod_upper_bound (n - 1) 4). lia. }
  clear Hk Hs. revert st served Hd Hn Hj Hrun Hlt.
  induction He as [|e events He _ IH]; intros st served Hd Hn Hj Hrun Hlt; [cbn in Hlt; lia|]. cbn [run_events] in Hrun.
  destruct (apply_event st e) as [st1 s1] eqn:E1. destruct (run_events st1 events) as [st2 s2] eqn:E2. injection Hrun as <- <-.
  destruct (event_progress n _ _ _ _ _ Hd Hn He Hj E1) as (Hd1 & Hn1 & [Hin|[Hj1 Hle]]); apply elem_of_app; [by left|right].
  apply (IH st1); try done. unfold selections in *. cbn [List.filter] in Hlt. destruct (is_select e); cbn in *; lia.
Qed.

Definition five_jobs : DecodeBatchState :=
  mkBatch false (Some 2%nat) [mkJob 10 0 7; mkJob 11 1 7; mkJob 12 3 7; mkJob 13 4 7; mkJob 14 2 7].
Lemma decode_batches_fair_witness :
  select_batch five_jobs = ([mkJob 12 3 7; mkJob 13 4 7; mkJob 10 0 7; mkJob 11 1 7], mkBatch false (Some 1%nat) [mkJob 14 2 7]) /\
  mkJob 14 2 7 ∈ (run_events five_jobs [Select; Submit (mkJob 20 3 9); Submit (mkJob 21 0 9); Select]).2.
Proof.
  split; [vm_compute; reflexivity|].
  apply (decode_batches_fair 5 five_jobs [Select; Submit (mkJob 20 3 9); Submit (mkJob 21 0 9); Select]
    (run_events five_jobs [Select; Submit (mkJob 20 3 9); Submit (mkJob 21 0 9); Select]).1).
  - apply (bool_decide_unpack _). vm_compute. exact I.
  - repeat constructor.
  - repeat constructor.
  - apply (bool_decide_unpack _). vm_compute. exact I.
  - destruct (run_events _ _). reflexivity.
  - vm_compute. lia.
Defined.

(** ** No job is lost. *)
Section Jobs.
Context {World R E : Type}.
Context (decode_one : World -> DecodeJob -> World * result E R).
Context (decode_group : World -> list DecodeJob -> World * result E (list R)).
Context (duplicate_slots : E).
Hypothesis group_rows : forall w jobs w' rows, decode_group w jobs = (w', Ok rows) -> length rows = length jobs.
Local Abbreviation run_batch := (run_jobs decode_one decode_group duplicate_slots).
Implicit Types (b : DecodeBatcher R E) (rs : list (option (list DecodeJob))).

Definition running_jobs rs : list nat := mjoin ((fun r => job <$> default [] r) <$> rs).
(** The jobs some caller is blocked on. *)
Definition outstanding (sys : System World R E) : list nat :=
  (job <$> queue (batch_state (batcher sys))) ++ running_jobs (runners sys) ++ elements (dom (results (batcher sys))).

Record batcher_ok (sys : System World R E) : Prop := {
  ok_runner : runners sys = [] /\ running (batch_state (batcher sys)) = false \/
    exists r, runners sys = [r] /\ running (batch_state (batcher sys)) = true /\ NoDup (slot <$> default [] r);
  ok_slots : slots_distinct (batch_state (batcher sys));
  ok_jobs : NoDup (outstanding sys);
}.

(** The interleavings: submitted and taken jobs, and the system they lead to.  A caller
    submits, becomes the runner, selects a batch, runs it, or takes its result. *)
Inductive history : list nat -> list nat -> System World R E -> Prop :=
| history_start w : history [] [] (mkSystem w (mkBatcher (mkBatch false None []) ∅ 0 0 0) [])
| history_submit submitted taken w b rs j st : history submitted taken (mkSystem w b rs) ->
    j.(job) ∉ outstanding (mkSystem w b rs) -> submit j (batch_state b) = Some st ->
    history (j.(job) :: submitted) taken (mkSystem w (with_state b st) rs)
| history_take submitted taken w b rs id r : history submitted taken (mkSystem w b rs) -> results b !! id = Some r ->
    history submitted (id :: taken)
      (mkSystem w (mkBatcher (batch_state b) (delete id (results b)) (packed_batches b) (packed_rows b) (last_width b)) rs)
| history_elect submitted taken w b rs st : history submitted taken (mkSystem w b rs) -> elect (batch_state b) = (true, st) ->
    history submitted taken (mkSystem w (with_state b st) (rs ++ [None]))
| history_select submitted taken w b rs i jobs st : history submitted taken (mkSystem w b rs) -> rs !! i = Some None ->
    select_batch (batch_state b) = (jobs, st) -> history submitted taken (mkSystem w (with_state b st) (<[i := Some jobs]> rs))
| history_run submitted taken w b rs i jobs w' b' : history submitted taken (mkSystem w b rs) -> rs !! i = Some (Some jobs) ->
    run_batch w jobs b = (w', b') ->
    history submitted taken (mkSystem w' (with_state b' (batch_done (batch_state b'))) (delete i rs)).

Lemma install_dom (l : list (DecodeJob * result E R)) : forall m, NoDup ((job ∘ fst <$> l) ++ elements (dom m)) ->
  elements (dom (install l m)) ≡ₚ (job ∘ fst <$> l) ++ elements (dom m).
Proof.
  induction l as [|x l IH]; intros m Hnd; [done|]. cbn [fmap list_fmap] in *. cbn [install foldl].
  apply NoDup_cons in Hnd as [Hx Hnd]. assert (job x.1 ∉ dom m) as Hm.
  { intros Hin. apply Hx, elem_of_app. right. by apply elem_of_elements. }
  assert (elements (dom (<[job x.1 := x.2]> m)) ≡ₚ job x.1 :: elements (dom m)) as Ed.
  { rewrite dom_insert_L. by apply elements_union_singleton. }
  change (foldl _ (<[job x.1 := x.2]> m) l) with (install l (<[job x.1 := x.2]> m)).
  rewrite IH, Ed; [by rewrite <- Permutation_middle|]. rewrite Ed, <- Permutation_middle. by constructor.
Qed.

(** Running a batch installs a result for each of its jobs, and leaves the queue alone. *)
Lemma run_jobs_results w jobs b w' b' : run_batch w jobs b = (w', b') -> NoDup ((job <$> jobs) ++ elements (dom (results b))) ->
  batch_state b' = batch_state b /\ elements (dom (results b')) ≡ₚ (job <$> jobs) ++ elements (dom (results b)).
Proof using group_rows.
  intros Hr Hnd. unfold run_jobs in Hr.
  assert (forall l : list (DecodeJob * result E R), fst <$> l = jobs ->
    elements (dom (install l (results b))) ≡ₚ (job <$> jobs) ++ elements (dom (results b))) as Hall.
  { intros l Hl. rewrite <- Hl, <- list_fmap_compose. apply install_dom. by rewrite list_fmap_compose, Hl. }
  destruct jobs as [|j [|k jobs]]; [injection Hr as <- <-; done| |].
  - destruct (decode_one w j) as [w1 r]. injection Hr as <- <-. split; [done|]. by apply (Hall [(j, r)]).
  - set (all := j :: k :: jobs) in *. destruct (if negb _ then _ else _) as [w1 [rows|e]] eqn:Eg; injection Hr as <- <-.
    + destruct (negb _); [done|]. split; [done|]. apply (Hall (zip all (Ok <$> rows))), fst_zip. rewrite length_fmap. by rewrite (group_rows _ _ _ _ Eg).
    + split; [done|]. specialize (Hall ((fun j => (j, Err e)) <$> all)). rewrite <- list_fmap_compose, list_fmap_id in Hall. exact (Hall eq_refl).
Qed.

Lemma outstanding_nil w b : outstanding (mkSystem w b []) = (job <$> queue (batch_state b)) ++ elements (dom (results b)).
Proof. done. Qed.
Lemma outstanding_one w b r : outstanding (mkSystem w b [r]) ≡ₚ
  (job <$> queue (batch_state b)) ++ (job <$> default [] r) ++ elements (dom (results b)).
Proof. unfold outstanding, running_jobs. cbn. by rewrite app_nil_r. Qed.

Lemma history_ok submitted taken sys : history submitted taken sys -> batcher_ok sys /\ outstanding sys ++ taken ≡ₚ submitted.
Proof using group_rows.
  induction 1 as [w|submitted taken w b rs j st _ [[Hr Hs Hj] IH] Hn He|submitted taken w b rs id r _ [[Hr Hs Hj] IH] He
    |submitted taken w b rs st _ [[Hr Hs Hj] IH] He|submitted taken w b rs i jobs st _ [[Hr Hs Hj] IH] Hi He
    |submitted taken w b rs i jobs w' b' _ [[Hr Hs Hj] IH] Hi He]; cbn [batcher runners batch_state with_state] in *.
  - assert (outstanding (mkSystem w (mkBatcher (mkBatch false None []) ∅ 0 0 0) []) = []) as E0.
    { rewrite outstanding_nil. cbn. by rewrite dom_empty_L, elements_empty. }
    split; [split|]; rewrite ?E0; cbn; try done; [by left | constructor | constructor].
  - pose proof (submit_ok _ _ _ He) as (Eq & _ & Er & _).
    assert (outstanding (mkSystem w (with_state b st) rs) ≡ₚ job j :: outstanding (mkSystem w b rs)) as Ho.
    { unfold outstanding. cbn. rewrite Eq, fmap_app. cbn. solve_Permutation. }
    split; [split|]; cbn; rewrite ?Er; [done | by eapply submit_distinct | rewrite Ho; by constructor | by rewrite Ho, <- IH].
  - assert (outstanding (mkSystem w b rs) ≡ₚ id :: outstanding (mkSystem w (mkBatcher (batch_state b) (delete id (results b))
      (packed_batches b) (packed_rows b) (last_width b)) rs)) as Ho.
    { unfold outstanding. cbn. rewrite <- (insert_delete_id _ _ _ He) at 1. rewrite dom_insert_L, elements_union_singleton; [solve_Permutation|].
      rewrite dom_delete_L. set_solver. }
    rewrite Ho in Hj, IH. apply NoDup_cons in Hj as [_ Hj]. split; [split; done|]. rewrite <- IH. cbn. by rewrite <- Permutation_middle.
  - unfold elect in He. destruct Hr as [[-> Hr]|(r & -> & Hr & _)]; rewrite Hr in He; [|done]. injection He as <-.
    split; [split|]; cbn; try done. right. exists None. by split_and!; [| |constructor].
  - destruct Hr as [[-> Hr]|(r & -> & Hr & _)]; [done|]. destruct i as [|i]; [|done]. injection Hi as ->.
    pose proof (select_batch_perm _ _ _ He) as (Hp & Er & _). destruct (select_distinct _ _ _ He Hs) as [Hs' Hb].
    assert (outstanding (mkSystem w (with_state b st) [Some jobs]) ≡ₚ outstanding (mkSystem w b [None])) as Ho.
    { rewrite !outstanding_one. cbn. rewrite Hp, fmap_app. solve_Permutation. }
    change (<[0%nat := Some jobs]> [None]) with [Some jobs]. rewrite <- Ho in Hj, IH.
    split; [split|]; try done. right. exists (Some jobs). cbn. by rewrite Er.
  - destruct Hr as [[-> Hr]|(r & -> & Hr & _)]; [done|]. destruct i as [|i]; [|done]. injection Hi as ->.
    change (delete 0%nat [Some jobs]) with (@nil (option (list DecodeJob))). rewrite outstanding_one in Hj, IH.
    destruct (run_jobs_results _ _ _ _ _ He) as [Eb Ed]; [by apply NoDup_app in Hj as (_ & _ & ?)|].
    assert (outstanding (mkSystem w' (with_state b' (batch_done (batch_state b'))) []) ≡ₚ
      (job <$> queue (batch_state b)) ++ (job <$> default [] (Some jobs)) ++ elements (dom (results b))) as Ho.
    { rewrite outstanding_nil. cbn. by rewrite Eb, Ed. }
    split; [split|]; rewrite ?Ho; try done; [by left|]. cbn. by rewrite Eb.
Qed.
End Jobs.

(** C33. Under every interleaving of callers, the jobs that were submitted are exactly those
    that were answered and taken, plus those that are queued, in the running batch, or
    answered; at most one thread runs batches, and the slots of its batch are distinct. *)
Theorem no_job_lost {World R E} decode_one decode_group (duplicate_slots : E) submitted taken (sys : System World R E) :
  (forall w jobs w' rows, decode_group w jobs = (w', Ok rows) -> length rows = length jobs) ->
  history decode_one decode_group duplicate_slots submitted taken sys ->
  outstanding sys ++ taken ≡ₚ submitted /\ (length (runners sys) <= 1)%nat /\
  (forall jobs, Some jobs ∈ runners sys -> distinct_slots jobs = true) /\ NoDup (outstanding sys).
Proof.
  intros Hrows Hh. destruct (history_ok _ _ _ Hrows _ _ _ Hh) as [[Hr _ Hj] Ho]. split; [done|].
  destruct Hr as [[-> _]|(r & -> & _ & Hd)]; split_and!; try done; [cbn; lia | intros jobs ?%elem_of_nil; done|].
  intros jobs <-%list_elem_of_singleton. cbn in Hd. unfold distinct_slots. apply Nat.eqb_eq.
  by rewrite size_list_to_set, length_fmap.
Qed.

Definition echo_one (w : nat) (j : DecodeJob) : nat * result unit Z := (S w, Ok (input j)).
Definition echo_group (w : nat) (jobs : list DecodeJob) : nat * result unit (list Z) := (w + length jobs, Ok (input <$> jobs))%nat.
Lemma no_job_lost_witness : exists sys : System nat Z unit,
  history echo_one echo_group tt [11; 10]%nat [10]%nat sys /\ results (batcher sys) !! 11%nat = Some (Ok 8) /\
  outstanding sys ++ [10%nat] ≡ₚ [11; 10]%nat.
Proof.
  pose proof (history_start echo_one echo_group tt 0%nat) as h.
  eapply (history_submit _ _ _ _ _ _ _ _ (mkJob 10 0 7)) in h; [|apply (bool_decide_unpack _); vm_compute; exact I | reflexivity].
  eapply (history_submit _ _ _ _ _ _ _ _ (mkJob 11 1 8)) in h; [|apply (bool_decide_unpack _); vm_compute; exact I | reflexivity].
  eapply history_elect in h; [|reflexivity]. eapply (history_select _ _ _ _ _ _ _ _ 0%nat) in h; [|reflexivity | reflexivity].
  eapply (history_run _ _ _ _ _ _ _ _ 0%nat) in h; [|reflexivity | reflexivity].
  eapply (history_take _ _ _ _ _ _ _ _ 10%nat) in h; [|reflexivity].
  eexists. split; [exact h|]. split; [reflexivity|].
  apply (no_job_lost echo_one echo_group tt [11; 10]%nat [10]%nat _); [|exact h].
  intros w jobs w' rows [= _ <-]. apply length_fmap.
Defined.
