(* ===== verification/Reuse.v ===== *)
(** * The prefix-reuse ladder: current session, resident, durable, remote.

    Models [crates/muser-kvpack/src/reuse.rs] over the resident cache of [Resident.v] and the
    sessions of [EngineSession.v].  The durable and remote tiers (authenticated stores of the
    kvpack crate) are the typeclasses [DurableTier] and [RemoteTier]; what the ladder relies on
    is [DurableLaws] and [RemoteLaws]: a found cut is a nonempty prefix of the request, and a
    successful restore leaves the session holding exactly that prefix. *)
From S2P Require Import Prelude CacheSnapshot Radix Resident EngineSession.

Inductive CacheSource : Type := CurrentSession | ResidentTier | DurableSource | RemoteSource | Miss.
Record PrefixReuseResult : Type := mkReuse { source : CacheSource; matched_tokens : Z }.

Inductive RemoteReuseAction : Type := ServeLocal | ArmDelta | FullTransfer.
#[global] Instance RemoteReuseAction_eq_dec : EqDecision RemoteReuseAction.
Proof. solve_decision. Defined.
Record RemoteReuseOffer : Type := mkOffer {
  action : RemoteReuseAction;
  offer_source : CacheSource;
  offer_matched : Z;
}.

Definition remote_action (matched prompt cut_align : Z) : RemoteReuseAction :=
  if prompt <? 2 then FullTransfer
  else if prompt - 1 <=? matched then ServeLocal
  else if (0 <? matched) && (0 <? cut_align) && is_multiple_of matched cut_align then ArmDelta
  else FullTransfer.

Record DurableHit : Type := mkDurableHit { d_cut : Z; manifest_id : list byte }.

Inductive PrefixReuseError : Type :=
| ResidentFailed (e : ResidentError)
| DurableFailed (e : SessionCacheError)
| RemoteFailed
| EngineFailure (e : EngineError)
| ReusePanic.

Class DurableTier (D S : Type) := {
  find_deepest : D -> list Z -> result SessionCacheError (option DurableHit);
  restore_manifest : D -> S -> list Z -> DurableHit -> S * result SessionCacheError unit;
  durable_digest : D -> list byte;
  durable_save : D -> S -> list byte -> Z -> D * result SessionCacheError unit;
}.
Class RemoteTier (R S : Type) := {
  restore_deepest : R -> S -> list Z -> S * result PrefixReuseError (option Z);
}.

Inductive ReusePlan : Type :=
| PlanCurrent (matched : Z)
| PlanResident (hit : ResidentHit ResidentSnapshot)
| PlanDurable (hit : DurableHit)
| RemoteOrMiss.

Section Reuse.
Context (sha256 : list byte -> list byte).
Context {B D R : Type} `{Backend B} `{DurableTier D (Session B)} `{RemoteTier R (Session B)}.
Implicit Types (ss : Session B).

Record PrefixReuse : Type := mkPrefixReuse {
  resident : ResidentRadix;
  durable : option D;
  remote : option R;
}.
Implicit Types (pr : PrefixReuse).

Definition PrefixReuse_new (capacity : Z) : result ResidentError PrefixReuse :=
  let? radix := Resident.new capacity in Ok (mkPrefixReuse radix None None).
Definition set_durable pr (d : D) : PrefixReuse := mkPrefixReuse (resident pr) (Some d) (remote pr).
Definition set_remote pr (r : R) : PrefixReuse := mkPrefixReuse (resident pr) (durable pr) (Some r).
Definition set_resident pr (r : ResidentRadix) : PrefixReuse := mkPrefixReuse r (durable pr) (remote pr).
Definition has_remote pr : bool := match remote pr with Some _ => true | None => false end.
Definition has_durable pr : bool := match durable pr with Some _ => true | None => false end.

Definition resident_identity pr : option (list byte) := durable_digest <$> durable pr.

Definition publish_resident (held : list ResidentSnapshot) pr ss
    : PrefixReuse * result PrefixReuseError bool :=
  match export_cache_snapshot ss with
  | Err e => (pr, Err (EngineFailure e))
  | Ok snapshot =>
      let (res, r) := insert_with_logits sha256 held (resident_identity pr) snapshot (cached_logits ss) (resident pr) in
      (set_resident pr r, result_map_err ResidentFailed res)
  end.

Definition publish_durable pr ss (publication_generation : Z) : PrefixReuse * result PrefixReuseError bool :=
  match durable pr with
  | None => (pr, Ok false)
  | Some d =>
      let idempotency_key :=
        sha256 (string_bytes "muser-durable-prompt-v1" ++ [byte_of_Z 0] ++ flat_map (to_le_bytes 4) (token_history ss)) in
      let (d, res) := durable_save d ss idempotency_key publication_generation in
      (set_durable pr d, let? _ := result_map_err DurableFailed res in Ok true)
  end.

Definition plan pr (current toks : list Z) : PrefixReuse * result PrefixReuseError ReusePlan :=
  if negb (match current with [] => true | _ => false end) && (zlen current <=? zlen toks) &&
     bool_decide (take (length current) toks = current)
  then (pr, Ok (PlanCurrent (zlen current)))
  else
    match match durable pr with Some d => find_deepest d toks | None => Ok None end with
    | Err e => (pr, Err (DurableFailed e))
    | Ok authenticated =>
        let cap := (fun _ => match authenticated with Some hit => d_cut hit | None => 0 end) <$> durable pr in
        let identity := resident_identity pr in
        let (found, r) := match cap with
                          | Some cap => lookup_capped identity toks cap (resident pr)
                          | None => lookup identity toks (resident pr)
                          end in
        let pr := set_resident pr r in
        let fallback := match authenticated with Some hit => PlanDurable hit | None => RemoteOrMiss end in
        (pr, Ok (match found with
                 | Some hit =>
                     if negb (exact_hit hit) ||
                        match rs_last_logits (hit_snapshot hit) with Some _ => true | None => false end
                     then PlanResident hit else fallback
                 | None => fallback
                 end))
    end.

Definition install_resident_hit ss (hit : ResidentHit ResidentSnapshot) : Session B * result PrefixReuseError unit :=
  match materialize (hit_snapshot hit) with
  | Err e => (ss, Err (ResidentFailed e))
  | Ok snapshot =>
      if exact_hit hit then
        match rs_last_logits (hit_snapshot hit) with
        | None => (ss, Err ReusePanic)
        | Some logits =>
            let (ss, res) := install_exact_generation ss snapshot logits in
            (ss, result_map_err DurableFailed res)
        end
      else
        let (ss, res) := install_cache_snapshot ss snapshot in
        (ss, result_map_err EngineFailure res)
  end.

Definition install_durable_hit pr ss (toks : list Z) (hit : DurableHit) : Session B * result PrefixReuseError unit :=
  match durable pr with
  | None => (ss, Err ReusePanic)
  | Some d =>
      let (ss, res) := restore_manifest d ss toks hit in
      match res with
      | Err e => (ss, Err (DurableFailed e))
      | Ok _ =>
          if (d_cut hit =? zlen toks) && match cached_logits ss with None => true | Some _ => false end
          then (ss, Err (EngineFailure (InvalidCacheState "durable exact hit omitted final logits")))
          else (ss, Ok tt)
      end
  end.

(** The remote rung, shared by [prepare] and [prepare_remote]: [None] is a miss. *)
Definition remote_rung pr ss (toks : list Z) : Session B * result PrefixReuseError (option Z) :=
  match remote pr with
  | None => (ss, Ok None)
  | Some r =>
      let (ss, res) := restore_deepest r ss toks in
      match res with
      | Err e => (ss, Err e)
      | Ok None => (ss, Ok None)
      | Ok (Some cut) =>
          if (cut =? zlen toks) && match cached_logits ss with None => true | Some _ => false end
          then (ss, Err (EngineFailure (InvalidCacheState "remote exact hit omitted final logits")))
          else (ss, Ok (Some cut))
      end
  end.

Definition prepare_with_cancellation pr ss (toks : list Z)
    : PrefixReuse * Session B * result PrefixReuseError PrefixReuseResult :=
  let (pr, planned) := plan pr (token_history ss) toks in
  match planned with
  | Err e => (pr, ss, Err e)
  | Ok (PlanCurrent matched) => (pr, ss, Ok (mkReuse CurrentSession matched))
  | Ok (PlanResident hit) =>
      let (ss, res) := install_resident_hit ss hit in
      (pr, ss, let? _ := res in Ok (mkReuse ResidentTier (cut hit)))
  | Ok (PlanDurable hit) =>
      let (ss, res) := install_durable_hit pr ss toks hit in
      (pr, ss, let? _ := res in Ok (mkReuse DurableSource (d_cut hit)))
  | Ok RemoteOrMiss =>
      let (ss, res) := remote_rung pr ss toks in
      (pr, ss, let? found := res in
               Ok (match found with Some cut => mkReuse RemoteSource cut | None => mkReuse Miss 0 end))
  end.

Definition prepare_remote pr ss (toks : list Z) (cut_align : Z)
    : PrefixReuse * Session B * result PrefixReuseError (option RemoteReuseOffer) :=
  let (pr, planned) := plan pr (token_history ss) toks in
  match planned with
  | Err e => (pr, ss, Err e)
  | Ok RemoteOrMiss =>
      let (ss, res) := remote_rung pr ss toks in
      (pr, ss, let? found := res in
               Ok ((fun cut => mkOffer (remote_action cut (zlen toks) cut_align) RemoteSource cut) <$> found))
  | Ok planned =>
      let (src, matched) := match planned with
                            | PlanCurrent matched => (CurrentSession, matched)
                            | PlanResident hit => (ResidentTier, cut hit)
                            | PlanDurable hit => (DurableSource, d_cut hit)
                            | RemoteOrMiss => (Miss, 0)
                            end in
      let act := remote_action matched (zlen toks) cut_align in
      let (ss, res) :=
        if bool_decide (act = FullTransfer) then (ss, Ok tt)
        else match planned with
             | PlanResident hit => install_resident_hit ss hit
             | PlanDurable hit => install_durable_hit pr ss toks hit
             | _ => (ss, Ok tt)
             end in
      (pr, ss, let? _ := res in Ok (Some (mkOffer act src matched)))
  end.
End Reuse.
Arguments PrefixReuse : clear implicits.

(** ** What the tiers promise the ladder. *)
Class DurableLaws (D B : Type) `{DurableTier D (Session B)} := {
  durable_digest_length d : length (durable_digest d) = 32%nat;
  find_deepest_cut d toks hit : find_deepest d toks = Ok (Some hit) -> 0 < d_cut hit <= zlen toks;
  restore_manifest_history d (ss : Session B) toks hit ss' :
    restore_manifest d ss toks hit = (ss', Ok tt) ->
    token_history ss' = take (Z.to_nat (d_cut hit)) toks;
}.
Class RemoteLaws (R B : Type) `{RemoteTier R (Session B)} := {
  restore_deepest_history r (ss : Session B) toks cut ss' :
    restore_deepest r ss toks = (ss', Ok (Some cut)) ->
    0 < cut <= zlen toks /\ token_history ss' = take (Z.to_nat cut) toks;
}.

Section Policy.
Context (sha256 : list byte -> list byte).
Context {B D R : Type} `{BackendLaws B} `{DurableLaws D B} `{RemoteLaws R B}.
Implicit Types (ss : Session B) (pr : PrefixReuse D R) (h : history) (toks current : list Z).

(** The session already holds a nonempty prefix of the request. *)
Definition continues current toks : Prop := current <> [] /\ current `prefix_of` toks.

Lemma resident_identity_wf pr : identity_wf (resident_identity pr).
Proof using All. unfold resident_identity. destruct (durable pr); cbn; [apply durable_digest_length | done]. Qed.

(** A hit of a lookup is a nonempty cut of the request. *)
Lemma hit_within h r identity toks cap hit :
  radix_ok h r -> identity_wf identity -> 0 <= cap -> zlen toks + 9 < 2 ^ 64 ->
  (lookup_capped identity toks cap r).1 = Some hit ->
  exists s, (identity, s) ∈ h /\ validate s = Ok tt /\ materialize (hit_snapshot hit) = Ok s /\
    tokens s = take (Z.to_nat (cut hit)) toks /\ 0 < cut hit <= zlen toks /\ cut hit <= cap /\
    (exact_hit hit = true <-> tokens s = toks).
Proof.
  intros Hok Hi Hcap H64 Hl. pose proof (lookup_capped_spec h r identity toks cap Hok Hi Hcap H64) as Hspec.
  rewrite Hl in Hspec. destruct Hspec as (s & e & Hh & Hin & _ & Hm & Hc & Ht & (_ & Hp & Hle & _) & Hex & _).
  destruct (ro_entries _ _ Hok _ Hin) as (i & s' & _ & _ & Hval & _ & Hm' & _).
  cbn in Hm'. assert (validate s = Ok tt /\ zlen (tokens s) = position s) as [Hv Hpos].
  { unfold materialize in Hm. destruct (validate _) as [[]|] eqn:E; [|done]. cbn in Hm. injection Hm as <-.
    split; [done|]. unfold validate, validate_for_window in E. repeat (case_match; try done). bool_prop. done. }
  exists s. apply prefix_length in Hp. pose proof (valid_position_nonzero s Hv). pose proof (zlen_nonneg (tokens s)).
  unfold zlen in *. repeat split; try done; try lia; rewrite Hex, bool_decide_eq_true in *; done.
Qed.

(** The plan, and the cache it leaves. *)
Lemma plan_spec h pr current toks pr' res :
  radix_ok h (resident pr) -> zlen toks + 9 < 2 ^ 64 -> plan pr current toks = (pr', res) ->
  durable pr' = durable pr /\ remote pr' = remote pr /\ radix_ok h (resident pr') /\
  match res with
  | Err e => ~ continues current toks /\ exists d e', durable pr = Some d /\ find_deepest d toks = Err e' /\ e = DurableFailed e'
  | Ok (PlanCurrent n) => continues current toks /\ n = zlen current
  | Ok (PlanResident hit) =>
      ~ continues current toks /\
      (exists s, (resident_identity pr, s) ∈ h /\ validate s = Ok tt /\ materialize (hit_snapshot hit) = Ok s /\
        tokens s = take (Z.to_nat (cut hit)) toks /\ 0 < cut hit <= zlen toks /\
        (exact_hit hit = true <-> tokens s = toks)) /\
      (forall d, durable pr = Some d ->
         exists auth, find_deepest d toks = Ok (Some auth) /\ cut hit <= d_cut auth) /\
      (exact_hit hit = true -> rs_last_logits (hit_snapshot hit) <> None)
  | Ok (PlanDurable hit) =>
      ~ continues current toks /\ exists d, durable pr = Some d /\ find_deepest d toks = Ok (Some hit)
  | Ok RemoteOrMiss =>
      ~ continues current toks /\ forall d, durable pr = Some d -> find_deepest d toks = Ok None
  end.
Proof using All.
  intros Hok H64 Hplan. unfold plan in Hplan.
  assert (negb (match current with [] => true | _ => false end) && (zlen current <=? zlen toks) &&
          bool_decide (take (length current) toks = current) = true <-> continues current toks) as Hcont.
  { rewrite !andb_true_iff, bool_decide_eq_true, Z.leb_le. split.
    - intros [[Hne _] E]. split; [by destruct current|]. exists (drop (length current) toks).
      rewrite <- E at 1. by rewrite take_drop.
    - intros [Hne [k ->]]. rewrite zlen_app, take_app_length. pose proof (zlen_nonneg k).
      split; [|done]. split; [by destruct current | lia]. }
  destruct (negb _ && _ && _) eqn:E.
  { injection Hplan as <- <-. repeat split; try apply Hok; by apply Hcont. }
  assert (~ continues current toks) as Hnot by (intros Hc%Hcont; congruence). clear Hcont E.
  destruct (match durable pr with Some d => find_deepest d toks | None => Ok None end) as [auth|e] eqn:Eauth.
  2:{ injection Hplan as <- <-. repeat split; try apply Hok; [done|].
      destruct (durable pr) as [d|]; [|done]. by exists d, e. }
  set (cap := match durable pr with
              | Some _ => match auth with Some hit => d_cut hit | None => 0 end
              | None => USIZE_MAX
              end).
  assert (0 <= cap) as Hcap.
  { subst cap. destruct (durable pr) as [d|]; [|done]. destruct auth as [hit|]; [|lia].
    apply find_deepest_cut in Eauth. lia. }
  replace (match _ <$> durable pr with Some cap => _ | None => _ end)
    with (lookup_capped (resident_identity pr) toks cap (resident pr)) in Hplan
    by (subst cap; by destruct (durable pr)).
  assert (radix_ok h (lookup_capped (resident_identity pr) toks cap (resident pr)).2) as Hok'
    by (eapply (resident_step_ok sha256 (resident pr) h); [done | apply rs_lookup]).
  pose proof (hit_within h (resident pr) (resident_identity pr) toks cap) as Hhit.
  destruct (lookup_capped (resident_identity pr) toks cap (resident pr)) as [found r]. cbn [fst snd] in *.
  injection Hplan as <- <-. split; [done|]. split; [done|]. split; [done|].
  assert (match (match auth with Some hit => PlanDurable hit | None => RemoteOrMiss end) with
          | PlanDurable hit => ~ continues current toks /\ exists d, durable pr = Some d /\ find_deepest d toks = Ok (Some hit)
          | RemoteOrMiss => ~ continues current toks /\ forall d, durable pr = Some d -> find_deepest d toks = Ok None
          | _ => False end) as Hfall.
  { destruct auth as [hit|]; (split; [done|]); destruct (durable pr) as [d|]; try done; [by exists d|].
    by intros d' [= <-]. }
  destruct found as [hit|]; [|by destruct auth].
  destruct (negb (exact_hit hit) || _) eqn:Ex; [|by destruct auth].
  destruct (Hhit hit Hok (resident_identity_wf pr) Hcap H64 eq_refl) as (s & K1 & Hv & K2 & K3 & K4 & K5 & K6).
  split; [done|]. split; [by exists s|]. split.
  - intros d Hd. subst cap. rewrite Hd in *. destruct auth as [a|]; [by exists a | lia].
  - intros He. rewrite He in Ex. cbn in Ex. by destruct (rs_last_logits _).
Qed.

(** A resident install is all-or-nothing and leaves the snapshot's tokens. *)
Lemma install_resident_hit_spec ss hit s ss' res :
  session_ok ss -> materialize (hit_snapshot hit) = Ok s -> install_resident_hit ss hit = (ss', res) ->
  match res with
  | Ok _ => token_history ss' = tokens s /\
      (exact_hit hit = true -> cached_logits ss' = rs_last_logits (hit_snapshot hit) /\
         generation_of ss' = (tokens s, rs_last_logits (hit_snapshot hit), position s, Some s))
  | Err _ => generation_of ss' = generation_of ss
  end.
Proof using All.
  intros Hok Hm Hins. unfold install_resident_hit in Hins. rewrite Hm in Hins.
  destruct (exact_hit hit).
  - destruct (rs_last_logits (hit_snapshot hit)) as [logits|]; [|by injection Hins as <- <-].
    destruct (install_exact_generation ss s logits) as [ss1 r1] eqn:E. injection Hins as <- <-.
    pose proof (install_exact_generation_spec _ _ _ _ _ Hok E) as Hspec.
    destruct r1 as [[]|]; cbn; [|apply Hspec]. pose proof Hspec as Hgen. unfold generation_of in Hspec.
    injection Hspec as E1 E2 E3 E4. done.
  - destruct (install_cache_snapshot ss s) as [ss1 r1] eqn:E. injection Hins as <- <-.
    pose proof (install_snapshot_spec _ _ _ _ E) as Hspec.
    destruct r1 as [[]|]; cbn; [|by rewrite Hspec]. destruct Hspec as (_ & _ & Ht & _). done.
Qed.

Lemma install_durable_hit_spec pr ss toks hit ss' :
  install_durable_hit pr ss toks hit = (ss', Ok tt) -> token_history ss' = take (Z.to_nat (d_cut hit)) toks.
Proof using All.
  unfold install_durable_hit. destruct (durable pr) as [d|]; [|done].
  destruct (restore_manifest d ss toks hit) as [ss1 [[]|]] eqn:E; [|done].
  case_match; [done|]. intros [= <-]. by eapply restore_manifest_history.
Qed.

Lemma remote_rung_spec pr ss toks cut ss' :
  remote_rung pr ss toks = (ss', Ok (Some cut)) ->
  0 < cut <= zlen toks /\ token_history ss' = take (Z.to_nat cut) toks.
Proof using All.
  unfold remote_rung. destruct (remote pr) as [r|]; [|done].
  destruct (restore_deepest r ss toks) as [ss1 [[c|]|]] eqn:E; [|done..].
  case_match; [done|]. intros [= <- <-]. by eapply restore_deepest_history.
Qed.

Lemma continues_take current toks : continues current toks -> current = take (length current) toks.
Proof. intros [_ [k ->]]. by rewrite take_app_length. Qed.
Lemma continues_bounds current toks : continues current toks -> 0 < zlen current <= zlen toks.
Proof.
  intros [Hne [k ->]]. rewrite zlen_app. pose proof (zlen_nonneg k). unfold zlen. destruct current; [done|]. cbn. lia.
Qed.

(** C24. The durable tier is the authority: for every reachable resident cache, a planned
    resident hit was inserted under the durable tier's identity, materializes, and is a
    nonempty prefix of the request no deeper than the deepest cut the durable tier
    authenticates for it (with a durable tier that finds nothing, no resident hit is planned
    at all); an exact resident hit always carries its logits; the current session is used
    exactly when it holds a nonempty prefix; and a durable lookup error fails the plan. *)
Theorem plan_stays_authenticated capacity r0 h pr current toks pr' res :
  Resident.new capacity = Ok r0 -> rtc (resident_step sha256) (r0, []) (resident pr, h) ->
  zlen toks + 9 < 2 ^ 64 -> plan pr current toks = (pr', res) ->
  (forall n, res = Ok (PlanCurrent n) <-> continues current toks /\ n = zlen current) /\
  (forall hit, res = Ok (PlanResident hit) ->
     (exists s, (resident_identity pr, s) ∈ h /\ materialize (hit_snapshot hit) = Ok s /\
        tokens s = take (Z.to_nat (cut hit)) toks /\ 0 < cut hit <= zlen toks /\
        (exact_hit hit = true <-> tokens s = toks)) /\
     (forall d, durable pr = Some d ->
        exists auth, find_deepest d toks = Ok (Some auth) /\ cut hit <= d_cut auth) /\
     (exact_hit hit = true -> rs_last_logits (hit_snapshot hit) <> None)) /\
  (forall hit, res = Ok (PlanDurable hit) -> exists d, durable pr = Some d /\ find_deepest d toks = Ok (Some hit)) /\
  (forall d e, durable pr = Some d -> find_deepest d toks = Err e -> ~ continues current toks ->
     res = Err (DurableFailed e)).
Proof using All.
  intros Hnew Hsteps H64 Hplan. destruct (reachable_invariants sha256 capacity r0 _ h Hnew Hsteps) as [Hok _].
  destruct (plan_spec h pr current toks pr' res Hok H64 Hplan) as (_ & _ & _ & Hspec).
  split; [|split; [|split]].
  - intros n. split; [intros ->; done|]. intros [Hc ->].
    destruct res as [[m|hit|hit|]|e]; try (by destruct Hspec). by destruct Hspec as [_ ->].
  - intros hit ->. destruct Hspec as (_ & (s & K1 & _ & K2 & K3 & K4 & K5) & K6 & K7). split; [by exists s | done].
  - intros hit ->. apply Hspec.
  - intros d e Hd He Hc. destruct res as [[m|hit|hit|]|e'].
    + by destruct Hspec.
    + destruct Hspec as (_ & _ & Hauth & _). destruct (Hauth d Hd) as (? & ? & _). congruence.
    + destruct Hspec as (_ & d' & ? & ?). congruence.
    + destruct Hspec as (_ & Hn). specialize (Hn d Hd). congruence.
    + destruct Hspec as (_ & d' & e'' & ? & ? & ->). congruence.
Qed.

Lemma remote_action_spec matched prompt cut_align :
  match remote_action matched prompt cut_align with
  | ServeLocal => prompt - 1 <= matched
  | ArmDelta => matched < prompt - 1 /\ (cut_align | matched)
  | FullTransfer => True
  end.
Proof.
  unfold remote_action, is_multiple_of.
  destruct (prompt <? 2); [done|]. destruct (prompt - 1 <=? matched) eqn:E1; bool_prop; [lia|].
  destruct (0 <? matched); [|done]. destruct (0 <? cut_align) eqn:E2; [|done]. bool_prop. cbn.
  rewrite (proj2 (Z.eqb_neq cut_align 0)) by lia. destruct (_ =? 0) eqn:E3; [|done]. bool_prop.
  split; [lia|]. apply Z.mod_divide; lia.
Qed.

(** What a remote producer may rely on: when [prepare_remote] makes an offer, the matched
    count is a nonempty cut of the request; [ServeLocal] is offered only when at most the last
    token is missing and [ArmDelta] only for a cut strictly below that and on the producer's
    alignment grid; with either, the session holds exactly the matched prefix; and a hit the
    producer cannot use ([FullTransfer] from a local tier) leaves the session untouched. *)
Theorem prepare_remote_offers_usable_cuts capacity r0 h pr ss toks cut_align pr' ss' o :
  Resident.new capacity = Ok r0 -> rtc (resident_step sha256) (r0, []) (resident pr, h) ->
  zlen toks + 9 < 2 ^ 64 -> session_ok ss ->
  prepare_remote pr ss toks cut_align = (pr', ss', Ok (Some o)) ->
  0 < offer_matched o <= zlen toks /\
  match action o with
  | ServeLocal => zlen toks - 1 <= offer_matched o
  | ArmDelta => offer_matched o < zlen toks - 1 /\ (cut_align | offer_matched o)
  | FullTransfer => True
  end /\
  (action o <> FullTransfer -> token_history ss' = take (Z.to_nat (offer_matched o)) toks) /\
  (action o = FullTransfer -> offer_source o <> RemoteSource -> ss' = ss).
Proof using All.
  intros Hnew Hsteps H64 Hss Hprep.
  destruct (reachable_invariants sha256 capacity r0 _ h Hnew Hsteps) as [Hok _].
  unfold prepare_remote in Hprep.
  destruct (plan pr (token_history ss) toks) as [pr1 [p|e]] eqn:Hplan; [|done].
  destruct (plan_spec h pr _ toks pr1 _ Hok H64 Hplan) as (_ & _ & _ & Hspec).
  pose proof (fun m => remote_action_spec m (zlen toks) cut_align) as Hact.
  destruct p as [n|hit|hit|].
  - destruct Hspec as [Hc ->]. replace (if bool_decide _ then _ else _) with (ss, @Ok PrefixReuseError unit tt) in Hprep
      by (by case_bool_decide). injection Hprep as <- <- <-. cbn.
    split; [by apply continues_bounds|]. split; [apply Hact|]. split; [|done].
    intros _. rewrite to_nat_zlen. by apply continues_take.
  - destruct Hspec as (_ & (s & _ & _ & Hm & Ht & Hc & _) & _).
    case_bool_decide as Ha.
    { injection Hprep as <- <- <-. cbn. split; [done|]. split; [apply Hact|]. split; [intros; congruence | done]. }
    destruct (install_resident_hit ss hit) as [ss1 [[]|]] eqn:Hins; [|done]. injection Hprep as <- <- <-. cbn.
    pose proof (install_resident_hit_spec ss hit s ss1 _ Hss Hm Hins) as [-> _].
    split; [done|]. split; [apply Hact|]. split; [done | intros; congruence].
  - destruct Hspec as (_ & d & Hd & Hf). apply find_deepest_cut in Hf.
    case_bool_decide as Ha.
    { injection Hprep as <- <- <-. cbn. split; [done|]. split; [apply Hact|]. split; [intros; congruence | done]. }
    destruct (install_durable_hit pr1 ss toks hit) as [ss1 [[]|]] eqn:Hins; [|done]. injection Hprep as <- <- <-. cbn.
    split; [done|]. split; [apply Hact|]. split; [|intros; congruence].
    intros _. by eapply install_durable_hit_spec.
  - destruct (remote_rung pr1 ss toks) as [ss1 [[c|]|]] eqn:Hins; [|done..]. injection Hprep as <- <- <-. cbn.
    destruct (remote_rung_spec _ _ _ _ _ Hins) as [Hc Ht]. split; [done|]. split; [apply Hact|]. by split.
Qed.

End Policy.

(** ** Concrete tiers: one durable snapshot of one token, and a remote tier that has nothing. *)
Definition toy_tier : Type := unit.
#[global] Instance toy_durable : DurableTier toy_tier (Session slot_backend) := {
  find_deepest _ toks := Ok (match toks with 5 :: _ => Some (mkDurableHit 1 []) | _ => None end);
  restore_manifest _ ss toks hit :=
    if bool_decide (take (Z.to_nat (d_cut hit)) toks = tokens toy_snapshot)
    then let (ss, res) := install_cache_snapshot ss toy_snapshot in (ss, result_map_err EngineFailed res)
    else (ss, Err StoreFailed);
  durable_digest _ := replicate 32 (byte_of_Z 0);
  durable_save d _ _ _ := (d, Err StoreFailed);
}.
#[global] Instance toy_remote : RemoteTier toy_tier (Session slot_backend) := {
  restore_deepest _ ss _ := (ss, Ok None);
}.
#[global] Instance toy_durable_laws : DurableLaws toy_tier slot_backend.
Proof.
  split; [done| |].
  - intros d toks hit. cbn. destruct toks as [|t toks]; [done|].
    destruct (decide (t = 5)) as [->|Hn].
    + intros [= <-]. unfold zlen. cbn. lia.
    + destruct t as [|p|p]; try done. repeat (destruct p as [p|p|]; try done).
  - intros d ss toks hit ss'. cbn [restore_manifest toy_durable]. case_bool_decide as Ht; [|discriminate].
    destruct (install_cache_snapshot ss toy_snapshot) as [ss1 [[]|]] eqn:E; [|discriminate].
    intros [= <-]. rewrite Ht. pose proof (install_snapshot_spec _ _ _ _ E) as (_ & _ & H & _). exact H.
Qed.
#[global] Instance toy_remote_laws : RemoteLaws toy_tier slot_backend.
Proof. split. discriminate. Qed.

(** A cache holding one generation with its logits, and a session that produced it. *)
Definition toy_logit_cache : ResidentRadix :=
  (insert_with_logits toy_digest [] None toy_snapshot (Some [1; 2]) toy_empty).2.
Lemma toy_logit_reachable :
  rtc (resident_step toy_digest) (toy_empty, []) (toy_logit_cache, [(None, toy_snapshot)]).
Proof.
  apply rtc_once. eapply (rs_insert _ [] None toy_snapshot (Some [1; 2])); [done | done | done|].
  instantiate (1 := true). by vm_compute.
Qed.
Definition toy_reuse (r : ResidentRadix) (d : option toy_tier) : PrefixReuse toy_tier toy_tier :=
  mkPrefixReuse r d (Some tt).
Definition toy_full_session : Session slot_backend := mkSession (Some toy_snapshot) [5] (Some [1; 2]) 100 2.
Lemma toy_full_session_ok : session_ok toy_full_session.
Proof.
  split.
  - discriminate.
  - intros _. exists toy_snapshot. split; [by vm_compute | by vm_compute].
  - by vm_compute.
Qed.

(** The plan's route and depth, which the witnesses evaluate. *)
Definition plan_summary (p : result PrefixReuseError ReusePlan) : option (CacheSource * Z * bool) :=
  match p with
  | Ok (PlanCurrent n) => Some (CurrentSession, n, false)
  | Ok (PlanResident hit) => Some (ResidentTier, cut hit, exact_hit hit)
  | Ok (PlanDurable hit) => Some (DurableSource, d_cut hit, false)
  | Ok RemoteOrMiss => Some (Miss, 0, false)
  | Err _ => None
  end.

(** Without a durable tier the cached generation is planned, exactly; with one, the entry
    (published under no identity) is not, and the durable cut is planned instead. *)
Lemma plan_stays_authenticated_witness :
  (exists hit, (plan (toy_reuse toy_logit_cache None) [] [5]).2 = Ok (PlanResident hit) /\
     rs_last_logits (hit_snapshot hit) <> None) /\
  (plan (toy_reuse toy_logit_cache (Some tt)) [] [5]).2 = Ok (PlanDurable (mkDurableHit 1 [])).
Proof.
  split; [|vm_compute; reflexivity].
  assert (plan_summary (plan (toy_reuse toy_logit_cache None) [] [5]).2 = Some (ResidentTier, 1, true)) as Hsum
    by (vm_compute; reflexivity).
  destruct (plan (toy_reuse toy_logit_cache None) [] [5]) as [pr' res] eqn:E.
  pose proof (plan_stays_authenticated toy_digest 1000 toy_empty [(None, toy_snapshot)]
    (toy_reuse toy_logit_cache None) [] [5] pr' res eq_refl toy_logit_reachable ltac:(reflexivity) E)
    as (_ & Hr & _).
  cbn [snd] in Hsum. clear E. destruct res as [[n|hit|hit|]|]; try discriminate Hsum.
  exists hit. split; [reflexivity|]. destruct (Hr hit eq_refl) as (_ & _ & Hl). apply Hl.
  injection Hsum as _ Hx. exact Hx.
Defined.


Lemma prepare_remote_offers_usable_cuts_witness :
  exists pr' ss', prepare_remote (toy_reuse toy_cache (Some tt)) toy_session [5; 6; 7] 1 =
    (pr', ss', Ok (Some (mkOffer ArmDelta DurableSource 1))) /\ token_history ss' = [5].
Proof.
  assert ((prepare_remote (toy_reuse toy_cache (Some tt)) toy_session [5; 6; 7] 1).2
    = Ok (Some (mkOffer ArmDelta DurableSource 1))) as Hres by (vm_compute; reflexivity).
  destruct (prepare_remote (toy_reuse toy_cache (Some tt)) toy_session [5; 6; 7] 1) as [[pr' ss'] res] eqn:E.
  cbn [snd] in Hres. subst res.
  exists pr', ss'. split; [reflexivity|].
  exact (proj1 (proj2 (proj2 (prepare_remote_offers_usable_cuts toy_digest 1000 toy_empty [(None, toy_snapshot)]
    (toy_reuse toy_cache (Some tt)) toy_session [5; 6; 7] 1 pr' ss' _ eq_refl toy_reachable ltac:(reflexivity)
    toy_session_ok E))) ltac:(discriminate)).
Defined.

Lemma toy_export_width s : export_cache_snapshot toy_full_session = Ok s -> is_uint 32 (elements_per_token s).
Proof.
  assert (export_cache_snapshot toy_full_session = Ok toy_snapshot) as -> by (vm_compute; reflexivity).
  intros Hs. assert (s = toy_snapshot) as -> by congruence. vm_compute. split; [discriminate | reflexivity].
Qed.

