(* ===== verification/SpecSession.v ===== *)
(** * The engine session as a target model: decode and greedy verification.

    Models the compute side of [Session] ([crates/muser-engine/src/api.rs]): [decode],
    [greedy_next_token] and the transactional [verify_batch_capturing_layers] of the CPU
    backend, with [greedy_verification_decision], the decision of the Metal backend on one
    batch of logits.  The transformer itself is the interface [Target]: a forward pass returns
    the logits of the history it has consumed, and nothing is assumed of the logits but their
    width and finiteness.  Logits are f32 bits. *)
From S2P Require Import Prelude CacheSnapshot Resident EngineSession.

(** ** Logit rows. *)
(** [a > b] on f32 bits: false on NaN, and the two zeros are equal. *)
Definition f32_is_nan (bits : Z) : bool :=
  (Z.land bits 0x7f800000 =? 0x7f800000) && negb (Z.land bits 0x007fffff =? 0).
Definition f32_key (bits : Z) : Z :=
  let magnitude := Z.land bits 0x7fffffff in
  if Z.testbit bits 31 then - magnitude else magnitude.
Definition f32_gt (a b : Z) : bool := negb (f32_is_nan a) && negb (f32_is_nan b) && (f32_key b <? f32_key a).
Definition argmax (values : list Z) : nat :=
  foldl (fun best index => if f32_gt (values !!! index) (values !!! best) then index else best) 0%nat (seq 1 (length values - 1)).

Definition ensure_finite_logits (logits : list Z) : result EngineError unit :=
  if bool_decide (logits = []) || existsb (fun v => negb (is_finite v)) logits then Err NonfiniteLogits else Ok tt.
Definition final_logit_row (values : list Z) (vocab_size : Z) : result EngineError (list Z) :=
  if (vocab_size =? 0) || (zlen values <? vocab_size) || negb (is_multiple_of (zlen values) vocab_size)
  then Err (InvalidRestoredLogits (zlen values) vocab_size)
  else Ok (drop (Z.to_nat (zlen values - vocab_size)) values).

Record VerificationResult : Type := mkVerification { accepted : nat; replacement : option Z }.

(** [greedy_verification_decision] from row [index] on, [row] being the logits before it. *)
Fixpoint decide_rows (row flat_logits : list Z) (vocab_size : nat) (draft_tokens : list Z) (index : nat) : VerificationResult :=
  match draft_tokens with
  | [] => mkVerification index None
  | draft :: draft_tokens =>
      let target := Z.of_nat (argmax row) in
      if target =? draft then decide_rows (take vocab_size flat_logits) (drop vocab_size flat_logits) vocab_size draft_tokens (S index)
      else mkVerification index (Some target)
  end.
Definition greedy_verification_decision (starting_logits flat_logits draft_tokens : list Z) (vocab_size : Z)
    : result EngineError VerificationResult :=
  if negb (zlen starting_logits =? vocab_size) || negb (zlen flat_logits =? saturating_mul 64 (zlen draft_tokens) vocab_size)
  then Err (InvalidRestoredLogits (zlen flat_logits) (saturating_mul 64 (zlen draft_tokens) vocab_size))
  else Ok (decide_rows starting_logits flat_logits (Z.to_nat vocab_size) draft_tokens 0).

(** ** The target model. *)
Class Target (B : Type) `{Backend B} := {
  b_forward : B -> list Z -> B * result EngineError (list Z);
  b_forward_capturing : B -> list Z -> list Z -> B * (list Z * list Z);
  hidden_dim : Z;
}.

Section Session.
Context {B : Type} `{Target B}.
Implicit Types (ss : Session B).

Definition validate_tokens ss (tokens : list Z) : result EngineError unit :=
  match List.find (fun token => vocab_size ss <=? token) tokens with
  | Some token => Err (InvalidToken token (vocab_size ss))
  | None => Ok tt
  end.
Definition ensure_capacity ss (additional : Z) : result EngineError unit :=
  let requested := saturating_add 64 (session_position ss) additional in
  if max_context ss <? requested then Err (ContextOverflow requested (max_context ss)) else Ok tt.

Definition with_backend ss (b : B) : Session B := mkSession b (token_history ss) (last_logits ss) (max_context ss) (vocab_size ss).
Definition with_history ss (h : list Z) : Session B := mkSession (backend ss) h (last_logits ss) (max_context ss) (vocab_size ss).
Definition with_logits ss (l : option (list Z)) : Session B := mkSession (backend ss) (token_history ss) l (max_context ss) (vocab_size ss).

(** [forward_into]: the history grows when the pass succeeds. *)
Definition session_forward ss (tokens : list Z) : Session B * result EngineError (list Z) :=
  let (b, res) := b_forward (backend ss) tokens in
  match res with
  | Err e => (with_backend ss b, Err e)
  | Ok logits => (with_history (with_backend ss b) (token_history ss ++ tokens), Ok logits)
  end.
Definition greedy_next_token ss : result EngineError Z :=
  match last_logits ss with
  | Some logits => Ok (Z.of_nat (argmax logits))
  | None => Err MissingVerificationState
  end.

(** Returns the next greedy token and the logits. *)
Definition session_decode ss (token_id : Z) : Session B * result EngineError (Z * list Z) :=
  match validate_tokens ss [token_id] with Err e => (ss, Err e) | Ok _ =>
  match ensure_capacity ss 1 with Err e => (ss, Err e) | Ok _ =>
  let previous := default [] (last_logits ss) in
  let (ss, res) := session_forward (with_logits ss None) [token_id] in
  match res with
  | Err e => (with_logits ss (if bool_decide (previous = []) then None else Some previous), Err e)
  | Ok logits =>
      match ensure_finite_logits logits with
      | Err e => (ss, Err e)
      | Ok _ => (with_logits ss (Some logits), Ok (Z.of_nat (argmax logits), logits))
      end
  end end end.

(** The CPU loop: one token at a time while the target agrees. *)
Fixpoint verify_loop (b : B) (layer_ids history logits draft_tokens hidden : list Z) (taken : nat)
    : B * list Z * list Z * list Z * VerificationResult :=
  match draft_tokens with
  | [] => (b, history, logits, hidden, mkVerification taken None)
  | draft :: draft_tokens =>
      let target := Z.of_nat (argmax logits) in
      if target =? draft then
        let '(b, (next_logits, rows)) := b_forward_capturing b [draft] layer_ids in
        verify_loop b layer_ids (history ++ [draft]) next_logits draft_tokens (hidden ++ rows) (S taken)
      else (b, history, logits, hidden, mkVerification taken (Some target))
  end.
Definition verify_batch_capturing_layers ss (draft_tokens layer_ids : list Z)
    : Session B * result EngineError (VerificationResult * list Z) :=
  match draft_tokens with [] => (ss, Ok (mkVerification 0 None, [])) | _ =>
  match validate_tokens ss draft_tokens with Err e => (ss, Err e) | Ok _ =>
  match ensure_capacity ss (zlen draft_tokens) with Err e => (ss, Err e) | Ok _ =>
  match last_logits ss with None => (ss, Err MissingVerificationState) | Some starting_logits =>
  match export_cache_snapshot ss with Err e => (ss, Err e) | Ok snapshot =>
  let '(b, history, logits, hidden, verification) :=
    verify_loop (backend ss) layer_ids (token_history ss) starting_logits draft_tokens [] 0 in
  let ss := with_history (with_backend ss b) history in
  let '(ss, res) :=
    if (accepted verification =? length draft_tokens)%nat then (ss, Ok logits)
    else
      let (ss, res) := install_cache_snapshot ss snapshot in
      match res with
      | Err e => (ss, Err e)
      | Ok _ =>
          let ss := with_logits ss (Some starting_logits) in
          if (0 <? accepted verification)%nat then session_forward ss (take (accepted verification) draft_tokens)
          else (ss, Ok logits)
      end in
  match res with
  | Err e => (ss, Err e)
  | Ok logits =>
      match final_logit_row logits (vocab_size ss) with
      | Err e => (ss, Err e)
      | Ok row => (with_logits ss (Some row), Ok (verification, hidden))
      end
  end end end end end end.
End Session.

(** ** What the target promises: the logits are those of the tokens it has consumed. *)
Class TargetLaws (B : Type) `{Target B} := {
  represents : B -> list Z -> Prop;
  logits_of : list Z -> list Z;
  target_vocab : Z;
  capacity : Z;
  tl_vocab : 0 < target_vocab < 2 ^ 32;
  tl_capacity : capacity < 2 ^ 32;
  tl_row h : zlen (logits_of h) = target_vocab /\ existsb (fun v => negb (is_finite v)) (logits_of h) = false;
  tl_position b h : represents b h -> b_position b = zlen h;
  tl_forward b h ts : represents b h -> ts <> [] -> zlen (h ++ ts) <= capacity -> exists b' front,
    b_forward b ts = (b', Ok (front ++ logits_of (h ++ ts))) /\ represents b' (h ++ ts) /\
    zlen front mod target_vocab = 0 /\ (zlen ts = 1 -> front = []);
  tl_capture b h t ids : represents b h -> zlen (h ++ [t]) <= capacity -> exists b' rows,
    b_forward_capturing b [t] ids = (b', (logits_of (h ++ [t]), rows)) /\ represents b' (h ++ [t]) /\
    zlen rows = zlen ids * hidden_dim;
  tl_export b h : represents b h -> h <> [] -> exists s, b_export b h = Ok s /\ validate s = Ok tt /\
    tokens s = h /\ position s = zlen h /\ forall b1, exists b2, b_install b1 s = (b2, Ok tt) /\ represents b2 h;
}.

Section Laws.
Context {B : Type} `{TargetLaws B}.
Implicit Types (ss : Session B) (h : list Z).

(** The target's greedy continuation of a history. *)
Definition next h : Z := Z.of_nat (argmax (logits_of h)).
(** How many proposed tokens it agrees with. *)
Fixpoint agreed h (drafts : list Z) : nat :=
  match drafts with
  | [] => 0
  | d :: drafts => if next h =? d then S (agreed (h ++ [d]) drafts) else 0
  end.

(** A session that has consumed exactly [h] and retains its logits. *)
Record ready ss h : Prop := {
  rd_history : token_history ss = h;
  rd_backend : represents (backend ss) h;
  rd_logits : last_logits ss = Some (logits_of h);
  rd_vocab : vocab_size ss = target_vocab;
  rd_context : max_context ss <= capacity;
  rd_nonempty : h <> [];
}.

Lemma argmax_lt values : (0 < length values)%nat -> (argmax values < length values)%nat.
Proof.
  intros Hl. unfold argmax. assert (forall l best, Forall (fun i => (i < length values)%nat) l -> (best < length values)%nat ->
    (foldl (fun best index => if f32_gt (values !!! index) (values !!! best) then index else best) best l < length values)%nat) as H'.
  { induction l as [|i l IH]; intros best Hi Hb; [done|]. apply Forall_cons in Hi as [Hi Hl']. cbn. apply IH; [done|]. by destruct (f32_gt _ _). }
  apply H'; [|done]. apply Forall_forall. intros i Hi%elem_of_seq. lia.
Qed.
Lemma next_range h : 0 <= next h < target_vocab.
Proof.
  unfold next. destruct (tl_row h) as [Hl _]. pose proof tl_vocab as Hv. unfold zlen in Hl.
  pose proof (argmax_lt (logits_of h) ltac:(lia)). lia.
Qed.
Lemma agreed_le h drafts : (agreed h drafts <= length drafts)%nat.
Proof. revert h. induction drafts as [|d ds IH]; intros h; cbn; [lia|]. destruct (_ =? _); [|lia]. specialize (IH (h ++ [d])). lia. Qed.

Lemma validate_tokens_ok ss h ts : ready ss h -> Forall (fun t => t < target_vocab) ts -> validate_tokens ss ts = Ok tt.
Proof.
  intros Hr Hts. unfold validate_tokens. rewrite (rd_vocab _ _ Hr).
  destruct (List.find _ ts) as [t|] eqn:E; [|done]. apply List.find_some in E as [Hin%list_elem_of_In Hle]. bool_prop.
  rewrite Forall_forall in Hts. specialize (Hts _ Hin). cbn in Hts. lia.
Qed.
Lemma ensure_capacity_ok ss h n : ready ss h -> 0 <= n -> zlen h + n <= max_context ss -> ensure_capacity ss n = Ok tt.
Proof.
  intros Hr Hn Hc. unfold ensure_capacity, session_position. rewrite (tl_position _ _ (rd_backend _ _ Hr)).
  pose proof (rd_context _ _ Hr). pose proof tl_capacity. unfold saturating_add. rewrite Z.min_l by lia.
  by rewrite (proj2 (Z.ltb_ge _ _)).
Qed.
Lemma final_row h front : zlen front mod target_vocab = 0 -> final_logit_row (front ++ logits_of h) target_vocab = Ok (logits_of h).
Proof.
  intros Hf. destruct (tl_row h) as [Hl _]. pose proof tl_vocab as Hv. unfold final_logit_row. rewrite zlen_app, Hl.
  rewrite (proj2 (Z.eqb_neq _ _)), (proj2 (Z.ltb_ge _ _)) by (pose proof (zlen_nonneg front); lia). cbn.
  unfold is_multiple_of. rewrite (proj2 (Z.eqb_neq target_vocab 0)) by lia.
  rewrite <- (Z.mul_1_l target_vocab) at 1. rewrite Z.mod_add, Hf by lia. cbn.
  replace (Z.to_nat (zlen front + target_vocab - target_vocab)) with (length front) by (unfold zlen; lia). by rewrite drop_app_length.
Qed.

(** Feeding tokens to a ready session. *)
Lemma session_forward_ready ss h ts l : ready ss h -> ts <> [] -> zlen h + zlen ts <= max_context ss ->
  exists b' front, session_forward (with_logits ss l) ts = (mkSession b' (h ++ ts) l (max_context ss) (vocab_size ss), Ok (front ++ logits_of (h ++ ts))) /\
    represents b' (h ++ ts) /\ zlen front mod target_vocab = 0 /\ (zlen ts = 1 -> front = []).
Proof.
  intros Hr Hts Hc. pose proof (rd_context _ _ Hr).
  destruct (tl_forward (backend ss) h ts (rd_backend _ _ Hr) Hts) as (b' & front & E & Hb & Hf & Hf1); [rewrite zlen_app; lia|].
  exists b', front. unfold session_forward. cbn [backend with_logits]. rewrite E. cbn. by rewrite (rd_history _ _ Hr).
Qed.
Lemma decode_ready ss h t : ready ss h -> t < target_vocab -> zlen h + 1 <= max_context ss ->
  exists ss', session_decode ss t = (ss', Ok (next (h ++ [t]), logits_of (h ++ [t]))) /\ ready ss' (h ++ [t]) /\
    max_context ss' = max_context ss.
Proof.
  intros Hr Ht Hc. unfold session_decode. rewrite (validate_tokens_ok ss h [t] Hr) by by repeat constructor.
  rewrite (ensure_capacity_ok ss h 1 Hr) by lia. cbv zeta.
  destruct (session_forward_ready ss h [t] None Hr) as (b' & front & -> & Hb & _ & Hf); [done | cbn; done|].
  rewrite Hf by done. cbn [app]. destruct (tl_row (h ++ [t])) as [Hl Hfin]. unfold ensure_finite_logits. rewrite Hfin.
  rewrite bool_decide_eq_false_2 by (intros E; rewrite E, zlen_nil in Hl; pose proof (next_range h); lia). cbn [orb].
  eexists. split; [reflexivity|]. split; [|done]. pose proof Hr as [R1 R2 R3 R4 R5 R6]. split; cbn; try done. by destruct h.
Qed.

(** The verdict on a batch of proposals. *)
Definition verdict h (drafts : list Z) : VerificationResult :=
  let n := agreed h drafts in
  mkVerification n (if (n =? length drafts)%nat then None else Some (next (h ++ take n drafts))).
Lemma verdict_cons h d drafts : next h = d -> verdict h (d :: drafts) =
  mkVerification (S (accepted (verdict (h ++ [d]) drafts))) (replacement (verdict (h ++ [d]) drafts)).
Proof. intros E. unfold verdict. cbn [agreed]. rewrite (proj2 (Z.eqb_eq _ _) E). cbn. by rewrite <- app_assoc. Qed.
Lemma verdict_stop h d drafts : next h <> d -> verdict h (d :: drafts) = mkVerification 0 (Some (next h)).
Proof. intros E. unfold verdict. cbn [agreed]. rewrite (proj2 (Z.eqb_neq _ _) E). cbn. by rewrite app_nil_r. Qed.

Lemma verify_loop_spec ids drafts : forall b h hidden taken, represents b h -> zlen h + zlen drafts <= capacity ->
  exists b' hidden', verify_loop b ids h (logits_of h) drafts hidden taken =
    (b', h ++ take (agreed h drafts) drafts, logits_of (h ++ take (agreed h drafts) drafts), hidden ++ hidden',
     mkVerification (taken + agreed h drafts) (replacement (verdict h drafts))) /\
  represents b' (h ++ take (agreed h drafts) drafts) /\
  zlen hidden' = Z.of_nat (agreed h drafts) * (zlen ids * hidden_dim).
Proof.
  induction drafts as [|d drafts IH]; intros b h hidden taken Hb Hc; cbn [verify_loop].
  - exists b, []. cbn [agreed]. rewrite take_0, !app_nil_r, Nat.add_0_r. split; [done|]. split; [done|]. by rewrite zlen_nil.
  - change (Z.of_nat (argmax (logits_of h))) with (next h). destruct (Z.eqb_spec (next h) d) as [E|E].
    + rewrite zlen_cons in Hc. destruct (tl_capture b h d ids Hb) as (b1 & rows & -> & Hb1 & Hrows); [rewrite zlen_app, zlen_cons, zlen_nil; pose proof (zlen_nonneg drafts); lia|].
      destruct (IH b1 (h ++ [d]) (hidden ++ rows) (S taken) Hb1) as (b' & hidden' & -> & Hb' & Hh); [rewrite zlen_app, zlen_cons, zlen_nil; lia|].
      exists b', (rows ++ hidden'). rewrite verdict_cons by done. cbn [agreed]. rewrite (proj2 (Z.eqb_eq _ _) E).
      assert (h ++ take (S (agreed (h ++ [d]) drafts)) (d :: drafts) = (h ++ [d]) ++ take (agreed (h ++ [d]) drafts) drafts) as ->
        by by rewrite <- app_assoc.
      split; [|split; [done|]].
      * rewrite <- (app_assoc hidden). cbn [replacement]. by rewrite Nat.add_succ_comm.
      * rewrite zlen_app, Hrows, Hh. lia.
    + exists b, []. rewrite verdict_stop by done. cbn [agreed]. rewrite (proj2 (Z.eqb_neq _ _) E), take_0, !app_nil_r, Nat.add_0_r. split; [done|].
      split; [done|]. by rewrite zlen_nil.
Qed.

Lemma verify_ready ss h drafts ids : ready ss h -> drafts <> [] -> Forall (fun t => t < target_vocab) drafts ->
  zlen h + zlen drafts <= max_context ss ->
  exists ss' hidden, verify_batch_capturing_layers ss drafts ids = (ss', Ok (verdict h drafts, hidden)) /\
    ready ss' (h ++ take (agreed h drafts) drafts) /\ max_context ss' = max_context ss /\
    zlen hidden = Z.of_nat (agreed h drafts) * (zlen ids * hidden_dim).
Proof.
  intros Hr Hne Hts Hc. pose proof Hr as [R1 R2 R3 R4 R5 R6]. unfold verify_batch_capturing_layers.
  assert (forall (X : Type) (a b : X), match drafts with [] => a | _ :: _ => b end = b) as Hmatch by by destruct drafts.
  rewrite Hmatch. clear Hmatch.
  rewrite (validate_tokens_ok ss h drafts Hr Hts), (ensure_capacity_ok ss h (zlen drafts) Hr (zlen_nonneg _) Hc), R3.
  destruct (tl_export _ _ R2 R6) as (s & Es & Hval & Htok & Hpos & Hins). unfold export_cache_snapshot. rewrite R1, Es.
  destruct (verify_loop_spec ids drafts (backend ss) h [] 0 R2) as (b' & hidden & -> & Hb' & Hh); [lia|]. cbn [Nat.add app].
  set (n := agreed h drafts) in *. set (h' := h ++ take n drafts) in *. pose proof (agreed_le h drafts) as Hn. fold n in Hn.
  assert (final_logit_row (logits_of h') target_vocab = Ok (logits_of h')) as Hrow by (apply (final_row h' []); done).
  assert (h' <> []) as Hh'ne by (unfold h'; by destruct h).
  cbn [accepted].
  assert (mkVerification n (replacement (verdict h drafts)) = verdict h drafts) as Ev by done. rewrite Ev.
  destruct (Nat.eqb_spec n (length drafts)) as [En|En].
  - cbn [vocab_size with_history with_backend]. rewrite R4, Hrow. eexists _, hidden. split; [reflexivity|]. split; [|done]. by split.
  - unfold install_cache_snapshot at 1. rewrite Hval. cbn [max_context with_history with_backend backend]. rewrite Hpos.
    rewrite (proj2 (Z.ltb_ge _ _)) by (pose proof (zlen_nonneg drafts); lia). destruct (Hins b') as (b2 & -> & Hb2).
    set (ss2 := with_logits _ (Some (logits_of h))).
    assert (ready ss2 h) as Hr2 by (split; cbn; done). destruct (Nat.ltb_spec 0 n) as [Hpos'|Hzero].
    + destruct (session_forward_ready ss2 h (take n drafts) (Some (logits_of h)) Hr2) as (b3 & front & Ef & Hb3 & Hfr & _).
      { destruct n; [lia|]. by destruct drafts. }
      { cbn. unfold zlen in *. rewrite length_take. lia. }
      change (with_logits ss2 (Some (logits_of h))) with ss2 in Ef. fold h' in Ef, Hb3. rewrite Ef. cbn [vocab_size].
      rewrite (rd_vocab _ _ Hr2), (final_row h' front Hfr). eexists _, hidden. split; [reflexivity|]. split; [|done]. by split.
    + assert (n = 0)%nat as Hn0 by lia. assert (h' = h) as Eh by (unfold h'; rewrite Hn0, take_0; apply app_nil_r).
      rewrite Eh in *. rewrite (rd_vocab _ _ Hr2), Hrow. eexists _, hidden. split; [reflexivity|].
      split; [|done]. by split.
Qed.

(** The Metal backend decides the same on the rows of one batched pass. *)
Lemma greedy_verification_decision_verdict h drafts :
  zlen drafts * target_vocab < 2 ^ 64 ->
  greedy_verification_decision (logits_of h)
    (mjoin (imap (fun i _ => logits_of (h ++ take (S i) drafts)) drafts)) drafts target_vocab = Ok (verdict h drafts).
Proof.
  intros Hb. pose proof (next_range h) as Hv. unfold greedy_verification_decision. destruct (tl_row h) as [Hl _].
  assert (forall ds k, zlen (mjoin (imap (fun i (_ : Z) => logits_of (h ++ take (S (k + i)) drafts)) ds)) = zlen ds * target_vocab) as Hlen.
  { induction ds as [|d ds IH]; intros k; [done|]. rewrite imap_cons, mjoin_cons, zlen_app, zlen_cons.
    rewrite (proj1 (tl_row _)). specialize (IH (S k)). rewrite <- (imap_ext (fun i _ => logits_of (h ++ take (S (S k + i)) drafts)));
      [rewrite IH; lia|]. intros i x _. cbn. by rewrite Nat.add_succ_r. }
  specialize (Hlen drafts 0%nat) as Hl0. cbn [Nat.add] in Hl0. rewrite Hl0, Hl.
  unfold saturating_mul. rewrite Z.min_l by lia. rewrite !Z.eqb_refl. cbn [negb orb]. f_equal. clear Hl0 Hb.
  assert (forall ds h0 index, decide_rows (logits_of h0) (mjoin (imap (fun i (_ : Z) => logits_of (h0 ++ take (S i) ds)) ds)) (Z.to_nat target_vocab) ds index
    = mkVerification (index + accepted (verdict h0 ds)) (replacement (verdict h0 ds))) as Hdec.
  { induction ds as [|d ds IH]; intros h0 index; cbn [decide_rows]; [by rewrite Nat.add_0_r|].
    change (Z.of_nat (argmax (logits_of h0))) with (next h0). destruct (Z.eqb_spec (next h0) d) as [E|E].
    - rewrite imap_cons, mjoin_cons. change (take 1 (d :: ds)) with [d]. pose proof (proj1 (tl_row (h0 ++ [d]))) as Hrow. unfold zlen in Hrow.
      rewrite take_app_length', drop_app_length' by (cbn; lia). rewrite verdict_cons by done. cbn [accepted replacement].
      rewrite <- Nat.add_succ_comm, <- IH. f_equal. f_equal. apply imap_ext. intros i x _. cbn. by rewrite <- app_assoc.
    - rewrite verdict_stop by done. by rewrite Nat.add_0_r. }
  rewrite Hdec. done.
Qed.
End Laws.
