(* ===== verification/Speculative.v ===== *)
(** * DFlash speculative decoding: the greedy loop and its acceptance gate.

    Models [crates/muser-engine/src/dflash/hidden.rs] and the target-exact greedy generation of
    [crates/muser-engine/src/dflash/spec.rs]: [generate_from_seed] with its stop set, draft
    budget, verification rounds, target-only fallback and the adaptive gate of
    [DFlashSpecStats].  Timings and the cycle trace are left out of the statistics; the
    assistant's block forward is a parameter, of which nothing is assumed; the environment's
    switches and the commit callback are parameters.  A failed assertion is [RPanic]. *)
From S2P Require Import Prelude Resident EngineSession SpecSession.

(** ** hidden.rs: captured target rows, visible once committed. *)
Record DFlashHiddenCache : Type := mkHidden {
  target_layer_ids : list Z;
  h_hidden_dim : nat;
  data : list Z;
  n_committed : nat;
  capture_base : nat;
  capture_tokens : nat;
}.
Definition token_width (c : DFlashHiddenCache) : nat := length (target_layer_ids c) * h_hidden_dim c.
(** [data.resize(n, 0.0)] to at least [n], then zeros from [start] to [n]. *)
Definition begin_capture (tokens : nat) (c : DFlashHiddenCache) : DFlashHiddenCache :=
  let base := n_committed c in
  let needed := ((base + tokens) * token_width c)%nat in
  let grown := data c ++ replicate (needed - length (data c)) 0 in
  let start := (base * token_width c)%nat in
  mkHidden (target_layer_ids c) (h_hidden_dim c) (take start grown ++ replicate (needed - start) 0 ++ drop needed grown)
    base base tokens.
Definition write_token_major (rows : list Z) (tokens : nat) (c : DFlashHiddenCache) : option DFlashHiddenCache :=
  if (length rows =? tokens * token_width c)%nat && (tokens <=? capture_tokens c)%nat &&
     (capture_base c * token_width c + length rows <=? length (data c))%nat then
    let start := (capture_base c * token_width c)%nat in
    Some (mkHidden (target_layer_ids c) (h_hidden_dim c)
      (take start (data c) ++ rows ++ drop (start + length rows) (data c)) (n_committed c) (capture_base c) (capture_tokens c))
  else None.
Definition hidden_commit (tokens : nat) (c : DFlashHiddenCache) : option DFlashHiddenCache :=
  if (tokens <=? capture_tokens c)%nat then
    Some (mkHidden (target_layer_ids c) (h_hidden_dim c) (data c) (capture_base c + tokens) (capture_base c) (capture_tokens c))
  else None.
Definition rollback_capture (c : DFlashHiddenCache) : DFlashHiddenCache :=
  mkHidden (target_layer_ids c) (h_hidden_dim c) (data c) (capture_base c) (capture_base c) 0.
Definition hidden_reset (c : DFlashHiddenCache) : DFlashHiddenCache :=
  mkHidden (target_layer_ids c) (h_hidden_dim c) (data c) 0 0 0.
Definition read_current_batch (c : DFlashHiddenCache) : option (list Z * nat) :=
  let n := (n_committed c - capture_base c)%nat in
  if (n =? 0)%nat then Some ([], 0%nat)
  else
    let start := (capture_base c * token_width c)%nat in
    if (start + n * token_width c <=? length (data c))%nat
    then Some (take (n * token_width c) (drop start (data c)), n) else None.
Definition retain_current_suffix (rows : nat) (c : DFlashHiddenCache) : option DFlashHiddenCache :=
  if (rows <=? n_committed c)%nat
  then Some (mkHidden (target_layer_ids c) (h_hidden_dim c) (data c) (n_committed c) (n_committed c - rows) rows) else None.

(** ** Statistics and the acceptance gate. *)
Record DFlashSpecStats : Type := mkStats {
  rounds : Z;
  drafted_tokens : Z;
  accepted_draft_tokens : Z;
  draft_token_trace : list Z;
  accepted_prefix_trace : list Z;
  accepted_prefix_counts : list Z;
  drafted_counts : list Z;
  window_floor : nat;
  requalify_at_tokens : Z;
  disable_events : Z;
  committed_tokens : Z;
  target_only_fallback_tokens : Z;
  speculation_disabled : bool;
  speculation_disabled_at_tokens : option Z;
  last_accepted_run : Z;
  target_batches : Z;
}.
Definition stats_default : DFlashSpecStats := mkStats 0 0 0 [] [] [] [] 0 0 0 0 0 false None 0 0.

Definition DISABLE_WINDOW_ROUNDS : nat := 8.
Definition DISABLE_WARMUP_ROUNDS : Z := 2.
Definition DISABLE_MIN_WINDOW_DRAFTS : Z := 32.
Definition REQUALIFY_BASE_TOKENS : Z := 64.
Definition REQUALIFY_MAX_SHIFT : Z := 3.
Definition REQUALIFY_MAX_TOKENS : Z := 512.

Definition sum_Z (l : list Z) : Z := foldr Z.add 0 l.
(** The window's accepted and drafted proposals, or [None] while it holds too few. *)
Definition window_acceptance (s : DFlashSpecStats) : option (Z * Z) :=
  let len := length (accepted_prefix_counts s) in
  let start := Nat.max (len - DISABLE_WINDOW_ROUNDS) (window_floor s) in
  if (len <=? start)%nat then None
  else
    let drafted := sum_Z (drop start (drafted_counts s)) in
    if drafted <? DISABLE_MIN_WINDOW_DRAFTS then None
    else Some (sum_Z (drop start (accepted_prefix_counts s)), drafted).
(** [accepted as f64 / drafted as f64 < 0.25]: exact for counts below 2^53. *)
Definition should_disable_speculation (s : DFlashSpecStats) : bool :=
  if rounds s <=? DISABLE_WARMUP_ROUNDS then false
  else match window_acceptance s with
       | Some (accepted, drafted) => 4 * accepted <? drafted
       | None => false
       end.
Definition update_speculation_gate (gate_enabled : bool) (s : DFlashSpecStats) : DFlashSpecStats :=
  if negb gate_enabled then s
  else if speculation_disabled s || negb (should_disable_speculation s) then s
  else
    let events := disable_events s + 1 in
    let shift := Z.min (events - 1) REQUALIFY_MAX_SHIFT in
    let cooldown := Z.min (Z.shiftl REQUALIFY_BASE_TOKENS shift) REQUALIFY_MAX_TOKENS in
    mkStats (rounds s) (drafted_tokens s) (accepted_draft_tokens s) (draft_token_trace s) (accepted_prefix_trace s)
      (accepted_prefix_counts s) (drafted_counts s) (window_floor s) (committed_tokens s + cooldown) events (committed_tokens s)
      (target_only_fallback_tokens s) true
      (match speculation_disabled_at_tokens s with None => Some (committed_tokens s) | at_ => at_ end)
      (last_accepted_run s) (target_batches s).
Definition fallback_round (s : DFlashSpecStats) : bool * DFlashSpecStats :=
  if negb (speculation_disabled s) then (false, s)
  else if requalify_at_tokens s <=? committed_tokens s then
    (false, mkStats (rounds s) (drafted_tokens s) (accepted_draft_tokens s) (draft_token_trace s) (accepted_prefix_trace s)
      (accepted_prefix_counts s) (drafted_counts s) (length (accepted_prefix_counts s)) (requalify_at_tokens s) (disable_events s)
      (committed_tokens s) (target_only_fallback_tokens s) false (speculation_disabled_at_tokens s) (last_accepted_run s) (target_batches s))
  else (true, s).
(** [stats.committed_tokens += n], and the fallback counter by [k]. *)
Definition count_committed (n k : Z) (s : DFlashSpecStats) : DFlashSpecStats :=
  mkStats (rounds s) (drafted_tokens s) (accepted_draft_tokens s) (draft_token_trace s) (accepted_prefix_trace s)
    (accepted_prefix_counts s) (drafted_counts s) (window_floor s) (requalify_at_tokens s) (disable_events s)
    (committed_tokens s + n) (target_only_fallback_tokens s + k) (speculation_disabled s) (speculation_disabled_at_tokens s)
    (last_accepted_run s) (target_batches s).
(** The counters of one verification round. *)
Definition count_round (candidates : list Z) (drafted accepted : Z) (s : DFlashSpecStats) : DFlashSpecStats :=
  let accepted_drafts := saturating_sub accepted 1 in
  mkStats (rounds s + 1) (drafted_tokens s + drafted) (accepted_draft_tokens s + accepted_drafts)
    (draft_token_trace s ++ drop 1 candidates) (accepted_prefix_trace s ++ take (Z.to_nat accepted_drafts) (drop 1 candidates))
    (accepted_prefix_counts s ++ [accepted_drafts]) (drafted_counts s ++ [drafted]) (window_floor s) (requalify_at_tokens s)
    (disable_events s) (committed_tokens s + accepted) (target_only_fallback_tokens s) (speculation_disabled s)
    (speculation_disabled_at_tokens s) accepted_drafts (target_batches s + 1).
Definition set_committed (n : Z) (s : DFlashSpecStats) : DFlashSpecStats := count_committed (n - committed_tokens s) 0 s.

(** ** The stop set. *)
Record StopSet : Type := mkStops { eos : Z; extra : list Z }.
Definition stop_contains (stops : StopSet) (token : Z) : bool := (token =? eos stops) || existsb (Z.eqb token) (extra stops).
(** The prefix up to and including the first stop token, if there is one. *)
Fixpoint cut_at_stop (stops : StopSet) (tokens : list Z) : option (list Z) :=
  match tokens with
  | [] => None
  | t :: tokens => if stop_contains stops t then Some [t] else cons t <$> cut_at_stop stops tokens
  end.
Definition truncate_candidates (stops : StopSet) (candidates : list Z) : list Z := default candidates (cut_at_stop stops candidates).

(** ** Generation. *)
Inductive DFlashRunError : Type :=
| REngine (e : EngineError)
| RAssistant
| InvalidVerifyLength (n : Z)
| Invariant (why : string)
| RCallback
| RPanic.

(** [MUSER_DFLASH_PRE_DRAFT_IDLE_MS]: unset, not UTF-8, or a text with the u64 it parses to. *)
Inductive IdleVar : Type := NotPresent | NotUnicode | IdleValue (parsed : option Z).
Record SpecConfig : Type := mkConfig {
  gate_enabled : bool;
  trace_cycles : bool;
  idle_var : IdleVar;
  verify_length : Z;
  stop_set : StopSet;
}.
Definition check_idle (cfg : SpecConfig) : result DFlashRunError unit :=
  match idle_var cfg with
  | NotPresent => Ok tt
  | NotUnicode => Err (Invariant "MUSER_DFLASH_PRE_DRAFT_IDLE_MS is not UTF-8")
  | IdleValue parsed =>
      if negb (trace_cycles cfg) then Err (Invariant "MUSER_DFLASH_PRE_DRAFT_IDLE_MS requires MUSER_DFLASH_CYCLE_TRACE=1")
      else match parsed with
           | None => Err (Invariant "MUSER_DFLASH_PRE_DRAFT_IDLE_MS is not an integer")
           | Some ms => if 1000 <? ms then Err (Invariant "MUSER_DFLASH_PRE_DRAFT_IDLE_MS exceeds 1000") else Ok tt
           end
  end.

Section Generate.
Context {B : Type} `{Target B}.
(** The assistant: its state, and the greedy tokens of one block with the number of drafts. *)
Context {D : Type} (block_top : D -> Z -> list Z -> nat -> D * result DFlashRunError (list Z * Z)).
(** The caller's commit callback, given everything committed so far. *)
Context (on_commit : list (list Z) -> result DFlashRunError unit).
Context (cfg : SpecConfig).

Definition draft_greedy_for_session (d : D) (seed : Z) (target_hidden : list Z) (n_ctx : nat) : D * result DFlashRunError (list Z) :=
  if negb ((verify_length cfg =? 3) || (verify_length cfg =? 7) || (verify_length cfg =? 15))
  then (d, Err (InvalidVerifyLength (verify_length cfg)))
  else
    let (d, res) := block_top d seed target_hidden n_ctx in
    (d, let? (top, n_draft_tokens) := res in
        let last := Z.to_nat (Z.min (verify_length cfg) n_draft_tokens) in
        if (S last <=? length top)%nat then Ok (take last (drop 1 top)) else Err RPanic).

Record GenState : Type := mkGen {
  gs_session : Session B;
  gs_assistant : D;
  gs_hidden : DFlashHiddenCache;
  gs_seed : Z;
  gs_generated : list Z;
  gs_stats : DFlashSpecStats;
  gs_commits : list (list Z);
}.
Inductive Turn : Type := Continue | Break | Fail (e : DFlashRunError).

(** [on_commit(tokens)?], then what follows. *)
Definition committing (st : GenState) (tokens : list Z) (k : GenState -> GenState * Turn) : GenState * Turn :=
  let commits := gs_commits st ++ [tokens] in
  let st := mkGen (gs_session st) (gs_assistant st) (gs_hidden st) (gs_seed st) (gs_generated st) (gs_stats st) commits in
  match on_commit commits with
  | Err e => (st, Fail e)
  | Ok _ => k st
  end.

(** A turn that decodes the seed alone: [k] fallback tokens, ending the loop if [stop]. *)
Definition decode_turn (st : GenState) (max_new_tokens : nat) (k : Z) (stop : bool) : GenState * Turn :=
  let (ss, res) := session_decode (gs_session st) (gs_seed st) in
  let at_ss ss := mkGen ss (gs_assistant st) (gs_hidden st) (gs_seed st) (gs_generated st) (gs_stats st) (gs_commits st) in
  match res with
  | Err e => (at_ss ss, Fail (REngine e))
  | Ok (next_token, _) =>
      let st := mkGen ss (gs_assistant st) (gs_hidden st) (gs_seed st) (gs_generated st ++ [gs_seed st])
                  (count_committed 1 k (gs_stats st)) (gs_commits st) in
      committing st [gs_seed st] (fun st =>
        if stop || (length (gs_generated st) =? max_new_tokens)%nat || stop_contains (stop_set cfg) (gs_seed st) then (st, Break)
        else (mkGen (gs_session st) (gs_assistant st) (gs_hidden st) next_token (gs_generated st) (gs_stats st) (gs_commits st), Continue))
  end.

(** The rest of a speculative turn, on the verifier's answer. *)
Definition commit_turn (st : GenState) (candidates drafts : list Z) (verification : VerificationResult) (hidden : list Z)
    : GenState * Turn :=
  match write_token_major hidden (accepted verification) (gs_hidden st) ≫= hidden_commit (accepted verification) with
  | None => (st, Fail RPanic)
  | Some cache =>
      let committed := take (accepted verification) candidates in
      let st := mkGen (gs_session st) (gs_assistant st) cache (gs_seed st) (gs_generated st ++ committed)
                  (count_round candidates (zlen drafts) (Z.of_nat (accepted verification)) (gs_stats st)) (gs_commits st) in
      committing st committed (fun st =>
        match cut_at_stop (stop_set cfg) (gs_generated st) with
        | Some generated =>
            (mkGen (gs_session st) (gs_assistant st) (gs_hidden st) (gs_seed st) generated
               (set_committed (zlen generated) (gs_stats st)) (gs_commits st), Break)
        | None =>
            match greedy_next_token (gs_session st) with
            | Err e => (st, Fail (REngine e))
            | Ok next_token =>
                let st := mkGen (gs_session st) (gs_assistant st) (gs_hidden st) (default next_token (replacement verification))
                            (gs_generated st) (gs_stats st) (gs_commits st) in
                if (accepted verification =? 0)%nat then (st, Fail (Invariant "target rejected its own greedy seed"))
                else (mkGen (gs_session st) (gs_assistant st) (gs_hidden st) (gs_seed st) (gs_generated st)
                        (update_speculation_gate (gate_enabled cfg) (gs_stats st)) (gs_commits st), Continue)
            end
        end)
  end.
Definition speculative_turn (st : GenState) (max_new_tokens : nat) : GenState * Turn :=
  match read_current_batch (gs_hidden st) with
  | None => (st, Fail RPanic)
  | Some (context, n_ctx) =>
      let room := (max_new_tokens - length (gs_generated st))%nat in
      let draft_budget := Nat.min (Z.to_nat (verify_length cfg)) (room - 1) in
      let (d, res) := if (draft_budget =? 0)%nat then (gs_assistant st, Ok [])
                      else draft_greedy_for_session (gs_assistant st) (gs_seed st) context n_ctx in
      let with_assistant hidden := mkGen (gs_session st) d hidden (gs_seed st) (gs_generated st) (gs_stats st) (gs_commits st) in
      match res with
      | Err e => (with_assistant (gs_hidden st), Fail e)
      | Ok drafts =>
          let drafts := take draft_budget drafts in
          let candidates := truncate_candidates (stop_set cfg) (gs_seed st :: drafts) in
          let hidden_cache := begin_capture (length candidates) (gs_hidden st) in
          let (ss, res) := verify_batch_capturing_layers (gs_session st) candidates (target_layer_ids hidden_cache) in
          let st := mkGen ss d hidden_cache (gs_seed st) (gs_generated st) (gs_stats st) (gs_commits st) in
          match res with
          | Err e => (st, Fail (REngine e))
          | Ok (verification, hidden) => commit_turn st candidates drafts verification hidden
          end
      end
  end.
Definition gen_turn (st : GenState) (max_new_tokens : nat) : GenState * Turn :=
  if stop_contains (stop_set cfg) (gs_seed st) then decode_turn st max_new_tokens 0 true
  else
    let (fallback, stats) := fallback_round (gs_stats st) in
    let st := mkGen (gs_session st) (gs_assistant st) (gs_hidden st) (gs_seed st) (gs_generated st) stats (gs_commits st) in
    if fallback then decode_turn st max_new_tokens 1 false else speculative_turn st max_new_tokens.

(** [while generated.len() < max_new_tokens]: every turn commits a token or ends the loop. *)
Fixpoint gen_loop (fuel : nat) (st : GenState) (max_new_tokens : nat) : GenState * result DFlashRunError unit :=
  if (length (gs_generated st) <? max_new_tokens)%nat then
    match fuel with
    | O => (st, Err RPanic)
    | S fuel =>
        let (st, turn) := gen_turn st max_new_tokens in
        match turn with
        | Continue => gen_loop fuel st max_new_tokens
        | Break => (st, Ok tt)
        | Fail e => (st, Err e)
        end
    end
  else (st, Ok tt).
Definition generate_from_seed (ss : Session B) (d : D) (hidden_cache : DFlashHiddenCache) (seed : Z) (max_new_tokens : nat)
    : GenState * result DFlashRunError (list Z * DFlashSpecStats) :=
  let st := mkGen ss d hidden_cache seed [] stats_default [] in
  match check_idle cfg with
  | Err e => (st, Err e)
  | Ok _ =>
      let (st, res) := gen_loop max_new_tokens st max_new_tokens in
      (st, let? _ := res in Ok (take max_new_tokens (gs_generated st), gs_stats st))
  end.
End Generate.
