(* ===== verification/SpecProofs.v ===== *)
(** * Speculative greedy decoding is greedy decoding.

    Whatever the assistant proposes, every token the loop commits is the target's own greedy
    choice for the history before it, and the session, the returned tokens and the committed
    stream stay one prefix. *)
From S2P Require Import Prelude Resident EngineSession SpecSession Speculative.

(** ** Stop sets. *)
Section Stops.
Context (stops : StopSet).
Definition unstopped (l : list Z) : Prop := Forall (fun t => stop_contains stops t = false) l.
(** [l] ends with its only stop token. *)
Definition stopped (l : list Z) : Prop := exists pre t, l = pre ++ [t] /\ unstopped pre /\ stop_contains stops t = true.

Lemma cut_at_stop_spec l :
  match cut_at_stop stops l with
  | None => unstopped l
  | Some l' => stopped l' /\ l' `prefix_of` l
  end.
Proof.
  induction l as [|t l IH]; cbn [cut_at_stop]; [constructor|]. destruct (stop_contains stops t) eqn:E.
  - split; [exists [], t; split; [done|]; split; [constructor | done] | exists l; done].
  - destruct (cut_at_stop stops l) as [l'|]; cbn [fmap option_fmap option_map]; [|by constructor].
    destruct IH as [(pre & t' & -> & Hpre & Ht') [k ->]]. split; [|by exists k].
    exists (t :: pre), t'. split; [done|]. split; [by constructor | done].
Qed.
Lemma cut_unstopped l : unstopped l -> cut_at_stop stops l = None.
Proof. induction 1 as [|t l Ht Hl IH]; cbn; [done|]. by rewrite Ht, IH. Qed.
Lemma cut_stopped l : stopped l -> cut_at_stop stops l = Some l.
Proof.
  intros (pre & t & -> & Hpre & Ht). induction Hpre as [|x pre Hx Hpre IH]; cbn; [by rewrite Ht|]. by rewrite Hx, IH.
Qed.
Lemma unstopped_app l k : unstopped (l ++ k) <-> unstopped l /\ unstopped k.
Proof. apply Forall_app. Qed.
Lemma stopped_app l k : unstopped l -> stopped k -> stopped (l ++ k).
Proof.
  intros Hl (pre & t & -> & Hpre & Ht). exists (l ++ pre), t. rewrite app_assoc. split; [done|].
  split; [by apply unstopped_app | done].
Qed.
(** What is submitted to the verifier ends at its first stop token, if it has one. *)
Lemma truncate_candidates_spec l : let c := truncate_candidates stops l in
  c `prefix_of` l /\ (unstopped c \/ stopped c) /\ (l <> [] -> c <> []).
Proof.
  unfold truncate_candidates. pose proof (cut_at_stop_spec l) as Hs. destruct (cut_at_stop stops l) as [l'|]; cbn.
  - destruct Hs as [Hs Hp]. split; [done|]. split; [by right|]. intros _ ->. by destruct Hs as ([|] & ? & ? & _).
  - split; [done|]. by split; [left|].
Qed.
Lemma stopped_take l n : stopped l -> (n < length l)%nat -> unstopped (take n l).
Proof.
  intros (pre & t & -> & Hpre & Ht) Hn. rewrite length_app in Hn. cbn in Hn. rewrite take_app_le by lia. by apply Forall_take.
Qed.
End Stops.

(** ** The hidden cache. *)
Record hidden_ok (width : nat) (c : DFlashHiddenCache) : Prop := {
  ho_width : token_width c = width;
  ho_data : (n_committed c * width <= length (data c))%nat;
  ho_base : (capture_base c <= n_committed c)%nat;
}.
Lemma begin_capture_ok width n c : hidden_ok width c ->
  token_width (begin_capture n c) = width /\ n_committed (begin_capture n c) = n_committed c /\
  capture_base (begin_capture n c) = n_committed c /\ capture_tokens (begin_capture n c) = n /\
  ((n_committed c + n) * width <= length (data (begin_capture n c)))%nat /\
  target_layer_ids (begin_capture n c) = target_layer_ids c /\ h_hidden_dim (begin_capture n c) = h_hidden_dim c.
Proof.
  intros [Hw Hd Hb]. unfold begin_capture. cbn. rewrite Hw. split; [exact Hw|]. do 3 (split; [done|]). split; [|done].
  rewrite !length_app, length_replicate, length_take, length_app, length_replicate. lia.
Qed.
(** Rows written by a round become visible exactly when it commits them. *)
Lemma capture_commit width n k rows c : hidden_ok width c -> (k <= n)%nat -> length rows = (k * width)%nat ->
  exists c', write_token_major rows k (begin_capture n c) ≫= hidden_commit k = Some c' /\ hidden_ok width c' /\
    target_layer_ids c' = target_layer_ids c /\ h_hidden_dim c' = h_hidden_dim c /\
    n_committed c' = (n_committed c + k)%nat /\ ((0 < k)%nat -> read_current_batch c' = Some (rows, k)) /\
    take (n_committed c * width) (data c') = take (n_committed c * width) (data c).
Proof.
  intros Hc Hk Hrows. destruct (begin_capture_ok width n c Hc) as (Hw & Hn & Hb & Ht & Hd & Hi & Hh).
  assert (take (n_committed c * width) (data (begin_capture n c)) = take (n_committed c * width) (data c)) as Hold.
  { destruct Hc as [Hw0 Hd0 _]. unfold begin_capture. cbn. rewrite Hw0.
    rewrite take_app_le by (rewrite length_take, length_app, length_replicate; lia).
    rewrite take_take, Nat.min_id. by rewrite take_app_le. }
  set (c1 := begin_capture n c) in *. clearbody c1. unfold write_token_major. rewrite Hw, Hb, Ht, Hrows, Nat.eqb_refl.
  rewrite (proj2 (Nat.leb_le _ _) Hk), (proj2 (Nat.leb_le _ _)) by (nia || lia). cbn [andb mbind option_bind].
  unfold hidden_commit. cbn [capture_tokens]. rewrite (proj2 (Nat.leb_le _ _) Hk). eexists. split; [reflexivity|]. cbn.
  set (start := (n_committed c * width)%nat) in *.
  assert (start + k * width <= length (data c1))%nat as Hlen by (unfold start; nia).
  split; [|split; [done|]; split; [done|]; split; [done|]; split].
  - split; cbn; [by unfold token_width in *; cbn| |lia]. rewrite !length_app, length_take, length_drop, Hrows, Nat.mul_add_distr_r. fold start. lia.
  - intros Hpos. unfold read_current_batch, token_width. cbn. fold (token_width c1). rewrite Hw.
    replace (n_committed c + k - n_committed c)%nat with k by lia. rewrite (proj2 (Nat.eqb_neq _ _)) by lia. fold start.
    rewrite (proj2 (Nat.leb_le _ _)) by (rewrite !length_app, length_take, length_drop, Hrows; lia).
    rewrite drop_app_length' by (rewrite length_take; lia). by rewrite take_app_length' by done.
  - by rewrite take_app_le, take_take, Nat.min_id by (rewrite length_take; lia).
Qed.

(** ** The reference: the target decoding alone. *)
Section Greedy.
Context {B : Type} `{TargetLaws B}.
Context (stops : StopSet).
Implicit Types (h : list Z).

(** Take the greedy token until a stop token or the limit. *)
Fixpoint greedy_run (n : nat) h : list Z :=
  match n with
  | O => []
  | S n => let t := next h in t :: (if stop_contains stops t then [] else greedy_run n (h ++ [t]))
  end.

(** A block the target agrees with, and the run. *)
Lemma run_unstopped a : forall h n, agreed h a = length a -> unstopped stops a -> (length a <= n)%nat ->
  greedy_run n h = a ++ greedy_run (n - length a) (h ++ a).
Proof.
  induction a as [|t a IH]; intros h n Ha Hu Hn; [by rewrite app_nil_r, Nat.sub_0_r|]. cbn in Ha, Hn.
  destruct (Z.eqb_spec (next h) t) as [<-|]; [|done]. apply Forall_cons in Hu as [Ht Hu]. destruct n as [|n]; [lia|]. cbn. rewrite Ht.
  f_equal. rewrite (IH (h ++ [next h]) n) by (lia || done). by rewrite <- app_assoc.
Qed.
Lemma run_stopped a h n : agreed h a = length a -> stopped stops a -> (length a <= n)%nat -> greedy_run n h = a.
Proof.
  intros Ha (pre & t & -> & Hpre & Ht) Hn. rewrite length_app in *. cbn in Ha, Hn.
  assert (agreed h pre = length pre /\ next (h ++ pre) = t) as [Hp Et].
  { clear -Ha. revert h Ha. induction pre as [|x pre IH]; intros h Ha; cbn in *.
    - rewrite app_nil_r. by destruct (Z.eqb_spec (next h) t).
    - destruct (next h =? x); [|done]. destruct (IH (h ++ [x])) as [-> E]; [lia|]. split; [done|]. by rewrite <- app_assoc in E. }
  rewrite (run_unstopped pre) by (lia || done). f_equal. destruct (n - length pre)%nat as [|m] eqn:Em; [lia|]. cbn. by rewrite Et, Ht.
Qed.
Lemma agreed_take h ds k : (k <= agreed h ds)%nat -> agreed h (take k ds) = k.
Proof.
  revert h k. induction ds as [|d ds IH]; intros h [|k] Hk; cbn in *; try (rewrite ?take_nil; cbn; lia).
  destruct (next h =? d); [|lia]. rewrite IH by lia. done.
Qed.
End Greedy.

(** ** The loop. *)
Section Loop.
Context {B : Type} `{TargetLaws B}.
Context {D : Type} (block_top : D -> Z -> list Z -> nat -> D * result DFlashRunError (list Z * Z)).
Context (on_commit : list (list Z) -> result DFlashRunError unit) (cfg : SpecConfig).
Context (h0 : list Z) (max_new : nat).
Abbreviation stops := (stop_set cfg).
Abbreviation run := (greedy_run stops max_new h0).
Implicit Types (st : GenState (B := B) (D := D)).

(** The session has consumed exactly the prompt and the committed tokens. *)
Definition session_at st : Prop :=
  ready (gs_session st) (h0 ++ mjoin (gs_commits st)) /\ zlen h0 + Z.of_nat max_new <= max_context (gs_session st).
Record going st : Prop := {
  gg_session : session_at st;
  gg_generated : gs_generated st = mjoin (gs_commits st);
  gg_room : (length (gs_generated st) <= max_new)%nat;
  gg_run : run = gs_generated st ++ greedy_run stops (max_new - length (gs_generated st)) (h0 ++ gs_generated st);
  gg_unstopped : unstopped stops (gs_generated st);
  gg_seed : gs_seed st = next (h0 ++ gs_generated st);
  gg_hidden : exists width, hidden_ok width (gs_hidden st) /\ Z.of_nat (h_hidden_dim (gs_hidden st)) = hidden_dim;
  gg_committed : committed_tokens (gs_stats st) = zlen (gs_generated st);
}.
Record finished st : Prop := {
  fi_session : session_at st;
  fi_generated : gs_generated st = mjoin (gs_commits st);
  fi_run : gs_generated st = run;
  fi_committed : committed_tokens (gs_stats st) = zlen (gs_generated st);
}.
(** After an error: what was committed is still the target's own. *)
Definition interrupted st : Prop := session_at st /\ mjoin (gs_commits st) `prefix_of` run.

(** The assistant and the callback do their part. *)
Record cooperative : Prop := {
  co_length : verify_length cfg ∈ [3; 7; 15];
  co_block d seed context n : exists d' top n_draft, block_top d seed context n = (d', Ok (top, n_draft)) /\
    Forall (fun t => t < target_vocab) top /\ (Z.to_nat (Z.min (verify_length cfg) n_draft) < length top)%nat;
  co_callback c : on_commit c = Ok tt;
}.
Definition turn_post (st' : GenState (B := B) (D := D)) (n : nat) (turn : Turn) : Prop :=
  match turn with
  | Continue => going st' /\ (n < length (gs_generated st'))%nat
  | Break => finished st'
  | Fail e => interrupted st' /\ ~ cooperative
  end.

Lemma going_interrupted st : going st -> interrupted st.
Proof. intros [G1 G2 G3 G4 G5 G6 G7 G8]. split; [done|]. rewrite <- G2, G4. by apply prefix_app_r. Qed.

(** Committing a block of the run, and what follows it. *)
Lemma committing_post st tokens k n :
  session_at (mkGen (gs_session st) (gs_assistant st) (gs_hidden st) (gs_seed st) (gs_generated st) (gs_stats st) (gs_commits st ++ [tokens])) ->
  mjoin (gs_commits st ++ [tokens]) `prefix_of` run ->
  (let st' := mkGen (gs_session st) (gs_assistant st) (gs_hidden st) (gs_seed st) (gs_generated st) (gs_stats st) (gs_commits st ++ [tokens]) in
   let '(st2, turn) := k st' in turn_post st2 n turn) ->
  let '(st', turn) := committing on_commit st tokens k in turn_post st' n turn.
Proof.
  intros Hs Hp Hk. unfold committing. destruct (on_commit _) as [[]|e] eqn:Ec; [exact Hk|]. split; [by split|].
  intros Hco. by rewrite (co_callback Hco) in Ec.
Qed.

Lemma mjoin_snoc (cs : list (list Z)) c : mjoin (cs ++ [c]) = mjoin cs ++ c.
Proof. rewrite join_app. cbn. by rewrite app_nil_r. Qed.
Lemma run_length n h : (length (greedy_run stops n h) <= n)%nat.
Proof. revert h. induction n as [|n IH]; intros h; cbn; [lia|]. destruct (stop_contains _ _); cbn; [lia|]. specialize (IH (h ++ [next h])). lia. Qed.

Lemma decode_turn_post st k stop : going st -> (length (gs_generated st) < max_new)%nat ->
  (stop = true -> stop_contains stops (gs_seed st) = true) ->
  let '(st', turn) := decode_turn on_commit cfg st max_new k stop in turn_post st' (length (gs_generated st)) turn.
Proof.
  intros Hg Hlt Hstop. pose proof Hg as [[Hr Hctx] G2 G3 G4 G5 G6 G7 G8]. rewrite <- G2 in Hr. set (h := h0 ++ gs_generated st) in *.
  set (m := (max_new - length (gs_generated st) - 1)%nat).
  assert (run = (gs_generated st ++ [gs_seed st]) ++ (if stop_contains stops (gs_seed st) then [] else greedy_run stops m (h ++ [gs_seed st]))) as Hrun.
  { rewrite G4. replace (max_new - length (gs_generated st))%nat with (S m) by lia. cbn [greedy_run]. rewrite <- G6. by rewrite <- app_assoc. }
  unfold decode_turn. assert (zlen h + 1 <= max_context (gs_session st)) as Hcap by (unfold h, zlen in *; rewrite length_app; lia).
  destruct (decode_ready (gs_session st) h (gs_seed st) Hr) as (ss' & -> & Hr' & Hm); [rewrite G6; apply next_range | done|].
  assert (mjoin (gs_commits st ++ [[gs_seed st]]) = gs_generated st ++ [gs_seed st]) as Ej by by rewrite mjoin_snoc, <- G2.
  assert (session_at (mkGen ss' (gs_assistant st) (gs_hidden st) (gs_seed st) (gs_generated st ++ [gs_seed st])
    (count_committed 1 k (gs_stats st)) (gs_commits st ++ [[gs_seed st]]))) as Hs.
  { split; cbn; [|by rewrite Hm]. rewrite Ej, app_assoc. exact Hr'. }
  apply committing_post; [exact Hs | cbn [gs_commits gs_seed]; rewrite Ej, Hrun; by apply prefix_app_r|].
  cbn [gs_session gs_assistant gs_hidden gs_seed gs_generated gs_stats gs_commits].
  destruct (stop || _ || _) eqn:Eb.
  - split; cbn; [exact Hs | done | | by rewrite G8, zlen_app].
    destruct (stop_contains stops (gs_seed st)) eqn:Est; [by rewrite Hrun, app_nil_r|].
    destruct stop; [by specialize (Hstop eq_refl)|]. rewrite orb_false_r in Eb. cbn in Eb. apply Nat.eqb_eq in Eb.
    rewrite length_app in Eb. cbn in Eb. assert (m = 0%nat) as Em by lia. rewrite Hrun, Em. cbn. by rewrite app_nil_r.
  - apply orb_false_iff in Eb as [_ Est]. rewrite Est in Hrun. split; [|cbn; rewrite length_app; cbn; lia].
    split; cbn; [exact Hs | done | rewrite length_app; cbn; lia | | | | done | by rewrite G8, zlen_app].
    + rewrite app_assoc, Hrun. fold h. f_equal. f_equal. rewrite length_app. cbn. unfold m. lia.
    + apply unstopped_app. split; [done|]. by apply Forall_singleton.
    + by rewrite app_assoc.
Qed.

Lemma gate_committed s : committed_tokens (update_speculation_gate (gate_enabled cfg) s) = committed_tokens s.
Proof. unfold update_speculation_gate. destruct (negb _); [done|]. by destruct (_ || _). Qed.
Lemma fallback_committed s : committed_tokens (fallback_round s).2 = committed_tokens s.
Proof. unfold fallback_round. destruct (negb _); [done|]. by destruct (_ <=? _). Qed.

(** The part of a round after the verifier's answer. *)
Lemma commit_turn_post st ss' d candidates drafts hidden :
  going st -> let h := h0 ++ gs_generated st in let k := agreed h candidates in
  ready ss' (h ++ take k candidates) -> max_context ss' = max_context (gs_session st) ->
  length hidden = (k * token_width (gs_hidden st))%nat ->
  candidates <> [] -> head candidates = Some (gs_seed st) -> unstopped stops candidates \/ stopped stops candidates ->
  (length candidates <= max_new - length (gs_generated st))%nat ->
  let '(st', turn) := commit_turn on_commit cfg
    (mkGen ss' d (begin_capture (length candidates) (gs_hidden st)) (gs_seed st) (gs_generated st) (gs_stats st) (gs_commits st))
    candidates drafts (verdict h candidates) hidden in turn_post st' (length (gs_generated st)) turn.
Proof.
  intros Hg h k Hr Hm Hhid Hne Hhead Hstop Hlen. pose proof Hg as [[_ Hctx] G2 G3 G4 G5 G6 (width & Hw & Hdim) G8].
  fold h in G4. pose proof (agreed_le h candidates) as Hk. fold k in Hk.
  assert (0 < k)%nat as Hpos.
  { unfold k. destruct candidates as [|c cs]; [done|]. injection Hhead as ->. cbn. rewrite G6. fold h. rewrite Z.eqb_refl. lia. }
  rewrite (ho_width _ _ Hw) in Hhid.
  destruct (capture_commit width (length candidates) k hidden (gs_hidden st) Hw Hk Hhid) as (cache & Ecap & Hcache & Hids & Hdim' & _).
  unfold commit_turn. cbn [gs_hidden]. change (accepted (verdict h candidates)) with k. rewrite Ecap.
  set (a := take k candidates) in *.
  assert (length a = k) as Hla by (unfold a; rewrite length_take; lia).
  assert (agreed h a = length a) as Ha by (rewrite Hla; by apply agreed_take).
  assert (unstopped stops a \/ stopped stops a) as Hcases.
  { destruct Hstop as [Hu|Hs]; [left; by apply Forall_take|]. destruct (decide (k = length candidates)) as [E|E].
    - right. unfold a. by rewrite E, firstn_all.
    - left. apply stopped_take; [done | lia]. }
  assert (mjoin (gs_commits st ++ [a]) = gs_generated st ++ a) as Ej by by rewrite mjoin_snoc, <- G2.
  assert (greedy_run stops (max_new - length (gs_generated st)) h =
    a ++ (if decide (unstopped stops a) then greedy_run stops (max_new - length (gs_generated st) - k) (h ++ a) else [])) as Hrun.
  { case_decide as Hd.
    - rewrite <- Hla. apply run_unstopped; [done | done | lia].
    - destruct Hcases as [?|Hs]; [done|]. rewrite app_nil_r. apply run_stopped; [done | done | lia]. }
  set (stats := count_round _ _ _ _).
  assert (committed_tokens stats = zlen (gs_generated st ++ a)) as Hcom by (unfold stats; cbn; rewrite G8, zlen_app; unfold zlen; lia).
  clearbody stats. assert (forall seed generated stats', session_at (mkGen ss' d cache seed generated stats' (gs_commits st ++ [a]))) as Hs.
  { intros. split; cbn; [|by rewrite Hm]. rewrite Ej, app_assoc. exact Hr. }
  apply committing_post; [apply Hs | cbn [gs_commits]; rewrite Ej, G4, Hrun, app_assoc; by apply prefix_app_r|].
  cbn [gs_session gs_assistant gs_hidden gs_seed gs_generated gs_stats gs_commits].
  destruct (decide (unstopped stops a)) as [Hu|Hu].
  - rewrite cut_unstopped by by apply unstopped_app. unfold greedy_next_token. rewrite (rd_logits _ _ Hr).
    rewrite (proj2 (Nat.eqb_neq _ _)) by lia. split; [|cbn; rewrite length_app; lia].
    split; cbn [gs_session gs_assistant gs_hidden gs_seed gs_generated gs_stats gs_commits].
    + apply Hs.
    + by rewrite Ej.
    + rewrite length_app. lia.
    + rewrite app_assoc, <- app_assoc, G4, Hrun. fold h. by rewrite length_app, Hla, Nat.sub_add_distr.
    + by apply unstopped_app.
    + rewrite app_assoc. fold h. unfold verdict. cbn [replacement]. fold k. by destruct (k =? length candidates)%nat.
    + exists width. split; [done|]. by rewrite Hdim'.
    + by rewrite gate_committed.
  - destruct Hcases as [?|Hst]; [done|]. rewrite (cut_stopped stops (gs_generated st ++ a)) by by apply stopped_app.
    split; cbn [gs_session gs_assistant gs_hidden gs_seed gs_generated gs_stats gs_commits].
    + apply Hs.
    + by rewrite Ej.
    + by rewrite G4, Hrun, app_nil_r.
    + cbn. lia.
Qed.

Lemma draft_greedy_cooperative d seed context n : cooperative -> exists d' drafts,
  draft_greedy_for_session block_top cfg d seed context n = (d', Ok drafts) /\ Forall (fun t => t < target_vocab) drafts.
Proof.
  intros Hco. unfold draft_greedy_for_session.
  assert ((verify_length cfg =? 3) || (verify_length cfg =? 7) || (verify_length cfg =? 15) = true) as ->.
  { pose proof (co_length Hco) as Hl. rewrite !elem_of_cons, elem_of_nil in Hl. rewrite !orb_true_iff, !Z.eqb_eq. tauto. }
  cbn [negb]. destruct (co_block Hco d seed context n) as (d' & top & nd & -> & Htop & Hlen). exists d'. cbv zeta beta iota.
  rewrite (proj2 (Nat.leb_le _ _)) by lia. eexists. split; [reflexivity|]. by apply Forall_take, Forall_drop.
Qed.

Lemma speculative_turn_post st : going st -> (length (gs_generated st) < max_new)%nat ->
  let '(st', turn) := speculative_turn block_top on_commit cfg st max_new in turn_post st' (length (gs_generated st)) turn.
Proof.
  intros Hg Hlt. pose proof Hg as [[Hr Hctx] G2 G3 G4 G5 G6 (width & Hw & Hdim) G8]. rewrite <- G2 in Hr. set (h := h0 ++ gs_generated st) in *.
  assert (forall d hidden, interrupted (mkGen (gs_session st) d hidden (gs_seed st) (gs_generated st) (gs_stats st) (gs_commits st))) as Hint.
  { intros d hidden. destruct (going_interrupted st Hg) as [H1' H2']. by split. }
  unfold speculative_turn. destruct (read_current_batch (gs_hidden st)) as [[context n_ctx]|] eqn:Eread.
  2:{ exfalso. unfold read_current_batch in Eread. destruct (_ =? 0)%nat; [done|]. destruct Hw as [Hw1 Hw2 Hw3]. rewrite Hw1 in Eread.
      rewrite (proj2 (Nat.leb_le _ _)) in Eread; [done|]. nia. }
  set (budget := Nat.min _ _).
  destruct (if (budget =? 0)%nat then _ else _) as [d res] eqn:Edraft.
  assert (cooperative -> exists drafts, res = Ok drafts /\ Forall (fun t => t < target_vocab) drafts) as Hdraft.
  { intros Hco. destruct (budget =? 0)%nat; [injection Edraft as _ <-; by exists []; split; [|constructor]|].
    destruct (draft_greedy_cooperative (gs_assistant st) (gs_seed st) context n_ctx Hco) as (d' & drafts & E & Hd).
    rewrite E in Edraft. injection Edraft as _ <-. by exists drafts. }
  destruct res as [drafts0|e].
  2:{ split; [apply Hint|]. intros Hco. by destruct (Hdraft Hco) as (? & ? & _). }
  set (drafts := take budget drafts0). cbv zeta.
  destruct (truncate_candidates_spec stops (gs_seed st :: drafts)) as (Hpre & Hcases & Hnil). specialize (Hnil ltac:(done)).
  set (candidates := truncate_candidates stops (gs_seed st :: drafts)) in *.
  assert (head candidates = Some (gs_seed st)) as Hhead.
  { destruct Hpre as [k Ek]. destruct candidates; [done|]. by injection Ek as ->. }
  assert (length candidates <= max_new - length (gs_generated st))%nat as Hlen.
  { apply prefix_length in Hpre. change (length (gs_seed st :: drafts)) with (S (length drafts)) in Hpre.
    assert (length drafts <= budget)%nat by (unfold drafts; rewrite length_take; lia).
    assert (budget <= max_new - length (gs_generated st) - 1)%nat by (unfold budget; lia). lia. }
  rewrite (proj1 (proj2 (proj2 (proj2 (proj2 (proj2 (begin_capture_ok width (length candidates) _ Hw))))))).
  destruct (decide (Forall (fun t => t < target_vocab) candidates)) as [Hvalid|Hvalid].
  2:{ (* the verifier refuses a token outside the vocabulary before touching the session *)
      assert (exists e, verify_batch_capturing_layers (gs_session st) candidates (target_layer_ids (gs_hidden st)) = (gs_session st, Err e)) as [e ->].
      { unfold verify_batch_capturing_layers, validate_tokens. rewrite (rd_vocab _ _ Hr). destruct candidates as [|c cs]; [done|].
        destruct (List.find _ (c :: cs)) as [t|] eqn:Ef; [by eexists|]. exfalso. apply Hvalid, Forall_forall. intros t Ht%list_elem_of_In.
        pose proof (List.find_none _ _ Ef _ Ht) as Hn. cbn in Hn. bool_prop. lia. }
      split; [apply Hint|]. intros Hco. destruct (Hdraft Hco) as (ds & [= ->] & Hds). apply Hvalid. destruct Hpre as [k Ek].
      assert (Forall (fun t => t < target_vocab) (gs_seed st :: drafts)) as Hall.
      { constructor; [rewrite G6; apply next_range|]. by apply Forall_take. }
      rewrite Ek in Hall. by apply Forall_app in Hall as [? _]. }
  assert (zlen h + zlen candidates <= max_context (gs_session st)) as Hcap.
  { unfold h, zlen in *. rewrite length_app. lia. }
  destruct (verify_ready (gs_session st) h candidates (target_layer_ids (gs_hidden st)) Hr Hnil Hvalid Hcap) as (ss' & hidden & -> & Hr' & Hm & Hhid).
  apply (commit_turn_post st ss' d candidates drafts hidden Hg); try done.
  fold h. unfold token_width. unfold zlen in Hhid. rewrite <- Hdim in Hhid. nia.
Qed.

Lemma gen_turn_post st : going st -> (length (gs_generated st) < max_new)%nat ->
  let '(st', turn) := gen_turn block_top on_commit cfg st max_new in turn_post st' (length (gs_generated st)) turn.
Proof.
  intros Hg Hlt. unfold gen_turn. destruct (stop_contains stops (gs_seed st)) eqn:Es; [by apply decode_turn_post|].
  pose proof (fallback_committed (gs_stats st)) as Hf. destruct (fallback_round (gs_stats st)) as [fallback stats]. cbn [snd] in Hf.
  set (st1 := mkGen _ _ _ _ _ stats _).
  assert (going st1) as Hg1. { destruct Hg as [G1 G2 G3 G4 G5 G6 G7 G8]. split; try done. cbn. congruence. }
  destruct fallback; [by apply (decode_turn_post st1) | by apply (speculative_turn_post st1)].
Qed.

Lemma gen_loop_post fuel : forall st, going st -> (max_new - length (gs_generated st) <= fuel)%nat ->
  let '(st', res) := gen_loop block_top on_commit cfg fuel st max_new in
  match res with Ok _ => finished st' | Err _ => interrupted st' /\ ~ cooperative end.
Proof.
  induction fuel as [|fuel IH]; intros st Hg Hf; cbn [gen_loop];
    (destruct (Nat.ltb_spec (length (gs_generated st)) max_new) as [Hlt|Hge]; [|destruct Hg as [G1 G2 G3 G4 G5 G6 G7 G8];
      split; [done | done | | done]; rewrite G4; replace (max_new - length (gs_generated st))%nat with 0%nat by lia; cbn; by rewrite app_nil_r]).
  - lia.
  - pose proof (gen_turn_post st Hg Hlt) as Ht. destruct (gen_turn _ _ _ st max_new) as [st' turn].
    destruct turn as [| |e]; [|exact Ht|exact Ht]. destruct Ht as [Hg' Hgrow]. apply IH; [done | lia].
Qed.
End Loop.

(** C40. Speculative greedy generation is greedy decoding.  From a session that has consumed
    exactly the prompt [h0] and retains its logits, with room for [max_new] tokens, and
    whatever the assistant proposes: when [generate_from_seed] succeeds it returns exactly the
    tokens the target alone would choose -- up to and including the first stop token, or
    [max_new] -- the commits streamed to the caller concatenate to them, the session has
    consumed exactly the prompt and them, and the statistics count them.  When it fails,
    everything streamed so far is still a prefix of that run and the session holds exactly it;
    and it does not fail when the assistant answers with tokens of the vocabulary and the
    callback accepts. *)
Theorem speculative_greedy_exact {B} `{TargetLaws B} {D} (block_top : D -> Z -> list Z -> nat -> D * result DFlashRunError (list Z * Z))
    on_commit cfg h0 max_new (ss : Session B) (d : D) cache width :
  ready ss h0 -> zlen h0 + Z.of_nat max_new <= max_context ss ->
  hidden_ok width cache -> Z.of_nat (h_hidden_dim cache) = hidden_dim ->
  let '(st, res) := generate_from_seed block_top on_commit cfg ss d cache (next h0) max_new in
  match res with
  | Ok (generated, stats) =>
      generated = greedy_run (stop_set cfg) max_new h0 /\ mjoin (gs_commits st) = generated /\
      ready (gs_session st) (h0 ++ generated) /\ committed_tokens stats = zlen generated
  | Err _ =>
      mjoin (gs_commits st) `prefix_of` greedy_run (stop_set cfg) max_new h0 /\
      ready (gs_session st) (h0 ++ mjoin (gs_commits st)) /\
      (check_idle cfg = Ok tt -> ~ cooperative block_top on_commit cfg)
  end.
Proof.
  intros Hr Hctx Hw Hdim. unfold generate_from_seed. set (st0 := mkGen ss d cache (next h0) [] stats_default []).
  assert (going cfg h0 max_new st0) as Hg.
  { split; cbn; rewrite ?app_nil_r, ?Nat.sub_0_r; try done; [|lia|constructor|by exists width].
    split; cbn; [by rewrite app_nil_r | done]. }
  destruct (check_idle cfg) as [[]|e] eqn:Ei.
  2:{ split; [apply prefix_nil|]. cbn. rewrite app_nil_r. by split. }
  pose proof (gen_loop_post block_top on_commit cfg h0 max_new max_new st0 Hg ltac:(cbn; lia)) as Hl.
  destruct (gen_loop _ _ _ _ st0 _) as [st [[]|e]].
  - destruct Hl as [[Hs _] Hgen Hrun Hcom]. rewrite take_ge by (rewrite Hrun; apply run_length).
    rewrite <- Hgen in Hs. split; [done|]. by split.
  - destruct Hl as [[[Hs _] Hp] Hco]. split; [done|]. by split.
Qed.

(** ** A concrete target: it counts upwards, modulo four. *)
Definition count_plane (n : nat) (l : nat) : CacheSnapshot.CachePlaneSnapshot :=
  CacheSnapshot.mkPlane (Z.of_nat l) 0 (Z.of_nat n) CacheSnapshot.F16Le (replicate (2 * n) Byte.x00) (replicate (2 * n) Byte.x00).
Definition count_snapshot (h : list Z) : CacheSnapshot.SessionCacheSnapshot :=
  CacheSnapshot.mkSnapshot (zlen h) h 1 (count_plane (length h) <$> seq 0 52).
Definition count_logits (h : list Z) : list Z := <[Z.to_nat ((default 0 (last h) + 1) mod 4) := 0x3f800000]> [0; 0; 0; 0].
#[global] Instance count_backend : Backend (list Z) := {
  b_position b := zlen b;
  b_export b history := Ok (count_snapshot b);
  b_install b s := (CacheSnapshot.tokens s, Ok tt);
  b_reset b := [];
}.
#[global] Instance count_target : Target (list Z) := {
  b_forward b ts := (b ++ ts, Ok (count_logits (b ++ ts)));
  b_forward_capturing b ts ids := (b ++ ts, (count_logits (b ++ ts), replicate (length ids) 0));
  hidden_dim := 1;
}.
Lemma count_snapshot_valid h : (1 <= length h <= 8)%nat -> CacheSnapshot.validate (count_snapshot h) = Ok tt.
Proof.
  intros Hl. unfold CacheSnapshot.validate, CacheSnapshot.validate_for_window, count_snapshot. cbn [CacheSnapshot.position CacheSnapshot.tokens CacheSnapshot.elements_per_token CacheSnapshot.layers].
  rewrite Z.eqb_refl. unfold zlen. generalize dependent (length h). intros n Hn.
  do 9 (destruct n as [|n]; [lia || (vm_compute; reflexivity)|]). lia.
Qed.
#[global] Program Instance count_laws : TargetLaws (list Z) := {
  represents b h := b = h /\ (length h <= 8)%nat;
  logits_of := count_logits;
  target_vocab := 4;
  capacity := 8;
}.
Next Obligation. done. Qed.
Next Obligation. done. Qed.
Next Obligation.
  intros h. unfold count_logits. generalize (Z.mod_pos_bound (default 0 (last h) + 1) 4 ltac:(lia)).
  generalize ((default 0 (last h) + 1) mod 4). intros z Hz.
  assert (z = 0 \/ z = 1 \/ z = 2 \/ z = 3) as [-> | [-> | [-> | ->]]] by lia; done.
Qed.
Next Obligation. by intros b h [-> _]. Qed.
Next Obligation. intros b h ts [-> _] _ Hc. exists (h ++ ts), []. split; [done|]. split; [split; [done|]; unfold zlen in Hc; lia|]. done. Qed.
Next Obligation.
  intros b h t ids [-> _] Hc. exists (h ++ [t]), (replicate (length ids) 0). split; [done|]. split; [split; [done|]; unfold zlen in Hc; lia|].
  unfold zlen. rewrite length_replicate. cbn. lia.
Qed.
Next Obligation.
  intros b h [-> Hl] Hne. exists (count_snapshot h). split; [done|]. split; [apply count_snapshot_valid; destruct h; simpl in *; [done | lia]|].
  split; [done|]. split; [done|]. intros b1. by exists h.
Qed.

Definition count_config : SpecConfig := mkConfig true false NotPresent 3 (mkStops 0 []).
(** Its assistant gets the first draft right and the second wrong. *)
Definition count_block (d : nat) (seed : Z) (context : list Z) (n : nat) : nat * result DFlashRunError (list Z * Z) :=
  (S d, Ok ([0; (seed + 1) mod 4; 1; 1], 3)).
Definition count_session : Session (list Z) := mkSession [1] [1] (Some (count_logits [1])) 8 4.
Lemma count_ready : ready count_session [1].
Proof. split; cbn; [done | split; [done | cbn; lia] | done | done | lia | done]. Qed.
Lemma count_cooperative : cooperative count_block (fun _ => Ok tt) count_config.
Proof.
  split; [apply elem_of_cons; by left| |done]. intros d seed context n. do 3 eexists. split; [reflexivity|]. split; [|cbn; lia].
  pose proof (Z.mod_pos_bound (seed + 1) 4 ltac:(lia)). repeat (apply Forall_cons_2; [cbn; lia|]). by apply Forall_nil_2.
Qed.
Lemma speculative_greedy_exact_witness :
  let '(st, res) := generate_from_seed count_block (fun _ => Ok tt) count_config count_session 0%nat (mkHidden [5] 1 [] 0 0 0) (next [1]) 6 in
  match res with
  | Ok (generated, stats) => generated = [2; 3; 0] /\ mjoin (gs_commits st) = [2; 3; 0]
  | Err _ => False
  end.
Proof.
  assert (hidden_ok 1 (mkHidden [5] 1 [] 0 0 0)) as Hw by (split; cbn; lia).
  pose proof (speculative_greedy_exact count_block (fun _ => Ok tt) count_config [1] 6 count_session 0%nat
    (mkHidden [5] 1 [] 0 0 0) 1 count_ready ltac:(by vm_compute) Hw eq_refl) as Hex.
  assert (greedy_run (stop_set count_config) 6 [1] = [2; 3; 0]) as Hrun by (vm_compute; reflexivity). rewrite Hrun in Hex.
  revert Hex. generalize (generate_from_seed count_block (fun _ => Ok tt) count_config count_session 0%nat (mkHidden [5] 1 [] 0 0 0) (next [1]) 6).
  intros [st [[generated stats]|e]].
  - intros (E1 & E2 & _). split; [exact E1 | exact (eq_trans E2 E1)].
  - intros (_ & _ & Hco). exact (Hco eq_refl count_cooperative).
Defined.

(** ** The acceptance gate over a request. *)
Inductive gate_step : DFlashSpecStats -> DFlashSpecStats -> Prop :=
| gate_round s s1 candidates drafted accepted : fallback_round s = (false, s1) -> 0 <= drafted -> 1 <= accepted ->
    gate_step s (update_speculation_gate true (count_round candidates drafted accepted s1))
| gate_fallback s s1 : fallback_round s = (true, s1) -> gate_step s (count_committed 1 1 s1).

Record gate_ok (s : DFlashSpecStats) : Prop := {
  go_requalify : speculation_disabled s = true -> requalify_at_tokens s <= committed_tokens s + REQUALIFY_MAX_TOKENS;
  go_events : 0 <= disable_events s;
  go_drafted : Forall (fun n => 0 <= n) (drafted_counts s);
  go_lengths : length (drafted_counts s) = length (accepted_prefix_counts s);
}.
Lemma cooldown_bounds events : 0 <= events ->
  64 <= Z.min (Z.shiftl REQUALIFY_BASE_TOKENS (Z.min events REQUALIFY_MAX_SHIFT)) REQUALIFY_MAX_TOKENS <= 512.
Proof.
  intros He. unfold REQUALIFY_BASE_TOKENS, REQUALIFY_MAX_SHIFT, REQUALIFY_MAX_TOKENS. rewrite Z.shiftl_mul_pow2 by lia.
  assert (2 ^ 0 <= 2 ^ Z.min events 3) by (apply Z.pow_le_mono_r; lia). change (2 ^ 0) with 1 in *. lia.
Qed.
Lemma gate_ok_step s s' : gate_ok s -> gate_step s s' -> gate_ok s'.
Proof.
  intros [G1 G2 G3 G4] Hs. destruct Hs as [s s1 candidates drafted accepted Hf Hd Ha|s s1 Hf]; unfold fallback_round in Hf.
  - assert (gate_ok (count_round candidates drafted accepted s1) /\ speculation_disabled s1 = false) as [[C1 C2 C3 C4] Hdis].
    { destruct (speculation_disabled s) eqn:Ed; cbn in Hf; [destruct (_ <=? _); [|done]|]; injection Hf as <-; (split; [|done]);
        (split; cbn; [by rewrite ?Ed | done | apply Forall_app; split; [done | by repeat constructor] | rewrite !length_app; cbn; lia]). }
    unfold update_speculation_gate. cbn [negb]. destruct (_ || _); [by split|]. split; cbn in *; try done; [|lia].
    intros _. pose proof (cooldown_bounds (disable_events s1) C2). unfold REQUALIFY_MAX_TOKENS in *.
    replace (disable_events s1 + 1 - 1) with (disable_events s1) by lia. lia.
  - destruct (negb (speculation_disabled s)); [done|]. destruct (_ <=? _); [done|]. injection Hf as <-.
    split; cbn; try done. intros E. specialize (G1 E). lia.
Qed.
Lemma gate_ok_default : gate_ok stats_default.
Proof. split; cbn; [done | lia | constructor | done]. Qed.
Lemma sum_Z_app l k : sum_Z (l ++ k) = sum_Z l + sum_Z k.
Proof. unfold sum_Z. induction l as [|x l IH]; cbn; [done|]. rewrite IH. lia. Qed.
Lemma sum_Z_nonneg l : Forall (fun n => 0 <= n) l -> 0 <= sum_Z l.
Proof. unfold sum_Z. induction 1; cbn; lia. Qed.
Lemma iter_fallback n s : committed_tokens (Nat.iter n (count_committed 1 1) s) = committed_tokens s + Z.of_nat n /\
  speculation_disabled (Nat.iter n (count_committed 1 1) s) = speculation_disabled s /\
  requalify_at_tokens (Nat.iter n (count_committed 1 1) s) = requalify_at_tokens s.
Proof.
  induction n as [|n (E1 & E2 & E3)]; [split; [cbn; lia | done]|].
  change (Nat.iter (S n) (count_committed 1 1) s) with (count_committed 1 1 (Nat.iter n (count_committed 1 1) s)).
  unfold count_committed at 1 3 5. cbn [committed_tokens speculation_disabled requalify_at_tokens]. rewrite E1, E2, E3. split; [lia | done].
Qed.

Definition cold_round (s : DFlashSpecStats) : DFlashSpecStats := update_speculation_gate true (count_round [1] 15 1 (fallback_round s).2).
Definition cold_stats : DFlashSpecStats := Nat.iter 3 cold_round stats_default.
Lemma cold_reachable : rtc gate_step stats_default cold_stats.
Proof.
  do 3 (eapply rtc_l; [eapply (gate_round _ _ [1] 15 1); [reflexivity | lia | lia]|]). apply rtc_refl.
Qed.
