(* ===== verification/Tokenizer.v ===== *)
(** * The BPE tokenizer: vocabulary tables, encoding and decoding.

    Models [crates/muser-engine/src/tokenizer/bpe.rs].  A Rust [str] is its list of UTF-8 bytes.
    The pre-tokenization regular expression (crate [fancy_regex]) is the parameter
    [find_from_pos], applied to the pattern the code selects; [contiguous] states what the
    encoder relies on.  A panic of the code is [None]. *)
From Stdlib Require Import Strings.Byte.
From S2P Require Import Prelude Utf8 Substring.

(** ** The GPT-2 byte alphabet. *)
Definition keep (b : Z) : bool :=
  ((33 <=? b) && (b <=? 126)) || ((161 <=? b) && (b <=? 172)) || ((174 <=? b) && (b <=? 255)).
Definition gpt2_byte_unicode_pairs : list (Z * Z) :=
  ((fun b => (b, b)) <$> List.filter keep (seqZ 0 256)) ++
  imap (fun n b => (b, 256 + Z.of_nat n)) (List.filter (fun b => negb (keep b)) (seqZ 0 256)).
Definition gpt2_unicode_to_byte : gmap Z Z :=
  foldl (fun m '(b, c) => <[c := b]> m) ∅ gpt2_byte_unicode_pairs.

(** ** Strings. *)
(** [str::replace] of one character by another string. *)
Definition replace_char (c by_ : str) (s : str) : str :=
  chars s ≫= (fun ch => if bool_decide (ch = c) then by_ else ch).
Definition SPACE : str := [x20].
Definition LOWER_BLOCK : str := [xe2; x96; x81].

(** ** Byte-fallback tokens: [<0xNN>]. *)
Definition hex_digit (b : byte) : option Z :=
  let z := Z_of_byte b in
  if (48 <=? z) && (z <=? 57) then Some (z - 48)
  else if (97 <=? z) && (z <=? 102) then Some (z - 87)
  else if (65 <=? z) && (z <=? 70) then Some (z - 55)
  else None.
(** [u8::from_str_radix] of two characters in base 16, which accepts a plus sign. *)
Definition hex_byte (h1 h2 : byte) : option Z :=
  if bool_decide (h1 = x2b) then hex_digit h2
  else match hex_digit h1, hex_digit h2 with
       | Some a, Some b => Some (16 * a + b)
       | _, _ => None
       end.
Definition byte_fallback_byte (token : str) (token_type : option Z) : option Z :=
  if match token_type with Some declared => negb (declared =? 6) | None => false end then None
  else match token with
       | [c0; c1; c2; h1; h2; c5] =>
           if bool_decide ([c0; c1; c2; c5] = [x3c; x30; x78; x3e]) then hex_byte h1 h2 else None
       | _ => None
       end.

(** ** The tokenizer. *)
Inductive TokenizerError : Type := UnencodableByte (byte : Z).
Inductive Segment : Type := Text (s : str) | Special (id : Z).

Record BpeTokenizer : Type := mkBpe {
  tok_arena : str;
  tok_offsets : list Z;
  bytes_arena : str;
  bytes_offsets : list Z;
  merge_table : gmap (Z * Z) (Z * Z);
  byte_to_token : list Z;
  byte_to_fallback : list Z;
  pre_regex : string;
  special_tokens : list (str * Z);
  qwen_two_byte_tokens : gmap (byte * byte) Z;
  is_spm_bpe : bool;
  char_to_token : gmap str Z;
}.

(** [x as u32]. *)
Definition as_u32 (x : Z) : Z := x mod 2 ^ 32.
(** [iter().enumerate()], with the index as the [u32] the tables store. *)
Definition enumerate {A} (l : list A) : list (Z * A) := imap (fun i x => (as_u32 (Z.of_nat i), x)) l.

(** Concatenation of the parts, and the offset where each starts, with the end. *)
Fixpoint offsets_from (start : Z) (parts : list str) : list Z :=
  match parts with
  | [] => [as_u32 start]
  | p :: parts => as_u32 start :: offsets_from (start + zlen p) parts
  end.

(** The part of an arena between two consecutive offsets. *)
Definition arena_part (arena : str) (offsets : list Z) (id : Z) : option str :=
  match offsets !! Z.to_nat id, offsets !! Z.to_nat (id + 1) with
  | Some start, Some stop =>
      if (start <=? stop) && (stop <=? zlen arena)
      then Some (take (Z.to_nat (stop - start)) (drop (Z.to_nat start) arena)) else None
  | _, _ => None
  end.

Definition build_token_to_id (vocab : list str) : gmap str Z :=
  foldl (fun m '(id, token) => <[token := id]> m) ∅ (enumerate vocab).

Definition build_merge_table (ids : gmap str Z) (merges : list (str * str)) : gmap (Z * Z) (Z * Z) :=
  foldl (fun tbl '(priority, (a, b)) =>
           match ids !! a, ids !! b with
           | Some aid, Some bid =>
               match ids !! (a ++ b) with
               | Some mid => <[(aid, bid) := (priority, mid)]> tbl
               | None => tbl
               end
           | _, _ => tbl
           end) ∅ (enumerate merges).

Definition detect_spm (vocab : list str) (pre_type : string) : bool :=
  let spm_count := length (List.filter (starts_with LOWER_BLOCK) vocab) in
  let gpt2_count := length (List.filter (starts_with [xc4; xa0]) vocab) in
  String.eqb pre_type "gemma4" || ((100 <? spm_count)%nat && (gpt2_count <? 100)%nat).

Definition build_fallbacks (vocab : list str) (token_types : list Z) : list (option Z) :=
  imap (fun id token => byte_fallback_byte token (token_types !! id)) vocab.

Definition build_byte_to_fallback (fallback_byte : list (option Z)) : list Z :=
  foldl (fun arr '(id, byte) =>
           match byte with
           | Some b => if arr !!! Z.to_nat b =? U32_MAX then <[Z.to_nat b := id]> arr else arr
           | None => arr
           end) (replicate 256 U32_MAX) (enumerate fallback_byte).

(** The bytes a token stands for. *)
Definition decoded_token (spm : bool) (fallback : option Z) (token : str) : str :=
  match fallback with
  | Some b => [byte_of_Z b]
  | None =>
      if spm then token
      else (fun ch => byte_of_Z (default (code_point ch) (gpt2_unicode_to_byte !! code_point ch))) <$> chars token
  end.

Definition build_byte_to_token (ids : gmap str Z) : list Z :=
  foldl (fun arr '(b, c) =>
           match ids !! encode_utf8 c with
           | Some id => <[Z.to_nat b := id]> arr
           | None => arr
           end) (replicate 256 U32_MAX) gpt2_byte_unicode_pairs.

Definition build_char_to_token (spm : bool) (ids : gmap str Z) (vocab : list str) : gmap str Z :=
  if spm then
    let m := foldl (fun m '(id, token) => if (length (chars token) =? 1)%nat then <[token := id]> m else m)
               ∅ (enumerate vocab) in
    foldl (fun m b =>
             let s := encode_utf8 b in
             match m !! s with
             | Some _ => m
             | None => match ids !! s with Some id => <[s := id]> m | None => m end
             end) m (seqZ 0 256)
  else ∅.

Definition build_two_byte (pre_type : string) (spm : bool) (n : nat) (arena : str) (offsets : list Z)
    : option (gmap (byte * byte) Z) :=
  if (String.eqb pre_type "qwen2" || String.eqb pre_type "qwen35") && negb spm then
    foldl (fun acc id =>
             match acc, arena_part arena offsets id with
             | Some m, Some [b0; b1] =>
                 Some (match m !! (b0, b1) with Some _ => m | None => <[(b0, b1) := as_u32 id]> m end)
             | Some m, Some _ => Some m
             | _, _ => None
             end) (Some ∅) (seqZ 0 (Z.of_nat n))
  else Some ∅.

Definition pre_pattern (pre_type : string) (spm : bool) : string :=
  if String.eqb pre_type "llama4" || String.eqb pre_type "gpt-4o" then
    "[^\r\n\p{L}\p{N}]?((?=[\p{L}])([^a-z]))*((?=[\p{L}])([^A-Z]))+(?:'[sS]|'[tT]|'[rR][eE]|'[vV][eE]|'[mM]|'[lL][lL]|'[dD])?" ++
    "|[^\r\n\p{L}\p{N}]?((?=[\p{L}])([^a-z]))+((?=[\p{L}])([^A-Z]))*(?:'[sS]|'[tT]|'[rR][eE]|'[vV][eE]|'[mM]|'[lL][lL]|'[dD])?" ++
    "|\p{N}{1,3}" ++ "| ?[^\s\p{L}\p{N}]+[\r\n/]*" ++ "|\s*[\r\n]+" ++ "|\s+(?!\S)" ++ "|\s+"
  else if String.eqb pre_type "qwen2" || String.eqb pre_type "qwen35" then
    "(?:'[sS]|'[tT]|'[rR][eE]|'[vV][eE]|'[mM]|'[lL][lL]|'[dD])" ++ "|[^\r\n\p{L}\p{N}]?\p{L}+" ++ "|\p{N}" ++
    "| ?[^\s\p{L}\p{N}]+[\r\n]*" ++ "|\s*[\r\n]+" ++ "|\s+(?!\S)" ++ "|\s+"
  else if String.eqb pre_type "gemma4" then "[^\n]+|[\n]+"
  else if spm then "[^\n]+|[\n]+"
  else "'s|'t|'re|'ve|'m|'ll|'d" ++ "| ?\p{L}+" ++ "| ?\p{N}+" ++ "| ?[^\s\p{L}\p{N}]+" ++ "|\s+(?!\S)" ++ "|\s+".

Definition is_special (token_types : list Z) (id : nat) (token : str) : bool :=
  match token_types !! id with
  | Some ty => (ty =? 3) || (ty =? 4)
  | None => starts_with [x3c; x7c] token && ends_with [x7c; x3e] token
  end.
(** Stable insertion by decreasing length: [sort_by(|a, b| b.0.len().cmp(&a.0.len()))]. *)
Fixpoint insert_longest (x : str * Z) (l : list (str * Z)) : list (str * Z) :=
  match l with
  | [] => [x]
  | y :: l' => if zlen y.1 <=? zlen x.1 then x :: l else y :: insert_longest x l'
  end.
Definition build_special (vocab : list str) (token_types : list Z) : list (str * Z) :=
  foldr insert_longest []
    ((fun '(_, id, token) => (token, id)) <$>
     List.filter (fun '(i, _, token) => is_special token_types i token)
       (imap (fun i token => (i, as_u32 (Z.of_nat i), token)) vocab)).

Definition new (vocab : list str) (merges : list (str * str)) (pre_type : string) (token_types : list Z)
    : option BpeTokenizer :=
  let token_to_id := build_token_to_id vocab in
  let is_spm := detect_spm vocab pre_type in
  let fallback_byte := build_fallbacks vocab token_types in
  let decoded := zip_with (decoded_token is_spm) fallback_byte vocab in
  let arena := mjoin decoded in
  let offsets := offsets_from 0 decoded in
  qwen ← build_two_byte pre_type is_spm (length vocab) arena offsets;
  Some (mkBpe (mjoin vocab) (offsets_from 0 vocab) arena offsets
          (build_merge_table token_to_id merges) (build_byte_to_token token_to_id)
          (build_byte_to_fallback fallback_byte) (pre_pattern pre_type is_spm)
          (build_special vocab token_types) qwen is_spm
          (build_char_to_token is_spm token_to_id vocab)).

(** ** Merging. *)
Fixpoint scan_pairs (tbl : gmap (Z * Z) (Z * Z)) (i : Z) (best : Z * Z) (ids : list Z) : Z * Z :=
  match ids with
  | a :: (b :: _) as rest =>
      let best := match tbl !! (a, b) with
                  | Some (priority, _) => if priority <? best.1 then (priority, i) else best
                  | None => best
                  end in
      scan_pairs tbl (i + 1) best rest
  | _ => best
  end.

(** One round of the loop of [bpe_merge_ids]; [None] ends it. *)
Definition merge_round (tbl : gmap (Z * Z) (Z * Z)) (ids : list Z) : option (list Z) :=
  let best := scan_pairs tbl 0 (U32_MAX, USIZE_MAX) ids in
  if best.2 =? USIZE_MAX then None
  else
    let i := Z.to_nat best.2 in
    a ← ids !! i; b ← ids !! S i; '(_, merged) ← tbl !! (a, b);
    Some (delete (S i) (<[i := merged]> ids)).

Fixpoint merge_loop (fuel : nat) (tbl : gmap (Z * Z) (Z * Z)) (ids : list Z) : list Z :=
  match fuel with
  | O => ids
  | S fuel => match merge_round tbl ids with Some ids => merge_loop fuel tbl ids | None => ids end
  end.
Definition bpe_merge_ids (t : BpeTokenizer) (ids : list Z) : list Z :=
  merge_loop (length ids) (merge_table t) ids.

(** ** Decoding. *)
Definition vocab_size (t : BpeTokenizer) : Z := zlen (tok_offsets t) - 1.
Definition token_bytes (t : BpeTokenizer) (id : Z) : option str := arena_part (bytes_arena t) (bytes_offsets t) id.
Definition token_str (t : BpeTokenizer) (id : Z) : option str :=
  (fun bs => if utf8_valid bs then bs else []) <$> arena_part (tok_arena t) (tok_offsets t) id.
Definition get_token_bytes (t : BpeTokenizer) (id : Z) : option str :=
  if id <? vocab_size t then token_bytes t id else Some [].
Definition decode_raw (t : BpeTokenizer) (id : Z) : option str :=
  if id <? vocab_size t then token_str t id else Some [].

Definition lossy (bs : str) : str := utf8_chunks bs ≫= lossy_chunk.
Definition spm_unmark (t : BpeTokenizer) (s : str) : str :=
  if is_spm_bpe t then replace_char LOWER_BLOCK SPACE s else s.
Definition decode (t : BpeTokenizer) (id : Z) : option str :=
  if id <? vocab_size t then (fun bs => spm_unmark t (lossy bs)) <$> token_bytes t id else Some [].
Definition decode_all (t : BpeTokenizer) (ids : list Z) : option str :=
  bytes ← foldl (fun acc id => bytes ← acc;
                   if id <? vocab_size t then (fun bs => bytes ++ bs) <$> token_bytes t id else Some bytes)
            (Some []) ids;
  Some (spm_unmark t (lossy bytes)).

(** ** Splitting on special tokens. *)
(** The earliest occurrence, the first listed (longest) token winning a tie. *)
Definition best_special (specials : list (str * Z)) (remaining : str) : option (nat * str * Z) :=
  foldl (fun best '(tok, id) =>
           match find tok remaining with
           | Some pos =>
               if match best with None => true | Some (p, _, _) => (pos <? p)%nat end
               then Some (pos, tok, id) else best
           | None => best
           end) None specials.

(** [None]: the loop has not ended within the fuel. *)
Fixpoint split_loop (fuel : nat) (specials : list (str * Z)) (remaining : str) : option (list Segment) :=
  match remaining with
  | [] => Some []
  | _ =>
      match fuel with
      | O => None
      | S fuel =>
          match best_special specials remaining with
          | Some (pos, tok, id) =>
              rest ← split_loop fuel specials (drop (pos + length tok) remaining);
              Some ((if (0 <? pos)%nat then [Text (take pos remaining)] else []) ++ Special id :: rest)
          | None => Some [Text remaining]
          end
      end
  end.
Definition split_special_tokens (t : BpeTokenizer) (text : str) : option (list Segment) :=
  match special_tokens t with
  | [] => Some [Text text]
  | specials => split_loop (length text) specials text
  end.

(** ** Encoding. *)
Definition byte_token (t : BpeTokenizer) (b : byte) : result TokenizerError Z :=
  let id := byte_to_token t !!! Z.to_nat (Z_of_byte b) in
  if negb (id =? U32_MAX) then Ok id
  else
    let id := byte_to_fallback t !!! Z.to_nat (Z_of_byte b) in
    if negb (id =? U32_MAX) then Ok id else Err (UnencodableByte (Z_of_byte b)).

Definition qwen_exact_two_byte_token_id (t : BpeTokenizer) (word : str) : option Z :=
  if is_spm_bpe t || bool_decide (qwen_two_byte_tokens t = ∅) then None
  else match word with
       | [b0; b1] => qwen_two_byte_tokens t !! (b0, b1)
       | _ => None
       end.

Definition char_ids (t : BpeTokenizer) (ch : str) : result TokenizerError (list Z) :=
  match char_to_token t !! ch with
  | Some id => Ok [id]
  | None => traverse (byte_token t) ch
  end.
Definition word_ids (t : BpeTokenizer) (word : str) : result TokenizerError (list Z) :=
  if is_spm_bpe t then let? idss := traverse (char_ids t) (chars word) in Ok (mjoin idss)
  else traverse (byte_token t) word.
Definition encode_word (t : BpeTokenizer) (word : str) : result TokenizerError (list Z) :=
  match qwen_exact_two_byte_token_id t word with
  | Some id => Ok [id]
  | None => let? ids := word_ids t word in Ok (bpe_merge_ids t ids)
  end.

Section Encode.
(** [Regex::find_from_pos] for the pattern: start and end of a match; no match and an error
    take the same branch of the encoder. *)
Context (find_from_pos : string -> str -> nat -> option (nat * nat)).

Definition slice (s : str) (start stop : nat) : str := take (stop - start) (drop start s).

(** [None]: the loop has not ended within the fuel. *)
Fixpoint encode_loop (fuel : nat) (t : BpeTokenizer) (text : str) (pos : nat) (ids : list Z)
    : option (result TokenizerError (list Z)) :=
  match drop pos text with
  | [] => Some (Ok ids)
  | b :: _ =>
      match fuel with
      | O => None
      | S fuel =>
          match find_from_pos (pre_regex t) text pos with
          | Some (start, stop) =>
              match encode_word t (slice text start stop) with
              | Ok more => encode_loop fuel t text stop (ids ++ more)
              | Err e => Some (Err e)
              end
          | None =>
              match byte_token t b with
              | Ok id => encode_loop fuel t text (S pos) (ids ++ [id])
              | Err e => Some (Err e)
              end
          end
      end
  end.
Definition effective_text (t : BpeTokenizer) (text : str) : str :=
  if is_spm_bpe t then replace_char SPACE LOWER_BLOCK text else text.
Definition encode_segment (t : BpeTokenizer) (text : str) (ids : list Z) : option (result TokenizerError (list Z)) :=
  let effective := effective_text t text in
  encode_loop (length effective) t effective 0 ids.

Fixpoint encode_segments (t : BpeTokenizer) (segments : list Segment) (ids : list Z)
    : option (result TokenizerError (list Z)) :=
  match segments with
  | [] => Some (Ok ids)
  | Special id :: segments => encode_segments t segments (ids ++ [id])
  | Text s :: segments =>
      r ← encode_segment t s ids;
      match r with
      | Ok ids => encode_segments t segments ids
      | Err e => Some (Err e)
      end
  end.
Definition try_encode_with_options (t : BpeTokenizer) (text : str) (parse_special : bool)
    : option (result TokenizerError (list Z)) :=
  match text with
  | [] => Some (Ok [])
  | _ =>
      if negb parse_special then encode_segment t text []
      else segments ← split_special_tokens t text; encode_segments t segments []
  end.
Definition try_encode (t : BpeTokenizer) (text : str) := try_encode_with_options t text true.
(** An unencodable byte panics. *)
Definition encode_with_options (t : BpeTokenizer) (text : str) (parse_special : bool) : option (list Z) :=
  r ← try_encode_with_options t text parse_special;
  match r with Ok ids => Some ids | Err _ => None end.
Definition encode (t : BpeTokenizer) (text : str) : option (list Z) := encode_with_options t text true.

(** A match lies where the search starts (each pattern has an alternative for every
    character), is not empty, and is a [str]. *)
Definition contiguous (pattern : string) : Prop :=
  forall text pos start stop, find_from_pos pattern text pos = Some (start, stop) ->
    start = pos /\ (pos < stop <= length text)%nat /\ utf8_valid (slice text start stop) = true.
End Encode.
