(* ===== verification/TokenizerTables.v ===== *)
(** * The tokenizer's tables are sound.

    For a well-formed vocabulary, [BpeTokenizer::new] returns, and every entry of its tables
    spells what the encoder takes it to spell: [table_sound]. *)
From Stdlib Require Import Strings.Byte.
From S2P Require Import Prelude Utf8 Tokenizer.

(** ** Generic folds and enumerations. *)
Lemma foldl_inv {A B} (P : A -> Prop) (f : A -> B -> A) (l : list B) a :
  P a -> (forall a x, x ∈ l -> P a -> P (f a x)) -> P (foldl f a l).
Proof.
  revert a. induction l as [|x l IH]; intros a Ha Hf; [done|]. cbn. apply IH.
  - apply Hf; [apply elem_of_cons; by left | done].
  - intros a' y Hy. apply Hf. apply elem_of_cons. by right.
Qed.

Lemma elem_of_enumerate {A} (l : list A) id x :
  zlen l < 2 ^ 32 -> (id, x) ∈ enumerate l -> 0 <= id < zlen l /\ l !! Z.to_nat id = Some x.
Proof.
  intros Hl Hin. unfold enumerate in Hin. apply elem_of_lookup_imap in Hin as (i & y & E & Hy). simplify_eq.
  pose proof (lookup_lt_Some _ _ _ Hy) as Hlt. unfold as_u32, zlen in *.
  rewrite Z.mod_small by lia. rewrite Nat2Z.id. split; [lia | done].
Qed.

(** ** Arenas. *)
Lemma offsets_from_lookup parts start i :
  0 <= start -> start + zlen (mjoin parts) < 2 ^ 32 -> (i <= length parts)%nat ->
  offsets_from start parts !! i = Some (start + zlen (mjoin (take i parts))).
Proof.
  revert start i. induction parts as [|p parts IH]; intros start i H0 Hlt Hi.
  - destruct i; [|simpl in Hi; lia]. change (zlen (mjoin [])) with 0 in Hlt. cbn. unfold as_u32.
    rewrite Z.mod_small by lia. f_equal. unfold zlen. simpl. lia.
  - rewrite mjoin_cons, zlen_app in Hlt. pose proof (zlen_nonneg p). pose proof (zlen_nonneg (mjoin parts)).
    destruct i as [|i]; cbn [offsets_from lookup list_lookup take].
    + unfold as_u32. rewrite Z.mod_small by lia. f_equal. unfold zlen. simpl. lia.
    + rewrite IH by (simpl in Hi; lia). cbn [take]. rewrite mjoin_cons, zlen_app. f_equal. lia.
Qed.

Lemma length_offsets_from parts start : length (offsets_from start parts) = S (length parts).
Proof. revert start. induction parts; intros; simpl; auto. Qed.

Lemma arena_part_lookup parts (i : nat) p :
  zlen (mjoin parts) < 2 ^ 32 -> parts !! i = Some p ->
  arena_part (mjoin parts) (offsets_from 0 parts) (Z.of_nat i) = Some p.
Proof.
  intros Hlt Hp. pose proof (lookup_lt_Some _ _ _ Hp) as Hi. unfold arena_part.
  replace (Z.of_nat i + 1) with (Z.of_nat (S i)) by lia. rewrite !Nat2Z.id.
  rewrite !offsets_from_lookup by lia. rewrite (take_S_r _ _ _ Hp), !Z.add_0_l.
  assert (mjoin parts = mjoin (take i parts) ++ p ++ mjoin (drop (S i) parts)) as E.
  { rewrite <- (take_drop i parts) at 1. rewrite join_app, (drop_S _ _ _ Hp). by rewrite mjoin_cons. }
  assert (mjoin (take i parts ++ [p]) = mjoin (take i parts) ++ p) as E2
    by (rewrite join_app; cbn; by rewrite app_nil_r).
  rewrite E2, E, !zlen_app. pose proof (zlen_nonneg p). pose proof (zlen_nonneg (mjoin (drop (S i) parts))).
  rewrite !(proj2 (Z.leb_le _ _)) by lia. cbn [andb]. f_equal.
  rewrite to_nat_zlen, drop_app_length.
  replace (Z.to_nat _) with (length p) by (unfold zlen; lia). apply take_app_length.
Qed.

(** ** The byte alphabet, checked entry by entry. *)
Definition pair_ok (p : Z * Z) : bool :=
  let '(b, c) := p in
  (0 <=? b) && (b <? 256) && bool_decide (chars (encode_utf8 c) = [encode_utf8 c]) &&
  bool_decide (code_point (encode_utf8 c) = c) && bool_decide (gpt2_unicode_to_byte !! c = Some b) &&
  (length (encode_utf8 c) <? 6)%nat.
Lemma gpt2_pairs_ok b c : (b, c) ∈ gpt2_byte_unicode_pairs ->
  0 <= b < 256 /\ chars (encode_utf8 c) = [encode_utf8 c] /\ code_point (encode_utf8 c) = c /\
  gpt2_unicode_to_byte !! c = Some b /\ (length (encode_utf8 c) < 6)%nat.
Proof.
  assert (forallb pair_ok gpt2_byte_unicode_pairs = true) as H by (vm_compute; reflexivity).
  rewrite forallb_forall in H. intros Hin. apply list_elem_of_In, H in Hin. unfold pair_ok in Hin. bool_prop.
  repeat split; assumption.
Qed.
Lemma gpt2_ascii z : 0 <= z < 128 -> byte_of_Z (default z (gpt2_unicode_to_byte !! z)) = byte_of_Z z.
Proof.
  intros Hz. assert (forallb (fun z => bool_decide (default z (gpt2_unicode_to_byte !! z) = z)) (seqZ 0 128) = true) as H
    by (vm_compute; reflexivity).
  rewrite forallb_forall in H. specialize (H z). rewrite <- list_elem_of_In, elem_of_seqZ in H.
  specialize (H ltac:(lia)). bool_prop. by rewrite H.
Qed.

Lemma hex_digit_range h z : hex_digit h = Some z -> 0 <= z < 16.
Proof. unfold hex_digit. intros Hz. repeat case_match; simplify_eq; bool_prop; lia. Qed.
Lemma hex_byte_range h1 h2 b : hex_byte h1 h2 = Some b -> 0 <= b < 256.
Proof.
  unfold hex_byte. pose proof (hex_digit_range h1) as H1. pose proof (hex_digit_range h2) as H2.
  destruct (hex_digit h1) as [z1|]; destruct (hex_digit h2) as [z2|]; case_bool_decide; intros; simplify_eq;
    repeat match goal with H : forall z, Some ?x = Some z -> _ |- _ => specialize (H x eq_refl) end; lia.
Qed.
Lemma fallback_length token ty b : byte_fallback_byte token ty = Some b -> length token = 6%nat /\ 0 <= b < 256.
Proof.
  unfold byte_fallback_byte. case_match; [done|].
  destruct token as [|? [|? [|? [|h1 [|h2 [|? [|]]]]]]]; try done.
  case_bool_decide; [|done]. intros Hx%hex_byte_range. done.
Qed.

Lemma hex_digit_ascii h z : hex_digit h = Some z -> Z_of_byte h < 128.
Proof. unfold hex_digit. intros Hz. repeat case_match; simplify_eq; bool_prop; lia. Qed.
Lemma fallback_chars token ty b : byte_fallback_byte token ty = Some b -> length (chars token) = 6%nat.
Proof.
  unfold byte_fallback_byte. case_match; [done|].
  destruct token as [|c0 [|c1 [|c2 [|h1 [|h2 [|c5 [|]]]]]]]; try done.
  case_bool_decide as E; [|done]. injection E as -> -> -> ->. unfold hex_byte. intros Hx.
  assert (Z_of_byte h1 < 128) as H1.
  { case_bool_decide as E; [by subst|]. destruct (hex_digit h1) eqn:E1; [|done]. by eapply hex_digit_ascii. }
  assert (Z_of_byte h2 < 128) as H2.
  { destruct (hex_digit h2) eqn:E2; [by eapply hex_digit_ascii|]. exfalso. repeat case_match; done. }
  rewrite chars_ascii; [done|]. 
  repeat first [apply Forall_nil_2 | apply Forall_cons_2; [first [assumption | reflexivity]|]].
Qed.

(** ** Well-formed vocabularies. *)
Record vocab_ok (vocab : list str) (merges : list (str * str)) (token_types : list Z) : Prop := {
  vo_utf8 : Forall (fun s => utf8_valid s = true) vocab;
  vo_size : zlen vocab <= U32_MAX;
  vo_bytes : zlen (mjoin vocab) < 2 ^ 32;
  vo_merges : zlen merges <= U32_MAX;
  (** merge rules speak of ordinary tokens *)
  vo_plain : forall i s a b, vocab !! i = Some s -> (a, b) ∈ merges -> s = a \/ s = b \/ s = a ++ b ->
    byte_fallback_byte s (token_types !! i) = None;
}.

(** ** What the tables promise the encoder. *)
(** The tokens are in the vocabulary and their bytes, joined, are [bs]. *)
Definition spells (t : BpeTokenizer) (ids : list Z) (bs : str) : Prop :=
  exists parts, Forall2 (fun id p => 0 <= id < vocab_size t /\ token_bytes t id = Some p) ids parts /\ bs = mjoin parts.

Record table_sound (t : BpeTokenizer) : Prop := {
  ts_merge a b p m : merge_table t !! (a, b) = Some (p, m) ->
    p < U32_MAX /\ forall x y, spells t [a] x -> spells t [b] y -> spells t [m] (x ++ y);
  ts_byte b id : byte_token t b = Ok id -> spells t [id] [b];
  ts_two b0 b1 id : qwen_two_byte_tokens t !! (b0, b1) = Some id -> spells t [id] [b0; b1];
  ts_char ch id : char_to_token t !! ch = Some id -> spells t [id] ch;
}.

Lemma spells_nil t : spells t [] [].
Proof. by exists []. Qed.
Lemma spells_app t ids1 ids2 x y : spells t ids1 x -> spells t ids2 y -> spells t (ids1 ++ ids2) (x ++ y).
Proof.
  intros (p1 & H1 & ->) (p2 & H2 & ->). exists (p1 ++ p2). split; [by apply Forall2_app | by rewrite join_app].
Qed.
Lemma spells_app_inv t ids1 ids2 bs :
  spells t (ids1 ++ ids2) bs -> exists x y, spells t ids1 x /\ spells t ids2 y /\ bs = x ++ y.
Proof.
  intros (p & H & ->). apply Forall2_app_inv_l in H as (p1 & p2 & H1 & H2 & ->).
  exists (mjoin p1), (mjoin p2). rewrite join_app. split; [by exists p1|]. split; [by exists p2 | done].
Qed.
Lemma spells_one t id bs : spells t [id] bs <-> 0 <= id < vocab_size t /\ token_bytes t id = Some bs.
Proof.
  split.
  - intros (p & H & ->). apply Forall2_cons_inv_l in H as (x & p' & [H1 H2] & H3 & ->).
    apply Forall2_nil_inv_l in H3 as ->. cbn. by rewrite app_nil_r.
  - intros [H1 H2]. exists [bs]. split; [by apply Forall2_cons; split; [|apply Forall2_nil] | cbn; by rewrite app_nil_r].
Qed.
#[export] Hint Resolve spells_nil spells_app : muser.

(** In SPM mode a token is its raw text, so a byte's GPT-2 stand-in character must not be a
    token of its own unless it is that byte. *)
Definition spm_alphabet_ok (vocab : list str) (pre_type : string) : Prop :=
  detect_spm vocab pre_type = true ->
  forall b c, (b, c) ∈ gpt2_byte_unicode_pairs -> encode_utf8 c <> [byte_of_Z b] -> encode_utf8 c ∉ vocab.

Section Build.
Context (vocab : list str) (merges : list (str * str)) (pre_type : string) (token_types : list Z).
Context (Hok : vocab_ok vocab merges token_types).

Let ids := build_token_to_id vocab.
Let spm := detect_spm vocab pre_type.
Let fallbacks := build_fallbacks vocab token_types.
Let decoded := zip_with (decoded_token spm) fallbacks vocab.

(** The bytes of the vocabulary entry [i]. *)
Definition entry_bytes (i : nat) (s : str) : str := decoded_token spm (byte_fallback_byte s (token_types !! i)) s.

Lemma size_fits : zlen vocab < 2 ^ 32.
Proof using All. pose proof (vo_size _ _ _ Hok). unfold U32_MAX in *. lia. Qed.

Lemma decoded_lookup i s : vocab !! i = Some s -> decoded !! i = Some (entry_bytes i s).
Proof.
  intros Hi. subst decoded fallbacks. unfold build_fallbacks.
  rewrite lookup_zip_with, list_lookup_imap, Hi. done.
Qed.
Lemma length_decoded : length decoded = length vocab.
Proof. subst decoded fallbacks. unfold build_fallbacks. rewrite length_zip_with, length_imap. lia. Qed.

Lemma length_entry_bytes i s : (length (entry_bytes i s) <= length s)%nat.
Proof.
  unfold entry_bytes, decoded_token. destruct (byte_fallback_byte s _) as [b|] eqn:E.
  - apply fallback_length in E as [-> _]. simpl. lia.
  - destruct spm; [done|]. rewrite length_fmap. apply length_chars.
Qed.

Lemma decoded_fits : zlen (mjoin decoded) < 2 ^ 32.
Proof using All.
  enough (length (mjoin decoded) <= length (mjoin vocab))%nat
    by (pose proof (vo_bytes _ _ _ Hok); unfold zlen in *; lia).
  enough (forall l k, (length (mjoin (zip_with (decoded_token spm)
            (imap (fun id token => byte_fallback_byte token (token_types !! (k + id)%nat)) l) l))
            <= length (mjoin l))%nat) as H by apply (H vocab 0%nat).
  induction l as [|s l IH]; intros k; [done|]. cbn [imap zip_with]. rewrite !mjoin_cons, !length_app.
  rewrite Nat.add_0_r. pose proof (length_entry_bytes k s) as H1. unfold entry_bytes in H1.
  specialize (IH (S k)). assert (forall f g : nat -> str -> option Z, (forall i x, f i x = g i x) -> imap f l = imap g l) as Hext.
  { intros f g Hfg. apply imap_ext. intros. apply Hfg. }
  rewrite (Hext _ (fun id token => byte_fallback_byte token (token_types !! (S k + id)%nat)));
    [lia|]. intros i x. unfold compose. f_equal. f_equal. lia.
Qed.

Lemma ids_sound s id : ids !! s = Some id -> 0 <= id < zlen vocab /\ vocab !! Z.to_nat id = Some s.
Proof using All.
  unfold ids, build_token_to_id.
  apply (foldl_inv (fun m : gmap str Z => forall s id, m !! s = Some id -> 0 <= id < zlen vocab /\ vocab !! Z.to_nat id = Some s)).
  - intros s' id'. by rewrite lookup_empty.
  - intros m [i x] Hin Hm s' id'. apply elem_of_enumerate in Hin; [|apply size_fits].
    rewrite lookup_insert_Some. intros [[<- <-]|[_ H]]; [done | by apply Hm].
Qed.

(** The two-byte table never reads out of its arena, and maps what the arena holds. *)
Definition two_byte_ok (m : gmap (byte * byte) Z) : Prop :=
  forall b0 b1 id, m !! (b0, b1) = Some id -> 0 <= id < zlen vocab /\ decoded !! Z.to_nat id = Some [b0; b1].
Lemma build_two_byte_ok :
  exists m, build_two_byte pre_type spm (length vocab) (mjoin decoded) (offsets_from 0 decoded) = Some m /\ two_byte_ok m.
Proof using All.
  unfold build_two_byte. destruct (_ && _); [|exists ∅; split; [done|]; intros b0 b1 id; by rewrite lookup_empty].
  apply (foldl_inv (fun acc => exists m, acc = Some m /\ two_byte_ok m)).
  - exists ∅. split; [done|]. intros b0 b1 id. by rewrite lookup_empty.
  - intros acc id [Hid1 Hid2]%elem_of_seqZ (m & -> & Hm).
    destruct (lookup_lt_is_Some_2 decoded (Z.to_nat id) ltac:(rewrite length_decoded; lia)) as [p Hp].
    pose proof (arena_part_lookup decoded (Z.to_nat id) p decoded_fits Hp) as Hpart.
    rewrite Z2Nat.id in Hpart by lia. rewrite Hpart.
    destruct p as [|b0 [|b1 [|]]]; try (by exists m).
    destruct (m !! (b0, b1)) eqn:E; [by exists m|]. eexists. split; [done|].
    intros c0 c1 id'. rewrite lookup_insert_Some. intros [[E1 <-]|[_ H]]; [|by apply Hm]. simplify_eq.
    pose proof size_fits. unfold as_u32, zlen in *. rewrite Z.mod_small by lia. split; [lia | done].
Qed.

Lemma new_total : exists t, new vocab merges pre_type token_types = Some t.
Proof using All.
  destruct build_two_byte_ok as (m & Hm & _). unfold new. fold ids spm fallbacks decoded. rewrite Hm. by eexists.
Qed.

(** The tokenizer [new] returns, when it returns. *)
Context (t : BpeTokenizer) (Hnew : new vocab merges pre_type token_types = Some t).

Lemma new_fields :
  tok_offsets t = offsets_from 0 vocab /\ tok_arena t = mjoin vocab /\
  bytes_arena t = mjoin decoded /\ bytes_offsets t = offsets_from 0 decoded /\
  merge_table t = build_merge_table ids merges /\ byte_to_token t = build_byte_to_token ids /\
  byte_to_fallback t = build_byte_to_fallback fallbacks /\ special_tokens t = build_special vocab token_types /\
  is_spm_bpe t = spm /\ char_to_token t = build_char_to_token spm ids vocab /\
  build_two_byte pre_type spm (length vocab) (mjoin decoded) (offsets_from 0 decoded) = Some (qwen_two_byte_tokens t).
Proof using Hnew.
  unfold new in Hnew. fold ids spm fallbacks decoded in Hnew.
  destruct (build_two_byte _ _ _ _ _) as [q|] eqn:E; [|done]. cbn in Hnew. injection Hnew as <-. done.
Qed.

Lemma vocab_size_new : vocab_size t = zlen vocab.
Proof using Hnew.
  destruct new_fields as (E & _). unfold vocab_size. rewrite E. unfold zlen. rewrite length_offsets_from. lia.
Qed.

Lemma token_bytes_new i s : vocab !! i = Some s -> token_bytes t (Z.of_nat i) = Some (entry_bytes i s).
Proof using All.
  intros Hi. destruct new_fields as (_ & _ & E1 & E2 & _). unfold token_bytes. rewrite E1, E2.
  apply arena_part_lookup; [apply decoded_fits | by apply decoded_lookup].
Qed.

Lemma spells_entry id s : 0 <= id < zlen vocab -> vocab !! Z.to_nat id = Some s ->
  spells t [id] (entry_bytes (Z.to_nat id) s).
Proof using All.
  intros Hid Hs. apply spells_one. rewrite vocab_size_new. split; [done|].
  rewrite <- (Z2Nat.id id) at 1 by lia. by apply token_bytes_new.
Qed.

Lemma entry_bytes_app i j k a b :
  utf8_valid a = true ->
  byte_fallback_byte a (token_types !! i) = None -> byte_fallback_byte b (token_types !! j) = None ->
  byte_fallback_byte (a ++ b) (token_types !! k) = None ->
  entry_bytes k (a ++ b) = entry_bytes i a ++ entry_bytes j b.
Proof.
  intros Ha E1 E2 E3. unfold entry_bytes, decoded_token. rewrite E1, E2, E3.
  destruct spm; [done|]. by rewrite chars_app, fmap_app.
Qed.

Lemma merge_entry_sound a b p m : merge_table t !! (a, b) = Some (p, m) ->
  p < U32_MAX /\ exists x y, ids !! x = Some a /\ ids !! y = Some b /\ ids !! (x ++ y) = Some m /\ (x, y) ∈ merges.
Proof using All.
  destruct new_fields as (_ & _ & _ & _ & -> & _). unfold build_merge_table. revert a b p m.
  apply (foldl_inv (fun tbl : gmap (Z * Z) (Z * Z) => forall a b p m, tbl !! (a, b) = Some (p, m) ->
    p < U32_MAX /\ exists x y, ids !! x = Some a /\ ids !! y = Some b /\ ids !! (x ++ y) = Some m /\ (x, y) ∈ merges)).
  - intros a b p m. by rewrite lookup_empty.
  - intros tbl [pr [x y]] Hin IH a b p m.
    pose proof (vo_merges _ _ _ Hok) as Hm. 
    apply elem_of_enumerate in Hin as [Hpr Hxy]; [|unfold U32_MAX in *; lia].
    destruct (ids !! x) as [aid|] eqn:Ex; [|apply IH]. destruct (ids !! y) as [bid|] eqn:Ey; [|apply IH].
    destruct (ids !! (x ++ y)) as [mid|] eqn:Exy; [|apply IH].
    rewrite lookup_insert_Some. intros [[E1 E2]|[_ H]]; [|by eapply IH]. simplify_eq. split; [lia|].
    exists x, y. repeat split; try done. by eapply list_elem_of_lookup_2.
Qed.

Lemma merge_sound a b p m : merge_table t !! (a, b) = Some (p, m) ->
  p < U32_MAX /\ forall x y, spells t [a] x -> spells t [b] y -> spells t [m] (x ++ y).
Proof using All.
  intros H. apply merge_entry_sound in H as (Hp & x & y & Hx & Hy & Hxy & Hin). split; [done|].
  apply ids_sound in Hx as [Ha Hx], Hy as [Hb Hy], Hxy as [Hm Hxy].
  intros bx by_ [_ Hbx]%spells_one [_ Hby]%spells_one.
  pose proof (spells_entry _ _ Ha Hx) as [_ E1]%spells_one. pose proof (spells_entry _ _ Hb Hy) as [_ E2]%spells_one.
  rewrite Hbx in E1. rewrite Hby in E2. simplify_eq.
  rewrite <- (entry_bytes_app _ _ (Z.to_nat m)); [by apply spells_entry | ..].
  - pose proof (vo_utf8 _ _ _ Hok) as Hu. rewrite Forall_forall in Hu. apply Hu. by eapply list_elem_of_lookup_2.
  - eapply (vo_plain _ _ _ Hok _ x x y); eauto.
  - eapply (vo_plain _ _ _ Hok _ y x y); eauto.
  - eapply (vo_plain _ _ _ Hok _ (x ++ y) x y); eauto.
Qed.

Lemma byte_index b : (Z.to_nat (Z_of_byte b) < 256)%nat.
Proof. pose proof (Z_of_byte_range b). lia. Qed.

Lemma byte_to_token_sound b id :
  byte_to_token t !!! Z.to_nat (Z_of_byte b) = id -> id <> U32_MAX ->
  exists c, (Z_of_byte b, c) ∈ gpt2_byte_unicode_pairs /\ ids !! encode_utf8 c = Some id.
Proof using All.
  destruct new_fields as (_ & _ & _ & _ & _ & -> & _). unfold build_byte_to_token.
  assert (let arr := foldl (fun arr '(b, c) => match ids !! encode_utf8 c with
            | Some id => <[Z.to_nat b := id]> arr | None => arr end) (replicate 256 U32_MAX) gpt2_byte_unicode_pairs in
    length arr = 256%nat /\ forall k id, arr !! k = Some id -> id <> U32_MAX ->
      exists b c, k = Z.to_nat b /\ (b, c) ∈ gpt2_byte_unicode_pairs /\ ids !! encode_utf8 c = Some id) as [Hlen Harr].
  { cbv zeta. apply (foldl_inv (fun arr : list Z => length arr = 256%nat /\ forall k id, arr !! k = Some id ->
      id <> U32_MAX -> exists b c, k = Z.to_nat b /\ (b, c) ∈ gpt2_byte_unicode_pairs /\ ids !! encode_utf8 c = Some id)).
    - split; [apply length_replicate|]. intros k i [-> _]%lookup_replicate_1. congruence.
    - intros arr [b' c'] Hin [Hl IH]. destruct (ids !! encode_utf8 c') as [i|] eqn:E; [|done].
      split; [by rewrite length_insert|]. intros k i'.
      rewrite list_lookup_insert_Some. intros [(<- & <- & _)|(_ & H)]; [by exists b', c' | by apply IH]. }
  cbv zeta in Hlen. intros Hb Hne.
  destruct (lookup_lt_is_Some_2 (foldl _ _ gpt2_byte_unicode_pairs) _ ltac:(rewrite Hlen; apply (byte_index b))) as [i Hi].
  rewrite (list_lookup_total_correct _ _ _ Hi) in Hb. subst i.
  destruct (Harr _ _ Hi Hne) as (b' & c & E & Hin & Hc). exists c. split; [|done].
  apply gpt2_pairs_ok in Hin as Hb'. pose proof (Z_of_byte_range b).
  assert (b' = Z_of_byte b) as -> by (destruct Hb' as [? _]; lia). done.
Qed.

Lemma byte_to_fallback_sound b id :
  byte_to_fallback t !!! Z.to_nat (Z_of_byte b) = id -> id <> U32_MAX ->
  0 <= id < zlen vocab /\ exists s, vocab !! Z.to_nat id = Some s /\
    byte_fallback_byte s (token_types !! Z.to_nat id) = Some (Z_of_byte b).
Proof using All.
  destruct new_fields as (_ & _ & _ & _ & _ & _ & -> & _). unfold build_byte_to_fallback.
  set (P := fun arr : list Z => length arr = 256%nat /\ forall k id, arr !! k = Some id ->
      id <> U32_MAX -> 0 <= id < zlen vocab /\ exists b s, k = Z.to_nat b /\ vocab !! Z.to_nat id = Some s /\
      byte_fallback_byte s (token_types !! Z.to_nat id) = Some b).
  assert (zlen fallbacks = zlen vocab) as Hfl by (unfold zlen, fallbacks, build_fallbacks; by rewrite length_imap).
  pose proof size_fits as Hsz.
  assert (P (foldl (fun arr '(id, byte) => match byte with
             | Some b => if arr !!! Z.to_nat b =? U32_MAX then <[Z.to_nat b := id]> arr else arr
             | None => arr end) (replicate 256 U32_MAX) (enumerate fallbacks))) as [Hlen Harr].
  { apply foldl_inv.
    - split; [apply length_replicate|]. intros k i [-> _]%lookup_replicate_1. congruence.
    - intros arr [i o] Hin [Hl IH]. destruct o as [b'|]; [|done]. destruct (_ =? _); [|done].
      apply elem_of_enumerate in Hin as [Hi Hlk]; [|lia]. unfold fallbacks, build_fallbacks in Hlk.
      rewrite list_lookup_imap in Hlk. destruct (vocab !! Z.to_nat i) as [s|] eqn:Es; [|done].
      cbn in Hlk. injection Hlk as Hlk.
      split; [by rewrite length_insert|]. intros k i'.
      rewrite list_lookup_insert_Some. intros [(<- & <- & _)|(_ & H)]; [|by apply IH].
      intros _. split; [lia|]. by exists b', s. }
  intros Hb Hne.
  destruct (lookup_lt_is_Some_2 (foldl _ _ (enumerate fallbacks)) _ ltac:(rewrite Hlen; apply (byte_index b))) as [i Hi].
  rewrite (list_lookup_total_correct _ _ _ Hi) in Hb. subst i.
  destruct (Harr _ _ Hi Hne) as (Hid & b' & s & E & Hs & Hf). split; [done|]. exists s. split; [done|].
  apply fallback_length in Hf as Hb'. pose proof (Z_of_byte_range b).
  assert (b' = Z_of_byte b) as -> by (destruct Hb' as [_ ?]; lia). done.
Qed.

Lemma byte_token_sound b id : spm_alphabet_ok vocab pre_type -> byte_token t b = Ok id -> spells t [id] [b].
Proof using All.
  intros Hspm. unfold byte_token.
  destruct (negb (byte_to_token t !!! _ =? U32_MAX)) eqn:E1; bool_prop.
  - intros [= Hid]. destruct (byte_to_token_sound b id Hid ltac:(congruence)) as (c & Hin & Hc).
    apply ids_sound in Hc as [Hr Hv]. pose proof (spells_entry _ _ Hr Hv) as Hs.
    replace [b] with (entry_bytes (Z.to_nat id) (encode_utf8 c)); [done|].
    destruct (gpt2_pairs_ok _ _ Hin) as (_ & Hch & Hcp & Hu & Hlen). unfold entry_bytes, decoded_token.
    destruct (byte_fallback_byte _ _) as [f|] eqn:Ef; [apply fallback_length in Ef; lia|].
    destruct spm eqn:Es.
    + destruct (decide (encode_utf8 c = [byte_of_Z (Z_of_byte b)])) as [->|Hne].
      * by rewrite byte_of_Z_of_byte.
      * exfalso. eapply (Hspm Es _ _ Hin Hne). by eapply list_elem_of_lookup_2.
    + rewrite Hch. cbn. rewrite Hcp, Hu. cbn. by rewrite byte_of_Z_of_byte.
  - destruct (negb (byte_to_fallback t !!! _ =? U32_MAX)) eqn:E2; bool_prop; [|done].
    intros [= Hid]. destruct (byte_to_fallback_sound b id Hid ltac:(congruence)) as (Hr & s & Hv & Hf).
    pose proof (spells_entry _ _ Hr Hv) as Hs. unfold entry_bytes, decoded_token in Hs. rewrite Hf in Hs.
    by rewrite byte_of_Z_of_byte in Hs.
Qed.

Lemma two_byte_sound b0 b1 id : qwen_two_byte_tokens t !! (b0, b1) = Some id -> spells t [id] [b0; b1].
Proof using All.
  intros H. destruct build_two_byte_ok as (m & Hm & Hmok).
  destruct new_fields as (_ & _ & _ & _ & _ & _ & _ & _ & _ & _ & Hq). rewrite Hm in Hq. injection Hq as ->.
  destruct (Hmok _ _ _ H) as [Hid Hd].
  destruct (lookup_lt_is_Some_2 vocab (Z.to_nat id) ltac:(unfold zlen in *; lia)) as [s Hs].
  rewrite (decoded_lookup _ _ Hs) in Hd. injection Hd as <-. by apply spells_entry.
Qed.

Lemma char_sound ch id : char_to_token t !! ch = Some id -> spells t [id] ch.
Proof using All.
  destruct new_fields as (_ & _ & _ & _ & _ & _ & _ & _ & _ & -> & _). unfold build_char_to_token.
  pose proof spells_entry as Hentry. pose proof ids_sound as Hids. pose proof size_fits as Hsz.
  unfold entry_bytes in Hentry. destruct spm eqn:Es; [|by rewrite lookup_empty].
  set (P := fun m : gmap str Z => forall ch id, m !! ch = Some id ->
         0 <= id < zlen vocab /\ vocab !! Z.to_nat id = Some ch /\ (length ch <> 6 \/ length (chars ch) = 1)%nat).
  intros H. enough (0 <= id < zlen vocab /\ vocab !! Z.to_nat id = Some ch /\ (length ch <> 6 \/ length (chars ch) = 1)%nat)
    as (Hid & Hv & Hlen).
  { pose proof (Hentry _ _ Hid Hv) as Hs. unfold decoded_token in Hs. destruct (byte_fallback_byte _ _) as [f|] eqn:Ef; [|done].
    apply fallback_chars in Ef as Hn. apply fallback_length in Ef. lia. }
  revert ch id H. change (P (foldl (fun m b => match m !! encode_utf8 b with
      | Some _ => m | None => match ids !! encode_utf8 b with Some id => <[encode_utf8 b := id]> m | None => m end end)
      (foldl (fun m '(id, token) => if (length (chars token) =? 1)%nat then <[token := id]> m else m) ∅ (enumerate vocab))
      (seqZ 0 256))).
  apply foldl_inv; [apply foldl_inv|].
  - intros ch id. by rewrite lookup_empty.
  - intros m [i s] Hin Hm. destruct (_ =? _)%nat eqn:E; [|done]. bool_prop.
    apply elem_of_enumerate in Hin as [Hi Hs]; [|done]. intros ch id. rewrite lookup_insert_Some.
    intros [[<- <-]|[_ Hl]]; [|by apply Hm]. split; [done|]. split; [done|]. by right.
  - intros m b Hb%elem_of_seqZ Hm. destruct (m !! _); [done|]. destruct (ids !! encode_utf8 b) as [i|] eqn:Ei; [|done].
    apply Hids in Ei as [Hi Hs]. intros ch id. rewrite lookup_insert_Some.
    intros [[<- <-]|[_ Hl]]; [|by apply Hm]. split; [done|]. split; [done|]. left.
    unfold encode_utf8. rewrite length_fmap. repeat case_match; simpl; lia.
Qed.

Lemma new_table_sound : spm_alphabet_ok vocab pre_type -> table_sound t.
Proof using All.
  intros Hspm. split.
  - apply merge_sound.
  - intros b id. by apply byte_token_sound.
  - apply two_byte_sound.
  - apply char_sound.
Qed.
End Build.

(** The byte tables have an entry for every byte. *)
Lemma byte_tables_length vocab merges pre_type token_types t :
  new vocab merges pre_type token_types = Some t ->
  length (byte_to_token t) = 256%nat /\ length (byte_to_fallback t) = 256%nat.
Proof.
  intros Hnew. destruct (new_fields _ _ _ _ _ Hnew) as (_ & _ & _ & _ & _ & -> & -> & _).
  unfold build_byte_to_token, build_byte_to_fallback.
  split; apply (foldl_inv (fun arr : list Z => length arr = 256%nat)); try apply length_replicate;
    intros arr [x y] _ Hl; repeat case_match; rewrite ?length_insert; done.
Qed.

(** ** Special tokens. *)
Lemma elem_of_insert_longest x y l : y ∈ insert_longest x l <-> y = x \/ y ∈ l.
Proof.
  induction l as [|z l IH]; cbn; [by rewrite list_elem_of_singleton, elem_of_nil; tauto|].
  case_match; rewrite !elem_of_cons; [done|]. rewrite IH. tauto.
Qed.
Lemma insert_longest_sorted x l :
  StronglySorted (fun x y : str * Z => zlen y.1 <= zlen x.1) l ->
  StronglySorted (fun x y : str * Z => zlen y.1 <= zlen x.1) (insert_longest x l).
Proof.
  induction 1 as [|z l Hl IH Hz]; cbn; [by repeat constructor|].
  destruct (_ <=? _) eqn:E; bool_prop.
  - constructor; [by constructor|]. constructor; [done|]. eapply Forall_impl; [exact Hz|]. cbn. intros; lia.
  - constructor; [done|]. apply Forall_forall. intros y [->|Hy]%elem_of_insert_longest; [lia|].
    rewrite Forall_forall in Hz. by apply Hz.
Qed.
Lemma build_special_sorted vocab token_types :
  StronglySorted (fun x y : str * Z => zlen y.1 <= zlen x.1) (build_special vocab token_types).
Proof.
  unfold build_special. induction (_ <$> _) as [|x l IH]; cbn; [constructor | by apply insert_longest_sorted].
Qed.
Lemma elem_of_build_special vocab token_types s id :
  zlen vocab < 2 ^ 32 ->
  (s, id) ∈ build_special vocab token_types <->
  0 <= id /\ vocab !! Z.to_nat id = Some s /\ is_special token_types (Z.to_nat id) s = true.
Proof.
  intros Hsz. unfold build_special.
  assert (forall l, (s, id) ∈ foldr insert_longest [] l <-> (s, id) ∈ l) as Hf.
  { induction l as [|x l IH]; cbn; [done|]. by rewrite elem_of_insert_longest, elem_of_cons, IH. }
  rewrite Hf, list_elem_of_fmap. split.
  - intros ([[i id'] s'] & E & Hin). injection E as -> ->.
    apply list_elem_of_In, filter_In in Hin as [Hin Hsp]. apply list_elem_of_In, elem_of_lookup_imap in Hin as (j & y & E & Hy).
    injection E as -> -> ->. pose proof (lookup_lt_Some _ _ _ Hy). unfold as_u32, zlen in *.
    rewrite Z.mod_small by lia. rewrite Nat2Z.id. split; [lia | done].
  - intros (Hid & Hv & Hsp). exists (Z.to_nat id, id, s). split; [done|]. apply list_elem_of_In, filter_In.
    split; [|done]. apply list_elem_of_In, elem_of_lookup_imap. exists (Z.to_nat id), s. split; [|done].
    pose proof (lookup_lt_Some _ _ _ Hv). unfold as_u32, zlen in *. rewrite Z2Nat.id, Z.mod_small by lia. done.
Qed.

(** A token that counts as special is never a byte fallback. *)
Lemma special_not_fallback token_types i s :
  is_special token_types i s = true -> byte_fallback_byte s (token_types !! i) = None.
Proof.
  unfold is_special, byte_fallback_byte. destruct (token_types !! i) as [ty|].
  - intros H. destruct (ty =? 6) eqn:E; [|done]. bool_prop. subst. done.
  - intros H. bool_prop. destruct s as [|c0 [|c1 [|c2 [|h1 [|h2 [|c5 [|]]]]]]]; try done.
    case_bool_decide as E; [|done]. injection E as -> -> -> ->. done.
Qed.

(** Special tokens are nonempty ASCII. *)
Definition specials_ok (vocab : list str) (token_types : list Z) : Prop :=
  forall i s, vocab !! i = Some s -> is_special token_types i s = true ->
    s <> [] /\ Forall (fun b => Z_of_byte b < 128) s.

Lemma special_spells vocab merges pre_type token_types t s id :
  vocab_ok vocab merges token_types -> specials_ok vocab token_types ->
  new vocab merges pre_type token_types = Some t -> (s, id) ∈ special_tokens t ->
  s <> [] /\ Forall (fun b => Z_of_byte b < 128) s /\ spells t [id] s.
Proof.
  intros Hok Hsp Hnew Hin. pose proof (size_fits _ _ pre_type _ Hok) as Hsz.
  destruct (new_fields _ _ _ _ _ Hnew) as (_ & _ & _ & _ & _ & _ & _ & E & _). rewrite E in Hin.
  apply elem_of_build_special in Hin as (Hid & Hv & His); [|done]. destruct (Hsp _ _ Hv His) as [Hne Hasc].
  split; [done|]. split; [done|]. pose proof (lookup_lt_Some _ _ _ Hv).
  assert (0 <= id < zlen vocab) as Hid' by (unfold zlen; lia).
  pose proof (spells_entry _ _ _ _ Hok _ Hnew id s Hid' Hv) as Hs.
  unfold entry_bytes in Hs. rewrite special_not_fallback in Hs by done. unfold decoded_token in Hs.
  destruct (detect_spm vocab pre_type); [done|]. rewrite chars_ascii in Hs by done.
  rewrite <- list_fmap_compose in Hs.
  replace (_ <$> s) with s in Hs; [done|]. clear -Hasc.
  induction Hasc as [|b s Hb Hasc IH]; [done|]. rewrite fmap_cons, <- IH. f_equal.
  unfold compose. cbn [code_point]. rewrite gpt2_ascii by (pose proof (Z_of_byte_range b); lia).
  by rewrite byte_of_Z_of_byte.
Qed.
