(* ===== verification/TokenizerCodec.v ===== *)
(** * Encoding and decoding are inverse, and merging is BPE.

    The theorems about [crates/muser-engine/src/tokenizer/bpe.rs]: the merge loop against its
    reference reduction, the special-token split, totality of the encoder and the byte-exact
    round trip through [decode_all]. *)
From Stdlib Require Import Strings.Byte.
From S2P Require Import Prelude Utf8 Substring Tokenizer TokenizerTables.

(** ** Byte-pair merging as a reduction. *)
Section Merge.
Context (tbl : gmap (Z * Z) (Z * Z)).

(** Rank of the adjacent pair at [j], if it has one. *)
Definition rank_at (ids : list Z) (j : nat) : option Z :=
  match ids !! j, ids !! S j with
  | Some a, Some b => fst <$> tbl !! (a, b)
  | _, _ => None
  end.

(** One reduction: the leftmost pair of lowest rank becomes its merged token. *)
Inductive bpe_step : list Z -> list Z -> Prop :=
| bpe_step_at pre a b post p m :
    tbl !! (a, b) = Some (p, m) ->
    (forall j q, rank_at (pre ++ a :: b :: post) j = Some q -> p <= q /\ ((j < length pre)%nat -> p < q)) ->
    bpe_step (pre ++ a :: b :: post) (pre ++ m :: post).

Definition normal (ids : list Z) : Prop := forall j, rank_at ids j = None.

Lemma rank_at_cons x ids j : rank_at (x :: ids) (S j) = rank_at ids j.
Proof. done. Qed.

Lemma scan_pairs_spec ids i best :
  let r := scan_pairs tbl i best ids in
  (r = best /\ forall j q, rank_at ids j = Some q -> best.1 <= q) \/
  (exists j, rank_at ids j = Some r.1 /\ r.2 = i + Z.of_nat j /\ r.1 < best.1 /\
     forall k q, rank_at ids k = Some q -> r.1 <= q /\ ((k < j)%nat -> r.1 < q)).
Proof.
  revert i best. induction ids as [|a [|b ids] IH]; intros i best r.
  - left. split; [done|]. intros j q. unfold rank_at. by rewrite lookup_nil.
  - left. split; [done|]. intros [|j] q; done.
  - subst r. change (scan_pairs tbl i best (a :: b :: ids)) with
      (scan_pairs tbl (i + 1) (match tbl !! (a, b) with
         | Some (priority, _) => if priority <? best.1 then (priority, i) else best | None => best end) (b :: ids)).
    assert (rank_at (a :: b :: ids) 0 = fst <$> tbl !! (a, b)) as H0 by done.
    set (best' := match tbl !! (a, b) with
         | Some (priority, _) => if priority <? best.1 then (priority, i) else best | None => best end).
    assert ((best' = best /\ forall q, rank_at (a :: b :: ids) 0 = Some q -> best.1 <= q) \/
            (rank_at (a :: b :: ids) 0 = Some best'.1 /\ best'.2 = i /\ best'.1 < best.1)) as Hb.
    { subst best'. rewrite H0. destruct (tbl !! (a, b)) as [[p m]|]; [|by left].
      destruct (p <? best.1) eqn:E; bool_prop; [by right|]. left. split; [done|]. intros q [= <-]. done. }
    specialize (IH (i + 1) best'). cbv zeta in IH.
    set (r := scan_pairs tbl (i + 1) best' (b :: ids)) in *. clearbody best'.
    destruct IH as [[-> Hall]|(j & Hj & Hi & Hlt & Hall)].
    + destruct Hb as [[-> Hq]|(Hr & Hi' & Hlt)].
      * left. split; [done|]. intros [|j] q; [apply Hq | rewrite rank_at_cons; apply Hall].
      * right. exists 0%nat. split; [done|]. split; [lia|]. split; [done|].
        intros [|k] q Hk; [rewrite Hr in Hk; injection Hk as <-; lia|].
        rewrite rank_at_cons in Hk. specialize (Hall k q Hk). lia.
    + right. exists (S j). rewrite rank_at_cons. split; [done|]. split; [lia|].
      assert (best'.1 <= best.1) by (destruct Hb as [[-> _]|(_ & _ & ?)]; lia). split; [lia|].
      intros [|k] q Hk.
      * destruct Hb as [[-> Hq]|(Hr & _ & _)]; [specialize (Hq q Hk); lia|].
        rewrite Hr in Hk. injection Hk as <-. lia.
      * rewrite rank_at_cons in Hk. specialize (Hall k q Hk). lia.
Qed.

Lemma rank_at_Some ids j q :
  rank_at ids j = Some q ->
  exists pre a b post m, ids = pre ++ a :: b :: post /\ length pre = j /\ tbl !! (a, b) = Some (q, m).
Proof.
  unfold rank_at. destruct (ids !! j) as [a|] eqn:Ha; [|done]. destruct (ids !! S j) as [b|] eqn:Hb; [|done].
  destruct (tbl !! (a, b)) as [[p m]|] eqn:E; [|done]. intros [= <-].
  exists (take j ids), a, b, (drop (S (S j)) ids), m. split; [|split; [|done]].
  - rewrite <- (take_drop j ids) at 1. by rewrite (drop_S _ _ _ Ha), (drop_S _ _ _ Hb).
  - rewrite length_take. apply lookup_lt_Some in Ha. lia.
Qed.

Lemma merge_at pre (a b : Z) post m :
  (pre ++ a :: b :: post) !! length pre = Some a /\ (pre ++ a :: b :: post) !! S (length pre) = Some b /\
  delete (S (length pre)) (<[length pre := m]> (pre ++ a :: b :: post)) = pre ++ m :: post.
Proof.
  split; [by rewrite (list_lookup_middle _ _ _ _ eq_refl)|]. split.
  - by rewrite lookup_app_r, Nat.sub_succ_l, Nat.sub_diag by lia.
  - rewrite insert_app_r_alt, Nat.sub_diag by lia. cbn [insert list_insert].
    pose proof (delete_middle (pre ++ [m]) post b) as D. rewrite length_app, <- !app_assoc in D.
    rewrite Nat.add_comm in D. exact D.
Qed.

(** A round is one reduction, and the loop stops only where none applies. *)
Lemma merge_round_spec ids :
  (forall a b p m, tbl !! (a, b) = Some (p, m) -> p < U32_MAX) -> zlen ids < USIZE_MAX ->
  match merge_round tbl ids with
  | Some ids' => bpe_step ids ids' /\ length ids = S (length ids')
  | None => normal ids
  end.
Proof.
  intros Hp Hlen. unfold merge_round.
  destruct (scan_pairs_spec ids 0 (U32_MAX, USIZE_MAX)) as [[-> Hall]|(j & Hj & Hi & _ & Hall)].
  - cbn. intros j. destruct (rank_at ids j) as [q|] eqn:E; [|done]. exfalso.
    specialize (Hall j q E). cbn in Hall. apply rank_at_Some in E as (? & a & b & ? & m & _ & _ & E).
    apply Hp in E. lia.
  - set (r := scan_pairs _ _ _ _) in *. clearbody r.
    apply rank_at_Some in Hj as (pre & a & b & post & m & -> & Hpre & E). rewrite Z.add_0_l in Hi. subst j.
    rewrite zlen_app in Hlen. pose proof (zlen_nonneg (a :: b :: post)). unfold zlen in Hlen.
    rewrite (proj2 (Z.eqb_neq _ _)) by lia. rewrite Hi, Nat2Z.id.
    destruct (merge_at pre a b post m) as (L1 & L2 & L3). rewrite L1, L2. cbn. rewrite E. cbn. rewrite L3.
    split; [by econstructor|]. rewrite !length_app. simpl. lia.
Qed.

(** Whatever a round does, it replaces one adjacent pair by its merged token. *)
Lemma merge_round_shape ids ids' :
  merge_round tbl ids = Some ids' ->
  exists pre a b post p m, ids = pre ++ a :: b :: post /\ tbl !! (a, b) = Some (p, m) /\ ids' = pre ++ m :: post.
Proof.
  unfold merge_round. set (i := Z.to_nat _). destruct (_ =? USIZE_MAX); [done|].
  destruct (ids !! i) as [a|] eqn:Ha; [|done]. destruct (ids !! S i) as [b|] eqn:Hb; [|done]. cbn.
  destruct (tbl !! (a, b)) as [[p m]|] eqn:E; [|done]. cbn. intros [= <-].
  assert (rank_at ids i = Some p) as Hr by (unfold rank_at; by rewrite Ha, Hb, E).
  apply rank_at_Some in Hr as (pre & a' & b' & post & m' & -> & <- & E').
  destruct (merge_at pre a' b' post m) as (L1 & L2 & L3). rewrite L3.
  exists pre, a', b', post, p, m. split; [done|]. split; [congruence | done].
Qed.

Lemma bpe_step_det ids x y : bpe_step ids x -> bpe_step ids y -> x = y.
Proof.
  intros Hx Hy. destruct Hx as [pre a b post p m E Hmin]. remember (pre ++ a :: b :: post) as l eqn:Hl.
  destruct Hy as [pre' a' b' post' p' m' E' Hmin'].
  assert (forall pre a b post p m, tbl !! (a, b) = Some (p, m) -> rank_at (pre ++ a :: b :: post) (length pre) = Some p) as Hr.
  { intros ? ? ? ? ? ? He. unfold rank_at. rewrite (list_lookup_middle _ _ _ _ eq_refl). rewrite lookup_app_r by lia.
    rewrite Nat.sub_succ_l, Nat.sub_diag by done. cbn. by rewrite He. }
  pose proof (Hr pre a b post p m E) as R1. rewrite <- Hl in R1. pose proof (Hr pre' a' b' post' p' m' E') as R2.
  destruct (Hmin _ _ R2) as [L1 L2], (Hmin' _ _ R1) as [L3 L4].
  assert (length pre = length pre') as Hlen by lia.
  apply app_inj_1 in Hl as [-> Hl]; [|done]. by simplify_eq.
Qed.
End Merge.

Lemma merge_loop_spec tbl fuel ids :
  (forall a b p m, tbl !! (a, b) = Some (p, m) -> p < U32_MAX) -> zlen ids < USIZE_MAX -> (length ids <= fuel)%nat ->
  rtc (bpe_step tbl) ids (merge_loop fuel tbl ids) /\ normal tbl (merge_loop fuel tbl ids).
Proof.
  intros Hp. revert ids. induction fuel as [|fuel IH]; intros ids Hlen Hf.
  - destruct ids; [|simpl in Hf; lia]. split; [done|]. intros j. done.
  - cbn. pose proof (merge_round_spec tbl ids Hp Hlen) as Hr. destruct (merge_round tbl ids) as [ids'|]; [|done].
    destruct Hr as [Hs Hl]. destruct (IH ids') as [H1 H2]; [unfold zlen in *; lia | lia|].
    split; [by eapply rtc_l | done].
Qed.

Lemma normal_no_step tbl ids x : normal tbl ids -> bpe_step tbl ids x -> False.
Proof.
  intros Hn Hs. destruct Hs as [pre a b post p m E _]. specialize (Hn (length pre)). unfold rank_at in Hn.
  destruct (merge_at pre a b post m) as (L1 & L2 & _). by rewrite L1, L2, E in Hn.
Qed.

Lemma bpe_normal_unique tbl ids x y :
  rtc (bpe_step tbl) ids x -> normal tbl x -> rtc (bpe_step tbl) ids y -> normal tbl y -> x = y.
Proof.
  intros Hx Hnx. induction Hx as [ids|ids ids' x Hs Hx IH]; intros Hy Hny.
  - destruct Hy as [|? ? ? Hs _]; [done|]. by destruct (normal_no_step _ _ _ Hnx Hs).
  - destruct Hy as [|? y' ? Hs' Hy]; [by destruct (normal_no_step _ _ _ Hny Hs)|].
    apply (IH Hnx); [|done]. by rewrite (bpe_step_det _ _ _ _ Hs Hs').
Qed.

(** Merging keeps the bytes a token sequence spells. *)
Lemma merge_loop_spells t fuel ids bs :
  table_sound t -> spells t ids bs -> spells t (merge_loop fuel (merge_table t) ids) bs.
Proof.
  intros Ht. revert ids. induction fuel as [|fuel IH]; intros ids Hs; [done|]. cbn.
  destruct (merge_round (merge_table t) ids) as [ids'|] eqn:E; [|done]. apply IH.
  apply merge_round_shape in E as (pre & a & b & post & p & m & -> & E & ->).
  apply spells_app_inv in Hs as (x & y & Hx & Hy & ->).
  change (a :: b :: post) with ([a] ++ [b] ++ post) in Hy.
  apply spells_app_inv in Hy as (ya & y2 & Hya & Hy & ->). apply spells_app_inv in Hy as (yb & y3 & Hyb & Hy & ->).
  apply spells_app; [done|]. rewrite app_assoc. change (m :: post) with ([m] ++ post).
  apply spells_app; [|done]. by apply (ts_merge _ Ht _ _ _ _ E).
Qed.

(** C28. The merge loop is byte-pair encoding: for every tokenizer built from a well-formed
    vocabulary and every sequence of tokens, [bpe_merge_ids] terminates in the one normal form
    of the reference reduction -- repeatedly merging the leftmost adjacent pair of lowest rank
    until no adjacent pair has a merge rule. *)
Theorem bpe_merge_ids_is_bpe vocab merges pre_type token_types t ids :
  vocab_ok vocab merges token_types -> new vocab merges pre_type token_types = Some t -> zlen ids < USIZE_MAX ->
  forall ids', ids' = bpe_merge_ids t ids <->
    rtc (bpe_step (merge_table t)) ids ids' /\ normal (merge_table t) ids'.
Proof.
  intros Hok Hnew Hlen ids'.
  assert (forall a b p m, merge_table t !! (a, b) = Some (p, m) -> p < U32_MAX) as Hp
    by (intros a b p m E; by apply (merge_sound _ _ _ _ Hok _ Hnew) in E as [? _]).
  destruct (merge_loop_spec (merge_table t) (length ids) ids Hp Hlen (le_n _)) as [H1 H2].
  split; [by intros ->|]. intros [H3 H4]. by eapply bpe_normal_unique.
Qed.

(** ** Encoding spells the text. *)
Lemma spells_cons t id ids x y : spells t [id] x -> spells t ids y -> spells t (id :: ids) (x ++ y).
Proof. apply (spells_app t [id]). Qed.

Lemma traverse_spells {A} t (f : A -> result TokenizerError (list Z)) (g : A -> str) l idss :
  (forall x ids, f x = Ok ids -> spells t ids (g x)) -> traverse f l = Ok idss -> spells t (mjoin idss) (mjoin (g <$> l)).
Proof.
  intros Hf. revert idss. induction l as [|x l IH]; intros idss; cbn; [intros [= <-]; apply spells_nil|].
  destruct (f x) as [ids|] eqn:Ex; [|done]. destruct (traverse f l) as [idss'|]; [|done]. intros [= <-].
  rewrite mjoin_cons. apply spells_app; [by apply Hf | by apply IH].
Qed.
Lemma traverse_byte_spells t bs ids : table_sound t -> traverse (byte_token t) bs = Ok ids -> spells t ids bs.
Proof.
  intros Ht. revert ids. induction bs as [|b bs IH]; intros ids; cbn; [intros [= <-]; apply spells_nil|].
  destruct (byte_token t b) as [id|] eqn:Eb; [|done]. destruct (traverse (byte_token t) bs) as [ids'|]; [|done].
  intros [= <-]. apply (spells_cons t id ids' [b] bs); [by apply ts_byte | by apply IH].
Qed.

Lemma encode_word_spells t word ids : table_sound t -> encode_word t word = Ok ids -> spells t ids word.
Proof.
  intros Ht. unfold encode_word. destruct (qwen_exact_two_byte_token_id t word) as [id|] eqn:Eq.
  - intros [= <-]. unfold qwen_exact_two_byte_token_id in Eq. destruct (_ || _); [done|].
    destruct word as [|b0 [|b1 [|]]]; try done. by apply ts_two.
  - destruct (word_ids t word) as [ids0|] eqn:Ew; [|done]. intros [= <-]. apply merge_loop_spells; [done|].
    unfold word_ids in Ew. destruct (is_spm_bpe t); [|by apply traverse_byte_spells].
    destruct (traverse (char_ids t) (chars word)) as [idss|] eqn:Et; [|done]. injection Ew as <-.
    rewrite <- (chars_concat word), <- (list_fmap_id (chars word)).
    eapply traverse_spells; [|exact Et]. intros ch ids. unfold char_ids, id.
    destruct (char_to_token t !! ch) as [i|] eqn:Ec; [intros [= <-]; by apply ts_char | by apply traverse_byte_spells].
Qed.

Section Encoding.
Context (find_from_pos : string -> str -> nat -> option (nat * nat)).
Context (t : BpeTokenizer) (Ht : table_sound t) (Hre : contiguous find_from_pos (pre_regex t)).

(** The bytes no token stands for. *)
Definition unencodable (b : byte) : Prop := byte_token t b = Err (UnencodableByte (Z_of_byte b)).
Lemma byte_token_error b e : byte_token t b = Err e -> e = UnencodableByte (Z_of_byte b).
Proof. unfold byte_token. repeat case_match; congruence. Qed.

Lemma traverse_error {A B} (f : A -> result TokenizerError B) (l : list A) e :
  traverse f l = Err e -> exists x, x ∈ l /\ f x = Err e.
Proof.
  induction l as [|x l IH]; cbn; [done|]. destruct (f x) as [y|] eqn:Ex.
  - destruct (traverse f l); [done|]. intros [= ->]. destruct (IH eq_refl) as (x' & Hin & Hx).
    exists x'. split; [apply elem_of_cons; by right | done].
  - intros [= ->]. exists x. split; [apply elem_of_cons; by left | done].
Qed.

Lemma encode_word_error word e :
  encode_word t word = Err e -> exists b, b ∈ word /\ e = UnencodableByte (Z_of_byte b) /\ unencodable b.
Proof.
  assert (forall bs, traverse (byte_token t) bs = Err e ->
    exists b, b ∈ bs /\ e = UnencodableByte (Z_of_byte b) /\ unencodable b) as Hbs.
  { intros bs (b & Hin & Hb)%traverse_error. pose proof (byte_token_error _ _ Hb) as ->. by exists b. }
  unfold encode_word, word_ids, char_ids. case_match; [done|]. destruct (is_spm_bpe t).
  - destruct (traverse _ (chars word)) as [idss|e'] eqn:Et; [done|]. intros [= ->].
    apply traverse_error in Et as (ch & Hin & Hch). destruct (char_to_token t !! ch); [done|].
    apply Hbs in Hch as (b & Hb & Hr). exists b. split; [|done].
    rewrite <- (chars_concat word). apply list_elem_of_join. by exists ch.
  - destruct (traverse (byte_token t) word) as [ids|e'] eqn:Et; [done|]. intros [= ->]. by apply Hbs.
Qed.

Lemma slice_drop (s : str) pos stop : (pos <= stop)%nat -> slice s pos stop ++ drop stop s = drop pos s.
Proof.
  intros H. unfold slice. replace (drop stop s) with (drop (stop - pos) (drop pos s)).
  - apply take_drop.
  - rewrite drop_drop. f_equal. lia.
Qed.

(** The loop returns within its fuel; a success spells the rest of the text, an error names a
    byte of it that no token stands for. *)
Lemma encode_loop_spec fuel text pos ids :
  (length text - pos <= fuel)%nat -> (pos <= length text)%nat ->
  match encode_loop find_from_pos fuel t text pos ids with
  | Some (Ok ids') => exists more, ids' = ids ++ more /\ spells t more (drop pos text)
  | Some (Err e) => exists b, b ∈ drop pos text /\ e = UnencodableByte (Z_of_byte b) /\ unencodable b
  | None => False
  end.
Proof using All.
  revert pos ids. induction fuel as [|fuel IH]; intros pos ids Hf Hpos; cbn [encode_loop];
    destruct (drop pos text) as [|b r] eqn:Ed;
    try (exists []; rewrite app_nil_r; split; [done | apply spells_nil]).
  - pose proof (length_drop text pos) as Hl. rewrite Ed in Hl. simpl in Hl. lia.
  - destruct (find_from_pos (pre_regex t) text pos) as [[start stop]|] eqn:Ef.
    + destruct (Hre _ _ _ _ Ef) as (-> & Hstop & _).
      pose proof (slice_drop text pos stop ltac:(lia)) as Hs. rewrite Ed in Hs.
      destruct (encode_word t (slice text pos stop)) as [more|e] eqn:Ew.
      * specialize (IH stop (ids ++ more) ltac:(lia) ltac:(lia)).
        destruct (encode_loop _ _ _ _ _ _) as [[ids'|e]|]; [| |done].
        -- destruct IH as (more' & -> & Hm). exists (more ++ more'). rewrite app_assoc. split; [done|].
           rewrite <- Hs. apply spells_app; [by apply encode_word_spells | done].
        -- destruct IH as (b' & Hb' & Hr). exists b'. split; [|done]. rewrite <- Hs. apply elem_of_app. by right.
      * apply encode_word_error in Ew as (b' & Hb' & Hr). exists b'. split; [|done].
        rewrite <- Hs. apply elem_of_app. by left.
    + assert (drop (S pos) text = r) as Hd by (replace (S pos) with (pos + 1)%nat by lia; by rewrite <- drop_drop, Ed).
      pose proof (length_drop text pos) as Hl. rewrite Ed in Hl. simpl in Hl.
      destruct (byte_token t b) as [id|e] eqn:Eb.
      * specialize (IH (S pos) (ids ++ [id]) ltac:(lia) ltac:(lia)). rewrite Hd in IH.
        destruct (encode_loop _ _ _ _ _ _) as [[ids'|e]|]; [| |done].
        -- destruct IH as (more' & -> & Hm). exists (id :: more'). rewrite <- app_assoc. split; [done|].
           apply (spells_cons t id more' [b] r); [by apply ts_byte | done].
        -- destruct IH as (b' & Hb' & Hr). exists b'. split; [|done]. apply elem_of_cons. by right.
      * pose proof (byte_token_error _ _ Eb) as ->. exists b. split; [apply elem_of_cons; by left | done].
Qed.
End Encoding.

(** ** Splitting on special tokens. *)
(** No special token starts before [n]. *)
Definition none_before (specials : list (str * Z)) (text : str) (n : nat) : Prop :=
  forall q tok id, (q < n)%nat -> (tok, id) ∈ specials -> starts_with tok (drop q text) = false.

(** The split the encoder means: cut at the earliest special token, the longest one that
    starts there; keep nonempty text between. *)
Inductive splits (specials : list (str * Z)) : str -> list Segment -> Prop :=
| splits_nil : splits specials [] []
| splits_rest text : text <> [] -> none_before specials text (S (length text)) -> splits specials text [Text text]
| splits_at before tok id after segs :
    (tok, id) ∈ specials -> none_before specials (before ++ tok ++ after) (length before) ->
    (forall tok' id', (tok', id') ∈ specials -> starts_with tok' (tok ++ after) = true -> (length tok' <= length tok)%nat) ->
    splits specials after segs ->
    splits specials (before ++ tok ++ after)
      ((match before with [] => [] | _ => [Text before] end) ++ Special id :: segs).

(** The scan keeps the better of the best so far and each token, in list order. *)
Definition consider (text : str) (best : option (nat * str * Z)) (x : str * Z) : option (nat * str * Z) :=
  match find x.1 text with
  | Some pos =>
      if match best with None => true | Some (p, _, _) => (pos <? p)%nat end then Some (pos, x.1, x.2) else best
  | None => best
  end.
Lemma best_special_consider specials text : best_special specials text = foldl (consider text) None specials.
Proof. unfold best_special. generalize (@None (nat * str * Z)). induction specials as [|[tok id] l IH]; intros best; [done | apply IH]. Qed.

(** [pos], [tok] beats every occurrence listed: earlier, or as early and not shorter. *)
Definition beats (pos : nat) (tok : str) (p : nat) (tok' : str) : Prop :=
  (pos <= p)%nat /\ (p = pos -> (length tok' <= length tok)%nat).

Lemma consider_spec text best x :
  match best with None => True | Some (_, tok, _) => zlen x.1 <= zlen tok end ->
  match consider text best x with
  | None => best = None /\ find x.1 text = None
  | Some (pos, tok, id) =>
      (best = Some (pos, tok, id) \/ x = (tok, id) /\ find tok text = Some pos) /\
      (forall p, find x.1 text = Some p -> beats pos tok p x.1) /\
      (forall p tok' id', best = Some (p, tok', id') -> beats pos tok p tok')
  end.
Proof.
  intros Hb. unfold consider, beats. destruct x as [tk i]. cbn [fst snd] in *.
  destruct (find tk text) as [q|] eqn:Eq; destruct best as [[[p0 tk0] i0]|].
  - destruct (q <? p0)%nat eqn:E; bool_prop.
    + split; [by right|]. split; [intros ? [= <-]; lia|]. intros ? ? ? [= <- <- <-]. lia.
    + split; [by left|]. unfold zlen in Hb. split; [intros ? [= <-]; lia|]. intros ? ? ? [= <- <- <-]. lia.
  - split; [by right|]. split; [intros ? [= <-]; lia | done].
  - split; [by left|]. split; [done|]. intros ? ? ? [= <- <- <-]. lia.
  - done.
Qed.

Lemma beats_trans pos tok p1 tok1 p2 tok2 : beats pos tok p1 tok1 -> beats p1 tok1 p2 tok2 -> beats pos tok p2 tok2.
Proof. unfold beats. lia. Qed.

Lemma fold_consider_spec text l best :
  StronglySorted (fun x y => zlen y.1 <= zlen x.1) l ->
  match best with None => True | Some (_, tok, _) => forall x, x ∈ l -> zlen x.1 <= zlen tok end ->
  match foldl (consider text) best l with
  | None => best = None /\ forall x, x ∈ l -> find x.1 text = None
  | Some (pos, tok, id) =>
      (best = Some (pos, tok, id) \/ (tok, id) ∈ l /\ find tok text = Some pos) /\
      (forall x p, x ∈ l -> find x.1 text = Some p -> beats pos tok p x.1) /\
      (forall p tok' id', best = Some (p, tok', id') -> beats pos tok p tok')
  end.
Proof.
  revert best. induction l as [|x l IH]; intros best Hl Hb; cbn [foldl].
  - destruct best as [[[p tk] i]|]; [|split; [done | by intros ? ?%elem_of_nil]].
    split; [by left|]. split; [by intros ? ? ?%elem_of_nil|]. intros ? ? ? [= <- <- <-]. unfold beats. lia.
  - apply StronglySorted_inv in Hl as [Hl Hhd]. rewrite Forall_forall in Hhd.
    pose proof (consider_spec text best x) as Hc.
    assert (match best with None => True | Some (_, tok, _) => zlen x.1 <= zlen tok end) as Hx
      by (destruct best as [[[p tk] i]|]; [apply Hb, elem_of_cons; by left | done]).
    specialize (Hc Hx). set (best' := consider text best x) in *. clearbody best'.
    assert (match best' with None => True | Some (_, tk, _) => forall y, y ∈ l -> zlen y.1 <= zlen tk end) as Hb'.
    { destruct best' as [[[p tk] i]|]; [|done]. intros y Hy. destruct Hc as ([->|[-> _]] & _); [|by apply Hhd in Hy].
      apply Hb, elem_of_cons. by right. }
    specialize (IH best' Hl Hb'). destruct (foldl (consider text) best' l) as [[[pos tk] i]|].
    + destruct IH as (Hin & Hmin & Hbst). split; [|split].
      * destruct Hin as [->|[Hin Hfi]]; [|right; split; [apply elem_of_cons; by right | done]].
        destruct Hc as ([?|[-> ?]] & _); [by left|]. right. split; [apply elem_of_cons; by left | done].
      * intros y p [->|Hy]%elem_of_cons Hp; [|by eapply Hmin].
        destruct best' as [[[p1 tk1] i1]|]; [|destruct Hc; congruence].
        eapply beats_trans; [by eapply Hbst | by apply Hc].
      * intros p tok' id' ->. destruct best' as [[[p1 tk1] i1]|]; [|by destruct Hc].
        eapply beats_trans; [by eapply Hbst | by eapply Hc].
    + destruct IH as [-> Hl']. destruct Hc as [-> Hn]. split; [done|]. intros y [->|Hy]%elem_of_cons; [done | by apply Hl'].
Qed.

Lemma best_special_spec specials text :
  StronglySorted (fun x y => zlen y.1 <= zlen x.1) specials ->
  match best_special specials text with
  | None => none_before specials text (S (length text))
  | Some (pos, tok, id) => (tok, id) ∈ specials /\ find tok text = Some pos /\
      forall x p, x ∈ specials -> find x.1 text = Some p -> beats pos tok p x.1
  end.
Proof.
  intros Hs. rewrite best_special_consider. pose proof (fold_consider_spec text specials None Hs I) as Hf.
  destruct (foldl (consider text) None specials) as [[[pos tok] id]|].
  - destruct Hf as ([?|[H1 H2]] & H3 & _); done.
  - destruct Hf as [_ Hn]. intros q tok id Hq Hin. pose proof (find_spec tok text) as Hfs.
    pose proof (Hn _ Hin) as E. cbn [fst] in E. rewrite E in Hfs. apply Hfs. lia.
Qed.

Lemma split_loop_spec fuel specials text :
  StronglySorted (fun x y => zlen y.1 <= zlen x.1) specials ->
  (forall tok id, (tok, id) ∈ specials -> tok <> []) -> (length text <= fuel)%nat ->
  exists segs, split_loop fuel specials text = Some segs /\ splits specials text segs.
Proof.
  intros Hs Hne. revert text. induction fuel as [|fuel IH]; intros text Hf.
  { destruct text; [|simpl in Hf; lia]. exists []. split; [done | constructor]. }
  destruct text as [|b r]; [exists []; split; [done | constructor]|]. set (text := b :: r) in *. cbn [split_loop].
  unfold text at 1. cbv iota. pose proof (best_special_spec specials text Hs) as Hb.
  destruct (best_special specials text) as [[[pos tok] id]|]; [|eexists; split; [done|]; by apply splits_rest].
  destruct Hb as (Hin & Hfind & Hbeats). pose proof (find_spec tok text) as Hfs. rewrite Hfind in Hfs.
  destruct Hfs as (Hpos & [after Hat]%starts_with_spec & _).
  assert (text = take pos text ++ tok ++ after) as Htext by (rewrite <- Hat; by rewrite take_drop).
  assert (length (take pos text) = pos) as Hlp by (rewrite length_take; lia).
  assert (drop (pos + length tok) text = after) as Hdrop by (rewrite <- drop_drop, Hat; apply drop_app_length).
  pose proof (Hne _ _ Hin) as Htok.
  destruct (IH after) as (segs & Hsegs & Hsp).
  { apply (f_equal length) in Htext. rewrite !length_app in Htext. destruct tok; [done|]. simpl in *. lia. }
  rewrite Hdrop, Hsegs. cbn [mbind option_bind]. eexists. split; [done|].
  replace (if (0 <? pos)%nat then [Text (take pos text)] else []) with
    (match take pos text with [] => [] | _ => [Text (take pos text)] end)
    by (destruct pos; [done|]; by unfold text).
  rewrite Htext at 1. constructor; [done| | |done].
  - rewrite <- Htext, Hlp. intros q tok' id' Hq Hin'. destruct (starts_with tok' (drop q text)) eqn:E; [|done].
    pose proof (find_spec tok' text) as Hfs. destruct (find tok' text) as [p|] eqn:Ef.
    + destruct (Hbeats (tok', id') p Hin' Ef) as [L _]. destruct Hfs as (_ & _ & Hfs).
      rewrite Hfs in E by lia. done.
    + rewrite Hfs in E by lia. done.
  - intros tok' id' Hin' Hst. rewrite <- Hat in Hst. pose proof (find_spec tok' text) as Hfs.
    destruct (find tok' text) as [p|] eqn:Ef; [|rewrite Hfs in Hst by lia; done].
    destruct (Hbeats (tok', id') p Hin' Ef) as [L1 L2]. apply L2. destruct Hfs as (_ & _ & Hfs).
    destruct (decide (p = pos)) as [|Hn]; [done|]. rewrite (Hfs pos) in Hst by lia. done.
Qed.

(** The text a segment covers. *)
Definition covers (specials : list (str * Z)) (seg : Segment) (part : str) : Prop :=
  match seg with
  | Text s => part = s /\ s <> [] /\ none_before specials s (S (length s))
  | Special id => (part, id) ∈ specials
  end.

Lemma splits_covers specials text segs :
  (forall tok id, (tok, id) ∈ specials -> tok <> [] /\ Forall (fun b => Z_of_byte b < 128) tok) ->
  utf8_valid text = true -> splits specials text segs ->
  exists parts, Forall2 (covers specials) segs parts /\ text = mjoin parts /\ Forall (fun p => utf8_valid p = true) parts.
Proof.
  intros Hne Hv Hsp. revert Hv. induction Hsp as [|text Hn Hno|before tok id after segs Hin Hno Hlong Hsp IH]; intros Hv.
  - by exists [].
  - exists [text]. split; [|split; [cbn; by rewrite app_nil_r | by constructor]]. constructor; [done | constructor].
  - destruct (Hne _ _ Hin) as [Htok Hasc]. pose proof (ascii_valid _ Hasc) as Htv.
    assert (utf8_valid before = true /\ utf8_valid (tok ++ after) = true) as [Hbv Hrest].
    { destruct tok as [|x tok]; [done|]. apply utf8_split_ascii; [done|]. by inversion Hasc. }
    rewrite utf8_valid_app in Hrest by done. destruct (IH Hrest) as (parts & Hp & -> & Hpv).
    destruct before as [|b before].
    + exists (tok :: parts). split; [by constructor|]. split; [done | by constructor].
    + exists ((b :: before) :: tok :: parts). split; [|split; [done | by repeat constructor]].
      constructor; [|by constructor]. split; [done|]. split; [done|]. intros q tok' id' Hq Hin'.
      destruct (starts_with tok' (drop q (b :: before))) eqn:E; [|done].
      destruct (decide (q < length (b :: before))%nat) as [Hlt|Hge].
      * apply (starts_with_app _ _ (tok ++ mjoin parts)) in E. rewrite <- drop_app_le in E by lia.
        rewrite (Hno q tok' id' Hlt Hin') in E. done.
      * rewrite drop_ge in E by lia. destruct tok'; [by apply Hne in Hin' as [? _] | done].
Qed.

(** ** Space marks. *)
Lemma replace_char_app c d a b :
  utf8_valid a = true -> replace_char c d (a ++ b) = replace_char c d a ++ replace_char c d b.
Proof. intros Ha. unfold replace_char. by rewrite chars_app, bind_app. Qed.

(** Marking spaces and unmarking is unmarking. *)
Lemma unmark_mark a :
  utf8_valid a = true ->
  utf8_valid (replace_char SPACE LOWER_BLOCK a) = true /\
  replace_char LOWER_BLOCK SPACE (replace_char SPACE LOWER_BLOCK a) = replace_char LOWER_BLOCK SPACE a.
Proof.
  intros Ha. unfold replace_char at 1 3 4. pose proof (chars_valid a) as Hch.
  assert (forall ch, ch ∈ chars a -> utf8_valid ch = true /\ chars ch = [ch]) as Hl by (intros; by apply Hch).
  clear Ha Hch. induction (chars a) as [|ch l IH]; [done|].
  rewrite !bind_cons. destruct (Hl ch) as [Hv Hc]; [apply elem_of_cons; by left|].
  destruct IH as [IH1 IH2]; [intros x Hx; apply Hl, elem_of_cons; by right|].
  set (m := if bool_decide (ch = SPACE) then LOWER_BLOCK else ch).
  assert (utf8_valid m = true /\ replace_char LOWER_BLOCK SPACE m = if bool_decide (ch = LOWER_BLOCK) then SPACE else ch) as [Hm1 Hm2].
  { subst m. case_bool_decide as E; [subst; done|]. split; [done|]. unfold replace_char. rewrite Hc. cbn.
    by rewrite app_nil_r. }
  split; [by rewrite utf8_valid_app|]. rewrite replace_char_app by done. by rewrite Hm2, IH2.
Qed.

Lemma effective_valid t a : utf8_valid a = true ->
  utf8_valid (effective_text t a) = true /\ spm_unmark t (effective_text t a) = spm_unmark t a.
Proof. intros Ha. unfold effective_text, spm_unmark. destruct (is_spm_bpe t); [by apply unmark_mark | done]. Qed.
Lemma spm_unmark_app t a b : utf8_valid a = true -> spm_unmark t (a ++ b) = spm_unmark t a ++ spm_unmark t b.
Proof. intros Ha. unfold spm_unmark. destruct (is_spm_bpe t); [by apply replace_char_app | done]. Qed.

(** ** Decoding what tokens spell. *)
Lemma lossy_id bs : utf8_valid bs = true -> lossy bs = bs.
Proof.
  intros Hv. pose proof (lossy_valid bs Hv) as E. unfold from_utf8_lossy in E.
  apply (f_equal string_bytes) in E. by rewrite !string_bytes_string in E.
Qed.
Lemma decode_all_spells t ids bs : spells t ids bs -> decode_all t ids = Some (spm_unmark t (lossy bs)).
Proof.
  intros (parts & Hp & ->). unfold decode_all.
  enough (forall acc, foldl (fun acc id => bytes ← acc;
            if id <? vocab_size t then (fun bs => bytes ++ bs) <$> token_bytes t id else Some bytes) (Some acc) ids
          = Some (acc ++ mjoin parts)) as -> by done.
  induction Hp as [|id p ids parts [Hid Hb] Hp IH]; intros acc; cbn; [by rewrite app_nil_r|].
  rewrite (proj2 (Z.ltb_lt _ _)), Hb by lia. cbn. rewrite IH. by rewrite <- app_assoc.
Qed.

Section RoundTrip.
Context (find_from_pos : string -> str -> nat -> option (nat * nat)).
Context (vocab : list str) (merges : list (str * str)) (pre_type : string) (token_types : list Z) (t : BpeTokenizer).
Context (Hok : vocab_ok vocab merges token_types) (Hspm : spm_alphabet_ok vocab pre_type).
Context (Hsp : specials_ok vocab token_types) (Hnew : new vocab merges pre_type token_types = Some t).
Context (Hre : contiguous find_from_pos (pre_regex t)).

(** What a segment's tokens spell. *)
Definition segment_bytes (seg : Segment) (part : str) : str :=
  match seg with Text s => effective_text t s | Special _ => part end.

Lemma encode_segment_spec s ids :
  match encode_segment find_from_pos t s ids with
  | Some (Ok ids') => exists more, ids' = ids ++ more /\ spells t more (effective_text t s)
  | Some (Err e) => exists b, b ∈ effective_text t s /\ e = UnencodableByte (Z_of_byte b) /\ unencodable t b
  | None => False
  end.
Proof using All.
  pose proof (new_table_sound _ _ _ _ Hok _ Hnew Hspm) as Ht.
  apply (encode_loop_spec find_from_pos t Ht Hre _ _ 0 ids); lia.
Qed.

Lemma encode_segments_spec segs parts ids :
  Forall2 (covers (special_tokens t)) segs parts ->
  match encode_segments find_from_pos t segs ids with
  | Some (Ok ids') => exists more, ids' = ids ++ more /\ spells t more (mjoin (zip_with segment_bytes segs parts))
  | Some (Err e) => exists b s, Text s ∈ segs /\ b ∈ effective_text t s /\ e = UnencodableByte (Z_of_byte b) /\ unencodable t b
  | None => False
  end.
Proof using All.
  intros Hc. revert ids. induction Hc as [|seg part segs parts Hp Hc IH]; intros ids; cbn [encode_segments zip_with].
  { exists []. rewrite app_nil_r. split; [done | apply spells_nil]. }
  rewrite mjoin_cons. destruct seg as [s|id].
  - pose proof (encode_segment_spec s ids) as Hs. destruct (encode_segment _ _ _ _) as [[ids'|e]|]; [| |done]; cbn.
    + destruct Hs as (more & -> & Hs). specialize (IH (ids ++ more)).
      destruct (encode_segments _ _ _ _) as [[ids'|e]|]; [| |done].
      * destruct IH as (more' & -> & Hm). exists (more ++ more'). rewrite app_assoc. split; [done | by apply spells_app].
      * destruct IH as (b & s' & Hin & Hb). exists b, s'. split; [apply elem_of_cons; by right | done].
    + destruct Hs as (b & Hb & Hr). exists b, s. split; [apply elem_of_cons; by left | done].
  - specialize (IH (ids ++ [id])). destruct (encode_segments _ _ _ _) as [[ids'|e]|]; [| |done].
    + destruct IH as (more' & -> & Hm). exists (id :: more'). rewrite <- app_assoc. split; [done|].
      apply (spells_cons t id more' part); [|done].
      apply (special_spells _ _ _ _ _ _ _ Hok Hsp Hnew Hp).
    + destruct IH as (b & s' & Hin & Hb). exists b, s'. split; [apply elem_of_cons; by right | done].
Qed.

Lemma specials_ascii tok id : (tok, id) ∈ special_tokens t -> tok <> [] /\ Forall (fun b => Z_of_byte b < 128) tok.
Proof using Hok Hsp Hnew.
  intros Hin. destruct (special_spells _ _ _ _ _ _ _ Hok Hsp Hnew Hin) as (H1 & H2 & _). done.
Qed.

Lemma split_special_spec text :
  text <> [] -> exists segs, split_special_tokens t text = Some segs /\ splits (special_tokens t) text segs.
Proof using Hok Hsp Hnew.
  intros Hne. unfold split_special_tokens. pose proof specials_ascii as Hasc.
  destruct (new_fields _ _ _ _ _ Hnew) as (_ & _ & _ & _ & _ & _ & _ & E & _).
  pose proof (build_special_sorted vocab token_types) as Hs. rewrite <- E in Hs.
  destruct (special_tokens t) as [|x l] eqn:El.
  - exists [Text text]. split; [done|]. apply splits_rest; [done|]. intros q tok id _ ?%elem_of_nil. done.
  - apply split_loop_spec; [done| |done]. intros tok id Hin. by apply Hasc in Hin as [? _].
Qed.

(** Splitting a valid text covers it with valid parts. *)
Lemma split_special_covers text :
  text <> [] -> utf8_valid text = true ->
  exists segs parts, split_special_tokens t text = Some segs /\ Forall2 (covers (special_tokens t)) segs parts /\
    text = mjoin parts /\ Forall (fun p => utf8_valid p = true) parts.
Proof using All.
  intros Hne Hv. destruct (split_special_spec text Hne) as (segs & Hs & Hsplit).
  destruct (splits_covers _ _ _ specials_ascii Hv Hsplit) as (parts & H1 & H2 & H3). by exists segs, parts.
Qed.

Lemma segments_unmark segs parts :
  Forall2 (covers (special_tokens t)) segs parts -> Forall (fun p => utf8_valid p = true) parts ->
  utf8_valid (mjoin (zip_with segment_bytes segs parts)) = true /\
  spm_unmark t (mjoin (zip_with segment_bytes segs parts)) = spm_unmark t (mjoin parts).
Proof.
  induction 1 as [|seg part segs parts Hp Hc IH]; intros Hv; [done|]. cbn [zip_with]. rewrite !mjoin_cons.
  apply Forall_cons in Hv as [Hpv Hv]. destruct (IH Hv) as [IH1 IH2].
  assert (utf8_valid (segment_bytes seg part) = true /\ spm_unmark t (segment_bytes seg part) = spm_unmark t part) as [H1 H2].
  { destruct seg as [s|id]; [|done]. destruct Hp as [-> _]. by apply effective_valid. }
  split; [by rewrite utf8_valid_app|]. rewrite !spm_unmark_app by done. by rewrite H2, IH2.
Qed.

Lemma try_encode_spec text parse_special :
  utf8_valid text = true ->
  match try_encode_with_options find_from_pos t text parse_special with
  | Some (Ok ids) => exists bs, spells t ids bs /\ utf8_valid bs = true /\ spm_unmark t bs = spm_unmark t text
  | Some (Err e) => exists b, e = UnencodableByte (Z_of_byte b) /\ unencodable t b
  | None => False
  end.
Proof using All.
  intros Hv. unfold try_encode_with_options. destruct text as [|x r]; [exists []; split; [apply spells_nil | done]|].
  set (text := x :: r) in *. destruct parse_special; cbn [negb].
  - destruct (split_special_covers text) as (segs & parts & Hs & Hc & Ht & Hpv); [done | done|].
    rewrite Hs. cbn [mbind option_bind]. pose proof (encode_segments_spec segs parts [] Hc) as He.
    destruct (encode_segments _ _ _ _) as [[ids|e]|]; [| |done].
    + destruct He as (more & -> & Hm). eexists. split; [exact Hm|]. rewrite Ht. by apply segments_unmark.
    + destruct He as (b & s & _ & _ & He). by exists b.
  - pose proof (encode_segment_spec text []) as He. destruct (encode_segment _ _ _ _) as [[ids|e]|]; [| |done].
    + destruct He as (more & -> & Hm). eexists. split; [exact Hm|]. by apply effective_valid.
    + destruct He as (b & _ & He). by exists b.
Qed.
End RoundTrip.



(** Special tokens are found greedily: on every nonempty text the split ends, and it is the
    one that cuts at the earliest special token, taking the longest that starts there, again
    and again; the segments cover the text in order, and no special token occurs inside a
    text segment. *)
Theorem split_special_tokens_greedy vocab merges pre_type token_types t text :
  vocab_ok vocab merges token_types -> specials_ok vocab token_types ->
  new vocab merges pre_type token_types = Some t -> text <> [] -> utf8_valid text = true ->
  exists segs parts, split_special_tokens t text = Some segs /\ splits (special_tokens t) text segs /\
    Forall2 (covers (special_tokens t)) segs parts /\ text = mjoin parts.
Proof.
  intros Hok Hsp Hnew Hne Hv.
  destruct (split_special_spec vocab merges pre_type token_types t Hok Hsp Hnew text Hne) as (segs & Hs & Hsplit).
  destruct (splits_covers _ _ _ (specials_ascii _ _ _ _ _ Hok Hsp Hnew) Hv Hsplit) as (parts & H1 & H2 & _).
  by exists segs, parts.
Qed.

(** ** Untrusted text. *)
(** A token the encoder can produce without special-token parsing. *)
Definition ordinary (t : BpeTokenizer) (id : Z) : Prop :=
  (exists b, byte_token t b = Ok id) \/ (exists pair rank, merge_table t !! pair = Some (rank, id)) \/
  (exists pair, qwen_two_byte_tokens t !! pair = Some id) \/ (exists ch, char_to_token t !! ch = Some id).

Lemma traverse_Ok_elem {A B} (f : A -> result TokenizerError B) l ys y :
  traverse f l = Ok ys -> y ∈ ys -> exists x, f x = Ok y.
Proof.
  revert ys. induction l as [|x l IH]; intros ys; cbn; [intros [= <-] ?%elem_of_nil; done|].
  destruct (f x) eqn:Ex; [|done]. destruct (traverse f l) as [ys'|]; [|done].
  intros [= <-] [->|Hy]%elem_of_cons; [by exists x | by eapply IH].
Qed.

Lemma merge_loop_ordinary t fuel ids :
  (forall id, id ∈ ids -> ordinary t id) -> forall id, id ∈ merge_loop fuel (merge_table t) ids -> ordinary t id.
Proof.
  revert ids. induction fuel as [|fuel IH]; intros ids Hids; [done|]. cbn.
  destruct (merge_round (merge_table t) ids) as [ids'|] eqn:E; [|done]. apply IH.
  apply merge_round_shape in E as (pre & a & b & post & p & m & -> & E & ->).
  intros id Hin. apply elem_of_app in Hin as [Hin|Hin]; [apply Hids, elem_of_app; by left|].
  apply elem_of_cons in Hin as [->|Hin]; [right; left; by eauto|].
  apply Hids, elem_of_app. right. do 2 (apply elem_of_cons; right). done.
Qed.

Lemma encode_word_ordinary t word ids : encode_word t word = Ok ids -> forall id, id ∈ ids -> ordinary t id.
Proof.
  unfold encode_word. destruct (qwen_exact_two_byte_token_id t word) as [i|] eqn:Eq.
  - intros [= <-] id Hid. apply list_elem_of_singleton in Hid as ->. right. right. left. unfold qwen_exact_two_byte_token_id in Eq.
    destruct (_ || _); [done|]. destruct word as [|b0 [|b1 [|]]]; try done. by eexists.
  - destruct (word_ids t word) as [ids0|] eqn:Ew; [|done]. intros [= <-]. apply merge_loop_ordinary.
    unfold word_ids in Ew. destruct (is_spm_bpe t).
    + destruct (traverse (char_ids t) (chars word)) as [idss|] eqn:Et; [|done]. injection Ew as <-.
      intros id (ids & Hid & Hids)%list_elem_of_join. destruct (traverse_Ok_elem _ _ _ _ Et Hids) as [ch Hch].
      unfold char_ids in Hch. destruct (char_to_token t !! ch) as [i|] eqn:Ec.
      * injection Hch as <-. apply list_elem_of_singleton in Hid as ->. right. right. right. by exists ch.
      * destruct (traverse_Ok_elem _ _ _ _ Hch Hid) as [b Hb]. left. by exists b.
    + intros id Hid. destruct (traverse_Ok_elem _ _ _ _ Ew Hid) as [b Hb]. left. by exists b.
Qed.

Lemma encode_loop_ordinary find_from_pos fuel t text pos ids ids' :
  encode_loop find_from_pos fuel t text pos ids = Some (Ok ids') ->
  (forall id, id ∈ ids -> ordinary t id) -> forall id, id ∈ ids' -> ordinary t id.
Proof.
  revert pos ids. induction fuel as [|fuel IH]; intros pos ids; cbn [encode_loop].
  { destruct (drop pos text); [|discriminate]. intros [= <-] Hids. exact Hids. }
  destruct (drop pos text) as [|b r]; [intros [= <-] Hids; exact Hids|].
  destruct (find_from_pos (pre_regex t) text pos) as [[start stop]|].
  - destruct (encode_word t _) as [more|] eqn:Ew; [|done]. intros Hl Hids. apply (IH _ _ Hl).
    intros id [Hid|Hid]%elem_of_app; [by apply Hids | by eapply encode_word_ordinary].
  - destruct (byte_token t b) as [i|] eqn:Eb; [|done]. intros Hl Hids. apply (IH _ _ Hl).
    intros id [Hid|Hid]%elem_of_app; [by apply Hids|]. apply list_elem_of_singleton in Hid as ->. left. by exists b.
Qed.

(** C32. Untrusted text cannot name a control token: without special-token parsing, whatever
    the tokenizer, the regex and the text, every returned token is a byte's token, the product
    of a merge rule, a two-byte token or a character's token -- so a special token that is
    none of these is never emitted, however the text spells it. *)
Theorem untrusted_text_is_ordinary find_from_pos t text ids id :
  try_encode_with_options find_from_pos t text false = Some (Ok ids) -> id ∈ ids -> ordinary t id.
Proof.
  unfold try_encode_with_options. destruct text as [|x r]; [intros [= <-] ?%elem_of_nil; done|]. cbn [negb].
  intros He. eapply encode_loop_ordinary; [exact He|]. by intros i ?%elem_of_nil.
Qed.

(** ** A concrete tokenizer: two letters, their merge, a control token and a byte fallback;
    the pre-tokenizer takes the rest of the text as one word. *)
Definition rest_of_text (pattern : string) (text : str) (pos : nat) : option (nat * nat) :=
  if (pos <? length text)%nat && utf8_valid (drop pos text) then Some (pos, length text) else None.
Lemma rest_of_text_contiguous pattern : contiguous rest_of_text pattern.
Proof.
  intros text pos start stop. unfold rest_of_text. destruct (_ && _) eqn:E; [|done]. bool_prop.
  intros [= <- <-]. split; [done|]. split; [lia|]. unfold slice. rewrite take_ge; [done|]. rewrite length_drop. lia.
Qed.

Definition toy_vocab : list str :=
  [[x61]; [x62]; [x61; x62]; [x3c; x7c; x73; x7c; x3e]; [x3c; x30; x78; x46; x46; x3e]].
Definition toy_merges : list (str * str) := [([x61], [x62])].
Definition toy_types : list Z := [1; 1; 1; 3; 6].
Definition toy_tokenizer : BpeTokenizer :=
  Eval vm_compute in match new toy_vocab toy_merges "default" toy_types with Some t => t | None => mkBpe [] [] [] [] ∅ [] [] "" [] ∅ false ∅ end.
Lemma toy_new : new toy_vocab toy_merges "default" toy_types = Some toy_tokenizer.
Proof. vm_compute. reflexivity. Qed.

Lemma toy_vocab_ok : vocab_ok toy_vocab toy_merges toy_types.
Proof.
  split; try (vm_compute; congruence).
  - repeat constructor.
  - intros i s a b Hi Hin Hs. unfold toy_merges in Hin. apply list_elem_of_singleton in Hin. injection Hin as -> ->.
    destruct i as [|[|[|[|[|i]]]]]; cbn in Hi; try discriminate; injection Hi as <-; try reflexivity.
    destruct Hs as [Hs|[Hs|Hs]]; discriminate Hs.
Qed.
Lemma toy_specials_ok : specials_ok toy_vocab toy_types.
Proof.
  intros i s Hi Hs. destruct i as [|[|[|[|[|i]]]]]; cbn in Hi; try discriminate; injection Hi as <-; try discriminate Hs.
  split; [discriminate|]. repeat constructor.
Qed.
Lemma toy_alphabet_ok : spm_alphabet_ok toy_vocab "default".
Proof. intros H. vm_compute in H. discriminate H. Qed.

(** [ab<|s|>ba] with and without special-token parsing. *)
Definition toy_text : str := [x61; x62; x3c; x7c; x73; x7c; x3e; x62; x61].

Lemma bpe_merge_ids_is_bpe_witness :
  [2; 1] = bpe_merge_ids toy_tokenizer [0; 1; 1] /\
  rtc (bpe_step (merge_table toy_tokenizer)) [0; 1; 1] [2; 1].
Proof.
  split; [vm_compute; reflexivity|].
  exact (proj1 (proj1 (bpe_merge_ids_is_bpe toy_vocab toy_merges "default" toy_types toy_tokenizer [0; 1; 1]
    toy_vocab_ok toy_new ltac:(reflexivity) [2; 1]) ltac:(vm_compute; reflexivity))).
Defined.



Lemma split_special_tokens_greedy_witness :
  split_special_tokens toy_tokenizer toy_text = Some [Text [x61; x62]; Special 3; Text [x62; x61]] /\
  splits (special_tokens toy_tokenizer) toy_text [Text [x61; x62]; Special 3; Text [x62; x61]].
Proof.
  destruct (split_special_tokens_greedy toy_vocab toy_merges "default" toy_types toy_tokenizer toy_text
    toy_vocab_ok toy_specials_ok toy_new ltac:(discriminate) eq_refl) as (segs & parts & H1 & H2 & _).
  assert (segs = [Text [x61; x62]; Special 3; Text [x62; x61]]) as -> by (vm_compute in H1; congruence).
  split; [exact H1 | exact H2].
Defined.

Lemma untrusted_text_is_ordinary_witness :
  try_encode_with_options rest_of_text toy_tokenizer [x61; x62] false = Some (Ok [2]) /\ ordinary toy_tokenizer 2.
Proof.
  split; [vm_compute; reflexivity|].
  apply (untrusted_text_is_ordinary rest_of_text toy_tokenizer [x61; x62] [2] 2).
  - vm_compute. reflexivity.
  - apply list_elem_of_singleton. reflexivity.
Defined.

(** ** Where the code departs from what it means. *)

(** In SPM mode a byte of a character the vocabulary lacks is looked up in the GPT-2 table
    first: with the letter U+00E4 in the vocabulary, the byte E4 of U+4E2D is encoded as that
    letter although its byte-fallback token exists, and the text does not decode back. *)
Definition spm_vocab : list str :=
  [[xc3; xa4]; [x3c; x30; x78; x45; x34; x3e]; [x3c; x30; x78; x42; x38; x3e]; [x3c; x30; x78; x41; x44; x3e]].
Definition spm_tokenizer : option BpeTokenizer := Eval vm_compute in new spm_vocab [] "gemma4" [1; 6; 6; 6].
Example spm_fallback_prefers_letter :
  new spm_vocab [] "gemma4" [1; 6; 6; 6] = spm_tokenizer /\
  (t ← spm_tokenizer; try_encode_with_options rest_of_text t [xe4; xb8; xad] false) = Some (Ok [0; 2; 3]) /\
  (t ← spm_tokenizer; decode_all t [0; 2; 3]) <> Some [xe4; xb8; xad] /\
  (t ← spm_tokenizer; decode_all t [1; 2; 3]) = Some [xe4; xb8; xad].
Proof.
  split; [vm_compute; reflexivity|]. split; [vm_compute; reflexivity|].
  split; [vm_compute; discriminate | vm_compute; reflexivity].
Qed.

(** An empty special token (a control token of length zero) keeps the split from ending. *)
Example empty_special_never_ends fuel : split_loop fuel [([], 7)] [x61] = None.
Proof. induction fuel as [|fuel IH]; [done|]. cbn [split_loop best_special foldl find starts_with]. cbn. by rewrite IH. Qed.
