(* ===== verification/Detokenizer.v ===== *)
(** * The streaming detokenizer.

    Models [crates/muser-engine/src/tokenizer/streaming.rs]: token bytes are buffered until they
    form whole characters.  [stream] is a whole generation, one [push_token] per token and a
    final [flush]. *)
From Stdlib Require Import Strings.Byte.
From S2P Require Import Prelude Utf8 Tokenizer TokenizerTables TokenizerCodec.

Definition apply_spm_fixup (t : BpeTokenizer) (s : str) : str :=
  if is_spm_bpe t && bool_decide (LOWER_BLOCK ∈ chars s) then replace_char LOWER_BLOCK SPACE s else s.

(** Emitted text and retained bytes; the recursion drops one byte at a time. *)
Fixpoint drain_loop (fuel : nat) (t : BpeTokenizer) (pending : str) : str * str :=
  if utf8_valid pending then (apply_spm_fixup t pending, [])
  else
    let n := valid_up_to pending in
    if (n =? 0)%nat then
      if (4 <? length pending)%nat then
        match fuel with
        | O => ([], pending)
        | S fuel =>
            let out := lossy (take 1 pending) in
            let (more, pending) := drain_loop fuel t (drop 1 pending) in
            (apply_spm_fixup t (out ++ more), pending)
        end
      else ([], pending)
    else
      if utf8_valid (take n pending) then (apply_spm_fixup t (take n pending), drop n pending)
      else ([], pending).
Definition drain_complete (t : BpeTokenizer) (pending : str) : str * str := drain_loop (length pending) t pending.

Definition push_token (t : BpeTokenizer) (pending : str) (id : Z) : option (str * str) :=
  bytes ← get_token_bytes t id; Some (drain_complete t (pending ++ bytes)).
Definition flush (t : BpeTokenizer) (pending : str) : str * str :=
  match pending with [] => ([], []) | _ => (apply_spm_fixup t (lossy pending), []) end.

(** The text of a generation, piece after piece, from an empty buffer. *)
Fixpoint stream_from (t : BpeTokenizer) (pending : str) (ids : list Z) : option str :=
  match ids with
  | [] => Some (flush t pending).1
  | id :: ids => '(out, pending) ← push_token t pending id; more ← stream_from t pending ids; Some (out ++ more)
  end.
Definition stream (t : BpeTokenizer) (ids : list Z) : option str := stream_from t [] ids.

(** ** The fix-up is unmarking. *)
Lemma replace_char_absent c d s : c ∉ chars s -> replace_char c d s = s.
Proof.
  intros Hn. rewrite <- (chars_concat s) at 2. unfold replace_char. induction (chars s) as [|ch l IH]; [done|].
  rewrite bind_cons, mjoin_cons, IH by (intros Hin; apply Hn, elem_of_cons; by right).
  rewrite bool_decide_false; [done|]. intros ->. apply Hn, elem_of_cons. by left.
Qed.
Lemma fixup_unmark t s : apply_spm_fixup t s = spm_unmark t s.
Proof.
  unfold apply_spm_fixup, spm_unmark. destruct (is_spm_bpe t); [|done]. cbn. case_bool_decide as E; [done|].
  by rewrite replace_char_absent.
Qed.

(** ** What any byte stream is read as. *)
(** Characters as they are; ill-formed runs of at most three non-ASCII bytes as U+FFFD. *)
Inductive reading : str -> str -> Prop :=
| reading_nil : reading [] []
| reading_char ch bs s : utf8_valid ch = true -> chars ch = [ch] -> reading bs s -> reading (ch ++ bs) (ch ++ s)
| reading_bad bad bs s :
    bad <> [] -> (length bad <= 3)%nat -> Forall (fun b => 0x80 <= Z_of_byte b) bad -> reading bs s ->
    reading (bad ++ bs) (REPLACEMENT ++ s).

Lemma reading_app a b x y : reading a x -> reading b y -> reading (a ++ b) (x ++ y).
Proof.
  intros Ha Hb. induction Ha as [|ch bs s Hv Hc Hr IH|bad bs s Hn Hl Hh Hr IH]; [done| |];
    rewrite <- !app_assoc; by constructor.
Qed.
Lemma reading_text_valid bs s : reading bs s -> utf8_valid s = true.
Proof. induction 1 as [|ch bs s Hv Hc Hr IH|bad bs s Hn Hl Hh Hr IH]; [done|by rewrite utf8_valid_app|]. by rewrite utf8_valid_app. Qed.

Lemma reading_lossy bs : reading bs (lossy bs).
Proof.
  unfold lossy. induction bs as [|b r IH] using utf8_ind; [constructor|].
  rewrite utf8_chunks_cons. pose proof (classify_width b r) as Hw. pose proof (classify_bad_high b r) as Hh.
  destruct (classify b r) as [n|n|] eqn:Hc; rewrite ?bind_cons; cbn [lossy_chunk].
  - rewrite <- (take_drop n (b :: r)) at 1. apply reading_char; [..|apply IH; lia].
    all: destruct n as [|n]; [lia|]; cbn [take]; unfold utf8_valid, chars;
      rewrite utf8_chunks_cons, (classify_take _ _ _ Hc); cbn [take drop];
      rewrite take_take, Nat.min_id, drop_ge by (rewrite length_take; lia); done.
  - rewrite <- (take_drop n (b :: r)) at 1. apply reading_bad; [| |done|apply IH; lia].
    + destruct n; [lia | done].
    + rewrite length_take. assert (n <= 3)%nat; [|lia]. unfold classify in Hc. repeat case_match; simplify_eq; lia.
  - apply classify_truncated_length in Hc. rewrite app_nil_r. rewrite <- (app_nil_r (b :: r)), <- (app_nil_r REPLACEMENT).
    by apply reading_bad; [| | |constructor].
Qed.
Lemma reading_valid bs : utf8_valid bs = true -> reading bs bs.
Proof. intros Hv. rewrite <- (lossy_id bs Hv) at 2. apply reading_lossy. Qed.

Lemma spm_unmark_idem t s : utf8_valid s = true -> spm_unmark t (spm_unmark t s) = spm_unmark t s /\ utf8_valid (spm_unmark t s) = true.
Proof.
  intros Hv. unfold spm_unmark. destruct (is_spm_bpe t); [|done]. unfold replace_char at 2 3 4.
  pose proof (fun ch => chars_valid s ch Hv) as Hl. clear Hv.
  induction (chars s) as [|ch l IH]; [done|]. rewrite !bind_cons.
  destruct (Hl ch) as [Hv Hc]; [apply elem_of_cons; by left|].
  destruct IH as [IH1 IH2]; [intros x Hx; apply Hl, elem_of_cons; by right|].
  set (m := if bool_decide (ch = LOWER_BLOCK) then SPACE else ch).
  assert (utf8_valid m = true /\ replace_char LOWER_BLOCK SPACE m = m) as [Hm1 Hm2].
  { subst m. case_bool_decide as E; [done|]. split; [done|]. unfold replace_char. rewrite Hc. cbn.
    rewrite bool_decide_false by done. by rewrite app_nil_r. }
  split; [by rewrite replace_char_app, Hm2, IH1 | by rewrite utf8_valid_app].
Qed.

Lemma valid_up_to_0 b r : valid_up_to (b :: r) = 0%nat -> forall n, classify b r <> HChar n.
Proof.
  unfold valid_up_to. rewrite utf8_chunks_cons. pose proof (classify_width b r) as Hw. intros Hn n E.
  rewrite E in Hn, Hw. cbn in Hn. destruct n; [lia | done].
Qed.
Lemma stuck_byte b r :
  valid_up_to (b :: r) = 0%nat -> lossy [b] = REPLACEMENT /\ Forall (fun c => 0x80 <= Z_of_byte c) [b].
Proof.
  intros Hn. pose proof (valid_up_to_0 _ _ Hn) as Hc.
  assert (0x80 <= Z_of_byte b) as Hb.
  { destruct (decide (Z_of_byte b <= 0x7F)) as [Hle|]; [|lia]. by destruct (Hc 1%nat (classify_ascii b r Hle)). }
  split; [|by repeat constructor]. unfold lossy. rewrite utf8_chunks_cons. unfold classify.
  unfold lead_class. rewrite (proj2 (Z.leb_gt _ _)) by lia. repeat case_match; simplify_eq; done.
Qed.

(** Draining emits a reading of the bytes it removes from the front. *)
Lemma drain_reading fuel t pending :
  exists bytes raw, drain_loop fuel t pending = (spm_unmark t raw, drop (length bytes) pending) /\
    pending = bytes ++ drop (length bytes) pending /\ reading bytes raw.
Proof.
  assert (forall pending, exists bytes raw, ([] : str, pending) = (spm_unmark t raw, drop (length bytes) pending) /\
    pending = bytes ++ drop (length bytes) pending /\ reading bytes raw) as Hnone.
  { intros p. exists [], []. split; [unfold spm_unmark; by destruct (is_spm_bpe t)|]. split; [done | constructor]. }
  revert pending. induction fuel as [|fuel IH]; intros pending; cbn [drain_loop];
    (destruct (utf8_valid pending) eqn:Hv;
     [exists pending, pending; rewrite fixup_unmark, drop_all, app_nil_r; split; [done|]; split; [done | by apply reading_valid]|];
     destruct (valid_up_to pending =? 0)%nat eqn:E0;
     [|rewrite take_valid_up_to, fixup_unmark; exists (take (valid_up_to pending) pending), (take (valid_up_to pending) pending);
       assert (length (take (valid_up_to pending) pending) = valid_up_to pending) as -> by
         (rewrite length_take; pose proof (valid_up_to_le pending); lia);
       split; [done|]; split; [by rewrite take_drop | apply reading_valid, take_valid_up_to]]);
    destruct (4 <? length pending)%nat eqn:E4; try apply Hnone.
  bool_prop. destruct pending as [|b r]; [simpl in E4; lia|]. change (drop 1 (b :: r)) with r. change (take 1 (b :: r)) with [b].
  destruct (IH r) as (bytes & raw & Hd & Hr & Hread). rewrite Hd. destruct (stuck_byte b r E0) as [Hl Hh].
  exists (b :: bytes), (REPLACEMENT ++ raw). cbn [length drop]. split; [|split; [by rewrite Hr at 1|]].
  - rewrite fixup_unmark, Hl. f_equal. pose proof (reading_text_valid _ _ Hread) as Hrv.
    assert (utf8_valid REPLACEMENT = true) as HR by done. rewrite !spm_unmark_app by done.
    by rewrite (proj1 (spm_unmark_idem t raw Hrv)).
  - apply (reading_bad [b]); [done | simpl; lia | done | done].
Qed.

Lemma drain_fuel_enough fuel t pending : (length pending <= fuel)%nat -> drain_loop fuel t pending = drain_complete t pending.
Proof.
  unfold drain_complete. remember (length pending) as n eqn:Hn. revert fuel pending Hn.
  induction n as [|n IH]; intros fuel pending Hn Hf.
  - destruct pending; [|done]. by destruct fuel.
  - destruct fuel as [|fuel]; [lia|]. cbn [drain_loop]. repeat case_match; try done.
    all: rewrite IH in * by (rewrite ?length_drop; lia); congruence.
Qed.

(** While the rest of the stream completes it to valid UTF-8, draining emits exactly the whole
    characters at the front and keeps at most three bytes. *)
Lemma drain_valid t pending future :
  utf8_valid (pending ++ future) = true ->
  exists emitted, drain_complete t pending = (spm_unmark t emitted, drop (length emitted) pending) /\
    pending = emitted ++ drop (length emitted) pending /\ utf8_valid emitted = true /\
    utf8_valid (drop (length emitted) pending ++ future) = true /\ (length (drop (length emitted) pending) <= 3)%nat.
Proof.
  intros Hv.
  assert (exists n, (n <= length pending)%nat /\ drain_complete t pending = (spm_unmark t (take n pending), drop n pending) /\
            utf8_valid (take n pending) = true /\ (length (drop n pending) <= 3)%nat) as (n & Hn & Hd & Ht & Hl).
  2:{ exists (take n pending). rewrite length_take_le by done. split; [done|]. split; [by rewrite take_drop|].
      split; [done|]. split; [|done]. rewrite <- (take_drop n pending), <- app_assoc in Hv.
      by rewrite utf8_valid_app in Hv. }
  unfold drain_complete. destruct pending as [|b r]; [exists 0%nat; unfold apply_spm_fixup, spm_unmark;
    repeat split; try (simpl; lia); cbn; rewrite fixup_unmark; done|].
  cbn [length drain_loop]. set (p := b :: r) in *. change (S (length r)) with (length p).
  destruct (utf8_valid p) eqn:Hpv.
  { exists (length p). rewrite fixup_unmark, firstn_all, drop_all. repeat split; try done; simpl; lia. }
  assert (length (drop (valid_up_to p) p) <= 3)%nat as H3.
  { by apply (valid_tail_short future). }
  destruct (valid_up_to p =? 0)%nat eqn:E0; bool_prop.
  - rewrite E0, drop_0 in H3. rewrite (proj2 (Nat.ltb_ge _ _)) by lia. exists 0%nat.
    rewrite take_0, drop_0. split; [lia|]. split; [unfold spm_unmark; by destruct (is_spm_bpe t) | done].
  - exists (valid_up_to p). rewrite take_valid_up_to, fixup_unmark. split; [apply valid_up_to_le | done].
Qed.

Lemma flush_unmark t pending : (flush t pending).1 = spm_unmark t (lossy pending).
Proof. destruct pending; [unfold spm_unmark; by destruct (is_spm_bpe t) | apply fixup_unmark]. Qed.

Lemma stream_from_reading t ids parts pending :
  Forall2 (fun id p => get_token_bytes t id = Some p) ids parts ->
  exists raw, stream_from t pending ids = Some (spm_unmark t raw) /\ reading (pending ++ mjoin parts) raw.
Proof.
  intros Hp. revert pending. induction Hp as [|id p ids parts Hb Hp IH]; intros pending; cbn [stream_from].
  - exists (lossy pending). rewrite flush_unmark. split; [done|]. rewrite app_nil_r. apply reading_lossy.
  - unfold push_token. rewrite Hb. cbn.
    destruct (drain_reading (length (pending ++ p)) t (pending ++ p)) as (bytes & raw & Hd & Hpp & Hr).
    unfold drain_complete. rewrite Hd. cbn. destruct (IH (drop (length bytes) (pending ++ p))) as (raw' & -> & Hr').
    cbn. exists (raw ++ raw'). rewrite spm_unmark_app by by eapply reading_text_valid. split; [done|].
    rewrite app_assoc, Hpp, <- app_assoc. by apply reading_app.
Qed.

Lemma stream_from_valid t ids parts pending :
  Forall2 (fun id p => get_token_bytes t id = Some p) ids parts -> utf8_valid (pending ++ mjoin parts) = true ->
  stream_from t pending ids = Some (spm_unmark t (pending ++ mjoin parts)).
Proof.
  intros Hp. revert pending. induction Hp as [|id p ids parts Hb Hp IH]; intros pending Hv; cbn [stream_from].
  - rewrite flush_unmark. rewrite app_nil_r in *. by rewrite lossy_id.
  - unfold push_token. rewrite Hb. cbn [mbind option_bind]. rewrite mjoin_cons, app_assoc in Hv |- *.
    destruct (drain_valid t (pending ++ p) (mjoin parts) Hv) as (e & -> & Hpp & He & Hrest & _). cbn.
    rewrite (IH _ Hrest). cbn. rewrite <- spm_unmark_app by done. by rewrite app_assoc, <- Hpp.
Qed.

Lemma decode_all_parts t ids parts :
  Forall2 (fun id p => get_token_bytes t id = Some p) ids parts -> decode_all t ids = Some (spm_unmark t (lossy (mjoin parts))).
Proof.
  intros Hp. unfold decode_all.
  enough (forall acc, foldl (fun acc id => bytes ← acc;
            if id <? vocab_size t then (fun bs => bytes ++ bs) <$> token_bytes t id else Some bytes) (Some acc) ids
          = Some (acc ++ mjoin parts)) as -> by done.
  induction Hp as [|id p ids parts Hb Hp IH]; intros acc; cbn; [by rewrite app_nil_r|].
  unfold get_token_bytes in Hb. destruct (id <? vocab_size t).
  - rewrite Hb. cbn. rewrite IH. by rewrite <- app_assoc.
  - injection Hb as <-. by rewrite IH.
Qed.

(** Streaming is batch decoding: whenever a token sequence's bytes are valid UTF-8 -- however
    its characters are cut across tokens -- the concatenation of the pieces the streaming
    detokenizer emits, flush included, is exactly what [decode_all] returns for the whole
    sequence: no replacement character, no lost or repeated byte. *)
Theorem streaming_is_batch_decoding t ids parts :
  Forall2 (fun id p => get_token_bytes t id = Some p) ids parts -> utf8_valid (mjoin parts) = true ->
  stream t ids = decode_all t ids.
Proof.
  intros Hp Hv. rewrite (decode_all_parts _ _ _ Hp), lossy_id by done.
  apply (stream_from_valid t ids parts []); done.
Qed.


(** ** A concrete stream: U+4E2D cut over two tokens, then a stray byte. *)
Definition cut_vocab : list str := [[xc3; xa4; xc2; xb8]; [xc2; xad]; [x61]; [x3c; x30; x78; x46; x46; x3e]].
Definition cut_tokenizer : BpeTokenizer :=
  Eval vm_compute in match new cut_vocab [] "default" [1; 1; 1; 6] with
                     | Some t => t | None => mkBpe [] [] [] [] ∅ [] [] "" [] ∅ false ∅ end.

Lemma streaming_is_batch_decoding_witness :
  new cut_vocab [] "default" [1; 1; 1; 6] = Some cut_tokenizer /\
  (push_token cut_tokenizer [] 0) = Some ([], [xe4; xb8]) /\
  stream cut_tokenizer [0; 1; 2] = decode_all cut_tokenizer [0; 1; 2].
Proof.
  split; [vm_compute; reflexivity|]. split; [vm_compute; reflexivity|].
  apply (streaming_is_batch_decoding cut_tokenizer [0; 1; 2] [[xe4; xb8]; [xad]; [x61]]).
  - repeat (apply Forall2_cons_2; [vm_compute; reflexivity|]). apply Forall2_nil_2.
  - vm_compute. reflexivity.
Defined.

