(* ===== verification/StopFilter.v ===== *)
(** * Stop strings on streamed text.

    Models [StopFilter] of [crates/muser-server/src/openai.rs], and the part of
    [generate_events] that turns sampled tokens into text with it.  The filter holds back the
    bytes that may begin a stop string that later pieces complete.  The callback [emit] is a
    function on a sink. *)
From Stdlib Require Import Strings.Byte.
From S2P Require Import Prelude Utf8 Substring.

Record StopFilter : Type := mkFilter {
  stops : list str;
  pending : str;
  hold_bytes : nat;
  matched_stop : option str;
}.

(** [stops.iter().map(String::len).max().unwrap_or(0)]. *)
Definition longest (stops : list str) : nat := foldr (fun s n => Nat.max (length s) n) 0%nat stops.
Definition nonempty (s : str) : bool := match s with [] => false | _ => true end.
Definition StopFilter_new (stops : list str) : StopFilter :=
  mkFilter (List.filter nonempty stops) [] (longest stops - 1) None.

(** [min_by_key]: the first of the least. *)
Fixpoint min_by_index (l : list (nat * str)) : option (nat * str) :=
  match l with
  | [] => None
  | x :: l =>
      match min_by_index l with
      | Some y => if (y.1 <? x.1)%nat then Some y else Some x
      | None => Some x
      end
  end.
Definition earliest_stop (stops : list str) (text : str) : option (nat * str) :=
  min_by_index (omap (fun stop => (fun index => (index, stop)) <$> find stop text) stops).

(** [while safe > 0 && !is_char_boundary(safe) { safe -= 1 }]. *)
Fixpoint floor_boundary (s : str) (safe : nat) : nat :=
  match safe with
  | O => O
  | S less => if is_char_boundary s safe then safe else floor_boundary s less
  end.

Section Sink.
Context {S E : Type} (emit : S -> str -> S * result E unit).

(** [if !text.is_empty() { emit(text)? }], and go on. *)
Definition emitting {A} (text : str) (sink : S) (failed : A) (k : S -> A * S * result E bool) : A * S * result E bool :=
  if nonempty text then
    match emit sink text with
    | (sink, Ok _) => k sink
    | (sink, Err e) => (failed, sink, Err e)
    end
  else k sink.

Definition push (f : StopFilter) (piece : str) (sink : S) : StopFilter * S * result E bool :=
  let pending := pending f ++ piece in
  let held := mkFilter (stops f) pending (hold_bytes f) (matched_stop f) in
  match earliest_stop (stops f) pending with
  | Some (index, matched) =>
      emitting (take index pending) sink held
        (fun sink => (mkFilter (stops f) [] (hold_bytes f) (Some matched), sink, Ok true))
  | None =>
      let safe := floor_boundary pending (length pending - hold_bytes f) in
      emitting (take safe pending) sink held
        (fun sink => (mkFilter (stops f) (drop safe pending) (hold_bytes f) (matched_stop f), sink, Ok false))
  end.
Definition finish (f : StopFilter) (sink : S) : StopFilter * S * result E bool :=
  emitting (pending f) sink f (fun sink => (mkFilter (stops f) [] (hold_bytes f) (matched_stop f), sink, Ok false)).

(** Pieces pushed until a stop string is found. *)
Fixpoint push_all (f : StopFilter) (pieces : list str) (sink : S) : StopFilter * S * result E bool :=
  match pieces with
  | [] => (f, sink, Ok false)
  | piece :: pieces =>
      match push f piece sink with
      | (f, sink, Ok false) => push_all f pieces sink
      | other => other
      end
  end.
End Sink.

(** The sink that keeps every piece of text. *)
Definition record {E} (out : list str) (text : str) : list str * result E unit := (out ++ [text], Ok tt).

(** ** Where the stop strings occur. *)
Definition occurs (stops : list str) (text : str) (i : nat) (s : str) : Prop :=
  s ∈ stops /\ nonempty s = true /\ (i <= length text)%nat /\ starts_with s (drop i text) = true.
Definition stop_free (stops : list str) (text : str) : Prop := forall i s, ~ occurs stops text i s.

Lemma longest_le l s : s ∈ l -> (length s <= longest l)%nat.
Proof.
  unfold longest. induction l as [|x l IH]; [intros ?%elem_of_nil; done|].
  cbn [foldr]. intros [->|Hin]%elem_of_cons; [lia | specialize (IH Hin); lia].
Qed.

Lemma min_by_index_None l : min_by_index l = None <-> l = [].
Proof. destruct l as [|x l]; [done|]. cbn. split; [|done]. repeat case_match; done. Qed.
Lemma min_by_index_spec l i s : min_by_index l = Some (i, s) ->
  exists a b, l = a ++ (i, s) :: b /\ Forall (fun x => i < x.1)%nat a /\ Forall (fun x => i <= x.1)%nat b.
Proof.
  revert i s. induction l as [|x l IH]; intros i s; [done|]. cbn [min_by_index].
  destruct (min_by_index l) as [[j y]|] eqn:E.
  - destruct (IH j y eq_refl) as (a & b & -> & Ha & Hb). cbn [fst]. destruct (j <? x.1)%nat eqn:Hj; intros [= ].
    + subst j y. exists (x :: a), b. apply Nat.ltb_lt in Hj. by split_and!; [|constructor|].
    + subst x. cbn in Hj. apply Nat.ltb_ge in Hj. exists [], (a ++ (j, y) :: b). split_and!; [done | constructor|].
      apply Forall_app. split; [eapply Forall_impl; [exact Ha | cbn; lia]|].
      constructor; [done | eapply Forall_impl; [exact Hb | cbn; lia]].
  - apply min_by_index_None in E as ->. intros [= ->]. by exists [], [].
Qed.

Lemma find_least n h q : (q <= length h)%nat -> starts_with n (drop q h) = true -> exists p, find n h = Some p /\ (p <= q)%nat.
Proof.
  intros Hq Hs. pose proof (find_spec n h) as Hf. destruct (find n h) as [p|].
  - exists p. split; [done|]. destruct Hf as (_ & _ & Hf). destruct (decide (p <= q)%nat); [done|].
    rewrite Hf in Hs; [done | lia].
  - rewrite Hf in Hs; [done | lia].
Qed.

Lemma occurs_filter sts text i s : occurs (List.filter nonempty sts) text i s <-> occurs sts text i s.
Proof.
  unfold occurs. rewrite !list_elem_of_In, List.filter_In. tauto.
Qed.

Lemma earliest_stop_None sts text : earliest_stop sts text = None -> stop_free sts text.
Proof.
  unfold earliest_stop. rewrite min_by_index_None. intros E i s (Hin & _ & Hi & Hs).
  destruct (find_least s text i Hi Hs) as (p & Hp & _).
  assert ((p, s) ∈ omap (fun stop => (fun index => (index, stop)) <$> find stop text) sts) as H
    by (apply list_elem_of_omap; exists s; by rewrite Hp).
  rewrite E in H. by apply elem_of_nil in H.
Qed.

(** The stop found is the earliest, and the first of the list at its position. *)
Lemma earliest_stop_Some sts text i s : Forall (fun s => nonempty s = true) sts -> earliest_stop sts text = Some (i, s) ->
  occurs sts text i s /\ find s text = Some i /\ (forall j s', occurs sts text j s' -> (i <= j)%nat) /\
  List.find (fun s' => starts_with s' (drop i text)) sts = Some s.
Proof.
  intros Hne (a & b & El & Ha & Hb)%min_by_index_spec.
  assert ((i, s) ∈ omap (fun stop => (fun index => (index, stop)) <$> find stop text) sts) as Hin
    by (rewrite El; apply elem_of_app; right; apply elem_of_cons; by left).
  apply list_elem_of_omap in Hin as (s0 & Hs0 & E0). destruct (find s0 text) as [p|] eqn:Ef; [|done]. cbn in E0. injection E0 as -> ->.
  pose proof (find_spec s text) as Hf. rewrite Ef in Hf. destruct Hf as (Hi & Hst & _).
  assert (forall j s', occurs sts text j s' -> (i <= j)%nat) as Hleast.
  { intros j s' (Hin' & _ & Hj & Hs'). destruct (find_least s' text j Hj Hs') as (p & Hp & Hpj).
    assert ((p, s') ∈ a ++ (i, s) :: b) as H by (rewrite <- El; apply list_elem_of_omap; exists s'; by rewrite Hp).
    apply elem_of_app in H as [H|[[= -> ->]|H]%elem_of_cons]; [|lia|].
    - eapply Forall_forall in Ha; [|exact H]. cbn in Ha. lia.
    - eapply Forall_forall in Hb; [|exact H]. cbn in Hb. lia. }
  split_and!; [|done|done|].
  { split_and!; [done | by eapply Forall_forall in Hne; [|exact Hs0] | done | done]. }
  clear Hleast Hs0 Hb. revert a El Ha. induction sts as [|x sts IH]; intros a El Ha; [by destruct a|].
  apply Forall_cons in Hne as [_ Hne]. cbn [omap list_omap] in El. cbn [List.find].
  destruct (find x text) as [p|] eqn:Ex; cbn in El.
  - destruct a as [|y a]; [injection El as -> -> _; by rewrite Hst|]. injection El as <- El.
    apply Forall_cons in Ha as [Hp Ha]. cbn in Hp. pose proof (find_spec x text) as Hx. rewrite Ex in Hx.
    destruct Hx as (_ & _ & Hx). rewrite Hx by done. by apply (IH Hne a).
  - pose proof (find_spec x text) as Hx. rewrite Ex in Hx. rewrite Hx by done. by apply (IH Hne a).
Qed.

Lemma floor_boundary_le s n : (floor_boundary s n <= n)%nat.
Proof. induction n as [|n IH]; [done|]. cbn. destruct (is_char_boundary _ _); lia. Qed.
Lemma floor_boundary_is s n : is_char_boundary s (floor_boundary s n) = true.
Proof.
  induction n as [|n IH]; [by destruct s|]. cbn [floor_boundary].
  destruct (is_char_boundary s (Datatypes.S n)) eqn:E; [done | exact IH].
Qed.

(** A character has at most four bytes, so a boundary is near. *)
Lemma classify_at_most_4 b r n : classify b r = HChar n -> (n <= 4)%nat.
Proof. unfold classify. intros H. repeat case_match; simplify_eq; lia. Qed.
Lemma boundary_near s n : utf8_valid s = true -> (n <= length s)%nat ->
  exists m, is_char_boundary s m = true /\ (m <= n <= m + 3)%nat.
Proof.
  revert n. induction s as [|b r IH] using utf8_ind; intros n Hv Hn; [exists 0%nat; split; [done | cbn in Hn; lia]|].
  unfold utf8_valid in Hv. rewrite utf8_chunks_cons in Hv. pose proof (classify_width b r) as Hw.
  destruct (classify b r) as [w|w|] eqn:Hc; try done. cbn in Hv. apply classify_at_most_4 in Hc.
  destruct (decide (n < w)%nat); [exists 0%nat; split; [done | lia]|].
  destruct (IH w ltac:(lia) (n - w)%nat Hv) as (m & Hm & Hle); [rewrite length_drop; lia|].
  exists (w + m)%nat. split; [|lia]. unfold is_char_boundary in *. rewrite lookup_drop in Hm.
  rewrite length_drop in Hm. destruct ((b :: r) !! (w + m)%nat) as [c|] eqn:El.
  - destruct (decide (m = 0)%nat) as [->|Hm0].
    + rewrite Nat.add_0_r in El. rewrite (drop_S _ _ _ El) in Hv. apply valid_first in Hv. by rewrite Hv, orb_true_r.
    + apply orb_true_iff in Hm as [?%Nat.eqb_eq|Hm]; [lia|]. by rewrite Hm, orb_true_r.
  - apply Nat.eqb_eq in Hm. apply Nat.eqb_eq. cbn [length] in *. lia.
Qed.
Lemma floor_boundary_max s n m : is_char_boundary s m = true -> (m <= n)%nat -> (m <= floor_boundary s n)%nat.
Proof.
  intros Hm. induction n as [|n IH]; intros Hle; cbn [floor_boundary]; [lia|].
  destruct (is_char_boundary s (S n)) eqn:E; [lia|]. apply IH. destruct (decide (m = S n)%nat) as [->|]; [congruence | lia].
Qed.
Lemma floor_boundary_near s n : utf8_valid s = true -> (n <= length s)%nat -> (n <= floor_boundary s n + 3)%nat.
Proof.
  intros Hv Hn. destruct (boundary_near s n Hv Hn) as (m & Hm & Hle).
  pose proof (floor_boundary_max s n m Hm ltac:(lia)). lia.
Qed.

(** ** The filter on a stream. *)
Section Stream.
Context {E : Type} (sts : list str).
Hypothesis sts_valid : Forall (fun s => utf8_valid s = true) sts.
Local Abbreviation push := (push (E := E) record).
Local Abbreviation finish := (finish (E := E) record).
Local Abbreviation push_all := (push_all (E := E) record).

Definition texts_ok (out : list str) : Prop := Forall (fun s => nonempty s = true /\ utf8_valid s = true) out.

(** After the text [text] without a stop string: what was emitted and what is held. *)
Record streaming (text : str) (f : StopFilter) (out : list str) : Prop := {
  st_stops : stops f = List.filter nonempty sts;
  st_hold : hold_bytes f = (longest sts - 1)%nat;
  st_matched : matched_stop f = None;
  st_text : mjoin out ++ pending f = text;
  st_held : mjoin out = [] \/ (hold_bytes f <= length (pending f))%nat;
  st_short : (length (pending f) <= hold_bytes f + 3)%nat;
  st_free : stop_free sts text;
  st_valid : utf8_valid (pending f) = true;
  st_out : texts_ok out;
}.
(** What a stream that ended with the stop string [s] at [i] of [text] leaves. *)
Record stopped_at (text : str) (f : StopFilter) (out : list str) (i : nat) (s : str) : Prop := {
  sp_occurs : occurs sts text i s;
  sp_first : forall j s', occurs sts text j s' -> (i <= j)%nat;
  sp_order : List.find (fun s' => starts_with s' (drop i text)) (List.filter nonempty sts) = Some s;
  sp_text : mjoin out = take i text;
  sp_matched : matched_stop f = Some s;
  sp_pending : pending f = [];
  sp_out : texts_ok out;
}.

Lemma streaming_new : streaming [] (StopFilter_new sts) [].
Proof.
  split; try done; [by left | cbn; lia | | constructor].
  intros i s (_ & Hne & Hi & Hs). cbn in Hi. assert (i = 0)%nat as -> by lia. by destruct s.
Qed.

(** A stop string of the longer text does not begin in what was emitted. *)
Lemma occurs_later text f out piece i s : streaming text f out -> occurs sts (text ++ piece) i s ->
  (length (mjoin out) <= i)%nat.
Proof.
  intros [_ Hh _ <- Hheld _ Hfree _ _] (Hin & Hne & Hi & Hs).
  destruct (decide (length (mjoin out) <= i)%nat) as [|Hlt]; [done|]. exfalso.
  destruct Hheld as [E0|Hheld]; [rewrite E0 in Hlt; cbn in Hlt; lia|].
  apply (Hfree i s). split_and!; [done | done | rewrite length_app; lia|].
  pose proof (longest_le _ _ Hin) as Hl. apply starts_with_spec in Hs as [k Hk]. apply starts_with_spec.
  exists (drop (length s) (drop i (mjoin out ++ pending f))).
  apply (f_equal (take (length s))) in Hk. rewrite take_app_length, drop_app_le, take_app_le in Hk by (rewrite ?length_drop, length_app; lia).
  rewrite <- Hk at 1. by rewrite take_drop.
Qed.
Lemma occurs_pending out pend i s : (length (mjoin out) <= i)%nat ->
  occurs sts (mjoin out ++ pend) i s <-> occurs sts pend (i - length (mjoin out)) s.
Proof.
  intros Hi. unfold occurs. rewrite drop_app_ge, length_app by done. split; intros (?&?&?&?); split_and!; try done; lia.
Qed.

Lemma emitting_record {A} text out (failed : A) k :
  emitting (E := E) record text out failed k = k (if nonempty text then out ++ [text] else out).
Proof. unfold emitting, record. by destruct (nonempty text). Qed.
Lemma mjoin_record out text : mjoin (if nonempty text then out ++ [text] else out) = mjoin out ++ text.
Proof.
  destruct text as [|b t]; cbn [nonempty]; [by rewrite app_nil_r|].
  rewrite join_app. cbn. by rewrite app_nil_r.
Qed.
Lemma texts_ok_record out text : texts_ok out -> utf8_valid text = true -> texts_ok (if nonempty text then out ++ [text] else out).
Proof.
  intros Ho Ht. destruct (nonempty text) eqn:En; [|done]. apply Forall_app. split; [done|]. by constructor.
Qed.

(** One piece of text: either no stop string is complete yet, or the stream ends at the
    earliest one. *)
Lemma push_streaming text f out piece : streaming text f out -> utf8_valid piece = true ->
  exists f' out', (push f piece out = (f', out', Ok false) /\ streaming (text ++ piece) f' out') \/
    exists i s, push f piece out = (f', out', Ok true) /\ stopped_at (text ++ piece) f' out' i s.
Proof using sts_valid.
  intros Hst Hv. pose proof Hst as [Hs Hh Hm Ht Hheld Hshort Hfree Hpv Ho]. unfold StopFilter.push.
  set (pend := pending f ++ piece).
  assert (utf8_valid pend = true) as Hpend by (unfold pend; by rewrite utf8_valid_app).
  assert (text ++ piece = mjoin out ++ pend) as Htext by (unfold pend; by rewrite <- Ht, app_assoc).
  destruct (earliest_stop (stops f) pend) as [[p s]|] eqn:Ee; rewrite emitting_record; eexists _, _.
  - right. rewrite Hs in Ee. apply earliest_stop_Some in Ee as (Hocc & Hfind & Hleast & Hord);
      [|apply List.Forall_forall; intros x Hx; by apply List.filter_In in Hx as [_ ?]].
    rewrite occurs_filter in Hocc. exists (length (mjoin out) + p)%nat, s. split; [reflexivity|].
    assert (utf8_valid s = true) as Hsv by (eapply Forall_forall in sts_valid; [exact sts_valid | by destruct Hocc]).
    assert (is_char_boundary pend p = true) as Hb.
    { apply (find_boundary s); [done | by destruct Hocc as (_ & Hne & _); destruct s | done]. }
    destruct (boundary_split _ _ Hpend Hb) as [Hv1 _].
    split; try done; rewrite ?Htext.
    + apply occurs_pending; [lia|]. by replace (length (mjoin out) + p - length (mjoin out))%nat with p by lia.
    + intros j s' Hj. assert (length (mjoin out) <= j)%nat as Hlj by (eapply occurs_later; [done | by rewrite Htext]).
      apply occurs_pending in Hj; [|done]. apply occurs_filter in Hj. specialize (Hleast _ _ Hj). lia.
    + rewrite drop_app_ge by lia. by replace (length (mjoin out) + p - length (mjoin out))%nat with p by lia.
    + rewrite mjoin_record, take_app_ge by lia. by replace (length (mjoin out) + p - length (mjoin out))%nat with p by lia.
    + by apply texts_ok_record.
  - left. split; [reflexivity|]. rewrite Hs in Ee. apply earliest_stop_None in Ee.
    set (safe := floor_boundary pend (length pend - hold_bytes f)).
    pose proof (floor_boundary_le pend (length pend - hold_bytes f)) as Hle. fold safe in Hle.
    destruct (boundary_split _ _ Hpend (floor_boundary_is pend (length pend - hold_bytes f))) as [Hv1 Hv2]. fold safe in Hv1, Hv2.
    split; try done; cbn [stops pending hold_bytes matched_stop].
    + by rewrite mjoin_record, <- app_assoc, take_drop.
    + rewrite length_drop. destruct Hheld as [E0|Hheld].
      * destruct (decide (safe = 0)%nat) as [->|]; [left; by rewrite mjoin_record, E0, take_0 | right; lia].
      * right. unfold pend in *. rewrite length_app in *. lia.
    + pose proof (floor_boundary_near pend (length pend - hold_bytes f) Hpend ltac:(lia)) as Hn. fold safe in Hn.
      rewrite length_drop. lia.
    + rewrite Htext. intros i s Hocc.
      assert (length (mjoin out) <= i)%nat as Hi by (eapply occurs_later; [done | by rewrite Htext]).
      apply occurs_pending in Hocc; [|done]. by apply (Ee (i - length (mjoin out))%nat s), occurs_filter.
    + by apply texts_ok_record.
Qed.

Lemma push_all_streaming pieces : forall text f out, streaming text f out -> Forall (fun s => utf8_valid s = true) pieces ->
  exists f' out', (push_all f pieces out = (f', out', Ok false) /\ streaming (text ++ mjoin pieces) f' out') \/
    exists before piece after i s, pieces = before ++ piece :: after /\ stop_free sts (text ++ mjoin before) /\
      push_all f pieces out = (f', out', Ok true) /\ stopped_at (text ++ mjoin before ++ piece) f' out' i s.
Proof using sts_valid.
  induction pieces as [|piece pieces IH]; intros text f out Hst Hv.
  - exists f, out. left. split; [done|]. by rewrite app_nil_r.
  - apply Forall_cons in Hv as [Hp Hv]. cbn [StopFilter.push_all].
    destruct (push_streaming _ _ _ _ Hst Hp) as (f1 & o1 & [[E1 H1]|(i & s & E1 & H1)]); rewrite E1.
    + destruct (IH _ _ _ H1 Hv) as (f2 & o2 & [[E2 H2]|(before & p2 & after & i & s & -> & Hfree & E2 & H2)]).
      * exists f2, o2. left. split; [done|]. cbn. by rewrite app_assoc.
      * exists f2, o2. right. exists (piece :: before), p2, after, i, s. split_and!; [done | | done |].
        -- cbn. by rewrite app_assoc.
        -- cbn. rewrite <- app_assoc. by rewrite <- app_assoc in H2.
    + exists f1, o1. right. exists [], piece, pieces, i, s. split_and!; [done | | done | done].
      cbn. rewrite app_nil_r. by destruct Hst.
Qed.

Lemma finish_streaming text f out : streaming text f out ->
  exists f' out', finish f out = (f', out', Ok false) /\ matched_stop f' = None /\ mjoin out' = text /\ texts_ok out'.
Proof.
  intros [_ _ Hm Ht _ _ _ Hv Ho]. unfold StopFilter.finish. rewrite emitting_record. eexists _, _.
  split; [reflexivity|]. split_and!; [done | by rewrite mjoin_record | by apply texts_ok_record].
Qed.
End Stream.
