(* ===== verification/ChatText.v ===== *)
(** * From sampled tokens to the text of an answer.

    Models the text side of the token loop of [generate_events],
    [crates/muser-server/src/openai.rs]: the end-of-generation check, the streaming
    detokenizer, the stop filter, and what happens after the loop.  The sampled tokens are an
    argument; [halts] tells after which of them the tool-call parser or the time limit ends
    the loop.  [text] is kept as the list of the strings pushed to it.  A panic is [None]. *)
From Stdlib Require Import Strings.Byte.
From S2P Require Import Prelude Utf8 Substring Tokenizer TokenizerCodec Detokenizer StopFilter.

Record Answer : Type := mkAnswer {
  text : list str;
  an_filter : StopFilter;
  stopped : bool;
  stopped_on_eos : bool;
}.
Definition answer_text (a : Answer) : str := mjoin (text a).

(** [stop_type] of the response. *)
Inductive StopType : Type := StopEos | StopWord | StopLimit.
Definition stop_type (a : Answer) : StopType :=
  if stopped_on_eos a then StopEos
  else match matched_stop (an_filter a) with Some _ => StopWord | None => StopLimit end.

Definition pushed (f : StopFilter) (piece : str) (out : list str) : StopFilter * list str * bool :=
  match push (E := Empty_set) record f piece out with
  | (f, out, Ok found) => (f, out, found)
  | (f, out, Err e) => match e with end
  end.
Definition finished (f : StopFilter) (out : list str) : StopFilter * list str :=
  let '(f, out, _) := finish (E := Empty_set) record f out in (f, out).

Lemma drain_all t pending : utf8_valid pending = true -> drain_complete t pending = (spm_unmark t pending, []).
Proof.
  intros Hv. unfold drain_complete. destruct (length pending); cbn [drain_loop]; by rewrite Hv, fixup_unmark.
Qed.
Lemma spm_unmark_nil t : spm_unmark t [] = [].
Proof. unfold spm_unmark. by destruct (is_spm_bpe t). Qed.

Section Answer.
Context (t : BpeTokenizer) (eos : list Z) (ignore_eos : bool) (halts : nat -> bool).

(** After the loop: [if !stopped { push(flush()); finish() }]. *)
Definition closing (detok : str) (f : StopFilter) (out : list str) (halted : bool) : Answer :=
  if halted then mkAnswer out f true false
  else
    let (tail, _) := flush t detok in
    let '(f, out, found) := pushed f tail out in
    if found then mkAnswer out f true false
    else let (f, out) := finished f out in mkAnswer out f false false.

Fixpoint token_loop (index : nat) (tokens : list Z) (detok : str) (f : StopFilter) (out : list str) : option Answer :=
  match tokens with
  | [] => Some (closing detok f out false)
  | next :: tokens =>
      if negb ignore_eos && existsb (Z.eqb next) eos then Some (mkAnswer out f true true)
      else
        '(piece, detok) ← push_token t detok next;
        let '(f, out, found) := pushed f piece out in
        if found || halts index then Some (closing detok f out true)
        else token_loop (S index) tokens detok f out
  end.
(** The answer for the tokens sampled up to the token limit. *)
Definition generate_text (sts : list str) (tokens : list Z) : option Answer :=
  token_loop 0 tokens [] (StopFilter_new sts) [].

(** ** What the loop produces. *)

(** The tokens before the first one that ends the generation. *)
Fixpoint visible (tokens : list Z) : list Z :=
  match tokens with
  | [] => []
  | next :: tokens => if negb ignore_eos && existsb (Z.eqb next) eos then [] else next :: visible tokens
  end.
Definition ends (tokens : list Z) : bool := negb ignore_eos && existsb (fun next => existsb (Z.eqb next) eos) tokens.

Lemma pushed_cases sts txt f out piece : Forall (fun s => utf8_valid s = true) sts -> streaming sts txt f out ->
  utf8_valid piece = true ->
  exists f' out', (pushed f piece out = (f', out', false) /\ streaming sts (txt ++ piece) f' out') \/
    exists i s, pushed f piece out = (f', out', true) /\ stopped_at sts (txt ++ piece) f' out' i s.
Proof.
  intros Hs Hst Hv. unfold pushed.
  destruct (push_streaming (E := Empty_set) sts Hs _ _ _ _ Hst Hv) as (f' & out' & [[E H]|(i & s & E & H)]); rewrite E; eauto 10.
Qed.
Lemma finished_all sts txt f out : streaming sts txt f out ->
  exists f' out', finished f out = (f', out') /\ matched_stop f' = None /\ mjoin out' = txt /\ texts_ok out'.
Proof.
  intros Hst. unfold finished. destruct (finish_streaming (E := Empty_set) sts _ _ _ Hst) as (f' & out' & E & H). rewrite E. eauto.
Qed.

(** How an answer ends whose whole text would be [full]: at a stop string of a prefix of it;
    at the limit, complete; or at an end-of-generation token, less the held suffix. *)
Inductive answers (sts : list str) (full : str) (eos_seen : bool) (a : Answer) : Prop :=
| answers_word before i s :
    before `prefix_of` full -> occurs sts before i s -> (forall j s', occurs sts before j s' -> (i <= j)%nat) ->
    stop_free sts (take i before) -> answer_text a = take i before -> matched_stop (an_filter a) = Some s ->
    stopped a = true -> stop_type a = StopWord -> answers sts full eos_seen a
| answers_limit :
    eos_seen = false -> stop_free sts full -> answer_text a = full -> stopped a = false -> stop_type a = StopLimit ->
    answers sts full eos_seen a
| answers_eos held :
    eos_seen = true -> stop_free sts full -> answer_text a ++ held = full -> (length held <= longest sts - 1 + 3)%nat ->
    stopped a = true -> stop_type a = StopEos -> answers sts full eos_seen a.

Lemma stop_free_prefix sts txt i : (forall j s, occurs sts txt j s -> (i <= j)%nat) -> stop_free sts (take i txt).
Proof.
  intros Hleast j s (Hin & Hne & Hj & Hs). rewrite length_take in Hj.
  assert (i <= j)%nat as Hij.
  { apply (Hleast j s). split_and!; [done | done | lia|]. apply starts_with_spec in Hs as [k Hk]. apply starts_with_spec.
    exists (k ++ drop i txt). rewrite app_assoc, <- Hk, <- drop_app_le, take_drop by (rewrite length_take; lia). done. }
  assert (drop j (take i txt) = []) as E0 by (apply drop_ge; rewrite length_take; lia).
  rewrite E0 in Hs. by destruct s.
Qed.

Lemma stopped_answers sts before full eos_seen f out i s a : stopped_at sts before f out i s -> before `prefix_of` full ->
  a = mkAnswer out f true false -> answers sts full eos_seen a.
Proof.
  intros [H1 H2 _ H4 H5 _ _] Hp ->. eapply (answers_word _ _ _ _ before i s); try done.
  - by apply stop_free_prefix.
  - unfold stop_type. cbn. by rewrite H5.
Qed.

(** From any point of the stream: [txt] is the text so far and [rest] what the remaining
    tokens spell. *)
Lemma token_loop_answers sts tokens parts : Forall (fun s => utf8_valid s = true) sts -> (forall i, halts i = false) ->
  forall index detok f out txt rest, streaming sts txt f out ->
  Forall2 (fun id p => get_token_bytes t id = Some p) (visible tokens) parts ->
  utf8_valid (detok ++ mjoin parts) = true -> (utf8_valid detok = true -> detok = []) -> rest = spm_unmark t (detok ++ mjoin parts) ->
  exists a, token_loop index tokens detok f out = Some a /\ answers sts (txt ++ rest) (ends tokens) a.
Proof.
  intros Hsts Hhalts. revert parts. induction tokens as [|next tokens IH]; intros parts index detok f out txt rest Hst Hp Hv Hd Hrest; cbn [token_loop].
  - cbn in Hp. inversion Hp; subst parts. cbn in Hv, Hrest. rewrite app_nil_r in Hv, Hrest. subst rest.
    eexists. split; [reflexivity|]. unfold closing. pose proof (flush_unmark t detok) as Hf. rewrite lossy_id in Hf by done.
    destruct (flush t detok) as [tail d2]. cbn in Hf. subst tail.
    destruct (pushed_cases sts txt f out (spm_unmark t detok) Hsts Hst) as (f' & out' & [[E H]|(i & s & E & H)]);
      [by apply spm_unmark_idem | |]; rewrite E.
    + destruct (finished_all _ _ _ _ H) as (f2 & o2 & E2 & Hm & Hj & _). rewrite E2. apply answers_limit; try done.
      * unfold ends. cbn. by rewrite andb_false_r.
      * by destruct H.
      * unfold stop_type. cbn. by rewrite Hm.
    + by eapply stopped_answers.
  - cbn [visible] in Hp. destruct (negb ignore_eos && existsb (Z.eqb next) eos) eqn:Eeos.
    + inversion Hp; subst parts. eexists. split; [reflexivity|]. cbn in Hv, Hrest. rewrite app_nil_r in Hv, Hrest.
      rewrite (Hd Hv), spm_unmark_nil in Hrest. subst rest. rewrite app_nil_r.
      destruct Hst as [_ Hh _ Htxt _ Hshort Hfree _ _]. apply (answers_eos _ _ _ _ (pending f)); try done.
      * unfold ends. cbn [existsb]. by apply andb_true_iff in Eeos as [-> ->].
      * cbn [an_filter]. by rewrite <- Hh.
    + inversion Hp as [|? p ? ps Hb Hps]; subst. unfold push_token. rewrite Hb. cbn [mbind option_bind].
      rewrite mjoin_cons, app_assoc in Hv. destruct (drain_valid t (detok ++ p) (mjoin ps) Hv) as (emitted & Ed & Esplit & Hve & Hvr & _).
      rewrite Ed. set (left_ := drop (length emitted) (detok ++ p)) in *.
      assert (spm_unmark t (detok ++ mjoin (p :: ps)) = spm_unmark t emitted ++ spm_unmark t (left_ ++ mjoin ps)) as ->.
      { rewrite mjoin_cons, app_assoc, Esplit, <- app_assoc. by apply spm_unmark_app. }
      assert (utf8_valid left_ = true -> left_ = []) as Hd'.
      { intros Hl. unfold left_. rewrite (drain_all t (detok ++ p)) in Ed by (rewrite Esplit, utf8_valid_app; done). by injection Ed. }
      destruct (pushed_cases sts txt f out (spm_unmark t emitted) Hsts Hst) as (f' & out' & [[E H]|(i & s & E & H)]);
        [by apply spm_unmark_idem | |]; rewrite E; rewrite ?Hhalts; cbn [orb].
      * destruct (IH ps (S index) left_ f' out' _ _ H Hps Hvr Hd' eq_refl) as (a & Ea & Ha). exists a. split; [done|].
        rewrite app_assoc. by replace (ends (next :: tokens)) with (ends tokens) by (unfold ends; cbn [existsb]; destruct ignore_eos; [done|]; cbn in *; by rewrite Eeos).
      * eexists. split; [reflexivity|]. eapply stopped_answers; [done | | done]. rewrite app_assoc. by apply prefix_app_r.
Qed.
End Answer.

(** C4. For tokens whose bytes spell valid text, the answer's text is the decoded text of the
    tokens before the end-of-generation token, cut before the earliest stop string, where the
    stop word is then reported.  Without a stop string it is the whole decoded text when the
    token limit ended the answer; when an end-of-generation token ended it, the bytes the stop
    filter still held are missing: fewer than the longest stop string has, and at most three
    more to the character boundary. *)
Theorem generated_text_exact t eos ignore_eos sts tokens parts :
  Forall (fun s => utf8_valid s = true) sts ->
  Forall2 (fun id p => get_token_bytes t id = Some p) (visible eos ignore_eos tokens) parts ->
  utf8_valid (mjoin parts) = true ->
  exists a full, generate_text t eos ignore_eos (fun _ => false) sts tokens = Some a /\
    decode_all t (visible eos ignore_eos tokens) = Some full /\ answers sts full (ends eos ignore_eos tokens) a.
Proof.
  intros Hs Hp Hv.
  destruct (token_loop_answers t eos ignore_eos (fun _ => false) sts tokens parts Hs (fun _ => eq_refl) 0 []
    (StopFilter_new sts) [] [] _ (streaming_new sts) Hp Hv (fun _ => eq_refl) eq_refl) as (a & Ea & Ha).
  exists a. eexists. split; [exact Ea|]. split; [|exact Ha].
  rewrite (decode_all_parts _ _ _ Hp), lossy_id by done. done.
Qed.
Lemma generated_text_exact_witness :
  exists a full, generate_text cut_tokenizer [9] false (fun _ => false) [[x62]; [x61; x61]] [0; 1; 2; 2; 9] = Some a /\
    decode_all cut_tokenizer [0; 1; 2; 2] = Some full /\ answers [[x62]; [x61; x61]] full true a.
Proof.
  apply (generated_text_exact cut_tokenizer [9] false [[x62]; [x61; x61]] [0; 1; 2; 2; 9] [[xe4; xb8]; [xad]; [x61]; [x61]]).
  - repeat constructor.
  - change (visible [9] false [0; 1; 2; 2; 9]) with [0; 1; 2; 2].
    repeat (apply Forall2_cons_2; [vm_compute; reflexivity|]). apply Forall2_nil_2.
  - vm_compute. reflexivity.
Defined.

(** The held text is lost at an end-of-generation token: the model answers "aa" and the
    client receives nothing. *)
Example eos_loses_held_text :
  decode_all cut_tokenizer [2; 2] = Some [x61; x61] /\
  (answer_text <$> generate_text cut_tokenizer [9] false (fun _ => false) [[x53; x54; x4f; x50]] [2; 2; 9]) = Some [] /\
  (answer_text <$> generate_text cut_tokenizer [9] false (fun _ => false) [[x53; x54; x4f; x50]] [2; 2]) = Some [x61; x61].
Proof. split_and!; vm_compute; reflexivity. Qed.
