(* ===== verification/Grammar.v ===== *)
(** * Grammar-constrained decoding: the incremental Earley matcher.

    Models the matcher of [crates/muser-server/src/grammar.rs]: character sets, token
    terminals, the chart with its agenda-based closure, partial UTF-8 at token boundaries and
    the set of alive branches.  A [HashSet] of items is a [gset]; the orders in which the code
    iterates one are [elements], and no theorem depends on them.  Indexing a production that
    does not exist panics in the code; [wf_grammar], which the parser establishes
    ([GrammarParser]), excludes it. *)
From Stdlib Require Import Strings.Byte.
From S2P Require Import Prelude Utf8.

(** ** Terminals. *)
Inductive TokenValue : Type := TokenId (id : Z) | TokenPiece (bytes : str).
Record TokenTerminal : Type := mkTerminal { tt_inverted : bool; tt_value : TokenValue }.
Definition TokenTerminal_matches (term : TokenTerminal) (token : Z) (bytes : str) : bool :=
  let equal := match tt_value term with
               | TokenId expected => token =? expected
               | TokenPiece expected => bool_decide (bytes = expected)
               end in
  xorb equal (tt_inverted term).

Record CharSet : Type := mkCharSet { cs_inverted : bool; ranges : list (Z * Z) }.
Definition CharSet_one (value : Z) : CharSet := mkCharSet false [(value, value)].
Definition CharSet_matches (cs : CharSet) (value : Z) : bool :=
  xorb (existsb (fun '(lower, upper) => (lower <=? value) && (value <=? upper)) (ranges cs)) (cs_inverted cs).

(** [sort_unstable] of pairs, lexicographic. *)
Definition pair_le (x y : Z * Z) : Prop := x.1 < y.1 \/ (x.1 = y.1 /\ x.2 <= y.2).
#[global] Instance pair_le_dec x y : Decision (pair_le x y).
Proof. unfold pair_le. apply _. Defined.
Definition clip (lower upper : Z) (r : Z * Z) : option (Z * Z) :=
  let range_lower := Z.max r.1 lower in
  let range_upper := Z.min r.2 upper in
  if range_lower <=? range_upper then Some (range_lower, range_upper) else None.
(** Is there a value between [cursor] and [upper] the sorted ranges leave out? *)
Fixpoint gap_after (upper cursor : Z) (covered : list (Z * Z)) : bool :=
  match covered with
  | [] => cursor <=? upper
  | (range_lower, range_upper) :: covered =>
      if cursor <? range_lower then true
      else
        let cursor := Z.max cursor (saturating_add 32 range_upper 1) in
        if upper <? cursor then false else gap_after upper cursor covered
  end.
Definition CharSet_intersects (cs : CharSet) (lower upper : Z) : bool :=
  if negb (cs_inverted cs) then
    existsb (fun '(range_lower, range_upper) => (range_lower <=? upper) && (lower <=? range_upper)) (ranges cs)
  else gap_after upper lower (merge_sort pair_le (omap (clip lower upper) (ranges cs))).

(** ** Grammars and items. *)
Inductive Symbol : Type :=
| Rule (rule : nat)
| Character (set : CharSet)
| Token (terminal : TokenTerminal).
Record Production : Type := mkProduction { lhs : nat; rhs : list Symbol }.
#[global] Instance Production_inhabited : Inhabited Production := populate (mkProduction 0 []).
Record Grammar : Type := mkGrammar {
  productions : list Production;
  by_lhs : list (list nat);
  start_production : nat;
}.
Record Item : Type := mkItem { production : nat; dot : nat; origin : nat }.
#[global] Instance Item_eq_dec : EqDecision Item.
Proof. solve_decision. Defined.
#[global] Program Instance Item_countable : Countable Item :=
  inj_countable (fun it => (production it, dot it, origin it)) (fun '(p, d, o) => Some (mkItem p d o)) _.
Next Obligation. by intros []. Qed.

Record MatchBranch : Type := mkBranch { chart : list (gset Item); pending_utf8 : str }.
#[global] Instance MatchBranch_eq_dec : EqDecision MatchBranch.
Proof. solve_decision. Defined.
Record GrammarMatcher : Type := mkMatcher { grammar : Grammar; branches : list MatchBranch }.

Section Matcher.
Context (g : Grammar).
Implicit Types (it : Item) (cur : gset Item) (past : list (gset Item)) (agenda : list Item).

Definition prod_of it : Production := productions g !!! production it.
(** [production.rhs.get(item.dot)]. *)
Definition next_symbol it : option Symbol := rhs (prod_of it) !! dot it.
Definition advance it : Item := mkItem (production it) (S (dot it)) (origin it).

(** [if chart[position].insert(x) { agenda.push_back(x) }]. *)
Definition insert_item (st : gset Item * list Item) it : gset Item * list Item :=
  if decide (it ∈ st.1) then st else ({[it]} ∪ st.1, st.2 ++ [it]).

(** Completed at [position] over the empty input, with left-hand side [rule]. *)
Definition completes_here (position rule : nat) it : bool :=
  (origin it =? position)%nat && (lhs (prod_of it) =? rule)%nat && (dot it =? length (rhs (prod_of it)))%nat.
Definition waits_for (rule : nat) it : bool :=
  match next_symbol it with Some (Rule r) => (r =? rule)%nat | _ => false end.

(** One turn of the loop of [close], on the chart [past ++ [cur]]. *)
Definition close_item past it (st : gset Item * list Item) : gset Item * list Item :=
  let position := length past in
  match next_symbol it with
  | Some (Rule rule) =>
      let st := foldl (fun st candidate => insert_item st (mkItem candidate 0 position)) st (by_lhs g !!! rule) in
      if existsb (completes_here position rule) (elements st.1) then insert_item st (advance it) else st
  | Some (Character _) | Some (Token _) => st
  | None =>
      let parents := elements ((past ++ [st.1]) !!! origin it) in
      foldl (fun st parent =>
               if waits_for (lhs (prod_of it)) parent then insert_item st (advance parent) else st) st parents
  end.
Fixpoint close_loop (fuel : nat) past cur agenda : gset Item :=
  match agenda with
  | [] => cur
  | it :: agenda =>
      match fuel with
      | O => cur
      | S fuel => let (cur, agenda) := close_item past it (cur, agenda) in close_loop fuel past cur agenda
      end
  end.
(** The number of items a position can hold bounds the turns. *)
Definition item_bound (position : nat) : nat :=
  list_sum ((fun p => S (length (rhs p))) <$> productions g) * S position.
Definition close past cur : gset Item := close_loop (item_bound (length past)) past cur (elements cur).

(** ** Steps over one input. *)
Definition scanned (ok : Symbol -> bool) (items : gset Item) : gset Item :=
  list_to_set (omap (fun it => match next_symbol it with
                               | Some s => if ok s then Some (advance it) else None
                               | None => None
                               end) (elements items)).
Definition last_items (b : MatchBranch) : gset Item := default ∅ (last (chart b)).

Definition accept_char (b : MatchBranch) (value : Z) : option MatchBranch :=
  let next := scanned (fun s => match s with Character set => CharSet_matches set value | _ => false end) (last_items b) in
  if decide (next = ∅) then None
  else Some (mkBranch (chart b ++ [close (chart b) next]) (pending_utf8 b)).
Definition accept_token_terminal (b : MatchBranch) (token : Z) (bytes : str) : option MatchBranch :=
  let next := scanned (fun s => match s with Token term => TokenTerminal_matches term token bytes | _ => false end) (last_items b) in
  if decide (next = ∅) then None
  else Some (mkBranch (chart b ++ [close (chart b) next]) (pending_utf8 b)).

(** ** Incomplete UTF-8. *)
Definition incomplete_utf8_scalar_range (bytes : str) : option (Z * Z) :=
  match bytes with
  | [] => None
  | lead :: continuations =>
      let lead := Z_of_byte lead in
      let shape :=
        if (0xC2 <=? lead) && (lead <=? 0xDF) then Some (2, Z.land lead 0x1F, 0x80)
        else if (0xE0 <=? lead) && (lead <=? 0xEF) then Some (3, Z.land lead 0x0F, 0x800)
        else if (0xF0 <=? lead) && (lead <=? 0xF4) then Some (4, Z.land lead 0x07, 0x10000)
        else None in
      match shape with
      | None => None
      | Some (length, value, minimum) =>
          if (length <=? zlen bytes) || existsb (fun b => negb (is_continuation b)) continuations then None
          else
            let value := foldl (fun value b => Z.lor (Z.shiftl value 6) (Z.land (Z_of_byte b) 0x3F)) value continuations in
            let remaining := length - zlen bytes in
            let lower := Z.max (Z.shiftl value (6 * remaining)) minimum in
            let upper := Z.min (Z.lor (Z.shiftl value (6 * remaining)) (Z.shiftl 1 (6 * remaining) - 1)) 0x10FFFF in
            let '(lower, upper) :=
              if (lower <=? 0xDFFF) && (0xD800 <=? upper)
              then if lower <? 0xD800 then (lower, 0xD7FF) else (0xE000, upper)
              else (lower, upper) in
            if lower <=? upper then Some (lower, upper) else None
      end
  end.

Definition frontier_accepts_range (b : MatchBranch) (lower upper : Z) : bool :=
  existsb (fun it => match next_symbol it with
                     | Some (Character set) => CharSet_intersects set lower upper
                     | _ => false
                     end) (elements (last_items b)).

Fixpoint accept_chars (b : MatchBranch) (values : list Z) : option MatchBranch :=
  match values with
  | [] => Some b
  | v :: values => b ← accept_char b v; accept_chars b values
  end.

(** [error_len() == None]: the bytes end inside a character. *)
Definition truncated (bs : str) : bool :=
  match utf8_chunks bs with UTail _ :: _ => true | _ => false end.
(** The loop of [accept_bytes]: the second turn, if any, starts without a valid prefix. *)
Fixpoint accept_bytes_loop (fuel : nat) (b : MatchBranch) : option MatchBranch :=
  match fuel with
  | O => None
  | S fuel =>
      let pending := pending_utf8 b in
      if utf8_valid pending then accept_chars (mkBranch (chart b) []) (code_point <$> chars pending)
      else
        let valid := valid_up_to pending in
        if (0 <? valid)%nat then
          b ← accept_chars (mkBranch (chart b) (drop valid pending)) (code_point <$> chars (take valid pending));
          accept_bytes_loop fuel b
        else if negb (truncated pending) || (3 <? length pending)%nat then None
        else
          '(lower, upper) ← incomplete_utf8_scalar_range pending;
          if frontier_accepts_range b lower upper then Some b else None
  end.
Definition accept_bytes (b : MatchBranch) (bytes : str) : option MatchBranch :=
  accept_bytes_loop 2 (mkBranch (chart b) (pending_utf8 b ++ bytes)).
End Matcher.

(** ** The matcher: every alive branch. *)
(** [if !accepted.contains(&b) { accepted.push(b) }]. *)
Definition push_new (accepted : list MatchBranch) (b : option MatchBranch) : list MatchBranch :=
  match b with
  | Some b => if decide (b ∈ accepted) then accepted else accepted ++ [b]
  | None => accepted
  end.

Definition matcher_start (g : Grammar) : GrammarMatcher :=
  mkMatcher g [mkBranch [close g [] {[mkItem (start_production g) 0 0]}] []].
Definition accept_token (m : GrammarMatcher) (token : Z) (bytes : str) : option GrammarMatcher :=
  let accepted :=
    foldl (fun accepted b =>
             let accepted := match pending_utf8 b with
                             | [] => push_new accepted (accept_token_terminal (grammar m) b token bytes)
                             | _ => accepted
                             end in
             match bytes with
             | [] => accepted
             | _ => push_new accepted (accept_bytes (grammar m) b bytes)
             end) [] (branches m) in
  match accepted with [] => None | _ => Some (mkMatcher (grammar m) accepted) end.
Definition allows_token (m : GrammarMatcher) (token : Z) (bytes : str) : bool :=
  match accept_token m token bytes with Some _ => true | None => false end.
Definition matcher_accept_bytes (m : GrammarMatcher) (bytes : str) : option GrammarMatcher :=
  let accepted := foldl (fun accepted b => push_new accepted (accept_bytes (grammar m) b bytes)) [] (branches m) in
  match accepted with [] => None | _ => Some (mkMatcher (grammar m) accepted) end.
Definition allows_bytes (m : GrammarMatcher) (bytes : str) : bool :=
  match matcher_accept_bytes m bytes with Some _ => true | None => false end.
Definition is_accepting (m : GrammarMatcher) : bool :=
  existsb (fun b => bool_decide (pending_utf8 b = []) &&
                    bool_decide (mkItem (start_production (grammar m)) 1 0 ∈ last_items b)) (branches m).
Definition has_pending_utf8 (m : GrammarMatcher) : bool :=
  existsb (fun b => negb (bool_decide (pending_utf8 b = []))) (branches m).
