(* ===== verification/GrammarParser.v ===== *)
(** * The GBNF parser.

    Models [Parser] of [crates/muser-server/src/grammar.rs], which turns grammar source text
    into the productions the matcher runs on, and [quoted_literal], with which the schema
    compiler writes text into a grammar.  The recursive descent takes fuel; [OutOfFuel] is no
    error of the code, and [GrammarParserProofs] shows that [parse] never returns it. *)
From Stdlib Require Import Strings.Byte.
From stdpp Require Import pretty.
From S2P Require Import Prelude Utf8 Utf8Scalar Grammar.

(** The messages of the code, one constructor each. *)
Inductive ParseError : Type :=
| NoSuchRoot (root : str)
| UndefinedRule (name : str)
| UnexpectedEnd
| TokenIdNotDigits
| TokenIdTooLarge
| TokenCrossesLine
| TokenNameEmpty
| BadRepetition
| RepetitionSyntax
| NoRepetitionCount
| InvalidRepetitionCount
| UnterminatedLiteral
| UnterminatedClass
| DescendingRange
| TrailingEscape
| UnsupportedEscape (b : byte)
| SourceNotUtf8
| ShortHex
| InvalidHex
| HexNotScalar
| ExpectedName (position : nat)
| UnexpectedInput (position : nat)
| Expected (expected : str) (position : nat)
| OutOfFuel.

Record Parser : Type := mkParser {
  source : str;
  position : nat;
  names : gmap str nat;
  prods : list Production;
  generated : nat;
}.
Definition Parser_new (source : str) : Parser := mkParser source 0 ∅ [] 0.

Abbreviation parsed A := (result ParseError (A * Parser)).

(** ** Reading. *)
Definition rest (p : Parser) : str := drop (position p) (source p).
(** [self.position += n]. *)
Definition skip (n : nat) (p : Parser) : Parser := mkParser (source p) (position p + n) (names p) (prods p) (generated p).
Definition peek (p : Parser) : option byte := source p !! position p.
Definition peek_is (b : byte) (p : Parser) : bool := bool_decide (peek p = Some b).

(** [while self.peek().is_some_and(f) { self.position += 1 }]. *)
Fixpoint span (f : byte -> bool) (bs : str) : nat :=
  match bs with
  | b :: bs => if f b then S (span f bs) else 0%nat
  | [] => 0%nat
  end.
Definition skip_while (f : byte -> bool) (p : Parser) : Parser := skip (span f (rest p)) p.

Definition is_byte (b : byte) (c : byte) : bool := bool_decide (c = b).
Definition is_digit (b : byte) : bool := in_range 0x30 0x39 b.
Definition is_alphanumeric (b : byte) : bool := is_digit b || in_range 0x41 0x5A b || in_range 0x61 0x7A b.
Definition is_newline (b : byte) : bool := is_byte x0a b || is_byte x0d b.

Definition expect (expected : str) (p : Parser) : result ParseError Parser :=
  if bool_decide (take (length expected) (rest p) = expected) then Ok (skip (length expected) p)
  else Err (Expected expected (position p)).

Definition skip_horizontal (p : Parser) : Parser := skip_while (fun b => is_byte " " b || is_byte x09 b) p.
Fixpoint skip_layout_loop (fuel : nat) (newlines : bool) (p : Parser) : Parser :=
  match fuel with
  | O => p
  | S fuel =>
      let p := skip_while (fun b => is_byte " " b || is_byte x09 b || (newlines && is_newline b)) p in
      if peek_is "#" p then skip_layout_loop fuel newlines (skip_while (fun b => negb (is_byte x0a b)) p)
      else p
  end.
Definition skip_layout (newlines : bool) (p : Parser) : bool * Parser :=
  let p := skip_layout_loop (S (length (source p))) newlines p in
  ((position p <? length (source p))%nat, p).
Definition consume_rule_end (p : Parser) : result ParseError Parser :=
  let p := skip_horizontal p in
  let p := if peek_is "#" p then skip_while (fun b => negb (is_byte x0a b)) p else p in
  if (position p <? length (source p))%nat && negb (match peek p with Some b => is_newline b | None => false end)
  then Err (UnexpectedInput (position p))
  else Ok p.

(** [&self.source[start..self.position]] after skipping with [f]. *)
Definition spanned (f : byte -> bool) (p : Parser) : str := take (span f (rest p)) (rest p).
Definition is_name_byte (b : byte) : bool := is_alphanumeric b || is_byte "_" b || is_byte "-" b.
Definition name (p : Parser) : parsed str :=
  match spanned is_name_byte p with
  | [] => Err (ExpectedName (position p))
  | text => Ok (text, skip_while is_name_byte p)
  end.
Definition decimal (digits : str) : Z := foldl (fun v b => v * 10 + (Z_of_byte b - 0x30)) 0 digits.
(** [str::parse] of digits into an unsigned integer. *)
Definition parse_uint (w : Z) (digits : str) : option Z :=
  if decimal digits <? 2 ^ w then Some (decimal digits) else None.
Definition number (p : Parser) : parsed Z :=
  match spanned is_digit p with
  | [] => Err NoRepetitionCount
  | text => let? n := ok_or (parse_uint 64 text) InvalidRepetitionCount in Ok (n, skip_while is_digit p)
  end.

(** ** Rules. *)
Definition rule_id (text : str) (p : Parser) : nat * Parser :=
  match names p !! text with
  | Some id => (id, p)
  | None => (size (names p), mkParser (source p) (position p) (<[text := size (names p)]> (names p)) (prods p) (generated p))
  end.
Definition generated_name (n : nat) : str := string_bytes ("__generated-" ++ pretty n).
Definition fresh_rule (p : Parser) : nat * Parser :=
  rule_id (generated_name (generated p)) (mkParser (source p) (position p) (names p) (prods p) (S (generated p))).
Definition push_production (prod : Production) (p : Parser) : Parser :=
  mkParser (source p) (position p) (names p) (prods p ++ [prod]) (generated p).
Definition push_alternatives (rule : nat) (alternatives : list (list Symbol)) (p : Parser) : Parser :=
  foldl (fun p rhs => push_production (mkProduction rule rhs) p) p alternatives.
Definition generated_rule (alternatives : list (list Symbol)) (p : Parser) : nat * Parser :=
  let (rule, p) := fresh_rule p in (rule, push_alternatives rule alternatives p).

Definition repeat_symbols (symbols : list Symbol) (count : nat) : list Symbol := mjoin (replicate count symbols).
(** The chain of optional copies: [optional] of them are left at rule [tail]. *)
Fixpoint optional_tail (body : list Symbol) (tail optional : nat) (p : Parser) : Parser :=
  match optional with
  | O => p
  | S rest =>
      let p := push_production (mkProduction tail []) p in
      match rest with
      | O => push_production (mkProduction tail body) p
      | S _ =>
          let (next, p) := fresh_rule p in
          optional_tail body next rest (push_production (mkProduction tail (body ++ [Rule next])) p)
      end
  end.
Definition repeat_rule (body : list Symbol) (minimum : Z) (maximum : option Z) (p : Parser) : parsed nat :=
  if (5000 <=? minimum) || match maximum with Some maximum => (maximum <? minimum) || (5000 <? maximum) | None => false end
  then Err BadRepetition
  else
    let (rule, p) := fresh_rule p in
    let required := repeat_symbols body (Z.to_nat minimum) in
    match maximum with
    | Some maximum =>
        let optional := Z.to_nat (maximum - minimum) in
        let '(required, p) :=
          if (0 <? optional)%nat then
            let (first_tail, p) := fresh_rule p in
            (required ++ [Rule first_tail], optional_tail body first_tail optional p)
          else (required, p) in
        Ok (rule, push_production (mkProduction rule required) p)
    | None =>
        let (tail, p) := fresh_rule p in
        let p := push_production (mkProduction tail []) p in
        let p := push_production (mkProduction tail (body ++ [Rule tail])) p in
        Ok (rule, push_production (mkProduction rule (required ++ [Rule tail])) p)
    end.

(** ** Terminals. *)
Definition token_terminal (p : Parser) : parsed TokenTerminal :=
  let '(inverted, p) := if peek_is "!" p then (true, skip 1 p) else (false, p) in
  let? p := expect ["<"%byte] p in
  let? (value, p) :=
    if peek_is "[" p then
      let p := skip 1 p in
      match spanned is_digit p with
      | [] => Err TokenIdNotDigits
      | text =>
          let? token := ok_or (parse_uint 32 text) TokenIdTooLarge in
          let? p := expect ["]"; ">"]%byte (skip_while is_digit p) in
          Ok (TokenId token, p)
      end
    else
      let in_name b := negb (is_byte ">" b) && negb (is_newline b) in
      let start := (position p - 1)%nat in
      let p := skip_while in_name p in
      if match peek p with Some b => is_newline b | None => false end then Err TokenCrossesLine
      else if (position p =? S start)%nat then Err TokenNameEmpty
      else
        let? p := expect [">"%byte] p in
        Ok (TokenPiece (drop start (take (position p) (source p))), p) in
  Ok (mkTerminal inverted value, p).

Definition hex_digit (b : byte) : option Z :=
  if is_digit b then Some (Z_of_byte b - 0x30)
  else if in_range 0x41 0x46 b then Some (Z_of_byte b - 0x37)
  else if in_range 0x61 0x66 b then Some (Z_of_byte b - 0x57)
  else None.
(** [u32::from_str_radix(text, 16)], for at most eight digits; one leading plus is taken. *)
Definition from_str_radix_16 (text : str) : option Z :=
  let digits := match text with
                | b :: digits => if is_byte "+" b then digits else text
                | [] => []
                end in
  match digits with
  | [] => None
  | _ => foldl (fun v b => v ← v; d ← hex_digit b; Some (v * 16 + d)) (Some 0) digits
  end.
Definition hex (digits : nat) (p : Parser) : parsed Z :=
  if (length (source p) <? position p + digits)%nat then Err ShortHex
  else
    let? value := ok_or (from_str_radix_16 (take digits (rest p))) InvalidHex in
    if is_scalar value then Ok (value, skip digits p) else Err HexNotScalar.

Definition codepoint (p : Parser) : parsed Z :=
  if peek_is x5c p then
    let p := skip 1 p in
    let? escaped := ok_or (peek p) TrailingEscape in
    let p := skip 1 p in
    if is_byte "n" escaped then Ok (0x0A, p)
    else if is_byte "r" escaped then Ok (0x0D, p)
    else if is_byte "t" escaped then Ok (0x09, p)
    else if is_byte x22 escaped || is_byte x5c escaped || is_byte "[" escaped || is_byte "]" escaped || is_byte "-" escaped
    then Ok (Z_of_byte escaped, p)
    else if is_byte "x" escaped then hex 2 p
    else if is_byte "u" escaped then hex 4 p
    else if is_byte "U" escaped then hex 8 p
    else Err (UnsupportedEscape escaped)
  else if utf8_valid (rest p) then
    match chars (rest p) with
    | [] => Err UnexpectedEnd
    | character :: _ => Ok (code_point character, skip (length character) p)
    end
  else Err SourceNotUtf8.

Fixpoint literal_loop (fuel : nat) (output : list Symbol) (p : Parser) : parsed (list Symbol) :=
  match fuel with
  | O => Err OutOfFuel
  | S fuel =>
      if peek_is x22 p then Ok (output, skip 1 p)
      else if match peek p with Some b => is_newline b | None => true end then Err UnterminatedLiteral
      else
        let? (c, p) := codepoint p in
        literal_loop fuel (output ++ [Character (CharSet_one c)]) p
  end.
Definition literal (p : Parser) : parsed (list Symbol) := literal_loop (S (length (source p))) [] (skip 1 p).

Fixpoint class_loop (fuel : nat) (ranges : list (Z * Z)) (p : Parser) : parsed (list (Z * Z)) :=
  match fuel with
  | O => Err OutOfFuel
  | S fuel =>
      if peek_is "]" p then Ok (ranges, skip 1 p)
      else if bool_decide (peek p = None) then Err UnterminatedClass
      else
        let? (lower, p) := codepoint p in
        let? (upper, p) :=
          if peek_is "-" p && negb (bool_decide (source p !! S (position p) = Some "]"%byte))
          then codepoint (skip 1 p) else Ok (lower, p) in
        if upper <? lower then Err DescendingRange else class_loop fuel (ranges ++ [(lower, upper)]) p
  end.
Definition character_class (p : Parser) : parsed CharSet :=
  let p := skip 1 p in
  let '(inverted, p) := if peek_is "^" p then (true, skip 1 p) else (false, p) in
  let? (ranges, p) := class_loop (S (length (source p))) [] p in
  Ok (mkCharSet inverted ranges, p).

Definition repetition_range (p : Parser) : parsed (Z * option Z) :=
  let p := skip 1 p in
  let? (minimum, p) := number p in
  let? (maximum, p) :=
    if peek_is "}" p then Ok (Some minimum, p)
    else if peek_is "," p then
      let p := skip 1 p in
      if peek_is "}" p then Ok (None, p)
      else let? (maximum, p) := number p in Ok (Some maximum, p)
    else Err RepetitionSyntax in
  let? p := expect ["}"%byte] p in
  Ok ((minimum, maximum), p).
(** The suffix of an atom, and the atom repeated. *)
Definition repetition (p : Parser) : parsed (option (Z * option Z)) :=
  let p := skip_horizontal p in
  let? (rep, p) :=
    if peek_is "?" p then Ok (Some (0, Some 1), p)
    else if peek_is "*" p then Ok (Some (0, None), p)
    else if peek_is "+" p then Ok (Some (1, None), p)
    else if peek_is "{" p then let? (rep, p) := repetition_range p in Ok (Some rep, p)
    else Ok (None, p) in
  let before := match position p with O => None | S n => source p !! n end in
  if bool_decide (rep <> None) && negb (bool_decide (before = Some "}"%byte)) then Ok (rep, skip 1 p) else Ok (rep, p).
Definition repeated (body : list Symbol) (p : Parser) : parsed (list Symbol) :=
  let? (rep, p) := repetition p in
  match rep with
  | Some (minimum, maximum) => let? (rule, p) := repeat_rule body minimum maximum p in Ok ([Rule rule], p)
  | None => Ok (body, p)
  end.

(** ** The recursive descent. *)
Fixpoint expression (fuel : nat) (closing : option byte) (alternatives : list (list Symbol)) (p : Parser) : parsed (list (list Symbol)) :=
  match fuel with
  | O => Err OutOfFuel
  | S fuel =>
      let? (rhs, p) := sequence fuel closing [] p in
      let p := skip_horizontal p in
      if peek_is "|" p then expression fuel closing (alternatives ++ [rhs]) (skip 1 p) else Ok (alternatives ++ [rhs], p)
  end
with sequence (fuel : nat) (closing : option byte) (symbols : list Symbol) (p : Parser) : parsed (list Symbol) :=
  match fuel with
  | O => Err OutOfFuel
  | S fuel =>
      let p := skip_horizontal p in
      match peek p with
      | None => Ok (symbols, p)
      | Some b =>
          if is_byte "|" b || is_newline b || bool_decide (closing = Some b) || is_byte "#" b then Ok (symbols, p)
          else let? (body, p) := atom fuel p in sequence fuel closing (symbols ++ body) p
      end
  end
with atom (fuel : nat) (p : Parser) : parsed (list Symbol) :=
  match fuel with
  | O => Err OutOfFuel
  | S fuel =>
      let? (body, p) :=
        match peek p with
        | None => Err UnexpectedEnd
        | Some b =>
            if is_byte x22 b then literal p
            else if is_byte "[" b then let? (set, p) := character_class p in Ok ([Character set], p)
            else if is_byte "." b then Ok ([Character (mkCharSet true [])], skip 1 p)
            else if is_byte "(" b then
              let? (alternatives, p) := expression fuel (Some ")"%byte) [] (skip 1 p) in
              let? p := expect [")"%byte] p in
              let (rule, p) := generated_rule alternatives p in
              Ok ([Rule rule], p)
            else if is_byte "<" b || is_byte "!" b then let? (term, p) := token_terminal p in Ok ([Token term], p)
            else
              let? (text, p) := name p in
              let (rule, p) := rule_id text p in
              Ok ([Rule rule], p)
        end in
      repeated body p
  end.

Definition fuel_for (p : Parser) : nat := (3 * length (source p) + 3)%nat.
Fixpoint rules (fuel : nat) (p : Parser) : result ParseError Parser :=
  match fuel with
  | O => Err OutOfFuel
  | S fuel =>
      let (more, p) := skip_layout true p in
      if negb more then Ok p
      else
        let? (text, p) := name p in
        let (lhs, p) := rule_id text p in
        let p := skip_horizontal p in
        let? p := expect [":"; ":"; "="]%byte p in
        let? (alternatives, p) := expression (fuel_for p) None [] p in
        let? p := consume_rule_end (push_alternatives lhs alternatives p) in
        rules fuel p
  end.
(** [by_lhs]: the indices of the productions of each rule, in order.  A left-hand side out of
    range would panic; every one is a rule of [names]. *)
Definition index_productions (rules : nat) (productions : list Production) : list (list nat) :=
  foldl (fun by_lhs '(index, production) => alter (fun indices => indices ++ [index]) (lhs production) by_lhs)
    (replicate rules []) (imap pair productions).
Definition parse (text root : str) : result ParseError Grammar :=
  let? p := rules (S (length text)) (Parser_new text) in
  let? root := ok_or (names p !! root) (NoSuchRoot root) in
  let synthetic := size (names p) in
  let productions := prods p ++ [mkProduction synthetic [Rule root]] in
  let by_lhs := index_productions (S synthetic) productions in
  match filter (fun '(_, rule) => by_lhs !!! rule = []) (map_to_list (names p)) with
  | (name, _) :: _ => Err (UndefinedRule name)
  | [] => Ok (mkGrammar productions by_lhs (length (prods p)))
  end.

(** [GrammarMatcher::parse]. *)
Definition matcher_parse (text root : str) : result ParseError GrammarMatcher :=
  let? g := parse text root in Ok (matcher_start g).

(** [quoted_literal], on the bytes of each character. *)
Definition quoted_character (c : str) : str :=
  if bool_decide (c = [x5c]) then [x5c; x5c]
  else if bool_decide (c = [x22]) then [x5c; x22]
  else if bool_decide (c = [x0a]) then [x5c; "n"%byte]
  else if bool_decide (c = [x0d]) then [x5c; "r"%byte]
  else if bool_decide (c = [x09]) then [x5c; "t"%byte]
  else c.
Definition quoted_literal (value : str) : str := x22 :: mjoin (quoted_character <$> chars value) ++ [x22].
