(* ===== verification/GrammarText.v ===== *)
(** * Text and the grammar: character sets over ranges, characters cut by a token boundary.

    [CharSet_intersects] decides whether a set has a member in a range, and
    [incomplete_utf8_scalar_range] gives the characters an unfinished sequence can still
    become: together they tell whether a token that ends inside a character can be allowed. *)
From Stdlib Require Import Strings.Byte.
From stdpp Require Import sorting.
From S2P Require Import Prelude Utf8 Utf8Scalar Grammar.

(** ** Character sets. *)
Definition wf_charset (cs : CharSet) : Prop := Forall (fun r => r.1 <= r.2) (ranges cs).
Definition in_ranges (rs : list (Z * Z)) (v : Z) : Prop := exists r, r ∈ rs /\ r.1 <= v <= r.2.

#[global] Instance pair_le_trans : Transitive pair_le.
Proof. intros [a b] [c d] [e f]. unfold pair_le. cbn. lia. Qed.
#[global] Instance pair_le_total : Total pair_le.
Proof. intros [a b] [c d]. unfold pair_le. cbn. lia. Qed.

Lemma in_ranges_cons r rs v : in_ranges (r :: rs) v <-> r.1 <= v <= r.2 \/ in_ranges rs v.
Proof.
  unfold in_ranges. split.
  - intros (r' & [->|Hr]%elem_of_cons & Hv); [by left|]. right. by exists r'.
  - intros [Hv|(r' & Hr & Hv)]; [exists r; split; [apply elem_of_cons; by left | done]|].
    exists r'. split; [apply elem_of_cons; by right | done].
Qed.
Lemma existsb_in_ranges rs v :
  existsb (fun '(lower, upper) => (lower <=? v) && (v <=? upper)) rs = true <-> in_ranges rs v.
Proof.
  rewrite existsb_exists. unfold in_ranges. split.
  - intros ([l u] & Hr%list_elem_of_In & Hv). bool_prop. by exists (l, u).
  - intros ([l u] & Hr & Hv). cbn in Hv. exists (l, u). split; [by apply list_elem_of_In|]. apply andb_true_iff. lia.
Qed.
Lemma CharSet_matches_spec cs v : CharSet_matches cs v = true <-> (in_ranges (ranges cs) v <-> cs_inverted cs = false).
Proof.
  unfold CharSet_matches. rewrite <- existsb_in_ranges. destruct (existsb _ _), (cs_inverted cs); cbn; naive_solver.
Qed.

(** The sweep finds a value the sorted ranges leave out. *)
Lemma gap_after_spec upper covered : StronglySorted pair_le covered -> Forall (fun r => r.1 <= r.2 <= upper) covered ->
  upper < U32_MAX -> forall cursor, gap_after upper cursor covered = true <-> exists v, cursor <= v <= upper /\ ~ in_ranges covered v.
Proof.
  intros Hs Hr Hu. induction covered as [|[l u] covered IH]; intros cursor; cbn [gap_after].
  - rewrite Z.leb_le. split; [|intros (v & Hv & _); lia]. intros H. exists cursor. split; [lia|]. by intros (r & ?%elem_of_nil & _).
  - apply Forall_cons in Hr as [Hlu Hr]. apply StronglySorted_inv in Hs as [Hs Hle]. specialize (IH Hs Hr). cbn in Hlu.
    assert (forall v, in_ranges covered v -> l <= v) as Hge.
    { intros v ([a b] & Hin & Hv). rewrite Forall_forall in Hle. specialize (Hle _ Hin). unfold pair_le in Hle. cbn in *. lia. }
    replace (saturating_add 32 u 1) with (u + 1) by (unfold saturating_add, U32_MAX in *; lia).
    destruct (Z.ltb_spec cursor l).
    + split; [|done]. intros _. exists cursor. split; [lia|]. rewrite in_ranges_cons. cbn. intros [?|H1%Hge]; lia.
    + destruct (Z.ltb_spec upper (cursor `max` (u + 1))) as [Hlt|Hlt].
      * split; [done|]. intros (v & Hv & Hn). exfalso. apply Hn, in_ranges_cons. left. cbn. lia.
      * rewrite IH. split; intros (v & Hv & Hn); exists v.
        -- split; [lia|]. rewrite in_ranges_cons. cbn. intros [?|?]; [lia | done].
        -- rewrite in_ranges_cons in Hn. cbn in Hn. split; [lia|]. intros ?. by apply Hn; right.
Qed.

(** Clipping to the range keeps the members inside it. *)
Lemma in_ranges_clip lower upper rs v : lower <= v <= upper -> in_ranges (omap (clip lower upper) rs) v <-> in_ranges rs v.
Proof.
  intros Hv. unfold in_ranges. split.
  - intros (r & (r0 & Hr0 & Hc)%list_elem_of_omap & Hr). unfold clip in Hc. case_match; simplify_eq. bool_prop. cbn in Hr.
    exists r0. split; [done | lia].
  - intros (r & Hr & Hvr). exists (r.1 `max` lower, r.2 `min` upper). cbn. split; [|lia].
    apply list_elem_of_omap. exists r. split; [done|]. unfold clip. case_match; bool_prop; [done | lia].
Qed.
Lemma in_ranges_perm rs rs' v : rs ≡ₚ rs' -> in_ranges rs v <-> in_ranges rs' v.
Proof. intros Hp. unfold in_ranges. by setoid_rewrite Hp. Qed.

Lemma charset_intersects cs lower upper : wf_charset cs -> lower <= upper -> upper < U32_MAX ->
  CharSet_intersects cs lower upper = true <-> exists v, lower <= v <= upper /\ CharSet_matches cs v = true.
Proof.
  intros Hwf Hlu Hu. setoid_rewrite CharSet_matches_spec. unfold CharSet_intersects. destruct (cs_inverted cs); cbn [negb].
  - set (covered := omap (clip lower upper) (ranges cs)). rewrite gap_after_spec.
    + assert (forall v, lower <= v <= upper -> in_ranges (merge_sort pair_le covered) v <-> in_ranges (ranges cs) v) as E.
      { intros v Hv. rewrite (in_ranges_perm _ covered) by apply merge_sort_Permutation. by apply in_ranges_clip. }
      split; intros (v & Hv & Hn); exists v; (split; [done|]).
      * rewrite (E v Hv) in Hn. by split.
      * rewrite (E v Hv). by intros ?%Hn.
    + apply (StronglySorted_merge_sort pair_le); apply _.
    + rewrite merge_sort_Permutation. apply Forall_forall. intros r (r0 & Hr0 & Hc)%list_elem_of_omap.
      unfold clip in Hc. case_match; simplify_eq. bool_prop. cbn. lia.
    + done.
  - rewrite existsb_exists. split.
    + intros ([l u] & Hr%list_elem_of_In & Hb). bool_prop. unfold wf_charset in Hwf. rewrite Forall_forall in Hwf.
      specialize (Hwf _ Hr). cbn in Hwf. exists (l `max` lower). split; [lia|]. split; [done|]. intros _. exists (l, u). cbn.
      split; [done | lia].
    + intros (v & Hv & Hm). destruct (proj2 Hm eq_refl) as ([l u] & Hr & Hin). exists (l, u). split; [by apply list_elem_of_In|]. cbn in Hin.
      apply andb_true_iff. lia.
Qed.

(** ** Characters cut by the end of a token. *)
(** The scalar values in [value * block, (value + 1) * block), at least [minimum]. *)
Definition scalar_range (value block minimum : Z) : option (Z * Z) :=
  let lower := Z.max (value * block) minimum in
  let upper := Z.min (value * block + (block - 1)) 0x10FFFF in
  let '(lower, upper) :=
    if (lower <=? 0xDFFF) && (0xD800 <=? upper)
    then if lower <? 0xD800 then (lower, 0xD7FF) else (0xE000, upper)
    else (lower, upper) in
  if lower <=? upper then Some (lower, upper) else None.

Lemma incomplete_range_unfold b r w lo hi : lead_class (Z_of_byte b) = Some (w, lo, hi) -> (2 <= w)%nat ->
  (length (b :: r) < w)%nat -> Forall (fun b => is_continuation b = true) r ->
  let lead := Z_of_byte b mod (match w with 2%nat => 32 | 3%nat => 16 | _ => 8 end) in
  incomplete_utf8_scalar_range (b :: r) =
  scalar_range (foldl (fun v b => v * 64 + low6 b) lead r) (64 ^ (Z.of_nat w - zlen (b :: r)))
    (match w with 2%nat => 0x80 | 3%nat => 0x800 | _ => 0x10000 end).
Proof.
  intros El Hw Hlen Hcont. cbv zeta. unfold incomplete_utf8_scalar_range.
  assert (existsb (fun b => negb (is_continuation b)) r = false) as Hex.
  { clear -Hcont. induction Hcont as [|x r Hx Hr IH]; [done|]. cbn. by rewrite Hx. }
  assert (forall v, foldl (fun value b => Z.lor (Z.shiftl value 6) (Z.land (Z_of_byte b) 0x3F)) v r =
    foldl (fun v b => v * 64 + low6 b) v r) as Hfold.
  { clear. induction r as [|x r IH]; intros v; [done|]. cbn [foldl]. by rewrite push_low6. }
  assert (forall rem v, 0 <= rem -> Z.shiftl v (6 * rem) = v * 64 ^ rem /\
    Z.lor (Z.shiftl v (6 * rem)) (Z.shiftl 1 (6 * rem) - 1) = v * 64 ^ rem + (64 ^ rem - 1)) as Hsh.
  { intros rem v Hr. change 64 with (2 ^ 6). rewrite <- Z.pow_mul_r, (Z.shiftl_mul_pow2 1), Z.mul_1_l by lia.
    pose proof (Z.pow_pos_nonneg 2 (6 * rem)). split; [apply Z.shiftl_mul_pow2; lia|]. apply lor_shiftl; lia. }
  set (fd := foldl (fun v b => v * 64 + low6 b)) in *. unfold zlen. cbv zeta. rewrite Hex.
  destruct (lead_class_inv _ _ _ _ El) as [[-> H]|[(-> & H & -> & ->)|[(-> & H & -> & ->)|(-> & H & -> & ->)]]]; [lia|..].
  - rewrite (proj2 (andb_true_iff _ _)) by (rewrite !Z.leb_le; lia). rewrite (proj2 (Z.leb_gt 2 _)) by lia.
    cbn [orb]. rewrite Hfold, (land_low _ 5) by done.
    destruct (Hsh (2 - Z.of_nat (length (b :: r))) (fd (Z_of_byte b mod 2 ^ 5) r)) as [E1 E2]; [lia|].
    by rewrite E2, E1.
  - rewrite (proj2 (andb_false_iff _ _)) by (rewrite !Z.leb_gt; lia).
    rewrite (proj2 (andb_true_iff _ _)) by (rewrite !Z.leb_le; lia). rewrite (proj2 (Z.leb_gt 3 _)) by lia.
    cbn [orb]. rewrite Hfold, (land_low _ 4) by done.
    destruct (Hsh (3 - Z.of_nat (length (b :: r))) (fd (Z_of_byte b mod 2 ^ 4) r)) as [E1 E2]; [lia|].
    by rewrite E2, E1.
  - rewrite !(proj2 (andb_false_iff _ _)) by (rewrite !Z.leb_gt; lia).
    rewrite (proj2 (andb_true_iff _ _)) by (rewrite !Z.leb_le; lia). rewrite (proj2 (Z.leb_gt 4 _)) by lia.
    cbn [orb]. rewrite Hfold, (land_low _ 3) by done.
    destruct (Hsh (4 - Z.of_nat (length (b :: r))) (fd (Z_of_byte b mod 2 ^ 3) r)) as [E1 E2]; [lia|].
    by rewrite E2, E1.
Qed.

(** An interval that does not reach over the surrogates on both sides loses exactly them. *)
Lemma scalar_range_spec value block minimum c :
  ~ (value * block < 0xD800 /\ minimum < 0xD800 /\ 0xDFFF < value * block + (block - 1)) -> 0 <= minimum -> 0 <= value * block ->
  (exists lower upper, scalar_range value block minimum = Some (lower, upper) /\ lower <= c <= upper) <->
  value * block <= c <= value * block + (block - 1) /\ minimum <= c /\ is_scalar c = true.
Proof.
  intros Hs Hm Hv. rewrite is_scalar_spec. unfold scalar_range. generalize dependent (value * block). intros base Hs Hv.
  set (lower := base `max` minimum). set (upper := (base + (block - 1)) `min` 0x10FFFF).
  assert (forall lo hi, (exists lower upper, (if lo <=? hi then Some (lo, hi) else None) = Some (lower, upper) /\ lower <= c <= upper) <->
    lo <= c <= hi) as Hsome.
  { intros lo hi. destruct (Z.leb_spec lo hi); split; [by intros (? & ? & [= <- <-] & ?) | intros; by exists lo, hi | by intros (? & ? & ? & ?) | lia]. }
  destruct (Z.leb_spec lower 0xDFFF), (Z.leb_spec 0xD800 upper); cbn [andb]; [destruct (Z.ltb_spec lower 0xD800)| | |];
    rewrite Hsome; lia.
Qed.

(** The bytes the lead byte and its continuations leave missing. *)
Lemma classify_truncated b r : classify b r = HTruncated -> exists w lo hi,
  lead_class (Z_of_byte b) = Some (w, lo, hi) /\ (2 <= w)%nat /\ (length (b :: r) < w)%nat /\
  Forall (fun b => is_continuation b = true) r /\ (forall b1 r', r = b1 :: r' -> lo <= Z_of_byte b1 <= hi).
Proof.
  unfold classify. destruct (lead_class (Z_of_byte b)) as [[[w lo] hi]|] eqn:El; [|done]. intros Hc. exists w, lo, hi. split; [done|].
  assert (w = 1%nat \/ (2 <= w <= 4)%nat /\ 0x80 <= lo /\ hi <= 0xBF) as Hw.
  { destruct (lead_class_inv _ _ _ _ El) as [[-> H]|[(-> & H & -> & ->)|[(-> & H & -> & ->)|(-> & H & -> & ->)]]]; [by left|..];
      right; (split; [lia|]); repeat case_match; lia. }
  destruct w as [|[|w]]; [lia|done|]. destruct Hw as [?|(Hw & Hlo & Hhi)]; [done|]. split; [lia|].
  destruct r as [|b1 r]; [by split; [simpl; lia|]|]. destruct (in_range lo hi b1) eqn:E1; [|done]. apply in_range_spec in E1.
  assert (is_continuation b1 = true) as Hb1 by (apply is_continuation_spec; lia). cbn [negb] in Hc.
  destruct (Nat.eqb_spec (S (S w)) 2); [done|].
  assert (forall b1' r', b1 :: r = b1' :: r' -> lo <= Z_of_byte b1' <= hi) as Hfirst by (intros ? ? [= <- <-]; done).
  destruct r as [|b2 r]; [split; [simpl; lia|]; by split; [eauto|]|]. destruct (is_continuation b2) eqn:E2; [|done]. cbn [negb] in Hc.
  destruct (Nat.eqb_spec (S (S w)) 3); [done|].
  destruct r as [|b3 r]; [split; [simpl; lia|]; by split; [eauto|]|]. by destruct (is_continuation b3).
Qed.

Ltac range_iff := split; [intros (? & ? & ?); split; [euclid | done] | intros [? ?]; split; [euclid | split; [euclid | done]]].
(** A cut sequence stands for exactly the scalar values of its range. *)
Lemma incomplete_range b r c : classify b r = HTruncated ->
  (exists lower upper, incomplete_utf8_scalar_range (b :: r) = Some (lower, upper) /\ lower <= c <= upper) <->
  is_scalar c = true /\ exists k, k <> [] /\ encode_utf8 c = (b :: r) ++ k.
Proof.
  intros (w & lo & hi & El & Hw & Hlen & Hcont & Hfirst)%classify_truncated.
  rewrite (incomplete_range_unfold _ _ _ _ _ El Hw Hlen Hcont). unfold zlen. cbv zeta.
  assert (forall P Q : Prop, (is_scalar c = true -> starts_with c (Z_of_byte <$> (b :: r)) <-> Q) -> (P <-> (Q /\ is_scalar c = true)) ->
    P <-> is_scalar c = true /\ exists k, k <> [] /\ encode_utf8 c = (b :: r) ++ k) as Hcut.
  { intros P Q HQ ->. split.
    - intros [HQ' Hc]. split; [done|]. apply encode_prefix; [done|]. by apply HQ.
    - intros [Hc HE]. split; [|done]. by apply HQ, encode_prefix. }
  assert (forall b, is_continuation b = true -> 0x80 <= Z_of_byte b <= 0xBF /\ low6 b = Z_of_byte b - 0x80) as Hlow.
  { intros b' Hb'%is_continuation_spec. split; [done|]. unfold low6. euclid. }
  destruct (lead_class_inv _ _ _ _ El) as [[-> H]|[(-> & H & -> & ->)|[(-> & H & -> & ->)|(-> & H & -> & ->)]]]; [lia|..].
  - destruct r; [|simpl in Hlen; lia]. cbn [foldl length].
    eapply Hcut; [intros Hc; by apply cut_2_1|]. change (64 ^ (Z.of_nat 2 - Z.of_nat 1)) with 64. rewrite scalar_range_spec by euclid. range_iff.
  - destruct r as [|b1 [|b2 r]]; [|specialize (Hfirst _ _ eq_refl) as Hb1|simpl in Hlen; lia]; cbn [foldl length].
    + eapply Hcut; [intros Hc; by apply cut_3_1|]. change (64 ^ (Z.of_nat 3 - Z.of_nat 1)) with 4096. rewrite scalar_range_spec by euclid. range_iff.
    + apply Forall_cons in Hcont as [[Hb Hl]%Hlow _].
      eapply Hcut; [intros Hc; by apply cut_3_2|]. change (64 ^ (Z.of_nat 3 - Z.of_nat 2)) with 64. rewrite Hl. rewrite scalar_range_spec by (repeat case_match; euclid). range_iff.
  - destruct r as [|b1 [|b2 [|b3 r]]]; [|specialize (Hfirst _ _ eq_refl) as Hb1..|simpl in Hlen; lia]; cbn [foldl length].
    + eapply Hcut; [intros Hc; by apply cut_4_1|]. change (64 ^ (Z.of_nat 4 - Z.of_nat 1)) with 262144. rewrite scalar_range_spec by euclid. range_iff.
    + apply Forall_cons in Hcont as [[Hb Hl]%Hlow _].
      eapply Hcut; [intros Hc; by apply cut_4_2|]. change (64 ^ (Z.of_nat 4 - Z.of_nat 2)) with 4096. rewrite Hl. rewrite scalar_range_spec by (repeat case_match; euclid). range_iff.
    + apply Forall_cons in Hcont as [[Hb Hl]%Hlow [[Hb2 Hl2]%Hlow _]%Forall_cons].
      eapply Hcut; [intros Hc; by apply cut_4_3|]. change (64 ^ (Z.of_nat 4 - Z.of_nat 3)) with 64. rewrite Hl, Hl2. rewrite scalar_range_spec by (repeat case_match; euclid). range_iff.
Qed.
Lemma incomplete_range_bounds b r lower upper : incomplete_utf8_scalar_range (b :: r) = Some (lower, upper) ->
  lower <= upper <= 0x10FFFF.
Proof.
  unfold incomplete_utf8_scalar_range. destruct (if _ && _ then _ else _) as [[[n v] minimum]|]; [|done]. case_match; [done|]. cbv zeta.
  match goal with |- context [Z.max ?a ?b] => generalize (Z.max a b) end. intros lo.
  match goal with |- context [Z.min ?a _] => generalize a end. intros up.
  repeat case_match; intros [= <- <-]; simplify_eq; bool_prop; lia.
Qed.

(** A cut sequence can be completed. *)
Lemma incomplete_has_member b r : classify b r = HTruncated -> exists c, is_scalar c = true /\ exists k, k <> [] /\ encode_utf8 c = (b :: r) ++ k.
Proof.
  intros Hcl. assert (exists k, k <> [] /\ classify b (r ++ k) = HChar (length (b :: r ++ k))) as (k & Hk & Hc).
  { pose proof (classify_truncated b r Hcl) as (w & lo & hi & El & Hw & Hlen & Hcont & Hfirst).
    assert ((w = 2 \/ w = 3 \/ w = 4)%nat /\ 0x80 <= lo <= hi /\ hi <= 0xBF) as (Hw4 & Hlo & Hhi).
    { destruct (lead_class_inv _ _ _ _ El) as [[-> H]|[(-> & H & -> & ->)|[(-> & H & -> & ->)|(-> & H & -> & ->)]]]; [lia|..];
        (split; [lia|]); repeat case_match; bool_prop; lia. }
    assert (in_range lo hi (byte_of_Z lo) = true) as Hfill by (apply in_range_spec; rewrite Z_of_byte_small by lia; lia).
    set (first := match r with [] => [byte_of_Z lo] | _ => [x80] end). set (n := (w - length (b :: r) - 1)%nat).
    exists (first ++ replicate n x80). split; [by destruct r|]. unfold first, n, classify. rewrite El.
    destruct r as [|b1 [|b2 [|b3 r]]]; [|specialize (Hfirst _ _ eq_refl) as Hb1%in_range_spec..]; cbn [length] in *;
      [| |apply Forall_cons in Hcont as [_ [Hb2 _]%Forall_cons] |lia]; (destruct Hw4 as [-> | [-> | ->]]); try lia; cbn;
      rewrite ?Hfill, ?Hb1; cbn; rewrite ?Hb2; done. }
  destruct (encode_code_point _ _ _ Hc) as [Hs He]. rewrite firstn_all in Hs, He. exists (code_point (b :: r ++ k)). split; [done|].
  by exists k.
Qed.

(** For every byte string that ends inside its first character,
    [incomplete_utf8_scalar_range] returns a range, of scalar values only, and the values of
    the range are exactly the characters whose encoding properly extends the bytes. *)
Lemma incomplete_range_exact bytes : utf8_chunks bytes = [UTail bytes] ->
  exists lower upper, incomplete_utf8_scalar_range bytes = Some (lower, upper) /\ lower <= upper <= 0x10FFFF /\
  forall c, lower <= c <= upper <-> is_scalar c = true /\ exists k, k <> [] /\ encode_utf8 c = bytes ++ k.
Proof.
  intros Hb. destruct bytes as [|b r]; [done|]. rewrite utf8_chunks_cons in Hb. destruct (classify b r) eqn:Hcl; try done.
  destruct (incomplete_utf8_scalar_range (b :: r)) as [[lower upper]|] eqn:E.
  - exists lower, upper. split; [done|]. split; [by eapply incomplete_range_bounds|]. intros c.
    rewrite <- incomplete_range by done. rewrite E. split; [intros Hc; by exists lower, upper | by intros (? & ? & [= <- <-] & ?)].
  - exfalso. destruct (incomplete_has_member _ _ Hcl) as (c & Hc). apply incomplete_range in Hc as (? & ? & ? & _); [congruence | done].
Qed.
