(* ===== verification/GrammarClosure.v ===== *)
(** * The closure of an Earley set.

    [close] ends within its fuel and returns the least set that contains the given items and is
    closed under prediction and completion, completions over the empty input included. *)
From stdpp Require Import fin_sets.
From S2P Require Import Prelude Utf8 Grammar.

Section Closure.
Context (g : Grammar).
Implicit Types (it par : Item) (cur : gset Item) (past : list (gset Item)) (agenda : list Item).

(** What the parser establishes of every grammar it returns. *)
Record wf_grammar : Prop := {
  wf_start : (start_production g < length (productions g))%nat;
  wf_start_rhs : length (rhs (productions g !!! start_production g)) = 1%nat;
  wf_by_lhs_sound r p : p ∈ by_lhs g !!! r -> (p < length (productions g))%nat /\ lhs (productions g !!! p) = r;
  wf_by_lhs_complete p : (p < length (productions g))%nat -> p ∈ by_lhs g !!! lhs (productions g !!! p);
  wf_rules p r : (p < length (productions g))%nat -> Rule r ∈ rhs (productions g !!! p) -> (r < length (by_lhs g))%nat;
}.

(** An item that exists: its production does, the dot is inside it, the origin not later. *)
Definition item_in (position : nat) it : Prop :=
  (production it < length (productions g))%nat /\ (dot it <= length (rhs (prod_of g it)))%nat /\ (origin it <= position)%nat.

(** ** Counting items. *)
Definition all_items (position : nat) : list Item :=
  p ← seq 0 (length (productions g)); d ← seq 0 (S (length (rhs (productions g !!! p)))); o ← seq 0 (S position);
  [mkItem p d o].
Lemma elem_of_all_items position it : item_in position it -> it ∈ all_items position.
Proof.
  intros (Hp & Hd & Ho). unfold all_items. apply list_elem_of_bind. exists (production it).
  split; [|apply elem_of_seq; lia]. apply list_elem_of_bind. exists (dot it).
  split; [|apply elem_of_seq; unfold prod_of in Hd; lia]. apply list_elem_of_bind. exists (origin it).
  split; [|apply elem_of_seq; lia]. apply list_elem_of_singleton. by destruct it.
Qed.
Lemma length_bind_const {A B} (f : A -> list B) (l : list A) n :
  (forall x, x ∈ l -> length (f x) = n) -> length (l ≫= f) = (length l * n)%nat.
Proof.
  induction l as [|x l IH]; intros Hf; [done|]. rewrite bind_cons, length_app, Hf by (apply elem_of_cons; by left).
  rewrite IH; [done|]. intros y Hy. apply Hf, elem_of_cons. by right.
Qed.
Lemma length_all_items position : length (all_items position) = item_bound g position.
Proof.
  unfold all_items, item_bound.
  assert (forall l k, drop k (productions g) = l ->
    length (p ← seq k (length l); d ← seq 0 (S (length (rhs (productions g !!! p)))); o ← seq 0 (S position); [mkItem p d o])
    = (list_sum ((fun p => S (length (rhs p))) <$> l) * S position)%nat) as H; [|by apply (H _ 0%nat), drop_0].
  induction l as [|p l IH]; intros k Hk; [done|].
  assert (productions g !! k = Some p) as Hp.
  { replace (Some p) with (drop k (productions g) !! 0%nat) by by rewrite Hk. by rewrite lookup_drop, Nat.add_0_r. }
  cbn [length seq]. rewrite bind_cons, length_app, IH.
  2:{ replace (S k) with (k + 1)%nat by lia. by rewrite <- drop_drop, Hk. }
  rewrite (list_lookup_total_correct _ _ _ Hp). rewrite (length_bind_const _ _ (S position)).
  - rewrite fmap_cons. cbn [length]. rewrite length_seq. cbn [list_sum foldr]. rewrite Nat.mul_add_distr_r. unfold list_sum. lia.
  - intros d _. rewrite (length_bind_const _ _ 1); [simpl; rewrite ?length_seq; lia | done].
Qed.
Lemma size_bound position cur : (forall it, it ∈ cur -> item_in position it) -> (size cur <= item_bound g position)%nat.
Proof.
  intros H. rewrite <- length_all_items. apply submseteq_length, NoDup_submseteq; [apply NoDup_elements|].
  intros it Hit%elem_of_elements. by apply elem_of_all_items, H.
Qed.

(** ** One turn. *)
(** The turn added [new], in order, to the set and to the agenda. *)
Definition extends (st st' : gset Item * list Item) (new : list Item) : Prop :=
  st'.1 = st.1 ∪ list_to_set new /\ st'.2 = st.2 ++ new /\ NoDup new /\ (forall x, x ∈ new -> x ∉ st.1).

Lemma extends_refl st : extends st st [].
Proof. repeat split; [set_solver | by rewrite app_nil_r | constructor | set_solver]. Qed.
Lemma extends_trans st1 st2 st3 n1 n2 : extends st1 st2 n1 -> extends st2 st3 n2 -> extends st1 st3 (n1 ++ n2).
Proof.
  intros (E1 & A1 & D1 & F1) (E2 & A2 & D2 & F2). unfold extends. rewrite E2, E1, A2, A1, app_assoc.
  split; [rewrite list_to_set_app_L; set_solver|]. split; [done|]. split.
  - apply NoDup_app. split; [done|]. split; [|done]. intros x Hx Hx2. apply F2 in Hx2. rewrite E1 in Hx2. set_solver.
  - intros x Hx. apply elem_of_app in Hx as [Hx|Hx]; [by apply F1|]. apply F2 in Hx. rewrite E1 in Hx. set_solver.
Qed.
Lemma insert_item_spec st x : exists new, extends st (insert_item st x) new /\ x ∈ (insert_item st x).1 /\ (forall y, y ∈ new -> y = x).
Proof.
  unfold insert_item. destruct (decide (x ∈ st.1)) as [Hx|Hx].
  - exists []. split; [apply extends_refl|]. split; [done | by intros y ?%elem_of_nil].
  - exists [x]. split; [|split; [set_solver | by intros y ?%list_elem_of_singleton]].
    repeat split; cbn; [set_solver | apply NoDup_singleton | intros y ->%list_elem_of_singleton; done].
Qed.
Lemma fold_insert_spec {A} (f : A -> option Item) (l : list A) st :
  let st' := foldl (fun st a => match f a with Some x => insert_item st x | None => st end) st l in
  exists new, extends st st' new /\ (forall a x, a ∈ l -> f a = Some x -> x ∈ st'.1) /\
    (forall y, y ∈ new -> exists a, a ∈ l /\ f a = Some y).
Proof.
  cbv zeta. revert st. induction l as [|a l IH]; intros st; cbn [foldl].
  - exists []. split; [apply extends_refl|]. split; [by intros a x ?%elem_of_nil | by intros y ?%elem_of_nil].
  - set (st1 := match f a with Some x => insert_item st x | None => st end).
    assert (exists n1, extends st st1 n1 /\ (forall x, f a = Some x -> x ∈ st1.1) /\ (forall y, y ∈ n1 -> f a = Some y)) as (n1 & X1 & M1 & J1).
    { subst st1. destruct (f a) as [x|].
      - destruct (insert_item_spec st x) as (n1 & X1 & M1 & J1). exists n1. split; [done|].
        split; [by intros y [= <-]|]. intros y Hy. by rewrite (J1 y Hy).
      - exists []. split; [apply extends_refl|]. split; [done | by intros y ?%elem_of_nil]. }
    destruct (IH st1) as (n2 & X2 & M2 & J2). exists (n1 ++ n2). split; [by eapply extends_trans|]. split.
    + intros b x [->|Hb]%elem_of_cons Hf; [|by eapply M2]. destruct X2 as (-> & _). apply elem_of_union_l. by apply M1.
    + intros y [Hy|Hy]%elem_of_app.
      * exists a. split; [apply elem_of_cons; by left | by apply J1].
      * destruct (J2 y Hy) as (b & Hb & Hf). exists b. split; [apply elem_of_cons; by right | done].
Qed.

Lemma waits_for_spec rule it : waits_for g rule it = true <-> next_symbol g it = Some (Rule rule).
Proof.
  unfold waits_for. destruct (next_symbol g it) as [[r| |]|]; try done.
  rewrite Nat.eqb_eq. split; [by intros -> | by intros [= ->]].
Qed.
Lemma next_symbol_None it : next_symbol g it = None <-> (length (rhs (prod_of g it)) <= dot it)%nat.
Proof. unfold next_symbol. by rewrite lookup_ge_None. Qed.

(** How a turn on [it] justifies an added item, when the set before it is [cur]. *)
Inductive justified past cur it : Item -> Prop :=
| just_predict rule p : next_symbol g it = Some (Rule rule) -> p ∈ by_lhs g !!! rule ->
    justified past cur it (mkItem p 0 (length past))
| just_null rule c : next_symbol g it = Some (Rule rule) ->
    c ∈ cur \/ (exists p, p ∈ by_lhs g !!! rule /\ c = mkItem p 0 (length past)) ->
    completes_here g (length past) rule c = true -> justified past cur it (advance it)
| just_complete par : next_symbol g it = None -> par ∈ (past ++ [cur]) !!! origin it ->
    next_symbol g par = Some (Rule (lhs (prod_of g it))) -> justified past cur it (advance par).

(** What a turn on [it] leaves in the set. *)
Definition turn_done past cur it (cur' : gset Item) : Prop :=
  (forall rule p, next_symbol g it = Some (Rule rule) -> p ∈ by_lhs g !!! rule -> mkItem p 0 (length past) ∈ cur') /\
  (forall rule c, next_symbol g it = Some (Rule rule) -> c ∈ cur -> completes_here g (length past) rule c = true ->
     advance it ∈ cur') /\
  (forall par, next_symbol g it = None -> par ∈ (past ++ [cur]) !!! origin it ->
     next_symbol g par = Some (Rule (lhs (prod_of g it))) -> advance par ∈ cur').

Lemma close_item_spec past it cur agenda :
  exists new, extends (cur, agenda) (close_item g past it (cur, agenda)) new /\
    turn_done past cur it (close_item g past it (cur, agenda)).1 /\
    (forall x, x ∈ new -> justified past cur it x).
Proof.
  unfold close_item, turn_done. destruct (next_symbol g it) as [[rule|set|term]|] eqn:En.
  - set (f := fun p => Some (mkItem p 0 (length past))).
    destruct (fold_insert_spec f (by_lhs g !!! rule) (cur, agenda)) as (n1 & X1 & M1 & J1). cbv zeta in X1, M1.
    set (st1 := foldl _ _ _) in *. 
    destruct (existsb (completes_here g (length past) rule) (elements st1.1)) eqn:Ex.
    + apply existsb_exists in Ex as (c & Hc%list_elem_of_In%elem_of_elements & Hcomp).
      destruct (insert_item_spec st1 (advance it)) as (n2 & X2 & M2 & J2).
      exists (n1 ++ n2). split; [by eapply extends_trans|].
      assert (st1.1 ⊆ (insert_item st1 (advance it)).1) as Hsub by (destruct X2 as (-> & _); set_solver).
      split; [split; [|split]|].
      * intros r p [= <-] Hp. apply Hsub. by eapply (M1 p).
      * done.
      * done.
      * intros x [Hx|Hx]%elem_of_app.
        2:{ rewrite (J2 x Hx). eapply just_null; [exact En| |exact Hcomp].
            destruct X1 as (E1 & _ & _ & _). rewrite E1 in Hc. apply elem_of_union in Hc as [Hc|Hc]; [by left|].
            apply elem_of_list_to_set in Hc. destruct (J1 c Hc) as (p & Hp & [= <-]). right. by exists p. }
        destruct (J1 x Hx) as (p & Hp & [= <-]). by eapply just_predict.
    + exists n1. split; [done|]. split; [split; [|split]|].
      * intros r p [= <-] Hp. by eapply (M1 p).
      * intros r c [= <-] Hc Hcomp. exfalso. apply not_true_iff_false in Ex. apply Ex, existsb_exists. exists c.
        split; [|done]. apply list_elem_of_In, elem_of_elements. destruct X1 as (-> & _). apply elem_of_union. by left.
      * done.
      * intros x Hx. destruct (J1 x Hx) as (p & Hp & [= <-]). by eapply just_predict.
  - exists []. split; [apply extends_refl|]. split; [done | by intros x ?%elem_of_nil].
  - exists []. split; [apply extends_refl|]. split; [done | by intros x ?%elem_of_nil].
  - set (f := fun par => if waits_for g (lhs (prod_of g it)) par then Some (advance par) else None).
    destruct (fold_insert_spec f (elements ((past ++ [cur]) !!! origin it)) (cur, agenda)) as (n1 & X1 & M1 & J1).
    cbv zeta in X1, M1.
    assert (foldl (fun st a => match f a with Some x => insert_item st x | None => st end) (cur, agenda)
              (elements ((past ++ [cur]) !!! origin it)) =
            foldl (fun st parent => if waits_for g (lhs (prod_of g it)) parent then insert_item st (advance parent) else st)
              (cur, agenda) (elements ((past ++ [cur]) !!! origin it))) as E.
    { generalize (cur, agenda). generalize (elements ((past ++ [cur]) !!! origin it)).
      induction l as [|a l IH]; intros st; [done|]. cbn. rewrite IH. unfold f. by destruct (waits_for _ _ a). }
    rewrite E in X1, M1. cbn [fst] in *. exists n1. split; [done|]. split; [split; [|split]|].
    + done.
    + done.
    + intros par _ Hpar Hn. eapply (M1 par); [by apply elem_of_elements|]. unfold f.
      by rewrite (proj2 (waits_for_spec _ _) Hn).
    + intros x Hx. destruct (J1 x Hx) as (par & Hpar%elem_of_elements & Hf). unfold f in Hf.
      destruct (waits_for g _ par) eqn:Ew; [|done]. injection Hf as <-. apply waits_for_spec in Ew.
      by apply just_complete.
Qed.

(** ** The loop. *)
(** Items already taken from the agenda have been dealt with. *)
Record loop_inv past cur agenda : Prop := {
  li_agenda : forall it, it ∈ agenda -> it ∈ cur;
  li_nodup : NoDup agenda;
  li_predict : forall it rule p, it ∈ cur -> it ∉ agenda -> next_symbol g it = Some (Rule rule) -> p ∈ by_lhs g !!! rule ->
    mkItem p 0 (length past) ∈ cur;
  li_complete : forall it par, it ∈ cur -> it ∉ agenda -> next_symbol g it = None -> (origin it < length past)%nat ->
    par ∈ past !!! origin it -> next_symbol g par = Some (Rule (lhs (prod_of g it))) -> advance par ∈ cur;
  li_null : forall it par, it ∈ cur -> par ∈ cur -> it ∉ agenda -> par ∉ agenda -> next_symbol g it = None ->
    origin it = length past -> next_symbol g par = Some (Rule (lhs (prod_of g it))) -> advance par ∈ cur;
}.

Lemma loop_inv_start past cur : loop_inv past cur (elements cur).
Proof.
  split; try (intros it; intros; exfalso; match goal with H : _ ∉ elements _ |- _ => apply H, elem_of_elements; done end).
  - by intros it ?%elem_of_elements.
  - apply NoDup_elements.
Qed.

Context (Hwf : wf_grammar).

Lemma justified_in past cur it x :
  (forall j S y, past !! j = Some S -> y ∈ S -> item_in j y) -> (forall y, y ∈ cur -> item_in (length past) y) ->
  item_in (length past) it -> justified past cur it x -> item_in (length past) x.
Proof using Hwf.
  intros Hpast Hcur (Hp & Hd & Ho) Hj. destruct Hj as [rule p Hn Hin|rule c Hn Hc Hcomp|par Hn Hpar Hnp].
  - destruct (wf_by_lhs_sound Hwf _ _ Hin) as [? _]. split; [done|]. cbn. lia.
  - unfold next_symbol in Hn. apply lookup_lt_Some in Hn. split; [exact Hp|]. split; [|exact Ho].
    unfold prod_of in *. cbn. lia.
  - assert (item_in (length past) par) as (Hp' & Hd' & Ho').
    { rewrite list_lookup_total_alt in Hpar. destruct (decide (origin it < length past)%nat) as [Hlt|Hge].
      - rewrite lookup_app_l in Hpar by done. destruct (past !! origin it) as [S|] eqn:ES; [|by apply lookup_ge_None in ES; lia].
        destruct (Hpast _ _ _ ES Hpar) as (H1 & H2 & H3). split; [done|]. split; [done|]. lia.
      - rewrite lookup_app_r in Hpar by lia. replace (origin it - length past)%nat with 0%nat in Hpar by lia. by apply Hcur. }
    unfold next_symbol in Hnp. apply lookup_lt_Some in Hnp. split; [exact Hp'|]. split; [|exact Ho'].
    unfold prod_of in *. cbn. lia.
Qed.

Lemma completes_here_spec position rule c :
  item_in position c -> completes_here g position rule c = true <->
  origin c = position /\ lhs (prod_of g c) = rule /\ next_symbol g c = None.
Proof.
  intros (_ & Hd & _). unfold completes_here. rewrite !andb_true_iff, !Nat.eqb_eq, next_symbol_None.
  split; [intros [[-> ->] E]; split; [done|]; split; [done | lia] | intros (-> & -> & E); split; [done | lia]].
Qed.

Lemma own_set past cur : (past ++ [cur]) !!! length past = cur.
Proof. rewrite list_lookup_total_alt, lookup_app_r, Nat.sub_diag by lia. done. Qed.
Lemma past_set past cur o : (o < length past)%nat -> (past ++ [cur]) !!! o = past !!! o.
Proof. intros Ho. rewrite !list_lookup_total_alt. by rewrite lookup_app_l. Qed.

Lemma loop_inv_step past cur it agenda new cur' :
  loop_inv past cur (it :: agenda) -> (forall y, y ∈ cur -> item_in (length past) y) ->
  cur' = cur ∪ list_to_set new -> NoDup new -> (forall x, x ∈ new -> x ∉ cur) -> turn_done past cur it cur' ->
  loop_inv past cur' (agenda ++ new).
Proof.
  intros [Hag Hnd Hpr Hco Hnu] Hin -> Hnn Hfresh (T1 & T2 & T3). apply NoDup_cons in Hnd as [Hnit Hnd].
  assert (it ∈ cur) as Hit by (apply Hag, elem_of_cons; by left).
  (* a processed item is [it] or was processed before *)
  assert (forall x, x ∈ cur ∪ list_to_set new -> x ∉ agenda ++ new -> x ∈ cur /\ (x = it \/ x ∉ it :: agenda)) as Hold.
  { intros x Hx Hn. assert (x ∉ agenda /\ x ∉ new) as [Hn1 Hn2] by (split; intros ?; apply Hn, elem_of_app; auto).
    apply elem_of_union in Hx as [Hx|Hx%elem_of_list_to_set]; [|done]. split; [done|].
    destruct (decide (x = it)) as [->|Hne]; [by left|]. right. by intros [?|?]%elem_of_cons. }
  split.
  - intros x [Hx|Hx]%elem_of_app; [apply elem_of_union_l, Hag, elem_of_cons; by right|].
    apply elem_of_union_r, elem_of_list_to_set, Hx.
  - apply NoDup_app. split; [done|]. split; [|done]. intros x Hx Hx2. apply (Hfresh x Hx2), Hag, elem_of_cons. by right.
  - intros x rule p Hx Hn Hr Hp. destruct (Hold x Hx Hn) as [Hc [->|Ho]]; [by eapply T1|].
    apply elem_of_union_l. by eapply Hpr.
  - intros x par Hx Hn Hr Hlt Hpar Hw. destruct (Hold x Hx Hn) as [Hc [->|Ho]].
    + apply T3; [done | by rewrite past_set | done].
    + apply elem_of_union_l. by eapply (Hco x par).
  - intros x par Hx Hp Hnx Hnp Hr Ho Hw. destruct (Hold x Hx Hnx) as [Hc Hx'], (Hold par Hp Hnp) as [Hcp Hp'].
    destruct Hx' as [->|Hx']; [apply T3; [done | by rewrite Ho, own_set | done]|].
    destruct Hp' as [->|Hp']; [|apply elem_of_union_l; by eapply (Hnu x par)].
    eapply (T2 _ x); [done | done|]. apply completes_here_spec; [by apply Hin | done].
Qed.

(** [close] ends with an empty agenda: everything in the result has been dealt with. *)
Lemma close_loop_spec fuel past cur agenda (P : Item -> Prop) :
  loop_inv past cur agenda -> (forall j S y, past !! j = Some S -> y ∈ S -> item_in j y) ->
  (forall y, y ∈ cur -> item_in (length past) y /\ P y) ->
  (forall cur it x, (forall y, y ∈ cur -> item_in (length past) y /\ P y) -> item_in (length past) it -> P it ->
     justified past cur it x -> P x) ->
  (item_bound g (length past) - size cur + length agenda <= fuel)%nat ->
  let res := close_loop g fuel past cur agenda in
  loop_inv past res [] /\ cur ⊆ res /\ (forall y, y ∈ res -> item_in (length past) y /\ P y).
Proof using Hwf.
  intros Hinv Hpast Hcur HP Hfuel. revert cur agenda Hinv Hcur Hfuel.
  induction fuel as [|fuel IH]; intros cur [|it agenda] Hinv Hcur Hfuel; cbn [close_loop]; try done.
  { simpl in Hfuel. lia. }
  destruct (close_item_spec past it cur agenda) as (new & (E1 & E2 & Hnd & Hfr) & Hdone & Hjust).
  destruct (close_item g past it (cur, agenda)) as [cur' agenda'] eqn:Ec. cbn [fst snd] in *. subst cur' agenda'.
  assert (it ∈ cur) as Hit by (apply (li_agenda _ _ _ Hinv), elem_of_cons; by left).
  destruct (Hcur it Hit) as [Hit1 Hit2].
  assert (forall y, y ∈ cur ∪ list_to_set new -> item_in (length past) y /\ P y) as Hcur'.
  { intros y [Hy|Hy%elem_of_list_to_set%Hjust]%elem_of_union; [by apply Hcur|]. split; [|by eapply HP].
    eapply justified_in; [done| |done|done]. intros z Hz. by apply Hcur. }
  destruct (IH (cur ∪ list_to_set new) (agenda ++ new)) as (R1 & R2 & R3).
  - eapply loop_inv_step; try done. intros y Hy. by apply Hcur.
  - done.
  - assert (size (cur ∪ list_to_set new) = size cur + length new)%nat as Hsz.
    { rewrite size_union; [by rewrite size_list_to_set|]. intros x Hx Hx2%elem_of_list_to_set. by apply (Hfr x). }
    pose proof (size_bound (length past) (cur ∪ list_to_set new) (fun y Hy => proj1 (Hcur' y Hy))) as Hb.
    rewrite Hsz in *. rewrite length_app. simpl in Hfuel. lia.
  - split; [done|]. split; [set_solver | done].
Qed.

(** The least closed set: closed, above [cur], and below every predicate the rules preserve. *)
Lemma close_spec past cur (P : Item -> Prop) :
  (forall j S y, past !! j = Some S -> y ∈ S -> item_in j y) ->
  (forall y, y ∈ cur -> item_in (length past) y /\ P y) ->
  (forall cur it x, (forall y, y ∈ cur -> item_in (length past) y /\ P y) -> item_in (length past) it -> P it ->
     justified past cur it x -> P x) ->
  cur ⊆ close g past cur /\ loop_inv past (close g past cur) [] /\
  (forall y, y ∈ close g past cur -> item_in (length past) y /\ P y).
Proof using Hwf.
  intros Hpast Hcur HP. unfold close.
  destruct (close_loop_spec (item_bound g (length past)) past cur (elements cur) P) as (R1 & R2 & R3); try done.
  - apply loop_inv_start.
  - pose proof (size_bound (length past) cur (fun y Hy => proj1 (Hcur y Hy))) as Hb. unfold size, set_size in *. cbn in *. lia.
Qed.
End Closure.
