(* ===== verification/GrammarParserProofs.v ===== *)
(** * The parser ends, and what it returns is a grammar.

    Every parsing function moves forward inside the source, keeps the numbering of the rules
    dense and leaves only productions over known rules and ascending ranges; the fuel of the
    descent is never used up. *)
From Stdlib Require Import Strings.Byte.
From stdpp Require Import pretty fin_maps.
From S2P Require Import Prelude Utf8 Utf8Scalar Grammar GrammarText GrammarParser GrammarClosure.

(** ** Well-formed parser states. *)
Definition sym_ok (rules : nat) (s : Symbol) : Prop :=
  match s with Rule r => (r < rules)%nat | Character set => wf_charset set | Token _ => True end.
Definition prod_ok (rules : nat) (prod : Production) : Prop := (lhs prod < rules)%nat /\ Forall (sym_ok rules) (rhs prod).

Record parser_ok (p : Parser) : Prop := {
  po_position : (position p <= length (source p))%nat;
  po_names id : (id < size (names p))%nat <-> exists text, names p !! text = Some id;
  po_prods : Forall (prod_ok (size (names p))) (prods p);
}.
(** [p'] is [p] at least [k] bytes on, with perhaps more rules. *)
Record step (k : nat) (p p' : Parser) : Prop := {
  st_source : source p' = source p;
  st_position : (position p + k <= position p')%nat;
  st_rules : (size (names p) <= size (names p'))%nat;
  st_ok : parser_ok p';
}.

(** The outcome of a parsing function: [Q] of what it returns, or an error of the code. *)
Definition wp {A} (r : result ParseError (A * Parser)) (Q : A -> Parser -> Prop) : Prop :=
  match r with Ok (x, p) => Q x p | Err e => e <> OutOfFuel end.
Definition wp_state (r : result ParseError Parser) (Q : Parser -> Prop) : Prop :=
  match r with Ok p => Q p | Err e => e <> OutOfFuel end.

Lemma wp_mono {A} r (Q Q' : A -> Parser -> Prop) : wp r Q -> (forall x p, Q x p -> Q' x p) -> wp r Q'.
Proof. destruct r as [[x p]|e]; cbn; auto. Qed.
Lemma wp_state_mono r (Q Q' : Parser -> Prop) : wp_state r Q -> (forall p, Q p -> Q' p) -> wp_state r Q'.
Proof. destruct r; cbn; auto. Qed.
Lemma wp_bind {A B} m (k : A -> Parser -> result ParseError (B * Parser)) Q :
  wp m (fun x p => wp (k x p) Q) -> wp (let? (x, p) := m in k x p) Q.
Proof. by destruct m as [[x p]|e]. Qed.
Lemma wp_state_bind {B} m (k : Parser -> result ParseError (B * Parser)) Q :
  wp_state m (fun p => wp (k p) Q) -> wp (let? p := m in k p) Q.
Proof. by destruct m. Qed.

Lemma sym_ok_mono n n' s : (n <= n')%nat -> sym_ok n s -> sym_ok n' s.
Proof. destruct s; cbn; [lia | done..]. Qed.
Lemma syms_ok_mono n n' l : (n <= n')%nat -> Forall (sym_ok n) l -> Forall (sym_ok n') l.
Proof. intros Hn H. eapply Forall_impl; [done|]. intros s. by apply sym_ok_mono. Qed.
Lemma prod_ok_mono n n' pr : (n <= n')%nat -> prod_ok n pr -> prod_ok n' pr.
Proof. intros Hn [H1 H2]. split; [lia | by eapply syms_ok_mono]. Qed.
Lemma step_refl p : parser_ok p -> step 0 p p.
Proof. intros Hp. split; [done | lia | lia | done]. Qed.
Lemma step_trans k l m p q r : step k p q -> step l q r -> (m <= k + l)%nat -> step m p r.
Proof. intros [E1 H1 R1 _] [E2 H2 R2 Hr] Hm. split; [congruence | lia | lia | done]. Qed.
Lemma step_trans_0 p q r : step 0 p q -> step 0 q r -> step 0 p r.
Proof. intros H1 H2. by eapply (step_trans 0 0). Qed.
Lemma step_weaken k m p q : step k p q -> (m <= k)%nat -> step m p q.
Proof. intros [E1 H1 R1 H] Hm. split; [done | lia | lia | done]. Qed.

(** ** Reading moves forward. *)
Lemma step_skip k p : parser_ok p -> (position p + k <= length (source p))%nat -> step k p (skip k p).
Proof. intros [H1 H2 H3] Hk. split; [done | done | done|]. split; [done..]. Qed.
Lemma peek_lt p b : peek p = Some b -> (position p < length (source p))%nat.
Proof. apply lookup_lt_Some. Qed.
Lemma step_skip_peek p b : parser_ok p -> peek p = Some b -> step 1 p (skip 1 p).
Proof. intros Hp Hb%peek_lt. apply step_skip; [done | lia]. Qed.
Lemma peek_is_spec b p : peek_is b p = true <-> peek p = Some b.
Proof. apply bool_decide_eq_true. Qed.
Lemma span_le f bs : (span f bs <= length bs)%nat.
Proof. induction bs as [|b bs IH]; cbn; [lia|]. destruct (f b); lia. Qed.
Lemma length_rest p : length (rest p) = (length (source p) - position p)%nat.
Proof. apply length_drop. Qed.
Lemma step_skip_while f p : parser_ok p -> step (span f (rest p)) p (skip_while f p).
Proof.
  intros Hp. apply step_skip; [done|]. pose proof (span_le f (rest p)) as H. rewrite length_rest in H.
  pose proof (po_position _ Hp). lia.
Qed.
Lemma step_skip_while_0 f p : parser_ok p -> step 0 p (skip_while f p).
Proof. intros Hp. eapply step_weaken; [by apply step_skip_while | lia]. Qed.
Lemma step_spanned f p : parser_ok p -> spanned f p <> [] -> step 1 p (skip_while f p).
Proof.
  intros Hp Hs. eapply step_weaken; [by apply step_skip_while|]. unfold spanned in Hs.
  destruct (span f (rest p)); [by rewrite take_0 in Hs | lia].
Qed.
Lemma wp_expect e p : parser_ok p -> wp_state (expect e p) (fun p' => step (length e) p p').
Proof.
  intros Hp. unfold expect. destruct (decide (take (length e) (rest p) = e)) as [E|E];
    [rewrite bool_decide_eq_true_2 by done | by rewrite bool_decide_eq_false_2].
  apply step_skip; [done|]. apply (f_equal length) in E. rewrite length_take, length_rest in E.
  pose proof (po_position _ Hp). lia.
Qed.
Lemma step_skip_horizontal p : parser_ok p -> step 0 p (skip_horizontal p).
Proof. apply step_skip_while_0. Qed.

Lemma wp_name p : parser_ok p -> wp (name p) (fun text p' => step 1 p p').
Proof.
  intros Hp. unfold name. pose proof (step_spanned is_name_byte p Hp) as Hs.
  destruct (spanned is_name_byte p); [done|]. by apply Hs.
Qed.
Lemma wp_number p : parser_ok p -> wp (number p) (fun n p' => step 1 p p' /\ 0 <= n).
Proof.
  intros Hp. unfold number. pose proof (step_spanned is_digit p Hp) as Hs.
  assert (0 <= decimal (spanned is_digit p)) as Hd.
  { unfold decimal, spanned. assert (forall bs v, 0 <= v -> 0 <= foldl (fun v b => v * 10 + (Z_of_byte b - 48)) v (take (span is_digit bs) bs)) as H.
    { induction bs as [|b bs IH]; intros v Hv; cbn; [done|]. destruct (is_digit b) eqn:Eb; cbn; [|done].
      apply in_range_spec in Eb. apply IH. lia. }
    by apply H. }
  destruct (spanned is_digit p) as [|b l] eqn:E; [done|]. unfold parse_uint.
  destruct (_ <? _); cbn; [|done]. by split; [apply Hs|].
Qed.

(** ** Rules. *)
Lemma rule_id_spec text p : parser_ok p ->
  let '(id, p') := rule_id text p in
  step 0 p p' /\ (id < size (names p'))%nat /\ names p' !! text = Some id.
Proof.
  intros Hp. unfold rule_id. destruct (names p !! text) as [id|] eqn:E.
  - split; [by apply step_refl|]. split; [apply (po_names _ Hp); by exists text | done].
  - cbn. rewrite map_size_insert_None, lookup_insert by done. rewrite decide_True by done. split; [|split; [lia | done]].
    split; cbn; rewrite ?map_size_insert_None by done; [done | lia | lia|]. split; cbn; rewrite ?map_size_insert_None by done.
    + apply Hp.
    + intros id. split.
      * intros Hid. destruct (decide (id = size (names p))) as [->|Hne]; [exists text; by rewrite lookup_insert, decide_True|].
        destruct (proj1 (po_names _ Hp id)) as [t Ht]; [lia|]. exists t. rewrite lookup_insert_ne; [done|]. by intros ->; rewrite E in Ht.
      * intros [t Ht]. destruct (decide (text = t)) as [->|Hne]; [rewrite lookup_insert, decide_True in Ht by done; injection Ht as <-; lia|].
        rewrite lookup_insert_ne in Ht by done. assert (id < size (names p))%nat by (apply (po_names _ Hp); by exists t). lia.
    + eapply Forall_impl; [apply Hp|]. intros pr. apply prod_ok_mono. lia.
Qed.
Lemma fresh_rule_spec p : parser_ok p -> let '(id, p') := fresh_rule p in step 0 p p' /\ (id < size (names p'))%nat.
Proof.
  intros Hp. unfold fresh_rule.
  assert (parser_ok (mkParser (source p) (position p) (names p) (prods p) (S (generated p)))) as Hp' by (split; apply Hp).
  pose proof (rule_id_spec (generated_name (generated p)) _ Hp') as Hr. destruct (rule_id _ _) as [id p'].
  destruct Hr as ([H1 H2 H3 H4] & Hid & _). split; [|done]. by split.
Qed.
Lemma step_push pr p : parser_ok p -> prod_ok (size (names p)) pr -> step 0 p (push_production pr p).
Proof.
  intros Hp Hpr. split; cbn; [done | lia | done|]. split; cbn; try apply Hp. apply Forall_app. split; [apply Hp | by constructor].
Qed.
Lemma step_push_alternatives rule alts p : parser_ok p -> (rule < size (names p))%nat -> Forall (Forall (sym_ok (size (names p)))) alts ->
  step 0 p (push_alternatives rule alts p).
Proof.
  intros Hp Hr Ha. revert p Hp Hr Ha. unfold push_alternatives. induction alts as [|a alts IH]; intros p Hp Hr Ha; [by apply step_refl|].
  apply Forall_cons in Ha as [Ha1 Ha]. cbn. assert (step 0 p (push_production (mkProduction rule a) p)) as Hs by (by apply step_push).
  eapply step_trans_0; [exact Hs|]. apply IH; [apply Hs | done | done].
Qed.
Lemma generated_rule_spec alts p : parser_ok p -> Forall (Forall (sym_ok (size (names p)))) alts ->
  let '(id, p') := generated_rule alts p in step 0 p p' /\ (id < size (names p'))%nat.
Proof.
  intros Hp Ha. unfold generated_rule. pose proof (fresh_rule_spec p Hp) as Hf. destruct (fresh_rule p) as [rule p1].
  destruct Hf as [Hs Hr]. assert (step 0 p1 (push_alternatives rule alts p1)) as Hs2.
  { apply step_push_alternatives; [apply Hs | done|]. eapply Forall_impl; [done|]. intros a. apply syms_ok_mono, Hs. }
  split; [eapply step_trans_0; [exact Hs | exact Hs2]|]. pose proof (st_rules _ _ _ Hs2). lia.
Qed.
Lemma syms_ok_snoc n l r : Forall (sym_ok n) l -> (r < n)%nat -> Forall (sym_ok n) (l ++ [Rule r]).
Proof. intros Hl Hr. apply Forall_app. split; [done|]. by constructor. Qed.
Lemma optional_tail_spec body optional : forall tail p, parser_ok p -> (tail < size (names p))%nat ->
  Forall (sym_ok (size (names p))) body -> step 0 p (optional_tail body tail optional p).
Proof.
  induction optional as [|rest IH]; intros tail p Hp Ht Hb; cbn [optional_tail]; [by apply step_refl|].
  assert (step 0 p (push_production (mkProduction tail []) p)) as H1 by (by apply step_push).
  set (p1 := push_production (mkProduction tail []) p) in *. destruct rest as [|rest].
  - eapply step_trans_0; [exact H1|]. apply step_push; [apply H1 | done].
  - pose proof (fresh_rule_spec p1 (st_ok _ _ _ H1)) as Hf. destruct (fresh_rule p1) as [next p2]. destruct Hf as [H2 Hn].
    pose proof (st_rules _ _ _ H2) as Hsz. change (names p1) with (names p) in Hsz.
    assert (Forall (sym_ok (size (names p2))) body) as Hb2 by (by eapply syms_ok_mono).
    assert (step 0 p2 (push_production (mkProduction tail (body ++ [Rule next])) p2)) as H3.
    { apply step_push; [apply H2|]. split; [cbn; lia | by apply syms_ok_snoc]. }
    eapply step_trans_0; [exact H1|]. eapply step_trans_0; [exact H2|]. eapply step_trans_0; [exact H3|].
    apply IH; [apply H3 | done | done].
Qed.
Lemma repeat_symbols_ok n body k : Forall (sym_ok n) body -> Forall (sym_ok n) (repeat_symbols body k).
Proof. intros Hb. unfold repeat_symbols. induction k as [|k IH]; cbn; [constructor|]. apply Forall_app. by split. Qed.

Lemma wp_repeat_rule body minimum maximum p : parser_ok p -> Forall (sym_ok (size (names p))) body ->
  wp (repeat_rule body minimum maximum p) (fun rule p' => step 0 p p' /\ (rule < size (names p'))%nat).
Proof.
  intros Hp Hb. unfold repeat_rule. destruct (_ || _); [done|].
  pose proof (fresh_rule_spec p Hp) as Hf. destruct (fresh_rule p) as [rule p1]. destruct Hf as [H1 Hr].
  assert (forall q, step 0 p1 q -> (rule < size (names q))%nat /\ Forall (sym_ok (size (names q))) (repeat_symbols body (Z.to_nat minimum))
    /\ Forall (sym_ok (size (names q))) body) as Hlater.
  { intros q Hq. pose proof (st_rules _ _ _ Hq). pose proof (st_rules _ _ _ H1).
    split; [lia|]. assert (Forall (sym_ok (size (names q))) body) by (eapply syms_ok_mono; [|exact Hb]; lia).
    split; [by apply repeat_symbols_ok | done]. }
  assert (forall q required, step 0 p1 q -> Forall (sym_ok (size (names q))) required ->
    step 0 p (push_production (mkProduction rule required) q) /\ (rule < size (names q))%nat) as Hlast.
  { intros q required Hq Hreq. destruct (Hlater q Hq) as (Hrq & _). split; [|done].
    eapply step_trans_0; [exact H1|]. eapply step_trans_0; [exact Hq|]. apply step_push; [apply Hq | done]. }
  destruct maximum as [maximum|]; [destruct (0 <? _)%nat|].
  - pose proof (fresh_rule_spec p1 (st_ok _ _ _ H1)) as Hf. destruct (fresh_rule p1) as [tail p2]. destruct Hf as [H2 Ht].
    destruct (Hlater p2 H2) as (_ & Hreq & Hb2).
    pose proof (optional_tail_spec body (Z.to_nat (maximum - minimum)) tail p2 (st_ok _ _ _ H2) Ht Hb2) as H3.
    cbn. apply Hlast; [by eapply step_trans_0; [exact H2 | exact H3]|]. eapply syms_ok_mono; [apply H3|]. by apply syms_ok_snoc.
  - cbn. apply Hlast; [apply step_refl, H1|]. by apply Hlater, step_refl, H1.
  - pose proof (fresh_rule_spec p1 (st_ok _ _ _ H1)) as Hf. destruct (fresh_rule p1) as [tail p2]. destruct Hf as [H2 Ht].
    destruct (Hlater p2 H2) as (_ & Hreq & Hb2).
    assert (step 0 p2 (push_production (mkProduction tail []) p2)) as H3 by (by apply step_push; [apply H2|]).
    set (p3 := push_production (mkProduction tail []) p2) in *.
    assert (step 0 p3 (push_production (mkProduction tail (body ++ [Rule tail])) p3)) as H4.
    { apply step_push; [apply H3|]. split; [done | by apply syms_ok_snoc]. }
    apply (Hlast (push_production (mkProduction tail (body ++ [Rule tail])) p3)); [|by apply syms_ok_snoc]. eapply step_trans_0; [exact H2|]. by eapply step_trans_0; [exact H3 | exact H4].
Qed.

(** ** Terminals. *)
Lemma wp_token_terminal p : parser_ok p -> wp (token_terminal p) (fun _ p' => step 1 p p').
Proof.
  intros Hp. unfold token_terminal.
  assert (let '(_, p0) := if peek_is "!" p then (true, skip 1 p) else (false, p) in step 0 p p0) as H0.
  { destruct (peek_is "!" p) eqn:E; [|by apply step_refl]. apply peek_is_spec in E.
    eapply step_weaken; [by eapply step_skip_peek | lia]. }
  destruct (if peek_is "!" p then _ else _) as [inverted p0]. apply wp_state_bind.
  eapply wp_state_mono; [apply wp_expect, H0|]. intros p1 H1. cbn [length] in H1.
  assert (step 1 p p1) as H01 by by eapply (step_trans 0 1). apply wp_bind.
  eapply wp_mono; [|intros v p2 H2; cbn; eapply (step_trans 1 0); [exact H01 | exact H2 | lia]].
  destruct (peek_is "[" p1) eqn:Eb.
  - apply peek_is_spec in Eb. pose proof (step_skip_peek p1 _ (st_ok _ _ _ H1) Eb) as H2.
    pose proof (step_spanned is_digit _ (st_ok _ _ _ H2)) as H3. destruct (spanned is_digit (skip 1 p1)); [done|].
    destruct (parse_uint 32 _); [|done]. cbn [ok_or]. specialize (H3 ltac:(done)). apply wp_state_bind.
    eapply wp_state_mono; [apply wp_expect, H3|]. intros p4 H4. cbn.
    eapply step_trans; [exact H2| |apply Nat.le_0_l]. by eapply step_trans; [exact H3 | exact H4 | apply Nat.le_0_l].
  - set (in_name := fun b => _). pose proof (step_skip_while_0 in_name p1 (st_ok _ _ _ H1)) as H2.
    destruct (match peek _ with Some b => _ | None => _ end); [done|]. destruct (_ =? _)%nat; [done|].
    apply wp_state_bind. eapply wp_state_mono; [apply wp_expect, H2|]. intros p4 H4. cbn.
    by eapply step_trans; [exact H2 | exact H4 | apply Nat.le_0_l].
Qed.
Lemma wp_hex digits p : parser_ok p -> wp (hex digits p) (fun v p' => step 0 p p' /\ is_scalar v = true).
Proof.
  intros Hp. unfold hex. destruct (Nat.ltb_spec (length (source p)) (position p + digits)); [done|].
  destruct (from_str_radix_16 _) as [v|]; [|done]. cbn. destruct (is_scalar v) eqn:E; [|done].
  split; [|done]. eapply step_weaken; [by apply step_skip | lia].
Qed.
Lemma escaped_scalar b :
  is_byte x22 b || is_byte x5c b || is_byte "[" b || is_byte "]" b || is_byte "-" b = true -> is_scalar (Z_of_byte b) = true.
Proof.
  unfold is_byte. rewrite !orb_true_iff, !bool_decide_eq_true. by intros [[[[-> | ->] | ->] | ->] | ->].
Qed.
(** The first character of a valid text. *)
Lemma chars_head bs c cs : utf8_valid bs = true -> chars bs = c :: cs ->
  exists b r n, bs = b :: r /\ classify b r = HChar n /\ c = take n bs /\ (1 <= n <= length bs)%nat.
Proof.
  destruct bs as [|b r]; [done|]. unfold utf8_valid, chars. rewrite utf8_chunks_cons. pose proof (classify_width b r) as Hw.
  destruct (classify b r) as [n|n|] eqn:E; try done. cbn [fmap list_fmap chunk_bytes]. intros _ [= <- _]. by exists b, r, n.
Qed.
Lemma wp_codepoint p : parser_ok p -> wp (codepoint p) (fun v p' => step 1 p p' /\ is_scalar v = true).
Proof.
  intros Hp. unfold codepoint. destruct (peek_is x5c p) eqn:E.
  - apply peek_is_spec in E. pose proof (step_skip_peek p _ Hp E) as H1. destruct (peek (skip 1 p)) as [b|] eqn:E2; [|done]. cbn [ok_or].
    pose proof (step_skip_peek _ _ (st_ok _ _ _ H1) E2) as H2. set (p2 := skip 1 (skip 1 p)) in *.
    assert (step 1 p p2) as H12 by (eapply step_trans; [exact H1 | exact H2 | lia]).
    assert (forall n, wp (hex n p2) (fun v p' => step 1 p p' /\ is_scalar v = true)) as Hhex.
    { intros n. eapply wp_mono; [apply wp_hex, H12|]. intros v p' [H3 Hv]. split; [by eapply (step_trans 1 0); [exact H12 | exact H3|] | done]. }
    repeat (case_match; [first [exact (Hhex _) | split; [exact H12 | try done; by apply escaped_scalar]]|]). done.
  - destruct (utf8_valid (rest p)) eqn:Ev; [|done]. destruct (chars (rest p)) as [|c cs] eqn:Ec; [done|].
    destruct (chars_head _ _ _ Ev Ec) as (b & r & n & Er & Hcl & -> & Hn). rewrite length_take_le by lia. cbn. split.
    + eapply step_weaken; [apply step_skip; [done|]|lia]. rewrite length_rest in Hn. lia.
    + rewrite Er. by apply encode_code_point.
Qed.

(** Loops that consume at least a byte per turn. *)
Definition left_over (p : Parser) : nat := (length (source p) - position p)%nat.
Lemma left_over_step k p p' : step k p p' -> (left_over p' + k <= left_over p)%nat.
Proof. intros [E H _ Hok]. unfold left_over. rewrite E. pose proof (po_position _ Hok) as Hp. rewrite E in Hp. lia. Qed.

Lemma wp_literal_loop fuel : forall output p, parser_ok p -> (left_over p < fuel)%nat -> Forall (sym_ok 0) output ->
  wp (literal_loop fuel output p) (fun syms p' => step 0 p p' /\ Forall (sym_ok 0) syms).
Proof.
  induction fuel as [|fuel IH]; intros output p Hp Hf Ho; [lia|]. cbn [literal_loop]. destruct (peek_is x22 p) eqn:E.
  - apply peek_is_spec in E. split; [|done]. eapply step_weaken; [by eapply step_skip_peek | lia].
  - destruct (match peek p with Some b => is_newline b | None => true end); [done|]. apply wp_bind.
    eapply wp_mono; [by apply wp_codepoint|]. intros c p1 [H1 Hc]. pose proof (left_over_step _ _ _ H1).
    eapply wp_mono; [apply IH; [apply H1 | lia|]|].
    + apply Forall_app. split; [done|]. constructor; [|constructor]. constructor; [cbn; lia | constructor].
    + intros syms p2 [H2 Hs]. split; [|done]. eapply step_trans; [exact H1 | exact H2 | lia].
Qed.
Lemma wp_literal p : parser_ok p -> peek p <> None -> wp (literal p) (fun syms p' => step 1 p p' /\ Forall (sym_ok 0) syms).
Proof.
  intros Hp Hk. destruct (peek p) as [b|] eqn:E; [|done]. pose proof (step_skip_peek _ _ Hp E) as H1. unfold literal.
  eapply wp_mono; [apply wp_literal_loop; [apply H1 | unfold left_over; cbn; lia | constructor]|].
  intros syms p' [H2 Hs]. split; [by eapply (step_trans 1 0); [exact H1 | exact H2|] | done].
Qed.

Lemma wp_class_loop fuel : forall rs p, parser_ok p -> (left_over p < fuel)%nat -> Forall (fun r => r.1 <= r.2) rs ->
  wp (class_loop fuel rs p) (fun rs' p' => step 0 p p' /\ Forall (fun r => r.1 <= r.2) rs').
Proof.
  induction fuel as [|fuel IH]; intros rs p Hp Hf Ho; [lia|]. cbn [class_loop]. destruct (peek_is "]" p) eqn:E.
  - apply peek_is_spec in E. split; [|done]. eapply step_weaken; [by eapply step_skip_peek | lia].
  - destruct (bool_decide (peek p = None)); [done|]. apply wp_bind.
    eapply wp_mono; [by apply wp_codepoint|]. intros lower p1 [H1 _]. apply wp_bind.
    assert (wp (if peek_is "-" p1 && negb (bool_decide (source p1 !! S (position p1) = Some "]"%byte))
      then codepoint (skip 1 p1) else Ok (lower, p1)) (fun _ p2 => step 0 p1 p2)) as Hupper.
    { destruct (peek_is "-" p1) eqn:Ed; [|by apply step_refl, H1]. destruct (negb _); [|by apply step_refl, H1].
      apply peek_is_spec in Ed. pose proof (step_skip_peek _ _ (st_ok _ _ _ H1) Ed) as H2.
      eapply wp_mono; [apply wp_codepoint, H2|]. intros v p3 [H3 _]. eapply step_trans; [exact H2 | exact H3 | lia]. }
    eapply wp_mono; [exact Hupper|]. intros upper p2 H2. cbn beta. destruct (Z.ltb_spec upper lower); [done|].
    assert (step 1 p p2) as H12 by (by eapply (step_trans 1 0); [exact H1 | exact H2|]). pose proof (left_over_step _ _ _ H12).
    eapply wp_mono; [apply IH; [apply H12 | lia|]|].
    + apply Forall_app. split; [done|]. by repeat constructor.
    + intros rs' p3 [H3 Hs]. split; [|done]. eapply step_trans; [exact H12 | exact H3 | lia].
Qed.
Lemma wp_character_class p : parser_ok p -> peek p <> None -> wp (character_class p) (fun set p' => step 1 p p' /\ wf_charset set).
Proof.
  intros Hp Hk. destruct (peek p) as [b|] eqn:E; [|done]. pose proof (step_skip_peek _ _ Hp E) as H1. unfold character_class.
  assert (let '(_, p0) := if peek_is "^" (skip 1 p) then (true, skip 1 (skip 1 p)) else (false, skip 1 p) in step 1 p p0) as H0.
  { destruct (peek_is "^" (skip 1 p)) eqn:Ec; [|done]. apply peek_is_spec in Ec.
    eapply step_trans; [exact H1 | eapply step_skip_peek; [apply H1 | done] | lia]. }
  destruct (if peek_is "^" _ then _ else _) as [inverted p0]. apply wp_bind.
  eapply wp_mono; [apply wp_class_loop; [apply H0 | unfold left_over; lia | constructor]|].
  intros rs p' [H2 Hs]. cbn. split; [by eapply (step_trans 1 0); [exact H0 | exact H2|] | done].
Qed.

(** ** Repetitions. *)
Lemma expect_one b p p' : expect [b] p = Ok p' -> source p' !! position p = Some b /\ position p' = S (position p) /\ source p' = source p.
Proof.
  unfold expect. case_bool_decide as E; [|done]. intros [= <-]. cbn. split; [|split; [lia | done]].
  destruct (rest p) as [|x r] eqn:Er; [done|]. cbn in E. injection E as ->.
  rewrite <- (Nat.add_0_r (position p)), <- lookup_drop. unfold rest in Er. by rewrite Er.
Qed.
Lemma wp_repetition_range p : parser_ok p -> peek p <> None -> wp (repetition_range p) (fun _ p' => step 1 p p' /\
  exists n, position p' = S n /\ source p' !! n = Some "}"%byte).
Proof.
  intros Hp Hk. destruct (peek p) as [b|] eqn:E; [|done]. pose proof (step_skip_peek _ _ Hp E) as H1. unfold repetition_range.
  apply wp_bind. eapply wp_mono; [apply wp_number, H1|]. intros minimum p2 [H2 _]. apply wp_bind.
  assert (wp (if peek_is "}" p2 then Ok (Some minimum, p2)
    else if peek_is "," p2 then
      let p2 := skip 1 p2 in
      if peek_is "}" p2 then Ok (None, p2) else let? (maximum, p2) := number p2 in Ok (Some maximum, p2)
    else Err RepetitionSyntax) (fun _ p3 => step 0 p2 p3)) as H3.
  { destruct (peek_is "}" p2); [by apply step_refl, H2|]. destruct (peek_is "," p2) eqn:Ec; [|done]. apply peek_is_spec in Ec.
    pose proof (step_skip_peek _ _ (st_ok _ _ _ H2) Ec) as H3. cbv zeta.
    destruct (peek_is "}" (skip 1 p2)); [eapply step_weaken; [exact H3 | lia]|].
    apply wp_bind. eapply wp_mono; [apply wp_number, H3|]. intros maximum p4 [H4 _]. cbn. eapply step_trans; [exact H3 | exact H4 | lia]. }
  eapply wp_mono; [exact H3|]. intros maximum p3 H3'. cbn beta.
  pose proof (wp_expect ["}"%byte] p3 (st_ok _ _ _ H3')) as H4. destruct (expect ["}"%byte] p3) as [p4|] eqn:Ee; cbn in H4 |- *; [|done].
  apply expect_one in Ee as (Eb & Ep & Es). split; [|exists (position p3); by rewrite Ep].
  eapply (step_trans 1 2); [exact H1| |lia]. eapply (step_trans 1 1); [exact H2| |lia]. eapply (step_trans 0 1); [exact H3' | exact H4 | lia].
Qed.
Lemma wp_repetition p : parser_ok p -> wp (repetition p) (fun _ p' => step 0 p p').
Proof.
  intros Hp. unfold repetition. pose proof (step_skip_horizontal p Hp) as H1. set (p1 := skip_horizontal p) in *.
  set (finish := fun (rep : option (Z * option Z)) (q : Parser) =>
    let before := match position q with O => None | S n => source q !! n end in
    if bool_decide (rep <> None) && negb (bool_decide (before = Some "}"%byte)) then Ok (E := ParseError) (rep, skip 1 q) else Ok (rep, q)).
  assert (forall rep q, step 0 p q -> (rep <> None -> peek q <> None \/ exists n, position q = S n /\ source q !! n = Some "}"%byte) ->
    wp (finish rep q) (fun _ p' => step 0 p p')) as Hfin.
  { intros rep q Hq Hpeek. unfold finish. cbv zeta. case_bool_decide as Hr; [|done]. cbn [andb].
    destruct (Hpeek Hr) as [Hk|(n & En & Eb)].
    - destruct (bool_decide _); [done|]. cbn. destruct (peek q) as [b|] eqn:Eb; [|done].
      eapply step_trans; [exact Hq | eapply step_skip_peek; [apply Hq | done] | lia].
    - rewrite En, Eb, bool_decide_eq_true_2 by done. done. }
  apply (wp_bind _ finish).
  assert (forall b, peek_is b p1 = true -> peek p1 <> None) as Hk by (intros b Hb%peek_is_spec; by rewrite Hb).
  destruct (peek_is "?" p1) eqn:E1; [apply Hfin; eauto|]. destruct (peek_is "*" p1) eqn:E2; [apply Hfin; eauto|].
  destruct (peek_is "+" p1) eqn:E3; [apply Hfin; eauto|]. destruct (peek_is "{" p1) eqn:E4; [|apply Hfin; eauto].
  apply wp_bind. eapply wp_mono; [apply wp_repetition_range; [apply H1 | eauto]|]. intros rep q [Hq Hb]. cbn beta. apply Hfin; [|by right].
  eapply step_trans; [exact H1 | exact Hq | lia].
Qed.
Lemma wp_repeated body p : parser_ok p -> Forall (sym_ok (size (names p))) body ->
  wp (repeated body p) (fun syms p' => step 0 p p' /\ Forall (sym_ok (size (names p'))) syms).
Proof.
  intros Hp Hb. unfold repeated. apply wp_bind. eapply wp_mono; [by apply wp_repetition|]. intros rep p1 H1. cbn beta.
  assert (Forall (sym_ok (size (names p1))) body) as Hb1 by (eapply syms_ok_mono; [apply H1 | done]).
  destruct rep as [[minimum maximum]|]; [|done]. apply wp_bind.
  eapply wp_mono; [apply wp_repeat_rule; [apply H1 | done]|]. intros rule p2 [H2 Hr]. cbn. split; [by eapply step_trans_0|].
  by constructor.
Qed.

(** ** The descent. *)
Definition alternatives_ok (p : Parser) (alts : list (list Symbol)) : Prop := Forall (Forall (sym_ok (size (names p)))) alts.
Lemma alternatives_ok_step k p p' alts : step k p p' -> alternatives_ok p alts -> alternatives_ok p' alts.
Proof. intros H Ha. eapply Forall_impl; [exact Ha|]. intros l. apply syms_ok_mono, H. Qed.
Lemma syms_ok_step k p p' l : step k p p' -> Forall (sym_ok (size (names p))) l -> Forall (sym_ok (size (names p'))) l.
Proof. intros H. apply syms_ok_mono, H. Qed.

Lemma wp_descent fuel :
  (forall closing alts p, parser_ok p -> (3 * left_over p + 3 <= fuel)%nat -> alternatives_ok p alts ->
     wp (expression fuel closing alts p) (fun alts' p' => step 0 p p' /\ alternatives_ok p' alts')) /\
  (forall closing syms p, parser_ok p -> (3 * left_over p + 2 <= fuel)%nat -> Forall (sym_ok (size (names p))) syms ->
     wp (sequence fuel closing syms p) (fun syms' p' => step 0 p p' /\ Forall (sym_ok (size (names p'))) syms')) /\
  (forall p, parser_ok p -> (3 * left_over p + 1 <= fuel)%nat ->
     wp (atom fuel p) (fun syms p' => step 1 p p' /\ Forall (sym_ok (size (names p'))) syms)).
Proof.
  induction fuel as [|fuel (IHe & IHs & IHa)]; [split; [|split]; intros; lia|]. split; [|split].
  - intros closing alts p Hp Hf Ha. cbn [expression]. apply wp_bind.
    eapply wp_mono; [apply IHs; [done | lia | constructor]|]. intros rhs p1 [H1 Hr]. cbn beta.
    pose proof (step_skip_horizontal p1 (st_ok _ _ _ H1)) as H2. cbv zeta. set (p2 := skip_horizontal p1) in *.
    assert (step 0 p p2) as H12 by by eapply step_trans_0.
    assert (alternatives_ok p2 (alts ++ [rhs])) as Hal.
    { apply Forall_app. split; [exact (alternatives_ok_step _ _ _ _ H12 Ha)|]. constructor; [exact (syms_ok_step _ _ _ _ H2 Hr) | constructor]. }
    destruct (peek_is "|" p2) eqn:E; [|done]. apply peek_is_spec in E. pose proof (step_skip_peek _ _ (st_ok _ _ _ H2) E) as H3.
    pose proof (left_over_step _ _ _ H3). pose proof (left_over_step _ _ _ H12).
    eapply wp_mono; [apply IHe; [apply H3 | lia | exact (alternatives_ok_step _ _ _ _ H3 Hal)]|]. intros alts' p4 [H4 Ha4]. split; [|done].
    eapply step_trans_0; [exact H12|]. eapply step_trans; [exact H3 | exact H4 | lia].
  - intros closing syms p Hp Hf Hs. cbn [sequence]. cbv zeta. pose proof (step_skip_horizontal p Hp) as H1.
    set (p1 := skip_horizontal p) in *. assert (Forall (sym_ok (size (names p1))) syms) as Hs1 by exact (syms_ok_step _ _ _ _ H1 Hs).
    pose proof (left_over_step _ _ _ H1). destruct (peek p1) as [b|]; [|done]. destruct (_ || _); [done|]. apply wp_bind.
    eapply wp_mono; [apply IHa; [apply H1 | lia]|]. intros body p2 [H2 Hb]. cbn beta. pose proof (left_over_step _ _ _ H2).
    eapply wp_mono; [apply IHs; [apply H2 | lia|]|].
    + apply Forall_app. split; [exact (syms_ok_step _ _ _ _ H2 Hs1) | done].
    + intros syms' p3 [H3 Hs3]. split; [|done]. eapply step_trans_0; [exact H1|]. eapply step_trans; [exact H2 | exact H3 | lia].
  - intros p Hp Hf. cbn [atom]. apply wp_bind.
    eapply (wp_mono _ (fun body p1 => step 1 p p1 /\ Forall (sym_ok (size (names p1))) body)).
    2:{ intros body p1 [H1 Hb]. eapply wp_mono; [apply wp_repeated; [apply H1 | done]|]. intros syms p2 [H2 Hs].
        split; [by eapply (step_trans 1 0); [exact H1 | exact H2|] | done]. }
    assert (peek p <> None -> wp (literal p) (fun syms p' => step 1 p p' /\ Forall (sym_ok 0) syms)) as Hlit by by apply wp_literal.
    assert (peek p <> None -> wp (character_class p) (fun set p' => step 1 p p' /\ wf_charset set)) as Hcls by by apply wp_character_class.
    destruct (peek p) as [b|] eqn:Ek; [|done]. pose proof (step_skip_peek _ _ Hp Ek) as H1.
    destruct (is_byte x22 b).
    { eapply wp_mono; [by apply Hlit|]. intros syms p1 [H2 Hs]. split; [done|]. eapply syms_ok_mono; [apply Nat.le_0_l | done]. }
    destruct (is_byte "[" b).
    { apply wp_bind. eapply wp_mono; [by apply Hcls|]. intros set p1 [H2 Hs]. by split; [|apply Forall_singleton]. }
    destruct (is_byte "." b); [split; [done|]; by apply Forall_singleton; constructor|].
    destruct (is_byte "(" b).
    { apply wp_bind. pose proof (left_over_step _ _ _ H1). eapply wp_mono; [apply IHe; [apply H1 | lia | constructor]|].
      intros alts p2 [H2 Ha]. apply wp_state_bind. eapply wp_state_mono; [apply wp_expect, H2|]. intros p3 H3.
      pose proof (generated_rule_spec alts p3 (st_ok _ _ _ H3) (alternatives_ok_step _ _ _ _ H3 Ha)) as Hg.
      destruct (generated_rule alts p3) as [rule p4]. destruct Hg as [H4 Hr]. split; [|by apply Forall_singleton].
      eapply (step_trans 1 0); [exact H1| |lia]. eapply step_trans_0; [exact H2|]. eapply step_trans; [exact H3 | exact H4 | lia]. }
    destruct (_ || _); apply wp_bind.
    { eapply wp_mono; [by apply wp_token_terminal|]. intros term p1 H2. by split; [|apply Forall_singleton]. }
    eapply wp_mono; [by apply wp_name|]. intros text p1 H2. pose proof (rule_id_spec text p1 (st_ok _ _ _ H2)) as Hr.
    destruct (rule_id text p1) as [rule p2]. destruct Hr as (H3 & Hr & _). split; [|by apply Forall_singleton].
    eapply (step_trans 1 0); [exact H2 | exact H3 | lia].
Qed.

(** ** Whole grammars. *)
Lemma step_skip_layout newlines p : parser_ok p -> step 0 p (skip_layout newlines p).2.
Proof.
  intros Hp. unfold skip_layout. cbn [snd]. generalize (S (length (source p))). intros fuel. revert p Hp.
  induction fuel as [|fuel IH]; intros p Hp; cbn [skip_layout_loop]; [by apply step_refl|].
  set (f := fun b => _ || _). pose proof (step_skip_while_0 f p Hp) as H1. cbv zeta. destruct (peek_is "#" _); [|done].
  set (f2 := fun b => negb _). pose proof (step_skip_while_0 f2 _ (st_ok _ _ _ H1)) as H2.
  eapply step_trans_0; [exact H1|]. eapply step_trans_0; [exact H2|]. apply IH, H2.
Qed.
Lemma wp_consume_rule_end p : parser_ok p -> wp_state (consume_rule_end p) (fun p' => step 0 p p').
Proof.
  intros Hp. unfold consume_rule_end. pose proof (step_skip_horizontal p Hp) as H1. set (p1 := skip_horizontal p) in *. cbv zeta.
  set (p2 := if peek_is "#" p1 then skip_while (fun b => negb (is_byte x0a b)) p1 else p1).
  assert (step 0 p p2) as H2.
  { unfold p2. destruct (peek_is "#" p1); [|done]. eapply step_trans_0; [exact H1 | apply step_skip_while_0, H1]. }
  by destruct (_ && _).
Qed.
Lemma wp_rules fuel : forall p, parser_ok p -> (left_over p < fuel)%nat -> wp_state (rules fuel p) parser_ok.
Proof.
  induction fuel as [|fuel IH]; intros p Hp Hf; [lia|]. cbn [rules].
  pose proof (step_skip_layout true p Hp) as H1. destruct (skip_layout true p) as [more p1]. cbn [snd] in H1.
  destruct more; [|apply H1]. cbn [negb]. pose proof (left_over_step _ _ _ H1) as LH1.
  pose proof (wp_name p1 (st_ok _ _ _ H1)) as Hn. destruct (name p1) as [[text p2]|]; [|done]. cbn in Hn.
  pose proof (left_over_step _ _ _ Hn) as LHn. pose proof (rule_id_spec text p2 (st_ok _ _ _ Hn)) as Hr.
  destruct (rule_id text p2) as [rule p3]. destruct Hr as (H3 & Hr & _). pose proof (left_over_step _ _ _ H3) as LH3.
  pose proof (step_skip_horizontal p3 (st_ok _ _ _ H3)) as H4. cbv zeta. set (p4 := skip_horizontal p3) in *. pose proof (left_over_step _ _ _ H4) as LH4.
  pose proof (wp_expect [":"; ":"; "="]%byte p4 (st_ok _ _ _ H4)) as H5. destruct (expect _ p4) as [p5|]; [|done]. cbn in H5.
  pose proof (left_over_step _ _ _ H5) as LH5.
  destruct (wp_descent (fuel_for p5)) as (He & _ & _). specialize (He None [] p5 (st_ok _ _ _ H5)).
  destruct (expression (fuel_for p5) None [] p5) as [[alts p6]|e].
  2:{ apply He; [unfold fuel_for, left_over; lia | constructor]. }
  destruct He as [H6 Ha]; [unfold fuel_for, left_over; lia | constructor|]. pose proof (left_over_step _ _ _ H6) as LH6.
  assert (step 0 p6 (push_alternatives rule alts p6)) as H7.
  { apply step_push_alternatives; [apply H6| |done]. pose proof (st_rules _ _ _ H6). pose proof (st_rules _ _ _ H5). pose proof (st_rules _ _ _ H4). lia. }
  pose proof (left_over_step _ _ _ H7) as LH7. pose proof (wp_consume_rule_end _ (st_ok _ _ _ H7)) as H8.
  destruct (consume_rule_end _) as [p8|]; [|done]. cbn in H8. pose proof (left_over_step _ _ _ H8) as LH8.
  apply IH; [apply H8 | lia].
Qed.

Lemma lookup_total_alter_snoc (acc : list (list nat)) k r i : (k < length acc)%nat ->
  alter (fun l => l ++ [i]) k acc !!! r = if decide (k = r) then (acc !!! r) ++ [i] else acc !!! r.
Proof.
  intros Hk. rewrite !list_lookup_total_alt. case_decide as E.
  - subst r. rewrite list_lookup_alter, decide_True by done. destruct (acc !! k) eqn:E; [done|]. apply lookup_ge_None in E. lia.
  - by rewrite list_lookup_alter_ne.
Qed.
Lemma elem_of_index_loop l : forall (acc : list (list nat)) i r, Forall (fun ip => (lhs ip.2 < length acc)%nat) l ->
  i ∈ foldl (fun by_lhs '(index, production) => alter (fun indices => indices ++ [index]) (lhs production) by_lhs) acc l !!! r <->
  i ∈ acc !!! r \/ exists pr, (i, pr) ∈ l /\ lhs pr = r.
Proof.
  induction l as [|[j pr] l IH]; intros acc i r Hl; cbn [foldl]; [split; [by left | by intros [?|(? & ?%elem_of_nil & _)]]|].
  apply Forall_cons in Hl as [H1 Hl]. cbn in H1. rewrite IH by by rewrite length_alter.
  rewrite lookup_total_alter_snoc by done. setoid_rewrite elem_of_cons. case_decide as E.
  - rewrite elem_of_app, list_elem_of_singleton. split.
    + intros [[?|Hij]|(pr' & ? & ?)]; [by left| |right; by exists pr'; split; [right|]]. subst i. right. exists pr. by split; [left|].
    + intros [?|(pr' & [[= -> ->]|?] & ?)]; [by left; left | by left; right | right; by exists pr'].
  - split.
    + intros [?|(pr' & ? & ?)]; [by left|right; by exists pr'; split; [right|]].
    + intros [?|(pr' & [[= -> ->]|?] & ?)]; [by left | done | right; by exists pr'].
Qed.
Lemma elem_of_index_productions n ps i r : Forall (fun pr => (lhs pr < n)%nat) ps ->
  i ∈ index_productions n ps !!! r <-> exists pr, ps !! i = Some pr /\ lhs pr = r.
Proof.
  intros Hps. unfold index_productions. rewrite elem_of_index_loop.
  - rewrite list_lookup_total_alt. split.
    + intros [Hi|(pr & Hin & <-)].
      * exfalso. destruct (replicate n [] !! r) as [x|] eqn:E; [|by apply elem_of_nil in Hi].
        apply lookup_replicate in E as [-> _]. by apply elem_of_nil in Hi.
      * exists pr. split; [|done]. apply list_elem_of_lookup in Hin as [k Hk]. rewrite list_lookup_imap in Hk.
        apply fmap_Some in Hk as (x & Hx & [= -> ->]). done.
    + intros (pr & Hi & <-). right. exists pr. split; [|done]. apply list_elem_of_lookup. exists i.
      by rewrite list_lookup_imap, Hi.
  - apply Forall_forall. intros [k pr] Hin. cbn. rewrite length_replicate. apply list_elem_of_lookup in Hin as [j Hj].
    rewrite list_lookup_imap in Hj. apply fmap_Some in Hj as (x & Hx & [= _ ->]). rewrite Forall_forall in Hps.
    by eapply Hps, list_elem_of_lookup_2.
Qed.
Lemma length_index_productions n ps : length (index_productions n ps) = n.
Proof.
  unfold index_productions. rewrite <- (length_replicate n (@nil nat)) at 2. generalize (replicate n (@nil nat)).
  induction (imap pair ps) as [|[i pr] l IH]; intros acc; cbn; [done|]. by rewrite IH, length_alter.
Qed.

(** What the parser promises of a grammar it returns. *)
Definition wf_sets (g : Grammar) : Prop := forall p set, Character set ∈ rhs (productions g !!! p) -> wf_charset set.
Lemma parse_outcome text root :
  match parse text root with
  | Ok g => wf_grammar g /\ wf_sets g /\ forall r, (r < length (by_lhs g))%nat -> by_lhs g !!! r <> []
  | Err e => e <> OutOfFuel
  end.
Proof.
  unfold parse. assert (parser_ok (Parser_new text)) as Hnew.
  { split; cbn; [lia| |constructor]. intros id. rewrite map_size_empty. split; [lia|]. by intros [t Ht]. }
  pose proof (wp_rules (S (length text)) _ Hnew) as Hr. destruct (rules _ _) as [p|e]; [|apply Hr; unfold left_over; cbn; lia].
  specialize (Hr ltac:(unfold left_over; cbn; lia)). destruct (names p !! root) as [r0|] eqn:Eroot; [|done]. cbn [ok_or].
  set (n := size (names p)). set (ps := prods p ++ [mkProduction n [Rule r0]]).
  assert (r0 < n)%nat as Hr0 by (apply (po_names _ Hr); by exists root).
  assert (Forall (prod_ok (S n)) ps) as Hps.
  { apply Forall_app. split; [eapply Forall_impl; [apply Hr|]; intros pr; apply prod_ok_mono; lia|].
    constructor; [|constructor]. split; cbn; [lia|]. constructor; [cbn; lia | constructor]. }
  assert (forall i pr, ps !! i = Some pr -> prod_ok (S n) pr) as Hprod by (intros i pr Hi; rewrite Forall_forall in Hps; by eapply Hps, list_elem_of_lookup_2).
  assert (Forall (fun pr => (lhs pr < S n)%nat) ps) as Hlhs by (eapply Forall_impl; [exact Hps|]; by intros pr [? _]).
  pose proof (elem_of_index_productions (S n) ps) as Hidx. pose proof (length_index_productions (S n) ps) as Hlen.
  destruct (filter _ _) as [|[nm r] l] eqn:Ef; [|done]. split; [|split].
  - split; cbn [productions by_lhs start_production].
    + unfold ps. rewrite length_app. simpl. lia.
    + unfold ps. rewrite list_lookup_total_alt, list_lookup_middle by done. done.
    + intros r i (pr & Hi & Hl)%Hidx; [|done]. rewrite (list_lookup_total_correct _ _ _ Hi). split; [by eapply lookup_lt_Some | done].
    + intros i Hi. destruct (lookup_lt_is_Some_2 _ _ Hi) as [pr Hpr]. apply Hidx; [done|]. exists pr. split; [done|].
      by rewrite (list_lookup_total_correct _ _ _ Hpr).
    + intros i r Hi Hr'. destruct (lookup_lt_is_Some_2 _ _ Hi) as [pr Hpr]. rewrite (list_lookup_total_correct _ _ _ Hpr) in Hr'.
      destruct (Hprod _ _ Hpr) as [_ Hs]. rewrite Forall_forall in Hs. specialize (Hs _ Hr'). cbn in Hs. by rewrite Hlen.
  - intros i set Hin. cbn [productions] in Hin. rewrite list_lookup_total_alt in Hin. destruct (ps !! i) as [pr|] eqn:Hpr; [|by apply elem_of_nil in Hin].
    destruct (Hprod _ _ Hpr) as [_ Hs]. rewrite Forall_forall in Hs. by specialize (Hs _ Hin).
  - cbn [by_lhs]. rewrite Hlen. intros r Hlt Hnil. destruct (decide (r = n)) as [->|Hne].
    + assert (length (prods p) ∈ index_productions (S n) ps !!! n) as Hin.
      { apply Hidx; [done|]. exists (mkProduction n [Rule r0]). split; [by apply list_lookup_middle | done]. }
      rewrite Hnil in Hin. by apply elem_of_nil in Hin.
    + destruct (proj1 (po_names _ Hr r)) as [t Ht]; [unfold n in *; lia|].
      assert ((t, r) ∈ filter (fun '(_, rule) => index_productions (S n) ps !!! rule = []) (map_to_list (names p))) as Hin.
      { apply list_elem_of_filter. split; [done | by apply elem_of_map_to_list]. }
      rewrite Ef in Hin. by apply elem_of_nil in Hin.
Qed.

(** C37. Parsing any text ends without using up the fuel of the descent, and a grammar it
    returns is well formed: the start production is one rule, the index lists exactly the
    productions of each rule, every rule it refers to exists and has a production, and the
    ranges of every character class ascend.  So the matcher never indexes out of range. *)
Theorem parse_returns_grammar text root :
  match parse text root with
  | Ok g => wf_grammar g /\ wf_sets g /\ forall r, (r < length (by_lhs g))%nat -> by_lhs g !!! r <> []
  | Err e => e <> OutOfFuel
  end.
Proof. apply parse_outcome. Qed.
