(* ===== verification/GrammarLanguage.v ===== *)
(** * The chart recognizes exactly the grammar's viable prefixes.

    [viable] is the reference: leftmost derivations of the grammar as a nondeterministic stack
    machine.  A chart built by scanning and [close] accepts an input exactly when some stack
    can, and is accepting exactly when some stack is empty. *)
From stdpp Require Import fin_sets.
From S2P Require Import Prelude Utf8 Grammar GrammarClosure.

(** One terminal of the input: a character, or a whole token. *)
Inductive Input : Type := IChar (c : Z) | IToken (token : Z) (bytes : str).
Definition matches (s : Symbol) (i : Input) : bool :=
  match s, i with
  | Character set, IChar c => CharSet_matches set c
  | Token term, IToken token bytes => TokenTerminal_matches term token bytes
  | _, _ => false
  end.

Section Language.
Context (g : Grammar).
Implicit Types (it par : Item) (w u v : list Input) (γ δ : list Symbol) (ch : list (gset Item)).

(** The stack machine: [viable u γ] -- after reading [u], the symbols [γ] are still expected. *)
Inductive viable : list Input -> list Symbol -> Prop :=
| viable_start : viable [] (rhs (productions g !!! start_production g))
| viable_rule u rule p γ : viable u (Rule rule :: γ) -> p ∈ by_lhs g !!! rule ->
    viable u (rhs (productions g !!! p) ++ γ)
| viable_scan u s i γ : viable u (s :: γ) -> matches s i = true -> viable (u ++ [i]) γ.

(** Derivation of an input from a sequence of symbols. *)
Inductive yields : list Symbol -> list Input -> Prop :=
| yields_nil : yields [] []
| yields_terminal s i γ v : matches s i = true -> yields γ v -> yields (s :: γ) (i :: v)
| yields_rule rule p γ v1 v2 : p ∈ by_lhs g !!! rule -> yields (rhs (productions g !!! p)) v1 -> yields γ v2 ->
    yields (Rule rule :: γ) (v1 ++ v2).

Lemma yields_app γ δ v1 v2 : yields γ v1 -> yields δ v2 -> yields (γ ++ δ) (v1 ++ v2).
Proof.
  intros H1 H2. induction H1 as [|s i γ v Hm H1 IH|rule p γ va vb Hp Ha IHa Hb IHb]; cbn; [done | by constructor|].
  rewrite <- app_assoc. by eapply yields_rule.
Qed.
(** Reading what a prefix of the stack yields leaves the rest. *)
Lemma viable_yields γ v : yields γ v -> forall u δ, viable u (γ ++ δ) -> viable (u ++ v) δ.
Proof.
  induction 1 as [|s i γ v Hm Hy IH|rule p γ va vb Hp Ha IHa Hb IHb]; intros u δ Hv.
  - by rewrite app_nil_r.
  - replace (u ++ i :: v) with ((u ++ [i]) ++ v) by by rewrite <- app_assoc. apply IH. by eapply viable_scan.
  - rewrite app_assoc. apply IHb, IHa. by eapply viable_rule.
Qed.
(** A derivation from two sequences splits between them. *)
Lemma yields_app_inv α γ v : yields (α ++ γ) v -> exists v1 v2, v = v1 ++ v2 /\ yields α v1 /\ yields γ v2.
Proof.
  revert v. induction α as [|s α IHα]; intros v Hy; [exists [], v; split; [done|]; split; [constructor | done]|].
  inversion Hy as [|s' i γ' v' Hm Hy' E1 E2|rule' p' γ' va vb Hp' Ha Hb E1 E2]; subst.
  - destruct (IHα _ Hy') as (v1 & v2 & -> & H1 & H2). exists (i :: v1), v2. split; [done|]. by split; [constructor|].
  - destruct (IHα _ Hb) as (v1 & v2 & -> & H1 & H2). exists (va ++ v1), v2. rewrite app_assoc. split; [done|].
    split; [by eapply yields_rule | done].
Qed.
(** Conversely an accepting run is a derivation. *)
Lemma viable_complete u γ : viable u γ -> forall v, yields γ v -> yields (rhs (productions g !!! start_production g)) (u ++ v).
Proof.
  induction 1 as [|u rule p γ Hv IH Hp|u s i γ Hv IH Hm]; intros v Hy; [done| |].
  - apply IH. apply yields_app_inv in Hy as (v1 & v2 & -> & H1 & H2). by eapply yields_rule.
  - rewrite <- app_assoc. apply IH. by constructor.
Qed.
Lemma viable_accepting u : viable u [] <-> yields (rhs (productions g !!! start_production g)) u.
Proof.
  split.
  - intros Hv. rewrite <- (app_nil_r u). eapply viable_complete; [done | constructor].
  - intros Hy. apply (viable_yields _ _ Hy [] []). rewrite app_nil_r. constructor.
Qed.
(** The last input was read from some stack. *)
Lemma viable_snoc_inv u i γ : viable (u ++ [i]) γ -> exists s δ, viable u (s :: δ) /\ matches s i = true.
Proof.
  remember (u ++ [i]) as w eqn:Ew. intros Hv. revert u i Ew.
  induction Hv as [|w rule p γ Hv IH Hp|w s i' γ Hv IH Hm]; intros u i Ew.
  - by destruct u.
  - by eapply IH.
  - apply app_inj_tail in Ew as [<- <-]. by exists s, γ.
Qed.

(** ** Charts. *)
Definition segment w (o j : nat) : list Input := drop o (take j w).
(** What an item at [j] asserts of the input. *)
Definition sound_item w (j : nat) it : Prop :=
  yields (take (dot it) (rhs (prod_of g it))) (segment w (origin it) j) /\
  exists γ, viable (take j w) (drop (dot it) (rhs (prod_of g it)) ++ γ).

Record chart_ok w ch : Prop := {
  co_len : length ch = S (length w);
  co_in j X it : ch !! j = Some X -> it ∈ X -> item_in g j it;
  co_sound j X it : ch !! j = Some X -> it ∈ X -> sound_item w j it;
  co_start X : ch !! 0%nat = Some X -> mkItem (start_production g) 0 0 ∈ X;
  co_predict j X it rule p : ch !! j = Some X -> it ∈ X -> next_symbol g it = Some (Rule rule) -> p ∈ by_lhs g !!! rule ->
    mkItem p 0 j ∈ X;
  co_complete j X it Xo par : ch !! j = Some X -> it ∈ X -> next_symbol g it = None -> ch !! origin it = Some Xo ->
    par ∈ Xo -> next_symbol g par = Some (Rule (lhs (prod_of g it))) -> advance par ∈ X;
  co_scan j X X' it s i : ch !! j = Some X -> ch !! S j = Some X' -> it ∈ X -> next_symbol g it = Some s ->
    w !! j = Some i -> matches s i = true -> advance it ∈ X';
}.

Context (Hwf : wf_grammar g).

Lemma drop_next it s : next_symbol g it = Some s ->
  drop (dot it) (rhs (prod_of g it)) = s :: drop (S (dot it)) (rhs (prod_of g it)).
Proof. intros Hn. by apply drop_S. Qed.
Lemma take_next it s : next_symbol g it = Some s ->
  take (S (dot it)) (rhs (prod_of g it)) = take (dot it) (rhs (prod_of g it)) ++ [s].
Proof. intros Hn. by apply take_S_r. Qed.
Lemma segment_split w o k j : (o <= k <= j)%nat -> segment w o j = segment w o k ++ segment w k j.
Proof.
  intros Hk. unfold segment. replace (take k w) with (take k (take j w)) by (rewrite take_take; f_equal; lia).
  rewrite <- (take_drop k (take j w)) at 1. rewrite drop_app, length_take.
  destruct (decide (k <= length (take j w))%nat) as [Hl|Hl].
  - replace (o - k `min` length (take j w))%nat with 0%nat by lia. by rewrite drop_0.
  - rewrite (drop_ge (take j w) k) by lia. by rewrite drop_nil.
Qed.
Lemma take_segment w k j : (k <= j)%nat -> take j w = take k w ++ segment w k j.
Proof. intros Hk. pose proof (segment_split w 0 k j ltac:(lia)) as E. unfold segment at 1 2 in E. by rewrite !drop_0 in E. Qed.
Lemma segment_nil w j : segment w j j = [].
Proof. unfold segment. apply drop_ge. rewrite length_take. lia. Qed.

(** An item stays sound when the parent's expected rule has been completed. *)
Lemma advance_sound w j k par it :
  (origin par <= k <= j)%nat -> sound_item w k par -> next_symbol g par = Some (Rule (lhs (prod_of g it))) ->
  (production it < length (productions g))%nat -> next_symbol g it = None -> origin it = k -> sound_item w j it ->
  sound_item w j (advance par).
Proof using Hwf.
  intros Hk [Hy [γ Hv]] Hn Hp Hc <- [Hyi _]. unfold sound_item.
  change (prod_of g (advance par)) with (prod_of g par). cbn [dot origin advance].
  rewrite take_ge in Hyi by by apply next_symbol_None.
  assert (production it ∈ by_lhs g !!! lhs (prod_of g it)) as Hin by by apply wf_by_lhs_complete.
  split.
  - rewrite (take_next _ _ Hn), (segment_split w _ (origin it)) by lia. apply yields_app; [done|].
    rewrite <- (app_nil_r (segment _ _ j)). eapply yields_rule; [exact Hin | exact Hyi | constructor].
  - exists γ. rewrite (take_segment w (origin it) j) by lia. eapply viable_yields; [exact Hyi|].
    rewrite (drop_next _ _ Hn) in Hv. by eapply viable_rule in Hv.
Qed.

Lemma predict_sound w j it rule p :
  sound_item w j it -> next_symbol g it = Some (Rule rule) -> p ∈ by_lhs g !!! rule -> sound_item w j (mkItem p 0 j).
Proof.
  intros [_ [γ Hv]] Hn Hin. unfold sound_item, prod_of. cbn [dot origin production]. rewrite segment_nil, drop_0.
  split; [constructor|]. exists (drop (S (dot it)) (rhs (prod_of g it)) ++ γ).
  rewrite (drop_next _ _ Hn) in Hv. by eapply viable_rule in Hv.
Qed.

(** Closing keeps items sound. *)
Lemma justified_sound w past (cur : gset Item) it x :
  (forall j X y, past !! j = Some X -> y ∈ X -> item_in g j y /\ sound_item w j y) ->
  (forall y, y ∈ cur -> item_in g (length past) y /\ sound_item w (length past) y) ->
  item_in g (length past) it -> sound_item w (length past) it -> justified g past cur it x -> sound_item w (length past) x.
Proof using Hwf.
  intros Hpast Hcur Hit Hs Hj. destruct Hj as [rule p Hn Hin|rule c Hn Hc Hcomp|par Hn Hpar Hnp].
  - by eapply predict_sound.
  - assert (item_in g (length past) c /\ sound_item w (length past) c) as [Hci Hcs].
    { destruct Hc as [Hc|(p & Hp & ->)]; [by apply Hcur|]. destruct (wf_by_lhs_sound _ Hwf _ _ Hp) as [Hlt _].
      split; [split; [done|]; cbn; lia | by eapply predict_sound]. }
    apply completes_here_spec in Hcomp as (Ho & <- & Hnc); [|done].
    eapply (advance_sound w _ (length past) it c); try done; [destruct Hit; lia | apply Hci].
  - assert (origin it <= length past)%nat as Ho by apply Hit.
    assert (item_in g (origin it) par /\ sound_item w (origin it) par) as [Hpi Hps].
    { destruct (decide (origin it < length past)%nat) as [Hlt|Hge].
      - rewrite past_set, list_lookup_total_alt in Hpar by done.
        destruct (past !! origin it) as [X|] eqn:EX; [by eapply Hpast | by apply lookup_ge_None in EX; lia].
      - assert (origin it = length past) as E by lia. rewrite E in *. rewrite own_set in Hpar. by apply Hcur. }
    eapply (advance_sound w _ (origin it) par it); try done; [destruct Hpi; lia | apply Hit].
Qed.

Lemma sound_item_app w v j it : (j <= length w)%nat -> sound_item (w ++ v) j it <-> sound_item w j it.
Proof. intros Hj. unfold sound_item, segment. by rewrite !take_app_le. Qed.

Lemma elem_of_scanned ok (X : gset Item) x :
  x ∈ scanned g ok X <-> exists it s, it ∈ X /\ next_symbol g it = Some s /\ ok s = true /\ x = advance it.
Proof.
  unfold scanned. rewrite elem_of_list_to_set, list_elem_of_omap. split.
  - intros (it & Hit%elem_of_elements & H). destruct (next_symbol g it) as [s|] eqn:En; [|done].
    destruct (ok s) eqn:Eo; [|done]. injection H as <-. by exists it, s.
  - intros (it & s & Hit & En & Eo & ->). exists it. split; [by apply elem_of_elements|]. by rewrite En, Eo.
Qed.

(** Closing the set at the end of a chart keeps the chart right. *)
Lemma close_extends w ch (next : gset Item) :
  (forall j X it, ch !! j = Some X -> it ∈ X -> item_in g j it /\ sound_item w j it) ->
  (forall it, it ∈ next -> item_in g (length ch) it /\ sound_item w (length ch) it) ->
  next ⊆ close g ch next /\ loop_inv g ch (close g ch next) [] /\
  (forall it, it ∈ close g ch next -> item_in g (length ch) it /\ sound_item w (length ch) it).
Proof using Hwf.
  intros Hch Hnext. apply close_spec; try done.
  - intros j X y HX Hy. by eapply Hch.
  - intros cur it x Hcur Hit HP Hj. by eapply justified_sound.
Qed.

Lemma chart_ok_snoc_lookup ch (X Y : gset Item) j :
  (ch ++ [X]) !! j = Some Y -> ch !! j = Some Y \/ (j = length ch /\ Y = X).
Proof.
  intros H. destruct (decide (j < length ch)%nat) as [Hlt|Hge]; [left; by rewrite lookup_app_l in H|].
  right. rewrite lookup_app_r in H by lia. destruct (j - length ch)%nat as [|k] eqn:E; cbn in H; [|done].
  injection H as <-. split; [lia | done].
Qed.

(** The closure facts of a position, from the loop's final state. *)
Lemma closed_complete ch (X : gset Item) it Xo par :
  (forall it, it ∈ X -> item_in g (length ch) it) -> loop_inv g ch X [] ->
  it ∈ X -> next_symbol g it = None -> (ch ++ [X]) !! origin it = Some Xo -> par ∈ Xo ->
  next_symbol g par = Some (Rule (lhs (prod_of g it))) -> advance par ∈ X.
Proof.
  intros HX Hinv Hit Hn Ho Hpar Hw. apply chart_ok_snoc_lookup in Ho as [Ho|[Ho ->]].
  - pose proof (lookup_lt_Some _ _ _ Ho). eapply (li_complete _ _ _ _ Hinv it par); try done; [by intros ?%elem_of_nil|].
    by rewrite (list_lookup_total_correct _ _ _ Ho).
  - eapply (li_null _ _ _ _ Hinv it par); try done; by intros ?%elem_of_nil.
Qed.

Definition initial_chart : list (gset Item) := [close g [] {[mkItem (start_production g) 0 0]}].

Lemma initial_chart_ok : chart_ok [] initial_chart.
Proof using Hwf.
  destruct (close_extends [] [] {[mkItem (start_production g) 0 0]}) as (Hsub & Hinv & Hres).
  - intros j X it H. done.
  - intros it ->%elem_of_singleton. split; [split; [apply Hwf|]; cbn; lia|].
    unfold sound_item. cbn. split; [constructor|]. exists []. rewrite drop_0, app_nil_r. constructor.
  - unfold initial_chart. assert (forall j X, [close g [] {[mkItem (start_production g) 0 0]}] !! j = Some X ->
      j = 0%nat /\ X = close g [] {[mkItem (start_production g) 0 0]}) as H1.
    { intros [|j] X HX; cbn in HX; [by injection HX as <- | done]. }
    split.
    + done.
    + intros j X it [-> ->]%H1 Hit. by apply Hres.
    + intros j X it [-> ->]%H1 Hit. by apply Hres.
    + intros X [_ ->]%H1. set_solver.
    + intros j X it rule p [-> ->]%H1 Hit Hn Hp. eapply (li_predict _ _ _ _ Hinv); try done. by intros ?%elem_of_nil.
    + intros j X it Xo par [-> ->]%H1 Hit Hn Ho Hpar Hw. eapply (closed_complete []); try done. intros y Hy. by apply Hres.
    + intros j X X' it s i _ [? _]%H1. done.
Qed.

Lemma chart_ok_extend w ch X ok i :
  chart_ok w ch -> last ch = Some X -> (forall s, ok s = matches s i) ->
  chart_ok (w ++ [i]) (ch ++ [close g ch (scanned g ok X)]).
Proof using Hwf.
  intros Hok Hlast Hmatch. pose proof (co_len _ _ Hok) as Hlen. rewrite last_lookup, Hlen in Hlast. cbn in Hlast.
  destruct (close_extends (w ++ [i]) ch (scanned g ok X)) as (Hsub & Hinv & Hres).
  { intros j Y it HY Hit. pose proof (lookup_lt_Some _ _ _ HY). split; [by eapply co_in|].
    apply sound_item_app; [lia|]. by eapply co_sound. }
  { intros x (it & s & Hit & Hn & Hm & ->)%elem_of_scanned. rewrite Hmatch in Hm.
    destruct (co_in _ _ Hok _ _ _ Hlast Hit) as (Hp & Hd & Ho). pose proof (co_sound _ _ Hok _ _ _ Hlast Hit) as [Hy [γ Hv]].
    split.
    - unfold next_symbol in Hn. apply lookup_lt_Some in Hn. split; [exact Hp|]. unfold prod_of in *. cbn. lia.
    - unfold sound_item. change (prod_of g (advance it)) with (prod_of g it). cbn [dot origin advance]. rewrite Hlen.
      rewrite (take_next _ _ Hn), (segment_split _ _ (length w)) by lia. split.
      + apply yields_app; [unfold segment in *; by rewrite take_app_le|].
        unfold segment. rewrite take_ge by (rewrite length_app; simpl; lia). rewrite drop_app_length.
        constructor; [done | constructor].
      + exists γ. rewrite take_ge by (rewrite length_app; simpl; lia). rewrite take_ge in Hv by done.
        rewrite (drop_next _ _ Hn) in Hv. by eapply viable_scan. }
  split.
  - rewrite !length_app. simpl. lia.
  - intros j Y it [HY|[-> ->]]%chart_ok_snoc_lookup Hit; [by eapply co_in | by apply Hres].
  - intros j Y it [HY|[-> ->]]%chart_ok_snoc_lookup Hit; [|by apply Hres].
    pose proof (lookup_lt_Some _ _ _ HY). apply sound_item_app; [lia|]. by eapply co_sound.
  - intros Y HY. rewrite lookup_app_l in HY by lia. by eapply co_start.
  - intros j Y it rule p [HY|[-> ->]]%chart_ok_snoc_lookup Hit Hn Hp; [by eapply co_predict|].
    eapply (li_predict _ _ _ _ Hinv); try done. by intros ?%elem_of_nil.
  - intros j Y it Yo par [HY|[-> ->]]%chart_ok_snoc_lookup Hit Hn Ho Hpar Hw.
    + destruct (co_in _ _ Hok _ _ _ HY Hit) as (_ & _ & Hle). pose proof (lookup_lt_Some _ _ _ HY).
      rewrite lookup_app_l in Ho by lia. by eapply co_complete.
    + eapply closed_complete; try done. intros y Hy. by apply Hres.
  - intros j Y Y' it s i' HY HY' Hit Hn Hi Hm. pose proof (lookup_lt_Some _ _ _ HY') as Hlt. rewrite length_app in Hlt. simpl in Hlt.
    rewrite lookup_app_l in HY by lia. apply chart_ok_snoc_lookup in HY' as [HY'|[Hj ->]].
    + pose proof (lookup_lt_Some _ _ _ HY'). rewrite lookup_app_l in Hi by lia. by eapply (co_scan _ _ Hok j Y Y').
    + assert (j = length w) as -> by lia. rewrite list_lookup_middle in Hi by done. injection Hi as <-.
      assert (Y = X) as -> by congruence. apply Hsub, elem_of_scanned. exists it, s. by rewrite Hmatch.
Qed.

(** ** Every stack is in the chart. *)
(** What is expected after production [p], begun at [o], is complete: nothing for the start
    production, or the rest of an item that waited for it where it began. *)
Inductive continues ch : nat -> nat -> list Symbol -> Prop :=
| cont_start : continues ch (start_production g) 0 []
| cont_child p o par Xo γ : ch !! o = Some Xo -> par ∈ Xo -> next_symbol g par = Some (Rule (lhs (productions g !!! p))) ->
    continues ch (production par) (origin par) γ -> continues ch p o (drop (S (dot par)) (rhs (prod_of g par)) ++ γ).

(** The stack [γ] stands in the chart at the item [it] of the set [X]. *)
Definition stands ch (X : gset Item) it γ : Prop :=
  it ∈ X /\ exists γ', continues ch (production it) (origin it) γ' /\ γ = drop (dot it) (rhs (prod_of g it)) ++ γ'.

Lemma stands_next ch X it s δ : stands ch X it (s :: δ) -> next_symbol g it <> None ->
  next_symbol g it = Some s /\ stands ch {[advance it]} (advance it) δ.
Proof.
  intros (Hit & γ' & Hc & E) Hn. destruct (next_symbol g it) as [s'|] eqn:En; [|done].
  rewrite (drop_next _ _ En) in E. injection E as -> ->. split; [done|]. split; [set_solver|]. by exists γ'.
Qed.
(** A completed item passes its stack to the item that waited for it. *)
Lemma stands_pop w ch j X it γ : chart_ok w ch -> ch !! j = Some X -> stands ch X it γ ->
  exists it', stands ch X it' γ /\ (next_symbol g it' = None -> γ = [] /\ production it' = start_production g /\ origin it' = 0%nat).
Proof.
  intros Hok HX (Hit & γ' & Hc & ->). destruct it as [p d o]. cbn [production origin] in Hc. revert d Hit.
  induction Hc as [|p o par Xo γ Ho Hpar Hn Hc IH]; intros d Hit.
  - exists (mkItem (start_production g) d 0). split; [split; [done|]; exists []; split; [constructor | done]|].
    intros Hn%next_symbol_None. by rewrite drop_ge.
  - destruct (decide (next_symbol g (mkItem p d o) = None)) as [Hnone|Hsome].
    + rewrite (drop_ge _ d) by by apply next_symbol_None in Hnone.
      eapply (co_complete _ _ Hok j X (mkItem p d o) Xo par) in Hn; try done. destruct par as [p' d' o'].
      by destruct (IH (S d') Hn) as (it' & H1 & H2); exists it'.
    + exists (mkItem p d o). split; [|done]. split; [done|]. eexists. split; [by econstructor | done].
Qed.

Lemma viable_stands w ch u γ : chart_ok w ch -> viable u γ -> forall v, w = u ++ v ->
  exists X it, ch !! length u = Some X /\ stands ch X it γ.
Proof using Hwf.
  intros Hok Hv. induction Hv as [|u rule p γ Hv IH Hp|u s i γ Hv IH Hm]; intros v Ew.
  - destruct (ch !! 0%nat) as [X|] eqn:EX; [|apply lookup_ge_None in EX; rewrite (co_len _ _ Hok) in EX; lia].
    exists X, (mkItem (start_production g) 0 0). split; [done|]. split; [by eapply co_start|].
    exists []. split; [constructor|]. by rewrite app_nil_r.
  - destruct (IH v Ew) as (X & it & HX & Hs). destruct (stands_pop _ _ _ _ _ _ Hok HX Hs) as (it' & Hs' & Hnone).
    destruct (stands_next _ _ _ _ _ Hs') as [Hn (_ & γ' & Hc & ->)]; [by intros [? _]%Hnone|].
    exists X, (mkItem p 0 (length u)). split; [done|]. split; [eapply co_predict; try done; apply Hs'|].
    exists (drop (S (dot it')) (rhs (prod_of g it')) ++ γ'). split; [|done].
    eapply (cont_child _ _ _ it'); [exact HX | apply Hs' | | exact Hc].
    rewrite Hn. cbn. by destruct (wf_by_lhs_sound _ Hwf _ _ Hp) as [_ ->].
  - destruct (IH ([i] ++ v)) as (X & it & HX & Hs); [by rewrite app_assoc|].
    destruct (stands_pop _ _ _ _ _ _ Hok HX Hs) as (it' & Hs' & Hnone).
    destruct (stands_next _ _ _ _ _ Hs') as [Hn (_ & Hc)]; [by intros [? _]%Hnone|].
    assert (exists X', ch !! S (length u) = Some X') as [X' HX'].
    { apply lookup_lt_is_Some. rewrite (co_len _ _ Hok), Ew, !length_app. simpl. lia. }
    exists X', (advance it'). rewrite length_app, Nat.add_comm. split; [done|]. split; [|exact Hc].
    eapply (co_scan _ _ Hok (length u) X X'); try done; [apply Hs'|]. rewrite Ew, <- app_assoc. by apply list_lookup_middle.
Qed.

(** ** Recognition. *)
Lemma chart_last w ch : chart_ok w ch -> exists X, last ch = Some X /\ ch !! length w = Some X.
Proof.
  intros Hok. rewrite last_lookup, (co_len _ _ Hok). cbn.
  destruct (ch !! length w) as [X|] eqn:EX; [by exists X|]. apply lookup_ge_None in EX. rewrite (co_len _ _ Hok) in EX. lia.
Qed.
(** Some item scans the input exactly when some stack can read it. *)
Lemma chart_step w ch X i : chart_ok w ch -> last ch = Some X ->
  (exists it s, it ∈ X /\ next_symbol g it = Some s /\ matches s i = true) <-> exists γ, viable (w ++ [i]) γ.
Proof using Hwf.
  intros Hok Hlast. destruct (chart_last _ _ Hok) as (X' & HX' & HX). assert (X' = X) as -> by congruence. split.
  - intros (it & s & Hit & Hn & Hm). destruct (co_sound _ _ Hok _ _ _ HX Hit) as [_ [γ Hv]].
    rewrite take_ge, (drop_next _ _ Hn) in Hv by done. eexists. by eapply viable_scan.
  - intros [γ Hv]. apply viable_snoc_inv in Hv as (s & δ & Hv & Hm).
    destruct (viable_stands w ch w _ Hok Hv []) as (Y & it & HY & Hs); [by rewrite app_nil_r|].
    assert (Y = X) as -> by congruence. destruct (stands_pop _ _ _ _ _ _ Hok HX Hs) as (it' & Hs' & Hnone).
    destruct (stands_next _ _ _ _ _ Hs') as [Hn _]; [by intros [? _]%Hnone|]. exists it', s. split; [apply Hs' | done].
Qed.
(** The completed start item is in the last set exactly when the input is a sentence. *)
Lemma chart_accepting w ch X : chart_ok w ch -> last ch = Some X ->
  mkItem (start_production g) 1 0 ∈ X <-> yields (rhs (productions g !!! start_production g)) w.
Proof using Hwf.
  intros Hok Hlast. destruct (chart_last _ _ Hok) as (X' & HX' & HX). assert (X' = X) as -> by congruence.
  pose proof (wf_start_rhs _ Hwf) as H1. split.
  - intros Hit. destruct (co_sound _ _ Hok _ _ _ HX Hit) as [Hy _]. unfold prod_of, segment in Hy. cbn in Hy.
    rewrite !take_ge in Hy by (rewrite ?H1; done). by rewrite drop_0 in Hy.
  - intros Hv%viable_accepting.
    destruct (viable_stands w ch w _ Hok Hv []) as (Y & it & HY & Hs); [by rewrite app_nil_r|].
    assert (Y = X) as -> by congruence. destruct (stands_pop _ _ _ _ _ _ Hok HX Hs) as (it' & (Hit & γ' & Hc & E) & Hnone).
    symmetry in E. apply app_eq_nil in E as [Ed _].
    assert (next_symbol g it' = None) as Hn.
    { apply next_symbol_None. apply (f_equal length) in Ed. rewrite length_drop in Ed. simpl in Ed. lia. }
    destruct (Hnone Hn) as (_ & Hp & Ho). apply next_symbol_None in Hn.
    destruct (co_in _ _ Hok _ _ _ HX Hit) as (_ & Hd & _). unfold prod_of in *. rewrite Hp, H1 in *.
    destruct it' as [p d o]. cbn in *. assert (d = 1%nat) as -> by lia. by subst.
Qed.
End Language.
