(* ===== verification/GrammarMatcher.v ===== *)
(** * The matcher admits exactly the token sequences the grammar can spell.

    A token sequence can be read in several ways: each token either as one token terminal or
    as bytes that join the bytes before it into characters.  [reads] is that reading,
    independent of the matcher; the matcher keeps a branch for every reading the grammar can
    still continue, and for no other. *)
From Stdlib Require Import Strings.Byte.
From stdpp Require Import fin_sets.
From S2P Require Import Prelude Utf8 Utf8Scalar Grammar GrammarText GrammarClosure GrammarParser GrammarParserProofs GrammarLanguage.

(** Readings of a token sequence: the terminals read and the bytes of an unfinished character. *)
Inductive reads : list (Z * str) -> list Input -> str -> Prop :=
| reads_nil : reads [] [] []
| reads_token ts w t bytes : reads ts w [] -> reads (ts ++ [(t, bytes)]) (w ++ [IToken t bytes]) []
| reads_bytes ts w rest t bytes cs rest' : reads ts w rest -> bytes <> [] -> scalars cs -> incomplete rest' ->
    rest ++ bytes = encode_all cs ++ rest' -> reads (ts ++ [(t, bytes)]) (w ++ (IChar <$> cs)) rest'.

Lemma reads_incomplete ts w rest : reads ts w rest -> incomplete rest.
Proof. by destruct 1. Qed.

Section Matcher.
Context (g : Grammar) (Hwf : wf_grammar g).
Context (Hsets : wf_sets g).
Implicit Types (b : MatchBranch) (w : list Input) (m : GrammarMatcher).

(** The grammar can go on after [w] and the bytes [rest]: with [rest] completed to a character. *)
Definition alive w (rest : str) : Prop :=
  match rest with
  | [] => exists γ, viable g w γ
  | _ => exists c k γ, is_scalar c = true /\ k <> [] /\ encode_utf8 c = rest ++ k /\ viable g (w ++ [IChar c]) γ
  end.
Definition branch_ok w b : Prop := chart_ok g w (chart b) /\ exists γ, viable g w γ.

Lemma viable_prefix u v γ : viable g (u ++ v) γ -> exists δ, viable g u δ.
Proof.
  revert γ. induction v as [|i v IH] using rev_ind; intros γ; [rewrite app_nil_r; by exists γ|].
  rewrite app_assoc. intros (s & δ & Hv & _)%viable_snoc_inv. by eapply IH.
Qed.

(** ** One input. *)
Definition accept_input b (i : Input) : option MatchBranch :=
  match i with IChar c => accept_char g b c | IToken t bytes => accept_token_terminal g b t bytes end.
Lemma accept_input_eq b i : accept_input b i =
  let next := scanned g (fun s => matches s i) (last_items b) in
  if decide (next = ∅) then None else Some (mkBranch (chart b ++ [close g (chart b) next]) (pending_utf8 b)).
Proof.
  assert (forall ok ok' (X : gset Item), (forall s, ok s = ok' s) -> scanned g ok X = scanned g ok' X) as Hext.
  { intros ok ok' X E. apply set_eq. intros x. rewrite !elem_of_scanned. by setoid_rewrite E. }
  destruct i; unfold accept_input, accept_char, accept_token_terminal; cbv zeta;
    (erewrite Hext; [reflexivity|]); by intros [].
Qed.
Lemma accept_input_spec w b i : branch_ok w b ->
  match accept_input b i with
  | Some b' => branch_ok (w ++ [i]) b' /\ pending_utf8 b' = pending_utf8 b
  | None => forall γ, ~ viable g (w ++ [i]) γ
  end.
Proof using Hwf.
  intros [Hok _]. rewrite accept_input_eq. cbv zeta. destruct (chart_last _ _ _ Hok) as (X & Hlast & _).
  unfold last_items. rewrite Hlast. cbn [default]. pose proof (chart_step _ Hwf _ _ _ i Hok Hlast) as Hstep.
  case_decide as He.
  - intros γ Hv. destruct (proj2 Hstep (ex_intro _ γ Hv)) as (it & s & Hit & Hn & Hm).
    assert (advance it ∈ (∅ : gset Item)) as []%not_elem_of_empty. rewrite <- He. apply elem_of_scanned. by exists it, s.
  - split; [|done]. split; [by apply chart_ok_extend|]. apply Hstep.
    apply set_choose_L in He as (x & (it & s & Hit & Hn & Hm & _)%elem_of_scanned). by exists it, s.
Qed.
Lemma accept_chars_spec w b cs : branch_ok w b ->
  match accept_chars g b cs with
  | Some b' => branch_ok (w ++ (IChar <$> cs)) b' /\ pending_utf8 b' = pending_utf8 b
  | None => forall γ, ~ viable g (w ++ (IChar <$> cs)) γ
  end.
Proof using Hwf.
  revert w b. induction cs as [|c cs IH]; intros w b Hb; cbn [accept_chars]; [by rewrite app_nil_r|].
  pose proof (accept_input_spec w b (IChar c) Hb) as Hc. cbn [accept_input] in Hc.
  rewrite fmap_cons, cons_middle, app_assoc. destruct (accept_char g b c) as [b1|]; cbn.
  - destruct Hc as [Hb1 Hp]. specialize (IH _ _ Hb1). destruct (accept_chars g b1 cs) as [b2|]; [|done].
    destruct IH as [Hb2 Hp2]. by rewrite Hp2.
  - intros γ (δ & Hv)%viable_prefix. by apply Hc in Hv.
Qed.

(** ** Bytes. *)
Lemma frontier_spec w b lower upper : branch_ok w b -> lower <= upper -> upper < U32_MAX ->
  frontier_accepts_range g b lower upper = true <-> exists c γ, lower <= c <= upper /\ viable g (w ++ [IChar c]) γ.
Proof using Hwf Hsets.
  intros [Hok _] Hlu Hu. destruct (chart_last _ _ _ Hok) as (X & Hlast & _). unfold frontier_accepts_range, last_items.
  rewrite Hlast. cbn [default]. rewrite existsb_exists. split.
  - intros (it & Hit%list_elem_of_In%elem_of_elements & Hs). destruct (next_symbol g it) as [[|set|]|] eqn:En; try done.
    apply charset_intersects in Hs as (c & Hc & Hm); [|by eapply Hsets, list_elem_of_lookup_2|done..].
    destruct (proj1 (chart_step _ Hwf _ _ _ (IChar c) Hok Hlast)) as [γ Hv]; [by exists it, (Character set)|]. by exists c, γ.
  - intros (c & γ & Hc & Hv).
    destruct (proj2 (chart_step _ Hwf _ _ _ (IChar c) Hok Hlast)) as (it & s & Hit & Hn & Hm); [by exists γ|].
    exists it. split; [by apply list_elem_of_In, elem_of_elements|]. rewrite Hn. destruct s as [|set|]; try done.
    apply charset_intersects; [by eapply Hsets, list_elem_of_lookup_2|done|done|]. by exists c.
Qed.

Lemma truncated_incomplete (x : byte) r : truncated (x :: r) = true <-> incomplete (x :: r).
Proof. unfold truncated. rewrite utf8_chunks_cons. cbn [incomplete]. by destruct (classify x r). Qed.
Lemma alive_cut w (x : byte) r : classify x r = HTruncated ->
  alive w (x :: r) <-> exists lower upper c γ, incomplete_utf8_scalar_range (x :: r) = Some (lower, upper) /\ lower <= c <= upper /\
    viable g (w ++ [IChar c]) γ.
Proof.
  intros Hcl. cbn [alive]. split.
  - intros (c & k & γ & Hc & Hk & E & Hv).
    destruct (proj2 (incomplete_range _ _ c Hcl)) as (lo & up & Hr & Hin); [split; [done | by exists k]|]. by exists lo, up, c, γ.
  - intros (lo & up & c & γ & Hr & Hin & Hv).
    destruct (proj1 (incomplete_range _ _ c Hcl)) as (Hc & k & Hk & E); [by exists lo, up|]. by exists c, k, γ.
Qed.
(** A rest that starts with no character is kept when the grammar can take a completion. *)
Lemma accept_rest_spec w b fuel : branch_ok w b -> pending_utf8 b <> [] -> valid_up_to (pending_utf8 b) = 0%nat ->
  match accept_bytes_loop g (S fuel) b with
  | Some b' => b' = b /\ incomplete (pending_utf8 b) /\ alive w (pending_utf8 b)
  | None => ~ (incomplete (pending_utf8 b) /\ alive w (pending_utf8 b))
  end.
Proof using Hwf Hsets.
  intros Hb Hne Hv. cbn [accept_bytes_loop]. destruct (utf8_valid (pending_utf8 b)) eqn:Ev.
  { apply valid_up_to_all in Ev. rewrite Hv in Ev. by destruct (pending_utf8 b). }
  rewrite Hv. change (0 <? 0)%nat with false. cbv iota. destruct (pending_utf8 b) as [|x r] eqn:Ep; [done|]. clear Hne.
  pose proof (truncated_incomplete x r) as Ht. destruct (truncated (x :: r)); cbn [negb orb].
  2:{ intros [Hi _]. by apply Ht in Hi. }
  assert (classify x r = HTruncated) as Hcl by by apply Ht. pose proof (alive_cut w x r Hcl) as Hal.
  pose proof (classify_truncated_length _ _ Hcl) as Hlen. rewrite (proj2 (Nat.ltb_ge 3 _)) by done.
  destruct (incomplete_utf8_scalar_range (x :: r)) as [[lo up]|] eqn:Er; cbn [mbind option_bind].
  2:{ intros [_ Ha]. apply Hal in Ha as (? & ? & ? & ? & [=] & _). }
  destruct (incomplete_range_bounds _ _ _ _ Er) as [Hlu Hup].
  pose proof (frontier_spec w b lo up Hb Hlu ltac:(unfold U32_MAX; lia)) as Hf. destruct (frontier_accepts_range g b lo up).
  - split; [done|]. split; [done|]. apply Hal. destruct (proj1 Hf eq_refl) as (c & γ & Hc & Hγ). by exists lo, up, c, γ.
  - intros [_ Ha]. apply Hal in Ha as (? & ? & c & γ & [= <- <-] & Hc & Hγ). by discriminate (proj2 Hf (ex_intro _ c (ex_intro _ γ (conj Hc Hγ)))).
Qed.

Lemma alive_viable w rest : alive w rest -> exists γ, viable g w γ.
Proof. destruct rest; [done|]. intros (c & k & γ & _ & _ & _ & Hv). by eapply viable_prefix. Qed.

(** The bytes split in one way into characters and a rest; the branch that reads it. *)
Definition reads_on w (full : str) b' : Prop :=
  exists cs, scalars cs /\ incomplete (pending_utf8 b') /\ full = encode_all cs ++ pending_utf8 b' /\
    branch_ok (w ++ (IChar <$> cs)) b' /\ alive (w ++ (IChar <$> cs)) (pending_utf8 b').
Definition cannot_read w (full : str) : Prop :=
  forall cs rest, scalars cs -> incomplete rest -> full = encode_all cs ++ rest -> ~ alive (w ++ (IChar <$> cs)) rest.

Lemma accept_rest_reads w b cs fuel : branch_ok (w ++ (IChar <$> cs)) b -> scalars cs -> pending_utf8 b <> [] ->
  valid_up_to (pending_utf8 b) = 0%nat ->
  match accept_bytes_loop g (S fuel) b with
  | Some b' => reads_on w (encode_all cs ++ pending_utf8 b) b'
  | None => cannot_read w (encode_all cs ++ pending_utf8 b)
  end.
Proof using Hwf Hsets.
  intros Hb Hcs Hne Hv. pose proof (accept_rest_spec _ b fuel Hb Hne Hv) as Hr. destruct (accept_bytes_loop g (S fuel) b) as [b'|].
  - destruct Hr as (-> & Hi & Ha). exists cs. split; [done|]. split; [done|]. done.
  - intros cs' rest' Hcs' Hi E Ha. apply Hr.
    assert (pending_utf8 b = rest') as Erest.
    { pose proof (f_equal valid_up_to E) as El. rewrite !valid_up_to_encode, (valid_up_to_incomplete rest'), Hv in El by done.
      assert (length (encode_all cs) = length (encode_all cs')) as Hl by lia. by destruct (app_inj_1 _ _ _ _ Hl E). }
    rewrite Erest in *. apply encode_split_unique in E as [-> _]; done.
Qed.

Lemma accept_bytes_spec w b bytes : branch_ok w b ->
  match accept_bytes g b bytes with
  | Some b' => reads_on w (pending_utf8 b ++ bytes) b'
  | None => cannot_read w (pending_utf8 b ++ bytes)
  end.
Proof using Hwf Hsets.
  intros [Hok Hvi]. unfold accept_bytes. set (full := pending_utf8 b ++ bytes).
  assert (forall p, branch_ok w (mkBranch (chart b) p)) as Hb by by split.
  destruct (utf8_valid full) eqn:Ev; [|destruct (decide (valid_up_to full = 0%nat)) as [Hv|Hv]].
  - cbn [accept_bytes_loop pending_utf8 chart]. rewrite Ev. destruct (valid_encode_all _ Ev) as (cs & Hcs & ->).
    rewrite chars_encode_all by done. pose proof (accept_chars_spec w _ cs (Hb [])) as Hs.
    destruct (accept_chars g _ cs) as [b'|].
    + destruct Hs as [Hb' Hp]. exists cs. rewrite Hp. cbn [pending_utf8]. rewrite app_nil_r. split; [done|]. split; [done|].
      split; [done|]. split; [done | apply Hb'].
    + intros cs' rest' Hcs' Hi E Ha. rewrite <- (app_nil_r (encode_all cs)) in E.
      apply encode_split_unique in E as [<- <-]; try done. by destruct Ha as [γ Hγ%Hs].
  - apply (accept_rest_reads w (mkBranch (chart b) full) [] 1); cbn; rewrite ?app_nil_r; try done. intros E. by rewrite E in Ev.
  - remember 1%nat as fuel. cbn [accept_bytes_loop pending_utf8 chart]. subst fuel. rewrite Ev, (proj2 (Nat.ltb_lt 0 _)) by lia.
    pose proof (take_valid_up_to full) as Ht. destruct (valid_encode_all _ Ht) as (cs & Hcs & Etake).
    pose proof (take_drop (valid_up_to full) full) as Efull. rewrite Etake in Efull |- *. rewrite chars_encode_all by done.
    pose proof (accept_chars_spec w _ cs (Hb (drop (valid_up_to full) full))) as Hs. destruct (accept_chars g _ cs) as [b1|]; cbn [mbind option_bind].
    + destruct Hs as [Hb1 Hp]. cbn [pending_utf8] in Hp. rewrite <- Efull, <- Hp.
      apply accept_rest_reads; [done | done | |rewrite Hp; apply drop_valid_up_to].
      rewrite Hp. intros E. rewrite E, app_nil_r in Efull. by rewrite <- Efull, utf8_valid_encode in Ev.
    + intros cs' rest' Hcs' Hi E Ha.
      assert (cs' = cs) as ->.
      { pose proof (f_equal valid_up_to E) as El. rewrite valid_up_to_encode, (valid_up_to_incomplete rest'), Nat.add_0_r in El by done.
        rewrite El, E, take_app_length in Etake. rewrite <- (app_nil_r (encode_all cs)), <- (app_nil_r (encode_all cs')) in Etake.
        by apply encode_split_unique in Etake as [-> _]. }
      by apply alive_viable in Ha as [γ Hγ%Hs].
Qed.

(** ** Branches. *)
Lemma elem_of_push_new acc o b : b ∈ push_new acc o <-> b ∈ acc \/ o = Some b.
Proof.
  destruct o as [x|]; cbn [push_new]; [|naive_solver]. case_decide; [naive_solver|].
  rewrite elem_of_app, list_elem_of_singleton. naive_solver.
Qed.
Lemma elem_of_push_all {A} (f : list MatchBranch -> A -> list MatchBranch) (Q : A -> MatchBranch -> Prop) l acc b :
  (forall acc a, b ∈ f acc a <-> b ∈ acc \/ Q a b) -> b ∈ foldl f acc l <-> b ∈ acc \/ exists a, a ∈ l /\ Q a b.
Proof.
  intros Hf. revert acc. induction l as [|a l IH]; intros acc; cbn [foldl]; [split; [by left | by intros [?|(? & ?%elem_of_nil & _)]]|].
  rewrite IH, Hf. setoid_rewrite elem_of_cons. naive_solver.
Qed.

(** The ways a branch takes a token. *)
Definition takes b (t : Z) (bytes : str) b' : Prop :=
  (pending_utf8 b = [] /\ accept_token_terminal g b t bytes = Some b') \/ (bytes <> [] /\ accept_bytes g b bytes = Some b').
Lemma accept_token_spec m t bytes : grammar m = g ->
  match accept_token m t bytes with
  | Some m' => grammar m' = g /\ forall b', b' ∈ branches m' <-> exists b, b ∈ branches m /\ takes b t bytes b'
  | None => forall b b', b ∈ branches m -> ~ takes b t bytes b'
  end.
Proof.
  intros Hg. unfold accept_token. rewrite Hg. set (f := fun accepted b => _).
  assert (forall b', b' ∈ foldl f [] (branches m) <-> exists b, b ∈ branches m /\ takes b t bytes b') as Hf.
  { intros b'. rewrite (elem_of_push_all f (fun b => takes b t bytes)); [rewrite elem_of_nil; naive_solver|].
    intros acc b. unfold f, takes. destruct (pending_utf8 b), bytes; rewrite ?elem_of_push_new; naive_solver. }
  destruct (foldl f [] (branches m)) as [|b0 l].
  - intros b b' Hb Ht. assert (b' ∈ []) as []%elem_of_nil. apply Hf. by exists b.
  - cbn. split; [done|]. exact Hf.
Qed.

(** What the matcher holds after the tokens [ts]. *)
Record tracks (ts : list (Z * str)) m : Prop := {
  tr_grammar : grammar m = g;
  tr_sound b : b ∈ branches m -> exists w, reads ts w (pending_utf8 b) /\ branch_ok w b /\ alive w (pending_utf8 b);
  tr_complete w rest : reads ts w rest -> alive w rest -> exists b, b ∈ branches m /\ branch_ok w b /\ pending_utf8 b = rest;
}.

Lemma tracks_start : tracks [] (matcher_start g).
Proof using Hwf.
  pose proof (initial_chart_ok g Hwf) as Hok.
  assert (branch_ok [] (mkBranch (initial_chart g) [])) as Hb by (split; [done | eexists; constructor]).
  split; [done| |].
  - intros b ->%list_elem_of_singleton. exists []. split; [constructor|]. split; [done | apply Hb].
  - intros w rest Hr _. exists (mkBranch (initial_chart g) []). split; [by apply list_elem_of_singleton|].
    inversion Hr as [E1 E2 E3|ts w0 t bytes Hr' E1 E2|ts w0 r0 t bytes cs r1 Hr' Hb' Hcs Hi E E1 E2]; subst; [done|by destruct ts..].
Qed.

(** The grammar could already go on before a reading it can go on from. *)
Lemma alive_back w rest bytes cs rest' : incomplete rest -> scalars cs -> rest ++ bytes = encode_all cs ++ rest' ->
  alive (w ++ (IChar <$> cs)) rest' -> alive w rest.
Proof.
  intros Hi Hcs E Ha. destruct (decide (rest = [])) as [->|Hne]; [by apply alive_viable in Ha as [γ Hγ]; eapply viable_prefix|].
  assert (exists c k γ, is_scalar c = true /\ k <> [] /\ encode_utf8 c = rest ++ k /\ viable g (w ++ [IChar c]) γ) as Hres;
    [|by destruct rest].
  destruct Hcs as [|c cs Hc Hcs].
  - cbn in E. subst rest'. rewrite app_nil_r in Ha.
    assert (rest ++ bytes <> []) as Hne' by by destruct rest. destruct (rest ++ bytes) as [|x l] eqn:El; [done|].
    destruct Ha as (c & k & γ & Hc & Hk & Ec & Hv). exists c, (bytes ++ k), γ. rewrite app_assoc, El.
    split; [done|]. split; [by intros [_ ?]%app_eq_nil | done].
  - rewrite encode_all_cons, <- app_assoc in E. apply alive_viable in Ha as [γ Hv].
    rewrite fmap_cons, cons_middle, app_assoc in Hv. apply viable_prefix in Hv as [δ Hv].
    apply app_eq_inv in E as [(k & -> & E2)|(k & E1 & E2)].
    + exfalso. destruct (classify_encode c Hc) as (x & r & Ee & Hcl). rewrite Ee in Hi. cbn in Hi. by rewrite (classify_app _ _ _ _ Hcl) in Hi.
    + exists c, k, δ. split; [done|]. split; [|done]. intros ->. rewrite app_nil_r in E1. subst rest.
      destruct (classify_encode c Hc) as (x & r & Ee & Hcl). rewrite Ee in Hi. cbn in Hi. congruence.
Qed.

Lemma takes_reads ts w b t bytes b' : reads ts w (pending_utf8 b) -> branch_ok w b -> takes b t bytes b' ->
  exists w', reads (ts ++ [(t, bytes)]) w' (pending_utf8 b') /\ branch_ok w' b' /\ alive w' (pending_utf8 b').
Proof using Hwf Hsets.
  intros Hr Hb [[Hp Ht]|[Hne Ht]].
  - pose proof (accept_input_spec w b (IToken t bytes) Hb) as Hs. cbn [accept_input] in Hs. rewrite Ht in Hs. destruct Hs as [Hb' Hp'].
    exists (w ++ [IToken t bytes]). rewrite Hp', Hp. rewrite Hp in Hr. split; [by constructor|]. split; [done | apply Hb'].
  - pose proof (accept_bytes_spec w b bytes Hb) as Hs. rewrite Ht in Hs. destruct Hs as (cs & Hcs & Hi & E & Hb' & Ha).
    exists (w ++ (IChar <$> cs)). split; [by eapply reads_bytes | done].
Qed.
Lemma reads_takes ts t bytes w' rest' : reads (ts ++ [(t, bytes)]) w' rest' -> alive w' rest' -> exists w rest,
  reads ts w rest /\ alive w rest /\ forall b, branch_ok w b -> pending_utf8 b = rest ->
  exists b', takes b t bytes b' /\ branch_ok w' b' /\ pending_utf8 b' = rest'.
Proof using Hwf Hsets.
  intros Hr Ha. inversion Hr as [E1 E2 E3|ts0 w t0 bytes0 Hr' E1 E2|ts0 w rest t0 bytes0 cs r1 Hr' Hne Hcs Hi E E1 E2].
  - by destruct ts.
  - apply app_inj_tail in E1 as [-> [= -> ->]]. subst rest' w'. exists w, []. split; [done|]. split; [by destruct Ha as [γ Hγ]; eapply viable_prefix|].
    intros b Hb Hp. pose proof (accept_input_spec w b (IToken t bytes) Hb) as Hs. cbn [accept_input] in Hs.
    destruct (accept_token_terminal g b t bytes) as [b'|] eqn:Et; [|by destruct Ha as [γ Hγ%Hs]].
    destruct Hs as [Hb' Hp']. exists b'. split; [by left|]. by rewrite Hp'.
  - apply app_inj_tail in E1 as [-> [= -> ->]]. subst r1 w'. exists w, rest. split; [done|].
    split; [eapply alive_back; try done; by eapply reads_incomplete|].
    intros b Hb <-. pose proof (accept_bytes_spec w b bytes Hb) as Hs.
    destruct (accept_bytes g b bytes) as [b'|] eqn:Et; [|exfalso; by eapply Hs].
    destruct Hs as (cs' & Hcs' & Hi' & E' & Hb' & Ha'). rewrite E in E'. apply encode_split_unique in E' as [<- Er]; try done.
    exists b'. split; [by right | done].
Qed.
Lemma tracks_step ts m t bytes : tracks ts m ->
  match accept_token m t bytes with
  | Some m' => tracks (ts ++ [(t, bytes)]) m'
  | None => forall w rest, reads (ts ++ [(t, bytes)]) w rest -> ~ alive w rest
  end.
Proof using Hwf Hsets.
  intros [Hg Hs Hc]. pose proof (accept_token_spec m t bytes Hg) as Ht. destruct (accept_token m t bytes) as [m'|].
  - destruct Ht as [Hg' Hbr]. split; [done| |].
    + intros b' (b & Hb & Htk)%Hbr. destruct (Hs b Hb) as (w & Hr & Hok & _). by eapply takes_reads.
    + intros w' rest' Hr Ha. destruct (reads_takes _ _ _ _ _ Hr Ha) as (w & rest & Hr0 & Ha0 & Htk).
      destruct (Hc w rest Hr0 Ha0) as (b & Hb & Hok & Hp). destruct (Htk b Hok Hp) as (b' & Hb' & Hok').
      exists b'. split; [apply Hbr; by exists b | done].
  - intros w' rest' Hr Ha. destruct (reads_takes _ _ _ _ _ Hr Ha) as (w & rest & Hr0 & Ha0 & Htk).
    destruct (Hc w rest Hr0 Ha0) as (b & Hb & Hok & Hp). destruct (Htk b Hok Hp) as (b' & Hb' & _). by eapply Ht.
Qed.
Lemma tracks_accepting ts m : tracks ts m ->
  is_accepting m = true <-> exists w, reads ts w [] /\ yields g (rhs (productions g !!! start_production g)) w.
Proof using Hwf.
  intros [Hg Hs Hc]. unfold is_accepting. rewrite Hg, existsb_exists. split.
  - intros (b & Hb%list_elem_of_In & H). bool_prop. destruct (Hs b Hb) as (w & Hr & [Hok _] & _).
    destruct (chart_last _ _ _ Hok) as (X & Hlast & _). unfold last_items in *. rewrite Hlast in *. cbn in *.
    exists w. split; [congruence|]. by eapply chart_accepting.
  - intros (w & Hr & Hy). destruct (Hc w [] Hr) as (b & Hb & [Hok _] & Hp); [exists []; by apply viable_accepting|].
    exists b. split; [by apply list_elem_of_In|]. rewrite !bool_decide_eq_true_2; [done| |done].
    destruct (chart_last _ _ _ Hok) as (X & Hlast & _). unfold last_items. rewrite Hlast. cbn. by eapply chart_accepting.
Qed.

Lemma tracks_pending ts m : tracks ts m ->
  has_pending_utf8 m = true <-> exists w rest, reads ts w rest /\ rest <> [] /\ alive w rest.
Proof.
  intros [Hg Hs Hc]. unfold has_pending_utf8. rewrite existsb_exists. split.
  - intros (b & Hb%list_elem_of_In & H). bool_prop. destruct (Hs b Hb) as (w & Hr & _ & Ha). by exists w, (pending_utf8 b).
  - intros (w & rest & Hr & Hne & Ha). destruct (Hc w rest Hr Ha) as (b & Hb & _ & <-). exists b.
    split; [by apply list_elem_of_In | by rewrite bool_decide_eq_false_2].
Qed.

(** ** Sequences of tokens. *)
Fixpoint accept_tokens m (ts : list (Z * str)) : option GrammarMatcher :=
  match ts with
  | [] => Some m
  | (t, bytes) :: ts => m ← accept_token m t bytes; accept_tokens m ts
  end.
Lemma reads_prefix ts ts' w rest : reads (ts ++ ts') w rest -> alive w rest -> exists w0 rest0, reads ts w0 rest0 /\ alive w0 rest0.
Proof using Hwf Hsets.
  revert w rest. induction ts' as [|[t bytes] ts' IH] using rev_ind; intros w rest; [rewrite app_nil_r; by exists w, rest|].
  rewrite app_assoc. intros Hr Ha. destruct (reads_takes _ _ _ _ _ Hr Ha) as (w0 & rest0 & Hr0 & Ha0 & _). by eapply IH.
Qed.
Lemma accept_tokens_spec ts0 ts m : tracks ts0 m ->
  match accept_tokens m ts with
  | Some m' => tracks (ts0 ++ ts) m'
  | None => forall w rest, reads (ts0 ++ ts) w rest -> ~ alive w rest
  end.
Proof using Hwf Hsets.
  revert ts0 m. induction ts as [|[t bytes] ts IH]; intros ts0 m Ht; cbn [accept_tokens]; [by rewrite app_nil_r|].
  pose proof (tracks_step _ _ t bytes Ht) as Hstep. rewrite cons_middle, app_assoc. destruct (accept_token m t bytes) as [m1|]; cbn.
  - by apply IH.
  - intros w rest Hr Ha. destruct (reads_prefix _ _ _ _ Hr Ha) as (w0 & rest0 & Hr0 & Ha0). by eapply Hstep.
Qed.
Lemma tracks_alive ts m : tracks ts m -> branches m <> [] -> exists w rest, reads ts w rest /\ alive w rest.
Proof.
  intros [Hg Hs Hc] Hne. destruct (branches m) as [|b bs] eqn:Eb; [done|].
  destruct (Hs b) as (w & Hr & _ & Ha); [rewrite ?Eb; apply elem_of_cons; by left|]. by exists w, (pending_utf8 b).
Qed.
Lemma accept_token_nonempty m t bytes m' : accept_token m t bytes = Some m' -> branches m' <> [].
Proof. unfold accept_token. destruct (foldl _ _ _); [done|]. by intros [= <-]. Qed.
Lemma accept_tokens_nonempty ts m m' : branches m <> [] -> accept_tokens m ts = Some m' -> branches m' <> [].
Proof.
  revert m. induction ts as [|[t bytes] ts IH]; intros m Hm; cbn; [by intros [= <-]|].
  intros (m1 & H1%accept_token_nonempty & H2)%bind_Some. by eapply IH.
Qed.
End Matcher.

(** C35. A matcher built from any grammar text admits a sequence of tokens exactly when some
    reading of it -- each token taken whole as a token terminal, or as bytes joined into
    characters with the bytes before it -- can be continued by the grammar, an unfinished
    character included; it is accepting exactly when some reading without unfinished
    characters is a sentence of the grammar, and reports pending bytes exactly when some
    continuable reading ends inside a character. *)
Theorem matcher_admits_readings text root m ts : matcher_parse text root = Ok m ->
  let g := grammar m in
  match accept_tokens m ts with
  | Some m' =>
      (exists w rest, reads ts w rest /\ alive g w rest) /\
      (is_accepting m' = true <-> exists w, reads ts w [] /\ yields g (rhs (productions g !!! start_production g)) w) /\
      (has_pending_utf8 m' = true <-> exists w rest, reads ts w rest /\ rest <> [] /\ alive g w rest)
  | None => forall w rest, reads ts w rest -> ~ alive g w rest
  end.
Proof.
  unfold matcher_parse. pose proof (parse_outcome text root) as Hp. destruct (parse text root) as [g|]; [|done]. intros [= <-].
  destruct Hp as (Hwf & Hsets & _). cbv zeta. change (grammar (matcher_start g)) with g.
  pose proof (accept_tokens_spec g Hwf Hsets [] ts _ (tracks_start g Hwf)) as Ht.
  pose proof (accept_tokens_nonempty ts (matcher_start g)) as Hne. destruct (accept_tokens (matcher_start g) ts) as [m'|]; [|exact Ht].
  split; [|split].
  - eapply tracks_alive; [exact Ht | by apply Hne].
  - by apply tracks_accepting.
  - by apply tracks_pending.
Qed.

(** A string in quotes, twice or more, then a token: the character is split between tokens. *)
Definition example_text : str := string_bytes "root ::= [^a-z] (<[7]> | .){1,2}".
Definition example_matcher : GrammarMatcher :=
  Eval vm_compute in match matcher_parse example_text (string_bytes "root") with Ok m => m | Err _ => mkMatcher (mkGrammar [] [] 0) [] end.
Definition example_tokens : list (Z * str) := [(3, [xc3]); (4, [xa9]); (7, [x41])].
Lemma matcher_admits_readings_witness :
  matcher_parse example_text (string_bytes "root") = Ok example_matcher /\
  exists m', accept_tokens example_matcher example_tokens = Some m' /\
  exists w, reads example_tokens w [] /\
    yields (grammar example_matcher) (rhs (productions (grammar example_matcher) !!! start_production (grammar example_matcher))) w.
Proof.
  assert (matcher_parse example_text (string_bytes "root") = Ok example_matcher) as E by (vm_compute; reflexivity).
  split; [exact E|]. pose proof (matcher_admits_readings _ _ _ example_tokens E) as H. cbv zeta in H.
  assert (match accept_tokens example_matcher example_tokens with Some m' => is_accepting m' | None => false end = true) as Ha by (vm_compute; reflexivity).
  destruct (accept_tokens example_matcher example_tokens) as [m'|]; [|discriminate Ha]. exists m'. split; [reflexivity|]. by apply H.
Defined.
