(* ===== verification/GrammarRepeat.v ===== *)
(** * Repetitions in the parser mean repetition.

    [repeat_rule] turns [x?], [x*], [x+] and [x{m,n}] into fresh rules; the rule it returns
    derives exactly the sequences of as many copies as the bounds allow. *)
From Stdlib Require Import Strings.Byte.
From stdpp Require Import pretty fin_maps.
From S2P Require Import Prelude Utf8 Utf8Scalar Grammar GrammarParser GrammarText GrammarClosure GrammarParserProofs GrammarLanguage.

(** ** Fresh rules. *)
#[global] Instance generated_name_inj : Inj (=) (=) generated_name.
Proof.
  intros m n E. unfold generated_name in E. apply string_bytes_inj in E. by apply (inj (String.append "__generated-")), pretty_nat_inj in E.
Qed.
(** No rule of the grammar is called like one the parser is still to make. *)
Definition unclaimed (p : Parser) : Prop := forall n, (generated p <= n)%nat -> names p !! generated_name n = None.

Lemma fresh_rule_unclaimed p : unclaimed p ->
  (fresh_rule p).1 = size (names p) /\ size (names (fresh_rule p).2) = S (size (names p)) /\
  prods (fresh_rule p).2 = prods p /\ unclaimed (fresh_rule p).2.
Proof.
  intros Hu. unfold fresh_rule, rule_id. cbn [names]. rewrite (Hu (generated p)) by lia. cbn.
  split; [done|]. split; [by rewrite map_size_insert_None by by apply Hu|]. split; [done|].
  intros n Hn. cbn in *. rewrite lookup_insert_ne; [apply Hu; lia|]. intros E%(inj generated_name). lia.
Qed.
Lemma unclaimed_push pr p : unclaimed p -> unclaimed (push_production pr p).
Proof. done. Qed.

(** The productions of a chain of [optional] optional copies from rule [tail], with rules from [n] on. *)
Fixpoint chain (body : list Symbol) (tail n optional : nat) : list Production :=
  match optional with
  | O => []
  | S rest => mkProduction tail [] :: mkProduction tail (match rest with O => body | S _ => body ++ [Rule n] end) :: chain body n (S n) rest
  end.
Lemma chain_fresh body m r α optional : (r < m)%nat -> mkProduction r α ∉ chain body m (S m) optional.
Proof.
  revert m. induction optional as [|l IHl]; intros m Hm; cbn; [apply not_elem_of_nil|].
  rewrite !not_elem_of_cons. split; [intros [= ? _]; lia|]. split; [intros [= ? _]; lia|]. apply IHl. lia.
Qed.
Lemma optional_tail_chain body optional : forall tail p, unclaimed p ->
  prods (optional_tail body tail optional p) = prods p ++ chain body tail (size (names p)) optional /\
  size (names (optional_tail body tail optional p)) = (size (names p) + (optional - 1))%nat.
Proof.
  induction optional as [|rest IH]; intros tail p Hu; cbn [optional_tail chain]; [rewrite app_nil_r; split; [done | lia]|].
  destruct rest as [|rest]; [cbn; rewrite <- app_assoc; split; [done | lia]|].
  destruct (fresh_rule_unclaimed (push_production (mkProduction tail []) p)) as (E1 & E2 & E3 & E4); [done|].
  destruct (fresh_rule _) as [next p2]. cbn [fst snd names push_production] in *. subst next.
  destruct (IH (size (names p)) (push_production (mkProduction tail (body ++ [Rule (size (names p))])) p2)) as [H1 H2]; [done|].
  change (names (push_production _ p2)) with (names p2) in H1, H2.
  rewrite H1, H2, E2. split; [|lia]. cbn [prods push_production]. rewrite E3. cbn. by rewrite <- !app_assoc.
Qed.

(** ** Derivations from a rule. *)
Section Language.
Context (g : Grammar).
Definition defines (r : nat) (α : list Symbol) : Prop := exists q, q ∈ by_lhs g !!! r /\ rhs (productions g !!! q) = α.
Lemma yields_one r v : yields g [Rule r] v <-> exists α, defines r α /\ yields g α v.
Proof.
  split.
  - intros Hy. inversion Hy as [|s i γ v' Hm Hy'|rule p γ v1 v2 Hp H1 H2]; subst; [done|]. inversion H2; subst. rewrite app_nil_r.
    exists (rhs (productions g !!! p)). split; [by exists p | done].
  - intros (α & (q & Hq & <-) & Hy). rewrite <- (app_nil_r v). by eapply yields_rule; [| |constructor].
Qed.
Lemma repeat_symbols_S body k : repeat_symbols body (S k) = body ++ repeat_symbols body k.
Proof. done. Qed.

Lemma chain_yields body optional : forall tail n, (0 < optional)%nat ->
  (forall r α, r = tail \/ (n <= r < n + (optional - 1))%nat -> defines r α <-> mkProduction r α ∈ chain body tail n optional) ->
  (tail < n)%nat ->
  forall v, yields g [Rule tail] v <-> exists k, (k <= optional)%nat /\ yields g (repeat_symbols body k) v.
Proof.
  induction optional as [|rest IH]; intros tail n Hpos Hdef Htail v; [lia|]. rewrite yields_one.
  assert (forall α, defines tail α <-> α = [] \/ α = match rest with O => body | S _ => body ++ [Rule n] end) as Htl.
  { intros α. rewrite Hdef by by left. cbn [chain]. rewrite !elem_of_cons. split.
    - intros [[= ->]|[[= ->]|Hin]]; [by left | by right|]. by apply chain_fresh in Hin.
    - intros [-> | ->]; [by left | right; by left]. }
  destruct rest as [|rest].
  - split.
    + intros (α & [-> | ->]%Htl & Hy); [exists 0%nat; split; [lia | done]|]. exists 1%nat. split; [lia|].
      rewrite repeat_symbols_S. cbn. by rewrite app_nil_r.
    + intros ([|[|k]] & Hk & Hy); [exists []; split; [apply Htl; by left | done]| |lia].
      exists body. split; [apply Htl; by right|]. rewrite repeat_symbols_S in Hy. cbn in Hy. by rewrite app_nil_r in Hy.
  - assert (forall v, yields g [Rule n] v <-> exists k, (k <= S rest)%nat /\ yields g (repeat_symbols body k) v) as Hnext.
    { apply (IH n (S n)); [lia| |lia]. intros r α Hr. rewrite Hdef by (right; lia). cbn [chain]. rewrite !elem_of_cons. split.
      - intros [[= -> _]|[[= -> _]|[H|[H|H]]]]; [lia | lia | by left | right; by left | right; by right].
      - intros [H|[H|H]]; [right; right; by left | right; right; right; by left | right; right; right; by right]. }
    split.
    + intros (α & [-> | ->]%Htl & Hy); [exists 0%nat; split; [lia | done]|].
      apply yields_app_inv in Hy as (v1 & v2 & -> & H1 & (k & Hk & H2)%Hnext). exists (S k). split; [lia|]. by apply yields_app.
    + intros ([|k] & Hk & Hy); [exists []; split; [apply Htl; by left | done]|]. rewrite repeat_symbols_S in Hy.
      apply yields_app_inv in Hy as (v1 & v2 & -> & H1 & H2). exists (body ++ [Rule n]). split; [apply Htl; by right|].
      apply yields_app; [done|]. apply Hnext. exists k. split; [lia | done].
Qed.
Lemma star_yields body tail : (forall α, defines tail α <-> α = [] \/ α = body ++ [Rule tail]) ->
  forall v, yields g [Rule tail] v <-> exists k, yields g (repeat_symbols body k) v.
Proof.
  intros Hdef v. split.
  - assert (forall γ v, yields g γ v -> forall α, γ = α ++ [Rule tail] ->
      exists v1 v2 k, v = v1 ++ v2 /\ yields g α v1 /\ yields g (repeat_symbols body k) v2) as H.
    { clear v. induction 1 as [|s i γ v Hm Hy IH|rule q γ va vb Hq Ha IHa Hb IHb]; intros α E.
      - by destruct α.
      - destruct α as [|s' α]; [by injection E as -> _|]. injection E as -> ->.
        destruct (IH α eq_refl) as (v1 & v2 & k & -> & H1 & H2). exists (i :: v1), v2, k. split; [done|]. by split; [constructor|].
      - destruct α as [|s' α].
        + injection E as -> ->. inversion Hb; subst. rewrite app_nil_r.
          destruct (proj1 (Hdef _) (ex_intro _ q (conj Hq eq_refl))) as [E|E].
          * rewrite E in Ha. exists [], va, 0%nat. split; [done|]. split; [constructor | done].
          * destruct (IHa _ E) as (v1 & v2 & k & -> & H1 & H2). exists [], (v1 ++ v2), (S k). split; [done|].
            split; [constructor|]. rewrite repeat_symbols_S. by apply yields_app.
        + injection E as <- ->. destruct (IHb α eq_refl) as (v1 & v2 & k & -> & H1 & H2).
          exists (va ++ v1), v2, k. rewrite app_assoc. split; [done|]. split; [by eapply yields_rule | done]. }
    intros Hy. destruct (H _ _ Hy [] eq_refl) as (v1 & v2 & k & -> & H1 & H2). inversion H1; subst. by exists k.
  - intros [k Hy]. revert v Hy. induction k as [|k IH]; intros v Hy; apply yields_one.
    + exists []. split; [apply Hdef; by left | done].
    + rewrite repeat_symbols_S in Hy. apply yields_app_inv in Hy as (v1 & v2 & -> & H1 & H2).
      exists (body ++ [Rule tail]). split; [apply Hdef; by right|]. apply yields_app; [done | by apply IH].
Qed.
End Language.

Lemma repeat_symbols_add body a b : repeat_symbols body (a + b) = repeat_symbols body a ++ repeat_symbols body b.
Proof. unfold repeat_symbols. by rewrite replicate_add, join_app. Qed.

(** A rule with the required copies, then what [tail] derives. *)
Lemma required_yields g rule body k0 tail (Q : nat -> Prop) :
  (forall α, defines g rule α <-> α = repeat_symbols body k0 ++ [Rule tail]) ->
  (forall v, yields g [Rule tail] v <-> exists k, Q k /\ yields g (repeat_symbols body k) v) ->
  forall v, yields g [Rule rule] v <-> exists k, (k0 <= k)%nat /\ Q (k - k0)%nat /\ yields g (repeat_symbols body k) v.
Proof.
  intros Hdef Htail v. rewrite yields_one. split.
  - intros (α & ->%Hdef & (v1 & v2 & -> & H1 & (k & Hk & H2)%Htail)%yields_app_inv). exists (k0 + k)%nat.
    split; [lia|]. split; [by replace (k0 + k - k0)%nat with k by lia|]. rewrite repeat_symbols_add. by apply yields_app.
  - intros (k & Hk & HQ & Hy). replace k with (k0 + (k - k0))%nat in Hy by lia. rewrite repeat_symbols_add in Hy.
    apply yields_app_inv in Hy as (v1 & v2 & -> & H1 & H2). eexists. split; [by apply Hdef|].
    apply yields_app; [done|]. apply Htail. by exists (k - k0)%nat.
Qed.

(** When no rule of the text is called like a generated one, the rule [repeat_rule]
    returns derives, in every grammar that defines the new rules as the parser left them,
    exactly the inputs that a number of copies of the body within the bounds derives: at
    least [minimum], and at most [maximum] where there is one. *)
Lemma repeat_rule_language p body minimum maximum rule p' g :
  parser_ok p -> unclaimed p -> 0 <= minimum -> repeat_rule body minimum maximum p = Ok (rule, p') ->
  (forall r α, (size (names p) <= r < size (names p'))%nat -> defines g r α <-> mkProduction r α ∈ prods p') ->
  forall v, yields g [Rule rule] v <->
    exists k, minimum <= Z.of_nat k /\ match maximum with Some maximum => Z.of_nat k <= maximum | None => True end /\
      yields g (repeat_symbols body k) v.
Proof.
  intros Hp Hu Hmin. unfold repeat_rule. destruct (_ || _) eqn:Eb; [done|].
  assert (forall r α, (size (names p) <= r)%nat -> mkProduction r α ∉ prods p) as Hold.
  { intros r α Hr Hin. pose proof (po_prods _ Hp) as Hps. rewrite Forall_forall in Hps. destruct (Hps _ Hin) as [H _]. cbn in H. lia. }
  destruct (fresh_rule_unclaimed p Hu) as (E1 & E2 & E3 & Hu1). destruct (fresh_rule p) as [rule0 p1]. cbn [fst snd] in *. subst rule0.
  set (n := size (names p)) in *. set (k0 := Z.to_nat minimum).
  destruct maximum as [maximum|]; [destruct (Nat.ltb_spec 0 (Z.to_nat (maximum - minimum))) as [Ho|Ho]|].
  - destruct (fresh_rule_unclaimed p1 Hu1) as (F1 & F2 & F3 & Hu2). destruct (fresh_rule p1) as [tail p2]. cbn [fst snd] in *. subst tail.
    rewrite E2 in *. set (o := Z.to_nat (maximum - minimum)) in *. destruct (optional_tail_chain body o (S n) p2 Hu2) as [C1 C2].
    intros [= <- <-] Hdef. cbn [prods push_production names] in Hdef. rewrite C1, C2, F2, F3, E3 in Hdef.
    intros v. rewrite (required_yields g n body k0 (S n) (fun k => (k <= o)%nat)).
    + apply exist_proper. intros k. unfold k0, o. split; intros (H1 & H2 & H3); (split; [lia|]); (split; [lia | done]).
    + intros α. rewrite Hdef by lia. rewrite !elem_of_app, list_elem_of_singleton. split.
      * intros [[H|H]|[= ->]]; [by apply Hold in H; [|lia] | by apply chain_fresh in H; [|lia] | done].
      * intros ->. by right.
    + apply chain_yields with (n := S (S n)); [done| |lia]. intros r α Hr. rewrite Hdef by lia.
      rewrite !elem_of_app, list_elem_of_singleton. split.
      * intros [[H|H]|[= ? _]]; [by apply Hold in H; [|lia] | done | lia].
      * intros H. by left; right.
  - intros [= <- <-] Hdef v. cbn [prods push_production names] in Hdef. rewrite E2, E3 in Hdef. rewrite yields_one.
    assert (forall α, defines g n α <-> α = repeat_symbols body k0) as Hn.
    { intros α. rewrite Hdef by lia. rewrite elem_of_app, list_elem_of_singleton. split; [|intros ->; by right].
      intros [H|[= ->]]; [by apply Hold in H; [|lia] | done]. }
    apply orb_false_iff in Eb as [_ Eb]. apply orb_false_iff in Eb as [Eb%Z.ltb_ge _]. split.
    + intros (α & ->%Hn & Hy). exists k0. unfold k0. split; [lia|]. split; [lia | done].
    + intros (k & H1 & H2 & Hy). assert (k = k0) as -> by (unfold k0; lia). exists (repeat_symbols body k0). split; [by apply Hn | done].
  - destruct (fresh_rule_unclaimed p1 Hu1) as (F1 & F2 & F3 & Hu2). destruct (fresh_rule p1) as [tail p2]. cbn [fst snd] in *. subst tail.
    rewrite E2 in *. intros [= <- <-] Hdef. cbn [prods push_production names] in Hdef. rewrite F2, F3, E3 in Hdef.
    intros v. rewrite (required_yields g n body k0 (S n) (fun _ => True)).
    + apply exist_proper. intros k. unfold k0. split; intros (H1 & H2 & H3); (split; [lia | done]).
    + intros α. rewrite Hdef by lia. rewrite !elem_of_app, !list_elem_of_singleton. split; [|intros ->; by right].
      intros [[[H|[= ? _]]|[= ? _]]|[= ->]]; [by apply Hold in H; [|lia] | lia | lia | done].
    + intros v'. rewrite (star_yields g body (S n)); [split; [intros [k Hk]; by exists k | intros (k & _ & Hk); by exists k]|].
      intros α. rewrite Hdef by lia. rewrite !elem_of_app, !list_elem_of_singleton. split.
      * intros [[[H|[= ->]]|[= ->]]|[= ? _]]; [by apply Hold in H; [|lia] | by left | by right | lia].
      * intros [-> | ->]; [left; left; by right | left; by right].
Qed.

(** The index [parse] builds defines each rule by its own productions. *)
Lemma defines_index n ps start r α : Forall (fun pr => (lhs pr < n)%nat) ps ->
  defines (mkGrammar ps (index_productions n ps) start) r α <-> mkProduction r α ∈ ps.
Proof.
  intros Hps. unfold defines. cbn [by_lhs productions]. split.
  - intros (q & (pr & Hq & <-)%elem_of_index_productions & <-); [|done]. rewrite (list_lookup_total_correct _ _ _ Hq).
    apply list_elem_of_lookup_2 in Hq. by destruct pr.
  - intros [q Hq]%list_elem_of_lookup. exists q. split; [apply elem_of_index_productions; [done|]; by exists (mkProduction r α)|].
    by rewrite (list_lookup_total_correct _ _ _ Hq).
Qed.
Definition example_body : list Symbol := [Character (CharSet_one 97)].
Definition example_repeated : nat * Parser :=
  Eval vm_compute in match repeat_rule example_body 2 (Some 4) (Parser_new []) with Ok r => r | Err _ => (0%nat, Parser_new []) end.
Definition example_repeat_grammar : Grammar :=
  mkGrammar (prods example_repeated.2) (index_productions 3 (prods example_repeated.2)) 0.
Lemma example_repeat_language :
  repeat_rule example_body 2 (Some 4) (Parser_new []) = Ok example_repeated /\
  forall v, yields example_repeat_grammar [Rule example_repeated.1] v <->
    exists k, 2 <= Z.of_nat k /\ Z.of_nat k <= 4 /\ yields example_repeat_grammar (repeat_symbols example_body k) v.
Proof.
  assert (repeat_rule example_body 2 (Some 4) (Parser_new []) = Ok example_repeated) as E by (vm_compute; reflexivity).
  split; [exact E|]. apply (repeat_rule_language (Parser_new []) example_body 2 (Some 4) _ example_repeated.2).
  - split; cbn; [lia| |constructor]. intros id. rewrite map_size_empty. split; [lia|]. by intros [t Ht].
  - intros n _. done.
  - lia.
  - exact E.
  - intros r α _. apply defines_index. by repeat (constructor; [cbn; lia|]); constructor.
Defined.
