(* ===== verification/GrammarQuote.v ===== *)
(** * Quoted literals read back.

    The schema compiler writes literal text into a grammar with [quoted_literal]; the parser's
    [literal] returns exactly its characters. *)
From Stdlib Require Import Strings.Byte.
From S2P Require Import Prelude Utf8 Utf8Scalar Grammar GrammarParser GrammarParserProofs.

Lemma skip_skip a b p : skip a (skip b p) = skip (b + a) p.
Proof. unfold skip. cbn. f_equal. lia. Qed.
Lemma skip_0 p : skip 0 p = p.
Proof. destruct p. unfold skip. cbn. by rewrite Nat.add_0_r. Qed.
Lemma rest_skip a b p : rest p = a ++ b -> rest (skip (length a) p) = b.
Proof. unfold rest. cbn. intros E. by rewrite <- drop_drop, E, drop_app_length. Qed.
Lemma peek_rest p : peek p = head (rest p).
Proof. unfold peek, rest. by rewrite head_lookup, lookup_drop, Nat.add_0_r. Qed.

(** Only the five escaped characters, and the other ASCII ones, start with an ASCII byte. *)
Lemma encode_ascii_head c b r : is_scalar c = true -> encode_utf8 c = b :: r -> Z_of_byte b < 128 -> encode_utf8 c = [b].
Proof.
  intros Hc E Hb. destruct (classify_encode c Hc) as (b' & r' & E' & Hcl). rewrite E' in E. injection E as -> ->.
  rewrite classify_ascii in Hcl by lia. injection Hcl as Hl. rewrite E' in Hl |- *. destruct r; [done | simpl in Hl; lia].
Qed.
Lemma utf8_valid_one c : is_scalar c = true -> utf8_valid (encode_utf8 c) = true.
Proof. intros Hc. unfold utf8_valid. by rewrite chunks_encode. Qed.

(** One written character is read as itself. *)
Lemma codepoint_quoted c tail p : is_scalar c = true -> utf8_valid tail = true ->
  rest p = quoted_character (encode_utf8 c) ++ tail ->
  peek_is x22 p = false /\ match peek p with Some b => is_newline b | None => true end = false /\
  codepoint p = Ok (c, skip (length (quoted_character (encode_utf8 c))) p).
Proof.
  intros Hc Ht Er.
  assert (forall e v, quoted_character (encode_utf8 c) = [x5c; e] -> encode_utf8 c = [v] ->
    codepoint p = Ok (Z_of_byte v, skip 2 p) -> peek_is x22 p = false /\
    match peek p with Some b => is_newline b | None => true end = false /\
    codepoint p = Ok (c, skip (length (quoted_character (encode_utf8 c))) p)) as Hesc.
  { intros e v Eq Ev Ecp. rewrite Eq in Er |- *. unfold peek_is. rewrite peek_rest, Er. cbn. rewrite Ecp.
    by rewrite <- (code_point_encode c Hc), Ev. }
  assert (forall e, rest p = [x5c; e] ++ tail -> peek p = Some x5c /\ peek (skip 1 p) = Some e) as Hpk.
  { intros e E. split; [by rewrite peek_rest, E|]. rewrite peek_rest. rewrite (rest_skip [x5c] (e :: tail)); done. }
  unfold quoted_character in *.
  repeat (let Ebs := fresh "Ebs" in case_bool_decide as Ebs; [eapply Hesc; [reflexivity | exact Ebs|]; destruct (Hpk _ Er) as [P1 P2];
    unfold codepoint, peek_is; rewrite P1, P2; cbn [ok_or]; rewrite skip_skip; reflexivity|]).
  clear Hesc Hpk. destruct (classify_encode c Hc) as (b & r & Ee & Hcl). pose proof Er as Er'. rewrite Ee in Er'.
  assert (forall v, Z_of_byte v < 128 -> encode_utf8 c <> [v] -> b <> v) as Hne.
  { intros v Hv Hn ->. apply Hn. by eapply encode_ascii_head. }
  assert (peek p = Some b) as Hpk by (by rewrite peek_rest, Er'). unfold codepoint, peek_is, is_newline, is_byte. rewrite Hpk.
  assert (b <> x5c /\ b <> x22 /\ b <> x0a /\ b <> x0d) as (N1 & N2 & N3 & N4) by (repeat split; by apply Hne).
  rewrite !bool_decide_eq_false_2 by congruence.
  split; [done|]. split; [done|].
  assert (utf8_valid (rest p) = true) as -> by (rewrite Er, utf8_valid_app; [done | by apply utf8_valid_one]).
  rewrite Er, chars_app by by apply utf8_valid_one. unfold chars at 1. rewrite chunks_encode by done. cbn.
  by rewrite code_point_encode.
Qed.

Lemma literal_loop_quoted cs : forall fuel output k p, scalars cs -> utf8_valid k = true -> (length cs < fuel)%nat ->
  rest p = mjoin (quoted_character <$> (encode_utf8 <$> cs)) ++ x22 :: k ->
  literal_loop fuel output p = Ok (output ++ ((fun c => Character (CharSet_one c)) <$> cs),
    skip (S (length (mjoin (quoted_character <$> (encode_utf8 <$> cs))))) p).
Proof.
  induction cs as [|c cs IH]; intros fuel output k p Hcs Hk Hf Er; (destruct fuel as [|fuel]; [cbn in Hf; lia|]); cbn [literal_loop].
  - unfold peek_is. rewrite peek_rest, Er. cbn. by rewrite app_nil_r.
  - apply Forall_cons in Hcs as [Hc Hcs]. rewrite 2!fmap_cons, mjoin_cons, <- app_assoc in Er. rewrite !fmap_cons, mjoin_cons.
    assert (utf8_valid (mjoin (quoted_character <$> (encode_utf8 <$> cs)) ++ x22 :: k) = true) as Ht.
    { clear -Hcs Hk. induction Hcs as [|c cs Hc Hcs IH]; [change (utf8_valid ([x22] ++ k) = true); by rewrite utf8_valid_app|].
      rewrite !fmap_cons, mjoin_cons, <- app_assoc, utf8_valid_app; [exact IH|]. unfold quoted_character.
      repeat case_bool_decide; try done. by apply utf8_valid_one. }
    destruct (codepoint_quoted c _ p Hc Ht Er) as (E1 & E2 & E3). rewrite E1, E2, E3. rewrite (IH fuel _ k); [|done|done|cbn in Hf; lia|by apply rest_skip in Er].
    rewrite <- app_assoc, skip_skip, length_app, Nat.add_succ_r. done.
Qed.

(** Whatever text the schema compiler quotes, the parser's [literal] reads it back: one
    single-character set for each of its characters, in order, leaving the position behind
    the closing quote. *)
Theorem quoted_literal_reads_back value k p : utf8_valid value = true -> utf8_valid k = true ->
  rest p = quoted_literal value ++ k ->
  literal p = Ok ((fun c => Character (CharSet_one (code_point c))) <$> chars value, skip (length (quoted_literal value)) p).
Proof.
  intros (cs & Hcs & ->)%valid_encode_all Hk Er. unfold quoted_literal, literal in *.
  assert (chars (encode_all cs) = encode_utf8 <$> cs) as Ech.
  { unfold chars. rewrite <- (app_nil_r (encode_all cs)), chunks_encode_all by done. cbn. rewrite app_nil_r.
    clear. induction cs as [|c cs IH]; [done|]. cbn. by f_equal. }
  rewrite Ech in *. pose proof (f_equal length Er) as El. rewrite length_rest in El.
  assert (rest (skip 1 p) = mjoin (quoted_character <$> (encode_utf8 <$> cs)) ++ x22 :: k) as Er1.
  { apply (rest_skip [x22]). rewrite Er. cbn. by rewrite <- app_assoc. }
  assert (length cs <= length (mjoin (quoted_character <$> (encode_utf8 <$> cs))))%nat as Hlen.
  { clear -Hcs. induction Hcs as [|c cs Hc Hcs IH]; [done|]. rewrite !fmap_cons, mjoin_cons, length_app. cbn [length].
    assert (1 <= length (quoted_character (encode_utf8 c)))%nat; [|lia]. unfold quoted_character. repeat case_bool_decide; cbn; try lia.
    destruct (classify_encode c Hc) as (b & r & -> & _). cbn. lia. }
  erewrite literal_loop_quoted; [|done|exact Hk| |exact Er1]; [|rewrite length_app in El; cbn in El; rewrite length_app in El; lia].
  rewrite skip_skip, <- list_fmap_compose. cbn [app]. f_equal. f_equal.
  - clear -Hcs. induction Hcs as [|c cs Hc Hcs IH]; [done|]. cbn. by rewrite IH, code_point_encode.
  - f_equal. cbn. rewrite length_app. cbn. lia.
Qed.
Lemma quoted_literal_reads_back_witness :
  let value := [x22; xc3; xa9; x0a] in let p := Parser_new (quoted_literal value ++ [" "%byte]) in
  literal p = Ok ((fun c => Character (CharSet_one (code_point c))) <$> chars value, skip (length (quoted_literal value)) p).
Proof. cbv zeta. apply (quoted_literal_reads_back _ [" "%byte]); vm_compute; reflexivity. Defined.
