(* ===== verification/Schema.v ===== *)
(** * The JSON-schema compiler.

    Models [json_schema_to_gbnf] of [crates/muser-server/src/grammar.rs]: [SchemaGrammar] and its
    rules for references, unions, intersections, strings, integers, objects and arrays, the
    decimal ranges, the keys an object excludes, and patterns.  The result is grammar text for
    [GrammarParser].  A schema is serde's [Value]; its writer [serde_json::to_string] is the class
    [JsonText].  [schema_rule] takes fuel because a schema can refer to itself: [Exhausted] is no
    error of the code, which has only its stack. *)
From Stdlib Require Import Strings.Byte.
From S2P Require Import Prelude Utf8 Substring GrammarParser.

(** ** JSON values, as serde has them; an object keeps the order of its keys. *)
Inductive Number : Type := PosInt (n : Z) | NegInt (n : Z) | Float (bits : Z).
Inductive Value : Type :=
| VNull
| VBool (b : bool)
| VNumber (n : Number)
| VString (s : str)
| VArray (l : list Value)
| VObject (m : list (str * Value)).
Class JsonText : Type := { to_json : Value -> str }.

Definition I64_MAX : Z := 2 ^ 63 - 1.
Definition I64_MIN : Z := - 2 ^ 63.
Definition as_i64 (v : Value) : option Z :=
  match v with
  | VNumber (PosInt n) => if n <=? I64_MAX then Some n else None
  | VNumber (NegInt n) => Some n
  | _ => None
  end.
Definition as_u64 (v : Value) : option Z := match v with VNumber (PosInt n) => Some n | _ => None end.
Definition as_str (v : Value) : option str := match v with VString s => Some s | _ => None end.
Definition as_array (v : Value) : option (list Value) := match v with VArray l => Some l | _ => None end.
Definition as_object (v : Value) : option (list (str * Value)) := match v with VObject m => Some m | _ => None end.

Fixpoint map_get {A} (key : str) (m : list (str * A)) : option A :=
  match m with
  | (k, v) :: m => if bool_decide (k = key) then Some v else map_get key m
  | [] => None
  end.
(** [Map::insert]: a key that is there keeps its place. *)
Fixpoint map_insert {A} (key : str) (value : A) (m : list (str * A)) : list (str * A) :=
  match m with
  | (k, v) :: m => if bool_decide (k = key) then (k, value) :: m else (k, v) :: map_insert key value m
  | [] => [(key, value)]
  end.
Definition get (key : string) (v : Value) : option Value :=
  match v with VObject m => map_get (string_bytes key) m | _ => None end.
Definition has (key : string) (v : Value) : bool := bool_decide (get key v <> None).
Definition get_str (key : string) (v : Value) : option str := v ← get key v; as_str v.
Definition get_array (key : string) (v : Value) : option (list Value) := v ← get key v; as_array v.
Definition get_i64 (key : string) (v : Value) : option Z := v ← get key v; as_i64 v.
Definition get_u64 (key : string) (v : Value) : option Z := v ← get key v; as_u64 v.

#[global] Instance Value_inhabited : Inhabited Value := populate VNull.
Definition is_zero_float (bits : Z) : bool := bits mod 2 ^ 63 =? 0.
Definition number_eqb (a b : Number) : bool :=
  match a, b with
  | PosInt a, PosInt b | NegInt a, NegInt b => a =? b
  | Float a, Float b => (a =? b) || (is_zero_float a && is_zero_float b)
  | _, _ => false
  end.
(** [Value]'s equality: the order of an object's keys does not matter. *)
Fixpoint value_eqb (a b : Value) : bool :=
  match a, b with
  | VNull, VNull => true
  | VBool a, VBool b => Bool.eqb a b
  | VNumber a, VNumber b => number_eqb a b
  | VString a, VString b => bool_decide (a = b)
  | VArray a, VArray b =>
      (fix all (a b : list Value) : bool :=
         match a, b with
         | [], [] => true
         | x :: a, y :: b => value_eqb x y && all a b
         | _, _ => false
         end) a b
  | VObject a, VObject b =>
      (length a =? length b)%nat &&
      (fix all (a : list (str * Value)) : bool :=
         match a with
         | [] => true
         | (k, x) :: a => match map_get k b with Some y => value_eqb x y | None => false end && all a
         end) a
  | _, _ => false
  end.

(** ** Text. *)
(** Grammar text; an apostrophe stands for a quote. *)
Definition gbnf (text : string) : str := (fun b => if bool_decide (b = "'"%byte) then x22 else b) <$> string_bytes text.
Definition digit_byte (d : Z) : byte := byte_of_Z (0x30 + d).
Fixpoint decimal_digits (fuel : nat) (n : Z) : str :=
  match fuel with
  | O => []
  | S fuel => if n <? 10 then [digit_byte n] else decimal_digits fuel (n / 10) ++ [digit_byte (n mod 10)]
  end.
(** [to_string] of an unsigned integer; 20 digits are enough for 64 bits. *)
Definition to_decimal (n : Z) : str := decimal_digits 20 n.
#[global] Arguments to_decimal : simpl never.
#[global] Arguments gbnf : simpl never.
(** [join(separator)]. *)
Fixpoint join (separator : str) (l : list str) : str :=
  match l with
  | [] => []
  | [x] => x
  | x :: l => x ++ separator ++ join separator l
  end.
Fixpoint str_ltb (a b : str) : bool :=
  match a, b with
  | _, [] => false
  | [], _ => true
  | x :: a, y :: b => (Z_of_byte x <? Z_of_byte y) || ((Z_of_byte x =? Z_of_byte y) && str_ltb a b)
  end.
(** [BTreeMap::insert]. *)
Fixpoint btree_insert {A} (key : str) (value : A) (m : list (str * A)) : list (str * A) :=
  match m with
  | (k, v) :: m' =>
      if bool_decide (k = key) then (key, value) :: m'
      else if str_ltb key k then (key, value) :: m else (k, v) :: btree_insert key value m'
  | [] => [(key, value)]
  end.
(** A set of strings, sorted. *)
Definition sorted_set (l : list str) : list str := (foldl (fun m s => btree_insert s tt m) [] l).*1.

Inductive SchemaError : Type := SchemaMessage (text : string) | Exhausted.
Abbreviation checked A := (result SchemaError A).
Definition refuse {A} (text : string) : checked A := Err (SchemaMessage text).
(** No scalar value is outside this class. *)
Definition NOTHING : str := gbnf "[^\U00000000-\uD7FF\uE000-\U0010FFFF]".

(** ** Decimal ranges. *)
Definition all_bytes (b : byte) (s : str) : bool := forallb (is_byte b) s.
Definition counted_digits (count : nat) : str := gbnf "[0-9]{" ++ to_decimal (Z.of_nat count) ++ gbnf "}".
Definition digits_suffix (count : nat) : str :=
  match count with O => [] | 1%nat => gbnf " [0-9]" | _ => gbnf " " ++ counted_digits count end.
(** The first digit and zeros, up to nines. *)
Definition is_leading_one (lower upper : str) : bool :=
  match lower with b :: zeros => is_byte "1" b && all_bytes "0" zeros && all_bytes "9" upper | [] => false end.
Fixpoint common_prefix (a b : str) : nat :=
  match a, b with
  | x :: a, y :: b => if bool_decide (x = y) then S (common_prefix a b) else 0%nat
  | _, _ => 0%nat
  end.
Fixpoint same_width_decimal_range (fuel : nat) (lower upper : str) : checked str :=
  match fuel with
  | O => Err Exhausted
  | S fuel =>
      if negb (length lower =? length upper)%nat || str_ltb upper lower then refuse "decimal range endpoints differ in width or order"
      else if bool_decide (lower = upper) then Ok (quoted_literal lower)
      else if all_bytes "0" lower && all_bytes "9" upper
      then Ok (match length lower with 1%nat => gbnf "[0-9]" | count => counted_digits count end)
      else if is_leading_one lower upper
      then Ok (match length lower with
               | 1%nat => gbnf "[1-9]"
               | 2%nat => gbnf "[1-9] [0-9]"
               | count => gbnf "[1-9] " ++ counted_digits (count - 1)
               end)
      else
        let common := common_prefix lower upper in
        let prefix := take common lower in
        match drop common lower, drop common upper with
        | lower_digit :: low_suffix, upper_digit :: high_suffix =>
            let remaining := length low_suffix in
            let? low := if (remaining =? 0)%nat then Ok []
                        else same_width_decimal_range fuel low_suffix (replicate remaining "9"%byte) in
            let? high := if (remaining =? 0)%nat then Ok []
                         else same_width_decimal_range fuel (replicate remaining "0"%byte) high_suffix in
            let middle :=
              if Z_of_byte lower_digit + 1 <? Z_of_byte upper_digit
              then [gbnf "[" ++ [byte_of_Z (Z_of_byte lower_digit + 1)] ++ gbnf "-"
                    ++ [byte_of_Z (Z_of_byte upper_digit - 1)] ++ gbnf "]" ++ digits_suffix remaining]
              else [] in
            let choices := [quoted_literal [lower_digit] ++ gbnf " " ++ low] ++ middle
                           ++ [quoted_literal [upper_digit] ++ gbnf " " ++ high] in
            let body := gbnf "(" ++ join (gbnf " | ") choices ++ gbnf ")" in
            Ok (match prefix with [] => body | _ => quoted_literal prefix ++ gbnf " " ++ body end)
        | _, _ => refuse "index out of bounds"
        end
  end.

Definition MAX_PINNED_INTEGER : Z := 9999999999999999.
Definition checked_pow10 (w : Z) (exponent : nat) : option Z :=
  if 10 ^ Z.of_nat exponent <? 2 ^ w then Some (10 ^ Z.of_nat exponent) else None.
(** The ranges of each number of digits, one after the other. *)
Definition range_of_width (minimum : Z) (maximum : option Z) (digits : nat) : checked (list str) :=
  let? floor := if (digits =? 1)%nat then Ok 0 else ok_or (checked_pow10 64 (digits - 1)) (SchemaMessage "integer bound is too wide") in
  let? above := ok_or (checked_pow10 64 digits) (SchemaMessage "integer bound is too wide") in
  let ceiling := above - 1 in
  let lower := Z.max minimum floor in
  let upper := Z.min (default ceiling maximum) ceiling in
  if lower <=? upper then
    let? text := same_width_decimal_range (S (length (to_decimal lower))) (to_decimal lower) (to_decimal upper) in Ok [text]
  else Ok [].
Definition decimal_range_gbnf (minimum maximum : option Z) : checked str :=
  let minimum := default 0 minimum in
  if match maximum with Some maximum => maximum <? minimum | None => false end then refuse "descending integer range"
  else if MAX_PINNED_INTEGER <? minimum then refuse "integer bound exceeds pinned 16-digit grammar"
  else
    let maximum := (fun value => Z.min value MAX_PINNED_INTEGER) <$> maximum in
    let minimum_digits := length (to_decimal minimum) in
    let maximum_digits := match maximum with Some value => length (to_decimal value) | None => 16%nat end in
    let? alternatives := traverse (range_of_width minimum maximum) (seq minimum_digits (S maximum_digits - minimum_digits)) in
    match mjoin alternatives with
    | [] => refuse "integer range has no pinned 16-digit values"
    | alternatives => Ok (join (gbnf " | ") alternatives)
    end.
Definition bounded_integer_gbnf (minimum maximum : option Z) : checked str :=
  let? negative :=
    if match minimum with Some value => value <? 0 | None => true end then
      let smallest_abs := match maximum with Some maximum => if maximum <? 0 then - maximum else 0 | None => 0 end in
      let largest_abs := match minimum with Some value => if value <? 0 then Some (- value) else None | None => None end in
      let? magnitude := decimal_range_gbnf (Some smallest_abs) largest_abs in
      Ok [gbnf "'-' (" ++ magnitude ++ gbnf ")"]
    else Ok [] in
  let? positive :=
    if match maximum with Some value => 0 <=? value | None => true end then
      let lower := match minimum with Some value => Z.max value 0 | None => 0 end in
      let upper := match maximum with Some value => if 0 <=? value then Some value else None | None => None end in
      let? text := decimal_range_gbnf (Some lower) upper in
      Ok [text]
    else Ok [] in
  match negative ++ positive with
  | [] => refuse "integer range has no values"
  | alternatives => Ok (join (gbnf " | ") alternatives)
  end.

Definition BOUND_KEYWORDS : list string := ["minimum"; "maximum"; "exclusiveMinimum"; "exclusiveMaximum"]%string.
Definition or_else {A} (o o' : option A) : option A := match o with Some _ => o | None => o' end.
Definition integer_minimum (schema : Value) : option Z :=
  or_else (get_i64 "minimum" schema) (v ← get_i64 "exclusiveMinimum" schema; if v =? I64_MAX then None else Some (v + 1)).
Definition integer_maximum (schema : Value) : option Z :=
  or_else (get_i64 "maximum" schema) (v ← get_i64 "exclusiveMaximum" schema; if v =? I64_MIN then None else Some (v - 1)).
Definition integer_rule (schema : Value) : checked str :=
  if existsb (fun keyword => match get keyword schema with Some v => bool_decide (as_i64 v = None) | None => false end) BOUND_KEYWORDS
  then refuse "integer JSON Schema keyword must be an int64"
  else
    let minimum := integer_minimum schema in
    let maximum := integer_maximum schema in
    if match minimum, maximum with Some a, Some b => b <? a | _, _ => false end then Ok NOTHING
    else match minimum, maximum with
         | None, None => Ok (gbnf "integer")
         | _, _ => let? text := bounded_integer_gbnf minimum maximum in Ok (gbnf "(" ++ text ++ gbnf ")")
         end.

(** ** Patterns. *)
Definition character (c : string) : str := string_bytes c.
Definition is_char (c : string) (ch : str) : bool := bool_decide (ch = character c).
Definition is_digit_char (ch : str) : bool := match ch with [b] => is_digit b | _ => false end.
(** A class, from behind its bracket to the first bracket that is not escaped. *)
Fixpoint take_class (class : str) (escaped : bool) (cs : list str) : option (str * list str) :=
  match cs with
  | [] => None
  | next :: cs =>
      if is_char "]" next && negb escaped then Some (class ++ next, cs)
      else take_class (class ++ next) (is_char "\" next && negb escaped) cs
  end.
(** A repetition, from behind its brace, and whether it is closed. *)
Fixpoint take_repetition (repetition : str) (cs : list str) : checked (str * list str) :=
  match cs with
  | [] => refuse "unterminated JSON Schema pattern repetition"
  | next :: cs =>
      if is_char "}" next then Ok (repetition, cs)
      else if negb (is_digit_char next) && negb (is_char "," next) then refuse "invalid JSON Schema pattern repetition"
      else take_repetition (repetition ++ next) cs
  end.
Fixpoint split_once (separator : byte) (s : str) : option (str * str) :=
  match s with
  | [] => None
  | b :: s =>
      if bool_decide (b = separator) then Some ([], s)
      else '(before, after) ← split_once separator s; Some (b :: before, after)
  end.
Definition valid_bounds (bounds : str) : bool :=
  match split_once ","%byte bounds with
  | Some (minimum, maximum) => bool_decide (minimum <> []) && forallb is_digit minimum && forallb is_digit maximum
  | None => bool_decide (bounds <> []) && forallb is_digit bounds
  end.
Definition escaped_pattern (escaped : str) : str :=
  if is_char "d" escaped then gbnf "[0-9]"
  else if is_char "D" escaped then gbnf "[^0-9]"
  else if is_char "s" escaped then gbnf "[ \t\n\r]"
  else if is_char "S" escaped then gbnf "[^ \t\n\r]"
  else if is_char "w" escaped then gbnf "[A-Za-z0-9_]"
  else if is_char "W" escaped then gbnf "[^A-Za-z0-9_]"
  else if is_char "n" escaped then quoted_literal [x0a]
  else if is_char "r" escaped then quoted_literal [x0d]
  else if is_char "t" escaped then quoted_literal [x09]
  else quoted_literal escaped.
Fixpoint regex_loop (fuel : nat) (output : list str) (cs : list str) : checked (list str) :=
  match fuel, cs with
  | _, [] => Ok output
  | O, _ => Err Exhausted
  | S fuel, c :: cs =>
      if is_char "\" c then
        match cs with
        | [] => refuse "pattern ends in backslash"
        | escaped :: cs => regex_loop fuel (output ++ [escaped_pattern escaped]) cs
        end
      else if is_char "[" c then
        match take_class (character "[") false cs with
        | None => refuse "unterminated JSON Schema pattern character class"
        | Some (class, cs) => regex_loop fuel (output ++ [class]) cs
        end
      else if is_char "(" c then
        match cs with
        | q :: after =>
            if is_char "?" q then
              match after with
              | colon :: after =>
                  if is_char ":" colon then regex_loop fuel (output ++ [gbnf "("]) after
                  else refuse "only noncapturing (?:...) pattern groups are supported"
              | [] => refuse "only noncapturing (?:...) pattern groups are supported"
              end
            else regex_loop fuel (output ++ [gbnf "("]) cs
        | [] => regex_loop fuel (output ++ [gbnf "("]) cs
        end
      else if is_char "{" c then
        let? (bounds, cs) := take_repetition [] cs in
        if negb (valid_bounds bounds) || bool_decide (output = []) then refuse "invalid JSON Schema pattern repetition"
        else regex_loop fuel (output ++ [gbnf "{" ++ bounds ++ gbnf "}"]) cs
      else if existsb (fun k => is_char k c) [")"; "|"; "?"; "*"; "+"]%string then regex_loop fuel (output ++ [c]) cs
      else if is_char "." c then regex_loop fuel (output ++ [gbnf "regex-dot"]) cs
      else regex_loop fuel (output ++ [quoted_literal c]) cs
  end.
Definition regex_pattern_to_gbnf (pattern : str) : checked str :=
  let anchored_start := starts_with (character "^") pattern in
  let anchored_end := ends_with (character "$") pattern && negb (ends_with (character "\$") pattern) in
  let start := if anchored_start then 1%nat else 0%nat in
  let end_ := (length pattern - if anchored_end then 1 else 0)%nat in
  let body := chars (drop start (take end_ pattern)) in
  let? output := regex_loop (length body) [] body in
  let expression := gbnf "(" ++ join (gbnf " ") output ++ gbnf ")" in
  Ok (match anchored_start, anchored_end with
      | true, true => expression
      | true, false => gbnf "(" ++ expression ++ gbnf " json-character*)"
      | false, true => gbnf "(json-character* " ++ expression ++ gbnf ")"
      | false, false => gbnf "(json-character* " ++ expression ++ gbnf " json-character*)"
      end).

(** ** Strings. *)
Definition format_rule (format : str) : str :=
  if existsb (fun kind => bool_decide (format = character kind)) ["uuid"; "uuid1"; "uuid2"; "uuid3"; "uuid4"; "uuid5"]%string
  then gbnf "'\'' [0-9a-fA-F]{8} '-' [0-9a-fA-F]{4} '-' [0-9a-fA-F]{4} '-' [0-9a-fA-F]{4} '-' [0-9a-fA-F]{12} '\''"
  else if bool_decide (format = character "date") then gbnf "'\'' date-value '\''"
  else if bool_decide (format = character "time") then gbnf "'\'' time-value '\''"
  else if bool_decide (format = character "date-time") then gbnf "'\'' date-value 'T' time-value '\''"
  else gbnf "string".
(** The bounds of a length: at most 2000, the default of the lower one zero. *)
Definition bounds (minimum_key maximum_key : string) (schema : Value) : option (Z * option Z) :=
  let minimum := default 0 (get_u64 minimum_key schema) in
  let maximum := get_u64 maximum_key schema in
  if (2000 <? minimum) || match maximum with Some value => (2000 <? value) || (value <? minimum) | None => false end then None
  else Some (minimum, maximum).
Definition string_rule (schema : Value) : checked str :=
  let has_length := has "minLength" schema || has "maxLength" schema in
  if has_length && (has "pattern" schema || has "format" schema)
  then refuse "combined JSON Schema pattern/format and length constraints are unsupported"
  else match get_str "pattern" schema with
  | Some pattern => let? body := regex_pattern_to_gbnf pattern in Ok (gbnf "'\'' " ++ body ++ gbnf " '\''")
  | None =>
      match get_str "format" schema with
      | Some format => Ok (format_rule format)
      | None =>
          let? (minimum, maximum) := ok_or (bounds "minLength" "maxLength" schema)
                                           (SchemaMessage "invalid or excessive JSON Schema string length bounds") in
          let repetition :=
            match maximum with
            | Some maximum => if maximum =? minimum then gbnf "{" ++ to_decimal minimum ++ gbnf "}"
                              else gbnf "{" ++ to_decimal minimum ++ gbnf "," ++ to_decimal maximum ++ gbnf "}"
            | None => gbnf "{" ++ to_decimal minimum ++ gbnf ",}"
            end in
          Ok (gbnf "'\'' json-character" ++ repetition ++ gbnf " '\''")
      end
  end.

(** ** The keys an object excludes. *)
Inductive ExcludedKeyTrie : Type := Trie (terminal : bool) (children : list (str * ExcludedKeyTrie)).
Definition trie_children (t : ExcludedKeyTrie) : list (str * ExcludedKeyTrie) := let (_, children) := t in children.
Fixpoint trie_insert (key : list str) (t : ExcludedKeyTrie) : ExcludedKeyTrie :=
  let (terminal, children) := t in
  match key with
  | [] => Trie true children
  | c :: key => Trie terminal (btree_insert c (trie_insert key (default (Trie false []) (map_get c children))) children)
  end.
Definition rejected_character (c : str) : str :=
  if existsb (fun k => is_char k c) ["\"; "]"; "-"; "^"]%string then x5c :: c else c.
Fixpoint excluded_key_body (t : ExcludedKeyTrie) : str :=
  let (terminal, children) := t in
  let alternatives :=
    (fix follow (l : list (str * ExcludedKeyTrie)) : list str :=
       match l with
       | [] => []
       | (c, child) :: l =>
           let suffix := match trie_children child with [] => gbnf "json-character+" | _ => excluded_key_body child end in
           (quoted_literal c ++ gbnf " " ++ suffix) :: follow l
       end) children in
  match children with
  | [] => gbnf "json-character+"
  | _ =>
      let rejected := gbnf "[^'" ++ mjoin (rejected_character <$> children.*1) ++ gbnf "] json-character*" in
      let body := gbnf "(" ++ join (gbnf " | ") (alternatives ++ [rejected]) ++ gbnf ")" in
      if terminal then body else body ++ gbnf "?"
  end.

Section Compiler.
Context `{JsonText}.

(** A name in JSON, without its quotes. *)
Definition encoded_name (name : str) : checked (list str) :=
  match to_json (VString name) with
  | b :: body =>
      if bool_decide (b = x22) && bool_decide (last body = Some x22) then Ok (chars (take (length body - 1) body))
      else refuse "JSON property name did not serialize as a string"
  | [] => refuse "JSON property name did not serialize as a string"
  end.
Definition unknown_object_member_rule (names : list str) (value_rule : str) : checked str :=
  let? encoded := traverse encoded_name names in
  let key := match names with
             | [] => gbnf "string"
             | _ => gbnf "'\'' " ++ excluded_key_body (foldl (fun t key => trie_insert key t) (Trie false []) encoded) ++ gbnf " '\''"
             end in
  Ok (key ++ gbnf " ':' space " ++ value_rule).

(** ** Keywords and references. *)
Definition SUPPORTED : list string :=
  ["$schema"; "$id"; "$anchor"; "$comment"; "$ref"; "$defs"; "definitions"; "title"; "description"; "default"; "examples";
   "deprecated"; "readOnly"; "writeOnly"; "const"; "enum"; "oneOf"; "anyOf"; "allOf"; "type"; "properties"; "required";
   "additionalProperties"; "pattern"; "format"; "minLength"; "maxLength"; "minimum"; "maximum"; "exclusiveMinimum";
   "exclusiveMaximum"; "prefixItems"; "items"; "minItems"; "maxItems"]%string.
Definition validate_schema_keywords (schema : Value) : checked unit :=
  match as_object schema with
  | None => Ok tt
  | Some object =>
      if existsb (fun key => negb (existsb (fun k => bool_decide (key = character k)) SUPPORTED)) object.*1
      then refuse "unsupported JSON Schema assertion keyword"
      else if bool_decide (get_str "type" schema = Some (character "number")) && existsb (fun k => has k schema) BOUND_KEYWORDS
      then refuse "bounded JSON Schema numbers are unsupported; use integer bounds"
      else match get "required" schema with
           | None => Ok tt
           | Some required =>
               match as_array required with
               | None => refuse "JSON Schema required must be an array"
               | Some values =>
                   if existsb (fun v => bool_decide (as_str v = None)) values then refuse "JSON Schema required entries must be strings"
                   else Ok tt
               end
           end
  end.
Definition is_json_schema_type (kind : str) : bool :=
  existsb (fun k => bool_decide (kind = character k)) ["object"; "array"; "string"; "integer"; "number"; "boolean"; "null"]%string.
Definition is_type_name (kind : Value) : bool := match as_str kind with Some kind => is_json_schema_type kind | None => false end.
Definition valid_type (kind : Value) : bool :=
  match kind with
  | VString kind => is_json_schema_type kind
  | VArray kinds => bool_decide (kinds <> []) && forallb is_type_name kinds
  | _ => false
  end.

Fixpoint split_on (separator : byte) (s : str) : list str :=
  match s with
  | [] => [[]]
  | b :: s =>
      if bool_decide (b = separator) then [] :: split_on separator s
      else match split_on separator s with part :: parts => (b :: part) :: parts | [] => [[b]] end
  end.
(** [replace] of two bytes by one. *)
Fixpoint replace_pair (a b by_ : byte) (s : str) : str :=
  match s with
  | x :: s' =>
      match s' with
      | y :: s'' => if bool_decide (x = a) && bool_decide (y = b) then by_ :: replace_pair a b by_ s'' else x :: replace_pair a b by_ s'
      | [] => [x]
      end
  | [] => []
  end.
(** [str::parse::<usize>]. *)
Definition parse_usize (s : str) : option Z :=
  let digits := match s with b :: digits => if is_byte "+" b then digits else s | [] => [] end in
  if bool_decide (digits <> []) && forallb is_digit digits then parse_uint 64 digits else None.
Fixpoint resolve_tokens (target : Value) (tokens : list str) : option Value :=
  match tokens with
  | [] => Some target
  | raw :: tokens =>
      let token := replace_pair "~" "0" "~" (replace_pair "~" "1" "/" raw) in
      target ← match target with
               | VObject object => map_get token object
               | VArray array => index ← parse_usize token; array !! Z.to_nat index
               | _ => None
               end;
      resolve_tokens target tokens
  end.
Definition resolve_local_reference (root : Value) (reference : str) : checked Value :=
  if negb (starts_with (character "#/") reference) then refuse "only local JSON Schema references are supported"
  else ok_or (resolve_tokens root (split_on "/" (drop 2 reference))) (SchemaMessage "unresolved JSON Schema reference").

(** ** The builder. *)
Record SchemaGrammar : Type := mkSchemaGrammar {
  sg_rules : list (str * str);
  next : Z;
  root_schema : Value;
  refs : gmap str str;
}.
Definition SchemaGrammar_new (root : Value) : SchemaGrammar := mkSchemaGrammar [] 0 root ∅.
Definition insert_rule (name expression : str) (b : SchemaGrammar) : SchemaGrammar :=
  mkSchemaGrammar (btree_insert name expression (sg_rules b)) (next b) (root_schema b) (refs b).
Abbreviation compiled := (checked (str * SchemaGrammar)).
(** [iter().map(|schema| self.schema_rule(schema)).collect()]. *)
Fixpoint compile_all (rule : Value -> SchemaGrammar -> compiled) (l : list Value) (b : SchemaGrammar) :
    checked (list str * SchemaGrammar) :=
  match l with
  | [] => Ok ([], b)
  | x :: l =>
      let? (text, b) := rule x b in
      let? (texts, b) := compile_all rule l b in
      Ok (text :: texts, b)
  end.

Section Rules.
Context (schema_rule : Value -> SchemaGrammar -> compiled).

Definition schema_ref (n : Z) : str := gbnf "schema-ref-" ++ to_decimal n.
Definition reference_rule (reference : str) (b : SchemaGrammar) : compiled :=
  match refs b !! reference with
  | Some name => Ok (name, b)
  | None =>
      let? target := resolve_local_reference (root_schema b) reference in
      let name := schema_ref (next b) in
      let b := mkSchemaGrammar (btree_insert name [] (sg_rules b)) (next b + 1) (root_schema b) (<[reference := name]> (refs b)) in
      let? (expression, b) := schema_rule target b in
      Ok (name, insert_rule name expression b)
  end.

(** A member of an object, and whether it is required. *)
Fixpoint object_members (required : list str) (properties : list (str * Value)) (b : SchemaGrammar) :
    checked (list (bool * str) * SchemaGrammar) :=
  match properties with
  | [] => Ok ([], b)
  | (name, child) :: properties =>
      let? (value, b) := schema_rule child b in
      let member := quoted_literal (to_json (VString name)) ++ gbnf " space ':' space " ++ value in
      let? (members, b) := object_members required properties b in
      Ok ((bool_decide (name ∈ required), member) :: members, b)
  end.
Definition select_members (required_members optional_members : list str) (mask : nat) : list str :=
  required_members ++ (filter (fun p => Nat.testbit mask p.1 = true) (imap pair optional_members)).*2.
Definition object_body (additional_member : option str) (selected : list str) : str :=
  let fixed := join (gbnf " comma ") selected in
  match additional_member with
  | Some member => (match fixed with [] => member | _ => fixed end) ++ gbnf " (comma " ++ member ++ gbnf ")*"
  | None => fixed
  end.
Definition required_names (schema : Value) : list str := omap as_str (default [] (get_array "required" schema)).
Definition ordered_properties (schema : Value) (property_order : option (list str)) : checked (list (str * Value)) :=
  let properties := default [] (object ← get "properties" schema; as_object object) in
  match property_order with
  | None => Ok properties
  | Some order =>
      if negb (length order =? length properties)%nat || existsb (fun name => bool_decide (map_get name properties = None)) order
      then refuse "internal JSON Schema property order mismatch"
      else Ok ((fun name => (name, default VNull (map_get name properties))) <$> order)
  end.
(** The rule for the values of undeclared keys, if they are allowed. *)
Definition additional_rule (schema : Value) (b : SchemaGrammar) : checked (option str * SchemaGrammar) :=
  match get "additionalProperties" schema with
  | Some (VBool true) | None => Ok (Some (gbnf "value"), b)
  | Some (VObject m) => let? (text, b) := schema_rule (VObject m) b in Ok (Some text, b)
  | Some (VBool false) => Ok (None, b)
  | Some _ => refuse "additionalProperties must be a boolean or schema"
  end.
Definition object_rule_ordered (schema : Value) (property_order : option (list str)) (b : SchemaGrammar) : compiled :=
  let required := required_names schema in
  let? ordered := ordered_properties schema property_order in
  let? (members, b) := object_members required ordered b in
  let required_members := (filter (fun p => p.1 = true) members).*2 in
  let optional_members := (filter (fun p => p.1 = false) members).*2 in
  if (12 <? length optional_members)%nat then refuse "JSON Schema has more than 12 optional object properties"
  else
    let? (additional_value, b) := additional_rule schema b in
    let undeclared := filter (fun name => name ∉ ordered.*1) (sorted_set required) in
    match undeclared, additional_value with
    | _ :: _, None => Ok (NOTHING, b)
    | _, _ =>
        let value := default [] additional_value in
        let required_members := required_members
          ++ ((fun name => quoted_literal (to_json (VString name)) ++ gbnf " space ':' space " ++ value) <$> undeclared) in
        let? additional_member :=
          match additional_value with
          | Some value => let? text := unknown_object_member_rule (ordered.*1 ++ undeclared) value in Ok (Some text)
          | None => Ok None
          end in
        let alternative mask := gbnf "'{' space " ++ object_body additional_member (select_members required_members optional_members mask) ++ gbnf " space '}'" in
        Ok (gbnf "(" ++ join (gbnf " | ") (alternative <$> seq 0 (2 ^ length optional_members)) ++ gbnf ")", b)
    end.
Definition object_rule (schema : Value) : SchemaGrammar -> compiled := object_rule_ordered schema None.

(** [count] items with commas between them. *)
Definition comma_separated (count : nat) (item : str) : str :=
  join (gbnf " ") (imap (fun index item => match index with O => item | S _ => gbnf "comma " ++ item end) (replicate count item)).
Definition array_items_body (items : list str) : str :=
  join (gbnf " ") (imap (fun index item => match index with O => item | S _ => gbnf "comma " ++ item end) items).
Definition array_contents (item : str) (minimum : Z) (maximum : option Z) : str :=
  match maximum with
  | Some maximum =>
      gbnf "(" ++ join (gbnf " | ") ((fun count => comma_separated count item) <$> seq (Z.to_nat minimum) (S (Z.to_nat maximum) - Z.to_nat minimum))
      ++ gbnf ")"
  | None =>
      if minimum =? 0 then gbnf "(" ++ item ++ gbnf " (comma " ++ item ++ gbnf ")*)?"
      else comma_separated (Z.to_nat minimum) item ++ gbnf " (comma " ++ item ++ gbnf ")*"
  end.
Definition array_rule (schema : Value) (b : SchemaGrammar) : compiled :=
  let selected := or_else (get "items" schema) (get "prefixItems" schema) in
  match v ← selected; as_array v with
  | Some [] => Ok (gbnf "'[' space space ']'", b)
  | Some tuple =>
      let? (prefix_rules, b) := compile_all schema_rule tuple b in
      Ok (gbnf "'[' space " ++ array_items_body prefix_rules ++ gbnf " space ']'", b)
  | None =>
      let? (item, b) := schema_rule (default (VBool true) selected) b in
      let? (minimum, maximum) := ok_or (bounds "minItems" "maxItems" schema) (SchemaMessage "invalid or excessive JSON Schema array bounds") in
      let item := gbnf "(" ++ item ++ gbnf ")" in
      Ok (gbnf "'[' space " ++ array_contents item minimum maximum ++ gbnf " space ']'", b)
  end.

(** What the branches of an intersection have contributed so far. *)
Record Merged : Type := mkMerged {
  enum_intersection : option (list Value);
  m_properties : list (str * Value);
  property_order : list str;
  m_required : list Value;
  object_components : nat;
}.
Definition contains (l : list Value) (v : Value) : bool := existsb (fun x => value_eqb x v) l.
Definition add_property (require : bool) (m : Merged) (p : str * Value) : Merged :=
  let order := if bool_decide (map_get p.1 (m_properties m) = None) then property_order m ++ [p.1] else property_order m in
  let required := if require && negb (contains (m_required m) (VString p.1)) then m_required m ++ [VString p.1] else m_required m in
  mkMerged (enum_intersection m) (map_insert p.1 p.2 (m_properties m)) order required (object_components m).
Definition count_component (m : Merged) : Merged :=
  mkMerged (enum_intersection m) (m_properties m) (property_order m) (m_required m) (S (object_components m)).
Definition resolve_branch (root branch : Value) : checked Value :=
  match get_str "$ref" branch with Some reference => resolve_local_reference root reference | None => Ok branch end.
Definition alternative_properties (root alternative : Value) : checked (list (str * Value)) :=
  let? alternative := resolve_branch root alternative in
  ok_or (v ← get "properties" alternative; as_object v)
        (SchemaMessage "allOf anyOf alternatives must resolve to object properties").
(** One branch: what it adds, or the only branch itself. *)
Definition merge_branch (root : Value) (only : bool) (m : Merged) (branch : Value) : checked (Merged + Value) :=
  let? resolved := resolve_branch root branch in
  match get_array "enum" resolved with
  | Some values =>
      let values := match enum_intersection m with
                    | None => values
                    | Some current => filter (fun v => contains values v = true) current
                    end in
      Ok (inl (mkMerged (Some values) (m_properties m) (property_order m) (m_required m) (object_components m)))
  | None =>
      match v ← get "properties" resolved; as_object v with
      | Some component => Ok (inl (foldl (add_property true) (count_component m) component))
      | None =>
          match get_array "anyOf" resolved with
          | Some alternatives =>
              let? components := traverse (alternative_properties root) alternatives in
              Ok (inl (foldl (add_property false) (count_component m) (mjoin components)))
          | None => if only then Ok (inr resolved) else refuse "unsupported JSON Schema allOf intersection"
          end
      end
  end.
Fixpoint merge_branches (root : Value) (only : bool) (m : Merged) (branches : list Value) : checked (Merged + Value) :=
  match branches with
  | [] => Ok (inl m)
  | branch :: branches =>
      let? merged := merge_branch root only m branch in
      match merged with
      | inl m => merge_branches root only m branches
      | inr resolved => Ok (inr resolved)
      end
  end.
Definition object_of (m : Merged) : Value :=
  VObject [(character "type", VString (character "object")); (character "properties", VObject (m_properties m));
           (character "required", VArray (m_required m)); (character "additionalProperties", VBool false)].
Definition all_of_rule (branches : list Value) (b : SchemaGrammar) : compiled :=
  match branches with
  | [] => Ok (gbnf "value", b)
  | _ =>
      let? merged := merge_branches (root_schema b) (length branches =? 1)%nat (mkMerged None [] [] [] 0) branches in
      match merged with
      | inr resolved => schema_rule resolved b
      | inl m =>
          match enum_intersection m with
          | Some [] => Ok (NOTHING, b)
          | Some values => schema_rule (VObject [(character "enum", VArray values)]) b
          | None =>
              if (0 <? object_components m)%nat then object_rule_ordered (object_of m) (Some (property_order m)) b
              else refuse "unsupported JSON Schema allOf"
          end
      end
  end.

Definition union (branches : list str) : str := gbnf "(" ++ join (gbnf " | ") branches ++ gbnf ")".
(** The rule of a type, or of no type. *)
Definition typed_rule (schema : Value) (kind : option str) (b : SchemaGrammar) : compiled :=
  let named k := bool_decide (kind = Some (character k)) in
  let untyped := bool_decide (kind = None) in
  if named "object"%string || (untyped && (has "properties" schema || has "additionalProperties" schema)) then object_rule schema b
  else if named "array"%string || (untyped && (has "items" schema || has "prefixItems" schema)) then array_rule schema b
  else if (named "string"%string || untyped)
          && existsb (fun k => has k schema) ["pattern"; "format"; "minLength"; "maxLength"]%string
  then let? text := string_rule schema in Ok (text, b)
  else if named "string"%string then Ok (gbnf "string", b)
  else if named "integer"%string then let? text := integer_rule schema in Ok (text, b)
  else if named "number"%string then Ok (gbnf "number", b)
  else if named "boolean"%string then Ok (gbnf "boolean", b)
  else if named "null"%string then Ok (gbnf "null", b)
  else if untyped then
    match as_object schema with Some [] => Ok (gbnf "object", b) | _ => Ok (gbnf "value", b) end
  else refuse "unsupported JSON Schema type".
Definition with_type (schema kind : Value) : Value :=
  match schema with VObject m => VObject (map_insert (character "type") kind m) | _ => schema end.
Definition schema_object_rule (schema : Value) (b : SchemaGrammar) : compiled :=
  let? _ := validate_schema_keywords schema in
  if match get "type" schema with Some kind => negb (valid_type kind) | None => false end then refuse "invalid JSON Schema type"
  else match get_str "$ref" schema with
  | Some reference => reference_rule reference b
  | None =>
      match get "const" schema with
      | Some value => Ok (quoted_literal (to_json value), b)
      | None =>
          match get_array "enum" schema with
          | Some [] => refuse "JSON Schema enum cannot be empty"
          | Some values => Ok (union ((fun value => quoted_literal (to_json value)) <$> values), b)
          | None =>
              match v ← or_else (get "oneOf" schema) (get "anyOf" schema); as_array v with
              | Some branches => let? (texts, b) := compile_all schema_rule branches b in Ok (union texts, b)
              | None =>
                  match get_array "allOf" schema with
                  | Some branches => all_of_rule branches b
                  | None =>
                      match get_array "type" schema with
                      | Some kinds => let? (texts, b) := compile_all schema_rule (with_type schema <$> kinds) b in Ok (union texts, b)
                      | None => typed_rule schema (get_str "type" schema) b
                      end
                  end
              end
          end
      end
  end.
End Rules.

Fixpoint schema_rule (fuel : nat) (schema : Value) (b : SchemaGrammar) : compiled :=
  match fuel with
  | O => Err Exhausted
  | S fuel =>
      match schema with
      | VBool true => Ok (gbnf "value", b)
      | VBool false => Ok (NOTHING, b)
      | VObject _ => schema_object_rule (schema_rule fuel) schema b
      | _ => refuse "JSON Schema must be an object or boolean"
      end
  end.
End Compiler.

Definition JSON_RULES : str := gbnf "
value ::= object | array | string | number | boolean | null
object ::= '{' space (string space ':' space value (comma string space ':' space value)*)? space '}'
array ::= '[' space (value (comma value)*)? space ']'
string ::= '\'' characters '\''
characters ::= json-character*
json-character ::= [^'\\\x00-\x1f] | '\\' (['\\/bfnrt] | 'u' [0-9a-fA-F]{4})
regex-dot ::= [^\x0a\x0d]
number ::= '-'? ('0' | [1-9] [0-9]*) ('.' [0-9]+)? ([eE] [+-]? [0-9]+)?
integer ::= '-'? ('0' | [1-9] [0-9]*)
boolean ::= 'true' | 'false'
null ::= 'null'
comma ::= ',' space
space ::= [ ]{0,1} | '\n'{1,2} [ \t]{0,20}
ws ::= [ \t\n\r]*
date-value ::= [0-9]{4} '-' ('0' [1-9] | '1' [0-2]) '-' ('0' [1-9] | [12] [0-9] | '3' [01])
time-value ::= ([01] [0-9] | '2' [0-3]) ':' [0-5] [0-9] ':' [0-5] [0-9] ('.' [0-9]{3})? ('Z' | [+-] ([01] [0-9] | '2' [0-3]) ':' [0-5] [0-9])
".
Definition rule_line (rule : str * str) : str := rule.1 ++ gbnf " ::= " ++ rule.2 ++ [x0a].
Definition json_schema_to_gbnf `{JsonText} (fuel : nat) (schema : Value) : checked str :=
  let? (root, b) := schema_rule fuel schema (SchemaGrammar_new schema) in
  Ok (mjoin (rule_line <$> sg_rules (insert_rule (character "root") root b)) ++ JSON_RULES).
Definition json_object_gbnf : str := gbnf "root ::= object
" ++ JSON_RULES.
