(* ===== verification/SchemaDecimal.v ===== *)
(** * Decimal numerals.

    What the schema compiler's [to_decimal] writes and the parser's [decimal] reads; the order
    of numerals of one width is the order of their texts. *)
From Stdlib Require Import Strings.Byte.
From S2P Require Import Prelude Utf8 Utf8Scalar GrammarParser Schema.

Definition digits_only (s : str) : Prop := Forall (fun b => is_digit b = true) s.
Definition digit_value (b : byte) : Z := Z_of_byte b - 0x30.
Lemma is_digit_value b : is_digit b = true <-> 0 <= digit_value b <= 9.
Proof. unfold is_digit, digit_value. rewrite in_range_spec. lia. Qed.
Lemma digit_value_inj a b : digit_value a = digit_value b -> a = b.
Proof. unfold digit_value. intros E. rewrite <- (byte_of_Z_of_byte a), <- (byte_of_Z_of_byte b). f_equal. lia. Qed.
Lemma digit_value_byte d : 0 <= d <= 9 -> digit_value (digit_byte d) = d.
Proof. intros Hd. unfold digit_value, digit_byte. rewrite Z_of_byte_of_Z, Z.mod_small; lia. Qed.
Lemma digit_byte_value b : is_digit b = true -> digit_byte (digit_value b) = b.
Proof. intros Hb%is_digit_value. apply digit_value_inj, digit_value_byte, Hb. Qed.

(** ** Reading. *)
Lemma decimal_snoc s b : decimal (s ++ [b]) = decimal s * 10 + digit_value b.
Proof. unfold decimal, digit_value. by rewrite foldl_app. Qed.
Lemma pow10_S n : 10 ^ Z.of_nat (S n) = 10 * 10 ^ Z.of_nat n.
Proof. rewrite Nat2Z.inj_succ, Z.pow_succ_r by lia. done. Qed.
Lemma pow10_pos n : 0 < 10 ^ Z.of_nat n.
Proof. apply Z.pow_pos_nonneg; lia. Qed.
Lemma decimal_app a b : decimal (a ++ b) = decimal a * 10 ^ Z.of_nat (length b) + decimal b.
Proof.
  induction b as [|x b IH] using rev_ind; [rewrite app_nil_r; cbn; lia|].
  rewrite app_assoc, !decimal_snoc, IH, length_app. cbn [length]. rewrite Nat.add_1_r, pow10_S. lia.
Qed.
Lemma decimal_cons b s : decimal (b :: s) = digit_value b * 10 ^ Z.of_nat (length s) + decimal s.
Proof. change (b :: s) with ([b] ++ s). rewrite decimal_app. f_equal. Qed.
Lemma decimal_bounds s : digits_only s -> 0 <= decimal s < 10 ^ Z.of_nat (length s).
Proof.
  induction 1 as [|b s Hb Hs IH]; [done|]. rewrite decimal_cons. cbn [length]. rewrite pow10_S. apply is_digit_value in Hb.
  pose proof (pow10_pos (length s)). nia.
Qed.
Lemma decimal_inj a : forall b, digits_only a -> digits_only b -> length a = length b -> decimal a = decimal b -> a = b.
Proof.
  induction a as [|x a IH]; intros [|y b] Ha Hb Hl E; try done. apply Forall_cons in Ha as [Hx Ha], Hb as [Hy Hb].
  rewrite !decimal_cons in E. injection Hl as Hl. rewrite Hl in E. pose proof (decimal_bounds a Ha) as Ba. pose proof (decimal_bounds b Hb) as Bb.
  rewrite Hl in Ba. pose proof (pow10_pos (length b)).
  assert (digit_value x = digit_value y) as Exy by nia. rewrite Exy in E. apply digit_value_inj in Exy as ->. f_equal. apply IH; [done..|lia].
Qed.
(** The texts of one width are ordered like the numbers. *)
Lemma str_ltb_decimal a : forall b, digits_only a -> digits_only b -> length a = length b -> str_ltb a b = (decimal a <? decimal b).
Proof.
  induction a as [|x a IH]; intros [|y b] Ha Hb Hl; try done. apply Forall_cons in Ha as [Hx Ha], Hb as [Hy Hb]. injection Hl as Hl.
  cbn [str_ltb]. rewrite (IH b Ha Hb Hl), !decimal_cons, Hl. pose proof (decimal_bounds a Ha) as Ba. pose proof (decimal_bounds b Hb) as Bb.
  rewrite Hl in Ba. pose proof (pow10_pos (length b)). unfold digit_value.
  destruct (Z.ltb_spec (Z_of_byte x) (Z_of_byte y)); [symmetry; apply Z.ltb_lt; nia|]. cbn [orb].
  destruct (Z.eqb_spec (Z_of_byte x) (Z_of_byte y)) as [-> |]; cbn [andb].
  - destruct (Z.ltb_spec (decimal a) (decimal b)); symmetry; [apply Z.ltb_lt | apply Z.ltb_ge]; lia.
  - symmetry. apply Z.ltb_ge. nia.
Qed.

(** ** Writing. *)
Lemma decimal_digits_S fuel n : decimal_digits (S fuel) n =
  if n <? 10 then [digit_byte n] else decimal_digits fuel (n / 10) ++ [digit_byte (n mod 10)].
Proof. done. Qed.
Lemma decimal_digits_spec fuel : forall n, 0 <= n < 10 ^ Z.of_nat fuel ->
  digits_only (decimal_digits fuel n) /\ decimal (decimal_digits fuel n) = n /\
  ((0 < fuel)%nat -> exists k, length (decimal_digits fuel n) = S k /\ (k = 0%nat \/ 10 ^ Z.of_nat k <= n)).
Proof.
  induction fuel as [|fuel IH]; intros n Hn; [cbn in *; split; [constructor|]; split; [lia|]; lia|].
  rewrite decimal_digits_S. destruct (Z.ltb_spec n 10).
  - split; [|split].
    + constructor; [|constructor]. apply is_digit_value. rewrite digit_value_byte; lia.
    + change (decimal [digit_byte n]) with (0 * 10 + digit_value (digit_byte n)). rewrite digit_value_byte; lia.
    + intros _. exists 0%nat. cbn. by split; [|left].
  - rewrite pow10_S in Hn. assert (0 <= n / 10 < 10 ^ Z.of_nat fuel) as Hq.
    { split; [apply Z.div_pos; lia|]. apply Z.div_lt_upper_bound; lia. }
    destruct (IH _ Hq) as (Hd & Hv & Hlen). pose proof (Z.mod_pos_bound n 10 ltac:(lia)) as Hm.
    assert (0 < fuel)%nat as Hf by (destruct fuel; [cbn in Hq; pose proof (Z.div_le_lower_bound n 10 1); lia | lia]).
    destruct (Hlen Hf) as (k & Hk & Hlo). split; [|split].
    + apply Forall_app. split; [done|]. constructor; [|constructor]. apply is_digit_value. rewrite digit_value_byte; lia.
    + rewrite decimal_snoc, Hv, digit_value_byte by lia. pose proof (Z.div_mod n 10). lia.
    + intros _. exists (S k). rewrite length_app, Hk. cbn [length]. split; [lia|]. right. rewrite pow10_S.
      pose proof (Z.div_mod n 10 ltac:(lia)). destruct Hlo as [-> |Hlo]; [cbn; lia | lia].
Qed.
Lemma to_decimal_spec n : 0 <= n < 10 ^ 20 ->
  digits_only (to_decimal n) /\ decimal (to_decimal n) = n /\
  exists k, length (to_decimal n) = S k /\ (k = 0%nat \/ 10 ^ Z.of_nat k <= n) /\ n < 10 ^ Z.of_nat (S k).
Proof.
  intros Hn. destruct (decimal_digits_spec 20 n) as (Hd & Hv & Hlen); [done|]. unfold to_decimal. split; [done|]. split; [done|].
  destruct (Hlen ltac:(lia)) as (k & Hk & Hlo). exists k. split; [done|]. split; [done|].
  pose proof (decimal_bounds _ Hd) as Hb. rewrite Hk, Hv in Hb. lia.
Qed.
(** The width of a numeral. *)
Lemma pow10_le a b : (a <= b)%nat -> 10 ^ Z.of_nat a <= 10 ^ Z.of_nat b.
Proof. intros H. apply Z.pow_le_mono_r; lia. Qed.
Lemma to_decimal_width n d : 0 <= n < 10 ^ 20 -> n < 10 ^ Z.of_nat (S d) -> d = 0%nat \/ 10 ^ Z.of_nat d <= n -> length (to_decimal n) = S d.
Proof.
  intros Hn Hhi Hlo. destruct (to_decimal_spec n Hn) as (_ & _ & k & Hk & Hk1 & Hk2). rewrite Hk. f_equal.
  destruct (Nat.lt_trichotomy k d) as [H|[H|H]]; [|done|].
  - pose proof (pow10_le (S k) d H). destruct Hlo as [-> |]; lia.
  - pose proof (pow10_le (S d) k H). destruct Hk1 as [-> |]; lia.
Qed.
(** A numeral is what [to_decimal] writes when it has no leading zero. *)
Lemma to_decimal_decimal s d : digits_only s -> length s = S d -> (S d <= 20)%nat -> d = 0%nat \/ 10 ^ Z.of_nat d <= decimal s ->
  to_decimal (decimal s) = s.
Proof.
  intros Hs Hl Hd Hlo. pose proof (decimal_bounds s Hs) as Hb. rewrite Hl in Hb. pose proof (pow10_le (S d) 20 Hd) as Hp. change (10 ^ Z.of_nat 20) with (10 ^ 20) in Hp.
  assert (0 <= decimal s < 10 ^ 20) as Hn by lia. destruct (to_decimal_spec _ Hn) as (Hd' & Hv & _).
  apply decimal_inj; [done | done | | done]. rewrite (to_decimal_width _ d Hn) by (try lia; done). done.
Qed.
