(* ===== verification/GbnfSyntax.v ===== *)
(** * The grammar notation as syntax.

    The reference for the text the schema compiler writes: expressions of alternatives,
    sequences and repeated pieces, how they are written, and the language they denote over
    the languages of the rules they mention.  [GbnfReading] shows that the parser reads the
    written form as that language. *)
From Stdlib Require Import Strings.Byte.
From S2P Require Import Prelude Utf8 Utf8Scalar Grammar GrammarParser GrammarLanguage Schema.

(** ** Character classes as they are written. *)
Record Written : Type := mkWritten { w_text : str; w_value : Z }.
Definition escape_value (e : byte) (digits : str) : option Z :=
  match digits with
  | [] =>
      if is_byte "n" e then Some 0x0A else if is_byte "r" e then Some 0x0D else if is_byte "t" e then Some 0x09
      else if is_byte x22 e || is_byte x5c e || is_byte "[" e || is_byte "]" e || is_byte "-" e then Some (Z_of_byte e) else None
  | _ =>
      if (is_byte "x" e && (length digits =? 2)%nat) || (is_byte "u" e && (length digits =? 4)%nat)
         || (is_byte "U" e && (length digits =? 8)%nat)
      then v ← from_str_radix_16 digits; if is_scalar v then Some v else None
      else None
  end.
(** The scalar a class character stands for: escaped, or as it is. *)
Definition written_value (text : str) : option Z :=
  match text with
  | [] => None
  | b :: digits =>
      if is_byte x5c b then match digits with e :: digits => escape_value e digits | [] => None end
      else if is_byte "]" b then None
      else match utf8_chunks text with [UChar ch] => if bool_decide (ch = text) then Some (code_point text) else None | _ => None end
  end.
Definition written_ok (w : Written) : bool := bool_decide (written_value (w_text w) = Some (w_value w)).
(** One character, or a range. *)
Definition Entry : Type := Written * option Written.
Definition entry_range (e : Entry) : Z * Z := (w_value e.1, w_value (default e.1 e.2)).
Definition print_entry (e : Entry) : str :=
  w_text e.1 ++ match e.2 with Some upper => gbnf "-" ++ w_text upper | None => [] end.
Definition print_entries (l : list Entry) : str := mjoin (print_entry <$> l).
(** Behind a single character no hyphen opens a range; a hyphen before the bracket is a character. *)
Definition no_range (after : str) : bool :=
  match after with b :: after => negb (is_byte "-" b) || match after with b :: _ => is_byte "]" b | [] => false end | [] => true end.
Fixpoint entries_ok (l : list Entry) : bool :=
  match l with
  | [] => true
  | e :: l =>
      written_ok e.1 && (fst (entry_range e) <=? snd (entry_range e)) &&
      match e.2 with Some upper => written_ok upper | None => no_range (print_entries l ++ gbnf "]") end && entries_ok l
  end.
Definition class_ok (inverted : bool) (l : list Entry) : bool :=
  entries_ok l && (inverted || match print_entries l with b :: _ => negb (is_byte "^" b) | [] => true end).

(** ** Expressions. *)
Inductive Suffix : Type := Once | Optional | Star | Plus | Exactly (n : Z) | AtLeast (n : Z) | Between (m n : Z).
#[global] Instance Suffix_eq_dec : EqDecision Suffix.
Proof. solve_decision. Defined.
Inductive Expr : Type :=
| Last (s : Seq)
| Or (s : Seq) (e : Expr)
with Seq : Type :=
| End (trail : nat)
| Then (pad : nat) (pc : Piece) (suffix : Suffix) (s : Seq)
with Piece : Type :=
| Lit (value : str)
| Class (inverted : bool) (entries : list Entry)
| Ref (name : str)
| Group (e : Expr).
Scheme Expr_mut := Induction for Expr Sort Prop
with Seq_mut := Induction for Seq Sort Prop
with Piece_mut := Induction for Piece Sort Prop.
Combined Scheme syntax_ind from Expr_mut, Seq_mut, Piece_mut.

Definition spaces (n : nat) : str := replicate n " "%byte.
Definition print_suffix (suffix : Suffix) : str :=
  match suffix with
  | Once => []
  | Optional => gbnf "?"
  | Star => gbnf "*"
  | Plus => gbnf "+"
  | Exactly n => gbnf "{" ++ to_decimal n ++ gbnf "}"
  | AtLeast n => gbnf "{" ++ to_decimal n ++ gbnf ",}"
  | Between m n => gbnf "{" ++ to_decimal m ++ gbnf "," ++ to_decimal n ++ gbnf "}"
  end.
Fixpoint print (e : Expr) : str :=
  match e with Last s => print_seq s | Or s e => print_seq s ++ gbnf " | " ++ print e end
with print_seq (s : Seq) : str :=
  match s with
  | End trail => spaces trail
  | Then pad pc suffix s => spaces pad ++ print_piece pc ++ print_suffix suffix ++ print_seq s
  end
with print_piece (pc : Piece) : str :=
  match pc with
  | Lit value => quoted_literal value
  | Class inverted entries => gbnf "[" ++ (if inverted then gbnf "^" else []) ++ print_entries entries ++ gbnf "]"
  | Ref name => name
  | Group e => gbnf "(" ++ print e ++ gbnf ")"
  end.

(** The rules an expression mentions. *)
Fixpoint mentions (e : Expr) : list str :=
  match e with Last s => mentions_seq s | Or s e => mentions_seq s ++ mentions e end
with mentions_seq (s : Seq) : list str :=
  match s with End _ => [] | Then _ pc _ s => mentions_piece pc ++ mentions_seq s end
with mentions_piece (pc : Piece) : list str :=
  match pc with Ref name => [name] | Group e => mentions e | _ => [] end.

(** ** What is well written. *)
Definition name_ok (name : str) : bool :=
  bool_decide (name <> []) && forallb is_name_byte name && negb (Substring.starts_with (string_bytes "__generated-") name).
Definition suffix_ok (suffix : Suffix) : bool :=
  match suffix with
  | Exactly n | AtLeast n => (0 <=? n) && (n <? 5000)
  | Between m n => (0 <=? m) && (m <? 5000) && (m <=? n) && (n <=? 5000)
  | _ => true
  end.
(** A name ends where the next piece starts. *)
Definition separated (pc : Piece) (suffix : Suffix) (s : Seq) : bool :=
  match pc, suffix, s with Ref _, Once, Then O (Ref _) _ _ => false | _, _, _ => true end.
Fixpoint expr_ok (e : Expr) : bool :=
  match e with Last s => seq_ok s | Or s e => seq_ok s && expr_ok e end
with seq_ok (s : Seq) : bool :=
  match s with
  | End _ => true
  | Then _ pc suffix s => piece_ok pc && suffix_ok suffix && separated pc suffix s && seq_ok s
  end
with piece_ok (pc : Piece) : bool :=
  match pc with
  | Lit value => utf8_valid value
  | Class inverted entries => class_ok inverted entries
  | Ref name => name_ok name
  | Group e => expr_ok e
  end.

(** ** What it denotes. *)
Abbreviation Lang := (list Input -> Prop).
Definition word (cs : list Z) : list Input := IChar <$> cs.
Definition lang_app (L M : Lang) : Lang := fun v => exists v1 v2, v = v1 ++ v2 /\ L v1 /\ M v2.
Fixpoint lang_power (L : Lang) (k : nat) : Lang :=
  match k with O => fun v => v = [] | S k => lang_app L (lang_power L k) end.
(** The least and the greatest number of copies. *)
Definition suffix_bounds (suffix : Suffix) : Z * option Z :=
  match suffix with
  | Once => (1, Some 1)
  | Optional => (0, Some 1)
  | Star => (0, None)
  | Plus => (1, None)
  | Exactly n => (n, Some n)
  | AtLeast n => (n, None)
  | Between m n => (m, Some n)
  end.
Definition lang_repeat (L : Lang) (suffix : Suffix) : Lang := fun v => exists k : nat,
  fst (suffix_bounds suffix) <= Z.of_nat k /\ match snd (suffix_bounds suffix) with Some n => Z.of_nat k <= n | None => True end /\
  lang_power L k v.
Definition in_class (inverted : bool) (entries : list Entry) (i : Input) : Prop :=
  matches (Character (mkCharSet inverted (entry_range <$> entries))) i = true.
Section Denote.
Context (E : str -> Lang).
Fixpoint denote (e : Expr) : Lang :=
  match e with Last s => denote_seq s | Or s e => fun v => denote_seq s v \/ denote e v end
with denote_seq (s : Seq) : Lang :=
  match s with
  | End _ => fun v => v = []
  | Then _ pc suffix s => lang_app (lang_repeat (denote_piece pc) suffix) (denote_seq s)
  end
with denote_piece (pc : Piece) : Lang :=
  match pc with
  | Lit value => fun v => v = word (code_point <$> chars value)
  | Class inverted entries => fun v => exists i, v = [i] /\ in_class inverted entries i
  | Ref name => E name
  | Group e => denote e
  end.
End Denote.
