(* ===== verification/GbnfReading.v ===== *)
(** * The parser reads what is written.

    Every well-written expression of [GbnfSyntax], wherever it stands in a grammar text, is
    read by the parser of [GrammarParser] as alternatives that derive the language it denotes. *)
From Stdlib Require Import Strings.Byte.
From stdpp Require Import pretty fin_maps.
From S2P Require Import Prelude Utf8 Utf8Scalar Grammar GrammarText GrammarParser GrammarClosure GrammarParserProofs GrammarLanguage.
From S2P Require Import GrammarRepeat GrammarQuote Schema SchemaDecimal GbnfSyntax.

(** ** Where the parser stands. *)
Definition blank (b : byte) : bool := is_byte " " b || is_byte x09 b.
Definition trim (s : str) : str := drop (span blank s) s.
Lemma rest_skip_drop n p : rest (skip n p) = drop n (rest p).
Proof. unfold rest. cbn. by rewrite drop_drop. Qed.
Lemma rest_skip_horizontal p : rest (skip_horizontal p) = trim (rest p).
Proof. unfold skip_horizontal, skip_while. apply rest_skip_drop. Qed.
Lemma trim_cons b s : trim (b :: s) = if blank b then trim s else b :: s.
Proof. unfold trim. cbn. by destruct (blank b). Qed.
Lemma trim_spaces n s : trim (spaces n ++ s) = trim s.
Proof. induction n as [|n IH]; [done|]. cbn [spaces replicate app]. rewrite trim_cons. exact IH. Qed.
Lemma trim_trim s : trim (trim s) = trim s.
Proof. induction s as [|b s IH]; [done|]. rewrite trim_cons. destruct (blank b) eqn:E; [done|]. by rewrite trim_cons, E. Qed.
Lemma length_trim s : (length (trim s) <= length s)%nat.
Proof. unfold trim. rewrite length_drop. lia. Qed.
Lemma peek_head p b s : rest p = b :: s -> peek p = Some b.
Proof. intros E. by rewrite peek_rest, E. Qed.
Lemma peek_is_head p b s c : rest p = b :: s -> peek_is c p = is_byte c b.
Proof. intros E. unfold peek_is, is_byte. rewrite (peek_head _ _ _ E). by destruct (decide (b = c)) as [-> |]; [rewrite !bool_decide_eq_true_2|rewrite !bool_decide_eq_false_2 by congruence]. Qed.
Lemma left_over_rest p : left_over p = length (rest p).
Proof. unfold left_over. by rewrite length_rest. Qed.

(** ** Character classes. *)
Lemma utf8_chunks_one text ch : utf8_chunks text = [UChar ch] -> ch = text -> utf8_valid text = true /\ chars text = [text].
Proof. intros E ->. unfold utf8_valid, chars. rewrite E. done. Qed.
Lemma hex_read digits v k n p : from_str_radix_16 digits = Some v -> is_scalar v = true -> length digits = n ->
  rest p = digits ++ k -> hex n p = Ok (v, skip n p).
Proof.
  intros Hv Hs Hl Er. unfold hex. pose proof (f_equal length Er) as El. rewrite length_rest, length_app, Hl in El.
  destruct (Nat.ltb_spec (length (source p)) (position p + n)); [|by rewrite Er, <- Hl, take_app_length, Hv; cbn; rewrite Hs].
  destruct (decide (n = 0%nat)) as [-> |]; [|lia]. destruct digits; [|done]. by unfold from_str_radix_16 in Hv.
Qed.
(** A character of a class is read as the scalar it stands for, and is no closing bracket. *)
Lemma codepoint_written w k p : written_ok w = true -> utf8_valid k = true -> rest p = w_text w ++ k ->
  codepoint p = Ok (w_value w, skip (length (w_text w)) p) /\ peek_is "]" p = false /\ peek p <> None.
Proof.
  destruct w as [text value]. unfold written_ok. cbn [w_text w_value]. intros Hw%bool_decide_eq_true Hk Er.
  destruct text as [|b digits]; [done|]. cbn [written_value] in Hw. cbn [app] in Er.
  rewrite (peek_is_head _ _ _ _ Er), (peek_head _ _ _ Er). split; [|split; [|done]].
  2:{ destruct (is_byte x5c b) eqn:E; [apply bool_decide_eq_true in E as ->; done|]. by destruct (is_byte "]" b). }
  unfold codepoint. rewrite (peek_is_head _ _ _ _ Er). destruct (is_byte x5c b) eqn:Eb.
  - apply bool_decide_eq_true in Eb as ->. destruct digits as [|e digits]; [done|].
    assert (rest (skip 1 p) = e :: digits ++ k) as Er1 by (by rewrite rest_skip_drop, Er). cbv zeta.
    rewrite (peek_head _ _ _ Er1). cbn [ok_or]. rewrite skip_skip. change (1 + 1)%nat with 2%nat.
    assert (rest (skip 2 p) = digits ++ k) as Er2 by (by rewrite rest_skip_drop, Er).
    unfold escape_value in Hw. destruct digits as [|d digits].
    + cbn [length]. repeat (case_match; [congruence|]). done.
    + set (ds := d :: digits) in *. destruct (_ || _) eqn:Ec; [|done]. destruct (from_str_radix_16 ds) as [v|] eqn:Ev; [|done]. cbn in Hw.
      destruct (is_scalar v) eqn:Es; [|done]. injection Hw as <-. change (length (x5c :: e :: ds)) with (S (S (length ds))).
      assert (forall n, (length ds =? n)%nat = true -> hex n (skip 2 p) = Ok (v, skip (S (S (length ds))) p)) as Hhex.
      { intros n Hn%Nat.eqb_eq. rewrite (hex_read ds v k n (skip 2 p)) by done. by rewrite skip_skip, Hn. }
      rewrite !orb_true_iff, !andb_true_iff in Ec. unfold is_byte in *.
      destruct Ec as [[[->%bool_decide_eq_true Hn]|[->%bool_decide_eq_true Hn]]|[->%bool_decide_eq_true Hn]]; cbn; by apply Hhex.
  - destruct (is_byte "]" b); [done|]. destruct (utf8_chunks (b :: digits)) as [|[ch| |] [|]] eqn:Ech; try done.
    case_bool_decide as Et; [|done]. injection Hw as <-. destruct (utf8_chunks_one _ _ Ech Et) as [Hv Hc].
    change (b :: digits ++ k) with ((b :: digits) ++ k) in Er. rewrite Er, utf8_valid_app, Hk, chars_app, Hc by done. done.
Qed.
Lemma utf8_valid_ascii b s : Z_of_byte b < 128 -> utf8_valid (b :: s) = utf8_valid s.
Proof.
  intros Hb. change (b :: s) with ([b] ++ s). apply utf8_valid_app. unfold utf8_valid. by rewrite utf8_chunks_cons, classify_ascii by lia.
Qed.
Lemma hex_byte_ascii b h : hex_digit b = Some h -> Z_of_byte b < 128.
Proof.
  unfold hex_digit, is_digit. destruct (in_range 48 57 b) eqn:E1; [apply in_range_spec in E1; lia|].
  destruct (in_range 65 70 b) eqn:E2; [apply in_range_spec in E2; lia|].
  destruct (in_range 97 102 b) eqn:E3; [apply in_range_spec in E3; lia | done].
Qed.
Lemma written_valid w : written_ok w = true -> utf8_valid (w_text w) = true.
Proof.
  destruct w as [text value]. unfold written_ok. cbn [w_text w_value]. intros Hw%bool_decide_eq_true.
  destruct text as [|b digits]; [done|]. cbn [written_value] in Hw.
  destruct (is_byte x5c b) eqn:Eb.
  - apply bool_decide_eq_true in Eb as ->. destruct digits as [|e digits]; [done|]. rewrite utf8_valid_ascii by done. unfold escape_value in Hw.
    destruct digits as [|d digits].
    + unfold is_byte in Hw. repeat case_bool_decide; subst; try done.
    + destruct (_ || _) eqn:Ec; [|done]. rewrite !orb_true_iff, !andb_true_iff in Ec. unfold is_byte in Ec.
      rewrite utf8_valid_ascii by (destruct Ec as [[[->%bool_decide_eq_true _]|[->%bool_decide_eq_true _]]|[->%bool_decide_eq_true _]]; done).
      destruct (from_str_radix_16 (d :: digits)) as [v|] eqn:Ev; [|done]. clear Hw Ec. unfold from_str_radix_16 in Ev.
      assert (forall ds o, foldl (fun v b => v ← v; d ← hex_digit b; Some (v * 16 + d)) o ds = Some v -> utf8_valid ds = true) as Hds.
      { induction ds as [|c ds IH]; intros o Ho; [done|]. cbn in Ho. rewrite utf8_valid_ascii; [by eapply IH|].
        destruct (hex_digit c) as [h|] eqn:Eh.
        - by eapply hex_byte_ascii.
        - assert (foldl (fun v b => v ← v; d ← hex_digit b; Some (v * 16 + d)) None ds = None) as Hn by (clear; by induction ds).
          destruct o; cbn in Ho; congruence. }
      destruct (is_byte "+" d) eqn:Ed; [|by eapply Hds]. apply bool_decide_eq_true in Ed as ->. rewrite utf8_valid_ascii by done.
      destruct digits; [done|]. by eapply Hds.
  - destruct (is_byte "]" b); [done|]. destruct (utf8_chunks (b :: digits)) as [|[ch| |] [|]] eqn:Ech; try done.
    case_bool_decide as Et; [|done]. by destruct (utf8_chunks_one _ _ Ech Et).
Qed.

(** Entries, up to the closing bracket. *)
Lemma print_entries_cons e l : print_entries (e :: l) = print_entry e ++ print_entries l.
Proof. done. Qed.
Lemma entries_valid l : entries_ok l = true -> utf8_valid (print_entries l) = true.
Proof.
  induction l as [|[a b] l IH]; [done|]. cbn [entries_ok]. rewrite !andb_true_iff. intros [[[Ha _] Hb] Hl].
  rewrite print_entries_cons. unfold print_entry. cbn [fst snd] in *. rewrite <- !app_assoc, utf8_valid_app by by apply written_valid.
  destruct b as [b|]; [|by apply IH]. rewrite <- app_assoc. change (gbnf "-") with ["-"%byte]. cbn [app]. rewrite utf8_valid_ascii by done.
  rewrite utf8_valid_app by by apply written_valid. by apply IH.
Qed.
Lemma class_loop_reads l : forall fuel acc k p, entries_ok l = true -> utf8_valid k = true ->
  rest p = print_entries l ++ gbnf "]" ++ k -> (length l < fuel)%nat ->
  class_loop fuel acc p = Ok (acc ++ (entry_range <$> l), skip (S (length (print_entries l))) p).
Proof.
  induction l as [|[a b] l IH]; intros fuel acc k p Hok Hk Er Hf; (destruct fuel as [|fuel]; [cbn in Hf; lia|]); cbn [class_loop].
  - rewrite (peek_is_head _ "]"%byte k) by done. cbn. by rewrite app_nil_r.
  - cbn [entries_ok] in Hok. rewrite !andb_true_iff in Hok. destruct Hok as [[[Ha Hle] Hb] Hl]. cbn [fst snd] in *.
    rewrite print_entries_cons, <- app_assoc in Er. unfold print_entry in Er at 1. cbn [fst snd] in Er. rewrite <- app_assoc in Er.
    assert (utf8_valid (print_entries l ++ gbnf "]" ++ k) = true) as Hv.
    { rewrite utf8_valid_app by by apply entries_valid. by rewrite utf8_valid_app. }
    assert (forall b', b = Some b' -> utf8_valid (gbnf "-" ++ w_text b' ++ print_entries l ++ gbnf "]" ++ k) = true) as Hv'.
    { intros b' ->. change (gbnf "-") with ["-"%byte]. cbn [app]. rewrite utf8_valid_ascii by done. by rewrite utf8_valid_app by by apply written_valid. }
    set (after := match b with Some upper => gbnf "-" ++ w_text upper | None => [] end ++ print_entries l ++ gbnf "]" ++ k) in *.
    assert (utf8_valid after = true) as Hva by (unfold after; destruct b as [b|]; [rewrite <- app_assoc; by apply Hv' | done]).
    destruct (codepoint_written a _ p Ha Hva Er) as (Ec & Ebr & Epk).
    rewrite Ebr, bool_decide_eq_false_2 by done. rewrite Ec. set (p1 := skip (length (w_text a)) p).
    pose proof (rest_skip _ _ _ Er) as Er1. fold p1 in Er1. unfold after in Er1. clear after Hva Er.
    assert ((w_value (default a b) <? w_value a) = false) as Hnd by (apply Z.ltb_ge; by apply Z.leb_le in Hle).
    destruct b as [b|].
    + rewrite <- app_assoc in Er1. change (gbnf "-") with ["-"%byte] in Er1. cbn [app] in Er1. rewrite (peek_is_head _ _ _ _ Er1).
      assert (rest (skip 1 p1) = w_text b ++ print_entries l ++ gbnf "]" ++ k) as Er2 by by rewrite rest_skip_drop, Er1.
      destruct (codepoint_written b _ _ Hb Hv Er2) as (Ec2 & Hbr2 & _).
      assert (source p1 !! S (position p1) <> Some "]"%byte) as Hnb.
      { unfold peek_is in Hbr2. apply bool_decide_eq_false in Hbr2. intros E. apply Hbr2. unfold peek. cbn. by rewrite Nat.add_1_r. }
      rewrite bool_decide_eq_false_2 by done. change (is_byte "-" "-") with true. cbn [andb negb]. rewrite Ec2.
      change (default a (Some b)) with b in Hnd. rewrite Hnd. pose proof (rest_skip _ _ _ Er2) as Er3. rewrite (IH fuel _ k _ Hl Hk Er3) by (cbn in Hf; lia).
      rewrite <- app_assoc, !skip_skip, print_entries_cons. unfold p1, print_entry, entry_range. cbn [fst snd default fmap list_fmap]. rewrite !skip_skip.
      f_equal. f_equal. f_equal. rewrite !length_app. change (length (gbnf "-")) with 1%nat. lia.
    + cbn [app] in Er1. assert (peek_is "-" p1 && negb (bool_decide (source p1 !! S (position p1) = Some "]"%byte)) = false) as ->.
      { assert (peek (skip 1 p1) = head (rest (skip 1 p1))) as Hp2 by apply peek_rest. unfold peek in Hp2. cbn [skip source position] in Hp2.
        rewrite Nat.add_1_r in Hp2. rewrite Hp2, rest_skip_drop, Er1. rewrite app_assoc in Er1.
        destruct (print_entries l ++ gbnf "]") as [|c t] eqn:Et; [by destruct (print_entries l)|].
        cbn [app] in Er1. rewrite (peek_is_head _ _ _ _ Er1). unfold no_range in Hb. destruct (is_byte "-" c) eqn:Ec1; [|done].
        cbn [negb orb] in Hb. destruct t as [|d t]; [done|]. apply bool_decide_eq_true in Hb as ->.
        rewrite app_assoc, Et. cbn [app drop head]. by rewrite bool_decide_eq_true_2. }
      change (default a None) with a in Hnd. rewrite Hnd. rewrite (IH fuel _ k _ Hl Hk Er1) by (cbn in Hf; lia).
      rewrite <- app_assoc, print_entries_cons. unfold p1, print_entry, entry_range. cbn [fst snd default fmap list_fmap]. rewrite skip_skip, app_nil_r.
      f_equal. f_equal. f_equal. rewrite length_app. lia.
Qed.
Lemma character_class_reads inverted l k p : class_ok inverted l = true -> utf8_valid k = true ->
  rest p = print_piece (Class inverted l) ++ k ->
  character_class p = Ok (mkCharSet inverted (entry_range <$> l), skip (length (print_piece (Class inverted l))) p).
Proof.
  unfold class_ok. intros [Hok Hinv]%andb_true_iff Hk Er. cbn [print_piece] in *. rewrite <- !app_assoc in Er.
  unfold character_class. assert (rest (skip 1 p) = (if inverted then gbnf "^" else []) ++ print_entries l ++ gbnf "]" ++ k) as Er1 by by rewrite rest_skip_drop, Er.
  pose proof (f_equal length Er) as El. rewrite length_rest in El. rewrite !length_app in El. cbn [length gbnf] in El.
  assert (length l <= length (print_entries l))%nat as Hlen.
  { clear -Hok. induction l as [|[a b] l IH]; [done|]. cbn [entries_ok] in Hok. rewrite !andb_true_iff in Hok. destruct Hok as [[[Ha _] _] Hl].
    rewrite print_entries_cons, length_app. specialize (IH Hl). unfold print_entry. rewrite length_app. cbn [fst length].
    unfold written_ok in Ha. apply bool_decide_eq_true in Ha. cbn [fst] in *. destruct (w_text a); [done|]. cbn. lia. }
  change (length (gbnf "[")) with 1%nat in El. change (length (gbnf "]")) with 1%nat in El. destruct inverted.
  - cbn [app] in Er1. change (gbnf "^") with ["^"%byte] in *. cbn [app] in Er1. rewrite (peek_is_head _ _ _ _ Er1). change (is_byte "^" "^") with true. cbv iota.
    assert (rest (skip 1 (skip 1 p)) = print_entries l ++ gbnf "]" ++ k) as Er2 by by rewrite rest_skip_drop, Er1.
    rewrite (class_loop_reads l _ _ k _ Hok Hk Er2) by (cbn [skip source length] in *; lia). rewrite !skip_skip. cbn [app].
    f_equal. f_equal. f_equal. rewrite length_app. cbn [length]. rewrite length_app. change (length (gbnf "[")) with 1%nat.
    change (length (gbnf "]")) with 1%nat. lia.
  - cbn [app orb] in *. assert (peek_is "^" (skip 1 p) = false) as ->.
    { destruct (print_entries l) as [|c t]; [by rewrite (peek_is_head _ "]"%byte k)|]. cbn [app] in Er1.
      rewrite (peek_is_head _ _ _ _ Er1). by destruct (is_byte "^" c). }
    rewrite (class_loop_reads l _ _ k _ Hok Hk Er1) by (cbn [skip source length] in *; lia). rewrite !skip_skip. cbn [app].
    f_equal. f_equal. f_equal. rewrite !length_app. change (length (gbnf "[")) with 1%nat. change (length (gbnf "]")) with 1%nat. lia.
Qed.

(** ** Repetitions. *)
Lemma span_app f a k : Forall (fun b => f b = true) a -> match k with b :: _ => f b = false | [] => True end ->
  span f (a ++ k) = length a.
Proof.
  intros Ha Hk. induction Ha as [|b a Hb Ha IH]; cbn; [|by rewrite Hb, IH]. destruct k as [|c k]; [done|]. cbn. by rewrite Hk.
Qed.
Lemma number_reads n k p : 0 <= n < 10 ^ 19 -> match k with b :: _ => is_digit b = false | [] => True end ->
  rest p = to_decimal n ++ k -> number p = Ok (n, skip (length (to_decimal n)) p).
Proof.
  intros Hn Hk Er. destruct (to_decimal_spec n) as (Hd & Hv & w & Hw & _); [lia|].
  assert (span is_digit (rest p) = length (to_decimal n)) as Es by (rewrite Er; by apply span_app).
  unfold number, spanned, skip_while. rewrite Es, Er, take_app_length. destruct (to_decimal n) as [|b l] eqn:E; [done|].
  unfold parse_uint. rewrite Hv. destruct (Z.ltb_spec n (2 ^ 64)); [done | lia].
Qed.
(** The byte before the parser's position. *)
Definition prev (p : Parser) : option byte := match position p with O => None | S n => source p !! n end.
Lemma prev_skip a c k p : rest p = a ++ c :: k -> prev (skip (S (length a)) p) = Some c.
Proof.
  intros E. unfold prev. cbn [position skip source]. rewrite Nat.add_succ_r. unfold rest in E.
  rewrite <- lookup_drop, E, lookup_app_r, Nat.sub_diag by lia. done.
Qed.
Lemma repetition_some p : repetition p =
  let p := skip_horizontal p in
  let? (rep, p) :=
    if peek_is "?" p then Ok (Some (0, Some 1), p)
    else if peek_is "*" p then Ok (Some (0, None), p)
    else if peek_is "+" p then Ok (Some (1, None), p)
    else if peek_is "{" p then let? (rep, p) := repetition_range p in Ok (Some rep, p)
    else Ok (None, p) in
  if bool_decide (rep <> None) && negb (bool_decide (prev p = Some "}"%byte)) then Ok (rep, skip 1 p) else Ok (rep, p).
Proof. done. Qed.
Lemma expect_reads e k p : rest p = e ++ k -> expect e p = Ok (skip (length e) p).
Proof. intros E. unfold expect. by rewrite E, take_app_length, bool_decide_eq_true_2. Qed.
Lemma length_braces m : length (gbnf "{" ++ m ++ gbnf "}") = (length m + 2)%nat.
Proof. rewrite !length_app. change (length (gbnf "{")) with 1%nat. change (length (gbnf "}")) with 1%nat. lia. Qed.
Lemma repetition_range_reads suffix k p : suffix_ok suffix = true -> rest p = print_suffix suffix ++ k ->
  match suffix with Exactly _ | AtLeast _ | Between _ _ => True | _ => False end ->
  repetition_range p = Ok (suffix_bounds suffix, skip (length (print_suffix suffix)) p).
Proof.
  intros Hok Er Hs.
  assert (forall m t, 0 <= m < 5000 -> rest p = gbnf "{" ++ to_decimal m ++ t -> match t with b :: _ => is_digit b = false | [] => True end ->
    number (skip 1 p) = Ok (m, skip (1 + length (to_decimal m)) p) /\ rest (skip (1 + length (to_decimal m)) p) = t) as Hnum.
  { intros m t Hm Et Ht. assert (rest (skip 1 p) = to_decimal m ++ t) as E1 by by rewrite rest_skip_drop, Et. rewrite <- skip_skip.
    split; [by apply number_reads with (k := t); [lia | |]|]. by apply rest_skip. }
  unfold repetition_range. destruct suffix as [| | | |n|n|m n]; try done; cbn [print_suffix suffix_bounds suffix_ok] in *.
  - rewrite andb_true_iff, Z.leb_le, Z.ltb_lt in Hok. rewrite <- !app_assoc in Er. destruct (Hnum n _ ltac:(lia) Er) as [E1 E2]; [done|].
    cbv zeta. rewrite E1. cbv beta iota. change (gbnf "}" ++ k) with ("}"%byte :: k) in E2. rewrite (peek_is_head _ _ _ _ E2). change (is_byte "}" "}") with true. cbv beta iota.
    rewrite (expect_reads ["}"%byte] k) by done. rewrite skip_skip, length_braces. f_equal. f_equal. f_equal. cbn. lia.
  - rewrite andb_true_iff, Z.leb_le, Z.ltb_lt in Hok. rewrite <- !app_assoc in Er. destruct (Hnum n _ ltac:(lia) Er) as [E1 E2]; [done|].
    cbv zeta. rewrite E1. cbv beta iota. change (gbnf ",}" ++ k) with (","%byte :: "}"%byte :: k) in E2. rewrite !(peek_is_head _ _ _ _ E2).
    change (is_byte "}" ",") with false. change (is_byte "," ",") with true. cbv beta iota.
    assert (rest (skip 1 (skip (1 + length (to_decimal n)) p)) = "}"%byte :: k) as E3 by by rewrite rest_skip_drop, E2.
    rewrite (peek_is_head _ _ _ _ E3). change (is_byte "}" "}") with true. cbv beta iota.
    rewrite (expect_reads ["}"%byte] k) by done. rewrite !skip_skip. f_equal. f_equal. f_equal.
    rewrite !length_app. change (length (gbnf "{")) with 1%nat. change (length (gbnf ",}")) with 2%nat. cbn. lia.
  - rewrite !andb_true_iff, !Z.leb_le, Z.ltb_lt in Hok. rewrite <- !app_assoc in Er. destruct (Hnum m _ ltac:(lia) Er) as [E1 E2]; [done|].
    cbv zeta. rewrite E1. cbv beta iota. change (gbnf "," ++ to_decimal n ++ gbnf "}" ++ k) with (","%byte :: to_decimal n ++ "}"%byte :: k) in E2.
    rewrite !(peek_is_head _ _ _ _ E2). change (is_byte "}" ",") with false. change (is_byte "," ",") with true. cbv beta iota.
    set (q := skip 1 (skip (1 + length (to_decimal m)) p)).
    assert (rest q = to_decimal n ++ "}"%byte :: k) as E3 by (unfold q; by rewrite rest_skip_drop, E2).
    destruct (to_decimal_spec n) as (Hd & _ & w & Hw & _); [lia|].
    assert (peek_is "}" q = false) as ->.
    { destruct (to_decimal n) as [|b l]; [done|]. cbn [app] in E3. rewrite (peek_is_head _ _ _ _ E3). apply Forall_cons in Hd as [Hb _].
      apply bool_decide_eq_false. intros ->. done. }
    rewrite (number_reads n ("}"%byte :: k) q) by (try lia; done). cbv beta iota. pose proof (rest_skip _ _ _ E3) as E4.
    rewrite (expect_reads ["}"%byte] k) by done. unfold q. rewrite !skip_skip. f_equal. f_equal. f_equal.
    rewrite !length_app. change (length (gbnf "{")) with 1%nat. change (length (gbnf "}")) with 1%nat. change (length (gbnf ",")) with 1%nat. cbn. lia.
Qed.
(** A written repetition in braces ends in one. *)
Lemma print_suffix_braces suffix : match suffix with Exactly _ | AtLeast _ | Between _ _ => True | _ => False end ->
  exists t, print_suffix suffix = "{"%byte :: t ++ ["}"%byte].
Proof.
  destruct suffix as [| | | |n|n|m n]; try done; intros _; cbn [print_suffix].
  - by exists (to_decimal n).
  - exists (to_decimal n ++ [","%byte]). by rewrite <- app_assoc.
  - exists (to_decimal m ++ gbnf "," ++ to_decimal n). by rewrite <- !app_assoc.
Qed.
Lemma skip_horizontal_here p b t : rest p = b :: t -> blank b = false -> skip_horizontal p = p.
Proof. intros E Hb. unfold skip_horizontal, skip_while. rewrite E. cbn. unfold blank in Hb. rewrite Hb. by apply skip_0. Qed.
Lemma repetition_reads suffix k p : suffix_ok suffix = true -> suffix <> Once -> rest p = print_suffix suffix ++ k ->
  prev p <> Some "}"%byte -> repetition p = Ok (Some (suffix_bounds suffix), skip (length (print_suffix suffix)) p).
Proof.
  intros Hok Hs Er Hprev. rewrite repetition_some. cbv zeta.
  assert (match suffix with Exactly _ | AtLeast _ | Between _ _ => True | _ => False end -> repetition p = Ok (Some (suffix_bounds suffix), skip (length (print_suffix suffix)) p)) as Hbraces.
  { intros Hb. rewrite repetition_some. cbv zeta. pose proof (repetition_range_reads suffix k p Hok Er Hb) as Hr.
    destruct (print_suffix_braces suffix Hb) as [t Et]. rewrite Et in *. cbn [app] in Er. rewrite (skip_horizontal_here _ _ _ Er) by done.
    rewrite !(peek_is_head _ _ _ _ Er).
    change (is_byte "?" "{") with false. change (is_byte "*" "{") with false. change (is_byte "+" "{") with false.
    change (is_byte "{" "{") with true. cbv beta iota. rewrite Hr. cbv beta iota. rewrite <- app_assoc in Er. cbn [app] in Er.
    pose proof (prev_skip ("{"%byte :: t) "}"%byte k p Er) as Hp.
    replace (length ("{"%byte :: t ++ ["}"%byte])) with (S (length ("{"%byte :: t))) by (cbn; rewrite length_app; cbn; lia).
    rewrite Hp. by rewrite (bool_decide_eq_true_2 (Some _ = Some _)), andb_false_r by done. }
  destruct suffix; try done; try (by rewrite <- repetition_some; apply Hbraces); cbn [print_suffix] in Er;
    [change (rest p = "?"%byte :: k) in Er|change (rest p = "*"%byte :: k) in Er|change (rest p = "+"%byte :: k) in Er];
    rewrite (skip_horizontal_here _ _ _ Er) by done; rewrite !(peek_is_head _ _ _ _ Er).
  - change (is_byte "?" "?") with true. cbv beta iota. by rewrite (bool_decide_eq_false_2 (prev p = _)).
  - change (is_byte "?" "*") with false. change (is_byte "*" "*") with true. cbv beta iota. by rewrite (bool_decide_eq_false_2 (prev p = _)).
  - change (is_byte "?" "+") with false. change (is_byte "*" "+") with false. change (is_byte "+" "+") with true. cbv beta iota.
    by rewrite (bool_decide_eq_false_2 (prev p = _)).
Qed.
(** Nothing that follows a piece without a suffix looks like one. *)
Definition plain (k : str) : bool := match trim k with b :: _ => negb (is_byte "?" b || is_byte "*" b || is_byte "+" b || is_byte "{" b) | [] => true end.
Lemma repetition_once k p : rest p = k -> plain k = true -> repetition p = Ok (None, skip_horizontal p).
Proof.
  intros Er Hk. rewrite repetition_some. cbv zeta. pose proof (rest_skip_horizontal p) as Eh. rewrite Er in Eh. unfold plain in Hk.
  assert (forall b, is_byte "?" b || is_byte "*" b || is_byte "+" b || is_byte "{" b = true -> peek_is b (skip_horizontal p) = false) as Hn.
  { intros b Hb. destruct (trim k) as [|c t]; [unfold peek_is; by rewrite peek_rest, Eh|]. rewrite (peek_is_head _ _ _ _ Eh).
    apply bool_decide_eq_false. intros ->. by rewrite Hb in Hk. }
  by rewrite !Hn.
Qed.

(** ** What reading an expression adds to the parser. *)
Record good (p : Parser) : Prop := {
  gd_ok : parser_ok p;
  gd_inj t t' id : names p !! t = Some id -> names p !! t' = Some id -> t = t';
  gd_unclaimed : unclaimed p;
}.
Definition window (p p' : Parser) (n : nat) : Prop := (generated p <= n < generated p')%nat.
(** [p'] is [p] with the names [R], and with generated rules and their productions. *)
Record grows (R : list str) (p p' : Parser) : Prop := {
  gr_source : source p' = source p;
  gr_good : good p';
  gr_names : names p ⊆ names p';
  gr_gen : (generated p <= generated p')%nat;
  gr_new t id : names p' !! t = Some id -> is_Some (names p !! t) \/ t ∈ R \/ exists n, window p p' n /\ t = generated_name n;
  gr_refs t : t ∈ R -> is_Some (names p' !! t);
  gr_prods : exists new, prods p' = prods p ++ new /\
    Forall (fun pr => exists n, window p p' n /\ names p' !! generated_name n = Some (lhs pr)) new;
}.
(** Every generated rule has a production. *)
Definition filled (p p' : Parser) : Prop := forall n, window p p' n ->
  exists id α, names p' !! generated_name n = Some id /\ mkProduction id α ∈ prods p'.
(** A grammar that defines the rules generated between [p] and [p'] as [p'] does. *)
Definition settled (p p' : Parser) (g : Grammar) : Prop := forall n id α, window p p' n -> names p' !! generated_name n = Some id ->
  defines g id α <-> mkProduction id α ∈ prods p'.

Lemma grows_moved p p' : good p -> parser_ok p' -> source p' = source p -> names p' = names p -> prods p' = prods p ->
  generated p' = generated p -> grows [] p p'.
Proof.
  intros [Hp Hi Hu] Hp' Hs Hn Hpr Hg. split; [done| | |lia| | |].
  - split; [done|rewrite Hn; apply Hi|]. intros n Hle. rewrite Hn. apply Hu. lia.
  - by rewrite Hn.
  - intros t id. rewrite Hn. intros Ht. left. by exists id.
  - by intros t ?%elem_of_nil.
  - exists []. by rewrite app_nil_r.
Qed.
Lemma grows_skip n p : good p -> (position p + n <= length (source p))%nat -> grows [] p (skip n p).
Proof. intros Hg Hn. apply grows_moved; try done. apply step_skip; [apply Hg | done]. Qed.
Lemma good_skip n p : good p -> (position p + n <= length (source p))%nat -> good (skip n p).
Proof. intros Hg Hn. by apply (gr_good _ _ _ (grows_skip n p Hg Hn)). Qed.
Lemma rest_length n p : good p -> (n <= length (rest p))%nat -> (position p + n <= length (source p))%nat.
Proof. intros [Hp _ _] Hn. rewrite length_rest in Hn. pose proof (po_position _ Hp). lia. Qed.
Lemma window_trans p q r n : (generated p <= generated q)%nat -> (generated q <= generated r)%nat ->
  window p r n <-> window p q n \/ window q r n.
Proof. unfold window. lia. Qed.
Lemma grows_trans R R' p q r : grows R p q -> grows R' q r -> grows (R ++ R') p r.
Proof.
  intros H1 H2. pose proof (gr_gen _ _ _ H1) as G1. pose proof (gr_gen _ _ _ H2) as G2. split.
  - by rewrite (gr_source _ _ _ H2), (gr_source _ _ _ H1).
  - apply H2.
  - etrans; [apply H1 | apply H2].
  - lia.
  - intros t id Ht. destruct (gr_new _ _ _ H2 _ _ Ht) as [[id' Ht']|[Hr|(n & Hn & ->)]].
    + destruct (gr_new _ _ _ H1 _ _ Ht') as [?|[?|(n & Hn & ->)]]; [by left | right; left; apply elem_of_app; by left |].
      right; right. exists n. split; [|done]. apply (window_trans p q r); auto.
    + right; left. apply elem_of_app. by right.
    + right; right. exists n. split; [|done]. apply (window_trans p q r); auto.
  - intros t [Ht|Ht]%elem_of_app; [|by apply H2]. destruct (gr_refs _ _ _ H1 _ Ht) as [id Hid]. exists id.
    by apply (lookup_weaken _ _ _ _ Hid), H2.
  - destruct (gr_prods _ _ _ H1) as (n1 & E1 & F1), (gr_prods _ _ _ H2) as (n2 & E2 & F2). exists (n1 ++ n2).
    split; [by rewrite E2, E1, app_assoc|]. apply Forall_app. split; (eapply Forall_impl; [eassumption|]); intros pr (n & Hn & Hid); exists n.
    + split; [apply (window_trans p q r); auto|]. by apply (lookup_weaken _ _ _ _ Hid), H2.
    + split; [apply (window_trans p q r); auto | done].
Qed.
Lemma grows_weaken R R' p q : grows R p q -> (forall t, t ∈ R <-> t ∈ R') -> grows R' p q.
Proof.
  intros H E. destruct H as [H1 H2 H3 H4 H5 H6 H7]. split; try done.
  - intros t id Ht. rewrite <- E. by eapply H5.
  - intros t Ht%E. by apply H6.
Qed.
Lemma in_prods R p p' pr : grows R p p' -> pr ∈ prods p -> pr ∈ prods p'.
Proof. intros H Hp. destruct (gr_prods _ _ _ H) as (new & -> & _). apply elem_of_app. by left. Qed.
Lemma filled_trans R p q r : (generated p <= generated q)%nat -> grows R q r -> filled p q -> filled q r -> filled p r.
Proof.
  intros Hle H H1 H2 n Hn. apply (window_trans p q r) in Hn as [Hn|Hn]; [|by apply H2|done|apply H].
  destruct (H1 n Hn) as (id & α & Hid & Hin). exists id, α. split; [by apply (lookup_weaken _ _ _ _ Hid), H | by eapply in_prods].
Qed.
Lemma filled_empty p p' : generated p' = generated p -> filled p p'.
Proof. intros E n Hn. unfold window in Hn. lia. Qed.
Lemma settled_trans R R' p q r g : grows R p q -> grows R' q r -> settled p r g -> settled p q g /\ settled q r g.
Proof.
  intros H1 H2 Hs. pose proof (gr_gen _ _ _ H1) as G1. pose proof (gr_gen _ _ _ H2) as G2. split.
  - intros n id α Hn Hid. assert (names r !! generated_name n = Some id) as Hid' by by apply (lookup_weaken _ _ _ _ Hid), H2.
    rewrite (Hs n id α); [|apply (window_trans p q r); auto | done]. destruct (gr_prods _ _ _ H2) as (new & -> & Hnew).
    rewrite elem_of_app. split; [|by left]. intros [?|Hin]; [done|]. exfalso. rewrite Forall_forall in Hnew.
    destruct (Hnew _ Hin) as (m & Hm & Hmid). cbn in Hmid.
    pose proof (gd_inj _ (gr_good _ _ _ H2) _ _ _ Hid' Hmid) as E%(inj generated_name). unfold window in *. lia.
  - intros n id α Hn Hid. apply (Hs n id α); [apply (window_trans p q r); auto | done].
Qed.

(** Fresh rules, their productions, and names. *)
Lemma grows_rule_id t p id p' : good p -> rule_id t p = (id, p') ->
  (forall n, (generated p <= n)%nat -> t <> generated_name n) ->
  grows [t] p p' /\ names p' !! t = Some id /\ generated p' = generated p /\ position p' = position p /\ prods p' = prods p.
Proof.
  intros Hg Er Hu. pose proof (rule_id_spec t p (gd_ok _ Hg)) as Hs. rewrite Er in Hs. destruct Hs as (Hst & Hlt & Hid).
  unfold rule_id in Er. destruct (names p !! t) as [id'|] eqn:E.
  - injection Er as <- <-. split; [|done]. pose proof (grows_moved p p Hg (gd_ok _ Hg) eq_refl eq_refl eq_refl eq_refl) as [H1 H2 H3 H4 H5 H6 H7].
    split; try done.
    + intros t' i Ht'. left. by exists i.
    + intros t' ->%list_elem_of_singleton. by exists id'.
  - injection Er as <- <-. split; [|done]. cbn in *. split; cbn; [done| | |done| | |].
    + split; [apply Hst| |].
      * cbn. intros t1 t2 i H1 H2. apply lookup_insert_Some in H1, H2. pose proof (po_names _ (gd_ok _ Hg)) as Hn.
        destruct H1 as [[<- <-]|[N1 H1]], H2 as [[<- H2]|[N2 H2]]; [done| | |by eapply gd_inj].
        -- assert (size (names p) < size (names p))%nat by (apply Hn; by exists t2). lia.
        -- subst i. assert (size (names p) < size (names p))%nat by (apply Hn; by exists t1). lia.
      * intros n Hn. cbn in *. rewrite lookup_insert_ne; [by apply Hg|]. by apply Hu.
    + by apply insert_subseteq.
    + intros t' i. rewrite lookup_insert_Some. intros [[<- <-]|[_ Ht']]; [right; left; apply list_elem_of_singleton; done | left; by exists i].
    + intros t' ->%list_elem_of_singleton. exists (size (names p)). by rewrite lookup_insert, decide_True.
    + exists []. by rewrite app_nil_r.
Qed.
Lemma grows_fresh p id p' : good p -> fresh_rule p = (id, p') ->
  grows [] p p' /\ names p' !! generated_name (generated p) = Some id /\ generated p' = S (generated p) /\
  position p' = position p /\ prods p' = prods p.
Proof.
  intros Hg Er. unfold fresh_rule in Er. set (p1 := mkParser (source p) (position p) (names p) (prods p) (S (generated p))) in *.
  assert (good p1) as Hg1.
  { destruct Hg as [[H1 H2 H3] Hi Hu]. split; [by split | done|]. intros n Hn. apply Hu. cbn in *. lia. }
  destruct (grows_rule_id _ _ _ _ Hg1 Er) as (H & Hid & Hgen & Hpos & Hpr).
  { intros n Hn E%(inj generated_name). cbn in Hn. lia. }
  cbn in Hgen, Hpos, Hpr. split; [|by rewrite Hgen]. destruct H as [A1 A2 A3 A4 A5 A6 A7].
  assert (forall n, window p1 p' n -> window p p' n) as Hw by (unfold window; cbn; lia).
  split; try done; [lia| | |].
  - intros t i Ht. destruct (A5 t i Ht) as [?|[->%list_elem_of_singleton|(n & Hn & ->)]]; [by left| |].
    + right; right. exists (generated p). split; [unfold window; lia | done].
    + right; right. exists n. eauto.
  - by intros t ?%elem_of_nil.
  - destruct A7 as (new & E & F). exists new. split; [done|]. eapply Forall_impl; [exact F|]. intros pr (n & Hn & ?). eauto.
Qed.
Lemma grows_push R p p' pr n : grows R p p' -> window p p' n -> names p' !! generated_name n = Some (lhs pr) ->
  prod_ok (size (names p')) pr -> grows R p (push_production pr p').
Proof.
  intros H Hn Hid Hok. pose proof (step_push pr p' (gd_ok _ (gr_good _ _ _ H)) Hok) as Hst. destruct H as [H1 [G1 G2 G3] H3 H4 H5 H6 H7].
  split; try done.
  - split; [apply Hst | done | done].
  - destruct H7 as (new & E & F). exists (new ++ [pr]). cbn. split; [by rewrite E, app_assoc|]. apply Forall_app. split; [done|].
    constructor; [|constructor]. by exists n.
Qed.

(** Every generated rule but [m] has a production. *)
Definition filled_but (m : nat) (p p' : Parser) : Prop := forall n, window p p' n -> n <> m ->
  exists id α, names p' !! generated_name n = Some id /\ mkProduction id α ∈ prods p'.
Lemma filled_but_push m p p' pr : filled_but m p p' -> filled_but m p (push_production pr p').
Proof. intros H n Hn Hne. destruct (H n Hn Hne) as (id & α & ? & ?). exists id, α. split; [done|]. cbn. apply elem_of_app. by left. Qed.
Lemma filled_push m p p' id α : filled_but m p p' -> names p' !! generated_name m = Some id ->
  filled p (push_production (mkProduction id α) p').
Proof.
  intros H Hid n Hn. destruct (decide (n = m)) as [-> |Hne]; [|by apply (filled_but_push m p p' _ H)].
  exists id, α. split; [done|]. cbn. apply elem_of_app. right. by apply list_elem_of_singleton.
Qed.
(** A fresh rule in a window that is filled. *)
Lemma fresh_in_window p q id q' : grows [] p q -> filled p q -> fresh_rule q = (id, q') ->
  grows [] p q' /\ window p q' (generated q) /\ names q' !! generated_name (generated q) = Some id /\ filled_but (generated q) p q' /\
  position q' = position q /\ prods q' = prods q /\ (id < size (names q'))%nat.
Proof.
  intros H Hf Er. pose proof (gr_gen _ _ _ H) as Hle. destruct (grows_fresh q id q' (gr_good _ _ _ H) Er) as (H1 & Hid & Hgen & Hpos & Hpr).
  pose proof (grows_trans [] [] _ _ _ H H1) as H2. split; [done|]. split; [unfold window; lia|]. split; [done|]. split; [|split; [done|]; split; [done|]].
  - intros n Hn Hne. destruct (Hf n) as (i & α & Hi & Hin); [unfold window in *; lia|]. exists i, α. rewrite Hpr. split; [|done].
    by apply (lookup_weaken _ _ _ _ Hi), H1.
  - apply (po_names _ (gd_ok _ (gr_good _ _ _ H2))). by eexists.
Qed.
Lemma window_lt p q m id : grows [] p q -> names q !! generated_name m = Some id -> (id < size (names q))%nat.
Proof. intros H Hid. apply (po_names _ (gd_ok _ (gr_good _ _ _ H))). by eexists. Qed.
Lemma names_le R p q : grows R p q -> (size (names p) <= size (names q))%nat.
Proof. intros H. apply map_subseteq_size, H. Qed.
Lemma grows_optional_tail body optional : forall tail p q n, (0 < optional)%nat -> grows [] p q -> window p q n ->
  names q !! generated_name n = Some tail -> filled_but n p q -> Forall (sym_ok (size (names q))) body ->
  let r := optional_tail body tail optional q in grows [] p r /\ filled p r /\ position r = position q /\ names q ⊆ names r.
Proof.
  induction optional as [|rest IH]; intros tail p q n Hpos H Hn Hid Hf Hb; [lia|]. cbn [optional_tail].
  pose proof (window_lt _ _ _ _ H Hid) as Hlt.
  pose proof (grows_push [] p q (mkProduction tail []) n H Hn Hid) as H1. specialize (H1 ltac:(split; [done | constructor])).
  pose proof (filled_push n p q tail [] Hf Hid) as Hf1. set (q1 := push_production (mkProduction tail []) q) in *.
  destruct rest as [|rest].
  - split; [|split; [|done]].
    + by apply (grows_push [] p q1 _ n).
    + apply (filled_push n); [|done]. intros m Hm _. by apply Hf1.
  - destruct (fresh_rule q1) as [next q2] eqn:Er. destruct (fresh_in_window p q1 next q2 H1 Hf1 Er) as (H2 & Hw2 & Hid2 & Hf2 & Hpos2 & Hpr2 & Hlt2).
    pose proof (grows_fresh q1 next q2 (gr_good _ _ _ H1) Er) as (H12 & _).
    assert (names q2 !! generated_name n = Some tail) as Hid' by by apply (lookup_weaken _ _ _ _ Hid), H12.
    assert (window p q2 n) as Hn' by (pose proof (gr_gen _ _ _ H12) as Hg; cbn in Hg; unfold window in *; lia).
    assert (Forall (sym_ok (size (names q2))) body) as Hb2 by (eapply syms_ok_mono; [|exact Hb]; exact (names_le _ _ _ H12)).
    pose proof (names_le _ _ _ H12) as Hle. cbn in Hle.
    assert (grows [] p (push_production (mkProduction tail (body ++ [Rule next])) q2)) as H3.
    { apply (grows_push [] p q2 _ n); [done..|]. split; [cbn; lia|]. cbn. apply Forall_app. by split; [|apply Forall_singleton]. }
    destruct (IH next p _ (generated q1) ltac:(lia) H3 Hw2 Hid2 (filled_but_push _ _ _ _ Hf2) Hb2) as (A & B & C & D).
    split; [done|]. split; [done|]. rewrite C. cbn. split; [by rewrite Hpos2|]. etrans; [apply H12 | exact D].
Qed.
Lemma grows_repeat_rule body minimum maximum p rule p' : good p -> Forall (sym_ok (size (names p))) body ->
  repeat_rule body minimum maximum p = Ok (rule, p') -> grows [] p p' /\ filled p p' /\ position p' = position p /\ (rule < size (names p'))%nat.
Proof.
  intros Hg Hb. unfold repeat_rule. destruct (_ || _); [done|]. destruct (fresh_rule p) as [rule0 p1] eqn:E1.
  pose proof (grows_moved p p Hg (gd_ok _ Hg) eq_refl eq_refl eq_refl eq_refl) as H0.
  destruct (fresh_in_window p p rule0 p1 H0 (filled_empty p p eq_refl) E1) as (H1 & Hw1 & Hid1 & Hf1 & Hpos1 & _ & Hlt1).
  set (required := repeat_symbols body (Z.to_nat minimum)).
  assert (forall q, grows [] p q -> Forall (sym_ok (size (names q))) required) as Hreq.
  { intros q Hq. apply repeat_symbols_ok. eapply syms_ok_mono; [|exact Hb]. exact (names_le _ _ _ Hq). }
  assert (forall q α, grows [] p q -> names q !! generated_name (generated p) = Some rule0 -> window p q (generated p) -> position q = position p ->
    filled_but (generated p) p q -> Forall (sym_ok (size (names q))) α -> let p' := push_production (mkProduction rule0 α) q in
    grows [] p p' /\ filled p p' /\ position p' = position p /\ (rule0 < size (names p'))%nat) as Hlast.
  { intros q α Hq Hid Hw Hp Hf Hα. pose proof (window_lt _ _ _ _ Hq Hid) as Hlt. split; [by apply (grows_push [] p q _ (generated p))|].
    split; [by apply (filled_push (generated p)) | done]. }
  destruct (grows_fresh p rule0 p1 Hg E1) as (_ & _ & Hgen1 & _).
  destruct maximum as [maximum|]; [destruct (Nat.ltb_spec 0 (Z.to_nat (maximum - minimum))) as [Ho|Ho]|].
  2:{ intros [= <- <-]. apply Hlast; try done. by apply Hreq. }
  all: destruct (fresh_rule p1) as [tail p2] eqn:E2; destruct (grows_fresh p1 tail p2 (gr_good _ _ _ H1) E2) as (H12 & Hid2 & Hgen2 & Hpos2 & Hpr2);
    pose proof (grows_trans [] [] _ _ _ H1 H12) as H2;
    assert (window p1 p2 (generated p1)) as Hw12 by (unfold window; lia);
    assert (filled_but (generated p1) p1 p2) as Hf12 by (intros n Hn Hne; unfold window in Hn; lia);
    pose proof (window_lt _ _ _ _ H2 Hid2) as Hlt2; intros [= <- <-].
  - destruct (grows_optional_tail body _ tail p1 p2 (generated p1) Ho H12 Hw12 Hid2 Hf12) as (H13 & Hf13 & Hpos3 & Hn3).
    { eapply syms_ok_mono; [|exact Hb]. exact (names_le _ _ _ H2). }
    set (p3 := optional_tail _ _ _ _) in *. pose proof (grows_trans [] [] _ _ _ H1 H13) as H3. pose proof (gr_gen _ _ _ H13) as Hg13. apply Hlast; try done.
    + by apply (lookup_weaken _ _ _ _ Hid1), H13.
    + unfold window in *. lia.
    + congruence.
    + intros n Hn Hne. apply Hf13. unfold window in *. lia.
    + apply Forall_app. split; [by apply Hreq|]. apply Forall_singleton. cbn. pose proof (map_subseteq_size _ _ Hn3). lia.
  - set (q1 := push_production (mkProduction tail []) p2). set (q2 := push_production (mkProduction tail (body ++ [Rule tail])) q1).
    assert (grows [] p1 q1) as G1 by (apply (grows_push [] p1 p2 _ (generated p1)); [done..|]; split; [done | constructor]).
    assert (Forall (sym_ok (size (names p2))) body) as Hb2 by (eapply syms_ok_mono; [|exact Hb]; exact (names_le _ _ _ H2)).
    assert (grows [] p1 q2) as G2.
    { apply (grows_push [] p1 q1 _ (generated p1)); [done..|]. split; [done|]. cbn. apply Forall_app. by split; [|apply Forall_singleton]. }
    assert (filled p1 q2) as F2 by (apply (filled_push (generated p1)); [by apply filled_but_push | done]).
    pose proof (grows_trans [] [] _ _ _ H1 G2) as H3. apply Hlast.
    + done.
    + cbn. by apply (lookup_weaken _ _ _ _ Hid1), H12.
    + unfold window in *. cbn. lia.
    + cbn. congruence.
    + intros n Hn Hne. apply F2. unfold window in *. cbn in *. lia.
    + apply Forall_app. split; [by apply Hreq | by apply Forall_singleton].
Qed.

(** ** What an expression is read as. *)
Lemma lang_app_iff (L L' M M' : Lang) v : (forall v, L v <-> L' v) -> (forall v, M v <-> M' v) -> lang_app L M v <-> lang_app L' M' v.
Proof. intros HL HM. unfold lang_app. setoid_rewrite HL. by setoid_rewrite HM. Qed.
Lemma lang_power_iff (L L' : Lang) k : (forall v, L v <-> L' v) -> forall v, lang_power L k v <-> lang_power L' k v.
Proof. intros HL. induction k as [|k IH]; intros v; [done|]. cbn [lang_power]. by apply lang_app_iff. Qed.
Lemma lang_repeat_iff (L L' : Lang) suffix v : (forall v, L v <-> L' v) -> lang_repeat L suffix v <-> lang_repeat L' suffix v.
Proof. intros HL. unfold lang_repeat. by setoid_rewrite (fun k => lang_power_iff L L' k HL). Qed.
Lemma lang_repeat_once (L : Lang) v : lang_repeat L Once v <-> L v.
Proof.
  unfold lang_repeat. cbn. split.
  - intros (k & H1 & H2 & Hk). assert (k = 1%nat) as -> by lia. destruct Hk as (v1 & v2 & -> & Hv & ->). by rewrite app_nil_r.
  - intros Hv. exists 1%nat. split; [lia|]. split; [lia|]. exists v, []. by rewrite app_nil_r.
Qed.
Lemma yields_app_iff g α γ v : yields g (α ++ γ) v <-> lang_app (yields g α) (yields g γ) v.
Proof. split; [apply yields_app_inv|]. intros (v1 & v2 & -> & H1 & H2). by apply yields_app. Qed.
Lemma yields_nil_iff g v : yields g [] v <-> v = [].
Proof. split; [by inversion 1 | intros ->; constructor]. Qed.
Lemma yields_power g body k v : yields g (repeat_symbols body k) v <-> lang_power (yields g body) k v.
Proof.
  revert v. induction k as [|k IH]; intros v; [apply yields_nil_iff|]. rewrite repeat_symbols_S, yields_app_iff. by apply lang_app_iff.
Qed.
Lemma yields_terminal_iff g s v : yields g [Character s] v <-> exists i, v = [i] /\ matches (Character s) i = true.
Proof.
  split.
  - inversion 1 as [|s' i γ v' Hm Hy|]; subst. inversion Hy; subst. by exists i.
  - intros (i & -> & Hm). by repeat constructor.
Qed.
Lemma yields_literal g cs v : Forall (fun c => is_scalar c = true) cs ->
  yields g ((fun c => Character (CharSet_one c)) <$> cs) v <-> v = word cs.
Proof.
  intros Hcs. revert v. induction Hcs as [|c cs Hc Hcs IH]; intros v; [apply yields_nil_iff|]. rewrite fmap_cons.
  change (yields g ([Character (CharSet_one c)] ++ ((fun c => Character (CharSet_one c)) <$> cs)) v <-> v = word (c :: cs)).
  rewrite yields_app_iff. unfold lang_app. setoid_rewrite IH. setoid_rewrite yields_terminal_iff.
  assert (forall i, matches (Character (CharSet_one c)) i = true <-> i = IChar c) as Hone.
  { intros [c'|]; cbn; [|split; congruence]. unfold CharSet_one. rewrite CharSet_matches_spec. cbn. unfold in_ranges.
    setoid_rewrite list_elem_of_singleton. split; [|intros [= ->]; split; [done|]; intros _; exists (c, c); split; [done | cbn; lia]].
    intros Hr. destruct Hr as [_ Hr]. destruct (Hr eq_refl) as ([a b] & [= -> ->] & Hle). cbn in Hle. f_equal. lia. }
  split.
  - intros (v1 & v2 & -> & (i & -> & ->%Hone) & ->). done.
  - intros ->. exists [IChar c], (word cs). split; [done|]. split; [|done]. exists (IChar c). split; [done|]. by apply Hone.
Qed.

(** The languages of the rules of a grammar by their names in [N]. *)
Definition env (g : Grammar) (N : gmap str nat) (t : str) : Lang := fun v => exists id, N !! t = Some id /\ yields g [Rule id] v.
Record reading (R : list str) (p p' : Parser) (body : list Symbol) (L : (str -> Lang) -> Lang) : Prop := {
  rd_grows : grows R p p';
  rd_filled : filled p p';
  rd_ok : Forall (sym_ok (size (names p'))) body;
  rd_means g N v : names p' ⊆ N -> settled p p' g -> yields g body v <-> L (env g N) v;
}.
Lemma reading_moved R p q p' body L : reading R p q body L -> parser_ok p' -> source p' = source q -> names p' = names q ->
  prods p' = prods q -> generated p' = generated q -> reading R p p' body L.
Proof.
  intros [H1 H2 H3 H4] Hok Es En Ep Eg. pose proof (grows_moved q p' (gr_good _ _ _ H1) Hok Es En Ep Eg) as H5.
  pose proof (grows_trans _ _ _ _ _ H1 H5) as H6. rewrite app_nil_r in H6. split; [done| |by rewrite En|].
  - intros n Hn. rewrite En, Ep. apply H2. unfold window in *. by rewrite Eg in Hn.
  - intros g N v HN Hs. apply H4; [by rewrite <- En|]. intros n id α Hn Hid. rewrite <- Ep. apply (Hs n); [|by rewrite En]. unfold window in *. by rewrite Eg.
Qed.
Lemma reading_skip R p q n body L : reading R p q body L -> (position q + n <= length (source q))%nat -> reading R p (skip n q) body L.
Proof.
  intros H Hn. apply (reading_moved R p q); [done| |done..]. apply step_skip; [apply (rd_grows _ _ _ _ _ H) | done].
Qed.
(** Two readings, one after the other. *)
Lemma readings_app R R' p q r body body' L L' : reading R p q body L -> reading R' q r body' L' ->
  reading (R ++ R') p r (body ++ body') (fun E => lang_app (L E) (L' E)).
Proof.
  intros [G1 F1 O1 M1] [G2 F2 O2 M2]. split; [by eapply grows_trans | | |].
  - eapply filled_trans; [apply G1 | done | done | done].
  - apply Forall_app. split; [|done]. eapply syms_ok_mono; [|exact O1]. exact (names_le _ _ _ G2).
  - intros g N v HN Hs. destruct (settled_trans _ _ _ _ _ _ G1 G2 Hs) as [Hs1 Hs2]. rewrite yields_app_iff. apply lang_app_iff; intros w.
    + apply M1; [|done]. etrans; [apply G2 | done].
    + by apply M2.
Qed.
(** A rule whose productions are all where it was made. *)
Lemma settled_interval p p' g : good p -> grows [] p p' -> settled p p' g ->
  forall r α, (size (names p) <= r < size (names p'))%nat -> defines g r α <-> mkProduction r α ∈ prods p'.
Proof.
  intros Hg H Hs r α Hr. destruct (proj1 (po_names _ (gd_ok _ (gr_good _ _ _ H)) r)) as [t Ht]; [lia|].
  destruct (gr_new _ _ _ H _ _ Ht) as [[id Hid]|[?%elem_of_nil|(n & Hn & ->)]]; [|done|by apply (Hs n)].
  assert (id = r) as -> by (pose proof (lookup_weaken _ _ _ _ Hid (gr_names _ _ _ H)); congruence).
  assert (r < size (names p))%nat by (apply (po_names _ (gd_ok _ Hg)); by exists t). lia.
Qed.
(** The piece before a suffix, repeated. *)
Lemma reading_repeat R p q suffix body L k : reading R p q body L -> suffix_ok suffix = true -> suffix <> Once ->
  rest q = print_suffix suffix ++ k -> prev q <> Some "}"%byte ->
  exists body' p', repeated body q = Ok (body', p') /\ rest p' = k /\ reading R p p' body' (fun E => lang_repeat (L E) suffix).
Proof.
  intros H Hok Hs Er Hp. unfold repeated. rewrite (repetition_reads suffix k q Hok Hs Er Hp). cbv beta iota.
  set (q1 := skip (length (print_suffix suffix)) q). pose proof (gr_good _ _ _ (rd_grows _ _ _ _ _ H)) as Hgq.
  assert (position q + length (print_suffix suffix) <= length (source q))%nat as Hle.
  { apply rest_length; [done|]. rewrite Er, length_app. lia. }
  pose proof (reading_skip R p q _ body L H Hle) as H1. pose proof (good_skip _ _ Hgq Hle) as Hg1. fold q1 in H1, Hg1.
  destruct (suffix_bounds suffix) as [minimum maximum] eqn:Eb.
  assert (0 <= minimum < 5000 /\ match maximum with Some m => minimum <= m <= 5000 | None => True end) as [Hmin Hmax].
  { destruct suffix; injection Eb as <- <-; cbn in Hok; try done; rewrite ?andb_true_iff, ?Z.leb_le, ?Z.ltb_lt in Hok; lia. }
  destruct (repeat_rule body minimum maximum q1) as [[rule p']|e] eqn:Er1.
  2:{ unfold repeat_rule in Er1. assert ((5000 <=? minimum) || match maximum with Some m => (m <? minimum) || (5000 <? m) | None => false end = false) as Ef.
      { apply orb_false_iff. split; [apply Z.leb_gt; lia|]. destruct maximum as [m|]; [|done]. apply orb_false_iff. split; apply Z.ltb_ge; lia. }
      rewrite Ef in Er1. destruct (fresh_rule q1) as [x p1]. destruct maximum as [m|]; [destruct (_ <? _)%nat|]; try (destruct (fresh_rule p1)); done. }
  destruct (grows_repeat_rule body minimum maximum q1 rule p' Hg1 (rd_ok _ _ _ _ _ H1) Er1) as (G & F & Hpos & Hlt).
  exists [Rule rule], p'. split; [done|]. split.
  { unfold rest. rewrite Hpos, (gr_source _ _ _ G). change (rest q1 = k). by apply rest_skip. }
  destruct H1 as [G1 F1 O1 M1]. pose proof (grows_trans _ _ _ _ _ G1 G) as G2. rewrite app_nil_r in G2. split.
  - done.
  - eapply filled_trans; [apply G1 | exact G | done..].
  - by apply Forall_singleton.
  - intros g N v HN Hset. destruct (settled_trans _ _ _ _ _ _ G1 G Hset) as [Hs1 Hs2].
    rewrite (repeat_rule_language q1 body minimum maximum rule p' g (gd_ok _ Hg1) (gd_unclaimed _ Hg1)); [|lia|done|by apply settled_interval].
    unfold lang_repeat. rewrite Eb. cbn [fst snd]. apply exist_proper. intros n. rewrite yields_power.
    rewrite (lang_power_iff _ (L (env g N)) n); [done|]. intros w. apply M1; [|done]. etrans; [apply G | done].
Qed.

(** ** Where pieces start and end. *)
Definition opens (b : byte) : bool := is_byte x22 b || is_byte "[" b || is_byte "(" b || is_name_byte b.
Definition is_stop (closing : option byte) (b : byte) : bool := is_byte "|" b || is_newline b || bool_decide (closing = Some b) || is_byte "#" b.
Definition suffix_byte (b : byte) : bool := is_byte "?" b || is_byte "*" b || is_byte "+" b || is_byte "{" b.
Definition closes (closing : option byte) : Prop := closing = None \/ closing = Some ")"%byte.
Lemma opens_spec b : opens b = true ->
  blank b = false /\ suffix_byte b = false /\ is_byte "|" b || is_newline b || is_byte ")" b || is_byte "#" b || is_byte "." b || is_byte "<" b || is_byte "!" b = false.
Proof. destruct b; vm_compute; intuition discriminate. Qed.
Lemma opens_stop b closing : closes closing -> opens b = true -> is_stop closing b = false.
Proof.
  intros Hc (_ & _ & Hb)%opens_spec. unfold is_stop. rewrite !orb_false_iff in *. destruct Hb as ((((((? & ?) & H) & ?) & _) & _) & _).
  split; [|done]. split; [done|]. apply bool_decide_eq_false. destruct Hc as [-> | ->]; [done|]. intros [= <-]. done.
Qed.
(** The text behind an expression or a sequence stops it. *)
Definition stopped (closing : option byte) (k : str) : bool := match trim k with b :: _ => is_stop closing b | [] => true end.
Definition ended (closing : option byte) (k : str) : bool := match trim k with b :: _ => is_stop closing b && negb (is_byte "|" b) | [] => true end.
Lemma ended_stopped closing k : ended closing k = true -> stopped closing k = true.
Proof. unfold ended, stopped. destruct (trim k) as [|b t]; [done|]. by intros [? _]%andb_true_iff. Qed.
Lemma stop_byte closing b : closes closing -> is_stop closing b = true -> suffix_byte b = false /\ is_name_byte b = false.
Proof.
  intros [-> | ->]; unfold is_stop; rewrite ?(bool_decide_eq_false_2 (None = Some b)) by done.
  - destruct b; vm_compute; intuition discriminate.
  - replace (bool_decide (Some ")"%byte = Some b)) with (is_byte ")" b).
    + destruct b; vm_compute; intuition discriminate.
    + unfold is_byte. apply bool_decide_ext. split; congruence.
Qed.
Lemma piece_first pc : piece_ok pc = true -> exists b t, print_piece pc = b :: t /\ opens b = true /\ (is_name_byte b = true -> exists name, pc = Ref name).
Proof.
  destruct pc as [value|inverted l|name|e]; cbn [piece_ok print_piece].
  - intros _. eexists _, _. split; [unfold quoted_literal; reflexivity|]. by split.
  - intros _. eexists _, _. split; [reflexivity|]. by split.
  - intros [[Hn Hb]%andb_true_iff _]%andb_true_iff. apply bool_decide_eq_true in Hn. destruct name as [|b t]; [done|]. exists b, t. split; [done|].
    cbn in Hb. apply andb_true_iff in Hb as [Hb _]. unfold opens. rewrite Hb, orb_true_r. split; [done|]. intros _. by eexists.
  - intros _. eexists _, _. split; [reflexivity|]. by split.
Qed.
Lemma piece_last pc : piece_ok pc = true -> exists t c, print_piece pc = t ++ [c] /\ c <> "}"%byte.
Proof.
  destruct pc as [value|inverted l|name|e]; cbn [piece_ok print_piece].
  - intros _. unfold quoted_literal. eexists (_ :: _), _. split; [reflexivity | done].
  - intros _. exists (gbnf "[" ++ (if inverted then gbnf "^" else []) ++ print_entries l), "]"%byte. split; [by rewrite <- !app_assoc | done].
  - intros [[Hn Hb]%andb_true_iff _]%andb_true_iff. apply bool_decide_eq_true in Hn. destruct (@exists_last _ name Hn) as (t & c & ->).
    exists t, c. split; [done|]. rewrite forallb_app in Hb. apply andb_true_iff in Hb as [_ Hc]. cbn in Hc. rewrite andb_true_r in Hc. by intros ->.
  - intros _. exists (gbnf "(" ++ print e), ")"%byte. split; [by rewrite <- !app_assoc | done].
Qed.
Lemma trim_piece pc k : piece_ok pc = true -> trim (print_piece pc ++ k) = print_piece pc ++ k.
Proof. intros (b & t & -> & (Hb & _)%opens_spec & _)%piece_first. cbn [app]. by rewrite trim_cons, Hb. Qed.
(** What follows a piece without a suffix. *)
Lemma plain_seq s k closing : closes closing -> seq_ok s = true -> stopped closing k = true -> plain (print_seq s ++ k) = true.
Proof.
  intros Hc Hs Hk. unfold plain. destruct s as [trail|pad pc suffix s]; cbn [print_seq].
  - rewrite trim_spaces. unfold stopped in Hk. destruct (trim k) as [|b t]; [done|]. apply (stop_byte _ _ Hc) in Hk as [Hk _].
    unfold suffix_byte in Hk. by rewrite Hk.
  - cbn [seq_ok] in Hs. rewrite !andb_true_iff in Hs. destruct Hs as [[[Hp _] _] _]. rewrite <- !app_assoc, trim_spaces, trim_piece by done.
    destruct (piece_first pc Hp) as (b & t & -> & (_ & Hb & _)%opens_spec & _). cbn [app]. unfold suffix_byte in Hb. by rewrite Hb.
Qed.
Definition no_name (k : str) : bool := match k with b :: _ => negb (is_name_byte b) | [] => true end.
Lemma blank_no_name b : blank b = true -> is_name_byte b = false.
Proof. destruct b; vm_compute; intuition discriminate. Qed.
Lemma no_name_stopped closing k : closes closing -> stopped closing k = true -> no_name k = true.
Proof.
  intros Hc Hk. unfold stopped in Hk. destruct k as [|b k]; [done|]. rewrite trim_cons in Hk. cbn. destruct (blank b) eqn:Eb.
  - by rewrite blank_no_name.
  - apply (stop_byte _ _ Hc) in Hk as [_ Hk]. by rewrite Hk.
Qed.
Lemma no_name_after name suffix s k closing : closes closing -> seq_ok s = true -> separated (Ref name) suffix s = true -> stopped closing k = true ->
  no_name (print_suffix suffix ++ print_seq s ++ k) = true.
Proof.
  intros Hc Hs Hsep Hk. destruct suffix; try done. cbn [print_suffix app]. destruct s as [trail|pad pc suffix s]; cbn [print_seq].
  - destruct trail; [by apply (no_name_stopped closing) | done].
  - destruct pad; [|done]. cbn [seq_ok] in Hs. rewrite !andb_true_iff in Hs. destruct Hs as [[[Hp _] _] _].
    destruct (piece_first pc Hp) as (b & t & Eb & _ & Hn). cbn [spaces replicate app]. rewrite Eb. cbn [app no_name].
    destruct (is_name_byte b) eqn:E; [|done]. destruct (Hn eq_refl) as [name' ->]. by cbn in Hsep.
Qed.

(** ** Written text is UTF-8. *)
Lemma utf8_valid_all s : Forall (fun b => Z_of_byte b < 128) s -> utf8_valid s = true.
Proof. induction 1 as [|b s Hb Hs IH]; [done|]. by rewrite utf8_valid_ascii. Qed.
Lemma utf8_valid_join a b : utf8_valid a = true -> utf8_valid b = true -> utf8_valid (a ++ b) = true.
Proof. intros Ha Hb. by rewrite utf8_valid_app. Qed.
Lemma digits_valid s : digits_only s -> utf8_valid s = true.
Proof. intros Hs. apply utf8_valid_all. eapply Forall_impl; [exact Hs|]. intros b Hb%is_digit_value. unfold digit_value in Hb. lia. Qed.
Lemma suffix_valid suffix : suffix_ok suffix = true -> utf8_valid (print_suffix suffix) = true.
Proof.
  assert (forall n, 0 <= n <= 5000 -> utf8_valid (to_decimal n) = true) as Hd.
  { intros n Hn. apply digits_valid, to_decimal_spec. lia. }
  destruct suffix; cbn [suffix_ok print_suffix]; rewrite ?andb_true_iff, ?Z.leb_le, ?Z.ltb_lt; intros Hok; try done;
    repeat (apply utf8_valid_join); try done; apply Hd; lia.
Qed.
Lemma name_valid name : forallb is_name_byte name = true -> utf8_valid name = true.
Proof.
  intros Hn. apply utf8_valid_all. apply Forall_forall. intros b Hb. rewrite forallb_forall in Hn. specialize (Hn b ltac:(by apply list_elem_of_In)).
  revert Hn. destruct b; vm_compute; intuition discriminate.
Qed.
Lemma quoted_valid value : utf8_valid value = true -> utf8_valid (quoted_literal value) = true.
Proof.
  intros (cs & Hcs & ->)%valid_encode_all. unfold quoted_literal. rewrite utf8_valid_ascii by done. apply utf8_valid_join; [|done].
  assert (chars (encode_all cs) = encode_utf8 <$> cs) as ->.
  { unfold chars. rewrite <- (app_nil_r (encode_all cs)), chunks_encode_all by done. cbn. rewrite app_nil_r.
    clear. induction cs as [|c cs IH]; [done|]. cbn. by f_equal. }
  induction Hcs as [|c cs Hc Hcs IH]; [done|]. rewrite !fmap_cons, mjoin_cons. apply utf8_valid_join; [|done]. unfold quoted_character.
  repeat case_bool_decide; try done. by apply utf8_valid_one.
Qed.
Lemma print_valid :
  (forall e, expr_ok e = true -> utf8_valid (print e) = true) /\ (forall s, seq_ok s = true -> utf8_valid (print_seq s) = true) /\
  (forall pc, piece_ok pc = true -> utf8_valid (print_piece pc) = true).
Proof.
  apply syntax_ind; cbn [expr_ok seq_ok piece_ok print print_seq print_piece].
  - done.
  - intros s IHs e IHe [Hs He]%andb_true_iff. repeat apply utf8_valid_join; auto.
  - intros trail _. apply utf8_valid_all. by apply Forall_replicate.
  - intros pad pc IHp suffix s IHs. rewrite !andb_true_iff. intros [[[Hp Hsu] _] Hs]. repeat apply utf8_valid_join; auto.
    + apply utf8_valid_all. by apply Forall_replicate.
    + by apply suffix_valid.
  - apply quoted_valid.
  - intros inverted l [Hl _]%andb_true_iff. repeat apply utf8_valid_join; try done; [by destruct inverted | by apply entries_valid].
  - intros name. unfold name_ok. rewrite !andb_true_iff. intros [[_ Hn] _]. by apply name_valid.
  - intros e IHe He. repeat apply utf8_valid_join; auto.
Qed.

(** ** The descent. *)
Definition head_of (fuel : nat) (p : Parser) : parsed (list Symbol) :=
  match peek p with
  | None => Err UnexpectedEnd
  | Some b =>
      if is_byte x22 b then literal p
      else if is_byte "[" b then let? (set, p) := character_class p in Ok ([Character set], p)
      else if is_byte "." b then Ok ([Character (mkCharSet true [])], skip 1 p)
      else if is_byte "(" b then
        let? (alternatives, p) := expression fuel (Some ")"%byte) [] (skip 1 p) in
        let? p := expect [")"%byte] p in
        let (rule, p) := generated_rule alternatives p in
        Ok ([Rule rule], p)
      else if is_byte "<" b || is_byte "!" b then let? (term, p) := token_terminal p in Ok ([Token term], p)
      else
        let? (text, p) := name p in
        let (rule, p) := rule_id text p in
        Ok ([Rule rule], p)
  end.
Lemma atom_S fuel p : atom (S fuel) p = let? (body, p) := head_of fuel p in repeated body p.
Proof. done. Qed.
(** Alternatives: one of them derives the word. *)
Record reading_alts (R : list str) (p p' : Parser) (bodies : list (list Symbol)) (L : (str -> Lang) -> Lang) : Prop := {
  ra_grows : grows R p p';
  ra_filled : filled p p';
  ra_some : bodies <> [];
  ra_ok : alternatives_ok p' bodies;
  ra_means g N v : names p' ⊆ N -> settled p p' g -> (exists body, body ∈ bodies /\ yields g body v) <-> L (env g N) v;
}.
Definition reads_piece (pc : Piece) : Prop := piece_ok pc = true -> forall p k fuel, good p -> rest p = print_piece pc ++ k -> utf8_valid k = true ->
  (forall name, pc = Ref name -> no_name k = true) -> (3 * length (rest p) <= fuel)%nat ->
  exists body q, head_of fuel p = Ok (body, q) /\ position q = (position p + length (print_piece pc))%nat /\
    reading (mentions_piece pc) p q body (fun E => denote_piece E pc).
Definition reads_seq (s : Seq) : Prop := seq_ok s = true -> forall p k fuel closing syms, good p -> closes closing ->
  trim (rest p) = trim (print_seq s ++ k) -> utf8_valid k = true -> stopped closing k = true -> (3 * length (rest p) + 2 <= fuel)%nat ->
  exists body p', sequence fuel closing syms p = Ok (syms ++ body, p') /\ rest p' = trim k /\
    reading (mentions_seq s) p p' body (fun E => denote_seq E s).
Definition reads_expr (e : Expr) : Prop := expr_ok e = true -> forall p k fuel closing alts, good p -> closes closing ->
  trim (rest p) = trim (print e ++ k) -> utf8_valid k = true -> ended closing k = true -> (3 * length (rest p) + 3 <= fuel)%nat ->
  exists bodies p', expression fuel closing alts p = Ok (alts ++ bodies, p') /\ rest p' = trim k /\
    reading_alts (mentions e) p p' bodies (fun E => denote E e).

Lemma reads_literal value : reads_piece (Lit value).
Proof.
  intros Hok p k fuel Hg Er Hk _ Hf. cbn [piece_ok print_piece mentions_piece denote_piece] in *. unfold head_of.
  assert (peek p = Some x22) as -> by (unfold quoted_literal in Er; by apply (peek_head _ _ _ Er)).
  change (is_byte x22 x22) with true. cbv iota. rewrite (quoted_literal_reads_back value k p Hok Hk Er).
  assert (exists cs, scalars cs /\ code_point <$> chars value = cs) as (cs & Hcs & Ecs).
  { destruct (valid_encode_all _ Hok) as (cs & Hcs & ->). exists cs. split; [done|]. unfold chars.
    rewrite <- (app_nil_r (encode_all cs)), chunks_encode_all by done. cbn. rewrite app_nil_r. clear -Hcs.
    induction Hcs as [|c cs Hc Hcs IH]; [done|]. cbn. by rewrite code_point_encode, IH. }
  assert ((fun c => Character (CharSet_one (code_point c))) <$> chars value = (fun c => Character (CharSet_one c)) <$> cs) as ->.
  { rewrite <- Ecs. by rewrite <- list_fmap_compose. }
  assert (position p + length (quoted_literal value) <= length (source p))%nat as Hle by (apply rest_length; [done | rewrite Er, length_app; lia]).
  eexists _, _. split; [done|]. split; [done|]. split.
  - by apply grows_skip.
  - by apply filled_empty.
  - apply Forall_fmap, Forall_true. intros c. cbn. by constructor; cbn.
  - intros g N v _ _. rewrite Ecs. by apply yields_literal.
Qed.
Lemma reads_class inverted l : reads_piece (Class inverted l).
Proof.
  intros Hok p k fuel Hg Er Hk _ Hf. cbn [piece_ok mentions_piece denote_piece] in *. unfold head_of.
  assert (peek p = Some "["%byte) as Epk by (cbn [print_piece] in Er; by apply (peek_head _ _ _ Er)). rewrite Epk.
  change (is_byte x22 "[") with false. change (is_byte "[" "[") with true. cbv iota.
  pose proof (wp_character_class p (gd_ok _ Hg) ltac:(by rewrite Epk)) as Hwp. rewrite (character_class_reads inverted l k p Hok Hk Er) in *.
  cbn [wp] in Hwp. destruct Hwp as [Hst Hwf].
  assert (position p + length (print_piece (Class inverted l)) <= length (source p))%nat as Hle by (apply rest_length; [done | rewrite Er, length_app; lia]).
  eexists _, _. split; [done|]. split; [done|]. split.
  - by apply grows_skip.
  - by apply filled_empty.
  - by apply Forall_singleton.
  - intros g N v _ _. apply yields_terminal_iff.
Qed.
Lemma generated_prefix n : Substring.starts_with (string_bytes "__generated-") (generated_name n) = true.
Proof. done. Qed.
Lemma name_reads name k p : name_ok name = true -> rest p = name ++ k -> no_name k = true -> GrammarParser.name p = Ok (name, skip (length name) p).
Proof.
  unfold name_ok. rewrite !andb_true_iff. intros [[Hne Hn] _] Er Hnn. apply bool_decide_eq_true in Hne.
  assert (span is_name_byte (rest p) = length name) as Es.
  { rewrite Er. apply span_app; [|destruct k as [|c k]; [done|]; cbn in Hnn; by apply negb_true_iff in Hnn].
    apply Forall_forall. intros c Hc. rewrite forallb_forall in Hn. apply Hn. by apply list_elem_of_In. }
  unfold GrammarParser.name, spanned, skip_while. rewrite Es, Er, take_app_length. by destruct name.
Qed.
Lemma reads_ref name : reads_piece (Ref name).
Proof.
  intros Hok p k fuel Hg Er Hk Hnn Hf. cbn [print_piece mentions_piece denote_piece] in *. specialize (Hnn name eq_refl).
  destruct (piece_first _ Hok) as (b & t & Eb & Hb & _). cbn [print_piece] in Eb. unfold head_of.
  assert (is_name_byte b = true) as Hnb.
  { cbn [piece_ok] in Hok. unfold name_ok in Hok. rewrite !andb_true_iff in Hok. destruct Hok as [[_ Hn] _]. rewrite Eb in Hn. cbn in Hn.
    by apply andb_true_iff in Hn as [? _]. }
  pose proof Er as Er'. rewrite Eb in Er'. cbn [app] in Er'. rewrite (peek_head _ _ _ Er').
  assert (is_byte x22 b || is_byte "[" b || is_byte "." b || is_byte "(" b || (is_byte "<" b || is_byte "!" b) = false) as Hnot.
  { clear -Hnb. revert Hnb. destruct b; vm_compute; intuition discriminate. }
  rewrite !orb_false_iff in Hnot. destruct Hnot as ((((-> & ->) & ->) & ->) & (-> & ->)). cbn [orb].
  cbn [piece_ok] in Hok. rewrite (name_reads name k p Hok Er Hnn).
  assert (position p + length name <= length (source p))%nat as Hle by (apply rest_length; [done | rewrite Er, length_app; lia]).
  set (p1 := skip (length name) p). pose proof (good_skip _ _ Hg Hle) as Hg1. pose proof (grows_skip _ _ Hg Hle) as G1. fold p1 in Hg1, G1.
  destruct (rule_id name p1) as [id q] eqn:Eq.
  destruct (grows_rule_id name p1 id q Hg1 Eq) as (G2 & Hid & Hgq & Hpq & Hprq).
  { intros n _ ->. unfold name_ok in Hok. by rewrite generated_prefix, andb_false_r in Hok. }
  exists [Rule id], q. split; [done|]. split; [done|]. pose proof (grows_trans _ _ _ _ _ G1 G2) as G3. split.
  - exact G3.
  - by apply filled_empty.
  - apply Forall_singleton. cbn. apply (po_names _ (gd_ok _ (gr_good _ _ _ G2))). by exists name.
  - intros g N v HN _. unfold env. split.
    + intros Hy. exists id. split; [|done]. by apply (lookup_weaken _ _ _ _ Hid).
    + intros (id' & Hid' & Hy). pose proof (lookup_weaken _ _ _ _ Hid HN). by simplify_eq.
Qed.

(** A generated rule has exactly the alternatives it was made with. *)
Lemma push_alternatives_prods rule alts : forall p, prods (push_alternatives rule alts p) = prods p ++ (mkProduction rule <$> alts) /\
  names (push_alternatives rule alts p) = names p /\ generated (push_alternatives rule alts p) = generated p /\
  position (push_alternatives rule alts p) = position p.
Proof.
  induction alts as [|a alts IH]; intros p; cbn; [by rewrite app_nil_r|]. destruct (IH (push_production (mkProduction rule a) p)) as (E1 & E2 & E3 & E4).
  unfold push_alternatives in *. rewrite E1, E2, E3, E4. cbn. by rewrite <- app_assoc.
Qed.
Lemma grows_push_alternatives R p n rule alts : forall q, grows R p q -> window p q n -> names q !! generated_name n = Some rule ->
  alternatives_ok q alts -> grows R p (push_alternatives rule alts q).
Proof.
  induction alts as [|a alts IH]; intros q H Hn Hid Ha; [done|]. apply Forall_cons in Ha as [Ha Has].
  assert (rule < size (names q))%nat as Hlt by (apply (po_names _ (gd_ok _ (gr_good _ _ _ H))); by eexists).
  apply (IH (push_production (mkProduction rule a) q)); [by apply (grows_push R p q _ n)|done..].
Qed.
Lemma grows_generated alts p rule p' : good p -> alternatives_ok p alts -> alts <> [] -> generated_rule alts p = (rule, p') ->
  grows [] p p' /\ filled p p' /\ position p' = position p /\ (rule < size (names p'))%nat /\
  forall g, settled p p' g -> forall α, defines g rule α <-> α ∈ alts.
Proof.
  intros Hg Ha Hne Er. unfold generated_rule in Er. destruct (fresh_rule p) as [id p1] eqn:E1. injection Er as <- <-.
  destruct (grows_fresh p id p1 Hg E1) as (G & Hid & Hgen & Hpos & Hpr).
  assert (window p p1 (generated p)) as Hw by (unfold window; lia).
  assert (alternatives_ok p1 alts) as Ha1.
  { eapply Forall_impl; [exact Ha|]. intros l. apply syms_ok_mono. exact (names_le _ _ _ G). }
  pose proof (grows_push_alternatives [] p _ id alts p1 G Hw Hid Ha1) as G1.
  destruct (push_alternatives_prods id alts p1) as (P1 & P2 & P3 & P4). split; [done|]. split; [|split; [congruence|]].
  - intros n Hn. unfold window in Hn. rewrite P3, Hgen in Hn. assert (n = generated p) as -> by lia. destruct alts as [|a alts]; [done|].
    exists id, a. rewrite P1, P2. split; [done|]. apply elem_of_app. right. apply elem_of_cons. by left.
  - split; [rewrite P2; by eapply window_lt|]. intros g Hs α.
    rewrite (Hs (generated p) id α); [|unfold window; rewrite P3; lia|by rewrite P2]. rewrite P1, Hpr, elem_of_app. split.
    + intros [Hin|Hin]; [|apply list_elem_of_fmap in Hin as (a & [= ->] & Hin); done]. exfalso.
      pose proof (po_prods _ (gd_ok _ Hg)) as Hps. rewrite Forall_forall in Hps. destruct (Hps _ Hin) as [Hlt _]. cbn in Hlt.
      apply (po_names _ (gd_ok _ Hg)) in Hlt as [t Ht]. pose proof (lookup_weaken _ _ _ _ Ht (gr_names _ _ _ G)) as Ht1.
      pose proof (gd_inj _ (gr_good _ _ _ G) _ _ _ Ht1 Hid) as ->. pose proof (gd_unclaimed _ Hg (generated p) ltac:(lia)). congruence.
    + intros Hin. right. apply list_elem_of_fmap. by exists α.
Qed.
Lemma position_rest p q a k : good p -> good q -> source q = source p -> rest p = a ++ k -> rest q = k -> position q = (position p + length a)%nat.
Proof.
  intros [[Hp _ _] _ _] [[Hq _ _] _ _] Hs Ep Eq. apply (f_equal length) in Ep, Eq. rewrite length_rest in Ep, Eq. rewrite length_app in Ep. rewrite Hs in *. lia.
Qed.
Lemma reads_group e : reads_expr e -> reads_piece (Group e).
Proof.
  intros IH Hok p k fuel Hg Er Hk _ Hf. cbn [print_piece mentions_piece denote_piece piece_ok] in *. rewrite <- !app_assoc in Er.
  change (rest p = "("%byte :: print e ++ gbnf ")" ++ k) in Er. unfold head_of. rewrite (peek_head _ _ _ Er).
  change (is_byte x22 "(") with false. change (is_byte "[" "(") with false. change (is_byte "." "(") with false. change (is_byte "(" "(") with true. cbv iota.
  assert (position p + 1 <= length (source p))%nat as Hle by (apply rest_length; [done | rewrite Er; cbn; lia]).
  pose proof (good_skip _ _ Hg Hle) as Hg1. pose proof (grows_skip _ _ Hg Hle) as G1.
  assert (rest (skip 1 p) = print e ++ ")"%byte :: k) as Er1 by by rewrite rest_skip_drop, Er.
  destruct (IH Hok (skip 1 p) (")"%byte :: k) fuel (Some ")"%byte) [] Hg1) as (bodies & p2 & E2 & Er2 & Hra).
  { by right. } { by rewrite Er1. } { by rewrite utf8_valid_ascii. } { done. } { rewrite Er in Hf. rewrite Er1. change (gbnf ")" ++ k) with (")"%byte :: k) in Hf. cbn [length] in Hf. lia. }
  rewrite E2. cbn [app]. change (trim (")"%byte :: k)) with (")"%byte :: k) in Er2. rewrite (expect_reads [")"%byte] k) by done.
  destruct Hra as [G2 F2 N2 O2 M2]. pose proof (gr_good _ _ _ G2) as Hg2.
  assert (position p2 + 1 <= length (source p2))%nat as Hle2 by (apply rest_length; [done | rewrite Er2; cbn; lia]).
  change (length [")"%byte]) with 1%nat. set (p3 := skip 1 p2). pose proof (good_skip _ _ Hg2 Hle2) as Hg3. pose proof (grows_skip _ _ Hg2 Hle2) as G3.
  fold p3 in Hg3, G3. destruct (generated_rule bodies p3) as [rule q] eqn:Eq.
  destruct (grows_generated bodies p3 rule q Hg3 O2 N2 Eq) as (G4 & F4 & Hpos & Hlt & Hdef).
  pose proof (grows_trans _ _ _ _ _ (grows_trans _ _ _ _ _ G2 G3) G4) as G24. rewrite !app_nil_r in G24. pose proof (grows_trans _ _ _ _ _ G1 G24) as G.
  exists [Rule rule], q. split; [done|]. split; [|split].
  - apply (position_rest p q _ k); [done | apply G | apply G | by rewrite Er, <- !app_assoc|].
    unfold rest. rewrite Hpos, (gr_source _ _ _ G4). change (rest p3 = k). unfold p3. by rewrite rest_skip_drop, Er2.
  - exact G.
  - intros n Hn. assert (window p2 q n \/ window (skip 1 p) p2 n) as [Hw|Hw].
    { pose proof (gr_gen _ _ _ G2). unfold window in *. cbn in *. lia. }
    + apply F4. exact Hw.
    + destruct (F2 n Hw) as (id & α & Hid & Hin). exists id, α. split; [by apply (lookup_weaken _ _ _ _ Hid), G4|]. by apply (in_prods _ _ _ _ G4).
  - by apply Forall_singleton.
  - intros g N v HN Hs. pose proof (grows_trans _ _ _ _ _ G3 G4) as G34. destruct (settled_trans _ _ _ _ _ _ G2 G34 Hs) as [Hs1 Hs2].
    rewrite yields_one. setoid_rewrite (Hdef g Hs2). apply M2; [|done]. etrans; [apply G34 | done].
Qed.
Lemma grows_refl p : good p -> grows [] p p.
Proof. intros Hg. by apply grows_moved; try apply Hg. Qed.
Lemma reading_nil p : good p -> reading [] p p [] (fun _ v => v = []).
Proof.
  intros Hg. split; [by apply grows_refl | by apply filled_empty | done|]. intros g N v _ _. apply yields_nil_iff.
Qed.
Lemma good_horizontal p : good p -> good (skip_horizontal p) /\ grows [] p (skip_horizontal p).
Proof.
  intros Hg. assert (grows [] p (skip_horizontal p)) as G by (apply grows_moved; try done; apply step_skip_horizontal, Hg). split; [apply G | done].
Qed.
Lemma reading_from R p q p' body L : grows [] p q -> generated q = generated p -> reading R q p' body L -> reading R p p' body L.
Proof.
  intros G Eg [G1 F1 O1 M1]. pose proof (grows_trans _ _ _ _ _ G G1) as G2. split; [done| |done|].
  - intros n Hn. apply F1. unfold window in *. by rewrite Eg.
  - intros g N v HN Hs. apply M1; [done|]. intros n id α Hn. apply Hs. unfold window in *. by rewrite Eg in Hn.
Qed.
Lemma reading_iff R p p' body L L' : reading R p p' body L -> (forall E v, L E v <-> L' E v) -> reading R p p' body L'.
Proof. intros [G F O M] HL. split; [done..|]. intros g N v HN Hs. rewrite <- HL. by apply M. Qed.
(** An atom: a piece and its suffix. *)
Lemma reads_atom pc suffix p tail fuel : reads_piece pc -> piece_ok pc = true -> suffix_ok suffix = true -> good p ->
  rest p = print_piece pc ++ print_suffix suffix ++ tail -> utf8_valid tail = true ->
  (forall name, pc = Ref name -> no_name (print_suffix suffix ++ tail) = true) -> (suffix = Once -> plain tail = true) ->
  (3 * length (rest p) < fuel)%nat ->
  exists body p', atom fuel p = Ok (body, p') /\ trim (rest p') = trim tail /\ (length (rest p') <= length tail)%nat /\
    reading (mentions_piece pc) p p' body (fun E => lang_repeat (denote_piece E pc) suffix).
Proof.
  intros IH Hok Hsu Hg Er Hv Hnn Hpl Hf. destruct fuel as [|fuel]; [lia|].
  assert (utf8_valid (print_suffix suffix ++ tail) = true) as Hv' by (apply utf8_valid_join; [by apply suffix_valid | done]).
  destruct (IH Hok p _ fuel Hg Er Hv' Hnn ltac:(lia)) as (body & q & E & Hpos & Hr). rewrite atom_S, E. cbv beta iota.
  pose proof (gr_source _ _ _ (rd_grows _ _ _ _ _ Hr)) as Hsrc.
  assert (rest q = print_suffix suffix ++ tail) as Eq.
  { unfold rest. rewrite Hpos, Hsrc, <- drop_drop. change (drop (length (print_piece pc)) (rest p) = print_suffix suffix ++ tail). by rewrite Er, drop_app_length. }
  destruct (decide (suffix = Once)) as [-> |Hne].
  - cbn [print_suffix app] in *. unfold repeated. rewrite (repetition_once tail q Eq (Hpl eq_refl)). cbv beta iota.
    exists body, (skip_horizontal q). split; [done|]. rewrite rest_skip_horizontal, Eq, trim_trim. split; [done|]. split; [apply length_trim|].
    destruct (good_horizontal q) as [Hgq _]; [apply (rd_grows _ _ _ _ _ Hr)|].
    eapply reading_iff; [apply (reading_moved _ _ q); [exact Hr | apply Hgq | done..]|]. intros E' v. symmetry. apply lang_repeat_once.
  - destruct (piece_last pc Hok) as (t & c & Et & Hc).
    assert (prev q <> Some "}"%byte) as Hprev.
    { pose proof (prev_skip t c (print_suffix suffix ++ tail) p) as Hp. rewrite Et, <- app_assoc in Er. specialize (Hp Er).
      assert (prev q = prev (skip (S (length t)) p)) as ->; [|congruence]. unfold prev. cbn [position skip source]. rewrite Hpos, Hsrc, Et, length_app, Nat.add_1_r.
      done. }
    destruct (reading_repeat _ p q suffix body _ tail Hr Hsu Hne Eq Hprev) as (body' & p' & E' & Er' & Hr').
    exists body', p'. split; [done|]. rewrite Er'. done.
Qed.
Lemma reads_end trail : reads_seq (End trail).
Proof.
  intros _ p k fuel closing syms Hg Hc Er Hk Hst Hf. destruct fuel as [|fuel]; [lia|]. cbn [sequence]. cbv zeta.
  cbn [print_seq mentions_seq] in *. rewrite trim_spaces in Er. pose proof (rest_skip_horizontal p) as Eh. rewrite Er in Eh.
  destruct (good_horizontal p Hg) as [Hg1 G1]. exists [], (skip_horizontal p). rewrite app_nil_r. split; [|split; [done|]].
  - rewrite peek_rest, Eh. unfold stopped in Hst. destruct (trim k) as [|b t]; [done|]. cbn [head]. unfold is_stop in Hst. by rewrite Hst.
  - eapply reading_moved; [by apply reading_nil | apply Hg1 | done..].
Qed.
Lemma reads_then pad pc suffix s : reads_piece pc -> reads_seq s -> reads_seq (Then pad pc suffix s).
Proof.
  intros IHp IHs Hok p k fuel closing syms Hg Hc Er Hk Hst Hf. destruct fuel as [|fuel]; [lia|]. cbn [sequence]. cbv zeta.
  cbn [print_seq mentions_seq seq_ok] in *. rewrite !andb_true_iff in Hok. destruct Hok as [[[Hp Hsu] Hsep] Hs].
  rewrite <- !app_assoc, trim_spaces, trim_piece in Er by done. pose proof (rest_skip_horizontal p) as Eh. rewrite Er in Eh.
  destruct (good_horizontal p Hg) as [Hg1 G1]. set (p1 := skip_horizontal p) in *.
  destruct (piece_first pc Hp) as (b & t & Eb & Hb & _). pose proof Eh as Eh'. rewrite Eb in Eh'. cbn [app] in Eh'. rewrite (peek_head _ _ _ Eh').
  pose proof (opens_stop b closing Hc Hb) as Hns. unfold is_stop in Hns. rewrite Hns.
  assert (length (rest p1) <= length (rest p))%nat as Hlen by (unfold p1; rewrite rest_skip_horizontal; apply length_trim).
  assert (utf8_valid (print_seq s ++ k) = true) as Hv by (apply utf8_valid_join; [by apply print_valid | done]).
  destruct (reads_atom pc suffix p1 (print_seq s ++ k) fuel IHp Hp Hsu Hg1 Eh Hv) as (body & p2 & E2 & Er2 & Hl2 & Hr2).
  { intros name ->. by apply (no_name_after name _ _ _ closing). }
  { intros _. by apply (plain_seq _ _ closing). }
  { lia. }
  rewrite E2. cbv beta iota. pose proof (gr_good _ _ _ (rd_grows _ _ _ _ _ Hr2)) as Hg2.
  destruct (IHs Hs p2 k fuel closing (syms ++ body) Hg2 Hc Er2 Hk Hst) as (body' & p3 & E3 & Er3 & Hr3).
  { apply (f_equal length) in Eh'. rewrite Eh in Eh'. rewrite !length_app in Eh'. cbn [length] in Eh'.
    apply (f_equal length) in Eh. rewrite !length_app in Eh. rewrite length_app in Hl2. rewrite Eb in Eh. cbn [length] in Eh. lia. }
  exists (body ++ body'), p3. rewrite app_assoc. split; [done|]. split; [done|].
  apply (reading_from _ p p1); [done..|]. exact (readings_app _ _ _ _ _ _ _ _ _ Hr2 Hr3).
Qed.
Lemma reading_alts_of R p p1 p' body L : reading R p p1 body L -> p' = skip_horizontal p1 -> reading_alts R p p' [body] L.
Proof.
  intros Hr ->. pose proof (gr_good _ _ _ (rd_grows _ _ _ _ _ Hr)) as Hg. destruct (good_horizontal p1 Hg) as [Hg1 _].
  pose proof (reading_moved _ _ _ (skip_horizontal p1) _ _ Hr (gd_ok _ Hg1) eq_refl eq_refl eq_refl eq_refl) as [G F O M]. split; [done..| |].
  - by apply Forall_singleton.
  - intros g N v HN Hs. rewrite <- (M g N v HN Hs). setoid_rewrite list_elem_of_singleton. split; [by intros (? & -> & ?) | by eexists].
Qed.
Lemma reads_last s : reads_seq s -> reads_expr (Last s).
Proof.
  intros IH Hok p k fuel closing alts Hg Hc Er Hk Hend Hf. destruct fuel as [|fuel]; [lia|]. cbn [expression expr_ok print mentions] in *.
  destruct (IH Hok p k fuel closing [] Hg Hc Er Hk (ended_stopped _ _ Hend) ltac:(lia)) as (body & p1 & E1 & Er1 & Hr). rewrite E1. cbv beta iota zeta.
  assert (rest (skip_horizontal p1) = trim k) as Eh by by rewrite rest_skip_horizontal, Er1, trim_trim.
  assert (peek_is "|" (skip_horizontal p1) = false) as ->.
  { unfold ended in Hend. destruct (trim k) as [|b t]; [unfold peek_is; by rewrite peek_rest, Eh|]. rewrite (peek_is_head _ _ _ _ Eh).
    apply andb_true_iff in Hend as [_ Hn]. by apply negb_true_iff in Hn. }
  exists [body], (skip_horizontal p1). split; [done|]. split; [done|]. by eapply reading_alts_of.
Qed.
Lemma reads_or s e : reads_seq s -> reads_expr e -> reads_expr (Or s e).
Proof.
  intros IHs IHe Hok p k fuel closing alts Hg Hc Er Hk Hend Hf. destruct fuel as [|fuel]; [lia|]. cbn [expression expr_ok print mentions] in *.
  apply andb_true_iff in Hok as [Hs He]. rewrite <- !app_assoc in Er. set (k1 := gbnf " | " ++ print e ++ k) in *.
  assert (utf8_valid (print e ++ k) = true) as Hv by (apply utf8_valid_join; [by apply print_valid | done]).
  destruct (IHs Hs p k1 fuel closing [] Hg Hc Er) as (body & p1 & E1 & Er1 & Hr); [by apply utf8_valid_join|done|lia|].
  rewrite E1. cbv beta iota zeta. change (trim k1) with ("|"%byte :: " "%byte :: print e ++ k) in Er1.
  assert (rest (skip_horizontal p1) = "|"%byte :: " "%byte :: print e ++ k) as Eh by by rewrite rest_skip_horizontal, Er1.
  rewrite (peek_is_head _ _ _ _ Eh). change (is_byte "|" "|") with true. cbv iota.
  destruct (reading_alts_of _ _ _ _ _ _ Hr eq_refl) as [G1 F1 _ O1 M1]. set (p2 := skip_horizontal p1) in *.
  pose proof (gr_good _ _ _ G1) as Hg2. assert (position p2 + 1 <= length (source p2))%nat as Hle by (apply rest_length; [done | rewrite Eh; cbn; lia]).
  pose proof (good_skip _ _ Hg2 Hle) as Hg3. pose proof (grows_skip _ _ Hg2 Hle) as G3.
  assert (rest (skip 1 p2) = " "%byte :: print e ++ k) as Er3 by by rewrite rest_skip_drop, Eh.
  assert (length (rest (skip 1 p2)) < length (rest p))%nat as Hlt.
  { assert (length (rest p1) <= length (rest p))%nat as Hle1.
    { rewrite !length_rest. rewrite (gr_source _ _ _ (rd_grows _ _ _ _ _ Hr)).
      pose proof (wp_descent fuel) as (_ & Hwp & _). specialize (Hwp closing [] p (gd_ok _ Hg)). rewrite left_over_rest in Hwp.
      specialize (Hwp ltac:(lia) ltac:(constructor)). rewrite E1 in Hwp. destruct Hwp as [[_ Hpos _ _] _]. lia. }
    rewrite Er1 in Hle1. rewrite Er3. cbn [length] in *. lia. }
  destruct (IHe He (skip 1 p2) k fuel closing (alts ++ [body]) Hg3 Hc) as (bodies & p4 & E4 & Er4 & [G4 F4 N4 O4 M4]); [by rewrite Er3, trim_cons|done|done|lia|].
  cbn [app] in *. exists (body :: bodies), p4. rewrite E4, <- app_assoc. split; [done|]. split; [done|].
  pose proof (grows_trans _ _ _ _ _ G3 G4) as G34. pose proof (grows_trans _ _ _ _ _ G1 G34) as G. split.
  - exact G.
  - eapply filled_trans; [apply G1 | exact G34 | exact F1 | exact F4].
  - done.
  - constructor; [|done]. unfold alternatives_ok in O1. rewrite Forall_singleton in O1. eapply syms_ok_mono; [|exact O1]. exact (names_le _ _ _ G34).
  - intros g N v HN Hset. destruct (settled_trans _ _ _ _ _ _ G1 G34 Hset) as [Hs1 Hs2]. cbn [denote].
    rewrite <- (M4 g N v HN Hs2), <- (M1 g N v ltac:(etrans; [apply G34 | done]) Hs1). setoid_rewrite elem_of_cons. setoid_rewrite elem_of_nil.
    split; [intros (x & [-> | Hx] & Hy); [left|right]; eauto | intros [(x & [-> | []] & Hy)|(x & Hx & Hy)]; eauto].
Qed.
Lemma reads_all : (forall e, reads_expr e) /\ (forall s, reads_seq s) /\ (forall pc, reads_piece pc).
Proof.
  apply syntax_ind; intros; [by apply reads_last | by apply reads_or | apply reads_end | by apply reads_then | apply reads_literal | apply reads_class
  | apply reads_ref | by apply reads_group].
Qed.
