(* ===== verification/GbnfRules.v ===== *)
(** * Whole grammar texts.

    A text of well-written rules, with distinct names and no undefined one, is accepted by
    [parse]; in the grammar it returns every rule derives the language its expression denotes
    over the languages of the rules it mentions. *)
From Stdlib Require Import Strings.Byte.
From stdpp Require Import pretty fin_maps.
From S2P Require Import Prelude Utf8 Utf8Scalar Grammar GrammarText GrammarParser GrammarClosure GrammarParserProofs GrammarLanguage.
From S2P Require Import GrammarRepeat GrammarQuote Schema SchemaDecimal GbnfSyntax GbnfReading.

(** A rule, behind so many empty lines. *)
Record RuleText : Type := mkRule { r_lines : nat; r_name : str; r_expr : Expr }.
Definition newlines (n : nat) : str := replicate n x0a.
Definition print_rule (r : RuleText) : str := newlines (r_lines r) ++ rule_line (r_name r, print (r_expr r)).
Definition print_rules (l : list RuleText) : str := mjoin (print_rule <$> l).
Definition rule_ok (r : RuleText) : bool := name_ok (r_name r) && expr_ok (r_expr r).

(** ** Layout. *)
Definition layout (b : byte) : bool := blank b || is_newline b.
Lemma skip_layout_reads n k p : rest p = newlines n ++ k -> match k with b :: _ => layout b = false /\ is_byte "#" b = false | [] => True end ->
  skip_layout true p = (bool_decide (k <> []), skip n p).
Proof.
  intros Er Hk. unfold skip_layout. cbn [skip_layout_loop].
  assert (span (fun b => is_byte " " b || is_byte x09 b || (true && is_newline b)) (rest p) = n) as Es.
  { rewrite Er, span_app; [apply length_replicate | by apply Forall_replicate|]. destruct k as [|b k]; [done | apply Hk]. }
  unfold skip_while. rewrite Es. assert (rest (skip n p) = k) as Ek.
  { rewrite rest_skip_drop, Er. rewrite <- (length_replicate n x0a) at 1. apply drop_app_length. }
  assert (peek_is "#" (skip n p) = false) as ->.
  { destruct k as [|b k]; [unfold peek_is; by rewrite peek_rest, Ek|]. rewrite (peek_is_head _ _ _ _ Ek). apply Hk. }
  cbv zeta. f_equal. pose proof (length_rest (skip n p)) as Hl. rewrite Ek in Hl.
  destruct k as [|b k]; cbn [length] in Hl.
  - rewrite bool_decide_eq_false_2 by (intros H; by apply H). apply Nat.ltb_ge. lia.
  - rewrite bool_decide_eq_true_2 by done. apply Nat.ltb_lt. lia.
Qed.
Lemma rule_end_reads k p : rest p = x0a :: k -> consume_rule_end p = Ok p.
Proof.
  intros Er. unfold consume_rule_end. rewrite (skip_horizontal_here _ _ _ Er) by done. rewrite (peek_is_head _ _ _ _ Er).
  change (is_byte "#" x0a) with false. cbv iota zeta. rewrite (peek_head _ _ _ Er). change (is_newline x0a) with true. by rewrite andb_false_r.
Qed.

(** ** The rules read so far. *)
(** The rules that are defined: those written, and those generated. *)
Definition defined (l : list RuleText) (p : Parser) (id : nat) : Prop :=
  (exists r, r ∈ l /\ names p !! r_name r = Some id) \/ (exists n, (n < generated p)%nat /\ names p !! generated_name n = Some id).
(** A grammar that defines them as the parser does. *)
Definition closed (l : list RuleText) (p : Parser) (g : Grammar) : Prop := forall id α, defined l p id -> defines g id α <-> mkProduction id α ∈ prods p.
Record rules_read (l : list RuleText) (p : Parser) : Prop := {
  rr_good : good p;
  rr_names t id : names p !! t = Some id -> (exists r, r ∈ l /\ (t = r_name r \/ t ∈ mentions (r_expr r))) \/ exists n, (n < generated p)%nat /\ t = generated_name n;
  rr_named r : r ∈ l -> is_Some (names p !! r_name r);
  rr_prods pr : pr ∈ prods p -> defined l p (lhs pr);
  rr_gens n : (n < generated p)%nat -> is_Some (names p !! generated_name n);
  rr_filled id : defined l p id -> exists α, mkProduction id α ∈ prods p;
  rr_means r id g N v : r ∈ l -> names p !! r_name r = Some id -> names p ⊆ N -> closed l p g ->
    yields g [Rule id] v <-> denote (env g N) (r_expr r) v;
}.
Lemma written_name r n : rule_ok r = true -> r_name r <> generated_name n.
Proof. unfold rule_ok, name_ok. rewrite !andb_true_iff. intros [[_ Hg] _] E. by rewrite E, generated_prefix in Hg. Qed.


(** The parser at the start of a rule's expression, and behind it. *)
Record at_rule (r : RuleText) (p p3 p4 : Parser) (id : nat) (alts : list (list Symbol)) : Prop := {
  ar_start : grows [r_name r] p p3;
  ar_gen : generated p3 = generated p;
  ar_prods : prods p3 = prods p;
  ar_id : names p3 !! r_name r = Some id;
  ar_alts : reading_alts (mentions (r_expr r)) p3 p4 alts (fun E => denote E (r_expr r));
}.
Section Step.
Context (l : list RuleText) (r : RuleText) (p p3 p4 : Parser) (id : nat) (alts : list (list Symbol)).
Context (Hl : rules_read l p) (Hls : Forall (fun r => rule_ok r = true) l) (Hr : rule_ok r = true) (Hnew : r_name r ∉ r_name <$> l).
Context (Hat : at_rule r p p3 p4 id alts).
Local Abbreviation p5 := (push_alternatives id alts p4).

Lemma step_names : names p ⊆ names p4.
Proof. etrans; [apply (ar_start _ _ _ _ _ _ Hat) | apply (ar_alts _ _ _ _ _ _ Hat)]. Qed.
Lemma step_id : names p4 !! r_name r = Some id.
Proof. apply (lookup_weaken _ _ _ _ (ar_id _ _ _ _ _ _ Hat)), (ar_alts _ _ _ _ _ _ Hat). Qed.
Lemma step_good4 : good p4.
Proof. apply (ar_alts _ _ _ _ _ _ Hat). Qed.
Lemma step_gen : (generated p <= generated p4)%nat.
Proof. rewrite <- (ar_gen _ _ _ _ _ _ Hat). apply (ar_alts _ _ _ _ _ _ Hat). Qed.
Lemma step_good : good p5.
Proof.
  pose proof step_good4 as [Hok Hi Hu]. destruct (push_alternatives_prods id alts p4) as (_ & En & Eg & _). split.
  - apply (step_push_alternatives id alts p4); [done | | apply (ar_alts _ _ _ _ _ _ Hat)]. apply (po_names _ Hok). eexists. exact step_id.
  - rewrite En. exact Hi.
  - intros n. rewrite En, Eg. apply Hu.
Qed.
Lemma step_window n : window p3 p4 n <-> (generated p <= n < generated p4)%nat.
Proof. unfold window. by rewrite (ar_gen _ _ _ _ _ _ Hat). Qed.
(** A rule of before is neither the new rule nor one generated since. *)
Lemma defined_before id' : defined l p id' -> id' <> id /\ forall n, window p3 p4 n -> names p4 !! generated_name n <> Some id'.
Proof.
  intros Hd. pose proof step_names as Hsub. pose proof (gd_inj _ step_good4) as Hinj. rewrite Forall_forall in Hls.
  destruct Hd as [(r' & Hin & Hid)|(m & Hm & Hid)]; pose proof (lookup_weaken _ _ _ _ Hid Hsub) as Hid4.
  - split.
    + intros ->. apply Hnew. rewrite <- (Hinj _ _ _ Hid4 step_id). by apply list_elem_of_fmap_2.
    + intros n _ Hn. by apply (written_name r' n); [apply Hls | apply (Hinj _ _ _ Hid4 Hn)].
  - split.
    + intros ->. apply (written_name r m Hr). symmetry. exact (Hinj _ _ _ Hid4 step_id).
    + intros n Hw Hn. pose proof (Hinj _ _ _ Hid4 Hn) as E%(inj generated_name). apply step_window in Hw. lia.
Qed.
Lemma step_prods pr : pr ∈ prods p5 <-> pr ∈ prods p \/ (pr ∈ prods p4 /\ exists n, window p3 p4 n /\ names p4 !! generated_name n = Some (lhs pr))
  \/ exists α, α ∈ alts /\ pr = mkProduction id α.
Proof.
  destruct (push_alternatives_prods id alts p4) as (-> & _). destruct (gr_prods _ _ _ (ra_grows _ _ _ _ _ (ar_alts _ _ _ _ _ _ Hat))) as (new & E & Hn).
  rewrite (ar_prods _ _ _ _ _ _ Hat) in E. rewrite Forall_forall in Hn. rewrite elem_of_app, list_elem_of_fmap. split.
  - intros [H|(α & -> & Hα)]; [|right; right; eauto]. rewrite E, elem_of_app in H. destruct H as [H|H]; [by left|]. right; left. split; [|by apply Hn].
    rewrite E. apply elem_of_app. by right.
  - intros [H|[[H _]|(α & Hα & ->)]]; [left; rewrite E; apply elem_of_app; by left | by left | right; eauto].
Qed.
Lemma step_defined id' : defined (l ++ [r]) p5 id' <-> defined l p id' \/ id' = id \/ exists n, window p3 p4 n /\ names p4 !! generated_name n = Some id'.
Proof.
  destruct (push_alternatives_prods id alts p4) as (_ & En & Eg & _). unfold defined. rewrite En, Eg. pose proof step_names as Hsub. split.
  - intros [(r' & [Hin| ->%list_elem_of_singleton]%elem_of_app & Hid)|(n & Hn & Hid)].
    + left. left. exists r'. split; [done|]. destruct (rr_named _ _ Hl _ Hin) as [i Hi]. pose proof (lookup_weaken _ _ _ _ Hi Hsub). by simplify_eq.
    + right. left. rewrite step_id in Hid. by simplify_eq.
    + destruct (decide (n < generated p)%nat) as [Hlt|Hge].
      * left. right. exists n. split; [done|]. destruct (rr_gens _ _ Hl _ Hlt) as [i Hi]. pose proof (lookup_weaken _ _ _ _ Hi Hsub). by simplify_eq.
      * right. right. exists n. split; [apply step_window; lia | done].
  - intros [[(r' & Hin & Hid)|(n & Hn & Hid)]|[-> |(n & Hw & Hid)]].
    + left. exists r'. split; [apply elem_of_app; by left | by apply (lookup_weaken _ _ _ _ Hid)].
    + right. exists n. split; [pose proof step_gen; lia | by apply (lookup_weaken _ _ _ _ Hid)].
    + left. exists r. split; [apply elem_of_app; right; by apply list_elem_of_singleton | exact step_id].
    + right. exists n. split; [apply step_window in Hw; lia | done].
Qed.
Lemma step_own α : mkProduction id α ∈ prods p5 <-> α ∈ alts.
Proof.
  rewrite step_prods. split; [|by eauto]. intros [H|[(_ & n & Hw & Hid)|(α' & Hα & [= ->])]]; [| |done].
  - apply (rr_prods _ _ Hl) in H as [H _]%defined_before. by cbn in H.
  - cbn in Hid. exfalso. apply (written_name r n Hr). exact (gd_inj _ step_good4 _ _ _ step_id Hid).
Qed.
Lemma step_closed g : closed (l ++ [r]) p5 g -> closed l p g /\ settled p3 p4 g /\ forall α, defines g id α <-> α ∈ alts.
Proof.
  intros Hc. split; [|split].
  - intros id' α Hd. destruct (defined_before id' Hd) as [Hne Hnw]. rewrite (Hc id' α) by (apply step_defined; by left). rewrite step_prods. split.
    + intros [H|[(_ & n & Hw & Hid)|(α' & _ & [= ? _])]]; [done | by apply Hnw in Hid | done].
    + by left.
  - intros n id' α Hw Hid. rewrite (Hc id' α) by (apply step_defined; eauto). rewrite step_prods. split.
    + intros [H|[[H _]|(α' & _ & [= -> _])]]; [|done|].
      * apply (in_prods _ _ _ _ (ra_grows _ _ _ _ _ (ar_alts _ _ _ _ _ _ Hat))). by rewrite (ar_prods _ _ _ _ _ _ Hat).
      * exfalso. apply (written_name r n Hr). exact (gd_inj _ step_good4 _ _ _ step_id Hid).
    + intros H. right. left. split; [done|]. by exists n.
  - intros α. rewrite <- step_own. apply Hc. apply step_defined. by right; left.
Qed.
Lemma rules_read_snoc : rules_read (l ++ [r]) p5.
Proof.
  destruct (push_alternatives_prods id alts p4) as (_ & En & Eg & _). pose proof (ar_alts _ _ _ _ _ _ Hat) as [G F Hne O M]. split.
  - exact step_good.
  - intros t i. rewrite En, Eg. intros Ht. destruct (gr_new _ _ _ G _ _ Ht) as [[i' Ht3]|[Hm|(n & Hn & ->)]].
    + destruct (gr_new _ _ _ (ar_start _ _ _ _ _ _ Hat) _ _ Ht3) as [[i'' Hp]|[->%list_elem_of_singleton|(n & Hn & ->)]].
      * destruct (rr_names _ _ Hl _ _ Hp) as [(r' & Hin & Hr')|(n & Hn & ->)].
        -- left. exists r'. split; [apply elem_of_app; by left | done].
        -- right. exists n. split; [pose proof step_gen; lia | done].
      * left. exists r. split; [apply elem_of_app; right; by apply list_elem_of_singleton | by left].
      * unfold window in Hn. rewrite (ar_gen _ _ _ _ _ _ Hat) in Hn. lia.
    + left. exists r. split; [apply elem_of_app; right; by apply list_elem_of_singleton | by right].
    + right. exists n. split; [unfold window in Hn; lia | done].
  - intros r' [Hin| ->%list_elem_of_singleton]%elem_of_app; rewrite En; [|by exists id; apply step_id].
    destruct (rr_named _ _ Hl _ Hin) as [i Hi]. exists i. by apply (lookup_weaken _ _ _ _ Hi), step_names.
  - intros pr Hpr%step_prods. apply step_defined. destruct Hpr as [H|[(_ & n & Hw & Hid)|(α & _ & ->)]]; [left; by apply (rr_prods _ _ Hl) | right; right; eauto | by right; left].
  - intros n. rewrite En, Eg. intros Hn. destruct (decide (n < generated p)%nat) as [Hlt|Hge].
    + destruct (rr_gens _ _ Hl _ Hlt) as [i Hi]. exists i. by apply (lookup_weaken _ _ _ _ Hi), step_names.
    + destruct (F n) as (i & α & Hi & _); [apply step_window; lia | by exists i].
  - intros i [Hd|[-> |(n & Hw & Hid)]]%step_defined.
    + destruct (rr_filled _ _ Hl _ Hd) as [α Hα]. exists α. apply step_prods. by left.
    + assert (exists α, α ∈ alts) as [α Hα] by (clear -Hne; destruct alts as [|α ?]; [done|]; exists α; apply elem_of_cons; by left).
      exists α. apply step_prods. right; right. by exists α.
    + destruct (F n Hw) as (i' & α & Hi & Hα). simplify_eq. exists α. apply step_prods. right; left. split; [done|]. by exists n.
  - intros r' i g N v Hin Hi HN Hc. rewrite En in Hi, HN. destruct (step_closed g Hc) as (Hc1 & Hs & Hdef).
    apply elem_of_app in Hin as [Hin| ->%list_elem_of_singleton].
    + destruct (rr_named _ _ Hl _ Hin) as [i' Hi']. pose proof (lookup_weaken _ _ _ _ Hi' step_names). simplify_eq.
      apply (rr_means _ _ Hl); [done..| |done]. etrans; [exact step_names | done].
    + rewrite step_id in Hi. simplify_eq. rewrite yields_one. setoid_rewrite Hdef. by apply M.
Qed.
End Step.

(** ** The text. *)
Lemma rules_read_skip l n p : rules_read l p -> (position p + n <= length (source p))%nat -> rules_read l (skip n p).
Proof. intros [H1 H2 H3 H4 H5 H6 H7] Hn. split; try done. by apply good_skip. Qed.
Lemma newlines_add a b : newlines a ++ newlines b = newlines (a + b).
Proof. unfold newlines. by rewrite replicate_add. Qed.
(** Reading one more rule. *)
Lemma rules_step l p m r k fuel : rules_read l p -> Forall (fun r => rule_ok r = true) l -> rule_ok r = true -> r_name r ∉ r_name <$> l ->
  rest p = newlines m ++ print_rule r ++ k -> utf8_valid k = true ->
  exists p', rules (S fuel) p = rules fuel p' /\ rest p' = x0a :: k /\ (length (rest p') < length (rest p))%nat /\ rules_read (l ++ [r]) p'.
Proof.
  intros Hl Hls Hr Hnew Er Hk. pose proof (rr_good _ _ Hl) as Hg. pose proof Hr as Hr'. unfold rule_ok in Hr'. apply andb_true_iff in Hr' as [Hname Hexpr].
  unfold print_rule, rule_line in Er. cbn [fst snd] in Er. rewrite <- !app_assoc in Er. rewrite app_assoc, newlines_add in Er.
  set (n := (m + r_lines r)%nat) in *. set (body := print (r_expr r) ++ [x0a] ++ k) in *.
  destruct (piece_first (Ref (r_name r)) Hname) as (b & t & Eb & Hb & _). cbn [print_piece] in Eb.
  cbn [rules]. rewrite (skip_layout_reads _ _ _ Er).
  2:{ rewrite Eb. cbn [app]. clear -Hb. revert Hb. destruct b; vm_compute; intuition discriminate. }
  rewrite bool_decide_eq_true_2 by (rewrite Eb; done). cbn [negb].
  assert (rest (skip n p) = r_name r ++ gbnf " ::= " ++ body) as Er0.
  { rewrite rest_skip_drop, Er. rewrite <- (length_replicate n x0a) at 1. apply drop_app_length. }
  rewrite (name_reads (r_name r) (gbnf " ::= " ++ body) _ Hname Er0) by done. cbv beta iota. rewrite skip_skip.
  set (p1 := skip (n + length (r_name r)) p).
  assert (position p + (n + length (r_name r)) <= length (source p))%nat as Hle1.
  { apply rest_length; [done|]. rewrite Er, !length_app. unfold newlines. rewrite length_replicate. lia. }
  pose proof (good_skip _ _ Hg Hle1) as Hg1. pose proof (grows_skip _ _ Hg Hle1) as G1. fold p1 in Hg1, G1.
  assert (rest p1 = gbnf " ::= " ++ body) as Er1 by (unfold p1; rewrite <- skip_skip; by apply rest_skip).
  destruct (rule_id (r_name r) p1) as [id p2] eqn:Eq.
  destruct (grows_rule_id (r_name r) p1 id p2 Hg1 Eq) as (G2 & Hid & Hgen2 & Hpos2 & Hpr2); [intros q _; by apply written_name|].
  assert (rest p2 = gbnf " ::= " ++ body) as Er2 by (unfold rest; rewrite Hpos2, (gr_source _ _ _ G2); exact Er1).
  pose proof (gr_good _ _ _ G2) as Hg2. destruct (good_horizontal p2 Hg2) as [Hg2' G2'].
  assert (rest (skip_horizontal p2) = [":"; ":"; "="]%byte ++ " "%byte :: body) as Er2' by by rewrite rest_skip_horizontal, Er2.
  rewrite (expect_reads _ _ _ Er2'). change (length [":"; ":"; "="]%byte) with 3%nat.
  assert (position (skip_horizontal p2) + 3 <= length (source (skip_horizontal p2)))%nat as Hle3.
  { apply rest_length; [done|]. rewrite Er2'. cbn. lia. }
  pose proof (good_skip _ _ Hg2' Hle3) as Hg3. pose proof (grows_skip _ _ Hg2' Hle3) as G3. set (p3 := skip 3 (skip_horizontal p2)) in *.
  assert (rest p3 = " "%byte :: body) as Er3 by (unfold p3; by rewrite rest_skip_drop, Er2').
  pose proof (grows_trans _ _ _ _ _ G1 (grows_trans _ _ _ _ _ G2 (grows_trans _ _ _ _ _ G2' G3))) as G.
  destruct (proj1 reads_all (r_expr r) Hexpr p3 (x0a :: k) (fuel_for p3) None [] Hg3) as (alts & p4 & E4 & Er4 & Hra).
  { by left. } { by rewrite Er3, trim_cons. } { by rewrite utf8_valid_ascii. } { done. } { unfold fuel_for. rewrite length_rest. lia. }
  rewrite E4. cbn [app]. change (trim (x0a :: k)) with (x0a :: k) in Er4.
  assert (at_rule r p p3 p4 id alts) as Hat by by split.
  destruct (push_alternatives_prods id alts p4) as (_ & _ & _ & Hpos5).
  assert (rest (push_alternatives id alts p4) = x0a :: k) as Er5.
  { unfold rest. rewrite Hpos5. assert (source (push_alternatives id alts p4) = source p4) as ->; [|exact Er4]. clear.
    unfold push_alternatives. revert p4. induction alts as [|a alts IH]; intros p4; cbn; [done|]. by rewrite IH. }
  rewrite (rule_end_reads k) by done. exists (push_alternatives id alts p4). split; [done|]. split; [done|]. split.
  - rewrite Er5, Er. unfold body. rewrite !length_app. rewrite Eb. cbn. lia.
  - by apply (rules_read_snoc l r p p3 p4 id alts).
Qed.
Lemma rules_reads todo : forall l p m fuel, rules_read l p -> Forall (fun r => rule_ok r = true) (l ++ todo) -> NoDup (r_name <$> l ++ todo) ->
  rest p = newlines m ++ print_rules todo -> (length (rest p) < fuel)%nat -> exists p', rules fuel p = Ok p' /\ rules_read (l ++ todo) p'.
Proof.
  induction todo as [|r todo IH]; intros l p m fuel Hl Hok Hnd Er Hf; (destruct fuel as [|fuel]; [lia|]).
  - cbn [rules]. rewrite (skip_layout_reads m [] p) by done. rewrite bool_decide_eq_false_2 by (intros H; by apply H). cbn [negb].
    exists (skip m p). split; [done|]. rewrite app_nil_r. apply rules_read_skip; [done|]. apply rest_length; [apply Hl|].
    rewrite Er, length_app. unfold newlines. rewrite length_replicate. lia.
  - apply Forall_app in Hok as [Hls Hrs]. apply Forall_cons in Hrs as [Hr Hrs].
    assert (utf8_valid (print_rules todo) = true) as Hv.
    { clear -Hrs. induction Hrs as [|r todo Hr Hrs IH]; [done|]. unfold print_rules. rewrite fmap_cons, mjoin_cons. apply utf8_valid_join; [|done].
      unfold rule_ok in Hr. apply andb_true_iff in Hr as [Hn He]. unfold print_rule, rule_line. cbn [fst snd]. repeat apply utf8_valid_join; try done.
      - apply utf8_valid_all. by apply Forall_replicate.
      - by apply (proj2 (proj2 print_valid) (Ref (r_name r))).
      - by apply print_valid. }
    unfold print_rules in Er. rewrite fmap_cons, mjoin_cons in Er.
    assert (r_name r ∉ r_name <$> l) as Hnew.
    { rewrite fmap_app, fmap_cons in Hnd. apply NoDup_app in Hnd as (_ & Hdis & _). intros Hin. apply (Hdis _ Hin). apply elem_of_cons. by left. }
    destruct (rules_step l p m r (print_rules todo) fuel Hl Hls Hr Hnew Er Hv) as (p' & E & Er' & Hlt & Hl'). rewrite E.
    destruct (IH (l ++ [r]) p' 1%nat fuel) as (p'' & E'' & Hl''); [done| | |done|lia|].
    + rewrite <- app_assoc. apply Forall_app. split; [done|]. by apply Forall_cons.
    + by rewrite <- app_assoc.
    + exists p''. split; [done|]. by rewrite <- app_assoc in Hl''.
Qed.
Lemma rules_read_start text : rules_read [] (Parser_new text).
Proof.
  split.
  - split; [split; cbn; [lia| |constructor]|done|done]. intros id. rewrite map_size_empty. split; [lia|]. intros [t Ht]. by rewrite lookup_empty in Ht.
  - intros t id. cbn. by rewrite lookup_empty.
  - by intros r ?%elem_of_nil.
  - by intros pr ?%elem_of_nil.
  - cbn. lia.
  - intros id [(r & ?%elem_of_nil & _)|(n & Hn & _)]; [done|]. cbn in Hn. lia.
  - by intros r id g N v ?%elem_of_nil.
Qed.

(** Every grammar text of well-written rules with distinct names, each mentioned one defined, is
    accepted; the sentences of the grammar are the words of its root, and the words of every rule
    are what its expression denotes over the words of the rules it mentions. *)
Lemma grammar_text l root : Forall (fun r => rule_ok r = true) l -> NoDup (r_name <$> l) ->
  (forall r t, r ∈ l -> t ∈ mentions (r_expr r) -> t ∈ r_name <$> l) -> root ∈ r_name <$> l ->
  exists g N, parse (print_rules l) root = Ok g /\
    (forall v, yields g (rhs (productions g !!! start_production g)) v <-> env g N root v) /\
    (forall r v, r ∈ l -> env g N (r_name r) v <-> denote (env g N) (r_expr r) v).
Proof.
  intros Hok Hnd Hment Hroot. unfold parse.
  destruct (rules_reads l [] (Parser_new (print_rules l)) 0 (S (length (print_rules l))) (rules_read_start _)) as (p & E & Hl); [done|done|done|unfold rest; cbn [source position Parser_new]; rewrite drop_0; lia|].
  rewrite E. cbn [app] in Hl. apply list_elem_of_fmap in Hroot as (rr & -> & Hrr). destruct (rr_named _ _ Hl _ Hrr) as [rid Hrid]. rewrite Hrid. cbn [ok_or].
  pose proof (rr_good _ _ Hl) as Hg. set (ps := prods p ++ [mkProduction (size (names p)) [Rule rid]]).
  assert (Forall (fun pr => (lhs pr < S (size (names p)))%nat) ps) as Hps.
  { apply Forall_app. split; [|constructor; [cbn; lia | constructor]]. eapply Forall_impl; [apply (po_prods _ (gd_ok _ Hg))|]. intros pr [H _]. lia. }
  assert (forall id, defined l p id -> (id < size (names p))%nat) as Hdlt.
  { intros id Hd. apply (po_names _ (gd_ok _ Hg)). destruct Hd as [(r & _ & Hid)|(n & _ & Hid)]; by eexists. }
  set (g := mkGrammar ps (index_productions (S (size (names p))) ps) (length (prods p))).
  assert (closed l p g) as Hc.
  { intros id α Hd. unfold g. rewrite defines_index by done. unfold ps. rewrite elem_of_app, list_elem_of_singleton. split; [|by left].
    intros [?|[= -> _]]; [done|]. apply Hdlt in Hd. lia. }
  assert (filter (fun '(_, rule) => by_lhs g !!! rule = []) (map_to_list (names p)) = []) as Hund.
  { destruct (filter _ _) as [|[t id] rest] eqn:Ef; [done|]. exfalso.
    assert ((t, id) ∈ filter (fun '(_, rule) => by_lhs g !!! rule = []) (map_to_list (names p))) as Hin by (rewrite Ef; apply elem_of_cons; by left).
    apply list_elem_of_filter in Hin as [Hempty Hin%elem_of_map_to_list].
    assert (defined l p id) as Hd.
    { destruct (rr_names _ _ Hl _ _ Hin) as [(r & Hr & [-> |Ht])|(n & Hn & ->)]; [left; eauto| |right; eauto].
      apply (Hment _ _ Hr), list_elem_of_fmap in Ht as (r' & -> & Hr'). left. eauto. }
    destruct (rr_filled _ _ Hl _ Hd) as [α Hα]. pose proof (proj2 (Hc id α Hd) Hα) as (q & Hq & _). rewrite Hempty in Hq. by apply elem_of_nil in Hq. }
  cbv zeta. fold ps. change (index_productions (S (size (names p))) ps) with (by_lhs g).
  match goal with |- context [filter ?P ?m] => change (filter P m) with (filter (fun '(_, rule) => by_lhs g !!! rule = []) m) end. rewrite Hund. exists g, (names p). split; [done|]. split.
  - intros v. assert (productions g !!! start_production g = mkProduction (size (names p)) [Rule rid]) as ->.
    { apply list_lookup_total_correct. change (ps !! length (prods p) = Some (mkProduction (size (names p)) [Rule rid])).
      unfold ps. by rewrite lookup_app_r, Nat.sub_diag by lia. }
    cbn [rhs].
    unfold env. rewrite Hrid. split; [by exists rid | by intros (id & [= <-] & Hy)].
  - intros r v Hr. destruct (rr_named _ _ Hl _ Hr) as [id Hid]. rewrite <- (rr_means _ _ Hl r id g (names p) v Hr Hid); [|done|done].
    unfold env. rewrite Hid. split; [by intros (id' & [= <-] & Hy) | by exists id].
Qed.
