(* ===== verification/JsonRules.v ===== *)
(** * The rules of JSON.

    The fixed rules the schema compiler appends, as syntax: written, they are [JSON_RULES], and
    with them the parser reads every well-written set of rules that names only its own and these. *)
From Stdlib Require Import Strings.Byte.
From S2P Require Import Prelude Utf8 Utf8Scalar Grammar GrammarText GrammarParser GrammarLanguage Schema GbnfSyntax GbnfReading GbnfRules.

(** ** Shorthands. *)
Abbreviation Part := (Piece * Suffix)%type.
Definition lit (text : string) : Part := (Lit (gbnf text), Once).
Definition newline : Part := (Lit [x0a], Once).
Definition quote : Part := (Lit [x22], Once).
Definition backslash : Part := (Lit [x5c], Once).
Definition rule (name : string) : Part := (Ref (gbnf name), Once).
Definition one (text : string) (value : Z) : Entry := (mkWritten (gbnf text) value, None).
Definition span (lower : string) (low : Z) (upper : string) (up : Z) : Entry := (mkWritten (gbnf lower) low, Some (mkWritten (gbnf upper) up)).
Definition one_of (entries : list Entry) : Part := (Class false entries, Once).
Definition none_of (entries : list Entry) : Part := (Class true entries, Once).
Definition maybe (i : Part) : Part := (i.1, Optional).
Definition many (i : Part) : Part := (i.1, Star).
Definition some (i : Part) : Part := (i.1, Plus).
Definition times (n : Z) (i : Part) : Part := (i.1, Exactly n).
Definition from_to (m n : Z) (i : Part) : Part := (i.1, Between m n).
(** Items with one space between them. *)
Fixpoint spaced (pad : nat) (l : list Part) : Seq :=
  match l with [] => End 0 | i :: l => Then pad i.1 i.2 (spaced 1 l) end.
Fixpoint alts (l : list (list Part)) : Expr :=
  match l with [] => Last (End 0) | [s] => Last (spaced 0 s) | s :: l => Or (spaced 0 s) (alts l) end.
Definition group (l : list (list Part)) : Part := (Group (alts l), Once).

Definition json_rules : list RuleText := [
  mkRule 1 (gbnf "value") (alts [[rule "object"]; [rule "array"]; [rule "string"]; [rule "number"]; [rule "boolean"]; [rule "null"]]);
  mkRule 0 (gbnf "object") (alts [[lit "{"; rule "space"; maybe (group [[rule "string"; rule "space"; lit ":"; rule "space"; rule "value";
     many (group [[rule "comma"; rule "string"; rule "space"; lit ":"; rule "space"; rule "value"]])]]); rule "space"; lit "}"]]);
  mkRule 0 (gbnf "array") (alts [[lit "["; rule "space"; maybe (group [[rule "value"; many (group [[rule "comma"; rule "value"]])]]);
     rule "space"; lit "]"]]);
  mkRule 0 (gbnf "string") (alts [[quote; rule "characters"; quote]]);
  mkRule 0 (gbnf "characters") (alts [[many (rule "json-character")]]);
  mkRule 0 (gbnf "json-character") (alts [[none_of [one "'" 34; one "\\" 92; span "\x00" 0 "\x1f" 31]]; [backslash;
     group [[one_of [one "'" 34; one "\\" 92; one "/" 47; one "b" 98; one "f" 102; one "n" 110; one "r" 114; one "t" 116]]; [lit "u";
     times 4 (one_of [span "0" 48 "9" 57; span "a" 97 "f" 102; span "A" 65 "F" 70])]]]]);
  mkRule 0 (gbnf "regex-dot") (alts [[none_of [one "\x0a" 10; one "\x0d" 13]]]);
  mkRule 0 (gbnf "number") (alts [[maybe (lit "-"); group [[lit "0"]; [one_of [span "1" 49 "9" 57]; many (one_of [span "0" 48 "9" 57])]];
     maybe (group [[lit "."; some (one_of [span "0" 48 "9" 57])]]); maybe (group [[one_of [one "e" 101; one "E" 69];
     maybe (one_of [one "+" 43; one "-" 45]); some (one_of [span "0" 48 "9" 57])]])]]);
  mkRule 0 (gbnf "integer") (alts [[maybe (lit "-"); group [[lit "0"]; [one_of [span "1" 49 "9" 57];
     many (one_of [span "0" 48 "9" 57])]]]]);
  mkRule 0 (gbnf "boolean") (alts [[lit "true"]; [lit "false"]]);
  mkRule 0 (gbnf "null") (alts [[lit "null"]]);
  mkRule 0 (gbnf "comma") (alts [[lit ","; rule "space"]]);
  mkRule 0 (gbnf "space") (alts [[from_to 0 1 (one_of [one " " 32])]; [from_to 1 2 (newline); from_to 0 20 (one_of [one " " 32;
     one "\t" 9])]]);
  mkRule 0 (gbnf "ws") (alts [[many (one_of [one " " 32; one "\t" 9; one "\n" 10; one "\r" 13])]]);
  mkRule 0 (gbnf "date-value") (alts [[times 4 (one_of [span "0" 48 "9" 57]); lit "-"; group [[lit "0"; one_of [span "1" 49 "9" 57]];
     [lit "1"; one_of [span "0" 48 "2" 50]]]; lit "-"; group [[lit "0"; one_of [span "1" 49 "9" 57]]; [one_of [one "1" 49; one "2" 50];
     one_of [span "0" 48 "9" 57]]; [lit "3"; one_of [one "0" 48; one "1" 49]]]]]);
  mkRule 0 (gbnf "time-value") (alts [[group [[one_of [one "0" 48; one "1" 49]; one_of [span "0" 48 "9" 57]]; [lit "2";
     one_of [span "0" 48 "3" 51]]]; lit ":"; one_of [span "0" 48 "5" 53]; one_of [span "0" 48 "9" 57]; lit ":";
     one_of [span "0" 48 "5" 53]; one_of [span "0" 48 "9" 57]; maybe (group [[lit "."; times 3 (one_of [span "0" 48 "9" 57])]]);
     group [[lit "Z"]; [one_of [one "+" 43; one "-" 45]; group [[one_of [one "0" 48; one "1" 49]; one_of [span "0" 48 "9" 57]]; [lit "2";
     one_of [span "0" 48 "3" 51]]]; lit ":"; one_of [span "0" 48 "5" 53]; one_of [span "0" 48 "9" 57]]]]])].
Definition json_names : list str := r_name <$> json_rules.

Lemma print_rules_app a b : print_rules (a ++ b) = print_rules a ++ print_rules b.
Proof. unfold print_rules. by rewrite fmap_app, join_app. Qed.
Lemma json_rules_text : print_rules json_rules = JSON_RULES.
Proof. vm_compute. reflexivity. Qed.
Lemma json_rules_ok : forallb rule_ok json_rules = true.
Proof. vm_compute. reflexivity. Qed.
Lemma json_rules_named : forallb (fun r => forallb (fun t => bool_decide (t ∈ json_names)) (mentions (r_expr r))) json_rules = true.
Proof. vm_compute. reflexivity. Qed.
Lemma json_names_distinct : bool_decide (NoDup json_names) = true.
Proof. vm_compute. reflexivity. Qed.
