(* ===== verification/SchemaText.v ===== *)
(** * What grammar text says.

    A text is related to the language it says over the languages of the rules it names; the ways
    the schema compiler puts texts together are put together on languages. *)
From Stdlib Require Import Strings.Byte.
From S2P Require Import Prelude Utf8 Utf8Scalar Grammar GrammarParser GrammarLanguage Schema GbnfSyntax GbnfReading.

(** A language over the languages of rules. *)
Abbreviation Meaning := ((str -> Lang) -> Lang).
Definition lit_words (text : str) : Lang := fun v => v = word (code_point <$> chars text).
Lemma lang_app_assoc (L M N : Lang) v : lang_app (lang_app L M) N v <-> lang_app L (lang_app M N) v.
Proof.
  split.
  - intros (x & c & -> & (a & b & -> & Ha & Hb) & Hc). exists a, (b ++ c). rewrite app_assoc. split; [done|]. split; [done|]. by exists b, c.
  - intros (a & x & -> & Ha & b & c & -> & Hb & Hc). exists (a ++ b), c. rewrite app_assoc. split; [done|]. split; [by exists a, b | done].
Qed.
Lemma lang_app_nil_l (L : Lang) v : lang_app (fun v => v = []) L v <-> L v.
Proof. split; [by intros (a & b & -> & -> & Hb) | intros H; by exists [], v]. Qed.
Lemma lang_app_nil_r (L : Lang) v : lang_app L (fun v => v = []) v <-> L v.
Proof. split; [intros (a & b & -> & Ha & ->); by rewrite app_nil_r | intros H; exists v, []; by rewrite app_nil_r]. Qed.

(** One sequence behind another, with a space between. *)
Definition pad_seq (n : nat) (t : Seq) : Seq := match t with End k => End (n + k) | Then p pc suffix t => Then (n + p) pc suffix t end.
Fixpoint seq_app (s t : Seq) : Seq := match s with End trail => pad_seq (S trail) t | Then p pc suffix s => Then p pc suffix (seq_app s t) end.
Lemma spaces_add a b : spaces (a + b) = spaces a ++ spaces b.
Proof. unfold spaces. apply replicate_add. Qed.
Lemma print_pad n t : print_seq (pad_seq n t) = spaces n ++ print_seq t.
Proof. destruct t as [k|p pc suffix t]; cbn [pad_seq print_seq]; rewrite spaces_add; [done|]. by rewrite <- app_assoc. Qed.
Lemma print_seq_app s t : print_seq (seq_app s t) = print_seq s ++ gbnf " " ++ print_seq t.
Proof.
  induction s as [trail|p pc suffix s IH]; cbn [seq_app].
  - rewrite print_pad. cbn [print_seq]. rewrite <- Nat.add_1_r, spaces_add, <- app_assoc. done.
  - cbn [print_seq]. by rewrite IH, !app_assoc.
Qed.
Lemma seq_ok_app s t : seq_ok s = true -> seq_ok t = true -> seq_ok (seq_app s t) = true.
Proof.
  intros Hs Ht. induction s as [trail|p pc suffix s IH]; cbn [seq_app]; [by destruct t|].
  cbn [seq_ok] in *. rewrite !andb_true_iff in *. destruct Hs as [[[H1 H2] H3] H4]. split_and!; [done..| |by apply IH].
  destruct s as [trail|p' pc' suffix' s]; cbn [seq_app]; [|exact H3]. destruct pc, suffix, t; try done; by destruct pc.
Qed.
Lemma mentions_seq_app s t : mentions_seq (seq_app s t) = mentions_seq s ++ mentions_seq t.
Proof. induction s as [trail|p pc suffix s IH]; cbn [seq_app mentions_seq]; [by destruct t|]. by rewrite IH, app_assoc. Qed.
Lemma denote_seq_app E s t v : denote_seq E (seq_app s t) v <-> lang_app (denote_seq E s) (denote_seq E t) v.
Proof.
  revert v. induction s as [trail|p pc suffix s IH]; intros v; cbn [seq_app denote_seq].
  - rewrite lang_app_nil_l. by destruct t.
  - rewrite lang_app_assoc. apply lang_app_iff; [done|]. intros w. apply IH.
Qed.

Section Says.
Context (known : str -> Prop).
Definition says (text : str) (L : Meaning) : Prop :=
  exists s, print_seq s = text /\ seq_ok s = true /\ Forall known (mentions_seq s) /\ forall E v, denote_seq E s v <-> L E v.
Definition says_any (text : str) (L : Meaning) : Prop :=
  exists e, print e = text /\ expr_ok e = true /\ Forall known (mentions e) /\ forall E v, denote E e v <-> L E v.
Lemma says_iff text (L M : Meaning) : says text L -> (forall E v, L E v <-> M E v) -> says text M.
Proof. intros (s & H1 & H2 & H3 & H4) H. exists s. split_and!; [done..|]. intros E v. by rewrite H4. Qed.
Lemma says_any_iff text (L M : Meaning) : says_any text L -> (forall E v, L E v <-> M E v) -> says_any text M.
Proof. intros (s & H1 & H2 & H3 & H4) H. exists s. split_and!; [done..|]. intros E v. by rewrite H4. Qed.
Lemma says_nil : says [] (fun _ v => v = []).
Proof. by exists (End 0). Qed.
Lemma says_space text L : says text L -> says (gbnf " " ++ text) L.
Proof. intros (s & <- & H2 & H3 & H4). destruct s as [trail|pad pc suffix s]; [by exists (End (S trail)) | by exists (Then (S pad) pc suffix s)]. Qed.
Lemma says_app a b (L M : Meaning) : says a L -> says b M -> says (a ++ gbnf " " ++ b) (fun E => lang_app (L E) (M E)).
Proof.
  intros (s & <- & S2 & S3 & S4) (t & <- & T2 & T3 & T4). exists (seq_app s t). split; [apply print_seq_app|]. split; [by apply seq_ok_app|]. split.
  - rewrite mentions_seq_app. by apply Forall_app.
  - intros E v. rewrite denote_seq_app. by apply lang_app_iff.
Qed.
(** A piece, repeated or not. *)
Lemma says_piece pc suffix (L : Meaning) : piece_ok pc = true -> suffix_ok suffix = true -> Forall known (mentions_piece pc) ->
  (forall E v, lang_repeat (denote_piece E pc) suffix v <-> L E v) -> says (print_piece pc ++ print_suffix suffix) L.
Proof.
  intros Hpc Hsuf Hk HL. exists (Then 0 pc suffix (End 0)). split; [cbn; by rewrite app_nil_r|]. split; [|split].
  - cbn [seq_ok]. rewrite Hpc, Hsuf. by destruct pc, suffix.
  - cbn [mentions_seq]. by rewrite app_nil_r.
  - intros E v. cbn [denote_seq]. by rewrite lang_app_nil_r.
Qed.
(** A piece that is no name, with anything behind it. *)
Lemma says_then pc suffix text (L M : Meaning) : piece_ok pc = true -> suffix_ok suffix = true -> (forall name, pc <> Ref name) -> Forall known (mentions_piece pc) ->
  (forall E v, lang_repeat (denote_piece E pc) suffix v <-> L E v) -> says text M -> says (print_piece pc ++ print_suffix suffix ++ text) (fun E => lang_app (L E) (M E)).
Proof.
  intros Hpc Hsuf Hr Hk HL (s & <- & S2 & S3 & S4). exists (Then 0 pc suffix s). split; [done|]. split; [|split].
  - cbn [seq_ok]. rewrite Hpc, Hsuf, S2. destruct pc; [done..| by edestruct Hr | done].
  - cbn [mentions_seq]. by apply Forall_app.
  - intros E v. cbn [denote_seq]. by apply lang_app_iff.
Qed.
Lemma says_literal text : utf8_valid text = true -> says (quoted_literal text) (fun _ => lit_words text).
Proof.
  intros Hv. pose proof (says_piece (Lit text) Once (fun _ => lit_words text) Hv eq_refl) as W. cbn [print_piece print_suffix] in W. rewrite app_nil_r in W.
  apply W; [constructor|]. intros E v. by rewrite lang_repeat_once.
Qed.
Lemma says_name name : name_ok name = true -> known name -> says name (fun E => E name).
Proof.
  intros Hv Hk. pose proof (says_piece (Ref name) Once (fun E => E name) Hv eq_refl) as W. cbn [print_piece print_suffix] in W. rewrite app_nil_r in W.
  apply W; [by repeat constructor|]. intros E v. by rewrite lang_repeat_once.
Qed.
Lemma says_group_repeated inner suffix (L M : Meaning) : says_any inner L -> suffix_ok suffix = true -> (forall E v, lang_repeat (L E) suffix v <-> M E v) ->
  says (gbnf "(" ++ inner ++ gbnf ")" ++ print_suffix suffix) M.
Proof.
  intros (e & <- & S2 & S3 & S4) Hs HM. pose proof (says_piece (Group e) suffix M S2 Hs S3) as W. cbn [print_piece] in W. rewrite <- !app_assoc in W. apply W.
  intros E v. rewrite <- HM. apply lang_repeat_iff. apply S4.
Qed.
Lemma says_group inner (L : Meaning) : says_any inner L -> says (gbnf "(" ++ inner ++ gbnf ")") L.
Proof.
  intros H. pose proof (says_group_repeated inner Once L L H eq_refl) as W. cbn [print_suffix] in W. rewrite app_nil_r in W. apply W. intros E v. by rewrite lang_repeat_once.
Qed.
Lemma says_alone text L : says text L -> says_any text L.
Proof. intros (s & <- & H2 & H3 & H4). by exists (Last s). Qed.
Lemma says_or text text' (L M : Meaning) : says text L -> says_any text' M -> says_any (text ++ gbnf " | " ++ text') (fun E v => L E v \/ M E v).
Proof.
  intros (s & <- & S2 & S3 & S4) (e & <- & H2 & H3 & H4). exists (Or s e). split; [done|]. split; [|split].
  - cbn [expr_ok]. by rewrite S2, H2.
  - cbn [mentions]. by apply Forall_app.
  - intros E v. cbn [denote]. by rewrite S4, H4.
Qed.
(** Alternatives. *)
Lemma says_alternatives l : l <> [] -> Forall (fun c => says c.1 c.2) l -> says_any (join (gbnf " | ") l.*1) (fun E v => Exists (fun c : str * Meaning => c.2 E v) l).
Proof.
  induction l as [|[text L] l IH]; [done|]. intros _ [Hc Hl]%Forall_cons. cbn [fst snd] in Hc. destruct l as [|c l].
  - eapply says_any_iff; [by apply says_alone|]. intros E v. rewrite Exists_cons, Exists_nil. cbn. tauto.
  - eapply says_any_iff; [apply (says_or _ _ _ _ Hc (IH ltac:(done) Hl))|]. intros E v. by rewrite (Exists_cons _ (text, L)).
Qed.
End Says.
Lemma says_weaken (known known' : str -> Prop) text L : says known text L -> (forall name, known name -> known' name) -> says known' text L.
Proof. intros (s & H1 & H2 & H3 & H4) H. exists s. split_and!; [done..| |done]. eapply Forall_impl; [exact H3 | exact H]. Qed.
