(* ===== verification/SchemaRanges.v ===== *)
(** * Integer ranges.

    The grammar text the schema compiler writes for a range of integers denotes exactly the
    decimal texts of the integers in it. *)
From Stdlib Require Import Strings.Byte.
From S2P Require Import Prelude Utf8 Utf8Scalar Grammar GrammarText GrammarParser GrammarLanguage Schema SchemaDecimal GbnfSyntax GbnfReading SchemaText.

(** ** Words of bytes. *)
Definition text_word (s : str) : list Input := word (Z_of_byte <$> s).
Lemma text_word_app a b : text_word (a ++ b) = text_word a ++ text_word b.
Proof. unfold text_word, word. by rewrite !fmap_app. Qed.
Lemma text_word_cons b s : text_word (b :: s) = IChar (Z_of_byte b) :: text_word s.
Proof. done. Qed.
Lemma Z_of_byte_inj a b : Z_of_byte a = Z_of_byte b -> a = b.
Proof. intros E. by rewrite <- (byte_of_Z_of_byte a), E, byte_of_Z_of_byte. Qed.
Lemma text_word_inj a b : text_word a = text_word b -> a = b.
Proof.
  revert b. induction a as [|x a IH]; intros [|y b] E; try done. rewrite !text_word_cons in E. injection E as E1 E2.
  apply Z_of_byte_inj in E1 as ->. f_equal. by apply IH.
Qed.
Definition ascii (s : str) : Prop := Forall (fun b => Z_of_byte b < 128) s.
Lemma chars_code_points_ascii s : ascii s -> code_point <$> chars s = Z_of_byte <$> s.
Proof.
  unfold chars. induction 1 as [|b s Hb Hs IH]; [done|]. rewrite utf8_chunks_cons, classify_ascii by lia. cbn [take drop].
  rewrite !fmap_cons, drop_0, IH. done.
Qed.
Lemma digits_ascii s : digits_only s -> ascii s.
Proof. intros Hs. eapply Forall_impl; [exact Hs|]. intros b Hb%is_digit_value. unfold digit_value in Hb. lia. Qed.

(** ** Texts that name no rule, and the words they spell. *)
Definition text_words (P : str -> Prop) : Lang := fun v => exists t, v = text_word t /\ P t.
Definition writes_seq (text : str) (P : str -> Prop) : Prop := says (fun _ => False) text (fun _ => text_words P).
Definition writes (text : str) (P : str -> Prop) : Prop := says_any (fun _ => False) text (fun _ => text_words P).
Lemma text_words_iff (P Q : str -> Prop) v : (forall t, P t <-> Q t) -> text_words P v <-> text_words Q v.
Proof. intros H. split; intros (t & -> & Ht%H); by exists t. Qed.
Lemma text_words_app (P Q : str -> Prop) v : lang_app (text_words P) (text_words Q) v <-> text_words (fun t => exists a b, t = a ++ b /\ P a /\ Q b) v.
Proof.
  split.
  - intros (v1 & v2 & -> & (a & -> & Ha) & (b & -> & Hb)). exists (a ++ b). rewrite text_word_app. split; [done|]. by exists a, b.
  - intros (t & -> & a & b & -> & Ha & Hb). rewrite text_word_app. exists (text_word a), (text_word b). split; [done|]. split; [by exists a | by exists b].
Qed.
Lemma writes_seq_iff text P Q : writes_seq text P -> (forall t, P t <-> Q t) -> writes_seq text Q.
Proof. intros H HPQ. eapply says_iff; [exact H|]. intros E v. by apply text_words_iff. Qed.
Lemma writes_iff text P Q : writes text P -> (forall t, P t <-> Q t) -> writes text Q.
Proof. intros H HPQ. eapply says_any_iff; [exact H|]. intros E v. by apply text_words_iff. Qed.
Lemma writes_seq_nil : writes_seq [] (fun t => t = []).
Proof.
  eapply says_iff; [apply says_nil|]. intros E v. cbn. split; [intros ->; by exists [] | by intros (t & -> & ->)].
Qed.
Lemma writes_seq_space text P : writes_seq text P -> writes_seq (gbnf " " ++ text) P.
Proof. apply says_space. Qed.
(** One more piece, repeated or not, in front. *)
Lemma writes_seq_then pc suffix text (P Q : str -> Prop) : piece_ok pc = true -> suffix_ok suffix = true -> mentions_piece pc = [] ->
  (forall E v, lang_repeat (denote_piece E pc) suffix v <-> text_words P v) -> writes_seq text Q ->
  writes_seq (print_piece pc ++ print_suffix suffix ++ text) (fun t => exists a b, t = a ++ b /\ P a /\ Q b).
Proof.
  intros Hpc Hsuf Hm HP Ht. eapply says_iff.
  - apply (says_then _ pc suffix text (fun _ => text_words P) (fun _ => text_words Q)); [done|done|intros name Epc; by rewrite Epc in Hm|by rewrite Hm|exact HP|exact Ht].
  - intros E v. apply text_words_app.
Qed.
Lemma lit_words_ascii s v : ascii s -> lit_words s v <-> text_words (fun t => t = s) v.
Proof. intros Hs. unfold lit_words. rewrite chars_code_points_ascii by done. split; [intros ->; by exists s | by intros (t & -> & ->)]. Qed.
Lemma writes_seq_literal s text (Q : str -> Prop) : ascii s -> writes_seq text Q -> writes_seq (quoted_literal s ++ text) (fun t => exists b, t = s ++ b /\ Q b).
Proof.
  intros Hs Ht. eapply writes_seq_iff; [apply (writes_seq_then (Lit s) Once text (fun t => t = s) Q); try done|].
  - cbn [piece_ok]. by apply utf8_valid_all.
  - intros E v. rewrite lang_repeat_once. by apply lit_words_ascii.
  - intros t. cbn. split; [intros (a & b & -> & -> & Hb); eauto | intros (b & -> & Hb); by eexists _, _].
Qed.
Lemma writes_seq_group inner text P Q : writes inner P -> writes_seq text Q ->
  writes_seq (gbnf "(" ++ inner ++ gbnf ")" ++ text) (fun t => exists a b, t = a ++ b /\ P a /\ Q b).
Proof.
  intros (e & <- & H2 & H3 & H4) Ht. pose proof (writes_seq_then (Group e) Once text P Q H2 eq_refl) as W. cbn [print_piece print_suffix denote_piece] in W.
  rewrite <- !app_assoc in W. apply W; [|by intros E v; rewrite lang_repeat_once; apply H4|done]. cbn [mentions_piece].
  destruct (mentions e) as [|? ?]; [done|]. by apply Forall_cons in H3 as [[] _].
Qed.
Lemma writes_of_seq text P : writes_seq text P -> writes text P.
Proof. apply says_alone. Qed.
(** Alternatives. *)
Lemma writes_or text text' (P Q : str -> Prop) : writes_seq text P -> writes text' Q -> writes (text ++ gbnf " | " ++ text') (fun t => P t \/ Q t).
Proof.
  intros HP HQ. eapply says_any_iff; [apply (says_or _ _ _ _ _ HP HQ)|]. intros E v. cbn. split.
  - intros [(t & -> & Ht)|(t & -> & Ht)]; exists t; (split; [done|]); [by left | by right].
  - intros (t & -> & [Ht|Ht]); [left | right]; by exists t.
Qed.
Lemma writes_join l : l <> [] -> Forall (fun c => writes_seq c.1 c.2) l -> writes (join (gbnf " | ") l.*1) (fun t => Exists (fun c => c.2 t) l).
Proof.
  induction l as [|[text P] l IH]; [done|]. intros _ [Hc Hl]%Forall_cons. cbn [fst snd] in Hc. destruct l as [|c l].
  - eapply writes_iff; [by apply writes_of_seq|]. intros t. rewrite Exists_cons, Exists_nil. cbn. tauto.
  - eapply writes_iff; [apply (writes_or _ _ _ _ Hc (IH ltac:(done) Hl))|]. intros t. by rewrite (Exists_cons _ (text, P)).
Qed.

(** ** Classes of digits. *)
Definition digits_between (x y : byte) (s : str) : Prop := Forall (fun b => Z_of_byte x <= Z_of_byte b <= Z_of_byte y) s.
Definition digit_class (x y : byte) : str := gbnf "[" ++ [x] ++ gbnf "-" ++ [y] ++ gbnf "]".
Definition class_piece (x y : byte) : Piece := Class false [(mkWritten [x] (Z_of_byte x), Some (mkWritten [y] (Z_of_byte y)))].
Lemma digit_written x : is_digit x = true -> written_ok (mkWritten [x] (Z_of_byte x)) = true.
Proof. destruct x; intros Hx; try discriminate Hx; vm_compute; reflexivity. Qed.
Lemma class_piece_ok x y : is_digit x = true -> is_digit y = true -> Z_of_byte x <= Z_of_byte y -> piece_ok (class_piece x y) = true.
Proof.
  intros Hx Hy Hle. unfold class_piece. cbn [piece_ok]. unfold class_ok. apply andb_true_iff. split.
  - cbn [entries_ok fst snd]. rewrite !digit_written by done. unfold entry_range. cbn [fst snd default w_value]. by rewrite (proj2 (Z.leb_le _ _)).
  - cbn [orb]. unfold print_entries. rewrite fmap_cons, mjoin_cons. unfold print_entry. cbn [fst snd w_text app].
    destruct x; try discriminate Hx; vm_compute; reflexivity.
Qed.
Lemma class_one E x y v : denote_piece E (class_piece x y) v <-> exists b, v = [IChar (Z_of_byte b)] /\ Z_of_byte x <= Z_of_byte b <= Z_of_byte y.
Proof.
  unfold class_piece. cbn [denote_piece]. unfold in_class, matches. split.
  - intros (i & -> & Hi). destruct i as [c|]; [|done]. unfold CharSet_matches in Hi. cbn in Hi. rewrite orb_false_r in Hi.
    pose proof (Z_of_byte_range x). pose proof (Z_of_byte_range y). exists (byte_of_Z c). destruct (_ && _) eqn:Ec in Hi; [|done].
    apply andb_true_iff in Ec as [E1%Z.leb_le E2%Z.leb_le]. rewrite Z_of_byte_of_Z, Z.mod_small by lia. split; [done|lia].
  - intros (b & -> & Hb). eexists. split; [done|]. unfold CharSet_matches. cbn. rewrite !(proj2 (Z.leb_le _ _)) by lia. done.
Qed.
Lemma class_power E x y k : forall v, lang_power (denote_piece E (class_piece x y)) k v <-> text_words (fun t => length t = k /\ digits_between x y t) v.
Proof.
  induction k as [|k IH].
  - intros v. cbn. split; [intros ->; exists []; split; [done|]; split; [done|constructor]|]. by intros (t & -> & ->%length_zero_iff_nil & _).
  - intros v. cbn [lang_power]. transitivity (lang_app (text_words (fun t => exists b, t = [b] /\ Z_of_byte x <= Z_of_byte b <= Z_of_byte y)) (text_words (fun t => length t = k /\ digits_between x y t)) v).
    { apply lang_app_iff; [|exact IH]. intros w. rewrite class_one. split; [intros (b & -> & Hb); exists [b]; eauto | intros (t & -> & b & -> & Hb); by exists b]. }
    rewrite text_words_app. apply text_words_iff. intros t. split.
    + intros (? & b & -> & (c & -> & Hc) & Hl & Hd). cbn. split; [by f_equal | by constructor].
    + intros [Hl Hd]. destruct t as [|c t]; [done|]. apply Forall_cons in Hd as [Hc Hd]. exists [c], t. split; [done|]. split; [by exists c|]. split; [by injection Hl | done].
Qed.
(** [count] digits of a class. *)
Definition count_suffix (count : nat) : Suffix := match count with 1%nat => Once | _ => Exactly (Z.of_nat count) end.
Lemma class_count E x y count v : lang_repeat (denote_piece E (class_piece x y)) (count_suffix count) v <-> text_words (fun t => length t = count /\ digits_between x y t) v.
Proof.
  rewrite <- (class_power E x y count v). unfold lang_repeat. assert (suffix_bounds (count_suffix count) = (Z.of_nat count, Some (Z.of_nat count))) as ->.
  { by destruct count as [|[|count]]. }
  cbn. split; [|intros H; exists count; split; [lia|]; by split; [lia|]]. intros (k & H1 & H2 & H). by assert (k = count) as <- by lia.
Qed.
Lemma writes_seq_class x y count text Q : is_digit x = true -> is_digit y = true -> Z_of_byte x <= Z_of_byte y -> (count < 5000)%nat -> writes_seq text Q ->
  writes_seq (digit_class x y ++ print_suffix (count_suffix count) ++ text) (fun t => exists a b, t = a ++ b /\ (length a = count /\ digits_between x y a) /\ Q b).
Proof.
  intros Hx Hy Hle Hc Ht. pose proof (writes_seq_then (class_piece x y) (count_suffix count) text (fun a => length a = count /\ digits_between x y a) Q) as W.
  assert (print_piece (class_piece x y) = digit_class x y) as E.
  { unfold class_piece, digit_class. cbn [print_piece]. unfold print_entries. rewrite fmap_cons, mjoin_cons. unfold print_entry. cbn [fst snd w_text]. done. }
  rewrite E in W. apply W; [by apply class_piece_ok | | done | intros ? ?; apply class_count | done].
  destruct count as [|[|count]]; [done..|]. cbn [count_suffix suffix_ok]. rewrite (proj2 (Z.leb_le _ _)), (proj2 (Z.ltb_lt _ _)) by lia. done.
Qed.

(** ** Numerals of one width. *)
Definition between (lower upper : str) (t : str) : Prop := digits_only t /\ length t = length lower /\ decimal lower <= decimal t <= decimal upper.
Lemma digits_between_all s : digits_between "0" "9" s <-> digits_only s.
Proof. apply Forall_iff. intros b. unfold is_digit. rewrite in_range_spec. change (Z_of_byte "0") with 0x30. change (Z_of_byte "9") with 0x39. lia. Qed.
Lemma digits_replicate b n : is_digit b = true -> digits_only (replicate n b).
Proof. intros Hb. by apply Forall_replicate. Qed.
Lemma decimal_zeros n : decimal (replicate n "0"%byte) = 0.
Proof. induction n as [|n IH]; [done|]. cbn [replicate]. rewrite decimal_cons, IH. change (digit_value "0") with 0. lia. Qed.
Lemma decimal_nines n : decimal (replicate n "9"%byte) = 10 ^ Z.of_nat n - 1.
Proof. induction n as [|n IH]; [done|]. cbn [replicate]. rewrite decimal_cons, IH, length_replicate, pow10_S. change (digit_value "9") with 9. lia. Qed.
Lemma all_bytes_replicate b s : all_bytes b s = true -> s = replicate (length s) b.
Proof.
  unfold all_bytes. induction s as [|x s IH]; [done|]. cbn [forallb length replicate]. rewrite andb_true_iff. intros [E Hs]. rewrite <- IH by done. f_equal.
  unfold is_byte in E. by apply bool_decide_eq_true in E.
Qed.
Lemma decimal_digit_first b s : digits_only (b :: s) -> 0 <= digit_value b <= 9 /\ digits_only s /\ 0 <= decimal s < 10 ^ Z.of_nat (length s).
Proof. intros [Hb%is_digit_value Hs]%Forall_cons. split; [done|]. split; [done|]. by apply decimal_bounds. Qed.
(** What a common prefix leaves. *)
Lemma between_prefix p a b t : digits_only p -> digits_only a -> digits_only b -> length a = length b ->
  between (p ++ a) (p ++ b) t <-> exists u, t = p ++ u /\ between a b u.
Proof.
  intros Hp Ha Hb Hl. unfold between. rewrite !decimal_app, !length_app, Hl. split.
  - intros (Ht & Hlen & Hlo & Hhi). exists (drop (length p) t). rewrite <- (take_drop (length p) t) in Ht, Hlo, Hhi |- * at 1.
    apply Forall_app in Ht as [Ht1 Ht2]. rewrite decimal_app in Hlo, Hhi. rewrite length_drop in *.
    assert (length t - length p = length b)%nat as E by lia. rewrite E in *.
    pose proof (decimal_bounds _ Ha) as B1. pose proof (decimal_bounds _ Hb) as B2. pose proof (decimal_bounds _ Ht2) as B3. rewrite length_drop, E in B3. rewrite Hl in B1.
    assert (take (length p) t = p) as Et.
    { apply decimal_inj; [done|done|rewrite length_take; lia|]. nia. }
    rewrite Et in *. split; [done|]. split; [done|]. split; [lia|]. lia.
  - intros (u & -> & Hu & Hlen & Hlo & Hhi). rewrite decimal_app, length_app, Hlen. split; [by apply Forall_app|]. split; [lia|]. lia.
Qed.
(** The cases of the first digit. *)
Lemma between_first x a y b t : digits_only (x :: a) -> digits_only (y :: b) -> length a = length b -> digit_value x < digit_value y ->
  between (x :: a) (y :: b) t <-> exists c u, t = c :: u /\
    ((c = x /\ between a (replicate (length a) "9"%byte) u) \/
     (digit_value x < digit_value c < digit_value y /\ length u = length a /\ digits_only u) \/
     (c = y /\ between (replicate (length a) "0"%byte) b u)).
Proof.
  intros Hx Hy Hl Hlt. apply decimal_digit_first in Hx as (Bx & Ha & Ba), Hy as (By & Hb & Bb). unfold between.
  rewrite decimal_nines, decimal_zeros, length_replicate, !decimal_cons. cbn [length]. rewrite Hl in *. pose proof (pow10_pos (length b)). split.
  - intros (Ht & Hlen & Hlo & Hhi). destruct t as [|c u]; [done|]. exists c, u. split; [done|]. injection Hlen as Hlen.
    apply decimal_digit_first in Ht as (Bc & Hu & Bu). rewrite decimal_cons, Hlen in Hlo, Hhi. rewrite Hlen in Bu.
    destruct (Z.eq_dec (digit_value c) (digit_value x)) as [E|Hnx].
    { left. rewrite E in *. apply digit_value_inj in E as ->. split; [done|]. split; [done|]. split; [done|]. lia. }
    destruct (Z.eq_dec (digit_value c) (digit_value y)) as [E|Hny].
    { right; right. rewrite E in *. apply digit_value_inj in E as ->. split; [done|]. split; [done|]. split; [done|]. lia. }
    right; left. split; [nia|]. by rewrite Hlen.
  - intros (c & u & -> & Hu). rewrite decimal_cons. cbn [length].
    assert (0 <= digit_value c <= 9 /\ digits_only u /\ length u = length b) as (Bc & Hud & Hlen).
    { destruct Hu as [(-> & ? & ? & _)|[(? & ? & ?)|(-> & ? & ? & _)]]; (split; [lia|]); done. }
    pose proof (decimal_bounds _ Hud) as Bu. rewrite Hlen in *. split; [constructor; [by apply is_digit_value | done]|]. split; [done|].
    destruct Hu as [(-> & _ & _ & Hu)|[(Hc & _)|(-> & _ & _ & Hu)]]; nia.
Qed.

(** The text of any [count] digits. *)
Lemma counted_digits_text count : (2 <= count)%nat -> counted_digits count = digit_class "0" "9" ++ print_suffix (count_suffix count).
Proof.
  intros H. unfold counted_digits. destruct count as [|[|count]]; [lia..|]. cbn [count_suffix print_suffix].
  change (gbnf "[0-9]{") with (digit_class "0" "9" ++ gbnf "{"). by rewrite <- !app_assoc.
Qed.
Lemma writes_seq_digits count : (count < 5000)%nat -> writes_seq (digit_class "0" "9" ++ print_suffix (count_suffix count)) (fun t => length t = count /\ digits_only t).
Proof.
  intros Hc. pose proof (writes_seq_class "0" "9" count [] _ eq_refl eq_refl ltac:(done) Hc writes_seq_nil) as W. rewrite app_nil_r in W.
  eapply writes_seq_iff; [exact W|]. intros t. cbn. setoid_rewrite digits_between_all. split.
  - intros (a & b & -> & H & ->). by rewrite app_nil_r.
  - intros H. exists t, []. by rewrite app_nil_r.
Qed.
Lemma writes_seq_suffix count : (count < 5000)%nat -> writes_seq (digits_suffix count) (fun t => length t = count /\ digits_only t).
Proof.
  intros Hc. destruct count as [|[|count]].
  - eapply writes_seq_iff; [apply writes_seq_nil|]. intros t. split; [intros ->; split; [done|constructor]|]. by intros [->%length_zero_iff_nil _].
  - change (digits_suffix 1) with (gbnf " " ++ digit_class "0" "9" ++ print_suffix (count_suffix 1)). by apply writes_seq_space, writes_seq_digits.
  - unfold digits_suffix. rewrite counted_digits_text by lia. by apply writes_seq_space, writes_seq_digits.
Qed.
(** The choice of the first digit. *)
Definition first_digit_text (x y : byte) (low high : str) (m : nat) : str :=
  gbnf "(" ++ join (gbnf " | ")
    ([quoted_literal [x] ++ gbnf " " ++ low]
     ++ (if Z_of_byte x + 1 <? Z_of_byte y
         then [gbnf "[" ++ [byte_of_Z (Z_of_byte x + 1)] ++ gbnf "-" ++ [byte_of_Z (Z_of_byte y - 1)] ++ gbnf "]" ++ digits_suffix m] else [])
     ++ [quoted_literal [y] ++ gbnf " " ++ high]) ++ gbnf ")".
Lemma writes_middle x y m : is_digit x = true -> is_digit y = true -> Z_of_byte x + 1 < Z_of_byte y -> (m < 5000)%nat ->
  writes_seq (gbnf "[" ++ [byte_of_Z (Z_of_byte x + 1)] ++ gbnf "-" ++ [byte_of_Z (Z_of_byte y - 1)] ++ gbnf "]" ++ digits_suffix m)
    (fun t => exists c u, t = c :: u /\ digit_value x < digit_value c < digit_value y /\ length u = m /\ digits_only u).
Proof.
  intros Hx%is_digit_value Hy%is_digit_value Hlt Hm. unfold digit_value in *.
  set (x' := byte_of_Z (Z_of_byte x + 1)). set (y' := byte_of_Z (Z_of_byte y - 1)).
  assert (Z_of_byte x' = Z_of_byte x + 1 /\ Z_of_byte y' = Z_of_byte y - 1) as [Ex Ey] by (unfold x', y'; rewrite !Z_of_byte_of_Z, !Z.mod_small by lia; done).
  eapply writes_seq_iff; [apply (writes_seq_class x' y' 1 (digits_suffix m) (fun t => length t = m /\ digits_only t)); [apply is_digit_value; unfold digit_value; lia..|lia|lia|by apply writes_seq_suffix]|].
  intros t. cbn. split.
  - intros (p & u & -> & (Hp1 & Hp) & Hu & Hud). destruct p as [|c [|? ?]]; try done. apply Forall_cons in Hp as [Hc _]. exists c, u. split; [done|]. split; [lia|done].
  - intros (c & u & -> & Hc & Hu & Hud). exists [c], u. split; [done|]. split; [split; [done|repeat constructor; lia]|done].
Qed.
Lemma writes_first_digit x a y b low high : digits_only (x :: a) -> digits_only (y :: b) -> length a = length b -> (length a < 5000)%nat -> digit_value x < digit_value y ->
  writes_seq low (between a (replicate (length a) "9"%byte)) -> writes_seq high (between (replicate (length a) "0"%byte) b) ->
  writes_seq (first_digit_text x y low high (length a)) (between (x :: a) (y :: b)).
Proof.
  intros Hx Hy Hl Hlen Hlt Hlow Hhigh. pose proof (decimal_digit_first _ _ Hx) as (Bx & _). pose proof (decimal_digit_first _ _ Hy) as (By & _).
  assert (forall z, digits_only (z :: a) \/ digits_only (z :: b) -> ascii [z]) as Hasc.
  { intros z [Hz|Hz]; apply digits_ascii; apply Forall_cons in Hz as [Hz _]; by constructor. }
  set (P1 := fun t => exists u, t = [x] ++ u /\ between a (replicate (length a) "9"%byte) u).
  set (P3 := fun t => exists u, t = [y] ++ u /\ between (replicate (length a) "0"%byte) b u).
  set (P2 := fun t => exists c u, t = c :: u /\ digit_value x < digit_value c < digit_value y /\ length u = length a /\ digits_only u).
  set (middle := gbnf "[" ++ [byte_of_Z (Z_of_byte x + 1)] ++ gbnf "-" ++ [byte_of_Z (Z_of_byte y - 1)] ++ gbnf "]" ++ digits_suffix (length a)).
  set (choices := [(quoted_literal [x] ++ gbnf " " ++ low, P1)] ++ (if Z_of_byte x + 1 <? Z_of_byte y then [(middle, P2)] else []) ++ [(quoted_literal [y] ++ gbnf " " ++ high, P3)]).
  assert (first_digit_text x y low high (length a) = gbnf "(" ++ join (gbnf " | ") choices.*1 ++ gbnf ")" ++ []) as ->.
  { unfold first_digit_text, choices. rewrite app_nil_r, !fmap_app. by destruct (_ <? _). }
  eapply writes_seq_iff; [apply writes_seq_group; [|apply writes_seq_nil]; apply writes_join with (l := choices); [done|]|].
  - unfold choices. repeat apply Forall_app_2.
    + repeat constructor. apply writes_seq_literal; [auto|]. by apply writes_seq_space.
    + destruct (Z.ltb_spec (Z_of_byte x + 1) (Z_of_byte y)) as [Hm|Hm]; repeat constructor. by apply writes_middle; [apply is_digit_value..| |].
    + repeat constructor. apply writes_seq_literal; [auto|]. by apply writes_seq_space.
  - intros t. rewrite (between_first x a y b t) by done. transitivity (Exists (fun c => c.2 t) choices).
    { split; [intros (p & q & -> & Hp & ->); by rewrite app_nil_r | intros Hp; exists t, []; by rewrite app_nil_r]. }
    unfold choices. rewrite !Exists_app. split.
    + intros [H|[H|H]].
      * apply Exists_cons in H as [(u & -> & Hu)|H%Exists_nil]; [|done]. exists x, u. by split; [|left].
      * destruct (_ <? _); [|by apply Exists_nil in H]. apply Exists_cons in H as [(c & u & -> & Hu)|H%Exists_nil]; [|done]. exists c, u. by split; [|right; left].
      * apply Exists_cons in H as [(u & -> & Hu)|H%Exists_nil]; [|done]. exists y, u. by split; [|right; right].
    + intros (c & u & -> & [(-> & Hu)|[Hu|(-> & Hu)]]).
      * left. apply Exists_cons. left. by exists u.
      * right; left. unfold digit_value in *. rewrite (proj2 (Z.ltb_lt _ _)) by lia. apply Exists_cons. left. by exists c, u.
      * right; right. apply Exists_cons. left. by exists u.
Qed.
Lemma common_prefix_spec a : forall b, length a = length b -> a <> b ->
  exists p x a' y b', a = p ++ x :: a' /\ b = p ++ y :: b' /\ x <> y /\ length a' = length b' /\ common_prefix a b = length p.
Proof.
  induction a as [|x a IH]; intros [|y b] Hl Hne; try done. injection Hl as Hl. cbn [common_prefix]. destruct (decide (x = y)) as [<-|Hxy].
  - rewrite bool_decide_eq_true_2 by done. destruct (IH b Hl) as (p & x' & a' & y' & b' & -> & -> & Hn & Hl' & ->); [by intros ->|].
    exists (x :: p), x', a', y', b'. by split_and!.
  - rewrite bool_decide_eq_false_2 by done. by exists [], x, a, y, b.
Qed.
Lemma between_self s t : digits_only s -> between s s t <-> t = s.
Proof. intros Hs. split; [intros (Ht & Hl & H1 & H2); apply decimal_inj; [done..|lia] | intros ->; unfold between; repeat split; [done|lia..]]. Qed.
Lemma between_all n t : between (replicate n "0"%byte) (replicate n "9"%byte) t <-> length t = n /\ digits_only t.
Proof.
  unfold between. rewrite decimal_zeros, decimal_nines, length_replicate. split; [tauto|]. intros [<- Ht]. pose proof (decimal_bounds t Ht). split; [done|]. split; [done|lia].
Qed.
Lemma between_leading m t : between ("1"%byte :: replicate m "0"%byte) (replicate (S m) "9"%byte) t <->
  exists a b, t = a ++ b /\ (length a = 1%nat /\ digits_between "1" "9" a) /\ (length b = m /\ digits_only b).
Proof.
  unfold between. rewrite decimal_nines, decimal_cons, decimal_zeros, length_replicate, pow10_S. cbn [length]. rewrite length_replicate. change (digit_value "1") with 1.
  pose proof (pow10_pos m). split.
  - intros (Ht & Hl & Hlo & Hhi). destruct t as [|c u]; [done|]. injection Hl as Hl. apply decimal_digit_first in Ht as (Bc & Hu & Bu). rewrite decimal_cons, Hl in Hlo. rewrite Hl in Bu.
    exists [c], u. split; [done|]. split; [|done]. split; [done|]. constructor; [|constructor]. unfold digit_value in *.
    change (Z_of_byte "1") with 49. change (Z_of_byte "9") with 57. nia.
  - intros (a & b & -> & (Ha1 & Ha) & Hb & Hd). destruct a as [|c [|? ?]]; try done. apply Forall_cons in Ha as [Hc _]. change (Z_of_byte "1") with 49 in Hc. change (Z_of_byte "9") with 57 in Hc.
    cbn [app]. rewrite decimal_cons, Hb. pose proof (decimal_bounds b Hd) as Bb. rewrite Hb in Bb. assert (1 <= digit_value c <= 9) by (unfold digit_value; lia).
    split; [constructor; [apply is_digit_value; lia|done]|]. split; [cbn; lia|nia].
Qed.
Lemma leading_one_spec lower upper : is_leading_one lower upper = true -> length lower = length upper ->
  lower = "1"%byte :: replicate (length lower - 1) "0"%byte /\ upper = replicate (S (length lower - 1)) "9"%byte.
Proof.
  destruct lower as [|b zeros]; [done|]. cbn [is_leading_one length]. rewrite !andb_true_iff. intros [[E Hz%all_bytes_replicate] Hu%all_bytes_replicate] Hl.
  rewrite Nat.sub_succ, Nat.sub_0_r. rewrite <- Hl in Hu. split; [|done]. unfold is_byte in E. apply bool_decide_eq_true in E as ->. by f_equal.
Qed.
Lemma leading_one_text m : match S m with 1%nat => gbnf "[1-9]" | 2%nat => gbnf "[1-9] [0-9]" | count => gbnf "[1-9] " ++ counted_digits (count - 1) end
  = digit_class "1" "9" ++ print_suffix (count_suffix 1) ++ digits_suffix m.
Proof. destruct m as [|[|m]]; [reflexivity..|]. cbn [digits_suffix]. rewrite Nat.sub_succ, Nat.sub_0_r. by change (gbnf "[1-9] ") with (digit_class "1" "9" ++ gbnf " "). Qed.
(** The text for the numerals between two of one width. *)
Lemma same_width_range fuel : forall lower upper, digits_only lower -> digits_only upper -> length lower = length upper -> decimal lower <= decimal upper ->
  (length lower < fuel)%nat -> (length lower < 5000)%nat ->
  exists text, same_width_decimal_range fuel lower upper = Ok text /\ writes_seq text (between lower upper).
Proof.
  induction fuel as [|fuel IH]; intros lower upper Hlo Hhi Hl Hle Hf H5; [lia|]. cbn [same_width_decimal_range].
  rewrite (str_ltb_decimal upper lower) by done. rewrite (proj2 (Nat.eqb_eq _ _) Hl), (proj2 (Z.ltb_ge _ _) Hle). cbn [negb orb].
  case_bool_decide as Heq.
  { subst upper. eexists. split; [done|]. rewrite <- (app_nil_r (quoted_literal lower)).
    eapply writes_seq_iff; [apply writes_seq_literal; [by apply digits_ascii | apply writes_seq_nil]|]. intros t. rewrite between_self by done.
    split; [intros (b & -> & ->); by rewrite app_nil_r | intros ->; exists []; by rewrite app_nil_r]. }
  destruct (all_bytes "0" lower && all_bytes "9" upper) eqn:Eall.
  { apply andb_true_iff in Eall as [Ez%all_bytes_replicate En%all_bytes_replicate]. rewrite <- Hl in En. eexists. split; [done|].
    assert (0 < length lower)%nat as Hpos by (destruct lower, upper; [done|done|done|cbn; lia]).
    rewrite Ez, En. eapply writes_seq_iff; [|intros t; symmetry; apply between_all]. rewrite length_replicate.
    destruct (length lower) as [|[|n]] eqn:En'; [lia|by apply (writes_seq_digits 1)|]. rewrite counted_digits_text by lia. apply writes_seq_digits. lia. }
  destruct (is_leading_one lower upper) eqn:Elead.
  { pose proof (leading_one_spec _ _ Elead Hl) as [E1 E2]. eexists. split; [done|]. destruct lower as [|b0 low]; [done|]. cbn [length] in E1, E2, H5 |- *.
    rewrite Nat.sub_succ, Nat.sub_0_r in E1, E2. rewrite (leading_one_text (length low)), E1, E2.
    eapply writes_seq_iff; [|intros t; symmetry; apply between_leading]. apply writes_seq_class; [done..|lia|]. apply writes_seq_suffix. lia. }
  destruct (common_prefix_spec lower upper Hl Heq) as (p & x & a & y & b & -> & -> & Hxy & Hab & ->).
  rewrite take_app_length, !drop_app_length. apply Forall_app in Hlo as [Hp Hxa], Hhi as [_ Hyb].
  pose proof (decimal_digit_first _ _ Hxa) as (Bx & Ha & Ba). pose proof (decimal_digit_first _ _ Hyb) as (By & Hb & Bb).
  assert (digit_value x < digit_value y) as Hlt.
  { rewrite !decimal_app, !decimal_cons in Hle. cbn [length] in Hle. rewrite Hab in *. pose proof (pow10_pos (length b)).
    assert (digit_value x <> digit_value y) by (intros E; by apply Hxy, digit_value_inj). nia. }
  rewrite length_app in Hf, H5. cbn [length] in Hf, H5.
  assert (exists low, (if (length a =? 0)%nat then Ok [] else same_width_decimal_range fuel a (replicate (length a) "9"%byte)) = Ok low
    /\ writes_seq low (between a (replicate (length a) "9"%byte))) as (low & -> & Hlow).
  { destruct (Nat.eqb_spec (length a) 0) as [E%length_zero_iff_nil|_].
    - subst a. exists []. split; [done|]. eapply writes_seq_iff; [apply writes_seq_nil|]. intros t. by rewrite (between_self []).
    - apply IH; [done|by apply digits_replicate|by rewrite length_replicate|rewrite decimal_nines; lia|lia|lia]. }
  assert (exists high, (if (length a =? 0)%nat then Ok [] else same_width_decimal_range fuel (replicate (length a) "0"%byte) b) = Ok high
    /\ writes_seq high (between (replicate (length a) "0"%byte) b)) as (high & -> & Hhigh).
  { destruct (Nat.eqb_spec (length a) 0) as [E|_].
    - rewrite E in Hab |- *. symmetry in Hab. apply length_zero_iff_nil in Hab as ->. exists []. split; [done|]. eapply writes_seq_iff; [apply writes_seq_nil|]. intros t. by rewrite (between_self []).
    - apply IH; [by apply digits_replicate|done|by rewrite length_replicate|rewrite decimal_zeros; lia|rewrite length_replicate; lia..]. }
  pose proof (writes_first_digit x a y b low high Hxa Hyb Hab ltac:(lia) Hlt Hlow Hhigh) as W.
  fold (first_digit_text x y low high (length a)). eexists. split; [done|]. destruct p as [|c p]; [done|].
  eapply writes_seq_iff; [apply writes_seq_literal; [by apply digits_ascii | by apply writes_seq_space]|].
  intros t. symmetry. apply between_prefix; [done..|]. cbn. by f_equal.
Qed.

(** ** Ranges of integers. *)
(** The numbers of one width. *)
Lemma between_numbers lo hi d t : 0 <= lo -> lo <= hi -> hi < 10 ^ Z.of_nat (S d) -> (S d <= 20)%nat -> d = 0%nat \/ 10 ^ Z.of_nat d <= lo ->
  between (to_decimal lo) (to_decimal hi) t <-> exists n, lo <= n <= hi /\ t = to_decimal n.
Proof.
  intros H0 Hle Hhi Hd Hlo. pose proof (pow10_le (S d) 20 Hd) as Hp. change (10 ^ Z.of_nat 20) with (10 ^ 20) in Hp.
  destruct (to_decimal_spec lo ltac:(lia)) as (D1 & V1 & _). destruct (to_decimal_spec hi ltac:(lia)) as (D2 & V2 & _).
  assert (forall n, lo <= n <= hi -> length (to_decimal n) = S d) as W by (intros n Hn; apply to_decimal_width; [lia|lia|]; destruct Hlo; [by left | right; lia]).
  unfold between. rewrite V1, V2, (W lo) by lia. split.
  - intros (Ht & Hl & Hb). exists (decimal t). split; [done|]. symmetry. apply (to_decimal_decimal t d); [done..|]. destruct Hlo; [by left | right; lia].
  - intros (n & Hn & ->). destruct (to_decimal_spec n ltac:(lia)) as (D & V & _). rewrite V. split; [done|]. split; [by apply W | done].
Qed.
Definition at_most (maximum : option Z) (n : Z) : Prop := match maximum with Some m => n <= m | None => True end.
Definition has_width (d : nat) (n : Z) : Prop := (d = 1%nat \/ 10 ^ Z.of_nat (d - 1) <= n) /\ n < 10 ^ Z.of_nat d.
Lemma checked_pow10_small d : (d <= 16)%nat -> checked_pow10 64 d = Some (10 ^ Z.of_nat d).
Proof. intros H. unfold checked_pow10. rewrite (proj2 (Z.ltb_lt _ _)); [done|]. pose proof (pow10_le d 16 H). lia. Qed.
(** The texts with what they write. *)
Definition written_texts (texts : list str) (P : str -> Prop) : Prop :=
  exists l, texts = l.*1 /\ Forall (fun c => writes_seq c.1 c.2) l /\ forall t, Exists (fun c => c.2 t) l <-> P t.
Lemma range_of_width_texts minimum maximum d : 0 <= minimum -> (1 <= d <= 16)%nat ->
  exists texts, range_of_width minimum maximum d = Ok texts /\
    written_texts texts (fun t => exists n, minimum <= n /\ at_most maximum n /\ has_width d n /\ t = to_decimal n).
Proof.
  intros Hmin Hd. unfold range_of_width, has_width. set (floor := if (d =? 1)%nat then 0 else 10 ^ Z.of_nat (d - 1)).
  assert ((if (d =? 1)%nat then Ok 0 else ok_or (checked_pow10 64 (d - 1)) (SchemaMessage "integer bound is too wide")) = Ok floor) as ->.
  { unfold floor. destruct (Nat.eqb_spec d 1); [done|]. rewrite checked_pow10_small by lia. done. }
  rewrite checked_pow10_small by lia. cbn [ok_or].
  set (lower := Z.max minimum floor). set (upper := Z.min (default (10 ^ Z.of_nat d - 1) maximum) (10 ^ Z.of_nat d - 1)).
  assert (forall n, (minimum <= n /\ at_most maximum n /\ (d = 1%nat \/ 10 ^ Z.of_nat (d - 1) <= n) /\ n < 10 ^ Z.of_nat d) <-> lower <= n <= upper) as Hn.
  { intros n. unfold lower, upper, floor, at_most. generalize (10 ^ Z.of_nat d) (10 ^ Z.of_nat (d - 1)). intros top bottom. destruct (Nat.eqb_spec d 1) as [->|Hd1]; destruct maximum as [m|]; cbn [from_option id]; lia. }
  destruct (Z.leb_spec lower upper) as [Hle|Hgt].
  - assert (0 <= lower) by (unfold lower; lia). assert (d = S (d - 1)) as Ed by lia.
    assert (upper < 10 ^ Z.of_nat (S (d - 1))) as Hhi by (rewrite <- Ed; unfold upper; lia).
    assert ((d - 1 = 0)%nat \/ 10 ^ Z.of_nat (d - 1) <= lower) as Hlo by (unfold lower, floor; destruct (Nat.eqb_spec d 1); [left; lia | right; lia]).
    pose proof (pow10_le (S (d - 1)) 20 ltac:(lia)) as Hp. change (10 ^ Z.of_nat 20) with (10 ^ 20) in Hp.
    destruct (to_decimal_spec lower ltac:(lia)) as (D1 & V1 & _). destruct (to_decimal_spec upper ltac:(lia)) as (D2 & V2 & _).
    assert (length (to_decimal lower) = S (d - 1)) as L1 by (apply to_decimal_width; [lia|lia|done]).
    assert (length (to_decimal upper) = S (d - 1)) as L2 by (apply to_decimal_width; [lia|lia|]; destruct Hlo; [by left | right; lia]).
    destruct (same_width_range (S (length (to_decimal lower))) (to_decimal lower) (to_decimal upper)) as (text & -> & W); [done|done|by rewrite L1, L2|by rewrite V1, V2|lia|lia|].
    exists [text]. split; [done|]. exists [(text, between (to_decimal lower) (to_decimal upper))]. split; [done|]. split; [by repeat constructor|].
    intros t. rewrite Exists_cons, Exists_nil. cbn [snd]. rewrite (between_numbers lower upper (d - 1)) by (done || lia).
    split; [intros [(n & Hin%Hn & ->)|[]]; exists n; tauto | intros (n & H1 & H2 & H3 & ->); left; exists n; split; [by apply Hn|done]].
  - exists []. split; [done|]. exists []. split; [done|]. split; [constructor|]. intros t. rewrite Exists_nil. split; [done|]. intros (n & H1 & H2 & H3 & _).
    assert (lower <= n <= upper) by by apply Hn. lia.
Qed.
Lemma written_texts_app a b P Q : written_texts a P -> written_texts b Q -> written_texts (a ++ b) (fun t => P t \/ Q t).
Proof.
  intros (l & -> & Hl & HP) (l' & -> & Hl' & HQ). exists (l ++ l'). rewrite fmap_app. split; [done|]. split; [by apply Forall_app|].
  intros t. by rewrite Exists_app, HP, HQ.
Qed.
Lemma range_widths minimum maximum k : forall a, 0 <= minimum -> (1 <= a)%nat -> (a + k <= 17)%nat ->
  exists ls, traverse (range_of_width minimum maximum) (seq a k) = Ok ls /\
    written_texts (mjoin ls) (fun t => exists n d, (a <= d < a + k)%nat /\ minimum <= n /\ at_most maximum n /\ has_width d n /\ t = to_decimal n).
Proof.
  induction k as [|k IH]; intros a Hmin Ha Hk.
  - exists []. split; [done|]. exists []. split; [done|]. split; [constructor|]. intros t. rewrite Exists_nil. split; [done|]. intros (n & d & Hd & _). lia.
  - destruct (range_of_width_texts minimum maximum a Hmin ltac:(lia)) as (texts & Et & Wt). destruct (IH (S a) Hmin ltac:(lia) ltac:(lia)) as (ls & El & Wl).
    exists (texts :: ls). split; [cbn [seq traverse]; by rewrite Et, El|]. rewrite mjoin_cons.
    destruct (written_texts_app _ _ _ _ Wt Wl) as (l & E & Hl & Hin). exists l. split; [done|]. split; [done|]. intros t. rewrite Hin. split.
    + intros [(n & H1 & H2 & H3 & ->)|(n & d & Hd & H)]; [exists n, a | exists n, d]; (split; [lia|done]).
    + intros (n & d & Hd & H). destruct (decide (d = a)) as [->|]; [left; by exists n | right; exists n, d; split; [lia|done]].
Qed.
Lemma writes_texts texts P : written_texts texts P -> texts <> [] -> writes (join (gbnf " | ") texts) P.
Proof.
  intros (l & -> & Hl & HP) Hne. eapply writes_iff; [|exact HP]. apply writes_join; [|done]. intros ->. by apply Hne.
Qed.
Lemma to_decimal_has_width n : 0 <= n < 10 ^ 20 -> exists d, length (to_decimal n) = d /\ (1 <= d)%nat /\ has_width d n.
Proof.
  intros Hn. destruct (to_decimal_spec n Hn) as (_ & _ & k & Hk & Hlo & Hhi). exists (S k). split; [done|]. split; [lia|]. unfold has_width.
  rewrite Nat.sub_succ, Nat.sub_0_r. split; [|done]. destruct Hlo as [-> |]; [by left | by right].
Qed.
Lemma has_width_mono a b m n : has_width a m -> has_width b n -> (1 <= a)%nat -> (1 <= b)%nat -> m <= n -> (a <= b)%nat.
Proof.
  intros (Ha & _) (_ & Hb) H1 H2 Hle. destruct (decide (a <= b)%nat) as [|Hgt]; [done|exfalso]. destruct Ha as [-> |Ha]; [lia|].
  pose proof (pow10_le b (a - 1) ltac:(lia)). lia.
Qed.
Lemma has_width_small d n : has_width d n -> (1 <= d)%nat -> n <= MAX_PINNED_INTEGER -> (d <= 16)%nat.
Proof. intros (H & _) H1 Hn. destruct (decide (d <= 16)%nat) as [|Hgt]; [done|exfalso]. destruct H as [-> |H]; [lia|]. pose proof (pow10_le 16 (d - 1) ltac:(lia)). unfold MAX_PINNED_INTEGER in *. lia. Qed.
(** The range the code writes: natural numbers of at most 16 digits. *)
Lemma decimal_range_text minimum maximum : 0 <= minimum <= MAX_PINNED_INTEGER -> at_most maximum minimum ->
  exists text, decimal_range_gbnf (Some minimum) maximum = Ok text /\
    writes text (fun t => exists n, minimum <= n <= MAX_PINNED_INTEGER /\ at_most maximum n /\ t = to_decimal n).
Proof.
  intros Hmin Hmax. unfold decimal_range_gbnf. cbn [from_option id].
  assert (match maximum with Some maximum => maximum <? minimum | None => false end = false) as ->.
  { destruct maximum as [m|]; [|done]. by apply Z.ltb_ge. }
  rewrite (proj2 (Z.ltb_ge _ _)) by lia. set (maximum' := (fun value => Z.min value MAX_PINNED_INTEGER) <$> maximum).
  set (digits := match maximum' with Some value => length (to_decimal value) | None => 16%nat end).
  destruct (to_decimal_has_width minimum) as (d0 & -> & Hd0 & W0); [unfold MAX_PINNED_INTEGER in *; lia|].
  assert (forall n, 0 <= n <= MAX_PINNED_INTEGER -> at_most maximum n -> exists d, (1 <= d <= digits)%nat /\ has_width d n) as Hdig.
  { intros n Hn Hm. destruct (to_decimal_has_width n) as (d & _ & Hd & W); [unfold MAX_PINNED_INTEGER in *; lia|]. exists d. split; [|done]. split; [done|].
    unfold digits, maximum'. destruct maximum as [m|]; cbn [fmap option_fmap option_map]; [|by apply (has_width_small d n); [..|lia]].
    cbn [at_most] in Hm. destruct (to_decimal_has_width (Z.min m MAX_PINNED_INTEGER)) as (d' & -> & Hd' & W'); [unfold MAX_PINNED_INTEGER in *; lia|].
    apply (has_width_mono d d' n (Z.min m MAX_PINNED_INTEGER)); [done..|lia]. }
  assert (digits <= 16)%nat as H16.
  { unfold digits, maximum'. destruct maximum as [m|]; cbn [fmap option_fmap option_map]; [|done]. cbn [at_most] in Hmax.
    destruct (to_decimal_has_width (Z.min m MAX_PINNED_INTEGER)) as (d' & -> & Hd' & W'); [unfold MAX_PINNED_INTEGER in *; lia|].
    apply (has_width_small d' _ W'); [done|lia]. }
  pose proof (has_width_small d0 minimum W0 Hd0 ltac:(lia)) as H16'.
  destruct (range_widths minimum maximum' (S digits - d0) d0) as (ls & -> & W); [lia..|].
  assert (forall t, (exists n d, (d0 <= d < d0 + (S digits - d0))%nat /\ minimum <= n /\ at_most maximum' n /\ has_width d n /\ t = to_decimal n) <->
    exists n, minimum <= n <= MAX_PINNED_INTEGER /\ at_most maximum n /\ t = to_decimal n) as Ht.
  { intros t. split.
    - intros (n & d & Hd & Hn & Hm & Hw & ->). exists n. assert (n <= MAX_PINNED_INTEGER) as Hle.
      { destruct Hw as [_ Hw]. pose proof (pow10_le d 16 ltac:(lia)). unfold MAX_PINNED_INTEGER. lia. }
      split; [done|]. split; [|done]. unfold maximum', at_most in *. destruct maximum; cbn in *; lia.
    - intros (n & Hn & Hm & ->). destruct (Hdig n ltac:(lia) Hm) as (d & Hd & Hw). exists n, d.
      pose proof (has_width_mono d0 d minimum n W0 Hw ltac:(lia) ltac:(lia) ltac:(lia)). split; [lia|]. split; [lia|]. split; [|done].
      unfold maximum', at_most in *. destruct maximum; cbn in *; lia. }
  assert (mjoin ls <> []) as Hne.
  { destruct W as (l & -> & _ & Hin). intros El. apply fmap_nil_inv in El as ->. specialize (Hin (to_decimal minimum)). rewrite Exists_nil in Hin.
    apply Hin, Ht. exists minimum. by repeat split; try lia. }
  destruct (mjoin ls) as [|x xs] eqn:E; [done|]. eexists. split; [done|]. eapply writes_iff; [by apply writes_texts | exact Ht].
Qed.
Lemma decimal_range_too_wide minimum maximum : MAX_PINNED_INTEGER < minimum -> at_most maximum minimum ->
  decimal_range_gbnf (Some minimum) maximum = refuse "integer bound exceeds pinned 16-digit grammar".
Proof.
  intros Hmin Hmax. unfold decimal_range_gbnf. cbn [from_option id].
  assert (match maximum with Some maximum => maximum <? minimum | None => false end = false) as ->.
  { destruct maximum as [m|]; [|done]. by apply Z.ltb_ge. }
  by rewrite (proj2 (Z.ltb_lt _ _)).
Qed.

(** ** Bounded integers. *)
Definition at_least (minimum : option Z) (n : Z) : Prop := match minimum with Some m => m <= n | None => True end.
(** The text of an integer. *)
Definition integer_text (z : Z) : str := if z <? 0 then gbnf "-" ++ to_decimal (- z) else to_decimal z.
(** The texts for a range: its integers of at most 16 digits, and minus zero when the range has
    zero and something below it. *)
Definition goes_below (minimum : option Z) (n : Z) : bool := match minimum with Some m => m <? n | None => true end.
Definition reaches (maximum : option Z) (n : Z) : bool := match maximum with Some m => n <=? m | None => true end.
Definition range_words (minimum maximum : option Z) (t : str) : Prop :=
  (exists z, at_least minimum z /\ at_most maximum z /\ Z.abs z <= MAX_PINNED_INTEGER /\ t = integer_text z) \/
  (t = gbnf "-0" /\ goes_below minimum 0 = true /\ reaches maximum 0 = true).
Definition negative_texts (minimum maximum : option Z) : checked (list str) :=
  if goes_below minimum 0 then
    let smallest_abs := match maximum with Some maximum => if maximum <? 0 then - maximum else 0 | None => 0 end in
    let largest_abs := match minimum with Some value => if value <? 0 then Some (- value) else None | None => None end in
    let? magnitude := decimal_range_gbnf (Some smallest_abs) largest_abs in
    Ok [gbnf "'-' (" ++ magnitude ++ gbnf ")"]
  else Ok [].
Definition positive_texts (minimum maximum : option Z) : checked (list str) :=
  if reaches maximum 0 then
    let lower := match minimum with Some value => Z.max value 0 | None => 0 end in
    let upper := match maximum with Some value => if 0 <=? value then Some value else None | None => None end in
    let? text := decimal_range_gbnf (Some lower) upper in
    Ok [text]
  else Ok [].
Lemma bounded_parts minimum maximum : bounded_integer_gbnf minimum maximum =
  let? negative := negative_texts minimum maximum in
  let? positive := positive_texts minimum maximum in
  match negative ++ positive with
  | [] => refuse "integer range has no values"
  | alternatives => Ok (join (gbnf " | ") alternatives)
  end.
Proof. done. Qed.
(** The bounds the code can write: not descending, and 16 digits are enough. *)
Definition in_order (minimum maximum : option Z) : Prop := match minimum, maximum with Some a, Some b => a <= b | _, _ => True end.
Definition within_digits (minimum maximum : option Z) : bool :=
  match minimum with Some a => a <=? MAX_PINNED_INTEGER | None => true end && match maximum with Some b => - MAX_PINNED_INTEGER <=? b | None => true end.
Definition below_zero (minimum maximum : option Z) (t : str) : Prop :=
  exists n, at_least minimum (- n) /\ at_most maximum (- n) /\ 0 < n <= MAX_PINNED_INTEGER /\ t = gbnf "-" ++ to_decimal n.
Definition from_zero (minimum maximum : option Z) (t : str) : Prop :=
  exists n, at_least minimum n /\ at_most maximum n /\ 0 <= n <= MAX_PINNED_INTEGER /\ t = to_decimal n.
Lemma at_least_spec minimum n : at_least minimum n <-> match minimum with Some m => m <= n | None => True end.
Proof. done. Qed.

Section Bounds.
Context (minimum maximum : option Z) (Horder : in_order minimum maximum) (Hwithin : within_digits minimum maximum = true).
Lemma within_spec : match minimum with Some a => a <= MAX_PINNED_INTEGER | None => True end /\ match maximum with Some b => - MAX_PINNED_INTEGER <= b | None => True end.
Proof.
  unfold within_digits in Hwithin. apply andb_true_iff in Hwithin as [H1 H2]. split; [destruct minimum; [by apply Z.leb_le|done] | destruct maximum; [by apply Z.leb_le|done]].
Qed.
Lemma negative_text : goes_below minimum 0 = true ->
  exists text, negative_texts minimum maximum = Ok [text] /\
    writes_seq text (fun t => below_zero minimum maximum t \/ (t = gbnf "-0" /\ goes_below minimum 0 = true /\ reaches maximum 0 = true)).
Proof.
  intros Hb. destruct within_spec as [W1 W2]. unfold negative_texts. rewrite Hb.
  set (smallest := match maximum with Some maximum => if maximum <? 0 then - maximum else 0 | None => 0 end).
  set (largest := match minimum with Some value => if value <? 0 then Some (- value) else None | None => None end).
  assert (0 <= smallest <= MAX_PINNED_INTEGER) as Hs.
  { unfold smallest, MAX_PINNED_INTEGER in *. destruct maximum as [b|]; [destruct (Z.ltb_spec b 0)|]; lia. }
  assert (at_most largest smallest) as Hl.
  { unfold smallest, largest, goes_below, in_order in *. destruct minimum as [a|]; [|done]. apply Z.ltb_lt in Hb as Hb'. rewrite Hb. cbn. destruct maximum as [b|]; [destruct (Z.ltb_spec b 0)|]; lia. }
  assert (forall n, 0 <= n -> (smallest <= n /\ at_most largest n) <-> (at_least minimum (- n) /\ at_most maximum (- n)) \/ (n = 0 /\ reaches maximum 0 = true)) as Hn.
  { intros n Hn. unfold smallest, largest, at_least, at_most, reaches, goes_below in *. destruct minimum as [a|]; [rewrite Hb; apply Z.ltb_lt in Hb|];
      (destruct maximum as [b|]; [rewrite Z.leb_le; destruct (Z.ltb_spec b 0)|]); lia. }
  destruct (decimal_range_text smallest largest Hs Hl) as (magnitude & -> & W). eexists. split; [done|].
  change (gbnf "'-' (") with (quoted_literal (gbnf "-") ++ gbnf " " ++ gbnf "("). rewrite <- !app_assoc.
  eapply writes_seq_iff; [apply writes_seq_literal; [by repeat constructor|]; apply writes_seq_space|].
  { pose proof (writes_seq_group magnitude [] _ _ W writes_seq_nil) as G. rewrite app_nil_r in G. exact G. }
  intros t. split.
  - intros (b & -> & a & b' & -> & (n & Hrange & Hm & ->) & ->). rewrite app_nil_r. destruct (proj1 (Hn n ltac:(lia))) as [[H1 H2]|[-> Hr]]; [by split; [lia|]| |].
    + destruct (Z.eq_dec n 0) as [->|Hn0]; [|left; exists n; by split_and!; try lia].
      right. split; [done|]. split; [done|]. unfold reaches, at_most in *. destruct maximum; [by apply Z.leb_le|done].
    + right. by split.
  - assert (forall n, 0 <= n <= MAX_PINNED_INTEGER -> smallest <= n -> at_most largest n -> exists b, gbnf "-" ++ to_decimal n = gbnf "-" ++ b /\
      exists a b', b = a ++ b' /\ (exists n, smallest <= n <= MAX_PINNED_INTEGER /\ at_most largest n /\ a = to_decimal n) /\ b' = []) as Hok.
    { intros n Hrange Hs' Hl'. exists (to_decimal n). split; [done|]. exists (to_decimal n), []. rewrite app_nil_r. split; [done|]. split; [|done]. exists n. by split_and!; try lia. }
    intros [(n & H1 & H2 & Hrange & ->)|(-> & _ & Hr)].
    + apply Hok; [lia|apply Hn; [lia|by left]..].
    + apply (Hok 0); [unfold MAX_PINNED_INTEGER; lia|apply Hn; [lia|by right]..].
Qed.
Lemma positive_text : reaches maximum 0 = true -> exists text, positive_texts minimum maximum = Ok [text] /\ writes text (from_zero minimum maximum).
Proof.
  intros Hr. destruct within_spec as [W1 W2]. unfold positive_texts. rewrite Hr.
  set (lower := match minimum with Some value => Z.max value 0 | None => 0 end).
  assert (match maximum with Some value => if 0 <=? value then Some value else None | None => None end = maximum) as ->.
  { unfold reaches in Hr. destruct maximum; [by rewrite Hr|done]. }
  assert (0 <= lower <= MAX_PINNED_INTEGER) as Hs by (unfold lower, MAX_PINNED_INTEGER in *; destruct minimum; lia).
  assert (at_most maximum lower) as Hl.
  { unfold lower, reaches, in_order, at_most in *. destruct maximum as [b|]; [|done]. apply Z.leb_le in Hr. destruct minimum; lia. }
  destruct (decimal_range_text lower maximum Hs Hl) as (text & -> & W). eexists. split; [done|]. eapply writes_iff; [exact W|]. intros t.
  unfold from_zero, at_least, lower. split; intros (n & H); exists n; destruct minimum; intuition lia.
Qed.
End Bounds.
(** Both signs together. *)
Lemma range_words_signs minimum maximum t : range_words minimum maximum t <->
  (below_zero minimum maximum t \/ (t = gbnf "-0" /\ goes_below minimum 0 = true /\ reaches maximum 0 = true)) \/ from_zero minimum maximum t.
Proof.
  unfold range_words, below_zero, from_zero, integer_text. split.
  - intros [(z & H1 & H2 & H3 & ->)|H]; [|by left; right]. destruct (Z.ltb_spec z 0) as [Hz|Hz].
    + left; left. exists (- z). rewrite Z.opp_involutive. by split_and!; try lia.
    + right. exists z. by split_and!; try lia.
  - intros [[(n & H1 & H2 & H3 & ->)|H]|(n & H1 & H2 & H3 & ->)]; [|by right|]; left.
    + exists (- n). rewrite (proj2 (Z.ltb_lt _ _)), Z.opp_involutive by lia. by split_and!; try lia.
    + exists n. rewrite (proj2 (Z.ltb_ge _ _)) by lia. by split_and!; try lia.
Qed.
Lemma not_below_zero minimum maximum t : goes_below minimum 0 = false -> ~ (below_zero minimum maximum t \/ (t = gbnf "-0" /\ goes_below minimum 0 = true /\ reaches maximum 0 = true)).
Proof.
  intros Hb [(n & H1 & _ & H3 & _)|(_ & E & _)]; [|by rewrite Hb in E]. unfold goes_below, at_least in *. destruct minimum as [a|]; [|done]. apply Z.ltb_ge in Hb. lia.
Qed.
Lemma not_from_zero minimum maximum t : reaches maximum 0 = false -> ~ from_zero minimum maximum t.
Proof.
  intros Hr (n & _ & H2 & H3 & _). unfold reaches, at_most in *. destruct maximum as [b|]; [|done]. apply Z.leb_gt in Hr. lia.
Qed.
(** The text for the integers of a range, or the refusal of a bound that needs more digits. *)
Lemma bounded_integer_text minimum maximum : in_order minimum maximum -> within_digits minimum maximum = true ->
  exists text, bounded_integer_gbnf minimum maximum = Ok text /\ writes text (range_words minimum maximum).
Proof.
  intros Ho Hw. rewrite bounded_parts. destruct (goes_below minimum 0) eqn:Eb.
  - destruct (negative_text minimum maximum Ho Hw Eb) as (neg & -> & Wn). destruct (reaches maximum 0) eqn:Er.
    + destruct (positive_text minimum maximum Ho Hw Er) as (pos & -> & Wp). eexists. split; [done|]. cbn [join app].
      eapply writes_iff; [apply (writes_or _ _ _ _ Wn Wp)|]. intros t. by rewrite range_words_signs, Er.
    + unfold positive_texts. rewrite Er. eexists. split; [done|]. eapply writes_iff; [apply (writes_of_seq _ _ Wn)|]. intros t.
      rewrite range_words_signs, Er. pose proof (not_from_zero minimum maximum t Er). tauto.
  - unfold negative_texts. rewrite Eb. assert (reaches maximum 0 = true) as Er.
    { unfold goes_below, reaches, in_order in *. destruct minimum as [a|]; [|done]. apply Z.ltb_ge in Eb. destruct maximum; [|done]. apply Z.leb_le. lia. }
    destruct (positive_text minimum maximum Ho Hw Er) as (pos & -> & Wp). eexists. split; [done|]. eapply writes_iff; [exact Wp|]. intros t.
    rewrite range_words_signs. pose proof (not_below_zero minimum maximum t Eb). tauto.
Qed.
Lemma bounded_integer_too_wide minimum maximum : in_order minimum maximum -> within_digits minimum maximum = false ->
  bounded_integer_gbnf minimum maximum = refuse "integer bound exceeds pinned 16-digit grammar".
Proof.
  intros Ho Hw. rewrite bounded_parts. unfold within_digits in Hw. apply andb_false_iff in Hw. unfold negative_texts, positive_texts, goes_below, reaches, in_order in *.
  destruct Hw as [Hw|Hw].
  - destruct minimum as [a|]; [|done]. apply Z.leb_gt in Hw. rewrite (proj2 (Z.ltb_ge a 0)) by (unfold MAX_PINNED_INTEGER in *; lia). rewrite Z.max_l by (unfold MAX_PINNED_INTEGER in *; lia).
    destruct maximum as [b|]; [rewrite (proj2 (Z.leb_le 0 b)) by (unfold MAX_PINNED_INTEGER in *; lia)|]; rewrite decimal_range_too_wide; done || (cbn; lia).
  - destruct maximum as [b|]; [|done]. apply Z.leb_gt in Hw. rewrite (proj2 (Z.ltb_lt b 0)) by (unfold MAX_PINNED_INTEGER in *; lia).
    assert (match minimum with Some m => m <? 0 | None => true end = true) as -> by (destruct minimum; [apply Z.ltb_lt; unfold MAX_PINNED_INTEGER in *; lia|done]).
    rewrite decimal_range_too_wide; [done|unfold MAX_PINNED_INTEGER in *; lia|]. destruct minimum as [a|]; [|done]. rewrite (proj2 (Z.ltb_lt a 0)) by (unfold MAX_PINNED_INTEGER in *; lia). cbn. lia.
Qed.
