(* ===== verification/SchemaShape.v ===== *)
(** * Schemas as shapes.

    The reference for the schema compiler: the shapes of schemas it is specified on, the JSON
    document of each, and the texts it describes.  Texts are words over the languages of the
    fixed rules ([value], [string], [space], ...) and of the definitions a document refers to. *)
From Stdlib Require Import Strings.Byte.
From S2P Require Import Prelude Utf8 Utf8Scalar Grammar GrammarParser GrammarLanguage Schema SchemaDecimal GbnfSyntax SchemaText SchemaRanges.

Inductive Kind : Type := KString | KNumber | KInteger | KBoolean | KNull.
#[global] Instance Kind_eq_dec : EqDecision Kind.
Proof. solve_decision. Defined.
Definition kind_name (k : Kind) : str :=
  character match k with KString => "string" | KNumber => "number" | KInteger => "integer" | KBoolean => "boolean" | KNull => "null" end.

Inductive Shape : Type :=
| Anything
| Nothing
| Const (value : Value)
| Enum (values : list Value)
| AnyOf (one : bool) (branches : list Shape)
| Basic (kind : Kind)
| Types (kinds : list Kind)
| Integer (minimum maximum : option Z)
| Characters (minimum : Z) (maximum : option Z)
| Tuple (items : list Shape)
| Items (item : Shape) (minimum : Z) (maximum : option Z)
| Members (members : list (bool * str * Shape))
| Refers (name : str)
| Noted (notes : list (str * Value)) (s : Shape).
Section Induction.
Context (P : Shape -> Prop).
Context (HAny : P Anything) (HNothing : P Nothing) (HConst : forall v, P (Const v)) (HEnum : forall l, P (Enum l)).
Context (HAnyOf : forall one l, Forall P l -> P (AnyOf one l)).
Context (HBasic : forall k, P (Basic k)) (HTypes : forall l, P (Types l)) (HInteger : forall a b, P (Integer a b)).
Context (HCharacters : forall a b, P (Characters a b)).
Context (HTuple : forall l, Forall P l -> P (Tuple l)) (HItems : forall s a b, P s -> P (Items s a b)).
Context (HMembers : forall l, Forall (fun m => P m.2) l -> P (Members l)).
Context (HRefers : forall name, P (Refers name)) (HNoted : forall notes s, P s -> P (Noted notes s)).
Fixpoint Shape_induction (s : Shape) : P s :=
  let fix all (l : list Shape) : Forall P l :=
    match l with [] => Forall_nil_2 P | s :: l => Forall_cons_2 P s l (Shape_induction s) (all l) end in
  let fix all_members (l : list (bool * str * Shape)) : Forall (fun m => P m.2) l :=
    match l with
    | [] => Forall_nil_2 _
    | m :: l => Forall_cons_2 (fun m => P m.2) m l (let (_, s) as m return P m.2 := m in Shape_induction s) (all_members l)
    end in
  match s with
  | Anything => HAny
  | Nothing => HNothing
  | Const v => HConst v
  | Enum l => HEnum l
  | AnyOf one l => HAnyOf one l (all l)
  | Basic k => HBasic k
  | Types l => HTypes l
  | Integer a b => HInteger a b
  | Characters a b => HCharacters a b
  | Tuple l => HTuple l (all l)
  | Items s a b => HItems s a b (Shape_induction s)
  | Members l => HMembers l (all_members l)
  | Refers name => HRefers name
  | Noted notes s => HNoted notes s (Shape_induction s)
  end.
End Induction.

(** ** The document of a shape. *)
Definition member (key : string) (value : Value) : str * Value := (character key, value).
Definition text_value (text : str) : Value := VString text.
Definition int_value (z : Z) : Value := VNumber (if z <? 0 then NegInt z else PosInt z).
Definition optional_member (key : string) (o : option Z) : list (str * Value) :=
  match o with Some z => [member key (int_value z)] | None => [] end.
Definition definition_reference (name : str) : str := character "#/$defs/" ++ name.
Definition with_notes (notes : list (str * Value)) (v : Value) : Value :=
  match v with VObject m => VObject (notes ++ m) | _ => v end.
Fixpoint document (s : Shape) : Value :=
  match s with
  | Anything => VBool true
  | Nothing => VBool false
  | Const value => VObject [member "const" value]
  | Enum values => VObject [member "enum" (VArray values)]
  | AnyOf one branches => VObject [member (if one then "oneOf" else "anyOf") (VArray (document <$> branches))]
  | Basic kind => VObject [member "type" (text_value (kind_name kind))]
  | Types kinds => VObject [member "type" (VArray (text_value ∘ kind_name <$> kinds))]
  | Integer minimum maximum =>
      VObject (member "type" (text_value (kind_name KInteger)) :: optional_member "minimum" minimum ++ optional_member "maximum" maximum)
  | Characters minimum maximum =>
      VObject (member "type" (text_value (kind_name KString)) :: member "minLength" (int_value minimum) :: optional_member "maxLength" maximum)
  | Tuple items => VObject [member "type" (text_value (character "array")); member "prefixItems" (VArray (document <$> items))]
  | Items item minimum maximum =>
      VObject (member "type" (text_value (character "array")) :: member "items" (document item) ::
               member "minItems" (int_value minimum) :: optional_member "maxItems" maximum)
  | Members members =>
      VObject [member "type" (text_value (character "object"));
               member "properties" (VObject ((fun m => (m.1.2, document m.2)) <$> members));
               member "required" (VArray ((fun m => text_value m.1.2) <$> filter (fun m => m.1.1 = true) members));
               member "additionalProperties" (VBool false)]
  | Refers name => VObject [member "$ref" (text_value (definition_reference name))]
  | Noted notes s => with_notes notes (document s)
  end.
(** A schema with its definitions. *)
Definition with_definitions (defs : list (str * Shape)) (s : Shape) : Value :=
  with_notes [member "$defs" (VObject ((fun d => (d.1, document d.2)) <$> defs))] (document s).

(** ** The texts it describes. *)
(** The class that stands for no text: one code point that is no scalar value, so no character. *)
Definition no_character : Lang := fun v => exists c, v = [IChar c] /\ is_scalar c = false.
Definition ordered (minimum maximum : option Z) : bool := match minimum, maximum with Some a, Some b => a <=? b | _, _ => true end.
Section Words.
Context `{JsonText} (E : str -> Lang) (R : str -> Lang).
Definition named (name : string) : Lang := E (character name).
Fixpoint in_turn (l : list Lang) : Lang :=
  match l with
  | [] => fun v => v = []
  | [L] => L
  | L :: l => lang_app L (lang_app (named "comma") (in_turn l))
  end.
(** Something between two brackets, with space around it. *)
Definition enclosed (opening closing : string) (L : Lang) : Lang :=
  lang_app (lit_words (character opening)) (lang_app (named "space") (lang_app L (lang_app (named "space") (lit_words (character closing))))).
Definition member_words (name : str) (L : Lang) : Lang :=
  lang_app (lit_words (to_json (VString name))) (lang_app (named "space") (lang_app (lit_words (character ":")) (lang_app (named "space") L))).
Definition number_between (minimum : Z) (maximum : option Z) (k : nat) : Prop := minimum <= Z.of_nat k /\ at_most maximum (Z.of_nat k).
Definition integer_words (minimum maximum : option Z) : Lang :=
  match minimum, maximum with
  | None, None => named "integer"
  | _, _ => if ordered minimum maximum then text_words (range_words minimum maximum) else no_character
  end.
Fixpoint words (s : Shape) : Lang :=
  match s with
  | Anything => named "value"
  | Nothing => no_character
  | Const value => lit_words (to_json value)
  | Enum values => fun v => exists value, value ∈ values /\ lit_words (to_json value) v
  | AnyOf _ branches => foldr (fun s L v => words s v \/ L v) (fun _ => False) branches
  | Basic kind => E (kind_name kind)
  | Types kinds => fun v => exists kind, kind ∈ kinds /\ E (kind_name kind) v
  | Integer minimum maximum => integer_words minimum maximum
  | Characters minimum maximum =>
      lang_app (lit_words [x22]) (lang_app (fun v => exists k, number_between minimum maximum k /\ lang_power (named "json-character") k v) (lit_words [x22]))
  | Tuple items => enclosed "[" "]" (in_turn (words <$> items))
  | Items item minimum maximum =>
      enclosed "[" "]" (fun v => exists k, number_between minimum maximum k /\ in_turn (replicate k (words item)) v)
  | Members members =>
      let all := (fun m => (m.1.1, member_words m.1.2 (words m.2))) <$> members in
      let required := (filter (fun m => m.1 = true) all).*2 in
      let optional := (filter (fun m => m.1 = false) all).*2 in
      enclosed "{" "}" (fun v => exists present, present `sublist_of` optional /\ in_turn (required ++ present) v)
  | Refers name => R (definition_reference name)
  | Noted _ s => words s
  end.
End Words.

(** ** The shapes the compiler takes. *)
Definition ANNOTATIONS : list string :=
  ["$schema"; "$id"; "$anchor"; "$comment"; "$defs"; "definitions"; "title"; "description"; "default"; "examples"; "deprecated";
   "readOnly"; "writeOnly"]%string.
Definition is_annotation (key : str) : bool := existsb (fun k => bool_decide (key = character k)) ANNOTATIONS.
Definition fits_i64 (o : option Z) : bool := match o with Some z => (I64_MIN <=? z) && (z <=? I64_MAX) | None => true end.
Definition lengths_ok (minimum : Z) (maximum : option Z) : bool :=
  (0 <=? minimum) && (minimum <=? 2000) && match maximum with Some m => (minimum <=? m) && (m <=? 2000) | None => true end.
Definition non_empty {A} (l : list A) : bool := match l with [] => false | _ => true end.
Definition is_object (v : Value) : bool := match v with VObject (_ :: _) => true | _ => false end.
(** A name that is one token of a reference. *)
Definition token_ok (name : str) : bool := forallb (fun b => negb (is_byte "/" b) && negb (is_byte "~" b)) name.
Section Ok.
Context `{JsonText} (defs : list str).
Fixpoint shape_ok (s : Shape) : bool :=
  match s with
  | Anything | Nothing | Basic _ => true
  | Const value => utf8_valid (to_json value)
  | Enum values => non_empty values && forallb (fun value => utf8_valid (to_json value)) values
  | AnyOf _ branches => non_empty branches && forallb shape_ok branches
  | Types kinds => non_empty kinds
  | Integer minimum maximum => fits_i64 minimum && fits_i64 maximum && (negb (ordered minimum maximum) || within_digits minimum maximum)
  | Characters minimum maximum => lengths_ok minimum maximum
  | Tuple items => forallb shape_ok items
  | Items item minimum maximum => lengths_ok minimum maximum && shape_ok item
  | Members members =>
      bool_decide (NoDup ((fun m => m.1.2) <$> members)) && forallb (fun m => utf8_valid (to_json (VString m.1.2))) members
      && (length (filter (fun m => m.1.1 = false) members) <=? 12)%nat && forallb (fun m => shape_ok m.2) members
  | Refers name => bool_decide (name ∈ defs)
  | Noted notes s => forallb (fun note => is_annotation note.1) notes && is_object (document s) && shape_ok s
  end.
End Ok.
(** Definitions that can be referred to; their number fits a [usize]. *)
Definition definitions_ok `{JsonText} (defs : list (str * Shape)) : bool :=
  bool_decide (NoDup defs.*1) && (Z.of_nat (length defs) <? 2 ^ 64) && forallb token_ok defs.*1 && forallb (fun d => shape_ok defs.*1 d.2) defs.

(** The definitions a shape refers to, directly and through others. *)
Fixpoint uses (s : Shape) : list str :=
  match s with
  | AnyOf _ l | Tuple l => mjoin (uses <$> l)
  | Items s _ _ | Noted _ s => uses s
  | Members l => mjoin ((fun m => uses m.2) <$> l)
  | Refers name => [name]
  | _ => []
  end.
Inductive reached (defs : list (str * Shape)) (s : Shape) : str -> Prop :=
| reached_here name : name ∈ uses s -> reached defs s name
| reached_through name d : reached defs s d.1 -> d ∈ defs -> name ∈ uses d.2 -> reached defs s name.

(** How deep the compiler calls itself. *)
Fixpoint depth (s : Shape) : nat :=
  match s with
  | AnyOf _ l | Tuple l => S (max_list (depth <$> l))
  | Items s _ _ => S (depth s)
  | Members l => S (max_list ((fun m => depth m.2) <$> l))
  | Types _ => 2
  | Noted _ s => depth s
  | _ => 1
  end.
