(* ===== verification/SchemaDocs.v ===== *)
(** * The documents of shapes.

    What the keyword dispatch of the schema compiler does with the document of each shape, and
    that annotations change nothing. *)
From Stdlib Require Import Strings.Byte.
From S2P Require Import Prelude Utf8 Substring GrammarParser Schema SchemaDecimal GbnfSyntax SchemaText SchemaRanges SchemaShape.

Section Docs.
Context `{JsonText} (rule : Value -> SchemaGrammar -> checked (str * SchemaGrammar)).
Lemma rule_const value b : schema_object_rule rule (document (Const value)) b = Ok (quoted_literal (to_json value), b).
Proof. reflexivity. Qed.
Lemma rule_enum values b : values <> [] -> schema_object_rule rule (document (Enum values)) b = Ok (union ((fun value => quoted_literal (to_json value)) <$> values), b).
Proof. intros Hne. destruct values as [|x l]; [done|]. reflexivity. Qed.
Lemma rule_any_of one branches b : schema_object_rule rule (document (AnyOf one branches)) b =
  let? (texts, b) := compile_all rule (document <$> branches) b in Ok (union texts, b).
Proof. destruct one; reflexivity. Qed.
Lemma rule_basic kind b : schema_object_rule rule (document (Basic kind)) b = Ok (kind_name kind, b).
Proof. destruct kind; reflexivity. Qed.
Lemma rule_refers name b : schema_object_rule rule (document (Refers name)) b = reference_rule rule (definition_reference name) b.
Proof. reflexivity. Qed.
Lemma rule_types kinds b : kinds <> [] -> schema_object_rule rule (document (Types kinds)) b =
  let? (texts, b) := compile_all rule (document ∘ Basic <$> kinds) b in Ok (union texts, b).
Proof.
  intros Hne. assert (valid_type (VArray (text_value ∘ kind_name <$> kinds)) = true) as Hv.
  { cbn [valid_type]. destruct kinds as [|k kinds]; [done|]. rewrite bool_decide_eq_true_2 by done. cbn [andb]. clear. induction (k :: kinds) as [|k' l IH]; [done|].
    rewrite fmap_cons. cbn [forallb]. rewrite IH. by destruct k'. }
  assert (with_type (document (Types kinds)) <$> (text_value ∘ kind_name <$> kinds) = document ∘ Basic <$> kinds) as Hw by by rewrite <- list_fmap_compose.
  rewrite <- Hw. transitivity (if negb (valid_type (VArray (text_value ∘ kind_name <$> kinds))) then refuse "invalid JSON Schema type" else
    let? (texts, b) := compile_all rule (with_type (document (Types kinds)) <$> (text_value ∘ kind_name <$> kinds)) b in Ok (union texts, b)); [reflexivity|].
  by rewrite Hv.
Qed.
Lemma rule_integer minimum maximum b : schema_object_rule rule (document (Integer minimum maximum)) b =
  let? text := integer_rule (document (Integer minimum maximum)) in Ok (text, b).
Proof. destruct minimum, maximum; reflexivity. Qed.
Lemma rule_characters minimum maximum b : schema_object_rule rule (document (Characters minimum maximum)) b =
  let? text := string_rule (document (Characters minimum maximum)) in Ok (text, b).
Proof. destruct maximum; reflexivity. Qed.
Lemma rule_tuple items b : schema_object_rule rule (document (Tuple items)) b = array_rule rule (document (Tuple items)) b.
Proof. reflexivity. Qed.
Lemma rule_items item minimum maximum b : schema_object_rule rule (document (Items item minimum maximum)) b = array_rule rule (document (Items item minimum maximum)) b.
Proof. destruct maximum; reflexivity. Qed.
Lemma rule_members members b : schema_object_rule rule (document (Members members)) b = object_rule rule (document (Members members)) b.
Proof.
  set (required := (fun m => text_value m.1.2) <$> filter (fun m : bool * str * Shape => m.1.1 = true) members).
  assert (existsb (fun v => bool_decide (as_str v = None)) required = false) as Hr.
  { unfold required. induction (filter _ members) as [|m l IH]; [done|]. rewrite fmap_cons. cbn [existsb]. rewrite IH. done. }
  transitivity (let? _ := (if existsb (fun v => bool_decide (as_str v = None)) required then refuse "JSON Schema required entries must be strings" else Ok tt) in
    object_rule rule (document (Members members)) b); [reflexivity|]. by rewrite Hr.
Qed.
End Docs.

(** ** Annotations. *)
Lemma map_get_skip {A} (key : str) (notes m : list (str * A)) : key ∉ notes.*1 -> map_get key (notes ++ m) = map_get key m.
Proof.
  induction notes as [|[k v] notes IH]; [done|]. rewrite fmap_cons, not_elem_of_cons. intros [Hne Hn]. cbn [app map_get]. rewrite bool_decide_eq_false_2 by done. by apply IH.
Qed.
Section Notes.
Context (notes m : list (str * Value)) (Hnotes : forallb (fun note => is_annotation note.1) notes = true).
Local Abbreviation noted := (VObject (notes ++ m)).
Lemma get_noted k : is_annotation (character k) = false -> get k noted = get k (VObject m).
Proof.
  intros Hk. apply map_get_skip. intros ((k' & v) & Ek & Hin)%list_elem_of_fmap. rewrite forallb_forall in Hnotes.
  apply list_elem_of_In in Hin. specialize (Hnotes _ Hin). cbn [fst] in Ek, Hnotes. rewrite <- Ek in Hnotes. unfold character in *. congruence.
Qed.
Lemma validate_noted : validate_schema_keywords noted = validate_schema_keywords (VObject m).
Proof.
  unfold validate_schema_keywords, has, get_str. cbn [as_object existsb BOUND_KEYWORDS]. rewrite !get_noted by done.
  rewrite fmap_app, existsb_app. assert (existsb (fun key => negb (existsb (fun k => bool_decide (key = character k)) SUPPORTED)) notes.*1 = false) as ->; [|done].
  induction notes as [|[k v] l IH]; [done|]. cbn [forallb fst] in Hnotes. apply andb_true_iff in Hnotes as [Hk Hl]. rewrite fmap_cons. cbn [existsb fst]. rewrite (IH Hl), orb_false_r.
  apply negb_false_iff. apply existsb_exists in Hk as (a & Ha & Hka). apply existsb_exists. exists a. split; [|done].
  clear -Ha. assert (incl ANNOTATIONS SUPPORTED) as Hi; [|by apply Hi]. unfold incl. apply List.Forall_forall. repeat (constructor; [cbn; tauto|]). constructor.
Qed.
Lemma bounds_noted a b : is_annotation (character a) = false -> is_annotation (character b) = false -> bounds a b noted = bounds a b (VObject m).
Proof. intros Ha Hb. unfold bounds, get_u64. by rewrite !get_noted. Qed.
Lemma string_noted : string_rule noted = string_rule (VObject m).
Proof. unfold string_rule, has, get_str. rewrite !bounds_noted by done. by rewrite !get_noted. Qed.
Lemma integer_noted : integer_rule noted = integer_rule (VObject m).
Proof. unfold integer_rule, integer_minimum, integer_maximum, get_i64. cbn [existsb BOUND_KEYWORDS]. by rewrite !get_noted. Qed.
Lemma with_type_noted kind : with_type noted kind = VObject (notes ++ map_insert (character "type") kind m).
Proof.
  cbn [with_type]. f_equal. induction notes as [|[k v] l IH]; [done|]. cbn [forallb fst] in Hnotes. apply andb_true_iff in Hnotes as [Hk Hl].
  cbn [app map_insert]. rewrite bool_decide_eq_false_2 by (intros ->; by vm_compute in Hk). by rewrite (IH Hl).
Qed.
Context `{JsonText} (rule : Value -> SchemaGrammar -> checked (str * SchemaGrammar)).
Lemma array_noted b : array_rule rule noted b = array_rule rule (VObject m) b.
Proof. unfold array_rule. rewrite !bounds_noted by done. by rewrite !get_noted. Qed.
Lemma object_noted b : object_rule rule noted b = object_rule rule (VObject m) b.
Proof. unfold object_rule, object_rule_ordered, ordered_properties, required_names, additional_rule, get_array. by rewrite !get_noted. Qed.
Lemma typed_noted kind b : m <> [] -> typed_rule rule noted kind b = typed_rule rule (VObject m) kind b.
Proof.
  intros Hm. unfold typed_rule, has. cbn [existsb as_object]. rewrite !get_noted, object_noted, array_noted, string_noted, integer_noted by done.
  destruct m as [|x m']; [done|]. by destruct notes.
Qed.
Lemma object_rule_noted b : m <> [] -> (forall kind b, rule (with_type noted kind) b = rule (with_type (VObject m) kind) b) ->
  schema_object_rule rule noted b = schema_object_rule rule (VObject m) b.
Proof.
  intros Hm Hk. assert (forall kinds b, compile_all rule (with_type noted <$> kinds) b = compile_all rule (with_type (VObject m) <$> kinds) b) as Hall.
  { induction kinds as [|k kinds IH]; intros b'; [done|]. rewrite !fmap_cons. cbn [compile_all]. rewrite Hk. destruct (rule _ b') as [[t b'']|e]; [|done]. cbn. by rewrite IH. }
  unfold schema_object_rule, get_str, get_array. rewrite validate_noted, !get_noted by done. rewrite !typed_noted by done.
  destruct (v ← get "type" (VObject m); as_array v) as [kinds|]; [rewrite Hall|]; reflexivity.
Qed.
End Notes.
Lemma schema_rule_noted `{JsonText} notes fuel : forallb (fun note => is_annotation note.1) notes = true -> forall m b, m <> [] ->
  schema_rule fuel (VObject (notes ++ m)) b = schema_rule fuel (VObject m) b.
Proof.
  intros Hn. induction fuel as [|fuel IH]; intros m b Hm; [done|]. cbn [schema_rule]. apply object_rule_noted; [done|done|].
  intros kind b'. rewrite with_type_noted by done. apply IH. destruct m as [|[k v] m]; [done|]. cbn. by case_bool_decide.
Qed.

(** ** Closed objects. *)
Lemma btree_insert_keys {A} (key : str) (value : A) m k : k ∈ (btree_insert key value m).*1 -> k = key \/ k ∈ m.*1.
Proof.
  induction m as [|[k0 v0] m IH]; cbn [btree_insert].
  - rewrite fmap_cons. intros [->|H]%elem_of_cons; [by left | by right].
  - case_bool_decide as E; [|destruct (str_ltb key k0)]; rewrite !fmap_cons, !elem_of_cons; cbn [fst]; [tauto..|]. intros [->|H]; [tauto|]. apply IH in H. tauto.
Qed.
Lemma sorted_set_elem l k : k ∈ sorted_set l -> k ∈ l.
Proof.
  unfold sorted_set. assert (forall m : list (str * unit), k ∈ (foldl (fun m s => btree_insert s tt m) m l).*1 -> k ∈ m.*1 \/ k ∈ l) as W.
  { induction l as [|x l IH]; intros m Hk; cbn [foldl] in Hk; [by left|]. apply IH in Hk as [Hk|Hk]; [|right; apply elem_of_cons; by right].
    apply btree_insert_keys in Hk as [->|Hk]; [right; apply elem_of_cons; by left | by left]. }
  intros Hk. apply W in Hk as [Hk|Hk]; [by apply elem_of_nil in Hk | done].
Qed.
Definition required_of (members : list (bool * str * Shape)) : list str := (fun m => m.1.2) <$> filter (fun m => m.1.1 = true) members.
Lemma required_document members : required_names (document (Members members)) = required_of members.
Proof.
  change (required_names (document (Members members))) with (omap as_str ((fun m : bool * str * Shape => text_value m.1.2) <$> filter (fun m => m.1.1 = true) members)).
  unfold required_of. induction (filter _ members) as [|m l IH]; [done|]. rewrite !fmap_cons. cbn. by rewrite IH.
Qed.
Lemma object_rule_members `{JsonText} rule members b : object_rule rule (document (Members members)) b =
  let? (outs, b) := object_members rule (required_of members) ((fun m => (m.1.2, document m.2)) <$> members) b in
  let required_members := (filter (fun p => p.1 = true) outs).*2 in
  let optional_members := (filter (fun p => p.1 = false) outs).*2 in
  if (12 <? length optional_members)%nat then refuse "JSON Schema has more than 12 optional object properties"
  else Ok (gbnf "(" ++ join (gbnf " | ") ((fun mask => gbnf "'{' space " ++ object_body None (select_members required_members optional_members mask) ++ gbnf " space '}'")
           <$> seq 0 (2 ^ length optional_members)) ++ gbnf ")", b).
Proof.
  unfold object_rule, object_rule_ordered. rewrite required_document. cbv zeta.
  change (ordered_properties (document (Members members)) None) with (Ok (E := SchemaError) ((fun m : bool * str * Shape => (m.1.2, document m.2)) <$> members)).
  cbv beta iota. destruct (object_members rule _ _ b) as [[outs b']|e]; [|done]. cbv beta iota. destruct (12 <? _)%nat; [done|].
  change (additional_rule rule (document (Members members)) b') with (Ok (E := SchemaError) (@None str, b')). cbv beta iota.
  assert (filter (fun name => name ∉ ((fun m : bool * str * Shape => (m.1.2, document m.2)) <$> members).*1) (sorted_set (required_of members)) = []) as ->.
  { destruct (filter _ _) as [|k l] eqn:Ef; [done|]. exfalso. assert (k ∈ k :: l) as Hk by (apply elem_of_cons; by left). rewrite <- Ef in Hk.
    apply list_elem_of_filter in Hk as [Hn Hk%sorted_set_elem]. apply Hn. unfold required_of in Hk. apply list_elem_of_fmap in Hk as (m & -> & [_ Hm]%list_elem_of_filter).
    rewrite <- list_fmap_compose. apply list_elem_of_fmap. by exists m. }
  cbv beta iota. cbn [fmap list_fmap]. by rewrite app_nil_r.
Qed.
