(* ===== verification/SchemaPhrases.v ===== *)
(** * The phrases of the schema compiler.

    The texts it builds from those of the parts of a schema, each with what it says. *)
From Stdlib Require Import Strings.Byte.
From S2P Require Import Prelude Utf8 Utf8Scalar Substring Grammar GrammarParser GrammarLanguage Schema SchemaDecimal GbnfSyntax GbnfReading GbnfRules JsonRules.
From S2P Require Import SchemaText SchemaRanges SchemaShape.

Section Phrases.
Context (known : str -> Prop) (Hknown : forall name, name ∈ json_names -> known name).
Local Abbreviation says := (says known).
Local Abbreviation says_any := (says_any known).
Definition is_json_name (name : str) : bool := bool_decide (name ∈ json_names) && name_ok name.
Lemma says_json name : is_json_name (character name) = true -> says (character name) (fun E => named E name).
Proof. unfold is_json_name. rewrite andb_true_iff, bool_decide_eq_true. intros [Hin Hok]. apply says_name; [done | by apply Hknown]. Qed.
Lemma says_quoted (text : string) : utf8_valid (character text) = true -> says (quoted_literal (character text)) (fun _ => lit_words (character text)).
Proof. apply says_literal. Qed.

(** ** Alternatives, and parts with commas between them. *)
Lemma says_choice texts Ls : Forall2 says texts Ls -> texts <> [] -> says_any (join (gbnf " | ") texts) (fun E v => Exists (fun L : Meaning => L E v) Ls).
Proof.
  intros HF Hne. pose proof (Forall2_length _ _ _ HF) as Hl. pose proof (says_alternatives known (zip texts Ls)) as W. rewrite fst_zip in W by lia.
  eapply says_any_iff; [apply W|].
  - intros E. by destruct texts, Ls.
  - clear -HF. induction HF; constructor; done.
  - intros E v. clear -HF. cbn. induction HF as [|t L ts Ls Ht HF IH]; [by rewrite !Exists_nil|]. cbn [zip_with]. by rewrite !Exists_cons, IH.
Qed.
Lemma says_union texts Ls : Forall2 says texts Ls -> texts <> [] -> says (union texts) (fun E v => Exists (fun L : Meaning => L E v) Ls).
Proof. intros HF Hne. apply says_group. by apply says_choice. Qed.
Lemma says_in_turn texts Ls : Forall2 says texts Ls -> says (join (gbnf " comma ") texts) (fun E => in_turn E ((fun L : Meaning => L E) <$> Ls)).
Proof.
  induction 1 as [|t L ts Ls Ht HF IH]; [apply says_nil|]. destruct HF as [|t' L' ts Ls Ht' HF]; [done|].
  change (join (gbnf " comma ") (t :: t' :: ts)) with (t ++ gbnf " comma " ++ join (gbnf " comma ") (t' :: ts)).
  change (gbnf " comma ") with (gbnf " " ++ character "comma" ++ gbnf " ") at 1. rewrite <- !app_assoc.
  apply says_app; [done|]. apply says_app; [by apply says_json | done].
Qed.
Lemma items_body items : array_items_body items = join (gbnf " comma ") items.
Proof.
  unfold array_items_body. destruct items as [|x items]; [done|]. cbn [imap]. revert x. induction items as [|y items IH]; intros x; [done|].
  change (join (gbnf " comma ") (x :: y :: items)) with (x ++ gbnf " comma " ++ join (gbnf " comma ") (y :: items)). rewrite <- (IH y).
  cbn [imap]. change (gbnf " comma ") with (gbnf " " ++ gbnf "comma "). cbn [compose]. destruct items as [|z items].
  - cbn [imap join]. by rewrite <- app_assoc.
  - cbn [imap]. cbn [join]. by rewrite <- !app_assoc.
Qed.

(** ** Brackets. *)
Lemma says_enclosed_by (opening closing : string) body L : utf8_valid (character opening) = true -> utf8_valid (character closing) = true -> says body L ->
  says (quoted_literal (character opening) ++ gbnf " space " ++ body ++ gbnf " space " ++ quoted_literal (character closing)) (fun E => enclosed E opening closing (L E)).
Proof.
  intros Ho Hc Hb. change (gbnf " space ") with (gbnf " " ++ character "space" ++ gbnf " "). rewrite <- !app_assoc.
  apply says_app; [by apply says_quoted|]. apply says_app; [by apply says_json|]. apply says_app; [done|]. apply says_app; [by apply says_json | by apply says_quoted].
Qed.
Lemma says_array body L : says body L -> says (gbnf "'[' space " ++ body ++ gbnf " space ']'") (fun E => enclosed E "[" "]" (L E)).
Proof. intros H. exact (says_enclosed_by "[" "]" body L eq_refl eq_refl H). Qed.
Lemma says_object body L : says body L -> says (gbnf "'{' space " ++ body ++ gbnf " space '}'") (fun E => enclosed E "{" "}" (L E)).
Proof. intros H. exact (says_enclosed_by "{" "}" body L eq_refl eq_refl H). Qed.
Lemma says_empty_array : says (gbnf "'[' space space ']'") (fun E => enclosed E "[" "]" (fun v => v = [])).
Proof.
  change (gbnf "'[' space space ']'") with (quoted_literal (character "[") ++ gbnf " " ++ character "space" ++ gbnf " " ++ character "space" ++ gbnf " " ++ quoted_literal (character "]")).
  eapply says_iff; [repeat apply says_app; first [by apply says_quoted | by apply says_json]|]. intros E v. unfold enclosed. cbn.
  do 2 (apply lang_app_iff; [done|]; intros ?). by rewrite lang_app_nil_l.
Qed.
Lemma says_member name text L : utf8_valid name = true -> says text L ->
  says (quoted_literal name ++ gbnf " space ':' space " ++ text) (fun E => lang_app (lit_words name) (lang_app (named E "space") (lang_app (lit_words (character ":")) (lang_app (named E "space") (L E))))).
Proof.
  intros Hn Ht. change (gbnf " space ':' space ") with (gbnf " " ++ character "space" ++ gbnf " " ++ quoted_literal (character ":") ++ gbnf " " ++ character "space" ++ gbnf " ").
  rewrite <- !app_assoc. apply says_app; [by apply says_literal|]. apply says_app; [by apply says_json|]. apply says_app; [by apply says_quoted|]. apply says_app; [by apply says_json | done].
Qed.

(** ** Counted items. *)
Lemma replicate_Forall2 {A B} (P : A -> B -> Prop) k x y : P x y -> Forall2 P (replicate k x) (replicate k y).
Proof. intros Hp. induction k; by constructor. Qed.
Lemma says_counted k item L : says item L -> says (comma_separated k item) (fun E => in_turn E (replicate k (L E))).
Proof.
  intros Hi. change (comma_separated k item) with (array_items_body (replicate k item)). rewrite items_body.
  eapply says_iff; [apply says_in_turn; by apply (replicate_Forall2 says k item L)|]. intros E v. cbv beta. by rewrite fmap_replicate.
Qed.
Lemma in_turn_more E (L : Lang) k n v : (0 < n)%nat ->
  lang_app (in_turn E (replicate n L)) (lang_power (lang_app (named E "comma") L) k) v <-> in_turn E (replicate (n + k) L) v.
Proof.
  revert v. induction n as [|n IH]; intros v Hn; [lia|]. destruct n as [|n].
  - cbn [replicate in_turn Nat.add]. clear IH. revert v. induction k as [|k IHk]; intros v.
    + cbn [lang_power replicate in_turn]. apply lang_app_nil_r.
    + cbn [lang_power replicate in_turn]. apply lang_app_iff; [done|]. intros w. rewrite lang_app_assoc. apply lang_app_iff; [done|]. intros u. apply IHk.
  - change (in_turn E (replicate (S (S n)) L)) with (lang_app L (lang_app (named E "comma") (in_turn E (replicate (S n) L)))).
    change (in_turn E (replicate (S (S n) + k) L)) with (lang_app L (lang_app (named E "comma") (in_turn E (replicate (S n + k) L)))).
    rewrite lang_app_assoc. apply lang_app_iff; [done|]. intros w. rewrite lang_app_assoc. apply lang_app_iff; [done|]. intros u. apply IH. lia.
Qed.
(** The items an array may have behind those it must have. *)
Lemma says_more item L : says item L -> says (gbnf "(comma " ++ item ++ gbnf ")*") (fun E v => exists k, lang_power (lang_app (named E "comma") (L E)) k v).
Proof.
  intros Hi. change (gbnf "(comma ") with (gbnf "(" ++ character "comma" ++ gbnf " "). change (gbnf ")*") with (gbnf ")" ++ print_suffix Star).
  assert ((gbnf "(" ++ character "comma" ++ gbnf " ") ++ item ++ gbnf ")" ++ print_suffix Star = gbnf "(" ++ (character "comma" ++ gbnf " " ++ item) ++ gbnf ")" ++ print_suffix Star) as ->
    by by rewrite <- !app_assoc.
  eapply says_group_repeated; [apply says_alone, says_app; [by apply says_json | exact Hi] | done|]. intros E v. unfold lang_repeat. cbn.
  split; [intros (k & _ & _ & Hk); by exists k | intros (k & Hk); exists k; by split; [lia|]].
Qed.
Lemma says_contents item L minimum maximum : says item L -> lengths_ok minimum maximum = true ->
  says (array_contents item minimum maximum) (fun E v => exists k, number_between minimum maximum k /\ in_turn E (replicate k (L E)) v).
Proof.
  intros Hi Hok. unfold lengths_ok in Hok. rewrite !andb_true_iff, !Z.leb_le in Hok. destruct Hok as [[H0 H1] Hm]. unfold array_contents, number_between, at_most.
  destruct maximum as [m|].
  - rewrite andb_true_iff, !Z.leb_le in Hm. eapply says_iff.
    + apply (says_group known). apply (says_choice _ ((fun k E => in_turn E (replicate k (L E))) <$> seq (Z.to_nat minimum) (S (Z.to_nat m) - Z.to_nat minimum))).
      * induction (seq _ _) as [|k l IH]; constructor; [by apply says_counted | done].
      * replace (S (Z.to_nat m) - Z.to_nat minimum)%nat with (S (Z.to_nat m - Z.to_nat minimum)) by lia. done.
    + intros E v. rewrite Exists_exists. split.
      * intros (? & (k & -> & Hk%elem_of_seq)%list_elem_of_fmap & Hv). exists k. split; [lia|done].
      * intros (k & Hk & Hv). eexists. split; [apply list_elem_of_fmap; exists k; split; [done | apply elem_of_seq; lia] | done].
  - destruct (Z.eqb_spec minimum 0) as [->|Hne].
    + change (gbnf " (comma ") with (gbnf " " ++ gbnf "(comma "). change (gbnf ")*)?") with (gbnf ")*" ++ gbnf ")" ++ print_suffix Optional).
      assert (gbnf "(" ++ item ++ (gbnf " " ++ gbnf "(comma ") ++ item ++ gbnf ")*" ++ gbnf ")" ++ print_suffix Optional
        = gbnf "(" ++ (item ++ gbnf " " ++ (gbnf "(comma " ++ item ++ gbnf ")*")) ++ gbnf ")" ++ print_suffix Optional) as -> by by rewrite <- !app_assoc.
      eapply says_group_repeated; [apply says_alone, says_app; [exact Hi | by apply says_more] | done|]. intros E v. unfold lang_repeat. cbn [suffix_bounds fst snd]. split.
      * intros (k & _ & Hk & Hv). destruct k as [|[|k]]; [exists 0%nat; by split; [lia|]| |lia]. cbn [lang_power] in Hv. apply lang_app_nil_r in Hv as (a & b & -> & Ha & j & Hj).
        exists (S j). split; [lia|]. apply (in_turn_more E (L E) j 1 (a ++ b)); [lia|]. by exists a, b.
      * intros (k & _ & Hv). destruct k as [|k]; [exists 0%nat; by split; [lia|]|]. exists 1%nat. split; [lia|]. split; [lia|]. cbn [lang_power]. apply lang_app_nil_r.
        apply (in_turn_more E (L E) k 1) in Hv; [|lia]. destruct Hv as (a & b & -> & Ha & Hb). exists a, b. by split_and!; [..|exists k].
    + change (gbnf " (comma ") with (gbnf " " ++ gbnf "(comma "). rewrite <- app_assoc. eapply says_iff; [apply says_app; [by apply says_counted | by apply says_more]|].
      intros E v. split.
      * intros (a & b & -> & Ha & k & Hb). exists (Z.to_nat minimum + k)%nat. split; [lia|]. apply in_turn_more; [lia|]. by exists a, b.
      * intros (k & [Hk _] & Hv). replace k with (Z.to_nat minimum + (k - Z.to_nat minimum))%nat in Hv by lia. apply in_turn_more in Hv as (a & b & -> & Ha & Hb); [|lia].
        exists a, b. split_and!; [done..|by eexists].
Qed.

(** ** Strings of a length. *)
Definition length_suffix (minimum : Z) (maximum : option Z) : Suffix :=
  match maximum with Some m => if m =? minimum then Exactly minimum else Between minimum m | None => AtLeast minimum end.
Lemma says_characters minimum maximum : lengths_ok minimum maximum = true ->
  says (gbnf "'\'' json-character" ++ print_suffix (length_suffix minimum maximum) ++ gbnf " '\''")
    (fun E => lang_app (lit_words [x22]) (lang_app (fun v => exists k, number_between minimum maximum k /\ lang_power (named E "json-character") k v) (lit_words [x22]))).
Proof.
  intros Hok. unfold lengths_ok in Hok. rewrite !andb_true_iff, !Z.leb_le in Hok. destruct Hok as [[H0 H1] Hm].
  change (gbnf "'\'' json-character") with (quoted_literal [x22] ++ gbnf " " ++ character "json-character"). change (gbnf " '\''") with (gbnf " " ++ quoted_literal [x22]).
  rewrite <- !app_assoc. apply says_app; [by apply says_literal|]. rewrite app_assoc. apply says_app; [|by apply says_literal].
  apply (says_piece known (Ref (character "json-character"))); [done| |constructor; [|constructor]|].
  - unfold length_suffix. destruct maximum as [m|]; [destruct (Z.eqb_spec m minimum)|]; cbn [suffix_ok]; rewrite ?andb_true_iff, ?Z.leb_le, ?Z.ltb_lt; [lia| |lia].
    rewrite andb_true_iff, !Z.leb_le in Hm. lia.
  - apply Hknown. apply (bool_decide_unpack (character "json-character" ∈ json_names)). vm_compute. done.
  - intros E v. unfold lang_repeat, number_between, at_most, length_suffix. cbn [denote_piece].
    destruct maximum as [m|]; [destruct (Z.eqb_spec m minimum) as [->|]|]; cbn [suffix_bounds fst snd]; split; intros (k & Hk); exists k; tauto.
Qed.
End Phrases.

Lemma as_u64_value z : 0 <= z -> as_u64 (int_value z) = Some z.
Proof. intros Hz. unfold int_value. by rewrite (proj2 (Z.ltb_ge _ _)). Qed.
(** The bounds of a length, as the document has them. *)
Lemma bounds_value kmin kmax doc minimum maximum : get kmin doc = Some (int_value minimum) -> get kmax doc = int_value <$> maximum -> lengths_ok minimum maximum = true ->
  bounds kmin kmax doc = Some (minimum, maximum).
Proof.
  intros E1 E2 Hlen. unfold lengths_ok in Hlen. rewrite !andb_true_iff, !Z.leb_le in Hlen. destruct Hlen as [[H0 H1] Hm]. unfold bounds, get_u64. rewrite E1, E2.
  change (v ← Some (int_value minimum); as_u64 v) with (as_u64 (int_value minimum)). rewrite as_u64_value by done. cbn [from_option id]. rewrite (proj2 (Z.ltb_ge 2000 minimum)) by lia. destruct maximum as [m|]; [|done].
  rewrite andb_true_iff, !Z.leb_le in Hm. change (v ← int_value <$> Some m; as_u64 v) with (as_u64 (int_value m)). rewrite as_u64_value by lia. by rewrite !(proj2 (Z.ltb_ge _ _)) by lia.
Qed.
Lemma string_rule_characters minimum maximum : lengths_ok minimum maximum = true ->
  string_rule (document (Characters minimum maximum)) = Ok (gbnf "'\'' json-character" ++ print_suffix (length_suffix minimum maximum) ++ gbnf " '\''").
Proof.
  intros Hlen. pose proof (bounds_value "minLength" "maxLength" (document (Characters minimum maximum)) minimum maximum eq_refl ltac:(by destruct maximum) Hlen) as E.
  unfold string_rule. rewrite E. replace (has "pattern" (document (Characters minimum maximum)) || has "format" (document (Characters minimum maximum))) with false by (by destruct maximum).
  rewrite andb_false_r. replace (get_str "pattern" (document (Characters minimum maximum))) with (@None str) by (by destruct maximum).
  replace (get_str "format" (document (Characters minimum maximum))) with (@None str) by (by destruct maximum). cbn [ok_or]. cbv beta iota zeta.
  unfold length_suffix. destruct maximum as [m|]; [by destruct (m =? minimum)|done].
Qed.

(** ** The optional members of a mask. *)
Fixpoint pick {A} (f : nat -> bool) (l : list A) : list A :=
  match l with [] => [] | x :: l => (if f 0%nat then [x] else []) ++ pick (fun i => f (S i)) l end.
Lemma pick_imap {A} (f : nat -> bool) (l : list A) : forall g, (forall i, f i = g i) -> (filter (fun p => f p.1 = true) (imap pair l)).*2 = pick g l.
Proof.
  assert (forall (h : nat -> nat) (g : nat -> bool), (forall i, f (h i) = g i) -> (filter (fun p => f p.1 = true) (imap (fun i => pair (h i)) l)).*2 = pick g l) as W; [|by intros g Hg; apply (W id)].
  induction l as [|x l IH]; intros h g Hg; [done|]. cbn [imap pick]. rewrite filter_cons. cbn [fst]. rewrite <- (Hg 0%nat).
  assert ((filter (fun p => f p.1 = true) (imap ((fun i => pair (h i)) ∘ S) l)).*2 = pick (fun i => g (S i)) l) as E by (apply (IH (fun i => h (S i))); intros i; apply Hg).
  case_decide as Hf; [rewrite fmap_cons, E, Hf | rewrite E; apply not_true_is_false in Hf; rewrite Hf]; done.
Qed.
Lemma pick_sublist {A} (f : nat -> bool) (l : list A) : pick f l `sublist_of` l.
Proof. revert f. induction l as [|x l IH]; intros f; cbn [pick]; [done|]. destruct (f 0%nat); cbn [app]; by constructor. Qed.
Lemma sublist_pick {A} (sub l : list A) : sub `sublist_of` l -> exists mask, (mask < 2 ^ length l)%nat /\ sub = pick (Nat.testbit mask) l.
Proof.
  assert (forall (f g : nat -> bool) (l : list A), (forall i, f i = g i) -> pick f l = pick g l) as Hext.
  { intros f g l'. revert f g. induction l' as [|x l' IH]; intros f g Hfg; cbn [pick]; [done|]. rewrite Hfg. f_equal. apply IH. intros i. apply Hfg. }
  induction 1 as [|x sub l Hs (mask & Hm & ->)|x sub l Hs (mask & Hm & ->)].
  - exists 0%nat. split; [cbn; lia | done].
  - exists (2 * mask + 1)%nat. cbn [length Nat.pow]. split; [lia|]. cbn [pick]. rewrite Nat.testbit_odd_0. cbn [app]. f_equal. apply Hext. intros i. by rewrite Nat.testbit_odd_succ by lia.
  - exists (2 * mask)%nat. cbn [length Nat.pow]. split; [lia|]. cbn [pick]. rewrite Nat.testbit_even_0. cbn [app]. apply Hext. intros i. by rewrite Nat.testbit_even_succ by lia.
Qed.
Lemma Forall2_pick {A B} (P : A -> B -> Prop) f l k : Forall2 P l k -> Forall2 P (pick f l) (pick f k).
Proof. intros HF. revert f. induction HF; intros f; cbn [pick]; [constructor|]. apply Forall2_app; [destruct (f 0%nat); by repeat constructor | done]. Qed.
Lemma pick_fmap {A B} (g : A -> B) f l : g <$> pick f l = pick f (g <$> l).
Proof. revert f. induction l as [|x l IH]; intros f; cbn [pick fmap list_fmap]; [done|]. rewrite fmap_app, IH. by destruct (f 0%nat). Qed.
(** The alternatives of a closed object: one for each choice of the optional members. *)
Lemma says_members (known : str -> Prop) (Hknown : forall name, name ∈ json_names -> known name) required optional Rs Os :
  Forall2 (says known) required Rs -> Forall2 (says known) optional Os ->
  says known (gbnf "(" ++ join (gbnf " | ") ((fun mask => gbnf "'{' space " ++ object_body None (select_members required optional mask) ++ gbnf " space '}'") <$> seq 0 (2 ^ length optional)) ++ gbnf ")")
    (fun E => enclosed E "{" "}" (fun v => exists present, present `sublist_of` ((fun L : Meaning => L E) <$> Os) /\ in_turn E (((fun L : Meaning => L E) <$> Rs) ++ present) v)).
Proof.
  intros HR HO. pose proof (Forall2_length _ _ _ HO) as Hl.
  set (Ls := (fun mask E => enclosed E "{" "}" (in_turn E ((fun L : Meaning => L E) <$> Rs ++ pick (Nat.testbit mask) Os))) <$> seq 0 (2 ^ length optional)).
  eapply says_iff; [apply (says_union known _ Ls)|].
  - unfold Ls. induction (seq 0 _) as [|mask l IH]; constructor; [|done]. apply says_object; [done|]. unfold object_body, select_members.
    rewrite (pick_imap (Nat.testbit mask) optional (Nat.testbit mask)) by done. apply says_in_turn; [done|]. apply Forall2_app; [done | by apply Forall2_pick].
  - pose proof (Nat.pow_nonzero 2 (length optional)) as Hp. destruct (2 ^ length optional)%nat; [lia|done].
  - intros E v. rewrite Exists_exists. unfold Ls, enclosed. split.
    + intros (? & (mask & -> & _)%list_elem_of_fmap & Hv). revert Hv. cbv beta. rewrite fmap_app, pick_fmap. intros (a & b & -> & Ha & c & d & -> & Hc & e & f & -> & He & Hf).
      exists a, (c ++ e ++ f). split; [done|]. split; [done|]. exists c, (e ++ f). split; [done|]. split; [done|]. exists e, f. split; [done|]. split; [|done].
      eexists. split; [apply pick_sublist|exact He].
    + intros (a & b & -> & Ha & c & d & -> & Hc & e & f & -> & (present & Hs & He) & Hf). apply sublist_pick in Hs as (mask & Hm & ->). rewrite length_fmap, <- Hl in Hm.
      eexists. split; [apply list_elem_of_fmap; exists mask; split; [done | apply elem_of_seq; lia]|]. cbv beta. rewrite fmap_app, pick_fmap.
      exists a, (c ++ e ++ f). split; [done|]. split; [done|]. exists c, (e ++ f). split; [done|]. split; [done|]. by exists e, f.
Qed.

(** ** Integers. *)
Lemma writes_says known text P : writes text P -> says_any known text (fun _ => text_words P).
Proof. intros (e & He & H2 & H3 & H4). exists e. split_and!; [done..| |done]. eapply Forall_impl; [exact H3|]. by intros name []. Qed.
Definition no_character_class : Piece := Class true [span "\U00000000" 0 "\uD7FF" 0xD7FF; span "\uE000" 0xE000 "\U0010FFFF" 0x10FFFF].
Lemma says_nothing known : says known NOTHING (fun _ => no_character).
Proof.
  pose proof (says_piece known no_character_class Once (fun _ => no_character) eq_refl eq_refl) as W.
  change (print_piece no_character_class ++ print_suffix Once) with NOTHING in W. apply W; [constructor|]. intros E v. rewrite lang_repeat_once.
  unfold no_character, no_character_class. cbn [denote_piece]. unfold in_class, matches.
  assert (forall c, CharSet_matches (mkCharSet true (entry_range <$> [span "\U00000000" 0 "\uD7FF" 0xD7FF; span "\uE000" 0xE000 "\U0010FFFF" 0x10FFFF])) c = negb (is_scalar c)) as Hc.
  { intros c. unfold CharSet_matches, is_scalar. cbn. by rewrite orb_false_r, xorb_true_r. }
  split.
  - intros (i & -> & Hi). destruct i as [c|]; [|done]. rewrite Hc in Hi. exists c. split; [done|]. by apply negb_true_iff.
  - intros (c & -> & Hs). exists (IChar c). split; [done|]. by rewrite Hc, Hs.
Qed.
Lemma as_i64_value z : z <= I64_MAX -> as_i64 (int_value z) = Some z.
Proof. intros Hz. unfold int_value, as_i64. destruct (z <? 0); [done|]. by rewrite (proj2 (Z.leb_le _ _)). Qed.
Lemma integer_document_bounds minimum maximum : fits_i64 minimum = true -> fits_i64 maximum = true ->
  existsb (fun keyword => match get keyword (document (Integer minimum maximum)) with Some v => bool_decide (as_i64 v = None) | None => false end) BOUND_KEYWORDS = false
  /\ integer_minimum (document (Integer minimum maximum)) = minimum /\ integer_maximum (document (Integer minimum maximum)) = maximum.
Proof.
  intros Ha Hb. assert (forall o, fits_i64 o = true -> match o with Some z => z <= I64_MAX | None => True end) as Hfit.
  { intros [z|]; [|done]. cbn. rewrite andb_true_iff, !Z.leb_le. lia. }
  apply Hfit in Ha, Hb. set (doc := document (Integer minimum maximum)).
  assert (get "minimum" doc = int_value <$> minimum) as E1 by (by destruct minimum, maximum).
  assert (get "maximum" doc = int_value <$> maximum) as E2 by (by destruct minimum, maximum).
  assert (get "exclusiveMinimum" doc = None) as E3 by (by destruct minimum, maximum).
  assert (get "exclusiveMaximum" doc = None) as E4 by (by destruct minimum, maximum).
  unfold integer_minimum, integer_maximum, get_i64. cbn [existsb BOUND_KEYWORDS]. rewrite E1, E2, E3, E4.
  assert (forall o, match o with Some z => z <= I64_MAX | None => True end -> (v ← int_value <$> o; as_i64 v) = o) as Has.
  { intros [z|] Hz; [|done]. cbn. by apply as_i64_value. }
  assert (forall o, match o with Some z => z <= I64_MAX | None => True end -> match int_value <$> o with Some v => bool_decide (as_i64 v = None) | None => false end = false) as Hn.
  { intros [z|] Hz; [|done]. cbn [fmap option_fmap option_map]. rewrite as_i64_value by done. by apply bool_decide_eq_false_2. }
  rewrite !Hn, !Has by done. split; [done|]. by destruct minimum, maximum.
Qed.
Lemma ordered_in_order minimum maximum : ordered minimum maximum = true -> in_order minimum maximum.
Proof. destruct minimum, maximum; try done. apply Z.leb_le. Qed.
Lemma says_integer known minimum maximum : (forall name, name ∈ json_names -> known name) ->
  fits_i64 minimum = true -> fits_i64 maximum = true -> negb (ordered minimum maximum) || within_digits minimum maximum = true ->
  exists text, integer_rule (document (Integer minimum maximum)) = Ok text /\ says known text (fun E => integer_words E minimum maximum).
Proof.
  intros Hknown Ha Hb Hok. destruct (integer_document_bounds minimum maximum Ha Hb) as (E1 & E2 & E3). unfold integer_rule. rewrite E1, E2, E3.
  assert (match minimum, maximum with Some a, Some b => b <? a | _, _ => false end = negb (ordered minimum maximum)) as ->.
  { destruct minimum as [a|], maximum as [b|]; try done. cbn. by rewrite Z.leb_antisym, negb_involutive. }
  unfold integer_words. destruct (ordered minimum maximum) eqn:Eo; cbn [negb orb] in Hok |- *.
  - apply ordered_in_order in Eo. destruct (bounded_integer_text minimum maximum Eo Hok) as (text & -> & W). apply (writes_says known), says_group in W.
    destruct minimum, maximum; [eexists; by split..|]. exists (gbnf "integer"). split; [done|]. by apply (says_json known Hknown "integer").
  - destruct minimum, maximum; [exists NOTHING; split; [done|]; apply says_nothing|done..].
Qed.
