(* ===== verification/SchemaCompiler.v ===== *)
(** * The schema compiler is correct.

    Every schema of the specified shapes compiles; the parser accepts the text, and the grammar's
    language is the one the shape describes. *)
From Stdlib Require Import Strings.Byte.
From stdpp Require Import fin_maps.
From S2P Require Import Prelude Utf8 Utf8Scalar Substring Grammar GrammarParser GrammarLanguage Schema SchemaDecimal GbnfSyntax GbnfReading GbnfRules JsonRules.
From S2P Require Import SchemaText SchemaRanges SchemaShape SchemaDocs SchemaPhrases.

(** ** Ordered names. *)
Lemma str_ltb_irrefl a : str_ltb a a = false.
Proof. induction a as [|x a IH]; [done|]. cbn. by rewrite Z.ltb_irrefl, Z.eqb_refl, IH. Qed.
Lemma str_ltb_trans a : forall b c, str_ltb a b = true -> str_ltb b c = true -> str_ltb a c = true.
Proof.
  induction a as [|x a IH]; intros [|y b] [|z c]; cbn; try done. rewrite !orb_true_iff, !andb_true_iff, !Z.ltb_lt, !Z.eqb_eq.
  intros [H1|[H1 H2]] [H3|[H3 H4]]; [left; lia..|]. right. split; [lia|]. by apply (IH b).
Qed.
Lemma str_ltb_total a : forall b, str_ltb a b = false -> a <> b -> str_ltb b a = true.
Proof.
  induction a as [|x a IH]; intros [|y b]; cbn; try done. rewrite !orb_false_iff, !orb_true_iff, !andb_true_iff, !andb_false_iff, !Z.ltb_lt, !Z.ltb_ge, !Z.eqb_eq, Z.eqb_neq.
  intros [H1 H2] Hne. destruct (Z.eq_dec (Z_of_byte x) (Z_of_byte y)) as [E|]; [|left; lia]. right. split; [done|]. apply IH; [by destruct H2|].
  intros ->. apply Hne. f_equal. rewrite <- (byte_of_Z_of_byte x), <- (byte_of_Z_of_byte y). by f_equal.
Qed.
Definition before {A} (x y : str * A) : Prop := str_ltb x.1 y.1 = true.
Definition in_name_order {A} (m : list (str * A)) : Prop := StronglySorted before m.
Lemma btree_insert_spec {A} (key : str) (value : A) m : in_name_order m ->
  in_name_order (btree_insert key value m) /\ (forall k v, (k, v) ∈ btree_insert key value m <-> (k = key /\ v = value) \/ (k <> key /\ (k, v) ∈ m)).
Proof.
  induction m as [|[k0 v0] m IH]; intros Hs.
  - cbn. split; [repeat constructor|]. intros k v. rewrite list_elem_of_singleton, elem_of_nil. split; [intros [= -> ->]; by left | intros [[-> ->]|[_ []]]; done].
  - inversion Hs as [|? ? Hm Hk]; subst. rewrite Forall_forall in Hk. cbn [btree_insert]. case_bool_decide as E; [subst k0|destruct (str_ltb key k0) eqn:El].
    + split.
      * constructor; [done|]. by apply Forall_forall.
      * intros k v. rewrite !elem_of_cons. split.
        -- intros [[= -> ->]|Hin]; [by left|]. right. split; [|by right]. intros ->. specialize (Hk _ Hin). unfold before in Hk. cbn in Hk. by rewrite str_ltb_irrefl in Hk.
        -- intros [[-> ->]|[Hne [[= -> ->]|Hin]]]; [by left|done|by right].
    + split.
      * constructor; [done|]. constructor; [done|]. apply Forall_forall. intros x Hx. apply (str_ltb_trans _ k0); [done | by apply Hk].
      * intros k v. rewrite !elem_of_cons. split.
        -- intros [[= -> ->]|Hin]; [by left|]. right. split; [|done]. intros ->. destruct Hin as [[= -> _]|Hin]; [done|].
           specialize (Hk _ Hin). unfold before in Hk. cbn in Hk. pose proof (str_ltb_trans _ _ _ El Hk) as Hc. by rewrite str_ltb_irrefl in Hc.
        -- intros [[-> ->]|[Hne Hin]]; [by left | by right].
    + destruct (IH Hm) as [Hs' Hin']. assert (str_ltb k0 key = true) as Hlt by (apply str_ltb_total; [done | by intros ->]). split.
      * constructor; [done|]. apply Forall_forall. intros [k v] Hx%Hin'. unfold before. cbn. destruct Hx as [[-> ->]|[_ Hx]]; [done | by apply (Hk _ Hx)].
      * intros k v. rewrite !elem_of_cons, Hin'. split.
        -- intros [[= -> ->]|[H|[Hne H]]]; [right; split; [by intros ->|by left] | by left | right; split; [done | by right]].
        -- intros [H|[Hne [[= -> ->]|H]]]; [by right; left | by left | by right; right].
Qed.
Lemma name_order_nodup {A} (m : list (str * A)) : in_name_order m -> NoDup m.*1.
Proof.
  induction 1 as [|[k v] m Hm IH Hk]; [constructor|]. rewrite fmap_cons. constructor; [|done]. intros ((k' & v') & E & Hin)%list_elem_of_fmap.
  rewrite Forall_forall in Hk. specialize (Hk _ Hin). unfold before in Hk. cbn in Hk, E. subst k'. by rewrite str_ltb_irrefl in Hk.
Qed.

(** The names of references. *)
Lemma schema_ref_ok k : 0 <= k < 10 ^ 20 -> name_ok (schema_ref k) = true.
Proof.
  intros Hk. destruct (to_decimal_spec k Hk) as (Hd & _). unfold name_ok, schema_ref. rewrite !andb_true_iff. split_and!.
  - apply bool_decide_eq_true. by change (gbnf "schema-ref-") with (string_bytes "schema-ref-").
  - rewrite forallb_app. apply andb_true_iff. split; [done|]. apply forallb_forall. intros b Hb%list_elem_of_In. unfold digits_only in Hd. rewrite Forall_forall in Hd.
    specialize (Hd b Hb). destruct b; try discriminate Hd; reflexivity.
  - done.
Qed.
Lemma schema_ref_inj a b : 0 <= a < 10 ^ 20 -> 0 <= b < 10 ^ 20 -> schema_ref a = schema_ref b -> a = b.
Proof.
  intros Ha Hb E%app_inv_head. destruct (to_decimal_spec a Ha) as (_ & Va & _), (to_decimal_spec b Hb) as (_ & Vb & _). congruence.
Qed.
Lemma schema_ref_fresh k : schema_ref k ∉ json_names /\ schema_ref k <> character "root".
Proof.
  split; [|done]. intros Hin. assert (Forall (fun t => take 11 t <> gbnf "schema-ref-") json_names) as Hall.
  { apply (bool_decide_unpack (Forall (fun t => take 11 t <> gbnf "schema-ref-") json_names)). vm_compute. done. }
  rewrite Forall_forall in Hall. exact (Hall _ Hin eq_refl).
Qed.

(** ** The state of the builder. *)
Section Correct.
Context `{JsonText} (defs : list (str * Shape)) (root : Value).
Context (Hdefs : definitions_ok defs = true).
Context (Hroot : forall d, d ∈ defs -> resolve_local_reference root (definition_reference d.1) = Ok (document d.2)).
(** The names that may be used once the references have names [F], and what a shape says then. *)
Definition known (F : gmap str str) (name : str) : Prop := name ∈ json_names \/ exists ref, F !! ref = Some name.
Definition meaning (F : gmap str str) (s : Shape) : Meaning := fun E => words E (fun ref => E (default [] (F !! ref))) s.
Definition resolved (F : gmap str str) (names : list str) : Prop := Forall (fun name => is_Some (F !! definition_reference name)) names.
Definition means (F : gmap str str) (s : Shape) (text : str) : Prop := says (known F) text (meaning F s) /\ resolved F (uses s).
(** What holds of a builder: every reference has a rule of its own, which means its target unless
    it is still [open]. *)
Record inv (open : gset str) (b : SchemaGrammar) : Prop := {
  inv_root : root_schema b = root;
  inv_order : in_name_order (sg_rules b);
  inv_next : next b = Z.of_nat (size (refs b));
  inv_refs ref name : refs b !! ref = Some name -> exists d k text, d ∈ defs /\ ref = definition_reference d.1 /\ 0 <= k < next b /\ name = schema_ref k /\
    (name, text) ∈ sg_rules b /\ (ref ∈ open \/ forall F, refs b ⊆ F -> means F d.2 text);
  inv_inj r1 r2 name : refs b !! r1 = Some name -> refs b !! r2 = Some name -> r1 = r2;
  inv_rules name text : (name, text) ∈ sg_rules b -> exists ref, refs b !! ref = Some name;
}.
Lemma inv_size open b : inv open b -> (size (refs b) <= length defs)%nat.
Proof.
  intros Hb. rewrite <- (length_fmap (fun d => definition_reference d.1) defs), <- size_dom.
  transitivity (size (list_to_set ((fun d => definition_reference d.1) <$> defs) : gset str)).
  - apply subseteq_size. intros ref (name & Href)%elem_of_dom. destruct (inv_refs _ _ Hb _ _ Href) as (d & _ & _ & Hd & -> & _).
    apply elem_of_list_to_set, list_elem_of_fmap. by exists d.
  - clear. induction (_ <$> _) as [|x l IH]; [done|]. cbn [list_to_set length]. pose proof (size_union_alt {[x]} (list_to_set l : gset str)) as E.
    rewrite E, size_singleton. pose proof (subseteq_size (list_to_set l ∖ {[x]} : gset str) (list_to_set l) ltac:(set_solver)). lia.
Qed.
Lemma inv_bound open b : inv open b -> 0 <= next b < 2 ^ 64.
Proof.
  intros Hb. rewrite (inv_next _ _ Hb). pose proof (inv_size _ _ Hb). unfold definitions_ok in Hdefs. rewrite !andb_true_iff, Z.ltb_lt in Hdefs. lia.
Qed.

(** A compilation: what its result satisfies for every way the references may be named in the end. *)
Definition compiles {A : Type} (open : gset str) (b : SchemaGrammar) (r : checked (A * SchemaGrammar)) (Q : gmap str str -> A -> Prop) : Prop :=
  exists a b', r = Ok (a, b') /\ refs b ⊆ refs b' /\ inv open b' /\ forall F, refs b' ⊆ F -> Q F a.
Lemma compiles_return {A : Type} (open : gset str) (b : SchemaGrammar) (a : A) Q : inv open b -> (forall F, refs b ⊆ F -> Q F a) -> compiles open b (Ok (a, b)) Q.
Proof. intros Hb HQ. by exists a, b. Qed.
Lemma compiles_bind {A B : Type} (open : gset str) (b : SchemaGrammar) (r : checked (A * SchemaGrammar)) (f : A -> SchemaGrammar -> checked (B * SchemaGrammar)) Q Q' :
  compiles open b r Q -> (forall a b', refs b ⊆ refs b' -> inv open b' -> (forall F, refs b' ⊆ F -> Q F a) -> compiles open b' (f a b') Q') ->
  compiles open b (let? (a, b') := r in f a b') Q'.
Proof.
  intros (a & b' & -> & Hsub & Hb' & HQ) Hf. destruct (Hf a b' Hsub Hb' HQ) as (c & b'' & E & Hsub' & Hb'' & HQ'). exists c, b''. split; [exact E|].
  split; [by etrans|]. by split.
Qed.
Lemma compiles_iff {A : Type} (open : gset str) (b : SchemaGrammar) (r : checked (A * SchemaGrammar)) (Q Q' : gmap str str -> A -> Prop) : compiles open b r Q -> (forall F a, Q F a -> Q' F a) -> compiles open b r Q'.
Proof. intros (a & b' & E & Hsub & Hb & HQ) H'. exists a, b'. split_and!; [done..|]. intros F HF. by apply H', HQ. Qed.

(** The definitions without a rule yet: how much there is left to do. *)
Definition todo (b : SchemaGrammar) : nat :=
  sum_list ((fun d => if decide (refs b !! definition_reference d.1 = None) then S (depth d.2) else 0%nat) <$> defs).
Lemma todo_mono b b' : refs b ⊆ refs b' -> (todo b' <= todo b)%nat.
Proof.
  intros Hsub. unfold todo. clear Hroot Hdefs. induction defs as [|d l IH]; [done|]. rewrite !fmap_cons. cbn [sum_list sum_list_with]. apply Nat.add_le_mono; [|exact IH].
  cbn. destruct (decide (refs b' !! _ = None)) as [E'|]; [|lia]. destruct (decide (refs b !! _ = None)) as [|[name En]%not_eq_None_Some]; [done|].
  pose proof (lookup_weaken _ _ _ _ En Hsub). congruence.
Qed.
Lemma definition_unique d d' : d ∈ defs -> d' ∈ defs -> definition_reference d.1 = definition_reference d'.1 -> d = d'.
Proof.
  intros Hd Hd' E%app_inv_head. unfold definitions_ok in Hdefs. rewrite !andb_true_iff in Hdefs. destruct Hdefs as [[[Hnd%bool_decide_eq_true _] _] _].
  apply list_elem_of_lookup in Hd as [i Hi], Hd' as [j Hj]. assert (i = j) as <-; [|congruence].
  apply (NoDup_lookup defs.*1 i j d.1 Hnd); rewrite list_lookup_fmap; [by rewrite Hi | by rewrite Hj, E].
Qed.
(** A reference that is met for the first time. *)
Definition with_reference (ref : str) (b : SchemaGrammar) : SchemaGrammar :=
  mkSchemaGrammar (btree_insert (schema_ref (next b)) [] (sg_rules b)) (next b + 1) (root_schema b) (<[ref := schema_ref (next b)]> (refs b)).
Lemma todo_reference d b : d ∈ defs -> refs b !! definition_reference d.1 = None ->
  (S (depth d.2) + todo (with_reference (definition_reference d.1) b) <= todo b)%nat.
Proof.
  intros Hd Hnone. assert (refs b ⊆ refs (with_reference (definition_reference d.1) b)) as Hsub by by apply insert_subseteq.
  unfold todo. clear Hroot Hdefs. induction defs as [|d0 l IH]; [by apply elem_of_nil in Hd|]. apply elem_of_cons in Hd as [<-|Hd]; [clear IH|specialize (IH Hd)].
  - rewrite !fmap_cons. cbn [sum_list sum_list_with]. destruct (decide (refs b !! _ = None)); [|done]. cbn [with_reference refs].
    rewrite lookup_insert_eq. destruct (decide (Some _ = None)); [done|]. cbn.
    apply le_n_S, Nat.add_le_mono_l. induction l as [|d' l IH]; [done|]. rewrite !fmap_cons. cbn [sum_list sum_list_with]. apply Nat.add_le_mono; [|exact IH]. cbn.
    destruct (decide (<[_ := _]> (refs b) !! _ = None)) as [E|]; [|lia]. apply lookup_insert_None in E as [E _]. destruct (decide (refs b !! _ = None)); [lia|done].
  - rewrite !fmap_cons. cbn [sum_list sum_list_with].
    assert ((if decide (refs (with_reference (definition_reference d.1) b) !! definition_reference d0.1 = None) then S (depth d0.2) else 0)
      <= (if decide (refs b !! definition_reference d0.1 = None) then S (depth d0.2) else 0))%nat.
    { destruct (decide (refs (with_reference _ b) !! _ = None)) as [E|]; [|lia]. destruct (decide (refs b !! _ = None)) as [|[name En]%not_eq_None_Some]; [done|].
      pose proof (lookup_weaken _ _ _ _ En Hsub). congruence. }
    cbn in *. lia.
Qed.
Lemma inv_with_reference open b d : inv open b -> d ∈ defs -> refs b !! definition_reference d.1 = None ->
  inv ({[definition_reference d.1]} ∪ open) (with_reference (definition_reference d.1) b).
Proof.
  intros Hb Hd Hnone. pose proof (inv_bound _ _ Hb) as Hn. destruct (btree_insert_spec (schema_ref (next b)) [] (sg_rules b) (inv_order _ _ Hb)) as [Hs Hin].
  assert (forall ref k, refs b !! ref = Some (schema_ref k) -> 0 <= k < 10 ^ 20 -> k < next b) as Hold.
  { intros ref k Hr Hk. destruct (inv_refs _ _ Hb _ _ Hr) as (_ & k' & _ & _ & _ & Hk' & E%schema_ref_inj & _); lia. }
  split; cbn [with_reference sg_rules next root_schema refs].
  - apply Hb.
  - exact Hs.
  - rewrite map_size_insert_None, (inv_next _ _ Hb) by done. lia.
  - intros ref name [[<- <-]|[Hne Hr]]%lookup_insert_Some.
    + exists d, (next b), []. split_and!; try done; [lia..| |left; set_solver]. apply Hin. by left.
    + destruct (inv_refs _ _ Hb _ _ Hr) as (d' & k & text & H1 & H2 & H3 & -> & H5 & H6). exists d', k, text. split_and!; try done; [lia..| |].
      * apply Hin. right. split; [|done]. intros E%schema_ref_inj; lia.
      * destruct H6 as [H6|H6]; [left; set_solver | right]. intros F HF. apply H6. etrans; [|exact HF]. by apply insert_subseteq.
  - intros r1 r2 name [[<- <-]|[Hn1 H1]]%lookup_insert_Some [[<- E]|[Hn2 H2]]%lookup_insert_Some; [done| | |by apply (inv_inj _ _ Hb r1 r2 name)].
    + apply Hold in H2; lia.
    + subst name. apply Hold in H1; lia.
  - intros name text [[-> ->]|[Hne H1]]%Hin; [exists (definition_reference d.1); by rewrite lookup_insert_eq|].
    destruct (inv_rules _ _ Hb _ _ H1) as [ref Hr]. exists ref. rewrite lookup_insert_ne; [done|]. intros <-. congruence.
Qed.
Lemma inv_close open b d name text : inv ({[definition_reference d.1]} ∪ open) b -> d ∈ defs -> refs b !! definition_reference d.1 = Some name ->
  (forall F, refs b ⊆ F -> means F d.2 text) -> inv open (insert_rule name text b).
Proof.
  intros Hb Hd Hname Hm. destruct (btree_insert_spec name text (sg_rules b) (inv_order _ _ Hb)) as [Hs Hin].
  split; cbn [insert_rule sg_rules next root_schema refs]; [apply Hb|exact Hs|apply Hb| |apply Hb|].
  - intros ref name' Hr. destruct (inv_refs _ _ Hb _ _ Hr) as (d' & k & text' & H1 & H2 & H3 & H4 & H5 & H6). destruct (decide (ref = definition_reference d.1)) as [E|Hne].
    + rewrite E, Hname in Hr. injection Hr as <-. exists d, k, text. split_and!; try done; [lia..|apply Hin; by left | by right].
    + exists d', k, text'. split_and!; try done; [lia..| |].
      * apply Hin. right. split; [|done]. intros ->. apply Hne. by apply (inv_inj _ _ Hb _ _ name).
      * destruct H6 as [H6|H6]; [left; set_solver | by right].
  - intros name' text' [[-> ->]|[Hne H1]]%Hin; [by exists (definition_reference d.1) | by apply (inv_rules _ _ Hb name' text')].
Qed.

(** ** Each construct. *)
Lemma known_json F name : name ∈ json_names -> known F name.
Proof. by left. Qed.
Lemma compile_all_means rule open l : forall b, inv open b ->
  (forall s b', s ∈ l -> refs b ⊆ refs b' -> inv open b' -> compiles open b' (rule (document s) b') (fun F => means F s)) ->
  compiles open b (compile_all rule (document <$> l) b) (fun F texts => Forall2 (means F) l texts).
Proof.
  induction l as [|s l IH]; intros b Hb Hrule; [apply compiles_return; [done | constructor]|]. rewrite fmap_cons. cbn [compile_all].
  eapply compiles_bind; [apply Hrule; [apply elem_of_cons; by left | done | done]|]. intros text b1 Hsub1 Hb1 Ht.
  eapply compiles_bind; [apply IH; [done|]|].
  - intros s' b' Hs' Hsub' Hb'. apply Hrule; [apply elem_of_cons; by right | by etrans | done].
  - intros texts b2 Hsub2 Hb2 Hts. apply compiles_return; [done|]. intros F HF. constructor; [apply Ht; by etrans | by apply Hts].
Qed.
(** A member of an object that has been compiled. *)
Definition member_means (F : gmap str str) (m : bool * str * Shape) (out : bool * str) : Prop :=
  out.1 = m.1.1 /\ says (known F) out.2 (fun E => member_words E m.1.2 (meaning F m.2 E)) /\ resolved F (uses m.2).
Lemma object_members_means rule open required l : forall b, inv open b ->
  Forall (fun m : bool * str * Shape => utf8_valid (to_json (VString m.1.2)) = true /\ bool_decide (m.1.2 ∈ required) = m.1.1) l ->
  (forall m b', m ∈ l -> refs b ⊆ refs b' -> inv open b' -> compiles open b' (rule (document m.2) b') (fun F => means F m.2)) ->
  compiles open b (object_members rule required ((fun m => (m.1.2, document m.2)) <$> l) b) (fun F outs => Forall2 (member_means F) l outs).
Proof.
  induction l as [|m l IH]; intros b Hb Hl Hrule; [apply compiles_return; [done | constructor]|]. rewrite fmap_cons. cbn [object_members].
  apply Forall_cons in Hl as [[Hv Hreq] Hl].
  eapply compiles_bind; [apply Hrule; [apply elem_of_cons; by left | done | done]|]. intros text b1 Hsub1 Hb1 Ht. cbv beta iota zeta.
  eapply compiles_bind; [apply IH; [done|done|]|].
  - intros s' b' Hs' Hsub' Hb'. apply Hrule; [apply elem_of_cons; by right | by etrans | done].
  - intros texts b2 Hsub2 Hb2 Hts. apply compiles_return; [done|]. intros F HF. constructor; [|by apply Hts]. destruct (Ht F) as [Hsays Hres]; [by etrans|].
    split; [done|]. split; [|done]. cbn [snd]. by apply says_member; [apply known_json|..].
Qed.
Lemma union_means F l texts : Forall2 (means F) l texts -> l <> [] -> says (known F) (union texts) (fun E v => Exists (fun s => meaning F s E v) l).
Proof.
  intros HF Hne. eapply says_iff; [apply (says_union (known F) texts (meaning F <$> l))|].
  - clear Hne. induction HF as [|s text l texts [Hs _] HF IH]; by constructor.
  - by destruct HF.
  - intros E v. by rewrite Exists_fmap.
Qed.
Lemma array_means F l texts : Forall2 (means F) l texts -> says (known F) (join (gbnf " comma ") texts) (fun E => in_turn E ((fun s => meaning F s E) <$> l)).
Proof.
  intros HF. eapply says_iff; [apply (says_in_turn (known F) (known_json F) texts (meaning F <$> l))|].
  - induction HF as [|s text l texts [Hs _] HF IH]; by constructor.
  - intros E v. cbv beta. by rewrite <- list_fmap_compose.
Qed.
Lemma resolved_parts F l texts : Forall2 (means F) l texts -> resolved F (mjoin (uses <$> l)).
Proof. induction 1 as [|s text l texts [_ Hs] HF IH]; [constructor|]. rewrite fmap_cons, mjoin_cons. by apply Forall_app. Qed.
Lemma resolved_members F l outs : Forall2 (member_means F) l outs -> resolved F (mjoin ((fun m => uses m.2) <$> l)).
Proof. induction 1 as [|m out l outs (_ & _ & Hs) HF IH]; [constructor|]. rewrite fmap_cons, mjoin_cons. by apply Forall_app. Qed.
Lemma means_simple F s text : says (known F) text (meaning F s) -> uses s = [] -> means F s text.
Proof. intros Hs E. split; [done|]. rewrite E. constructor. Qed.
Lemma words_any_of E R one l v : words E R (AnyOf one l) v <-> Exists (fun s => words E R s v) l.
Proof. cbn [words]. induction l as [|s l IH]; [by rewrite Exists_nil|]. cbn [foldr]. by rewrite Exists_cons, IH. Qed.

(** ** Each shape, when its parts compile. *)
Section Step.
Context (fuel : nat) (open : gset str).
Local Abbreviation rule := (schema_rule fuel).
Local Abbreviation ok := (shape_ok defs.*1).
Context (Hrule : forall s open b, ok s = true -> inv open b -> (depth s + todo b <= fuel)%nat -> compiles open b (rule (document s) b) (fun F => means F s)).
Lemma compile_parts l b : inv open b -> forallb ok l = true -> (max_list (depth <$> l) + todo b <= fuel)%nat ->
  compiles open b (compile_all rule (document <$> l) b) (fun F texts => Forall2 (means F) l texts).
Proof.
  intros Hb Hok Hd. apply compile_all_means; [done|]. intros s b' Hs Hsub Hb'. rewrite forallb_forall in Hok. apply Hrule; [by apply Hok, list_elem_of_In | done|].
  pose proof (todo_mono b b' Hsub). pose proof (max_list_elem_of_le (depth s) (depth <$> l) ltac:(by apply list_elem_of_fmap_2)). lia.
Qed.
Lemma compile_any_of one l b : inv open b -> ok (AnyOf one l) = true -> (depth (AnyOf one l) + todo b <= S fuel)%nat ->
  compiles open b (schema_object_rule rule (document (AnyOf one l)) b) (fun F => means F (AnyOf one l)).
Proof.
  intros Hb Hok Hd. cbn [shape_ok depth] in Hok, Hd. apply andb_true_iff in Hok as [Hne Hok]. rewrite rule_any_of. eapply compiles_bind; [apply compile_parts; [done|done|lia]|].
  intros texts b' Hsub Hb' Ht. apply compiles_return; [done|]. intros F HF. split; [|by apply (resolved_parts F l texts), Ht].
  eapply says_iff; [apply union_means; [by apply Ht | by intros ->]|]. intros E v. unfold meaning. by rewrite words_any_of.
Qed.
Lemma compile_types kinds b : inv open b -> ok (Types kinds) = true -> (depth (Types kinds) + todo b <= S fuel)%nat ->
  compiles open b (schema_object_rule rule (document (Types kinds)) b) (fun F => means F (Types kinds)).
Proof.
  intros Hb Hok Hd. cbn [shape_ok depth] in Hok, Hd. rewrite rule_types by (by intros ->). rewrite list_fmap_compose.
  eapply compiles_bind; [apply compile_parts; [done| |]|].
  - clear. induction kinds as [|k kinds IH]; [done|]. rewrite fmap_cons. cbn [forallb]. by rewrite IH.
  - assert (max_list (depth <$> (Basic <$> kinds)) <= 1)%nat; [|lia]. clear. induction kinds as [|k kinds IH]; cbn in *; lia.
  - intros texts b' Hsub Hb' Ht. apply compiles_return; [done|]. intros F HF. apply means_simple; [|done]. eapply says_iff; [apply union_means; [by apply Ht | by destruct kinds]|].
    intros E v. unfold meaning. rewrite Exists_fmap, Exists_exists. by cbn.
Qed.
Lemma compile_tuple l b : inv open b -> ok (Tuple l) = true -> (depth (Tuple l) + todo b <= S fuel)%nat ->
  compiles open b (schema_object_rule rule (document (Tuple l)) b) (fun F => means F (Tuple l)).
Proof.
  intros Hb Hok Hd. cbn [shape_ok depth] in Hok, Hd. rewrite rule_tuple. destruct l as [|s l].
  - change (array_rule rule (document (Tuple [])) b) with (Ok (E := SchemaError) (gbnf "'[' space space ']'", b)). apply compiles_return; [done|].
    intros F HF. apply means_simple; [|done]. apply says_empty_array. apply known_json.
  - change (array_rule rule (document (Tuple (s :: l))) b) with
      (let? (prefix_rules, b) := compile_all rule (document <$> s :: l) b in Ok (gbnf "'[' space " ++ array_items_body prefix_rules ++ gbnf " space ']'", b)).
    eapply compiles_bind; [apply compile_parts; [done|done|lia]|]. intros texts b' Hsub Hb' Ht. apply compiles_return; [done|]. intros F HF. rewrite items_body.
    split; [|by apply (resolved_parts F (s :: l) texts), Ht]. apply (says_array (known F) (known_json F) _ (fun E => in_turn E ((fun s => meaning F s E) <$> s :: l))). by apply array_means, Ht.
Qed.
Lemma compile_items item minimum maximum b : inv open b -> ok (Items item minimum maximum) = true -> (depth (Items item minimum maximum) + todo b <= S fuel)%nat ->
  compiles open b (schema_object_rule rule (document (Items item minimum maximum)) b) (fun F => means F (Items item minimum maximum)).
Proof.
  intros Hb Hok Hd. cbn [shape_ok depth] in Hok, Hd. apply andb_true_iff in Hok as [Hlen Hok]. rewrite rule_items.
  assert (bounds "minItems" "maxItems" (document (Items item minimum maximum)) = Some (minimum, maximum)) as Hbounds
    by (apply bounds_value; [done | by destruct maximum | done]).
  assert (array_rule rule (document (Items item minimum maximum)) b = let? (text, b) := rule (document item) b in
    let? (minimum, maximum) := ok_or (bounds "minItems" "maxItems" (document (Items item minimum maximum))) (SchemaMessage "invalid or excessive JSON Schema array bounds") in
    let item := gbnf "(" ++ text ++ gbnf ")" in Ok (gbnf "'[' space " ++ array_contents item minimum maximum ++ gbnf " space ']'", b)) as ->.
  { unfold array_rule. change (get "items" (document (Items item minimum maximum))) with (Some (document item)). cbn [or_else from_option id mbind option_bind].
    assert (as_array (document item) = None) as ->; [|done]. clear. induction item using Shape_induction; try done. cbn [document]. by destruct (document item). }
  eapply compiles_bind; [by apply Hrule; [..|lia]|]. intros text b' Hsub Hb' Ht. cbv beta iota. rewrite Hbounds. cbn [ok_or]. apply compiles_return; [done|]. intros F HF.
  split; [|by apply Ht]. apply (says_array (known F) (known_json F) _ (fun E v => exists k, number_between minimum maximum k /\ in_turn E (replicate k (meaning F item E)) v)).
  apply says_contents; [apply known_json| |done]. apply says_group, says_alone, Ht, HF.
Qed.
Lemma filter_members F (flag : bool) (l : list (bool * str * Shape)) outs : Forall2 (member_means F) l outs ->
  Forall2 (says (known F)) (filter (fun p => p.1 = flag) outs).*2
    ((fun (m : bool * str * Shape) E => member_words E m.1.2 (meaning F m.2 E)) <$> filter (fun m => m.1.1 = flag) l).
Proof.
  induction 1 as [|m [f text] l outs (Ef & Hm & _) HF IH]; [constructor|]. cbn [fst snd] in Ef, Hm. rewrite !filter_cons. cbn [fst]. rewrite Ef.
  destruct (decide (m.1.1 = flag)); [|exact IH]. rewrite !fmap_cons. by constructor.
Qed.
Lemma filter_all (flag : bool) (f : bool * str * Shape -> Lang) l :
  (filter (fun p : bool * Lang => p.1 = flag) ((fun m => (m.1.1, f m)) <$> l)).*2 = f <$> filter (fun m : bool * str * Shape => m.1.1 = flag) l.
Proof.
  induction l as [|m l IH]; [done|]. rewrite fmap_cons, !filter_cons. cbn [fst]. destruct (decide (m.1.1 = flag)); [|exact IH]. rewrite !fmap_cons. cbn [snd]. by rewrite IH.
Qed.
Lemma compile_members l b : inv open b -> ok (Members l) = true -> (depth (Members l) + todo b <= S fuel)%nat ->
  compiles open b (schema_object_rule rule (document (Members l)) b) (fun F => means F (Members l)).
Proof.
  intros Hb Hok Hd. cbn [shape_ok depth] in Hok, Hd. rewrite !andb_true_iff, bool_decide_eq_true, Nat.leb_le in Hok. destruct Hok as [[[Hnd Hv] H12] Hok].
  rewrite rule_members, object_rule_members. eapply compiles_bind; [apply object_members_means; [done| |]|].
  - apply Forall_forall. intros m Hm. rewrite forallb_forall in Hv. split; [by apply Hv, list_elem_of_In|].
    destruct (m.1.1) eqn:Ef.
    + apply bool_decide_eq_true. unfold required_of. apply list_elem_of_fmap. exists m. split; [done|]. by apply list_elem_of_filter.
    + apply bool_decide_eq_false. unfold required_of. intros (m' & E & [Ef' Hm']%list_elem_of_filter)%list_elem_of_fmap.
      apply list_elem_of_lookup in Hm as [i Hi], Hm' as [j Hj]. assert (i = j) as <-; [|congruence].
      apply (NoDup_lookup _ i j m.1.2 Hnd); rewrite list_lookup_fmap; [by rewrite Hi | by rewrite Hj, E].
  - intros m b' Hm Hsub Hb'. rewrite forallb_forall in Hok. apply Hrule; [by apply Hok, list_elem_of_In | done|].
    pose proof (todo_mono b b' Hsub). pose proof (max_list_elem_of_le (depth m.2) ((fun m => depth m.2) <$> l) ltac:(by apply (list_elem_of_fmap_2 (fun m => depth m.2)))). lia.
  - intros outs b' Hsub Hb' Ht. cbv zeta. pose proof (Ht _ (reflexivity (refs b'))) as Hself.
    assert (length (filter (fun p => p.1 = false) outs).*2 = length (filter (fun m => m.1.1 = false) l)) as Hlen.
    { pose proof (Forall2_length _ _ _ (filter_members _ false _ _ Hself)) as E. rewrite E. apply length_fmap. }
    rewrite Hlen. rewrite (proj2 (Nat.ltb_ge _ _)) by lia. rewrite <- Hlen. apply compiles_return; [done|]. intros F HF. specialize (Ht F HF). cbv beta in Ht.
    split; [|by apply (resolved_members F l outs)]. eapply says_iff; [apply (says_members (known F) (known_json F)); [apply (filter_members F true), Ht | apply (filter_members F false), Ht]|].
    intros E v. unfold meaning. cbn [words]. rewrite !filter_all, <- !list_fmap_compose. done.
Qed.
Lemma says_reference F ref name b : inv open b -> refs b !! ref = Some name -> refs b ⊆ F -> says (known F) name (fun E => E (default [] (F !! ref))).
Proof.
  intros Hb Hr HF. rewrite (lookup_weaken _ _ _ _ Hr HF). apply says_name.
  - destruct (inv_refs _ _ Hb _ _ Hr) as (_ & k & _ & _ & _ & Hk & -> & _). pose proof (inv_bound _ _ Hb). apply schema_ref_ok. lia.
  - right. exists ref. by apply (lookup_weaken _ _ _ _ Hr).
Qed.
Lemma means_reference F d name b : inv open b -> refs b !! definition_reference d = Some name -> refs b ⊆ F -> means F (Refers d) name.
Proof.
  intros Hb Hr HF. split; [by apply (says_reference F _ _ b)|]. constructor; [|constructor]. exists name. by apply (lookup_weaken _ _ _ _ Hr).
Qed.
Lemma compile_refers name b : inv open b -> ok (Refers name) = true -> (depth (Refers name) + todo b <= S fuel)%nat ->
  compiles open b (schema_object_rule rule (document (Refers name)) b) (fun F => means F (Refers name)).
Proof.
  intros Hb Hok Hd. cbn [shape_ok] in Hok. apply bool_decide_eq_true, list_elem_of_fmap in Hok as (d & -> & Hin). rewrite rule_refers. unfold reference_rule.
  set (ref := definition_reference d.1). destruct (refs b !! ref) as [name|] eqn:Er.
  { apply compiles_return; [done|]. intros F HF. by apply (means_reference F d.1 name b). }
  pose proof (Hroot d Hin) as Hres. fold ref in Hres. rewrite (inv_root _ _ Hb), Hres. cbv beta iota zeta. rewrite <- (inv_root _ _ Hb). fold (with_reference ref b). cbn [depth] in Hd. pose proof (todo_reference d b Hin Er) as Ht.
  destruct (Hrule d.2 ({[ref]} ∪ open) (with_reference ref b)) as (text & b' & -> & Hsub & Hb' & Hm).
  - unfold definitions_ok in Hdefs. rewrite !andb_true_iff, !forallb_forall in Hdefs. by apply Hdefs, list_elem_of_In.
  - by apply inv_with_reference.
  - fold ref in Ht. lia.
  - assert (refs b' !! ref = Some (schema_ref (next b))) as Hname.
    { apply (lookup_weaken _ _ _ _ (lookup_insert_eq (refs b) ref (schema_ref (next b))) Hsub). }
    pose proof (inv_close open b' d (schema_ref (next b)) text Hb' Hin Hname Hm) as Hc. exists (schema_ref (next b)), (insert_rule (schema_ref (next b)) text b').
    split; [done|]. split; [|split; [exact Hc|]].
    + etrans; [|exact Hsub]. by apply insert_subseteq.
    + intros F HF. by apply (means_reference F d.1 _ _ Hc Hname).
Qed.
End Step.
(** Enough fuel for a shape and for the definitions that have no rule yet. *)
Lemma compile_shape fuel : forall s open b, shape_ok defs.*1 s = true -> inv open b -> (depth s + todo b <= fuel)%nat ->
  compiles open b (schema_rule fuel (document s) b) (fun F => means F s).
Proof.
  assert (forall s, 1 <= depth s)%nat as Hdepth by (intros s; induction s using Shape_induction; cbn [depth]; lia).
  induction fuel as [|fuel IHfuel]; intros s open b Hok Hb Hd; [pose proof (Hdepth s); lia|].
  induction s as [| |value|values|one l _|kind|kinds|minimum maximum|minimum maximum|l _|item minimum maximum _|l _|name|notes s IHs] using Shape_induction.
  - apply compiles_return; [done|]. intros F HF. apply means_simple; [|done]. by apply (says_json (known F) (known_json F) "value").
  - apply compiles_return; [done|]. intros F HF. apply means_simple; [|done]. apply says_nothing.
  - change (schema_rule (S fuel) (document (Const value)) b) with (schema_object_rule (schema_rule fuel) (document (Const value)) b). rewrite rule_const.
    apply compiles_return; [done|]. intros F HF. apply means_simple; [|done]. by apply says_literal.
  - cbn [shape_ok] in Hok. apply andb_true_iff in Hok as [Hne Hok]. change (schema_rule (S fuel) (document (Enum values)) b) with (schema_object_rule (schema_rule fuel) (document (Enum values)) b).
    rewrite rule_enum by (by intros ->). apply compiles_return; [done|]. intros F HF. apply means_simple; [|done].
    eapply says_iff; [apply (says_union (known F) _ ((fun value (_ : str -> Lang) => lit_words (to_json value)) <$> values))|].
    + clear Hne. induction values as [|x l IH]; [constructor|]. cbn [forallb] in Hok. apply andb_true_iff in Hok as [Hx Hl]. constructor; [by apply says_literal | by apply IH].
    + by destruct values.
    + intros E v. rewrite Exists_fmap, Exists_exists. by cbn.
  - by apply (compile_any_of fuel open).
  - change (schema_rule (S fuel) (document (Basic kind)) b) with (schema_object_rule (schema_rule fuel) (document (Basic kind)) b). rewrite rule_basic.
    apply compiles_return; [done|]. intros F HF. apply means_simple; [|done]. destruct kind; by apply (says_json (known F) (known_json F)).
  - by apply (compile_types fuel open).
  - cbn [shape_ok] in Hok. rewrite !andb_true_iff in Hok. destruct Hok as [[Ha Hb'] Hw]. change (schema_rule (S fuel) (document (Integer minimum maximum)) b) with (schema_object_rule (schema_rule fuel) (document (Integer minimum maximum)) b).
    rewrite rule_integer. destruct (says_integer (known (refs b)) minimum maximum (known_json _) Ha Hb' Hw) as (text & E & _). rewrite E. apply compiles_return; [done|]. intros F HF.
    destruct (says_integer (known F) minimum maximum (known_json _) Ha Hb' Hw) as (text' & E' & W). rewrite E in E'. injection E' as <-. by apply means_simple.
  - change (schema_rule (S fuel) (document (Characters minimum maximum)) b) with (schema_object_rule (schema_rule fuel) (document (Characters minimum maximum)) b).
    rewrite rule_characters, string_rule_characters by done. apply compiles_return; [done|]. intros F HF. apply means_simple; [|done]. apply says_characters; [apply known_json|done].
  - by apply (compile_tuple fuel open).
  - by apply (compile_items fuel open).
  - by apply (compile_members fuel open).
  - by apply (compile_refers fuel open).
  - cbn [shape_ok depth] in Hok, Hd. rewrite !andb_true_iff in Hok. destruct Hok as [[Hn Ho] Hok].
    assert (exists m, document s = VObject m /\ m <> []) as (m & Em & Hm) by (destruct (document s) as [| | | | |[|x m]]; try done; by eexists).
    cbn [document]. rewrite Em. cbn [with_notes]. rewrite schema_rule_noted by done. rewrite <- Em. by apply IHs.
Qed.
End Correct.

(** ** References of a document. *)
Lemma split_on_token name : forallb (fun b => negb (is_byte "/" b)) name = true -> split_on "/" name = [name].
Proof.
  induction name as [|b name IH]; [done|]. cbn [forallb]. rewrite andb_true_iff. intros [Hb Hn]. cbn [split_on]. unfold is_byte in Hb.
  apply negb_true_iff, bool_decide_eq_false in Hb. rewrite bool_decide_eq_false_2 by done. by rewrite (IH Hn).
Qed.
Lemma replace_pair_none by_ second name : forallb (fun b => negb (is_byte "~" b)) name = true -> replace_pair "~" second by_ name = name.
Proof.
  induction name as [|b name IH]; [done|]. cbn [forallb]. rewrite andb_true_iff. intros [Hb Hn]. cbn [replace_pair]. destruct name as [|c name]; [done|].
  unfold is_byte in Hb. apply negb_true_iff, bool_decide_eq_false in Hb. rewrite bool_decide_eq_false_2 by done. cbn [andb]. by rewrite (IH Hn).
Qed.
Lemma map_get_definition (defs : list (str * Shape)) d : NoDup defs.*1 -> d ∈ defs -> map_get d.1 ((fun d => (d.1, document d.2)) <$> defs) = Some (document d.2).
Proof.
  induction defs as [|d' l IH]; [intros _ Hd; by apply elem_of_nil in Hd|]. rewrite !fmap_cons. intros [Hn Hnd]%NoDup_cons Hd. cbn [map_get].
  apply elem_of_cons in Hd as [->|Hd]; [by rewrite bool_decide_eq_true_2|]. rewrite bool_decide_eq_false_2; [by apply IH|]. intros E. apply Hn. rewrite E. by apply list_elem_of_fmap_2.
Qed.
Lemma resolve_definition `{JsonText} defs s d : definitions_ok defs = true -> is_object (document s) = true -> d ∈ defs ->
  resolve_local_reference (with_definitions defs s) (definition_reference d.1) = Ok (document d.2).
Proof.
  intros Hdefs Hobj Hd. unfold definitions_ok in Hdefs. rewrite !andb_true_iff, bool_decide_eq_true in Hdefs. destruct Hdefs as [[[Hnd _] Htok] _].
  rewrite forallb_forall in Htok. assert (In d.1 defs.*1) as Hin by by apply list_elem_of_In, list_elem_of_fmap_2. specialize (Htok _ Hin). unfold token_ok in Htok.
  assert (forallb (fun b => negb (is_byte "/" b)) d.1 = true /\ forallb (fun b => negb (is_byte "~" b)) d.1 = true) as [Hslash Htilde].
  { split; apply forallb_forall; intros b Hb; rewrite forallb_forall in Htok; specialize (Htok b Hb); by apply andb_true_iff in Htok as []. }
  unfold with_definitions. destruct (document s) as [| | | | |m]; try done. cbn [with_notes]. unfold resolve_local_reference.
  assert (starts_with (character "#/") (definition_reference d.1) = true) as -> by done. cbn [negb].
  assert (split_on "/" (drop 2 (definition_reference d.1)) = [character "$defs"; d.1]) as ->.
  { change (drop 2 (definition_reference d.1)) with (character "$defs" ++ "/"%byte :: d.1). cbn. by rewrite split_on_token. }
  cbn [resolve_tokens]. cbv zeta. rewrite (replace_pair_none "/" "1" d.1), (replace_pair_none "~" "0" d.1) by done.
  change (map_get (replace_pair "~" "0" "~" (replace_pair "~" "1" "/" (character "$defs"))) ([member "$defs" (VObject ((fun d => (d.1, document d.2)) <$> defs))] ++ m))
    with (Some (VObject ((fun d => (d.1, document d.2)) <$> defs))). cbn [mbind option_bind]. by rewrite map_get_definition.
Qed.
(** The rules as the grammar text has them. *)
Lemma rules_of_texts (known : str -> Prop) (L : str -> Meaning) (l : list (str * str)) : Forall (fun p => says known p.2 (L p.1)) l ->
  exists rs, print_rules rs = mjoin (rule_line <$> l) /\ r_name <$> rs = l.*1 /\
    Forall (fun r => expr_ok (r_expr r) = true /\ Forall known (mentions (r_expr r)) /\ forall E v, denote E (r_expr r) v <-> L (r_name r) E v) rs.
Proof.
  induction 1 as [|[name text] l (s & Es & Hok & Hk & HL) Hl (rs & E1 & E2 & E3)].
  - exists []. by split_and!.
  - exists (mkRule 0 name (Last s) :: rs). split_and!.
    + unfold print_rules in *. rewrite !fmap_cons, !mjoin_cons, E1. cbn in Es. unfold print_rule. cbn [r_lines r_name r_expr print newlines replicate app]. by rewrite Es.
    + rewrite !fmap_cons. by rewrite E2.
    + by constructor.
Qed.
(** The equations of a grammar for the fixed rules and for the definitions a schema reaches. *)
Definition fixed_rules_hold (E : str -> Lang) : Prop := forall r v, r ∈ json_rules -> E (r_name r) v <-> denote E (r_expr r) v.
Definition definitions_hold `{JsonText} (defs : list (str * Shape)) (s : Shape) (E R : str -> Lang) : Prop :=
  forall d v, d ∈ defs -> reached defs s d.1 -> R (definition_reference d.1) v <-> words E R d.2 v.
Definition enough_fuel (defs : list (str * Shape)) (s : Shape) : nat := depth s + sum_list ((fun d => S (depth d.2)) <$> defs).

Section Final.
Context `{JsonText} (defs : list (str * Shape)) (s : Shape).
Context (Hdefs : definitions_ok defs = true) (Hobj : is_object (document s) = true) (Hs : shape_ok defs.*1 s = true).
Local Abbreviation doc := (with_definitions defs s).
Lemma builder_start : inv defs doc ∅ (SchemaGrammar_new doc).
Proof.
  split; cbn [SchemaGrammar_new root_schema sg_rules next refs]; [done|constructor|by rewrite map_size_empty|..].
  - intros ref name. by rewrite lookup_empty.
  - intros r1 r2 name. by rewrite lookup_empty.
  - intros name text ?%elem_of_nil. done.
Qed.
Lemma compile_document fuel : (enough_fuel defs s <= fuel)%nat ->
  exists text b, schema_rule fuel doc (SchemaGrammar_new doc) = Ok (text, b) /\ inv defs doc ∅ b /\ means (refs b) s text.
Proof.
  intros Hfuel. set (notes := [member "$defs" (VObject ((fun d => (d.1, document d.2)) <$> defs))]).
  destruct (compile_shape defs doc Hdefs (fun d => resolve_definition defs s d Hdefs Hobj) fuel (Noted notes s) ∅ (SchemaGrammar_new doc)) as (text & b & E & _ & Hb & Hm).
  - cbn [shape_ok]. by rewrite Hobj, Hs.
  - exact builder_start.
  - unfold enough_fuel in Hfuel. cbn [depth]. etrans; [|exact Hfuel]. apply Nat.add_le_mono_l. unfold todo. clear. induction defs as [|d l IH]; [done|]. rewrite !fmap_cons.
    cbn [sum_list sum_list_with]. apply Nat.add_le_mono; [|exact IH]. cbn. destruct (decide _); lia.
  - exists text, b. split; [exact E|]. split; [done|]. destruct (Hm (refs b) (reflexivity _)) as [H1 H2]. by split.
Qed.
(** What the rules of the builder mean, the root among them. *)
Definition rule_meaning (F : gmap str str) (name : str) : Meaning := fun E v =>
  if bool_decide (name = character "root") then meaning F s E v
  else exists d, d ∈ defs /\ F !! definition_reference d.1 = Some name /\ meaning F d.2 E v.
Lemma builder_rules text b : inv defs doc ∅ b -> means (refs b) s text ->
  Forall (fun p => says (known (refs b)) p.2 (rule_meaning (refs b) p.1)) (sg_rules (insert_rule (character "root") text b)).
Proof.
  intros Hb [Ht _]. destruct (btree_insert_spec (character "root") text (sg_rules b) (inv_order _ _ _ _ Hb)) as [_ Hin]. apply Forall_forall. intros [name t] Hp.
  cbn [insert_rule sg_rules] in Hp. apply Hin in Hp as [[-> ->]|[Hne Hp]]; cbn [fst snd]; unfold rule_meaning.
  - rewrite bool_decide_eq_true_2 by done. exact Ht.
  - rewrite bool_decide_eq_false_2 by done. destruct (inv_rules _ _ _ _ Hb _ _ Hp) as [ref Hr]. destruct (inv_refs _ _ _ _ Hb _ _ Hr) as (d & k & t' & Hd & -> & Hk & -> & Ht' & [H'|Hm]); [set_solver|].
    destruct (Hm (refs b) (reflexivity _)) as [Hsays _]. assert (t = t') as ->.
    { pose proof (name_order_nodup _ (inv_order _ _ _ _ Hb)) as Hnd. apply list_elem_of_lookup in Hp as [i Hi], Ht' as [j Hj]. assert (i = j) as <-; [|congruence].
      apply (NoDup_lookup _ i j (schema_ref k) Hnd); rewrite list_lookup_fmap; [by rewrite Hi | by rewrite Hj]. }
    eapply says_iff; [exact Hsays|]. intros E v. split; [intros Hv; by exists d|]. intros (d' & Hd' & Hr' & Hv).
    pose proof (inv_inj _ _ _ _ Hb _ _ _ Hr Hr') as Eref. by rewrite (definition_unique defs Hdefs d d' Hd Hd' Eref).
Qed.
(** The rules the text is made of. *)
Section Rules.
Context (text : str) (b : SchemaGrammar) (Hb : inv defs doc ∅ b) (Hm : means (refs b) s text).
Context (rs : list RuleText) (Enames : r_name <$> rs = (sg_rules (insert_rule (character "root") text b)).*1).
Lemma rule_names name : name ∈ r_name <$> rs <-> name = character "root" \/ exists ref, refs b !! ref = Some name.
Proof.
  destruct (btree_insert_spec (character "root") text (sg_rules b) (inv_order _ _ _ _ Hb)) as [_ Hin]. rewrite Enames. cbn [insert_rule sg_rules]. split.
  - intros ((n & t) & -> & [[-> ->]|[_ Hp]]%Hin)%list_elem_of_fmap; [by left | right; by apply (inv_rules _ _ _ _ Hb n t)].
  - intros [->|[ref Hr]]; apply list_elem_of_fmap.
    + exists (character "root", text). split; [done|]. apply Hin. by left.
    + destruct (inv_refs _ _ _ _ Hb _ _ Hr) as (d & k & t & _ & _ & _ & -> & Ht & _). exists (schema_ref k, t). split; [done|]. apply Hin. right. split; [apply schema_ref_fresh | done].
Qed.
Lemma rule_names_distinct : NoDup (r_name <$> rs ++ json_rules).
Proof.
  rewrite fmap_app. apply NoDup_app. split_and!.
  - rewrite Enames. apply name_order_nodup. apply (btree_insert_spec (character "root") text (sg_rules b) (inv_order _ _ _ _ Hb)).
  - intros name [->|[ref Hr]]%rule_names.
    + exact (bool_decide_unpack (character "root" ∉ json_names) I).
    + destruct (inv_refs _ _ _ _ Hb _ _ Hr) as (d & k & t & _ & _ & _ & -> & _). apply schema_ref_fresh.
  - exact (bool_decide_eq_true_1 _ json_names_distinct).
Qed.
Context (Hrs : Forall (fun r => expr_ok (r_expr r) = true /\ Forall (known (refs b)) (mentions (r_expr r)) /\ forall E v, denote E (r_expr r) v <-> rule_meaning (refs b) (r_name r) E v) rs).
Lemma rules_written : Forall (fun r => rule_ok r = true) (rs ++ json_rules).
Proof.
  apply Forall_app. split; [|apply Forall_forall; intros r Hr; pose proof json_rules_ok as Hj; rewrite forallb_forall in Hj; by apply Hj, list_elem_of_In].
  rewrite Forall_forall in Hrs. apply Forall_forall. intros r Hr. unfold rule_ok. destruct (Hrs _ Hr) as (-> & _).
  assert (r_name r ∈ r_name <$> rs) as Hin by by apply list_elem_of_fmap_2. apply rule_names in Hin as [->|[ref Href]]; [done|].
  pose proof (inv_bound _ _ Hdefs _ _ Hb). destruct (inv_refs _ _ _ _ Hb _ _ Href) as (d & k & t & _ & _ & Hk & -> & _). rewrite schema_ref_ok by lia. done.
Qed.
Lemma rules_closed r t : r ∈ rs ++ json_rules -> t ∈ mentions (r_expr r) -> t ∈ r_name <$> rs ++ json_rules.
Proof.
  rewrite fmap_app, !elem_of_app. intros [Hr|Hr] Ht.
  - rewrite Forall_forall in Hrs. destruct (Hrs _ Hr) as (_ & Hk & _). rewrite Forall_forall in Hk. destruct (Hk _ Ht) as [Hj|Hj]; [by right | left; apply rule_names; by right].
  - right. pose proof json_rules_named as Hj. rewrite forallb_forall in Hj. specialize (Hj r ltac:(by apply list_elem_of_In)). rewrite forallb_forall in Hj.
    specialize (Hj t ltac:(by apply list_elem_of_In)). by apply bool_decide_eq_true in Hj.
Qed.
(** Every definition that is reached has been named, so it has its rule. *)
Lemma reached_named name : reached defs s name -> is_Some (refs b !! definition_reference name).
Proof.
  induction 1 as [name Hn|name d Hd [n Hr] Hin Hn].
  - destruct Hm as [_ Hres]. unfold resolved in Hres. rewrite Forall_forall in Hres. by apply Hres.
  - destruct (inv_refs _ _ _ _ Hb _ _ Hr) as (d' & k & t & Hd' & E & _ & _ & _ & [?|Hmd]); [set_solver|]. apply (definition_unique defs Hdefs d d' Hin Hd') in E as <-.
    destruct (Hmd (refs b) (reflexivity _)) as [_ Hres]. unfold resolved in Hres. rewrite Forall_forall in Hres. by apply Hres.
Qed.
(** What the equations of the rules say of the schema. *)
Lemma equations_root E v : (forall r v, r ∈ rs ++ json_rules -> E (r_name r) v <-> denote E (r_expr r) v) ->
  E (character "root") v <-> words E (fun ref => E (default [] (refs b !! ref))) s v.
Proof.
  intros HE. assert (character "root" ∈ r_name <$> rs) as (r & Er & Hr)%list_elem_of_fmap by (apply rule_names; by left).
  rewrite Er, HE by (apply elem_of_app; by left). rewrite Forall_forall in Hrs. destruct (Hrs _ Hr) as (_ & _ & ->). unfold rule_meaning. by rewrite <- Er, bool_decide_eq_true_2.
Qed.
Lemma equations_definitions E : (forall r v, r ∈ rs ++ json_rules -> E (r_name r) v <-> denote E (r_expr r) v) ->
  definitions_hold defs s E (fun ref => E (default [] (refs b !! ref))).
Proof.
  intros HE d v Hd [name Hr]%reached_named. rewrite Hr. cbn [from_option id].
  assert (name ∈ r_name <$> rs) as (r & Er & Hin)%list_elem_of_fmap by (apply rule_names; right; by eexists).
  rewrite Er, HE by (apply elem_of_app; by left). rewrite Forall_forall in Hrs. destruct (Hrs _ Hin) as (_ & _ & ->). unfold rule_meaning. rewrite <- Er.
  rewrite bool_decide_eq_false_2.
  - split; [|intros Hv; by exists d]. intros (d' & Hd' & Hr' & Hv). pose proof (inv_inj _ _ _ _ Hb _ _ _ Hr Hr') as Eref. by rewrite (definition_unique defs Hdefs d d' Hd Hd' Eref).
  - destruct (inv_refs _ _ _ _ Hb _ _ Hr) as (_ & k & _ & _ & _ & _ & -> & _). apply schema_ref_fresh.
Qed.
End Rules.
End Final.

(** A list of digits that refers to itself. *)
Definition plain_json : JsonText := {| to_json v := match v with VString s => x22 :: s ++ [x22] | VBool true => character "true" | _ => character "null" end |}.
Definition digit_list : list (str * Shape) :=
  [(character "node", Members [(true, character "digit", Integer (Some 0%Z) (Some 9%Z)); (false, character "next", Refers (character "node"))])].
