(* ===== verification/SchemaLimits.v ===== *)
(** * Schemas the compiler does not serve.

    What modelling the schema compiler showed: a schema it never returns from, a bound it drops,
    and a property name whose grammar text the parser refuses. *)
From Stdlib Require Import Strings.Byte.
From S2P Require Import Prelude Utf8 Substring Grammar GrammarParser Schema SchemaShape.

(** An intersection of one branch that refers back to it. *)
Definition self_reference : Value := VObject [member "$ref" (VString (character "#/$defs/a"))].
Definition self_all_of : Value := VObject [member "allOf" (VArray [self_reference])].
Definition self_schema : Value := VObject [member "$defs" (VObject [member "a" self_all_of]); member "$ref" (VString (character "#/$defs/a"))].
Lemma self_all_of_rule `{JsonText} fuel : forall b, root_schema b = self_schema -> schema_rule fuel self_all_of b = Err Exhausted.
Proof.
  induction fuel as [|fuel IH]; intros b Hb; [done|].
  change (schema_rule (S fuel) self_all_of b) with (all_of_rule (schema_rule fuel) [self_reference] b). unfold all_of_rule. rewrite Hb.
  change (merge_branches self_schema (length [self_reference] =? 1)%nat (mkMerged None [] [] [] 0) [self_reference]) with (Ok (E := SchemaError) (A := Merged + Value) (inr self_all_of)).
  by apply IH.
Qed.
(** However much fuel, the compilation does not end. *)
Lemma self_all_of_exhausts `{JsonText} fuel : json_schema_to_gbnf fuel self_schema = Err Exhausted.
Proof.
  unfold json_schema_to_gbnf. destruct fuel as [|fuel]; [done|].
  change (schema_rule (S fuel) self_schema (SchemaGrammar_new self_schema)) with (reference_rule (schema_rule fuel) (character "#/$defs/a") (SchemaGrammar_new self_schema)).
  unfold reference_rule. cbn [refs SchemaGrammar_new]. rewrite lookup_empty.
  change (resolve_local_reference (root_schema (SchemaGrammar_new self_schema)) (character "#/$defs/a")) with (Ok (E := SchemaError) self_all_of). cbv beta iota zeta.
  by rewrite self_all_of_rule.
Qed.

(** The exclusive bound is dropped when there is another. *)
Lemma exclusive_minimum_ignored minimum exclusive : 0 <= minimum <= I64_MAX -> 0 <= exclusive <= I64_MAX ->
  integer_rule (VObject [member "minimum" (VNumber (PosInt minimum)); member "exclusiveMinimum" (VNumber (PosInt exclusive))])
  = integer_rule (VObject [member "minimum" (VNumber (PosInt minimum))]).
Proof.
  intros Hm He. unfold integer_rule. cbn [existsb BOUND_KEYWORDS].
  change (get "minimum" (VObject [member "minimum" (VNumber (PosInt minimum)); member "exclusiveMinimum" (VNumber (PosInt exclusive))])) with (Some (VNumber (PosInt minimum))).
  change (get "minimum" (VObject [member "minimum" (VNumber (PosInt minimum))])) with (Some (VNumber (PosInt minimum))).
  change (get "exclusiveMinimum" (VObject [member "minimum" (VNumber (PosInt minimum)); member "exclusiveMinimum" (VNumber (PosInt exclusive))])) with (Some (VNumber (PosInt exclusive))).
  assert (forall n, 0 <= n <= I64_MAX -> as_i64 (VNumber (PosInt n)) = Some n) as E by (intros n Hn; cbn [as_i64]; rewrite (proj2 (Z.leb_le _ _)); [done|lia]).
  cbv beta iota. rewrite !E by done.
  assert (forall x y, integer_minimum (VObject (member "minimum" (VNumber (PosInt minimum)) :: x)) = integer_minimum (VObject (member "minimum" (VNumber (PosInt minimum)) :: y))) as Em.
  { intros x y. unfold integer_minimum.
    change (get_i64 "minimum" (VObject (member "minimum" (VNumber (PosInt minimum)) :: x))) with (as_i64 (VNumber (PosInt minimum))).
    change (get_i64 "minimum" (VObject (member "minimum" (VNumber (PosInt minimum)) :: y))) with (as_i64 (VNumber (PosInt minimum))). by rewrite E. }
  by rewrite (Em _ []).
Qed.

(** A property name with a circumflex. *)
Definition names_only : JsonText := {| to_json v := match v with VString s => x22 :: s ++ [x22] | _ => [] end |}.
Definition caret_schema : Value := VObject [member "type" (VString (character "object")); member "properties" (VObject [member "^a" (VBool true)])].
Lemma caret_key_unreadable :
  match @json_schema_to_gbnf names_only 3 caret_schema with
  | Ok text => match parse text (character "root") with Err (UnsupportedEscape _) => True | _ => False end
  | Err _ => False
  end.
Proof. vm_compute. exact I. Qed.
