(* ===== verification/AtemStream.v ===== *)
(** * The assistant's wire format.

    Models [AtemStreamParser] of [crates/muser-server/src/openai.rs] and the parsers behind it:
    [parse_atem_output], [parse_atem_calls] and [validate_atem_recipient].  The parser sees the
    text of an answer piece by piece and releases reasoning, content and whole tool calls.  JSON
    and SHA-256 are the class [AtemCode]. *)
From Stdlib Require Import Strings.Byte.
From S2P Require Import Prelude Utf8 Utf8Scalar Substring GrammarParser Schema.

Class AtemCode : Type := {
  from_json : str -> option Value;
  map_to_json : list (str * Value) -> str;
  sha256_bytes : str -> list byte;
}.

Record ParsedFunctionCall : Type := mkFunctionCall { fc_name : str; fc_arguments : str }.
Record ParsedToolCall : Type := mkToolCall { tc_id : str; tc_kind : str; tc_function : ParsedFunctionCall }.
Inductive AtemStreamEvent : Type :=
| Content (text : str)
| Reasoning (text : str)
| ToolCall (index : nat) (call : ParsedToolCall).
Record ParsedAtemOutput : Type := mkAtemOutput { o_content : str; o_reasoning : str; o_tool_calls : list ParsedToolCall }.

(** The assistant message of a chat response. *)
Record AssistantMessage : Type := mkMessage { m_content : str; m_reasoning_content : option str; m_tool_calls : option (list ParsedToolCall) }.
(** ** Text. *)
Definition START : str := string_bytes "<|start|>assistant".
Definition MESSAGE : str := string_bytes "<|message|>".
Definition PHASE_END : str := string_bytes "<|eom|>".
Definition END_OF_TURN : str := string_bytes "<|eot|>".
Definition RECIPIENT : str := string_bytes " to=".
(** Unicode's white space. *)
Definition is_white (ch : str) : bool :=
  let c := code_point ch in
  ((9 <=? c) && (c <=? 13)) || (c =? 32) || (c =? 0x85) || (c =? 0xA0) || (c =? 0x1680) || ((0x2000 <=? c) && (c <=? 0x200A))
  || (c =? 0x2028) || (c =? 0x2029) || (c =? 0x202F) || (c =? 0x205F) || (c =? 0x3000).
Fixpoint skip_white (cs : list str) : list str := match cs with c :: cs' => if is_white c then skip_white cs' else cs | [] => [] end.
Definition trim_start (s : str) : str := mjoin (skip_white (chars s)).
Definition trim (s : str) : str := mjoin (reverse (skip_white (reverse (skip_white (chars s))))).
Definition has_text (needle hay : str) : bool := bool_decide (find needle hay <> None).
Definition strip_prefix (prefix s : str) : option str := if starts_with prefix s then Some (drop (length prefix) s) else None.
Definition strip_suffix (suffix s : str) : option str := if ends_with suffix s then Some (take (length s - length suffix) s) else None.
Definition split_once_at (separator s : str) : option (str * str) :=
  p ← find separator s; Some (take p s, drop (p + length separator) s).

(** ** Tool calls. *)
Definition word_byte (b : byte) : bool := is_alphanumeric b || is_byte "_" b || is_byte "-" b || is_byte "." b.
Definition hex_nibble (d : Z) : byte := byte_of_Z (if d <? 10 then 0x30 + d else 0x61 + (d - 10)).
Definition lower_hex (b : byte) : str := [hex_nibble (Z_of_byte b / 16); hex_nibble (Z_of_byte b mod 16)].
Inductive AtemError : Type := Malformed (text : string) | MalformedName (text : string) (name : str) | OutOfFuel.
(** The errors of the Ollama route. *)
Inductive OllamaError : Type := MalformedOutput (e : AtemError) | UnexpectedToolCall.
Abbreviation parsed A := (result AtemError A).
Definition malformed {A} (text : string) : parsed A := Err (Malformed text).
Definition malformed_name {A} (text : string) (name : str) : parsed A := Err (MalformedName text name).
Definition PARAMETER_OPEN : str := gbnf "<atem:parameter name='".
Definition PARAMETER_CLOSE : str := string_bytes "</atem:parameter>".
Definition INVOKE_OPEN : str := gbnf "<atem:invoke name='".
Definition INVOKE_CLOSE : str := string_bytes "</atem:invoke>".
Definition NAME_CLOSE : str := gbnf "'>".
Definition CALLS_OPEN : str := string_bytes "<atem:function_calls>".
Definition CALLS_CLOSE : str := string_bytes "</atem:function_calls>".
Section Atem.
Context `{AtemCode}.
Definition json_or_text (raw : str) : Value := default (VString raw) (from_json raw).
Fixpoint parse_parameters (fuel : nat) (body : str) (parameters : list (str * Value)) : parsed (list (str * Value)) :=
  match fuel with
  | O => Err OutOfFuel
  | S fuel =>
      let body := trim_start body in
      match body with
      | [] => Ok parameters
      | _ =>
          let? body := ok_or (strip_prefix PARAMETER_OPEN body) (Malformed "unexpected text outside an ATEM parameter") in
          let? name_end := ok_or (find NAME_CLOSE body) (Malformed "malformed ATEM parameter name") in
          let parameter_name := take name_end body in
          if bool_decide (parameter_name = []) then malformed "ATEM parameter name is empty"
          else
            let body := drop (name_end + 2) body in
            let? value_end := ok_or (find PARAMETER_CLOSE body) (Malformed "unterminated ATEM parameter") in
            let raw := take value_end body in
            if has_text (string_bytes "<atem:") raw || has_text (string_bytes "</atem:") raw
            then malformed "ATEM parameter value contains a structural tag"
            else if bool_decide (map_get parameter_name parameters <> None) then malformed_name "duplicate ATEM parameter" parameter_name
            else parse_parameters fuel (drop (value_end + length PARAMETER_CLOSE) body) (map_insert parameter_name (json_or_text raw) parameters)
      end
  end.
(** The identifier of the call: it covers the position of the call in its block. *)
Definition call_of (name : str) (parameters : list (str * Value)) (position : nat) : ParsedToolCall :=
  let arguments := map_to_json parameters in
  let digest := sha256_bytes (name ++ [x00] ++ arguments ++ [x00] ++ to_decimal (Z.of_nat position)) in
  mkToolCall (string_bytes "call_" ++ mjoin (lower_hex <$> take 12 digest)) (string_bytes "function") (mkFunctionCall name arguments).
Fixpoint parse_invokes (fuel : nat) (cursor : str) (calls : list ParsedToolCall) : parsed (list ParsedToolCall) :=
  match fuel with
  | O => Err OutOfFuel
  | S fuel =>
      let cursor := trim_start cursor in
      match cursor with
      | [] => Ok calls
      | _ =>
          let? cursor := ok_or (strip_prefix INVOKE_OPEN cursor) (Malformed "unexpected text outside an ATEM invoke") in
          let? quote := ok_or (find NAME_CLOSE cursor) (Malformed "malformed ATEM invoke name") in
          let name := take quote cursor in
          if bool_decide (name = []) || negb (forallb word_byte name)
          then malformed "ATEM invoke name is outside the closed function-name grammar"
          else
            let cursor := drop (quote + 2) cursor in
            let? end_ := ok_or (find INVOKE_CLOSE cursor) (Malformed "unterminated ATEM invoke") in
            let body := take end_ cursor in
            let? parameters := parse_parameters (S (length body)) body [] in
            parse_invokes fuel (drop (end_ + length INVOKE_CLOSE) cursor) (calls ++ [call_of name parameters (length calls)])
      end
  end.
Definition parse_atem_calls (text : str) : parsed (list ParsedToolCall) :=
  let? cursor := ok_or (inner ← strip_prefix CALLS_OPEN (trim text); strip_suffix CALLS_CLOSE inner)
                       (Malformed "ATEM function-call phase must contain one closed outer block") in
  let? calls := parse_invokes (S (length cursor)) cursor [] in
  match calls with [] => malformed "ATEM function-call block contains no invokes" | _ => Ok calls end.
Definition validate_atem_recipient (recipient : str) (calls : list ParsedToolCall) : parsed unit :=
  if bool_decide (recipient = string_bytes "tool")
     || match calls with call :: _ => bool_decide (fc_name (tc_function call) = recipient) | [] => false end
  then Ok tt else malformed_name "assistant recipient does not match the first ATEM invoke" recipient.

(** ** The whole text at once. *)
(** [replace(needle, '')], for a needle that is not empty. *)
Fixpoint remove_all (fuel : nat) (needle s : str) : str :=
  match fuel with
  | O => s
  | S fuel => match find needle s with Some p => take p s ++ remove_all fuel needle (drop (p + length needle) s) | None => s end
  end.
Fixpoint split_at_all (fuel : nat) (separator s : str) : list str :=
  match fuel with
  | O => [s]
  | S fuel => match find separator s with Some p => take p s :: split_at_all fuel separator (drop (p + length separator) s) | None => [s] end
  end.
(** [trim_start_matches(prefix)]. *)
Fixpoint strip_all (fuel : nat) (prefix s : str) : str :=
  match fuel with
  | O => s
  | S fuel => match strip_prefix prefix s with Some s => strip_all fuel prefix s | None => s end
  end.
Definition USER : str := string_bytes "user".
Definition SELF : str := string_bytes "self".
(** The recipient and the body of a phase. *)
Definition phase_header (phase : str) : parsed (str * str) :=
  match strip_prefix RECIPIENT phase with
  | Some rest =>
      let? (name, body) := ok_or (split_once_at MESSAGE rest) (Malformed "assistant recipient header omits <|message|>") in
      Ok (trim name, body)
  | None => Ok (USER, default phase (strip_prefix MESSAGE phase))
  end.
Definition add_phase (output : ParsedAtemOutput) (raw_phase : str) : parsed ParsedAtemOutput :=
  let? (recipient, phase) := phase_header (strip_all (length raw_phase) START raw_phase) in
  if bool_decide (phase = []) then Ok output
  else if bool_decide (recipient = SELF) then Ok (mkAtemOutput (o_content output) (o_reasoning output ++ phase) (o_tool_calls output))
  else if has_text CALLS_OPEN phase then
    let? calls := parse_atem_calls phase in
    let? _ := validate_atem_recipient recipient calls in
    Ok (mkAtemOutput (o_content output) (o_reasoning output) (o_tool_calls output ++ calls))
  else if bool_decide (recipient = USER) then Ok (mkAtemOutput (o_content output ++ phase) (o_reasoning output) (o_tool_calls output))
  else malformed_name "assistant emitted recipient without an ATEM function-call block" recipient.
Fixpoint add_phases (output : ParsedAtemOutput) (phases : list str) : parsed ParsedAtemOutput :=
  match phases with
  | [] => Ok output
  | phase :: phases => let? output := add_phase output phase in add_phases output phases
  end.
Definition parse_atem_output (text : str) : parsed ParsedAtemOutput :=
  let cleaned := remove_all (length text) END_OF_TURN text in
  add_phases (mkAtemOutput [] [] []) (split_at_all (length cleaned) PHASE_END cleaned).

(** ** The stream. *)
Record AtemActivePhase : Type := mkPhase { recipient : str; body_start : nat; emitted_until : nat }.
Record AtemStreamParser : Type := mkAtemParser {
  raw : str;
  structured : option bool;
  cursor : nat;
  plain_emitted : nat;
  active : option AtemActivePhase;
  tool_calls_emitted : nat;
}.
Definition AtemStreamParser_default : AtemStreamParser := mkAtemParser [] None 0 0 None 0.
Definition with_raw (text : str) (p : AtemStreamParser) : AtemStreamParser :=
  mkAtemParser text (structured p) (cursor p) (plain_emitted p) (active p) (tool_calls_emitted p).
Definition with_active (a : option AtemActivePhase) (p : AtemStreamParser) : AtemStreamParser :=
  mkAtemParser (raw p) (structured p) (cursor p) (plain_emitted p) a (tool_calls_emitted p).
Definition with_structured (b : bool) (p : AtemStreamParser) : AtemStreamParser :=
  mkAtemParser (raw p) (Some b) (cursor p) (plain_emitted p) (active p) (tool_calls_emitted p).

(** The greatest length of an end of the text that begins the marker. *)
Fixpoint suffix_match (text marker : str) (length_ : nat) : nat :=
  match length_ with
  | O => 0
  | S less => if starts_with (drop (length text - length_) text) marker then length_ else suffix_match text marker less
  end.
Definition marker_suffix_len (text marker : str) : nat := suffix_match text marker (Nat.min (length text) (length marker - 1)).
(** [trim_phase_tail], of a text of at least 64 bytes. *)
Fixpoint floor_char_boundary (s : str) (split : nat) : nat :=
  match split with
  | O => 0
  | S less => if is_char_boundary s split then split else floor_char_boundary s less
  end.
Definition trim_phase_tail (phase_tail : str) : str := drop (floor_char_boundary phase_tail (length phase_tail - 64)) phase_tail.

Definition structured_start (trimmed : str) : bool := starts_with (string_bytes "to=") trimmed || starts_with START trimmed.
Definition unresolved_start (trimmed : str) : bool := starts_with trimmed (string_bytes "to=") || starts_with trimmed START.
(** The header of the next phase, from where it starts: the recipient and where its body starts;
    nothing when more text is needed. *)
Definition read_header (finishing : bool) (rest : str) : parsed (option (str * nat)) :=
  let opened := starts_with START rest in
  if negb opened && (starts_with rest START && negb finishing) then Ok None
  else
    let header := if opened then length START else 0%nat in
    let rest := drop header rest in
    if starts_with RECIPIENT rest then
      match find MESSAGE (drop (length RECIPIENT) rest) with
      | None => if finishing then malformed "assistant recipient header omits <|message|>" else Ok None
      | Some relative =>
          let recipient := trim (take relative (drop (length RECIPIENT) rest)) in
          if bool_decide (recipient = []) then malformed "assistant recipient is empty"
          else Ok (Some (recipient, header + length RECIPIENT + relative + length MESSAGE)%nat)
      end
    else if starts_with MESSAGE rest then Ok (Some (USER, header + length MESSAGE)%nat)
    else if negb finishing then Ok None
    else malformed "structured assistant phase omits a recipient header".
(** Activate the next phase, if its header is there. *)
Definition activate (finishing : bool) (p : AtemStreamParser) : parsed (option AtemActivePhase) :=
  match active p with
  | Some phase => Ok (Some phase)
  | None =>
      if (cursor p =? length (raw p))%nat then Ok None
      else
        let? header := read_header finishing (drop (cursor p) (raw p)) in
        Ok ((fun h => mkPhase h.1 (cursor p + h.2) (cursor p + h.2)) <$> header)
  end.
Definition is_text_recipient (recipient : str) : bool := bool_decide (recipient = SELF) || bool_decide (recipient = USER).
Definition text_event (recipient text : str) : AtemStreamEvent := if bool_decide (recipient = SELF) then Reasoning text else Content text.
Definition phase_end (p : AtemStreamParser) (phase : AtemActivePhase) : option nat :=
  (fun offset => (body_start phase + offset)%nat) <$> find PHASE_END (drop (body_start phase) (raw p)).
(** What of a text phase can be released. *)
Definition safe_end (finishing : bool) (p : AtemStreamParser) (phase : AtemActivePhase) : nat :=
  match phase_end p phase with
  | Some end_ => end_
  | None => if finishing then length (raw p) else (length (raw p) - marker_suffix_len (raw p) PHASE_END)%nat
  end.
Definition slice_of (text : str) (from to : nat) : str := take (to - from) (drop from text).
Definition release (finishing : bool) (p : AtemStreamParser) (phase : AtemActivePhase) : list AtemStreamEvent * AtemActivePhase :=
  if is_text_recipient (recipient phase) && (emitted_until phase <? safe_end finishing p phase)%nat
  then ([text_event (recipient phase) (slice_of (raw p) (emitted_until phase) (safe_end finishing p phase))],
        mkPhase (recipient phase) (body_start phase) (safe_end finishing p phase))
  else ([], phase).
(** The calls of a tool phase. *)
Definition phase_calls (recipient body : str) (emitted : nat) : parsed (list AtemStreamEvent) :=
  let? calls := parse_atem_calls body in
  let? _ := validate_atem_recipient recipient calls in
  Ok (imap (fun i call => ToolCall (emitted + i) call) calls).

(** One pass of the loop: it stops, goes on with the next phase, or fails. *)
Inductive Pass : Type := Stop (events : list AtemStreamEvent) | GoOn (events : list AtemStreamEvent) | Failed (e : AtemError).
(** The end of a pass: the phase ends, or more text is needed. *)
Definition close_phase (finishing : bool) (p : AtemStreamParser) (phase : AtemActivePhase) (released : list AtemStreamEvent) : AtemStreamParser * Pass :=
  match phase_end p phase with
  | None =>
      if finishing && negb (is_text_recipient (recipient phase)) then
        match phase_calls (recipient phase) (drop (body_start phase) (raw p)) (tool_calls_emitted p) with
        | Err e => (p, Failed e)
        | Ok calls =>
            (mkAtemParser (raw p) (structured p) (cursor p) (plain_emitted p) (active p) (tool_calls_emitted p + length calls), Stop (released ++ calls))
        end
      else (p, Stop released)
  | Some end_ =>
      if negb (is_text_recipient (recipient phase)) then
        match phase_calls (recipient phase) (slice_of (raw p) (body_start phase) end_) (tool_calls_emitted p) with
        | Err e => (p, Failed e)
        | Ok calls =>
            (mkAtemParser (raw p) (structured p) (end_ + length PHASE_END) (plain_emitted p) None (tool_calls_emitted p + length calls), GoOn (released ++ calls))
        end
      else (mkAtemParser (raw p) (structured p) (end_ + length PHASE_END) (plain_emitted p) None (tool_calls_emitted p), GoOn released)
  end.
Definition serve (finishing : bool) (p : AtemStreamParser) (phase : AtemActivePhase) : AtemStreamParser * Pass :=
  let (released, phase) := release finishing p phase in close_phase finishing (with_active (Some phase) p) phase released.
Definition one_phase (finishing : bool) (p : AtemStreamParser) : AtemStreamParser * Pass :=
  match activate finishing p with
  | Err e => (p, Failed e)
  | Ok None => (p, Stop [])
  | Ok (Some phase) => serve finishing p phase
  end.
Fixpoint phases (fuel : nat) (finishing : bool) (p : AtemStreamParser) (events : list AtemStreamEvent) : AtemStreamParser * parsed (list AtemStreamEvent) :=
  match fuel with
  | O => (p, Err OutOfFuel)
  | S fuel =>
      match one_phase finishing p with
      | (p, Failed e) => (p, Err e)
      | (p, Stop more) => (p, Ok (events ++ more))
      | (p, GoOn more) => phases fuel finishing p (events ++ more)
      end
  end.
(** Is the text structured?  Nothing when more of it is needed. *)
Definition discriminate (finishing : bool) (text : str) : option bool :=
  let trimmed := trim_start text in
  if unresolved_start trimmed && negb finishing then None
  else if structured_start trimmed && negb (has_text MESSAGE trimmed) && negb finishing then None
  else Some (structured_start trimmed && has_text MESSAGE trimmed).
Definition drain_plain (p : AtemStreamParser) : AtemStreamParser * parsed (list AtemStreamEvent) :=
  if (plain_emitted p <? length (raw p))%nat then
    (mkAtemParser (raw p) (structured p) (cursor p) (length (raw p)) (active p) (tool_calls_emitted p), Ok [Content (drop (plain_emitted p) (raw p))])
  else (p, Ok []).
Definition drain_as (b : bool) (finishing : bool) (p : AtemStreamParser) : AtemStreamParser * parsed (list AtemStreamEvent) :=
  let p := with_structured b p in
  if b then phases (S (length (raw p))) finishing p [] else drain_plain p.
Definition drain (finishing : bool) (p : AtemStreamParser) : AtemStreamParser * parsed (list AtemStreamEvent) :=
  match structured p with
  | Some b => drain_as b finishing p
  | None => match discriminate finishing (raw p) with Some b => drain_as b finishing p | None => (p, Ok []) end
  end.
Definition push (piece : str) (p : AtemStreamParser) : AtemStreamParser * parsed (list AtemStreamEvent) :=
  drain false (with_raw (raw p ++ piece) p).
Definition finish (p : AtemStreamParser) : AtemStreamParser * parsed (list AtemStreamEvent) :=
  match drain true p with
  | (p, Err e) => (p, Err e)
  | (p, Ok events) =>
      (p, if bool_decide (structured p = Some true) then let? _ := parse_atem_output (raw p) in Ok events else Ok events)
  end.
(** A header that was cut short is not shown as text. *)
Definition finish_stream (p : AtemStreamParser) : AtemStreamParser * parsed (list AtemStreamEvent) :=
  if bool_decide (structured p = None)
     && (let trimmed := trim_start (raw p) in (structured_start trimmed || unresolved_start trimmed) && negb (has_text MESSAGE trimmed))
  then (p, Ok [])
  else finish p.
Definition is_structured (p : AtemStreamParser) : bool := bool_decide (structured p = Some true).

(** A whole answer, in pieces. *)
Fixpoint push_all (pieces : list str) (p : AtemStreamParser) (events : list AtemStreamEvent) : AtemStreamParser * parsed (list AtemStreamEvent) :=
  match pieces with
  | [] => (p, Ok events)
  | piece :: pieces =>
      match push piece p with
      | (p, Ok more) => push_all pieces p (events ++ more)
      | (p, Err e) => (p, Err e)
      end
  end.
Definition stream_answer (pieces : list str) : parsed (list AtemStreamEvent) :=
  match push_all pieces AtemStreamParser_default [] with
  | (p, Ok events) => let? more := (finish_stream p).2 in Ok (events ++ more)
  | (_, Err e) => Err e
  end.

(** ** Answers that are not streamed. *)
(** A choice of the chat response: text that does not parse is shown as it is. *)
Definition assistant_message (text : str) (finish_reason : string) : AssistantMessage * string :=
  let output := match parse_atem_output text with Ok output => output | Err _ => mkAtemOutput text [] [] end in
  (mkMessage (o_content output) (if bool_decide (o_reasoning output = []) then None else Some (o_reasoning output))
     (match o_tool_calls output with [] => None | calls => Some calls end),
   match o_tool_calls output with [] => finish_reason | _ => "tool_calls"%string end).
Definition atem_finish_reason (text : str) (fallback : string) : string :=
  match parse_atem_output text with
  | Ok output => match o_tool_calls output with [] => fallback | _ => "tool_calls"%string end
  | Err _ => fallback
  end.
Fixpoint visible_text (events : list AtemStreamEvent) (response thinking : str) : result OllamaError (str * str) :=
  match events with
  | [] => Ok (response, thinking)
  | Content value :: events => visible_text events (response ++ value) thinking
  | Reasoning value :: events => visible_text events response (thinking ++ value)
  | ToolCall _ _ :: _ => Err UnexpectedToolCall
  end.
Definition ollama_visible_output (text : str) : result OllamaError (str * str) :=
  let (p, pushed) := push text AtemStreamParser_default in
  let? events := result_map_err MalformedOutput pushed in
  let? more := result_map_err MalformedOutput (finish_stream p).2 in
  visible_text (events ++ more) [] [].
End Atem.
