(* ===== verification/AtemProofs.v ===== *)
(** * Cutting an answer into pieces changes nothing.

    The proofs about [AtemStream]: what the parser has decided on a text stays decided when text
    is added, and what it holds back is exactly what more text could turn into a marker. *)
From Stdlib Require Import Strings.Byte.
From S2P Require Import Prelude Utf8 Utf8Scalar Substring Schema AtemStream.

(** ** Searching in a text that grows. *)
Lemma find_grows n h k p : find n h = Some p -> find n (h ++ k) = Some p.
Proof.
  intros E. pose proof (find_spec n h) as Hs. rewrite E in Hs. destruct Hs as (Hp & Hm & Hfirst).
  pose proof (find_spec n (h ++ k)) as Hs'. apply starts_with_spec in Hm as [m Hm].
  assert (starts_with n (drop p (h ++ k)) = true) as Hm'.
  { apply starts_with_spec. exists (m ++ k). rewrite drop_app_le by done. by rewrite Hm, app_assoc. }
  assert (length n <= length h - p)%nat as Hlen by (rewrite <- length_drop, Hm, length_app; lia).
  destruct (find n (h ++ k)) as [p'|].
  - destruct Hs' as (Hp' & Hm2 & Hfirst'). f_equal. destruct (Nat.lt_trichotomy p' p) as [Hlt|[->|Hgt]]; [|done|by rewrite Hfirst' in Hm' by done].
    specialize (Hfirst p' Hlt). apply starts_with_spec in Hm2 as [m2 Hm2]. rewrite drop_app_le in Hm2 by lia.
    assert (starts_with n (drop p' h) = true) as Ht; [|congruence]. apply starts_with_spec. exists (drop (length n) (drop p' h)).
    assert (take (length n) (drop p' h ++ k) = n) as Et by by rewrite Hm2, take_app_length. rewrite take_app_le in Et by (rewrite length_drop; lia).
    by rewrite <- Et at 1; rewrite take_drop.
  - rewrite Hs' in Hm'; [done|]. rewrite length_app. lia.
Qed.
Lemma find_inside n h p : n <> [] -> find n h = Some p -> (p + length n <= length h)%nat.
Proof. intros Hn (k & E & Hp)%find_Some. rewrite E at 1. rewrite !length_app, length_take. lia. Qed.
Lemma starts_with_not_grows p s k : (length p <= length s)%nat -> starts_with p (s ++ k) = starts_with p s.
Proof.
  revert s. induction p as [|x p IH]; intros [|y s]; cbn; try done; [lia|]. intros Hl. by rewrite IH by lia.
Qed.
(** A text that neither begins a word nor begins with it: more text does not change that. *)
Lemma starts_with_settled p s k : starts_with s p = false -> starts_with p (s ++ k) = starts_with p s.
Proof.
  revert s. induction p as [|x p IH]; intros [|y s]; cbn; try done. destruct (decide (x = y)) as [->|Hne].
  - rewrite !bool_decide_eq_true_2 by done. cbn. apply IH.
  - intros _. by rewrite !(bool_decide_eq_false_2 (x = y)).
Qed.
Lemma starts_with_shrinks p s k : starts_with (s ++ k) p = true -> starts_with s p = true.
Proof. rewrite !starts_with_spec. intros [m ->]. exists (k ++ m). by rewrite app_assoc. Qed.

(** ** The marker held back. *)
Lemma suffix_match_spec t m n : (suffix_match t m n <= n)%nat /\ starts_with (drop (length t - suffix_match t m n) t) m = true /\
  forall l, (l <= n)%nat -> starts_with (drop (length t - l) t) m = true -> (l <= suffix_match t m n)%nat.
Proof.
  induction n as [|n IH]; cbn [suffix_match].
  - split; [done|]. split; [by rewrite Nat.sub_0_r, drop_all|]. intros l Hl _. lia.
  - destruct IH as (H1 & H2 & H3). destruct (starts_with (drop (length t - S n) t) m) eqn:E; [split; [done|]; split; [done|]; intros; lia|].
    split; [lia|]. split; [done|]. intros l Hl Hm. destruct (decide (l = S n)) as [->|]; [congruence|]. apply H3; [lia|done].
Qed.
Lemma marker_suffix_greatest t m l : (l <= length t)%nat -> (l < length m)%nat -> starts_with (drop (length t - l) t) m = true -> (l <= marker_suffix_len t m)%nat.
Proof. intros H1 H2 Hm. apply (suffix_match_spec t m (Nat.min (length t) (length m - 1))); [lia|done]. Qed.
Lemma marker_suffix_bound t m : (marker_suffix_len t m <= length t)%nat /\ (marker_suffix_len t m <= length m - 1)%nat.
Proof. pose proof (suffix_match_spec t m (Nat.min (length t) (length m - 1))) as (H & _). unfold marker_suffix_len. lia. Qed.
(** Where a marker, or the beginning of one, shows up later is behind what was released. *)
Lemma marker_behind r x m e : (e <= length r)%nat -> (length r < e + length m)%nat -> (exists l, starts_with (take l (drop e (r ++ x))) m = true /\ (length r - e <= l)%nat) ->
  (length r - marker_suffix_len r m <= e)%nat.
Proof.
  intros He Hl (l & Hm & Hll). assert (length r - e <= marker_suffix_len r m)%nat; [|lia]. apply marker_suffix_greatest; [lia|lia|].
  replace (length r - (length r - e))%nat with e by lia. apply (starts_with_shrinks _ _ (take (l - (length r - e)) x)).
  rewrite drop_app_le in Hm by done. rewrite take_app, take_ge in Hm by (rewrite length_drop; lia). by rewrite length_drop in Hm.
Qed.

(** ** The header of a phase. *)
Lemma drop_grows n (r x : str) : (n <= length r)%nat -> drop n (r ++ x) = drop n r ++ x.
Proof. intros. by rewrite drop_app_le. Qed.
Lemma starts_with_length p s : starts_with p s = true -> (length p <= length s)%nat.
Proof. intros [k ->]%starts_with_spec. rewrite length_app. lia. Qed.
Lemma starts_with_grows p s k : starts_with p s = true -> starts_with p (s ++ k) = true.
Proof. apply starts_with_app. Qed.
Section Header.
Context `{AtemCode}.
Lemma read_header_bound finishing rest h : read_header finishing rest = Ok (Some h) -> (0 < h.2 <= length rest)%nat.
Proof.
  unfold read_header. cbv zeta. intros E. destruct (negb _ && _); [done|].
  assert ((if starts_with START rest then length START else 0) <= length rest)%nat as Hn
    by (destruct (starts_with START rest) eqn:Es; [by apply starts_with_length | lia]).
  set (n := if starts_with START rest then length START else 0%nat) in *. clearbody n.
  destruct (starts_with RECIPIENT _) eqn:Er.
  - destruct (find MESSAGE _) as [q|] eqn:Ef; [|destruct finishing; discriminate E]. destruct (bool_decide _); [done|]. injection E as <-.
    apply find_inside in Ef; [|done]. apply starts_with_length in Er. rewrite !length_drop in *. change (length RECIPIENT) with 4%nat in *. change (length MESSAGE) with 11%nat in *. simpl snd. lia.
  - destruct (starts_with MESSAGE _) eqn:Em; [|destruct finishing; discriminate E]. injection E as <-.
    apply starts_with_length in Em. rewrite !length_drop in *. change (length RECIPIENT) with 4%nat in *. change (length MESSAGE) with 11%nat in *. simpl snd. lia.
Qed.
(** What is decided of a header stays decided. *)
Lemma read_header_grows f rest x : read_header false rest <> Ok None -> read_header f (rest ++ x) = read_header false rest.
Proof.
  unfold read_header. cbv zeta. change (negb false) with true. rewrite (andb_true_r (starts_with rest START)). intros Hd.
  destruct (negb (starts_with START rest) && starts_with rest START) eqn:E1; [done|].
  assert (starts_with START (rest ++ x) = starts_with START rest) as Ho.
  { destruct (starts_with START rest) eqn:Eo; [by apply starts_with_grows|]. by rewrite starts_with_settled. }
  rewrite Ho.
  replace (negb (starts_with START rest) && (starts_with (rest ++ x) START && negb f)) with false.
  2:{ symmetry. rewrite andb_assoc. apply andb_false_iff. left. apply andb_false_iff in E1 as [->|E1]; [done|]. apply andb_false_iff. right. destruct (starts_with (rest ++ x) START) eqn:E2; [|done].
      apply starts_with_shrinks in E2. congruence. }
  set (n := if starts_with START rest then length START else 0%nat) in *.
  assert (n <= length rest)%nat as Hn by (unfold n; destruct (starts_with START rest) eqn:E; [by apply starts_with_length | lia]).
  rewrite drop_grows by done. destruct (starts_with RECIPIENT (drop n rest)) eqn:Er.
  - rewrite (starts_with_grows _ _ x) by done. rewrite drop_grows by by apply starts_with_length.
    destruct (find MESSAGE _) as [q|] eqn:Ef; [|done]. rewrite (find_grows _ _ x _ Ef). pose proof Ef as Hq. apply find_inside in Hq; [|done].
    by rewrite take_app_le by lia.
  - destruct (starts_with MESSAGE (drop n rest)) eqn:Em; [|done]. rewrite (starts_with_grows MESSAGE _ x) by done.
    apply starts_with_spec in Em as [m ->]. done.
Qed.
End Header.

(** ** A pass on a text that grows. *)
Definition grow (x : str) (p : AtemStreamParser) : AtemStreamParser := with_raw (raw p ++ x) p.
(** What a client sees of a list of events, byte by byte: however the text is cut into events. *)
Inductive Atom : Type := ContentByte (b : byte) | ReasoningByte (b : byte) | Call (index : nat) (call : ParsedToolCall).
Definition atoms (e : AtemStreamEvent) : list Atom :=
  match e with Content text => ContentByte <$> text | Reasoning text => ReasoningByte <$> text | ToolCall i call => [Call i call] end.
Definition flow (events : list AtemStreamEvent) : list Atom := events ≫= atoms.
Lemma flow_app E1 E2 : flow (E1 ++ E2) = flow E1 ++ flow E2.
Proof. apply bind_app. Qed.
Definition text_atom (recipient : str) (b : byte) : Atom := if bool_decide (recipient = SELF) then ReasoningByte b else ContentByte b.
Lemma flow_text r t : flow [text_event r t] = text_atom r <$> t.
Proof. unfold flow, text_event, text_atom. cbn. rewrite app_nil_r. by destruct (bool_decide _). Qed.

Record phase_inside (p : AtemStreamParser) (phase : AtemActivePhase) : Prop := {
  inside_start : (cursor p < body_start phase)%nat;
  inside_emitted : (body_start phase <= emitted_until phase)%nat;
  inside_raw : (emitted_until phase <= length (raw p))%nat;
}.
(** The places the parser keeps are places of the text. *)
Record inside (p : AtemStreamParser) : Prop := {
  inside_cursor : (cursor p <= length (raw p))%nat;
  inside_active phase : active p = Some phase -> phase_inside p phase;
}.
Lemma phase_inside_grow x p phase : phase_inside p phase -> phase_inside (grow x p) phase.
Proof. intros [H1 H2 H3]. split; cbn; rewrite ?length_app; lia. Qed.
Lemma inside_grow x p : inside p -> inside (grow x p).
Proof. intros [H1 H2]. split; [cbn; rewrite length_app; lia|]. intros phase E. by apply phase_inside_grow, H2. Qed.

Section Passes.
Context `{AtemCode}.
Lemma activate_inside finishing p phase : inside p -> activate finishing p = Ok (Some phase) -> phase_inside p phase.
Proof.
  unfold activate. intros [Hc Ha]. destruct (active p) as [ph|]; [intros [= <-]; by apply Ha|].
  destruct (Nat.eqb_spec (cursor p) (length (raw p))) as [|Hne]; [done|]. destruct (read_header _ _) as [[h|]|] eqn:Eh; [|done|done].
  intros [= <-]. apply read_header_bound in Eh. rewrite length_drop in Eh. split; cbn; lia.
Qed.
Lemma activate_grows f x p : inside p -> activate false p <> Ok None -> activate f (grow x p) = activate false p.
Proof.
  unfold activate. intros [Hc _] Hd. cbn. destruct (active p) as [ph|]; [done|].
  destruct (Nat.eqb_spec (cursor p) (length (raw p))) as [|Hne]; [done|].
  rewrite length_app. destruct (Nat.eqb_spec (cursor p) (length (raw p) + length x)); [lia|].
  rewrite drop_grows by done. rewrite read_header_grows; [done|]. intros E. by rewrite E in Hd.
Qed.
Lemma phase_end_grows x p phase e : phase_inside p phase -> phase_end p phase = Some e -> phase_end (grow x p) phase = Some e.
Proof.
  intros [_ H1 H2]. unfold phase_end. destruct (find PHASE_END _) as [o|] eqn:E; [|done]. intros [= <-].
  cbn [raw grow with_raw]. rewrite drop_grows by lia. by rewrite (find_grows _ _ x _ E).
Qed.
Lemma phase_end_bound p phase e : phase_inside p phase -> phase_end p phase = Some e -> (body_start phase <= e)%nat /\ (e + length PHASE_END <= length (raw p))%nat.
Proof.
  intros [_ H1 H2]. unfold phase_end. destruct (find PHASE_END _) as [o|] eqn:E; [|done]. intros [= <-].
  apply find_inside in E; [|done]. rewrite length_drop in E. change (length PHASE_END) with 7%nat in *. lia.
Qed.
Lemma safe_end_bound finishing p phase : phase_inside p phase -> (safe_end finishing p phase <= length (raw p))%nat.
Proof.
  intros Hp. unfold safe_end. destruct (phase_end p phase) as [e|] eqn:E; [|destruct finishing; lia]. apply phase_end_bound in E; [|done]. lia.
Qed.
(** What is released of a phase is never before what was already released. *)
Lemma safe_end_grows f x p phase : phase_inside p phase -> phase_end p phase = None -> (safe_end false p phase <= safe_end f (grow x p) phase)%nat.
Proof.
  intros Hp En. pose proof Hp as [_ H1 H2]. unfold safe_end at 1. rewrite En. cbn [negb].
  set (s := safe_end f (grow x p) phase).
  destruct (decide (length (raw p) <= s)%nat) as [|Hs]; [lia|]. subst s.
  unfold safe_end in *. destruct (phase_end (grow x p) phase) as [e|] eqn:Ee.
  - pose proof Ee as Hb. apply phase_end_bound in Hb; [|by apply phase_inside_grow]. cbn in Hb. rewrite length_app in Hb.
    unfold phase_end in Ee. cbn [raw grow with_raw] in Ee. pose proof (find_spec PHASE_END (drop (body_start phase) (raw p ++ x))) as Hf.
    destruct (find PHASE_END (drop (body_start phase) (raw p ++ x))) as [o|]; [|done]. injection Ee as <-. destruct Hf as (_ & Hm & _). rewrite drop_drop in Hm.
    assert (length (raw p) < body_start phase + o + length PHASE_END)%nat as Hl.
    { destruct (decide (length (raw p) < body_start phase + o + length PHASE_END)%nat) as [|Hc]; [done|exfalso].
      change (length PHASE_END) with 7%nat in Hc.
      unfold phase_end in En. pose proof (find_spec PHASE_END (drop (body_start phase) (raw p))) as Hn. destruct (find PHASE_END (drop _ _)); [done|].
      assert (starts_with PHASE_END (drop o (drop (body_start phase) (raw p))) = true) as Ht; [|rewrite Hn in Ht; [done|rewrite length_drop; lia]].
      rewrite drop_drop. rewrite drop_grows in Hm by lia. rewrite starts_with_not_grows in Hm; [done|]. rewrite length_drop. change (length PHASE_END) with 7%nat. lia. }
    apply (marker_behind _ x); [lia|done|].
    apply starts_with_spec in Hm as [m Hm]. exists (length PHASE_END). split; [|lia]. rewrite Hm, take_app_length. by apply starts_with_spec; exists []; rewrite app_nil_r.
  - cbn [raw grow with_raw] in *. destruct f; [rewrite length_app in Hs; lia|]. rewrite length_app in Hs |- *. pose proof (marker_suffix_bound (raw p ++ x) PHASE_END) as [Hb1 Hb2]. change (length PHASE_END) with 7%nat in *.
    rewrite length_app in Hb1.
    apply (marker_behind _ x); [lia|change (length PHASE_END) with 7%nat; lia|].
    exists (length (raw p ++ x)). rewrite length_app. split; [|lia]. rewrite take_ge by (rewrite length_drop, length_app; lia).
    rewrite <- length_app. apply suffix_match_spec.
Qed.
(** *** What a pass releases. *)
Lemma slice_split (r : str) a b c : (a <= b <= c)%nat -> slice_of r a b ++ slice_of r b c = slice_of r a c.
Proof.
  intros Hb. unfold slice_of. replace (drop b r) with (drop (b - a) (drop a r)) by (rewrite drop_drop; f_equal; lia).
  replace (c - a)%nat with ((b - a) + (c - b))%nat by lia. generalize (drop a r) (b - a)%nat (c - b)%nat. clear. intros s n m.
  revert s. induction n as [|n IH]; intros [|y s]; cbn; [done|done|by rewrite take_nil|]. by rewrite IH.
Qed.
Lemma slice_empty (r : str) a b : (b <= a)%nat -> slice_of r a b = [].
Proof. intros. unfold slice_of. by replace (b - a)%nat with 0%nat by lia. Qed.
Lemma slice_grows (r x : str) a b : (b <= length r)%nat -> slice_of (r ++ x) a b = slice_of r a b.
Proof.
  intros Hb. unfold slice_of. destruct (decide (a <= b)%nat).
  - rewrite drop_grows by lia. rewrite take_app_le; [done|]. rewrite length_drop. lia.
  - by replace (b - a)%nat with 0%nat by lia.
Qed.
Definition reached (finishing : bool) (p : AtemStreamParser) (phase : AtemActivePhase) : nat :=
  if is_text_recipient (recipient phase) then Nat.max (emitted_until phase) (safe_end finishing p phase) else emitted_until phase.
Lemma release_spec finishing p phase : flow (release finishing p phase).1 =
    (if is_text_recipient (recipient phase) then text_atom (recipient phase) <$> slice_of (raw p) (emitted_until phase) (safe_end finishing p phase) else []) /\
  (release finishing p phase).2 = mkPhase (recipient phase) (body_start phase) (reached finishing p phase).
Proof.
  unfold release, reached. destruct (is_text_recipient _); cbn [andb]; [|by destruct phase].
  destruct (Nat.ltb_spec (emitted_until phase) (safe_end finishing p phase)); cbn [fst snd].
  - rewrite flow_text. split; [done|]. by rewrite Nat.max_r by lia.
  - rewrite slice_empty by done. split; [done|]. rewrite Nat.max_l by done. by destruct phase.
Qed.
(** Releasing, and releasing again when more is there, is releasing once. *)
Lemma release_twice f x p phase a : let q := with_active a p in let phase1 := (release false p phase).2 in
  phase_inside p phase -> phase_end p phase = None ->
  flow (release f (grow x p) phase).1 = flow (release false p phase).1 ++ flow (release f (grow x q) phase1).1 /\
  (release f (grow x p) phase).2 = (release f (grow x q) phase1).2.
Proof.
  intros q phase1 Hp He. pose proof (safe_end_bound false p phase Hp) as Hb. pose proof (safe_end_grows f x p phase Hp He) as Hg.
  pose proof (release_spec false p phase) as [F1 P1]. pose proof (release_spec f (grow x p) phase) as [F2 P2].
  pose proof (release_spec f (grow x q) phase1) as [F3 P3]. rewrite F1, F2, F3, P2, P3. subst phase1. rewrite P1.
  change (safe_end f (grow x q) (mkPhase (recipient phase) (body_start phase) (reached false p phase))) with (safe_end f (grow x p) phase).
  cbn [recipient body_start emitted_until raw grow with_raw with_active q]. unfold reached. cbn [recipient body_start emitted_until].
  change (safe_end f (grow x q) (mkPhase (recipient phase) (body_start phase) _)) with (safe_end f (grow x p) phase).
  destruct (is_text_recipient (recipient phase)); [|done]. split; [|f_equal; lia].
  rewrite <- fmap_app. f_equal. rewrite <- (slice_grows (raw p) x (emitted_until phase) (safe_end false p phase)) by done.
  destruct (Nat.max_spec (emitted_until phase) (safe_end false p phase)) as [[Hm ->]|[Hm ->]].
  - by rewrite slice_split by lia.
  - by rewrite (slice_empty _ _ (safe_end false p phase)) by done.
Qed.
Definition follows (E : list AtemStreamEvent) (a b : AtemStreamParser * Pass) : Prop := a.1 = b.1 /\
  match a.2, b.2 with
  | Stop A, Stop B => flow A = flow E ++ flow B
  | GoOn A, GoOn B => flow A = flow E ++ flow B
  | Failed e, Failed e' => e = e'
  | _, _ => False
  end.
Lemma close_follows E finishing p phase A B : flow A = flow E ++ flow B -> follows E (close_phase finishing p phase A) (close_phase finishing p phase B).
Proof.
  intros HF. unfold close_phase. destruct (phase_end p phase) as [e|].
  - destruct (negb _); [|by split]. destruct (phase_calls _ _ _); split; try done. cbn. by rewrite !flow_app, HF, app_assoc.
  - destruct (_ && _); [|by split]. destruct (phase_calls _ _ _); split; try done. cbn. by rewrite !flow_app, HF, app_assoc.
Qed.
Lemma serve_unfold finishing p phase : serve finishing p phase =
  close_phase finishing (with_active (Some (release finishing p phase).2) p) (release finishing p phase).2 (release finishing p phase).1.
Proof. unfold serve. by destruct (release finishing p phase). Qed.
Lemma serve_stop f x p phase q E : phase_inside p phase -> serve false p phase = (q, Stop E) -> exists phase1,
  active q = Some phase1 /\ follows E (serve f (grow x p) phase) (serve f (grow x q) phase1).
Proof.
  intros Hp. rewrite serve_unfold. unfold close_phase. pose proof (release_spec false p phase) as [_ P1].
  assert (phase_end (with_active (Some (release false p phase).2) p) (release false p phase).2 = phase_end p phase) as -> by by rewrite P1.
  destruct (phase_end p phase) as [e|] eqn:Ee.
  { destruct (negb _); [destruct (phase_calls _ _ _)|]; intros [=]. }
  cbn [andb]. intros [= <- <-]. exists (release false p phase).2. split; [done|].
  pose proof (release_twice f x p phase (Some (release false p phase).2) Hp Ee) as [F2 P2].
  rewrite !serve_unfold, <- P2. by apply close_follows.
Qed.
Lemma serve_grows f x p phase q r : phase_inside p phase -> serve false p phase = (q, r) -> match r with Stop _ => True | _ => serve f (grow x p) phase = (grow x q, r) end.
Proof.
  intros Hp. rewrite !serve_unfold. pose proof (release_spec false p phase) as [_ P1].
  destruct (phase_end p phase) as [e|] eqn:Ee.
  2:{ unfold close_phase. assert (phase_end (with_active (Some (release false p phase).2) p) (release false p phase).2 = phase_end p phase) as -> by by rewrite P1.
      rewrite Ee. by intros [= <- <-]. }
  pose proof (phase_end_grows x _ _ _ Hp Ee) as Eg. pose proof (phase_end_bound _ _ _ Hp Ee) as [Hb1 Hb2].
  assert (release f (grow x p) phase = release false p phase) as ->.
  { unfold release. assert (safe_end f (grow x p) phase = safe_end false p phase) as -> by (unfold safe_end; by rewrite Eg, Ee).
    cbn [raw grow with_raw]. rewrite slice_grows; [done|]. by apply safe_end_bound. }
  unfold close_phase. rewrite P1. set (ph := mkPhase _ _ _).
  change (phase_end (with_active _ p) ph) with (phase_end p phase). change (phase_end (with_active _ (grow x p)) ph) with (phase_end (grow x p) phase).
  rewrite Eg, Ee. subst ph. cbn [recipient body_start raw grow with_raw with_active tool_calls_emitted]. rewrite slice_grows by lia.
  destruct (negb _); [|by intros [= <- <-]]. by destruct (phase_calls _ _ _); intros [= <- <-].
Qed.
End Passes.

(** ** The loop. *)
Section Loop.
Context `{AtemCode}.
Record steady (p q : AtemStreamParser) : Prop := {
  steady_raw : raw q = raw p;
  steady_structured : structured q = structured p;
  steady_inside : inside q;
}.
Lemma serve_steady finishing p phase : inside p -> phase_inside p phase -> steady p (serve finishing p phase).1 /\
  match (serve finishing p phase).2 with GoOn _ => (cursor p < cursor (serve finishing p phase).1)%nat | _ => True end.
Proof.
  intros Hp Hi. rewrite serve_unfold. pose proof (release_spec finishing p phase) as [_ P1]. pose proof (safe_end_bound finishing p phase Hi) as Hb.
  rewrite P1. pose proof Hi as [Hi1 Hi2 Hi3]. assert (emitted_until phase <= reached finishing p phase <= length (raw p))%nat as Hr.
  { unfold reached. destruct (is_text_recipient (recipient phase)); lia. }
  unfold close_phase. set (ph := mkPhase _ _ _). assert (phase_inside p ph) as Hph by (split; cbn; lia).
  assert (forall q, raw q = raw p -> structured q = structured p -> cursor q = cursor p -> active q = Some ph -> steady p q) as Hstay.
  { intros q E1 E2 E3 E4. split; [done|done|]. split; [rewrite E1, E3; apply Hp|]. rewrite E4. intros ? [= <-]. split; rewrite ?E1, ?E3; apply Hph. }
  assert (forall q e, phase_end p ph = Some e -> raw q = raw p -> structured q = structured p -> cursor q = (e + length PHASE_END)%nat -> active q = None ->
    steady p q /\ (cursor p < cursor q)%nat) as Hnext.
  { intros q e Ee E1 E2 E3 E4. apply phase_end_bound in Ee as [He1 He2]; [|done]. cbn [ph body_start] in He1. rewrite E3. split; [|lia].
    split; [done|done|]. split; [by rewrite E1, E3|by rewrite E4]. }
  change (phase_end (with_active _ p) ph) with (phase_end p ph). destruct (phase_end p ph) as [e|].
  - destruct (negb _); [destruct (phase_calls _ _ _)|]; cbn [fst snd]; first [by apply (Hnext _ e) | split; [by apply Hstay|done]].
  - destruct (_ && _); [destruct (phase_calls _ _ _)|]; (split; [by apply Hstay|done]).
Qed.
Lemma one_phase_steady finishing p : inside p -> steady p (one_phase finishing p).1 /\
  match (one_phase finishing p).2 with GoOn _ => (cursor p < cursor (one_phase finishing p).1)%nat | _ => True end.
Proof.
  intros Hp. unfold one_phase. destruct (activate finishing p) as [[phase|]|] eqn:Ea; [|by repeat split; apply Hp|by repeat split; apply Hp].
  apply serve_steady; [done|]. by eapply activate_inside.
Qed.
Lemma one_phase_stop f x p q E : inside p -> one_phase false p = (q, Stop E) -> follows E (one_phase f (grow x p)) (one_phase f (grow x q)).
Proof.
  intros Hp. unfold one_phase at 1. destruct (activate false p) as [[phase|]|] eqn:Ea; [| |done].
  - intros Es. apply (serve_stop f x) in Es as (phase1 & Hq & Hf); [|by eapply activate_inside].
    unfold one_phase. rewrite activate_grows by (done || by rewrite Ea). rewrite Ea. unfold activate. cbn [active grow with_raw]. by rewrite Hq.
  - intros [= <- <-]. split; [done|]. by destruct (one_phase f (grow x p)).2.
Qed.
Lemma one_phase_grows f x p q r : inside p -> one_phase false p = (q, r) -> match r with Stop _ => True | _ => one_phase f (grow x p) = (grow x q, r) end.
Proof.
  intros Hp. unfold one_phase at 1. destruct (activate false p) as [[phase|]|] eqn:Ea; [|by intros [= <- <-]|].
  - intros Es. apply (serve_grows f x) in Es; [|by eapply activate_inside]. unfold one_phase. rewrite activate_grows by (done || by rewrite Ea). by rewrite Ea.
  - intros [= <- <-]. unfold one_phase. rewrite activate_grows by (done || by rewrite Ea). by rewrite Ea.
Qed.
Definition after (E : list AtemStreamEvent) (a : AtemStreamParser * parsed (list AtemStreamEvent)) : AtemStreamParser * parsed (list AtemStreamEvent) :=
  (a.1, let? more := a.2 in Ok (E ++ more)).
Lemma after_nil a : after [] a = a.
Proof. by destruct a as [? []]. Qed.
Lemma after_after E F a : after E (after F a) = after (E ++ F) a.
Proof. destruct a as [? []]; unfold after; cbn; [by rewrite app_assoc | done]. Qed.
Lemma phases_after fuel finishing p E : phases fuel finishing p E = after E (phases fuel finishing p []).
Proof.
  revert p E. induction fuel as [|fuel IH]; intros p E; [done|]. cbn [phases]. destruct (one_phase finishing p) as [q [m|m|e]]; [done| |done].
  rewrite (IH q (E ++ m)), (IH q ([] ++ m)), after_after. done.
Qed.
Lemma phases_fuel finishing n m p : inside p -> (length (raw p) - cursor p < n)%nat -> (length (raw p) - cursor p < m)%nat ->
  phases n finishing p [] = phases m finishing p [].
Proof.
  revert m p. induction n as [|n IH]; intros [|m] p Hp Hn Hm; [lia..|]. cbn [phases].
  pose proof (one_phase_steady finishing p Hp) as [[Hr _ Hi] Hc]. destruct (one_phase finishing p) as [q [E|E|e]]; [done| |done]. cbn in *.
  rewrite !(phases_after _ _ q E). f_equal. pose proof (inside_cursor _ Hi). apply IH; [done| |]; rewrite Hr; rewrite Hr in *; lia.
Qed.
Definition loop (finishing : bool) (p : AtemStreamParser) : AtemStreamParser * parsed (list AtemStreamEvent) := phases (S (length (raw p))) finishing p [].
Lemma loop_unfold finishing p : inside p -> loop finishing p =
  match one_phase finishing p with (q, Stop E) => (q, Ok E) | (q, Failed e) => (q, Err e) | (q, GoOn E) => after E (loop finishing q) end.
Proof.
  intros Hp. unfold loop at 1. cbn [phases]. pose proof (one_phase_steady finishing p Hp) as [[Hr _ Hi] Hc].
  destruct (one_phase finishing p) as [q [E|E|e]]; [done| |done]. rewrite phases_after. f_equal. cbn [fst snd] in *. unfold loop. pose proof (inside_cursor _ Hi).
  apply phases_fuel; rewrite ?Hr in *; [done|lia..].
Qed.
Lemma loop_ind finishing (P : AtemStreamParser -> Prop) :
  (forall p, inside p -> (forall q E, one_phase finishing p = (q, GoOn E) -> inside q -> P q) -> P p) -> forall p, inside p -> P p.
Proof.
  intros Hstep p. remember (length (raw p) - cursor p)%nat as n eqn:En. revert p En. induction (lt_wf n) as [n _ IH]. intros p -> Hp.
  apply Hstep; [done|]. intros q E Eq Hq. pose proof (one_phase_steady finishing p Hp) as [[Hr _ _] Hc]. rewrite Eq in Hr, Hc. cbn in *.
  pose proof (inside_cursor _ Hq). eapply IH; [|done|done]. rewrite Hr in *. lia.
Qed.
Lemma loop_steady finishing p : inside p -> steady p (loop finishing p).1.
Proof.
  revert p. refine (loop_ind finishing (fun p => steady p (loop finishing p).1) _). intros p Hp IH. rewrite loop_unfold by done. pose proof (one_phase_steady finishing p Hp) as [Hs _].
  destruct (one_phase finishing p) as [q [E|E|e]] eqn:Eq; [done| |done]. destruct (IH q E eq_refl (steady_inside _ _ Hs)) as [H1 H2 H3].
  destruct Hs as [S1 S2 S3]. cbn in *. split; cbn; [congruence..|done].
Qed.
(** Going on after a stop is not stopping: the events together are the same. *)
Definition joins (E : list AtemStreamEvent) (a b : AtemStreamParser * parsed (list AtemStreamEvent)) : Prop :=
  match a.2, b.2 with
  | Ok A, Ok B => a.1 = b.1 /\ flow A = flow E ++ flow B
  | Err e, Err e' => e = e'
  | _, _ => False
  end.
Lemma joins_after E A B a b : flow A = flow E ++ flow B -> joins [] a b -> joins E (after A a) (after B b).
Proof. intros HF. destruct a as [? []], b as [? []]; unfold joins; cbn; try done. intros [-> Hf]. split; [done|]. by rewrite !flow_app, HF, Hf, app_assoc. Qed.
Lemma joins_refl a : joins [] a a.
Proof. by destruct a as [? []]. Qed.
Lemma joins_more F E a b : joins E a b -> joins (F ++ E) (after F a) b.
Proof. destruct a as [? []], b as [? []]; unfold joins; cbn; try done. intros [-> Hf]. split; [done|]. by rewrite !flow_app, Hf, app_assoc. Qed.
Lemma loop_follows f x p : inside p -> forall q r, loop false p = (q, r) ->
  match r with Ok E => joins E (loop f (grow x p)) (loop f (grow x q)) | Err e => (loop f (grow x p)).2 = Err e end.
Proof.
  revert p. refine (loop_ind false (fun p => forall q r, loop false p = (q, r) -> _) _). intros p Hp IH q r. rewrite loop_unfold by done.
  pose proof (one_phase_steady false p Hp) as [Hs _].
  destruct (one_phase false p) as [q' [E|E|e]] eqn:Eq; cbn in Hs.
  - intros [= <- <-]. pose proof (one_phase_stop f x p q' E Hp Eq) as [Hf1 Hf2].
    rewrite (loop_unfold _ (grow x p)) by by apply inside_grow. rewrite (loop_unfold _ (grow x q')) by (apply inside_grow, Hs).
    destruct (one_phase f (grow x p)) as [a [A|A|a']], (one_phase f (grow x q')) as [b [B|B|b']]; cbn in Hf1, Hf2; try done; subst b.
    apply joins_after; [done|apply joins_refl].
  - intros Ea. destruct (loop false q') as [q2 r2] eqn:El. injection Ea as <- <-.
    pose proof (IH q' E eq_refl (steady_inside _ _ Hs) _ _ El) as Hi. rewrite (loop_unfold _ (grow x p)) by by apply inside_grow.
    rewrite (one_phase_grows f x p q' (GoOn E) Hp Eq). destruct r2 as [E2|e]; [by apply joins_more|unfold after; cbn [fst snd]; by rewrite Hi].
  - intros [= <- <-]. rewrite (loop_unfold _ (grow x p)) by by apply inside_grow. by rewrite (one_phase_grows f x p q' (Failed e) Hp Eq).
Qed.
End Loop.

(** ** Plain or structured. *)
Lemma skip_white_app l k : skip_white l <> [] -> skip_white (l ++ k) = skip_white l ++ k.
Proof. induction l as [|c l IH]; [done|]. cbn. by destruct (is_white c). Qed.
Lemma trim_start_grows s x : utf8_valid s = true -> trim_start s <> [] -> trim_start (s ++ x) = trim_start s ++ x.
Proof.
  intros Hv Hne. unfold trim_start in *. rewrite chars_app by done. rewrite skip_white_app by (intros E; by rewrite E in Hne).
  by rewrite join_app, chars_concat.
Qed.
Lemma has_text_grows n h k : has_text n h = true -> has_text n (h ++ k) = true.
Proof.
  unfold has_text. rewrite !bool_decide_eq_true. destruct (find n h) as [p|] eqn:E; [|done]. intros _. by rewrite (find_grows _ _ k _ E).
Qed.
Section Stream.
Context `{AtemCode}.
Lemma discriminate_grows f s x b : utf8_valid s = true -> discriminate false s = Some b -> discriminate f (s ++ x) = Some b.
Proof.
  intros Hv. unfold discriminate. cbv zeta. change (negb false) with true. rewrite !andb_true_r.
  destruct (unresolved_start (trim_start s)) eqn:Eu; [done|].
  assert (trim_start s <> []) as Hne by by intros E; rewrite E in Eu.
  rewrite trim_start_grows by done. set (t := trim_start s) in *. clearbody t. unfold unresolved_start in *. apply orb_false_iff in Eu as [E1 E2].
  assert (forall w, starts_with t w = false -> starts_with (t ++ x) w = false) as Hs.
  { intros w Hw. destruct (starts_with (t ++ x) w) eqn:E; [|done]. apply starts_with_shrinks in E. congruence. }
  rewrite !Hs by done. cbn [orb]. assert (structured_start (t ++ x) = structured_start t) as ->.
  { unfold structured_start. by rewrite !starts_with_settled. }
  destruct (structured_start t); cbn [andb]; [|done]. destruct (has_text MESSAGE t) eqn:Ec; [|done]. by rewrite has_text_grows.
Qed.
(** What holds of the parser between two pieces. *)
Record sound (p : AtemStreamParser) : Prop := {
  sound_text : utf8_valid (raw p) = true;
  sound_inside : inside p;
  sound_plain : (plain_emitted p <= length (raw p))%nat;
}.
Lemma sound_grow x p : utf8_valid x = true -> sound p -> sound (grow x p).
Proof. intros Hx [H1 H2 H3]. split; [|by apply inside_grow|]; cbn [raw grow with_raw plain_emitted]; [by rewrite utf8_valid_app|rewrite length_app; lia]. Qed.
Lemma inside_same p q : raw q = raw p -> cursor q = cursor p -> active q = active p -> inside p -> inside q.
Proof. intros E1 E2 E3 [H1 H2]. split; [by rewrite E1, E2|]. rewrite E3. intros phase [A1 A2 A3]%H2. split; by rewrite ?E1, ?E2. Qed.
Lemma inside_structured b p : inside p -> inside (with_structured b p).
Proof. by apply inside_same. Qed.
Lemma with_structured_id b p : structured p = Some b -> with_structured b p = p.
Proof. intros E. unfold with_structured. rewrite <- E. by destruct p. Qed.
Lemma one_phase_plain finishing p : plain_emitted (one_phase finishing p).1 = plain_emitted p.
Proof.
  unfold one_phase. destruct (activate _ _) as [[ph|]|]; [|done|done]. rewrite serve_unfold. unfold close_phase.
  repeat (case_match; try done).
Qed.
Lemma phases_plain fuel finishing p E : plain_emitted (phases fuel finishing p E).1 = plain_emitted p.
Proof.
  revert p E. induction fuel as [|fuel IH]; intros p E; [done|]. cbn [phases]. pose proof (one_phase_plain finishing p) as Hp.
  destruct (one_phase finishing p) as [q [A|A|e]]; cbn in Hp; [done| |done]. by rewrite IH.
Qed.
Lemma drain_as_sound b finishing p : sound p -> sound (drain_as b finishing p).1 /\ raw (drain_as b finishing p).1 = raw p /\ structured (drain_as b finishing p).1 = Some b.
Proof.
  intros [H1 H2 H3]. unfold drain_as. destruct b.
  - pose proof (inside_structured true p H2) as Hi. destruct (loop_steady finishing _ Hi) as [R1 R2 R3]. unfold loop in *.
    change (raw (with_structured true p)) with (raw p) in *. split; [split|by split]; [by rewrite R1|done|]. rewrite phases_plain, R1. done.
  - unfold drain_plain. destruct (_ <? _)%nat; (split; [split|by split]); try done; by apply (inside_same p).
Qed.
Definition shown (p : AtemStreamParser) : AtemStreamParser :=
  mkAtemParser (raw p) (structured p) (cursor p) (length (raw p)) (active p) (tool_calls_emitted p).
Lemma drain_plain_spec p : (plain_emitted p <= length (raw p))%nat -> exists E, drain_plain p = (shown p, Ok E) /\ flow E = ContentByte <$> drop (plain_emitted p) (raw p).
Proof.
  intros Hp. unfold drain_plain. destruct (Nat.ltb_spec (plain_emitted p) (length (raw p))).
  - eexists. split; [done|]. cbn. by rewrite app_nil_r.
  - exists []. rewrite drop_ge by done. split; [|done]. unfold shown. replace (length (raw p)) with (plain_emitted p) by lia. by destruct p.
Qed.
Lemma drain_as_follows f b x p : sound p -> forall q r, drain_as b false p = (q, r) ->
  match r with Ok E => joins E (drain_as b f (grow x p)) (drain_as b f (grow x q)) | Err e => (drain_as b f (grow x p)).2 = Err e end.
Proof.
  intros [H1 H2 H3] q r. destruct b.
  - intros Eq. pose proof (loop_steady false _ (inside_structured true p H2)) as [_ Hst _].
    pose proof (loop_follows f x _ (inside_structured true p H2) q r Eq) as Hf. unfold loop in Hst. unfold drain_as in Eq. rewrite Eq in Hst. cbn [fst structured with_structured] in Hst.
    change (drain_as true f (grow x p)) with (loop f (grow x (with_structured true p))).
    destruct r as [E|e]; [|done]. change (drain_as true f (grow x q)) with (loop f (grow x (with_structured true q))). by rewrite (with_structured_id true q).
  - unfold drain_as. destruct (drain_plain_spec (with_structured false p) H3) as (E1 & -> & F1). intros [= <- <-].
    destruct (drain_plain_spec (with_structured false (grow x p))) as (E2 & -> & F2); [cbn; rewrite length_app; lia|].
    destruct (drain_plain_spec (with_structured false (grow x (shown (with_structured false p))))) as (E3 & -> & F3); [cbn; rewrite length_app; lia|].
    split; [done|]. rewrite F1, F2, F3, <- fmap_app. f_equal. cbn [raw with_structured plain_emitted grow with_raw shown] in *.
    by rewrite !drop_grows, drop_all by done.
Qed.
Lemma drain_sound finishing p : sound p -> sound (drain finishing p).1 /\ raw (drain finishing p).1 = raw p.
Proof.
  intros Hp. unfold drain. destruct (structured p) as [b|]; [|destruct (discriminate finishing (raw p)) as [b|]; [|done]];
    by destruct (drain_as_sound b finishing p Hp) as (? & ? & ?).
Qed.
Lemma drain_follows f x p : sound p -> forall q r, drain false p = (q, r) ->
  match r with Ok E => joins E (drain f (grow x p)) (drain f (grow x q)) | Err e => (drain f (grow x p)).2 = Err e end.
Proof.
  intros Hp q r. unfold drain at 1. destruct (structured p) as [b|] eqn:Es.
  - intros Eq. pose proof (drain_as_sound b false p Hp) as (_ & _ & Hb). rewrite Eq in Hb. cbn in Hb.
    pose proof (drain_as_follows f b x p Hp q r Eq) as Hf. unfold drain. cbn [structured grow with_raw]. by rewrite Es, Hb.
  - destruct (discriminate false (raw p)) as [b|] eqn:Ed; [|intros [= <- <-]; apply joins_refl].
    intros Eq. pose proof (drain_as_sound b false p Hp) as (_ & _ & Hb). rewrite Eq in Hb. cbn in Hb.
    pose proof (drain_as_follows f b x p Hp q r Eq) as Hf. unfold drain. cbn [structured grow with_raw raw]. rewrite Es, Hb.
    by rewrite (discriminate_grows f _ x b) by (done || apply Hp).
Qed.
End Stream.
