(* ===== verification/AtemAnswers.v ===== *)
(** * Streamed answers.

    The proofs about [AtemStream], continued: the parser's loops end, an answer in pieces is the
    answer in one piece, and what was streamed is what [parse_atem_output] makes of the whole
    text. *)
From Stdlib Require Import Strings.Byte.
From S2P Require Import Prelude Utf8 Utf8Scalar Substring Schema AtemStream AtemProofs.

(** ** The loops of the call parser end. *)
Lemma length_trim_start s : (length (trim_start s) <= length s)%nat.
Proof.
  rewrite <- (chars_concat s) at 2. unfold trim_start. induction (chars s) as [|c l IH]; [done|]. cbn [skip_white].
  destruct (is_white c); [|done]. change (mjoin (c :: l)) with (c ++ mjoin l). rewrite length_app. lia.
Qed.
Lemma strip_prefix_Some p s k : strip_prefix p s = Some k -> s = p ++ k.
Proof. unfold strip_prefix. destruct (starts_with p s) eqn:E; [|done]. apply starts_with_spec in E as [m ->]. rewrite drop_app_length. by intros [= ->]. Qed.
(** The loops over the whole text have enough turns: more of them change nothing. *)
Lemma remove_all_fuel n m needle s : needle <> [] -> (length s <= n)%nat -> (length s <= m)%nat -> remove_all n needle s = remove_all m needle s.
Proof.
  intros Hne. revert m s. assert (forall k s, length s = 0%nat -> remove_all k needle s = s) as H0.
  { intros k [|] Hs; [|done]. destruct k; [done|]. cbn. by destruct needle. }
  induction n as [|n IH]; intros m s Hn Hm; [by rewrite !H0 by lia|]. destruct m as [|m]; [by rewrite !H0 by lia|]. cbn [remove_all].
  destruct (find needle s) as [p|] eqn:E; [|done]. f_equal. apply find_inside in E; [|done]. destruct needle; [done|]. cbn [length] in E.
  apply IH; rewrite length_drop; cbn [length]; lia.
Qed.
Lemma split_at_all_fuel n m separator s : separator <> [] -> (length s <= n)%nat -> (length s <= m)%nat -> split_at_all n separator s = split_at_all m separator s.
Proof.
  intros Hne. revert m s. assert (forall k s, length s = 0%nat -> split_at_all k separator s = [s]) as H0.
  { intros k [|] Hs; [|done]. destruct k; [done|]. cbn. by destruct separator. }
  induction n as [|n IH]; intros m s Hn Hm; [by rewrite !H0 by lia|]. destruct m as [|m]; [by rewrite !H0 by lia|]. cbn [split_at_all].
  destruct (find separator s) as [p|] eqn:E; [|done]. f_equal. apply find_inside in E; [|done]. destruct separator; [done|]. cbn [length] in E.
  apply IH; rewrite length_drop; cbn [length]; lia.
Qed.
Lemma strip_all_fuel n m prefix s : prefix <> [] -> (length s <= n)%nat -> (length s <= m)%nat -> strip_all n prefix s = strip_all m prefix s.
Proof.
  intros Hne. revert m s. assert (forall k s, length s = 0%nat -> strip_all k prefix s = s) as H0.
  { intros k [|] Hs; [|done]. destruct k; [done|]. cbn. by destruct prefix. }
  induction n as [|n IH]; intros m s Hn Hm; [by rewrite !H0 by lia|]. destruct m as [|m]; [by rewrite !H0 by lia|]. cbn [strip_all].
  destruct (strip_prefix prefix s) as [k|] eqn:E; [|done]. apply strip_prefix_Some in E as ->. rewrite length_app in Hn, Hm. destruct prefix; [done|]. cbn [length] in Hn, Hm.
  apply IH; lia.
Qed.
Section Ends.
Context `{AtemCode}.
Lemma parse_parameters_ends fuel body parameters : (length body < fuel)%nat -> parse_parameters fuel body parameters <> Err OutOfFuel.
Proof.
  revert body parameters. induction fuel as [|fuel IH]; intros body parameters Hf; [lia|]. cbn [parse_parameters].
  pose proof (length_trim_start body) as Ht. destruct (trim_start body) as [|b rest] eqn:Eb; [done|]. rewrite <- Eb in Ht.
  destruct (strip_prefix PARAMETER_OPEN _) as [inner|] eqn:Es; [|done]. cbn [ok_or]. apply strip_prefix_Some in Es. rewrite Eb, Es, length_app in Ht.
  change (length PARAMETER_OPEN) with 22%nat in Ht.
  destruct (find NAME_CLOSE inner) as [name_end|]; [|done]. cbn [ok_or]. destruct (bool_decide _); [done|].
  destruct (find PARAMETER_CLOSE _) as [value_end|]; [|done]. cbn [ok_or]. destruct (_ || _); [done|]. destruct (bool_decide _); [done|].
  apply IH. rewrite !length_drop. lia.
Qed.
Lemma parse_invokes_ends fuel text calls : (length text < fuel)%nat -> parse_invokes fuel text calls <> Err OutOfFuel.
Proof.
  revert text calls. induction fuel as [|fuel IH]; intros text calls Hf; [lia|]. cbn [parse_invokes].
  pose proof (length_trim_start text) as Ht. destruct (trim_start text) as [|b rest] eqn:Eb; [done|]. rewrite <- Eb in Ht.
  destruct (strip_prefix INVOKE_OPEN _) as [inner|] eqn:Es; [|done]. cbn [ok_or]. apply strip_prefix_Some in Es. rewrite Eb, Es, length_app in Ht.
  change (length INVOKE_OPEN) with 19%nat in Ht.
  destruct (find NAME_CLOSE inner) as [quote|]; [|done]. cbn [ok_or]. destruct (_ || _); [done|].
  destruct (find INVOKE_CLOSE _) as [end_|]; [|done]. cbn [ok_or].
  destruct (parse_parameters _ _ _) as [parameters|e] eqn:Ep; [|intros [= ->]; by apply parse_parameters_ends in Ep; [|lia]].
  apply IH. rewrite !length_drop. lia.
Qed.
Lemma parse_atem_calls_ends text : parse_atem_calls text <> Err OutOfFuel.
Proof.
  unfold parse_atem_calls. destruct (_ ≫= _) as [inner|]; [|done]. cbn [ok_or].
  destruct (parse_invokes _ _ _) as [[|]|e] eqn:Ep; [done..|]. intros [= ->]. by apply parse_invokes_ends in Ep; [|lia].
Qed.
Lemma phase_calls_ends r body n : phase_calls r body n <> Err OutOfFuel.
Proof.
  unfold phase_calls. destruct (parse_atem_calls body) eqn:E; [|intros [= ->]; by apply parse_atem_calls_ends in E].
  unfold validate_atem_recipient. by destruct (_ || _).
Qed.
Lemma one_phase_ends f p : (one_phase f p).2 <> Failed OutOfFuel.
Proof.
  unfold one_phase. destruct (activate f p) as [[ph|]|e] eqn:Ea; [|done|].
  - rewrite serve_unfold. unfold close_phase. repeat (case_match; try done); intros [= ->]; by eapply phase_calls_ends.
  - intros [= ->]. unfold activate, read_header in Ea. cbv zeta in Ea. repeat (case_match; try done); simplify_eq.
Qed.
Lemma loop_ends f p : inside p -> (loop f p).2 <> Err OutOfFuel.
Proof.
  revert p. refine (loop_ind f (fun p => (loop f p).2 <> Err OutOfFuel) _). intros p Hp IH. rewrite loop_unfold by done.
  pose proof (one_phase_steady f p Hp) as [[_ _ Hi] _]. pose proof (one_phase_ends f p) as He.
  destruct (one_phase f p) as [q [E|E|e]]; [done| |by intros [= ->]]. specialize (IH q E eq_refl Hi). unfold after.
  by destruct (loop f q) as [? []].
Qed.
Lemma drain_ends f p : sound p -> (drain f p).2 <> Err OutOfFuel.
Proof.
  intros [H1 H2 H3]. assert (forall b, (drain_as b f p).2 <> Err OutOfFuel) as Hd.
  { intros [|]; [by apply (loop_ends f (with_structured true p)), inside_structured|]. unfold drain_as, drain_plain. by destruct (_ <? _)%nat. }
  unfold drain. destruct (structured p); [done|]. by destruct (discriminate f (raw p)).
Qed.
Lemma validate_ends r calls : validate_atem_recipient r calls <> Err OutOfFuel.
Proof. unfold validate_atem_recipient. by destruct (_ || _). Qed.
Lemma phase_header_ends phase : phase_header phase <> Err OutOfFuel.
Proof. unfold phase_header. destruct (strip_prefix _ _) as [rest|]; [|done]. by destruct (split_once_at _ _) as [[]|]. Qed.
Lemma add_phase_ends out phase : add_phase out phase <> Err OutOfFuel.
Proof.
  unfold add_phase. destruct (phase_header _) as [[r body]|e] eqn:Eh; [|intros [= ->]; by apply phase_header_ends in Eh].
  destruct (bool_decide _); [done|]. destruct (bool_decide _); [done|]. destruct (has_text _ _).
  - destruct (parse_atem_calls body) as [calls|e] eqn:Ec; [|intros [= ->]; by apply parse_atem_calls_ends in Ec].
    destruct (validate_atem_recipient r calls) as [|e] eqn:Ev; [done|]. intros [= ->]. by apply validate_ends in Ev.
  - by destruct (bool_decide _).
Qed.
Lemma add_phases_ends l out : add_phases out l <> Err OutOfFuel.
Proof.
  revert out. induction l as [|ph l IH]; intros out; [done|]. cbn [add_phases].
  destruct (add_phase out ph) as [out'|e] eqn:E; [apply IH|]. intros [= ->]. by apply add_phase_ends in E.
Qed.
End Ends.

(** ** An answer in pieces. *)
Section Pieces.
Context `{AtemCode}.
Lemma push_all_after pieces p E : push_all pieces p E = after E (push_all pieces p []).
Proof.
  revert p E. induction pieces as [|x pieces IH]; intros p E; cbn [push_all]; [unfold after; cbn; by rewrite app_nil_r|].
  destruct (push x p) as [q [A|e]]; [|done]. by rewrite (IH q (E ++ A)), (IH q ([] ++ A)), after_after.
Qed.
Lemma grow_nil p : grow [] p = p.
Proof. unfold grow, with_raw. rewrite app_nil_r. by destruct p. Qed.
Lemma grow_grow x y p : grow y (grow x p) = grow (x ++ y) p.
Proof. unfold grow, with_raw. cbn. by rewrite app_assoc. Qed.
Lemma push_all_follows pieces p q E : Forall (fun x => utf8_valid x = true) pieces -> sound p -> drain false p = (q, Ok E) ->
  sound q /\ match push_all pieces q [] with
  | (q', Ok E') => sound q' /\ exists A, drain false (grow (mjoin pieces) p) = (q', Ok A) /\ flow A = flow E ++ flow E'
  | (_, Err e) => (drain false (grow (mjoin pieces) p)).2 = Err e
  end.
Proof.
  intros Hv. revert p q E. induction Hv as [|x pieces Hx Hv IH]; intros p q E Hp Hd; (assert (sound q) as Hq by (pose proof (drain_sound false p Hp) as [Hs _]; by rewrite Hd in Hs)).
  - split; [done|]. cbn [push_all]. split; [done|]. exists E. cbn. by rewrite grow_nil, app_nil_r.
  - split; [done|]. cbn [push_all]. change (push x q) with (drain false (grow x q)). change (mjoin (x :: pieces)) with (x ++ mjoin pieces). rewrite <- grow_grow.
    pose proof (drain_follows false x p Hp q (Ok E) Hd) as Hj. unfold joins in Hj.
    destruct (drain false (grow x p)) as [a r] eqn:Ea, (drain false (grow x q)) as [b r'] eqn:Eb. cbn [fst snd] in Hj.
    destruct r as [A|e], r' as [B|e']; try done.
    + destruct Hj as [<- HF]. specialize (IH _ _ _ (sound_grow x p Hx Hp) Ea) as [_ IH]. rewrite push_all_after. destruct (push_all pieces a []) as [q' [E'|e]]; cbn; [|done].
      destruct IH as [Hs (A' & HA & HF')]. split; [done|]. exists A'. split; [done|]. by rewrite HF', HF, flow_app, app_assoc.
    + subst e'. pose proof (drain_follows false (mjoin pieces) (grow x p) (sound_grow x p Hx Hp) _ _ Ea) as Hf. done.
Qed.
Lemma sound_default : sound AtemStreamParser_default.
Proof. split; [done|split; [done|done]|done]. Qed.
Lemma drain_default : drain false AtemStreamParser_default = (AtemStreamParser_default, Ok []).
Proof. reflexivity. Qed.
(** The state and the events after the pieces. *)
Lemma push_all_whole pieces : Forall (fun x => utf8_valid x = true) pieces ->
  match push_all pieces AtemStreamParser_default [] with
  | (q, Ok E) => sound q /\ exists A, drain false (grow (mjoin pieces) AtemStreamParser_default) = (q, Ok A) /\ flow A = flow E
  | (_, Err e) => (drain false (grow (mjoin pieces) AtemStreamParser_default)).2 = Err e
  end.
Proof.
  intros Hv. pose proof (push_all_follows pieces _ _ _ Hv sound_default drain_default) as [_ Hf]. done.
Qed.
End Pieces.

(** ** Headers, whole. *)
Lemma find_in_take n h p k : find n h = Some p -> (p + length n <= k)%nat -> find n (take k h) = Some p.
Proof.
  intros E Hk. destruct (find n (take k h)) as [q|] eqn:Eq.
  - apply (find_grows _ _ (drop k h)) in Eq. rewrite take_drop in Eq. congruence.
  - pose proof (find_spec n (take k h)) as Hs. rewrite Eq in Hs. pose proof (find_spec n h) as Hh. rewrite E in Hh. destruct Hh as (Hp & [m Hm]%starts_with_spec & _).
    assert (starts_with n (drop p (take k h)) = true) as Ht.
    { apply starts_with_spec. exists (take (k - p - length n) m). rewrite skipn_firstn_comm, Hm, take_app, take_ge by lia. done. }
    rewrite Hs in Ht; [done|]. rewrite length_take. lia.
Qed.
Lemma find_skip n a y : (forall q, (q < length a)%nat -> starts_with n (drop q (a ++ y)) = false) -> find n (a ++ y) = (fun o => (length a + o)%nat) <$> find n y.
Proof.
  induction a as [|c a IH]; intros Hq; [by cbn [app]; destruct (find n y)|]. cbn [app find]. pose proof (Hq 0%nat ltac:(cbn; lia)) as H0. cbn [drop app] in H0. rewrite H0.
  rewrite IH by (intros q Hlt; apply (Hq (S q)); cbn; lia). by destruct (find n y).
Qed.
Lemma strip_all_none fuel prefix s : starts_with prefix s = false -> strip_all fuel prefix s = s.
Proof. intros E. destruct fuel; [done|]. cbn. unfold strip_prefix. by rewrite E. Qed.
Lemma strip_all_once fuel prefix s : starts_with prefix s = false -> strip_all (S fuel) prefix (prefix ++ s) = s.
Proof.
  intros E. cbn [strip_all]. unfold strip_prefix at 1. rewrite (proj2 (starts_with_spec prefix (prefix ++ s))) by (by exists s). rewrite drop_app_length. by apply strip_all_none.
Qed.
(** The headers [read_header] takes. *)
Definition opening (s : str) : Prop := s = [] \/ s = START.
Inductive header_of : str -> str -> Prop :=
| header_user s : opening s -> header_of (s ++ MESSAGE) USER
| header_to s name : opening s -> find MESSAGE (name ++ MESSAGE) = Some (length name) -> header_of (s ++ RECIPIENT ++ name ++ MESSAGE) (trim name).
Definition header_body (phase : str) : parsed (str * str) := phase_header (strip_all (length phase) START phase).
Lemma header_body_opened s y : opening s -> starts_with START y = false -> header_body (s ++ y) = phase_header y.
Proof. intros [->| ->] Hy; unfold header_body; [by rewrite strip_all_none|]. rewrite length_app. apply f_equal. by apply (strip_all_once (17 + length y)). Qed.
Section Headers.
Context `{AtemCode}.
Lemma read_header_shape rest r b : read_header true rest = Ok (Some (r, b)) -> exists head, header_of head r /\ length head = b /\ rest = head ++ drop b rest.
Proof.
  unfold read_header. cbv zeta. rewrite !andb_false_r. intros E.
  assert (exists s y, opening s /\ rest = s ++ y /\ drop (if starts_with START rest then length START else 0%nat) rest = y /\
    (if starts_with START rest then length START else 0%nat) = length s) as (s & y & Hs & Er & Ey & El).
  { destruct (starts_with START rest) eqn:Es; [|by exists [], rest; repeat split; left]. apply starts_with_spec in Es as [k ->]. exists START, k. split; [by right|]. split; [done|]. split; [apply drop_app_length|done]. }
  rewrite Ey, El in E. destruct (starts_with RECIPIENT y) eqn:Et.
  - apply starts_with_spec in Et as [z ->]. rewrite drop_app_length in E. destruct (find MESSAGE z) as [q|] eqn:Ef; [|done].
    destruct (bool_decide _); [done|]. injection E as <- <-. pose proof Ef as Hin. apply find_inside in Hin; [|done]. pose proof (find_Some _ _ _ Ef) as (k & Ez & Hq).
    exists (s ++ RECIPIENT ++ take q z ++ MESSAGE). split; [|split].
    + constructor; [done|]. rewrite length_take_le by done. assert (take q z ++ MESSAGE = take (q + 11) z) as ->; [|by apply find_in_take].
      rewrite <- (take_take_drop z q 11) by done. f_equal. rewrite Ez, drop_app_length' by by rewrite length_take_le. by rewrite take_app_length' by done.
    + rewrite !length_app, length_take_le by done. change (length RECIPIENT) with 4%nat. change (length MESSAGE) with 11%nat. lia.
    + rewrite Er. replace (length s + 4 + q + 11)%nat with (length (s ++ RECIPIENT ++ take q z ++ MESSAGE))
        by (rewrite !length_app, length_take_le by done; change (length RECIPIENT) with 4%nat; change (length MESSAGE) with 11%nat; lia).
      assert (s ++ RECIPIENT ++ z = (s ++ RECIPIENT ++ take q z ++ MESSAGE) ++ k) as -> by (rewrite Ez at 1; by rewrite <- !app_assoc). by rewrite drop_app_length.
  - destruct (starts_with MESSAGE y) eqn:Em; [|done]. injection E as <- <-. apply starts_with_spec in Em as [z ->].
    exists (s ++ MESSAGE). split; [by constructor|]. split; [by rewrite length_app|]. rewrite Er, app_assoc. by rewrite drop_app_length' by by rewrite length_app.
Qed.
End Headers.

(** What [parse_atem_output] reads of a phase that starts with such a header. *)
Lemma split_once_found separator s p : find separator s = Some p -> split_once_at separator s = Some (take p s, drop (p + length separator) s).
Proof. intros E. unfold split_once_at. by rewrite E. Qed.
Lemma header_read head r t : header_of head r -> header_body (head ++ t) = Ok (r, t).
Proof.
  intros [s Hs|s name Hs Hf]; rewrite <- app_assoc; rewrite header_body_opened by done; unfold phase_header; [done|].
  rewrite <- app_assoc. unfold strip_prefix. rewrite (proj2 (starts_with_spec _ _)) by (by eexists). rewrite drop_app_length.
  apply (find_grows _ _ t) in Hf. rewrite (split_once_found _ _ _ Hf). cbn [ok_or].
  rewrite <- app_assoc, take_app_length. by rewrite app_assoc, drop_app_length' by by rewrite length_app.
Qed.
(** The phase ends behind its header, or is not a phase. *)
Ltac no_end_inside := let q := fresh "q" in let Hq := fresh "Hq" in
  intros q Hq; cbn in Hq; repeat (destruct q as [|q]; [reflexivity|]); exfalso; lia.
Lemma end_behind_message s t : opening s -> find PHASE_END ((s ++ MESSAGE) ++ t) = (fun o => (length (s ++ MESSAGE) + o)%nat) <$> find PHASE_END t.
Proof. intros [->| ->]; apply find_skip; no_end_inside. Qed.
Lemma end_behind_recipient s t : opening s -> find PHASE_END ((s ++ RECIPIENT) ++ t) = (fun o => (length (s ++ RECIPIENT) + o)%nat) <$> find PHASE_END t.
Proof. intros [->| ->]; apply find_skip; no_end_inside. Qed.
Lemma header_end head r t : header_of head r -> let whole := head ++ t in
  find PHASE_END whole = (fun o => (length head + o)%nat) <$> find PHASE_END t \/
  exists i e, find PHASE_END whole = Some i /\ header_body (take i whole) = Err e.
Proof.
  intros [s Hs|s name Hs Hf]; cbv zeta; [left; by apply end_behind_message|].
  replace ((s ++ RECIPIENT ++ name ++ MESSAGE) ++ t) with ((s ++ RECIPIENT) ++ name ++ MESSAGE ++ t) by by rewrite <- !app_assoc.
  rewrite end_behind_recipient by done. pose proof (find_spec PHASE_END (name ++ MESSAGE ++ t)) as Hs2.
  assert ((forall q, (q < length name)%nat -> starts_with PHASE_END (drop q (name ++ MESSAGE ++ t)) = false) ->
    (fun o => (length (s ++ RECIPIENT) + o)%nat) <$> find PHASE_END (name ++ MESSAGE ++ t) =
    (fun o => (length (s ++ RECIPIENT ++ name ++ MESSAGE) + o)%nat) <$> find PHASE_END t) as Hname.
  { intros Hq. rewrite find_skip by done. pose proof (end_behind_message [] t (or_introl eq_refl)) as Hm. cbn [app] in Hm. rewrite Hm.
    destruct (find PHASE_END t); [|done]. cbn [fmap option_fmap option_map]. f_equal. rewrite !length_app. lia. }
  destruct (find PHASE_END (name ++ MESSAGE ++ t)) as [j|] eqn:Ej; [destruct (decide (j < length name)%nat) as [Hj|Hj]|].
  - right. eexists _, _. split; [done|]. rewrite take_app_add, take_app_le by lia.
    rewrite <- app_assoc, header_body_opened by done. unfold phase_header, strip_prefix. rewrite (proj2 (starts_with_spec _ _)) by (by eexists). rewrite drop_app_length.
    unfold split_once_at. destruct (find MESSAGE (take j name)) as [p|] eqn:Ep; [|done]. exfalso.
    pose proof Ep as Hin. apply find_inside in Hin; [|done]. apply (find_grows _ _ (drop j name ++ MESSAGE)) in Ep.
    rewrite app_assoc, take_drop, Hf in Ep. injection Ep as <-. rewrite length_take in Hin. change (length MESSAGE) with 11%nat in Hin. lia.
  - left. apply Hname. intros q Hq. apply Hs2. lia.
  - left. apply Hname. intros q Hq. apply Hs2. rewrite length_app. lia.
Qed.

(** ** The message that was streamed. *)
Definition contents (fl : list Atom) : str := omap (fun a => match a with ContentByte b => Some b | _ => None end) fl.
Definition reasonings (fl : list Atom) : str := omap (fun a => match a with ReasoningByte b => Some b | _ => None end) fl.
Definition called (fl : list Atom) : list (nat * ParsedToolCall) := omap (fun a => match a with Call i c => Some (i, c) | _ => None end) fl.
(** The output has grown by what was streamed; its calls are numbered from [n]. *)
Definition grown (n : nat) (out : ParsedAtemOutput) (fl : list Atom) (out' : ParsedAtemOutput) : Prop := exists new,
  out' = mkAtemOutput (o_content out ++ contents fl) (o_reasoning out ++ reasonings fl) (o_tool_calls out ++ new) /\
  called fl = imap (fun i c => ((n + i)%nat, c)) new.
Definition named_user (call : ParsedToolCall) : Prop := fc_name (tc_function call) = USER.
Lemma grown_nil n out : grown n out [] out.
Proof. exists []. split; [|done]. destruct out. cbn. by rewrite !app_nil_r. Qed.
Lemma grown_trans n out f1 out1 m f2 out2 : grown n out f1 out1 -> m = (n + length (called f1))%nat -> grown m out1 f2 out2 -> grown n out (f1 ++ f2) out2.
Proof.
  intros (n1 & -> & E1) -> (n2 & -> & E2). exists (n1 ++ n2). cbn. unfold contents, reasonings, called in *. rewrite !omap_app, <- !app_assoc. split; [done|].
  rewrite E2, E1, imap_app, length_imap. f_equal. apply imap_ext. intros. cbn. f_equal. lia.
Qed.
Lemma grown_calls n out calls : grown n out (imap (fun i c => Call (n + i) c) calls) (mkAtemOutput (o_content out) (o_reasoning out) (o_tool_calls out ++ calls)).
Proof.
  exists calls. assert (forall k (g : nat -> nat), contents (imap (fun i c => Call (g i) c) k) = [] /\ reasonings (imap (fun i c => Call (g i) c) k) = [] /\
    called (imap (fun i c => Call (g i) c) k) = imap (fun i c => (g i, c)) k) as Hc.
  { induction k as [|c k IH]; intros g; [done|]. cbn [imap]. specialize (IH (fun i => g (S i))) as (I1 & I2 & I3). repeat split; [exact I1|exact I2|]. cbn. f_equal. exact I3. }
  destruct (Hc calls (fun i => (n + i)%nat)) as (-> & -> & ->). by rewrite !app_nil_r.
Qed.
Lemma contents_text r t : contents (text_atom r <$> t) = (if bool_decide (r = SELF) then [] else t) /\ reasonings (text_atom r <$> t) = (if bool_decide (r = SELF) then t else []) /\
  called (text_atom r <$> t) = [].
Proof. unfold text_atom. destruct (bool_decide _); induction t as [|b t (I1 & I2 & I3)]; cbn; repeat split; try done; f_equal; done. Qed.
Lemma flow_calls n calls : flow (imap (fun i call => ToolCall (n + i) call) calls) = imap (fun i c => Call (n + i) c) calls.
Proof.
  assert (forall k (g : nat -> nat), flow (imap (fun i call => ToolCall (g i) call) k) = imap (fun i c => Call (g i) c) k) as Hc; [|apply (Hc calls (fun i => (n + i)%nat))].
  induction k as [|c k IH]; intros g; [done|]. cbn [imap]. change (Call (g 0%nat) c :: flow (imap (fun i call => ToolCall (g (S i)) call) k) = Call (g 0%nat) c :: imap (fun i c => Call (g (S i)) c) k).
  f_equal. apply (IH (fun i => g (S i))).
Qed.
Section Messages.
Context `{AtemCode}.
Lemma add_phase_text head r body out out' n : header_of head r -> is_text_recipient r = true -> add_phase out (head ++ body) = Ok out' -> Forall (fun c => ~ named_user c) (o_tool_calls out') ->
  grown n out (text_atom r <$> body) out'.
Proof.
  intros Hh Hr Ha Hu. unfold add_phase in Ha. pose proof (header_read head r body Hh) as Hb. unfold header_body in Hb. rewrite Hb in Ha.
  destruct (bool_decide_reflect (body = [])) as [->|Hne]; [injection Ha as <-; apply grown_nil|]. exists []. pose proof (contents_text r body) as (-> & -> & ->).
  unfold is_text_recipient in Hr. destruct (bool_decide (r = SELF)).
  - injection Ha as <-. by rewrite !app_nil_r.
  - apply bool_decide_eq_true in Hr as ->. destruct (has_text _ _).
    + exfalso. destruct (parse_atem_calls body) as [calls|]; [|done]. unfold validate_atem_recipient in Ha. destruct calls as [|c calls]; [done|]. cbn [orb bool_decide] in Ha.
      destruct (bool_decide_reflect (USER = string_bytes "tool")); [done|]. cbn [orb] in Ha. destruct (bool_decide_reflect (fc_name (tc_function c) = USER)) as [Eu|]; [|done].
      injection Ha as <-. cbn in Hu. apply Forall_app in Hu as [_ Hu]. by apply Forall_cons in Hu as [Hu _].
    + rewrite bool_decide_eq_true_2 in Ha by done. injection Ha as <-. by rewrite !app_nil_r.
Qed.
Lemma add_phase_calls head r body out out' n E : header_of head r -> is_text_recipient r = false -> add_phase out (head ++ body) = Ok out' -> phase_calls r body n = Ok E ->
  grown n out (flow E) out' /\ length E = length (called (flow E)).
Proof.
  intros Hh Hr Ha Hc. unfold add_phase in Ha. pose proof (header_read head r body Hh) as Hb. unfold header_body in Hb. rewrite Hb in Ha.
  unfold is_text_recipient in Hr. apply orb_false_iff in Hr as [R1 R2]. unfold phase_calls in Hc.
  destruct (parse_atem_calls body) as [calls|] eqn:Ec; [|done]. destruct (bool_decide_reflect (body = [])) as [->|Hne]; [by vm_compute in Ec|].
  rewrite R1, R2 in Ha. destruct (has_text _ _); [|done]. destruct (validate_atem_recipient r calls); [|done]. injection Ha as <-. injection Hc as <-.
  rewrite flow_calls. pose proof (grown_calls n out calls) as Hg. split; [done|]. destruct Hg as (new & E1 & ->). injection E1 as _ _ E1. apply app_inv_head in E1 as ->. by rewrite !length_imap.
Qed.
Lemma add_phase_keeps out phase out' : add_phase out phase = Ok out' -> o_tool_calls out `prefix_of` o_tool_calls out'.
Proof.
  unfold add_phase. destruct (phase_header _) as [[r body]|]; [|done]. destruct (bool_decide _); [by intros [= <-]|]. destruct (bool_decide _); [by intros [= <-]|].
  destruct (has_text _ _).
  - destruct (parse_atem_calls body); [|done]. destruct (validate_atem_recipient _ _); [|done]. intros [= <-]. by eexists.
  - destruct (bool_decide _); [|done]. by intros [= <-].
Qed.
Lemma add_phases_keep l out out' : add_phases out l = Ok out' -> o_tool_calls out `prefix_of` o_tool_calls out'.
Proof.
  revert out. induction l as [|ph l IH]; intros out; cbn [add_phases]; [by intros [= <-]|]. destruct (add_phase out ph) as [out1|] eqn:E; [|done].
  intros Hl%IH. by etrans; [by eapply add_phase_keeps|].
Qed.
End Messages.

(** ** The loop and the whole text. *)
Section Agreement.
Context `{AtemCode}.
Definition body_events (r body : str) (n : nat) (E : list AtemStreamEvent) : Prop :=
  if is_text_recipient r then flow E = text_atom r <$> body else phase_calls r body n = Ok E.
Lemma release_whole p r s e : is_text_recipient r = false -> release e p (mkPhase r s s) = ([], mkPhase r s s).
Proof. intros Hr. unfold release. cbn [recipient]. by rewrite Hr. Qed.
(** A pass over a whole phase, when the text is complete. *)
Lemma serve_whole p r s q pass : (s <= length (raw p))%nat -> serve true p (mkPhase r s s) = (q, pass) -> let tail := drop s (raw p) in let n := tool_calls_emitted p in
  match pass with
  | Failed _ => True
  | Stop E => find PHASE_END tail = None /\ body_events r tail n E
  | GoOn E => exists o, find PHASE_END tail = Some o /\ body_events r (take o tail) n E /\ raw q = raw p /\ cursor q = (s + o + length PHASE_END)%nat /\
      active q = None /\ tool_calls_emitted q = (n + (if is_text_recipient r then 0 else length E))%nat
  end.
Proof.
  intros Hs. cbv zeta. rewrite serve_unfold. pose proof (release_spec true p (mkPhase r s s)) as [F1 P1]. cbn [recipient emitted_until] in F1. unfold body_events.
  assert (is_text_recipient r = false -> (release true p (mkPhase r s s)).1 = []) as Hnil by (intros Hr; by rewrite release_whole).
  rewrite P1. unfold close_phase. cbn [recipient body_start raw with_active tool_calls_emitted cursor structured plain_emitted active].
  change (phase_end (with_active _ p) _) with (phase_end p (mkPhase r s s)). unfold safe_end in F1. unfold phase_end in *. cbn [body_start] in *.
  destruct (find PHASE_END (drop s (raw p))) as [o|]; cbn [fmap option_fmap option_map] in *.
  - replace (slice_of (raw p) s (s + o)) with (take o (drop s (raw p))) in * by (unfold slice_of; f_equal; lia).
    destruct (is_text_recipient r); cbn [negb].
    + intros [= <- <-]. exists o. by repeat split; rewrite ?Nat.add_0_r.
    + rewrite Hnil by done. cbn [app]. destruct (phase_calls _ _ _) as [E|] eqn:Ec; intros [= <- <-]; [|done]. by exists o.
  - replace (slice_of (raw p) s (length (raw p))) with (drop s (raw p)) in * by (unfold slice_of; by rewrite take_ge by (rewrite length_drop; lia)).
    destruct (is_text_recipient r); cbn [negb andb]; [by intros [= <- <-]|]. rewrite Hnil by done. cbn [app].
    destruct (phase_calls _ _ _) as [E|] eqn:Ec; by intros [= <- <-].
Qed.
Lemma body_grown head r body out out' n E : header_of head r -> body_events r body n E -> add_phase out (head ++ body) = Ok out' -> Forall (fun c => ~ named_user c) (o_tool_calls out') ->
  grown n out (flow E) out' /\ (if is_text_recipient r then 0%nat else length E) = length (called (flow E)).
Proof.
  unfold body_events. intros Hh HE Ha Hu. destruct (is_text_recipient r) eqn:Er.
  - rewrite HE. split; [by eapply add_phase_text|]. by pose proof (contents_text r body) as (_ & _ & ->).
  - by eapply add_phase_calls.
Qed.
Lemma loop_agrees p : inside p -> active p = None -> forall m out out' q E, (length (drop (cursor p) (raw p)) <= m)%nat -> loop true p = (q, Ok E) ->
  add_phases out (split_at_all m PHASE_END (drop (cursor p) (raw p))) = Ok out' -> Forall (fun c => ~ named_user c) (o_tool_calls out') ->
  grown (tool_calls_emitted p) out (flow E) out'.
Proof.
  revert p. refine (loop_ind true (fun p => active p = None -> _) _). intros p Hp IH Hact m out out' q E Hm El Ha Hu.
  rewrite loop_unfold in El by done. pose proof (one_phase_steady true p Hp) as [[_ _ Hi] _].
  unfold one_phase, activate in El, Hi. pose proof IH as IH'. unfold one_phase, activate in IH'. rewrite Hact in El, Hi, IH'. clear IH.
  set (rest := drop (cursor p) (raw p)) in *. destruct (Nat.eqb_spec (cursor p) (length (raw p))) as [Ec|Ec].
  { injection El as <- <-. assert (rest = []) as Er by (unfold rest; rewrite Ec; apply drop_all). rewrite Er in Ha.
    destruct m; injection Ha as <-; apply grown_nil. }
  destruct (read_header true rest) as [[[r b]|]|] eqn:Eh; [| |done].
  2:{ injection El as <- <-. exfalso. revert Eh. unfold read_header. cbv zeta. rewrite !andb_false_r. repeat case_match; done. }
  pose proof (read_header_bound _ _ _ Eh) as Hb. cbn [snd] in Hb. apply read_header_shape in Eh as (head & Hh & Hlen & Erest).
  cbn [fmap option_fmap option_map fst snd] in *. assert (length rest = (length (raw p) - cursor p)%nat) as Hl by (unfold rest; by rewrite length_drop).
  destruct (serve true p _) as [q1 pass] eqn:Es. pose proof (serve_whole p r (cursor p + b) q1 pass ltac:(lia) Es) as Hserve. cbv zeta in Hserve.
  rewrite <- drop_drop in Hserve. fold rest in Hserve. set (tail := drop b rest) in *.
  destruct m as [|m]; [lia|]. cbn [split_at_all] in Ha. pose proof (header_end head r tail Hh) as Hend. cbv zeta in Hend. rewrite <- Erest in Hend.
  destruct Hend as [Hend|(i & e & Hi1 & Hi2)].
  2:{ exfalso. rewrite Hi1 in Ha. cbn [add_phases] in Ha. unfold add_phase in Ha. unfold header_body in Hi2. by rewrite Hi2 in Ha. }
  destruct pass as [E1|E1|e]; [| |done].
  - injection El as <- <-. destruct Hserve as [Hn HE]. rewrite Hend, Hn in Ha. cbn [fmap option_fmap option_map add_phases] in Ha. rewrite Erest in Ha.
    destruct (add_phase out (head ++ tail)) as [out1|] eqn:Ea; [|done]. injection Ha as <-. by eapply body_grown.
  - destruct Hserve as (o & Hn & HE & Hraw & Hcur & Hac & Hto). rewrite Hend, Hn in Ha. cbn [fmap option_fmap option_map add_phases] in Ha.
    destruct (add_phase out _) as [out1|] eqn:Ea; [|done]. pose proof (add_phases_keep _ _ _ Ha) as [more Hmore].
    rewrite Erest, take_app_add in Ea. destruct (body_grown head r (take o tail) out out1 _ E1 Hh HE Ea) as [Hg Hc]; [rewrite Hmore in Hu; by apply Forall_app in Hu as [? _]|].
    destruct (loop true q1) as [q2 [E2|]] eqn:E2l; [|done]. injection El as <- <-. rewrite flow_app.
    assert (drop (cursor q1) (raw q1) = drop (length head + o + length PHASE_END) rest) as Hrest.
    { rewrite Hraw, Hcur. unfold rest. rewrite drop_drop. f_equal. lia. }
    eapply (grown_trans _ _ _ out1 (tool_calls_emitted q1)); [done|by rewrite Hto, Hc|]. rewrite <- Hrest in Ha. eapply (IH' q1 E1 eq_refl Hi Hac m); [|done|done|done].
    rewrite Hrest, length_drop. change (length PHASE_END) with 7%nat. lia.
Qed.
End Agreement.
