(* ===== verification/AtemText.v ===== *)
(** * The streamed texts are text.

    The proofs about [AtemStream], continued: every place the parser cuts its text at is a
    character boundary, so its slices are strings and never split a character. *)
From Stdlib Require Import Strings.Byte.
From S2P Require Import Prelude Utf8 Substring Schema AtemStream AtemProofs AtemAnswers.

Definition text_ok (e : AtemStreamEvent) : Prop := match e with Content t | Reasoning t => utf8_valid t = true | ToolCall _ _ => True end.
(** A place a string can be cut at. *)
Definition cut (s : str) (n : nat) : Prop := (n <= length s)%nat /\ utf8_valid (take n s) = true.
Definition ascii (s : str) : Prop := Forall (fun b => Z_of_byte b < 128) s.
Lemma cut_drop s n : utf8_valid s = true -> cut s n -> utf8_valid (drop n s) = true.
Proof. intros Hs [_ Hn]. rewrite <- (take_drop n s) in Hs. by rewrite utf8_valid_app in Hs. Qed.
Lemma cut_grows s x n : cut s n -> cut (s ++ x) n.
Proof. intros [H1 H2]. split; [rewrite length_app; lia|]. by rewrite take_app_le. Qed.
Lemma cut_slice s a b : cut s a -> cut s b -> (a <= b)%nat -> utf8_valid (slice_of s a b) = true.
Proof.
  intros [_ Ha] [_ Hb] Hab. assert (take b s = take a s ++ slice_of s a b) as E.
  { unfold slice_of. rewrite take_take_drop. f_equal. lia. }
  rewrite E in Hb. by rewrite utf8_valid_app in Hb.
Qed.
Lemma cut_zero s : cut s 0.
Proof. split; [lia|done]. Qed.
Lemma cut_end s : utf8_valid s = true -> cut s (length s).
Proof. intros Hs. split; [done|]. by rewrite take_ge. Qed.
Lemma cut_later s a n : cut s a -> cut (drop a s) n -> cut s (a + n).
Proof.
  intros [H1 H2] [H3 H4]. rewrite length_drop in H3. split; [lia|]. rewrite <- take_take_drop. by rewrite utf8_valid_app.
Qed.
Lemma cut_ascii a n k : ascii n -> n <> [] -> utf8_valid (a ++ n ++ k) = true -> utf8_valid a = true.
Proof. intros Hn Hne Hv. destruct n as [|x n]; [done|]. apply Forall_cons in Hn as [Hx _]. by apply (utf8_split_ascii a x (n ++ k)). Qed.
Lemma cut_found n s p : ascii n -> n <> [] -> utf8_valid s = true -> find n s = Some p -> cut s p /\ cut s (p + length n).
Proof.
  intros Hn Hne Hs (k & Ek & Hp)%find_Some. rewrite Ek in Hs. pose proof (cut_ascii _ _ _ Hn Hne Hs) as Ha. split; [by split|].
  split; [rewrite Ek, !length_app, length_take; lia|]. rewrite Ek, app_assoc, take_app_length' by (rewrite length_app, length_take; lia).
  rewrite utf8_valid_app by done. by apply ascii_valid.
Qed.
Lemma cut_begun n s k : ascii n -> s = n ++ k -> cut s (length n).
Proof. intros Hn ->. split; [rewrite length_app; lia|]. rewrite take_app_length. by apply ascii_valid. Qed.
Ltac is_ascii := by repeat constructor.
Lemma ascii_START : ascii START. Proof. is_ascii. Qed.
Lemma ascii_MESSAGE : ascii MESSAGE. Proof. is_ascii. Qed.
Lemma ascii_RECIPIENT : ascii RECIPIENT. Proof. is_ascii. Qed.
Lemma ascii_PHASE_END : ascii PHASE_END. Proof. is_ascii. Qed.
#[local] Hint Resolve ascii_START ascii_MESSAGE ascii_RECIPIENT ascii_PHASE_END : core.

(** ** The places of the parser. *)
Record placed (p : AtemStreamParser) : Prop := {
  placed_text : utf8_valid (raw p) = true;
  placed_cursor : cut (raw p) (cursor p);
  placed_plain : cut (raw p) (plain_emitted p);
  placed_active phase : active p = Some phase -> cut (raw p) (body_start phase) /\ cut (raw p) (emitted_until phase);
}.
Lemma placed_grow x p : utf8_valid x = true -> placed p -> placed (grow x p).
Proof.
  intros Hx [H1 H2 H3 H4]. split; cbn [raw grow with_raw cursor plain_emitted active]; [by rewrite utf8_valid_app|by apply cut_grows..|].
  intros phase [A1 A2]%H4. by split; apply cut_grows.
Qed.
Section Places.
Context `{AtemCode}.
Lemma read_header_cut f rest r b : utf8_valid rest = true -> read_header f rest = Ok (Some (r, b)) -> cut rest b.
Proof.
  intros Hv. unfold read_header. cbv zeta. destruct (_ && _); [done|]. intros E.
  assert (cut rest (if starts_with START rest then length START else 0)%nat) as Hn.
  { destruct (starts_with START rest) eqn:Es; [|apply cut_zero]. apply starts_with_spec in Es as [k Ek]. by eapply cut_begun. }
  set (n := if starts_with START rest then length START else 0%nat) in *. pose proof (cut_drop _ _ Hv Hn) as Hy.
  destruct (starts_with RECIPIENT (drop n rest)) eqn:Er.
  - apply starts_with_spec in Er as [k Ek]. pose proof (cut_begun _ _ _ ascii_RECIPIENT Ek) as Hr. pose proof (cut_later _ _ _ Hn Hr) as Hr'.
    destruct (find MESSAGE _) as [q|] eqn:Ef; [|by destruct f]. destruct (bool_decide _); [done|].
    apply cut_found in Ef as [_ Hm]; [|done|done|by apply cut_drop]. pose proof (cut_later _ _ _ Hr' ltac:(rewrite <- drop_drop; exact Hm)) as Hfin.
    rewrite Nat.add_assoc in Hfin. intros. by injection E as _ <-.
  - destruct (starts_with MESSAGE (drop n rest)) eqn:Em; [|by destruct f]. apply starts_with_spec in Em as [k Ek].
    pose proof (cut_later _ _ _ Hn (cut_begun _ _ _ ascii_MESSAGE Ek)) as Hm. by injection E as _ <-.
Qed.
Lemma activate_placed f p phase : placed p -> activate f p = Ok (Some phase) -> cut (raw p) (body_start phase) /\ cut (raw p) (emitted_until phase).
Proof.
  unfold activate. intros [H1 H2 H3 H4]. destruct (active p) as [ph|]; [intros [= <-]; by apply H4|].
  destruct (_ =? _)%nat; [done|]. destruct (read_header _ _) as [[[r b]|]|] eqn:Eh; [|done|done]. intros [= <-].
  apply read_header_cut in Eh; [|by apply cut_drop]. cbn [fst snd body_start emitted_until]. by split; apply cut_later.
Qed.
Lemma phase_end_cut p phase e : placed p -> cut (raw p) (body_start phase) -> phase_end p phase = Some e -> cut (raw p) e /\ cut (raw p) (e + length PHASE_END).
Proof.
  intros Hp Hb. unfold phase_end. destruct (find PHASE_END _) as [o|] eqn:E; [|done]. intros [= <-].
  apply cut_found in E as [E1 E2]; [|done|done|apply cut_drop; [apply Hp|done]]. rewrite <- Nat.add_assoc. by split; apply cut_later.
Qed.
Lemma safe_end_cut f p phase : placed p -> cut (raw p) (body_start phase) -> cut (raw p) (safe_end f p phase).
Proof.
  intros Hp Hb. unfold safe_end. destruct (phase_end p phase) as [e|] eqn:Ee; [by eapply phase_end_cut|].
  destruct f; [apply cut_end, Hp|]. split; [lia|]. set (l := marker_suffix_len (raw p) PHASE_END).
  pose proof (suffix_match_spec (raw p) PHASE_END (Nat.min (length (raw p)) (length PHASE_END - 1))) as (_ & Hm & _). fold (marker_suffix_len (raw p) PHASE_END) in Hm. fold l in Hm.
  destruct (drop (length (raw p) - l) (raw p)) as [|x t] eqn:Ed.
  - pose proof (take_drop (length (raw p) - l) (raw p)) as Et. rewrite Ed, app_nil_r in Et. rewrite Et. apply Hp.
  - apply starts_with_spec in Hm as [k Hk]. apply (cut_ascii _ (x :: t) []); [|done|].
    + pose proof ascii_PHASE_END as Ha. unfold ascii in Ha. rewrite Hk in Ha. by apply Forall_app in Ha as [? _].
    + rewrite app_nil_r, <- Ed, take_drop. apply Hp.
Qed.
Lemma release_placed f p phase : placed p -> cut (raw p) (body_start phase) -> cut (raw p) (emitted_until phase) ->
  Forall text_ok (release f p phase).1 /\ cut (raw p) (emitted_until (release f p phase).2).
Proof.
  intros Hp Hb He. pose proof (safe_end_cut f p phase Hp Hb) as Hs. unfold release. destruct (is_text_recipient (recipient phase)); [|by split]. cbn [andb].
  destruct (Nat.ltb_spec (emitted_until phase) (safe_end f p phase)); [|by split]. split; [|done]. apply Forall_singleton.
  pose proof (cut_slice (raw p) _ _ He Hs ltac:(lia)). unfold text_event. by destruct (bool_decide _).
Qed.
Lemma phase_calls_ok r body n E : phase_calls r body n = Ok E -> Forall text_ok E.
Proof.
  unfold phase_calls. destruct (parse_atem_calls body) as [calls|]; [|done]. destruct (validate_atem_recipient r calls); [|done]. intros [= <-].
  apply Forall_forall. intros e Hin. apply list_elem_of_lookup in Hin as [i Hi]. rewrite list_lookup_imap in Hi. by destruct (calls !! i); simplify_eq/=.
Qed.
Definition pass_ok (pass : Pass) : Prop := match pass with Stop E | GoOn E => Forall text_ok E | Failed _ => True end.
Lemma one_phase_placed f p : placed p -> placed (one_phase f p).1 /\ pass_ok (one_phase f p).2.
Proof.
  intros Hp. unfold one_phase. destruct (activate f p) as [[phase|]|] eqn:Ea; [|split; [done|by constructor]|by split]. apply activate_placed in Ea as [Hb He]; [|done].
  rewrite serve_unfold. pose proof (release_spec f p phase) as [_ P1]. destruct (release_placed f p phase Hp Hb He) as [Hok Hcut]. rewrite P1 in Hcut |- *. cbn [emitted_until] in Hcut.
  set (ph := mkPhase _ _ _). assert (placed (with_active (Some ph) p)) as Hp1.
  { destruct Hp as [H1 H2 H3 H4]. split; [done..|]. cbn. by intros ? [= <-]. }
  pose proof (phase_end_cut (with_active (Some ph) p) ph) as Hend. unfold close_phase.
  destruct (phase_end (with_active (Some ph) p) ph) as [e|].
  - destruct (Hend e Hp1 Hb eq_refl) as [_ He2]. assert (forall n, placed (mkAtemParser (raw p) (structured p) (e + length PHASE_END) (plain_emitted p) None n)) as Hnext.
    { intros n. destruct Hp as [H1 H2 H3 H4]. by split. }
    destruct (negb _); [|split; [apply Hnext|done]]. destruct (phase_calls _ _ _) eqn:Ec; [|by split]. split; [apply Hnext|]. apply Forall_app. split; [done|by eapply phase_calls_ok].
  - destruct (_ && _); [|by split]. destruct (phase_calls _ _ _) eqn:Ec; [|by split]. split; [|apply Forall_app; split; [done|by eapply phase_calls_ok]].
    destruct Hp1 as [H1 H2 H3 H4]. by split.
Qed.
Definition events_ok (r : parsed (list AtemStreamEvent)) : Prop := match r with Ok E => Forall text_ok E | Err _ => True end.
Lemma phases_placed fuel f p E : placed p -> Forall text_ok E -> placed (phases fuel f p E).1 /\ events_ok (phases fuel f p E).2.
Proof.
  revert p E. induction fuel as [|fuel IH]; intros p E Hp HE; [by split|]. cbn [phases]. destruct (one_phase_placed f p Hp) as [H1 H2].
  destruct (one_phase f p) as [q [A|A|e]]; cbn [fst snd pass_ok] in *; [split; [done|by apply Forall_app]| |by split]. apply IH; [done|by apply Forall_app].
Qed.
Lemma drain_placed f p : placed p -> placed (drain f p).1 /\ events_ok (drain f p).2.
Proof.
  intros Hp. assert (forall b, placed (drain_as b f p).1 /\ events_ok (drain_as b f p).2) as Hd.
  { intros b. assert (placed (with_structured b p)) as Hp1 by (destruct Hp as [H1 H2 H3 H4]; by split). unfold drain_as. destruct b; [by apply phases_placed|].
    unfold drain_plain. destruct (_ <? _)%nat; [|split; [done|by constructor]]. pose proof Hp as [H1 H2 H3 H4]. split; [split; [done|done|by apply cut_end|done]|].
    apply Forall_singleton. by apply cut_drop. }
  unfold drain. destruct (structured p); [done|]. destruct (discriminate f (raw p)); [done|split; [done|by constructor]].
Qed.
Lemma push_all_placed pieces p E : Forall (fun x => utf8_valid x = true) pieces -> placed p -> Forall text_ok E ->
  placed (push_all pieces p E).1 /\ events_ok (push_all pieces p E).2.
Proof.
  intros Hv. revert p E. induction Hv as [|x pieces Hx Hv IH]; intros p E Hp HE; [by split|]. cbn [push_all]. change (push x p) with (drain false (grow x p)).
  destruct (drain_placed false (grow x p) (placed_grow x p Hx Hp)) as [H1 H2]. destruct (drain false (grow x p)) as [q [A|e]]; [|by split].
  apply IH; [done|by apply Forall_app].
Qed.
Lemma finish_placed p : placed p -> events_ok (finish_stream p).2.
Proof.
  intros Hp. unfold finish_stream. destruct (_ && _); [by constructor|]. unfold finish. destruct (drain_placed true p Hp) as [H1 H2].
  destruct (drain true p) as [q [E|e]]; [|done]. cbn [fst snd] in *. destruct (bool_decide _); [|done]. by destruct (parse_atem_output _).
Qed.
Lemma stream_answer_ok pieces E : Forall (fun x => utf8_valid x = true) pieces -> stream_answer pieces = Ok E -> Forall text_ok E.
Proof.
  intros Hv. unfold stream_answer. assert (placed AtemStreamParser_default) as H0 by (split; [done|apply cut_zero|apply cut_zero|done]).
  destruct (push_all_placed pieces _ [] Hv H0 (Forall_nil_2 _)) as [H1 H2]. destruct (push_all _ _ _) as [q [A|e]]; [|done]. cbn [fst snd] in *.
  pose proof (finish_placed q H1) as H3. destruct (finish_stream q).2 as [B|]; [|done]. intros [= <-]. by apply Forall_app.
Qed.
End Places.
