(* ===== verification/AtemStreaming.v ===== *)
(** * What a streamed answer says.

    The theorem about [AtemStream]: the pieces an answer comes in make no difference, the stream
    ends, it never splits a character, and a structured answer that is accepted was streamed as
    the message [parse_atem_output] makes of the whole text. *)
From Stdlib Require Import Strings.Byte.
From S2P Require Import Prelude Utf8 Substring Schema AtemStream AtemProofs AtemAnswers AtemText.

Definition same_answer (a b : parsed (list AtemStreamEvent)) : Prop :=
  match a, b with Ok A, Ok B => flow A = flow B | Err e, Err e' => e = e' | _, _ => False end.
Section Answer.
Context `{AtemCode}.
Definition whole (text : str) : AtemStreamParser := grow text AtemStreamParser_default.
Lemma whole_sound text : utf8_valid text = true -> sound (whole text).
Proof. intros. apply sound_grow; [done|apply sound_default]. Qed.
Lemma mjoin_valid pieces : Forall (fun x => utf8_valid x = true) pieces -> utf8_valid (mjoin pieces) = true.
Proof. induction 1 as [|x l Hx Hl IH]; [done|]. change (mjoin (x :: l)) with (x ++ mjoin l). by rewrite utf8_valid_app. Qed.
Lemma answer_in_pieces pieces : Forall (fun x => utf8_valid x = true) pieces -> same_answer (stream_answer pieces) (stream_answer [mjoin pieces]).
Proof.
  intros Hv. pose proof (push_all_whole pieces Hv) as H1. pose proof (push_all_whole [mjoin pieces] ltac:(constructor; [by apply mjoin_valid|constructor])) as H2.
  assert (mjoin [mjoin pieces] = mjoin pieces) as Ej by (cbn; by rewrite app_nil_r). rewrite Ej in H2. unfold stream_answer.
  destruct (push_all pieces _ _) as [q [E|e]], (push_all [mjoin pieces] _ _) as [q' [E'|e']].
  - destruct H1 as (_ & A & HA & HF), H2 as (_ & A' & HA' & HF'). rewrite HA in HA'. injection HA' as <- <-.
    destruct (finish_stream q).2 as [more|e]; cbn; [|done]. by rewrite !flow_app, <- HF, <- HF'.
  - destruct H1 as (_ & A & HA & HF). by rewrite HA in H2.
  - destruct H2 as (_ & A & HA & HF). by rewrite HA in H1.
  - cbn. rewrite H1 in H2. by injection H2.
Qed.
Lemma answer_ends pieces : Forall (fun x => utf8_valid x = true) pieces -> stream_answer pieces <> Err OutOfFuel.
Proof.
  intros Hv. pose proof (push_all_whole pieces Hv) as H1. unfold stream_answer. destruct (push_all pieces _ _) as [q [E|e]].
  - destruct H1 as (Hq & _). unfold finish_stream. destruct (_ && _); [done|]. unfold finish. pose proof (drain_ends true q Hq) as Hd.
    destruct (drain true q) as [q' [E'|e]]; cbn [snd] in *; [|by intros [= ->]]. destruct (bool_decide _); [|done].
    destruct (parse_atem_output _) eqn:Ep; [done|]. intros [= ->]. by apply add_phases_ends in Ep.
  - intros [= ->]. by apply drain_ends in H1; [|apply whole_sound, mjoin_valid].
Qed.
(** The state and the events at the end of the pieces, and at the end of the answer. *)
Lemma finishing pieces : Forall (fun x => utf8_valid x = true) pieces -> let text := mjoin pieces in forall E, (push_all pieces AtemStreamParser_default []).2 = Ok E ->
  exists q, push_all pieces AtemStreamParser_default [] = (q, Ok E) /\ raw q = text /\ (exists A, drain false (whole text) = (q, Ok A)) /\
    joins E (drain true (whole text)) (drain true q).
Proof.
  intros Hv text E HE. pose proof (push_all_whole pieces Hv) as H1. destruct (push_all pieces _ _) as [q [E0|]]; [|done]. injection HE as ->.
  destruct H1 as (Hq & A & HA & HF). exists q. split; [done|]. pose proof (whole_sound text (mjoin_valid _ Hv)) as Hw.
  pose proof (drain_sound false (whole text) Hw) as [_ Hr]. unfold whole in *. fold text in HA. rewrite HA in Hr. split; [done|]. split; [by eexists|].
  pose proof (drain_follows true [] _ Hw _ _ HA) as Hj. rewrite !grow_nil in Hj. unfold joins in *. by rewrite HF in Hj.
Qed.
Lemma remove_none fuel needle s : find needle s = None -> remove_all fuel needle s = s.
Proof. intros E. destruct fuel; [done|]. cbn. by rewrite E. Qed.
Lemma structured_answer pieces E : Forall (fun x => utf8_valid x = true) pieces -> let text := mjoin pieces in
  discriminate true text = Some true -> find END_OF_TURN text = None -> stream_answer pieces = Ok E ->
  exists out, parse_atem_output text = Ok out /\
    (Forall (fun c => ~ named_user c) (o_tool_calls out) -> grown 0 (mkAtemOutput [] [] []) (flow E) out).
Proof.
  intros Hv text Hd He Ha. unfold stream_answer in Ha. pose proof (finishing pieces Hv) as Hfin. cbv zeta in Hfin. fold text in Hfin.
  destruct (push_all pieces _ _) as [q0 [E0|]]; [|done]. destruct (Hfin E0 eq_refl) as (q & [= <-] & Hraw & _ & Hj). clear Hfin.
  assert (finish_stream q0 = finish q0) as Hf.
  { unfold finish_stream. rewrite Hraw. destruct (bool_decide _); [|done]. unfold discriminate in Hd. cbv zeta in Hd |- *. rewrite !andb_false_r in Hd. injection Hd as Hd.
    apply andb_true_iff in Hd as [_ ->]. by rewrite andb_false_r. }
  rewrite Hf in Ha. unfold finish in Ha. pose proof (whole_sound text (mjoin_valid _ Hv)) as Hw.
  assert (drain true (whole text) = loop true (with_structured true (whole text))) as Hl by (unfold drain; cbn [structured whole grow with_raw AtemStreamParser_default raw app]; by rewrite Hd).
  pose proof (drain_as_sound true true _ Hw) as (_ & Hr & Hs). change (drain_as true true (whole text)) with (loop true (with_structured true (whole text))) in Hr, Hs.
  rewrite Hl in Hj. destruct (loop true (with_structured true (whole text))) as [q1 [C|]] eqn:El, (drain true q0) as [q2 [B|]]; try done.
  unfold joins in Hj. cbn [fst snd] in Hj, Hr, Hs. destruct Hj as [<- HF]. rewrite bool_decide_eq_true_2, Hr in Ha by done.
  change (raw (whole text)) with text in *. destruct (parse_atem_output text) as [out|] eqn:Eo; [|done]. injection Ha as <-. exists out. split; [done|]. intros Hu.
  rewrite flow_app, <- HF. unfold parse_atem_output in Eo. rewrite (remove_none _ _ _ He) in Eo.
  refine (loop_agrees (with_structured true (whole text)) _ eq_refl (length text) _ _ _ _ _ El Eo Hu); [|done]. apply inside_structured, Hw.
Qed.
Lemma plain_answer pieces : Forall (fun x => utf8_valid x = true) pieces -> let text := mjoin pieces in
  discriminate true text = Some false -> exists E, stream_answer pieces = Ok E /\ flow E = (if discriminate false text then ContentByte <$> text else []).
Proof.
  intros Hv text Hd. pose proof (whole_sound text (mjoin_valid _ Hv)) as Hw. pose proof (push_all_whole pieces Hv) as Hp. fold text in Hp.
  assert (forall f, drain_as false f (whole text) = drain_plain (with_structured false (whole text))) as Hplain by done.
  destruct (drain_plain_spec (with_structured false (whole text)) ltac:(cbn; lia)) as (C & HC & HF). unfold stream_answer. pose proof (finishing pieces Hv) as Hfin. cbv zeta in Hfin. fold text in Hfin.
  assert (drain true (whole text) = (shown (with_structured false (whole text)), Ok C)) as Ht by (unfold drain; cbn [structured whole grow with_raw AtemStreamParser_default raw app]; rewrite Hd; exact HC).
  change (grow text AtemStreamParser_default) with (whole text) in Hp.
  destruct (discriminate false text) as [b|] eqn:Ed.
  - pose proof (discriminate_grows true text [] b (mjoin_valid _ Hv) Ed) as Hb. rewrite app_nil_r in Hb. assert (b = false) as -> by congruence.
    assert (drain false (whole text) = (shown (with_structured false (whole text)), Ok C)) as Hdf by (unfold drain; cbn [structured whole grow with_raw AtemStreamParser_default raw app]; rewrite Ed; exact HC).
    rewrite Hdf in Hp. destruct (push_all pieces _ _) as [q [E0|]]; [|done]. destruct (Hfin E0 eq_refl) as (q' & [= <-] & _ & [A HA] & Hj).
    rewrite Hdf in HA. injection HA as <- <-. rewrite Ht in Hj. unfold joins in Hj. cbn [fst snd] in Hj. unfold finish_stream. cbn [structured shown with_structured bool_decide andb].
    rewrite bool_decide_eq_false_2 by done. cbn [andb]. unfold finish. destruct (drain true (shown _)) as [q2 [B|]]; [|done]. cbn [fst snd] in Hj. destruct Hj as [<- Hj].
    exists (E0 ++ B). split; [done|]. by rewrite flow_app, <- Hj, HF.
  - assert (drain false (whole text) = (whole text, Ok [])) as Hdf by (unfold drain; cbn [structured whole grow with_raw AtemStreamParser_default raw app]; by rewrite Ed).
    rewrite Hdf in Hp. destruct (push_all pieces _ _) as [q [E0|]]; [|done]. destruct Hp as (_ & A & [= <- <-] & HE). exists E0. split; [|by rewrite <- HE].
    unfold finish_stream. rewrite bool_decide_eq_true_2 by done. change (raw (whole text)) with text. cbn [andb]. cbv zeta.
    replace ((structured_start _ || unresolved_start _) && _) with true; [cbn; by rewrite app_nil_r|]. symmetry.
    unfold discriminate in Hd, Ed. cbv zeta in Hd, Ed. rewrite !andb_false_r in Hd. change (negb false) with true in Ed. rewrite !andb_true_r in Ed. injection Hd as Hd.
    destruct (unresolved_start (trim_start text)) eqn:Eu; [|destruct (structured_start _); [cbn [andb] in Hd; by rewrite Hd|done]].
    rewrite orb_true_r. cbn [andb]. apply negb_true_iff. destruct (has_text MESSAGE (trim_start text)) eqn:Ec; [|done]. exfalso.
    unfold unresolved_start in Eu. apply orb_true_iff in Eu as [[k Hk]%starts_with_spec|[k Hk]%starts_with_spec]; apply (has_text_grows _ _ k) in Ec; rewrite <- Hk in Ec; by vm_compute in Ec.
Qed.
Lemma visible_flow events response thinking : visible_text events response thinking =
  match called (flow events) with [] => Ok (response ++ contents (flow events), thinking ++ reasonings (flow events)) | _ => Err UnexpectedToolCall end.
Proof.
  revert response thinking. induction events as [|e events IH]; intros response thinking; [cbn; by rewrite !app_nil_r|].
  change (flow (e :: events)) with (atoms e ++ flow events). unfold contents, reasonings, called in *. rewrite !omap_app. destruct e as [t|t|i c]; cbn [visible_text atoms]; [| |done].
  - rewrite IH. destruct (contents_text USER t) as (H1 & H2 & H3). unfold contents, reasonings, called in H1, H2, H3.
    change (text_atom USER) with ContentByte in *. change (bool_decide (USER = SELF)) with false in *. cbv iota in *. rewrite H1, H2, H3. cbn [app]. by rewrite app_assoc.
  - rewrite IH. destruct (contents_text SELF t) as (H1 & H2 & H3). unfold contents, reasonings, called in H1, H2, H3.
    change (text_atom SELF) with ReasoningByte in *. change (bool_decide (SELF = SELF)) with true in *. cbv iota in *. rewrite H1, H2, H3. cbn [app]. by rewrite app_assoc.
Qed.
Lemma ollama_unfold text : ollama_visible_output text = (let? events := result_map_err MalformedOutput (stream_answer [text]) in visible_text events [] []).
Proof.
  unfold ollama_visible_output, stream_answer. cbn [push_all]. destruct (push text _) as [p [E|e]]; [|done]. cbn [result_map_err app].
  by destruct (finish_stream p).2.
Qed.
Lemma ollama_answer pieces : Forall (fun x => utf8_valid x = true) pieces -> match stream_answer pieces with
  | Err e => ollama_visible_output (mjoin pieces) = Err (MalformedOutput e)
  | Ok events => ollama_visible_output (mjoin pieces) =
      match called (flow events) with [] => Ok (contents (flow events), reasonings (flow events)) | _ => Err UnexpectedToolCall end
  end.
Proof.
  intros Hv. pose proof (answer_in_pieces pieces Hv) as Hs. rewrite ollama_unfold. destruct (stream_answer pieces) as [E|e], (stream_answer [mjoin pieces]) as [E'|e']; try done; cbn in Hs |- *.
  - by rewrite visible_flow, Hs.
  - by subst.
Qed.
End Answer.


(** Concrete code for the witness: parameters are kept as text, an identifier is the text itself. *)
Definition plain_code : AtemCode :=
  {| from_json _ := None; map_to_json m := mjoin (fst <$> m); sha256_bytes s := s ++ repeat x00 12 |}.
Definition sample_pieces : list str :=
  [string_bytes "<|start|>assistant to=se"; string_bytes "lf<|message|>hm<|"; string_bytes "eom|><|start|>assistant to=tool<|message|>";
   gbnf "<atem:function_calls><atem:invoke name='f'><atem:parameter name='a'>1</atem:parameter></atem:invoke></atem:function_calls>";
   string_bytes "<|eom|><|start|>assistant<|message|>h"; string_bytes "i"].
