(* ===== verification/ToolGrammar.v ===== *)
(** * Constrained chat answers and tool calls.

    Models the grammars a chat request is decoded under and the checks of a finished tool call,
    of [crates/muser-server/src/openai.rs]: [required_tool_gbnf], [rename_grammar_identifier] and
    [muse_chat_response_grammar], [constrained_grammar_source], [validate_tools],
    [validate_generated_atem] and [validate_streamed_atem_call_indexed].  Of a request only
    the fields these read are kept. *)
From Stdlib Require Import Strings.Byte.
From S2P Require Import Prelude Utf8 Substring Grammar GrammarParser Schema AtemStream.

Record ToolFunctionDefinition : Type := mkToolFunction { f_name : str; f_parameters : Value }.
Record ToolDefinition : Type := mkTool { t_kind : str; t_function : ToolFunctionDefinition }.
Record NamedToolChoice : Type := mkNamedChoice { c_kind : str; c_function_name : str }.
Inductive ToolChoice : Type := Mode (mode : str) | Named (choice : NamedToolChoice).
Record ChatRequest : Type := mkChatRequest {
  tools : option (list ToolDefinition);
  tool_choice : option ToolChoice;
  parallel_tool_calls : bool;
  chat_grammar : option str;
  json_schema : option Value;
  response_format : option Value;
  muser_prompt_token_ids : option (list Z);
}.
Inductive ChatError : Type :=
| BadRequest (text : string) (about : str)
| BadSchema (index : nat) (e : SchemaError)
| BadToolGrammar (index : nat) (e : ParseError)
| SchemaRefused (e : SchemaError)
| GrammarRefused (e : ParseError)
| Engine (text : string) (about : str)
| EngineSchema (e : SchemaError)
| EngineGrammar (e : ParseError)
| MalformedAnswer (e : AtemError).
Definition tool_name (tool : ToolDefinition) : str := f_name (t_function tool).
Definition request_tools (request : ChatRequest) : list ToolDefinition := default [] (tools request).

(** ** The grammar of a required tool call. *)
Definition selected_function (request : ChatRequest) : option str :=
  match tool_choice request with Some (Named choice) => Some (c_function_name choice) | _ => None end.
Definition eligible_tools (request : ChatRequest) : list ToolDefinition :=
  List.filter (fun tool => match selected_function request with None => true | Some name => bool_decide (tool_name tool = name) end) (request_tools request).
Definition parameter_names (tool : ToolDefinition) : list str :=
  match get "properties" (f_parameters (t_function tool)) with Some (VObject m) => m.*1 | _ => [] end.
Definition additional (tool : ToolDefinition) : bool :=
  match get "additionalProperties" (f_parameters (t_function tool)) with Some (VBool false) => false | _ => true end.
(** What a parameter's name can be; nothing when there is none. *)
Definition parameter_name (tool : ToolDefinition) : str :=
  if additional tool then gbnf "[A-Za-z_] [A-Za-z0-9_.-]*"
  else match parameter_names tool with
       | [] => []
       | names => gbnf "(" ++ join (gbnf " | ") (quoted_literal <$> names) ++ gbnf ")"
       end.
Definition numbered (prefix : string) (index : nat) : str := gbnf prefix ++ to_decimal (Z.of_nat index).
Definition tool_parameter (index : nat) : str := numbered "tool-parameter-" index.
Definition tool_invoke (index : nat) : str := numbered "tool-invoke-" index.
(** The rules of a tool. *)
Definition tool_rules (index : nat) (tool : ToolDefinition) : list (str * str) :=
  let name := parameter_name tool in
  let parameter_rule := match name with [] => [] | _ => tool_parameter index ++ gbnf "*" end in
  match name with
  | [] => []
  | _ => [(tool_parameter index, gbnf "'<atem:parameter name=\'' " ++ name ++ gbnf " '\'>' parameter-char* '</atem:parameter>' layout")]
  end ++
  [(tool_invoke index, gbnf "'<atem:invoke name=\'' " ++ quoted_literal (tool_name tool) ++ gbnf " '\'>' layout " ++ parameter_rule ++ gbnf " '</atem:invoke>' layout")].
Definition required_tool_gbnf (request : ChatRequest) : result ChatError str :=
  let tools := eligible_tools request in
  match tools with
  | [] => Err (BadRequest "required tool grammar has no eligible function" [])
  | _ =>
      let recipients := join (gbnf " | ") ((quoted_literal ∘ tool_name <$> tools) ++ [quoted_literal (string_bytes "tool")]) in
      let invokes := mjoin (imap tool_rules tools) in
      let invoke_names := join (gbnf " | ") (List.filter (starts_with (gbnf "tool-invoke-")) invokes.*1) in
      let invoke_expression := gbnf "(" ++ invoke_names ++ gbnf ")" ++ (if parallel_tool_calls request then gbnf "+" else []) in
      Ok (gbnf "root ::= reasoning-phase? assistant-prefix ' to=' (" ++ recipients ++ gbnf ") '<|message|><atem:function_calls>' layout "
          ++ invoke_expression ++ gbnf " '</atem:function_calls><|eom|>'
reasoning-phase ::= assistant-prefix ' to=self<|message|>' any* '<|eom|>'
assistant-prefix ::= '<|start|>assistant'?
any ::= [\U00000000-\uD7FF\uE000-\U0010FFFF]
parameter-char ::= [^<]
layout ::= [ \t\n\r]*
" ++ mjoin (rule_line <$> invokes))
  end.

(** ** The grammar of an answer in a given format. *)
Definition is_identifier_char (c : str) : bool := match c with [b] => is_alphanumeric b || is_byte "_" b || is_byte "-" b | _ => false end.
Fixpoint span_chars (f : str -> bool) (cs : list str) : nat := match cs with c :: cs => if f c then S (span_chars f cs) else 0%nat | [] => 0%nat end.
Fixpoint rename_loop (fuel : nat) (from to : str) (characters : list str) (quote : option byte) (escaped : bool) : str :=
  match fuel with
  | O => []
  | S fuel =>
      match characters with
      | [] => []
      | character :: rest =>
          match quote with
          | Some end_ =>
              character ++
              (if escaped then rename_loop fuel from to rest quote false
               else if bool_decide (character = [x5c]) then rename_loop fuel from to rest quote true
               else if bool_decide (character = [end_]) then rename_loop fuel from to rest None false
               else rename_loop fuel from to rest quote false)
          | None =>
              if bool_decide (character = [x22]) then character ++ rename_loop fuel from to rest (Some x22) escaped
              else if bool_decide (character = ["["%byte]) then character ++ rename_loop fuel from to rest (Some "]"%byte) escaped
              else if is_identifier_char character then
                let more := span_chars is_identifier_char rest in
                let identifier := character ++ mjoin (take more rest) in
                (if bool_decide (identifier = from) then to else identifier) ++ rename_loop fuel from to (drop more rest) None escaped
              else character ++ rename_loop fuel from to rest None escaped
          end
      end
  end.
Definition rename_grammar_identifier (source from to : str) : str :=
  rename_loop (length (chars source)) from to (chars source) None false.
Definition grammar_has_identifier (source target : str) : bool := negb (bool_decide (rename_grammar_identifier source target [] = source)).
Definition response_root (suffix : nat) : str := numbered "muser-chat-response-root-" suffix.
(** The first suffix the source does not use. *)
Fixpoint free_suffix (fuel suffix : nat) (source : str) : nat :=
  match fuel with
  | O => suffix
  | S fuel => if grammar_has_identifier source (response_root suffix) then free_suffix fuel (S suffix) source else suffix
  end.
Definition muse_chat_response_grammar (source : str) : str :=
  let root := response_root (free_suffix (S (length source)) 0 source) in
  gbnf "root ::= muser-chat-reasoning-phase? muser-chat-answer-phase
muser-chat-reasoning-phase ::= muser-chat-assistant-prefix ' to=self<|message|>' muser-chat-any* '<|eom|>'
muser-chat-answer-phase ::= muser-chat-assistant-prefix (' to=user<|message|>' | '<|message|>')? " ++ root ++ gbnf "
muser-chat-assistant-prefix ::= '<|start|>assistant'?
muser-chat-any ::= [\U00000000-\uD7FF\uE000-\U0010FFFF]
" ++ rename_grammar_identifier source (gbnf "root") root.

Definition is_string (v : option Value) : bool := match v with Some (VString _) => true | _ => false end.
Definition is_boolean (v : option Value) : bool := match v with Some (VBool _) => true | _ => false end.
Definition refuse_request {A} (text : string) : result ChatError A := Err (BadRequest text []).
Definition reject_unknown_keys (object : list (str * Value)) (allowed : list string) : result ChatError unit :=
  match List.filter (fun key => negb (bool_decide (key ∈ string_bytes <$> allowed))) object.*1 with
  | key :: _ => Err (BadRequest "unknown field" key)
  | [] => Ok tt
  end.
Section Constrained.
Context `{JsonText} (fuel : nat).
Definition compiled (schema : Value) : result ChatError str := result_map_err SchemaRefused (json_schema_to_gbnf fuel schema).
(** [response_format]: no constraint, or a grammar. *)
Definition format_source (format : Value) : result ChatError (option str) :=
  let? object := ok_or (as_object format) (BadRequest "response_format must be an object" []) in
  let? kind := ok_or (get_str "type" format) (BadRequest "response_format.type is required" []) in
  if bool_decide (kind = string_bytes "text") then let? _ := reject_unknown_keys object ["type"%string] in Ok None
  else if bool_decide (kind = string_bytes "json_object") then let? _ := reject_unknown_keys object ["type"%string] in Ok (Some json_object_gbnf)
  else if bool_decide (kind = string_bytes "json_schema") then
    let? _ := reject_unknown_keys object ["type"; "json_schema"]%string in
    let? envelope := ok_or (get "json_schema" format) (BadRequest "response_format.json_schema is required" []) in
    let? members := ok_or (as_object envelope) (BadRequest "response_format.json_schema is required" []) in
    let? _ := reject_unknown_keys members ["name"; "description"; "schema"; "strict"]%string in
    if negb (is_string (get "name" envelope)) then refuse_request "response_format.json_schema.name must be a string"
    else if (has "description" envelope && negb (is_string (get "description" envelope))) || (has "strict" envelope && negb (is_boolean (get "strict" envelope)))
    then refuse_request "response_format.json_schema description/strict have invalid types"
    else
      let? schema := ok_or (get "schema" envelope) (BadRequest "response_format.json_schema.schema is required" []) in
      let? source := compiled schema in Ok (Some source)
  else Err (BadRequest "unsupported response_format.type" kind).
Definition requires_tool (request : ChatRequest) : bool :=
  match tool_choice request with
  | Some (Mode mode) => bool_decide (mode = string_bytes "required")
  | Some (Named _) => true
  | None => false
  end.
Definition one_if {A} (o : option A) : nat := if o then 1 else 0.
Definition chosen_source (request : ChatRequest) : result ChatError (option str) :=
  match chat_grammar request, json_schema request, response_format request with
  | Some grammar, _, _ => if bool_decide (trim grammar = []) then refuse_request "grammar must not be empty" else Ok (Some grammar)
  | None, Some schema, _ => let? source := compiled schema in Ok (Some source)
  | None, None, Some format => format_source format
  | None, None, None => Ok None
  end.
Definition constrained_grammar_source (request : ChatRequest) : result ChatError (option str) :=
  if (1 <? one_if (chat_grammar request) + one_if (json_schema request) + one_if (response_format request))%nat
  then refuse_request "grammar, json_schema, and response_format are mutually exclusive"
  else
    let? source := chosen_source request in
    let source := match muser_prompt_token_ids request with None => muse_chat_response_grammar <$> source | Some _ => source end in
    match source with
    | None => if requires_tool request then let? source := required_tool_gbnf request in Ok (Some source) else Ok None
    | Some source => Ok (Some source)
    end.
Definition constrained_matcher (request : ChatRequest) : result ChatError (option GrammarMatcher) :=
  let? source := constrained_grammar_source request in
  match source with
  | None => Ok None
  | Some source => let? m := result_map_err GrammarRefused (matcher_parse source (string_bytes "root")) in Ok (Some m)
  end.

(** ** Checks of tools and calls. *)
Definition is_object_value (v : Value) : bool := match v with VObject _ => true | _ => false end.
Fixpoint validate_each (index : nat) (tools : list ToolDefinition) : result ChatError (list str) :=
  match tools with
  | [] => Ok []
  | tool :: tools =>
      if negb (bool_decide (t_kind tool = string_bytes "function")) || bool_decide (tool_name tool = []) || negb (is_object_value (f_parameters (t_function tool)))
      then Err (BadRequest "tools[index] must be a named function with object parameters" (to_decimal (Z.of_nat index)))
      else
        let? grammar := result_map_err (BadSchema index) (json_schema_to_gbnf fuel (f_parameters (t_function tool))) in
        let? _ := result_map_err (BadToolGrammar index) (matcher_parse grammar (string_bytes "root")) in
        let? names := validate_each (S index) tools in
        Ok (tool_name tool :: names)
  end.
Definition validate_tools (request : ChatRequest) : result ChatError unit :=
  let? names := validate_each 0 (request_tools request) in
  match tool_choice request with
  | None => Ok tt
  | Some (Mode mode) =>
      if negb (bool_decide (mode ∈ string_bytes <$> ["none"; "auto"; "required"]%string)) then Err (BadRequest "tool_choice mode is unsupported" mode)
      else if bool_decide (mode = string_bytes "required") && bool_decide (names = []) then refuse_request "tool_choice='required' needs at least one tool"
      else Ok tt
  | Some (Named choice) =>
      if negb (bool_decide (c_kind choice = string_bytes "function")) || negb (bool_decide (c_function_name choice ∈ names))
      then Err (BadRequest "tool_choice names unknown function" (c_function_name choice))
      else Ok tt
  end.
Definition find_tool (name : str) (tools : list ToolDefinition) : option ToolDefinition :=
  head (List.filter (fun tool => bool_decide (tool_name tool = name)) tools).
Definition fails {A} (text : string) (about : str) : result ChatError A := Err (Engine text about).
(** The arguments against the schema of the function. *)
Definition check_arguments (tool : ToolDefinition) (call : ParsedToolCall) : result ChatError unit :=
  let? grammar := result_map_err EngineSchema (json_schema_to_gbnf fuel (f_parameters (t_function tool))) in
  let? matcher := result_map_err EngineGrammar (matcher_parse grammar (string_bytes "root")) in
  match matcher_accept_bytes matcher (fc_arguments (tc_function call)) with
  | Some matcher => if is_accepting matcher then Ok tt else fails "model arguments violate its JSON Schema" (fc_name (tc_function call))
  | None => fails "model arguments violate its JSON Schema" (fc_name (tc_function call))
  end.
Definition validate_streamed_atem_call_indexed (request : ChatRequest) (index : nat) (call : ParsedToolCall) : result ChatError unit :=
  let name := fc_name (tc_function call) in
  if negb (parallel_tool_calls request) && (0 <? index)%nat then fails "model emitted multiple tool calls with parallel_tool_calls=false" []
  else if match tool_choice request with Some (Mode mode) => bool_decide (mode = string_bytes "none") | _ => false end
  then fails "model emitted a tool call with tool_choice='none'" []
  else if match selected_function request with Some selected => negb (bool_decide (name = selected)) | None => false end
  then fails "model emitted a tool other than required function" (default [] (selected_function request))
  else
    let? tool := ok_or (find_tool name (request_tools request)) (Engine "model emitted a function that was not supplied in tools" []) in
    check_arguments tool call.
Fixpoint validate_calls (request : ChatRequest) (index : nat) (calls : list ParsedToolCall) : result ChatError unit :=
  match calls with
  | [] => Ok tt
  | call :: calls => let? _ := validate_streamed_atem_call_indexed request index call in validate_calls request (S index) calls
  end.
Definition validate_generated_atem `{AtemCode} (request : ChatRequest) (text : str) (allow_incomplete : bool) : result ChatError unit :=
  match parse_atem_output text with
  | Err e => if allow_incomplete && negb (requires_tool request) then Ok tt else Err (MalformedAnswer e)
  | Ok output =>
      if requires_tool request && bool_decide (o_tool_calls output = []) then fails "model did not emit the required tool call" []
      else if negb (parallel_tool_calls request) && (1 <? length (o_tool_calls output))%nat
      then fails "model emitted multiple tool calls with parallel_tool_calls=false" []
      else validate_calls request 0 (o_tool_calls output)
  end.
End Constrained.
