(* ===== verification/TextLang.v ===== *)
(** * Languages of texts.

    The language a grammar expression denotes is one of inputs, which may be tokens or numbers
    that are no characters.  Here are the texts whose characters it admits, and what each way of
    building expressions does to them. *)
From Stdlib Require Import Strings.Byte.
From S2P Require Import Prelude Utf8 Utf8Scalar Grammar GrammarParser GrammarLanguage GrammarMatcher Schema GbnfSyntax GbnfReading.

(** The texts of a language. *)
Definition texts (L : Lang) (s : str) : Prop := exists cs, scalars cs /\ s = encode_all cs /\ L (word cs).
(** No tokens, only characters. *)
Definition of_characters (L : Lang) : Prop := forall v, L v -> exists cs, v = word cs.

Lemma encode_all_app a b : encode_all (a ++ b) = encode_all a ++ encode_all b.
Proof. unfold encode_all. by rewrite fmap_app, join_app. Qed.
Lemma word_app a b : word (a ++ b) = word a ++ word b.
Proof. apply fmap_app. Qed.
Lemma word_inj a b : word a = word b -> a = b.
Proof. revert b. induction a as [|x a IH]; intros [|y b]; [done..|]. intros [= -> ?%IH]. by f_equal. Qed.
Lemma word_split cs a b : word cs = a ++ b -> exists c d, cs = c ++ d /\ a = word c /\ b = word d.
Proof. unfold word. intros E. apply fmap_app_inv in E as (c & d & Ha & Hb & ->). by exists c, d. Qed.
Lemma texts_valid L s : texts L s -> utf8_valid s = true.
Proof. intros (cs & Hcs & -> & _). by apply utf8_valid_encode. Qed.
Lemma texts_of L s : utf8_valid s = true -> texts L s <-> L (word (code_point <$> chars s)).
Proof.
  intros (cs & Hcs & ->)%valid_encode_all. rewrite chars_encode_all by done. split; [|intros HL; by exists cs].
  intros (cs' & Hcs' & E & HL). assert (cs = cs') as ->; [|done]. by rewrite <- (chars_encode_all cs Hcs), E, chars_encode_all.
Qed.
Lemma texts_iff (L M : Lang) s : (forall v, L v <-> M v) -> texts L s <-> texts M s.
Proof. intros HL. unfold texts. by setoid_rewrite HL. Qed.
Lemma texts_lit t s : utf8_valid t = true -> texts (fun v => v = word (code_point <$> chars t)) s <-> s = t.
Proof.
  intros (ct & Hct & ->)%valid_encode_all. rewrite chars_encode_all by done. split; [intros (cs & _ & -> & ->%word_inj); done|].
  intros ->. by exists ct.
Qed.
Lemma texts_nil s : texts (fun v => v = []) s <-> s = [].
Proof. split; [intros ([|] & _ & -> & E); [done|discriminate E]|intros ->; by exists []]. Qed.
Lemma texts_app (L M : Lang) s : texts (lang_app L M) s <-> exists a b, s = a ++ b /\ texts L a /\ texts M b.
Proof.
  split.
  - intros (cs & Hcs & -> & v1 & v2 & (c & d & -> & -> & ->)%word_split & HL & HM). apply Forall_app in Hcs as [Hc Hd].
    exists (encode_all c), (encode_all d). split; [apply encode_all_app|]. split; [by exists c|by exists d].
  - intros (a & b & -> & (c & Hc & -> & HL) & (d & Hd & -> & HM)). exists (c ++ d). split; [by apply Forall_app|]. split; [by rewrite encode_all_app|].
    exists (word c), (word d). split; [apply word_app|done].
Qed.
Lemma texts_or (L M : Lang) s : texts (fun v => L v \/ M v) s <-> texts L s \/ texts M s.
Proof.
  split; [intros (cs & H1 & H2 & [H|H]); [left|right]; by exists cs|]. intros [(cs & H1 & H2 & H)|(cs & H1 & H2 & H)]; exists cs; split_and!; try done; [by left|by right].
Qed.
Lemma texts_power (L : Lang) k s : texts (lang_power L k) s <-> exists parts, length parts = k /\ Forall (texts L) parts /\ s = mjoin parts.
Proof.
  revert s. induction k as [|k IH]; intros s; cbn [lang_power].
  - rewrite texts_nil. split; [intros ->; by exists []|]. intros ([|] & Hl & _ & ->); [done|discriminate Hl].
  - rewrite texts_app. setoid_rewrite IH. split.
    + intros (a & b & -> & Ha & parts & Hl & Hp & ->). exists (a :: parts). split; [cbn; by f_equal|]. split; [by constructor|done].
    + intros ([|a parts] & Hl & Hp & ->); [discriminate Hl|]. apply Forall_cons in Hp as [Ha Hp]. exists a, (mjoin parts). split; [done|]. split; [done|].
      exists parts. cbn in Hl. split; [lia|done].
Qed.
Lemma texts_repeat (L : Lang) suffix s : texts (lang_repeat L suffix) s <-> exists parts, Forall (texts L) parts /\ s = mjoin parts /\
  fst (suffix_bounds suffix) <= Z.of_nat (length parts) /\ match snd (suffix_bounds suffix) with Some n => Z.of_nat (length parts) <= n | None => True end.
Proof.
  split.
  - intros (cs & Hcs & -> & k & H1 & H2 & HL). assert (texts (lang_power L k) (encode_all cs)) as (parts & <- & Hp & E)%texts_power by by exists cs. by exists parts.
  - intros (parts & Hp & -> & H1 & H2). assert (texts (lang_power L (length parts)) (mjoin parts)) as (cs & Hcs & E & HL) by (apply texts_power; by exists parts).
    exists cs. split; [done|]. split; [done|]. by exists (length parts).
Qed.
Lemma texts_star (L : Lang) s : texts (lang_repeat L Star) s <-> exists parts, Forall (texts L) parts /\ s = mjoin parts.
Proof. rewrite texts_repeat. cbn. split; [intros (parts & H1 & H2 & _); by exists parts|intros (parts & H1 & H2); exists parts; split_and!; try done; lia]. Qed.
Lemma texts_plus (L : Lang) s : texts (lang_repeat L Plus) s <-> exists parts, Forall (texts L) parts /\ s = mjoin parts /\ parts <> [].
Proof.
  rewrite texts_repeat. cbn. split.
  - intros (parts & H1 & H2 & H3 & _). exists parts. split_and!; try done. intros ->. cbn in H3. lia.
  - intros (parts & H1 & H2 & H3). exists parts. split_and!; try done. destruct parts; [done|cbn; lia].
Qed.
Lemma texts_optional (L : Lang) s : texts (lang_repeat L Optional) s <-> s = [] \/ texts L s.
Proof.
  rewrite texts_repeat. cbn. split.
  - intros ([|a [|b parts]] & H1 & -> & H2 & H3); [by left| |cbn in H3; lia]. right. apply Forall_cons in H1 as [H1 _]. change (mjoin [a]) with (a ++ []). by rewrite app_nil_r.
  - intros [->|H]; [by exists []|]. exists [s]. split_and!; [by apply Forall_singleton|change (mjoin [s]) with (s ++ []); by rewrite app_nil_r|cbn; lia|cbn; lia].
Qed.
Lemma texts_once (L : Lang) s : texts (lang_repeat L Once) s <-> texts L s.
Proof. apply texts_iff. intros v. apply lang_repeat_once. Qed.
(** One character of a class. *)
Lemma texts_class inverted entries s : texts (fun v => exists i, v = [i] /\ in_class inverted entries i) s <->
  exists c, is_scalar c = true /\ s = encode_utf8 c /\ CharSet_matches (mkCharSet inverted (entry_range <$> entries)) c = true.
Proof.
  split.
  - intros (cs & Hcs & -> & i & E & Hi). destruct cs as [|c [|d cs]]; try discriminate E. injection E as <-. apply Forall_cons in Hcs as [Hcs _]. exists c.
    split; [done|]. split; [by unfold encode_all; cbn; rewrite app_nil_r|done].
  - intros (c & Hc & -> & Hm). exists [c]. split; [by apply Forall_singleton|]. split; [unfold encode_all; cbn; by rewrite app_nil_r|]. by exists (IChar c).
Qed.

(** ** Tokens whose bytes a text of the language is. *)
Lemma of_characters_app L M : of_characters L -> of_characters M -> of_characters (lang_app L M).
Proof. intros HL HM v (a & b & -> & (c & ->)%HL & (d & ->)%HM). exists (c ++ d). by rewrite word_app. Qed.
Lemma of_characters_power L k : of_characters L -> of_characters (lang_power L k).
Proof. intros HL. induction k as [|k IH]; [intros v ->; by exists []|]. by apply of_characters_app. Qed.
Lemma of_characters_repeat L suffix : of_characters L -> of_characters (lang_repeat L suffix).
Proof. intros HL v (k & _ & _ & Hk). by eapply of_characters_power. Qed.
Lemma of_characters_denote E : 
  (forall e, (forall name, name ∈ mentions e -> of_characters (E name)) -> of_characters (denote E e)) /\
  (forall s, (forall name, name ∈ mentions_seq s -> of_characters (E name)) -> of_characters (denote_seq E s)) /\
  (forall pc, (forall name, name ∈ mentions_piece pc -> of_characters (E name)) -> of_characters (denote_piece E pc)).
Proof.
  apply syntax_ind; cbn [mentions mentions_seq mentions_piece denote denote_seq denote_piece].
  - intros s IH HE. by apply IH.
  - intros s IHs e IHe HE v [Hv|Hv]; [apply IHs in Hv|apply IHe in Hv]; try done; intros name Hn; apply HE, elem_of_app; [by left|by right].
  - intros trail _ v ->. by exists [].
  - intros pad pc IHp suffix s IHs HE. apply of_characters_app; [apply of_characters_repeat, IHp|apply IHs]; intros name Hn; apply HE, elem_of_app; [by left|by right].
  - intros value _ v ->. by eexists.
  - intros inverted entries _ v (i & -> & Hi). destruct i as [c|t b]; [by exists [c]|done].
  - intros name HE. apply HE. by apply list_elem_of_singleton.
  - intros e IH HE. by apply IH.
Qed.
Lemma reads_word ts w rest : reads ts w rest -> forall cs, w = word cs -> scalars cs /\ mjoin (ts.*2) = encode_all cs ++ rest.
Proof.
  induction 1 as [|ts w t bytes Hr IH|ts w rest t bytes cs rest' Hr IH Hne Hcs Hi E]; intros ds Ew.
  - destruct ds; [|discriminate Ew]. by split.
  - exfalso. symmetry in Ew. apply word_split in Ew as (c & d & _ & _ & Ed). destruct d as [|x [|y d]]; discriminate Ed.
  - symmetry in Ew. apply word_split in Ew as (c & d & -> & -> & Ed). apply word_inj in Ed as ->. destruct (IH c eq_refl) as [Hc Hm].
    split; [by apply Forall_app|]. rewrite fmap_app, join_app, Hm, encode_all_app. change (mjoin ([(t, bytes)].*2)) with (bytes ++ []). by rewrite app_nil_r, <- !app_assoc, E.
Qed.
(** What a matcher has accepted as a sentence is a text of its grammar's language. *)
Lemma accepted_text text root m ts m' : matcher_parse text root = Ok m ->
  let L := yields (grammar m) (rhs (productions (grammar m) !!! start_production (grammar m))) in
  of_characters L -> accept_tokens m ts = Some m' -> is_accepting m' = true -> texts L (mjoin (ts.*2)).
Proof.
  unfold matcher_parse. pose proof (GrammarParserProofs.parse_outcome text root) as Hp. destruct (parse text root) as [g|]; [|done]. intros [= <-].
  destruct Hp as (Hwf & Hsets & _). cbv zeta. change (grammar (matcher_start g)) with g. intros HL Ha Hacc.
  pose proof (accept_tokens_spec g Hwf Hsets [] ts _ (tracks_start g Hwf)) as Ht. rewrite Ha in Ht.
  apply (tracks_accepting g Hwf _ _ Ht) in Hacc as (w & Hr & Hy). destruct (HL _ Hy) as [cs ->]. destruct (reads_word _ _ _ Hr cs eq_refl) as [Hcs E].
  rewrite app_nil_r in E. by exists cs.
Qed.
