(* ===== verification/ToolSyntax.v ===== *)
(** * The tool grammar as syntax.

    The rules [required_tool_gbnf] writes, as expressions: written, they are its text, and with
    them the parser accepts it. *)
From Stdlib Require Import Strings.Byte.
From S2P Require Import Prelude Utf8 Utf8Scalar Substring Grammar GrammarParser GrammarLanguage Schema SchemaDecimal GbnfSyntax GbnfReading GbnfRules JsonRules.
From S2P Require Import AtemStream ToolGrammar.

(** ** Numbered names. *)
Lemma numbered_inj prefix i j : (Z.of_nat i < 10 ^ 20) -> (Z.of_nat j < 10 ^ 20) -> numbered prefix i = numbered prefix j -> i = j.
Proof.
  intros Hi Hj E%app_inv_head. destruct (to_decimal_spec (Z.of_nat i)) as (_ & Va & _); [lia|]. destruct (to_decimal_spec (Z.of_nat j)) as (_ & Vb & _); [lia|].
  rewrite E in Va. lia.
Qed.
Lemma numbered_ok prefix i : Z.of_nat i < 10 ^ 20 -> gbnf prefix <> [] -> forallb is_name_byte (gbnf prefix) = true ->
  (forall k, starts_with (string_bytes "__generated-") (gbnf prefix ++ k) = false) -> name_ok (numbered prefix i) = true.
Proof.
  intros Hi Hne Hn Hg. destruct (to_decimal_spec (Z.of_nat i)) as (Hd & _); [lia|]. unfold name_ok, numbered. rewrite !andb_true_iff. split_and!.
  - apply bool_decide_eq_true. by destruct (gbnf prefix).
  - rewrite forallb_app. apply andb_true_iff. split; [done|]. apply forallb_forall. intros b Hb%list_elem_of_In. unfold digits_only in Hd. rewrite Forall_forall in Hd.
    specialize (Hd b Hb). destruct b; try discriminate Hd; reflexivity.
  - by rewrite Hg.
Qed.
Lemma tool_parameter_ok i : Z.of_nat i < 10 ^ 20 -> name_ok (tool_parameter i) = true.
Proof. intros Hi. by apply numbered_ok. Qed.
Lemma tool_invoke_ok i : Z.of_nat i < 10 ^ 20 -> name_ok (tool_invoke i) = true.
Proof. intros Hi. by apply numbered_ok. Qed.
Lemma parameter_not_invoke i j : tool_parameter i <> tool_invoke j.
Proof. intros E. by apply (f_equal (fun s => s !! 5%nat)) in E. Qed.

(** ** The rules. *)
Definition quoted (t : str) : Part := (Lit t, Once).
Definition any_of (names : list str) : Part := group ((fun name => [quoted name]) <$> names).
Definition name_parts (tool : ToolDefinition) : list Part :=
  if additional tool then [one_of [span "A" 65 "Z" 90; span "a" 97 "z" 122; one "_" 95];
    many (one_of [span "A" 65 "Z" 90; span "a" 97 "z" 122; span "0" 48 "9" 57; one "_" 95; one "." 46; one "-" 45])]
  else match parameter_names tool with [] => [] | names => [any_of names] end.
Definition ref (name : str) : Part := (Ref name, Once).
Definition parameter_rule (i : nat) (tool : ToolDefinition) : RuleText :=
  mkRule 0 (tool_parameter i) (alts [[lit "<atem:parameter name='"] ++ name_parts tool ++ [lit "'>"; many (rule "parameter-char"); lit "</atem:parameter>"; rule "layout"]]).
Definition invoke_tail (i : nat) (tool : ToolDefinition) : Seq :=
  match name_parts tool with
  | [] => spaced 2 [lit "</atem:invoke>"; rule "layout"]
  | _ => spaced 1 [many (ref (tool_parameter i)); lit "</atem:invoke>"; rule "layout"]
  end.
Definition then_parts (l : list Part) (tail : Seq) : Seq := foldr (fun p s => Then 1 p.1 p.2 s) tail l.
Definition invoke_rule (i : nat) (tool : ToolDefinition) : RuleText :=
  mkRule 0 (tool_invoke i) (Last (Then 0 (Lit (gbnf "<atem:invoke name='")) Once (then_parts [quoted (tool_name tool); lit "'>"; rule "layout"] (invoke_tail i tool)))).
Definition rules_of_tool (i : nat) (tool : ToolDefinition) : list RuleText :=
  match name_parts tool with [] => [] | _ => [parameter_rule i tool] end ++ [invoke_rule i tool].
Definition invoke_part (parallel : bool) (tools : list ToolDefinition) : Part :=
  ((group ((fun name => [ref name]) <$> imap (fun i _ => tool_invoke i) tools)).1, if parallel then Plus else Once).
Definition root_rule (parallel : bool) (tools : list ToolDefinition) : RuleText :=
  mkRule 0 (gbnf "root") (alts [[maybe (rule "reasoning-phase"); rule "assistant-prefix"; lit " to="; any_of ((tool_name <$> tools) ++ [string_bytes "tool"]);
    lit "<|message|><atem:function_calls>"; rule "layout"; invoke_part parallel tools; lit "</atem:function_calls><|eom|>"]]).
Definition fixed_rules : list RuleText := [
  mkRule 0 (gbnf "reasoning-phase") (alts [[rule "assistant-prefix"; lit " to=self<|message|>"; many (rule "any"); lit "<|eom|>"]]);
  mkRule 0 (gbnf "assistant-prefix") (alts [[maybe (lit "<|start|>assistant")]]);
  mkRule 0 (gbnf "any") (alts [[one_of [span "\U00000000" 0 "\uD7FF" 0xD7FF; span "\uE000" 0xE000 "\U0010FFFF" 0x10FFFF]]]);
  mkRule 0 (gbnf "parameter-char") (alts [[none_of [one "<" 60]]]);
  mkRule 0 (gbnf "layout") (alts [[many (one_of [one " " 32; one "\t" 9; one "\n" 10; one "\r" 13])]])].
Definition grammar_rules (parallel : bool) (tools : list ToolDefinition) : list RuleText :=
  root_rule parallel tools :: fixed_rules ++ mjoin (imap rules_of_tool tools).

(** ** Their text. *)
Lemma print_alts l : print (alts l) = join (gbnf " | ") (print_seq ∘ spaced 0 <$> l).
Proof.
  induction l as [|s l IH]; [done|]. destruct l as [|t l]; [done|]. change (alts (s :: t :: l)) with (Or (spaced 0 s) (alts (t :: l))).
  change (print_seq (spaced 0 s) ++ gbnf " | " ++ print (alts (t :: l)) = print_seq (spaced 0 s) ++ gbnf " | " ++ join (gbnf " | ") (print_seq ∘ spaced 0 <$> t :: l)). by rewrite IH.
Qed.
Lemma print_any_of names : print_piece (any_of names).1 = gbnf "(" ++ join (gbnf " | ") (quoted_literal <$> names) ++ gbnf ")".
Proof.
  change (gbnf "(" ++ print (alts ((fun name => [quoted name]) <$> names)) ++ gbnf ")" = gbnf "(" ++ join (gbnf " | ") (quoted_literal <$> names) ++ gbnf ")").
  rewrite print_alts, <- list_fmap_compose. do 3 f_equal. apply list_fmap_ext. intros _ x _. change (quoted_literal x ++ [] = quoted_literal x). apply app_nil_r.
Qed.
Lemma parameter_name_text tool : parameter_name tool = match name_parts tool with [] => [] | l => print_seq (spaced 0 l) end.
Proof.
  unfold parameter_name, name_parts. destruct (additional tool); [done|]. destruct (parameter_names tool) as [|n names]; [done|].
  change (print_seq (spaced 0 [any_of (n :: names)])) with (print_piece (any_of (n :: names)).1 ++ []). by rewrite app_nil_r, print_any_of.
Qed.
Lemma print_spaced_app p l k : l <> [] -> k <> [] -> print_seq (spaced p (l ++ k)) = print_seq (spaced p l) ++ gbnf " " ++ print_seq (spaced 0 k).
Proof.
  intros Hl Hk. revert p Hl. induction l as [|i l IH]; intros p Hl; [done|]. destruct k as [|x k]; [done|]. destruct l as [|j l].
  - cbn [app spaced print_seq]. by rewrite <- !app_assoc.
  - change ((i :: j :: l) ++ x :: k) with (i :: (j :: l) ++ x :: k). change (print_seq (spaced p (i :: ?m))) with (spaces p ++ print_piece i.1 ++ print_suffix i.2 ++ print_seq (spaced 1 m)).
    rewrite IH by done. by rewrite <- !app_assoc.
Qed.
Lemma rule_line_single name s : print_rule (mkRule 0 name (Last s)) = rule_line (name, print_seq s).
Proof. done. Qed.
Lemma name_parts_print tool : name_parts tool <> [] -> print_seq (spaced 0 (name_parts tool)) <> [].
Proof.
  unfold name_parts. destruct (additional tool); [done|]. destruct (parameter_names tool) as [|n names]; [done|]. intros _.
  change (print_seq (spaced 0 [any_of (n :: names)])) with (print_piece (any_of (n :: names)).1 ++ []). by rewrite print_any_of.
Qed.
Lemma rules_of_tool_text i tool : rule_line <$> tool_rules i tool = print_rule <$> rules_of_tool i tool.
Proof.
  unfold tool_rules, rules_of_tool. rewrite parameter_name_text. pose proof (name_parts_print tool) as Hne. destruct (name_parts tool) as [|p parts] eqn:En.
  - cbn [app]. change (print_rule <$> [invoke_rule i tool]) with [print_rule (invoke_rule i tool)]. unfold invoke_rule, invoke_tail. by rewrite En, rule_line_single.
  - specialize (Hne ltac:(done)). set (t := print_seq (spaced 0 (p :: parts))) in *. destruct t as [|a t'] eqn:Et; [done|]. rewrite <- Et.
    change (print_rule <$> [parameter_rule i tool] ++ [invoke_rule i tool]) with [print_rule (parameter_rule i tool); print_rule (invoke_rule i tool)].
    unfold parameter_rule, invoke_rule, invoke_tail. rewrite En. cbn [alts]. rewrite !rule_line_single.
    change ([lit "<atem:parameter name='"] ++ (p :: parts) ++ [lit "'>"; many (rule "parameter-char"); lit "</atem:parameter>"; rule "layout"])
      with ([lit "<atem:parameter name='"] ++ ((p :: parts) ++ [lit "'>"; many (rule "parameter-char"); lit "</atem:parameter>"; rule "layout"])).
    rewrite !print_spaced_app by done. subst t.
    cbn [app fmap list_fmap]. repeat f_equal. rewrite <- !app_assoc. reflexivity.
Qed.
Lemma imap_from {A B} (f : nat -> A -> B) i x l : imap (fun k => f (i + k)%nat) (x :: l) = f i x :: imap (fun k => f (S i + k)%nat) l.
Proof. cbn [imap]. rewrite Nat.add_0_r. f_equal. apply imap_ext. intros k y _. cbn. by rewrite Nat.add_succ_r. Qed.
Lemma filter_invokes i tools : List.filter (starts_with (gbnf "tool-invoke-")) (mjoin (imap (fun k => tool_rules (i + k)) tools)).*1 = imap (fun k _ => tool_invoke (i + k)) tools.
Proof.
  revert i. induction tools as [|tool tools IH]; intros i; [done|]. rewrite (imap_from tool_rules), (imap_from (fun k _ => tool_invoke k)). change (mjoin (?x :: ?l)) with (x ++ mjoin l).
  rewrite fmap_app, List.filter_app, IH. f_equal. unfold tool_rules. by destruct (parameter_name tool).
Qed.
Lemma root_rule_text parallel tools : print_rule (root_rule parallel tools) =
  gbnf "root ::= reasoning-phase? assistant-prefix ' to=' (" ++ join (gbnf " | ") ((quoted_literal ∘ tool_name <$> tools) ++ [quoted_literal (string_bytes "tool")])
  ++ gbnf ") '<|message|><atem:function_calls>' layout (" ++ join (gbnf " | ") (imap (fun i _ => tool_invoke i) tools) ++ gbnf ")" ++ (if parallel then gbnf "+" else [])
  ++ gbnf " '</atem:function_calls><|eom|>'
".
Proof.
  unfold root_rule. cbn [alts]. rewrite rule_line_single. unfold rule_line. cbn [fst snd].
  change ([maybe (rule "reasoning-phase"); rule "assistant-prefix"; lit " to="; any_of ((tool_name <$> tools) ++ [string_bytes "tool"]);
    lit "<|message|><atem:function_calls>"; rule "layout"; invoke_part parallel tools; lit "</atem:function_calls><|eom|>"]) with
   ([maybe (rule "reasoning-phase"); rule "assistant-prefix"; lit " to="] ++ [any_of ((tool_name <$> tools) ++ [string_bytes "tool"])] ++
    [lit "<|message|><atem:function_calls>"; rule "layout"] ++ [invoke_part parallel tools] ++ [lit "</atem:function_calls><|eom|>"]).
  rewrite !print_spaced_app by done.
  change (print_seq (spaced 0 [any_of ((tool_name <$> tools) ++ [string_bytes "tool"])])) with (print_piece (any_of ((tool_name <$> tools) ++ [string_bytes "tool"])).1 ++ []).
  change (print_seq (spaced 0 [invoke_part parallel tools])) with (print_piece (invoke_part parallel tools).1 ++ print_suffix (if parallel then Plus else Once) ++ []).
  rewrite print_any_of, fmap_app, <- list_fmap_compose.
  assert (print_piece (invoke_part parallel tools).1 = gbnf "(" ++ join (gbnf " | ") (imap (fun i _ => tool_invoke i) tools) ++ gbnf ")") as ->.
  { change (print_piece (invoke_part parallel tools).1) with (gbnf "(" ++ print (alts ((fun name => [ref name]) <$> imap (fun i _ => tool_invoke i) tools)) ++ gbnf ")").
    rewrite print_alts, <- list_fmap_compose. do 3 f_equal. rewrite <- (list_fmap_id (imap _ tools)) at 2. apply list_fmap_ext. intros _ x _. change (x ++ [] = x). apply app_nil_r. }
  rewrite !app_nil_r, <- !app_assoc. by destruct parallel.
Qed.
Lemma grammar_rules_text request tools : tools = eligible_tools request -> tools <> [] ->
  required_tool_gbnf request = Ok (print_rules (grammar_rules (parallel_tool_calls request) tools)).
Proof.
  intros -> Hne. unfold required_tool_gbnf. set (tools := eligible_tools request) in *. destruct tools as [|t0 ts] eqn:Et; [done|]. rewrite <- Et in *. clear Et t0 ts.
  f_equal. unfold grammar_rules, print_rules. rewrite fmap_cons, fmap_app. change (mjoin (?x :: ?l)) with (x ++ mjoin l). rewrite join_app, root_rule_text.
  pose proof (filter_invokes 0 tools) as Hf. cbn [Nat.add] in Hf. change (imap (fun k => tool_rules k) tools) with (imap tool_rules tools) in Hf.
  change (imap (fun k _ => tool_invoke k) tools) with (imap (fun (k : nat) (_ : ToolDefinition) => tool_invoke k) tools) in Hf. rewrite Hf.
  assert (mjoin (rule_line <$> mjoin (imap tool_rules tools)) = mjoin (print_rule <$> mjoin (imap rules_of_tool tools))) as ->.
  { f_equal. clear. assert (forall i, rule_line <$> mjoin (imap (fun k => tool_rules (i + k)) tools) = print_rule <$> mjoin (imap (fun k => rules_of_tool (i + k)) tools)) as Hi; [|apply (Hi 0%nat)].
    induction tools as [|tool tools IH]; intros i; [done|]. rewrite (imap_from tool_rules), (imap_from rules_of_tool). change (mjoin (?x :: ?l)) with (x ++ mjoin l).
    by rewrite !fmap_app, rules_of_tool_text, IH. }
  rewrite <- !app_assoc. reflexivity.
Qed.

(** ** The text is well written. *)
Definition part_ok (i : Part) : bool := piece_ok i.1 && suffix_ok i.2.
Lemma spaced_ok p l : forallb part_ok l = true -> seq_ok (spaced p l) = true.
Proof.
  revert p. induction l as [|i l IH]; intros p; [done|]. cbn [forallb spaced seq_ok]. intros [Hi Hl]%andb_true_iff. unfold part_ok in Hi. rewrite Hi, IH by done.
  destruct l as [|j l]; cbn [spaced]; by destruct i as [[] []].
Qed.
Lemma alts_ok l : forallb (forallb part_ok) l = true -> expr_ok (alts l) = true.
Proof.
  induction l as [|s l IH]; [done|]. cbn [forallb]. intros [Hs Hl]%andb_true_iff. destruct l as [|t l]; [by apply spaced_ok|].
  change (expr_ok (alts (s :: t :: l))) with (seq_ok (spaced 0 s) && expr_ok (alts (t :: l))). by rewrite spaced_ok, IH.
Qed.
Lemma mentions_spaced p l : mentions_seq (spaced p l) = l ≫= fun i => mentions_piece i.1.
Proof. revert p. induction l as [|i l IH]; intros p; [done|]. cbn [spaced mentions_seq]. by rewrite IH. Qed.
Lemma mentions_alts l : mentions (alts l) = l ≫= fun s => s ≫= fun i => mentions_piece i.1.
Proof.
  induction l as [|s l IH]; [done|]. destruct l as [|t l]; [change (mentions (alts [s])) with (mentions_seq (spaced 0 s)); rewrite mentions_spaced; cbn; by rewrite app_nil_r|].
  change (mentions (alts (s :: t :: l))) with (mentions_seq (spaced 0 s) ++ mentions (alts (t :: l))). by rewrite IH, mentions_spaced.
Qed.
Lemma any_of_ok names : Forall (fun name => utf8_valid name = true) names -> part_ok (any_of names) = true.
Proof.
  intros Hv. unfold part_ok, any_of, group. cbn [fst snd piece_ok suffix_ok]. rewrite andb_true_r. apply alts_ok.
  induction Hv as [|name names Hn Hv IH]; [done|]. rewrite fmap_cons. cbn [forallb]. by rewrite IH, andb_true_r; unfold part_ok; cbn; rewrite Hn.
Qed.
(** Names are text. *)
Definition tool_valid (tool : ToolDefinition) : Prop := utf8_valid (tool_name tool) = true /\ Forall (fun name => utf8_valid name = true) (parameter_names tool).
Lemma name_parts_ok tool : tool_valid tool -> forallb part_ok (name_parts tool) = true.
Proof.
  intros [_ Hv]. unfold name_parts. destruct (additional tool); [done|]. destruct (parameter_names tool) as [|n names] eqn:E; [done|]. cbn [forallb]. by rewrite any_of_ok.
Qed.
Lemma mentions_any_of names : mentions_piece (any_of names).1 = [].
Proof.
  change (mentions (alts ((fun name => [quoted name]) <$> names)) = []). rewrite mentions_alts. induction names as [|n names IH]; [done|]. by rewrite fmap_cons, bind_cons, IH.
Qed.
Lemma mentions_name_parts tool : (name_parts tool ≫= fun i => mentions_piece i.1) = [].
Proof.
  unfold name_parts. destruct (additional tool); [done|]. destruct (parameter_names tool) as [|n names]; [done|]. rewrite bind_cons, mentions_any_of. done.
Qed.
Section Written.
Context (parallel : bool) (tools : list ToolDefinition) (Hbound : Z.of_nat (length tools) < 10 ^ 20) (Hvalid : Forall tool_valid tools).
Lemma tool_rule_cases r : r ∈ mjoin (imap rules_of_tool tools) -> exists i tool, tools !! i = Some tool /\ (r = invoke_rule i tool \/ (name_parts tool <> [] /\ r = parameter_rule i tool)).
Proof.
  intros (l & Hr & (i & tool & -> & Hi)%elem_of_lookup_imap)%list_elem_of_join. exists i, tool. split; [done|]. unfold rules_of_tool in Hr.
  destruct (name_parts tool); [apply list_elem_of_singleton in Hr; by left|]. apply elem_of_cons in Hr as [->|Hr%list_elem_of_singleton]; [by right|by left].
Qed.
Lemma invoke_rule_in i tool : tools !! i = Some tool -> invoke_rule i tool ∈ grammar_rules parallel tools.
Proof.
  intros Hi. apply elem_of_cons. right. apply elem_of_app. right. apply list_elem_of_join. exists (rules_of_tool i tool). split; [|apply elem_of_lookup_imap; by exists i, tool].
  apply elem_of_app. right. by apply list_elem_of_singleton.
Qed.
Lemma parameter_rule_in i tool : tools !! i = Some tool -> name_parts tool <> [] -> parameter_rule i tool ∈ grammar_rules parallel tools.
Proof.
  intros Hi Hne. apply elem_of_cons. right. apply elem_of_app. right. apply list_elem_of_join. exists (rules_of_tool i tool). split; [|apply elem_of_lookup_imap; by exists i, tool].
  apply elem_of_app. left. destruct (name_parts tool); [done|]. by apply list_elem_of_singleton.
Qed.
Lemma index_bound i (tool : ToolDefinition) : tools !! i = Some tool -> Z.of_nat i < 10 ^ 20.
Proof. intros Hi%lookup_lt_Some. lia. Qed.
Lemma valid_at i tool : tools !! i = Some tool -> tool_valid tool.
Proof. intros Hi. by apply (Forall_lookup_1 _ _ _ _ Hvalid Hi). Qed.
Lemma parameter_rule_ok i tool : tools !! i = Some tool -> rule_ok (parameter_rule i tool) = true.
Proof.
  intros Hi. unfold rule_ok, parameter_rule. cbn [r_name r_expr]. rewrite tool_parameter_ok by by eapply index_bound. cbn [andb]. apply alts_ok.
  cbn [forallb]. rewrite andb_true_r, !forallb_app, name_parts_ok by by eapply valid_at. done.
Qed.
Lemma invoke_rule_ok i tool : tools !! i = Some tool -> rule_ok (invoke_rule i tool) = true.
Proof.
  intros Hi. unfold rule_ok, invoke_rule. cbn [r_name r_expr]. rewrite tool_invoke_ok by by eapply index_bound. cbn [andb].
  assert (seq_ok (invoke_tail i tool) = true) as Ht.
  { unfold invoke_tail. destruct (name_parts tool); [done|]. apply spaced_ok. cbn [forallb]. unfold part_ok at 1. cbn [many ref fst snd piece_ok suffix_ok]. by rewrite tool_parameter_ok by by eapply index_bound. }
  destruct (valid_at i tool Hi) as [Hv _]. cbn [expr_ok then_parts foldr seq_ok quoted fst snd lit rule]. rewrite Ht. cbn [piece_ok]. rewrite Hv.
  unfold invoke_tail. by destruct (name_parts tool).
Qed.
Lemma root_rule_ok : rule_ok (root_rule parallel tools) = true.
Proof.
  unfold rule_ok, root_rule. cbn [r_name r_expr]. change (name_ok (gbnf "root")) with true. cbn [andb]. apply alts_ok. cbn [forallb].
  rewrite any_of_ok by (apply Forall_app; split; [apply Forall_fmap; eapply Forall_impl; [exact Hvalid|intros t [Hv _]; exact Hv]|by repeat constructor]).
  assert (part_ok (invoke_part parallel tools) = true) as ->; [|done]. unfold part_ok, invoke_part. cbn [fst snd group piece_ok]. apply andb_true_iff. split; [|by destruct parallel].
  apply alts_ok. rewrite forallb_forall. intros s (name & -> & (i & tool & -> & Hi)%elem_of_lookup_imap)%list_elem_of_In%list_elem_of_fmap.
  cbn [forallb]. rewrite andb_true_r. unfold part_ok. cbn [ref fst snd piece_ok suffix_ok]. by rewrite tool_invoke_ok by by eapply index_bound.
Qed.
Lemma grammar_rules_ok : Forall (fun r => rule_ok r = true) (grammar_rules parallel tools).
Proof.
  constructor; [apply root_rule_ok|]. apply Forall_app. split; [by repeat constructor|]. apply Forall_forall. intros r (i & tool & Hi & [->|[_ ->]])%tool_rule_cases;
    [by apply invoke_rule_ok|by apply parameter_rule_ok].
Qed.
(** Distinct names, each mentioned one defined. *)
Lemma names_of_tool i tool name : name ∈ r_name <$> rules_of_tool i tool -> name = tool_invoke i \/ name = tool_parameter i.
Proof.
  unfold rules_of_tool. rewrite fmap_app, elem_of_app. intros [Hn|Hn%list_elem_of_singleton]; [right|by left].
  destruct (name_parts tool); [by apply elem_of_nil in Hn|by apply list_elem_of_singleton in Hn].
Qed.
Lemma names_from i l name : name ∈ r_name <$> mjoin (imap (fun k => rules_of_tool (i + k)) l) ->
  exists j, (i <= j < i + length l)%nat /\ (name = tool_invoke j \/ name = tool_parameter j).
Proof.
  revert i. induction l as [|tool l IH]; intros i; [by intros ?%elem_of_nil|]. rewrite (imap_from rules_of_tool). change (mjoin (?x :: ?k)) with (x ++ mjoin k).
  rewrite fmap_app, elem_of_app. intros [Hn%names_of_tool|(j & Hj & Hn)%IH]; [exists i|exists j]; (split; [cbn; lia|done]).
Qed.
Lemma names_distinct_from i l : Z.of_nat (i + length l) < 10 ^ 20 -> NoDup (r_name <$> mjoin (imap (fun k => rules_of_tool (i + k)) l)).
Proof.
  revert i. induction l as [|tool l IH]; intros i Hl; [constructor|]. rewrite (imap_from rules_of_tool). change (mjoin (?x :: ?k)) with (x ++ mjoin k).
  cbn [length] in Hl. rewrite fmap_app. apply NoDup_app. split; [|split; [|apply IH; lia]].
  - unfold rules_of_tool. destruct (name_parts tool); [by apply NoDup_singleton|]. apply NoDup_cons. split; [|by apply NoDup_singleton].
    rewrite list_elem_of_singleton. apply parameter_not_invoke.
  - intros name Hn (j & Hj & Hn')%names_from. apply names_of_tool in Hn. destruct Hn as [->| ->], Hn' as [E|E].
    + apply numbered_inj in E; lia.
    + symmetry in E. by apply parameter_not_invoke in E.
    + by apply parameter_not_invoke in E.
    + apply numbered_inj in E; lia.
Qed.
Lemma fixed_names_plain name : name ∈ gbnf "root" :: (r_name <$> fixed_rules) -> forall j, name <> tool_invoke j /\ name <> tool_parameter j.
Proof.
  intros Hn j. assert (Forall (fun t => take 5 t <> gbnf "tool-") (gbnf "root" :: (r_name <$> fixed_rules))) as Hall.
  { apply (bool_decide_unpack (Forall (fun t => take 5 t <> gbnf "tool-") (gbnf "root" :: (r_name <$> fixed_rules)))). vm_compute. done. }
  rewrite Forall_forall in Hall. specialize (Hall _ Hn). split; intros ->; by apply Hall.
Qed.
Lemma grammar_names_distinct : NoDup (r_name <$> grammar_rules parallel tools).
Proof.
  unfold grammar_rules. rewrite fmap_cons, fmap_app. change (r_name (root_rule parallel tools) :: ?a ++ ?b) with ((gbnf "root" :: a) ++ b). apply NoDup_app. split; [|split].
  - apply (bool_decide_unpack (NoDup (gbnf "root" :: (r_name <$> fixed_rules)))). vm_compute. done.
  - intros name Hn (j & _ & Hj)%(names_from 0). destruct (fixed_names_plain name Hn j). by destruct Hj.
  - apply (names_distinct_from 0). cbn. lia.
Qed.
Lemma fixed_name_in name : name ∈ gbnf "root" :: (r_name <$> fixed_rules) -> name ∈ r_name <$> grammar_rules parallel tools.
Proof.
  intros Hn. unfold grammar_rules. rewrite fmap_cons, fmap_app. change (r_name (root_rule parallel tools) :: ?a ++ ?b) with ((gbnf "root" :: a) ++ b). apply elem_of_app. by left.
Qed.
Lemma rule_name_in r : r ∈ grammar_rules parallel tools -> r_name r ∈ r_name <$> grammar_rules parallel tools.
Proof. apply list_elem_of_fmap_2. Qed.
Lemma fixed_mentions name : name ∈ (fixed_rules ≫= fun r => mentions (r_expr r)) -> name ∈ gbnf "root" :: (r_name <$> fixed_rules).
Proof.
  intros Hn. assert (Forall (fun t => t ∈ gbnf "root" :: (r_name <$> fixed_rules)) (fixed_rules ≫= fun r => mentions (r_expr r))) as Hall.
  { apply (bool_decide_unpack (Forall (fun t => t ∈ gbnf "root" :: (r_name <$> fixed_rules)) (fixed_rules ≫= fun r => mentions (r_expr r)))). vm_compute. done. }
  rewrite Forall_forall in Hall. by apply Hall.
Qed.
Ltac fixed_name := apply fixed_name_in; refine (bool_decide_unpack _ _); vm_compute; exact I.
Lemma root_mentions t : t ∈ mentions (r_expr (root_rule parallel tools)) ->
  t ∈ [gbnf "reasoning-phase"; gbnf "assistant-prefix"; gbnf "layout"] \/ exists i tool, tools !! i = Some tool /\ t = tool_invoke i.
Proof.
  unfold root_rule. cbn [r_expr]. rewrite mentions_alts. cbn [mbind list_bind maybe rule lit fst snd mentions_piece]. rewrite mentions_any_of. cbn [app].
  unfold invoke_part. cbn [fst]. change (mentions_piece (group ?l).1) with (mentions (alts l)). rewrite mentions_alts, !app_nil_r.
  intros [->|[->|[->|Ht]%elem_of_cons]%elem_of_cons]%elem_of_cons; [left; rewrite !elem_of_cons; tauto..|]. right.
  apply list_elem_of_bind in Ht as (s & Ht & (name & -> & (i & tool & -> & Hi)%elem_of_lookup_imap)%list_elem_of_fmap).
  cbn in Ht. apply list_elem_of_singleton in Ht as ->. by exists i, tool.
Qed.
Lemma invoke_mentions i tool t : t ∈ mentions (r_expr (invoke_rule i tool)) -> t = gbnf "layout" \/ (name_parts tool <> [] /\ t = tool_parameter i).
Proof.
  unfold invoke_rule. cbn [r_expr]. change (mentions (Last ?s)) with (mentions_seq s). cbn [mentions_seq then_parts foldr quoted lit rule fst snd mentions_piece app].
  rewrite elem_of_cons. intros [->|Ht]; [by left|]. unfold invoke_tail in Ht. destruct (name_parts tool) as [|p ps] eqn:En; rewrite mentions_spaced in Ht; cbn in Ht.
  - apply list_elem_of_singleton in Ht as ->. by left.
  - apply elem_of_cons in Ht as [->|Ht%list_elem_of_singleton]; [by right|by left].
Qed.
Lemma parameter_mentions i tool t : t ∈ mentions (r_expr (parameter_rule i tool)) -> t ∈ [gbnf "parameter-char"; gbnf "layout"].
Proof.
  unfold parameter_rule. cbn [r_expr]. rewrite mentions_alts. cbn [mbind list_bind]. rewrite app_nil_r.
  change (([lit "<atem:parameter name='"] ++ name_parts tool ++ [lit "'>"; many (rule "parameter-char"); lit "</atem:parameter>"; rule "layout"]) ≫= (fun i => mentions_piece i.1))
    with ([] ++ (name_parts tool ++ [lit "'>"; many (rule "parameter-char"); lit "</atem:parameter>"; rule "layout"]) ≫= (fun i => mentions_piece i.1)).
  cbn [app]. rewrite bind_app, mentions_name_parts. done.
Qed.
Lemma grammar_mentions r t : r ∈ grammar_rules parallel tools -> t ∈ mentions (r_expr r) -> t ∈ r_name <$> grammar_rules parallel tools.
Proof.
  intros [->|[Hr|(i & tool & Hi & [->|[Hne ->]])%tool_rule_cases]%elem_of_app]%elem_of_cons.
  - intros [Ht|(i & tool & Hi & ->)]%root_mentions; [|by apply (rule_name_in (invoke_rule i tool)), invoke_rule_in].
    rewrite !elem_of_cons, elem_of_nil in Ht. destruct Ht as [->|[->|[->|[]]]]; fixed_name.
  - intros Ht. apply fixed_name_in, fixed_mentions. apply list_elem_of_bind. by exists r.
  - intros [->|[Hne ->]]%invoke_mentions; [fixed_name|]. by apply (rule_name_in (parameter_rule i tool)), parameter_rule_in.
  - intros Hin%parameter_mentions. apply elem_of_cons in Hin as [->|Hin%list_elem_of_singleton]; [fixed_name|subst t; fixed_name].
Qed.
(** So the parser accepts it, and its rules hold of their languages. *)
Lemma tool_grammar : exists g N, parse (print_rules (grammar_rules parallel tools)) (gbnf "root") = Ok g /\
  (forall v, yields g (rhs (productions g !!! start_production g)) v <-> env g N (gbnf "root") v) /\
  (forall r v, r ∈ grammar_rules parallel tools -> env g N (r_name r) v <-> denote (env g N) (r_expr r) v).
Proof.
  apply grammar_text; [by apply grammar_rules_ok|apply grammar_names_distinct|apply grammar_mentions|]. apply fixed_name_in, elem_of_cons. by left.
Qed.
End Written.
