(* ===== verification/ToolAnswers.v ===== *)
(** * The answers the tool grammar admits.

    The reference for [required_tool_gbnf]: an answer as data, how it is written, and that the
    texts of the grammar's language are exactly the written answers. *)
From Stdlib Require Import Strings.Byte.
From S2P Require Import Prelude Utf8 Utf8Scalar Grammar GrammarParser GrammarLanguage Schema GbnfSyntax GbnfReading GbnfRules JsonRules TextLang.
From S2P Require Import AtemStream ToolGrammar ToolSyntax.

(** ** Answers. *)
Definition layout_byte (b : byte) : bool := is_byte " " b || is_byte x09 b || is_byte x0a b || is_byte x0d b.
Definition layout_text (s : str) : Prop := Forall (fun b => layout_byte b = true) s.
Definition value_text (s : str) : Prop := utf8_valid s = true /\ "<"%byte ∉ s.
Definition name_start (b : byte) : bool := (is_alphanumeric b && negb (is_digit b)) || is_byte "_" b.
Definition name_rest (b : byte) : bool := is_alphanumeric b || is_byte "_" b || is_byte "." b || is_byte "-" b.
Definition open_name (s : str) : Prop := match s with b :: t => name_start b = true /\ Forall (fun b => name_rest b = true) t | [] => False end.
Definition may_name (tool : ToolDefinition) (name : str) : Prop := if additional tool then open_name name else name ∈ parameter_names tool.
Record ToolArgument : Type := mkParameter { p_name : str; p_value : str; p_layout : str }.
Definition parameter_of (tool : ToolDefinition) (p : ToolArgument) : Prop := may_name tool (p_name p) /\ value_text (p_value p) /\ layout_text (p_layout p).
Definition render_parameter (p : ToolArgument) : str := PARAMETER_OPEN ++ p_name p ++ NAME_CLOSE ++ p_value p ++ PARAMETER_CLOSE ++ p_layout p.
Record Invoke : Type := mkInvoke { i_tool : ToolDefinition; i_open : str; i_parameters : list ToolArgument; i_close : str }.
Definition invoke_of (i : Invoke) : Prop := layout_text (i_open i) /\ Forall (parameter_of (i_tool i)) (i_parameters i) /\ layout_text (i_close i).
Definition render_invoke (i : Invoke) : str :=
  INVOKE_OPEN ++ tool_name (i_tool i) ++ NAME_CLOSE ++ i_open i ++ mjoin (render_parameter <$> i_parameters i) ++ INVOKE_CLOSE ++ i_close i.
Record ToolAnswer : Type := mkToolAnswer { a_reasoning : option (bool * str); a_opened : bool; a_recipient : str; a_layout : str; a_invokes : list Invoke }.
Definition opened (b : bool) : str := if b then START else [].
Definition render_reasoning (r : option (bool * str)) : str :=
  match r with Some (b, text) => opened b ++ string_bytes " to=self<|message|>" ++ text ++ PHASE_END | None => [] end.
Definition render (a : ToolAnswer) : str :=
  render_reasoning (a_reasoning a) ++ opened (a_opened a) ++ RECIPIENT ++ a_recipient a ++ MESSAGE ++ CALLS_OPEN ++ a_layout a
  ++ mjoin (render_invoke <$> a_invokes a) ++ CALLS_CLOSE ++ PHASE_END.
Record answer_of (parallel : bool) (tools : list ToolDefinition) (a : ToolAnswer) : Prop := {
  ans_reasoning : match a_reasoning a with Some (_, text) => utf8_valid text = true | None => True end;
  ans_recipient : a_recipient a ∈ (tool_name <$> tools) ++ [string_bytes "tool"];
  ans_layout : layout_text (a_layout a);
  ans_invokes : Forall (fun i => i_tool i ∈ tools /\ invoke_of i) (a_invokes a);
  ans_count : if parallel then a_invokes a <> [] else length (a_invokes a) = 1%nat;
}.

(** ** Texts of sequences and alternatives. *)
Section Texts.
Context (E : str -> Lang).
Definition part_texts (i : Part) : str -> Prop := texts (lang_repeat (denote_piece E i.1) i.2).
Fixpoint in_order (l : list (str -> Prop)) (s : str) : Prop := match l with [] => s = [] | P :: l => exists a b, s = a ++ b /\ P a /\ in_order l b end.
Lemma texts_spaced p l s : texts (denote_seq E (spaced p l)) s <-> in_order (part_texts <$> l) s.
Proof.
  revert p s. induction l as [|i l IH]; intros p s; cbn [spaced denote_seq fmap list_fmap in_order]; [apply texts_nil|].
  rewrite texts_app. by setoid_rewrite IH.
Qed.
Lemma texts_alts l s : l <> [] -> texts (denote E (alts l)) s <-> Exists (fun k => in_order (part_texts <$> k) s) l.
Proof.
  induction l as [|k l IH]; [done|]. intros _. destruct l as [|k' l].
  - rewrite Exists_cons, Exists_nil. change (denote E (alts [k])) with (denote_seq E (spaced 0 k)). rewrite texts_spaced. tauto.
  - rewrite Exists_cons, <- IH by done. change (denote E (alts (k :: k' :: l))) with (fun v => denote_seq E (spaced 0 k) v \/ denote E (alts (k' :: l)) v).
    by rewrite texts_or, texts_spaced.
Qed.
Lemma texts_single l s : texts (denote E (alts [l])) s <-> in_order (part_texts <$> l) s.
Proof. change (denote E (alts [l])) with (denote_seq E (spaced 0 l)). apply texts_spaced. Qed.
Lemma texts_piece_lit t s : utf8_valid t = true -> part_texts (quoted t) s <-> s = t.
Proof. intros Ht. unfold part_texts. rewrite texts_once. by apply texts_lit. Qed.
Lemma in_order_one P s : in_order [P] s <-> P s.
Proof. cbn. split; [intros (a & b & -> & Ha & ->); by rewrite app_nil_r|]. intros HP. exists s, []. by rewrite app_nil_r. Qed.
Lemma texts_any_of names s : names <> [] -> Forall (fun name => utf8_valid name = true) names -> part_texts (any_of names) s <-> s ∈ names.
Proof.
  intros Hne Hv. unfold part_texts. change (lang_repeat (denote_piece E (any_of names).1) (any_of names).2) with (lang_repeat (denote E (alts ((fun name => [quoted name]) <$> names))) Once).
  rewrite texts_once, texts_alts by by destruct names. rewrite Exists_exists. split.
  - intros (k & (name & -> & Hn)%list_elem_of_fmap & Hk). rewrite Forall_forall in Hv. apply in_order_one, texts_piece_lit in Hk as ->; [done|by apply Hv].
  - intros Hs. exists [quoted s]. split; [apply list_elem_of_fmap; by exists s|]. rewrite Forall_forall in Hv. by apply in_order_one, texts_piece_lit; [apply Hv|].
Qed.
End Texts.
(** A text that is several of a kind. *)
Lemma Forall_written {A} (P : A -> Prop) (f : A -> str) (parts : list str) : Forall (fun s => exists x, P x /\ s = f x) parts <-> exists l, Forall P l /\ parts = f <$> l.
Proof.
  split.
  - induction 1 as [|s parts (x & Hx & ->) Hp (l & Hl & ->)]; [by exists []|]. exists (x :: l). split; [by constructor|done].
  - intros (l & Hl & ->). apply Forall_fmap. eapply Forall_impl; [exact Hl|]. intros x Hx. by exists x.
Qed.

Lemma parts_written {A} (P : A -> Prop) (f : A -> str) (Q : str -> Prop) (R : nat -> Prop) s : (forall t, Q t <-> exists x, P x /\ t = f x) ->
  (exists parts, Forall Q parts /\ s = mjoin parts /\ R (length parts)) <-> exists l, Forall P l /\ s = mjoin (f <$> l) /\ R (length l).
Proof.
  intros HQ. split.
  - intros (parts & Hp & -> & Hr). apply (Forall_impl _ (fun t => exists x, P x /\ t = f x)) in Hp; [|intros t; apply HQ]. apply Forall_written in Hp as (l & Hl & ->).
    exists l. by rewrite length_fmap in Hr.
  - intros (l & Hl & -> & Hr). exists (f <$> l). rewrite length_fmap. split; [|done]. apply Forall_fmap. eapply Forall_impl; [exact Hl|]. intros x Hx. apply HQ. by exists x.
Qed.

(** ** Classes. *)
Lemma encode_ascii b : Z_of_byte b < 128 -> encode_utf8 (Z_of_byte b) = [b].
Proof. intros Hb. unfold encode_utf8. destruct (Z.ltb_spec (Z_of_byte b) 0x80); [|lia]. cbn [fmap list_fmap]. f_equal. by apply byte_of_Z_eq. Qed.
Lemma texts_bytes entries (f : byte -> bool) s :
  Forall (fun r => 0 <= r.1 /\ r.2 < 128) (entry_range <$> entries) -> (forall b, f b = (CharSet_matches (mkCharSet false (entry_range <$> entries)) (Z_of_byte b))) ->
  texts (fun v => exists i, v = [i] /\ in_class false entries i) s <-> exists b, s = [b] /\ f b = true.
Proof.
  intros Hr Hf. assert (forall c, CharSet_matches (mkCharSet false (entry_range <$> entries)) c = true -> 0 <= c < 128) as Hb.
  { intros c Hc. unfold CharSet_matches in Hc. cbn [ranges cs_inverted] in Hc. rewrite Forall_forall in Hr.
    destruct (existsb _ _) eqn:Ex; [|done]. apply existsb_exists in Ex as ([lo hi] & Hin%list_elem_of_In & Hle). specialize (Hr _ Hin). cbn [fst snd] in Hr. apply andb_true_iff in Hle as [H1%Z.leb_le H2%Z.leb_le]. lia. }
  rewrite texts_class. split.
  - intros (c & _ & -> & Hc). specialize (Hb c Hc). assert (exists b, c = Z_of_byte b) as [b ->] by (exists (byte_of_Z c); by rewrite Z_of_byte_small by lia).
    exists b. rewrite Hf. split; [apply encode_ascii; lia|done].
  - intros (b & -> & Hfb). rewrite Hf in Hfb. specialize (Hb _ Hfb). exists (Z_of_byte b). split; [apply is_scalar_spec; lia|]. split; [by rewrite encode_ascii by lia|done].
Qed.
Lemma Forall_single (f : byte -> bool) parts : Forall (fun s : str => exists b, s = [b] /\ f b = true) parts -> Forall (fun b => f b = true) (mjoin parts) .
Proof. induction 1 as [|s parts (b & -> & Hb) Hp IH]; [constructor|]. change (mjoin ([b] :: parts)) with (b :: mjoin parts). by constructor. Qed.
Lemma single_Forall (f : byte -> bool) s : Forall (fun b => f b = true) s -> exists parts, Forall (fun s : str => exists b, s = [b] /\ f b = true) parts /\ s = mjoin parts.
Proof.
  induction 1 as [|b s Hb Hs (parts & Hp & ->)]; [by exists []|]. exists ([b] :: parts). split; [constructor; [by exists b|done]|done].
Qed.
Lemma texts_bytes_star entries (f : byte -> bool) s :
  Forall (fun r => 0 <= r.1 /\ r.2 < 128) (entry_range <$> entries) -> (forall b, f b = (CharSet_matches (mkCharSet false (entry_range <$> entries)) (Z_of_byte b))) ->
  texts (lang_repeat (fun v => exists i, v = [i] /\ in_class false entries i) Star) s <-> Forall (fun b => f b = true) s.
Proof.
  intros Hr Hf. rewrite texts_star. split.
  - intros (parts & Hp & ->). apply Forall_single. eapply Forall_impl; [exact Hp|]. intros t Ht. by apply (texts_bytes entries f) in Ht.
  - intros (parts & Hp & ->)%single_Forall. exists parts. split; [|done]. eapply Forall_impl; [exact Hp|]. intros t Ht. by apply (texts_bytes entries f).
Qed.
(** Whole texts, and those without an opening bracket. *)
Lemma texts_any_star entries inverted (ok : Z -> bool) s : (forall c, is_scalar c = true -> CharSet_matches (mkCharSet inverted (entry_range <$> entries)) c = ok c) ->
  texts (lang_repeat (fun v => exists i, v = [i] /\ in_class inverted entries i) Star) s <-> exists cs, scalars cs /\ Forall (fun c => ok c = true) cs /\ s = encode_all cs.
Proof.
  intros Hok. rewrite texts_star. split.
  - intros (parts & Hp & ->). induction Hp as [|t parts (c & Hc & -> & Hm)%texts_class Hp (cs & H1 & H2 & H3)]; [by exists []|]. exists (c :: cs).
    split; [by constructor|]. split; [constructor; [by rewrite <- Hok|done]|]. rewrite encode_all_cons, <- H3. done.
  - intros (cs & Hcs & Ho & ->). exists (encode_utf8 <$> cs). split; [|done]. apply Forall_fmap. rewrite Forall_forall in Hcs, Ho. apply Forall_forall. intros c Hc.
    apply texts_class. exists c. split; [by apply Hcs|]. split; [done|]. rewrite Hok; [by apply Ho|by apply Hcs].
Qed.
