(* ===== verification/ToolLanguage.v ===== *)
(** * The language of the tool grammar.

    Rule by rule: the texts of the languages that solve the rules [required_tool_gbnf] writes are
    the answers of [ToolAnswers], as they are written. *)
From Stdlib Require Import Strings.Byte.
From S2P Require Import Prelude Utf8 Utf8Scalar Grammar GrammarParser GrammarLanguage Schema GbnfSyntax GbnfReading GbnfRules JsonRules TextLang.
From S2P Require Import AtemStream ToolGrammar ToolSyntax ToolAnswers.

Lemma in_order_app l k s : in_order (l ++ k) s <-> exists a b, s = a ++ b /\ in_order l a /\ in_order k b.
Proof.
  revert s. induction l as [|P l IH]; intros s; cbn [app in_order].
  - split; [intros Hs; by exists [], s|by intros (a & b & -> & -> & Hk)].
  - setoid_rewrite IH. split.
    + intros (a & b & -> & HP & c & d & -> & Hl & Hk). exists (a ++ c), d. rewrite app_assoc. split; [done|]. split; [|done]. by exists a, c.
    + intros (a & b & -> & (c & d & -> & HP & Hl) & Hk). exists c, (d ++ b). rewrite app_assoc. split; [done|]. split; [done|]. by exists d, b.
Qed.
Lemma in_order_cons P l s : in_order (P :: l) s <-> exists a b, s = a ++ b /\ P a /\ in_order l b.
Proof. done. Qed.
Definition word_is (t : str) : str -> Prop := fun s => s = t.
Lemma in_order_intro (P : str -> Prop) l a b : P a -> in_order l b -> in_order (P :: l) (a ++ b).
Proof. intros Ha Hb. by exists a, b. Qed.
Lemma in_order_iff l k s : Forall2 (fun P Q => forall s, P s <-> Q s) l k -> in_order l s <-> in_order k s.
Proof. intros H. revert s. induction H as [|P Q l k HP H IH]; intros s; [done|]. rewrite !in_order_cons. setoid_rewrite HP. by setoid_rewrite IH. Qed.
Lemma in_order_group l (P : str -> Prop) k s : (forall s, in_order l s <-> P s) -> in_order (l ++ k) s <-> in_order (P :: k) s.
Proof. intros HP. rewrite in_order_app, in_order_cons. by setoid_rewrite HP. Qed.
Lemma in_order_last (P : str -> Prop) s : in_order [P] s <-> P s.
Proof. apply in_order_one. Qed.

Section Language.
Context (parallel : bool) (tools : list ToolDefinition) (Hvalid : Forall tool_valid tools).
Context (E : str -> Lang) (Hrules : forall r v, r ∈ grammar_rules parallel tools -> E (r_name r) v <-> denote E (r_expr r) v).

Lemma rule_texts r s : r ∈ grammar_rules parallel tools -> texts (E (r_name r)) s <-> texts (denote E (r_expr r)) s.
Proof. intros Hr. apply texts_iff. intros v. by apply Hrules. Qed.
Lemma fixed_texts i r s : fixed_rules !! i = Some r -> texts (E (r_name r)) s <-> texts (denote E (r_expr r)) s.
Proof. intros Hi%list_elem_of_lookup_2. apply rule_texts, elem_of_cons. right. apply elem_of_app. by left. Qed.
Lemma part_lit text s : utf8_valid (gbnf text) = true -> part_texts E (lit text) s <-> s = gbnf text.
Proof. apply texts_piece_lit. Qed.
Lemma part_rule name s : part_texts E (rule name) s <-> texts (E (gbnf name)) s.
Proof. apply texts_once. Qed.
Lemma part_maybe i s : i.2 = Once -> part_texts E (maybe i) s <-> s = [] \/ part_texts E i s.
Proof. destruct i as [pc suffix]. cbn. intros ->. unfold part_texts. cbn [fst snd]. by rewrite texts_optional, texts_once. Qed.
Lemma part_many i s : i.2 = Once -> part_texts E (many i) s <-> exists parts, Forall (part_texts E i) parts /\ s = mjoin parts.
Proof.
  destruct i as [pc suffix]. cbn. intros ->. unfold part_texts. cbn [fst snd]. rewrite texts_star.
  split; intros (parts & Hp & ->); exists parts; split; try done; eapply Forall_impl; try exact Hp; intros t Ht; by apply texts_once.
Qed.
#[local] Ltac by_rule i := rewrite (fixed_texts i _ _ eq_refl); cbn [r_expr]; rewrite texts_single; cbn [fmap list_fmap].
Lemma layout_texts s : texts (E (gbnf "layout")) s <-> layout_text s.
Proof. by_rule 4%nat. rewrite in_order_last. apply texts_bytes_star; [by repeat constructor|by intros []]. Qed.
Lemma part_layout s : part_texts E (rule "layout") s <-> layout_text s.
Proof. rewrite part_rule. apply layout_texts. Qed.
Lemma opened_texts s : texts (E (gbnf "assistant-prefix")) s <-> exists b, s = opened b.
Proof.
  by_rule 1%nat. rewrite in_order_last, part_maybe, part_lit by done. split; [intros [->| ->]; [by exists false|by exists true]|intros ([] & ->); [by right|by left]].
Qed.
(** Any text, and a text without an opening bracket. *)
Lemma part_class inverted entries s : part_texts E (Class inverted entries, Once) s <->
  exists c, is_scalar c = true /\ s = encode_utf8 c /\ CharSet_matches (mkCharSet inverted (entry_range <$> entries)) c = true.
Proof. unfold part_texts. cbn [fst snd]. rewrite texts_once. apply texts_class. Qed.
Lemma characters_of (ok : Z -> bool) s : (exists parts, Forall (fun t => exists c, is_scalar c = true /\ t = encode_utf8 c /\ ok c = true) parts /\ s = mjoin parts) <->
  exists cs, scalars cs /\ Forall (fun c => ok c = true) cs /\ s = encode_all cs.
Proof.
  split.
  - intros (parts & Hp & ->). induction Hp as [|t parts (c & Hc & -> & Hm) Hp (cs & H1 & H2 & H3)]; [by exists []|]. exists (c :: cs).
    split; [by constructor|]. split; [by constructor|]. rewrite encode_all_cons, <- H3. done.
  - intros (cs & Hcs & Ho & ->). exists (encode_utf8 <$> cs). split; [|done]. apply Forall_fmap. rewrite Forall_forall in Hcs, Ho. apply Forall_forall. intros c Hc.
    exists c. split; [by apply Hcs|]. split; [done|by apply Ho].
Qed.
Lemma any_texts s : part_texts E (many (rule "any")) s <-> utf8_valid s = true.
Proof.
  rewrite part_many by done. transitivity (exists parts, Forall (fun t => exists c, is_scalar c = true /\ t = encode_utf8 c /\ true = true) parts /\ s = mjoin parts).
  - assert (forall t, part_texts E (rule "any") t <-> exists c, is_scalar c = true /\ t = encode_utf8 c /\ true = true) as Ht.
    { intros t. rewrite part_rule. by_rule 2%nat. rewrite in_order_last. unfold one_of. rewrite part_class. split; [intros (c & H1 & H2 & _); by exists c|]. intros (c & H1 & H2 & _). exists c. split_and!; try done.
      revert H1. unfold CharSet_matches, is_scalar. cbn. by rewrite orb_false_r, xorb_false_r. }
    split; intros (parts & Hp & ->); exists parts; split; try done; eapply Forall_impl; try exact Hp; intros t; apply Ht.
  - rewrite (characters_of (fun _ => true)). split; [intros (cs & Hcs & _ & ->); by apply utf8_valid_encode|]. intros (cs & Hcs & ->)%valid_encode_all. exists cs.
    split_and!; try done. by apply Forall_true.
Qed.
Lemma bracket_encode c : is_scalar c = true -> "<"%byte ∈ encode_utf8 c -> c = 60.
Proof.
  intros Hc Hin. apply (list_elem_of_fmap_2 Z_of_byte) in Hin. rewrite encoded_bytes in Hin by done. change (Z_of_byte "<"%byte) with 60 in Hin. unfold encoded in Hin.
  apply is_scalar_spec in Hc. repeat case_match; rewrite ?Z.ltb_lt, ?Z.ltb_ge in *; rewrite !elem_of_cons, elem_of_nil in Hin; euclid.
Qed.
Lemma value_texts s : part_texts E (many (rule "parameter-char")) s <-> value_text s.
Proof.
  rewrite part_many by done. transitivity (exists parts, Forall (fun t => exists c, is_scalar c = true /\ t = encode_utf8 c /\ negb (c =? 60) = true) parts /\ s = mjoin parts).
  - assert (forall t, part_texts E (rule "parameter-char") t <-> exists c, is_scalar c = true /\ t = encode_utf8 c /\ negb (c =? 60) = true) as Ht.
    { assert (forall c, CharSet_matches (mkCharSet true (entry_range <$> [one "<" 60])) c = negb (c =? 60)) as Hc.
      { intros c. unfold CharSet_matches. cbn [fmap list_fmap ranges cs_inverted existsb entry_range one fst snd default from_option w_value]. rewrite orb_false_r, xorb_true_r. f_equal.
        destruct (Z.eqb_spec c 60), (Z.leb_spec 60 c), (Z.leb_spec c 60); try done; lia. }
      intros t. rewrite part_rule. by_rule 3%nat. rewrite in_order_last. unfold none_of. rewrite part_class. by setoid_rewrite Hc. }
    split; intros (parts & Hp & ->); exists parts; split; try done; eapply Forall_impl; try exact Hp; intros t; apply Ht.
  - rewrite characters_of. unfold value_text. split.
    + intros (cs & Hcs & Hn & ->). split; [by apply utf8_valid_encode|]. unfold encode_all. intros (t & Ht & (c & -> & Hc)%list_elem_of_fmap)%list_elem_of_join.
      rewrite Forall_forall in Hcs, Hn. specialize (Hn c Hc). apply bracket_encode in Ht as ->; [done|by apply Hcs].
    + intros [(cs & Hcs & ->)%valid_encode_all Hn]. exists cs. split; [done|]. split; [|done]. rewrite Forall_forall. intros c Hc. apply negb_true_iff, Z.eqb_neq. intros ->.
      apply Hn. unfold encode_all. apply list_elem_of_join. exists (encode_utf8 60). split; [by apply list_elem_of_singleton|by apply list_elem_of_fmap_2].
Qed.
(** ** Parameters. *)
Lemma open_name_texts s : in_order (part_texts E <$> [one_of [span "A" 65 "Z" 90; span "a" 97 "z" 122; one "_" 95];
    many (one_of [span "A" 65 "Z" 90; span "a" 97 "z" 122; span "0" 48 "9" 57; one "_" 95; one "." 46; one "-" 45])]) s <-> open_name s.
Proof.
  cbn [fmap list_fmap]. rewrite in_order_cons. setoid_rewrite in_order_last.
  assert (forall a, part_texts E (one_of [span "A" 65 "Z" 90; span "a" 97 "z" 122; one "_" 95]) a <-> exists b, a = [b] /\ name_start b = true) as H1.
  { intros a. unfold part_texts, one_of. cbn [fst snd]. rewrite texts_once. apply texts_bytes; [by repeat constructor|by intros []]. }
  assert (forall a, part_texts E (many (one_of [span "A" 65 "Z" 90; span "a" 97 "z" 122; span "0" 48 "9" 57; one "_" 95; one "." 46; one "-" 45])) a <-> Forall (fun b => name_rest b = true) a) as H2.
  { intros a. apply texts_bytes_star; [by repeat constructor|by intros []]. }
  split.
  - intros (a & b & -> & (c & -> & Hc)%H1 & Hb%H2). done.
  - destruct s as [|c s]; [done|]. intros [Hc Hs]. exists [c], s. rewrite H1, H2. split_and!; try done. by exists c.
Qed.
Lemma name_texts tool s : tool_valid tool -> name_parts tool <> [] -> in_order (part_texts E <$> name_parts tool) s <-> may_name tool s.
Proof.
  intros [_ Hv] Hne. unfold may_name. unfold name_parts in *. destruct (additional tool); [apply open_name_texts|].
  destruct (parameter_names tool) as [|n names] eqn:En; [done|]. cbn [fmap list_fmap]. rewrite in_order_last. by apply texts_any_of.
Qed.
Lemma valid_tool i tool : tools !! i = Some tool -> tool_valid tool.
Proof. intros Hi%list_elem_of_lookup_2. rewrite Forall_forall in Hvalid. by apply Hvalid. Qed.
Lemma parameter_texts i tool s : tools !! i = Some tool -> name_parts tool <> [] ->
  texts (E (tool_parameter i)) s <-> exists p, parameter_of tool p /\ s = render_parameter p.
Proof.
  intros Hi Hne. rewrite (rule_texts (parameter_rule i tool)) by by apply parameter_rule_in. unfold parameter_rule. cbn [r_expr]. rewrite texts_single, fmap_app.
  transitivity (in_order [word_is PARAMETER_OPEN; may_name tool; word_is NAME_CLOSE; value_text; word_is PARAMETER_CLOSE; layout_text] s).
  - cbn [fmap list_fmap app]. rewrite in_order_cons. setoid_rewrite fmap_app. setoid_rewrite in_order_group; [|intros t; apply name_texts; [by eapply valid_tool|done]].
    rewrite <- in_order_cons. apply in_order_iff. cbn [fmap list_fmap]. repeat (apply List.Forall2_cons); [|done| | | | |apply List.Forall2_nil];
      [intros t; by apply part_lit..|apply value_texts|intros t; by apply part_lit|intros t; apply part_layout].
  - split.
    + intros (? & ? & -> & -> & name & ? & -> & Hname & ? & ? & -> & -> & value & ? & -> & Hvalue & ? & ? & -> & -> & l & ? & -> & Hl & ->).
      exists (mkParameter name value l). split; [done|]. by rewrite app_nil_r.
    + intros ([name value l] & (Hname & Hvalue & Hl) & ->). unfold render_parameter. cbn [p_name p_value p_layout] in *.
      repeat (apply in_order_intro; [done|]). by apply in_order_last.
Qed.
(** ** Calls. *)
Definition seq_is (sq : Seq) (l : list (str -> Prop)) : Prop := forall s, texts (denote_seq E sq) s <-> in_order l s.
Lemma seq_is_then p pc suffix sq l : seq_is sq l -> seq_is (Then p pc suffix sq) (part_texts E (pc, suffix) :: l).
Proof. unfold seq_is. intros Hs s. change (denote_seq E (Then p pc suffix sq)) with (lang_app (lang_repeat (denote_piece E pc) suffix) (denote_seq E sq)). rewrite texts_app, in_order_cons. by setoid_rewrite Hs. Qed.
Lemma seq_is_spaced p l : seq_is (spaced p l) (part_texts E <$> l).
Proof. intros s. apply texts_spaced. Qed.
Lemma closed_tool tool p : name_parts tool = [] -> ~ parameter_of tool p.
Proof.
  intros Hn [Hname _]. unfold name_parts in Hn. unfold may_name in Hname. destruct (additional tool); [done|]. destruct (parameter_names tool); [by apply elem_of_nil in Hname|done].
Qed.
Lemma parameters_texts i tool s : tools !! i = Some tool -> name_parts tool <> [] ->
  part_texts E (many (ref (tool_parameter i))) s <-> exists l, Forall (parameter_of tool) l /\ s = mjoin (render_parameter <$> l).
Proof.
  intros Hi Hne. rewrite part_many by done. assert (forall t, part_texts E (ref (tool_parameter i)) t <-> exists p, parameter_of tool p /\ t = render_parameter p) as Ht.
  { intros t. rewrite <- (parameter_texts i) by done. apply texts_once. }
  pose proof (parts_written _ _ _ (fun _ => True) s Ht) as W. split; [intros (parts & Hp & E0); destruct (proj1 W) as (l & Hl & E1 & _); [by exists parts|by exists l]|].
  intros (l & Hl & E0). destruct (proj2 W) as (parts & Hp & E1 & _); [by exists l|by exists parts].
Qed.
Lemma invoke_texts i tool s : tools !! i = Some tool ->
  texts (E (tool_invoke i)) s <-> exists inv, i_tool inv = tool /\ invoke_of inv /\ s = render_invoke inv.
Proof.
  intros Hi. rewrite (rule_texts (invoke_rule i tool)) by by apply invoke_rule_in. unfold invoke_rule. cbn [r_expr].
  pose (written := fun t : str => exists l, Forall (parameter_of tool) l /\ t = mjoin (render_parameter <$> l)).
  assert (forall t, texts (denote_seq E (invoke_tail i tool)) t <-> in_order [written; word_is INVOKE_CLOSE; layout_text] t) as Htail.
  { intros t. unfold invoke_tail. destruct (name_parts tool) as [|p ps] eqn:En.
    - transitivity (in_order [word_is INVOKE_CLOSE; layout_text] t).
      + rewrite (seq_is_spaced _ _ t). apply in_order_iff. cbn [fmap list_fmap]. repeat (apply List.Forall2_cons); [intros u; by apply part_lit|intros u; apply part_layout|apply List.Forall2_nil].
      + rewrite (in_order_cons written). split; [intros Ht; exists [], t; split; [done|]; split; [by exists []|done]|].
        intros (a & b & -> & (l & Hl & ->) & Hb). destruct l as [|q l]; [done|]. apply Forall_cons in Hl as [Hq _]. by apply closed_tool in Hq.
    - rewrite (seq_is_spaced _ _ t). apply in_order_iff. cbn [fmap list_fmap]. repeat (apply List.Forall2_cons); [|intros u; by apply part_lit|intros u; apply part_layout|apply List.Forall2_nil].
      intros u. apply parameters_texts; [done|by rewrite En]. }
  transitivity (in_order [word_is INVOKE_OPEN; word_is (tool_name tool); word_is NAME_CLOSE; layout_text; written; word_is INVOKE_CLOSE; layout_text] s).
  - change (denote E (Last ?q)) with (denote_seq E q). unfold then_parts. cbn [foldr quoted lit rule fst snd].
    rewrite (seq_is_then _ _ _ _ _ (seq_is_then _ _ _ _ _ (seq_is_then _ _ _ _ _ (seq_is_then _ _ _ _ _ Htail))) s). apply in_order_iff.
    pose proof (valid_tool i tool Hi) as [Hv _].
    repeat (apply List.Forall2_cons); try done; [intros t; by apply part_lit|intros t; by apply texts_piece_lit|intros t; by apply part_lit|intros t; apply part_layout].
  - split.
    + intros (? & ? & -> & -> & ? & ? & -> & -> & ? & ? & -> & -> & l1 & ? & -> & Hl1 & ? & ? & -> & (ps & Hps & ->) & ? & ? & -> & -> & l2 & ? & -> & Hl2 & ->).
      exists (mkInvoke tool l1 ps l2). split; [done|]. split; [done|]. by rewrite app_nil_r.
    + intros ([t0 l1 ps l2] & <- & (Hl1 & Hps & Hl2) & ->). unfold render_invoke. cbn [i_tool i_open i_parameters i_close] in *.
      repeat (apply in_order_intro; [done|]). apply in_order_intro; [by exists ps|]. apply in_order_intro; [done|]. by apply in_order_last.
Qed.
Lemma one_invoke_texts s : tools <> [] -> texts (denote_piece E (invoke_part parallel tools).1) s <-> exists inv, (i_tool inv ∈ tools /\ invoke_of inv) /\ s = render_invoke inv.
Proof.
  intros Hne. change (denote_piece E (invoke_part parallel tools).1) with (denote E (alts ((fun name => [ref name]) <$> imap (fun i _ => tool_invoke i) tools))).
  rewrite texts_alts by by destruct tools. rewrite Exists_exists. split.
  - intros (k & (name & -> & (i & tool & -> & Hi)%elem_of_lookup_imap)%list_elem_of_fmap & Hk). cbn [fmap list_fmap] in Hk. rewrite in_order_last in Hk.
    apply texts_once, (invoke_texts i tool) in Hk as (inv & <- & Hinv & ->); [|done]. exists inv. split; [|done]. split; [by eapply list_elem_of_lookup_2|done].
  - intros (inv & [(i & Hi)%list_elem_of_lookup_1 Hinv] & ->). exists [ref (tool_invoke i)]. split.
    + apply list_elem_of_fmap. exists (tool_invoke i). split; [done|]. apply elem_of_lookup_imap. by exists i, (i_tool inv).
    + cbn [fmap list_fmap]. rewrite in_order_last. apply texts_once, (invoke_texts i (i_tool inv)); [done|]. by exists inv.
Qed.
Definition count_ok (n : nat) : Prop := if parallel then n <> 0%nat else n = 1%nat.
Lemma invokes_texts s : tools <> [] -> part_texts E (invoke_part parallel tools) s <->
  exists l, Forall (fun inv => i_tool inv ∈ tools /\ invoke_of inv) l /\ s = mjoin (render_invoke <$> l) /\ count_ok (length l).
Proof.
  intros Hne. rewrite <- (parts_written _ _ _ count_ok s (fun t => one_invoke_texts t Hne)). unfold part_texts, count_ok.
  change (invoke_part parallel tools).2 with (if parallel then Plus else Once). destruct parallel.
  - rewrite texts_plus. split; intros (parts & Hp & -> & Hc); exists parts; split_and!; try done; by destruct parts.
  - rewrite texts_once. split.
    + intros Hs. exists [s]. split; [by apply List.Forall_cons|]. split; [cbn; by rewrite app_nil_r|done].
    + intros ([|t [|]] & Hp & -> & Hc); try discriminate Hc. apply Forall_cons in Hp as [Hp _]. cbn. by rewrite app_nil_r.
Qed.
(** ** Answers. *)
Lemma reasoning_texts s : texts (E (gbnf "reasoning-phase")) s <-> exists r, utf8_valid r.2 = true /\ s = render_reasoning (Some r).
Proof.
  by_rule 0%nat. transitivity (in_order [(fun t => exists b, t = opened b); word_is (string_bytes " to=self<|message|>"); (fun t => utf8_valid t = true); word_is PHASE_END] s).
  - apply in_order_iff. repeat (apply List.Forall2_cons); [intros t; rewrite part_rule; apply opened_texts|intros t; by apply part_lit|intros t; apply any_texts|intros t; by apply part_lit|apply List.Forall2_nil].
  - split.
    + intros (? & ? & -> & (b & ->) & ? & ? & -> & -> & text & ? & -> & Ht & ? & ? & -> & -> & ->). exists (b, text). split; [done|]. by rewrite app_nil_r.
    + intros ([b text] & Ht & ->). apply in_order_intro; [by exists b|]. repeat (apply in_order_intro; [done|]). by apply in_order_last.
Qed.
Lemma root_texts s : tools <> [] -> texts (E (gbnf "root")) s <-> exists a, answer_of parallel tools a /\ s = render a.
Proof.
  intros Hne. rewrite (rule_texts (root_rule parallel tools)) by apply list_elem_of_here. unfold root_rule. cbn [r_expr]. rewrite texts_single.
  transitivity (in_order [(fun t => exists r, match r with Some (_, text) => utf8_valid text = true | None => True end /\ t = render_reasoning r);
    (fun t => exists b, t = opened b); word_is RECIPIENT; (fun t => t ∈ (tool_name <$> tools) ++ [string_bytes "tool"]); word_is (MESSAGE ++ CALLS_OPEN); layout_text;
    (fun t => exists l, Forall (fun inv => i_tool inv ∈ tools /\ invoke_of inv) l /\ t = mjoin (render_invoke <$> l) /\ count_ok (length l)); word_is (CALLS_CLOSE ++ PHASE_END)] s).
  - apply in_order_iff. cbn [fmap list_fmap]. repeat (apply List.Forall2_cons).
    + intros t. rewrite part_maybe by done. rewrite part_rule, reasoning_texts. split; [intros [->|([b text] & Ht & ->)]; [by exists None|by exists (Some (b, text))]|].
      intros ([[b text]|] & Ht & ->); [right; by exists (b, text)|by left].
    + intros t. rewrite part_rule. apply opened_texts.
    + intros t. by apply part_lit.
    + intros t. apply texts_any_of; [by destruct (tool_name <$> tools)|]. apply Forall_app. split; [|by repeat constructor]. apply Forall_fmap. eapply Forall_impl; [exact Hvalid|]. by intros tool [].
    + intros t. by apply part_lit.
    + intros t. apply part_layout.
    + intros t. by apply invokes_texts.
    + intros t. by apply part_lit.
    + apply List.Forall2_nil.
  - split.
    + intros (? & ? & -> & (r & Hr & ->) & ? & ? & -> & (b & ->) & ? & ? & -> & -> & rc & ? & -> & Hrc & ? & ? & -> & -> & l & ? & -> & Hl & ? & ? & -> & (is_ & His & -> & Hc) & ? & ? & -> & -> & ->).
      exists (mkToolAnswer r b rc l is_). split; [|unfold render; cbn [a_reasoning a_opened a_recipient a_layout a_invokes]; rewrite app_nil_r; by rewrite <- !app_assoc].
      constructor; cbn [a_reasoning a_opened a_recipient a_layout a_invokes]; try done. unfold count_ok in Hc. destruct parallel; [by destruct is_|done].
    + intros ([r b rc l is_] & [Hr Hrc Hl His Hc] & ->). unfold render. cbn [a_reasoning a_opened a_recipient a_layout a_invokes] in *.
      apply in_order_intro; [by exists r|]. apply in_order_intro; [by exists b|]. do 2 (apply in_order_intro; [done|]).
      rewrite (app_assoc MESSAGE). do 2 (apply in_order_intro; [done|]). apply in_order_intro; [|by apply in_order_last]. exists is_. split_and!; try done.
      unfold count_ok. destruct parallel; [by destruct is_|done].
Qed.
(** ** Its words are characters. *)
Lemma tool_rule_characters r : r ∈ grammar_rules parallel tools -> (forall name, name ∈ mentions (r_expr r) -> of_characters (E name)) -> of_characters (E (r_name r)).
Proof. intros Hr Hm v Hv%Hrules; [|done]. revert v Hv. by apply of_characters_denote. Qed.
Lemma fixed_characters i r : fixed_rules !! i = Some r -> (forall name, name ∈ mentions (r_expr r) -> of_characters (E name)) -> of_characters (E (r_name r)).
Proof. intros Hi%list_elem_of_lookup_2. apply tool_rule_characters, elem_of_cons. right. apply elem_of_app. by left. Qed.
Lemma layout_characters : of_characters (E (gbnf "layout")).
Proof. apply (fixed_characters 4 _ eq_refl). intros name Hn. by apply elem_of_nil in Hn. Qed.
Lemma parameter_char_characters : of_characters (E (gbnf "parameter-char")).
Proof. apply (fixed_characters 3 _ eq_refl). intros name Hn. by apply elem_of_nil in Hn. Qed.
Lemma any_characters : of_characters (E (gbnf "any")).
Proof. apply (fixed_characters 2 _ eq_refl). intros name Hn. by apply elem_of_nil in Hn. Qed.
Lemma prefix_characters : of_characters (E (gbnf "assistant-prefix")).
Proof. apply (fixed_characters 1 _ eq_refl). intros name Hn. by apply elem_of_nil in Hn. Qed.
Lemma reasoning_characters : of_characters (E (gbnf "reasoning-phase")).
Proof.
  apply (fixed_characters 0 _ eq_refl). cbn [r_expr]. rewrite mentions_alts. intros name Hn. cbn in Hn. rewrite !elem_of_cons, elem_of_nil in Hn.
  destruct Hn as [->|[->|[]]]; [apply prefix_characters|apply any_characters].
Qed.
Lemma parameter_characters i tool : tools !! i = Some tool -> name_parts tool <> [] -> of_characters (E (tool_parameter i)).
Proof.
  intros Hi Hne. apply (tool_rule_characters (parameter_rule i tool)); [by apply parameter_rule_in|]. intros name Hn%parameter_mentions.
  rewrite !elem_of_cons, elem_of_nil in Hn. destruct Hn as [->|[->|[]]]; [apply parameter_char_characters|apply layout_characters].
Qed.
Lemma invoke_characters i tool : tools !! i = Some tool -> of_characters (E (tool_invoke i)).
Proof.
  intros Hi. apply (tool_rule_characters (invoke_rule i tool)); [by apply invoke_rule_in|]. intros name [->|[Hne ->]]%invoke_mentions; [apply layout_characters|by eapply parameter_characters].
Qed.
Lemma root_characters : of_characters (E (gbnf "root")).
Proof.
  apply (tool_rule_characters (root_rule parallel tools)); [apply list_elem_of_here|]. intros name [Hn|(i & tool & Hi & ->)]%root_mentions; [|by eapply invoke_characters].
  rewrite !elem_of_cons, elem_of_nil in Hn. destruct Hn as [->|[->|[->|[]]]]; [apply reasoning_characters|apply prefix_characters|apply layout_characters].
Qed.
End Language.
