(* ===== verification/ToolReading.v ===== *)
(** * Reading constrained answers.

    What [parse_atem_output] makes of an answer the tool grammar admits: reasoning without the
    format's markers, calls with proper names and no parameter given twice. *)
From Stdlib Require Import Strings.Byte.
From S2P Require Import Prelude Utf8 Utf8Scalar Substring GrammarParser Schema AtemStream AtemProofs AtemAnswers AtemStreaming ToolGrammar ToolSyntax ToolAnswers.

(** ** Text that no occurrence of a marker starts in. *)
Definition clear (n a : str) : Prop := forall q, (q < length a)%nat -> forall y, starts_with n (drop q a ++ y) = false.
Fixpoint clearb (n c : str) : bool :=
  match c with [] => true | _ :: r => negb (starts_with n c) && negb (starts_with c n) && clearb n r end.
Lemma clearb_spec n c : clearb n c = true -> clear n c.
Proof.
  induction c as [|b c IH]; [intros _ q Hq; cbn in Hq; lia|]. cbn [clearb]. rewrite !andb_true_iff, !negb_true_iff. intros [[H1 H2] Hc] [|q] Hq y.
  - cbn [drop]. by rewrite starts_with_settled.
  - apply (IH Hc q). cbn in Hq. lia.
Qed.
Lemma clear_app n a b : clear n a -> clear n b -> clear n (a ++ b).
Proof.
  intros Ha Hb q Hq y. destruct (Nat.lt_ge_cases q (length a)) as [Hl|Hl].
  - rewrite drop_app_le by lia. rewrite <- app_assoc. by apply Ha.
  - rewrite drop_app_ge by done. apply Hb. rewrite length_app in Hq. lia.
Qed.
Lemma clear_nil n : clear n [].
Proof. intros q Hq. cbn in Hq. lia. Qed.
Lemma clear_join n l : Forall (clear n) l -> clear n (mjoin l).
Proof. induction 1 as [|a l Ha Hl IH]; [apply clear_nil|]. by apply clear_app. Qed.
(** Text without the byte a marker starts with. *)
Lemma clear_without b n a : b ∉ a -> clear (b :: n) a.
Proof.
  intros Hb q Hq y. destruct (drop q a) as [|c r] eqn:E; [apply (f_equal length) in E; rewrite length_drop in E; cbn in E; lia|]. cbn.
  rewrite bool_decide_eq_false_2; [done|]. intros ->. apply Hb. rewrite <- (take_drop q a), E. apply elem_of_app. right. apply list_elem_of_here.
Qed.
Lemma find_clear n a y : clear n a -> find n (a ++ y) = (fun o => (length a + o)%nat) <$> find n y.
Proof. intros Ha. apply find_skip. intros q Hq. rewrite drop_app_le by lia. by apply Ha. Qed.
Lemma find_here n y : find n (n ++ y) = Some 0%nat.
Proof. assert (starts_with n (n ++ y) = true) as E by (apply starts_with_spec; by exists y). by destruct n; [destruct y|cbn [app find] in *; rewrite E]. Qed.
Lemma find_after n a y : clear n a -> find n (a ++ n ++ y) = Some (length a).
Proof. intros Ha. rewrite find_clear, find_here by done. cbn. by rewrite Nat.add_0_r. Qed.
Lemma find_nowhere n a : n <> [] -> clear n a -> find n a = None.
Proof. intros Hn Ha. rewrite <- (app_nil_r a), find_clear by done. by destruct n. Qed.
(** A marker whose first byte it has but once, behind text it does not occur in. *)
Lemma find_behind b n a y : b ∉ n -> find (b :: n) a = None -> head y = Some b -> find (b :: n) (a ++ y) = (fun o => (length a + o)%nat) <$> find (b :: n) y.
Proof.
  intros Hb Ha Hy. apply find_skip. intros q Hq. destruct (starts_with (b :: n) (drop q (a ++ y))) eqn:E; [|done]. exfalso.
  rewrite drop_app_le in E by lia. pose proof (find_spec (b :: n) a) as Hs. rewrite Ha in Hs. specialize (Hs q ltac:(lia)).
  destruct y as [|c y]; [done|]. injection Hy as ->. destruct (drop q a) as [|c r] eqn:Ed; [apply (f_equal length) in Ed; rewrite length_drop in Ed; cbn in Ed; lia|].
  cbn in E, Hs. destruct (bool_decide (b = c)); [|done]. cbn in E, Hs. apply starts_with_spec in E as [k E].
  destruct (Nat.lt_ge_cases (length r) (length n)) as [Hl|Hl].
  - apply Hb. apply (list_elem_of_lookup_2 _ (length r)). rewrite <- (lookup_app_l n k), <- E by done. by apply list_lookup_middle.
  - assert (starts_with n r = true) as Hn; [|by rewrite Hn in Hs]. apply starts_with_spec. exists (drop (length n) r). apply (f_equal (take (length n))) in E.
    rewrite take_app_length, take_app_le in E by lia. rewrite <- E at 1. symmetry. apply take_drop.
Qed.

(** ** White space. *)
Lemma chars_byte b r : Z_of_byte b < 128 -> chars (b :: r) = [b] :: chars r.
Proof. intros Hb. change (b :: r) with ([b] ++ r). rewrite chars_app by (apply ascii_valid; by repeat constructor). by rewrite (chars_ascii [b]) by by repeat constructor. Qed.
Lemma trim_start_layout l r : layout_text l -> trim_start (l ++ r) = trim_start r.
Proof.
  induction 1 as [|b l Hb Hl IH]; [done|]. cbn [app]. unfold trim_start in *. rewrite chars_byte by by destruct b. cbn [skip_white]. by replace (is_white [b]) with true by by destruct b.
Qed.
Lemma trim_start_solid b r : Z_of_byte b < 128 -> is_white [b] = false -> trim_start (b :: r) = b :: r.
Proof. intros Hb Hw. unfold trim_start. rewrite chars_byte by done. cbn [skip_white]. rewrite Hw. change (mjoin ([b] :: chars r)) with (b :: mjoin (chars r)). by rewrite chars_concat. Qed.
Lemma trim_solid b m e : utf8_valid (b :: m) = true -> Z_of_byte b < 128 -> Z_of_byte e < 128 -> is_white [b] = false -> is_white [e] = false -> trim ((b :: m) ++ [e]) = (b :: m) ++ [e].
Proof.
  intros Hm Hb He Wb We. unfold trim. rewrite chars_app by done. rewrite chars_byte by done. cbn [app skip_white]. rewrite Wb.
  rewrite (chars_ascii [e]) by by repeat constructor. change ([b] :: chars m ++ ((fun b => [b]) <$> [e])) with (([b] :: chars m) ++ [[e]]). rewrite reverse_app.
  change (reverse [[e]] ++ ?l) with ([e] :: l). cbn [skip_white]. rewrite We, reverse_cons, reverse_involutive, join_app. change (mjoin ([b] :: chars m)) with (b :: mjoin (chars m)).
  by rewrite chars_concat.
Qed.
Lemma skip_white_word s : forallb word_byte s = true -> skip_white ((fun b => [b]) <$> s) = (fun b => [b]) <$> s.
Proof. destruct s as [|b s]; [done|]. cbn [forallb]. intros [Hb _]%andb_true_iff. rewrite fmap_cons. cbn [skip_white]. by replace (is_white [b]) with false by by destruct b. Qed.
Lemma word_ascii s : forallb word_byte s = true -> Forall (fun b => Z_of_byte b < 128) s.
Proof. rewrite forallb_forall. intros Hs. apply Forall_forall. intros b Hb%list_elem_of_In. specialize (Hs b Hb). by destruct b. Qed.
Lemma trim_word s : forallb word_byte s = true -> trim s = s.
Proof.
  intros Hs. unfold trim. rewrite chars_ascii by by apply word_ascii. rewrite skip_white_word by done. rewrite <- fmap_reverse, skip_white_word.
  - rewrite fmap_reverse, reverse_involutive. rewrite <- (chars_ascii s) by by apply word_ascii. apply chars_concat.
  - rewrite forallb_forall in Hs |- *. intros b Hb. apply Hs. apply list_elem_of_In, elem_of_reverse. by apply list_elem_of_In.
Qed.
Lemma word_free b s : word_byte b = false -> forallb word_byte s = true -> b ∉ s.
Proof. intros Hb Hs Hin. rewrite forallb_forall in Hs. rewrite Hs in Hb; [done|]. by apply list_elem_of_In. Qed.

(** ** Answers the format reads back. *)
Definition proper_function (name : str) : Prop := name <> [] /\ forallb word_byte name = true.
Definition proper_parameter (name : str) : Prop := name <> [] /\ "<"%byte ∉ name /\ find NAME_CLOSE name = None.
Record plain (a : ToolAnswer) : Prop := {
  pl_reasoning : match a_reasoning a with Some (_, text) => find PHASE_END text = None /\ find END_OF_TURN text = None | None => True end;
  pl_names : Forall (fun i => proper_function (tool_name (i_tool i)) /\ Forall (fun p => proper_parameter (p_name p)) (i_parameters i) /\ NoDup (p_name <$> i_parameters i)) (a_invokes a);
  pl_recipient : a_recipient a <> SELF /\ (a_recipient a = string_bytes "tool" \/ tool_name ∘ i_tool <$> head (a_invokes a) = Some (a_recipient a));
}.
Section Reading.
Context `{AtemCode}.
Definition arguments_of (ps : list ToolArgument) : list (str * Value) := (fun p => (p_name p, json_or_text (p_value p))) <$> ps.
Definition calls_of (a : ToolAnswer) : list ParsedToolCall := imap (fun k i => call_of (tool_name (i_tool i)) (arguments_of (i_parameters i)) k) (a_invokes a).
Definition reasoning_of (a : ToolAnswer) : str := match a_reasoning a with Some (_, text) => text | None => [] end.

(** *** Parameters. *)
Lemma layout_free s : layout_text s -> "<"%byte ∉ s.
Proof. intros Hs Hin. unfold layout_text in Hs. rewrite Forall_forall in Hs. by specialize (Hs _ Hin). Qed.
Lemma clear_name_close n : clear ("<"%byte :: n) NAME_CLOSE.
Proof. apply clear_without. by apply (bool_decide_unpack ("<"%byte ∉ NAME_CLOSE)). Qed.
Lemma clear_parameter n p : clearb ("<"%byte :: n) PARAMETER_OPEN = true -> clearb ("<"%byte :: n) PARAMETER_CLOSE = true -> proper_parameter (p_name p) ->
  value_text (p_value p) -> layout_text (p_layout p) -> clear ("<"%byte :: n) (render_parameter p).
Proof.
  intros H1%clearb_spec H2%clearb_spec (_ & Hn & _) (_ & Hv) Hl%layout_free. unfold render_parameter. repeat apply clear_app; try done; (apply clear_name_close || by apply clear_without).
Qed.
Lemma map_get_fresh {A} key (m : list (str * A)) : key ∉ m.*1 -> map_get key m = None.
Proof. induction m as [|[k v] m IH]; [done|]. cbn. rewrite not_elem_of_cons. intros [Hk Hm]. rewrite bool_decide_eq_false_2 by (intros ->; by apply Hk). by apply IH. Qed.
Lemma map_insert_fresh {A} key (value : A) m : key ∉ m.*1 -> map_insert key value m = m ++ [(key, value)].
Proof. induction m as [|[k v] m IH]; [done|]. cbn. rewrite not_elem_of_cons. intros [Hk Hm]. rewrite bool_decide_eq_false_2 by (intros ->; by apply Hk). by rewrite IH. Qed.
Lemma strip_prefix_app p y : strip_prefix p (p ++ y) = Some y.
Proof. unfold strip_prefix. rewrite (proj2 (starts_with_spec p (p ++ y))) by by exists y. by rewrite drop_app_length. Qed.
Lemma drop_close z : drop 2 (NAME_CLOSE ++ z) = z.
Proof. done. Qed.
Lemma no_tag n s : head n = Some "<"%byte -> "<"%byte ∉ s -> has_text n s = false.
Proof. destruct n as [|b n]; [done|]. intros [= ->] Hs. unfold has_text. rewrite find_nowhere; [done|done|by apply clear_without]. Qed.
Lemma parse_parameters_written fuel ps l acc : Forall (fun p => proper_parameter (p_name p) /\ value_text (p_value p) /\ layout_text (p_layout p)) ps -> layout_text l ->
  NoDup (acc.*1 ++ (p_name <$> ps)) -> (length (l ++ mjoin (render_parameter <$> ps)) < fuel)%nat ->
  parse_parameters fuel (l ++ mjoin (render_parameter <$> ps)) acc = Ok (acc ++ arguments_of ps).
Proof.
  intros Hps. revert fuel l acc. induction Hps as [|p ps (Hn & Hv & Hpl) Hps IH]; intros fuel l acc Hl Hnd Hf; (destruct fuel as [|fuel]; [lia|]).
  - cbn [parse_parameters]. rewrite trim_start_layout by done. cbn. by rewrite app_nil_r.
  - change (mjoin (render_parameter <$> p :: ps)) with (render_parameter p ++ mjoin (render_parameter <$> ps)) in *. set (more := mjoin (render_parameter <$> ps)) in *.
    destruct Hn as (Hne & Hlt & Hclose). destruct Hv as (Hvalid & Hvlt). rewrite app_assoc in Hf. cbn [parse_parameters]. rewrite trim_start_layout by done.
    assert (render_parameter p ++ more = PARAMETER_OPEN ++ p_name p ++ NAME_CLOSE ++ p_value p ++ PARAMETER_CLOSE ++ p_layout p ++ more) as -> by (unfold render_parameter; by rewrite <- !app_assoc).
    set (y := p_name p ++ NAME_CLOSE ++ p_value p ++ PARAMETER_CLOSE ++ p_layout p ++ more).
    change (trim_start (PARAMETER_OPEN ++ y)) with (trim_start ("<"%byte :: (drop 1 PARAMETER_OPEN ++ y))). rewrite trim_start_solid by done.
    change ("<"%byte :: (drop 1 PARAMETER_OPEN ++ y)) with (PARAMETER_OPEN ++ y). rewrite strip_prefix_app. cbn [ok_or].
    change (PARAMETER_OPEN ++ y) with ("<"%byte :: (drop 1 PARAMETER_OPEN ++ y)). cbv iota.
    assert (find NAME_CLOSE y = Some (length (p_name p))) as ->.
    { unfold y. change NAME_CLOSE with (x22 :: [">"%byte]). rewrite find_behind; [|by apply (bool_decide_unpack (x22 ∉ [">"%byte]))|done|done].
      rewrite find_here. cbn. by rewrite Nat.add_0_r. }
    cbn [ok_or]. cbv beta zeta. unfold y. rewrite take_app_length, bool_decide_eq_false_2 by done.
    rewrite <- drop_drop, drop_app_length. rewrite drop_close. rewrite find_after by (by apply clear_without). cbn [ok_or]. cbv beta zeta.
    rewrite take_app_length, !no_tag by done. cbn [orb]. rewrite fmap_cons, NoDup_app in Hnd.
    rewrite map_get_fresh, bool_decide_eq_false_2 by (try (by intros []); intros Hin; destruct Hnd as (_ & Hd & _); apply (Hd _ Hin), list_elem_of_here).
    rewrite <- drop_drop, drop_app_length, drop_app_length. rewrite map_insert_fresh by (intros Hin; destruct Hnd as (_ & Hd & _); apply (Hd _ Hin), list_elem_of_here).
    subst more. rewrite IH; [unfold arguments_of; by rewrite fmap_cons, <- app_assoc|done| |].
    + rewrite fmap_app. cbn [fmap list_fmap fst]. rewrite <- app_assoc. by apply NoDup_app.
    + assert (length (render_parameter p) >= 17 + length (p_layout p))%nat as Hlen by (unfold render_parameter; rewrite !length_app; change (length PARAMETER_CLOSE) with 17%nat; lia).
      rewrite !length_app in Hf. rewrite length_app. lia.
Qed.

(** *** Calls. *)
Definition well_named (i : Invoke) : Prop :=
  proper_function (tool_name (i_tool i)) /\ Forall (fun p => proper_parameter (p_name p)) (i_parameters i) /\ NoDup (p_name <$> i_parameters i).
Lemma readable_parameters i : invoke_of i -> well_named i -> Forall (fun p => proper_parameter (p_name p) /\ value_text (p_value p) /\ layout_text (p_layout p)) (i_parameters i).
Proof.
  intros (_ & Hp & _) (_ & Hn & _). rewrite Forall_forall in Hp, Hn. apply Forall_forall. intros p Hin. specialize (Hp p Hin) as (_ & Hv & Hl). split_and!; try done. by apply Hn.
Qed.
Definition absent (n : str) : Prop := forallb (clearb n) [PARAMETER_OPEN; PARAMETER_CLOSE; INVOKE_OPEN] = true /\ head n = Some "<"%byte.
Lemma clear_parameters n i : absent n -> invoke_of i -> well_named i -> clear n (i_open i ++ mjoin (render_parameter <$> i_parameters i)).
Proof.
  destruct n as [|b n]; intros [Hn [= ->]] Hi Hw. cbn [forallb] in Hn. rewrite !andb_true_iff in Hn. destruct Hn as (H1 & H2 & _). apply clear_app.
  - destruct Hi as [Ho _]. by apply clear_without, layout_free.
  - apply clear_join, Forall_fmap. eapply Forall_impl; [by apply readable_parameters|]. intros p (Hp & Hv & Hl). by apply clear_parameter.
Qed.
Lemma clear_call n i : absent n -> clearb n INVOKE_CLOSE = true -> invoke_of i -> well_named i -> clear n (render_invoke i).
Proof.
  intros Ha Hc%clearb_spec Hi Hw. pose proof (clear_parameters n i Ha Hi Hw) as Hp. destruct n as [|b n]; destruct Ha as [Hn [= ->]]. cbn [forallb] in Hn. rewrite !andb_true_iff in Hn.
  destruct Hn as (_ & _ & H3%clearb_spec & _). destruct Hw as ((_ & Hname) & _), Hi as (_ & _ & Hl). unfold render_invoke. rewrite (app_assoc (i_open i)).
  apply clear_app; [done|]. apply clear_app; [apply clear_without; by apply word_free|]. apply clear_app; [apply clear_name_close|]. apply clear_app; [done|].
  apply clear_app; [done|]. by apply clear_without, layout_free.
Qed.
Lemma name_read name y : find NAME_CLOSE name = None -> find NAME_CLOSE (name ++ NAME_CLOSE ++ y) = Some (length name).
Proof.
  intros Hn. change NAME_CLOSE with (x22 :: [">"%byte]) in *. rewrite find_behind; [|by apply (bool_decide_unpack (x22 ∉ [">"%byte]))|done|done]. rewrite find_here. cbn. by rewrite Nat.add_0_r.
Qed.
Lemma parse_invokes_written fuel invs l calls : Forall (fun i => invoke_of i /\ well_named i) invs -> layout_text l ->
  (length (l ++ mjoin (render_invoke <$> invs)) < fuel)%nat ->
  parse_invokes fuel (l ++ mjoin (render_invoke <$> invs)) calls =
    Ok (calls ++ imap (fun k i => call_of (tool_name (i_tool i)) (arguments_of (i_parameters i)) (length calls + k)) invs).
Proof.
  intros His. revert fuel l calls. induction His as [|i invs (Hi & Hw) His IH]; intros fuel l calls Hl Hf; (destruct fuel as [|fuel]; [lia|]).
  - cbn [parse_invokes]. rewrite trim_start_layout by done. cbn. by rewrite app_nil_r.
  - change (mjoin (render_invoke <$> i :: invs)) with (render_invoke i ++ mjoin (render_invoke <$> invs)) in *. set (more := mjoin (render_invoke <$> invs)) in *.
    rewrite app_assoc in Hf. cbn [parse_invokes]. rewrite trim_start_layout by done. set (body := i_open i ++ mjoin (render_parameter <$> i_parameters i)).
    assert (render_invoke i ++ more = INVOKE_OPEN ++ tool_name (i_tool i) ++ NAME_CLOSE ++ body ++ INVOKE_CLOSE ++ i_close i ++ more) as -> by (unfold render_invoke, body; by rewrite <- !app_assoc).
    set (y := tool_name (i_tool i) ++ NAME_CLOSE ++ body ++ INVOKE_CLOSE ++ i_close i ++ more).
    change (trim_start (INVOKE_OPEN ++ y)) with (trim_start ("<"%byte :: (drop 1 INVOKE_OPEN ++ y))). rewrite trim_start_solid by done.
    change ("<"%byte :: (drop 1 INVOKE_OPEN ++ y)) with (INVOKE_OPEN ++ y). rewrite strip_prefix_app. cbn [ok_or].
    change (INVOKE_OPEN ++ y) with ("<"%byte :: (drop 1 INVOKE_OPEN ++ y)). cbv iota. pose proof Hw as ((Hne & Hname) & _ & Hnd).
    unfold y. rewrite name_read by (apply find_nowhere; [done|]; by apply clear_without, word_free). cbn [ok_or]. cbv beta zeta.
    rewrite take_app_length, bool_decide_eq_false_2, Hname by done. cbn [orb negb]. rewrite <- drop_drop, drop_app_length. rewrite drop_close.
    rewrite find_after by (apply clear_parameters; [by split|done|done]). cbn [ok_or]. cbv beta zeta. rewrite take_app_length.
    rewrite <- drop_drop, drop_app_length, drop_app_length. unfold body at 1 2. pose proof Hi as (Ho & _ & Hclose).
    rewrite parse_parameters_written; [|by apply readable_parameters|done|done|lia]. cbn [app]. subst more. rewrite IH; [|done|].
    + rewrite <- app_assoc. do 2 f_equal. cbn [imap app]. rewrite Nat.add_0_r. f_equal. apply imap_ext. intros k j _. cbn. f_equal. rewrite length_app. cbn. lia.
    + assert (length (render_invoke i) >= 14 + length (i_close i))%nat as Hlen by (unfold render_invoke; rewrite !length_app; change (length INVOKE_CLOSE) with 14%nat; lia).
      rewrite !length_app in Hf. rewrite length_app. lia.
Qed.

(** *** Whole answers. *)
Lemma layout_ascii l : layout_text l -> utf8_valid l = true.
Proof. intros Hl. apply ascii_valid. eapply Forall_impl; [exact Hl|]. by intros []. Qed.
Lemma open_name_ascii s : open_name s -> utf8_valid s = true.
Proof. destruct s as [|b s]; [done|]. intros [Hb Hs]. apply ascii_valid. constructor; [by destruct b|]. eapply Forall_impl; [exact Hs|]. by intros []. Qed.
Lemma may_name_valid tool name : tool_valid tool -> may_name tool name -> utf8_valid name = true.
Proof. intros [_ Hv]. unfold may_name. destruct (additional tool); [apply open_name_ascii|]. rewrite Forall_forall in Hv. apply Hv. Qed.
Lemma parameter_valid tool p : tool_valid tool -> parameter_of tool p -> utf8_valid (render_parameter p) = true.
Proof.
  intros Ht (Hn%may_name_valid & (Hv & _) & Hl%layout_ascii); [|done]. unfold render_parameter. by rewrite !utf8_valid_app.
Qed.
Lemma invoke_valid i : tool_valid (i_tool i) -> invoke_of i -> utf8_valid (render_invoke i) = true.
Proof.
  intros Ht (Ho%layout_ascii & Hp & Hc%layout_ascii). unfold render_invoke. pose proof Ht as [Hn _].
  assert (utf8_valid (mjoin (render_parameter <$> i_parameters i)) = true) as Hm; [|by rewrite !utf8_valid_app].
  apply mjoin_valid, Forall_fmap. eapply Forall_impl; [exact Hp|]. intros p. by apply parameter_valid.
Qed.
Definition call_block (a : ToolAnswer) : str := CALLS_OPEN ++ a_layout a ++ mjoin (render_invoke <$> a_invokes a) ++ CALLS_CLOSE.
Definition call_header (a : ToolAnswer) : str := opened (a_opened a) ++ RECIPIENT ++ a_recipient a ++ MESSAGE.
Lemma render_split a : render a = render_reasoning (a_reasoning a) ++ (call_header a ++ call_block a) ++ PHASE_END.
Proof. unfold render, call_header, call_block. by rewrite <- !app_assoc. Qed.
Section Answer.
Context (parallel : bool) (tools : list ToolDefinition) (a : ToolAnswer) (Ha : answer_of parallel tools a) (Hplain : plain a) (Hvalid : Forall tool_valid tools).
Lemma answer_calls : Forall (fun i => invoke_of i /\ well_named i) (a_invokes a).
Proof. apply Forall_and. split; [|apply Hplain]. eapply Forall_impl; [apply (ans_invokes _ _ _ Ha)|]. by intros i []. Qed.
Lemma answer_has_calls : a_invokes a <> [].
Proof. pose proof (ans_count _ _ _ Ha) as Hc. destruct parallel; [done|]. by destruct (a_invokes a). Qed.
Lemma read_calls : parse_atem_calls (call_block a) = Ok (calls_of a).
Proof.
  pose proof answer_calls as Hcalls. pose proof (ans_layout _ _ _ Ha) as Hl. set (middle := a_layout a ++ mjoin (render_invoke <$> a_invokes a)).
  assert (call_block a = ("<"%byte :: drop 1 CALLS_OPEN ++ middle ++ take 21 CALLS_CLOSE) ++ [">"%byte]) as Eb.
  { unfold call_block, middle. rewrite <- !app_comm_cons, <- !app_assoc. reflexivity. }
  unfold parse_atem_calls. rewrite Eb. rewrite trim_solid; [|change ("<"%byte :: drop 1 CALLS_OPEN ++ ?z) with (CALLS_OPEN ++ z)|done..].
  2:{ unfold middle. rewrite utf8_valid_app by done. rewrite <- app_assoc, utf8_valid_app by by apply layout_ascii. rewrite utf8_valid_app; [done|]. apply mjoin_valid, Forall_fmap.
      apply Forall_forall. intros i Hi. pose proof (ans_invokes _ _ _ Ha) as Hin. rewrite Forall_forall in Hin. destruct (Hin i Hi) as [Ht Hio]. apply invoke_valid; [|done]. clear -Hvalid Ht. rewrite Forall_forall in Hvalid. by apply Hvalid. }
  rewrite <- Eb. assert (call_block a = CALLS_OPEN ++ middle ++ CALLS_CLOSE) as -> by (unfold call_block, middle; by rewrite <- !app_assoc).
  rewrite strip_prefix_app. cbn [mbind option_bind]. unfold strip_suffix, ends_with.
  rewrite (proj2 (starts_with_spec (reverse CALLS_CLOSE) (reverse (middle ++ CALLS_CLOSE)))) by (exists (reverse middle); apply reverse_app).
  rewrite length_app, Nat.add_sub, take_app_length. cbn [ok_or]. unfold middle at 2. rewrite parse_invokes_written; [|done|done|unfold middle; lia]. cbn [app length].
  change (imap _ (a_invokes a)) with (calls_of a). pose proof answer_has_calls as Hne. unfold calls_of. by destruct (a_invokes a).
Qed.
Lemma recipient_word : forallb word_byte (a_recipient a) = true.
Proof.
  destruct (pl_recipient _ Hplain) as [_ [->|Hr]]; [done|]. pose proof (pl_names _ Hplain) as Hn. destruct (a_invokes a) as [|i l]; [done|]. injection Hr as <-.
  apply Forall_cons in Hn as [((_ & Hw) & _) _]. done.
Qed.
Lemma opening_opened b : opening (opened b).
Proof. destruct b; [by right|by left]. Qed.
Lemma find_message name : "<"%byte ∉ name -> find MESSAGE (name ++ MESSAGE) = Some (length name).
Proof. intros Hn. rewrite <- (app_nil_r MESSAGE) at 2. apply find_after. by apply clear_without. Qed.
Lemma header_call : header_of (call_header a) (a_recipient a).
Proof.
  pose proof (header_to (opened (a_opened a)) (a_recipient a) (opening_opened _) ltac:(apply find_message, word_free; [done|apply recipient_word])) as E.
  by rewrite trim_word in E by apply recipient_word.
Qed.
Lemma header_reasoning b : header_of (opened b ++ RECIPIENT ++ SELF ++ MESSAGE) SELF.
Proof. pose proof (header_to (opened b) SELF (opening_opened b) ltac:(by apply find_message, word_free)) as E. by rewrite trim_word in E. Qed.
Lemma add_call_phase out : add_phase out (call_header a ++ call_block a) = Ok (mkAtemOutput (o_content out) (o_reasoning out) (o_tool_calls out ++ calls_of a)).
Proof.
  pose proof (header_read _ _ (call_block a) header_call) as Hb. unfold header_body in Hb. unfold add_phase. rewrite Hb. destruct (pl_recipient _ Hplain) as [Hself Hr].
  rewrite bool_decide_eq_false_2 by done. rewrite (bool_decide_eq_false_2 _ Hself).
  assert (has_text CALLS_OPEN (call_block a) = true) as -> by (unfold has_text, call_block; by rewrite find_here). rewrite read_calls.
  assert (validate_atem_recipient (a_recipient a) (calls_of a) = Ok tt) as ->; [|done]. unfold validate_atem_recipient.
  destruct Hr as [->|Hr]; [done|]. pose proof answer_has_calls as Hne. unfold calls_of. destruct (a_invokes a) as [|i l]; [done|]. injection Hr as Hr. cbn [imap].
  change (fc_name (tc_function (call_of ?n ?m ?k))) with n. rewrite Hr. rewrite (bool_decide_eq_true_2 (a_recipient a = a_recipient a)) by done. by rewrite orb_true_r.
Qed.
(** The two markers that end phases and answers. *)
Definition ends (n : str) : Prop := n = PHASE_END \/ n = END_OF_TURN.
Lemma clear_header n b : ends n -> clear n (opened b ++ RECIPIENT).
Proof. intros [->| ->]; apply clearb_spec; by destruct b. Qed.
Lemma clear_call_phase n : ends n -> clear n (call_header a ++ call_block a).
Proof.
  intros Hn. assert (exists m, n = "<"%byte :: m) as [m Em] by (destruct Hn as [->| ->]; by eexists). unfold call_header, call_block. rewrite (app_assoc (opened _)), <- !app_assoc.
  pose proof (clear_header n (a_opened a) Hn) as Hh. rewrite (app_assoc (opened _)).
  apply clear_app; [done|]. apply clear_app; [rewrite Em; by apply clear_without, word_free, recipient_word|].
  apply clear_app; [destruct Hn as [->| ->]; by apply clearb_spec|]. apply clear_app; [destruct Hn as [->| ->]; by apply clearb_spec|].
  apply clear_app; [rewrite Em; apply clear_without, layout_free, (ans_layout _ _ _ Ha)|]. apply clear_app; [|destruct Hn as [->| ->]; by apply clearb_spec].
  apply clear_join, Forall_fmap. eapply Forall_impl; [apply answer_calls|]. intros i [Hi Hw]. destruct Hn as [->| ->]; apply clear_call; done.
Qed.
Lemma call_phase_end n : ends n -> find n ((call_header a ++ call_block a) ++ PHASE_END) = (fun o => (length (call_header a ++ call_block a) + o)%nat) <$> find n PHASE_END.
Proof. intros Hn. by apply find_clear, clear_call_phase. Qed.
Lemma find_marker n x y : ends n -> find n x = None -> head y = Some "<"%byte -> find n (x ++ y) = (fun o => (length x + o)%nat) <$> find n y.
Proof.
  intros [->| ->]; [apply (find_behind "<"%byte (drop 1 PHASE_END))|apply (find_behind "<"%byte (drop 1 END_OF_TURN))];
    [by apply (bool_decide_unpack ("<"%byte ∉ drop 1 PHASE_END))|by apply (bool_decide_unpack ("<"%byte ∉ drop 1 END_OF_TURN))].
Qed.
Lemma reasoning_end n b text y : ends n -> find n text = None -> head y = Some "<"%byte ->
  find n ((opened b ++ RECIPIENT ++ SELF ++ MESSAGE) ++ text ++ y) = (fun o => (length (opened b ++ RECIPIENT ++ SELF ++ MESSAGE) + (length text + o))%nat) <$> find n y.
Proof.
  intros Hn Ht Hy. rewrite find_clear.
  - rewrite find_marker by done. by destruct (find n y).
  - rewrite app_assoc. apply clear_app; [by apply clear_header|]. destruct Hn as [->| ->]; by apply clearb_spec.
Qed.
Lemma no_end_of_turn : find END_OF_TURN (render a) = None.
Proof.
  rewrite render_split. pose proof (call_phase_end END_OF_TURN (or_intror eq_refl)) as Hc. pose proof (pl_reasoning _ Hplain) as Hr. destruct (a_reasoning a) as [[b text]|]; [|cbn [render_reasoning app]; by rewrite Hc].
  destruct Hr as [_ Ht]. unfold render_reasoning. change (string_bytes " to=self<|message|>") with (RECIPIENT ++ SELF ++ MESSAGE).
  assert (forall z, (opened b ++ (RECIPIENT ++ SELF ++ MESSAGE) ++ text ++ PHASE_END) ++ z = (opened b ++ RECIPIENT ++ SELF ++ MESSAGE) ++ text ++ PHASE_END ++ z) as -> by (intros z; by rewrite <- !app_assoc).
  rewrite reasoning_end; [|by right|done|done]. rewrite find_clear by by apply clearb_spec. by rewrite Hc.
Qed.
Lemma split_step fuel x y : (0 < fuel)%nat -> find PHASE_END (x ++ PHASE_END ++ y) = Some (length x) -> split_at_all fuel PHASE_END (x ++ PHASE_END ++ y) = x :: split_at_all (pred fuel) PHASE_END y.
Proof.
  intros Hf E. destruct fuel as [|fuel]; [lia|]. cbn [split_at_all pred]. rewrite E, take_app_length. by rewrite <- drop_drop, drop_app_length, drop_app_length.
Qed.
Lemma add_reasoning out b text : add_phase out ((opened b ++ RECIPIENT ++ SELF ++ MESSAGE) ++ text) = Ok (mkAtemOutput (o_content out) (o_reasoning out ++ text) (o_tool_calls out)).
Proof.
  pose proof (header_read _ _ text (header_reasoning b)) as Hb. unfold header_body in Hb. unfold add_phase. rewrite Hb. destruct text as [|c text]; [|done].
  destruct out. cbn. by rewrite app_nil_r.
Qed.
Lemma read_call_phases fuel out : (0 < fuel)%nat ->
  add_phases out (split_at_all fuel PHASE_END ((call_header a ++ call_block a) ++ PHASE_END)) = Ok (mkAtemOutput (o_content out) (o_reasoning out) (o_tool_calls out ++ calls_of a)).
Proof.
  intros Hf. rewrite <- (app_nil_r PHASE_END), split_step; [|done|by apply find_after, clear_call_phase; left]. cbn [add_phases]. rewrite add_call_phase. by destruct fuel as [|[|fuel]].
Qed.
Lemma parse_render : parse_atem_output (render a) = Ok (mkAtemOutput [] (reasoning_of a) (calls_of a)).
Proof.
  unfold parse_atem_output. rewrite remove_none by apply no_end_of_turn. rewrite render_split. pose proof (pl_reasoning _ Hplain) as Hr. unfold reasoning_of.
  destruct (a_reasoning a) as [[b text]|].
  - destruct Hr as [Hp _]. unfold render_reasoning. change (string_bytes " to=self<|message|>") with (RECIPIENT ++ SELF ++ MESSAGE).
    set (z := (call_header a ++ call_block a) ++ PHASE_END).
    assert ((opened b ++ (RECIPIENT ++ SELF ++ MESSAGE) ++ text ++ PHASE_END) ++ z = ((opened b ++ RECIPIENT ++ SELF ++ MESSAGE) ++ text) ++ PHASE_END ++ z) as -> by by rewrite <- !app_assoc.
    rewrite split_step.
    + cbn [add_phases]. rewrite add_reasoning. cbn [o_content o_reasoning o_tool_calls app]. subst z. rewrite read_call_phases; [done|]. rewrite !length_app. change (length PHASE_END) with 7%nat. lia.
    + rewrite !length_app. change (length PHASE_END) with 7%nat. lia.
    + rewrite <- app_assoc, reasoning_end; [|by left|done|done]. rewrite find_here. cbn [fmap option_fmap option_map]. f_equal. rewrite !length_app. lia.
  - cbn [render_reasoning app]. rewrite read_call_phases; [done|]. rewrite !length_app. change (length PHASE_END) with 7%nat. lia.
Qed.
End Answer.
End Reading.
