(* ===== verification/ToolCalls.v ===== *)
(** * Constrained tool calls.

    A request that requires a tool, from its grammar to the checks of its answer: the matcher
    it is decoded under admits exactly the answers of [ToolAnswers], and those that read back
    ([ToolReading]) are accepted when their arguments fit the schemas of the tools. *)
From Stdlib Require Import Strings.Byte.
From S2P Require Import Prelude Utf8 Utf8Scalar Grammar GrammarParser GrammarLanguage GrammarMatcher GrammarParserProofs Schema GbnfSyntax GbnfReading GbnfRules TextLang.
From S2P Require Import AtemStream ToolGrammar ToolSyntax ToolAnswers ToolLanguage ToolReading.

Definition language (m : GrammarMatcher) : Lang := yields (grammar m) (rhs (productions (grammar m) !!! start_production (grammar m))).

(** ** Bytes against a grammar. *)
Lemma accepted_bytes text root m bytes : matcher_parse text root = Ok m ->
  (exists m', matcher_accept_bytes m bytes = Some m' /\ is_accepting m' = true) <-> texts (language m) bytes.
Proof.
  unfold matcher_parse. pose proof (GrammarParserProofs.parse_outcome text root) as Hp. destruct (parse text root) as [g|]; [|done]. intros [= <-].
  destruct Hp as (Hwf & Hsets & _). unfold language. change (grammar (matcher_start g)) with g. pose proof (tracks_start g Hwf) as Ht.
  destruct (tr_sound _ _ _ Ht _ (list_elem_of_here _ _)) as (w0 & Hr0 & Hb0 & _). set (b0 := mkBranch [close g [] {[mkItem (start_production g) 0 0]}] []) in *.
  assert (w0 = []) as -> by (inversion Hr0 as [E1 E2 E3|ts w t bs Hr' E1 E2|ts w r t bs cs r' Hr' Hb' Hcs Hi E E1 E2]; subst; [done|by destruct ts..]).
  pose proof (accept_bytes_spec g Hwf Hsets [] b0 bytes Hb0) as Hs. unfold matcher_accept_bytes. change (branches (matcher_start g)) with [b0]. cbn [foldl].
  change (grammar (matcher_start g)) with g. change (pending_utf8 b0 ++ bytes) with bytes in Hs. destruct (accept_bytes g b0 bytes) as [b|].
  - unfold push_new. rewrite decide_False by (by apply not_elem_of_nil). cbn [app]. destruct Hs as (cs & Hcs & Hi & E & [Hok _] & Ha). cbn [app] in Hok, Ha.
    destruct (chart_last _ _ _ Hok) as (X & Hlast & _). assert (is_accepting (mkMatcher g [b]) = true <-> pending_utf8 b = [] /\ yields g (rhs (productions g !!! start_production g)) (word cs)) as Hacc.
    { unfold is_accepting. cbn [existsb branches grammar]. unfold last_items. rewrite Hlast, orb_false_r, andb_true_iff, !bool_decide_eq_true. cbn [default from_option id]. f_equiv. by eapply chart_accepting. }
    split.
    + intros (m' & [= <-] & [Hp Hy]%Hacc). exists cs. rewrite Hp, app_nil_r in E. by split.
    + intros (cs' & Hcs' & E' & Hy). exists (mkMatcher g [b]). split; [done|]. apply Hacc. rewrite <- (app_nil_r (encode_all cs')) in E'. rewrite E in E'.
      apply encode_split_unique in E' as [<- ->]; done.
  - split; [by intros (m' & ? & _)|]. intros (cs & Hcs & E & Hy). exfalso. apply (Hs cs []); [done|done|by rewrite app_nil_r|]. exists []. by apply viable_accepting.
Qed.

(** ** What a request offers. *)
Section Calls.
Context `{JsonText} `{AtemCode} (fuel : nat) (request : ChatRequest).
Lemma validate_each_names index tools names : validate_each fuel index tools = Ok names -> names = tool_name <$> tools.
Proof.
  revert index names. induction tools as [|tool tools IH]; intros index names; cbn [validate_each]; [by intros [= <-]|].
  destruct (_ || _); [done|]. destruct (result_map_err _ _) as [grammar|]; [|done]. destruct (result_map_err _ _); [|done].
  destruct (validate_each _ _ tools) as [names'|] eqn:E; [|done]. intros [= <-]. by rewrite (IH _ _ E).
Qed.
Lemma elem_of_eligible tool : tool ∈ eligible_tools request <-> tool ∈ request_tools request /\ match selected_function request with None => True | Some name => tool_name tool = name end.
Proof.
  unfold eligible_tools. rewrite list_elem_of_In, filter_In, <- list_elem_of_In. destruct (selected_function request); [by rewrite bool_decide_eq_true|tauto].
Qed.
Lemma eligible_exist : validate_tools fuel request = Ok tt -> requires_tool request = true -> eligible_tools request <> [].
Proof.
  unfold validate_tools, requires_tool. destruct (validate_each fuel 0 (request_tools request)) as [names|] eqn:E; [|done]. apply validate_each_names in E. subst names.
  destruct (tool_choice request) as [[mode|choice]|] eqn:Ec; [| |done].
  - destruct (negb _); [done|]. intros Hv Hm. rewrite Hm in Hv. cbn [andb] in Hv. unfold eligible_tools, selected_function. rewrite Ec. by destruct (request_tools request).
  - intros Hv _. destruct (bool_decide_reflect (c_function_name choice ∈ tool_name <$> request_tools request)) as [Hin|]; [|by rewrite orb_true_r in Hv].
    apply list_elem_of_fmap in Hin as (tool & Hname & Ht). intros En. apply (not_elem_of_nil tool). rewrite <- En. apply elem_of_eligible. split; [done|].
    unfold selected_function. by rewrite Ec.
Qed.

(** ** The checks of a finished call. *)
Definition admits (schema : Value) (arguments : str) : Prop :=
  exists text m, json_schema_to_gbnf fuel schema = Ok text /\ matcher_parse text (string_bytes "root") = Ok m /\ texts (language m) arguments.
Definition call_fits (call : ParsedToolCall) : Prop :=
  exists tool, find_tool (fc_name (tc_function call)) (request_tools request) = Some tool /\ admits (f_parameters (t_function tool)) (fc_arguments (tc_function call)).
Lemma check_arguments_ok tool call : check_arguments fuel tool call = Ok tt <-> admits (f_parameters (t_function tool)) (fc_arguments (tc_function call)).
Proof.
  unfold check_arguments, admits. destruct (json_schema_to_gbnf fuel _) as [text|] eqn:Eg; cbn [result_map_err]; [|split; [done|by intros (? & ? & ? & _)]].
  destruct (matcher_parse text _) as [m|] eqn:Em; cbn [result_map_err]; [|split; [done|intros (? & ? & [= <-] & E & _); by rewrite Em in E]].
  pose proof (accepted_bytes text _ m (fc_arguments (tc_function call)) Em) as Hb. split.
  - intros Hc. exists text, m. split; [done|]. split; [done|]. apply Hb. destruct (matcher_accept_bytes _ _) as [m'|]; [|done]. exists m'. split; [done|]. by destruct (is_accepting m').
  - intros (? & m0 & [= <-] & E & Ht). rewrite Em in E. injection E as <-. apply Hb in Ht as (m' & -> & ->). done.
Qed.
Lemma find_named tool : tool ∈ request_tools request -> exists tool', find_tool (tool_name tool) (request_tools request) = Some tool'.
Proof.
  intros Ht. unfold find_tool. destruct (List.filter _ _) as [|tool' l] eqn:E; [|by exists tool']. exfalso.
  apply (in_nil (a := tool)). rewrite <- E. apply filter_In. split; [by apply list_elem_of_In|]. by apply bool_decide_eq_true.
Qed.
Lemma streamed_call k call tool : requires_tool request = true -> tool ∈ eligible_tools request -> tool_name tool = fc_name (tc_function call) ->
  (parallel_tool_calls request = true \/ k = 0%nat) -> validate_streamed_atem_call_indexed fuel request k call = Ok tt <-> call_fits call.
Proof.
  intros Hreq [Ht Hsel]%elem_of_eligible Hname Hk. unfold validate_streamed_atem_call_indexed, call_fits.
  replace (negb (parallel_tool_calls request) && (0 <? k)%nat) with false by (destruct Hk as [-> | ->]; [done|by rewrite andb_false_r]).
  replace (match tool_choice request with Some (Mode mode) => bool_decide (mode = string_bytes "none") | _ => false end) with false.
  2:{ unfold requires_tool in Hreq. destruct (tool_choice request) as [[mode|]|]; try done. apply bool_decide_eq_true in Hreq as ->. done. }
  replace (match selected_function request with Some selected => negb (bool_decide (fc_name (tc_function call) = selected)) | None => false end) with false.
  2:{ destruct (selected_function request) as [selected|]; [|done]. rewrite <- Hname, Hsel. by rewrite bool_decide_eq_true_2. }
  destruct (find_named tool Ht) as (tool' & Ef). rewrite Hname in Ef. rewrite Ef. cbn [ok_or]. rewrite check_arguments_ok. split; [intros Hc; by exists tool'|]. by intros (? & [= <-] & Hc).
Qed.
Lemma validate_calls_ok calls k : (forall j call, calls !! j = Some call -> validate_streamed_atem_call_indexed fuel request (k + j) call = Ok tt <-> call_fits call) ->
  validate_calls fuel request k calls = Ok tt <-> Forall call_fits calls.
Proof.
  revert k. induction calls as [|call calls IH]; intros k Hc; cbn [validate_calls]; [done|]. rewrite Forall_cons. pose proof (Hc 0%nat call eq_refl) as Hcall. rewrite Nat.add_0_r in Hcall.
  rewrite <- Hcall. destruct (validate_streamed_atem_call_indexed fuel request k call) as [[]|]; [|by split; [|intros []]]. rewrite (IH (S k)); [tauto|].
  intros j c Hj. replace (S k + j)%nat with (k + S j)%nat by lia. by apply Hc.
Qed.
Lemma validated_answer a : requires_tool request = true -> Forall tool_valid (eligible_tools request) -> answer_of (parallel_tool_calls request) (eligible_tools request) a -> plain a ->
  forall incomplete, validate_generated_atem fuel request (render a) incomplete = Ok tt <-> Forall call_fits (calls_of a).
Proof.
  intros Hreq Hv Ha Hp incomplete. unfold validate_generated_atem. rewrite (parse_render _ _ a Ha Hp Hv). cbn [o_tool_calls]. rewrite Hreq.
  pose proof (answer_has_calls _ _ a Ha) as Hne. pose proof (ans_count _ _ _ Ha) as Hcount.
  rewrite bool_decide_eq_false_2 by (unfold calls_of; by destruct (a_invokes a)). cbn [andb].
  replace (negb (parallel_tool_calls request) && (1 <? length (calls_of a))%nat) with false.
  2:{ destruct (parallel_tool_calls request); [done|]. unfold calls_of. by rewrite length_imap, Hcount. }
  apply validate_calls_ok. cbn [Nat.add]. intros j call Hj. unfold calls_of in Hj. apply list_lookup_imap_Some in Hj as (i & Hi & ->).
  pose proof (ans_invokes _ _ _ Ha) as Hin. rewrite Forall_forall in Hin. destruct (Hin i (list_elem_of_lookup_2 _ _ _ Hi)) as [Ht _].
  apply (streamed_call j _ (i_tool i)); [done|done|done|]. destruct (parallel_tool_calls request); [by left|right]. apply lookup_lt_Some in Hi. lia.
Qed.
End Calls.


(** A concrete request: one tool, which takes one word. *)
Definition word_code : AtemCode :=
  {| from_json _ := None;
     map_to_json m := gbnf "{" ++ mjoin ((fun '(k, v) => gbnf "'" ++ k ++ gbnf "':'" ++ match v with VString s => s | _ => [] end ++ gbnf "'") <$> m) ++ gbnf "}";
     sha256_bytes s := s ++ repeat x00 12 |}.
Definition word_json : JsonText := {| to_json v := match v with VString s => x22 :: s ++ [x22] | VBool true => gbnf "true" | _ => gbnf "null" end |}.
Definition say_tool : ToolDefinition := mkTool (string_bytes "function") (mkToolFunction (string_bytes "say") (VObject [
  (string_bytes "type", VString (string_bytes "object"));
  (string_bytes "properties", VObject [(string_bytes "word", VObject [(string_bytes "type", VString (string_bytes "string"))])]);
  (string_bytes "required", VArray [VString (string_bytes "word")]); (string_bytes "additionalProperties", VBool false)])).
Definition say_request : ChatRequest := mkChatRequest (Some [say_tool]) (Some (Mode (string_bytes "required"))) false None None None None.
Definition say_answer : ToolAnswer := mkToolAnswer (Some (true, string_bytes "hm")) true (string_bytes "tool") [] [mkInvoke say_tool [x0a] [mkParameter (string_bytes "word") (string_bytes "hi") [x0a]] []].
Lemma say_tools_valid : Forall tool_valid (eligible_tools say_request).
Proof. constructor; [|constructor]. split; [by vm_compute|]. by repeat constructor. Qed.
Lemma say_answer_written : answer_of (parallel_tool_calls say_request) (eligible_tools say_request) say_answer.
Proof.
  constructor; [done|by right; left|constructor| |done]. constructor; [|constructor]. split; [by left|]. split; [by repeat constructor|]. split; [|constructor].
  constructor; [|constructor]. split; [by left|]. split; [|by repeat constructor]. split; [done|]. by apply (bool_decide_unpack ("<"%byte ∉ string_bytes "hi")).
Qed.
Lemma say_answer_plain : plain say_answer.
Proof.
  constructor; [done| |split; [done|by left]]. constructor; [|constructor]. split; [done|]. split; [|apply NoDup_singleton]. constructor; [|constructor].
  split; [done|]. split; [|done]. by apply (bool_decide_unpack ("<"%byte ∉ string_bytes "word")).
Qed.
