(* ===== verification/ToolLimits.v ===== *)
(** * What constrained answers can still break.

    Examples of answers the tool grammar admits and [parse_atem_output] refuses or misreads, and of
    grammars [muse_chat_response_grammar] spoils. *)
From Stdlib Require Import Strings.Byte.
From S2P Require Import Prelude Utf8 Grammar GrammarParser Schema AtemStream TextLang ToolGrammar ToolSyntax ToolAnswers ToolCalls.

Definition named_tool (name : string) : ToolDefinition := mkTool (string_bytes "function") (mkToolFunction (string_bytes name) (VObject [])).
Definition answer_to (recipient : string) (text : option string) (invokes : list Invoke) : ToolAnswer :=
  mkToolAnswer ((fun t => (false, string_bytes t)) <$> text) false (string_bytes recipient) [] invokes.
Definition call_to (name : string) (ps : list ToolArgument) : Invoke := mkInvoke (named_tool name) [] ps [].
Definition two_tools : list ToolDefinition := [named_tool "f"; named_tool "g"].
Ltac written_answer := constructor; [done|refine (bool_decide_unpack _ _); vm_compute; exact I|constructor| |done]; repeat constructor; try (refine (bool_decide_unpack _ _); vm_compute; exact I).
(** The recipient need not be the function that is called. *)
Example recipient_of_another_function : answer_of false two_tools (answer_to "g" None [call_to "f" []]) /\
  @parse_atem_output word_code (render (answer_to "g" None [call_to "f" []])) = Err (MalformedName "assistant recipient does not match the first ATEM invoke" (string_bytes "g")).
Proof. split; [by written_answer|by vm_compute]. Qed.
(** A parameter may be given twice. *)
Example parameter_given_twice : let p := mkParameter (string_bytes "x") [] [] in answer_of false two_tools (answer_to "f" None [call_to "f" [p; p]]) /\
  @parse_atem_output word_code (render (answer_to "f" None [call_to "f" [p; p]])) = Err (MalformedName "duplicate ATEM parameter" (string_bytes "x")).
Proof. split; [by written_answer|by vm_compute]. Qed.
(** Reasoning may hold the marker of its own end. *)
Example marker_in_reasoning : answer_of false two_tools (answer_to "f" (Some "a<|eom|>b"%string) [call_to "f" []]) /\
  exists output, @parse_atem_output word_code (render (answer_to "f" (Some "a<|eom|>b"%string) [call_to "f" []])) = Ok output /\
  o_reasoning output = string_bytes "a" /\ o_content output = string_bytes "b".
Proof. split; [by written_answer|]. eexists. split; [by vm_compute|done]. Qed.
(** A function may have any name; one outside the word characters is refused when it is called. *)
Example function_name_refused : answer_of false [named_tool "f g"] (answer_to "tool" None [call_to "f g" []]) /\
  @parse_atem_output word_code (render (answer_to "tool" None [call_to "f g" []])) = Err (Malformed "ATEM invoke name is outside the closed function-name grammar").
Proof. split; [by written_answer|by vm_compute]. Qed.
(** A call sent to a function named [self] is read as reasoning. *)
Example call_to_self_is_reasoning : answer_of false [named_tool "self"] (answer_to "self" None [call_to "self" []]) /\
  exists output, @parse_atem_output word_code (render (answer_to "self" None [call_to "self" []])) = Ok output /\ o_tool_calls output = [].
Proof. split; [by written_answer|]. eexists. split; [by vm_compute|done]. Qed.
(** A quotation mark in a comment hides the root of a grammar from the renaming. *)
Definition refused {A} (r : result ParseError A) : bool := match r with Err _ => true | Ok _ => false end.
Example comment_hides_root : let source := gbnf "# 6' long
root ::= 'a'
" in
  refused (matcher_parse source (gbnf "root")) = false /\ refused (matcher_parse (muse_chat_response_grammar source) (gbnf "root")) = true.
Proof. by vm_compute. Qed.
(** The names of the added rules are not kept free: the answer's grammar admits [b] where the
    request's admits nothing but [a]. *)
Definition admits_bytes (source text : str) : bool :=
  match matcher_parse source (gbnf "root") with
  | Ok m => match matcher_accept_bytes m text with Some m' => is_accepting m' | None => false end
  | Err _ => false
  end.
Example added_rule_collides : let source := gbnf "root ::= muser-chat-any
muser-chat-any ::= 'a'
" in
  admits_bytes source (gbnf "a") = true /\ admits_bytes source (gbnf "b") = false /\ admits_bytes (muse_chat_response_grammar source) (gbnf "<|message|>b") = true.
Proof. by vm_compute. Qed.
