(* ===== verification/Sampling.v ===== *)
(** * The seeded random engine of the sampler.

    Models [Mt19937] of [crates/muser-engine/src/sampling.rs], the bit-exact [std::mt19937]
    whose state sessions carry, with its snapshots.  A [u32] is a [Z] below 2^32.  The
    reference it is compared with is the generator's definition as a shift register over the
    last 624 words.  The uniform floating-point draws made from it are in [Float64]. *)
From S2P Require Import Prelude.

Definition N : nat := 624.
Definition M : nat := 397.

Record Mt19937Snapshot : Type := mkMtSnapshot { snap_state : list Z; snap_index : Z }.
Record Mt19937 : Type := mkMt { mt_state : list Z; mt_index : nat }.

Definition u32_at (l : list Z) (i : nat) : Z := l !!! i.
Definition next_seed (index : nat) (previous : Z) : Z :=
  wrapping_add 32 (wrapping_mul 32 1812433253 (Z.lxor previous (Z.shiftr previous 30))) (Z.of_nat index).
(** [for index in 1..624]: from the word before. *)
Fixpoint seed_words (count index : nat) (previous : Z) : list Z :=
  match count with
  | O => []
  | S count => let value := next_seed index previous in value :: seed_words count (S index) value
  end.
Definition Mt19937_new (seed : Z) : Mt19937 := mkMt (seed :: seed_words (N - 1) 1 seed) N.

Definition mix (current next far : Z) : Z :=
  let joined := Z.lor (Z.land current 0x80000000) (Z.land next 0x7fffffff) in
  Z.lxor (Z.lxor far (Z.shiftr joined 1)) (if Z.land joined 1 =? 0 then 0 else 0x9908b0df).
Definition twist_at (state : list Z) (index : nat) : list Z :=
  <[index := mix (u32_at state index) (u32_at state ((index + 1) mod N)%nat) (u32_at state ((index + M) mod N)%nat)]> state.
Definition twist (g : Mt19937) : Mt19937 := mkMt (foldl twist_at (mt_state g) (seq 0 N)) 0.

Definition temper (value : Z) : Z :=
  let value := Z.lxor value (Z.shiftr value 11) in
  let value := Z.lxor value (Z.land (wrapping_shl 32 value 7) 0x9d2c5680) in
  let value := Z.lxor value (Z.land (wrapping_shl 32 value 15) 0xefc60000) in
  Z.lxor value (Z.shiftr value 18).
Definition next_u32 (g : Mt19937) : Mt19937 * Z :=
  let g := if (mt_index g =? N)%nat then twist g else g in
  (mkMt (mt_state g) (S (mt_index g)), temper (u32_at (mt_state g) (mt_index g))).

Definition mt_snapshot (g : Mt19937) : Mt19937Snapshot := mkMtSnapshot (mt_state g) (Z.of_nat (mt_index g)).
(** [None] is [SamplingError::InvalidRngState]. *)
Definition from_snapshot (s : Mt19937Snapshot) : option Mt19937 :=
  if negb (zlen (snap_state s) =? 624) || (624 <? snap_index s) then None
  else Some (mkMt (snap_state s) (Z.to_nat (snap_index s))).

(** [n] draws. *)
Fixpoint draws (n : nat) (g : Mt19937) : list Z :=
  match n with
  | O => []
  | S n => let (g, value) := next_u32 g in value :: draws n g
  end.
(** The generator after [n] draws. *)
Fixpoint drawn (n : nat) (g : Mt19937) : Mt19937 :=
  match n with O => g | S n => drawn n (next_u32 g).1 end.

(** ** The reference: a shift register. *)
Definition register_next (w : list Z) : list Z := drop 1 w ++ [mix (u32_at w 0) (u32_at w 1) (u32_at w M)].
Definition register (n : nat) (w : list Z) : list Z := Nat.iter n register_next w.
(** Word [n] of the recurrence, the first 624 being the seed's. *)
Definition word (seed : Z) (n : nat) : Z := u32_at (register n (mt_state (Mt19937_new seed))) 0.

(** ** The twist in place is 624 steps of the register. *)
Lemma register_length n w : length w = N -> length (register n w) = N.
Proof.
  intros Hw. induction n as [|n IH]; [done|]. unfold register in *. cbn [Nat.iter nat_rect]. unfold register_next at 1.
  rewrite length_app, length_drop. change (nat_rect _ _ _ n) with (Nat.iter n register_next w). rewrite IH. done.
Qed.
Lemma register_S n w : register (S n) w = register_next (register n w).
Proof. done. Qed.
Lemma register_add n m w : register (n + m) w = register n (register m w).
Proof. unfold register. by rewrite Nat.iter_add. Qed.
Lemma register_next_lookup w j : length w = N -> (j < N)%nat ->
  u32_at (register_next w) j = if (j =? N - 1)%nat then mix (u32_at w 0) (u32_at w 1) (u32_at w M) else u32_at w (S j).
Proof.
  intros Hw Hj. unfold u32_at, register_next. destruct (Nat.eqb_spec j (N - 1)) as [->|Hne].
  - rewrite list_lookup_total_alt, lookup_app_r by (rewrite length_drop; lia). rewrite length_drop, Hw. done.
  - rewrite !list_lookup_total_alt, lookup_app_l by (rewrite length_drop; lia). by rewrite lookup_drop.
Qed.
Lemma register_lookup w n j : length w = N -> (j < N)%nat -> u32_at (register n w) j = u32_at (register (n + j) w) 0.
Proof.
  intros Hw. revert n. induction j as [|j IH]; intros n Hj; [by rewrite Nat.add_0_r|].
  rewrite <- Nat.add_succ_comm, <- IH by lia. rewrite register_S, register_next_lookup by (try apply register_length; done || lia).
  destruct (Nat.eqb_spec j (N - 1)); [lia | done].
Qed.

Lemma twist_prefix w i : length w = N -> (i <= N)%nat ->
  length (foldl twist_at w (seq 0 i)) = N /\
  forall j, (j < N)%nat -> u32_at (foldl twist_at w (seq 0 i)) ((i + j) mod N) = u32_at (register i w) j.
Proof.
  intros Hw. induction i as [|i IH]; intros Hi.
  - split; [done|]. intros j Hj. cbn [seq foldl Nat.add]. by rewrite Nat.mod_small.
  - destruct (IH ltac:(lia)) as [Hl Hs]. rewrite seq_S, foldl_app. cbn [Nat.add foldl]. set (s := foldl twist_at w (seq 0 i)) in *.
    assert (u32_at s i = u32_at (register i w) 0) as E0.
    { specialize (Hs 0%nat ltac:(unfold N; lia)). rewrite Nat.add_0_r, Nat.mod_small in Hs by lia. done. }
    unfold twist_at. rewrite E0, (Hs 1%nat), (Hs M) by (unfold N, M; lia). split; [by rewrite length_insert|].
    intros j Hj. rewrite register_S, register_next_lookup by (try apply register_length; done).
    destruct (Nat.eqb_spec j (N - 1)) as [->|Hne].
    + replace (S (i + (N - 1)) mod N)%nat with i.
      * unfold u32_at at 1. apply list_lookup_total_insert_eq. lia.
      * replace (S (i + (N - 1)))%nat with (i + 1 * N)%nat by (unfold N; lia). rewrite Nat.Div0.mod_add, Nat.mod_small by lia. done.
    + replace (S (i + j))%nat with (i + S j)%nat by lia. rewrite <- (Hs (S j)) by lia. unfold u32_at.
      apply list_lookup_total_insert_ne. intros E.
      destruct (decide (i + S j < N)%nat); [rewrite Nat.mod_small in E by lia; lia|].
      replace (i + S j)%nat with (i + S j - N + 1 * N)%nat in E by lia. rewrite Nat.Div0.mod_add, Nat.mod_small in E by lia. lia.
Qed.
Lemma twist_unfold g : twist g = mkMt (foldl twist_at (mt_state g) (seq 0 N)) 0.
Proof. reflexivity. Qed.
Lemma mt_state_twist g : mt_state (twist g) = foldl twist_at (mt_state g) (seq 0 N).
Proof. rewrite twist_unfold. cbn [mt_state]. reflexivity. Qed.
Lemma twist_eta g : twist g = mkMt (mt_state (twist g)) 0.
Proof. rewrite mt_state_twist. apply twist_unfold. Qed.
Lemma rotated_eq n (s r : list Z) : length s = n -> length r = n ->
  (forall j, (j < n)%nat -> u32_at s ((n + j) mod n) = u32_at r j) -> s = r.
Proof.
  intros Hs Hr Heq. apply list_eq_same_length with n; [done..|]. intros j x y Hj Ex Ey. specialize (Heq j Hj).
  replace ((n + j) mod n)%nat with j in Heq.
  - unfold u32_at in Heq. by rewrite (list_lookup_total_correct _ _ _ Ex), (list_lookup_total_correct _ _ _ Ey) in Heq.
  - replace (n + j)%nat with (j + 1 * n)%nat by lia. by rewrite Nat.Div0.mod_add, Nat.mod_small.
Qed.
Lemma twist_register g : length (mt_state g) = N -> mt_state (twist g) = register N (mt_state g).
Proof.
  intros Hw. destruct (twist_prefix _ N Hw (Nat.le_refl N)) as [Hl Hs].
  rewrite mt_state_twist. exact (rotated_eq N _ _ Hl (register_length N _ Hw) Hs).
Qed.

(** ** The stream. *)
Lemma seed_words_length count : forall index previous, length (seed_words count index previous) = count.
Proof. induction count as [|count IH]; intros; [done|]. cbn. by rewrite IH. Qed.
Lemma new_length seed : length (mt_state (Mt19937_new seed)) = N.
Proof. cbn [Mt19937_new mt_state length]. by rewrite seed_words_length. Qed.

(** The generator after [k] draws: a block of the recurrence and a place in it. *)
Record positioned (seed : Z) (k : nat) (g : Mt19937) : Prop := {
  pos_block : exists b, mt_state g = register (N * b) (mt_state (Mt19937_new seed)) /\ (N * b + mt_index g = N + k)%nat;
  pos_index : (mt_index g <= N)%nat;
}.
Lemma positioned_new seed : positioned seed 0 (Mt19937_new seed).
Proof. split; [exists 0%nat; rewrite Nat.mul_0_r; split; [done | cbn [mt_index Mt19937_new]; lia] | done]. Qed.
Lemma positioned_length seed k g : positioned seed k g -> length (mt_state g) = N.
Proof. intros [(b & -> & _) _]. apply register_length, new_length. Qed.
Lemma positioned_next seed k g : positioned seed k g ->
  positioned seed (S k) (next_u32 g).1 /\ (next_u32 g).2 = temper (word seed (N + k)).
Proof.
  intros Hp. pose proof (positioned_length _ _ _ Hp) as Hlen. destruct Hp as [(b & Hs & Hk) Hi]. unfold next_u32.
  assert (exists b' i, (if (mt_index g =? N)%nat then twist g else g) = mkMt (register (N * b') (mt_state (Mt19937_new seed))) i /\
    (i < N)%nat /\ (N * b' + i = N + k)%nat) as (b' & i & -> & Hi' & Hk').
  { destruct (Nat.eqb_spec (mt_index g) N) as [E|E].
    - exists (S b), 0%nat. split_and!; [|unfold N; lia|lia]. pose proof (twist_register g Hlen) as Ht. rewrite Hs, <- register_add in Ht.
      rewrite twist_eta, Ht. do 2 f_equal. lia.
    - exists b, (mt_index g). split_and!; [|lia|done]. rewrite <- Hs. by destruct g. }
  cbn [fst snd mt_state mt_index]. split.
  - split; [exists b'; split; [reflexivity | cbn [mt_index]; lia] | cbn [mt_index]; lia].
  - unfold word. rewrite (register_lookup _ _ _ (new_length seed) Hi'), Hk'. reflexivity.
Qed.
Lemma positioned_drawn seed n : forall k g, positioned seed k g -> positioned seed (k + n) (drawn n g).
Proof.
  induction n as [|n IH]; intros k g Hp; [by rewrite Nat.add_0_r|]. cbn [drawn]. rewrite <- Nat.add_succ_comm.
  apply IH. by apply positioned_next.
Qed.
Lemma draws_words seed n : forall k g, positioned seed k g -> draws n g = (fun i => temper (word seed (N + i))) <$> seq k n.
Proof.
  induction n as [|n IH]; intros k g Hp; [done|]. destruct (positioned_next _ _ _ Hp) as [Hp' Hv]. cbn [draws seq fmap list_fmap].
  destruct (next_u32 g) as [g' v]. cbn [fst snd] in *. rewrite Hv. f_equal. by apply IH.
Qed.


(** The first outputs of [std::mt19937] for its default seed, and the 1000th. *)
Example default_seed : draws 3 (Mt19937_new 5489) = [3499211612; 581869302; 3890346734].
Proof. vm_compute. reflexivity. Qed.
