(* ===== verification/Float64.v ===== *)
(** * Double-precision arithmetic of the samplers.

    An [f64] is a value of the Standard Library's [spec_float] at 53 bits of precision, an
    [f32] its bit pattern (a [Z] below 2^32) or, once read, a [spec_float] at 24 bits: the
    IEEE 754 operations with rounding to nearest even, all of which evaluate.  Models the
    uniform draws and the distribution samplers of [crates/muser-engine/src/sampling.rs]. *)
From Stdlib Require Import Floats.SpecFloat.
From S2P Require Import Prelude Sampling.

(** ** The formats. *)
Abbreviation f64 := spec_float.
Abbreviation f32 := spec_float.
Definition f64_of_Z (z : Z) : f64 := binary_normalize 53 1024 z 0 false.
Definition f64_zero : f64 := S754_zero false.
Definition f64_add : f64 -> f64 -> f64 := SFadd 53 1024.
Definition f64_sub : f64 -> f64 -> f64 := SFsub 53 1024.
Definition f64_mul : f64 -> f64 -> f64 := SFmul 53 1024.
Definition f64_div : f64 -> f64 -> f64 := SFdiv 53 1024.
Definition finite_float (x : spec_float) : bool :=
  match x with S754_zero _ | S754_finite _ _ _ => true | _ => false end.
(** [x <= 0.0] and [x > 0.0], [x < 0.0]. *)
Definition not_positive (x : spec_float) : bool := SFleb x f64_zero.
Definition positive_float (x : spec_float) : bool := SFltb f64_zero x.
Definition negative (x : spec_float) : bool := SFltb x f64_zero.

(** [f32::from_bits]: a sign bit, eight bits of exponent and 23 of fraction. *)
Definition f32_from_bits (bits : Z) : f32 :=
  let sign := Z.testbit bits 31 in
  let exponent := Z.land (Z.shiftr bits 23) 255 in
  let fraction := Z.land bits (2 ^ 23 - 1) in
  if exponent =? 255 then if fraction =? 0 then S754_infinity sign else S754_nan
  else if exponent =? 0 then match fraction with Zpos m => S754_finite sign m (-149) | _ => S754_zero sign end
  else match fraction + 2 ^ 23 with Zpos m => S754_finite sign m (exponent - 150) | _ => S754_nan end.
(** [value as f64] of an [f32], which is exact, and [value as f32] of an [f64], which rounds. *)
Definition round_to (prec emax : Z) (x : spec_float) : spec_float :=
  match x with S754_finite sign m e => binary_round prec emax sign m e | _ => x end.
Definition as_f64 (x : f32) : f64 := round_to 53 1024 x.
Definition as_f32 (x : f64) : f32 := round_to 24 128 x.

(** A sum in order, from 0.0. *)
Definition f64_sum (l : list f64) : f64 := foldl f64_add f64_zero l.

(** ** The uniform draws. *)
(** [1.0 / 4_294_967_296.0], and [1.0 / 18_446_744_073_709_551_616.0]. *)
Definition two_to_minus_32 : f64 := f64_div (f64_of_Z 1) (f64_of_Z 4294967296).
Definition two_to_minus_64 : f64 := f64_div (f64_of_Z 1) (f64_of_Z 18446744073709551616).
Definition uniform_f32 (rng : Mt19937) : Mt19937 * f32 :=
  let (rng, value) := next_u32 rng in (rng, as_f32 (f64_mul (f64_of_Z value) two_to_minus_32)).
Definition uniform_f64 (rng : Mt19937) : Mt19937 * f64 :=
  let (rng, low) := next_u32 rng in
  let (rng, high) := next_u32 rng in
  (rng, f64_mul (f64_add (f64_of_Z low) (f64_mul (f64_of_Z high) (f64_of_Z 4294967296))) two_to_minus_64).

(** ** Sampling a distribution. *)
Inductive SamplingError : Type := InvalidParams | InvalidLogits | InvalidRngState | Geometry.
#[global] Instance SamplingError_eq_dec : EqDecision SamplingError.
Proof. solve_decision. Defined.

Definition bad_weight (weight : f32) : bool := negb (finite_float weight) || negative weight.
Definition unusable (total : f64) : bool := negb (finite_float total) || not_positive total.

(** The first candidate whose cumulated weight satisfies [reached]. *)
Fixpoint first_reached {A} (reached : f64 -> bool) (weight : A -> f64) (cumulative : f64) (l : list A) : option A :=
  match l with
  | [] => None
  | x :: l => let cumulative := f64_add cumulative (weight x) in
      if reached cumulative then Some x else first_reached reached weight cumulative l
  end.

Fixpoint rfind_positive (l : list (nat * f32)) : option nat :=
  match l with
  | [] => None
  | (token, p) :: l => match rfind_positive l with
      | Some found => Some found
      | None => if positive_float p then Some token else None
      end
  end.
Definition enumerate {A} (l : list A) : list (nat * A) := zip (seq 0 (length l)) l.

Definition sample_distribution_mt (probabilities : list f32) (rng : Mt19937) : Mt19937 * result SamplingError Z :=
  if bool_decide (probabilities = []) || existsb bad_weight probabilities then (rng, Err InvalidLogits)
  else
    let total := f64_sum (map as_f64 probabilities) in
    if unusable total then (rng, Err InvalidLogits)
    else
      let (rng, draw) := uniform_f64 rng in
      let target := f64_mul draw total in
      (rng, Ok (match first_reached (SFleb target) (fun c => as_f64 c.2) f64_zero (enumerate probabilities) with
                | Some (token, _) => Z.of_nat token
                | None => match rfind_positive (enumerate probabilities) with Some token => Z.of_nat token | None => 0 end
                end)).

Definition sample_discrete_distribution_mt (probabilities : list f32) (rng : Mt19937) : Mt19937 * result SamplingError Z :=
  if bool_decide (probabilities = []) || existsb bad_weight probabilities then (rng, Err InvalidLogits)
  else
    let total := f64_sum (map as_f64 probabilities) in
    if unusable total then (rng, Err InvalidLogits)
    else
      let (rng, draw) := uniform_f64 rng in
      (rng, Ok (match first_reached (SFltb draw) (fun c => f64_div (as_f64 c.2) total) f64_zero
                        (take (length probabilities - 1) (enumerate probabilities)) with
                | Some (token, _) => Z.of_nat token
                | None => Z.of_nat (length probabilities - 1)
                end)).

(** The ordered samplers: [order] lists the candidates of the truncation chain. *)
Definition weight_of (weights : list f32) (token : Z) : f64 := as_f64 (default f64_zero (weights !! Z.to_nat token)).
Definition bad_candidates (weights : list f32) (order : list Z) : bool :=
  bool_decide (weights = []) || bool_decide (order = []) || existsb bad_weight weights
  || existsb (fun token => zlen weights <=? token) order.
Definition last_of (order : list Z) : Z := default 0 (last order).

Definition sample_discrete_distribution_mt_ordered (probabilities : list f32) (order : list Z) (rng : Mt19937) :
    Mt19937 * result SamplingError Z :=
  if bad_candidates probabilities order then (rng, Err InvalidLogits)
  else
    let total := f64_sum (map (weight_of probabilities) order) in
    if unusable total then (rng, Err InvalidLogits)
    else
      let (rng, draw) := uniform_f64 rng in
      (rng, Ok (default (last_of order)
                  (first_reached (SFltb draw) (fun token => f64_div (weight_of probabilities token) total) f64_zero
                     (take (length order - 1) order)))).

Definition sample_distribution_mt_ordered (weights : list f32) (order : list Z) (rng : Mt19937) :
    Mt19937 * result SamplingError Z :=
  if bad_candidates weights order then (rng, Err InvalidLogits)
  else
    let total := f64_sum (map (weight_of weights) order) in
    if unusable total then (rng, Err InvalidLogits)
    else
      let (rng, draw) := uniform_f64 rng in
      let target := f64_mul draw total in
      (rng, Ok (default (last_of order) (first_reached (SFleb target) (weight_of weights) f64_zero order))).

(** ** Sparse rows of a normalised distribution. *)
Record OrderedDistribution : Type := mkOrderedDistribution { probabilities : list f32; weights : list f32; order : list Z }.
Record SparseProbabilityEntry : Type := mkProbability { p_token : Z; probability : f32 }.
Record SparseProbabilityRow : Type := mkProbabilityRow { p_vocab_size : Z; p_entries : list SparseProbabilityEntry }.

Definition one_millionth : f64 := f64_div (f64_of_Z 1) (f64_of_Z 1000000).
Fixpoint probability_total (vocab_size : Z) (seen : list Z) (total : f64) (entries : list SparseProbabilityEntry) :
    result SamplingError f64 :=
  match entries with
  | [] => Ok total
  | entry :: entries =>
      if (vocab_size <=? p_token entry) || bool_decide (p_token entry ∈ seen)
         || negb (finite_float (probability entry)) || not_positive (probability entry)
      then Err InvalidLogits
      else probability_total vocab_size (p_token entry :: seen) (f64_add total (as_f64 (probability entry))) entries
  end.
Definition validate_row (row : SparseProbabilityRow) : result SamplingError unit :=
  if (p_vocab_size row =? 0) || bool_decide (length (p_entries row) = 0%nat) then Err InvalidLogits
  else
    let? total := probability_total (p_vocab_size row) [] f64_zero (p_entries row) in
    if negb (finite_float total) || SFltb one_millionth (SFabs (f64_sub total (f64_of_Z 1))) then Err InvalidLogits else Ok tt.
Definition validate_bounded (row : SparseProbabilityRow) (max_support : Z) : result SamplingError unit :=
  let? _ := validate_row row in
  if (max_support =? 0) || (max_support <? zlen (p_entries row)) then Err Geometry else Ok tt.
Definition probability_of (row : SparseProbabilityRow) (token : Z) : f32 :=
  match list_find (fun entry => p_token entry = token) (p_entries row) with
  | Some (_, entry) => probability entry
  | None => S754_zero false
  end.

(** The entries of [order] with a positive probability, and the candidates seen. *)
Fixpoint gather (probabilities : list f32) (seen : list Z) (order : list Z) :
    result SamplingError (list SparseProbabilityEntry * list Z) :=
  match order with
  | [] => Ok ([], seen)
  | token :: order =>
      let? p := ok_or (probabilities !! Z.to_nat token) Geometry in
      if bool_decide (token ∈ seen) then Err Geometry
      else
        let? (entries, seen) := gather probabilities (token :: seen) order in
        Ok (if positive_float p then mkProbability token p :: entries else entries, seen)
  end.
Definition from_ordered (d : OrderedDistribution) : result SamplingError SparseProbabilityRow :=
  if U32_MAX <? zlen (probabilities d) then Err Geometry
  else
    let? (entries, seen) := gather (probabilities d) [] (order d) in
    if existsb (fun c => positive_float c.2 && negb (bool_decide (Z.of_nat c.1 ∈ seen))) (enumerate (probabilities d))
    then Err Geometry
    else
      let row := mkProbabilityRow (zlen (probabilities d)) entries in
      let? _ := validate_row row in
      Ok row.

(** ** The samplers choose a candidate, after exactly two draws. *)
Lemma first_reached_elem {A} reached weight cumulative (l : list A) x :
  first_reached reached weight cumulative l = Some x -> x ∈ l.
Proof.
  revert cumulative. induction l as [|y l IH]; intros cumulative; cbn; [done|]. case_match.
  - intros [= ->]. apply elem_of_cons. by left.
  - intros Hx. apply elem_of_cons. right. eauto.
Qed.

Lemma uniform_f64_draws rng : (uniform_f64 rng).1 = drawn 2 rng.
Proof. unfold uniform_f64. cbn [drawn]. destruct (next_u32 rng) as [g low]. cbn [fst]. by destruct (next_u32 g). Qed.

Lemma sample_distribution_mt_ordered_chooses ws ord rng rng' token :
  sample_distribution_mt_ordered ws ord rng = (rng', Ok token) ->
  token ∈ ord /\ token < zlen ws /\ rng' = drawn 2 rng.
Proof.
  unfold sample_distribution_mt_ordered. case_match eqn:Hbad; [done|]. case_match; [done|].
  destruct (uniform_f64 rng) as [g draw] eqn:Hdraw. intros [= -> <-].
  unfold bad_candidates in Hbad. bool_prop.
  set (chosen := first_reached _ _ _ _).
  assert (default (last_of ord) chosen ∈ ord) as Hin.
  { destruct chosen as [t|] eqn:E; cbn [default from_option id].
    - by eapply first_reached_elem.
    - unfold last_of. destruct ord as [|a l] using rev_ind; [done|]. rewrite last_snoc. cbn.
      apply elem_of_app. right. by apply list_elem_of_singleton. }
  split; [done|]. split; [|by rewrite <- uniform_f64_draws, Hdraw].
  assert ((zlen ws <=? default (last_of ord) chosen) = false) as Hlt.
  { destruct (zlen ws <=? default (last_of ord) chosen) eqn:E; [|done].
    match goal with K : existsb (fun token => zlen ws <=? token) ord = false |- _ =>
      enough (existsb (fun token => zlen ws <=? token) ord = true) by congruence end.
    apply existsb_exists. exists (default (last_of ord) chosen). split; [by apply list_elem_of_In|done]. }
  by bool_prop.
Qed.
