(* ===== verification/Verifier.v ===== *)
(** * The protocol of the remote verifier.

    Models the records of [crates/muser-cluster/src/verifier_v2.rs] and their checks: the
    session's genesis, the rounds a writer requests, the results a target signs, the
    fragments that close a result, and the assembler that collects them in any order.  The
    journal that makes them durable is [VerifierJournal].  Canonical JSON, SHA-256, the MAC
    and Ed25519 are the class [VerifierCode]; a record's canonical JSON is a function of the
    record ([Document]).  Integers are [Z]s of the field's width (the count of a decision an [N]), strings are bytes. *)
From Stdlib Require Import Floats.SpecFloat Strings.Byte.
From S2P Require Import Prelude Utf8 Sampling Float64.

Definition VERIFIER_SESSION_PROTOCOL_V2 : str := string_bytes "muser-verifier-session-v2".
Definition VERIFIER_ROUND_PROTOCOL_V2 : str := string_bytes "muser-verifier-round-v2".
Definition VERIFIER_ROUND_PROTOCOL_V3 : str := string_bytes "muser-verifier-round-v3".
Definition VERIFIER_RESULT_PROTOCOL_V2 : str := string_bytes "muser-verifier-result-v2".
Definition VERIFIER_SESSION_MAC_DOMAIN_V2 : str := string_bytes "muser-verifier-session-v2".
Definition VERIFIER_ROUND_MAC_DOMAIN_V2 : str := string_bytes "muser-verifier-round-v2".
Definition VERIFIER_ROUND_MAC_DOMAIN_V3 : str := string_bytes "muser-verifier-round-v3".
Definition VERIFIER_JOURNAL_MAC_DOMAIN_V2 : str := string_bytes "muser-verifier-journal-v2".
Definition VERIFIER_JOURNAL_PROTOCOL_V2 : str := string_bytes "muser-verifier-journal-v2".
Definition STATELESS_SAMPLER_V2 : str := string_bytes "muser-stateless-sampler-v2".
Definition MAX_DRAFTS_V2 : Z := 64.
Definition MAX_SPARSE_SUPPORT_V2 : Z := 4096.
Definition MAX_CONTEXT_TOKENS_V2 : Z := 131072.
Definition MAX_FRAGMENT_BYTES_V2 : Z := 512 * 1024 * 1024.
Definition MAX_TOTAL_FRAGMENT_BYTES_V2 : Z := 512 * 1024 * 1024.
Definition MAX_FRAGMENTS_V2 : Z := 4096.
Definition MAX_CLOCK_SKEW_MS_V2 : Z := 30000.

Inductive VerifierV2Error : Type :=
| Validation (message : string)
| Authentication | LeaseNotLive | ChangedIntent | StaleHead | BusyParent | Terminal | Incomplete | ResyncRequired
| Renderer (message : string)
| Io (message : string).
#[global] Instance VerifierV2Error_eq_dec : EqDecision VerifierV2Error.
Proof. solve_decision. Defined.
Abbreviation checked A := (result VerifierV2Error A).
Definition invalid {A} (message : string) : checked A := Err (Validation message).

(** ** Data. *)
Record CompositeIdentityV2 : Type := mkComposite {
  semantic_product_sha256 : str;
  prefix_checkpoint_sha256 : str;
  target_checkpoint_sha256 : str;
  target_engine_sha256 : str;
  target_sampler_sha256 : str;
  draft_checkpoint_sha256 : str;
  draft_engine_sha256 : str;
  tokenizer_sha256 : str;
  vocabulary_sha256 : str;
  target_genesis_root_sha256 : str;
  draft_genesis_root_sha256 : str;
  portable_kv_abi : str;
}.
Inductive CouplingPolicyV2 : Type := Greedy | SparseMaximal (max_support : Z) | SharedGumbel.
Inductive SamplerStateV2 : Type := Stateless (implementation : str) | MtState (state : list Z) (index : Z).
Inductive FinishReasonV2 : Type := Eos | MaxTokens | Cancelled.
Inductive RoundIntentV2 : Type := Verify | Close (reason : FinishReasonV2).
Inductive FrontierV2 : Type := Open (token : Z) (output_ordinal : Z) | Closed (reason : FinishReasonV2).
Inductive FragmentKindV2 : Type := TargetHidden | TargetKvDelta | TargetProbabilityEvidence | SamplerWitness | Snapshot.
Inductive FragmentCoverageV2 : Type := CommittedInputs | FreshTargetRows | RoundSingleton.
Record FragmentRequirementV2 : Type := mkRequirement {
  r_component_id : str;
  r_kind : FragmentKindV2;
  coverage : FragmentCoverageV2;
  r_payload_abi : str;
  r_bytes_per_logical_row : Z;
  required : bool;
}.
Record FragmentDescriptorV2 : Type := mkDescriptor {
  ordinal : Z;
  component_id : str;
  kind : FragmentKindV2;
  logical_start : Z;
  logical_count : Z;
  payload_abi : str;
  bytes_per_logical_row : Z;
  byte_len : Z;
  sha256 : str;
}.
Record SessionCoreV2 : Type := mkSessionCore {
  protocol : str;
  session_id : str;
  client_incarnation : str;
  log_writer_authority_id : str;
  authority_lease_id : str;
  authority_term : Z;
  target_executor_id : str;
  target_public_key : str;
  created_unix_ms : Z;
  expires_unix_ms : Z;
  hmac_key_id : str;
  hmac_key_epoch : Z;
  identity : CompositeIdentityV2;
  coupling_policy : CouplingPolicyV2;
  sampler_config_sha256 : str;
  vocab_size : Z;
  max_context_tokens : Z;
  max_drafts : Z;
  max_total_fragment_bytes : Z;
  initial_evaluated_tokens : list Z;
  initial_output_height : Z;
  initial_frontier : FrontierV2;
  initial_sampler_state : SamplerStateV2;
  fragment_requirements : list FragmentRequirementV2;
  genesis_head_sha256 : str;
}.
Record AuthenticatedSessionV2 : Type := mkSession { s_core : SessionCoreV2; s_hmac_sha256 : str }.
Record SparseWeightEntryV2 : Type := mkWeight { w_token : Z; weight_f32_bits : Z }.
Record SparseWeightRowV2 : Type := mkWeightRow { w_vocab_size : Z; w_entries : list SparseWeightEntryV2 }.
Inductive DraftEvidenceV2 : Type :=
| NoEvidence
| SparseMaximalEvidence (q_rows : list SparseWeightRowV2)
| SharedGumbelEvidence (witness_sha256 : str).
Record RoundCoreV2 : Type := mkRoundCore {
  q_protocol : str;
  intent : RoundIntentV2;
  q_session_id : str;
  q_session_genesis_sha256 : str;
  q_authority_term : Z;
  request_id : str;
  q_created_unix_ms : Z;
  q_expires_unix_ms : Z;
  q_hmac_key_id : str;
  q_hmac_key_epoch : Z;
  base_output_height : Z;
  base_head_sha256 : str;
  base_evaluated_tokens : list Z;
  base_tokens_sha256 : str;
  frontier_in : FrontierV2;
  draft_tokens : list Z;
  draft_evidence : DraftEvidenceV2;
  base_sampler_state : SamplerStateV2;
  post_draft_sampler_state : SamplerStateV2;
}.
Record AuthenticatedRoundV2 : Type := mkRound { q_core : RoundCoreV2; q_hmac_sha256 : str }.
Inductive ResultDecisionV2 : Type :=
| DecisionOpen (accepted_drafts : BinNums.N) (frontier_out : Z)
| DecisionClosed (commit_frontier : bool) (accepted_drafts : BinNums.N) (reason : FinishReasonV2).
Record ResultCoreV2 : Type := mkResultCore {
  a_protocol : str;
  a_session_id : str;
  a_session_genesis_sha256 : str;
  a_authority_term : Z;
  a_target_executor_id : str;
  a_request_id : str;
  request_intent_sha256 : str;
  a_base_output_height : Z;
  a_base_head_sha256 : str;
  decision : ResultDecisionV2;
  committed_tokens : list Z;
  new_output_height : Z;
  new_evaluated_tokens_sha256 : str;
  new_frontier : FrontierV2;
  post_verify_sampler_state : SamplerStateV2;
  fragments_sha256 : str;
  fragments : list FragmentDescriptorV2;
  new_head_sha256 : str;
  completed_unix_ms : Z;
}.
Record AuthenticatedResultV2 : Type := mkResult { a_core : ResultCoreV2; target_signature_hex : str }.
Record HeadTransitionV2 : Type := mkTransition {
  h_protocol : str;
  h_session_id : str;
  h_session_genesis_sha256 : str;
  h_authority_term : Z;
  h_base_head_sha256 : str;
  h_base_output_height : Z;
  h_committed_tokens : list Z;
  h_new_output_height : Z;
  h_new_evaluated_tokens_sha256 : str;
  h_new_frontier : FrontierV2;
  h_post_verify_sampler_state : SamplerStateV2;
  h_fragments_sha256 : str;
  h_request_intent_sha256 : str;
}.

(** *** The records of the journal. *)
Record RendererStageReceiptV2 : Type := mkReceipt {
  rr_result_sha256 : str; render_root_sha256 : str; stage_token : str; rr_staged_unix_ms : Z }.
Record ReservationRecordV2 : Type := mkReservation { r_request : AuthenticatedRoundV2; reserved_unix_ms : Z }.
Record PreparedRecordV2 : Type := mkPrepared {
  p_request_intent_sha256 : str; p_result : AuthenticatedResultV2; prepared_unix_ms : Z }.
Record StagedRecordV2 : Type := mkStaged {
  st_request_id : str; st_request_intent_sha256 : str; st_result_sha256 : str;
  st_renderer : RendererStageReceiptV2; staged_unix_ms : Z }.
Record CommitRecordV2 : Type := mkCommit {
  c_request : AuthenticatedRoundV2; c_result : AuthenticatedResultV2;
  c_renderer : RendererStageReceiptV2; committed_unix_ms : Z }.
Record ActiveRecordV2 : Type := mkActive {
  ac_request_id : str; ac_result_sha256 : str; ac_new_head_sha256 : str; activated_unix_ms : Z }.
Record AckRecordV2 : Type := mkAck {
  k_request_id : str; k_result_sha256 : str; applied_head_sha256 : str; acknowledged_unix_ms : Z }.
Record TombstoneRecordV2 : Type := mkTombstone { t_request_id : str; t_result_sha256 : str; retired_unix_ms : Z }.
(** [serde_json::Value] of one of the records. *)
Inductive Payload : Type :=
| PReservation (r : ReservationRecordV2) | PPrepared (r : PreparedRecordV2) | PStaged (r : StagedRecordV2)
| PCommit (r : CommitRecordV2) | PActive (r : ActiveRecordV2) | PAck (r : AckRecordV2) | PTombstone (r : TombstoneRecordV2).
Record JournalUnsignedV2 : Type := mkUnsigned {
  u_protocol : str; u_kind : str; u_session_record_sha256 : str; u_payload : Payload }.
Record JournalEnvelopeV2 : Type := mkEnvelope {
  e_protocol : str; e_kind : str; e_session_record_sha256 : str; e_payload : Payload; e_hmac_sha256 : str }.

(** What is hashed, signed or authenticated, through its canonical JSON. *)
Inductive Document : Type :=
| DocSession (core : SessionCoreV2) | DocSessionRecord (session : AuthenticatedSessionV2)
| DocSampler (sampler : SamplerStateV2)
| DocRound (core : RoundCoreV2)
| DocResult (core : ResultCoreV2) | DocResultRecord (answer : AuthenticatedResultV2)
| DocFragments (fragments : list FragmentDescriptorV2) | DocTransition (t : HeadTransitionV2)
| DocJournal (unsigned : JournalUnsignedV2).

#[global] Instance CouplingPolicyV2_eq_dec : EqDecision CouplingPolicyV2.
Proof. solve_decision. Defined.
#[global] Instance SamplerStateV2_eq_dec : EqDecision SamplerStateV2.
Proof. solve_decision. Defined.
#[global] Instance FinishReasonV2_eq_dec : EqDecision FinishReasonV2.
Proof. solve_decision. Defined.
#[global] Instance RoundIntentV2_eq_dec : EqDecision RoundIntentV2.
Proof. solve_decision. Defined.
#[global] Instance FrontierV2_eq_dec : EqDecision FrontierV2.
Proof. solve_decision. Defined.
#[global] Instance FragmentKindV2_eq_dec : EqDecision FragmentKindV2.
Proof. solve_decision. Defined.
#[global] Instance FragmentDescriptorV2_eq_dec : EqDecision FragmentDescriptorV2.
Proof. solve_decision. Defined.
#[global] Instance SparseWeightRowV2_eq_dec : EqDecision SparseWeightRowV2.
Proof. assert (EqDecision SparseWeightEntryV2) by solve_decision. solve_decision. Defined.
#[global] Instance DraftEvidenceV2_eq_dec : EqDecision DraftEvidenceV2.
Proof. solve_decision. Defined.
#[global] Instance RoundCoreV2_eq_dec : EqDecision RoundCoreV2.
Proof. solve_decision. Defined.
#[global] Instance AuthenticatedRoundV2_eq_dec : EqDecision AuthenticatedRoundV2.
Proof. solve_decision. Defined.
#[global] Instance ResultDecisionV2_eq_dec : EqDecision ResultDecisionV2.
Proof. solve_decision. Defined.
#[global] Instance ResultCoreV2_eq_dec : EqDecision ResultCoreV2.
Proof. solve_decision. Defined.
#[global] Instance AuthenticatedResultV2_eq_dec : EqDecision AuthenticatedResultV2.
Proof. solve_decision. Defined.
#[global] Instance RendererStageReceiptV2_eq_dec : EqDecision RendererStageReceiptV2.
Proof. solve_decision. Defined.
#[global] Instance ReservationRecordV2_eq_dec : EqDecision ReservationRecordV2.
Proof. solve_decision. Defined.
#[global] Instance PreparedRecordV2_eq_dec : EqDecision PreparedRecordV2.
Proof. solve_decision. Defined.
#[global] Instance StagedRecordV2_eq_dec : EqDecision StagedRecordV2.
Proof. solve_decision. Defined.
#[global] Instance CommitRecordV2_eq_dec : EqDecision CommitRecordV2.
Proof. solve_decision. Defined.
#[global] Instance ActiveRecordV2_eq_dec : EqDecision ActiveRecordV2.
Proof. solve_decision. Defined.
#[global] Instance AckRecordV2_eq_dec : EqDecision AckRecordV2.
Proof. solve_decision. Defined.
#[global] Instance TombstoneRecordV2_eq_dec : EqDecision TombstoneRecordV2.
Proof. solve_decision. Defined.
#[global] Instance Payload_eq_dec : EqDecision Payload.
Proof. solve_decision. Defined.
#[global] Instance JournalEnvelopeV2_eq_dec : EqDecision JournalEnvelopeV2.
Proof. solve_decision. Defined.

(** ** The code outside the repository. *)
Class VerifierCode := {
  MacKey : Type;
  TargetSigningKey : Type;
  canonical : Document -> str;
  sha256_hex : str -> str;
  tag_domain_hex : MacKey -> str -> str -> option str;
  verify_domain_hex : MacKey -> str -> str -> str -> bool;
  public_key : TargetSigningKey -> str;
  ed25519_sign : TargetSigningKey -> str -> str;
  ed25519_verify : str -> str -> str -> bool;
}.

(** ** Names, digests and hexadecimal. *)
Definition is_hex_digit (b : byte) : bool := in_range 0x30 0x39 b || in_range 0x61 0x66 b.
Definition is_digest (digest : str) : bool := (zlen digest =? 64) && forallb is_hex_digit digest.
Definition validate_digest (name : string) (digest : str) : checked unit :=
  if negb (is_digest digest) then invalid (name ++ " is not lowercase SHA-256") else Ok tt.
Definition identifier_byte (b : byte) : bool :=
  in_range 0x30 0x39 b || in_range 0x41 0x5A b || in_range 0x61 0x7A b || bool_decide (b ∈ string_bytes "._:-").
Definition is_identifier (value : str) : bool :=
  negb (bool_decide (value = [])) && (zlen value <=? 128) && forallb identifier_byte value.
Definition validate_identifier (name : string) (value : str) : checked unit :=
  if negb (is_identifier value) then invalid (name ++ " is invalid") else Ok tt.

Definition nibble_digit (n : Z) : byte := byte_of_Z (if n <? 10 then 0x30 + n else 0x57 + n).
Definition hex_encode (bytes : str) : str :=
  bytes ≫= fun b => [nibble_digit (Z.shiftr (Z_of_byte b) 4); nibble_digit (Z.land (Z_of_byte b) 0x0f)].
Definition hex_value (b : byte) : Z := if Z_of_byte b <? 0x3A then Z_of_byte b - 0x30 else Z_of_byte b - 0x57.
Fixpoint hex_pairs (value : str) : str :=
  match value with
  | high :: low :: value => byte_of_Z (16 * hex_value high + hex_value low) :: hex_pairs value
  | _ => []
  end.
Definition hex_decode (value : str) (expected_bytes : Z) : checked str :=
  if negb (zlen value =? expected_bytes * 2) || negb (forallb is_hex_digit value) then Err Authentication
  else Ok (hex_pairs value).

Fixpoint validate_all {A} (check : string -> A -> checked unit) (named : list (string * A)) : checked unit :=
  match named with
  | [] => Ok tt
  | (name, value) :: named => let? _ := check name value in validate_all check named
  end.
Definition zero_digest : str := replicate 64 "0"%byte.

Section Protocol.
Context `{VerifierCode}.

Definition token_digest (tokens : list Z) : str := sha256_hex (tokens ≫= to_le_bytes 4).

(** ** Sessions. *)
Definition validate_composite (c : CompositeIdentityV2) : checked unit :=
  let? _ := validate_all validate_digest
    [("semantic product"%string, semantic_product_sha256 c); ("prefix checkpoint"%string, prefix_checkpoint_sha256 c);
     ("target checkpoint"%string, target_checkpoint_sha256 c); ("target engine"%string, target_engine_sha256 c);
     ("target sampler"%string, target_sampler_sha256 c); ("draft checkpoint"%string, draft_checkpoint_sha256 c);
     ("draft engine"%string, draft_engine_sha256 c); ("tokenizer"%string, tokenizer_sha256 c);
     ("vocabulary"%string, vocabulary_sha256 c); ("target genesis"%string, target_genesis_root_sha256 c);
     ("draft genesis"%string, draft_genesis_root_sha256 c)] in
  validate_identifier "portable KV ABI" (portable_kv_abi c).

Definition from_mt (snapshot : Mt19937Snapshot) : checked SamplerStateV2 :=
  if U32_MAX <? snap_index snapshot then invalid "MT index overflow"
  else if (zlen (snap_state snapshot) =? 624) && (snap_index snapshot <=? 624)
       then Ok (MtState (snap_state snapshot) (snap_index snapshot))
       else invalid "sampler state geometry or implementation differs".
Definition to_mt (sampler : SamplerStateV2) : checked Mt19937 :=
  match sampler with
  | MtState state index => ok_or (from_snapshot (mkMtSnapshot state index)) (Validation "invalid MT19937 snapshot")
  | Stateless _ => invalid "sampler state is not MT19937"
  end.
Definition validate_sampler (sampler : SamplerStateV2) : checked unit :=
  match sampler with
  | Stateless implementation =>
      if bool_decide (implementation = STATELESS_SAMPLER_V2) then Ok tt
      else invalid "sampler state geometry or implementation differs"
  | MtState state index =>
      if (zlen state =? 624) && (index <=? 624) then Ok tt else invalid "sampler state geometry or implementation differs"
  end.
Definition validate_sampler_for (sampler : SamplerStateV2) (policy : CouplingPolicyV2) : checked unit :=
  let? _ := validate_sampler sampler in
  match policy, sampler with
  | SparseMaximal _, MtState _ _ | (Greedy | SharedGumbel), Stateless _ => Ok tt
  | _, _ => invalid "sampler state does not match coupling policy"
  end.

Definition sampler_digest (sampler : SamplerStateV2) : str := sha256_hex (canonical (DocSampler sampler)).

Fixpoint requirements_from (seen : list (str * FragmentKindV2)) (requirements : list FragmentRequirementV2) : checked unit :=
  match requirements with
  | [] => Ok tt
  | r :: requirements =>
      let? _ := validate_identifier "fragment component" (r_component_id r) in
      let? _ := validate_identifier "fragment payload ABI" (r_payload_abi r) in
      if bool_decide ((r_component_id r, r_kind r) ∈ seen) || (r_bytes_per_logical_row r =? 0)
         || (MAX_FRAGMENT_BYTES_V2 <? r_bytes_per_logical_row r)
      then invalid "fragment requirement is duplicate or invalid"
      else requirements_from ((r_component_id r, r_kind r) :: seen) requirements
  end.
Definition validate_requirements (requirements : list FragmentRequirementV2) : checked unit :=
  if (zlen requirements =? 0) || (64 <? zlen requirements) then invalid "fragment requirement count differs"
  else requirements_from [] requirements.

Definition initial_frontier_fits (s : SessionCoreV2) : bool :=
  match coupling_policy s, initial_frontier s with
  | SparseMaximal max_support, Open token output_ordinal =>
      (0 <? max_support) && (max_support <=? MAX_SPARSE_SUPPORT_V2) && (token <? vocab_size s)
      && (output_ordinal =? initial_output_height s)
  | (Greedy | SharedGumbel), Open token output_ordinal =>
      (token <? vocab_size s) && (output_ordinal =? initial_output_height s)
  | _, _ => false
  end.
Definition bad_session_geometry (s : SessionCoreV2) (expected_key_id : str) (minimum_epoch : Z) : bool :=
  negb (bool_decide (hmac_key_id s = expected_key_id)) || (hmac_key_epoch s <? minimum_epoch) || (authority_term s =? 0)
  || (expires_unix_ms s <=? created_unix_ms s) || (vocab_size s =? 0) || (max_context_tokens s =? 0)
  || (MAX_CONTEXT_TOKENS_V2 <? max_context_tokens s) || bool_decide (initial_evaluated_tokens s = [])
  || (max_context_tokens s <? zlen (initial_evaluated_tokens s)) || (max_drafts s =? 0) || (MAX_DRAFTS_V2 <? max_drafts s)
  || (max_total_fragment_bytes s =? 0) || (MAX_TOTAL_FRAGMENT_BYTES_V2 <? max_total_fragment_bytes s)
  || bool_decide (target_public_key s = replicate 32 "000"%byte)
  || existsb (fun token => vocab_size s <=? token) (initial_evaluated_tokens s).
Definition validate_without_head (s : SessionCoreV2) (expected_key_id : str) (minimum_epoch : Z) : checked unit :=
  if negb (bool_decide (protocol s = VERIFIER_SESSION_PROTOCOL_V2)) then invalid "wrong session protocol"
  else
    let? _ := validate_all validate_identifier
      [("session id"%string, session_id s); ("client incarnation"%string, client_incarnation s);
       ("log writer"%string, log_writer_authority_id s); ("authority lease"%string, authority_lease_id s);
       ("target executor"%string, target_executor_id s); ("HMAC key id"%string, hmac_key_id s)] in
    if bad_session_geometry s expected_key_id minimum_epoch then invalid "invalid session lifetime or geometry"
    else if negb (initial_frontier_fits s) then invalid "invalid initial policy or frontier"
    else
      let? _ := validate_sampler_for (initial_sampler_state s) (coupling_policy s) in
      let? _ := validate_digest "sampler config" (sampler_config_sha256 s) in
      let? _ := validate_composite (identity s) in
      validate_requirements (fragment_requirements s).

Definition with_genesis (s : SessionCoreV2) (head : str) : SessionCoreV2 :=
  mkSessionCore (protocol s) (session_id s) (client_incarnation s) (log_writer_authority_id s) (authority_lease_id s)
    (authority_term s) (target_executor_id s) (target_public_key s) (created_unix_ms s) (expires_unix_ms s) (hmac_key_id s)
    (hmac_key_epoch s) (identity s) (coupling_policy s) (sampler_config_sha256 s) (vocab_size s) (max_context_tokens s)
    (max_drafts s) (max_total_fragment_bytes s) (initial_evaluated_tokens s) (initial_output_height s) (initial_frontier s)
    (initial_sampler_state s) (fragment_requirements s) head.
Definition genesis_digest (s : SessionCoreV2) : str := sha256_hex (canonical (DocSession (with_genesis s zero_digest))).
Definition validate_session (s : SessionCoreV2) (expected_key_id : str) (minimum_epoch : Z) : checked unit :=
  let? _ := validate_without_head s expected_key_id minimum_epoch in
  let? _ := validate_digest "genesis head" (genesis_head_sha256 s) in
  if negb (bool_decide (genesis_head_sha256 s = genesis_digest s))
  then invalid "session genesis head is not derived from genesis state" else Ok tt.

Definition sign_session (s : SessionCoreV2) (key : MacKey) : checked AuthenticatedSessionV2 :=
  let core := with_genesis s zero_digest in
  let? _ := validate_without_head core (hmac_key_id core) (hmac_key_epoch core) in
  let core := with_genesis core (genesis_digest core) in
  let? tag := ok_or (tag_domain_hex key VERIFIER_SESSION_MAC_DOMAIN_V2 (canonical (DocSession core))) Authentication in
  Ok (mkSession core tag).
Definition verify_session_historical (s : AuthenticatedSessionV2) (key : MacKey) (expected_key_id : str) (minimum_epoch : Z) :
    checked unit :=
  let? _ := validate_session (s_core s) expected_key_id minimum_epoch in
  let? _ := validate_digest "session HMAC" (s_hmac_sha256 s) in
  if verify_domain_hex key VERIFIER_SESSION_MAC_DOMAIN_V2 (canonical (DocSession (s_core s))) (s_hmac_sha256 s)
  then Ok tt else Err Authentication.
Definition outside_lifetime (created expires now : Z) : bool :=
  (expires <? now) || (saturating_add 64 now MAX_CLOCK_SKEW_MS_V2 <? created).
Definition verify_session_live (s : AuthenticatedSessionV2) (key : MacKey) (now_unix_ms : Z) (expected_key_id : str)
    (minimum_epoch : Z) : checked unit :=
  let? _ := verify_session_historical s key expected_key_id minimum_epoch in
  if outside_lifetime (created_unix_ms (s_core s)) (expires_unix_ms (s_core s)) now_unix_ms
  then invalid "session is expired or created in the future" else Ok tt.
Definition session_record_digest (s : AuthenticatedSessionV2) : str := sha256_hex (canonical (DocSessionRecord s)).

(** ** Rows of draft weights. *)
Definition weight_value (entry : SparseWeightEntryV2) : f64 := as_f64 (f32_from_bits (weight_f32_bits entry)).
Fixpoint weight_total (vocab : Z) (seen : list Z) (total : f64) (entries : list SparseWeightEntryV2) : checked f64 :=
  match entries with
  | [] => Ok total
  | entry :: entries =>
      let weight := f32_from_bits (weight_f32_bits entry) in
      if (vocab <=? w_token entry) || bool_decide (w_token entry ∈ seen) || negb (finite_float weight) || not_positive weight
      then invalid "sparse weight row has an invalid entry"
      else weight_total vocab (w_token entry :: seen) (f64_add total (weight_value entry)) entries
  end.
Definition validate_weights (row : SparseWeightRowV2) (vocab max_support : Z) : checked f64 :=
  if negb (w_vocab_size row =? vocab) || bool_decide (length (w_entries row) = 0%nat) || (max_support <? zlen (w_entries row))
  then invalid "sparse weight row geometry differs"
  else
    let? total := weight_total vocab [] f64_zero (w_entries row) in
    if negb (finite_float total) || not_positive total then invalid "sparse weight row has invalid total" else Ok total.
Definition sample_row (row : SparseWeightRowV2) (rng : Mt19937) (vocab max_support : Z) : Mt19937 * checked Z :=
  match validate_weights row vocab max_support with
  | Err e => (rng, Err e)
  | Ok total =>
      let (rng, draw) := uniform_f64 rng in
      let target := f64_mul draw total in
      (rng, Ok (match first_reached (SFleb target) weight_value f64_zero (w_entries row) with
                | Some entry => w_token entry
                | None => default 0 (w_token <$> last (w_entries row))
                end))
  end.
Definition row_probabilities (row : SparseWeightRowV2) (vocab max_support : Z) : checked SparseProbabilityRow :=
  let? total := validate_weights row vocab max_support in
  let probabilities := mkProbabilityRow vocab
    (map (fun entry => mkProbability (w_token entry) (as_f32 (f64_div (weight_value entry) total))) (w_entries row)) in
  match validate_bounded probabilities max_support with
  | Ok _ => Ok probabilities
  | Err Geometry => invalid "draft/target speculative probability geometry differs"
  | Err _ => invalid "cannot sample empty or nonfinite logits"
  end.
(** The drafts are the tokens the rows yield from this generator; the generator after. *)
Fixpoint replay_drafts (rng : Mt19937) (rows : list SparseWeightRowV2) (drafts : list Z) (vocab max_support : Z) :
    checked Mt19937 :=
  match rows, drafts with
  | row :: rows, draft :: drafts =>
      let (rng, sampled) := sample_row row rng vocab max_support in
      let? token := sampled in
      if negb (token =? draft) then invalid "draft token was not sampled from its q row"
      else replay_drafts rng rows drafts vocab max_support
  | _, _ => Ok rng
  end.

(** ** Rounds. *)
Definition mac_domain (r : RoundCoreV2) : checked str :=
  if bool_decide (q_protocol r = VERIFIER_ROUND_PROTOCOL_V2) then Ok VERIFIER_ROUND_MAC_DOMAIN_V2
  else if bool_decide (q_protocol r = VERIFIER_ROUND_PROTOCOL_V3) then Ok VERIFIER_ROUND_MAC_DOMAIN_V3
  else invalid "wrong round protocol".
Definition compatible_protocol (r : RoundCoreV2) : bool :=
  (bool_decide (q_protocol r = VERIFIER_ROUND_PROTOCOL_V2) && bool_decide (intent r = Verify))
  || bool_decide (q_protocol r = VERIFIER_ROUND_PROTOCOL_V3).
Definition wrong_address (r : RoundCoreV2) (session : SessionCoreV2) : bool :=
  negb (compatible_protocol r) || negb (bool_decide (q_session_id r = session_id session))
  || negb (bool_decide (q_session_genesis_sha256 r = genesis_head_sha256 session))
  || negb (q_authority_term r =? authority_term session) || negb (bool_decide (q_hmac_key_id r = hmac_key_id session))
  || negb (q_hmac_key_epoch r =? hmac_key_epoch session) || (q_created_unix_ms r <? created_unix_ms session)
  || (q_expires_unix_ms r <=? q_created_unix_ms r) || (expires_unix_ms session <? q_expires_unix_ms r).
Definition wrong_transcript (r : RoundCoreV2) (session : SessionCoreV2) : bool :=
  negb (bool_decide (token_digest (base_evaluated_tokens r) = base_tokens_sha256 r))
  || (max_context_tokens session <? zlen (base_evaluated_tokens r))
  || existsb (fun token => vocab_size session <=? token) (base_evaluated_tokens r ++ draft_tokens r)
  || (max_drafts session <? zlen (draft_tokens r)).
Definition context_inputs (r : RoundCoreV2) : Z := match intent r with Verify => 1 + zlen (draft_tokens r) | Close _ => 0 end.
Definition wrong_length (r : RoundCoreV2) (session : SessionCoreV2) (generated : Z) : bool :=
  negb (zlen (base_evaluated_tokens r) =? saturating_add 64 (zlen (initial_evaluated_tokens session)) generated)
  || negb (bool_decide (initial_evaluated_tokens session `prefix_of` base_evaluated_tokens r))
  || match checked_add 64 (zlen (base_evaluated_tokens r)) (context_inputs r) with
     | Some end_ => max_context_tokens session <? end_
     | None => true
     end.
Definition validate_evidence (r : RoundCoreV2) (session : SessionCoreV2) : checked unit :=
  match coupling_policy session, draft_evidence r with
  | Greedy, NoEvidence =>
      if negb (bool_decide (base_sampler_state r = post_draft_sampler_state r))
      then invalid "greedy round changed stateless sampler state" else Ok tt
  | SharedGumbel, SharedGumbelEvidence witness_sha256 =>
      let? _ := validate_digest "shared-Gumbel witness" witness_sha256 in
      if negb (bool_decide (base_sampler_state r = post_draft_sampler_state r))
      then invalid "shared-Gumbel round changed stateless sampler state" else Ok tt
  | SparseMaximal max_support, SparseMaximalEvidence q_rows =>
      if negb (zlen q_rows =? zlen (draft_tokens r)) then invalid "sparse q row count differs from draft count"
      else
        let? rng := to_mt (base_sampler_state r) in
        let? rng := replay_drafts rng q_rows (draft_tokens r) (vocab_size session) max_support in
        let? after := from_mt (mt_snapshot rng) in
        if negb (bool_decide (after = post_draft_sampler_state r)) then invalid "post-draft MT snapshot does not replay" else Ok tt
  | _, _ => invalid "draft evidence does not match fixed session policy"
  end.
Definition validate_historical (r : RoundCoreV2) (session : SessionCoreV2) : checked unit :=
  if wrong_address r session then invalid "round addresses the wrong session or lifetime"
  else
    let? _ := validate_identifier "request id" (request_id r) in
    let? _ := validate_digest "base head" (base_head_sha256 r) in
    let? _ := validate_digest "base transcript" (base_tokens_sha256 r) in
    if wrong_transcript r session then invalid "round transcript or candidate geometry differs"
    else if base_output_height r <? initial_output_height session then invalid "round output precedes genesis"
    else if wrong_length r session (base_output_height r - initial_output_height session)
    then invalid "round transcript length or context limit differs"
    else match frontier_in r with
         | Closed _ => Err Terminal
         | Open token output_ordinal =>
             if (vocab_size session <=? token) || negb (output_ordinal =? base_output_height r)
             then invalid "round carried frontier differs"
             else
               let? _ := validate_sampler_for (base_sampler_state r) (coupling_policy session) in
               let? _ := validate_sampler_for (post_draft_sampler_state r) (coupling_policy session) in
               match intent r with
               | Close reason =>
                   if bool_decide (reason = Eos) || negb (bool_decide (draft_tokens r = []))
                      || negb (bool_decide (draft_evidence r = NoEvidence))
                      || negb (bool_decide (base_sampler_state r = post_draft_sampler_state r))
                   then invalid "close intent or sampler boundary differs" else Ok tt
               | Verify => validate_evidence r session
               end
         end.

Definition sign_round (core : RoundCoreV2) (session : SessionCoreV2) (key : MacKey) : checked AuthenticatedRoundV2 :=
  let? _ := validate_historical core session in
  let? domain := mac_domain core in
  let? tag := ok_or (tag_domain_hex key domain (canonical (DocRound core))) Authentication in
  Ok (mkRound core tag).
Definition verify_historical (r : AuthenticatedRoundV2) (session : SessionCoreV2) (key : MacKey) : checked unit :=
  let? _ := validate_historical (q_core r) session in
  let? _ := validate_digest "round HMAC" (q_hmac_sha256 r) in
  let? domain := mac_domain (q_core r) in
  if verify_domain_hex key domain (canonical (DocRound (q_core r))) (q_hmac_sha256 r) then Ok tt else Err Authentication.
Definition verify_live (r : AuthenticatedRoundV2) (session : SessionCoreV2) (key : MacKey) (now_unix_ms : Z) : checked unit :=
  let? _ := verify_historical r session key in
  if negb (bool_decide (q_protocol (q_core r) = VERIFIER_ROUND_PROTOCOL_V3))
  then invalid "round-v2 is historical-only; new live work requires round-v3"
  else if outside_lifetime (q_created_unix_ms (q_core r)) (q_expires_unix_ms (q_core r)) now_unix_ms
  then invalid "round is expired or created in the future" else Ok tt.
Definition intent_sha256 (r : AuthenticatedRoundV2) : str := sha256_hex (canonical (DocRound (q_core r))).

(** ** Decisions. *)
Definition accepted_of (d : ResultDecisionV2) : Z :=
  match d with DecisionOpen accepted_drafts _ | DecisionClosed _ accepted_drafts _ => Z.of_N accepted_drafts end.
Definition committed_input_count (d : ResultDecisionV2) : checked Z :=
  match d with
  | DecisionOpen accepted_drafts _ | DecisionClosed true accepted_drafts _ => Ok (Z.of_N accepted_drafts + 1)
  | DecisionClosed false accepted_drafts _ =>
      if Z.of_N accepted_drafts =? 0 then Ok 0 else invalid "terminal decision cannot accept drafts without its frontier"
  end.
Definition validate_for_intent (d : ResultDecisionV2) (protocol_ : str) (intent_ : RoundIntentV2)
    (base_sampler post_verify_sampler : SamplerStateV2) : checked unit :=
  if bool_decide (protocol_ = VERIFIER_ROUND_PROTOCOL_V2) && bool_decide (intent_ = Verify) then Ok tt
  else match intent_, d with
       | Verify, DecisionOpen _ _ => Ok tt
       | Verify, DecisionClosed true _ Eos => Ok tt
       | Verify, DecisionClosed _ _ _ => invalid "verify may close only on target-observed EOS"
       | Close requested, DecisionClosed false accepted_drafts returned =>
           if (Z.of_N accepted_drafts =? 0) && bool_decide (requested = returned) && bool_decide (base_sampler = post_verify_sampler)
           then Ok tt else invalid "result does not honor authenticated close intent"
       | Close _, _ => invalid "result does not honor authenticated close intent"
       end.

(** ** Fragments. *)
Fixpoint descriptors_from (index total : Z) (descriptors : list FragmentDescriptorV2) : checked Z :=
  match descriptors with
  | [] => Ok total
  | d :: descriptors =>
      let? _ := validate_identifier "fragment component" (component_id d) in
      let? _ := validate_identifier "fragment payload ABI" (payload_abi d) in
      let? _ := validate_digest "fragment" (sha256 d) in
      if negb (ordinal d =? index) || (logical_count d =? 0) || (bytes_per_logical_row d =? 0) || (byte_len d =? 0)
         || (MAX_FRAGMENT_BYTES_V2 <? byte_len d)
         || negb (bool_decide (checked_mul 64 (logical_count d) (bytes_per_logical_row d) = Some (byte_len d)))
      then invalid "fragment descriptor geometry differs"
      else
        let? total := ok_or (checked_add 64 total (byte_len d)) (Validation "fragment bytes overflow") in
        descriptors_from (index + 1) total descriptors
  end.
Definition validate_descriptors (descriptors : list FragmentDescriptorV2) (session_limit : Z) : checked unit :=
  if MAX_FRAGMENTS_V2 <? zlen descriptors then invalid "too many result fragments"
  else
    let? total := descriptors_from 0 0 descriptors in
    if (session_limit <? total) || (MAX_TOTAL_FRAGMENT_BYTES_V2 <? total) then invalid "fragment set exceeds byte limit" else Ok tt.

Definition meets (r : FragmentRequirementV2) (d : FragmentDescriptorV2) : bool :=
  bool_decide (component_id d = r_component_id r) && bool_decide (kind d = r_kind r).
(** The logical rows a requirement asks for: their start and count. *)
Definition demanded (r : FragmentRequirementV2) (committed : list Z) (request : RoundCoreV2) : Z * Z :=
  match intent request, coverage r with
  | Close _, _ => (base_output_height request, 0)
  | Verify, CommittedInputs => (base_output_height request, zlen committed)
  | Verify, FreshTargetRows => (wrapping_add 64 (base_output_height request) 1, wrapping_add 64 (zlen (draft_tokens request)) 1)
  | Verify, RoundSingleton => (base_output_height request, 1)
  end.
Fixpoint cover_from (cursor : Z) (rows : list FragmentDescriptorV2) : checked Z :=
  match rows with
  | [] => Ok cursor
  | d :: rows =>
      if negb (logical_start d =? cursor) then invalid "fragment logical coverage has a gap or overlap"
      else
        let? cursor := ok_or (checked_add 64 cursor (logical_count d)) (Validation "fragment logical range overflow") in
        cover_from cursor rows
  end.
Definition check_requirement (r : FragmentRequirementV2) (result_ : ResultCoreV2) (request : RoundCoreV2) : checked unit :=
  let rows := List.filter (meets r) (fragments result_) in
  let (start, count) := demanded r (committed_tokens result_) request in
  if bool_decide (rows = []) then
    if count =? 0 then Ok tt else if required r then invalid "required result component is absent" else Ok tt
  else if existsb (fun d => negb (bool_decide (payload_abi d = r_payload_abi r))
                            || negb (bytes_per_logical_row d =? r_bytes_per_logical_row r)) rows
  then invalid "fragment payload ABI differs from session"
  else
    let? cursor := cover_from start rows in
    if negb (cursor =? wrapping_add 64 start count) then invalid "fragment logical coverage is incomplete" else Ok tt.
Fixpoint check_requirements (rs : list FragmentRequirementV2) (result_ : ResultCoreV2) (request : RoundCoreV2) : checked unit :=
  match rs with
  | [] => Ok tt
  | r :: rs => let? _ := check_requirement r result_ request in check_requirements rs result_ request
  end.
Definition validate_closure_geometry (result_ : ResultCoreV2) (request : RoundCoreV2) (session : SessionCoreV2) : checked unit :=
  let? _ := check_requirements (fragment_requirements session) result_ request in
  if existsb (fun d => negb (existsb (fun r => meets r d) (fragment_requirements session))) (fragments result_)
  then invalid "result has an undeclared component" else Ok tt.
Definition fragment_set_digest (descriptors : list FragmentDescriptorV2) : str := sha256_hex (canonical (DocFragments descriptors)).

(** ** Results. *)
Definition transition_head (core : ResultCoreV2) : str :=
  sha256_hex (canonical (DocTransition
    (mkTransition VERIFIER_RESULT_PROTOCOL_V2 (a_session_id core) (a_session_genesis_sha256 core) (a_authority_term core)
       (a_base_head_sha256 core) (a_base_output_height core) (committed_tokens core) (new_output_height core)
       (new_evaluated_tokens_sha256 core) (new_frontier core) (post_verify_sampler_state core) (fragments_sha256 core)
       (request_intent_sha256 core)))).
Definition with_head (c : ResultCoreV2) (head : str) : ResultCoreV2 :=
  mkResultCore (a_protocol c) (a_session_id c) (a_session_genesis_sha256 c) (a_authority_term c) (a_target_executor_id c)
    (a_request_id c) (request_intent_sha256 c) (a_base_output_height c) (a_base_head_sha256 c) (decision c)
    (committed_tokens c) (new_output_height c) (new_evaluated_tokens_sha256 c) (new_frontier c)
    (post_verify_sampler_state c) (fragments_sha256 c) (fragments c) head (completed_unix_ms c).
Definition sign_result (core : ResultCoreV2) (signer : TargetSigningKey) : AuthenticatedResultV2 :=
  mkResult core (hex_encode (ed25519_sign signer (canonical (DocResult core)))).
Definition record_digest (r : AuthenticatedResultV2) : str := sha256_hex (canonical (DocResultRecord r)).

(** The carried frontier and the accepted drafts, unless the round closes before evaluating them. *)
Definition expected_committed (count frontier accepted : Z) (drafts : list Z) : list Z :=
  if count =? 0 then [] else frontier :: take (Z.to_nat accepted) drafts.
Definition wrong_answer (core : ResultCoreV2) (request : AuthenticatedRoundV2) (session : SessionCoreV2)
    (output_ordinal : Z) (committed : list Z) (height : Z) : bool :=
  negb (bool_decide (a_protocol core = VERIFIER_RESULT_PROTOCOL_V2)) || negb (bool_decide (a_session_id core = session_id session))
  || negb (bool_decide (a_session_genesis_sha256 core = genesis_head_sha256 session))
  || negb (a_authority_term core =? authority_term session)
  || negb (bool_decide (a_target_executor_id core = target_executor_id session))
  || negb (bool_decide (a_request_id core = request_id (q_core request)))
  || negb (bool_decide (request_intent_sha256 core = intent_sha256 request))
  || negb (a_base_output_height core =? base_output_height (q_core request))
  || negb (bool_decide (a_base_head_sha256 core = base_head_sha256 (q_core request)))
  || negb (output_ordinal =? a_base_output_height core) || negb (bool_decide (committed_tokens core = committed))
  || negb (new_output_height core =? height) || (completed_unix_ms core <? q_created_unix_ms (q_core request))
  || (q_expires_unix_ms (q_core request) <? completed_unix_ms core).
Definition frontier_follows (d : ResultDecisionV2) (frontier : FrontierV2) (vocab height : Z) : bool :=
  match d, frontier with
  | DecisionOpen _ frontier_out, Open token output_ordinal =>
      (frontier_out =? token) && (token <? vocab) && (output_ordinal =? height)
  | DecisionClosed _ _ reason, Closed frontier_reason => bool_decide (reason = frontier_reason)
  | _, _ => false
  end.
Definition verify_against (answer : AuthenticatedResultV2) (request : AuthenticatedRoundV2) (session : SessionCoreV2) : checked unit :=
  let? signature := hex_decode (target_signature_hex answer) 64 in
  let core := a_core answer in
  if negb (ed25519_verify (target_public_key session) (canonical (DocResult core)) signature) then Err Authentication
  else
    let? _ := validate_for_intent (decision core) (q_protocol (q_core request)) (intent (q_core request))
                (base_sampler_state (q_core request)) (post_verify_sampler_state core) in
    let accepted := accepted_of (decision core) in
    match frontier_in (q_core request) with
    | Closed _ => Err Terminal
    | Open frontier output_ordinal =>
        if zlen (draft_tokens (q_core request)) <? accepted then invalid "accepted draft count exceeds request"
        else
          let? count := committed_input_count (decision core) in
          let committed := expected_committed count frontier accepted (draft_tokens (q_core request)) in
          let? height := ok_or (checked_add 64 (base_output_height (q_core request)) (zlen committed))
                               (Validation "result height overflow") in
          if wrong_answer core request session output_ordinal committed height
          then invalid "result does not match its authenticated request"
          else if negb (frontier_follows (decision core) (new_frontier core) (vocab_size session) height)
          then invalid "result terminal/frontier transition differs"
          else
            let? _ := validate_sampler_for (post_verify_sampler_state core) (coupling_policy session) in
            let? _ := validate_digest "new transcript" (new_evaluated_tokens_sha256 core) in
            if negb (bool_decide (token_digest (base_evaluated_tokens (q_core request) ++ committed_tokens core)
                                  = new_evaluated_tokens_sha256 core))
            then invalid "result transcript commitment differs"
            else
              let? _ := validate_descriptors (fragments core) (max_total_fragment_bytes session) in
              let? _ := validate_closure_geometry core (q_core request) session in
              if negb (bool_decide (fragment_set_digest (fragments core) = fragments_sha256 core))
              then invalid "result fragment commitment differs"
              else if negb (bool_decide (new_head_sha256 core = transition_head core))
              then invalid "result head transition differs" else Ok tt
    end.

Definition build_result (request : AuthenticatedRoundV2) (session : SessionCoreV2) (d : ResultDecisionV2)
    (post_verify_sampler : SamplerStateV2) (fragments_ : list FragmentDescriptorV2) (completed_unix_ms_ : Z)
    (signer : TargetSigningKey) : checked AuthenticatedResultV2 :=
  let q := q_core request in
  let? _ := validate_for_intent d (q_protocol q) (intent q) (base_sampler_state q) post_verify_sampler in
  let accepted := accepted_of d in
  match frontier_in q with
  | Closed _ => Err Terminal
  | Open frontier _ =>
      if (zlen (draft_tokens q) <? accepted) || (q_expires_unix_ms q <? completed_unix_ms_)
      then invalid "target decision or completion time differs"
      else
        let? _ := validate_sampler_for post_verify_sampler (coupling_policy session) in
        let? count := committed_input_count d in
        let committed := expected_committed count frontier accepted (draft_tokens q) in
        let? height := ok_or (checked_add 64 (base_output_height q) (zlen committed)) (Validation "result height overflow") in
        let frontier_ := match d with
                         | DecisionOpen _ frontier_out => Open frontier_out height
                         | DecisionClosed _ _ reason => Closed reason
                         end in
        let core := mkResultCore VERIFIER_RESULT_PROTOCOL_V2 (session_id session) (genesis_head_sha256 session)
                      (authority_term session) (target_executor_id session) (request_id q) (intent_sha256 request)
                      (base_output_height q) (base_head_sha256 q) d committed height
                      (token_digest (base_evaluated_tokens q ++ committed)) frontier_ post_verify_sampler
                      (fragment_set_digest fragments_) fragments_ zero_digest completed_unix_ms_ in
        let answer := sign_result (with_head core (transition_head core)) signer in
        let? _ := verify_against answer request session in
        Ok answer
  end.

(** ** Closures. *)
Record VerifiedFragmentV2 : Type := mkVerifiedFragment { descriptor : FragmentDescriptorV2; payload : str }.
Record VerifiedClosureV2 : Type := mkClosure { cl_result_sha256 : str; cl_fragments : list VerifiedFragmentV2 }.
Definition verify_result (closure : VerifiedClosureV2) (answer : AuthenticatedResultV2) : checked unit :=
  if negb (bool_decide (cl_result_sha256 closure = record_digest answer))
     || negb (Nat.eqb (length (cl_fragments closure)) (length (fragments (a_core answer))))
     || existsb (fun p => negb (bool_decide (descriptor p.1 = p.2))) (zip (cl_fragments closure) (fragments (a_core answer)))
  then invalid "verified closure belongs to a different result" else Ok tt.

Record FragmentAssemblerV2 : Type := mkAssembler {
  as_result_sha256 : str; descriptors : list FragmentDescriptorV2; payloads : list (option str) }.
Definition assembler_new (answer : AuthenticatedResultV2) (request : AuthenticatedRoundV2) (session : SessionCoreV2) :
    checked FragmentAssemblerV2 :=
  let? _ := verify_against answer request session in
  Ok (mkAssembler (record_digest answer) (fragments (a_core answer)) (replicate (length (fragments (a_core answer))) None)).
Definition insert_fragment (a : FragmentAssemblerV2) (ordinal_ : Z) (bytes : str) : FragmentAssemblerV2 * checked bool :=
  match descriptors a !! Z.to_nat ordinal_ with
  | None => (a, invalid "fragment ordinal is out of range")
  | Some d =>
      if negb (zlen bytes =? byte_len d) || negb (bool_decide (sha256_hex bytes = sha256 d))
      then (a, invalid "fragment payload digest or length differs")
      else match payloads a !! Z.to_nat ordinal_ with
           | Some (Some existing) =>
               if negb (bool_decide (existing = bytes)) then (a, invalid "duplicate fragment has different bytes")
               else (a, Ok false)
           | _ => (mkAssembler (as_result_sha256 a) (descriptors a) (<[Z.to_nat ordinal_ := Some bytes]> (payloads a)), Ok true)
           end
  end.
Definition missing_ordinals (a : FragmentAssemblerV2) : list Z :=
  omap (fun p => match p.2 with None => Some (Z.of_nat p.1) | Some _ => None end) (enumerate (payloads a)).
Definition finish (a : FragmentAssemblerV2) : checked VerifiedClosureV2 :=
  if existsb (fun p => match p with None => true | Some _ => false end) (payloads a) then Err Incomplete
  else Ok (mkClosure (as_result_sha256 a)
             (zip_with (fun d p => mkVerifiedFragment d (default [] p)) (descriptors a) (payloads a))).

Definition validate_stage_receipt (receipt : RendererStageReceiptV2) (answer : AuthenticatedResultV2) : checked unit :=
  let? _ := validate_digest "renderer result" (rr_result_sha256 receipt) in
  let? _ := validate_digest "renderer root" (render_root_sha256 receipt) in
  let? _ := validate_identifier "renderer stage token" (stage_token receipt) in
  if negb (bool_decide (rr_result_sha256 receipt = record_digest answer))
     || negb (bool_decide (render_root_sha256 receipt = fragments_sha256 (a_core answer)))
  then invalid "renderer stage belongs to a different result" else Ok tt.

End Protocol.
