(* ===== verification/VerifierProofs.v ===== *)
(** * What a verified result fixes, and how its fragments are assembled. *)
From Stdlib Require Import Strings.Byte.
From S2P Require Import Prelude Utf8 Sampling Float64 Verifier.

Lemma guard_ok {A} (b : bool) (e : VerifierV2Error) (k : checked A) (a : A) :
  (if b then Err e else k) = Ok a -> b = false /\ k = Ok a.
Proof. by destruct b. Qed.
Lemma bind_ok {A B} (m : checked A) (k : A -> checked B) b :
  (let? x := m in k x) = Ok b -> exists x, m = Ok x /\ k x = Ok b.
Proof. destruct m; [eauto|done]. Qed.
Lemma ok_or_ok {A} (o : option A) (e : VerifierV2Error) a : ok_or o e = Ok a <-> o = Some a.
Proof. unfold ok_or. destruct o; naive_solver. Qed.
(** Peel the checks of a handler that returned [Ok]. *)
Ltac peel H :=
  unfold invalid in H;
  repeat match type of H with
  | (if _ then Err _ else _) = Ok _ =>
      let K := fresh "Kc" in apply guard_ok in H as [K H]
  | match ?m with Ok _ => _ | Err _ => _ end = Ok _ =>
      let x := fresh "x" in let K := fresh "Km" in apply bind_ok in H as (x & K & H)
  end.

(** The laws of the code outside. *)
Class VerifierLaws `{VerifierCode} := {
  sha256_hex_digest bytes : is_digest (sha256_hex bytes) = true;
  tag_digest k domain message tag : tag_domain_hex k domain message = Some tag -> is_digest tag = true;
  tag_verifies k domain message tag :
    tag_domain_hex k domain message = Some tag -> verify_domain_hex k domain message tag = true;
  signature_length signer message : length (ed25519_sign signer message) = 64%nat;
  signature_verifies signer message : ed25519_verify (public_key signer) message (ed25519_sign signer message) = true;
}.

(** ** Hexadecimal. *)
Lemma hex_digit_spec n : 0 <= n < 16 -> is_hex_digit (nibble_digit n) = true /\ hex_value (nibble_digit n) = n.
Proof.
  intros Hn. assert (forallb (fun k => is_hex_digit (nibble_digit k) && (hex_value (nibble_digit k) =? k)) (map Z.of_nat (seq 0 16)) = true)
    as Hall by reflexivity.
  rewrite forallb_forall in Hall.
  specialize (Hall n). rewrite andb_true_iff, Z.eqb_eq in Hall. apply Hall.
  apply in_map_iff. exists (Z.to_nat n). split; [lia|]. apply in_seq. lia.
Qed.
Lemma nibbles b : 0 <= Z.shiftr (Z_of_byte b) 4 < 16 /\ 0 <= Z.land (Z_of_byte b) 0x0f < 16 /\
  16 * Z.shiftr (Z_of_byte b) 4 + Z.land (Z_of_byte b) 0x0f = Z_of_byte b.
Proof.
  pose proof (Z_of_byte_range b). change 0x0f with (Z.ones 4). rewrite Z.land_ones, Z.shiftr_div_pow2 by lia.
  change (2 ^ 4) with 16. pose proof (Z.div_mod (Z_of_byte b) 16 ltac:(lia)). pose proof (Z.mod_pos_bound (Z_of_byte b) 16).
  repeat split; lia.
Qed.
Lemma hex_encode_cons b bytes : hex_encode (b :: bytes) =
  nibble_digit (Z.shiftr (Z_of_byte b) 4) :: nibble_digit (Z.land (Z_of_byte b) 0x0f) :: hex_encode bytes.
Proof. reflexivity. Qed.
Lemma hex_encode_shape bytes : zlen (hex_encode bytes) = zlen bytes * 2 /\ forallb is_hex_digit (hex_encode bytes) = true.
Proof.
  induction bytes as [|b bytes [IHl IHd]]; [done|]. rewrite hex_encode_cons. destruct (nibbles b) as (Hhi & Hlo & _).
  rewrite !zlen_cons, IHl. split; [lia|]. cbn [forallb]. rewrite IHd. by rewrite (proj1 (hex_digit_spec _ Hhi)), (proj1 (hex_digit_spec _ Hlo)).
Qed.
Lemma hex_decode_encode bytes n : zlen bytes = n -> hex_decode (hex_encode bytes) n = Ok bytes.
Proof.
  intros <-. unfold hex_decode. destruct (hex_encode_shape bytes) as [-> ->]. rewrite Z.eqb_refl. cbn [negb orb]. f_equal.
  induction bytes as [|b bytes IH]; [done|]. rewrite hex_encode_cons. cbn [hex_pairs]. rewrite IH.
  destruct (nibbles b) as (Hhi & Hlo & Hsum). rewrite (proj2 (hex_digit_spec _ Hhi)), (proj2 (hex_digit_spec _ Hlo)), Hsum.
  by rewrite byte_of_Z_of_byte.
Qed.

#[local] Opaque zero_digest VERIFIER_RESULT_PROTOCOL_V2.

Section Proofs.
Context `{VerifierCode}.

(** ** A verified result. *)
(** The core [build_result] makes, before it is signed. *)
Definition core_for (request : AuthenticatedRoundV2) (s : SessionCoreV2) (d : ResultDecisionV2) (post : SamplerStateV2)
    (fs : list FragmentDescriptorV2) (completed frontier count height : Z) : ResultCoreV2 :=
  let q := q_core request in
  let committed := expected_committed count frontier (accepted_of d) (draft_tokens q) in
  let core := mkResultCore VERIFIER_RESULT_PROTOCOL_V2 (session_id s) (genesis_head_sha256 s) (authority_term s)
    (target_executor_id s) (request_id q) (intent_sha256 request) (base_output_height q) (base_head_sha256 q) d committed height
    (token_digest (base_evaluated_tokens q ++ committed))
    (match d with DecisionOpen _ frontier_out => Open frontier_out height | DecisionClosed _ _ reason => Closed reason end)
    post (fragment_set_digest fs) fs zero_digest completed in
  with_head core (transition_head core).

Lemma frontier_follows_eq d f vocab height :
  frontier_follows d f vocab height = true ->
  f = match d with DecisionOpen _ frontier_out => Open frontier_out height | DecisionClosed _ _ reason => Closed reason end.
Proof. destruct d, f; cbn; intros; bool_prop; by subst. Qed.

(** A result is verified only if its core is the one [build_result] makes of its decision. *)
Lemma verified_core answer request s : verify_against answer request s = Ok tt ->
  exists frontier ordinal_ count height, let c := a_core answer in let q := q_core request in
    frontier_in q = Open frontier ordinal_ /\ committed_input_count (decision c) = Ok count /\
    checked_add 64 (base_output_height q) (zlen (committed_tokens c)) = Some height /\
    c = core_for request s (decision c) (post_verify_sampler_state c) (fragments c) (completed_unix_ms c) frontier count height.
Proof.
  unfold verify_against. intros Hv. peel Hv.
  destruct (frontier_in (q_core request)) as [frontier ordinal_|] eqn:Hf; [|done]. peel Hv.
  match goal with K : wrong_answer _ _ _ _ _ _ = false |- _ => unfold wrong_answer in K end.
  bool_prop.
  match goal with K : ok_or _ _ = Ok _ |- _ => apply ok_or_ok in K end.
  match goal with K : frontier_follows _ _ _ _ = true |- _ => apply frontier_follows_eq in K end.
  match goal with Kn : committed_input_count _ = Ok ?n, Kh : checked_add _ _ _ = Some ?h |- _ => exists frontier, ordinal_, n, h end.
  cbn zeta. repeat split; [done| |].
  - by match goal with K : committed_tokens _ = _ |- _ => rewrite K end.
  - destruct (a_core answer). unfold core_for. cbn in *. subst. unfold with_head. cbn.
    f_equal; try congruence.
    match goal with K : new_head_sha256 = _ |- _ => rewrite K end. unfold transition_head. cbn. congruence.
Qed.

(** The checks behind the signature. *)
Lemma verify_against_resigned c sig sig' bytes bytes' request s :
  hex_decode sig 64 = Ok bytes -> hex_decode sig' 64 = Ok bytes' ->
  ed25519_verify (target_public_key s) (canonical (DocResult c)) bytes' = true ->
  verify_against (mkResult c sig) request s = Ok tt -> verify_against (mkResult c sig') request s = Ok tt.
Proof.
  intros Hd Hd' Hs Hv. unfold verify_against in *. cbn [a_core target_signature_hex] in *. rewrite Hd in Hv. rewrite Hd', Hs.
  cbn [negb]. by destruct (negb (ed25519_verify _ _ bytes)).
Qed.

Lemma build_core_for request s c ordinal_ signer frontier count height :
  verify_against (sign_result c signer) request s = Ok tt ->
  frontier_in (q_core request) = Open frontier ordinal_ -> committed_input_count (decision c) = Ok count ->
  checked_add 64 (base_output_height (q_core request)) (zlen (committed_tokens c)) = Some height ->
  c = core_for request s (decision c) (post_verify_sampler_state c) (fragments c) (completed_unix_ms c) frontier count height ->
  build_result request s (decision c) (post_verify_sampler_state c) (fragments c) (completed_unix_ms c) signer = Ok (sign_result c signer).
Proof.
  intros Hverified Hf Hcount Hheight Hc. pose proof Hverified as Hv.
  unfold verify_against in Hv. cbn [sign_result a_core target_signature_hex] in Hv. peel Hv.
  rewrite Hf in Hv. peel Hv. repeat match goal with u : unit |- _ => destruct u end.
  match goal with K : wrong_answer _ _ _ _ _ _ = false |- _ => unfold wrong_answer in K end. bool_prop.
  assert (committed_tokens c = expected_committed count frontier (accepted_of (decision c)) (draft_tokens (q_core request))) as Hcommitted
    by (rewrite Hc at 1; reflexivity).
  rewrite Hcommitted in Hheight.
  unfold build_result. rewrite Hf.
  match goal with K : validate_for_intent _ _ _ _ _ = Ok _ |- _ => rewrite K end.
  match goal with K : validate_sampler_for _ _ = Ok _ |- _ => rewrite K end.
  rewrite Hcount, Hheight. cbn [ok_or].
  replace ((zlen (draft_tokens (q_core request)) <? accepted_of (decision c)) || (q_expires_unix_ms (q_core request) <? completed_unix_ms c))
    with false by (symmetry; apply orb_false_iff; split; apply Z.ltb_ge; lia).
  change (with_head _ _) with (core_for request s (decision c) (post_verify_sampler_state c) (fragments c) (completed_unix_ms c) frontier count height).
  rewrite <- Hc. by rewrite Hverified.
Qed.

(** C39. A core verifies under some signature exactly when the target's builder makes it from some decision. *)
Theorem verified_iff_built `{!VerifierLaws} request s signer c : target_public_key s = public_key signer ->
  (exists signature, verify_against (mkResult c signature) request s = Ok tt) <->
  (exists d post fs completed, build_result request s d post fs completed signer = Ok (sign_result c signer)).
Proof.
  intros Hpk. split.
  - intros [signature Hv].
    assert (verify_against (sign_result c signer) request s = Ok tt) as Hv'.
    { pose proof Hv as Hp. unfold verify_against in Hp. peel Hp. eapply verify_against_resigned; [eassumption| | |eassumption].
      - apply hex_decode_encode. unfold zlen. by rewrite signature_length.
      - rewrite Hpk. apply signature_verifies. }
    destruct (verified_core _ _ _ Hv') as (frontier & ordinal_ & count & height & Hf & Hcount & Hheight & Hc). cbn in Hc.
    exists (decision c), (post_verify_sampler_state c), (fragments c), (completed_unix_ms c). by eapply build_core_for.
  - intros (d & post & fs & completed & Hb). unfold build_result in Hb. peel Hb.
    destruct (frontier_in (q_core request)) as [frontier ordinal_|]; [|done]. peel Hb.
    repeat match goal with u : unit |- _ => destruct u end.
    match goal with K : verify_against ?a _ _ = Ok tt |- _ => injection Hb as Hb'; rewrite Hb' in K; eexists; exact K end.
Qed.

(** ** Assembling fragments. *)
(** What a sequence of arrivals (ordinal and bytes) leaves in an assembler. *)
Definition receive (a : FragmentAssemblerV2) (arrival : Z * str) : FragmentAssemblerV2 := (insert_fragment a arrival.1 arrival.2).1.
Definition received (a : FragmentAssemblerV2) (arrivals : list (Z * str)) : FragmentAssemblerV2 := foldl receive a arrivals.
(** The arrival carries the bytes that descriptor [i] commits to. *)
Definition fits (i : nat) (d : FragmentDescriptorV2) (arrival : Z * str) : bool :=
  Nat.eqb (Z.to_nat arrival.1) i && (zlen arrival.2 =? byte_len d) && bool_decide (sha256_hex arrival.2 = sha256 d).
Definition first_fit (i : nat) (d : FragmentDescriptorV2) (arrivals : list (Z * str)) : option str :=
  snd <$> head (List.filter (fits i d) arrivals).

Lemma first_fit_snoc i d arrivals arrival : first_fit i d (arrivals ++ [arrival]) =
  match first_fit i d arrivals with Some b => Some b | None => if fits i d arrival then Some arrival.2 else None end.
Proof.
  unfold first_fit. rewrite List.filter_app. cbn [List.filter]. destruct (List.filter (fits i d) arrivals); [|done].
  by destruct (fits i d arrival).
Qed.
Lemma first_fit_some i d arrivals b : first_fit i d arrivals = Some b <->
  exists o k, List.filter (fits i d) arrivals = (o, b) :: k.
Proof.
  unfold first_fit. destruct (List.filter _ _) as [|[o b'] k]; cbn; [naive_solver|]. split; [intros [= ->]; eauto|naive_solver].
Qed.

Record assembling (a a0 : FragmentAssemblerV2) (arrivals : list (Z * str)) : Prop := {
  asm_result : as_result_sha256 a = as_result_sha256 a0;
  asm_descriptors : descriptors a = descriptors a0;
  asm_length : length (payloads a) = length (descriptors a0);
  asm_payloads i d : descriptors a0 !! i = Some d -> payloads a !! i = Some (first_fit i d arrivals);
}.
Lemma assembling_received a0 arrivals : payloads a0 = replicate (length (descriptors a0)) None ->
  assembling (received a0 arrivals) a0 arrivals.
Proof.
  intros Hempty. induction arrivals as [|[o b] arrivals IH] using rev_ind.
  - split; cbn; [done|done|by rewrite Hempty, length_replicate|].
    intros i d Hd. rewrite Hempty. apply lookup_replicate. split; [done|]. by eapply lookup_lt_Some.
  - unfold received in *. rewrite foldl_app. cbn [foldl]. set (a := foldl receive a0 arrivals) in *.
    destruct IH as [Hr Hd Hl Hp]. unfold receive, insert_fragment. cbn [fst snd]. rewrite Hd.
    destruct (descriptors a0 !! Z.to_nat o) as [d|] eqn:Ho; cbn [fst].
    2: { split; [done|done|done|]. intros i d' Hi. rewrite first_fit_snoc, (Hp i d') by done. f_equal.
         destruct (first_fit i d' arrivals); [done|]. unfold fits. cbn [fst snd]. destruct (Nat.eqb_spec (Z.to_nat o) i); [congruence|done]. }
    destruct (negb (zlen b =? byte_len d) || negb (bool_decide (sha256_hex b = sha256 d))) eqn:Hbad; cbn [fst].
    { split; [done|done|done|]. intros i d' Hi. rewrite first_fit_snoc, (Hp i d') by done. f_equal.
      destruct (first_fit i d' arrivals); [done|]. unfold fits. cbn [fst snd]. destruct (Nat.eqb_spec (Z.to_nat o) i) as [<-|]; [|done].
      simplify_eq. cbn. by destruct (zlen b =? byte_len d), (bool_decide (sha256_hex b = sha256 d)). }
    rewrite (Hp _ d Ho). apply orb_false_iff in Hbad as [Hlen Hsha]. apply negb_false_iff in Hlen, Hsha.
    destruct (first_fit (Z.to_nat o) d arrivals) as [existing|] eqn:Hfit.
    + assert (assembling a a0 (arrivals ++ [(o, b)])) as Hsame.
      { split; [done|done|done|]. intros i d' Hi. rewrite first_fit_snoc, (Hp i d') by done. f_equal.
        destruct (first_fit i d' arrivals) eqn:E; [done|]. unfold fits. cbn [fst snd]. destruct (Nat.eqb_spec (Z.to_nat o) i) as [<-|]; [|done].
        simplify_eq. }
      by destruct (negb (bool_decide (existing = b))).
    + cbn [fst]. split; cbn [as_result_sha256 descriptors payloads]; [done|done|by rewrite length_insert|].
      intros i d' Hi. rewrite first_fit_snoc. destruct (decide (i = Z.to_nat o)) as [->|Hne].
      * rewrite list_lookup_insert_eq by (rewrite Hl; by eapply lookup_lt_Some). simplify_eq. rewrite Hfit. unfold fits. cbn [fst snd].
        by rewrite Nat.eqb_refl, Hlen, Hsha.
      * rewrite list_lookup_insert_ne, (Hp i d') by done. f_equal. destruct (first_fit i d' arrivals); [done|].
        unfold fits. cbn [fst snd]. by destruct (Nat.eqb_spec (Z.to_nat o) i) as [<-|].
Qed.

(** No two arrivals carry different bytes for one fragment. *)
Definition consistent (descriptors_ : list FragmentDescriptorV2) (arrivals : list (Z * str)) : Prop :=
  forall i d x y, descriptors_ !! i = Some d -> x ∈ arrivals -> y ∈ arrivals -> fits i d x = true -> fits i d y = true -> x.2 = y.2.

Lemma first_fit_elem i d arrivals b : first_fit i d arrivals = Some b -> exists x, x ∈ arrivals /\ fits i d x = true /\ x.2 = b.
Proof.
  intros (o & k & Hk)%first_fit_some. assert (In (o, b) (List.filter (fits i d) arrivals)) as Hin by (rewrite Hk; by left).
  apply filter_In in Hin as [Hin Hfit]. exists (o, b). by rewrite list_elem_of_In.
Qed.
Lemma first_fit_is_some i d arrivals x : x ∈ arrivals -> fits i d x = true -> is_Some (first_fit i d arrivals).
Proof.
  intros Hx Hfit. apply list_elem_of_In in Hx. assert (In x (List.filter (fits i d) arrivals)) as Hin by by apply filter_In.
  unfold first_fit. destruct (List.filter _ _); [done|eauto].
Qed.
Lemma first_fit_permuted ds i d arrivals arrivals' : consistent ds arrivals -> ds !! i = Some d -> arrivals ≡ₚ arrivals' ->
  first_fit i d arrivals = first_fit i d arrivals'.
Proof.
  intros Hc Hd Hp. destruct (first_fit i d arrivals) as [b|] eqn:E, (first_fit i d arrivals') as [b'|] eqn:E'; [| | |done].
  - apply first_fit_elem in E as (x & Hx & Hfx & <-), E' as (y & Hy & Hfy & <-). f_equal. rewrite <- Hp in Hy. by eapply Hc.
  - apply first_fit_elem in E as (x & Hx & Hfx & <-). rewrite Hp in Hx. by destruct (first_fit_is_some i d arrivals' x Hx Hfx); congruence.
  - apply first_fit_elem in E' as (x & Hx & Hfx & <-). rewrite <- Hp in Hx. by destruct (first_fit_is_some i d arrivals x Hx Hfx); congruence.
Qed.

Lemma assembling_unique a a' a0 arrivals arrivals' : assembling a a0 arrivals -> assembling a' a0 arrivals' ->
  (forall i d, descriptors a0 !! i = Some d -> first_fit i d arrivals = first_fit i d arrivals') -> a = a'.
Proof.
  intros [Hr Hd Hl Hp] [Hr' Hd' Hl' Hp'] Hsame. destruct a as [r ds ps], a' as [r' ds' ps']. cbn in *. subst. f_equal.
  apply list_eq. intros i. destruct (descriptors a0 !! i) as [d|] eqn:E.
  - rewrite (Hp i d), (Hp' i d) by done. f_equal. by apply Hsame.
  - apply lookup_ge_None in E. rewrite !lookup_ge_None_2 by lia. done.
Qed.

(** A complete assembler finishes with the result's closure. *)
Lemma finish_complete a answer arrivals a0 : assembling a a0 arrivals ->
  as_result_sha256 a0 = record_digest answer -> descriptors a0 = fragments (a_core answer) ->
  (forall i d, descriptors a0 !! i = Some d -> is_Some (first_fit i d arrivals)) ->
  exists closure, finish a = Ok closure /\ verify_result closure answer = Ok tt /\
    forall f, f ∈ cl_fragments closure -> zlen (payload f) = byte_len (descriptor f) /\ sha256_hex (payload f) = sha256 (descriptor f).
Proof.
  intros [Hr Hd Hl Hp] Hsha Hds Hall. unfold finish.
  replace (existsb _ (payloads a)) with false.
  2: { symmetry. apply not_true_iff_false. intros ([b|] & Hb & Hn)%existsb_exists; [done|].
       apply list_elem_of_In, list_elem_of_lookup in Hb as [i Hi].
       destruct (lookup_lt_is_Some_2 (descriptors a0) i) as [d Hdi]; [rewrite <- Hl; by eapply lookup_lt_Some|].
       rewrite (Hp i d Hdi) in Hi. injection Hi as Hi. destruct (Hall i d Hdi); congruence. }
  eexists. split; [done|]. unfold verify_result. cbn [cl_result_sha256 cl_fragments]. rewrite Hr, Hsha, bool_decide_eq_true_2 by done.
  rewrite length_zip_with, Hd, Hl, Hds, Nat.min_id, Nat.eqb_refl. cbn [negb orb]. split.
  - case_match eqn:E; [|done]. exfalso. apply existsb_exists in E as ([f d] & Hin & Hne).
    apply list_elem_of_In, list_elem_of_lookup in Hin as [i Hi]. apply lookup_zip_with_Some in Hi as (f' & d' & [= -> ->] & Hf & Hdi).
    apply lookup_zip_with_Some in Hf as (d'' & p & -> & Hd'' & _). cbn in Hne. simplify_eq. by rewrite bool_decide_eq_true_2 in Hne.
  - intros f [i Hi]%list_elem_of_lookup. apply lookup_zip_with_Some in Hi as (d & p & -> & Hdi & Hpi). cbn.
    rewrite <- Hds in Hdi. rewrite (Hp i d Hdi) in Hpi. injection Hpi as <-. destruct (Hall i d Hdi) as [b Hb]. rewrite Hb. cbn.
    apply first_fit_elem in Hb as (x & _ & Hfit & <-). unfold fits in Hfit. by bool_prop.
Qed.
Lemma finish_incomplete a a0 arrivals i d : assembling a a0 arrivals -> descriptors a0 !! i = Some d ->
  first_fit i d arrivals = None -> finish a = Err Incomplete.
Proof.
  intros [Hr Hd Hl Hp] Hi Hnone. unfold finish. replace (existsb _ (payloads a)) with true; [done|].
  symmetry. apply existsb_exists. exists None. split; [|done]. apply list_elem_of_In, list_elem_of_lookup. exists i. by rewrite (Hp i d Hi), Hnone.
Qed.

(** C19. The fragments of a result arrive in any order, and some more than once; the closure is the
    same, and it is complete exactly when every fragment has come. *)
Theorem fragments_in_any_order answer request s a0 arrivals arrivals' : assembler_new answer request s = Ok a0 ->
  consistent (fragments (a_core answer)) arrivals -> arrivals ≡ₚ arrivals' ->
  finish (received a0 arrivals) = finish (received a0 arrivals') /\
  match finish (received a0 arrivals) with
  | Ok closure => verify_result closure answer = Ok tt /\
      forall f, f ∈ cl_fragments closure -> zlen (payload f) = byte_len (descriptor f) /\ sha256_hex (payload f) = sha256 (descriptor f)
  | Err e => e = Incomplete /\ exists i d, fragments (a_core answer) !! i = Some d /\ forall x, x ∈ arrivals -> fits i d x = false
  end.
Proof.
  intros Hnew Hc Hp. unfold assembler_new in Hnew. peel Hnew. injection Hnew as <-.
  set (a0 := mkAssembler _ _ _).
  assert (payloads a0 = replicate (length (descriptors a0)) None) as Hempty by done.
  pose proof (assembling_received a0 arrivals Hempty) as Ha. split.
  - f_equal. eapply assembling_unique; [exact Ha|by apply assembling_received|]. intros i d Hd. by eapply first_fit_permuted.
  - destruct (decide (Exists (fun e => first_fit e.1 e.2 arrivals = None) (enumerate (fragments (a_core answer))))) as [Hmiss|Hall].
    + apply Exists_exists in Hmiss as ([i d] & Hin & Hnone). unfold enumerate in Hin.
      apply list_elem_of_lookup in Hin as [k Hk]. apply lookup_zip_with_Some in Hk as (? & ? & [= -> ->] & Hk & Hd).
      apply lookup_seq in Hk as [-> Hk]. cbn in *.
      erewrite finish_incomplete by done. split; [done|]. exists k, x1. split; [done|]. intros y Hy. apply not_true_iff_false. intros Hfit.
      destruct (first_fit_is_some _ _ _ _ Hy Hfit); congruence.
    + destruct (finish_complete (received a0 arrivals) answer arrivals a0) as (closure & -> & Hv & Hf); try done.
      intros i d Hd. destruct (first_fit i d arrivals) eqn:E; [done|]. destruct Hall. apply Exists_exists. exists (i, d). split; [|done].
      apply list_elem_of_lookup. exists i. unfold enumerate. apply lookup_zip_with_Some. exists i, d. repeat split; [|done].
      apply lookup_seq. split; [done|]. by eapply lookup_lt_Some.
Qed.
End Proofs.

(** ** An instance.

    A toy digest, signature and MAC that satisfy the laws, a session, a round of two drafts, of
    which the target accepts one, and its fragment. *)
Definition toy_sha (bytes : str) : str :=
  hex_encode (to_le_bytes 32 (foldl (fun acc b => (acc * 257 + Z_of_byte b + 1) mod 2 ^ 256) 7 bytes)).
Definition toy_canonical (d : Document) : str :=
  match d with
  | DocSession c => "s"%byte :: session_id c
  | DocSessionRecord a => "S"%byte :: session_id (s_core a)
  | DocSampler _ => ["m"%byte]
  | DocRound c => "r"%byte :: request_id c
  | DocResult c => "a"%byte :: a_request_id c
  | DocResultRecord a => "A"%byte :: a_request_id (a_core a)
  | DocFragments fs => "f"%byte :: (fs ≫= sha256)
  | DocTransition t => "t"%byte :: h_new_evaluated_tokens_sha256 t
  | DocJournal u => "j"%byte :: u_kind u
  end.
#[export] Instance toy_code : VerifierCode := {|
  MacKey := unit;
  TargetSigningKey := unit;
  canonical := toy_canonical;
  sha256_hex := toy_sha;
  tag_domain_hex := fun _ domain message => Some (toy_sha (domain ++ message));
  verify_domain_hex := fun _ domain message tag => bool_decide (tag = toy_sha (domain ++ message));
  public_key := fun _ => replicate 32 "001"%byte;
  ed25519_sign := fun _ message => toy_sha message;
  ed25519_verify := fun _ message signature => bool_decide (signature = toy_sha message);
|}.
Lemma toy_sha_digest bytes : is_digest (toy_sha bytes) = true.
Proof.
  unfold is_digest, toy_sha. destruct (hex_encode_shape (to_le_bytes 32 (foldl (fun acc b => (acc * 257 + Z_of_byte b + 1) mod 2 ^ 256) 7 bytes)))
    as [-> ->]. unfold zlen. by rewrite length_to_le_bytes.
Qed.
#[export] Instance toy_laws : VerifierLaws.
Proof.
  split.
  - apply toy_sha_digest.
  - intros [] domain message tag [= <-]. apply toy_sha_digest.
  - intros [] domain message tag [= <-]. cbn. by apply bool_decide_eq_true_2.
  - intros [] message. cbn. pose proof (toy_sha_digest message) as Hd. unfold is_digest in Hd. bool_prop. unfold zlen in *. lia.
  - intros [] message. cbn. by apply bool_decide_eq_true_2.
Qed.

Definition toy_name (name : string) : str := string_bytes name.
Definition toy_core : SessionCoreV2 :=
  mkSessionCore VERIFIER_SESSION_PROTOCOL_V2 (toy_name "session-1") (toy_name "client-1") (toy_name "writer-1") (toy_name "lease-1") 1
    (toy_name "target-1") (replicate 32 "001"%byte) 1000 9000 (toy_name "key-1") 1
    (mkComposite zero_digest zero_digest zero_digest zero_digest zero_digest zero_digest zero_digest zero_digest zero_digest zero_digest
       zero_digest (toy_name "abi-1"))
    Greedy zero_digest 100 64 4 4096 [1; 2] 5 (Open 3 5) (Stateless STATELESS_SAMPLER_V2)
    [mkRequirement (toy_name "hidden") TargetHidden CommittedInputs (toy_name "abi-1") 1 true] zero_digest.
Definition toy_session : AuthenticatedSessionV2 :=
  match sign_session toy_core tt with Ok s => s | Err _ => mkSession toy_core [] end.
Definition toy_request : AuthenticatedRoundV2 :=
  let q := mkRoundCore VERIFIER_ROUND_PROTOCOL_V3 Verify (toy_name "session-1") (genesis_head_sha256 (s_core toy_session)) 1 (toy_name "round-1")
    2000 3000 (toy_name "key-1") 1 5 (genesis_head_sha256 (s_core toy_session)) [1; 2] (token_digest [1; 2]) (Open 3 5) [4; 6] NoEvidence
    (Stateless STATELESS_SAMPLER_V2) (Stateless STATELESS_SAMPLER_V2) in
  match sign_round q (s_core toy_session) tt with Ok r => r | Err _ => mkRound q [] end.
Definition toy_payload : str := string_bytes "kv".
Definition toy_fragment : FragmentDescriptorV2 :=
  mkDescriptor 0 (toy_name "hidden") TargetHidden 5 2 (toy_name "abi-1") 1 2 (toy_sha toy_payload).
Definition toy_signer : TargetSigningKey := tt.
Definition toy_result : AuthenticatedResultV2 :=
  sign_result (core_for toy_request (s_core toy_session) (DecisionOpen 1 7) (Stateless STATELESS_SAMPLER_V2) [toy_fragment] 2500 3 2 7) toy_signer.

Lemma verified_iff_built_witness :
  (exists signature, verify_against (mkResult (a_core toy_result) signature) toy_request (s_core toy_session) = Ok tt) /\
  (exists d post fs completed, build_result toy_request (s_core toy_session) d post fs completed toy_signer = Ok (sign_result (a_core toy_result) toy_signer)).
Proof.
  assert (exists signature, verify_against (mkResult (a_core toy_result) signature) toy_request (s_core toy_session) = Ok tt) as Hv
    by (exists (target_signature_hex toy_result); vm_compute; reflexivity).
  split; [exact Hv|].
  assert (target_public_key (s_core toy_session) = public_key toy_signer) as Hpk by (vm_compute; reflexivity).
  exact (proj1 (verified_iff_built toy_request (s_core toy_session) toy_signer (a_core toy_result) Hpk) Hv).
Defined.

(** A damaged copy, the fragment, and the fragment again. *)
Definition toy_arrivals : list (Z * str) := [(0, string_bytes "xx"); (0, toy_payload); (0, toy_payload)].
Definition toy_assembler : FragmentAssemblerV2 := mkAssembler (record_digest toy_result) [toy_fragment] [None].
Lemma toy_consistent : consistent [toy_fragment] toy_arrivals.
Proof.
  assert (forall x, x ∈ toy_arrivals -> forall i, fits i toy_fragment x = true -> x.2 = toy_payload) as Hone.
  { intros x Hx i. unfold toy_arrivals in Hx. rewrite !elem_of_cons in Hx. destruct Hx as [->|[->|[->|Hx%elem_of_nil]]]; [|done..].
    unfold fits. cbn [fst snd]. replace (bool_decide _) with false by (vm_compute; reflexivity). by rewrite andb_false_r. }
  intros [|i] d x y Hd Hx Hy Hfx Hfy; [|done]. injection Hd as <-. by rewrite (Hone x Hx _ Hfx), (Hone y Hy _ Hfy).
Qed.
Lemma fragments_in_any_order_witness :
  finish (received toy_assembler toy_arrivals) = finish (received toy_assembler (rev toy_arrivals)) /\
  is_ok (finish (received toy_assembler toy_arrivals)) = true.
Proof.
  assert (assembler_new toy_result toy_request (s_core toy_session) = Ok toy_assembler) as Hnew by (vm_compute; reflexivity).
  assert (fragments (a_core toy_result) = [toy_fragment]) as Hf by (vm_compute; reflexivity).
  assert (consistent (fragments (a_core toy_result)) toy_arrivals) as Hc by (rewrite Hf; apply toy_consistent).
  assert (toy_arrivals ≡ₚ rev toy_arrivals) as Hp by apply Permutation_rev.
  pose proof (fragments_in_any_order toy_result toy_request (s_core toy_session) toy_assembler toy_arrivals (rev toy_arrivals) Hnew Hc Hp) as Hall.
  destruct Hall as [Hsame _].
  split.
  - exact Hsame.
  - vm_compute.
    reflexivity.
Defined.
