(* ===== verification/VerifierJournal.v ===== *)
(** * The durable journal of the remote verifier.

    Models [DurableVerifierJournalV2] of [crates/muser-cluster/src/verifier_v2.rs]: the slots
    and fragments on disk, the state in memory, every operation on them, and the restore that
    rebuilds the memory from the disk.  How each file operation ends is an argument: a file is
    written, or not created, or left incomplete, or written without its directory being
    synced; so are the answers of the renderer and of the authority fence.  A slot's file
    name is the SHA-256 of its request's identifier.  File modes, the lock and the order in
    which several errors of one loop are found are not modelled. *)
From Stdlib Require Import Strings.Byte.
From S2P Require Import Prelude Utf8 Sampling Float64 Verifier.

(** ** The disk. *)
Inductive Directory : Type := Reservations | Prepared | Staged | Commits | Active | Acks | Tombstones.
#[global] Instance Directory_eq_dec : EqDecision Directory.
Proof. solve_decision. Defined.
(** A journal file: an envelope, or [None] when it was left incomplete. *)
Abbreviation File := (option JournalEnvelopeV2).
Record Disk : Type := mkDisk {
  session_file : option (option AuthenticatedSessionV2);
  slots : Directory -> gmap str File;
  cas : gmap str str;
}.
Definition set_slot (dir : Directory) (path : str) (file : option File) (d : Disk) : Disk :=
  mkDisk (session_file d)
    (fun dir' => if decide (dir' = dir) then partial_alter (fun _ => file) path (slots d dir) else slots d dir') (cas d).
Definition set_fragment (digest : str) (bytes : option str) (d : Disk) : Disk :=
  mkDisk (session_file d) (slots d) (partial_alter (fun _ => bytes) digest (cas d)).
Definition blank_disk : Disk := mkDisk None (fun _ => ∅) ∅.

(** How [write_exclusive] ends. *)
Inductive WriteOutcome : Type := Done | Absent | Torn | Unsynced.
#[global] Instance WriteOutcome_eq_dec : EqDecision WriteOutcome.
Proof. solve_decision. Defined.
Definition io {A} : checked A := Err (Io "write").

(** ** The state in memory. *)
Section Journal.
Context `{VerifierCode}.

(** The current parent. *)
Record Head : Type := mkHead {
  evaluated_tokens : list Z; output_height : Z; head_sha256 : str; frontier : FrontierV2; sampler_state : SamplerStateV2 }.
Record DurableVerifierJournalV2 : Type := mkJournal {
  key : MacKey;
  session : AuthenticatedSessionV2;
  session_record_sha256 : str;
  current : Head;
  reservations : gmap str ReservationRecordV2;
  prepared : gmap str PreparedRecordV2;
  staged : gmap str StagedRecordV2;
  completions : gmap str AuthenticatedResultV2;
  acknowledgements : gmap str AckRecordV2;
  tombstones : gmap str TombstoneRecordV2;
  pending_activation : option CommitRecordV2;
}.
Definition with_current j h c : DurableVerifierJournalV2 :=
  mkJournal (key j) (session j) (session_record_sha256 j) h (reservations j) (prepared j) (staged j) c
    (acknowledgements j) (tombstones j) (pending_activation j).
Definition with_work j rs ps ss : DurableVerifierJournalV2 :=
  mkJournal (key j) (session j) (session_record_sha256 j) (current j) rs ps ss (completions j)
    (acknowledgements j) (tombstones j) (pending_activation j).
Definition with_retired j cs ks ts : DurableVerifierJournalV2 :=
  mkJournal (key j) (session j) (session_record_sha256 j) (current j) (reservations j) (prepared j) (staged j) cs
    ks ts (pending_activation j).
Definition with_pending j p : DurableVerifierJournalV2 :=
  mkJournal (key j) (session j) (session_record_sha256 j) (current j) (reservations j) (prepared j) (staged j)
    (completions j) (acknowledgements j) (tombstones j) p.
Definition core_of (j : DurableVerifierJournalV2) : SessionCoreV2 := s_core (session j).

Definition from_session (key_ : MacKey) (s : AuthenticatedSessionV2) : DurableVerifierJournalV2 :=
  mkJournal key_ s (session_record_digest s)
    (mkHead (initial_evaluated_tokens (s_core s)) (initial_output_height (s_core s)) (genesis_head_sha256 (s_core s))
       (initial_frontier (s_core s)) (initial_sampler_state (s_core s)))
    ∅ ∅ ∅ ∅ ∅ ∅ None.

(** ** Envelopes. *)
Definition slot_path (request_id_ : str) : str := sha256_hex request_id_.
Definition unsigned_of (kind_ : string) (session_sha : str) (payload_ : Payload) : JournalUnsignedV2 :=
  mkUnsigned VERIFIER_JOURNAL_PROTOCOL_V2 (string_bytes kind_) session_sha payload_.
Definition journal_envelope (kind_ : string) (session_sha : str) (payload_ : Payload) (key_ : MacKey) : checked JournalEnvelopeV2 :=
  let? _ := validate_identifier "journal kind" (string_bytes kind_) in
  let? _ := validate_digest "journal session" session_sha in
  let? tag := ok_or (tag_domain_hex key_ VERIFIER_JOURNAL_MAC_DOMAIN_V2
                       (canonical (DocJournal (unsigned_of kind_ session_sha payload_)))) Authentication in
  Ok (mkEnvelope VERIFIER_JOURNAL_PROTOCOL_V2 (string_bytes kind_) session_sha payload_ tag).
Definition decode_journal {A} (from_value : Payload -> option A) (e : JournalEnvelopeV2) (kind_ : string) (session_sha : str)
    (key_ : MacKey) : checked A :=
  if negb (bool_decide (e_protocol e = VERIFIER_JOURNAL_PROTOCOL_V2)) || negb (bool_decide (e_kind e = string_bytes kind_))
     || negb (bool_decide (e_session_record_sha256 e = session_sha))
  then invalid "journal envelope identity differs"
  else
    let? _ := validate_digest "journal HMAC" (e_hmac_sha256 e) in
    if negb (verify_domain_hex key_ VERIFIER_JOURNAL_MAC_DOMAIN_V2
               (canonical (DocJournal (mkUnsigned VERIFIER_JOURNAL_PROTOCOL_V2 (e_kind e) (e_session_record_sha256 e) (e_payload e))))
               (e_hmac_sha256 e))
    then Err Authentication
    else ok_or (from_value (e_payload e)) (Validation "journal payload").

Definition write_exclusive {A} (out : WriteOutcome) (write : option A -> Disk -> Disk) (content torn : A) (d : Disk) : Disk * checked unit :=
  match out with
  | Done => (write (Some content) d, Ok tt)
  | Absent => (d, io)
  | Torn => (write (Some torn) d, io)
  | Unsynced => (write (Some content) d, io)
  end.
Definition read_envelope (file : File) : checked JournalEnvelopeV2 :=
  ok_or file (Validation "journal object mode or size differs").
Definition write_slot (j : DurableVerifierJournalV2) (dir : Directory) (request_id_ : str) (kind_ : string) (payload_ : Payload)
    (out : WriteOutcome) (d : Disk) : Disk * checked unit :=
  match journal_envelope kind_ (session_record_sha256 j) payload_ (key j) with
  | Err e => (d, Err e)
  | Ok envelope =>
      match slots d dir !! slot_path request_id_ with
      | Some file =>
          (d, let? existing := read_envelope file in
              if bool_decide (existing = envelope) then Ok tt else Err ChangedIntent)
      | None => write_exclusive out (set_slot dir (slot_path request_id_)) (Some envelope) None d
      end
  end.

(** ** Parents. *)
Definition matches_head (h : Head) (r : RoundCoreV2) : bool :=
  (base_output_height r =? output_height h) && bool_decide (base_head_sha256 r = head_sha256 h)
  && bool_decide (frontier_in r = frontier h) && bool_decide (base_sampler_state r = sampler_state h)
  && bool_decide (base_evaluated_tokens r = evaluated_tokens h)
  && bool_decide (base_tokens_sha256 r = token_digest (evaluated_tokens h)).
Definition matches_current_parent (j : DurableVerifierJournalV2) (r : AuthenticatedRoundV2) : bool :=
  matches_head (current j) (q_core r).
Definition AuthorityFenceV2 : Type := str -> str -> str -> Z -> str -> Z -> bool.
Definition check_live_fence (j : DurableVerifierJournalV2) (fence : AuthorityFenceV2) (now : Z) : checked unit :=
  let core := core_of j in
  if fence (session_id core) (log_writer_authority_id core) (authority_lease_id core) (authority_term core)
       (target_executor_id core) now
  then Ok tt else Err LeaseNotLive.

Inductive ReserveOutcomeV2 : Type :=
| Reserved
| PreparedResult (answer : AuthenticatedResultV2)
| Replay (answer : AuthenticatedResultV2)
| Stale (output_height_ : Z) (head_ : str) (frontier_ : FrontierV2) (sampler_ : SamplerStateV2) (transcript_sha256 : str).
Inductive PendingRoundV2 : Type :=
| PendingReserved (request : AuthenticatedRoundV2)
| PendingPrepared (request : AuthenticatedRoundV2) (answer : AuthenticatedResultV2)
| PendingStaged (request : AuthenticatedRoundV2) (answer : AuthenticatedResultV2) (renderer : RendererStageReceiptV2).

Abbreviation Machine := (Disk * DurableVerifierJournalV2)%type.

(** ** Admitting a round. *)
Definition busy_parent (j : DurableVerifierJournalV2) (request : AuthenticatedRoundV2) : bool :=
  existsb (fun e => bool_decide (base_head_sha256 (q_core (r_request e.2)) = head_sha256 (current j))
                    && negb (bool_decide (request_id (q_core (r_request e.2)) = request_id (q_core request))))
    (map_to_list (reservations j)).
Definition is_closed (f : FrontierV2) : bool := match f with Closed _ => true | Open _ _ => false end.
(** The answers that need no live authority: [None] is a request the journal has not seen. *)
Definition known_request (j : DurableVerifierJournalV2) (request : AuthenticatedRoundV2) : option (checked ReserveOutcomeV2) :=
  let id_ := request_id (q_core request) in
  let intent_ := intent_sha256 request in
  match tombstones j !! id_ with
  | Some t => if bool_decide (t_request_id t = id_) then Some (Err ResyncRequired) else None
  | None => None
  end
  ∪ match completions j !! id_ with
    | Some answer => Some (if negb (bool_decide (request_intent_sha256 (a_core answer) = intent_)) then Err ChangedIntent
                           else Ok (Replay answer))
    | None =>
        match prepared j !! id_ with
        | Some p => Some (if negb (bool_decide (p_request_intent_sha256 p = intent_)) then Err ChangedIntent
                          else Ok (PreparedResult (p_result p)))
        | None =>
            match reservations j !! id_ with
            | Some r => Some (if negb (bool_decide (intent_sha256 (r_request r) = intent_)) then Err ChangedIntent else Ok Reserved)
            | None => None
            end
        end
    end.
Definition stale (j : DurableVerifierJournalV2) : ReserveOutcomeV2 :=
  Stale (output_height (current j)) (head_sha256 (current j)) (frontier (current j)) (sampler_state (current j))
    (token_digest (evaluated_tokens (current j))).
Definition reserve (request : AuthenticatedRoundV2) (fence : AuthorityFenceV2) (now : Z) (out : WriteOutcome) (m : Machine) :
    Machine * checked ReserveOutcomeV2 :=
  let (d, j) := m in
  let id_ := request_id (q_core request) in
  if bool_decide (pending_activation j <> None) then (m, invalid "journal has an unactivated committed result")
  else match verify_historical request (core_of j) (key j) with
  | Err e => (m, Err e)
  | Ok _ =>
      match known_request j request with
      | Some answer => (m, answer)
      | None =>
          match check_live_fence j fence now with
          | Err e => (m, Err e)
          | Ok _ =>
              if is_closed (frontier (current j)) then (m, Err Terminal)
              else match verify_live request (core_of j) (key j) now with
              | Err e => (m, Err e)
              | Ok _ =>
                  if negb (matches_current_parent j request) then (m, Ok (stale j))
                  else if busy_parent j request then (m, Err BusyParent)
                  else
                    let record := mkReservation request now in
                    match write_slot j Reservations id_ "reservation" (PReservation record) out d with
                    | (d, Err e) => ((d, j), Err e)
                    | (d, Ok _) => ((d, with_work j (<[id_ := record]> (reservations j)) (prepared j) (staged j)), Ok Reserved)
                    end
              end
          end
      end
  end.

(** ** Recording a result and staging its render. *)
Definition record_prepared (request : AuthenticatedRoundV2) (answer : AuthenticatedResultV2) (fence : AuthorityFenceV2) (now : Z)
    (out : WriteOutcome) (m : Machine) : Machine * checked unit :=
  let (d, j) := m in
  let id_ := request_id (q_core request) in
  match (let? _ := check_live_fence j fence now in
         let? _ := verify_against answer request (core_of j) in
         let? reservation := ok_or (reservations j !! id_) (Validation "result has no durable reservation") in
         if negb (bool_decide (r_request reservation = request)) || negb (matches_current_parent j request)
         then Err StaleHead else Ok (prepared j !! id_)) with
  | Err e => (m, Err e)
  | Ok (Some existing) => (m, if bool_decide (p_result existing = answer) then Ok tt else Err ChangedIntent)
  | Ok None =>
      let record := mkPrepared (intent_sha256 request) answer now in
      match write_slot j Prepared id_ "prepared" (PPrepared record) out d with
      | (d, Err e) => ((d, j), Err e)
      | (d, Ok _) => ((d, with_work j (reservations j) (<[id_ := record]> (prepared j)) (staged j)), Ok tt)
      end
  end.

(** A write that is cut short leaves [torn] in the fragment's file. *)
Definition write_fragment (f : VerifiedFragmentV2) (out : WriteOutcome) (torn : str) (d : Disk) : Disk * checked unit :=
  match cas d !! sha256 (descriptor f) with
  | Some bytes => (d, if bool_decide (bytes = payload f) then Ok tt else invalid "content-addressed fragment collision")
  | None => write_exclusive out (set_fragment (sha256 (descriptor f))) (payload f) torn d
  end.
Fixpoint write_fragments (fs : list VerifiedFragmentV2) (outs : list (WriteOutcome * str)) (d : Disk) : Disk * checked unit :=
  match fs with
  | [] => (d, Ok tt)
  | f :: fs =>
      let (out, torn) := default (Done, []) (head outs) in
      match write_fragment f out torn d with
      | (d, Err e) => (d, Err e)
      | (d, Ok _) => write_fragments fs (tail outs) d
      end
  end.
Definition verify_fragment_cas (d : Disk) (answer : AuthenticatedResultV2) : checked unit :=
  validate_all (fun _ descriptor_ =>
    let? bytes := ok_or (cas d !! sha256 descriptor_) (Io "metadata") in
    if negb (zlen bytes =? byte_len descriptor_) then invalid "staged fragment CAS object mode or length differs"
    else if negb (bool_decide (sha256_hex bytes = sha256 descriptor_)) then invalid "staged fragment CAS digest differs"
    else Ok tt) (map (fun descriptor_ => (EmptyString, descriptor_)) (fragments (a_core answer))).

Definition stage_result (request : AuthenticatedRoundV2) (closure : VerifiedClosureV2) (reply : result string RendererStageReceiptV2)
    (now : Z) (outs : list (WriteOutcome * str)) (out : WriteOutcome) (m : Machine) : Machine * checked RendererStageReceiptV2 :=
  let (d, j) := m in
  let id_ := request_id (q_core request) in
  match (let? p := ok_or (prepared j !! id_) (Validation "cannot stage before PREPARED") in
         let? _ := verify_result closure (p_result p) in Ok p) with
  | Err e => (m, Err e)
  | Ok p =>
      match staged j !! id_ with
      | Some existing =>
          (m, if bool_decide (st_result_sha256 existing = record_digest (p_result p)) then Ok (st_renderer existing) else Err ChangedIntent)
      | None =>
          match write_fragments (cl_fragments closure) outs d with
          | (d, Err e) => ((d, j), Err e)
          | (d, Ok _) =>
              match (let? receipt := result_map_err Renderer reply in
                     let? _ := validate_stage_receipt receipt (p_result p) in Ok receipt) with
              | Err e => ((d, j), Err e)
              | Ok receipt =>
                  let record := mkStaged id_ (p_request_intent_sha256 p) (record_digest (p_result p)) receipt now in
                  match write_slot j Staged id_ "staged" (PStaged record) out d with
                  | (d, Err e) => ((d, j), Err e)
                  | (d, Ok _) => ((d, with_work j (reservations j) (prepared j) (<[id_ := record]> (staged j))), Ok receipt)
                  end
              end
          end
      end
  end.

(** ** Committing and activating. *)
Definition after_result (h : Head) (core : ResultCoreV2) : Head :=
  mkHead (evaluated_tokens h ++ committed_tokens core) (new_output_height core) (new_head_sha256 core) (new_frontier core)
    (post_verify_sampler_state core).
Definition apply_active (j : DurableVerifierJournalV2) (request : AuthenticatedRoundV2) (answer : AuthenticatedResultV2) :
    checked DurableVerifierJournalV2 :=
  let? _ := verify_against answer request (core_of j) in
  match completions j !! request_id (q_core request) with
  | Some existing => if bool_decide (existing = answer) then Ok j else Err ChangedIntent
  | None =>
      if negb (matches_current_parent j request) then Err StaleHead
      else Ok (with_current j (after_result (current j) (a_core answer)) (<[request_id (q_core request) := answer]> (completions j)))
  end.

Definition as_active (p : Payload) : option ActiveRecordV2 := match p with PActive r => Some r | _ => None end.
Definition same_activation (a b : ActiveRecordV2) : bool :=
  bool_decide (ac_request_id a = ac_request_id b) && bool_decide (ac_result_sha256 a = ac_result_sha256 b)
  && bool_decide (ac_new_head_sha256 a = ac_new_head_sha256 b).
Definition write_active (j : DurableVerifierJournalV2) (active : ActiveRecordV2) (out : WriteOutcome) (d : Disk) : Disk * checked unit :=
  match slots d Active !! slot_path (ac_request_id active) with
  | Some file =>
      (d, let? envelope := read_envelope file in
          let? existing := decode_journal as_active envelope "active" (session_record_sha256 j) (key j) in
          if same_activation existing active then Ok tt else Err ChangedIntent)
  | None => write_slot j Active (ac_request_id active) "active" (PActive active) out d
  end.
(** [reply] is the renderer's answer to [activate]. *)
Definition recover_pending (reply : result string unit) (now : Z) (out : WriteOutcome) (m : Machine) : Machine * checked unit :=
  let (d, j) := m in
  match pending_activation j with
  | None => (m, Ok tt)
  | Some commit =>
      match (let? _ := validate_stage_receipt (c_renderer commit) (c_result commit) in result_map_err Renderer reply) with
      | Err e => (m, Err e)
      | Ok _ =>
          let active := mkActive (request_id (q_core (c_request commit))) (record_digest (c_result commit))
                          (new_head_sha256 (a_core (c_result commit))) now in
          match write_active j active out d with
          | (d, Err e) => ((d, j), Err e)
          | (d, Ok _) =>
              match apply_active j (c_request commit) (c_result commit) with
              | Err e => ((d, j), Err e)
              | Ok j => ((d, with_pending j None), Ok tt)
              end
          end
      end
  end.

Definition commit_and_activate (request : AuthenticatedRoundV2) (fence : AuthorityFenceV2) (earlier reply : result string unit) (now : Z)
    (out_earlier out_commit out_active : WriteOutcome) (m : Machine) : Machine * checked AuthenticatedResultV2 :=
  match recover_pending earlier now out_earlier m with
  | (m, Err e) => (m, Err e)
  | ((d, j), Ok _) =>
      let id_ := request_id (q_core request) in
      match check_live_fence j fence now with
      | Err e => ((d, j), Err e)
      | Ok _ =>
          match completions j !! id_ with
          | Some answer => ((d, j), Ok answer)
          | None =>
              match (let? p := ok_or (prepared j !! id_) (Validation "cannot commit before PREPARED") in
                     let? s := ok_or (staged j !! id_) (Validation "cannot commit before durable renderer stage") in
                     if negb (bool_decide (p_request_intent_sha256 p = intent_sha256 request))
                        || negb (bool_decide (st_result_sha256 s = record_digest (p_result p)))
                        || negb (matches_current_parent j request)
                     then Err StaleHead
                     else Ok (mkCommit request (p_result p) (st_renderer s) now)) with
              | Err e => ((d, j), Err e)
              | Ok commit =>
                  match write_slot j Commits id_ "commit" (PCommit commit) out_commit d with
                  | (d, Err e) => ((d, j), Err e)
                  | (d, Ok _) =>
                      match recover_pending reply now out_active (d, with_pending j (Some commit)) with
                      | (m, Err e) => (m, Err e)
                      | ((d, j), Ok _) =>
                          ((d, j), ok_or (completions j !! id_) (Validation "activation did not publish completion"))
                      end
                  end
              end
          end
      end
  end.

(** ** Acknowledging and retiring. *)
Definition acknowledge (request_id_ applied_head : str) (now : Z) (out : WriteOutcome) (m : Machine) : Machine * checked unit :=
  let (d, j) := m in
  match (let? _ := validate_digest "applied head" applied_head in
         let? answer := ok_or (completions j !! request_id_) (Validation "cannot ACK an unknown completion") in
         if negb (bool_decide (applied_head = new_head_sha256 (a_core answer))) then invalid "ACK head differs from completion"
         else Ok (mkAck request_id_ (record_digest answer) applied_head now)) with
  | Err e => (m, Err e)
  | Ok ack =>
      match acknowledgements j !! request_id_ with
      | Some existing =>
          (m, if bool_decide (existing = ack) || bool_decide (k_result_sha256 existing = k_result_sha256 ack) then Ok tt else Err ChangedIntent)
      | None =>
          match write_slot j Acks request_id_ "ack" (PAck ack) out d with
          | (d, Err e) => ((d, j), Err e)
          | (d, Ok _) => ((d, with_retired j (completions j) (<[request_id_ := ack]> (acknowledgements j)) (tombstones j)), Ok tt)
          end
      end
  end.

Definition fragment_digests (answer : AuthenticatedResultV2) : list str := map sha256 (fragments (a_core answer)).
(** The fragments other completions and prepared results need. *)
Definition protected (j : DurableVerifierJournalV2) (request_id_ : str) : list str :=
  (map_to_list (delete request_id_ (completions j)) ≫= fun e => fragment_digests e.2)
  ++ (map_to_list (delete request_id_ (prepared j)) ≫= fun e => fragment_digests (p_result e.2)).
(** [unlinks] says which removals succeed. *)
Fixpoint remove_fragments (keep : list str) (digests : list str) (unlinks : list bool) (removed : Z) (d : Disk) :
    Disk * list bool * checked Z :=
  match digests with
  | [] => (d, unlinks, Ok removed)
  | digest :: digests =>
      if bool_decide (digest ∈ keep) then remove_fragments keep digests unlinks removed d
      else match cas d !! digest with
           | None => remove_fragments keep digests unlinks removed d
           | Some _ =>
               if default true (head unlinks)
               then remove_fragments keep digests (tail unlinks) (removed + 1) (set_fragment digest None d)
               else (d, tail unlinks, io)
           end
  end.
Fixpoint remove_slots (dirs : list Directory) (path : str) (unlinks : list bool) (d : Disk) : Disk * checked unit :=
  match dirs with
  | [] => (d, Ok tt)
  | dir :: dirs =>
      match slots d dir !! path with
      | None => remove_slots dirs path unlinks d
      | Some _ =>
          if default true (head unlinks) then remove_slots dirs path (tail unlinks) (set_slot dir path None d)
          else (d, io)
      end
  end.
Definition forget (j : DurableVerifierJournalV2) (request_id_ : str) : DurableVerifierJournalV2 :=
  with_retired (with_work j (delete request_id_ (reservations j)) (delete request_id_ (prepared j)) (delete request_id_ (staged j)))
    (delete request_id_ (completions j)) (delete request_id_ (acknowledgements j)) (tombstones j).
(** The unlinking that follows the tombstone. *)
Definition collect (request_id_ : str) (answer : AuthenticatedResultV2) (unlinks : list bool) (synced : bool) (m : Machine) :
    Machine * checked Z :=
  let (d, j) := m in
  match remove_fragments (protected j request_id_) (fragment_digests answer) unlinks 0 d with
  | (d, _, Err e) => ((d, j), Err e)
  | (d, unlinks, Ok removed) =>
      match remove_slots [Reservations; Prepared; Staged; Acks] (slot_path request_id_) unlinks d with
      | (d, Err e) => ((d, j), Err e)
      | (d, Ok _) => if synced then ((d, forget j request_id_), Ok removed) else ((d, j), io)
      end
  end.
Definition garbage_collect (request_id_ : str) (now retry_retention_ms : Z) (out : WriteOutcome) (unlinks : list bool) (synced : bool)
    (m : Machine) : Machine * checked Z :=
  let (d, j) := m in
  match completions j !! request_id_ with
  | None => (m, invalid "cannot retire an unknown completion")
  | Some answer =>
      let result_sha256 := record_digest answer in
      match tombstones j !! request_id_ with
      | Some tombstone =>
          if negb (bool_decide (t_result_sha256 tombstone = result_sha256)) then (m, Err ChangedIntent)
          else collect request_id_ answer unlinks synced m
      | None =>
          match acknowledgements j !! request_id_ with
          | None => (m, invalid "cannot retire an unacknowledged completion")
          | Some ack =>
              if negb (bool_decide (k_result_sha256 ack = result_sha256))
                 || (now <? saturating_add 64 (completed_unix_ms (a_core answer)) retry_retention_ms)
              then (m, invalid "completion retry retention has not elapsed")
              else
                let tombstone := mkTombstone request_id_ result_sha256 now in
                match write_slot j Tombstones request_id_ "tombstone" (PTombstone tombstone) out d with
                | (d, Err e) => ((d, j), Err e)
                | (d, Ok _) =>
                    collect request_id_ answer unlinks synced
                      (d, with_retired j (completions j) (acknowledgements j) (<[request_id_ := tombstone]> (tombstones j)))
                end
          end
      end
  end.

(** ** Restoring. *)
Definition as_reservation (p : Payload) : option ReservationRecordV2 := match p with PReservation r => Some r | _ => None end.
Definition as_prepared (p : Payload) : option PreparedRecordV2 := match p with PPrepared r => Some r | _ => None end.
Definition as_staged (p : Payload) : option StagedRecordV2 := match p with PStaged r => Some r | _ => None end.
Definition as_commit (p : Payload) : option CommitRecordV2 := match p with PCommit r => Some r | _ => None end.
Definition as_ack (p : Payload) : option AckRecordV2 := match p with PAck r => Some r | _ => None end.
Definition as_tombstone (p : Payload) : option TombstoneRecordV2 := match p with PTombstone r => Some r | _ => None end.
(** [RequestIdentityV2]. *)
Definition reservation_id (r : ReservationRecordV2) : str := request_id (q_core (r_request r)).
Definition prepared_id (p : PreparedRecordV2) : str := a_request_id (a_core (p_result p)).
Definition commit_id (c : CommitRecordV2) : str := request_id (q_core (c_request c)).

Fixpoint read_files {A} (from_value : Payload -> option A) (id_of : A -> str) (kind_ : string) (j : DurableVerifierJournalV2)
    (files : list (str * File)) (records : gmap str A) : checked (gmap str A) :=
  match files with
  | [] => Ok records
  | (path, file) :: files =>
      let? envelope := read_envelope file in
      let? record := decode_journal from_value envelope kind_ (session_record_sha256 j) (key j) in
      if negb (bool_decide (slot_path (id_of record) = path)) || bool_decide (is_Some (records !! id_of record))
      then invalid "journal slot filename or identity differs"
      else read_files from_value id_of kind_ j files (<[id_of record := record]> records)
  end.
Definition read_slots {A} (from_value : Payload -> option A) (id_of : A -> str) (dir : Directory) (kind_ : string) (d : Disk)
    (j : DurableVerifierJournalV2) : checked (gmap str A) :=
  read_files from_value id_of kind_ j (map_to_list (slots d dir)) ∅.

Fixpoint each {A} (check : A -> checked unit) (l : list A) : checked unit :=
  match l with
  | [] => Ok tt
  | x :: l => let? _ := check x in each check l
  end.
Definition without {A B : Type} (retired : gmap str B) (records : gmap str A) : gmap str A :=
  filter (fun e : str * A => retired !! e.1 = None) records.

Definition check_prepared (j : DurableVerifierJournalV2) (e : str * PreparedRecordV2) : checked unit :=
  let? reservation := ok_or (reservations j !! e.1) (Validation "PREPARED record has no reservation") in
  if negb (bool_decide (p_request_intent_sha256 e.2 = intent_sha256 (r_request reservation)))
  then invalid "PREPARED intent differs from reservation"
  else verify_against (p_result e.2) (r_request reservation) (core_of j).
Definition check_staged (d : Disk) (j : DurableVerifierJournalV2) (e : str * StagedRecordV2) : checked unit :=
  let? p := ok_or (prepared j !! e.1) (Validation "staged render has no PREPARED result") in
  if negb (bool_decide (st_request_intent_sha256 e.2 = p_request_intent_sha256 p))
     || negb (bool_decide (st_result_sha256 e.2 = record_digest (p_result p)))
  then invalid "staged render differs from PREPARED result"
  else
    let? _ := validate_stage_receipt (st_renderer e.2) (p_result p) in
    verify_fragment_cas d (p_result p).

(** One turn of [while !commits.is_empty()]: the commit that follows the current head.  A turn
    takes one commit away, so the number of commits is fuel enough. *)
Definition restore_commit (d : Disk) (active : gmap str ActiveRecordV2) (commits : gmap str CommitRecordV2) (j : DurableVerifierJournalV2) :
    checked (gmap str CommitRecordV2 * DurableVerifierJournalV2) :=
  match map_to_list (filter (fun e => matches_current_parent j (c_request e.2) = true) commits) with
  | [(id_, commit)] =>
      let commits := delete id_ commits in
      let? _ := verify_historical (c_request commit) (core_of j) (key j) in
      let? _ := verify_against (c_result commit) (c_request commit) (core_of j) in
      let? _ := validate_stage_receipt (c_renderer commit) (c_result commit) in
      let? _ := if bool_decide (is_Some (tombstones j !! commit_id commit)) then Ok tt else verify_fragment_cas d (c_result commit) in
      match active !! commit_id commit with
      | Some record =>
          if bool_decide (ac_result_sha256 record = record_digest (c_result commit))
             && bool_decide (ac_new_head_sha256 record = new_head_sha256 (a_core (c_result commit)))
          then let? j := apply_active j (c_request commit) (c_result commit) in Ok (commits, j)
          else invalid "active record differs from WAL commit"
      | None =>
          if bool_decide (pending_activation j = None) && bool_decide (size commits = 0%nat)
          then Ok (commits, with_pending j (Some commit))
          else invalid "journal commit/active chain is ambiguous"
      end
  | _ => invalid "journal commit chain is not uniquely causal"
  end.
Fixpoint restore_commits (fuel : nat) (d : Disk) (active : gmap str ActiveRecordV2) (commits : gmap str CommitRecordV2)
    (j : DurableVerifierJournalV2) : checked DurableVerifierJournalV2 :=
  if bool_decide (size commits = 0%nat) then Ok j
  else match fuel with
       | O => invalid "fuel"
       | S fuel => let? (commits, j) := restore_commit d active commits j in restore_commits fuel d active commits j
       end.

Definition check_ack (j : DurableVerifierJournalV2) (e : str * AckRecordV2) : checked unit :=
  let? completion := ok_or (completions j !! e.1) (Validation "ACK has no active completion") in
  if negb (bool_decide (k_result_sha256 e.2 = record_digest completion))
     || negb (bool_decide (applied_head_sha256 e.2 = new_head_sha256 (a_core completion)))
  then invalid "ACK differs from active completion" else Ok tt.
Definition check_tombstone (j : DurableVerifierJournalV2) (e : str * TombstoneRecordV2) : checked unit :=
  let? completion := ok_or (completions j !! e.1) (Validation "tombstone has no retained commit") in
  if negb (bool_decide (t_result_sha256 e.2 = record_digest completion)) then invalid "tombstone differs from retained commit" else Ok tt.

Definition restore_records (d : Disk) (j : DurableVerifierJournalV2) : checked DurableVerifierJournalV2 :=
  let? ts := read_slots as_tombstone t_request_id Tombstones "tombstone" d j in
  let? rs := read_slots as_reservation reservation_id Reservations "reservation" d j in
  let? ps := read_slots as_prepared prepared_id Prepared "prepared" d j in
  let? ss := read_slots as_staged st_request_id Staged "staged" d j in
  let? ks := read_slots as_ack k_request_id Acks "ack" d j in
  let j := with_retired (with_work j (without ts rs) (without ts ps) (without ts ss)) (completions j) ks ts in
  let? _ := each (fun e => verify_historical (r_request e.2) (core_of j) (key j)) (map_to_list (reservations j)) in
  let? _ := each (check_prepared j) (map_to_list (prepared j)) in
  let? _ := each (check_staged d j) (map_to_list (staged j)) in
  let? commits := read_slots as_commit commit_id Commits "commit" d j in
  let? active := read_slots as_active ac_request_id Active "active" d j in
  if negb (bool_decide (dom active ⊆ dom commits)) then invalid "active record has no WAL commit"
  else
    let? j := restore_commits (size commits) d active commits j in
    let j := with_work j (without (completions j) (reservations j)) (without (completions j) (prepared j))
               (without (completions j) (staged j)) in
    let? _ := each (check_ack j) (map_to_list (acknowledgements j)) in
    let? _ := each (check_tombstone j) (map_to_list (tombstones j)) in
    Ok j.

Definition open_journal (d : Disk) (key_ : MacKey) (expected_key_id : str) (minimum_epoch : Z) : checked DurableVerifierJournalV2 :=
  match session_file d with
  | None => Err (Io "session.json")
  | Some file =>
      let? s := ok_or file (Validation "journal object mode or size differs") in
      let? _ := verify_session_historical s key_ expected_key_id minimum_epoch in
      restore_records d (from_session key_ s)
  end.
(** The directories are new; [out] is how [session.json] was written, and [synced] whether the
    root was then synced. *)
Definition create_journal (s : AuthenticatedSessionV2) (key_ : MacKey) (now : Z) (expected_key_id : str) (minimum_epoch : Z)
    (out : WriteOutcome) (synced : bool) : Disk * checked DurableVerifierJournalV2 :=
  match verify_session_live s key_ now expected_key_id minimum_epoch with
  | Err e => (blank_disk, Err e)
  | Ok _ =>
      let write := fun file d => mkDisk file (slots d) (cas d) in
      match write_exclusive out write (Some s) None blank_disk with
      | (d, Err e) => (d, Err e)
      | (d, Ok _) => (d, if synced then Ok (from_session key_ s) else io)
      end
  end.

(** ** What the callers see. *)
Definition pending_round (j : DurableVerifierJournalV2) : checked (option PendingRoundV2) :=
  if bool_decide (pending_activation j <> None)
  then invalid "journal has a WAL-committed activation; recover it before resuming rounds"
  else
    match List.filter (fun e => bool_decide (completions j !! e.1 = None) && bool_decide (tombstones j !! e.1 = None)
                                && matches_current_parent j (r_request e.2)) (map_to_list (reservations j)) with
    | [] => Ok None
    | [(id_, reservation)] =>
        let request := r_request reservation in
        Ok (Some (match prepared j !! id_ with
                  | None => PendingReserved request
                  | Some p => match staged j !! id_ with
                              | None => PendingPrepared request (p_result p)
                              | Some s => PendingStaged request (p_result p) (st_renderer s)
                              end
                  end))
    | _ => invalid "journal has multiple unfinished children of the current head"
    end.
Definition completed_result (j : DurableVerifierJournalV2) (request_id_ : str) : option AuthenticatedResultV2 :=
  completions j !! request_id_.
Definition current_transcript_sha256 (j : DurableVerifierJournalV2) : str := token_digest (evaluated_tokens (current j)).

End Journal.
