(* ===== verification/VerifierDisk.v ===== *)
(** * What the journal's slots hold, and what writing and reading them does.

    [holds d p]: the slot of record [p] contains its authenticated envelope.  A disk is
    [well_formed] when that is all its slots contain; writing a slot adds one record, and
    reading a directory returns exactly the records it holds. *)
From Stdlib Require Import Strings.Byte.
From S2P Require Import Prelude Utf8 Sampling Float64 Verifier VerifierProofs VerifierJournal.

Definition dir_of (p : Payload) : Directory :=
  match p with
  | PReservation _ => Reservations | PPrepared _ => Prepared | PStaged _ => Staged | PCommit _ => Commits
  | PActive _ => Active | PAck _ => Acks | PTombstone _ => Tombstones
  end.
Definition kind_of (dir : Directory) : string :=
  match dir with
  | Reservations => "reservation" | Prepared => "prepared" | Staged => "staged" | Commits => "commit"
  | Active => "active" | Acks => "ack" | Tombstones => "tombstone"
  end.
Definition payload_id (p : Payload) : str :=
  match p with
  | PReservation r => reservation_id r | PPrepared r => prepared_id r | PStaged r => st_request_id r | PCommit r => commit_id r
  | PActive r => ac_request_id r | PAck r => k_request_id r | PTombstone r => t_request_id r
  end.

(** A type of records, and its place in the journal. *)
Class SlotType (T : Type) := {
  wrap : T -> Payload;
  unwrap : Payload -> option T;
  slot_id : T -> str;
  slot_dir : Directory;
  unwrap_wrap r : unwrap (wrap r) = Some r;
  wrap_id r : payload_id (wrap r) = slot_id r;
  wrap_dir r : dir_of (wrap r) = slot_dir;
  unwrap_dir p : dir_of p = slot_dir -> exists r, p = wrap r;
}.
#[export] Program Instance reservation_slot : SlotType ReservationRecordV2 :=
  {| wrap := PReservation; unwrap := as_reservation; slot_id := reservation_id; slot_dir := Reservations |}.
Solve All Obligations with (cbn; intros; try destruct p; naive_solver).
#[export] Program Instance prepared_slot : SlotType PreparedRecordV2 :=
  {| wrap := PPrepared; unwrap := as_prepared; slot_id := prepared_id; slot_dir := Prepared |}.
Solve All Obligations with (cbn; intros; try destruct p; naive_solver).
#[export] Program Instance staged_slot : SlotType StagedRecordV2 :=
  {| wrap := PStaged; unwrap := as_staged; slot_id := st_request_id; slot_dir := Staged |}.
Solve All Obligations with (cbn; intros; try destruct p; naive_solver).
#[export] Program Instance commit_slot : SlotType CommitRecordV2 :=
  {| wrap := PCommit; unwrap := as_commit; slot_id := commit_id; slot_dir := Commits |}.
Solve All Obligations with (cbn; intros; try destruct p; naive_solver).
#[export] Program Instance active_slot : SlotType ActiveRecordV2 :=
  {| wrap := PActive; unwrap := as_active; slot_id := ac_request_id; slot_dir := Active |}.
Solve All Obligations with (cbn; intros; try destruct p; naive_solver).
#[export] Program Instance ack_slot : SlotType AckRecordV2 :=
  {| wrap := PAck; unwrap := as_ack; slot_id := k_request_id; slot_dir := Acks |}.
Solve All Obligations with (cbn; intros; try destruct p; naive_solver).
#[export] Program Instance tombstone_slot : SlotType TombstoneRecordV2 :=
  {| wrap := PTombstone; unwrap := as_tombstone; slot_id := t_request_id; slot_dir := Tombstones |}.
Solve All Obligations with (cbn; intros; try destruct p; naive_solver).

Section Disk.
Context `{VerifierLaws} (k : MacKey) (sha : str) (known : list str).
(** The identifiers in use have different file names. *)
Hypothesis no_collision : forall x y, x ∈ known -> y ∈ known -> slot_path x = slot_path y -> x = y.

Definition sealed (p : Payload) : checked JournalEnvelopeV2 := journal_envelope (kind_of (dir_of p)) sha p k.
Definition holds (d : Disk) (p : Payload) : Prop :=
  payload_id p ∈ known /\ exists e, slots d (dir_of p) !! slot_path (payload_id p) = Some (Some e) /\ sealed p = Ok e.
Definition well_formed (d : Disk) : Prop :=
  forall dir path file, slots d dir !! path = Some file -> exists p, dir_of p = dir /\ path = slot_path (payload_id p) /\ holds d p.

Lemma sealed_payload p e : sealed p = Ok e -> e_payload e = p.
Proof. unfold sealed, journal_envelope. intros Hs. peel Hs. by injection Hs as <-. Qed.

Lemma decode_sealed {A} (from_value : Payload -> option A) p e r : sealed p = Ok e -> from_value p = Some r ->
  decode_journal from_value e (kind_of (dir_of p)) sha k = Ok r.
Proof.
  unfold sealed, journal_envelope. intros Hs Hr. peel Hs. injection Hs as <-. apply ok_or_ok in Km1.
  unfold decode_journal. cbn [e_protocol e_kind e_session_record_sha256 e_hmac_sha256 e_payload].
  rewrite !bool_decide_eq_true_2 by done. cbn [negb orb]. unfold validate_digest. rewrite (tag_digest _ _ _ _ Km1). cbn [negb].
  unfold unsigned_of in Km1. rewrite (tag_verifies _ _ _ _ Km1). cbn [negb]. by rewrite Hr.
Qed.

(** The record in a slot is determined by the directory and the identifier. *)
Lemma holds_unique d p q : holds d p -> holds d q -> dir_of p = dir_of q -> payload_id p = payload_id q -> p = q.
Proof.
  intros (_ & e & Hp & He) (_ & e' & Hq & He') Hdir Hid. rewrite Hdir, Hid, Hq in Hp. simplify_eq.
  by rewrite <- (sealed_payload _ _ He), <- (sealed_payload _ _ He').
Qed.

(** ** Reading a directory. *)
Lemma read_files_ok `{SlotType T} (j : DurableVerifierJournalV2) (files : list (str * File)) (records : gmap str T) :
  key j = k -> session_record_sha256 j = sha -> NoDup files.*1 ->
  (forall path file, (path, file) ∈ files -> exists r e, path = slot_path (slot_id r) /\ file = Some e /\ sealed (wrap r) = Ok e) ->
  (forall id_ r, records !! id_ = Some r -> slot_path id_ ∉ files.*1) ->
  exists m, read_files unwrap slot_id (kind_of slot_dir) j files records = Ok m /\
    forall id_ r, m !! id_ = Some r <->
      records !! id_ = Some r \/ (slot_id r = id_ /\ exists e, (slot_path id_, Some e) ∈ files /\ sealed (wrap r) = Ok e).
Proof.
  intros Hk Hsha. revert records. induction files as [|[path file] files IH]; intros records Hdup Hall Hfresh.
  - exists records. split; [done|]. intros id_ r. split; [by left|]. intros [?|(_ & e & Hin & _)]; [done|by apply elem_of_nil in Hin].
  - apply NoDup_cons in Hdup as [Hnew Hdup].
    destruct (Hall path file) as (r & e & -> & -> & He); [apply elem_of_cons; by left|].
    cbn [read_files read_envelope ok_or]. rewrite Hsha, Hk, <- (wrap_dir r), (decode_sealed unwrap _ _ r He (unwrap_wrap r)), wrap_dir.
    rewrite bool_decide_eq_true_2 by done. cbn [negb orb].
    rewrite bool_decide_eq_false_2.
    2: { intros [r' Hr']. apply (Hfresh _ _ Hr'). cbn. apply elem_of_cons. by left. }
    destruct (IH (<[slot_id r := r]> records)) as (m & Hm & Hiff).
    { done. }
    { intros path file Hin. apply Hall. apply elem_of_cons. by right. }
    { intros id_ r' Hr' Hin. apply lookup_insert_Some in Hr' as [[<- <-]|[_ Hr']]; [done|].
      apply (Hfresh _ _ Hr'). cbn. apply elem_of_cons. by right. }
    exists m. split; [done|]. intros id_ r'. rewrite Hiff, lookup_insert_Some. setoid_rewrite elem_of_cons. split.
    + intros [[[<- <-]|[_ Hr']]|(Hid & e' & Hin & He')]; [|by left|].
      * right. split; [done|]. exists e. split; [by left|done].
      * right. split; [done|]. exists e'. split; [by right|done].
    + intros [Hr'|(Hid & e' & [Heq|Hin] & He')].
      * left. right. split; [|done]. intros <-. apply (Hfresh _ _ Hr'). cbn. apply elem_of_cons. by left.
      * injection Heq as Hpath <-. assert (wrap r' = wrap r) as Hw
          by by rewrite <- (sealed_payload _ _ He), <- (sealed_payload _ _ He').
        assert (r' = r) as -> by (apply (f_equal unwrap) in Hw; rewrite !unwrap_wrap in Hw; congruence). left. left. done.
      * right. split; [done|]. by exists e'.
Qed.

Lemma read_slots_ok `{SlotType T} d j : well_formed d -> key j = k -> session_record_sha256 j = sha ->
  exists m : gmap str T, read_slots unwrap slot_id slot_dir (kind_of slot_dir) d j = Ok m /\
    forall id_ r, m !! id_ = Some r <-> holds d (wrap r) /\ slot_id r = id_.
Proof.
  intros Hwf Hk Hsha. unfold read_slots.
  destruct (read_files_ok j (map_to_list (slots d slot_dir)) (∅ : gmap str T)) as (m & Hm & Hiff); try done.
  - apply NoDup_fst_map_to_list.
  - intros path file Hin. apply elem_of_map_to_list in Hin. destruct (Hwf _ _ _ Hin) as (p & Hdir & -> & _ & e & He & Hs).
    destruct (unwrap_dir p Hdir) as [r ->]. rewrite Hdir, Hin in He. simplify_eq. exists r, e. by rewrite wrap_id.
  - exists m. split; [done|]. intros id_ r. rewrite Hiff, lookup_empty. setoid_rewrite elem_of_map_to_list. unfold holds.
    rewrite wrap_dir, wrap_id. split.
    + intros [?|(<- & e & Hin & He)]; [done|]. split; [|done]. split; [|by exists e].
      destruct (Hwf _ _ _ Hin) as (p & Hdir & Hpath & Hknown & e' & Hp & Hs). rewrite <- Hpath, Hdir, Hin in Hp. simplify_eq.
      assert (p = wrap r) as -> by by rewrite <- (sealed_payload _ _ He), <- (sealed_payload _ _ Hs). by rewrite wrap_id in Hknown.
    + intros [[Hknown (e & He & Hs)] <-]. right. split; [done|]. by exists e.
Qed.

(** ** Writing and removing slots. *)
Lemma lookup_set_slot dir path file d dir' path' :
  slots (set_slot dir path file d) dir' !! path' = if decide (dir' = dir /\ path' = path) then file else slots d dir' !! path'.
Proof.
  unfold set_slot. cbn [slots]. destruct (decide (dir' = dir)) as [->|Hne].
  - rewrite lookup_partial_alter. do 2 case_decide; naive_solver.
  - rewrite decide_False by naive_solver. done.
Qed.

(** [d'] is [d] with the record [p] in its slot. *)
Record wrote (p : Payload) (d d' : Disk) : Prop := {
  wrote_session : session_file d' = session_file d;
  wrote_cas : cas d' = cas d;
  wrote_formed : well_formed d';
  wrote_holds q : holds d' q <-> holds d q \/ q = p;
}.

Lemma set_slot_wrote p e d : well_formed d -> payload_id p ∈ known -> sealed p = Ok e ->
  slots d (dir_of p) !! slot_path (payload_id p) = None -> wrote p d (set_slot (dir_of p) (slot_path (payload_id p)) (Some (Some e)) d).
Proof.
  intros Hwf Hknown He Hfree. set (d' := set_slot _ _ _ _).
  assert (forall q, holds d' q <-> holds d q \/ q = p) as Hiff.
  { intros q. unfold holds, d'. setoid_rewrite lookup_set_slot. split.
    - intros (Hq & e' & Hl & He'). case_decide as Hd; [|by left; eauto]. right. simplify_eq.
      by rewrite <- (sealed_payload _ _ He), <- (sealed_payload _ _ He').
    - intros [(Hq & e' & Hl & He')| ->]; (split; [done|]).
      + exists e'. split; [|done]. case_decide as Hd; [|done]. destruct Hd as [Hd1 Hd2]. rewrite Hd1, Hd2 in Hl. congruence.
      + exists e. by rewrite decide_True. }
  split; [done|done| |done].
  intros dir path file Hin. unfold d' in Hin. rewrite lookup_set_slot in Hin. case_decide as Hd.
  - destruct Hd as [-> ->]. exists p. repeat split; try done; apply Hiff; by right.
  - destruct (Hwf _ _ _ Hin) as (q & ? & ? & Hq). exists q. repeat split; try done; apply Hiff; by left.
Qed.
Lemma wrote_again p d : well_formed d -> holds d p -> wrote p d d.
Proof. intros Hwf Hp. split; try done. intros q. split; [by left|]. by intros [?| ->]. Qed.

(** Writing a slot adds the record, or fails without effect; it fails with the record on disk
    only when its directory could not be synced. *)
Lemma write_slot_spec j p out d d' r : well_formed d -> key j = k -> session_record_sha256 j = sha ->
  payload_id p ∈ known -> out <> Torn ->
  write_slot j (dir_of p) (payload_id p) (kind_of (dir_of p)) p out d = (d', r) ->
  (d' = d /\ exists e, r = Err e) \/ (wrote p d d' /\ (r = Ok tt \/ out = Unsynced)).
Proof.
  intros Hwf Hk Hsha Hknown Hout. unfold write_slot. rewrite Hk, Hsha.
  change (journal_envelope (kind_of (dir_of p)) sha p k) with (sealed p). destruct (sealed p) as [e|e] eqn:He.
  2: { intros [= <- <-]. left. eauto. }
  destruct (slots d (dir_of p) !! slot_path (payload_id p)) as [file|] eqn:Hl.
  - intros [= <- <-]. destruct (Hwf _ _ _ Hl) as (q & Hdir & Hpath & Hq & e' & Hl' & He').
    rewrite Hdir, <- Hpath, Hl in Hl'. injection Hl' as ->. cbn [read_envelope ok_or].
    case_bool_decide as Heq; [|left; eauto]. subst e'. right. split; [|by left].
    apply wrote_again; [done|]. split; [done|]. by exists e.
  - unfold write_exclusive. destruct out; try done; intros [= <- <-]; [| left; eauto |];
      (right; split; [by apply set_slot_wrote | auto]).
Qed.

Lemma wrote_other p d d' q : wrote p d d' -> dir_of q <> dir_of p -> holds d' q <-> holds d q.
Proof. intros Hw Hne. rewrite (wrote_holds _ _ _ Hw). split; [|by left]. intros [?| ->]; [done|congruence]. Qed.

(** Removing slot [id_] of a directory removes that record only. *)
Lemma unlinked_holds dir id_ d q : id_ ∈ known ->
  holds (set_slot dir (slot_path id_) None d) q <-> holds d q /\ ~ (dir_of q = dir /\ payload_id q = id_).
Proof.
  intros Hid. unfold holds. setoid_rewrite lookup_set_slot. split.
  - intros (Hq & e & Hl & He). case_decide as Hd; [done|]. split; [eauto|]. intros [? Heq]. apply Hd. by rewrite Heq.
  - intros [(Hq & e & Hl & He) Hne]. split; [done|]. exists e. split; [|done]. rewrite decide_False; [done|].
    intros [? Hpath]. apply Hne. split; [done|]. by apply no_collision.
Qed.
Lemma unlinked_formed dir id_ d : id_ ∈ known -> well_formed d -> well_formed (set_slot dir (slot_path id_) None d).
Proof.
  intros Hid Hwf dir' path file. rewrite lookup_set_slot. case_decide as Hd; [done|]. intros Hin.
  destruct (Hwf _ _ _ Hin) as (q & <- & -> & Hq). exists q. split; [done|]. split; [done|]. apply unlinked_holds; [done|].
  split; [done|]. intros [Hdir Hq']. apply Hd. by rewrite Hq'.
Qed.
End Disk.
