(* ===== verification/VerifierChain.v ===== *)
(** * The chain of decisions of a remote session, and its restore from disk.

    The committed rounds form a chain from the genesis: each addresses the head the one before
    leaves.  [disk_ok d log] says that a disk holds the chain [log], the records of its unfinished
    round, and the fragments they need; [opened] rebuilds the journal from any such disk. *)
From Stdlib Require Import Strings.Byte.
From S2P Require Import Prelude Utf8 Sampling Float64 Verifier VerifierProofs VerifierJournal VerifierDisk.

Section Chain.
Context `{VerifierLaws} (k : MacKey) (s : AuthenticatedSessionV2) (known : list str).
Hypothesis no_collision : forall x y, x ∈ known -> y ∈ known -> slot_path x = slot_path y -> x = y.

Local Abbreviation core := (s_core s).
Local Abbreviation sha := (session_record_digest s).
Local Abbreviation holds := (holds k sha known).
Local Abbreviation genesis := (current (from_session k s)).
Implicit Types (d : Disk) (log done rest : list CommitRecordV2) (c : CommitRecordV2) (j : DurableVerifierJournalV2) (h : Head).

(** ** The chain. *)
Definition head_after h (c : CommitRecordV2) : Head := after_result h (a_core (c_result c)).
Definition replay h log : Head := foldl head_after h log.
Definition proven (c : CommitRecordV2) : Prop :=
  verify_historical (c_request c) core k = Ok tt /\ verify_against (c_result c) (c_request c) core = Ok tt /\
  validate_stage_receipt (c_renderer c) (c_result c) = Ok tt.
Fixpoint chained h log : Prop :=
  match log with
  | [] => True
  | c :: log => matches_head h (q_core (c_request c)) = true /\ proven c /\ chained (head_after h c) log
  end.
Definition ids log : list str := map commit_id log.

Lemma replay_app h log log' : replay h (log ++ log') = replay (replay h log) log'.
Proof. apply foldl_app. Qed.
Lemma chained_app h log log' : chained h (log ++ log') <-> chained h log /\ chained (replay h log) log'.
Proof. revert h. induction log as [|c log IH]; intros h; cbn; [naive_solver|]. rewrite IH. naive_solver. Qed.
Lemma chained_proven h log c : chained h log -> c ∈ log -> proven c.
Proof.
  revert h. induction log as [|c' log IH]; intros h; [by intros _ ?%elem_of_nil|].
  intros (_ & Hp & Hc) [Heq|Hin]%elem_of_cons; [by subst|eauto].
Qed.

(** What a verified result says to the chain. *)
Lemma verified_ids answer request : verify_against answer request core = Ok tt ->
  a_request_id (a_core answer) = request_id (q_core request).
Proof.
  intros Hv. destruct (verified_core _ _ _ Hv) as (? & ? & ? & ? & _ & _ & _ & Hc). rewrite Hc. reflexivity.
Qed.
Lemma open_frontier r : verify_historical r core k = Ok tt -> exists token ordinal_, frontier_in (q_core r) = Open token ordinal_.
Proof.
  intros Hv. unfold verify_historical in Hv. peel Hv. unfold validate_historical in Km. peel Km.
  destruct (frontier_in (q_core r)); [eauto|discriminate].
Qed.
(** A decision that commits nothing closes the session. *)
Lemma committed_or_closed answer request : verify_against answer request core = Ok tt ->
  committed_tokens (a_core answer) <> [] \/ exists reason, new_frontier (a_core answer) = Closed reason.
Proof.
  intros Hv. destruct (verified_core _ _ _ Hv) as (frontier_ & o & count & height & _ & Hcount & _ & Hc).
  rewrite Hc. unfold core_for, expected_committed. cbn. destruct (count =? 0) eqn:E; [|by left].
  right. apply Z.eqb_eq in E. subst count. destruct (decision (a_core answer)) as [n ?|[] n reason]; cbn in *; [| |eauto].
  all: injection Hcount; lia.
Qed.

Lemma matches_head_eq h r : matches_head h r = true -> frontier_in r = frontier h /\ base_evaluated_tokens r = evaluated_tokens h /\
  base_head_sha256 r = head_sha256 h.
Proof. unfold matches_head. intros. bool_prop. done. Qed.
Lemma replay_tokens h log : (length (evaluated_tokens h) <= length (evaluated_tokens (replay h log)))%nat.
Proof.
  revert h. induction log as [|c log IH]; intros h; [done|]. cbn. etrans; [|apply (IH (head_after h c))].
  cbn. rewrite length_app. lia.
Qed.
(** A closed head has no child. *)
Lemma closed_childless h log reason : chained h log -> frontier h = Closed reason -> log = [].
Proof.
  destruct log as [|c log]; [done|]. intros (Hm & (Hv & _) & _) Hclosed. apply matches_head_eq in Hm as (Hf & _).
  destruct (open_frontier _ Hv) as (? & ? & ?). congruence.
Qed.
(** Only the next commit addresses a head. *)
Lemma next_unique h c log c' : chained h (c :: log) -> c' ∈ log -> matches_head h (q_core (c_request c')) = false.
Proof.
  intros (_ & (_ & Hv & _) & Hchain) Hin. apply not_true_iff_false. intros Hm. apply matches_head_eq in Hm as (_ & Htokens & _).
  apply list_elem_of_split in Hin as (l1 & l2 & ->).
  destruct (committed_or_closed _ _ Hv) as [Hne|[reason Hclosed]].
  - apply Hne, nil_length_inv. apply chained_app in Hchain as [_ [Hm' _]]. apply matches_head_eq in Hm' as (_ & Htokens' & _).
    pose proof (replay_tokens (head_after h c) l1) as Hlen. rewrite <- Htokens', Htokens in Hlen. cbn in Hlen.
    rewrite length_app in Hlen. lia.
  - by eapply closed_childless, app_nil in Hchain as [_ ?].
Qed.

(** ** Heights. *)
Definition base_of (c : CommitRecordV2) : Z := a_base_output_height (a_core (c_result c)).
Lemma commit_heights h c : matches_head h (q_core (c_request c)) = true -> proven c ->
  base_of c = output_height h /\ output_height (head_after h c) = output_height h + zlen (committed_tokens (a_core (c_result c))).
Proof.
  intros Hm (_ & Hv & _). destruct (verified_core _ _ _ Hv) as (? & ? & ? & height & _ & _ & Hh & Hc).
  assert (base_output_height (q_core (c_request c)) = output_height h) as Hb by (unfold matches_head in Hm; by bool_prop).
  apply checked_add_Some in Hh as [Hh _]. unfold base_of, head_after. cbn. rewrite Hc at 1 2. cbn. lia.
Qed.
Lemma base_above h log c : chained h log -> c ∈ log -> output_height h <= base_of c.
Proof.
  revert h. induction log as [|c' log IH]; intros h; [by intros _ ?%elem_of_nil|].
  intros (Hm & Hp & Hc) Hin. destruct (commit_heights _ _ Hm Hp) as [Hb Ha].
  apply elem_of_cons in Hin as [->|Hin]; [lia|]. specialize (IH _ Hc Hin). pose proof (zlen_nonneg (committed_tokens (a_core (c_result c')))). lia.
Qed.
(** Only the last commit of a chain can fail to move it. *)
Lemma base_increases h c log c' : chained h (c :: log) -> c' ∈ log -> base_of c < base_of c'.
Proof.
  intros (Hm & Hp & Hc) Hin. destruct (commit_heights _ _ Hm Hp) as [Hb Ha]. pose proof (base_above _ _ _ Hc Hin) as Hle.
  destruct (committed_or_closed _ _ (proj1 (proj2 Hp))) as [Hne|[reason Hclosed]].
  - destruct (committed_tokens (a_core (c_result c))) as [|x l]; [done|]. rewrite zlen_cons in Ha. pose proof (zlen_nonneg l). lia.
  - by rewrite (closed_childless _ _ reason Hc Hclosed) in Hin; apply elem_of_nil in Hin.
Qed.
Lemma base_inj h log c c' : chained h log -> c ∈ log -> c' ∈ log -> base_of c = base_of c' -> c = c'.
Proof.
  revert h. induction log as [|c0 log IH]; intros h Hchain; [by intros ?%elem_of_nil|].
  intros [->|Hin]%elem_of_cons [->|Hin']%elem_of_cons Heq; [done| | |].
  - pose proof (base_increases _ _ _ _ Hchain Hin'). lia.
  - pose proof (base_increases _ _ _ _ Hchain Hin). lia.
  - destruct Hchain as (_ & _ & Hchain). by eapply IH.
Qed.

(** ** A disk that holds a chain. *)
Definition retired d (id_ : str) : Prop := exists t, holds d (PTombstone t) /\ t_request_id t = id_.
Definition activates (a : ActiveRecordV2) (c : CommitRecordV2) : Prop :=
  ac_request_id a = commit_id c /\ ac_result_sha256 a = record_digest (c_result c) /\
  ac_new_head_sha256 a = new_head_sha256 (a_core (c_result c)).
Definition activated d (c : CommitRecordV2) : Prop := exists a, holds d (PActive a) /\ activates a c.
Definition prepares d (p : PreparedRecordV2) : Prop := exists r,
  holds d (PReservation r) /\ reservation_id r = prepared_id p /\ p_request_intent_sha256 p = intent_sha256 (r_request r) /\
  verify_against (p_result p) (r_request r) core = Ok tt.
Definition stages d (t : StagedRecordV2) : Prop := exists p,
  holds d (PPrepared p) /\ prepared_id p = st_request_id t /\ st_request_intent_sha256 t = p_request_intent_sha256 p /\
  st_result_sha256 t = record_digest (p_result p) /\ validate_stage_receipt (st_renderer t) (p_result p) = Ok tt /\
  verify_fragment_cas d (p_result p) = Ok tt.
(** The fragments of a commit, its prepared result and its staged render are there. *)
Definition closes d c : Prop := verify_fragment_cas d (c_result c) = Ok tt /\
  (exists p, holds d (PPrepared p) /\ prepared_id p = commit_id c /\ p_result p = c_result c) /\
  (exists t, holds d (PStaged t) /\ st_request_id t = commit_id c).
Record disk_ok d log : Prop := {
  ok_session : session_file d = Some (Some s);
  ok_formed : well_formed k sha known d;
  ok_log c : holds d (PCommit c) <-> c ∈ log;
  ok_chain : chained genesis log;
  ok_ids : NoDup (ids log);
  ok_active a : holds d (PActive a) -> exists c, c ∈ log /\ activates a c;
  ok_done n c : log !! n = Some c -> (S n < length log)%nat -> activated d c;
  ok_ack a : holds d (PAck a) -> exists c, c ∈ log /\ activated d c /\ k_request_id a = commit_id c /\
    k_result_sha256 a = record_digest (c_result c) /\ applied_head_sha256 a = new_head_sha256 (a_core (c_result c));
  ok_tombstone t : holds d (PTombstone t) -> exists c, c ∈ log /\ activated d c /\ t_request_id t = commit_id c /\
    t_result_sha256 t = record_digest (c_result c);
  ok_reservation r : holds d (PReservation r) -> verify_historical (r_request r) core k = Ok tt;
  ok_parents r r' : holds d (PReservation r) -> holds d (PReservation r') ->
    reservation_id r ∉ ids log -> reservation_id r' ∉ ids log ->
    base_head_sha256 (q_core (r_request r)) = base_head_sha256 (q_core (r_request r')) -> r = r';
  ok_prepared p : holds d (PPrepared p) -> ~ retired d (prepared_id p) -> prepares d p;
  ok_staged t : holds d (PStaged t) -> ~ retired d (st_request_id t) -> stages d t;
  ok_commit c : c ∈ log -> ~ retired d (commit_id c) -> closes d c;
}.

(** The journal in memory, over such a disk: [done] is what it has activated. *)
Record follows d (done : list CommitRecordV2) j : Prop := {
  at_head : current j = replay genesis done;
  at_active c : c ∈ done -> activated d c;
  at_retired id_ : retired d id_ -> id_ ∈ ids done;
  at_completed id_ a : completions j !! id_ = Some a -> exists c, c ∈ done /\ commit_id c = id_ /\ c_result c = a;
  at_complete c : c ∈ done -> ~ retired d (commit_id c) -> completions j !! commit_id c = Some (c_result c);
  at_forgotten c : c ∈ done -> completions j !! commit_id c = None -> prepared j !! commit_id c = None;
  at_work c : c ∈ done -> (prepared j !! commit_id c = None -> reservations j !! commit_id c = None) /\
    (staged j !! commit_id c = None -> prepared j !! commit_id c = None);
  at_reserved id_ r : id_ ∉ ids done -> reservations j !! id_ = Some r <-> holds d (PReservation r) /\ reservation_id r = id_;
  at_prepared id_ p : id_ ∉ ids done -> prepared j !! id_ = Some p <-> holds d (PPrepared p) /\ prepared_id p = id_;
  at_staged id_ t : id_ ∉ ids done -> staged j !! id_ = Some t <-> holds d (PStaged t) /\ st_request_id t = id_;
}.
Record memory_ok d log j : Prop := {
  mem_key : key j = k;
  mem_session : session j = s;
  mem_sha : session_record_sha256 j = sha;
  mem_tombstones id_ t : tombstones j !! id_ = Some t <-> holds d (PTombstone t) /\ t_request_id t = id_;
  mem_done : exists done, log = done ++ option_list (pending_activation j) /\ follows d done j;
}.

(** ** Restoring the chain. *)
Lemma each_ok {A} (check : A -> checked unit) (l : list A) : (forall x, x ∈ l -> check x = Ok tt) -> each check l = Ok tt.
Proof.
  induction l as [|x l IH]; intros Hall; [done|]. cbn. rewrite Hall by (apply elem_of_cons; by left).
  apply IH. intros y Hy. apply Hall, elem_of_cons. by right.
Qed.
Lemma ids_inj log c c' : NoDup (ids log) -> c ∈ log -> c' ∈ log -> commit_id c = commit_id c' -> c = c'.
Proof.
  intros Hdup [i Hi]%list_elem_of_lookup [i' Hi']%list_elem_of_lookup Heq.
  assert (i = i') as ->; [|congruence]. eapply (NoDup_lookup (ids log)); [done| |]; unfold ids; rewrite list_lookup_fmap.
  - by rewrite Hi.
  - by rewrite Hi', Heq.
Qed.

(** Where the loop over the commits stands. *)
Record restoring d (done rest : list CommitRecordV2) (cm : gmap str CommitRecordV2) j : Prop := {
  rs_commits id_ c : cm !! id_ = Some c <-> c ∈ rest /\ commit_id c = id_;
  rs_head : current j = replay genesis done;
  rs_active c : c ∈ done -> activated d c;
  rs_completed id_ a : completions j !! id_ = Some a <-> exists c, c ∈ done /\ commit_id c = id_ /\ c_result c = a;
}.
(** The parts of the journal the loop leaves alone. *)
Definition same_tables j j' : Prop :=
  key j' = key j /\ session j' = session j /\ session_record_sha256 j' = session_record_sha256 j /\
  reservations j' = reservations j /\ prepared j' = prepared j /\ staged j' = staged j /\
  acknowledgements j' = acknowledgements j /\ tombstones j' = tombstones j.

Lemma next_candidate d done c rest cm j : restoring d done (c :: rest) cm j -> chained genesis (done ++ c :: rest) ->
  map_to_list (filter (fun e => matches_current_parent j (c_request e.2) = true) cm) = [(commit_id c, c)].
Proof.
  intros [Hcm Hhead _ _] Hchain. apply chained_app in Hchain as [_ Hchain].
  assert (filter (fun e => matches_current_parent j (c_request e.2) = true) cm = {[commit_id c := c]}) as ->;
    [|apply map_to_list_singleton].
  apply map_eq. intros id_. apply option_eq. intros c'. rewrite map_lookup_filter_Some, lookup_singleton_Some, Hcm. cbn.
  unfold matches_current_parent. rewrite Hhead. split.
  - intros [[[->|Hin]%elem_of_cons <-] Hm]; [done|]. by rewrite (next_unique _ _ _ _ Hchain Hin) in Hm.
  - intros [<- <-]. split; [|by destruct Hchain]. split; [|done]. apply elem_of_cons. by left.
Qed.

(** The journal the loop works on: its key, session and tombstones are in place. *)
Record loaded d j : Prop := {
  ld_key : key j = k;
  ld_session : session j = s;
  ld_tombstones id_ : is_Some (tombstones j !! id_) <-> retired d id_;
  ld_pending : pending_activation j = None;
}.
Lemma same_tables_refl j : same_tables j j.
Proof. done. Qed.
Lemma same_tables_trans j j' j'' : same_tables j j' -> same_tables j' j'' -> same_tables j j''.
Proof. unfold same_tables. intros (->&->&->&->&->&->&->&->) (->&->&->&->&->&->&->&->). done. Qed.

Lemma restoring_next d done c rest (cm : gmap str CommitRecordV2) j : NoDup (ids (done ++ c :: rest)) -> restoring d done (c :: rest) cm j -> activated d c ->
  restoring d (done ++ [c]) rest (delete (commit_id c) cm)
    (with_current j (after_result (current j) (a_core (c_result c))) (<[commit_id c := c_result c]> (completions j))).
Proof.
  intros Hdup [Hcm Hhead Hact Hcompl] Hc. unfold ids in Hdup. rewrite map_app in Hdup. cbn [map] in Hdup.
  apply NoDup_app in Hdup as (_ & Hdisj & Hrest). apply NoDup_cons in Hrest as [Hfresh _].
  split; cbn [completions current with_current].
  - intros id_ c'. rewrite lookup_delete_Some, Hcm. setoid_rewrite elem_of_cons. split.
    + intros (Hne & [->|Hin] & <-); [done|by split].
    + intros [Hin <-]. split; [|by auto]. intros Heq. apply Hfresh. rewrite Heq. by apply (list_elem_of_fmap_2 commit_id).
  - by rewrite replay_app, Hhead.
  - intros c' [Hin| ->%list_elem_of_singleton]%elem_of_app; auto.
  - intros id_ a. rewrite lookup_insert_Some, Hcompl. setoid_rewrite elem_of_app. setoid_rewrite list_elem_of_singleton. split.
    + intros [[<- <-]|[_ (c' & ? & ? & ?)]]; [by exists c; auto|exists c'; auto].
    + intros (c' & [Hin| ->] & <- & <-); [|by left]. right. split; [|by exists c'].
      intros Heq. apply (Hdisj (commit_id c')); [by apply (list_elem_of_fmap_2 commit_id)|]. rewrite Heq. apply elem_of_cons. by left.
Qed.

Lemma restore_turn d log done c rest (cm : gmap str CommitRecordV2) (am : gmap str ActiveRecordV2) j : disk_ok d log -> log = done ++ c :: rest ->
  restoring d done (c :: rest) cm j -> loaded d j -> (forall id_ a, am !! id_ = Some a <-> holds d (PActive a) /\ ac_request_id a = id_) ->
  (activated d c /\ exists j', restore_commit d am cm j = Ok (delete (commit_id c) cm, j') /\
     restoring d (done ++ [c]) rest (delete (commit_id c) cm) j' /\ same_tables j j' /\ loaded d j') \/
  (~ activated d c /\ rest = [] /\ restore_commit d am cm j = Ok (delete (commit_id c) cm, with_pending j (Some c))).
Proof.
  intros Hok Hlog Hr Hld Ham. pose proof (ok_chain _ _ Hok) as Hchain. pose proof (ok_ids _ _ Hok) as Hdup.
  rewrite Hlog in Hchain. assert (c ∈ log) as Hin by (rewrite Hlog; apply elem_of_app; right; apply elem_of_cons; by left).
  destruct (chained_proven _ _ _ (ok_chain _ _ Hok) Hin) as (Hvr & Hva & Hreceipt).
  assert (matches_current_parent j (c_request c) = true) as Hmatch.
  { apply chained_app in Hchain as [_ [Hm _]]. unfold matches_current_parent. by rewrite (rs_head _ _ _ _ _ Hr). }
  unfold restore_commit. rewrite (next_candidate d done c rest cm j Hr Hchain). cbn beta iota zeta.
  unfold core_of. rewrite (ld_session _ _ Hld), (ld_key _ _ Hld), Hvr, Hva, Hreceipt.
  assert ((if bool_decide (is_Some (tombstones j !! commit_id c)) then Ok () else verify_fragment_cas d (c_result c)) = Ok ()) as ->.
  { case_bool_decide as Ht; [done|]. rewrite (ld_tombstones _ _ Hld) in Ht. by apply (ok_commit _ _ Hok). }
  destruct (am !! commit_id c) as [a|] eqn:Ea.
  - left. apply Ham in Ea as [Ha Hid]. destruct (ok_active _ _ Hok a Ha) as (c' & Hin' & Hact).
    assert (c' = c) as -> by (eapply ids_inj; [exact Hdup|done|done|destruct Hact as [<- _]; done]).
    assert (activated d c) as Hac by by exists a.
    split; [done|]. destruct Hact as (_ & -> & ->). rewrite !bool_decide_eq_true_2 by done. cbn [andb].
    unfold apply_active, core_of. rewrite (ld_session _ _ Hld), Hva, Hmatch.
    assert (completions j !! request_id (q_core (c_request c)) = None) as ->.
    { destruct (completions j !! _) as [b|] eqn:Eb; [|done]. apply (rs_completed _ _ _ _ _ Hr) in Eb as (c' & Hc' & Hid' & _).
      rewrite Hlog in Hdup. unfold ids in Hdup. rewrite map_app in Hdup. apply NoDup_app in Hdup as (_ & Hdisj & _).
      destruct (Hdisj (commit_id c')); [by apply (list_elem_of_fmap_2 commit_id)|]. rewrite Hid'. cbn. apply elem_of_cons. by left. }
    cbn [negb]. eexists. split; [reflexivity|]. split; [|split; [done|]].
    + rewrite Hlog in Hdup. by apply restoring_next.
    + destruct Hld. split; done.
  - right. assert (~ activated d c) as Hna.
    { intros (a & Ha & Hid & _). assert (am !! commit_id c = Some a) by (by apply Ham). congruence. }
    assert (rest = []) as ->.
    { destruct rest as [|c2 rest]; [done|]. destruct Hna. eapply (ok_done _ _ Hok (length done)); rewrite Hlog.
      - by rewrite lookup_app_r, Nat.sub_diag by lia.
      - rewrite length_app. cbn. lia. }
    split; [done|]. split; [done|]. rewrite (ld_pending _ _ Hld). rewrite bool_decide_eq_true_2 by done.
    rewrite bool_decide_eq_true_2; [done|]. apply map_size_empty_iff, map_eq. intros id_. apply option_eq. intros c'.
    rewrite lookup_delete_Some, (rs_commits _ _ _ _ _ Hr), lookup_empty. split; [|done].
    intros (Hne & Hc' & <-). by apply list_elem_of_singleton in Hc' as ->.
Qed.

Lemma restoring_empty d done (cm : gmap str CommitRecordV2) j : restoring d done [] cm j -> cm = ∅.
Proof.
  intros Hr. apply map_eq. intros id_. apply option_eq. intros c. rewrite (rs_commits _ _ _ _ _ Hr), lookup_empty.
  split; [|done]. by intros [?%elem_of_nil _].
Qed.
Lemma restore_commits_ok (fuel : nat) d log done rest (cm : gmap str CommitRecordV2) (am : gmap str ActiveRecordV2) j :
  disk_ok d log -> log = done ++ rest -> restoring d done rest cm j -> loaded d j ->
  (forall id_ a, am !! id_ = Some a <-> holds d (PActive a) /\ ac_request_id a = id_) -> (size cm <= fuel)%nat ->
  exists j' done', restore_commits fuel d am cm j = Ok j' /\ log = done' ++ option_list (pending_activation j') /\
    restoring d done' [] ∅ (with_pending j' None) /\ same_tables j j' /\
    (forall c, pending_activation j' = Some c -> ~ activated d c).
Proof.
  revert fuel done cm j. induction rest as [|c rest IH]; intros fuel done cm j Hok Hlog Hr Hld Ham Hfuel.
  - assert (cm = ∅) as -> by by eapply restoring_empty. exists j, done. pose proof (ld_pending _ _ Hld) as Hp.
    split; [by destruct fuel|]. rewrite Hp. split; [done|]. split; [destruct Hr; by split|]. split; [done|]. by intros c [=].
  - assert (cm !! commit_id c = Some c) as Hc by (apply (rs_commits _ _ _ _ _ Hr); split; [apply elem_of_cons; by left|done]).
    assert (size cm <> 0%nat) as Hsize by (intros E; apply map_size_empty_iff in E; by rewrite E in Hc).
    assert (size (delete (commit_id c) cm) = pred (size cm)) as Hdel by (apply map_size_delete_Some; eauto).
    destruct fuel as [|fuel]; [lia|]. cbn [restore_commits]. rewrite bool_decide_eq_false_2 by done.
    destruct (restore_turn _ _ _ _ _ _ _ _ Hok Hlog Hr Hld Ham) as [(Hact & j1 & -> & Hr1 & Hsame & Hld1)|(Hna & -> & ->)].
    + destruct (IH fuel (done ++ [c]) (delete (commit_id c) cm) j1) as (j' & done' & Hj' & Hlog' & Hr' & Hsame' & Hp'); try done.
      { by rewrite <- app_assoc. }
      { rewrite Hdel. lia. }
      exists j', done'. split; [done|]. split; [done|]. split; [done|]. split; [by eapply same_tables_trans|done].
    + exists (with_pending j (Some c)), done. cbn [pending_activation with_pending].
      assert (size (delete (commit_id c) cm) = 0%nat) as Hz.
      { apply map_size_empty_iff, map_eq. intros id_. apply option_eq. intros c'.
        rewrite lookup_delete_Some, (rs_commits _ _ _ _ _ Hr), lookup_empty. split; [|done].
        intros (Hne & Hc' & <-). by apply list_elem_of_singleton in Hc' as ->. }
      split; [by destruct fuel; cbn [restore_commits]; rewrite bool_decide_eq_true_2|]. split; [done|]. split; [|split; [done|]].
      * destruct Hr. split; try done. intros id_ c'. rewrite lookup_empty. split; [done|]. by intros [?%elem_of_nil _].
      * by intros c' [= <-].
Qed.

(** ** Opening. *)
Lemma lookup_without {A B : Type} (gone : gmap str B) (records : gmap str A) id_ r :
  without gone records !! id_ = Some r <-> records !! id_ = Some r /\ gone !! id_ = None.
Proof. unfold without. by rewrite map_lookup_filter_Some. Qed.
(** A table holds the records of one directory. *)
Definition reads {T} `{SlotType T} d (m : gmap str T) : Prop := forall id_ r, m !! id_ = Some r <-> holds d (wrap r) /\ slot_id r = id_.

Lemma prepared_checks d log (ts : gmap str TombstoneRecordV2) (rs : gmap str ReservationRecordV2) (ps : gmap str PreparedRecordV2) j :
  disk_ok d log -> reads d ts -> reads d rs -> reads d ps -> session j = s -> reservations j = without ts rs -> prepared j = without ts ps ->
  each (check_prepared j) (map_to_list (prepared j)) = Ok tt.
Proof.
  intros Hok Hts Hrs Hps Hs Er Ep. apply each_ok. intros [id_ p] Hin%elem_of_map_to_list.
  rewrite Ep, lookup_without in Hin. destruct Hin as [Hp Hnone]. apply Hps in Hp as [Hp Hid]. cbn in Hp, Hid.
  destruct (ok_prepared _ _ Hok p Hp) as (r & Hr & Hrid & Hintent & Hv).
  { rewrite Hid. intros (t & Ht & Htid). assert (ts !! id_ = Some t) by (by apply Hts). congruence. }
  unfold check_prepared. cbn [fst snd]. rewrite Er.
  assert (without ts rs !! id_ = Some r) as ->.
  { apply lookup_without. split; [|done]. apply Hrs. split; [done|]. cbn. congruence. }
  cbn [ok_or]. rewrite Hintent, bool_decide_eq_true_2 by done. cbn. unfold core_of. by rewrite Hs.
Qed.
Lemma staged_checks d log (ts : gmap str TombstoneRecordV2) (ps : gmap str PreparedRecordV2) (ss : gmap str StagedRecordV2) j :
  disk_ok d log -> reads d ts -> reads d ps -> reads d ss -> prepared j = without ts ps -> staged j = without ts ss ->
  each (check_staged d j) (map_to_list (staged j)) = Ok tt.
Proof.
  intros Hok Hts Hps Hss Ep Es. apply each_ok. intros [id_ t] Hin%elem_of_map_to_list.
  rewrite Es, lookup_without in Hin. destruct Hin as [Ht Hnone]. apply Hss in Ht as [Ht Hid]. cbn in Ht, Hid.
  destruct (ok_staged _ _ Hok t Ht) as (p & Hp & Hpid & Hintent & Hsha & Hreceipt & Hcas).
  { rewrite Hid. intros (t' & Ht' & Htid). assert (ts !! id_ = Some t') by (by apply Hts). congruence. }
  unfold check_staged. cbn [fst snd]. rewrite Ep.
  assert (without ts ps !! id_ = Some p) as ->.
  { apply lookup_without. split; [|done]. apply Hps. split; [done|]. cbn. congruence. }
  cbn [ok_or]. rewrite Hintent, Hsha, !bool_decide_eq_true_2 by done. cbn [negb orb]. by rewrite Hreceipt.
Qed.

(** What the loop over the commits leaves, for the checks that follow it. *)
Record restored d log j : Prop := {
  rd_log : exists done, log = done ++ option_list (pending_activation j) /\ restoring d done [] ∅ (with_pending j None);
  rd_pending c : pending_activation j = Some c -> ~ activated d c;
}.
Lemma restored_completed d log j c : disk_ok d log -> restored d log j -> c ∈ log -> activated d c ->
  completions j !! commit_id c = Some (c_result c).
Proof.
  intros Hok [(done & -> & Hr) Hp] [Hin|Hin]%elem_of_app Hact.
  - apply (rs_completed _ _ _ _ _ Hr). by exists c.
  - destruct (pending_activation j) as [c'|] eqn:E; [|by apply elem_of_nil in Hin].
    apply list_elem_of_singleton in Hin as ->. by destruct (Hp c').
Qed.
Lemma final_checks d log (ts : gmap str TombstoneRecordV2) (ks : gmap str AckRecordV2) j :
  disk_ok d log -> restored d log j -> reads d ts -> reads d ks -> tombstones j = ts -> acknowledgements j = ks ->
  each (check_ack j) (map_to_list (acknowledgements j)) = Ok tt /\ each (check_tombstone j) (map_to_list (tombstones j)) = Ok tt.
Proof.
  intros Hok Hr Hts Hks -> ->. split; apply each_ok; intros [id_ x] Hin%elem_of_map_to_list.
  - apply Hks in Hin as [Hx Hid]. cbn in Hx, Hid. destruct (ok_ack _ _ Hok x Hx) as (c & Hin & Hact & Hcid & Hsha & Hhead).
    unfold check_ack. cbn [fst snd]. rewrite <- Hid, Hcid, (restored_completed _ _ _ _ Hok Hr Hin Hact). cbn [ok_or].
    by rewrite Hsha, Hhead, !bool_decide_eq_true_2.
  - apply Hts in Hin as [Hx Hid]. cbn in Hx, Hid. destruct (ok_tombstone _ _ Hok x Hx) as (c & Hin & Hact & Hcid & Hsha).
    unfold check_tombstone. cbn [fst snd]. rewrite <- Hid, Hcid, (restored_completed _ _ _ _ Hok Hr Hin Hact). cbn [ok_or].
    by rewrite Hsha, bool_decide_eq_true_2.
Qed.

Lemma commits_restoring d log (cm : gmap str CommitRecordV2) j : disk_ok d log -> reads d cm -> current j = genesis ->
  completions j = ∅ -> restoring d [] log cm j.
Proof.
  intros Hok Hcm Hh Hc. split; [|done|by intros c ?%elem_of_nil|].
  - intros id_ c. rewrite (Hcm id_ c). cbn. by rewrite (ok_log _ _ Hok).
  - intros id_ a. rewrite Hc, lookup_empty. split; [done|]. by intros (c & ?%elem_of_nil & _).
Qed.
(** The tables after the loop, less what is finished, follow the disk. *)
Lemma restored_follows d log done (ts : gmap str TombstoneRecordV2) (rs : gmap str ReservationRecordV2) (ps : gmap str PreparedRecordV2)
    (ss : gmap str StagedRecordV2) j : disk_ok d log -> log = done ++ option_list (pending_activation j) ->
  restoring d done [] ∅ (with_pending j None) -> (forall c, pending_activation j = Some c -> ~ activated d c) ->
  reads d ts -> reads d rs -> reads d ps -> reads d ss ->
  follows d done (with_work j (without (completions j) (without ts rs)) (without (completions j) (without ts ps))
                    (without (completions j) (without ts ss))).
Proof.
  intros Hok Hlog [_ Hhead Hact Hcompl] Hpend Hts Hrs Hps Hss. cbn in Hhead, Hcompl.
  assert (forall c, c ∈ done -> completions j !! commit_id c = Some (c_result c)) as Hall by (intros c Hc; apply Hcompl; by exists c).
  assert (forall id_, id_ ∉ ids done -> completions j !! id_ = None) as Hnone.
  { intros id_ Hid. destruct (completions j !! id_) as [a|] eqn:E; [|done]. apply Hcompl in E as (c & Hc & <- & _).
    destruct Hid. by apply (list_elem_of_fmap_2 commit_id). }
  assert (forall id_, retired d id_ -> id_ ∈ ids done) as Hretired.
  { intros id_ (t & Ht & <-). destruct (ok_tombstone _ _ Hok t Ht) as (c & Hin & Hc & -> & _). rewrite Hlog in Hin.
    apply elem_of_app in Hin as [Hin|Hin]; [by apply (list_elem_of_fmap_2 commit_id)|].
    destruct (pending_activation j) as [c'|]; [|by apply elem_of_nil in Hin].
    apply list_elem_of_singleton in Hin as ->. by destruct (Hpend c'). }
  assert (forall id_, id_ ∉ ids done -> ts !! id_ = None) as Hlive.
  { intros id_ Hid. destruct (ts !! id_) as [t|] eqn:E; [|done]. apply Hts in E as [Ht Htid]. destruct Hid. apply Hretired. by exists t. }
  assert (forall A (m : gmap str A) c, c ∈ done -> without (completions j) (without ts m) !! commit_id c = None) as Hgone.
  { intros A m c Hc. destruct (without _ _ !! _) eqn:E; [|done]. apply lookup_without in E as [_ E]. by rewrite (Hall c Hc) in E. }
  assert (forall A (m : gmap str A) id_ r, id_ ∉ ids done -> without (completions j) (without ts m) !! id_ = Some r <-> m !! id_ = Some r) as Hkept.
  { intros A m id_ r Hid. rewrite !lookup_without, (Hnone _ Hid), (Hlive _ Hid). naive_solver. }
  split; cbn [current completions reservations prepared staged with_work]; try done.
  - intros id_ a Ha. by apply Hcompl.
  - auto.
  - auto.
  - intros c Hc. by rewrite !Hgone.
  - intros id_ r Hid. rewrite Hkept by done. apply Hrs.
  - intros id_ r Hid. rewrite Hkept by done. apply Hps.
  - intros id_ r Hid. rewrite Hkept by done. apply Hss.
Qed.

(** Every good disk opens, to a journal that follows it and has every activated result. *)
Lemma opened d log expected_key_id minimum_epoch : verify_session_historical s k expected_key_id minimum_epoch = Ok tt -> disk_ok d log ->
  exists j, open_journal d k expected_key_id minimum_epoch = Ok j /\ memory_ok d log j /\ restored d log j.
Proof.
  intros Hs Hok. pose proof (ok_formed _ _ Hok) as Hwf. unfold open_journal. rewrite (ok_session _ _ Hok). cbn [ok_or]. rewrite Hs.
  unfold restore_records. set (j0 := from_session k s).
  assert (forall T (ST : SlotType T) j, key j = k -> session_record_sha256 j = sha ->
      exists m : gmap str T, read_slots unwrap slot_id slot_dir (kind_of slot_dir) d j = Ok m /\ reads d m)
    as Hread by (intros T ST j Hk Hsha; by apply (read_slots_ok k sha known)).
  destruct (Hread _ tombstone_slot j0) as (ts & Ets & Hts); [done..|]. destruct (Hread _ reservation_slot j0) as (rs & Ers & Hrs); [done..|].
  destruct (Hread _ prepared_slot j0) as (ps & Eps & Hps); [done..|]. destruct (Hread _ staged_slot j0) as (ss & Ess & Hss); [done..|].
  destruct (Hread _ ack_slot j0) as (ks & Eks & Hks); [done..|].
  cbn in Ets, Ers, Eps, Ess, Eks. rewrite Ets, Ers, Eps, Ess, Eks. cbv zeta.
  set (j1 := with_retired _ _ _ _).
  assert (each (fun e => verify_historical (r_request e.2) (core_of j1) (key j1)) (map_to_list (reservations j1)) = Ok tt) as ->.
  { apply each_ok. intros [id_ r] Hin%elem_of_map_to_list. apply lookup_without in Hin as [Hr _]. apply Hrs in Hr as [Hr _].
    by apply (ok_reservation _ _ Hok). }
  rewrite (prepared_checks d log ts rs ps j1), (staged_checks d log ts ps ss j1) by done.
  destruct (Hread _ commit_slot j1) as (cm & Ecm & Hcm); [done..|]. destruct (Hread _ active_slot j1) as (am & Eam & Ham); [done..|].
  cbn in Ecm, Eam. rewrite Ecm, Eam.
  rewrite bool_decide_eq_true_2.
  2: { intros id_ [a Ha]%elem_of_dom. apply Ham in Ha as [Ha Hid]. destruct (ok_active _ _ Hok a Ha) as (c & Hin & Hcid & _).
       apply elem_of_dom. exists c. apply Hcm. split; [by apply (ok_log _ _ Hok)|]. cbn in *. congruence. }
  cbn [negb].
  destruct (restore_commits_ok (size cm) d log [] log cm am j1) as (j2 & finished & -> & Hlog & Hr & Hsame & Hpend);
    [exact Hok|done|by apply commits_restoring| |exact Ham|done|].
  { split; try done. intros id_. split.
    - intros [t Ht]. exists t. by apply Hts.
    - intros (t & Ht). exists t. by apply Hts. }
  destruct Hsame as (Ek & Es & Esha & Er & Ep & Est & Eack & Et). cbn in Ek, Es, Esha, Er, Ep, Est, Eack, Et.
  set (j3 := with_work _ _ _ _).
  assert (restored d log j3) as Hrd by (split; [|exact Hpend]; exists finished; split; [done|]; by destruct Hr).
  destruct (final_checks d log ts ks j3 Hok Hrd) as [-> ->]; [done|done|done|done|].
  exists j3. split; [done|]. split; [|done]. split; [done|done|done| |].
  - intros id_ t. cbn [j3 tombstones with_work]. rewrite Et. apply Hts.
  - exists finished. split; [done|]. unfold j3. rewrite Er, Ep, Est. by apply (restored_follows d log).
Qed.
End Chain.
