(* ===== verification/VerifierSafety.v ===== *)
(** * The remote session survives every crash.

    Every operation of the journal, cut short by a failing file operation or run to its end,
    leaves a disk that holds the session's chain: nothing decided is lost, nothing is decided
    twice, and the journal opens again to the same head. *)
From Stdlib Require Import Strings.Byte.
From S2P Require Import Prelude Utf8 Sampling Float64 Verifier VerifierProofs VerifierJournal VerifierDisk VerifierChain.

Section Safety.
Context `{VerifierLaws} (k : MacKey) (s : AuthenticatedSessionV2) (known : list str).
Hypothesis no_collision : forall x y, x ∈ known -> y ∈ known -> slot_path x = slot_path y -> x = y.

Local Abbreviation core := (s_core s).
Local Abbreviation sha := (session_record_digest s).
Local Abbreviation holds := (holds k sha known).
Local Abbreviation wrote := (wrote k sha known).
Local Abbreviation genesis := (current (from_session k s)).
Local Abbreviation disk_ok := (disk_ok k s known).
Local Abbreviation memory_ok := (memory_ok k s known).
Local Abbreviation follows := (follows k s known).
Local Abbreviation retired := (retired k s known).
Local Abbreviation activated := (activated k s known).
Local Abbreviation prepares := (prepares k s known).
Local Abbreviation stages := (stages k s known).
Local Abbreviation closes := (closes k s known).
Implicit Types (d : Disk) (log done rest : list CommitRecordV2) (c : CommitRecordV2) (j : DurableVerifierJournalV2) (p : Payload).

(** ** Adding a record. *)
Definition admissible d log p : Prop :=
  match p with
  | PReservation r => verify_historical (r_request r) core k = Ok tt /\
      forall r', holds d (PReservation r') -> reservation_id r' ∉ ids log ->
        (base_head_sha256 (q_core (r_request r')) = base_head_sha256 (q_core (r_request r))) -> r' = r
  | PPrepared r => prepares d r
  | PStaged r => stages d r
  | PCommit c => matches_head (replay genesis log) (q_core (c_request c)) = true /\ proven k s c /\ (commit_id c ∉ ids log) /\
      (forall c', c' ∈ log -> activated d c') /\ closes d c
  | PActive a => exists c, c ∈ log /\ activates a c
  | PAck a => exists c, c ∈ log /\ activated d c /\ k_request_id a = commit_id c /\ k_result_sha256 a = record_digest (c_result c) /\
      applied_head_sha256 a = new_head_sha256 (a_core (c_result c))
  | PTombstone t => exists c, c ∈ log /\ activated d c /\ t_request_id t = commit_id c /\ t_result_sha256 t = record_digest (c_result c)
  end.
Definition added p : list CommitRecordV2 := match p with PCommit c => [c] | _ => [] end.

(** [d'] has at least the records of [d], and at least its fragments. *)
Record extends d d' : Prop := {
  ex_session : session_file d' = session_file d;
  ex_formed : well_formed k sha known d';
  ex_holds p : holds d p -> holds d' p;
  ex_cas : cas d ⊆ cas d';
}.
Lemma wrote_extends p d d' : wrote p d d' -> extends d d'.
Proof. intros [Hs Hc Hf Hh]. split; [done|done| |by rewrite Hc]. intros q Hq. apply Hh. by left. Qed.

Lemma fragment_cas_iff d answer : verify_fragment_cas d answer = Ok tt <->
  forall f, f ∈ fragments (a_core answer) -> exists bytes, cas d !! sha256 f = Some bytes /\ zlen bytes = byte_len f /\ sha256_hex bytes = sha256 f.
Proof.
  unfold verify_fragment_cas. induction (fragments (a_core answer)) as [|f fs IH].
  - split; [by intros _ f ?%elem_of_nil|done].
  - cbn [map validate_all]. setoid_rewrite elem_of_cons. split.
    + intros Hv. peel Hv. peel Km. bool_prop. match goal with K : ok_or _ _ = Ok _ |- _ => apply ok_or_ok in K end.
      match goal with u : unit |- _ => destruct u end. intros g [->|Hg]; [by eexists|]. by apply IH.
    + intros Hall. destruct (Hall f (or_introl eq_refl)) as (bytes & -> & Hlen & Hs). cbn [ok_or].
      rewrite Hlen, Z.eqb_refl, Hs, bool_decide_eq_true_2 by done. cbn [negb]. apply IH. auto.
Qed.
Lemma fragment_cas_mono d d' answer : cas d ⊆ cas d' -> verify_fragment_cas d answer = Ok tt -> verify_fragment_cas d' answer = Ok tt.
Proof.
  rewrite !fragment_cas_iff. intros Hsub Hall f Hf. destruct (Hall f Hf) as (bytes & Hb & ?). exists bytes. split; [|done].
  by eapply lookup_weaken.
Qed.
Lemma activated_mono d d' c : extends d d' -> activated d c -> activated d' c.
Proof. intros He (a & Ha & ?). exists a. split; [|done]. by apply He. Qed.
Lemma retired_mono d d' id_ : extends d d' -> retired d id_ -> retired d' id_.
Proof. intros He (t & Ht & ?). exists t. split; [|done]. by apply He. Qed.
Lemma prepares_mono d d' r : extends d d' -> prepares d r -> prepares d' r.
Proof. intros He (q & Hq & ?). exists q. split; [|done]. by apply He. Qed.
Lemma stages_mono d d' t : extends d d' -> stages d t -> stages d' t.
Proof.
  intros He (r & Hr & ? & ? & ? & ? & Hcas). exists r. split; [by apply He|].
  do 4 (split; [done|]). eapply fragment_cas_mono; [|done]. by apply He.
Qed.

Lemma closes_mono d d' c : extends d d' -> closes d c -> closes d' c.
Proof.
  intros He (Hv & (r & Hr & ?) & (t & Ht & ?)). split; [eapply fragment_cas_mono; [|done]; apply He|].
  split; [exists r|exists t]; (split; [by apply He|done]).
Qed.

Lemma grow_log d d' log p : disk_ok d log -> wrote p d d' -> admissible d log p ->
  (forall c, holds d' (PCommit c) <-> c ∈ log ++ added p) /\ chained k s genesis (log ++ added p) /\ NoDup (ids (log ++ added p)) /\
  (forall n c, (log ++ added p) !! n = Some c -> (S n < length (log ++ added p))%nat -> activated d' c).
Proof.
  intros Hok Hw Ha. pose proof (wrote_extends _ _ _ Hw) as He.
  assert (forall c, holds d' (PCommit c) <-> c ∈ log \/ PCommit c = p) as Hl by (intros c; by rewrite (wrote_holds _ _ _ _ _ _ Hw), (ok_log _ _ _ _ _ Hok)).
  destruct (decide (added p = [])) as [E|E].
  - rewrite E, app_nil_r. split; [|split; [apply Hok|split; [apply Hok|]]].
    + intros c. rewrite Hl. split; [|by left]. intros [?| <-]; done.
    + intros n c Hn Hlt. eapply activated_mono; [done|]. by eapply (ok_done _ _ _ _ _ Hok).
  - destruct p as [| | |c| | |]; try done. cbn [added]. destruct Ha as (Hm & Hp & Hfresh & Hact & _). split; [|split; [|split]].
    + intros c'. rewrite Hl, elem_of_app, list_elem_of_singleton. naive_solver.
    + apply chained_app. split; [apply Hok|]. cbn. done.
    + unfold ids. rewrite map_app. apply NoDup_app. split; [apply Hok|]. split; [|apply NoDup_singleton].
      intros id_ Hid ->%list_elem_of_singleton. done.
    + intros n c' Hn Hlt. rewrite length_app in Hlt. cbn in Hlt. rewrite lookup_app_l in Hn by lia.
      eapply activated_mono; [done|]. apply Hact. by eapply list_elem_of_lookup_2.
Qed.

Lemma grow_records d d' log p : disk_ok d log -> wrote p d d' -> admissible d log p ->
  (forall a, holds d' (PActive a) -> exists c, c ∈ log ++ added p /\ activates a c) /\
  (forall a, holds d' (PAck a) -> exists c, c ∈ log ++ added p /\ activated d' c /\ k_request_id a = commit_id c /\
    k_result_sha256 a = record_digest (c_result c) /\ applied_head_sha256 a = new_head_sha256 (a_core (c_result c))) /\
  (forall t, holds d' (PTombstone t) -> exists c, c ∈ log ++ added p /\ activated d' c /\ t_request_id t = commit_id c /\
    t_result_sha256 t = record_digest (c_result c)).
Proof.
  intros Hok Hw Ha. pose proof (wrote_extends _ _ _ Hw) as He. split; [|split].
  - intros a [Hold|<-]%(wrote_holds _ _ _ _ _ _ Hw).
    + destruct (ok_active _ _ _ _ _ Hok a Hold) as (c & ? & ?). exists c. by rewrite elem_of_app; auto.
    + destruct Ha as (c & ? & ?). exists c. by rewrite elem_of_app; auto.
  - intros a [Hold|<-]%(wrote_holds _ _ _ _ _ _ Hw).
    + destruct (ok_ack _ _ _ _ _ Hok a Hold) as (c & ? & ? & ?). exists c. rewrite elem_of_app. eauto using activated_mono.
    + destruct Ha as (c & ? & ? & ?). exists c. rewrite elem_of_app. eauto using activated_mono.
  - intros a [Hold|<-]%(wrote_holds _ _ _ _ _ _ Hw).
    + destruct (ok_tombstone _ _ _ _ _ Hok a Hold) as (c & ? & ? & ?). exists c. rewrite elem_of_app. eauto using activated_mono.
    + destruct Ha as (c & ? & ? & ?). exists c. rewrite elem_of_app. eauto using activated_mono.
Qed.
Lemma grow_work d d' log p : disk_ok d log -> wrote p d d' -> admissible d log p ->
  (forall r, holds d' (PPrepared r) -> ~ retired d' (prepared_id r) -> prepares d' r) /\
  (forall t, holds d' (PStaged t) -> ~ retired d' (st_request_id t) -> stages d' t) /\
  (forall c, c ∈ log ++ added p -> ~ retired d' (commit_id c) -> closes d' c).
Proof.
  intros Hok Hw Ha. pose proof (wrote_extends _ _ _ Hw) as He.
  assert (forall id_, ~ retired d' id_ -> ~ retired d id_) as Hret by eauto using retired_mono.
  split; [|split].
  - intros r [Hold|<-]%(wrote_holds _ _ _ _ _ _ Hw) Hnr; eapply prepares_mono; try done.
    by apply (ok_prepared _ _ _ _ _ Hok); auto.
  - intros t [Hold|<-]%(wrote_holds _ _ _ _ _ _ Hw) Hnr; eapply stages_mono; try done.
    by apply (ok_staged _ _ _ _ _ Hok); auto.
  - intros c [Hin|Hin]%elem_of_app Hnr; eapply closes_mono; try done.
    + by apply (ok_commit _ _ _ _ _ Hok); auto.
    + destruct p; try by apply elem_of_nil in Hin. apply list_elem_of_singleton in Hin as ->. by destruct Ha as (_ & _ & _ & _ & ?).
Qed.

(** A record admitted by the state of the disk keeps the disk good. *)
Lemma grow d d' log p : disk_ok d log -> wrote p d d' -> admissible d log p -> disk_ok d' (log ++ added p).
Proof.
  intros Hok Hw Ha. destruct (grow_log _ _ _ _ Hok Hw Ha) as (Hlog & Hchain & Hids & Hdone).
  destruct (grow_records _ _ _ _ Hok Hw Ha) as (Hact & Hack & Htomb). destruct (grow_work _ _ _ _ Hok Hw Ha) as (Hprep & Hstaged & Hcommit).
  assert (forall id_, id_ ∉ ids (log ++ added p) -> id_ ∉ ids log) as Hless.
  { intros id_ Hid Hin. apply Hid. unfold ids. rewrite map_app, elem_of_app. by left. }
  split; try done.
  - rewrite (wrote_session _ _ _ _ _ _ Hw). apply Hok.
  - apply Hw.
  - intros r [Hold|<-]%(wrote_holds _ _ _ _ _ _ Hw); [by apply (ok_reservation _ _ _ _ _ Hok)|by destruct Ha].
  - intros r r' [Hr|Er]%(wrote_holds _ _ _ _ _ _ Hw) [Hr'|Er']%(wrote_holds _ _ _ _ _ _ Hw) Hid Hid' Hbase.
    + by apply (ok_parents _ _ _ _ _ Hok); auto.
    + subst p. destruct Ha as [_ Hone]. by apply Hone; auto.
    + subst p. destruct Ha as [_ Hone]. symmetry. by apply Hone; auto.
    + congruence.
Qed.

(** ** Losing what is retired. *)
(** The results whose fragments must stay. *)
Definition needed d log (answer : AuthenticatedResultV2) : Prop :=
  (exists t r, holds d (PStaged t) /\ ~ retired d (st_request_id t) /\ holds d (PPrepared r) /\ prepared_id r = st_request_id t /\
     p_result r = answer) \/
  (exists c, c ∈ log /\ ~ retired d (commit_id c) /\ c_result c = answer).
Definition collectable (dir : Directory) : bool := match dir with Reservations | Prepared | Staged | Acks => true | _ => false end.
(** [d'] has the records of [d] but some of the collectable ones of retired requests. *)
Record survives d d' log : Prop := {
  sv_session : session_file d' = session_file d;
  sv_formed : well_formed k sha known d';
  sv_sub p : holds d' p -> holds d p;
  sv_kept p : holds d p -> holds d' p \/ (collectable (dir_of p) = true /\ retired d (payload_id p));
  sv_cas answer : needed d log answer -> verify_fragment_cas d answer = Ok tt -> verify_fragment_cas d' answer = Ok tt;
}.
Lemma survives_keeps d d' log p : survives d d' log -> collectable (dir_of p) = false \/ ~ retired d (payload_id p) ->
  holds d p -> holds d' p.
Proof. intros Hs Hk Hp. destruct (sv_kept _ _ _ Hs p Hp) as [?|[Hc Hr]]; [done|]. destruct Hk; [congruence|done]. Qed.
Lemma survives_retired d d' log id_ : survives d d' log -> retired d' id_ <-> retired d id_.
Proof.
  intros Hs. split; intros (t & Ht & Hid); exists t; (split; [|done]); [by eapply sv_sub|].
  eapply survives_keeps; [done|by left|done].
Qed.
Lemma survives_activated d d' log c : survives d d' log -> activated d c -> activated d' c.
Proof. intros Hs (a & Ha & ?). exists a. split; [|done]. eapply survives_keeps; [done|by left|done]. Qed.

Lemma survivor_ok d d' log : disk_ok d log -> survives d d' log -> disk_ok d' log.
Proof.
  intros Hok Hs. assert (forall id_, ~ retired d' id_ -> ~ retired d id_) as Hret by (intros id_; by rewrite (survives_retired _ _ _ _ Hs)).
  pose proof (fun p => sv_sub _ _ _ Hs p) as Hsub. pose proof (fun c => survives_activated _ _ _ c Hs) as Hact.
  split.
  - rewrite (sv_session _ _ _ Hs). apply Hok.
  - apply Hs.
  - intros c. rewrite <- (ok_log _ _ _ _ _ Hok). split; [apply Hsub|]. intros Hc. eapply survives_keeps; [done|by left|done].
  - apply Hok.
  - apply Hok.
  - intros a Ha. by apply (ok_active _ _ _ _ _ Hok), Hsub.
  - intros n c Hn Hlt. by eapply Hact, (ok_done _ _ _ _ _ Hok).
  - intros a Ha. destruct (ok_ack _ _ _ _ _ Hok a) as (c & ? & ?%Hact & ?); [by apply Hsub|]. by exists c.
  - intros t Ht. destruct (ok_tombstone _ _ _ _ _ Hok t) as (c & ? & ?%Hact & ?); [by apply Hsub|]. by exists c.
  - intros r Hr. by apply (ok_reservation _ _ _ _ _ Hok), Hsub.
  - intros r r' Hr Hr'. by apply (ok_parents _ _ _ _ _ Hok r r' (Hsub _ Hr) (Hsub _ Hr')).
  - intros r Hr Hnr. destruct (ok_prepared _ _ _ _ _ Hok r) as (q & Hq & Hid & ?); [by apply Hsub|by apply Hret|].
    exists q. split; [|done]. eapply survives_keeps; [done|right|done]. cbn. rewrite Hid. by apply Hret.
  - intros t Ht Hnr. destruct (ok_staged _ _ _ _ _ Hok t) as (r & Hr & Hid & Hi & Hd & Hrec & Hcas); [by apply Hsub|by apply Hret|].
    exists r. split; [eapply survives_keeps; [done|right|done]; cbn; rewrite Hid; by apply Hret|].
    do 4 (split; [done|]). eapply sv_cas; [done| |done]. left. exists t, r. auto.
  - intros c Hc Hnr. destruct (ok_commit _ _ _ _ _ Hok c) as (Hcas & (r & Hr & Hid & Heq) & (t & Ht & Htid)); [done|by apply Hret|]. split.
    + eapply sv_cas; [done| |done]. right. exists c. auto.
    + split; [exists r|exists t]; (split; [|done]); (eapply survives_keeps; [done|right|done]); cbn; rewrite ?Hid, ?Htid; by apply Hret.
Qed.

Lemma survives_refl d log : disk_ok d log -> survives d d log.
Proof. intros Hok. split; try done; [apply Hok|by left]. Qed.
Lemma needed_mono d d' log answer : survives d d' log -> needed d' log answer -> needed d log answer.
Proof.
  intros Hs [(t & r & Ht & Hn & Hr & ? & ?)|(c & ? & Hn & ?)]; [left|right].
  - exists t, r. rewrite (survives_retired _ _ _ _ Hs) in Hn.
    split; [by eapply sv_sub|]. split; [done|]. split; [by eapply sv_sub|done].
  - exists c. by rewrite (survives_retired _ _ _ _ Hs) in Hn.
Qed.
Lemma survives_trans d d' d'' log : survives d d' log -> survives d' d'' log -> survives d d'' log.
Proof.
  intros Hs Hs'. split.
  - rewrite (sv_session _ _ _ Hs'). apply Hs.
  - apply Hs'.
  - intros p Hp. by eapply sv_sub, sv_sub.
  - intros p Hp. destruct (sv_kept _ _ _ Hs p Hp) as [Hp'|?]; [|by right].
    destruct (sv_kept _ _ _ Hs' p Hp') as [?|[? Hr]]; [by left|right]. split; [done|].
    by rewrite <- (survives_retired _ _ _ _ Hs).
  - intros answer Hn Hcas. eapply sv_cas; [done| |by eapply sv_cas].
    destruct Hn as [(t & r & Ht & Hn & Hr & Hid & ?)|(c & ? & Hn & ?)]; [left|right].
    + exists t, r. rewrite (survives_retired _ _ _ _ Hs). split; [eapply survives_keeps; [done|by right|done]|]. split; [done|].
      split; [|done]. eapply survives_keeps; [done|right|done]. cbn. by rewrite Hid.
    + exists c. by rewrite (survives_retired _ _ _ _ Hs).
Qed.

(** More fragments, one fragment less, one slot less. *)
Lemma same_slots_survives d d' log : disk_ok d log -> session_file d' = session_file d -> slots d' = slots d ->
  (forall answer, needed d log answer -> verify_fragment_cas d answer = Ok tt -> verify_fragment_cas d' answer = Ok tt) -> survives d d' log.
Proof.
  intros Hok Es El Hc. assert (forall p, holds d' p <-> holds d p) as Hh by (intros p; unfold VerifierDisk.holds; by rewrite El).
  split; [done| |by intros p; rewrite Hh|intros p; rewrite Hh; by left|done].
  intros dir path file. rewrite El. intros Hin. destruct (ok_formed _ _ _ _ _ Hok _ _ _ Hin) as (p & ? & ? & ?). exists p. by rewrite Hh.
Qed.
Lemma more_fragments d d' log : disk_ok d log -> session_file d' = session_file d -> slots d' = slots d -> cas d ⊆ cas d' -> survives d d' log.
Proof. intros Hok Es El Hc. apply same_slots_survives; [done..|]. intros answer _. by apply fragment_cas_mono. Qed.
Lemma fewer_fragments d log digest : disk_ok d log -> (forall answer, needed d log answer -> digest ∉ fragment_digests answer) ->
  survives d (set_fragment digest None d) log.
Proof.
  intros Hok Hn. apply same_slots_survives; [done..|]. intros answer Ha. rewrite !fragment_cas_iff. intros Hall f Hf.
  destruct (Hall f Hf) as (bytes & Hb & ?). exists bytes. split; [|done]. cbn. rewrite lookup_partial_alter_ne; [done|].
  intros ->. apply (Hn answer Ha). by apply (list_elem_of_fmap_2 sha256).
Qed.
Lemma fewer_slots d log dir id_ : disk_ok d log -> collectable dir = true -> id_ ∈ known -> retired d id_ ->
  survives d (set_slot dir (slot_path id_) None d) log.
Proof.
  intros Hok Hdir Hid Hr. split; [done|apply unlinked_formed; [done|done|apply Hok]| | |].
  - intros p Hp. by eapply unlinked_holds in Hp as [? _].
  - intros p Hp. destruct (decide (dir_of p = dir /\ payload_id p = id_)) as [[<- <-]|Hne]; [by right|]. left. by apply unlinked_holds.
  - intros answer _. by rewrite !fragment_cas_iff.
Qed.
End Safety.
