(* ===== verification/VerifierRuns.v ===== *)
(** * Runs of the journal, with crashes.

    The operations as steps over the disk and the memory; a crash may cut any of them short at
    any file operation, and the journal is then opened again.  The theorems say what survives. *)
From Stdlib Require Import Strings.Byte.
From S2P Require Import Prelude Utf8 Sampling Float64 Verifier VerifierProofs VerifierJournal VerifierDisk VerifierChain VerifierSafety.

Section Runs.
Context `{VerifierLaws} (k : MacKey) (s : AuthenticatedSessionV2) (known : list str).
Hypothesis no_collision : forall x y, x ∈ known -> y ∈ known -> slot_path x = slot_path y -> x = y.

Local Abbreviation core := (s_core s).
Local Abbreviation sha := (session_record_digest s).
Local Abbreviation holds := (holds k sha known).
Local Abbreviation wrote := (wrote k sha known).
Local Abbreviation genesis := (current (from_session k s)).
Local Abbreviation disk_ok := (disk_ok k s known).
Local Abbreviation memory_ok := (memory_ok k s known).
Local Abbreviation follows := (follows k s known).
Local Abbreviation retired := (retired k s known).
Local Abbreviation activated := (activated k s known).
Local Abbreviation prepares := (prepares k s known).
Local Abbreviation stages := (stages k s known).
Local Abbreviation closes := (closes k s known).
Local Abbreviation survives := (survives k s known).
Local Abbreviation admissible := (admissible k s known).
Implicit Types (d : Disk) (log done rest : list CommitRecordV2) (c : CommitRecordV2) (j : DurableVerifierJournalV2) (p : Payload).

(** ** The memory keeps up with the disk. *)
Lemma follows_fresh d log done j id_ : disk_ok d log -> follows d done j -> id_ ∉ ids done -> ~ retired d id_.
Proof. intros Hok Hf Hid Hr. by apply Hid, (at_retired _ _ _ _ _ _ Hf). Qed.

Lemma follows_survives d d' log done j : survives d d' log -> follows d done j -> follows d' done j.
Proof.
  intros Hs [Hhead Hact Hret Hcd Hcpl Hfg Hwk Hrs Hps Hss].
  assert (forall id_ q, id_ ∉ ids done -> payload_id q = id_ -> holds d' q <-> holds d q) as Hsame.
  { intros id_ q Hid Hq. split; [by eapply sv_sub|]. eapply survives_keeps; [done|right]. rewrite Hq. intros Hr. by apply Hid, Hret. }
  split; try done.
  - intros c Hc. eapply survives_activated; [done|by apply Hact].
  - intros id_. rewrite (survives_retired _ _ _ _ _ _ _ Hs). apply Hret.
  - intros c Hc. rewrite (survives_retired _ _ _ _ _ _ _ Hs). by apply Hcpl.
  - intros id_ r Hid. rewrite (Hrs id_ r Hid). split; intros [Hr Heq]; (split; [|done]); by apply (Hsame id_ (PReservation r)).
  - intros id_ r Hid. rewrite (Hps id_ r Hid). split; intros [Hr Heq]; (split; [|done]); by apply (Hsame id_ (PPrepared r)).
  - intros id_ r Hid. rewrite (Hss id_ r Hid). split; intros [Hr Heq]; (split; [|done]); by apply (Hsame id_ (PStaged r)).
Qed.
Lemma memory_survives d d' log j : survives d d' log -> memory_ok d log j -> memory_ok d' log j.
Proof.
  intros Hs [Hk Hse Hsh Ht (done & Hlog & Hf)]. split; try done; [|exists done; split; [done|by eapply follows_survives]].
  intros id_ t. rewrite Ht. split; intros [Hh Hid]; (split; [|done]).
  - eapply survives_keeps; [done|by left|done].
  - by eapply sv_sub.
Qed.

(** What the code does in memory once the record is written. *)
Definition remember p j : DurableVerifierJournalV2 :=
  match p with
  | PReservation r => with_work j (<[reservation_id r := r]> (reservations j)) (prepared j) (staged j)
  | PPrepared r => with_work j (reservations j) (<[prepared_id r := r]> (prepared j)) (staged j)
  | PStaged t => with_work j (reservations j) (prepared j) (<[st_request_id t := t]> (staged j))
  | PCommit c => with_pending j (Some c)
  | PActive _ => j
  | PAck a => with_retired j (completions j) (<[k_request_id a := a]> (acknowledgements j)) (tombstones j)
  | PTombstone t => with_retired j (completions j) (acknowledgements j) (<[t_request_id t := t]> (tombstones j))
  end.
(** When it is news to the memory. *)
Definition news done p j : Prop :=
  match p with
  | PReservation r => reservation_id r ∉ ids done
  | PPrepared r => prepared_id r ∉ ids done
  | PStaged t => st_request_id t ∉ ids done
  | PCommit _ => pending_activation j = None
  | PActive _ => True
  | PAck _ => True
  | PTombstone t => t_request_id t ∈ ids done /\ tombstones j !! t_request_id t = None
  end.

Lemma table_grows {T} (m : gmap str T) (id_of : T -> str) (old new : T -> Prop) (r : T) id_ :
  (forall r', m !! id_ = Some r' <-> old r' /\ id_of r' = id_) -> (forall r', new r' <-> old r' \/ r' = r) ->
  (forall r', new r' -> id_of r' = id_of r -> r' = r) ->
  forall r', <[id_of r := r]> m !! id_ = Some r' <-> new r' /\ id_of r' = id_.
Proof.
  intros Hm Hnew Huniq r'. rewrite lookup_insert_Some, Hm, Hnew. split.
  - intros [[<- <-]|(Hne & Hold & Heq)]; auto.
  - intros [[Hold| ->] Heq]; [|auto]. destruct (decide (id_of r = id_)) as [E|E]; [|auto].
    left. split; [done|]. symmetry. apply Huniq; [|congruence]. apply Hnew. by left.
Qed.

Lemma remember_follows d d' log done p j : disk_ok d log -> wrote p d d' -> follows d done j -> news done p j -> follows d' done (remember p j).
Proof.
  intros Hok Hw Hf Hn. pose proof (wrote_extends _ _ _ _ _ _ Hw) as He.
  assert (forall q, dir_of q <> dir_of p -> holds d' q <-> holds d q) as Hother by (intros q; by apply wrote_other).
  assert (forall q q', holds d' q -> holds d' q' -> dir_of q = dir_of q' -> payload_id q = payload_id q' -> q = q') as Huniq by apply holds_unique.
  assert (holds d' p) as Hp by (apply (wrote_holds _ _ _ _ _ _ Hw); by right).
  destruct Hf as [Hhead Hact Hret Hcd Hcpl Hfg Hwk Hrs Hps Hss].
  split.
  - by destruct p.
  - intros c Hc. eapply activated_mono; [done|by apply Hact].
  - intros id_ (t & [Ht|Et]%(wrote_holds _ _ _ _ _ _ Hw) & <-); [apply Hret; by exists t|subst p; by destruct Hn].
  - by destruct p.
  - intros c Hc Hnr. assert (completions (remember p j) = completions j) as -> by by destruct p. apply Hcpl; [done|].
    intros Hr. apply Hnr. by eapply retired_mono.
  - intros c Hc. assert (completions (remember p j) = completions j) as -> by by destruct p. intros Hnone. specialize (Hfg c Hc Hnone).
    destruct p as [|r| | | | |]; cbn in *; try done. rewrite lookup_insert_ne; [done|]. intros Heq. apply Hn. rewrite Heq. by apply (list_elem_of_fmap_2 commit_id).
  - intros c Hc. specialize (Hwk c Hc). assert (commit_id c ∈ ids done) as Hid by by apply (list_elem_of_fmap_2 commit_id).
    destruct p as [r|r|t| | | |]; cbn in *; try done; rewrite lookup_insert_ne; try done; intros Heq; by rewrite Heq in Hn.
  - intros id_ r Hid. destruct p as [r0| | | | | |]; cbn [remember reservations with_work with_pending with_retired];
      try (rewrite (Hother (PReservation r)) by done; by apply Hrs).
    revert r. apply (table_grows _ _ (fun r => holds d (PReservation r)) (fun r => holds d' (PReservation r))).
    + intros r. by apply Hrs.
    + intros r. rewrite (wrote_holds _ _ _ _ _ _ Hw). naive_solver.
    + intros r Hr Heq. assert (PReservation r = PReservation r0) by by apply Huniq. congruence.
  - intros id_ r Hid. destruct p as [|r0| | | | |]; cbn [remember prepared with_work with_pending with_retired];
      try (rewrite (Hother (PPrepared r)) by done; by apply Hps).
    revert r. apply (table_grows _ _ (fun r => holds d (PPrepared r)) (fun r => holds d' (PPrepared r))).
    + intros r. by apply Hps.
    + intros r. rewrite (wrote_holds _ _ _ _ _ _ Hw). naive_solver.
    + intros r Hr Heq. assert (PPrepared r = PPrepared r0) by by apply Huniq. congruence.
  - intros id_ r Hid. destruct p as [| |r0| | | |]; cbn [remember staged with_work with_pending with_retired];
      try (rewrite (Hother (PStaged r)) by done; by apply Hss).
    revert r. apply (table_grows _ _ (fun r => holds d (PStaged r)) (fun r => holds d' (PStaged r))).
    + intros r. by apply Hss.
    + intros r. rewrite (wrote_holds _ _ _ _ _ _ Hw). naive_solver.
    + intros r Hr Heq. assert (PStaged r = PStaged r0) by by apply Huniq. congruence.
Qed.

Lemma remember_ok d d' log done p j : disk_ok d log -> memory_ok d log j -> log = done ++ option_list (pending_activation j) ->
  follows d done j -> wrote p d d' -> admissible d log p -> news done p j ->
  disk_ok d' (log ++ added p) /\ memory_ok d' (log ++ added p) (remember p j).
Proof.
  intros Hok Hm Hlog Hf Hw Ha Hn. split; [by eapply grow|].
  destruct Hm as [Hk Hse Hsh Ht _]. split; [by destruct p|by destruct p|by destruct p| |].
  - intros id_ t. destruct p as [| | | | | |t0]; cbn [remember tombstones with_work with_pending with_retired];
      try (rewrite (wrote_other _ _ _ _ _ _ (PTombstone t) Hw) by done; apply Ht).
    revert t. apply (table_grows _ _ (fun t => holds d (PTombstone t)) (fun t => holds d' (PTombstone t))).
    + intros t. apply Ht.
    + intros t. rewrite (wrote_holds _ _ _ _ _ _ Hw). naive_solver.
    + intros t Hh Heq. assert (PTombstone t = PTombstone t0); [|congruence]. eapply holds_unique; [done| |done|done].
      apply (wrote_holds _ _ _ _ _ _ Hw). by right.
  - exists done. split; [|by eapply remember_follows]. destruct p; cbn [added]; rewrite ?app_nil_r; try exact Hlog.
    cbn in Hn |- *. rewrite Hn in Hlog. cbn in Hlog. rewrite app_nil_r in Hlog. by rewrite Hlog.
Qed.

(** What an operation leaves: a longer chain on disk, and, if every write it made is known to
    have happened or not, a memory that follows it. *)
Definition leaves (settled : Prop) log (m : Disk * DurableVerifierJournalV2) : Prop :=
  exists log', log `prefix_of` log' /\ disk_ok m.1 log' /\ (settled -> memory_ok m.1 log' m.2).
Lemma kept_same settled log d j : disk_ok d log -> memory_ok d log j -> leaves settled log (d, j).
Proof. intros Hok Hm. exists log. auto. Qed.

Lemma write_slot_kept log done p j out d d' r : disk_ok d log -> memory_ok d log j -> log = done ++ option_list (pending_activation j) ->
  follows d done j -> payload_id p ∈ known -> out <> Torn -> admissible d log p -> news done p j ->
  write_slot j (dir_of p) (payload_id p) (kind_of (dir_of p)) p out d = (d', r) ->
  (exists e, r = Err e /\ leaves (out <> Unsynced) log (d', j)) \/
  (r = Ok tt /\ disk_ok d' (log ++ added p) /\ memory_ok d' (log ++ added p) (remember p j)).
Proof.
  intros Hok Hm Hlog Hf Hid Hout Ha Hn Hw.
  apply (write_slot_spec k sha known) in Hw as [[-> [e ->]]|[Hw Hr]]; try done; [| |apply Hok|apply Hm|apply Hm].
  - left. exists e. split; [done|]. by apply kept_same.
  - destruct (remember_ok _ _ _ _ _ _ Hok Hm Hlog Hf Hw Ha Hn) as [Hok' Hm'].
    destruct r as [[]|e]; [by right|]. left. exists e. split; [done|]. destruct Hr as [[=]|Hr].
    exists (log ++ added p). split; [by apply prefix_app_r|]. split; [done|]. intros Hs. by destruct Hs.
Qed.

(** ** Admitting. *)
Lemma known_none j request : known_request j request = None ->
  completions j !! request_id (q_core request) = None /\ prepared j !! request_id (q_core request) = None /\
  reservations j !! request_id (q_core request) = None /\
  (forall t, tombstones j !! request_id (q_core request) = Some t -> t_request_id t <> request_id (q_core request)).
Proof.
  unfold known_request. intros [Ht Hn]%union_None.
  destruct (completions j !! _); [done|]. destruct (prepared j !! _); [done|]. destruct (reservations j !! _); [done|].
  repeat split; try done. intros t Et. rewrite Et in Ht. by case_bool_decide.
Qed.
Lemma unknown_open d log done j request : disk_ok d log -> memory_ok d log j -> follows d done j -> known_request j request = None ->
  request_id (q_core request) ∉ ids done.
Proof.
  intros Hok Hm Hf (Hc & _ & _ & Ht)%known_none Hin. unfold ids in Hin. apply list_elem_of_fmap in Hin as (c & Hid & Hin).
  rewrite Hid in *. assert (~ retired d (commit_id c)) as Hnr.
  { intros (t & Hh & Htid). apply (Ht t); [|done]. by apply (mem_tombstones _ _ _ _ _ _ Hm). }
  by rewrite (at_complete _ _ _ _ _ _ Hf c Hin Hnr) in Hc.
Qed.
Lemma busy_parent_spec j request id_ r : busy_parent j request = false -> reservations j !! id_ = Some r ->
  base_head_sha256 (q_core (r_request r)) = head_sha256 (current j) -> reservation_id r = request_id (q_core request).
Proof.
  unfold busy_parent. intros Hb Hr Hbase. destruct (decide (reservation_id r = request_id (q_core request))) as [?|Hne]; [done|].
  apply not_true_iff_false in Hb. destruct Hb. apply existsb_exists. exists (id_, r). split; [by apply list_elem_of_In, elem_of_map_to_list|].
  cbn. by rewrite bool_decide_eq_true_2, bool_decide_eq_false_2.
Qed.

Lemma reserve_kept log request fence now out d j : disk_ok d log -> memory_ok d log j -> request_id (q_core request) ∈ known -> out <> Torn ->
  leaves (out <> Unsynced) log (reserve request fence now out (d, j)).1.
Proof.
  intros Hok Hm Hid Hout. pose proof (kept_same (out <> Unsynced) _ _ _ Hok Hm) as Hsame. unfold reserve.
  case_bool_decide as Hp; [done|]. destruct (verify_historical _ _ _) as [[]|] eqn:Hv; [|done].
  destruct (known_request j request) eqn:Hkn; [done|]. destruct (check_live_fence j fence now); [|done].
  destruct (is_closed _); [done|]. destruct (verify_live _ _ _ _); [|done].
  destruct (matches_current_parent j request) eqn:Hmatch; [|done]. cbn [negb]. destruct (busy_parent j request) eqn:Hbusy; [done|].
  destruct (mem_done _ _ _ _ _ _ Hm) as (done & Hlog & Hf).
  assert (pending_activation j = None) as Hnone by (destruct (pending_activation j); [by destruct Hp|done]).
  assert (log = done) as Hld by (rewrite Hlog, Hnone; cbn; by rewrite app_nil_r).
  pose proof (unknown_open _ _ _ _ _ Hok Hm Hf Hkn) as Hopen.
  destruct (write_slot _ _ _ _ _ _ _) as [d' r] eqn:Hw. cbv zeta.
  unfold core_of in Hv. rewrite (mem_session _ _ _ _ _ _ Hm), (mem_key _ _ _ _ _ _ Hm) in Hv.
  destruct (write_slot_kept log done (PReservation (mkReservation request now)) j out d d' r) as [(e & -> & Hkept)|(-> & Hok' & Hm')]; try done.
  - cbn. split; [done|]. intros r' Hr' Hid' Hbase. exfalso. rewrite Hld in Hid'.
    apply matches_head_eq in Hmatch as (_ & _ & Hhead).
    assert (reservations j !! reservation_id r' = Some r') as Hin by by apply (at_reserved _ _ _ _ _ _ Hf).
    assert (reservation_id r' = request_id (q_core request)) as Heq.
    { eapply busy_parent_spec; [done|done|]. by rewrite <- Hhead. }
    apply known_none in Hkn as (_ & _ & Hkn & _). by rewrite Heq, Hkn in Hin.
  - exists log. cbn in Hok', Hm'. rewrite app_nil_r in Hok', Hm'. done.
Qed.

(** ** Preparing. *)
Lemma unprepared_open d done j id_ : follows d done j -> prepared j !! id_ = None -> is_Some (reservations j !! id_) -> id_ ∉ ids done.
Proof.
  intros Hf Hp [r Hr] Hin. unfold ids in Hin. apply list_elem_of_fmap in Hin as (c' & -> & Hin).
  destruct (at_work _ _ _ _ _ _ Hf c' Hin) as [Hn _]. by rewrite Hn in Hr.
Qed.
Lemma record_prepared_kept log request answer fence now out d j : disk_ok d log -> memory_ok d log j -> out <> Torn ->
  leaves (out <> Unsynced) log (record_prepared request answer fence now out (d, j)).1.
Proof.
  intros Hok Hm Hout. pose proof (kept_same (out <> Unsynced) _ _ _ Hok Hm) as Hsame. unfold record_prepared.
  match goal with |- context [match ?m with Ok _ => _ | Err _ => _ end] => destruct m as [[existing|]|] eqn:Hc end; [done| |done].
  unfold core_of in Hc. rewrite (mem_session _ _ _ _ _ _ Hm) in Hc. peel Hc. injection Hc as Hnone. bool_prop.
  match goal with K : ok_or _ _ = Ok ?r, K' : r_request ?r = request |- _ => rename K into Hres, r into r0, K' into Hreq end.
  apply ok_or_ok in Hres. match goal with K : verify_against _ _ _ = Ok ?u |- _ => destruct u; rename K into Hv end.
  destruct (mem_done _ _ _ _ _ _ Hm) as (done & Hlog & Hf).
  assert (request_id (q_core request) ∉ ids done) as Hopen by (eapply unprepared_open; [done|done|by exists r0]).
  apply (at_reserved _ _ _ _ _ _ Hf) in Hres as [Hr Hrid]; [|done].
  set (record := mkPrepared _ _ _). cbv zeta.
  assert (prepared_id record = request_id (q_core request)) as Hpid by by apply (verified_ids s).
  destruct (write_slot _ _ _ _ _ _ _) as [d' r] eqn:Hw. rewrite <- Hpid in Hw.
  destruct (write_slot_kept log done (PPrepared record) j out d d' r) as [(e & -> & Hkept)|(-> & Hok' & Hm')]; try done.
  - cbn [payload_id]. rewrite Hpid, <- Hrid. by destruct Hr.
  - exists r0. rewrite Hpid. split; [done|]. split; [done|]. by rewrite Hreq.
  - cbn. by rewrite Hpid.
  - exists log. cbn [added fst snd] in *. rewrite app_nil_r in Hok', Hm'. split; [done|]. split; [done|]. intros _.
    cbn [remember] in Hm'. rewrite Hpid in Hm'. exact Hm'.
Qed.

(** ** Staging. *)
Definition sound (closure : VerifiedClosureV2) : Prop :=
  forall f, f ∈ cl_fragments closure -> zlen (payload f) = byte_len (descriptor f) /\ sha256_hex (payload f) = sha256 (descriptor f).
Lemma write_fragments_spec fs outs d : Forall (fun o : WriteOutcome * str => o.1 <> Torn) outs ->
  exists d' r, write_fragments fs outs d = (d', r) /\ session_file d' = session_file d /\ slots d' = slots d /\ cas d ⊆ cas d' /\
    (r = Ok tt -> forall f, f ∈ fs -> cas d' !! sha256 (descriptor f) = Some (payload f)).
Proof.
  revert outs d. induction fs as [|f fs IH]; intros outs d Houts; cbn [write_fragments].
  - exists d, (Ok tt). repeat split; try done. by intros _ f ?%elem_of_nil.
  - destruct (default (Done, []) (head outs)) as [out torn] eqn:Eo.
    assert (out <> Torn) as Hout by (destruct outs; cbn in Eo; [by simplify_eq|apply Forall_cons in Houts as [? _]; by simplify_eq]).
    assert (Forall (fun o : WriteOutcome * str => o.1 <> Torn) (tail outs)) as Htail by (destruct outs; [done|by apply Forall_cons in Houts as [_ ?]]).
    assert (exists d' r, write_fragment f out torn d = (d', r) /\ session_file d' = session_file d /\ slots d' = slots d /\ cas d ⊆ cas d' /\
      (r = Ok tt -> cas d' !! sha256 (descriptor f) = Some (payload f))) as (d1 & r1 & -> & Es & El & Ec & Hf).
    { unfold write_fragment. destruct (cas d !! _) as [bytes|] eqn:Eb.
      - exists d. case_bool_decide as Hb; eexists; repeat split; try done. by subst.
      - assert (cas d ⊆ cas (set_fragment (sha256 (descriptor f)) (Some (payload f)) d)) as Hsub by by apply insert_subseteq.
        assert (cas (set_fragment (sha256 (descriptor f)) (Some (payload f)) d) !! sha256 (descriptor f) = Some (payload f)) as Hget
          by apply lookup_insert_eq.
        unfold write_exclusive. destruct out; try done; do 2 eexists; repeat split; done. }
    destruct r1 as [[]|e].
    + destruct (IH (tail outs) d1 Htail) as (d2 & r2 & -> & Es2 & El2 & Ec2 & Hfs). exists d2, r2. split; [done|].
      rewrite Es2, El2. split; [done|]. split; [done|]. split; [by etrans|]. intros Hr2 g [->|Hg]%elem_of_cons; [|by apply Hfs].
      eapply lookup_weaken; [by apply Hf|done].
    + exists d1, (Err e). repeat split; done.
Qed.
Lemma staged_fragments closure answer d : verify_result closure answer = Ok tt -> sound closure ->
  (forall f, f ∈ cl_fragments closure -> cas d !! sha256 (descriptor f) = Some (payload f)) -> verify_fragment_cas d answer = Ok tt.
Proof.
  intros Hv Hs Hall. apply fragment_cas_iff. intros g [i Hi]%list_elem_of_lookup. unfold verify_result in Hv. peel Hv. bool_prop.
  destruct (lookup_lt_is_Some_2 (cl_fragments closure) i) as [f Hf]; [match goal with K : length _ = length _ |- _ => rewrite K end; by eapply lookup_lt_Some|].
  assert (descriptor f = g) as <-.
  { destruct (decide (descriptor f = g)) as [?|Hne]; [done|]. exfalso.
    match goal with K : existsb _ (zip _ _) = false |- _ => apply not_true_iff_false in K; apply K end.
    apply existsb_exists. exists (f, g). split; [|cbn; by rewrite bool_decide_eq_false_2].
    apply list_elem_of_In, list_elem_of_lookup. exists i. apply lookup_zip_with_Some. by exists f, g. }
  assert (f ∈ cl_fragments closure) as Hin by by eapply list_elem_of_lookup_2. exists (payload f). split; [by apply Hall|by apply Hs].
Qed.

Lemma stage_result_kept log request closure reply now outs out d j : disk_ok d log -> memory_ok d log j -> sound closure ->
  Forall (fun o : WriteOutcome * str => o.1 <> Torn) outs -> out <> Torn ->
  leaves (out <> Unsynced) log (stage_result request closure reply now outs out (d, j)).1.
Proof.
  intros Hok Hm Hsound Houts Hout. unfold stage_result.
  match goal with |- context [match ?m with Ok _ => _ | Err _ => _ end] => destruct m as [p|] eqn:Hc end; [|by apply kept_same].
  peel Hc. injection Hc as ->. match goal with K : ok_or _ _ = Ok _ |- _ => apply ok_or_ok in K; rename K into Hp end.
  match goal with K : verify_result _ _ = Ok ?u |- _ => destruct u; rename K into Hcl end.
  destruct (staged j !! _) eqn:Hst; [by apply kept_same|].
  destruct (write_fragments_spec (cl_fragments closure) outs d Houts) as (d1 & r1 & -> & Es & El & Ec & Hfs).
  pose proof (more_fragments _ _ _ _ _ _ Hok Es El Ec) as Hsv.
  pose proof (survivor_ok _ _ _ _ _ _ Hok Hsv) as Hok1. pose proof (memory_survives _ _ _ _ Hsv Hm) as Hm1.
  destruct r1 as [[]|e]; [|by apply kept_same].
  match goal with |- context [match ?m with Ok _ => _ | Err _ => _ end] => destruct m as [receipt|] eqn:Hr end; [|by apply kept_same].
  peel Hr. injection Hr as ->. match goal with K : validate_stage_receipt _ _ = Ok ?u |- _ => destruct u; rename K into Hreceipt end.
  destruct (mem_done _ _ _ _ _ _ Hm1) as (done & Hlog & Hf). set (record := mkStaged _ _ _ _ _). cbv zeta.
  assert (request_id (q_core request) ∉ ids done) as Hopen.
  { intros Hin. unfold ids in Hin. apply list_elem_of_fmap in Hin as (c & Hid & Hin). rewrite Hid in *.
    destruct (at_work _ _ _ _ _ _ Hf c Hin) as [_ Hn]. by rewrite Hn in Hp. }
  apply (at_prepared _ _ _ _ _ _ Hf) in Hp as [Hp Hpid]; [|done].
  destruct (write_slot _ _ _ _ _ _ _) as [d' r] eqn:Hw.
  destruct (write_slot_kept log done (PStaged record) j out d1 d' r) as [(e & -> & Hkept)|(-> & Hok' & Hm')]; try done.
  - cbn. rewrite <- Hpid. by destruct Hp.
  - exists p. do 5 (split; [done|]). eapply staged_fragments; [done|done|]. by apply Hfs.
  - exists log. cbn [added] in *. by rewrite app_nil_r in Hok', Hm'.
Qed.

(** ** Activating. *)
Lemma activate_memory d log j c : disk_ok d log -> memory_ok d log j -> pending_activation j = Some c -> activated d c ->
  exists j', apply_active j (c_request c) (c_result c) = Ok j' /\ memory_ok d log (with_pending j' None).
Proof.
  intros Hok Hm Hp Hact. destruct (mem_done _ _ _ _ _ _ Hm) as (done & Hlog & Hf). rewrite Hp in Hlog. cbn in Hlog.
  assert (c ∈ log) as Hin by (rewrite Hlog; apply elem_of_app; right; by apply list_elem_of_singleton).
  pose proof (ok_chain _ _ _ _ _ Hok) as Hchain. pose proof (ok_ids _ _ _ _ _ Hok) as Hids.
  destruct (chained_proven _ _ _ _ _ Hchain Hin) as (_ & Hv & _). rewrite Hlog in Hchain, Hids.
  unfold ids in Hids. rewrite map_app in Hids. apply NoDup_app in Hids as (_ & Hdisj & _).
  assert (commit_id c ∉ ids done) as Hnew by (intros Hd; apply (Hdisj _ Hd); by apply list_elem_of_singleton).
  assert (forall c', c' ∈ done -> commit_id c <> commit_id c') as Hne.
  { intros c' Hc' Heq. apply Hnew. rewrite Heq. by apply (list_elem_of_fmap_2 commit_id). }
  apply chained_app in Hchain as [_ [Hmatch _]].
  unfold apply_active, core_of. rewrite (mem_session _ _ _ _ _ _ Hm), Hv. change (request_id (q_core (c_request c))) with (commit_id c).
  destruct (completions j !! commit_id c) as [a|] eqn:Ea.
  { apply (at_completed _ _ _ _ _ _ Hf) in Ea as (c' & Hc' & Heq & _). by destruct (Hne c' Hc'). }
  unfold matches_current_parent. rewrite (at_head _ _ _ _ _ _ Hf), Hmatch. cbn [negb]. eexists. split; [done|].
  assert (prepared j !! commit_id c <> None /\ staged j !! commit_id c <> None) as [Hprep Hstag].
  { destruct (ok_commit _ _ _ _ _ Hok c Hin) as (_ & (r & Hr & Hrid & _) & (t & Ht & Htid)); [by eapply follows_fresh|].
    assert (prepared j !! commit_id c = Some r) as -> by by apply (at_prepared _ _ _ _ _ _ Hf).
    assert (staged j !! commit_id c = Some t) as -> by by apply (at_staged _ _ _ _ _ _ Hf). done. }
  split; try by destruct Hm. exists (done ++ [c]). split; [by rewrite Hlog, app_nil_r|].
  assert (forall id_, id_ ∉ ids (done ++ [c]) -> id_ ∉ ids done) as Hless.
  { intros id_ Hid Hd. apply Hid. unfold ids. rewrite map_app, elem_of_app. by left. }
  assert (forall c', c' ∈ done ++ [c] -> c' ∈ done \/ c' = c) as Hcase by (intros c'; by rewrite elem_of_app, list_elem_of_singleton).
  destruct Hf as [Hhead Hac Hret Hcd Hcpl Hfg Hwk Hrs Hps Hss].
  split; cbn [current completions reservations prepared staged with_pending with_current].
  - by rewrite replay_app, <- Hhead.
  - intros c' [Hc'| ->]%Hcase; [by apply Hac|done].
  - intros id_ Hr. unfold ids. rewrite map_app, elem_of_app. left. by apply Hret.
  - intros id_ a. rewrite lookup_insert_Some. intros [[<- <-]|[_ Ha]].
    + exists c. split; [|done]. apply elem_of_app. right. by apply list_elem_of_singleton.
    + destruct (Hcd _ _ Ha) as (c' & ? & ?). exists c'. rewrite elem_of_app. auto.
  - intros c' [Hc'| ->]%Hcase Hnr; [|apply lookup_insert_eq]. rewrite lookup_insert_ne; [by apply Hcpl|by apply Hne].
  - intros c' [Hc'| ->]%Hcase; [|by rewrite lookup_insert_eq]. rewrite lookup_insert_ne; [by apply Hfg|by apply Hne].
  - intros c' [Hc'| ->]%Hcase; [by apply Hwk|]. split; intros Hn; [by destruct Hprep|by destruct Hstag].
  - auto.
  - auto.
  - auto.
Qed.

Lemma write_active_spec log d j c now out d' r : disk_ok d log -> memory_ok d log j -> pending_activation j = Some c -> out <> Torn ->
  write_active j (mkActive (commit_id c) (record_digest (c_result c)) (new_head_sha256 (a_core (c_result c))) now) out d = (d', r) ->
  disk_ok d' log /\ (out <> Unsynced \/ r = Ok tt -> memory_ok d' log j) /\ (r = Ok tt -> activated d' c).
Proof.
  intros Hok Hm Hp Hout. destruct (mem_done _ _ _ _ _ _ Hm) as (done & Hlog & Hf). rewrite Hp in Hlog. cbn in Hlog.
  assert (c ∈ log) as Hin by (rewrite Hlog; apply elem_of_app; right; by apply list_elem_of_singleton).
  assert (commit_id c ∈ known) as Hknown by (apply (ok_log _ _ _ _ _ Hok) in Hin; by destruct Hin).
  set (active := mkActive _ _ _ _). unfold write_active. cbn [ac_request_id active].
  destruct (slots d Active !! slot_path (commit_id c)) as [file|] eqn:Hl.
  - intros [= <- <-]. split; [done|]. split; [done|].
    destruct (ok_formed _ _ _ _ _ Hok _ _ _ Hl) as (q & Hdir & Hpath & Hq & e & He & Hs).
    rewrite <- Hpath, Hdir, Hl in He. injection He as ->. apply no_collision in Hpath; [|done|done].
    destruct q as [| | | |a| |]; try done. cbn [read_envelope ok_or].
    change "active"%string with (kind_of (dir_of (PActive a))).
    rewrite (mem_sha _ _ _ _ _ _ Hm), (mem_key _ _ _ _ _ _ Hm), (decode_sealed _ _ as_active _ _ a Hs eq_refl). cbn in Hpath.
    assert (holds d (PActive a)) as Ha by (split; [done|]; exists e; cbn; rewrite <- Hpath; done).
    intros _. exists a. split; [done|]. destruct (ok_active _ _ _ _ _ Hok a Ha) as (c' & Hin' & Hact).
    assert (c' = c) as ->; [|done]. eapply ids_inj; [apply Hok|done|done|]. destruct Hact as [<- _]. done.
  - intros Hw. apply (write_slot_spec k sha known) with (p := PActive active) in Hw as [[-> [e ->]]|[Hw Hr]];
      [| |apply Hok|apply Hm|apply Hm|done|done].
    + split; [done|]. split; [by intros _|done].
    + assert (admissible d log (PActive active)) as Ha by by exists c.
      assert (log = done ++ option_list (pending_activation j)) as Hlog' by by rewrite Hp.
      destruct (remember_ok _ _ _ _ _ _ Hok Hm Hlog' Hf Hw Ha I) as [Hok' Hm']. cbn [added] in *. rewrite app_nil_r in Hok', Hm'.
      split; [done|]. split; [done|]. intros _. exists active. split; [|done]. apply (wrote_holds _ _ _ _ _ _ Hw). by right.
Qed.

Lemma recover_pending_spec log reply now out d j d' j' r : disk_ok d log -> memory_ok d log j -> out <> Torn ->
  recover_pending reply now out (d, j) = ((d', j'), r) ->
  disk_ok d' log /\ (out <> Unsynced \/ r = Ok tt -> memory_ok d' log j') /\
  (r = Ok tt -> pending_activation j' = None /\ reservations j' = reservations j).
Proof.
  intros Hok Hm Hout. unfold recover_pending. destruct (pending_activation j) as [c|] eqn:Hp; [|by intros [= <- <- <-]].
  match goal with |- context [match ?m with Ok _ => _ | Err _ => _ end] => destruct m as [u|] eqn:Hc end; [|intros [= <- <- <-]; done].
  change (request_id (q_core (c_request c))) with (commit_id c).
  destruct (write_active _ _ _ _) as [d1 r1] eqn:Hw.
  destruct (write_active_spec _ _ _ _ _ _ _ _ Hok Hm Hp Hout Hw) as (Hok1 & Hm1 & Hact).
  destruct r1 as [[]|e].
  - destruct (activate_memory d1 log j c Hok1 (Hm1 (or_intror eq_refl)) Hp (Hact eq_refl)) as (j2 & Ha & Hm2).
    rewrite Ha. intros [= <- <- <-]. split; [done|]. split; [done|]. intros _. split; [done|].
    unfold apply_active in Ha. peel Ha. destruct (completions j !! _).
    + case_bool_decide; [|done]. by simplify_eq.
    + peel Ha. by injection Ha as <-.
  - intros [= <- <- <-]. split; [done|]. split; [|done]. intros [?|?]; [|done]. by apply Hm1; left.
Qed.

Lemma recover_pending_kept log reply now out d j : disk_ok d log -> memory_ok d log j -> out <> Torn ->
  leaves (out <> Unsynced) log (recover_pending reply now out (d, j)).1.
Proof.
  intros Hok Hm Hout. destruct (recover_pending _ _ _ _) as [[d' j'] r] eqn:Hr.
  destruct (recover_pending_spec _ _ _ _ _ _ _ _ _ Hok Hm Hout Hr) as (Hok' & Hm' & _). exists log. split; [done|]. auto.
Qed.

(** ** Committing. *)
(** What the checks of a commit rely on: the reserved request, its prepared result and its render. *)
Lemma commit_admissible log done d j request now r (p : PreparedRecordV2) t : disk_ok d log -> memory_ok d log j -> follows d done j -> log = done ->
  completions j !! request_id (q_core request) = None -> reservations j !! request_id (q_core request) = Some r -> r_request r = request ->
  prepared j !! request_id (q_core request) = Some p -> staged j !! request_id (q_core request) = Some t ->
  matches_current_parent j request = true ->
  (request_id (q_core request) ∉ ids done) /\ admissible d log (PCommit (mkCommit request (p_result p) (st_renderer t) now)).
Proof.
  intros Hok Hm Hf Hlog Hcp Hres Hreq Hp Hst Hmatch. set (id_ := request_id (q_core request)) in *.
  assert (id_ ∉ ids done) as Hopen.
  { intros Hin. unfold ids in Hin. apply list_elem_of_fmap in Hin as (c' & Hid & Hin). rewrite Hid in *.
    by rewrite (at_forgotten _ _ _ _ _ _ Hf c' Hin Hcp) in Hp. }
  split; [done|]. pose proof (follows_fresh _ _ _ _ _ Hok Hf Hopen) as Hnr.
  apply (at_prepared _ _ _ _ _ _ Hf) in Hp as [Hp Hpid]; [|done]. apply (at_staged _ _ _ _ _ _ Hf) in Hst as [Hst Htid]; [|done].
  apply (at_reserved _ _ _ _ _ _ Hf) in Hres as [Hr Hrid]; [|done].
  destruct (ok_prepared _ _ _ _ _ Hok p Hp) as (r' & Hr' & Hrid' & _ & Hv); [by rewrite Hpid|].
  assert (PReservation r' = PReservation r) as [= ->] by (eapply holds_unique; [done|done|done|cbn; congruence]).
  destruct (ok_staged _ _ _ _ _ Hok t Hst) as (p' & Hp' & Hpid' & _ & _ & Hreceipt & Hcas); [by rewrite Htid|].
  assert (PPrepared p' = PPrepared p) as [= ->] by (eapply holds_unique; [done|done|done|cbn; congruence]).
  rewrite Hreq in Hv. pose proof (ok_reservation _ _ _ _ _ Hok r Hr) as Hvr. rewrite Hreq in Hvr.
  split; [|split; [done|split; [by rewrite Hlog|split]]].
  - unfold matches_current_parent in Hmatch. by rewrite (at_head _ _ _ _ _ _ Hf), <- Hlog in Hmatch.
  - rewrite Hlog. apply (at_active _ _ _ _ _ _ Hf).
  - split; [done|]. split; [by exists p|by exists t].
Qed.
Lemma commit_and_activate_kept log request fence earlier reply now o1 o2 o3 d j : disk_ok d log -> memory_ok d log j ->
  o1 <> Torn -> o2 <> Torn -> o3 <> Torn ->
  (exists r, reservations j !! request_id (q_core request) = Some r /\ r_request r = request) ->
  leaves (o1 <> Unsynced /\ o2 <> Unsynced /\ o3 <> Unsynced) log (commit_and_activate request fence earlier reply now o1 o2 o3 (d, j)).1.
Proof.
  intros Hok0 Hm0 Ho1 Ho2 Ho3 (r & Hres & Hreq). unfold commit_and_activate.
  destruct (recover_pending earlier now o1 (d, j)) as [[d1 j1] r1] eqn:Hrec.
  destruct (recover_pending_spec _ _ _ _ _ _ _ _ _ Hok0 Hm0 Ho1 Hrec) as (Hok & Hm & Hrest).
  destruct r1 as [[]|e].
  2: { exists log. split; [done|]. split; [done|]. intros (? & _). apply Hm. by left. }
  specialize (Hm (or_intror eq_refl)). destruct (Hrest eq_refl) as [Hnone Hsame]. rewrite <- Hsame in Hres.
  assert (leaves (o1 <> Unsynced /\ o2 <> Unsynced /\ o3 <> Unsynced) log (d1, j1)) as Hstay by by apply kept_same.
  destruct (check_live_fence j1 fence now); [|done]. destruct (completions j1 !! _) eqn:Hcp; [done|].
  match goal with |- context [match ?m with Ok _ => _ | Err _ => _ end] => destruct m as [c|] eqn:Hc end; [|done].
  peel Hc. injection Hc as Hc. bool_prop.
  repeat match goal with K : ok_or _ _ = Ok _ |- _ => apply ok_or_ok in K end.
  match goal with K : prepared j1 !! _ = Some ?x, K' : staged j1 !! _ = Some ?y |- _ => rename K into Hp, x into p, K' into Hst, y into t end.
  match goal with K : matches_current_parent _ _ = true |- _ => rename K into Hmatch end.
  destruct (mem_done _ _ _ _ _ _ Hm) as (done & Hlog & Hf). pose proof Hlog as Hlog'. rewrite Hnone in Hlog'. cbn in Hlog'. rewrite app_nil_r in Hlog'.
  destruct (commit_admissible log done d1 j1 request now r p t) as [Hopen Hadm]; try done. rewrite Hc in Hadm.
  destruct (write_slot _ _ _ _ _ _ _) as [d2 r2] eqn:Hw.
  assert (request_id (q_core request) = payload_id (PCommit c)) as Hcid by by rewrite <- Hc. rewrite Hcid in Hw.
  destruct (write_slot_kept log done (PCommit c) j1 o2 d1 d2 r2) as [(e & -> & Hkept)|(-> & Hok2 & Hm2)]; try done.
  - rewrite <- Hcid. apply (at_reserved _ _ _ _ _ _ Hf) in Hres as [[Hr _] Hrid]; [|done]. by rewrite <- Hrid.
  - destruct Hkept as (log' & ? & ? & Hmem). exists log'. split; [done|]. split; [done|]. intros (_ & ? & _). by apply Hmem.
  - cbn [remember] in Hm2. pose proof (recover_pending_kept (log ++ [c]) reply now o3 d2 (with_pending j1 (Some c)) Hok2 Hm2 Ho3) as Hkept.
    destruct (recover_pending reply now o3 _) as [[d3 j3] r3]. destruct Hkept as (log' & Hpre & Hok3 & Hm3). cbn [fst snd] in Hok3, Hm3.
    assert (leaves (o1 <> Unsynced /\ o2 <> Unsynced /\ o3 <> Unsynced) log (d3, j3)) as Hres3.
    { exists log'. split; [by etrans; [apply prefix_app_r|]|]. split; [done|]. intros (_ & _ & ?). by apply Hm3. }
    by destruct r3 as [[]|].
Qed.

(** ** Acknowledging. *)
Lemma completed_commit log done d j id_ answer : disk_ok d log -> log = done ++ option_list (pending_activation j) -> follows d done j ->
  completions j !! id_ = Some answer -> exists c, c ∈ done /\ c ∈ log /\ id_ = commit_id c /\ c_result c = answer /\ activated d c /\ id_ ∈ known.
Proof.
  intros Hok Hlog Hf Ha. destruct (at_completed _ _ _ _ _ _ Hf _ _ Ha) as (c & Hin & <- & <-). exists c.
  assert (c ∈ log) as Hl by (rewrite Hlog; apply elem_of_app; by left).
  split; [done|]. split; [done|]. split; [done|]. split; [done|]. split; [by apply (at_active _ _ _ _ _ _ Hf)|].
  apply (ok_log _ _ _ _ _ Hok) in Hl. by destruct Hl.
Qed.
Lemma acknowledge_kept log id_ head_ now out d j : disk_ok d log -> memory_ok d log j -> out <> Torn ->
  leaves (out <> Unsynced) log (acknowledge id_ head_ now out (d, j)).1.
Proof.
  intros Hok Hm Hout. pose proof (kept_same (out <> Unsynced) _ _ _ Hok Hm) as Hsame. unfold acknowledge.
  match goal with |- context [match ?m with Ok _ => _ | Err _ => _ end] => destruct m as [ack|] eqn:Hc end; [|done].
  peel Hc. injection Hc as <-. bool_prop. match goal with K : ok_or _ _ = Ok ?x |- _ => apply ok_or_ok in K; rename K into Ha, x into answer end.
  destruct (acknowledgements j !! _); [done|]. destruct (mem_done _ _ _ _ _ _ Hm) as (done & Hlog & Hf).
  destruct (completed_commit _ _ _ _ _ _ Hok Hlog Hf Ha) as (c & Hd & Hin & -> & <- & Hact & Hknown).
  destruct (write_slot _ _ _ _ _ _ _) as [d' r] eqn:Hw.
  destruct (write_slot_kept log done (PAck (mkAck (commit_id c) (record_digest (c_result c)) head_ now)) j out d d' r)
    as [(e & -> & Hkept)|(-> & Hok' & Hm')]; try done.
  - by exists c.
  - exists log. cbn [added] in *. by rewrite app_nil_r in Hok', Hm'.
Qed.

(** ** Retiring. *)
Lemma protected_covers log d j id_ answer : disk_ok d log -> memory_ok d log j -> retired d id_ -> needed k s known d log answer ->
  forall g, g ∈ fragment_digests answer -> g ∈ protected j id_.
Proof.
  intros Hok Hm Hret Hn g Hg. destruct (mem_done _ _ _ _ _ _ Hm) as (done & Hlog & Hf). unfold protected.
  assert (forall id', ~ retired d id' -> id' <> id_) as Hne by (intros id' Hnr ->; done).
  assert (forall id', ~ retired d id' -> completions j !! id' = Some answer -> g ∈ protected j id_) as Hdone.
  { intros id' Hnr Hc. apply elem_of_app. left. apply list_elem_of_bind. exists (id', answer). split; [done|].
    apply elem_of_map_to_list. rewrite lookup_delete_ne; [done|]. by apply not_eq_sym, Hne. }
  assert (forall id' r, ~ retired d id' -> id' ∉ ids done -> holds d (PPrepared r) -> prepared_id r = id' -> p_result r = answer -> g ∈ protected j id_)
    as Hopen.
  { intros id' r Hnr Hid Hr Hrid Hres. apply elem_of_app. right. apply list_elem_of_bind. exists (id', r). cbn [snd]. rewrite Hres. split; [done|].
    apply elem_of_map_to_list. rewrite lookup_delete_ne; [by apply (at_prepared _ _ _ _ _ _ Hf)|]. by apply not_eq_sym, Hne. }
  destruct Hn as [(t & r & Ht & Hnr & Hr & Hrid & Hres)|(c & Hin & Hnr & Hres)].
  - destruct (decide (st_request_id t ∈ ids done)) as [Hid|Hid]; [|by eapply Hopen].
    unfold ids in Hid. apply list_elem_of_fmap in Hid as (c & Hid & Hin). rewrite Hid in *. apply (Hdone (commit_id c)); [done|].
    rewrite (at_complete _ _ _ _ _ _ Hf c Hin Hnr). f_equal.
    destruct (ok_commit _ _ _ _ _ Hok c) as (_ & (r' & Hr' & Hrid' & Hres') & _); [rewrite Hlog; apply elem_of_app; by left|done|].
    assert (PPrepared r' = PPrepared r) as [= ->] by (eapply holds_unique; [done|done|done|cbn; congruence]). congruence.
  - destruct (decide (commit_id c ∈ ids done)) as [Hid|Hid].
    + unfold ids in Hid. apply list_elem_of_fmap in Hid as (c' & Hid & Hin').
      assert (c' = c) as -> by (eapply ids_inj; [apply Hok| |done|done]; rewrite Hlog; apply elem_of_app; by left).
      apply (Hdone (commit_id c)); [done|]. by rewrite (at_complete _ _ _ _ _ _ Hf c Hin' Hnr), Hres.
    + destruct (ok_commit _ _ _ _ _ Hok c Hin Hnr) as (_ & (r & Hr & Hrid & Hres') & _). eapply Hopen; [done|done|done|done|congruence].
Qed.

Lemma remove_fragments_survives log keep digests unlinks n d : disk_ok d log ->
  (forall answer, needed k s known d log answer -> forall g, g ∈ fragment_digests answer -> g ∈ keep) ->
  exists d' u r, remove_fragments keep digests unlinks n d = (d', u, r) /\ survives d d' log.
Proof.
  revert unlinks n d. induction digests as [|g digests IH]; intros unlinks n d Hok Hkeep; cbn [remove_fragments].
  { do 3 eexists. split; [done|]. by apply survives_refl. }
  case_bool_decide as Hg; [by apply IH|]. destruct (cas d !! g); [|by apply IH].
  destruct (default true (head unlinks)); [|do 3 eexists; split; [done|by apply survives_refl]].
  assert (survives d (set_fragment g None d) log) as Hs.
  { apply fewer_fragments; [done|]. intros answer Hn Hin. by eapply Hg, Hkeep. }
  destruct (IH (tail unlinks) (n + 1) (set_fragment g None d)) as (d' & u & r & -> & Hs').
  - by eapply survivor_ok.
  - intros answer Hn. eapply Hkeep. by eapply needed_mono.
  - do 3 eexists. split; [done|]. by eapply survives_trans.
Qed.
Lemma remove_slots_survives log dirs id_ unlinks d : disk_ok d log -> Forall (fun dir => collectable dir = true) dirs ->
  id_ ∈ known -> retired d id_ -> exists d' r, remove_slots dirs (slot_path id_) unlinks d = (d', r) /\ survives d d' log.
Proof.
  revert unlinks d. induction dirs as [|dir dirs IH]; intros unlinks d Hok Hdirs Hid Hr; cbn [remove_slots].
  { do 2 eexists. split; [done|]. by apply survives_refl. }
  apply Forall_cons in Hdirs as [Hdir Hdirs]. destruct (slots d dir !! _); [|by apply IH].
  destruct (default true (head unlinks)); [|do 2 eexists; split; [done|by apply survives_refl]].
  pose proof (fewer_slots _ _ _ no_collision _ _ _ _ Hok Hdir Hid Hr) as Hs.
  destruct (IH (tail unlinks) (set_slot dir (slot_path id_) None d)) as (d' & r & -> & Hs'); [by eapply survivor_ok|done|done| |].
  - by eapply survives_retired.
  - do 2 eexists. split; [done|]. by eapply survives_trans.
Qed.

Lemma forget_ok log d j id_ : memory_ok d log j -> retired d id_ -> memory_ok d log (forget j id_).
Proof.
  intros [Hk Hse Hsh Ht (done & Hlog & [Hhead Hac Hret Hcd Hcpl Hfg Hwk Hrs Hps Hss])] Hr. split; try done. exists done. split; [done|].
  pose proof (Hret _ Hr) as Hid.
  assert (forall id', id' ∉ ids done -> id_ <> id') as Hne by (intros id' Hn ->; done).
  split; cbn [forget current completions reservations prepared staged with_retired with_work]; try done.
  - intros id' a. rewrite lookup_delete_Some. intros [_ Ha]. by apply Hcd.
  - intros c Hc Hnr. rewrite lookup_delete_ne; [by apply Hcpl|]. by intros ->.
  - intros c Hc. destruct (decide (id_ = commit_id c)) as [->|Hd]; [by rewrite !lookup_delete_eq|]. rewrite !lookup_delete_ne by done. by apply Hfg.
  - intros c Hc. destruct (decide (id_ = commit_id c)) as [->|Hd]; [by rewrite !lookup_delete_eq|]. rewrite !lookup_delete_ne by done. by apply Hwk.
  - intros id' r Hn. rewrite lookup_delete_ne by by apply Hne. by apply Hrs.
  - intros id' r Hn. rewrite lookup_delete_ne by by apply Hne. by apply Hps.
  - intros id' r Hn. rewrite lookup_delete_ne by by apply Hne. by apply Hss.
Qed.

Lemma collect_kept log id_ answer unlinks synced d j : disk_ok d log -> memory_ok d log j -> id_ ∈ known -> retired d id_ ->
  leaves True log (collect id_ answer unlinks synced (d, j)).1.
Proof.
  intros Hok Hm Hid Hr. unfold collect.
  destruct (remove_fragments_survives log (protected j id_) (fragment_digests answer) unlinks 0 d Hok) as (d1 & u & r1 & -> & Hs1).
  { intros a Ha. by eapply protected_covers. }
  pose proof (survivor_ok _ _ _ _ _ _ Hok Hs1) as Hok1. pose proof (memory_survives _ _ _ _ Hs1 Hm) as Hm1.
  assert (retired d1 id_) as Hr1 by by eapply survives_retired.
  destruct r1; [|by apply kept_same].
  destruct (remove_slots_survives log [Reservations; Prepared; Staged; Acks] id_ u d1) as (d2 & r2 & -> & Hs2); try done; [by repeat constructor|].
  pose proof (survivor_ok _ _ _ _ _ _ Hok1 Hs2) as Hok2. pose proof (memory_survives _ _ _ _ Hs2 Hm1) as Hm2.
  destruct r2; [|by apply kept_same]. destruct synced; [|by apply kept_same]. apply kept_same; [done|]. apply forget_ok; [done|].
  by eapply survives_retired.
Qed.
Lemma garbage_collect_kept log id_ now retention out unlinks synced d j : disk_ok d log -> memory_ok d log j -> out <> Torn ->
  leaves (out <> Unsynced) log (garbage_collect id_ now retention out unlinks synced (d, j)).1.
Proof.
  intros Hok Hm Hout. pose proof (kept_same (out <> Unsynced) _ _ _ Hok Hm) as Hsame. unfold garbage_collect.
  destruct (completions j !! id_) as [answer|] eqn:Ha; [|done]. destruct (mem_done _ _ _ _ _ _ Hm) as (done & Hlog & Hf).
  destruct (completed_commit _ _ _ _ _ _ Hok Hlog Hf Ha) as (c & Hd & Hin & -> & <- & Hact & Hknown).
  assert (forall d' log' j', log `prefix_of` log' -> disk_ok d' log' -> memory_ok d' log' j' -> retired d' (commit_id c) ->
    leaves (out <> Unsynced) log (collect (commit_id c) (c_result c) unlinks synced (d', j')).1) as Hcollect.
  { intros d' log' j' Hpre Hok' Hm' Hr'. destruct (collect_kept log' (commit_id c) (c_result c) unlinks synced d' j') as (log2 & Hpre2 & ? & Hm2); try done.
    exists log2. split; [by etrans|]. auto. }
  destruct (tombstones j !! commit_id c) as [t|] eqn:Ht.
  - destruct (negb _); [done|]. apply (Hcollect d log j); [done..|]. exists t. by apply (mem_tombstones _ _ _ _ _ _ Hm).
  - destruct (acknowledgements j !! _); [|done]. destruct (_ || _); [done|]. destruct (write_slot _ _ _ _ _ _ _) as [d' r] eqn:Hw.
    destruct (write_slot_kept log done (PTombstone (mkTombstone (commit_id c) (record_digest (c_result c)) now)) j out d d' r)
      as [(e & -> & Hkept)|(-> & Hok' & Hm')]; try done.
    + by exists c.
    + split; [|done]. by apply (list_elem_of_fmap_2 commit_id).
    + eapply (Hcollect d'); [by apply prefix_app_r|exact Hok'|exact Hm'|].
      exists (mkTombstone (commit_id c) (record_digest (c_result c)) now). split; [|done].
      apply (mem_tombstones _ _ _ _ _ _ Hm' (commit_id c)). apply lookup_insert_eq.
Qed.
End Runs.
