(* ===== verification/VerifierRecovery.v ===== *)
(** * Crash recovery of the remote session.

    The journal's operations as steps of a world, a disk and the memory of the process that
    has it open.  A crash may come at any file operation; a file is then there, with or without
    its directory synced, or not there.  The one case left out is a slot file that exists with
    only part of its bytes: [torn_slot_stays_shut] shows what the code does with it. *)
From Stdlib Require Import Strings.Byte.
From S2P Require Import Prelude Utf8 Sampling Float64 Verifier VerifierProofs VerifierJournal VerifierDisk VerifierChain VerifierSafety VerifierRuns.

Section Recovery.
Context `{VerifierLaws} (k : MacKey) (s : AuthenticatedSessionV2) (known : list str).
Context (expected_key_id : str) (minimum_epoch : Z).

(** ** Steps. *)
Inductive Action : Type :=
| DoReserve (request : AuthenticatedRoundV2) (fence : AuthorityFenceV2) (now : Z) (out : WriteOutcome)
| DoPrepare (request : AuthenticatedRoundV2) (answer : AuthenticatedResultV2) (fence : AuthorityFenceV2) (now : Z) (out : WriteOutcome)
| DoStage (request : AuthenticatedRoundV2) (closure : VerifiedClosureV2) (reply : result string RendererStageReceiptV2) (now : Z)
    (outs : list (WriteOutcome * str)) (out : WriteOutcome)
| DoCommit (request : AuthenticatedRoundV2) (fence : AuthorityFenceV2) (earlier reply : result string unit) (now : Z)
    (out_earlier out_commit out_active : WriteOutcome)
| DoRecover (reply : result string unit) (now : Z) (out : WriteOutcome)
| DoAcknowledge (request_id_ applied_head : str) (now : Z) (out : WriteOutcome)
| DoCollect (request_id_ : str) (now retention : Z) (out : WriteOutcome) (unlinks : list bool) (synced : bool).
Definition perform (a : Action) (m : Disk * DurableVerifierJournalV2) : Disk * DurableVerifierJournalV2 :=
  match a with
  | DoReserve request fence now out => (reserve request fence now out m).1
  | DoPrepare request answer fence now out => (record_prepared request answer fence now out m).1
  | DoStage request closure reply now outs out => (stage_result request closure reply now outs out m).1
  | DoCommit request fence earlier reply now o1 o2 o3 => (commit_and_activate request fence earlier reply now o1 o2 o3 m).1
  | DoRecover reply now out => (recover_pending reply now out m).1
  | DoAcknowledge request_id_ applied_head now out => (acknowledge request_id_ applied_head now out m).1
  | DoCollect request_id_ now retention out unlinks synced => (garbage_collect request_id_ now retention out unlinks synced m).1
  end.
Definition outcomes (a : Action) : list WriteOutcome :=
  match a with
  | DoReserve _ _ _ out | DoPrepare _ _ _ _ out | DoRecover _ _ out | DoAcknowledge _ _ _ out | DoCollect _ _ _ out _ _ => [out]
  | DoStage _ _ _ _ outs out => map fst outs ++ [out]
  | DoCommit _ _ _ _ _ o1 o2 o3 => [o1; o2; o3]
  end.
(** A closure comes from an assembler, and a commit is for the request that was reserved. *)
Definition assembled (closure : VerifiedClosureV2) : Prop :=
  exists answer request core_ a arrivals, assembler_new answer request core_ = Ok a /\ finish (received a arrivals) = Ok closure.
Definition legal (a : Action) (j : DurableVerifierJournalV2) : Prop :=
  match a with
  | DoReserve request _ _ _ => request_id (q_core request) ∈ known
  | DoStage _ closure _ _ _ _ => assembled closure
  | DoCommit request _ _ _ _ _ _ _ => exists r, reservations j !! request_id (q_core request) = Some r /\ r_request r = request
  | _ => True
  end.
Abbreviation World := (Disk * option DurableVerifierJournalV2)%type.
Inductive world_step : World -> World -> Prop :=
(** The process learns of every write whether it happened. *)
| step_action d j a : legal a j -> Forall (fun o => o = Done \/ o = Absent) (outcomes a) ->
    world_step (d, Some j) ((perform a (d, j)).1, Some (perform a (d, j)).2)
(** It dies, at any point of an operation. *)
| step_crash d j a : legal a j -> Forall (fun o => o <> Torn) (outcomes a) ->
    world_step (d, Some j) ((perform a (d, j)).1, None)
| step_open d j : open_journal d k expected_key_id minimum_epoch = Ok j -> world_step (d, None) (d, Some j).

(** ** Closures from an assembler are sound. *)
Lemma assembled_sound closure : assembled closure -> sound closure.
Proof.
  intros (answer & request & core_ & a & arrivals & Ha & Hf). unfold assembler_new in Ha. peel Ha. injection Ha as <-.
  match type of Hf with finish (received ?x _) = _ => set (a0 := x) in * end.
  pose proof (assembling_received a0 arrivals eq_refl) as Has.
  destruct (finish_complete (received a0 arrivals) answer arrivals a0 Has eq_refl eq_refl) as (closure' & Hf' & _ & Hsound).
  - intros i d Hd. destruct (first_fit i d arrivals) eqn:E; [done|]. by rewrite (finish_incomplete _ _ _ _ _ Has Hd E) in Hf.
  - rewrite Hf in Hf'. by injection Hf' as <-.
Qed.

(** ** What is activated stays so. *)
Definition lasting (d d' : Disk) : Prop := forall path file, slots d Active !! path = Some file -> slots d' Active !! path = Some file.
Lemma lasting_refl d : lasting d d.
Proof. by intros ? ?. Qed.
Lemma lasting_trans d d' d'' : lasting d d' -> lasting d' d'' -> lasting d d''.
Proof. intros Hl Hl' path file Hp. by apply Hl', Hl. Qed.
Lemma lasting_slot dir path file d : (dir = Active -> slots d dir !! path = None) -> lasting d (set_slot dir path file d).
Proof.
  intros Hfree path' file' Hp. rewrite lookup_set_slot. case_decide as Hd; [|done]. destruct Hd as [<- ->]. by rewrite Hfree in Hp.
Qed.
Lemma lasting_write_slot j dir id_ kind_ p out d : lasting d (write_slot j dir id_ kind_ p out d).1.
Proof.
  unfold write_slot. destruct (journal_envelope _ _ _ _); [|apply lasting_refl]. destruct (slots d dir !! slot_path id_) eqn:E; [apply lasting_refl|].
  destruct out; cbn [write_exclusive fst]; try apply lasting_refl; by apply lasting_slot.
Qed.
Lemma lasting_write_fragments fs outs d : lasting d (write_fragments fs outs d).1.
Proof.
  revert outs d. induction fs as [|f fs IH]; intros outs d; [apply lasting_refl|]. cbn [write_fragments].
  destruct (default _ _) as [out torn].
  assert (lasting d (write_fragment f out torn d).1) as Hf.
  { unfold write_fragment. destruct (cas d !! _); [apply lasting_refl|]. by destruct out; intros ? ?. }
  destruct (write_fragment f out torn d) as [d' [[]|]]; [|done]. eapply lasting_trans; [done|apply IH].
Qed.
Lemma lasting_remove_fragments keep digests unlinks n d : lasting d (remove_fragments keep digests unlinks n d).1.1.
Proof.
  revert unlinks n d. induction digests as [|g digests IH]; intros unlinks n d; [apply lasting_refl|]. cbn [remove_fragments].
  case_bool_decide; [apply IH|]. destruct (cas d !! g); [|apply IH]. destruct (default true (head unlinks)); [|apply lasting_refl].
  eapply lasting_trans; [|apply IH]. by intros ? ?.
Qed.
Lemma lasting_remove_slots dirs path unlinks d : Active ∉ dirs -> lasting d (remove_slots dirs path unlinks d).1.
Proof.
  revert unlinks d. induction dirs as [|dir dirs IH]; intros unlinks d Hn; [apply lasting_refl|]. cbn [remove_slots].
  apply not_elem_of_cons in Hn as [Hd Hn]. destruct (slots d dir !! path); [|by apply IH].
  destruct (default true (head unlinks)); [|apply lasting_refl]. eapply lasting_trans; [|by apply IH]. apply lasting_slot. by intros ->.
Qed.
Lemma lasting_recover reply now out d j : lasting d (recover_pending reply now out (d, j)).1.1.
Proof.
  unfold recover_pending. destruct (pending_activation j) as [c|]; [|apply lasting_refl].
  match goal with |- context [match ?m with Ok _ => _ | Err _ => _ end] => destruct m end; [|apply lasting_refl].
  match goal with |- context [write_active j ?a out d] => assert (lasting d (write_active j a out d).1) as Hw; [|destruct (write_active j a out d) as [d' [[]|]]] end.
  - unfold write_active. destruct (slots d Active !! _); [apply lasting_refl|apply lasting_write_slot].
  - cbn [fst] in Hw. by destruct (apply_active _ _ _).
  - done.
Qed.
Lemma lasting_collect id_ answer unlinks synced d j : lasting d (collect id_ answer unlinks synced (d, j)).1.1.
Proof.
  unfold collect. pose proof (lasting_remove_fragments (protected j id_) (fragment_digests answer) unlinks 0 d) as H1.
  destruct (remove_fragments _ _ _ _ _) as [[d1 u] r1]. cbn [fst] in H1. destruct r1; [|done].
  pose proof (lasting_remove_slots [Reservations; Prepared; Staged; Acks] (slot_path id_) u d1) as H2.
  destruct (remove_slots _ _ _ _) as [d2 r2]. cbn [fst] in H2.
  assert (lasting d d2) by (eapply lasting_trans; [done|]; apply H2; by set_solver). destruct r2; [|done]. by destruct synced.
Qed.
(** Split a handler's result on the outcome of its writes. *)
Ltac lasting_cases :=
  repeat match goal with
  | |- lasting ?d ?d => apply lasting_refl
  | |- context [write_slot ?j ?dir ?i ?kd ?p ?o ?d] =>
      let Hw := fresh "Hw" in pose proof (lasting_write_slot j dir i kd p o d) as Hw; destruct (write_slot j dir i kd p o d) as [? [[]|]]; cbn [fst] in *
  | |- context [match ?m with Ok _ => _ | Err _ => _ end] => destruct m; cbn [fst]
  | |- context [match ?m with Some _ => _ | None => _ end] => destruct m; cbn [fst]
  | |- context [if ?b then _ else _] => destruct b; cbn [fst]
  end; try done.
Lemma lasting_perform a d j : lasting d (perform a (d, j)).1.
Proof.
  destruct a; cbn [perform].
  - unfold reserve. lasting_cases.
  - unfold record_prepared. lasting_cases.
  - unfold stage_result. match goal with |- context [match ?m with Ok _ => _ | Err _ => _ end] => destruct m end; [|apply lasting_refl].
    destruct (staged j !! _); [apply lasting_refl|].
    pose proof (lasting_write_fragments (cl_fragments closure) outs d) as Hf. destruct (write_fragments _ _ _) as [d1 [[]|]]; cbn [fst] in *; [|done].
    lasting_cases; by eapply lasting_trans.
  - unfold commit_and_activate. pose proof (lasting_recover earlier now out_earlier d j) as Hr.
    destruct (recover_pending earlier now out_earlier (d, j)) as [[d1 j1] [[]|]]; cbn [fst] in *; [|done].
    destruct (check_live_fence _ _ _); [|done]. destruct (completions j1 !! _); [done|].
    match goal with |- context [match ?m with Ok _ => _ | Err _ => _ end] => destruct m as [c|] end; [|done].
    match goal with |- context [write_slot ?j ?dir ?i ?kd ?p ?o ?d] =>
      pose proof (lasting_write_slot j dir i kd p o d) as Hw; destruct (write_slot j dir i kd p o d) as [d2 [[]|]]; cbn [fst] in * end;
      [|by eapply lasting_trans].
    pose proof (lasting_recover reply now out_active d2 (with_pending j1 (Some c))) as Hr2.
    destruct (recover_pending reply now out_active _) as [[d3 j3] [[]|]]; cbn [fst] in *; repeat (eapply lasting_trans; [eassumption|]); apply lasting_refl.
  - apply lasting_recover.
  - unfold acknowledge. lasting_cases.
  - unfold garbage_collect. destruct (completions j !! _) as [answer|]; [|apply lasting_refl].
    destruct (tombstones j !! _); [destruct (negb _); [apply lasting_refl|apply lasting_collect]|].
    destruct (acknowledgements j !! _); [|apply lasting_refl]. destruct (_ || _); [apply lasting_refl|].
    match goal with |- context [write_slot ?j ?dir ?i ?kd ?p ?o ?d] =>
      pose proof (lasting_write_slot j dir i kd p o d) as Hw; destruct (write_slot j dir i kd p o d) as [d2 [[]|]]; cbn [fst] in * end; [|done].
    eapply lasting_trans; [done|apply lasting_collect].
Qed.
Lemma world_step_lasting w w' : world_step w w' -> lasting w.1 w'.1.
Proof. intros [d j a _ _|d j a _ _|d j _]; cbn; [apply lasting_perform|apply lasting_perform|apply lasting_refl]. Qed.
Lemma world_steps_lasting w w' : rtc world_step w w' -> lasting w.1 w'.1.
Proof. induction 1 as [w|w w1 w' Hs _ IH]; [apply lasting_refl|]. eapply lasting_trans; [by apply world_step_lasting|done]. Qed.
Lemma lasting_activated d d' c : lasting d d' -> activated k s known d c -> activated k s known d' c.
Proof. intros Hl (a & (Hid & e & He & Hs) & Ha). exists a. split; [|done]. split; [done|]. exists e. split; [by apply Hl|done]. Qed.

(** ** The invariant. *)
Definition world_ok log (w : World) : Prop := disk_ok k s known w.1 log /\ forall j, w.2 = Some j -> memory_ok k s known w.1 log j.

Section Invariant.
Hypothesis no_collision : forall x y, x ∈ known -> y ∈ known -> slot_path x = slot_path y -> x = y.
Hypothesis authentic : verify_session_historical s k expected_key_id minimum_epoch = Ok tt.

Lemma kept_weaken (P Q : Prop) log m : leaves k s known P log m -> (Q -> P) -> leaves k s known Q log m.
Proof. intros (log' & ? & ? & Hm) Hqp. exists log'. auto. Qed.
Ltac settled := rewrite ?Forall_app, ?Forall_cons, ?Forall_map; tauto.
Lemma perform_kept a log d j : disk_ok k s known d log -> memory_ok k s known d log j -> legal a j -> Forall (fun o => o <> Torn) (outcomes a) ->
  leaves k s known (Forall (fun o => o <> Unsynced) (outcomes a)) log (perform a (d, j)).
Proof.
  intros Hok Hm Hl Ho. destruct a; cbn [perform outcomes legal] in *; rewrite ?Forall_app, ?Forall_cons, ?Forall_map in *;
    repeat match goal with K : _ /\ _ |- _ => destruct K end.
  - eapply kept_weaken; [by apply reserve_kept|settled].
  - eapply kept_weaken; [by apply record_prepared_kept|settled].
  - eapply kept_weaken; [apply stage_result_kept; try done; by apply assembled_sound|settled].
  - eapply kept_weaken; [by apply commit_and_activate_kept|settled].
  - eapply kept_weaken; [by apply recover_pending_kept|settled].
  - eapply kept_weaken; [by apply acknowledge_kept|settled].
  - eapply kept_weaken; [by apply garbage_collect_kept|settled].
Qed.

Lemma world_step_ok log w w' : world_ok log w -> world_step w w' -> exists log', log `prefix_of` log' /\ world_ok log' w'.
Proof.
  intros [Hok Hm] Hstep. inversion Hstep as [d j a Hl Ho|d j a Hl Ho|d j Ho]; subst; cbn in Hok, Hm.
  - specialize (Hm j eq_refl). destruct (perform_kept a log d j Hok Hm Hl) as (log' & Hpre & Hok' & Hm').
    { eapply Forall_impl; [done|]. by intros o [->| ->]. }
    exists log'. split; [done|]. split; [done|]. intros j' [= <-]. apply Hm'. eapply Forall_impl; [done|]. by intros o [->| ->].
  - specialize (Hm j eq_refl). destruct (perform_kept a log d j Hok Hm Hl Ho) as (log' & Hpre & Hok' & _).
    exists log'. split; [done|]. by split.
  - exists log. split; [done|]. split; [done|]. intros j' [= <-].
    destruct (opened k s known d log _ _ authentic Hok) as (j' & Ho' & Hm' & _). rewrite Ho in Ho'. by injection Ho' as ->.
Qed.
Lemma world_steps_ok log w w' : world_ok log w -> rtc world_step w w' -> exists log', log `prefix_of` log' /\ world_ok log' w'.
Proof.
  intros Hw Hs. revert log Hw. induction Hs as [w|w w1 w' Hstep _ IH]; intros log Hw; [by exists log|].
  destruct (world_step_ok _ _ _ Hw Hstep) as (log1 & Hp1 & Hw1). destruct (IH _ Hw1) as (log' & Hp' & Hw').
  exists log'. split; [by etrans|done].
Qed.

(** ** What a reopened journal has. *)
Lemma replay_prefix h log : evaluated_tokens h `prefix_of` evaluated_tokens (replay h log).
Proof.
  revert h. induction log as [|c log IH]; intros h; [done|]. etrans; [|apply (IH (head_after h c))]. cbn. by apply prefix_app_r.
Qed.
Lemma prefix_of_snoc {A} (l l' : list A) x : l `prefix_of` l' ++ [x] -> l `prefix_of` l' \/ l = l' ++ [x].
Proof.
  intros [m Hm]. destruct m as [|y m _] using rev_ind; [right; by rewrite app_nil_r in Hm|]. left. rewrite app_assoc in Hm.
  apply app_inj_tail in Hm as [-> _]. by apply prefix_app_r.
Qed.
Lemma reopened d log done : disk_ok k s known d log -> done `prefix_of` log -> (forall c, c ∈ done -> activated k s known d c) ->
  exists j' done', open_journal d k expected_key_id minimum_epoch = Ok j' /\ memory_ok k s known d log j' /\
    log = done' ++ option_list (pending_activation j') /\ current j' = replay (current (from_session k s)) done' /\
    done `prefix_of` done' /\ (forall c, c ∈ done -> completions j' !! commit_id c = Some (c_result c)).
Proof.
  intros Hok Hpre Hact. destruct (opened k s known d log _ _ authentic Hok) as (j' & Ho & Hm & Hr).
  destruct (mem_done _ _ _ _ _ _ Hm) as (done' & Hlog & Hf). exists j', done'. split; [done|]. split; [done|]. split; [done|].
  split; [apply Hf|]. split.
  - rewrite Hlog in Hpre. destruct (pending_activation j') as [c|] eqn:Hp; cbn in Hpre; [|by rewrite app_nil_r in Hpre].
    apply prefix_of_snoc in Hpre as [?|Heq]; [done|]. exfalso. eapply (rd_pending _ _ _ _ _ _ Hr); [done|]. apply Hact. rewrite Heq.
    apply elem_of_app. right. by apply list_elem_of_singleton.
  - intros c Hc. eapply restored_completed; [done|done| |by apply Hact]. destruct Hpre as [m ->]. apply elem_of_app. by left.
Qed.
Lemma world_prefix (log done : list CommitRecordV2) (j : DurableVerifierJournalV2) : log = done ++ option_list (pending_activation j) -> done `prefix_of` log.
Proof. intros ->. by apply prefix_app_r. Qed.
End Invariant.

Lemma created now d j : create_journal s k now expected_key_id minimum_epoch Done true = (d, Ok j) ->
  verify_session_historical s k expected_key_id minimum_epoch = Ok tt /\ world_ok [] (d, Some j).
Proof.
  unfold create_journal. destruct (verify_session_live _ _ _ _ _) as [[]|] eqn:Hv; [|done]. intros [= <- <-].
  unfold verify_session_live in Hv. peel Hv. match goal with u : unit |- _ => destruct u end. split; [done|].
  assert (forall p, ~ holds k (session_record_digest s) known (mkDisk (Some (Some s)) (slots blank_disk) (cas blank_disk)) p) as Hno
    by (intros p (_ & e & He & _); cbn in He; by rewrite lookup_empty in He).
  assert (forall c, c ∈ @nil CommitRecordV2 -> False) as Hnil by by intros c ?%elem_of_nil.
  split; cbn [fst snd].
  - split; try (by intros ? []%Hno); try done.
    + intros c. split; [by intros []%Hno|by intros []%Hnil].
    + apply NoDup_nil_2.
    + by intros r r' []%Hno.
    + by intros c []%Hnil.
  - intros j' [= <-]. split; try done.
    + intros id_ t. cbn. rewrite lookup_empty. split; [done|]. by intros [[]%Hno _].
    + exists []. split; [done|]. split; try done; try (by intros c []%Hnil).
      * by intros id_ (t & []%Hno & _).
      * intros id_ r _. cbn. rewrite lookup_empty. split; [done|]. by intros [[]%Hno _].
      * intros id_ r _. cbn. rewrite lookup_empty. split; [done|]. by intros [[]%Hno _].
      * intros id_ r _. cbn. rewrite lookup_empty. split; [done|]. by intros [[]%Hno _].
Qed.

Definition distinct_names : Prop := forall x y, x ∈ known -> y ∈ known -> slot_path x = slot_path y -> x = y.


(** C31. No two results decide the same output position: a round is answered once, whatever crashes come
    between. *)
Theorem one_decision_per_position now d0 j0 d1 j1 d2 j2 id1 a1 id2 a2 : distinct_names ->
  create_journal s k now expected_key_id minimum_epoch Done true = (d0, Ok j0) ->
  rtc world_step (d0, Some j0) (d1, Some j1) -> rtc world_step (d1, Some j1) (d2, Some j2) ->
  completions j1 !! id1 = Some a1 -> completions j2 !! id2 = Some a2 ->
  a_base_output_height (a_core a1) = a_base_output_height (a_core a2) -> id1 = id2 /\ a1 = a2.
Proof.
  intros Hd Hc Hs1 Hs2 Ha1 Ha2 Heq. destruct (created _ _ _ Hc) as [Hauth Hw0].
  destruct (world_steps_ok Hd Hauth _ _ _ Hw0 Hs1) as (log1 & _ & Hw1). pose proof Hw1 as [_ Hm1]. specialize (Hm1 j1 eq_refl).
  destruct (world_steps_ok Hd Hauth _ _ _ Hw1 Hs2) as (log2 & Hpre & Hok2 & Hm2). specialize (Hm2 j2 eq_refl). cbn [fst snd] in *.
  destruct (mem_done _ _ _ _ _ _ Hm1) as (done1 & Hlog1 & Hf1), (mem_done _ _ _ _ _ _ Hm2) as (done2 & Hlog2 & Hf2).
  destruct (at_completed _ _ _ _ _ _ Hf1 _ _ Ha1) as (c1 & Hin1 & <- & <-), (at_completed _ _ _ _ _ _ Hf2 _ _ Ha2) as (c2 & Hin2 & <- & <-).
  assert (c1 = c2) as ->; [|done]. apply (base_inj k s (current (from_session k s)) log2); [apply Hok2| | |done].
  - eapply elem_of_prefix; [|exact Hpre]. rewrite Hlog1. apply elem_of_app. by left.
  - rewrite Hlog2. apply elem_of_app. by left.
Qed.

(** The unfinished children of the head are one at most. *)
Lemma open_child d log j id_ r : disk_ok k s known d log -> memory_ok k s known d log j -> follows k s known d log j ->
  reservations j !! id_ = Some r -> completions j !! id_ = None -> tombstones j !! id_ = None ->
  (id_ ∉ ids log) /\ holds k (session_record_digest s) known d (PReservation r) /\ reservation_id r = id_.
Proof.
  intros Hok Hm Hf Hr Hc Ht. assert (id_ ∉ ids log) as Hid; [|split; [done|by apply (at_reserved _ _ _ _ _ _ Hf)]].
  intros Hin. unfold ids in Hin. apply list_elem_of_fmap in Hin as (c & -> & Hin).
  rewrite (at_complete _ _ _ _ _ _ Hf c Hin) in Hc; [done|]. intros (t & Hh & Hti).
  assert (tombstones j !! commit_id c = Some t) as E by by apply (mem_tombstones _ _ _ _ _ _ Hm). by rewrite E in Ht.
Qed.
Lemma one_child d log j id_ r id' r' : disk_ok k s known d log -> memory_ok k s known d log j -> follows k s known d log j ->
  reservations j !! id_ = Some r -> completions j !! id_ = None -> tombstones j !! id_ = None -> matches_current_parent j (r_request r) = true ->
  reservations j !! id' = Some r' -> completions j !! id' = None -> tombstones j !! id' = None -> matches_current_parent j (r_request r') = true ->
  id_ = id' /\ r = r'.
Proof.
  intros Hok Hm Hf Hr Hc Ht Hmatch Hr' Hc' Ht' Hmatch'.
  destruct (open_child _ _ _ _ _ Hok Hm Hf Hr Hc Ht) as (Hid & Hh & <-), (open_child _ _ _ _ _ Hok Hm Hf Hr' Hc' Ht') as (Hid' & Hh' & <-).
  apply matches_head_eq in Hmatch as (_ & _ & Hb), Hmatch' as (_ & _ & Hb').
  assert (r = r') as ->; [|done]. apply (ok_parents _ _ _ _ _ Hok); congruence.
Qed.

(** A journal with nothing to activate always knows its unfinished round: there is at most one. *)
Theorem pending_round_known now d0 j0 d j : distinct_names ->
  create_journal s k now expected_key_id minimum_epoch Done true = (d0, Ok j0) ->
  rtc world_step (d0, Some j0) (d, Some j) -> pending_activation j = None ->
  exists found, pending_round j = Ok found /\
    forall id_ r, reservations j !! id_ = Some r -> completions j !! id_ = None -> tombstones j !! id_ = None ->
      matches_current_parent j (r_request r) = true ->
      match found with
      | Some (PendingReserved q) => q = r_request r /\ prepared j !! id_ = None
      | Some (PendingPrepared q a) => q = r_request r /\ p_result <$> prepared j !! id_ = Some a /\ staged j !! id_ = None
      | Some (PendingStaged q a receipt) =>
          q = r_request r /\ p_result <$> prepared j !! id_ = Some a /\ st_renderer <$> staged j !! id_ = Some receipt
      | None => False
      end.
Proof.
  intros Hd Hc Hs Hp. destruct (created _ _ _ Hc) as [Hauth Hw0].
  destruct (world_steps_ok Hd Hauth _ _ _ Hw0 Hs) as (log & _ & Hok & Hm). specialize (Hm j eq_refl). cbn [fst] in *.
  destruct (mem_done _ _ _ _ _ _ Hm) as (done & Hlog & Hf). rewrite Hp in Hlog. cbn in Hlog. rewrite app_nil_r in Hlog. subst done.
  unfold pending_round. rewrite Hp, bool_decide_eq_false_2 by (intros E; by apply E). set (l := List.filter _ _).
  assert (forall id_ r, (id_, r) ∈ l <-> reservations j !! id_ = Some r /\ completions j !! id_ = None /\ tombstones j !! id_ = None /\
    matches_current_parent j (r_request r) = true) as Hl.
  { intros id_ r. unfold l. rewrite list_elem_of_In, filter_In, <- list_elem_of_In, elem_of_map_to_list. cbn.
    rewrite !andb_true_iff, !bool_decide_eq_true. tauto. }
  assert (NoDup l) as Hdup by (unfold l; apply NoDup_ListNoDup, List.NoDup_filter, NoDup_ListNoDup, NoDup_map_to_list).
  destruct l as [|[id1 r1] [|[id2 r2] l]].
  - exists None. split; [done|]. intros id_ r Hr Hcn Ht Hmatch. by apply (elem_of_nil (id_, r)), Hl.
  - destruct (proj1 (Hl id1 r1)) as (Hr1 & Hc1 & Ht1 & Hm1); [apply elem_of_cons; by left|].
    eexists. split; [done|]. intros id_ r Hr Hcn Ht Hmatch.
    destruct (one_child _ _ _ _ _ _ _ Hok Hm Hf Hr Hcn Ht Hmatch Hr1 Hc1 Ht1 Hm1) as [-> ->].
    destruct (prepared j !! id1) as [p|] eqn:Ep; [|done]. destruct (staged j !! id1) as [t|] eqn:Et; done.
  - exfalso. destruct (proj1 (Hl id1 r1)) as (Hr1 & Hc1 & Ht1 & Hm1); [apply elem_of_cons; by left|].
    destruct (proj1 (Hl id2 r2)) as (Hr2 & Hc2 & Ht2 & Hm2); [apply elem_of_cons; right; apply elem_of_cons; by left|].
    destruct (one_child _ _ _ _ _ _ _ Hok Hm Hf Hr1 Hc1 Ht1 Hm1 Hr2 Hc2 Ht2 Hm2) as [-> ->].
    apply NoDup_cons in Hdup as [Hn _]. apply Hn, elem_of_cons. by left.
Qed.

(** ** A torn slot. *)
Lemma read_files_torn `{SlotType T} (kind_ : string) (j : DurableVerifierJournalV2) (files : list (str * File)) (path : str) (records : gmap str T) : (path, None) ∈ files ->
  is_ok (read_files unwrap slot_id kind_ j files records) = false.
Proof.
  revert records. induction files as [|[path' file] files IH]; intros records Hin; [by apply elem_of_nil in Hin|]. cbn [read_files].
  apply elem_of_cons in Hin as [[= <- <-]|Hin]; [done|]. destruct (read_envelope file); [|done].
  destruct (decode_journal _ _ _ _ _); [|done]. case_match; [done|]. by apply IH.
Qed.
(** A slot left incomplete by a crash keeps the journal from opening: nothing repairs or removes it. *)
Theorem torn_slot_stays_shut d (dir : Directory) (path : str) : slots d dir !! path = Some None -> is_ok (open_journal d k expected_key_id minimum_epoch) = false.
Proof.
  intros Ht. unfold open_journal. destruct (session_file d) as [file|]; [|done]. destruct file as [s'|]; cbn [ok_or]; [|done].
  destruct (verify_session_historical _ _ _ _); [|done]. unfold restore_records. cbv zeta.
  assert (forall T (ST : SlotType T) kind_ j, dir = slot_dir -> is_ok (read_slots unwrap slot_id slot_dir kind_ d j : checked (gmap str T)) = false) as Hread.
  { intros T ST kind_ j ->. unfold read_slots. eapply read_files_torn. by apply elem_of_map_to_list. }
  pose proof (Hread _ tombstone_slot) as Ht1. pose proof (Hread _ reservation_slot) as Ht2. pose proof (Hread _ prepared_slot) as Ht3.
  pose proof (Hread _ staged_slot) as Ht4. pose proof (Hread _ ack_slot) as Ht5. pose proof (Hread _ commit_slot) as Ht6.
  pose proof (Hread _ active_slot) as Ht7. cbn in Ht1, Ht2, Ht3, Ht4, Ht5, Ht6, Ht7. clear Hread.
  repeat match goal with
  | K : forall kind_ j, dir = ?x -> _ |- context [read_slots ?f ?g ?x ?kd d ?j] =>
      specialize (K kd j); destruct (read_slots f g x kd d j); [|done]
  | |- context [each ?f ?l] => destruct (each f l); [|done]
  end.
  destruct dir; discriminate (Ht1 eq_refl) || discriminate (Ht2 eq_refl) || discriminate (Ht3 eq_refl) || discriminate (Ht4 eq_refl)
    || discriminate (Ht5 eq_refl) || discriminate (Ht6 eq_refl) || discriminate (Ht7 eq_refl).
Qed.
End Recovery.

(** ** A run.

    The toy round is reserved, answered, staged and committed; the answer is acknowledged, and the
    process dies while the tombstone is written. *)
Definition toy_id : str := toy_name "round-1".
Definition toy_known : list str := [toy_id].
Definition toy_key : @MacKey toy_code := tt.
Definition toy_key_id : str := toy_name "key-1".
Definition toy_fence : AuthorityFenceV2 := fun _ _ _ _ _ _ => true.
Definition toy_closure : VerifiedClosureV2 := mkClosure (record_digest toy_result) [mkVerifiedFragment toy_fragment toy_payload].
Definition toy_receipt : RendererStageReceiptV2 :=
  mkReceipt (record_digest toy_result) (fragments_sha256 (a_core toy_result)) (toy_name "stage-1") 2600.
Definition toy_reserve : Action := DoReserve toy_request toy_fence 2100 Done.
Definition toy_prepare : Action := DoPrepare toy_request toy_result toy_fence 2500 Done.
Definition toy_stage : Action := DoStage toy_request toy_closure (Ok toy_receipt) 2600 [] Done.
Definition toy_commit : Action := DoCommit toy_request toy_fence (Ok tt) (Ok tt) 2700 Done Done Done.
Definition toy_acknowledge : Action := DoAcknowledge toy_id (new_head_sha256 (a_core toy_result)) 2800 Done.
Definition toy_collect : Action := DoCollect toy_id 9000 100 Unsynced [] true.

Definition toy_disk : Disk := (create_journal toy_session toy_key 2000 toy_key_id 1 Done true).1.
Definition toy_m0 : Disk * DurableVerifierJournalV2 := (toy_disk, from_session toy_key toy_session).
Definition toy_reserved : Disk * DurableVerifierJournalV2 := perform toy_reserve toy_m0.
Definition toy_prepared : Disk * DurableVerifierJournalV2 := perform toy_prepare toy_reserved.
Definition toy_staged : Disk * DurableVerifierJournalV2 := perform toy_stage toy_prepared.
Definition toy_active : Disk * DurableVerifierJournalV2 := perform toy_commit toy_staged.
Definition toy_acked : Disk * DurableVerifierJournalV2 := perform toy_acknowledge toy_active.
Definition toy_crashed : Disk := (perform toy_collect toy_acked).1.
Abbreviation toy_step := (world_step toy_key toy_known toy_key_id 1).
Abbreviation live m := (m.1, Some m.2) (only parsing).

Lemma toy_created : create_journal toy_session toy_key 2000 toy_key_id 1 Done true = (toy_m0.1, Ok toy_m0.2).
Proof.
  unfold toy_m0, toy_disk, create_journal. cbn [fst snd].
  assert (verify_session_live toy_session toy_key 2000 toy_key_id 1 = Ok tt) as -> by (vm_compute; reflexivity). reflexivity.
Qed.
Lemma toy_names : distinct_names toy_known.
Proof. intros x y Hx%list_elem_of_singleton Hy%list_elem_of_singleton _. congruence. Qed.
Lemma live_step (a : Action) (m : Disk * DurableVerifierJournalV2) : legal toy_known a m.2 ->
  Forall (fun o => o = Done \/ o = Absent) (outcomes a) -> toy_step (live m) (live (perform a m)).
Proof. destruct m as [d j]. apply step_action. Qed.
Lemma toy_reached : rtc toy_step (live toy_m0) (live toy_staged).
Proof.
  apply (rtc_l _ _ (live toy_reserved)); [apply (live_step toy_reserve toy_m0); [by apply list_elem_of_singleton|repeat constructor]|].
  apply (rtc_l _ _ (live toy_prepared)); [apply (live_step toy_prepare toy_reserved); [done|repeat constructor]|].
  apply (rtc_l _ _ (live toy_staged)); [apply (live_step toy_stage toy_prepared); [|repeat constructor]|apply rtc_refl].
  exists toy_result, toy_request, (s_core toy_session), toy_assembler, [(0, toy_payload)]. split; vm_compute; reflexivity.
Qed.
Lemma toy_commits : toy_step (live toy_staged) (live toy_active).
Proof.
  apply (live_step toy_commit toy_staged); [|repeat constructor; by left].
  assert (r_request <$> reservations toy_staged.2 !! toy_id = Some toy_request) as Hr by (vm_compute; reflexivity).
  apply fmap_Some in Hr as (r & Hr & Heq). assert (request_id (q_core toy_request) = toy_id) as Hid by (vm_compute; reflexivity).
  exists r. rewrite Hid. split; [exact Hr|symmetry; exact Heq].
Qed.
Lemma toy_acknowledges : toy_step (live toy_active) (live toy_acked).
Proof. apply (live_step toy_acknowledge toy_active); [done|]. repeat constructor; by left. Qed.
Lemma toy_dies : toy_step (live toy_acked) (toy_crashed, None).
Proof.
  unfold toy_crashed. destruct toy_acked as [d j]. apply step_crash; [done|]. repeat constructor; discriminate.
Qed.
Lemma toy_activated : rtc toy_step (live toy_m0) (live toy_active).
Proof. eapply rtc_r; [exact toy_reached|exact toy_commits]. Qed.
Lemma toy_published : completions toy_active.2 !! toy_id = Some toy_result.
Proof. vm_compute. reflexivity. Qed.
Lemma toy_still_published : completions toy_acked.2 !! toy_id = Some toy_result.
Proof. vm_compute. reflexivity. Qed.

Lemma one_decision_per_position_witness : toy_id = toy_id /\ toy_result = toy_result.
Proof.
  assert (rtc toy_step (live toy_active) (live toy_acked)) as Hafter by (eapply rtc_l; [exact toy_acknowledges|apply rtc_refl]).
  exact (one_decision_per_position toy_key toy_session toy_known toy_key_id 1 2000 toy_m0.1 toy_m0.2 toy_active.1 toy_active.2
    toy_acked.1 toy_acked.2 toy_id toy_result toy_id toy_result toy_names toy_created toy_activated Hafter toy_published
    toy_still_published eq_refl).
Defined.
Lemma pending_round_known_witness :
  (exists found, pending_round toy_staged.2 = Ok found) /\
  match pending_round toy_staged.2 with Ok (Some (PendingStaged q a _)) => (q, a) = (toy_request, toy_result) | _ => False end.
Proof.
  assert (pending_activation toy_staged.2 = None) as Hp by (vm_compute; reflexivity).
  pose proof (pending_round_known toy_key toy_session toy_known toy_key_id 1 2000 toy_m0.1 toy_m0.2 toy_staged.1 toy_staged.2
    toy_names toy_created toy_reached Hp) as (found & Hf & _).
  split.
  - exists found. exact Hf.
  - vm_compute.
    reflexivity.
Defined.
(** A reservation whose file was created but not filled. *)
Definition toy_torn : Disk := (perform (DoReserve toy_request toy_fence 2100 Torn) toy_m0).1.
Lemma torn_slot_stays_shut_witness : is_ok (open_journal toy_torn toy_key toy_key_id 1) = false.
Proof.
  apply (torn_slot_stays_shut toy_key toy_key_id 1 toy_torn Reservations (slot_path toy_id)).
  vm_compute.
  reflexivity.
Defined.

(** [commit_and_activate] compares only the digest of the request's core.  A commit of the reserved
    round under another MAC is accepted and published, and the journal never opens again. *)
Definition toy_forged : AuthenticatedRoundV2 := mkRound (q_core toy_request) zero_digest.
Example commit_keeps_a_wrong_mac :
  let forged := commit_and_activate toy_forged toy_fence (Ok tt) (Ok tt) 2700 Done Done Done toy_staged in
  is_ok forged.2 = true /\ is_ok (open_journal forged.1.1 toy_key toy_key_id 1) = false.
Proof.
  split.
  - vm_compute.
    reflexivity.
  - vm_compute.
    reflexivity.
Qed.
