(* ===== verification/SessionStore.v ===== *)
(** * The store of logical sessions.

    Models [SessionStore] of [crates/muser-server/src/session_store.rs]: the registry with its
    revision leases and idempotency keys, validation of bundles, and the encrypted bundle
    files.  Every critical section under the registry's mutex is a function.  Postcard, the
    cipher, SHA-256 and the JSON check of the replay plan are the class [Sealing].  Random
    bytes and the outcome of file operations are arguments: an atomic write either happened,
    did not, or happened without its directory being synced. *)
From Stdlib Require Import Strings.Byte.
From S2P Require Import Prelude Utf8 CacheSnapshot DFlashCache Resident Grammar Sampling.

Definition MAX_LOGICAL_SESSIONS : nat := 64.
Definition MAGIC : str := string_bytes "MUSER-SESSION-V3".
Definition MAX_TRANSFER_BYTES : Z := 32 * 1024 * 1024 * 1024.
Definition EMBEDDING_POSITION_WITNESS : Z := 0x7fffffff.

Record SamplerStateSnapshot : Type := mkSampler {
  distribution_rng : Mt19937Snapshot;
  xtc_rng : Mt19937Snapshot;
  mirostat_rng : Mt19937Snapshot;
  adaptive_rng : Mt19937Snapshot;
  mirostat_mu : Z;
  adaptive_weighted_sum : Z;
  adaptive_total_weight : Z;
}.
Record SessionBundle : Type := mkBundle {
  schema : str;
  session_id : str;
  b_revision : Z;
  b_context_epoch : Z;
  model_sha256 : str;
  tokenizer_sha256 : str;
  template_sha256 : str;
  layout_abi : str;
  dflash_identity_sha256 : option str;
  vision_projector_sha256 : option str;
  vision_preprocessing_sha256 : option str;
  target : SessionCacheSnapshot;
  target_logits : list Z;
  dflash : option (DFlashContextSnapshot Z);
  position_witnesses : list Z;
  rng_seed : Z;
  sampler_state : SamplerStateSnapshot;
  sampler_config_sha256 : str;
  sampler_history : list Z;
  detokenizer_pending : str;
  stop_matcher_pending : str;
  grammar_state : option GrammarMatcher;
  grammar_sha256 : option str;
  canonical_replay_plan_json : str;
  vision_rows : list (list Z);
}.
(** [text], [finish_reason] and the other fields of the response kept for a replay. *)
Record CachedGeneration : Type := mkCached {
  cached_text : str;
  prompt_tokens : Z;
  completion_tokens : Z;
  finish_reason : str;
  cached_seed : Z;
  cached_revision : Z;
  context : list Z;
  sampled_tokens : list Z;
}.

Inductive StoreError : Type :=
| BadId | BadIdempotencyKey | SessionExists | SessionLimit | NoSession | SessionBusy | KeyBoundElsewhere
| RevisionConflict (expected current : Z) | SessionDisappeared | LostLease | RevisionOverflow | NoCommittedState
| NotPrivateFile | Io | BadEnvelope | NotAuthentic | Undecodable | BadKeyFile
| BundleIdentity | BundleLayout | BundleAssistantOrVision | BundleTarget (e : SnapshotError) | BundleRng | BundleSampler
| BundleFrontier | BundleReplayPlan | BundleDFlash (e : string) | BundleDFlashFrontier | BundleVisionRows.

(** ** Identifiers. *)
Definition is_ascii_alphanumeric (b : byte) : bool :=
  in_range 0x30 0x39 b || in_range 0x41 0x5A b || in_range 0x61 0x7A b.
Definition validate_id (id : str) : result StoreError unit :=
  if (zlen id =? 0) || (128 <? zlen id) ||
     negb (forallb (fun b => is_ascii_alphanumeric b || bool_decide (b = "-"%byte) || bool_decide (b = "_"%byte)) id)
  then Err BadId else Ok tt.
Definition is_ascii_control (b : byte) : bool := (Z_of_byte b <? 0x20) || (Z_of_byte b =? 0x7F).
Definition validate_idempotency_key (key : str) : result StoreError unit :=
  if (zlen key =? 0) || (256 <? zlen key) || existsb is_ascii_control key then Err BadIdempotencyKey else Ok tt.
Definition is_sha256 (value : str) : bool :=
  (zlen value =? 64) && forallb (fun b => in_range 0x30 0x39 b || in_range 0x61 0x66 b) value.

(** [f32 <= 0.0] of a finite value, on its bits. *)
Definition f32_not_positive (bits : Z) : bool := (bits =? 0) || (2 ^ 31 <=? bits).

Class Sealing := {
  to_stdvec : SessionBundle -> str;
  from_bytes : str -> option SessionBundle;
  aead_encrypt : str -> str -> str -> str;
  aead_decrypt : str -> str -> str -> option str;
  sha256_hex : str -> str;
  replay_plan_ok : str -> bool;
}.
Class SealingLaws `{Sealing} := {
  decrypt_encrypt key nonce plain : aead_decrypt key nonce (aead_encrypt key nonce plain) = Some plain;
  encrypt_tag key nonce plain : aead_encrypt key nonce plain <> [];
}.

Section Store.
Context `{Sealing}.

(** ** Bundles. *)
Definition digests (bundle : SessionBundle) : list str :=
  omap id [dflash_identity_sha256 bundle; vision_projector_sha256 bundle; vision_preprocessing_sha256 bundle].
Definition present {A} (o : option A) : bool := match o with Some _ => true | None => false end.
Definition rngs (s : SamplerStateSnapshot) : list Mt19937Snapshot :=
  [distribution_rng s; xtc_rng s; mirostat_rng s; adaptive_rng s].
Definition vision_positions (bundle : SessionBundle) : nat :=
  length (List.filter (fun w => w =? EMBEDDING_POSITION_WITNESS) (position_witnesses bundle)).
Definition validate_bundle (bundle : SessionBundle) (id_ : str) : result StoreError unit :=
  if negb (bool_decide (schema bundle = string_bytes "muser.session-bundle.v3")) || negb (bool_decide (session_id bundle = id_))
  then Err BundleIdentity
  else if negb (is_sha256 (model_sha256 bundle)) || negb (bool_decide (layout_abi bundle = string_bytes "muse-kv-layout-v1"))
  then Err BundleLayout
  else if existsb (fun digest => negb (is_sha256 digest)) (digests bundle)
          || negb (eqb (present (dflash bundle)) (present (dflash_identity_sha256 bundle)))
          || negb (eqb (present (vision_projector_sha256 bundle)) (present (vision_preprocessing_sha256 bundle)))
          || (negb (zlen (vision_rows bundle) =? 0) && negb (present (vision_projector_sha256 bundle)))
  then Err BundleAssistantOrVision
  else
    let? _ := result_map_err BundleTarget (validate (target bundle)) in
    if existsb (fun rng => negb (present (from_snapshot rng))) (rngs (sampler_state bundle)) then Err BundleRng
    else
      let s := sampler_state bundle in
      if negb (is_finite (mirostat_mu s)) || negb (is_finite (adaptive_weighted_sum s))
         || negb (is_finite (adaptive_total_weight s)) || f32_not_positive (adaptive_total_weight s)
      then Err BundleSampler
      else if (zlen (target_logits bundle) =? 0) || existsb (fun v => negb (is_finite v)) (target_logits bundle)
         || negb (bool_decide (position_witnesses bundle = tokens (target bundle)))
         || negb (bool_decide (sampler_history bundle = tokens (target bundle)))
         || negb (zlen (detokenizer_pending bundle) =? 0) || negb (zlen (stop_matcher_pending bundle) =? 0)
         || match grammar_state bundle with Some g => has_pending_utf8 g | None => false end
         || negb (eqb (present (grammar_state bundle)) (present (grammar_sha256 bundle)))
      then Err BundleFrontier
      else if negb (replay_plan_ok (canonical_replay_plan_json bundle)) then Err BundleReplayPlan
      else
        let? _ :=
          match dflash bundle with
          | Some d =>
              let? _ := result_map_err BundleDFlash (snapshot_validate d) in
              let target_position := position (target bundle) in
              if (target_position <? Z.of_nat (s_position d)) || (1 <? target_position - Z.of_nat (s_position d))
              then Err BundleDFlashFrontier else Ok tt
          | None => Ok tt
          end in
        if negb (length (vision_rows bundle) =? vision_positions bundle)%nat
           || match vision_rows bundle with
              | first :: _ =>
                  (zlen first =? 0) ||
                  existsb (fun row => negb (length row =? length first)%nat || existsb (fun v => negb (is_finite v)) row) (vision_rows bundle)
              | [] => false
              end
        then Err BundleVisionRows
        else Ok tt.

(** ** The registry. *)
Record IdempotencyRecord : Type := mkIdempotency {
  i_expected_revision : Z;
  i_request_sha256 : str;
  i_result : CachedGeneration;
}.
(** [Record] of the code. *)
Record SessionRecord : Type := mkRecord {
  revision : Z;
  context_epoch : Z;
  bundle : option SessionBundle;
  busy : bool;
  saved : bool;
  idempotency : gmap str IdempotencyRecord;
}.
Record SessionView : Type := mkView {
  v_id : str;
  v_revision : Z;
  v_context_epoch : Z;
  v_tokens : Z;
  v_busy : bool;
  v_saved : bool;
}.
Definition view (id_ : str) (r : SessionRecord) : SessionView :=
  mkView id_ (revision r) (context_epoch r) (match bundle r with Some b => position (target b) | None => 0 end) (busy r) (saved r).

Abbreviation Records := (gmap str SessionRecord).
Implicit Types (records : Records) (r : SessionRecord).

Definition new_record : SessionRecord := mkRecord 0 0 None false false ∅.
(** The random id is [sess-] and 32 hexadecimal digits; it is an argument here. *)
Definition create (requested : option str) (random_id : str) records : Records * result StoreError SessionView :=
  match (match requested with Some id_ => let? _ := validate_id id_ in Ok id_ | None => Ok random_id end) with
  | Err e => (records, Err e)
  | Ok id_ =>
      if bool_decide (is_Some (records !! id_)) then (records, Err SessionExists)
      else if (MAX_LOGICAL_SESSIONS <=? size records)%nat then (records, Err SessionLimit)
      else (<[id_ := new_record]> records, Ok (view id_ new_record))
  end.
Definition session_view_le (v w : SessionView) : Prop :=
  string_le (String.string_of_list_byte (v_id v)) (String.string_of_list_byte (v_id w)).
#[global] Instance session_view_le_dec v w : Decision (session_view_le v w).
Proof. unfold session_view_le. apply _. Defined.
Definition list_views records : list SessionView := merge_sort session_view_le ((fun x => view x.1 x.2) <$> map_to_list records).
Definition get (id_ : str) records : result StoreError (option SessionView) :=
  let? _ := validate_id id_ in Ok (view id_ <$> records !! id_).
Definition delete_session (id_ : str) records : Records * result StoreError bool :=
  match validate_id id_ with
  | Err e => (records, Err e)
  | Ok _ =>
      match records !! id_ with
      | Some r => if busy r then (records, Err SessionBusy) else (delete id_ records, Ok true)
      | None => (records, Ok false)
      end
  end.

Inductive BeginMutation : Type := Started (b : option SessionBundle) | Replay (c : CachedGeneration).
Definition with_busy r (b : bool) : SessionRecord := mkRecord (revision r) (context_epoch r) (bundle r) b (saved r) (idempotency r).
Definition with_saved r : SessionRecord := mkRecord (revision r) (context_epoch r) (bundle r) (busy r) true (idempotency r).
Definition begin (id_ : str) (expected_revision : Z) (idempotency_key request_sha256 : str) records :
    Records * result StoreError BeginMutation :=
  match (let? _ := validate_id id_ in validate_idempotency_key idempotency_key) with
  | Err e => (records, Err e)
  | Ok _ =>
      match records !! id_ with
      | None => (records, Err NoSession)
      | Some r =>
          match idempotency r !! idempotency_key with
          | Some cached =>
              if negb (i_expected_revision cached =? expected_revision) || negb (bool_decide (i_request_sha256 cached = request_sha256))
              then (records, Err KeyBoundElsewhere) else (records, Ok (Replay (i_result cached)))
          | None =>
              if busy r then (records, Err SessionBusy)
              else if negb (revision r =? expected_revision) then (records, Err (RevisionConflict expected_revision (revision r)))
              else (<[id_ := with_busy r true]> records, Ok (Started (bundle r)))
          end
      end
  end.
Definition abort (id_ : str) records : Records := alter (fun r => with_busy r false) id_ records.

Definition with_revision (b : SessionBundle) (n : Z) : SessionBundle :=
  mkBundle (schema b) (session_id b) n (b_context_epoch b) (model_sha256 b) (tokenizer_sha256 b) (template_sha256 b) (layout_abi b)
    (dflash_identity_sha256 b) (vision_projector_sha256 b) (vision_preprocessing_sha256 b) (target b) (target_logits b) (dflash b)
    (position_witnesses b) (rng_seed b) (sampler_state b) (sampler_config_sha256 b) (sampler_history b) (detokenizer_pending b)
    (stop_matcher_pending b) (grammar_state b) (grammar_sha256 b) (canonical_replay_plan_json b) (vision_rows b).
Definition cached_at (c : CachedGeneration) (n : Z) : CachedGeneration :=
  mkCached (cached_text c) (prompt_tokens c) (completion_tokens c) (finish_reason c) (cached_seed c) n (context c) (sampled_tokens c).
Definition commit (id_ : str) (expected_revision : Z) (idempotency_key request_sha256 : str) (b : SessionBundle)
    (result_ : CachedGeneration) records : Records * result StoreError Z :=
  match validate_bundle b id_ with
  | Err e => (records, Err e)
  | Ok _ =>
      match records !! id_ with
      | None => (records, Err SessionDisappeared)
      | Some r =>
          if negb (busy r) || negb (revision r =? expected_revision) then (records, Err LostLease)
          else
            match checked_add 64 expected_revision 1 with
            | None => (records, Err RevisionOverflow)
            | Some next =>
                let keys := if (64 <=? size (idempotency r))%nat then ∅ else idempotency r in
                (<[id_ := mkRecord next (b_context_epoch b) (Some (with_revision b next)) false false
                            (<[idempotency_key := mkIdempotency expected_revision request_sha256 (cached_at result_ next)]> keys)]> records,
                 Ok next)
            end
      end
  end.

(** ** Files. *)
(** A file and whether it is a regular file of mode 0600. *)
Record File : Type := mkFile { contents : str; private_regular : bool }.
Inductive WriteOutcome : Type := Written | NotWritten | WrittenNotSynced.
Definition atomic_private_write (w : WriteOutcome) (bytes : str) (old : option File) : option File * result StoreError unit :=
  match w with
  | Written => (Some (mkFile bytes true), Ok tt)
  | NotWritten => (old, Err Io)
  | WrittenNotSynced => (Some (mkFile bytes true), Err Io)
  end.
Definition read_private (f : option File) : result StoreError str :=
  match f with
  | None => Err Io
  | Some f => if private_regular f then Ok (contents f) else Err NotPrivateFile
  end.

Definition encrypt_envelope (nonce plaintext key : str) : str := MAGIC ++ nonce ++ aead_encrypt key nonce plaintext.
Definition decrypt_envelope (bytes key : str) : result StoreError str :=
  if (zlen bytes <=? zlen MAGIC + 24) || negb (bool_decide (take (length MAGIC) bytes = MAGIC)) then Err BadEnvelope
  else
    let nonce := take 24 (drop (length MAGIC) bytes) in
    ok_or (aead_decrypt key nonce (drop (length MAGIC + 24) bytes)) NotAuthentic.
(** The key file, and the key: a new one is written when there is none. *)
Definition load_or_create_key (fresh : str) (w : WriteOutcome) (key_file : option File) : option File * result StoreError str :=
  match key_file with
  | Some f =>
      (key_file,
       let? bytes := read_private (Some f) in
       if zlen bytes =? 32 then Ok bytes else Err BadKeyFile)
  | None =>
      match atomic_private_write w fresh None with
      | (f, Ok _) => (f, Ok fresh)
      | (f, Err e) => (f, Err e)
      end
  end.

(** [save] in its three parts: read under the lock, write the file, mark under the lock. *)
Definition save_read (id_ : str) records : result StoreError SessionBundle :=
  let? _ := validate_id id_ in
  let? found := ok_or (records !! id_) NoSession in
  if busy found then Err SessionBusy else ok_or (bundle found) NoCommittedState.
(** The random bytes and write outcomes of sealing a bundle into its file. *)
Record SealChoices : Type := mkChoices { fresh_key : str; key_write : WriteOutcome; nonce : str; file_write : WriteOutcome }.
Definition seal_file (c : SealChoices) (b : SessionBundle) (key_file file : option File) : option File * option File * result StoreError unit :=
  match load_or_create_key (fresh_key c) (key_write c) key_file with
  | (key_file, Err e) => (key_file, file, Err e)
  | (key_file, Ok key) =>
      let (file, res) := atomic_private_write (file_write c) (encrypt_envelope (nonce c) (to_stdvec b) key) file in
      (key_file, file, res)
  end.
Definition save_mark (id_ : str) records : Records := alter with_saved id_ records.

(** [restore]: the file is opened and validated, then replaces the record. *)
Definition open_file (id_ : str) (fresh : str) (w : WriteOutcome) (key_file file : option File) : option File * result StoreError SessionBundle :=
  match validate_id id_ with
  | Err e => (key_file, Err e)
  | Ok _ =>
      match read_private file with
      | Err e => (key_file, Err e)
      | Ok bytes =>
          if (zlen bytes <=? zlen MAGIC + 24) || negb (bool_decide (take (length MAGIC) bytes = MAGIC)) then (key_file, Err BadEnvelope)
          else
            let (key_file, key) := load_or_create_key fresh w key_file in
            (key_file,
             let? key := key in
             let? plaintext := decrypt_envelope bytes key in
             let? b := ok_or (from_bytes plaintext) Undecodable in
             let? _ := validate_bundle b id_ in
             Ok b)
      end
  end.
Definition restored_record (b : SessionBundle) : SessionRecord := mkRecord (b_revision b) (b_context_epoch b) (Some b) false true ∅.
Definition restore_install (id_ : str) (b : SessionBundle) records : Records * result StoreError SessionView :=
  if (MAX_LOGICAL_SESSIONS <=? size records)%nat && negb (bool_decide (is_Some (records !! id_))) then (records, Err SessionLimit)
  else (<[id_ := restored_record b]> records, Ok (view id_ (restored_record b))).
End Store.
