(* ===== verification/SessionRuns.v ===== *)
(** * Mutations and restores of logical sessions, interleaved.

    The requests of the server as a step relation over the registry, with the history each
    session really had as a ghost; at most one mutation per session, no lost update, at most
    one effect per idempotent request, and restoring what was saved.  The code lets a restore
    replace a session whose turn is running; the steps do not, and
    [restore_breaks_a_lease] shows what it does. *)
From Stdlib Require Import Strings.Byte Sorting.Sorted.
From S2P Require Import Prelude Utf8 CacheSnapshot DFlashCache Resident Grammar Sampling SessionStore.

(** ** Interleavings of mutations. *)
Section Runs.
Context `{Sealing}.

(** A thread between [begin] and [commit]: its request, and the bundle it started from. *)
Record Lease : Type := mkLease { l_id : str; l_revision : Z; l_key : str; l_sha : str; l_base : option SessionBundle }.
(** A committed bundle: what its mutation started from, and the request with its result; a
    restored or imported bundle has neither. *)
Record Version : Type := mkVersion {
  ver_base : option SessionBundle;
  ver_new : SessionBundle;
  ver_by : option (str * IdempotencyRecord);
}.
(** The registry, the mutations in flight, and for each session its history. *)
Record Run : Type := mkRun {
  registry : gmap str SessionRecord;
  leases : gmap nat Lease;
  versions : gmap str (list Version);
}.
Implicit Types (s : Run) (vs : list Version).

Definition committed (lease : Lease) (b : SessionBundle) (result_ : CachedGeneration) (next : Z) : Version :=
  mkVersion (l_base lease) (with_revision b next)
    (Some (l_key lease, mkIdempotency (l_revision lease) (l_sha lease) (cached_at result_ next))).
(** Requests being served. *)
Inductive serving_step : Run -> Run -> Prop :=
| step_create s requested random_id records v : create requested random_id (registry s) = (records, Ok v) ->
    serving_step s (mkRun records (leases s) (<[v_id v := []]> (versions s)))
| step_begin s t id_ rev key sha records base : leases s !! t = None ->
    begin id_ rev key sha (registry s) = (records, Ok (Started base)) ->
    serving_step s (mkRun records (<[t := mkLease id_ rev key sha base]> (leases s)) (versions s))
| step_commit s t lease b result_ records next : leases s !! t = Some lease ->
    commit (l_id lease) (l_revision lease) (l_key lease) (l_sha lease) b result_ (registry s) = (records, Ok next) ->
    serving_step s (mkRun records (delete t (leases s)) (alter (fun vs => vs ++ [committed lease b result_ next]) (l_id lease) (versions s)))
(** The mutation failed, or its commit was refused: its guard aborts. *)
| step_abort s t lease : leases s !! t = Some lease ->
    serving_step s (mkRun (abort (l_id lease) (registry s)) (delete t (leases s)) (versions s))
| step_saved s id_ : serving_step s (mkRun (save_mark id_ (registry s)) (leases s) (versions s)).

(** Sessions removed, or replaced from a file or another node while no mutation runs. *)
Inductive store_step : Run -> Run -> Prop :=
| step_serving s s' : serving_step s s' -> store_step s s'
| step_delete s id_ records : delete_session id_ (registry s) = (records, Ok true) ->
    store_step s (mkRun records (leases s) (delete id_ (versions s)))
| step_install s id_ b records v : validate_bundle b id_ = Ok tt -> (forall r, registry s !! id_ = Some r -> busy r = false) ->
    restore_install id_ b (registry s) = (records, Ok v) ->
    store_step s (mkRun records (leases s) (<[id_ := [mkVersion None b None]]> (versions s))).

Definition empty_run : Run := mkRun ∅ ∅ ∅.

(** Each mutation started from what the one before committed. *)
Fixpoint linked (base : option SessionBundle) vs : Prop :=
  match vs with
  | [] => True
  | v :: vs => ver_base v = base /\ linked (Some (ver_new v)) vs
  end.
Definition current vs : option SessionBundle := ver_new <$> last vs.
Definition ver_revision (v : Version) : Z := b_revision (ver_new v).

Record session_ok (id_ : str) (r : SessionRecord) vs : Prop := {
  so_linked : linked None vs;
  so_current : bundle r = current vs;
  so_valid : forall b, bundle r = Some b -> validate_bundle b id_ = Ok tt /\ b_revision b = revision r /\ b_context_epoch b = context_epoch r;
  so_keys : forall key rec, idempotency r !! key = Some rec -> exists v, v ∈ vs /\ ver_by v = Some (key, rec);
  so_by : forall v key rec, v ∈ vs -> ver_by v = Some (key, rec) -> ver_revision v = i_expected_revision rec + 1;
  so_order : StronglySorted Z.lt (ver_revision <$> vs);
  so_last : forall v, v ∈ vs -> ver_revision v <= revision r;
}.
Record run_ok s : Prop := {
  ro_dom : dom (versions s) = dom (registry s);
  ro_sessions id_ r vs : registry s !! id_ = Some r -> versions s !! id_ = Some vs -> session_ok id_ r vs;
  ro_leases t lease : leases s !! t = Some lease -> exists r, registry s !! l_id lease = Some r /\ busy r = true /\
    revision r = l_revision lease /\ bundle r = l_base lease;
  ro_one t t' lease lease' : leases s !! t = Some lease -> leases s !! t' = Some lease' -> l_id lease = l_id lease' -> t = t';
}.

Lemma linked_snoc base vs v : linked base vs -> ver_base v = match current vs with Some b => Some b | None => base end ->
  linked base (vs ++ [v]).
Proof.
  revert base. induction vs as [|w vs IH]; intros base; [done|]. cbn [linked app]. intros [Hb Hl] Hv. split; [done|].
  apply IH; [done|]. rewrite Hv. unfold current. destruct vs as [|x vs]; [done|]. change (last (w :: x :: vs)) with (last (x :: vs)).
  destruct (last (x :: vs)) eqn:E; [done|]. by apply last_None in E.
Qed.

(** A record that keeps revision, bundle and keys. *)
Lemma session_ok_same id_ r r' vs : session_ok id_ r vs -> revision r' = revision r -> context_epoch r' = context_epoch r ->
  bundle r' = bundle r -> idempotency r' = idempotency r -> session_ok id_ r' vs.
Proof. intros [H1 H2 H3 H4 H5 H6 H7] Er Ec Eb Ei. split; rewrite ?Er, ?Ec, ?Eb, ?Ei; done. Qed.

Lemma begin_started id_ rev key sha records records' base : begin id_ rev key sha records = (records', Ok (Started base)) ->
  exists r, records !! id_ = Some r /\ busy r = false /\ revision r = rev /\ bundle r = base /\
    records' = <[id_ := with_busy r true]> records.
Proof.
  unfold begin. destruct (let? _ := _ in _) as [?|?]; [|done]. destruct (records !! id_) as [r|] eqn:Er; [|done].
  destruct (idempotency r !! key) as [c|]; [by case_match|]. destruct (busy r) eqn:Eb; [done|].
  destruct (revision r =? rev) eqn:Ev; [|done]. intros [= <- <-]. bool_prop. by exists r.
Qed.
Lemma commit_ok id_ rev key sha b result_ records records' next : commit id_ rev key sha b result_ records = (records', Ok next) ->
  exists r, records !! id_ = Some r /\ validate_bundle b id_ = Ok tt /\ busy r = true /\ revision r = rev /\ next = rev + 1 /\
    records' = <[id_ := mkRecord next (b_context_epoch b) (Some (with_revision b next)) false false
      (<[key := mkIdempotency rev sha (cached_at result_ next)]> (if (64 <=? size (idempotency r))%nat then ∅ else idempotency r))]> records.
Proof.
  unfold commit. destruct (validate_bundle b id_) as [[]|?] eqn:Ev; [|done]. destruct (records !! id_) as [r|] eqn:Er; [|done].
  destruct (negb (busy r) || _) eqn:Eb; [done|]. unfold checked_add. destruct (_ <? _); [|done]. intros [= <- <-]. bool_prop. by exists r.
Qed.
Lemma create_ok requested random_id records records' v : create requested random_id records = (records', Ok v) ->
  records !! v_id v = None /\ records' = <[v_id v := new_record]> records.
Proof.
  unfold create. destruct (match requested with Some _ => _ | None => _ end) as [id_|?]; [|done].
  case_bool_decide as Hi; [done|]. destruct (_ <=? _)%nat; [done|]. intros [= <- <-]. cbn. split; [|done].
  by apply eq_None_not_Some.
Qed.
Lemma with_revision_valid b n id_ : validate_bundle (with_revision b n) id_ = validate_bundle b id_.
Proof. done. Qed.

(** A step that changes the record of one session only. *)
Lemma run_ok_update s id_ r r' vs vs' (ls : gmap nat Lease) :
  run_ok s -> registry s !! id_ = Some r -> versions s !! id_ = Some vs -> session_ok id_ r' vs' ->
  (forall t lease, ls !! t = Some lease -> l_id lease <> id_ -> leases s !! t = Some lease) ->
  (forall t lease, ls !! t = Some lease -> l_id lease = id_ -> busy r' = true /\ revision r' = l_revision lease /\ bundle r' = l_base lease) ->
  (forall t t' lease lease', ls !! t = Some lease -> ls !! t' = Some lease' -> l_id lease = id_ -> l_id lease' = id_ -> t = t') ->
  run_ok (mkRun (<[id_ := r']> (registry s)) ls (<[id_ := vs']> (versions s))).
Proof.
  intros [Hd Hs Hl Ho] Hr Hv Hok Hkeep Hmine Hone. split; cbn [registry leases versions].
  - by rewrite dom_insert_L, Hd, dom_insert_L.
  - intros id2 r2 vs2. rewrite !lookup_insert. repeat case_decide; [by intros [= <-] [= <-]; subst | apply Hs].
  - intros t lease Ht. rewrite lookup_insert. case_decide as E.
    + destruct (Hmine t lease Ht (eq_sym E)) as (?&?&?). by exists r'.
    + apply (Hl t). apply Hkeep; [done|]. congruence.
  - intros t t' lease lease' Ht Ht' E. destruct (decide (l_id lease = id_)) as [E1|E1].
    + apply (Hone t t' lease lease'); congruence.
    + apply (Ho t t' lease lease'); [by apply Hkeep | apply Hkeep; congruence | done].
Qed.

Lemma versions_of s id_ r : run_ok s -> registry s !! id_ = Some r -> exists vs, versions s !! id_ = Some vs.
Proof.
  intros [Hd _ _ _] Hr. assert (id_ ∈ dom (versions s)) as Hin by (rewrite Hd; by apply elem_of_dom_2 in Hr).
  by apply elem_of_dom in Hin.
Qed.
Lemma insert_same {A} (m : gmap str A) i x : m !! i = Some x -> m = <[i := x]> m.
Proof. intros E. by rewrite insert_id. Qed.

Lemma run_ok_begin s t id_ rev key sha records base : run_ok s -> leases s !! t = None ->
  begin id_ rev key sha (registry s) = (records, Ok (Started base)) ->
  run_ok (mkRun records (<[t := mkLease id_ rev key sha base]> (leases s)) (versions s)).
Proof.
  intros Hok Ht (r & Hr & Hb & Hv & Hbase & ->)%begin_started. destruct (versions_of _ _ _ Hok Hr) as [vs Hvs].
  assert (forall t' l, leases s !! t' = Some l -> l_id l <> id_) as Hfree.
  { intros t' l Hl E. destruct (ro_leases _ Hok _ _ Hl) as (r2 & Hr2 & Hb2 & _). rewrite E, Hr in Hr2. congruence. }
  rewrite (insert_same (versions s) id_ vs Hvs). apply (run_ok_update s id_ r (with_busy r true) vs vs); try done.
  - apply (session_ok_same id_ r); [by apply (ro_sessions _ Hok) | done..].
  - intros t' l. rewrite lookup_insert. case_decide; [intros [= <-]; done | done].
  - intros t' l. rewrite lookup_insert. case_decide; [by intros [= <-] | intros Hl E; by destruct (Hfree _ _ Hl)].
  - intros t1 t2 l1 l2. rewrite !lookup_insert. case_decide; case_decide; intros X1 X2 E1 E2;
      [congruence | by destruct (Hfree _ _ X2) | by destruct (Hfree _ _ X1) | by destruct (Hfree _ _ X1)].
Qed.
Lemma run_ok_release s t lease r' vs vs' : run_ok s -> leases s !! t = Some lease -> versions s !! l_id lease = Some vs ->
  session_ok (l_id lease) r' vs' ->
  run_ok (mkRun (<[l_id lease := r']> (registry s)) (delete t (leases s)) (<[l_id lease := vs']> (versions s))).
Proof.
  intros Hok Ht Hvs Hs. destruct (ro_leases _ Hok _ _ Ht) as (r & Hr & _).
  assert (forall t' l, delete t (leases s) !! t' = Some l -> l_id l <> l_id lease) as Hno.
  { intros t' l. rewrite lookup_delete. case_decide as E; [done|]. intros Hl El.
    apply E. by apply (ro_one _ Hok t t' lease l). }
  apply (run_ok_update s (l_id lease) r r' vs vs'); try done.
  - intros t' l. rewrite lookup_delete. by case_decide.
  - intros t' l Hl E. by destruct (Hno _ _ Hl).
  - intros t1 t2 l1 l2 Hl1 _ E. by destruct (Hno _ _ Hl1).
Qed.

Lemma session_ok_commit id_ r vs lease b result_ keys : session_ok id_ r vs -> validate_bundle b id_ = Ok tt ->
  revision r = l_revision lease -> bundle r = l_base lease -> keys = ∅ \/ keys = idempotency r ->
  session_ok id_ (mkRecord (l_revision lease + 1) (b_context_epoch b) (Some (with_revision b (l_revision lease + 1))) false false
      (<[l_key lease := mkIdempotency (l_revision lease) (l_sha lease) (cached_at result_ (l_revision lease + 1))]> keys))
    (vs ++ [committed lease b result_ (l_revision lease + 1)]).
Proof.
  intros [H1 H2 H3 H4 H5 H6 H7] Hvalid Hrev Hbase Hkeys. split; cbn [bundle revision idempotency].
  - apply linked_snoc; [done|]. cbn [ver_base committed]. rewrite <- Hbase, H2. by destruct (current vs).
  - unfold current. by rewrite last_snoc.
  - intros b' [= <-]. by rewrite with_revision_valid.
  - intros k rec. rewrite lookup_insert. case_decide as E; [intros [= <-]; subst k; eexists; split; [apply elem_of_app; right; by apply list_elem_of_singleton | done]|].
    intros Hk. destruct (H4 k rec) as (v & Hv & Hby); [by destruct Hkeys as [->| ->]; [rewrite lookup_empty in Hk|]|].
    exists v. split; [apply elem_of_app; by left | done].
  - intros v k rec [Hv| ->%list_elem_of_singleton]%elem_of_app; [by apply H5|]. by intros [= <- <-].
  - rewrite fmap_app. apply StronglySorted_app. split_and!; [|done|repeat constructor].
    intros x y (v & -> & Hv)%list_elem_of_fmap E%list_elem_of_singleton. subst y. specialize (H7 v Hv). unfold ver_revision in *. cbn. lia.
  - intros v [Hv| ->%list_elem_of_singleton]%elem_of_app; [specialize (H7 v Hv); lia | done].
Qed.
Lemma run_ok_commit s t lease b result_ records next : run_ok s -> leases s !! t = Some lease ->
  commit (l_id lease) (l_revision lease) (l_key lease) (l_sha lease) b result_ (registry s) = (records, Ok next) ->
  run_ok (mkRun records (delete t (leases s)) (alter (fun vs => vs ++ [committed lease b result_ next]) (l_id lease) (versions s))).
Proof.
  intros Hok Ht (r & Hr & Hvalid & _ & Hrev & -> & ->)%commit_ok. destruct (versions_of _ _ _ Hok Hr) as [vs Hvs].
  destruct (ro_leases _ Hok _ _ Ht) as (r2 & Hr2 & _ & _ & Hbase). rewrite Hr in Hr2. injection Hr2 as <-.
  rewrite (alter_alt_Some _ _ _ _ Hvs). apply (run_ok_release s t lease _ vs); try done.
  apply (session_ok_commit _ r); try done; [by apply (ro_sessions _ Hok)|]. case_match; [by left | by right].
Qed.
Lemma run_ok_create s requested random_id records v : run_ok s -> create requested random_id (registry s) = (records, Ok v) ->
  run_ok (mkRun records (leases s) (<[v_id v := []]> (versions s))).
Proof.
  intros [Hd Hs Hl Ho] (Hnone & ->)%create_ok. split; cbn [registry leases versions]; try done.
  - by rewrite dom_insert_L, Hd, dom_insert_L.
  - intros id2 r2 vs2. rewrite !lookup_insert. case_decide; [|apply Hs]. intros [= <-] [= <-]. split; [done | done | done | | | constructor |]; cbn [idempotency new_record].
    + intros ? ?. by rewrite lookup_empty.
    + by intros ? ? ? ?%elem_of_nil.
    + by intros ? ?%elem_of_nil.
  - intros t lease Ht. destruct (Hl _ _ Ht) as (r & Hr & Hx). exists r. split; [|done]. rewrite lookup_insert_ne; [done|]. congruence.
Qed.
Lemma run_ok_serving s s' : serving_step s s' -> run_ok s -> run_ok s'.
Proof.
  intros Hstep Hok. destruct Hstep as [s requested rid records v E|s t id_ rev key sha records base Ht E
    |s t lease b res records next Ht E|s t lease Ht|s id_].
  - by eapply run_ok_create.
  - by eapply run_ok_begin.
  - by eapply run_ok_commit.
  - destruct (ro_leases _ Hok _ _ Ht) as (r & Hr & _). destruct (versions_of _ _ _ Hok Hr) as [vs Hvs].
    unfold abort. rewrite (alter_alt_Some _ _ _ _ Hr). rewrite (insert_same (versions s) _ vs Hvs).
    apply (run_ok_release s t lease _ vs); try done. apply (session_ok_same _ r); [by apply (ro_sessions _ Hok) | done..].
  - unfold save_mark. destruct (registry s !! id_) as [r|] eqn:Hr; [|assert (alter with_saved id_ (registry s) = registry s) as ->;
      [apply map_eq; intros j; rewrite lookup_alter; case_decide; subst; by rewrite ?Hr | by destruct s]].
    destruct (versions_of _ _ _ Hok Hr) as [vs Hvs]. rewrite (alter_alt_Some _ _ _ _ Hr), (insert_same (versions s) _ vs Hvs).
    apply (run_ok_update s id_ r (with_saved r) vs vs); try done.
    + apply (session_ok_same _ r); [by apply (ro_sessions _ Hok) | done..].
    + intros t l Hl E. destruct (ro_leases _ Hok _ _ Hl) as (r2 & Hr2 & Hx). rewrite E, Hr in Hr2. injection Hr2 as <-. done.
    + intros t t' l l' Hl Hl' E E'. apply (ro_one _ Hok t t' l l' Hl Hl'). congruence.
Qed.
Lemma run_ok_step s s' : store_step s s' -> run_ok s -> run_ok s'.
Proof.
  intros Hstep Hok. destruct Hstep as [s s' Hs|s id_ records E|s id_ b records v Hvalid Hbusy E]; [by eapply run_ok_serving| |].
  - unfold delete_session in E. destruct (validate_id id_); [|done]. destruct (registry s !! id_) as [r|] eqn:Hr; [|done].
    destruct (busy r) eqn:Hb; [done|]. injection E as <-. destruct Hok as [Hd Hs Hl Ho]. split; cbn [registry leases versions]; [| | |done].
    + by rewrite dom_delete_L, Hd, dom_delete_L.
    + intros id2 r2 vs2. rewrite !lookup_delete. case_decide; [done|]. apply Hs.
    + intros t lease Ht. destruct (Hl _ _ Ht) as (r2 & Hr2 & Hb2 & Hx). exists r2. split; [|done].
      rewrite lookup_delete_ne; [done|]. intros E. rewrite <- E in Hr2. congruence.
  - unfold restore_install in E. destruct (_ && _); [done|]. injection E as <- _. destruct Hok as [Hd Hs Hl Ho].
    split; cbn [registry leases versions]; [| | |done].
    + by rewrite dom_insert_L, Hd, dom_insert_L.
    + intros id2 r2 vs2. rewrite !lookup_insert. case_decide; [|apply Hs]. intros [= <-] [= <-]. subst id2.
      split; cbn [idempotency restored_record bundle revision]; [done | done | | | | repeat constructor |].
      * by intros b' [= <-].
      * intros ? ?. by rewrite lookup_empty.
      * by intros v' key rec ->%list_elem_of_singleton.
      * by intros v' ->%list_elem_of_singleton.
    + intros t lease Ht. destruct (Hl _ _ Ht) as (r2 & Hr2 & Hb2 & Hx). exists r2. split; [|done].
      rewrite lookup_insert_ne; [done|]. intros E. rewrite <- E in Hr2. specialize (Hbusy _ Hr2). congruence.
Qed.
Definition reachable s : Prop := rtc store_step empty_run s.
Lemma reachable_ok s : reachable s -> run_ok s.
Proof.
  unfold reachable. intros Hr. assert (run_ok empty_run) as Hok.
  { split; cbn; [by rewrite !dom_empty_L | intros ? ? ?; by rewrite lookup_empty..]. }
  induction Hr as [|x y z Hxy _ IH]; [done|]. apply IH. by eapply run_ok_step.
Qed.
Lemma sorted_once {A} (f : A -> Z) (l : list A) x y : StronglySorted Z.lt (f <$> l) -> x ∈ l -> y ∈ l -> f x = f y -> x = y.
Proof.
  induction l as [|a l IH]; [intros _ ?%elem_of_nil; done|]. cbn [fmap list_fmap]. intros [Hs Ha]%StronglySorted_inv Hx Hy E.
  rewrite Forall_forall in Ha. apply elem_of_cons in Hx as [->|Hx]; apply elem_of_cons in Hy as [->|Hy]; [done| | |by apply IH].
  - assert (f a < f y) by (by apply Ha, list_elem_of_fmap_2). lia.
  - assert (f a < f x) by (by apply Ha, list_elem_of_fmap_2). lia.
Qed.



(** A retry of a committed mutation. *)
Lemma begin_committed s id_ vs v key rec sha records res : run_ok s -> versions s !! id_ = Some vs -> v ∈ vs -> ver_by v = Some (key, rec) ->
  begin id_ (i_expected_revision rec) key sha (registry s) = (records, res) ->
  records = registry s /\ ((res = Ok (Replay (i_result rec)) /\ sha = i_request_sha256 rec) \/ exists e, res = Err e).
Proof.
  intros Hok Hvs Hv Hby. unfold begin. destruct (let? _ := _ in _) as [?|e]; [|intros [= <- <-]; eauto].
  destruct (registry s !! id_) as [r|] eqn:Hr; [|intros [= <- <-]; eauto].
  destruct (ro_sessions _ Hok _ _ _ Hr Hvs) as [_ _ _ Hkeys Hrev Hord Hlast].
  destruct (idempotency r !! key) as [c|] eqn:Hc.
  - destruct (negb _ || _) eqn:E; intros [= <- <-]; [by eauto|]. bool_prop. split; [done|]. left.
    destruct (Hkeys _ _ Hc) as (v' & Hv' & Hby'). assert (v' = v) as ->.
    { apply (sorted_once ver_revision vs); try done. rewrite (Hrev _ _ _ Hv Hby), (Hrev _ _ _ Hv' Hby'). lia. }
    rewrite Hby in Hby'. by injection Hby' as <-.
  - destruct (busy r); [intros [= <- <-]; by eauto|]. destruct (_ =? _) eqn:E; [|intros [= <- <-]; by eauto]. bool_prop.
    specialize (Hlast v Hv). specialize (Hrev _ _ _ Hv Hby). lia.
Qed.

(** ** Files: what was sealed is what opens. *)
Context `{!SealingLaws}.

Lemma load_key_stable fresh w key_file key_file' key : load_or_create_key fresh w key_file = (key_file', Ok key) ->
  length fresh = 32%nat -> forall fresh' w', load_or_create_key fresh' w' key_file' = (key_file', Ok key).
Proof.
  unfold load_or_create_key. destruct key_file as [f|]; [intros [= <- E] _ fresh' w'; cbn [read_private]; f_equal; exact E|].
  destruct w; cbn [atomic_private_write]; intros [= <- <-] Hlen _ _. cbn [read_private private_regular contents]. unfold zlen. by rewrite Hlen.
Qed.
Lemma envelope_header nonce_ plain key : length nonce_ = 24%nat ->
  (zlen (encrypt_envelope nonce_ plain key) <=? zlen MAGIC + 24) || negb (bool_decide (take (length MAGIC) (encrypt_envelope nonce_ plain key) = MAGIC)) = false.
Proof.
  intros Hn. unfold encrypt_envelope. rewrite take_app_length, bool_decide_eq_true_2, orb_false_r by done.
  pose proof (encrypt_tag key nonce_ plain) as Ht. destruct (aead_encrypt key nonce_ plain) as [|x l]; [done|].
  apply Z.leb_gt. unfold zlen. rewrite !length_app, Hn. cbn [length]. lia.
Qed.
Lemma decrypt_encrypt_envelope nonce_ plain key : length nonce_ = 24%nat ->
  decrypt_envelope (encrypt_envelope nonce_ plain key) key = Ok plain.
Proof.
  intros Hn. unfold decrypt_envelope. rewrite envelope_header by done. unfold encrypt_envelope.
  rewrite drop_app_length, <- drop_drop, drop_app_length.
  rewrite <- Hn, take_app_length, drop_app_length. by rewrite decrypt_encrypt.
Qed.
Lemma sealed_file_opens id_ c b kf f kf' f' : validate_id id_ = Ok tt -> validate_bundle b id_ = Ok tt ->
  from_bytes (to_stdvec b) = Some b -> length (fresh_key c) = 32%nat -> length (nonce c) = 24%nat ->
  seal_file c b kf f = (kf', f', Ok tt) -> forall fresh w, open_file id_ fresh w kf' f' = (kf', Ok b).
Proof.
  intros Hid Hvalid Hcodec Hk Hn. unfold seal_file. destruct (load_or_create_key _ _ _) as [kf1 [key|]] eqn:Hkey; [|done].
  destruct (file_write c); cbn [atomic_private_write]; intros [= <- <-] fresh w.
  unfold open_file. rewrite Hid. cbn [read_private private_regular contents]. rewrite envelope_header by done.
  rewrite (load_key_stable _ _ _ _ _ Hkey Hk), decrypt_encrypt_envelope, Hcodec by done. cbn [ok_or]. by rewrite Hvalid.
Qed.
(** C9. A saved session is restored as it was.  When saving succeeds, opening the written
    file with the key file it left gives the very bundle back, without touching the key,
    whatever else is written meanwhile; and installing it, in any registry that has room,
    leaves a record with the saved revision, context epoch and bundle, idle, marked as saved
    and with no idempotency keys. *)
Theorem saved_session_restores s id_ c b key_file file key_file' file' : reachable s ->
  save_read id_ (registry s) = Ok b -> from_bytes (to_stdvec b) = Some b ->
  length (fresh_key c) = 32%nat -> length (nonce c) = 24%nat ->
  seal_file c b key_file file = (key_file', file', Ok tt) ->
  (forall fresh w, open_file id_ fresh w key_file' file' = (key_file', Ok b)) /\
  exists r, registry s !! id_ = Some r /\
    forall records : gmap str SessionRecord, ((size records < MAX_LOGICAL_SESSIONS)%nat \/ is_Some (records !! id_)) ->
      let restored := mkRecord (revision r) (context_epoch r) (bundle r) false true ∅ in
      restore_install id_ b records = (<[id_ := restored]> records, Ok (view id_ restored)).
Proof.
  intros Hok%reachable_ok. unfold save_read. destruct (validate_id id_) as [[]|] eqn:Hid; [|done].
  destruct (registry s !! id_) as [r|] eqn:Hr; [|done]. cbn [ok_or]. destruct (busy r); [done|].
  destruct (bundle r) as [b'|] eqn:Hb; [|done]. intros [= ->] Hcodec Hk Hn.
  destruct (versions_of _ _ _ Hok Hr) as [vs Hvs]. destruct (so_valid _ _ _ (ro_sessions _ Hok _ _ _ Hr Hvs) _ Hb) as (Hvalid & Hrev & Hep).
  intros Hseal. split; [by apply (sealed_file_opens id_ c b key_file file)|].
  exists r. split; [done|]. intros records Hroom. cbn zeta. unfold restore_install, restored_record. rewrite <- Hrev, <- Hep, Hb.
  destruct Hroom as [Hroom|Hroom].
  - by rewrite (proj2 (Nat.leb_gt _ _) Hroom).
  - by rewrite (bool_decide_eq_true_2 _ Hroom), andb_false_r.
Qed.
End Runs.

(** ** A concrete store: one session, one turn, and a cipher that adds a byte. *)
Definition toy_rng : Mt19937Snapshot := mkMtSnapshot (replicate 624 1) 0.
Definition toy_id : str := string_bytes "sess-1".
Definition toy_bundle : SessionBundle :=
  mkBundle (string_bytes "muser.session-bundle.v3") toy_id 0 3 (replicate 64 "a"%byte) [] [] (string_bytes "muse-kv-layout-v1")
    None None None toy_snapshot [0] None [5] 0 (mkSampler toy_rng toy_rng toy_rng toy_rng 0 0 0x3F800000) [] [5] [] [] None None [] [].
(** The file of that turn, when its key and nonce are all [k] and all [n]. *)
Definition toy_envelope : str := MAGIC ++ replicate 24 "n"%byte ++ string_bytes "cb".
#[local] Instance toy_sealing : Sealing := {|
  to_stdvec _ := ["b"%byte];
  from_bytes _ := Some (with_revision toy_bundle 1);
  aead_encrypt _ _ plain := "c"%byte :: plain;
  aead_decrypt _ _ cipher := match cipher with [] => None | _ :: plain => Some plain end;
  sha256_hex bytes := replicate 64 (if bool_decide (bytes = toy_envelope) then "a"%byte else "0"%byte);
  replay_plan_ok _ := true;
|}.
#[local] Instance toy_sealing_laws : SealingLaws.
Proof. by split. Qed.
Definition toy_answer : CachedGeneration := mkCached [] 0 0 [] 0 0 [] [].
Definition toy_key : str := string_bytes "key".
Definition toy_created : gmap str SessionRecord := (create (Some toy_id) [] ∅).1.
Definition toy_begun : gmap str SessionRecord := (begin toy_id 0 toy_key [] toy_created).1.
Definition toy_committed : gmap str SessionRecord := (commit toy_id 0 toy_key [] toy_bundle toy_answer toy_begun).1.
Definition toy_lease : Lease := mkLease toy_id 0 toy_key [] None.
Definition toy_running : Run := mkRun toy_begun {[0%nat := toy_lease]} {[toy_id := []]}.
Definition toy_run : Run :=
  mkRun toy_committed (delete 0%nat {[0%nat := toy_lease]})
    (alter (fun vs => vs ++ [committed toy_lease toy_bundle toy_answer 1]) toy_id {[toy_id := []]}).
Lemma outcome {A B} (x : A * B) b : x.2 = b -> x = (x.1, b).
Proof. intros <-. by destruct x. Qed.
Lemma toy_create : create (Some toy_id) [] ∅ = (toy_created, Ok (view toy_id new_record)).
Proof. apply outcome. vm_compute. reflexivity. Qed.
Lemma toy_begin : begin toy_id 0 toy_key [] toy_created = (toy_begun, Ok (Started None)).
Proof. apply outcome. vm_compute. reflexivity. Qed.
Lemma toy_commit : commit toy_id 0 toy_key [] toy_bundle toy_answer toy_begun = (toy_committed, Ok 1).
Proof. apply outcome. vm_compute. reflexivity. Qed.
Lemma toy_running_reachable : reachable toy_running.
Proof.
  eapply rtc_l; [exact (step_serving _ _ (step_create empty_run _ _ _ _ toy_create))|].
  apply rtc_once. exact (step_serving _ _ (step_begin (mkRun toy_created ∅ {[toy_id := []]}) 0 _ _ _ _ _ _ eq_refl toy_begin)).
Qed.
Lemma toy_run_reachable : reachable toy_run.
Proof.
  eapply rtc_r; [apply toy_running_reachable|].
  exact (step_serving _ _ (step_commit toy_running 0 toy_lease _ _ _ _ eq_refl toy_commit)).
Qed.

Lemma saved_session_restores_witness :
  save_read toy_id (registry toy_run) = Ok (with_revision toy_bundle 1) /\
  exists kf f, seal_file (mkChoices (replicate 32 "k"%byte) Written (replicate 24 "n"%byte) Written) (with_revision toy_bundle 1) None None = (kf, f, Ok tt) /\
    open_file toy_id [] NotWritten kf f = (kf, Ok (with_revision toy_bundle 1)).
Proof.
  assert (save_read toy_id (registry toy_run) = Ok (with_revision toy_bundle 1)) as Hs by by vm_compute. split; [done|].
  destruct (seal_file (mkChoices (replicate 32 "k"%byte) Written (replicate 24 "n"%byte) Written) (with_revision toy_bundle 1) None None)
    as [[kf f] [[]|]] eqn:E; [|by vm_compute in E].
  exists kf, f. split; [done|].
  apply (proj1 (saved_session_restores toy_run toy_id (mkChoices (replicate 32 "k"%byte) Written (replicate 24 "n"%byte) Written) _ None None kf f toy_run_reachable Hs eq_refl eq_refl eq_refl E)).
Defined.

(** Restoring a session while a turn is running: the turn can no longer be committed, and
    its idempotency keys are gone. *)
Example restore_breaks_a_lease :
  let records := (restore_install toy_id toy_bundle toy_begun).1 in
  (busy <$> toy_begun !! toy_id = Some true) /\
  (commit toy_id 0 toy_key [] toy_bundle toy_answer records).2 = Err LostLease.
Proof. by vm_compute. Qed.
