(* ===== verification/Transfer.v ===== *)
(** * Moving logical sessions between nodes.

    Models the transfers of [SessionStore], [crates/muser-server/src/session_store.rs], with
    the drivers that call them in axum_httpd.rs: journals, encrypted payloads, the import at
    the destination and the removal at the source.  A journal or payload eqs a file of the
    node; every operation eqs a function on the node, given the random bytes it draws and the
    outcomes of its writes.  The writes of one export are one step. *)
From Stdlib Require Import Strings.Byte.
From stdpp Require Import strings.
From S2P Require Import Prelude Utf8 CacheSnapshot SessionStore.

(** [SessionIdentity] of axum_httpd.rs; journals, exports and requests repeat its fields. *)
Record SessionIdentity : Type := mkIdentity {
  id_model : str;
  id_tokenizer : str;
  id_template : str;
  id_layout : str;
  id_dflash : option str;
  id_vision_projector : option str;
  id_vision_preprocessing : option str;
}.
#[global] Instance SessionIdentity_eq_dec : EqDecision SessionIdentity.
Proof. solve_decision. Defined.

Record TransferView : Type := mkTransferView {
  t_id : str;
  t_session_id : str;
  direction : string;
  mode : string;
  tier : string;
  destination : str;
  status : string;
  t_bytes : Z;
  sha256 : str;
  source_deleted : bool;
  last_error : option string;
}.
Record TransferRecord : Type := mkTransfer {
  t_view : TransferView;
  transport_key : str;
  t_identity : SessionIdentity;
}.
(** The payload is named by the transfer's id. *)
Record TransferExport : Type := mkExport { e_view : TransferView; e_key : str; e_identity : SessionIdentity }.

Inductive TransferError : Type :=
| Store (e : StoreError) | BadMode | BadTier | BoundElsewhere | HasMaterial | AlreadyRegistered | BusyOrEmpty | NotOutgoing
| NotResumable | PayloadChanged | IdentityDiffers | BadPayloadSize | BadIdentity | NotIncoming | PayloadMismatch | NotUploaded
| NotAcknowledged | BadJournal | RemoteFailed (e : string) | StorageMismatch.

(** A node: its registry, its key and bundle files, and its transfer directory.  A journal
    that cannot be read is [None]. *)
Record Node : Type := mkNode {
  records : gmap str SessionRecord;
  key_file : option File;
  bundles : gmap str File;
  journals : gmap str (option TransferRecord);
  payloads : gmap str File;
}.
Definition with_records (n : Node) (m : gmap str SessionRecord) : Node := mkNode m (key_file n) (bundles n) (journals n) (payloads n).
Definition with_journals (n : Node) (m : gmap str (option TransferRecord)) : Node := mkNode (records n) (key_file n) (bundles n) m (payloads n).
Definition with_payloads (n : Node) (m : gmap str File) : Node := mkNode (records n) (key_file n) (bundles n) (journals n) m.

Definition lift {A} (r : result StoreError A) : result TransferError A := result_map_err Store r.
Definition eqs (a b : string) : bool := bool_decide (a = b).
Definition valid_mode (m : string) : bool := eqs m "copy" || eqs m "move".
Definition validate_transfer_tier (t : string) : result TransferError unit :=
  if eqs t "decode" || eqs t "storage" then Ok tt else Err BadTier.
(** An atomic file of a directory. *)
Definition write_file (w : WriteOutcome) (name bytes : str) (files : gmap str File) : gmap str File * result StoreError unit :=
  let (f, res) := atomic_private_write w bytes (files !! name) in
  (partial_alter (fun _ => f) name files, res).

Section Transfers.
Context `{Sealing}.
Implicit Types (n : Node).

Definition read_transfer (transfer_id : str) n : result TransferError TransferRecord :=
  let? _ := lift (validate_id transfer_id) in
  match journals n !! transfer_id with
  | Some (Some r) => Ok r
  | Some None => Err BadJournal
  | None => Err (Store Io)
  end.
Definition write_transfer (w : WriteOutcome) (r : TransferRecord) n : Node * result TransferError unit :=
  match w with
  | Written => (with_journals n (<[t_id (t_view r) := Some r]> (journals n)), Ok tt)
  | NotWritten => (n, Err (Store Io))
  | WrittenNotSynced => (with_journals n (<[t_id (t_view r) := Some r]> (journals n)), Err (Store Io))
  end.
Definition transfer (transfer_id : str) n : result TransferError TransferView :=
  let? r := read_transfer transfer_id n in Ok (t_view r).
Definition with_status (v : TransferView) (s : string) (error : option string) (deleted : bool) : TransferView :=
  mkTransferView (t_id v) (t_session_id v) (direction v) (mode v) (tier v) (destination v) s (t_bytes v) (sha256 v) deleted error.
Definition with_view (r : TransferRecord) (v : TransferView) : TransferRecord := mkTransfer v (transport_key r) (t_identity r).
Definition written {A} (w : WriteOutcome) (r : TransferRecord) n (a : A) : Node * result TransferError A :=
  match write_transfer w r n with
  | (n, Ok _) => (n, Ok a)
  | (n, Err e) => (n, Err e)
  end.
Definition update_transfer (w : WriteOutcome) (transfer_id : str) (s : string) (error : option string) (deleted : bool) n :
    Node * result TransferError TransferView :=
  match read_transfer transfer_id n with
  | Err e => (n, Err e)
  | Ok r => let r := with_view r (with_status (t_view r) s error deleted) in written w r n (t_view r)
  end.

(** ** The source. *)
Definition identity_of (b : SessionBundle) : SessionIdentity :=
  mkIdentity (model_sha256 b) (tokenizer_sha256 b) (template_sha256 b) (layout_abi b) (dflash_identity_sha256 b)
    (vision_projector_sha256 b) (vision_preprocessing_sha256 b).
Definition no_identity : SessionIdentity := mkIdentity [] (replicate 32 "000"%byte) (replicate 32 "000"%byte) [] None None None.
(** A session that can be exported. *)
Definition committed_bundle (id_ : str) n : result TransferError SessionBundle :=
  let? r := lift (ok_or (records n !! id_) NoSession) in
  if busy r then Err (Store SessionBusy) else lift (ok_or (bundle r) NoCommittedState).

Definition register_outgoing (w : WriteOutcome) (transfer_id session_id_ destination_ : str) (mode_ tier_ : string) n :
    Node * result TransferError TransferView :=
  match (let? _ := lift (validate_id transfer_id) in
         let? _ := lift (validate_id session_id_) in
         if negb (valid_mode mode_) then Err BadMode else validate_transfer_tier tier_) with
  | Err e => (n, Err e)
  | Ok _ =>
      if bool_decide (is_Some (journals n !! transfer_id)) then
        (n, let? _ := read_transfer transfer_id n in Err AlreadyRegistered)
      else
        match records n !! session_id_ with
        | None => (n, Err (Store NoSession))
        | Some r =>
            if busy r || negb (present (bundle r)) then (n, Err BusyOrEmpty)
            else
              let v := mkTransferView transfer_id session_id_ "outgoing" mode_ tier_ destination_ "starting" 0 [] false None in
              written w (mkTransfer v (replicate 32 "000"%byte) no_identity) n v
        end
  end.

(** [begin_export] up to reading the bundle, and its writes. *)
Definition export_read (transfer_id session_id_ destination_ : str) (mode_ tier_ : string) n : result TransferError SessionBundle :=
  let? _ := lift (validate_id transfer_id) in
  let? _ := lift (validate_id session_id_) in
  if negb (valid_mode mode_) then Err BadMode
  else
    let? _ := validate_transfer_tier tier_ in
    let? _ :=
      if bool_decide (is_Some (journals n !! transfer_id)) then
        let? existing := read_transfer transfer_id n in
        let v := t_view existing in
        if negb (eqs (direction v) "outgoing") || negb (bool_decide (t_session_id v = session_id_))
           || negb (bool_decide (destination v = destination_)) || negb (eqs (mode v) mode_) || negb (eqs (tier v) tier_)
        then Err BoundElsewhere
        else if negb (eqs (status v) "starting") || negb (t_bytes v =? 0) || negb (zlen (sha256 v) =? 0) then Err HasMaterial
        else Ok tt
      else Ok tt in
    committed_bundle session_id_ n.
Record ExportChoices : Type := mkExportChoices { x_key : str; x_nonce : str; payload_write : WriteOutcome; journal_write : WriteOutcome }.
Definition export_write (c : ExportChoices) (transfer_id session_id_ destination_ : str) (mode_ tier_ : string) (b : SessionBundle) n :
    Node * result TransferError TransferExport :=
  let envelope := encrypt_envelope (x_nonce c) (to_stdvec b) (x_key c) in
  match write_file (payload_write c) transfer_id envelope (payloads n) with
  | (files, Err e) => (with_payloads n files, Err (Store e))
  | (files, Ok _) =>
      let v := mkTransferView transfer_id session_id_ "outgoing" mode_ tier_ destination_ "prepared" (zlen envelope)
                 (sha256_hex envelope) false None in
      written (journal_write c) (mkTransfer v (x_key c) (identity_of b)) (with_payloads n files) (mkExport v (x_key c) (identity_of b))
  end.
Definition resume_export (transfer_id : str) n : result TransferError TransferExport :=
  let? r := read_transfer transfer_id n in
  let v := t_view r in
  if negb (eqs (direction v) "outgoing") || (t_bytes v =? 0) || negb (is_sha256 (sha256 v)) then Err NotResumable
  else
    let? bytes := lift (read_private (payloads n !! transfer_id)) in
    if negb (zlen bytes =? t_bytes v) || negb (bool_decide (sha256_hex bytes = sha256 v)) then Err PayloadChanged
    else Ok (mkExport v (transport_key r) (t_identity r)).

(** [fs::remove_file], then syncing the directory. *)
Inductive RemoveOutcome : Type := Removed | NotRemoved | RemovedNotSynced.
Definition remove_file (o : RemoveOutcome) (name : str) (files : gmap str File) : gmap str File * result StoreError unit :=
  match files !! name with
  | None => (files, Ok tt)
  | Some _ =>
      match o with
      | Removed => (delete name files, Ok tt)
      | NotRemoved => (files, Err Io)
      | RemovedNotSynced => (delete name files, Err Io)
      end
  end.
Definition with_bundles n (files : gmap str File) : Node := mkNode (records n) (key_file n) files (journals n) (payloads n).
Definition acknowledged (s : string) : bool := eqs s "destination_committed" || eqs s "destination_committed_source_retained".
Definition delete_after_transfer (o : RemoveOutcome) (id_ transfer_id : str) n : Node * result TransferError bool :=
  match (let? _ := lift (validate_id id_) in read_transfer transfer_id n) with
  | Err e => (n, Err e)
  | Ok r =>
      let v := t_view r in
      if negb (eqs (direction v) "outgoing") || negb (bool_decide (t_session_id v = id_)) || negb (eqs (mode v) "move")
         || negb (acknowledged (status v)) || source_deleted v
      then (n, Err NotAcknowledged)
      else
        match records n !! id_ with
        | None => (n, Ok false)
        | Some record =>
            if busy record then (n, Err (Store SessionBusy))
            else
              let (files, res) := remove_file o id_ (bundles n) in
              let n := with_bundles n files in
              match res with
              | Err e => (n, Err (Store e))
              | Ok _ => (with_records n (delete id_ (records n)), Ok true)
              end
        end
  end.
(** The text of an error is kept in a journal and read by nobody. *)
Definition reconcile_outgoing_after_ack (o : RemoveOutcome) (w : WriteOutcome) (error_text : TransferError -> string) (transfer_id : str) n :
    Node * result TransferError bool :=
  match transfer transfer_id n with
  | Err e => (n, Err e)
  | Ok v =>
      let updated x := match x with (n, Ok _) => (n, Ok true) | (n, Err e) => (n, Err e) end in
      if negb (eqs (direction v) "outgoing") then (n, Err NotOutgoing)
      else if eqs (status v) "completed" then (n, Ok true)
      else if negb (acknowledged (status v)) then (n, Ok false)
      else if eqs (mode v) "move" then
        match delete_after_transfer o (t_session_id v) transfer_id n with
        | (n, Ok _) => updated (update_transfer w transfer_id "completed" None true n)
        | (n, Err e) => updated (update_transfer w transfer_id "destination_committed_source_retained" (Some (error_text e)) false n)
        end
      else if eqs (mode v) "copy" then updated (update_transfer w transfer_id "completed" None false n)
      else (n, Err BadMode)
  end.
(** [record_transfer_failure] of axum_httpd.rs. *)
Definition starts (p s : string) : bool := String.prefix p s.
Definition record_transfer_failure (w : WriteOutcome) (transfer_id : str) (error : string) n : Node :=
  let (s, deleted) :=
    match transfer transfer_id n with
    | Ok v =>
        if eqs (status v) "completed" then (status v, source_deleted v)
        else if starts "destination_committed" (status v) || starts "source_restored" (status v) then (status v, source_deleted v)
        else ("ambiguous"%string, source_deleted v)
    | Err _ => ("ambiguous"%string, false)
    end in
  (update_transfer w transfer_id s (Some error) deleted n).1.

(** ** The destination. *)
Definition id_digests (i : SessionIdentity) : list str := omap id [id_dflash i; id_vision_projector i; id_vision_preprocessing i].
(** The view an import is prepared with. *)
Definition import_view (transfer_id session_id_ source_ : str) (mode_ tier_ : string) (bytes : Z) (sha : str) : TransferView :=
  mkTransferView transfer_id session_id_ "incoming" mode_ tier_ source_ "prepared" bytes sha false None.
(** Two views that differ at most in their status. *)
Definition same_import (v v' : TransferView) : bool :=
  eqs (direction v) (direction v') && bool_decide (t_session_id v = t_session_id v') && bool_decide (destination v = destination v')
  && eqs (mode v) (mode v') && eqs (tier v) (tier v') && (t_bytes v =? t_bytes v') && bool_decide (sha256 v = sha256 v').
Definition prepare_import (w : WriteOutcome) (transfer_id session_id_ source_ : str) (mode_ tier_ : string) (bytes : Z) (sha key : str)
    (i : SessionIdentity) n : Node * result TransferError TransferView :=
  match (let? _ := lift (validate_id transfer_id) in
         let? _ := lift (validate_id session_id_) in
         if negb (valid_mode mode_) then Err BadMode
         else if negb (eqs tier_ "decode") then Err BadTier
         else if (bytes =? 0) || (MAX_TRANSFER_BYTES <? bytes) || negb (is_sha256 sha) then Err BadPayloadSize
         else if negb (is_sha256 (id_model i)) || negb (bool_decide (id_layout i = string_bytes "muse-kv-layout-v1"))
              || existsb (fun digest => negb (is_sha256 digest)) (id_digests i)
              || negb (eqb (present (id_vision_projector i)) (present (id_vision_preprocessing i)))
         then Err BadIdentity else Ok tt) with
  | Err e => (n, Err e)
  | Ok _ =>
      let v := import_view transfer_id session_id_ source_ mode_ tier_ bytes sha in
      if bool_decide (is_Some (journals n !! transfer_id)) then
        (n,
         let? existing := read_transfer transfer_id n in
         if same_import (t_view existing) v && bool_decide (transport_key existing = key) && bool_decide (t_identity existing = i)
         then Ok (t_view existing) else Err BoundElsewhere)
      else written w (mkTransfer v key i) n v
  end.
(** The guard of an upload: the size it may have. *)
Definition payload_path (transfer_id : str) n : result TransferError Z :=
  let? r := read_transfer transfer_id n in
  if negb (eqs (direction (t_view r)) "incoming") || eqs (status (t_view r)) "committed" then Err NotIncoming
  else Ok (t_bytes (t_view r)).
(** [fs::rename], then syncing the directory. *)
Definition rename (w : WriteOutcome) (staging : File) (name : str) (files : gmap str File) : gmap str File * result StoreError unit :=
  match w with
  | Written => (<[name := staging]> files, Ok tt)
  | NotWritten => (files, Err Io)
  | WrittenNotSynced => (<[name := staging]> files, Err Io)
  end.
(** A staged file: its contents if it is a regular file. *)
Definition accept_payload (w w' : WriteOutcome) (transfer_id : str) (staging : option File) n : Node * result TransferError TransferView :=
  match read_transfer transfer_id n with
  | Err e => (n, Err e)
  | Ok r =>
      match staging with
      | None => (n, Err PayloadMismatch)
      | Some f =>
          if negb (zlen (contents f) =? t_bytes (t_view r)) || negb (bool_decide (sha256_hex (contents f) = sha256 (t_view r)))
          then (n, Err PayloadMismatch)
          else
            match rename w f transfer_id (payloads n) with
            | (files, Err e) => (with_payloads n files, Err (Store e))
            | (files, Ok _) =>
                let v := t_view r in
                let v := with_status v "uploaded" None (source_deleted v) in
                written w' (with_view r v) (with_payloads n files) v
            end
      end
  end.
Definition optional_match (prepared expected : option str) : bool :=
  match prepared with Some _ => bool_decide (prepared = expected) | None => true end.
(** What the destination serves includes what the session needs. *)
Definition serves (i expected : SessionIdentity) : bool :=
  bool_decide (id_model i = id_model expected) && bool_decide (id_tokenizer i = id_tokenizer expected)
  && bool_decide (id_template i = id_template expected) && bool_decide (id_layout i = id_layout expected)
  && optional_match (id_dflash i) (id_dflash expected) && optional_match (id_vision_projector i) (id_vision_projector expected)
  && optional_match (id_vision_preprocessing i) (id_vision_preprocessing expected).
Definition install_imported_bundle (c : SealChoices) (b : SessionBundle) n : Node * result TransferError unit :=
  let id_ := session_id b in
  if (MAX_LOGICAL_SESSIONS <=? size (records n))%nat && negb (bool_decide (is_Some (records n !! id_))) then (n, Err (Store SessionLimit))
  else if match records n !! id_ with Some r => busy r | None => false end then (n, Err (Store SessionBusy))
  else
    match seal_file c b (key_file n) (bundles n !! id_) with
    | (key, file, res) =>
        let n := mkNode (records n) key (partial_alter (fun _ => file) id_ (bundles n)) (journals n) (payloads n) in
        match res with
        | Err e => (n, Err (Store e))
        | Ok _ => (with_records n (<[id_ := restored_record b]> (records n)), Ok tt)
        end
    end.
(** The bundle of a payload, which must be for the session named in the journal and have the
    expected identity. *)
Definition open_payload (r : TransferRecord) (encrypted : str) : result TransferError SessionBundle :=
  let? plaintext := lift (decrypt_envelope encrypted (transport_key r)) in
  let? b := lift (ok_or (from_bytes plaintext) Undecodable) in
  let? _ := lift (validate_bundle b (t_session_id (t_view r))) in
  Ok b.
(** The journal, and the bundle to install; none when the transfer is already committed. *)
Definition import_bundle (transfer_id : str) (expected : SessionIdentity) n : result TransferError (TransferRecord * option SessionBundle) :=
  let? r := read_transfer transfer_id n in
  if negb (serves (t_identity r) expected) then Err IdentityDiffers
  else if eqs (status (t_view r)) "committed" then Ok (r, None)
  else if negb (eqs (status (t_view r)) "uploaded") then Err NotUploaded
  else
    let? encrypted := lift (read_private (payloads n !! transfer_id)) in
    let? b := open_payload r encrypted in
    if negb (bool_decide (identity_of b =
         mkIdentity (id_model expected) (id_tokenizer expected) (id_template expected) (id_layout expected)
           (id_dflash (t_identity r)) (id_vision_projector (t_identity r)) (id_vision_preprocessing (t_identity r))))
    then Err IdentityDiffers else Ok (r, Some b).
Definition commit_import (c : SealChoices) (w : WriteOutcome) (transfer_id : str) (expected : SessionIdentity) n :
    Node * result TransferError TransferView :=
  match import_bundle transfer_id expected n with
  | Err e => (n, Err e)
  | Ok (r, None) => (n, Ok (t_view r))
  | Ok (r, Some b) =>
      match install_imported_bundle c b n with
      | (n, Err e) => (n, Err e)
      | (n, Ok _) =>
          let v := with_status (t_view r) "committed" None (source_deleted (t_view r)) in
          written w (with_view r v) n v
      end
  end.

(** ** The storage tier: the payload is kept by a host that only stores files. *)
Definition remove_transfer_payload (o : RemoveOutcome) (transfer_id : str) n : Node * result TransferError unit :=
  match validate_id transfer_id with
  | Err e => (n, Err (Store e))
  | Ok _ =>
      let (files, res) := remove_file o transfer_id (payloads n) in
      (with_payloads n files, lift res)
  end.
Definition adopt_export_payload (w : WriteOutcome) (transfer_id : str) (staging : option str) n : Node * result TransferError unit :=
  match read_transfer transfer_id n with
  | Err e => (n, Err e)
  | Ok r =>
      match staging with
      | None => (n, Err (Store Io))
      | Some bytes =>
          if negb (zlen bytes =? t_bytes (t_view r)) || negb (bool_decide (sha256_hex bytes = sha256 (t_view r)))
          then (n, Err PayloadMismatch)
          else
            match rename w (mkFile bytes true) transfer_id (payloads n) with
            | (files, Err e) => (with_payloads n files, Err (Store e))
            | (files, Ok _) => (with_payloads n files, Ok tt)
            end
      end
  end.
Definition restore_export (c : SealChoices) (transfer_id : str) n : Node * result TransferError SessionView :=
  match (let? e := resume_export transfer_id n in
         let? encrypted := lift (read_private (payloads n !! transfer_id)) in
         let? b := open_payload (mkTransfer (e_view e) (e_key e) (e_identity e)) encrypted in
         if bool_decide (identity_of b = e_identity e) then Ok b else Err IdentityDiffers) with
  | Err e => (n, Err e)
  | Ok b =>
      match install_imported_bundle c b n with
      | (n, Err e) => (n, Err e)
      | (n, Ok _) =>
          (n, let? found := lift (get (session_id b) (records n)) in ok_or found (Store SessionDisappeared))
      end
  end.
End Transfers.
