(* ===== verification/StorageTier.v ===== *)
(** * The storage tier of session transfers.

    Models [run_storage_transfer] and [run_storage_restore] of
    [crates/muser-server/src/axum_httpd.rs] over the journals and payloads of [Transfer].  The
    storage host is a map from transfers to payloads; the commands sent to it over ssh either
    take effect, do not, or take effect without the answer arriving. *)
From Stdlib Require Import Strings.Byte.
From stdpp Require Import strings.
From S2P Require Import Prelude Utf8 CacheSnapshot Resident SessionStore SessionRuns Transfer.

Inductive Outcome : Type := Done | Failed (e : string) | Unconfirmed (e : string).

Section Storage.
Context `{Sealing}.
Implicit Types (n : Node).

Definition and_then {A B} (x : Node * result TransferError A) (k : Node -> A -> Node * result TransferError B) :
    Node * result TransferError B :=
  match x with
  | (n, Ok a) => k n a
  | (n, Err e) => (n, Err e)
  end.
(** [resume_export], or [begin_export] of a transfer that is starting. *)
Definition resume_or_begin (x : ExportChoices) (transfer_id session_id_ destination_ : str) (mode_ tier_ : string) n :
    Node * result TransferError TransferExport :=
  and_then (n, transfer transfer_id n) (fun n current =>
    match resume_export transfer_id n with
    | Ok e => (n, Ok e)
    | Err _ =>
        if eqs (status current) "starting" then
          and_then (n, export_read transfer_id session_id_ destination_ mode_ tier_ n) (fun n b =>
            export_write x transfer_id session_id_ destination_ mode_ tier_ b n)
        else (n, Err NotResumable)
    end).

(** [STORAGE_COMMIT]: a payload of the announced size and digest is kept. *)
Definition intact (v : TransferView) (bytes : str) : bool := (zlen bytes =? t_bytes v) && bool_decide (sha256_hex bytes = sha256 v).
Definition storage_keep (v : TransferView) (payload : option File) (storage : gmap str str) : gmap str str * result TransferError unit :=
  match storage !! t_id v with
  | Some old => (storage, if intact v old then Ok tt else Err StorageMismatch)
  | None =>
      match payload with
      | Some f => if intact v (contents f) then (<[t_id v := contents f]> storage, Ok tt) else (storage, Err StorageMismatch)
      | None => (storage, Err (Store Io))
      end
  end.
Definition storage_send (o : Outcome) (v : TransferView) (payload : option File) (storage : gmap str str) :
    gmap str str * result TransferError unit :=
  match o with
  | Done => storage_keep v payload storage
  | Failed e => (storage, Err (RemoteFailed e))
  | Unconfirmed e => ((storage_keep v payload storage).1, Err (RemoteFailed e))
  end.
(** The outcomes of a run: the export's, the writes of the journal in order, the removals of
    the session's file and of the payload, and the commands to the host. *)
Record RunChoices : Type := mkRunChoices {
  r_export : ExportChoices;
  r_journal : nat -> WriteOutcome;
  r_session : RemoveOutcome;
  r_payload : RemoveOutcome;
  r_send : Outcome;
  r_error : TransferError -> string;
}.
Definition drop_payload (c : RunChoices) (transfer_id : str) n : Node * result TransferError unit :=
  and_then (n, transfer transfer_id n) (fun n v =>
    if source_deleted v then remove_transfer_payload (r_payload c) transfer_id n else (n, Ok tt)).
Definition run_storage_transfer (c : RunChoices) (transfer_id session_id_ destination_ : str) (mode_ : string) n (storage : gmap str str) :
    Node * gmap str str * result TransferError unit :=
  match reconcile_outgoing_after_ack (r_session c) (r_journal c 0) (r_error c) transfer_id n with
  | (n, Err e) => (n, storage, Err e)
  | (n, Ok true) => let (n, res) := drop_payload c transfer_id n in (n, storage, res)
  | (n, Ok false) =>
      match and_then (resume_or_begin (r_export c) transfer_id session_id_ destination_ mode_ "storage" n) (fun n e =>
              and_then (update_transfer (r_journal c 1) transfer_id "transferring" None false n) (fun n _ => (n, Ok e))) with
      | (n, Err e) => (n, storage, Err e)
      | (n, Ok e) =>
          match storage_send (r_send c) (e_view e) (payloads n !! transfer_id) storage with
          | (storage, Err e) => (n, storage, Err e)
          | (storage, Ok _) =>
              let (n, res) :=
                and_then (update_transfer (r_journal c 2) transfer_id "destination_committed" None false n) (fun n _ =>
                and_then (reconcile_outgoing_after_ack (r_session c) (r_journal c 3) (r_error c) transfer_id n) (fun n _ =>
                drop_payload c transfer_id n)) in
              (n, storage, res)
          end
      end
  end.

(** [STORAGE_DELETE], and closing the journal. *)
Definition close_restore (w : WriteOutcome) (o : Outcome) (transfer_id : str) (mode_ : string) n (storage : gmap str str) :
    Node * gmap str str * result TransferError unit :=
  let closed s error n := and_then (update_transfer w transfer_id s error false n) (fun n _ => (n, Ok tt)) in
  if eqs mode_ "move" then
    match o with
    | Done => let (n, res) := closed "completed"%string None n in (n, delete transfer_id storage, res)
    | Failed e => let (n, res) := closed "source_restored_remote_retained"%string (Some e) n in (n, storage, res)
    | Unconfirmed e => let (n, res) := closed "source_restored_remote_retained"%string (Some e) n in (n, delete transfer_id storage, res)
    end
  else let (n, res) := closed "completed"%string None n in (n, storage, res).
Definition run_storage_restore (seal : SealChoices) (w : nat -> WriteOutcome) (fetched : Outcome) (o : Outcome)
    (transfer_id session_id_ : str) (mode_ : string) n (storage : gmap str str) : Node * gmap str str * result TransferError unit :=
  match transfer transfer_id n with
  | Err e => (n, storage, Err e)
  | Ok v =>
      if negb (bool_decide (t_session_id v = session_id_)) || negb (eqs (tier v) "storage") || negb (eqs (mode v) mode_)
      then (n, storage, Err BoundElsewhere)
      else if eqs (status v) "completed" then (n, storage, Ok tt)
      else if eqs (status v) "source_restored" || eqs (status v) "source_restored_remote_retained"
      then close_restore (w 0%nat) o transfer_id mode_ n storage
      else
        match fetched with
        | Failed e | Unconfirmed e => (n, storage, Err (RemoteFailed e))
        | Done =>
            match and_then (adopt_export_payload (w 1%nat) transfer_id (storage !! transfer_id) n) (fun n _ =>
                  and_then (restore_export seal transfer_id n) (fun n _ =>
                  update_transfer (w 2%nat) transfer_id "source_restored" None false n)) with
            | (n, Err e) => (n, storage, Err e)
            | (n, Ok _) => close_restore (w 3%nat) o transfer_id mode_ n storage
            end
        end
  end.
End Storage.

(** ** A session moved to storage and asked back. *)
#[local] Existing Instance toy_sealing.
Definition toy_transfer : str := string_bytes "xfer-1".
Definition toy_host : str := string_bytes "archive".
Definition toy_node : Node := mkNode toy_committed None ∅ ∅ ∅.
Definition toy_choices : RunChoices :=
  mkRunChoices (mkExportChoices (replicate 32 "k"%byte) (replicate 24 "n"%byte) Written Written) (fun _ => Written) Removed Removed Done
    (fun _ => "error"%string).
Definition toy_seal : SealChoices := mkChoices (replicate 32 "k"%byte) Written (replicate 24 "n"%byte) Written.
Definition toy_moved (mode_ : string) : Node * gmap str str * result TransferError unit :=
  run_storage_transfer toy_choices toy_transfer toy_id toy_host mode_
    (register_outgoing Written toy_transfer toy_id toy_host mode_ "storage" toy_node).1 ∅.
Definition toy_asked (mode_ : string) : Node * gmap str str * result TransferError unit :=
  run_storage_restore toy_seal (fun _ => Written) Done Done toy_transfer toy_id mode_ (toy_moved mode_).1.1 (toy_moved mode_).1.2.

(** A move to storage that succeeds is final: the session is deleted at the source and kept by
    the host, and asking for it reports success but restores nothing. *)
Example storage_move_is_not_restored :
  (toy_moved "move").2 = Ok tt /\ is_Some ((toy_moved "move").1.2 !! toy_transfer) /\ records (toy_moved "move").1.1 !! toy_id = None /\
  (toy_asked "move").2 = Ok tt /\ records (toy_asked "move").1.1 !! toy_id = None /\ is_Some ((toy_asked "move").1.2 !! toy_transfer).
Proof. split_and!; try (vm_compute; reflexivity); eexists; vm_compute; reflexivity. Qed.
