(* ===== verification/TransferSafety.v ===== *)
(** * No session is lost in a move between nodes.

    The source, the destination and the threads that run [run_decode_transfer] of
    [crates/muser-server/src/axum_httpd.rs], as a step relation: requests and answers may be
    lost, uploads may be anything, threads may die at any point and several may run one
    transfer, and both nodes go on serving their sessions.  The exports made and the bundles
    imported are kept as ghosts. *)
From Stdlib Require Import Strings.Byte.
From stdpp Require Import strings.
From S2P Require Import Prelude Utf8 CacheSnapshot SessionStore SessionRuns Transfer.

Section System.
Context `{Sealing}.
Implicit Types (n : Node).

(** An export: of which session under which transfer, and what was sealed how. *)
Record Exported : Type := mkExported { xd_transfer : str; xd_session : str; xd_choices : ExportChoices; xd_bundle : SessionBundle }.
Definition envelope (x : Exported) : str := encrypt_envelope (x_nonce (xd_choices x)) (to_stdvec (xd_bundle x)) (x_key (xd_choices x)).
(** A thread of the source: it has read the bundle to export; it has an export to send; the
    destination has agreed to the transfer; the destination has said it is committed. *)
Inductive Runner : Type :=
| RExporting (transfer_id session_id_ destination_ : str) (mode_ : string) (b : SessionBundle)
| RSending (e : TransferExport)
| RUploading (e : TransferExport)
| RAcked (transfer_id : str).
Record System : Type := mkSystem {
  source : Node;
  dest : Node;
  runners : gmap nat Runner;
  exported : list Exported;
  imported : list (str * SessionBundle);
}.
Implicit Types (s : System).

Definition with_source s n : System := mkSystem n (dest s) (runners s) (exported s) (imported s).
Definition with_dest s n : System := mkSystem (source s) n (runners s) (exported s) (imported s).
Definition with_runner s (t : nat) (x : option Runner) : System :=
  mkSystem (source s) (dest s) (partial_alter (fun _ => x) t (runners s)) (exported s) (imported s).

(** [session_transfer_prepare]: the destination's own identity must fit. *)
Definition prepare_handler (w : WriteOutcome) (e : TransferExport) (own : SessionIdentity) n : Node * result TransferError TransferView :=
  let v := e_view e in
  if negb (serves (e_identity e) own) then (n, Err IdentityDiffers)
  else
    prepare_import w (t_id v) (t_session_id v) (string_bytes "muser-decode-source") (mode v) "decode" (t_bytes v) (sha256 v) (e_key e)
      (e_identity e) n.
(** What the answer to [prepare] makes of the thread, if it arrives. *)
Definition after_prepare (e : TransferExport) (res : option (result TransferError TransferView)) : option Runner :=
  match res with
  | Some (Ok v) => Some (if eqs (status v) "committed" then RAcked (t_id (e_view e)) else RUploading e)
  | _ => None
  end.
(** The bundle a commit installs. *)
Definition imports (c : SealChoices) (transfer_id : str) (expected : SessionIdentity) n : list (str * SessionBundle) :=
  match import_bundle transfer_id expected n with
  | Ok (_, Some b) => match install_imported_bundle c b n with (_, Ok _) => [(transfer_id, b)] | _ => [] end
  | _ => []
  end.
Definition after_commit s (c : SealChoices) (w : WriteOutcome) (transfer_id : str) (expected : SessionIdentity) : System :=
  mkSystem (source s) (commit_import c w transfer_id expected (dest s)).1 (runners s) (exported s)
    (imports c transfer_id expected (dest s) ++ imported s).

Inductive transfer_step : System -> System -> Prop :=
(** The nodes serve: their sessions and session files change in any way. *)
| t_source_serves s m k files :
    transfer_step s (with_source s (mkNode m k files (journals (source s)) (payloads (source s))))
| t_dest_serves s m k files :
    transfer_step s (with_dest s (mkNode m k files (journals (dest s)) (payloads (dest s))))
| t_register s w transfer_id session_id_ destination_ mode_ n res :
    register_outgoing w transfer_id session_id_ destination_ mode_ "decode" (source s) = (n, res) ->
    transfer_step s (with_source s n)
| t_export_read s t transfer_id session_id_ destination_ mode_ current b :
    runners s !! t = None -> transfer transfer_id (source s) = Ok current ->
    export_read transfer_id session_id_ destination_ mode_ "decode" (source s) = Ok b ->
    transfer_step s (with_runner s t (Some (RExporting transfer_id session_id_ destination_ mode_ b)))
| t_export_write s t c transfer_id session_id_ destination_ mode_ b n res :
    runners s !! t = Some (RExporting transfer_id session_id_ destination_ mode_ b) ->
    export_write c transfer_id session_id_ destination_ mode_ "decode" b (source s) = (n, res) ->
    transfer_step s
      (mkSystem n (dest s) (partial_alter (fun _ => match res with Ok e => Some (RSending e) | Err _ => None end) t (runners s))
         (mkExported transfer_id session_id_ c b :: exported s) (imported s))
| t_resume s t transfer_id e :
    runners s !! t = None -> resume_export transfer_id (source s) = Ok e ->
    transfer_step s (with_runner s t (Some (RSending e)))
| t_transferring s w transfer_id n res :
    update_transfer w transfer_id "transferring" None false (source s) = (n, res) -> transfer_step s (with_source s n)
| t_prepare s t w e own n res (answered : bool) :
    runners s !! t = Some (RSending e) -> prepare_handler w e own (dest s) = (n, res) ->
    transfer_step s (with_runner (with_dest s n) t (after_prepare e (if answered then Some res else None)))
| t_upload s w w' transfer_id staging n res :
    accept_payload w w' transfer_id staging (dest s) = (n, res) -> transfer_step s (with_dest s n)
| t_commit s c w transfer_id expected : transfer_step s (after_commit s c w transfer_id expected)
| t_commit_answered s t e c w expected v :
    runners s !! t = Some (RUploading e) -> (commit_import c w (t_id (e_view e)) expected (dest s)).2 = Ok v ->
    eqs (status v) "committed" = true ->
    transfer_step s (with_runner (after_commit s c w (t_id (e_view e)) expected) t (Some (RAcked (t_id (e_view e)))))
(** [remote_transfer_status], after a failed upload or commit. *)
| t_status s t e v :
    runners s !! t = Some (RUploading e) -> transfer (t_id (e_view e)) (dest s) = Ok v -> eqs (status v) "committed" = true ->
    transfer_step s (with_runner s t (Some (RAcked (t_id (e_view e)))))
| t_acknowledge s t w transfer_id n res :
    runners s !! t = Some (RAcked transfer_id) ->
    update_transfer w transfer_id "destination_committed" None false (source s) = (n, res) ->
    transfer_step s (with_runner (with_source s n) t None)
| t_reconcile s o w error_text transfer_id n res :
    reconcile_outgoing_after_ack o w error_text transfer_id (source s) = (n, res) -> transfer_step s (with_source s n)
| t_failed s t w transfer_id error :
    transfer_step s (with_runner (with_source s (record_transfer_failure w transfer_id error (source s))) t None)
| t_died s t : transfer_step s (with_runner s t None).

(** Two nodes without transfers, whatever sessions they have. *)
Definition initial s : Prop :=
  journals (source s) = ∅ /\ journals (dest s) = ∅ /\ runners s = ∅ /\ exported s = [] /\ imported s = [].
Definition reachable s : Prop := exists s0, initial s0 /\ rtc transfer_step s0 s.

(** No other file has the digest of the export, which decodes to what was encoded. *)
Definition faithful (x : Exported) : Prop :=
  length (x_nonce (xd_choices x)) = 24%nat /\ from_bytes (to_stdvec (xd_bundle x)) = Some (xd_bundle x) /\
  forall bytes, sha256_hex bytes = sha256_hex (envelope x) -> bytes = envelope x.
(** The destination has installed what the source exported of the session. *)
Definition arrived s (transfer_id session_id_ : str) : Prop :=
  exists x, x ∈ exported s /\ xd_transfer x = transfer_id /\ xd_session x = session_id_ /\ session_id (xd_bundle x) = session_id_ /\
    (transfer_id, xd_bundle x) ∈ imported s.
End System.

Section Safety.
Context `{Sealing}.
Implicit Types (n : Node) (s : System).

(** ** One operation changes at most one journal. *)
Definition journal_at n (transfer_id : str) (r : TransferRecord) : Prop := journals n !! transfer_id = Some (Some r).
Definition updates (Q : str -> TransferRecord -> Prop) n n' : Prop :=
  journals n' = journals n \/
  exists transfer_id r, journals n' = <[transfer_id := Some r]> (journals n) /\ t_id (t_view r) = transfer_id /\
    (journals n !! transfer_id = None \/ exists r0, journal_at n transfer_id r0 /\ t_session_id (t_view r0) = t_session_id (t_view r)) /\
    Q transfer_id r.
(** The journal of a transfer names this session. *)
Definition session_at n (transfer_id session_id_ : str) : Prop :=
  exists r, journal_at n transfer_id r /\ t_session_id (t_view r) = session_id_.

Lemma updates_refl Q n n' : journals n' = journals n -> updates Q n n'.
Proof. by left. Qed.
Lemma updates_impl Q Q' n n' : (forall tid r, Q tid r -> Q' tid r) -> updates Q n n' -> updates Q' n n'.
Proof. intros HQ [E|(tid & r & E & H1 & H2 & H3)]; [by left | right]. exists tid, r. by split_and!; try apply HQ. Qed.
Lemma session_at_updates Q n n' tid sid : updates Q n n' -> session_at n tid sid -> session_at n' tid sid.
Proof.
  intros [E|(tid' & r & E & _ & Hold & _)] (r0 & Hr0 & Hs); [exists r0; unfold journal_at; by rewrite E|].
  unfold session_at, journal_at in *. setoid_rewrite E. destruct (decide (tid' = tid)) as [->|Hne].
  - exists r. rewrite lookup_insert_eq. split; [done|]. destruct Hold as [Hn|(r1 & Hr1 & Es)]; congruence.
  - exists r0. by rewrite lookup_insert_ne.
Qed.
Lemma journals_updates Q (P : str -> TransferRecord -> Prop) n n' : updates Q n n' -> (forall tid r, Q tid r -> P tid r) ->
  (forall tid r, journal_at n tid r -> P tid r) -> forall tid r, journal_at n' tid r -> P tid r.
Proof.
  unfold journal_at. intros [E|(tid' & r' & E & _ & _ & HQ)] HP Hold tid r; rewrite E; [apply Hold|].
  rewrite lookup_insert. case_decide; [|apply Hold]. intros [= ->]. subst. by apply HP.
Qed.

Lemma read_transfer_ok tid n r : read_transfer tid n = Ok r -> journal_at n tid r.
Proof. unfold read_transfer. destruct (lift _); [|done]. unfold journal_at. destruct (journals n !! tid) as [[?|]|]; by intros [= ->]. Qed.
Lemma transfer_ok tid n v : transfer tid n = Ok v -> exists r, journal_at n tid r /\ v = t_view r.
Proof. unfold transfer. destruct (read_transfer tid n) as [r|] eqn:E; [|done]. intros [= <-]. apply read_transfer_ok in E. eauto. Qed.
Lemma written_updates {A} w r n (a : A) n' res : written w r n a = (n', res) ->
  (n' = n /\ (exists e, res = Err e) \/ n' = with_journals n (<[t_id (t_view r) := Some r]> (journals n))) /\ (forall a', res = Ok a' -> a' = a).
Proof. unfold written. destruct w; intros [= <- <-]; cbn; (split; [eauto | by intros ? [= <-]]). Qed.

(** A status is written into the journal of a transfer. *)
Lemma update_transfer_updates w tid st error deleted n n' res : update_transfer w tid st error deleted n = (n', res) ->
  (forall t r, journal_at n t r -> t_id (t_view r) = t) ->
  updates (fun t r => t = tid /\ exists r0, journal_at n t r0 /\ r = with_view r0 (with_status (t_view r0) st error deleted)) n n'.
Proof.
  unfold update_transfer. intros E Hkey. destruct (read_transfer tid n) as [r|] eqn:Er; [|injection E as <- <-; by left].
  apply read_transfer_ok in Er. apply written_updates in E as [[[-> _]| ->] _]; [by left|]. right.
  exists tid, (with_view r (with_status (t_view r) st error deleted)). cbn. rewrite (Hkey _ _ Er). split_and!; [done | done | | done | by exists r].
  right. by exists r.
Qed.

(** ** The invariant. *)
Definition made (x : Exported) (transfer_id session_id_ key sha : str) : Prop :=
  xd_transfer x = transfer_id /\ xd_session x = session_id_ /\ key = x_key (xd_choices x) /\ sha = sha256_hex (envelope x).
Definition made_by s (transfer_id : str) (v : TransferView) (key : str) : Prop :=
  exists x, x ∈ exported s /\ made x transfer_id (t_session_id v) key (sha256 v).
Definition source_record s (transfer_id : str) (r : TransferRecord) : Prop :=
  t_id (t_view r) = transfer_id /\
  (t_bytes (t_view r) <> 0 -> made_by s transfer_id (t_view r) (transport_key r)) /\
  (acknowledged (status (t_view r)) = true -> arrived s transfer_id (t_session_id (t_view r))).
Definition dest_record s (files : gmap str File) (transfer_id : str) (r : TransferRecord) : Prop :=
  t_id (t_view r) = transfer_id /\ validate_id (t_session_id (t_view r)) = Ok tt /\
  made_by s transfer_id (t_view r) (transport_key r) /\
  (eqs (status (t_view r)) "uploaded" = true -> exists f, files !! transfer_id = Some f /\ sha256_hex (contents f) = sha256 (t_view r)) /\
  (eqs (status (t_view r)) "committed" = true -> arrived s transfer_id (t_session_id (t_view r))).
Definition runner_ok s (x : Runner) : Prop :=
  match x with
  | RExporting tid sid _ _ _ => session_at (source s) tid sid
  | RSending e =>
      session_at (source s) (t_id (e_view e)) (t_session_id (e_view e)) /\ made_by s (t_id (e_view e)) (e_view e) (e_key e)
  | RUploading e =>
      session_at (source s) (t_id (e_view e)) (t_session_id (e_view e)) /\ session_at (dest s) (t_id (e_view e)) (t_session_id (e_view e))
  | RAcked tid => exists sid, session_at (source s) tid sid /\ arrived s tid sid
  end.
Record transfer_inv s : Prop := {
  tr_source tid r : journal_at (source s) tid r -> source_record s tid r;
  tr_dest tid r : journal_at (dest s) tid r -> dest_record s (payloads (dest s)) tid r;
  tr_runners t x : runners s !! t = Some x -> runner_ok s x;
}.

(** What was exported and imported stays so. *)
Definition grows s s' : Prop := exported s ⊆ exported s' /\ imported s ⊆ imported s'.
Lemma arrived_grows s s' tid sid : grows s s' -> arrived s tid sid -> arrived s' tid sid.
Proof. intros [He Hi] (x & Hx & H1 & H2 & H3 & H4). exists x. by split_and!; [apply He | | | | apply Hi]. Qed.
Lemma made_by_grows s s' tid v key : grows s s' -> made_by s tid v key -> made_by s' tid v key.
Proof. intros [He Hi] (x & Hx & Hm). exists x. split; [by apply He | done]. Qed.
Lemma source_record_grows s s' tid r : grows s s' -> source_record s tid r -> source_record s' tid r.
Proof. intros Hg (H1 & H2 & H3). split_and!; [done | intros; eapply made_by_grows; eauto | intros; eapply arrived_grows; eauto]. Qed.
Lemma dest_record_grows s s' files tid r : grows s s' -> dest_record s files tid r -> dest_record s' files tid r.
Proof. intros Hg (H1 & H2 & H3 & H4 & H5). split_and!; eauto using made_by_grows, arrived_grows. Qed.

(** A step that changes the source by one journal, adds exports and changes one thread. *)
Lemma inv_source s s' t h : transfer_inv s -> grows s s' -> dest s' = dest s ->
  updates (source_record s') (source s) (source s') ->
  runners s' = partial_alter (fun _ => h) t (runners s) -> (forall x, h = Some x -> runner_ok s' x) -> transfer_inv s'.
Proof.
  intros [Hs Hd Hr] Hg Ed Hu Er Hh. split.
  - apply (journals_updates _ _ _ _ Hu); [done|]. intros tid r Hj. eapply source_record_grows; [done|]. by apply Hs.
  - rewrite Ed. intros tid r Hj. eapply dest_record_grows; [done|]. by apply Hd.
  - intros t' x. rewrite Er. rewrite lookup_partial_alter. case_decide; [apply Hh|]. intros Hx. specialize (Hr t' x Hx).
    destruct x as [tid sid ? ? ?|e|e|tid]; cbn in *; rewrite ?Ed.
    + by eapply session_at_updates.
    + destruct Hr. split; [by eapply session_at_updates | by eapply made_by_grows].
    + destruct Hr. split; [by eapply session_at_updates | done].
    + destruct Hr as (sid & H1 & H2). exists sid. split; [by eapply session_at_updates | by eapply arrived_grows].
Qed.
(** A step that changes the destination by one journal, adds imports and changes one thread. *)
Lemma inv_dest s s' t h : transfer_inv s -> grows s s' -> source s' = source s ->
  updates (dest_record s' (payloads (dest s'))) (dest s) (dest s') ->
  (forall tid r, journal_at (dest s) tid r -> dest_record s (payloads (dest s)) tid r -> dest_record s (payloads (dest s')) tid r) ->
  runners s' = partial_alter (fun _ => h) t (runners s) -> (forall x, h = Some x -> runner_ok s' x) -> transfer_inv s'.
Proof.
  intros [Hs Hd Hr] Hg Es Hu Hpay Er Hh. split.
  - rewrite Es. intros tid r Hj. eapply source_record_grows; [done|]. by apply Hs.
  - apply (journals_updates _ _ _ _ Hu); [done|]. intros tid r Hj. eapply dest_record_grows; [done|]. apply Hpay; [done|]. by apply Hd.
  - intros t' x. rewrite Er. rewrite lookup_partial_alter. case_decide; [apply Hh|]. intros Hx. specialize (Hr t' x Hx).
    destruct x as [tid sid ? ? ?|e|e|tid]; cbn in *; rewrite ?Es; try done.
    + destruct Hr. split; [done | by eapply made_by_grows].
    + destruct Hr. split; [done | by eapply session_at_updates].
    + destruct Hr as (sid & H1 & H2). exists sid. split; [done | by eapply arrived_grows].
Qed.

Lemma session_at_of n tid r : journal_at n tid r -> session_at n tid (t_session_id (t_view r)).
Proof. intros Hr. by exists r. Qed.
Lemma session_at_eq n tid r sid : journal_at n tid r -> session_at n tid sid -> t_session_id (t_view r) = sid.
Proof. unfold journal_at. intros Hr (r' & Hr' & <-). unfold journal_at in Hr'. congruence. Qed.

(** ** The source's operations. *)
Lemma update_source s w tid st error deleted n res : transfer_inv s ->
  update_transfer w tid st error deleted (source s) = (n, res) ->
  (forall r, journal_at (source s) tid r -> acknowledged st = true -> arrived s tid (t_session_id (t_view r))) ->
  updates (source_record s) (source s) n.
Proof.
  intros Hi E Hack. apply update_transfer_updates in E; [|intros t r Hr; apply (tr_source _ Hi _ _ Hr)].
  revert E. apply updates_impl. intros t r (-> & r0 & Hr0 & ->). destruct (tr_source _ Hi _ _ Hr0) as (H1 & H2 & _).
  split_and!; [done | exact H2|]. cbn. by apply Hack.
Qed.
Lemma reconcile_source s o w error_text tid n res : transfer_inv s ->
  reconcile_outgoing_after_ack o w error_text tid (source s) = (n, res) -> updates (source_record s) (source s) n.
Proof.
  intros Hi. unfold reconcile_outgoing_after_ack. destruct (transfer tid (source s)) as [v|] eqn:Ev; [|intros [= <- _]; by left].
  apply transfer_ok in Ev as (r & Hr & ->).
  destruct (negb (eqs (direction _) _)); [intros [= <- _]; by left|]. destruct (eqs (status _) "completed"); [intros [= <- _]; by left|].
  destruct (acknowledged (status (t_view r))) eqn:Hack; [|intros [= <- _]; by left]. cbn [negb].
  assert (forall st error deleted m, journals m = journals (source s) -> forall n' res', update_transfer w tid st error deleted m = (n', res') ->
    updates (source_record s) (source s) n') as Hup.
  { intros st error deleted m Em n' res' E.
    apply update_transfer_updates in E; [|unfold journal_at; rewrite Em; intros t r' Hr'; apply (tr_source _ Hi _ _ Hr')].
    unfold updates, journal_at in E |- *. rewrite Em in E. revert E. apply (updates_impl _ _ (source s)).
    intros t r' (-> & r0 & Hr0 & ->). assert (r0 = r) as -> by (unfold journal_at in Hr; congruence).
    destruct (tr_source _ Hi _ _ Hr) as (H1 & H2 & H3). split_and!; [done | exact H2 | intros _; by apply H3]. }
  destruct (eqs (mode _) "move").
  - destruct (delete_after_transfer _ _ _ _) as [m del] eqn:Ed.
    assert (journals m = journals (source s)) as Em.
    { revert Ed. unfold delete_after_transfer. destruct (let? _ := _ in _); [|by intros [= <- _]]. destruct (_ || _); [by intros [= <- _]|].
      destruct (records _ !! _); [|by intros [= <- _]]. destruct (busy _); [by intros [= <- _]|].
      destruct (remove_file _ _ _) as [files [|]]; by intros [= <- _]. }
    destruct del; (destruct (update_transfer _ _ _ _ _ m) as [m' [|]] eqn:Eu; intros [= <- _]; by eapply Hup).
  - destruct (eqs (mode _) "copy"); [|intros [= <- _]; by left].
    destruct (update_transfer _ _ _ _ _ _) as [m' [|]] eqn:Eu; intros [= <- _]; by eapply Hup.
Qed.
Lemma failure_source s w tid error : transfer_inv s -> updates (source_record s) (source s) (record_transfer_failure w tid error (source s)).
Proof.
  intros Hi. unfold record_transfer_failure. destruct (transfer tid (source s)) as [v|] eqn:Ev; cycle 1.
  - destruct (update_transfer _ _ _ _ _ _) as [m res] eqn:Eu. by eapply update_source.
  - apply transfer_ok in Ev as (r & Hr & ->).
    destruct (if eqs _ _ then _ else _) as [st deleted] eqn:Est. destruct (update_transfer _ _ _ _ _ _) as [m res] eqn:Eu.
    eapply update_source; [done | exact Eu|]. intros r' Hr' Hst. assert (r' = r) as -> by (unfold journal_at in *; congruence).
    apply (tr_source _ Hi _ _ Hr). revert Est Hst. repeat case_match; by intros [= <- <-].
Qed.
Lemma register_source s w tid sid dst md n res : transfer_inv s ->
  register_outgoing w tid sid dst md "decode" (source s) = (n, res) -> updates (source_record s) (source s) n.
Proof.
  intros Hi. unfold register_outgoing. destruct (let? _ := _ in _); [|intros [= <- _]; by left].
  case_bool_decide as Hnone; [intros [= <- _]; by left|]. destruct (records _ !! _); [|intros [= <- _]; by left].
  destruct (_ || _); [intros [= <- _]; by left|]. intros [[[-> _]| ->] _]%written_updates; [by left|]. right.
  eexists _, _. split; [done|]. split; [done|]. split; [left; by apply eq_None_not_Some|]. split; [done|]. by split.
Qed.
Lemma export_source s c tid sid dst md b n res : transfer_inv s -> session_at (source s) tid sid ->
  export_write c tid sid dst md "decode" b (source s) = (n, res) ->
  let s' := mkSystem n (dest s) (runners s) (mkExported tid sid c b :: exported s) (imported s) in
  updates (source_record s') (source s) n /\
  (forall e, res = Ok e -> session_at n tid sid /\ t_id (e_view e) = tid /\ t_session_id (e_view e) = sid /\ made_by s' tid (e_view e) (e_key e)).
Proof.
  intros Hi Hat. unfold export_write. set (x := mkExported tid sid c b). change (encrypt_envelope _ _ _) with (envelope x).
  destruct (write_file _ _ _ _) as [files [[]|]]; [|intros [= <- <-]; split; [by left | done]].
  intros [Hn Ha]%written_updates. cbn zeta.
  assert (forall m, x ∈ exported (mkSystem m (dest s) (runners s) (x :: exported s) (imported s))) as Hin by (intros m; apply elem_of_cons; by left).
  set (v := mkTransferView _ _ _ _ _ _ _ _ _ _ _) in *.
  assert (updates (source_record (mkSystem n (dest s) (runners s) (x :: exported s) (imported s))) (source s) n) as Hu.
  { destruct Hn as [[-> _]| ->]; [by left | right]. exists tid, (mkTransfer v (x_key c) (identity_of b)). split; [done|]. cbn. split; [done|].
    split; [right; destruct Hat as (r0 & Hr0 & Es); by exists r0|]. split_and!; [done | | done]. intros _. exists x. by split. }
  split; [done|]. intros e He. rewrite (Ha e He). cbn. split; [by eapply session_at_updates|].
  split_and!; [done | done|]. exists x. by split.
Qed.

(** ** The destination's operations. *)
Lemma payloads_same n n' : payloads n' = payloads n -> forall s tid r, journal_at n tid r -> dest_record s (payloads n) tid r ->
  dest_record s (payloads n') tid r.
Proof. by intros ->. Qed.
Lemma prepare_dest s w e own n res : transfer_inv s -> made_by s (t_id (e_view e)) (e_view e) (e_key e) ->
  prepare_handler w e own (dest s) = (n, res) ->
  payloads n = payloads (dest s) /\ updates (dest_record s (payloads n)) (dest s) n /\
  (forall v, res = Ok v -> session_at n (t_id (e_view e)) (t_session_id (e_view e)) /\
    (eqs (status v) "committed" = true -> arrived s (t_id (e_view e)) (t_session_id (e_view e)))).
Proof.
  intros Hi Hm. unfold prepare_handler. destruct (negb (serves _ _)); [by intros [= <- <-]; split_and!; [|left|]|].
  unfold prepare_import. set (tid := t_id (e_view e)) in *. set (sid := t_session_id (e_view e)) in *. set (iv := import_view _ _ _ _ _ _ _).
  destruct (validate_id tid) as [[]|]; [|by intros [= <- <-]; split_and!; [|left|]]. cbn [lift result_map_err].
  destruct (validate_id sid) as [[]|] eqn:Hsid; [|by intros [= <- <-]; split_and!; [|left|]]. cbn [lift result_map_err].
  destruct (if negb (valid_mode _) then _ else _) as [[]|]; [|by intros [= <- <-]; split_and!; [|left|]].
  case_bool_decide as Hsome.
  - intros [= <- <-]. split; [done|]. split; [by left|]. intros v. destruct (read_transfer tid (dest s)) as [r|] eqn:Er; [|done].
    apply read_transfer_ok in Er. destruct (same_import _ _ && _ && _) eqn:Es; [|done]. intros [= <-].
    unfold same_import in Es. bool_prop. assert (t_session_id (t_view r) = sid) as <- by done.
    split; [by apply session_at_of|]. intros Hc. by apply (tr_dest _ Hi _ _ Er).
  - intros [Hn Ha]%written_updates. assert (updates (dest_record s (payloads n)) (dest s) n) as Hu.
    { destruct Hn as [[-> _]| ->]; [by left | right]. exists tid, (mkTransfer iv (e_key e) (e_identity e)). split; [done|]. split; [done|].
      split; [left; by apply eq_None_not_Some|]. split_and!; done. }
    split; [by destruct Hn as [[-> _]| ->]|]. split; [done|]. intros v Hv. rewrite (Ha v Hv). split; [|done].
    destruct Hn as [[_ [e' He]]| ->]; [congruence|]. exists (mkTransfer iv (e_key e) (e_identity e)). split; [|done].
    unfold journal_at. cbn [journals with_journals t_view]. by rewrite lookup_insert_eq.
Qed.

Lemma accept_dest s w w' tid staging n res : transfer_inv s -> accept_payload w w' tid staging (dest s) = (n, res) ->
  updates (dest_record s (payloads n)) (dest s) n /\
  (forall t r, journal_at (dest s) t r -> dest_record s (payloads (dest s)) t r -> dest_record s (payloads n) t r).
Proof.
  intros Hi. unfold accept_payload. destruct (read_transfer tid (dest s)) as [r|] eqn:Er; [|by intros [= <- _]; split; [left|]].
  apply read_transfer_ok in Er. destruct staging as [f|]; [|by intros [= <- _]; split; [left|]].
  destruct (negb _ || _) eqn:Ef; [by intros [= <- _]; split; [left|]|]. bool_prop.
  set (files' := <[tid := f]> (payloads (dest s))).
  assert (forall t r', journal_at (dest s) t r' -> dest_record s (payloads (dest s)) t r' -> dest_record s files' t r') as Hpay.
  { intros t r' Hr' (K1 & K2 & K3 & K4 & K5). split_and!; try done. intros Hup. unfold files'. rewrite lookup_insert. case_decide; [|by apply K4].
    exists f. split; [done|]. subst t. unfold journal_at in *. assert (r' = r) as -> by congruence. done. }
  destruct w; cbn [rename].
  2: by intros [= <- _]; split; [left|].
  2: by intros [= <- _]; split; [left|].
  intros [Hn _]%written_updates. assert (payloads n = files') as En by (destruct Hn as [[-> _]| ->]; done). rewrite En.
  split; [|exact Hpay]. destruct Hn as [[-> _]| ->]; [by left | right].
  destruct (tr_dest _ Hi _ _ Er) as (K1 & K2 & K3 & K4 & K5). eexists _, _. split; [done|]. cbn [t_view with_view with_status t_id]. split; [done|].
  rewrite K1. split; [right; by exists r|]. split_and!; try done. intros _. exists f. cbn. unfold files'. by rewrite lookup_insert_eq.
Qed.

Context `{!SealingLaws}.
(** The bundle that is imported is the one that was exported. *)
Lemma open_payload_made r x : made x (t_id (t_view r)) (t_session_id (t_view r)) (transport_key r) (sha256 (t_view r)) -> faithful x ->
  forall b, open_payload r (envelope x) = Ok b -> b = xd_bundle x /\ validate_bundle b (t_session_id (t_view r)) = Ok tt.
Proof.
  intros (_ & _ & Ek & _) (Hn & Hcodec & _) b. unfold open_payload, envelope. rewrite Ek, decrypt_encrypt_envelope by done.
  cbn [lift result_map_err]. rewrite Hcodec. cbn [ok_or lift result_map_err].
  destruct (validate_bundle _ _) as [[]|] eqn:Ev; cbn; [|done]. by intros [= <-].
Qed.
Lemma validate_bundle_id b id_ : validate_bundle b id_ = Ok tt -> session_id b = id_.
Proof. unfold validate_bundle. destruct (negb _ || _) eqn:E; [done|]. bool_prop. done. Qed.
Lemma import_bundle_ok s tid expected r ob : transfer_inv s -> Forall faithful (exported s) ->
  import_bundle tid expected (dest s) = Ok (r, ob) ->
  journal_at (dest s) tid r /\
  match ob with
  | None => eqs (status (t_view r)) "committed" = true
  | Some b => validate_bundle b (t_session_id (t_view r)) = Ok tt /\
      exists x, x ∈ exported s /\ made x tid (t_session_id (t_view r)) (transport_key r) (sha256 (t_view r)) /\ faithful x /\ b = xd_bundle x
  end.
Proof.
  intros Hi Hf. unfold import_bundle. destruct (read_transfer tid (dest s)) as [r0|] eqn:Er; [|done]. apply read_transfer_ok in Er.
  destruct (negb (serves _ _)); [done|]. destruct (eqs (status _) "committed") eqn:Ec; [by intros [= <- <-]|].
  destruct (eqs (status (t_view r0)) "uploaded") eqn:Eu; [|done]. cbn [negb].
  destruct (tr_dest _ Hi _ _ Er) as (H1 & _ & (x & Hx & Hm) & H4 & _). destruct (H4 Eu) as (f & Hfile & Hsha). rewrite Hfile.
  cbn [read_private]. destruct (private_regular f); cbn [lift result_map_err]; [|done].
  assert (faithful x) as Hfx by (rewrite Forall_forall in Hf; by apply Hf).
  assert (contents f = envelope x) as ->. { apply Hfx. rewrite Hsha. apply Hm. }
  rewrite <- H1 in Hm. pose proof (open_payload_made r0 x Hm Hfx) as Ho. destruct (open_payload r0 (envelope x)) as [b|]; [|done].
  destruct (negb _); [done|]. intros [= <- <-]. split; [done|]. destruct (Ho b eq_refl) as [-> Hv]. split; [done|].
  exists x. rewrite <- H1. done.
Qed.
Lemma install_keeps c b n n' res : install_imported_bundle c b n = (n', res) -> journals n' = journals n /\ payloads n' = payloads n.
Proof.
  unfold install_imported_bundle. repeat (case_match; [by intros [= <- _]|]). destruct (seal_file _ _ _ _) as [[k f] [|]]; by intros [= <- _].
Qed.
Lemma commit_dest s c w tid expected : transfer_inv s -> Forall faithful (exported s) ->
  let s' := after_commit s c w tid expected in
  payloads (dest s') = payloads (dest s) /\ updates (dest_record s' (payloads (dest s'))) (dest s) (dest s') /\
  (forall v, (commit_import c w tid expected (dest s)).2 = Ok v -> eqs (status v) "committed" = true ->
    exists sid, session_at (dest s) tid sid /\ arrived s' tid sid).
Proof.
  intros Hi Hf. unfold after_commit, commit_import, imports. destruct (import_bundle _ _ _) as [[r [b|]]|] eqn:Ei; cbn [dest].
  - apply (import_bundle_ok s) in Ei as (Hr & Hvalid & x & Hx & Hm & Hfx & ->); [|done..].
    destruct (install_imported_bundle _ _ _) as [n [|]] eqn:En; apply install_keeps in En as [Ej Ep].
    2: { cbn [fst snd]. split_and!; [done | by left | done]. }
    destruct (written _ _ _ _) as [n' res] eqn:Ew. apply written_updates in Ew as [Hn Ha]. cbn [fst snd app].
    destruct (tr_dest _ Hi _ _ Hr) as (H1 & H2 & H3 & H4 & H5). set (s' := mkSystem _ _ _ _ _).
    assert (arrived s' tid (t_session_id (t_view r))) as Harr.
    { exists x. destruct Hm as (? & ? & _). split_and!; try done; [by apply validate_bundle_id | apply elem_of_cons; by left]. }
    assert (payloads n' = payloads (dest s)) as Ep' by (destruct Hn as [[-> _]| ->]; done).
    split; [done|]. split.
    + rewrite Ep'. destruct Hn as [[-> _]| ->]; [by left; cbn | right]. eexists _, _. split; [cbn; by rewrite Ej|].
      cbn [t_view with_view with_status t_id]. split; [done|]. rewrite H1. split; [right; by exists r|]. split_and!; try done.
    + intros v _ _. exists (t_session_id (t_view r)). split; [by apply session_at_of | done].
  - apply (import_bundle_ok s) in Ei as (Hr & Hc); [|done..]. cbn. split_and!; [done | by left|]. intros v [= <-] _.
    exists (t_session_id (t_view r)). split; [by apply session_at_of|]. by apply (tr_dest _ Hi _ _ Hr).
  - cbn. split_and!; [done | by left | done].
Qed.

(** ** Every step. *)
Lemma grows_same s s' : exported s' = exported s -> imported s' = imported s -> grows s s'.
Proof. by intros E E'; split; rewrite ?E, ?E'. Qed.
(** The step of the source alone, with or without a thread. *)
Lemma inv_with_source s n : transfer_inv s -> updates (source_record s) (source s) n -> transfer_inv (with_source s n).
Proof.
  intros Hi Hu. apply (inv_source s _ 0%nat (runners s !! 0%nat)); try done; cbn.
  - by rewrite partial_alter_self.
  - intros x Hx. apply (tr_runners _ Hi) in Hx. destruct x as [tid sid ? ? ?|e|e|tid]; cbn in *; [| | |].
    + by eapply session_at_updates.
    + destruct Hx. split; [by eapply session_at_updates | done].
    + destruct Hx. split; [by eapply session_at_updates | done].
    + destruct Hx as (sid & ? & ?). exists sid. split; [by eapply session_at_updates | done].
Qed.
Lemma inv_with_runner s t h : transfer_inv s -> (forall x, h = Some x -> runner_ok s x) -> transfer_inv (with_runner s t h).
Proof. intros Hi Hh. apply (inv_source s _ t h); try done. by left. Qed.
Lemma inv_after_commit s c w tid expected : transfer_inv s -> Forall faithful (exported s) ->
  transfer_inv (after_commit s c w tid expected).
Proof.
  intros Hi Hf. destruct (commit_dest s c w tid expected Hi Hf) as (Ep & Hu & _).
  assert (grows s (after_commit s c w tid expected)) as Hg by (split; [done | intros y Hy; apply elem_of_app; by right]).
  apply (inv_dest s _ 0%nat (runners s !! 0%nat)); try done.
  - intros t r _ Hr. by rewrite Ep.
  - cbn. by rewrite partial_alter_self.
  - intros x Hx. apply (tr_runners _ Hi) in Hx. destruct x as [tid' sid ? ? ?|e|e|tid']; cbn [runner_ok] in *; try done.
    + destruct Hx. split; [done | by eapply session_at_updates].
    + destruct Hx as (sid & ? & ?). exists sid. split; [done | by eapply arrived_grows].
Qed.
Lemma acked_runner s tid sid : session_at (source s) tid sid -> arrived s tid sid -> runner_ok s (RAcked tid).
Proof. intros. by exists sid. Qed.
Lemma session_at_fun n tid sid sid' : session_at n tid sid -> session_at n tid sid' -> sid = sid'.
Proof. intros (r & Hr & <-). by apply session_at_eq. Qed.

Lemma step_grows s s' : transfer_step s s' -> grows s s'.
Proof.
  destruct 1; try by split.
  - split; cbn; [|done]. intros y Hy. apply elem_of_cons. by right.
  - split; cbn; [done|]. intros y Hy. apply elem_of_app. by right.
  - split; cbn; [done|]. intros y Hy. apply elem_of_app. by right.
Qed.
Lemma inv_step s s' : transfer_step s s' -> Forall faithful (exported s) -> transfer_inv s -> transfer_inv s'.
Proof.
  intros Hstep Hf Hi. destruct Hstep as [s m k files|s m k files|s w tid sid dst md n res E|s t tid sid dst md cur b Hn Hc E
    |s t c tid sid dst md b n res Ht E|s t tid e Hn E|s w tid n res E|s t w e own n res ans Ht E|s w w' tid stg n res E
    |s c w tid ex|s t e c w ex v Ht E Hv|s t e v Ht E Hv|s t w tid n res Ht E|s o w et tid n res E|s t w tid err|s t].
  - apply inv_with_source; [done | by left].
  - apply (inv_dest s _ 0%nat (runners s !! 0%nat)); try done; [by left | by cbn; rewrite partial_alter_self|].
    intros x Hx. by apply (tr_runners _ Hi 0%nat x) in Hx; destruct x.
  - apply inv_with_source; [done|]. by eapply register_source.
  - apply inv_with_runner; [done|]. intros x [= <-]. cbn. unfold export_read in E.
    apply transfer_ok in Hc as (r & Hr & _). exists r. split; [done|].
    destruct (lift _); [|done]. destruct (lift _); [|done]. destruct (negb _); [done|]. destruct (validate_transfer_tier _); [|done].
    rewrite bool_decide_eq_true_2 in E by (by rewrite Hr). unfold read_transfer in E. rewrite Hr in E.
    destruct (lift _); [|done]. cbn iota beta in E. destruct (negb _ || _ || _ || _ || _) eqn:Eb; [done|]. bool_prop. done.
  - pose proof (tr_runners _ Hi _ _ Ht) as Hat. destruct (export_source s c tid sid dst md b n res Hi Hat E) as [Hu Hok]. cbn zeta in *.
    eapply (inv_source s _ t); try done; [|].
    + split; cbn; [|done]. intros y Hy. apply elem_of_cons. by right.
    + intros x. destruct res as [e|]; [|done]. intros [= <-]. destruct (Hok e eq_refl) as (K1 & K2 & K3 & K4). cbn. by rewrite K2, K3.
  - apply inv_with_runner; [done|]. intros x [= <-]. unfold resume_export in E.
    destruct (read_transfer tid (source s)) as [r|] eqn:Er; [|done]. apply read_transfer_ok in Er.
    destruct (negb _ || _ || _) eqn:Eb; [done|]. destruct (lift (read_private _)); [|done].
    destruct (negb _ || _) in E; [done|]. injection E as <-. bool_prop.
    destruct (tr_source _ Hi _ _ Er) as (K1 & K2 & _). cbn. rewrite K1. split; [by exists r|]. by apply K2.
  - apply inv_with_source; [done|]. by eapply update_source.
  - destruct (tr_runners _ Hi _ _ Ht) as [Hat Hm]. destruct (prepare_dest s w e own n res Hi Hm E) as (Ep & Hu & Hok).
    eapply (inv_dest s _ t); try done; [by intros t' r _; cbn; rewrite Ep|].
    intros x. destruct ans, res as [v|]; cbn [after_prepare]; try done. destruct (Hok v eq_refl) as [Hd Hc].
    destruct (eqs (status v) "committed"); intros [= <-]; [|done]. apply (acked_runner _ _ _ Hat). by apply Hc.
  - destruct (accept_dest s w w' tid stg n res Hi E) as [Hu Hp].
    apply (inv_dest s _ 0%nat (runners s !! 0%nat)); try done; [by cbn; rewrite partial_alter_self|].
    intros x Hx. apply (tr_runners _ Hi) in Hx. destruct x as [|e|e|]; try done. destruct Hx. split; [done | by eapply session_at_updates].
  - by apply inv_after_commit.
  - apply inv_with_runner; [by apply inv_after_commit|]. intros x [= <-]. destruct (tr_runners _ Hi _ _ Ht) as [Hat Hd].
    destruct (commit_dest s c w (t_id (e_view e)) ex Hi Hf) as (_ & _ & Ha). destruct (Ha v E Hv) as (sid & Hs & Harr).
    rewrite (session_at_fun _ _ _ _ Hs Hd) in Harr. by eexists.
  - apply inv_with_runner; [done|]. intros x [= <-]. destruct (tr_runners _ Hi _ _ Ht) as [Hat Hd].
    apply transfer_ok in E as (r & Hr & ->). apply (acked_runner _ _ _ Hat). rewrite <- (session_at_eq _ _ _ _ Hr Hd).
    by apply (tr_dest _ Hi _ _ Hr).
  - destruct (tr_runners _ Hi _ _ Ht) as (sid & Hat & Harr). apply inv_with_runner; [|done]. apply inv_with_source; [done|].
    eapply update_source; [done | exact E|]. intros r Hr _. by rewrite (session_at_eq _ _ _ _ Hr Hat).
  - apply inv_with_source; [done|]. by eapply reconcile_source.
  - apply inv_with_runner; [|done]. apply inv_with_source; [done|]. by apply failure_source.
  - by apply inv_with_runner.
Qed.
Lemma transfers_reachable s : reachable s -> Forall faithful (exported s) -> transfer_inv s.
Proof.
  intros (s0 & Hi & Hr). revert s Hr. apply (rtc_ind_r (fun s => Forall faithful (exported s) -> transfer_inv s)).
  - intros _. destruct Hi as (H1 & H2 & H3 & _ & _). split; unfold journal_at; rewrite ?H1, ?H2, ?H3; intros ? ?; by rewrite lookup_empty.
  - intros s s' _ Hstep IH Hf. assert (Forall faithful (exported s)) as Hf'.
    { apply Forall_forall. intros x Hx. rewrite Forall_forall in Hf. apply Hf. by apply (step_grows _ _ Hstep). }
    by eapply inv_step, IH.
Qed.

Lemma delete_after_transfer_ok o id_ tid n n' : delete_after_transfer o id_ tid n = (n', Ok true) ->
  exists r, journal_at n tid r /\ t_session_id (t_view r) = id_ /\ acknowledged (status (t_view r)) = true.
Proof.
  unfold delete_after_transfer. destruct (lift (validate_id id_)); [|done]. destruct (read_transfer tid n) as [r|] eqn:Er; [|done].
  apply read_transfer_ok in Er. destruct (negb _ || _ || _ || _ || _) eqn:Eb; [done|]. bool_prop. intros _. by exists r.
Qed.
Lemma install_imported_bundle_ok c b n n' : install_imported_bundle c b n = (n', Ok tt) ->
  records n' !! session_id b = Some (restored_record b) /\
  exists f, seal_file c b (key_file n) (bundles n !! session_id b) = (key_file n', f, Ok tt) /\ bundles n' !! session_id b = f.
Proof.
  unfold install_imported_bundle. repeat (case_match; [done|]). destruct (seal_file _ _ _ _) as [[k f] [[]|]] eqn:Es; [|done].
  intros [= <-]. cbn [records with_records bundles key_file]. rewrite lookup_insert_eq. split; [done|]. exists f. split; [done|].
  by rewrite lookup_partial_alter_eq.
Qed.
End Safety.

(** ** A concrete move of the session of [SessionRuns]. *)
#[local] Existing Instance toy_sealing.
#[local] Existing Instance toy_sealing_laws.
Definition toy_transfer : str := string_bytes "xfer-1".
Definition toy_origin : str := string_bytes "https://node-b".
Definition toy_turn : SessionBundle := with_revision toy_bundle 1.
Definition toy_own : SessionIdentity := identity_of toy_turn.
Definition toy_choices : ExportChoices := mkExportChoices (replicate 32 "k"%byte) (replicate 24 "n"%byte) Written Written.
Definition toy_seal : SealChoices := mkChoices (replicate 32 "k"%byte) Written (replicate 24 "n"%byte) Written.
Definition toy_view : TransferView :=
  mkTransferView toy_transfer toy_id "outgoing" "move" "decode" toy_origin "prepared" 42 (replicate 64 "a"%byte) false None.
Definition toy_export : TransferExport := mkExport toy_view (replicate 32 "k"%byte) toy_own.
Definition toy_import (st : string) : TransferView :=
  mkTransferView toy_transfer toy_id "incoming" "move" "decode" (string_bytes "muser-decode-source") st 42 (replicate 64 "a"%byte) false None.

Definition move0 : System := mkSystem (mkNode toy_committed None ∅ ∅ ∅) (mkNode ∅ None ∅ ∅ ∅) ∅ [] [].
Definition move1 : System :=
  with_source move0 (register_outgoing Written toy_transfer toy_id toy_origin "move" "decode" (source move0)).1.
Definition move2 : System := with_runner move1 0 (Some (RExporting toy_transfer toy_id toy_origin "move" toy_turn)).
Definition move3 : System :=
  mkSystem (export_write toy_choices toy_transfer toy_id toy_origin "move" "decode" toy_turn (source move2)).1 (dest move2)
    (partial_alter (fun _ => Some (RSending toy_export)) 0%nat (runners move2))
    (mkExported toy_transfer toy_id toy_choices toy_turn :: exported move2) (imported move2).
Definition move4 : System :=
  with_runner (with_dest move3 (prepare_handler Written toy_export toy_own (dest move3)).1) 0 (Some (RUploading toy_export)).
Definition move5 : System :=
  with_dest move4 (accept_payload Written Written toy_transfer (Some (mkFile toy_envelope true)) (dest move4)).1.
Definition move6 : System := with_runner (after_commit move5 toy_seal Written toy_transfer toy_own) 0 (Some (RAcked toy_transfer)).
Definition move7 : System :=
  with_runner (with_source move6 (update_transfer Written toy_transfer "destination_committed" None false (source move6)).1) 0 None.

Ltac computed := vm_compute; reflexivity.
Ltac computed_outcome := apply outcome; computed.
Lemma move7_reachable : reachable move7.
Proof.
  exists move0. split; [by split_and!|]. eapply rtc_l; [eapply (t_register move0 Written toy_transfer toy_id toy_origin "move"); computed_outcome|].
  eapply rtc_l; [eapply (t_export_read move1 0 toy_transfer toy_id toy_origin "move"); [computed..]|].
  eapply rtc_l; [eapply (t_export_write move2 0 toy_choices _ _ _ _ _ _ (Ok toy_export)); [computed | computed_outcome]|].
  eapply rtc_l; [eapply (t_prepare move3 0 Written toy_export toy_own _ (Ok (toy_import "prepared")) true); [computed | computed_outcome]|].
  eapply rtc_l; [eapply (t_upload move4 Written Written toy_transfer (Some (mkFile toy_envelope true))); computed_outcome|].
  eapply rtc_l; [eapply (t_commit_answered move5 0 toy_export toy_seal Written toy_own (toy_import "committed")); computed|].
  apply rtc_once. eapply (t_acknowledge move6 0 Written toy_transfer); [computed | computed_outcome].
Qed.
Lemma move7_faithful : Forall faithful (exported move7).
Proof.
  repeat constructor. intros bytes. change (envelope _) with toy_envelope. cbn [sha256_hex toy_sealing].
  rewrite (bool_decide_eq_true_2 (toy_envelope = _)) by done. case_bool_decide; [done|]. intros E. by injection E.
Qed.
